(* ===== verification/_CoqProject ===== *)
-Q . S2P
Prelude.v
KadKey.v
KadBucket.v
KadTable.v
KadClosest.v
KadCount.v
BTreeMap.v
KadPeers.v
KadLookup.v
KadFixed.v
KadDisjoint.v
KadQuery.v
KadPool.v
KadStore.v
KadJobs.v
AsyncIo.v
LengthDelimited.v
MsProtocol.v
MsNegotiated.v
MsSelect.v
MsNegotiation.v
MsSystem.v
MplexCodec.v
Mplex.v
MplexCore.v
MplexStreams.v
MplexSystem.v
MplexTasks.v
GossipTimeCache.v
GossipBackoff.v
GossipMcache.v
Float64.v
GossipRpc.v
GossipFilter.v
GossipBehaviour.v
GossipScore.v
GossipHeartbeat.v
GossipMessages.v
GossipProtocol.v
GossipMesh.v
GossipDelivery.v
GossipExamples.v
RelayRateLimiter.v
CoreRecord.v
RendezvousCodec.v
RendezvousServer.v
RendezvousHandler.v
RendezvousClient.v
SwarmPool.v
RequestResponse.v
RequestResponseSystem.v
RequestResponseRun.v
