(* ===== verification/Prelude.v ===== *)
(** * A verification development of rust-libp2p

    The repository is a peer-to-peer networking stack.  Connections are made by a
    transport; the two ends agree on protocols with multistream-select; a
    multiplexer such as mplex carries many streams over one connection; protocols
    like Kademlia (a distributed hash table), gossipsub (publish and subscribe),
    the relay or rendezvous run on these streams, driven by the swarm.  This
    development models the parts of the stack that decide what the protocols do,
    that is their data structures and state machines, as executable functions, and
    proves what they promise to the code that uses them.

    ** Conventions

    A function [f] of the source is the definition [f], a method [T::m] the
    definition [T_m], in the file of its component.  Structs are records and enums
    inductive types with the constructors of the source.  Mutation is state passing:
    a method of [&mut self] returns the new state after its result.

    - A computation that may panic returns an [outcome], [Ret] or [Panic]; a failed
      [expect], [unwrap], assertion, index or checked arithmetic is [Panic].
    - [Result] is a sum, [Poll] is [Ready] or [Pending], and a [loop] of the source is
      [loop fuel body], which is [Panic] if the turns do not suffice: a theorem that
      a call returns thus also shows that it terminates.
    - The clock is an argument, instants and durations are numbers ([N]), of
      nanoseconds where their sums are checked.  Sums and differences of instants and
      durations panic outside the range of [Instant] in [KadJobs], and in gossipsub
      where a remote chooses the duration (backoffs) or the code subtracts; sums of the
      clock and a configured duration are unbounded elsewhere.
    - Hash maps and sets are [gmap] and [gset]; where the order of iteration matters
      it is an argument, of which only that it is a permutation is assumed.
    - Machine integers are [N] or [nat] with their width where the code can reach it.
    - Code of other crates is a parameter, usually the methods of a class, with a
      second class of laws; an instance shows that the laws can be satisfied.

    ** Files

    Generic: [Prelude] (outcomes, results, loops, arithmetic, lists), [BTreeMap],
    [AsyncIo] (the I/O traits and variable-length integers as interfaces), [Float64]
    (the operations on [f64], by the executable specification of IEEE 754 that the
    standard library has).

    Kademlia, [src/protocols/kad/src/]:
    - [KadKey] models [kbucket/key.rs], keys and the XOR metric.
    - [KadBucket] models [kbucket/bucket.rs].  Every sequence of operations on a
      bucket refines the same operations on two queues of connected and disconnected
      nodes; the life of a pending node is described.
    - [KadTable], [KadClosest] and [KadCount] model [kbucket.rs] and
      [kbucket/entry.rs].  The table keeps its invariant, the entry API reads back
      what it wrote, [closest_keys] yields all keys of the table in the order of
      their distance, and [count_nodes_between] counts the nodes it names.
    - [KadPeers] models [query/peers/closest.rs]: what [next] answers, that it never
      panics, and its limits.  [KadLookup] runs the iterator in a network and shows
      that it finds the closest peers.  [KadFixed] models [query/peers/fixed.rs]: for
      every interleaving it ends, with the peers that have answered.
      [KadDisjoint] models [query/peers/closest/disjoint.rs]: no peer is contacted by
      two paths, and the result merges the paths by distance.
    - [KadQuery] and [KadPool] model [query.rs]: a query over any peer iterator, the
      pool and its statistics.
    - [KadStore] models [record.rs] and [record/store/memory.rs]: limits, and that
      the providers closest to a key are kept.  [KadJobs] models [jobs.rs]: which
      records a run hands out, each once, which it removes and which it leaves.

    Multistream-select, [src/misc/multistream-select/src/]:
    - [LengthDelimited], [MsProtocol] and [MsNegotiated] model [length_delimited.rs],
      [protocol.rs] and [negotiated.rs]; codecs are inverse to each other.
    - [MsSelect] models [dialer_select.rs] and [listener_select.rs].  [MsNegotiation]
      and [MsSystem] connect the serial dialer and a listener by a network: they never
      disagree on the protocol, and under fair scheduling both complete.

    Mplex, [src/muxers/mplex/src/]:
    - [MplexCodec] models [codec.rs] and [config.rs], [Mplex] models [io.rs] and
      [lib.rs].  [MplexCore] describes the operations as a transition system,
      [MplexStreams] states the invariant of a stream.  [MplexSystem] shows that a
      multiplexer is safe against any remote and that, of two connected ones, each
      reads what the other wrote.  [MplexTasks] is about wakers.

    Gossipsub, [src/protocols/gossipsub/src/]:
    - [GossipTimeCache] models [time_cache.rs], [GossipBackoff] [backoff.rs] and
      [GossipMcache] [mcache.rs].  Each is shown to implement, efficiently, what
      a plain map with expiry times, recorded intervals or ages would.
    - [GossipRpc] models the messages of [types.rs] and [rpc.proto] and how
      [behaviour.rs] fragments them: nothing is lost or reordered.  [GossipProtocol]
      models how [protocol.rs] validates and decodes them: what the other peer
      receives of what a peer sends in each mode, and in the strict mode all messages are signed by the
      peer they name.  [GossipFilter] models [subscription_filter.rs].
    - [GossipBehaviour], [GossipHeartbeat] and [GossipMessages] model
      [behaviour.rs], with [config.rs] and [gossip_promises.rs]: the state, with
      subscriptions, GRAFT, PRUNE and connections; the heartbeat; and messages, IHAVE
      and IWANT with the events of the handlers and [poll].  Random choices come from a
      generator of which only is assumed that it permutes; the scores of peers are the
      interface [PeerScoring], over which all theorems are stated.
    - [GossipMesh] runs all operations in any order: nothing panics, the tables stay
      consistent, and a heartbeat restores every mesh.  The conditions are those of
      [config_ok] (a configuration that [build] accepts, without the values it
      fails to check), [clock_ok] (the clock plus each of the configured durations that are
      added to it is an instant) and [op_ok] (what the
      swarm guarantees, and the values of remotes that the code fails to check).
      [GossipDelivery] shows that messages are delivered once and bounds what peers
      are asked for.  [GossipExamples] has runs that show what goes wrong without the
      conditions, and other behaviours that are not intended.
    - [GossipScore] models [peer_score.rs] and [peer_score/params.rs], an
      implementation of [PeerScoring]: counters are consistent and never negative, and
      reconnecting does not improve a score.

    Relay, [src/protocols/relay/src/v2/relay/]:
    - [RelayRateLimiter] models [rate_limiter.rs]: the rate is bounded, by the
      interval in whole microseconds, and tokens come back.

    Identities and signed records, [src/core/src/]:
    - [CoreRecord] models the public keys of [identity.rs], [peer_id.rs],
      [signed_envelope.rs] and [peer_record.rs] over any signature schemes: signed
      records are read back as they were made, and what is signed determines its
      domain, type and payload.

    Rendezvous, [src/protocols/rendezvous/src/]:
    - [RendezvousCodec] models [codec.rs]: messages are read back as they were
      written.  It uses signed records through an interface that [CoreRecord]
      implements.
    - [RendezvousServer] models [server.rs]: who can register what, how long a
      registration lives, and that discovery page by page is exact.
    - [RendezvousHandler] models [substream_handler.rs] and [handler/], and runs the
      server with the handlers of all its connections under any schedule.
    - [RendezvousClient] models [client.rs]: what a client holds and when it forgets
      it.

    Request-response, [src/protocols/request-response/src/]:
    - [RequestResponse] models the behaviour of [lib.rs], the connection handler of
      [handler.rs] and the inbound upgrade of [handler/protocol.rs].
      [RequestResponseSystem] runs them with connections, substreams and channels under
      any schedule and states the invariant; [RequestResponseRun] shows that every
      outbound request has exactly one outcome and that the events tell which inbound
      requests are open.

    Swarm, [src/swarm/src/]:
    - [SwarmPool] models [connection/pool.rs] and [connection/pool/task.rs], with the
      endpoints of [src/core/src/connection.rs]: pending and established connections
      and the background tasks that drive them, in any interleaving.  Counters and
      limits are exact, nothing panics, and the events that are reported tell which
      connections are open.

    ** Fuel

    Loops of I/O futures run at most once per frame that has arrived, plus one
    ([LengthDelimited], [MsSelect], [Mplex]); loops over a queue or a list at most
    once per element ([KadDisjoint], [KadJobs], [RelayRateLimiter], timers of
    [RendezvousServer], pending frames of [Mplex]); substream handlers say how often
    they continue ([RendezvousHandler]); decoders at most once per byte.  In every
    case the theorems show that the loop returns, hence that the fuel is enough.

    ** Not modelled

    The event loop of the swarm and what happens inside one of its connections, the
    network behaviours and connection handlers of the protocols other than rendezvous,
    request-response and gossipsub (event loops over futures and trait objects around
    the parts that are modelled), the connection handler of gossipsub, which moves
    messages between its codec and its behaviour, the transports (sockets, TLS, Noise and
    WebSocket libraries), the cryptography of identities with private keys and their
    encodings, the codecs that are generated from [.proto] files (interfaces where
    they are used), the derive macro and the metrics.  In the behaviour of gossipsub the
    counter of heartbeats is unbounded.  Of the modelled files, logging, [Debug] and [Display] implementations and builder methods
    that only set a field are left out, as are tests. *)

From Stdlib Require Export Lia.
From Stdlib Require Export Strings.Byte.
From stdpp Require Export base option list numbers sorting vector gmap.

(** ** Outcomes: computations that may panic

    Rust code aborts the current task on [unreachable!], [expect], [unwrap],
    slice indexing out of range and (in builds with overflow checks) on
    arithmetic overflow.  Definitions that model such code return an
    [outcome]; the theorems then state under which invariant [Panic] cannot
    be reached. *)
Inductive outcome (A : Type) : Type :=
| Ret (a : A)
| Panic.
Arguments Ret {A} a.
Arguments Panic {A}.

#[export] Instance outcome_ret : MRet outcome := @Ret.
#[export] Instance outcome_bind : MBind outcome :=
  λ A B f m, match m with Ret a => f a | Panic => Panic end.
#[export] Instance outcome_fmap : FMap outcome :=
  λ A B f m, match m with Ret a => Ret (f a) | Panic => Panic end.

Definition is_ret {A} (m : outcome A) : Prop := ∃ a, m = Ret a.

Definition expect {A} (o : option A) : outcome A :=
  match o with Some a => Ret a | None => Panic end.

(** [usize] subtraction: overflow is a panic. *)
Definition usize_sub (a b : nat) : outcome nat :=
  if decide (b ≤ a) then Ret (a - b) else Panic.

(** [checked_sub]: [None] on overflow. *)
Definition checked_sub (a b : nat) : option nat :=
  if decide (b ≤ a) then Some (a - b) else None.

Lemma usize_sub_le (a b : nat) : b ≤ a → usize_sub a b = Ret (a - b).
Proof. intros H. unfold usize_sub. by rewrite decide_True. Qed.

Lemma checked_sub_le (a b : nat) : b ≤ a → checked_sub a b = Some (a - b).
Proof. intros H. unfold checked_sub. by rewrite decide_True. Qed.

Lemma checked_sub_lt (a b : nat) : a < b → checked_sub a b = None.
Proof. intros H. unfold checked_sub. rewrite decide_False; [done|lia]. Qed.

(** ** Polling and results *)

(** [std::task::Poll]; wakers are not modelled. *)
Inductive Poll (A : Type) : Type :=
| Ready (a : A)
| Pending.
Arguments Ready {A} a.
Arguments Pending {A}.

Abbreviation Result A E := (A + E)%type (only parsing).
Abbreviation Ok := inl (only parsing).
Abbreviation Err := inr (only parsing).

(** The operator [?] and the methods of [Result] and [Option] that the code uses. *)
Definition result_try {A B E : Type} (r : Result A E) (f : A → Result B E) : Result B E :=
  match r with Ok a => f a | Err e => Err e end.
Notation "x ←? r ; k" := (result_try r (λ x, k)) (at level 20, r at level 100, k at level 200, only parsing) : stdpp_scope.
Notation "' x ←? r ; k" := (result_try r (λ x, k)) (at level 20, x pattern, r at level 100, k at level 200, only parsing) : stdpp_scope.

Definition map_err {A E F : Type} (f : E → F) (r : Result A E) : Result A F :=
  match r with Ok a => Ok a | Err e => Err (f e) end.
Definition ok_or {A E : Type} (o : option A) (e : E) : Result A E :=
  match o with Some a => Ok a | None => Err e end.
(** [Option::transpose] *)
Definition transpose {A E : Type} (o : option (Result A E)) : Result (option A) E :=
  match o with Some (Ok a) => Ok (Some a) | Some (Err e) => Err e | None => Ok None end.
(** [collect] of an iterator of results into a result: the first error, if any. *)
Fixpoint collect {A E : Type} (l : list (Result A E)) : Result (list A) E :=
  match l with
  | [] => Ok []
  | r :: l => a ←? r; l ←? collect l; Ok (a :: l)
  end.

Lemma collect_Ok {A E B : Type} (f : B → Result A E) (g : B → A) (l : list B) :
  Forall (λ b, f b = Ok (g b)) l → collect (f <$> l) = Ok (g <$> l).
Proof. induction 1 as [|b l Hb _ IH]; [done|]. rewrite !fmap_cons. unfold collect at 1. fold (@collect A E). by rewrite Hb, IH. Qed.

(** [assert!] and, in builds with debug assertions, [debug_assert!]. *)
Definition assert (b : bool) : outcome unit := if b then Ret () else Panic.

(** ** Loops *)

(** One turn of a [loop]: go on, or return from the function. *)
Inductive Turn (S A : Type) : Type :=
| Continue (s : S)
| Return (a : A) (s : S).
Arguments Continue {S A} s.
Arguments Return {S A} a s.

(** A [loop] that gets [fuel] turns.  Running out of them is [Panic] as well, so
    that a theorem that shows a call to return also shows that the turns
    sufficed. *)
Fixpoint loop {S A : Type} (fuel : nat) (body : S → outcome (Turn S A)) (s : S) : outcome (A * S) :=
  match fuel with
  | O => Panic
  | S fuel =>
      t ← body s;
      match t with
      | Continue s' => loop fuel body s'
      | Return a s' => Ret (a, s')
      end
  end.

Lemma loop_continue {S A} (body : S → outcome (Turn S A)) fuel s s' :
  body s = Ret (Continue s') → loop (1 + fuel) body s = loop fuel body s'.
Proof. intros H. simpl. by rewrite H. Qed.

Lemma loop_return {S A} (body : S → outcome (Turn S A)) fuel s a s' :
  body s = Ret (Return a s') → loop (1 + fuel) body s = Ret (a, s').
Proof. intros H. simpl. by rewrite H. Qed.

(** More turns do not change what a loop returns. *)
Lemma loop_mono {S A} (body : S → outcome (Turn S A)) n m s r :
  loop n body s = Ret r → n ≤ m → loop m body s = Ret r.
Proof.
  revert m s. induction n as [|n IH]; intros [|m] s H Hle; simpl in *; [done|done|lia|].
  destruct (body s) as [[s'|a s']|]; simpl in *; [apply IH; [done|lia]|done|done].
Qed.

(** A loop whose turns keep an invariant and decrease a measure returns. *)
Lemma loop_total {S A} (body : S → outcome (Turn S A)) (I : S → Prop) (Q : S → A → S → Prop) (m : S → nat) :
  (∀ s, I s → ∃ t, body s = Ret t ∧
     match t with
     | Continue s' => I s' ∧ m s' < m s ∧ ∀ a s'', Q s' a s'' → Q s a s''
     | Return a s' => Q s a s'
     end) →
  ∀ fuel s, I s → m s < fuel → ∃ a s', loop fuel body s = Ret (a, s') ∧ Q s a s'.
Proof.
  intros Hb fuel. induction fuel as [|fuel IH]; intros s Hs Hm; [lia|].
  destruct (Hb s Hs) as ([s'|a s'] & Ht & HQ); simpl; rewrite Ht; simpl; [|by eauto].
  destruct HQ as (Hs' & Hlt & Himp). destruct (IH s' Hs') as (a & s'' & Hl & HQ'); [lia|].
  exists a, s''. split; [done|by apply Himp].
Qed.

(** A [for] loop whose body may panic. *)
Fixpoint for_each {A S : Type} (f : S → A → outcome S) (s : S) (l : list A) : outcome S :=
  match l with
  | [] => Ret s
  | x :: l => s ← f s x; for_each f s l
  end.

(** A loop whose turns keep a property returns. *)
Lemma for_each_inv {A S : Type} (f : S → A → outcome S) (I : S → Prop) (l : list A) s :
  I s → (∀ s x, x ∈ l → I s → ∃ s', f s x = Ret s' ∧ I s') → ∃ s', for_each f s l = Ret s' ∧ I s'.
Proof.
  revert s. induction l as [|x l IH]; intros s Hs Hf; [by exists s|]. cbn [for_each].
  destruct (Hf s x) as (s' & -> & Hs'); [by left|done|]. cbn [mbind outcome_bind].
  apply IH; [done|]. intros s0 y Hy. apply Hf. by right.
Qed.

(** Fixed-width unsigned integers: [usize] on 64-bit targets, and [u32]
    addition and subtraction, where overflow is a panic. *)
Definition usize_wrapping_add (a b : N) : N := ((a + b) mod 2 ^ 64)%N.
Definition u32_add (a b : N) : outcome N := if decide (a + b < 2 ^ 32)%N then Ret (a + b)%N else Panic.
Definition u32_sub (a b : N) : outcome N := if decide (b ≤ a)%N then Ret (a - b)%N else Panic.

Lemma u32_add_lt (a b : N) : (a + b < 2 ^ 32)%N → u32_add a b = Ret (a + b)%N.
Proof. intros H. unfold u32_add. by rewrite decide_True. Qed.

Lemma u32_sub_le (a b : N) : (b ≤ a)%N → u32_sub a b = Ret (a - b)%N.
Proof. intros H. unfold u32_sub. by rewrite decide_True. Qed.

(** ** Instants and durations

    An [Instant] is the number of nanoseconds since the start of the clock, a
    [Duration] a number of nanoseconds.  Arithmetic panics if its result cannot be
    represented: the clock counts its seconds in a signed 64-bit integer and has no
    instants before its start, a [Duration] has seconds in an unsigned one. *)
Definition instant_end : N := 2 ^ 63 * 10 ^ 9.
Definition duration_end : N := 2 ^ 64 * 10 ^ 9.
Definition instant_add (now d : N) : outcome N := if decide (now + d < instant_end)%N then Ret (now + d)%N else Panic.
Definition instant_sub (now d : N) : outcome N := if decide (d ≤ now)%N then Ret (now - d)%N else Panic.
Definition duration_mul (d n : N) : outcome N := if decide (d * n < duration_end)%N then Ret (d * n)%N else Panic.

Lemma instant_add_lt now d : (now + d < instant_end)%N → instant_add now d = Ret (now + d)%N.
Proof. intros H. unfold instant_add. by rewrite decide_True. Qed.

Lemma instant_sub_le now d : (d ≤ now)%N → instant_sub now d = Ret (now - d)%N.
Proof. intros H. unfold instant_sub. by rewrite decide_True. Qed.

Lemma duration_mul_lt d n : (d * n < duration_end)%N → duration_mul d n = Ret (d * n)%N.
Proof. intros H. unfold duration_mul. by rewrite decide_True. Qed.

(** [Option::map] and [Iterator::filter_map] with a closure that may panic. *)
Definition try_map {A B} (f : A → outcome B) (o : option A) : outcome (option B) :=
  match o with Some a => Some <$> f a | None => Ret None end.
Fixpoint try_filter_map {A B} (f : A → outcome (option B)) (l : list A) : outcome (list B) :=
  match l with
  | [] => Ret []
  | a :: l =>
      o ← f a; l ← try_filter_map f l;
      Ret (match o with Some b => b :: l | None => l end)
  end.

Lemma try_filter_map_Ret {A B} (f : A → outcome (option B)) (g : A → option B) (l : list A) :
  (∀ a, f a = Ret (g a)) → try_filter_map f l = Ret (omap g l).
Proof. intros Hf. induction l as [|a l IH]; [done|]. cbn [try_filter_map omap list_omap]. rewrite Hf, IH. by destruct (g a). Qed.

(** [Option::map_or]. *)
Definition map_or {A B} (d : B) (f : A → B) (o : option A) : B :=
  match o with Some a => f a | None => d end.

(** ** Vectors with panicking access

    [vec_index], [vec_remove] and [vec_insert] are [Vec]/[ArrayVec]
    indexing, [remove] and [insert]; [array_push] and [array_insert] add the
    capacity check of [ArrayVec]. *)
Section vectors.
Context {A : Type}.

Definition vec_index (l : list A) (i : nat) : outcome A := expect (l !! i).

Definition vec_remove (i : nat) (l : list A) : outcome (A * list A) :=
  match l !! i with
  | Some x => Ret (x, take i l ++ drop (S i) l)
  | None => Panic
  end.

Definition vec_insert (i : nat) (x : A) (l : list A) : outcome (list A) :=
  if decide (i ≤ length l) then Ret (take i l ++ x :: drop i l) else Panic.

Definition array_push (cap : nat) (x : A) (l : list A) : outcome (list A) :=
  if decide (length l < cap) then Ret (l ++ [x]) else Panic.

Definition array_insert (cap i : nat) (x : A) (l : list A) : outcome (list A) :=
  if decide (length l < cap) then vec_insert i x l else Panic.

(** [Iterator::position]: the index of the first element satisfying [p]. *)
Fixpoint position (p : A → bool) (l : list A) : option nat :=
  match l with
  | [] => None
  | x :: l => if p x then Some 0 else S <$> position p l
  end.

(** The first element satisfying [p], its index, and the list without it. *)
Fixpoint extract (p : A → bool) (l : list A) : option (nat * A * list A) :=
  match l with
  | [] => None
  | x :: l =>
      if p x then Some (0, x, l)
      else match extract p l with
           | Some (i, y, k) => Some (S i, y, x :: k)
           | None => None
           end
  end.

Lemma vec_remove_Ret (i : nat) (l : list A) (x : A) :
  l !! i = Some x → vec_remove i l = Ret (x, take i l ++ drop (S i) l).
Proof. intros H. unfold vec_remove. by rewrite H. Qed.

Lemma vec_remove_app (l1 l2 : list A) (x : A) :
  vec_remove (length l1) (l1 ++ x :: l2) = Ret (x, l1 ++ l2).
Proof.
  rewrite (vec_remove_Ret _ _ x) by (by apply list_lookup_middle).
  rewrite take_app_length, <-(Nat.add_1_r (length l1)), <-drop_drop.
  by rewrite drop_app_length.
Qed.

Lemma vec_insert_app (l1 l2 : list A) (x : A) :
  vec_insert (length l1) x (l1 ++ l2) = Ret (l1 ++ x :: l2).
Proof.
  unfold vec_insert. rewrite decide_True by (rewrite length_app; lia).
  by rewrite take_app_length, drop_app_length.
Qed.

Lemma position_Some (p : A → bool) (l : list A) (i : nat) :
  position p l = Some i ↔
  ∃ x, l !! i = Some x ∧ p x = true ∧ ∀ j y, j < i → l !! j = Some y → p y = false.
Proof.
  revert i. induction l as [|x l IH]; intros i; simpl.
  { split; [done|]. by intros (x & ? & _). }
  destruct (p x) eqn:Hp.
  - split.
    + intros [= <-]. exists x. repeat split; [done|]. intros; lia.
    + intros (y & Hy & Hpy & Hlt). destruct i as [|i]; [done|].
      specialize (Hlt 0 x ltac:(lia) eq_refl). congruence.
  - rewrite fmap_Some. split.
    + intros (j & (y & Hy & Hpy & Hlt)%IH & ->). exists y. split_and!; [done..|].
      intros [|j'] z Hj Hz; [simpl in Hz; congruence|]. eapply (Hlt j'); [lia|done].
    + intros (y & Hy & Hpy & Hlt). destruct i as [|i]; [simpl in Hy; congruence|].
      exists i. split; [|done]. apply IH. exists y. split_and!; [done..|].
      intros j z Hj. apply (Hlt (S j)). lia.
Qed.

Lemma position_None (p : A → bool) (l : list A) :
  position p l = None ↔ Forall (λ x, p x = false) l.
Proof.
  induction l as [|x l IH]; simpl; [by split; [constructor|]|].
  rewrite Forall_cons, <-IH. clear IH. destruct (p x), (position p l); simpl; naive_solver.
Qed.

Lemma position_app (p : A → bool) (l1 l2 : list A) :
  position p (l1 ++ l2) =
  match position p l1 with
  | Some i => Some i
  | None => Nat.add (length l1) <$> position p l2
  end.
Proof.
  induction l1 as [|x l1 IH]; simpl; [by destruct (position p l2)|].
  destruct (p x); [done|]. rewrite IH.
  destruct (position p l1), (position p l2); done.
Qed.

Lemma extract_spec (p : A → bool) (l : list A) :
  match extract p l with
  | Some (i, x, k) =>
      position p l = Some i ∧ vec_remove i l = Ret (x, k) ∧ p x = true ∧
      ∃ l1 l2, l = l1 ++ x :: l2 ∧ k = l1 ++ l2 ∧ i = length l1
  | None => position p l = None
  end.
Proof.
  induction l as [|x l IH]; simpl; [done|]. destruct (p x) eqn:Hp.
  { split_and!; [done..|]. by exists [], l. }
  destruct (extract p l) as [[[i y] k]|].
  - destruct IH as (-> & _ & Hy & l1 & l2 & -> & -> & ->).
    split_and!; [done| |done|by exists (x :: l1), l2].
    apply (vec_remove_app (x :: l1)).
  - by rewrite IH.
Qed.

Lemma extract_None (p : A → bool) (l : list A) :
  extract p l = None ↔ Forall (λ x, p x = false) l.
Proof.
  rewrite <-position_None. pose proof (extract_spec p l) as H.
  destruct (extract p l) as [[[i x] k]|]; [|done]. destruct H as [-> _]. done.
Qed.

Lemma extract_snoc (p : A → bool) (l : list A) (x : A) :
  Forall (λ x, p x = false) l → p x = true → extract p (l ++ [x]) = Some (length l, x, l).
Proof.
  intros Hl Hx. induction Hl as [|y l Hy Hl IH]; simpl; [by rewrite Hx|]. by rewrite Hy, IH.
Qed.

Lemma extract_perm (p : A → bool) (l k : list A) (i : nat) (x : A) :
  extract p l = Some (i, x, k) → l ≡ₚ x :: k.
Proof.
  intros E. pose proof (extract_spec p l) as H. rewrite E in H.
  destruct H as (_ & _ & _ & l1 & l2 & -> & -> & _). by rewrite Permutation_middle.
Qed.
End vectors.

Lemma list_fmap_mjoin {A B} (f : A → B) (ls : list (list A)) :
  f <$> mjoin ls = mjoin (fmap f <$> ls).
Proof. induction ls as [|l ls IH]; simpl; [done|]. by rewrite fmap_app, IH. Qed.

Lemma filter_none {A} (P : A → Prop) `{HP : !∀ x, Decision (P x)} (l : list A) :
  (∀ x, x ∈ l → ¬ P x) → filter P l = [].
Proof.
  induction l as [|x l IH]; intros Hl; [done|]. rewrite filter_cons_False by (apply Hl; by left).
  apply IH. intros y Hy. apply Hl. by right.
Qed.

Lemma filter_all {A} (P : A → Prop) `{HP : !∀ x, Decision (P x)} (l : list A) :
  (∀ x, x ∈ l → P x) → filter P l = l.
Proof.
  induction l as [|x l IH]; intros Hl; [done|]. rewrite filter_cons_True by (apply Hl; by left).
  f_equal. apply IH. intros y Hy. apply Hl. by right.
Qed.

Lemma length_omap_le {A B} (f : A → option B) (l : list A) : length (omap f l) ≤ length l.
Proof. 
  induction l as [|x l IH]; [done|].
  change (omap f (x :: l)) with (match f x with Some y => y :: omap f l | None => omap f l end).
  destruct (f x); simpl; lia.
Qed.

Lemma StronglySorted_impl {A} (R S : A → A → Prop) (l : list A) :
  (∀ x y, R x y → S x y) → StronglySorted R l → StronglySorted S l.
Proof.
  intros H. induction 1; constructor; [done|]. eapply Forall_impl; [done|]. naive_solver.
Qed.

Lemma submseteq_NoDup {A} (l k : list A) : l ⊆+ k → NoDup k → NoDup l.
Proof. intros [k' ->]%submseteq_Permutation. by intros [? _]%NoDup_app. Qed.

(** ** Counting the entries of a map *)
Section map_count.
Context {K A : Type} `{Countable K} (P : K * A → Prop) `{!∀ x, Decision (P x)}.

Definition map_count (m : gmap K A) : nat := size (filter P m).

Definition count1 (k : K) (o : option A) : nat :=
  match o with Some v => if decide (P (k, v)) then 1 else 0 | None => 0 end.

Lemma map_count_empty : map_count ∅ = 0.
Proof. unfold map_count. by rewrite map_filter_empty, map_size_empty. Qed.

Lemma map_count_delete (m : gmap K A) (k : K) :
  map_count (delete k m) + count1 k (m !! k) = map_count m.
Proof.
  unfold map_count, count1. rewrite map_filter_delete, map_size_delete, map_lookup_filter.
  destruct (m !! k) as [v|] eqn:E; simpl; [|unfold id; lia].
  destruct (decide (P (k, v))) as [HP|HP]; simpl.
  - rewrite option_guard_True by done. simpl. assert (size (filter P m) ≠ 0); [|lia].
    apply map_size_non_empty_iff. intros Hem. by eapply (map_filter_empty_not_lookup P m k v Hem HP).
  - rewrite option_guard_False by done. simpl. unfold id. lia.
Qed.

Lemma map_count_insert (m : gmap K A) (k : K) (v : A) :
  map_count (<[k := v]> m) + count1 k (m !! k) = map_count m + count1 k (Some v).
Proof.
  rewrite <-(map_count_delete m k), <-insert_delete_eq. unfold map_count, count1.
  rewrite map_filter_insert. destruct (decide (P (k, v))) as [HP|HP].
  - rewrite map_size_insert_None; [lia|]. apply map_lookup_filter_None. left. apply lookup_delete_eq.
  - rewrite delete_delete_eq. lia.
Qed.

Lemma map_count_pos (m : gmap K A) (k : K) (v : A) :
  m !! k = Some v → P (k, v) → 0 < map_count m.
Proof. intros Hk HP. rewrite <-(map_count_delete m k), Hk. simpl. rewrite decide_True by done. lia. Qed.

Lemma map_count_zero (m : gmap K A) (k : K) (v : A) :
  map_count m = 0 → m !! k = Some v → ¬ P (k, v).
Proof. intros Hz Hk HP. pose proof (map_count_pos m k v Hk HP). lia. Qed.
End map_count.

(** ** Stable insertion sort, for [slice::sort_by]

    [slice::sort_by] is specified to be a stable sort; on a total preorder the
    stably sorted list is unique, so any stable algorithm is a model of it. *)
Section sort_by.
Context {A : Type} (le : A → A → bool).

Fixpoint sort_insert (x : A) (l : list A) : list A :=
  match l with
  | [] => [x]
  | y :: l' => if le x y then x :: l else y :: sort_insert x l'
  end.

Fixpoint sort_by (l : list A) : list A :=
  match l with
  | [] => []
  | x :: l => sort_insert x (sort_by l)
  end.

Lemma sort_insert_perm (x : A) (l : list A) : sort_insert x l ≡ₚ x :: l.
Proof.
  induction l as [|y l IH]; simpl; [done|]. destruct (le x y); [done|].
  rewrite IH. apply Permutation_swap.
Qed.

Lemma sort_by_perm (l : list A) : sort_by l ≡ₚ l.
Proof.
  induction l as [|x l IH]; simpl; [done|]. by rewrite sort_insert_perm, IH.
Qed.

Context (le_total : ∀ x y, le x y = true ∨ le y x = true).
Context (le_trans : ∀ x y z, le x y = true → le y z = true → le x z = true).

Lemma sort_insert_sorted (x : A) (l : list A) :
  StronglySorted (λ a b, le a b = true) l →
  StronglySorted (λ a b, le a b = true) (sort_insert x l).
Proof.
  induction 1 as [|y l Hl IH Hy]; simpl; [by repeat constructor|].
  destruct (le x y) eqn:E.
  - constructor; [by constructor|]. constructor; [done|].
    eapply Forall_impl; [exact Hy|]. simpl. eauto.
  - constructor; [done|]. rewrite sort_insert_perm. constructor; [|done].
    destruct (le_total x y); congruence.
Qed.

Lemma sort_by_sorted (l : list A) : StronglySorted (λ a b, le a b = true) (sort_by l).
Proof. induction l; simpl; [constructor|by apply sort_insert_sorted]. Qed.
End sort_by.

(** ** Bytes and big-endian integers *)
#[export] Instance byte_eq_decision : EqDecision byte := Byte.byte_eq_dec.

Definition b2N (b : byte) : N := Byte.to_N b.
Definition N2b (n : N) : byte := default Byte.x00 (Byte.of_N (n mod 256)).

Lemma b2N_lt (b : byte) : (b2N b < 256)%N.
Proof. pose proof (Byte.to_N_bounded b). unfold b2N. lia. Qed.

Lemma N2b_b2N (b : byte) : N2b (b2N b) = b.
Proof.
  unfold N2b. rewrite N.mod_small by apply b2N_lt. unfold b2N. by rewrite Byte.of_to_N.
Qed.

#[export] Instance byte_countable : Countable byte := inj_countable' b2N N2b N2b_b2N.

Lemma b2N_N2b (n : N) : b2N (N2b n) = (n mod 256)%N.
Proof.
  unfold N2b, b2N. destruct (Byte.of_N (n mod 256)) as [b|] eqn:E; simpl.
  - by apply Byte.to_of_N.
  - apply Byte.of_N_None_iff in E. pose proof (N.mod_lt n 256). lia.
Qed.

#[export] Instance b2N_inj : Inj (=) (=) b2N.
Proof. intros a b H. by rewrite <-(N2b_b2N a), <-(N2b_b2N b), H. Qed.

(** Big-endian decoding of a byte string ([from_big_endian], [from_be_bytes]). *)
Fixpoint be_to_N (l : list byte) : N :=
  match l with
  | [] => 0
  | b :: l => b2N b * 256 ^ N.of_nat (length l) + be_to_N l
  end%N.

(** Big-endian encoding in exactly [k] bytes ([to_big_endian], [to_be_bytes]). *)
Fixpoint N_to_be (k : nat) (n : N) : vec byte k :=
  match k with
  | O => [#]
  | S k => N2b (n / 256 ^ N.of_nat k)%N ::: N_to_be k (n mod 256 ^ N.of_nat k)%N
  end.

Lemma be_to_N_lt (l : list byte) : (be_to_N l < 256 ^ N.of_nat (length l))%N.
Proof.
  induction l as [|b l IH]; cbn [be_to_N length]; [done|].
  rewrite Nat2N.inj_succ, N.pow_succ_r'. pose proof (b2N_lt b). nia.
Qed.

Lemma be_to_N_inj (l1 l2 : list byte) :
  length l1 = length l2 → be_to_N l1 = be_to_N l2 → l1 = l2.
Proof.
  revert l2. induction l1 as [|b1 l1 IH]; intros [|b2 l2]; cbn [be_to_N length];
    intros Hlen Heq; simplify_eq/=; [done|].
  pose proof (be_to_N_lt l1) as H1. pose proof (be_to_N_lt l2) as H2.
  rewrite <-Hlen in *. set (p := (256 ^ N.of_nat (length l1))%N) in *.
  assert (b2N b1 = b2N b2) as ->%(inj b2N) by nia.
  f_equal. apply IH; [done|]. nia.
Qed.

Lemma be_to_N_to_be (k : nat) (n : N) :
  (n < 256 ^ N.of_nat k)%N → be_to_N (N_to_be k n) = n.
Proof.
  revert n. induction k as [|k IH]; intros n Hn.
  { simpl. change (256 ^ N.of_nat 0)%N with 1%N in Hn. lia. }
  cbn [N_to_be be_to_N vec_to_list]. rewrite length_vec_to_list.
  assert (256 ^ N.of_nat k ≠ 0)%N by (apply N.pow_nonzero; lia).
  rewrite IH by (by apply N.mod_lt). rewrite b2N_N2b, N.mod_small.
  - pose proof (N.div_mod n (256 ^ N.of_nat k)). lia.
  - rewrite Nat2N.inj_succ, N.pow_succ_r' in Hn. apply N.Div0.div_lt_upper_bound. lia.
Qed.

Lemma N_to_be_to_N {k : nat} (v : vec byte k) : N_to_be k (be_to_N v) = v.
Proof.
  apply vec_to_list_inj2, be_to_N_inj; [by rewrite !length_vec_to_list|].
  apply be_to_N_to_be. rewrite <-(length_vec_to_list v) at 2. apply be_to_N_lt.
Qed.

(** ** Automation *)
Create HintDb libp2p.
#[export] Hint Resolve b2N_lt be_to_N_lt : libp2p.

(** Case analysis on the innermost match or decision of the goal or of a
    hypothesis, clearing the impossible branches. *)
Ltac case_step :=
  match goal with
  | |- context [decide _] => case_decide
  | H : context [decide _] |- _ => case_decide
  | |- context [match ?x with _ => _ end] =>
      lazymatch x with context [match _ with _ => _ end] => fail | _ => destruct x eqn:? end
  | H : context [match ?x with _ => _ end] |- _ =>
      lazymatch x with context [match _ with _ => _ end] => fail | _ => destruct x eqn:? end
  end; simplify_eq/=.
Ltac case_all := repeat case_step.
