(* ===== verification/KadKey.v ===== *)
(** * Keys of the Kademlia DHT and their XOR metric

    [protocols/kad/src/kbucket/key.rs].  A key of the DHT key space is 32
    bytes; distances are unsigned 256-bit integers.  The [U256] type that the
    [uint] crate generates is an [N] below [2 ^ 256], read from and written to
    bytes in big-endian order; SHA-256 is a parameter. *)

From stdpp Require Import prelude.
From S2P Require Import Prelude.

Local Open Scope N_scope.

(** [KeyBytes(GenericArray<u8, U32>)]. *)
Abbreviation KeyBytes := (vec byte 32).

(** [Distance(U256)]. *)
Abbreviation Distance := N.

Definition U256_MAX : N := 2 ^ 256 - 1.
Definition U256_from_slice (b : list byte) : N := be_to_N b.
Definition U256_to_bytes (n : N) : KeyBytes := N_to_be 32 n.
Definition U256_leading_zeros (n : N) : nat := (256 - N.to_nat (N.size n))%nat.

(** [AsRef<KeyBytes>]: types that are keys of the key space. *)
Class AsRef (K : Type) := as_ref : K → KeyBytes.
#[export] Instance KeyBytes_as_ref : AsRef KeyBytes := λ k, k.

Definition KeyBytes_distance {U : Type} `{!AsRef U} (self : KeyBytes) (other : U) : Distance :=
  let a := U256_from_slice self in
  let b := U256_from_slice (as_ref other) in
  N.lxor a b.

Definition KeyBytes_for_distance (self : KeyBytes) (d : Distance) : KeyBytes :=
  let key_int := N.lxor (U256_from_slice self) d in
  U256_to_bytes key_int.

Definition Distance_ilog2 (self : Distance) : option nat :=
  checked_sub (256 - U256_leading_zeros self) 1.

(** A key with preserved preimage; [sha256] is the digest of the [sha2] crate. *)
Record Key (T : Type) : Type := mkKey { key_preimage : T; key_bytes : KeyBytes }.
Arguments mkKey {T} _ _.
Arguments key_preimage {T} _.
Arguments key_bytes {T} _.

#[export] Instance Key_as_ref {T} : AsRef (Key T) := key_bytes.

Section key.
Context (sha256 : list byte → KeyBytes).

Definition KeyBytes_new (value : list byte) : KeyBytes := sha256 value.

Definition Key_new {T} (borrow : T → list byte) (preimage : T) : Key T :=
  let bytes := KeyBytes_new (borrow preimage) in
  mkKey preimage bytes.
End key.

Definition Key_distance {T U} `{!AsRef U} (self : Key T) (other : U) : Distance :=
  KeyBytes_distance (key_bytes self) other.

Definition Key_for_distance {T} (self : Key T) (d : Distance) : KeyBytes :=
  KeyBytes_for_distance (key_bytes self) d.

(** [PartialEq for Key]: keys are compared by their position in the key space. *)
Definition Key_eq {T U} (self : Key T) (other : Key U) : bool :=
  bool_decide (key_bytes self = key_bytes other).

(** ** Facts about 256-bit integers *)

Lemma U256_from_slice_lt (k : KeyBytes) : U256_from_slice k < 2 ^ 256.
Proof.
  unfold U256_from_slice. pose proof (be_to_N_lt k) as H.
  rewrite length_vec_to_list in H. exact H.
Qed.

Lemma N_lt_pow2_log2 (a n : N) : 0 < n → N.log2 a < n → a < 2 ^ n.
Proof.
  intros Hn H. destruct (N.eq_dec a 0) as [->|Ha]; [by apply N.neq_0_lt_0, N.pow_nonzero|].
  apply N.log2_lt_pow2; [lia|done].
Qed.

Lemma N_lxor_lt_pow2 (a b n : N) : a < 2 ^ n → b < 2 ^ n → N.lxor a b < 2 ^ n.
Proof.
  intros Ha Hb. destruct (N.eq_dec n 0) as [->|Hn].
  { change (2 ^ 0) with 1 in *. assert (a = 0) as -> by lia. by assert (b = 0) as -> by lia. }
  assert (∀ x, x < 2 ^ n → N.log2 x < n) as Hlog.
  { intros x Hx. destruct (N.eq_dec x 0) as [->|]; [simpl; lia|].
    apply N.log2_lt_pow2; [lia|done]. }
  apply N_lt_pow2_log2; [lia|]. pose proof (N.log2_lxor a b).
  pose proof (Hlog a Ha). pose proof (Hlog b Hb). lia.
Qed.

Lemma N_lxor_le_add (a b : N) : N.lxor a b ≤ a + b.
Proof.
  assert (Z.of_N (N.lxor a b) ≤ Z.of_N a + Z.of_N b)%Z; [|lia].
  rewrite N2Z.inj_lxor. pose proof (Z.add_lxor_2land (Z.of_N a) (Z.of_N b)).
  assert (0 ≤ Z.land (Z.of_N a) (Z.of_N b))%Z by (apply Z.land_nonneg; lia). lia.
Qed.

(** Two numbers that agree above bit [n] are ordered by bit [n]. *)
Lemma N_lt_by_bit (a b n : N) :
  (∀ m, n < m → N.testbit a m = N.testbit b m) →
  N.testbit a n = false → N.testbit b n = true → a < b.
Proof.
  intros Habove Ha Hb.
  assert (N.shiftr a (N.succ n) = N.shiftr b (N.succ n)) as Hs.
  { apply N.bits_inj. intros m. rewrite !N.shiftr_spec'. apply Habove. lia. }
  rewrite !N.shiftr_div_pow2, N.pow_succ_r' in Hs.
  assert (0 < 2 ^ n) by (apply N.neq_0_lt_0, N.pow_nonzero; lia).
  rewrite (N.mul_comm 2), <-!N.Div0.div_div in Hs by lia.
  apply N.testbit_false in Ha. apply N.testbit_true in Hb.
  set (qa := a / 2 ^ n) in *. set (qb := b / 2 ^ n) in *.
  pose proof (N.div_mod a (2 ^ n) ltac:(lia)) as Da.
  pose proof (N.div_mod b (2 ^ n) ltac:(lia)) as Db.
  pose proof (N.mod_lt a (2 ^ n) ltac:(lia)) as Ma.
  fold qa in Da. fold qb in Db.
  assert (qb = qa + 1) as Hq.
  { pose proof (N.div_mod qa 2 ltac:(lia)). pose proof (N.div_mod qb 2 ltac:(lia)). lia. }
  rewrite Hq, N.mul_add_distr_l, N.mul_1_r in Db. rewrite Da, Db.
  eapply N.lt_le_trans; [apply N.add_lt_mono_l, Ma|]. apply N.le_add_r.
Qed.

Lemma Distance_ilog2_Some (d : Distance) (i : nat) :
  d < 2 ^ 256 → Distance_ilog2 d = Some i ↔ d ≠ 0 ∧ N.log2 d = N.of_nat i.
Proof.
  intros Hd. unfold Distance_ilog2, U256_leading_zeros, checked_sub.
  destruct (N.eq_dec d 0) as [->|Hnz].
  { simpl. split; [done|]. by intros [? _]. }
  rewrite N.size_log2 by done.
  assert (N.log2 d < 256) by (apply N.log2_lt_pow2; lia).
  case_decide; [|lia]. split; [intros [= <-]; split; [done|]; lia|].
  intros [_ Hl]. f_equal. lia.
Qed.

Lemma Distance_ilog2_None (d : Distance) :
  d < 2 ^ 256 → Distance_ilog2 d = None ↔ d = 0.
Proof.
  intros Hd. destruct (N.eq_dec d 0) as [->|Hnz]; [done|].
  destruct (Distance_ilog2 d) eqn:E; [done|]. exfalso.
  assert (Distance_ilog2 d = Some (N.to_nat (N.log2 d))); [|congruence].
  apply Distance_ilog2_Some; [done|]. split; [done|]. lia.
Qed.

(** ** The XOR metric *)

Lemma KeyBytes_distance_lt (a b : KeyBytes) : KeyBytes_distance a b < 2 ^ 256.
Proof. apply N_lxor_lt_pow2; apply U256_from_slice_lt. Qed.

Lemma KeyBytes_distance_comm (a b : KeyBytes) : KeyBytes_distance a b = KeyBytes_distance b a.
Proof. apply N.lxor_comm. Qed.

Lemma KeyBytes_distance_0 (a b : KeyBytes) : KeyBytes_distance a b = 0 ↔ a = b.
Proof.
  unfold KeyBytes_distance, as_ref, KeyBytes_as_ref, U256_from_slice. split.
  - intros H%N.lxor_eq. apply vec_to_list_inj2, be_to_N_inj; [|done].
    by rewrite !length_vec_to_list.
  - intros ->. apply N.lxor_nilpotent.
Qed.

(** The distance between two keys, seen from a third one. *)
Lemma KeyBytes_distance_via (a b c : KeyBytes) :
  KeyBytes_distance a c = N.lxor (KeyBytes_distance a b) (KeyBytes_distance b c).
Proof.
  unfold KeyBytes_distance, as_ref, KeyBytes_as_ref.
  rewrite N.lxor_assoc, <-(N.lxor_assoc (U256_from_slice b)).
  by rewrite N.lxor_nilpotent, N.lxor_0_l.
Qed.

Lemma KeyBytes_distance_inj (a b c : KeyBytes) :
  KeyBytes_distance a b = KeyBytes_distance a c → b = c.
Proof.
  intros H. apply KeyBytes_distance_0.
  rewrite (KeyBytes_distance_via b a c), (KeyBytes_distance_comm b a), H.
  apply N.lxor_nilpotent.
Qed.

(** The distance of keys is a metric on the key space: it is zero exactly
    on equal keys, it is symmetric, it satisfies the triangle inequality, and
    it stays within 256 bits. *)
Theorem KeyBytes_distance_metric (a b c : KeyBytes) :
  (KeyBytes_distance a b = 0 ↔ a = b) ∧
  KeyBytes_distance a b = KeyBytes_distance b a ∧
  KeyBytes_distance a c ≤ KeyBytes_distance a b + KeyBytes_distance b c ∧
  KeyBytes_distance a b ≤ U256_MAX.
Proof.
  split_and!.
  - apply KeyBytes_distance_0.
  - apply KeyBytes_distance_comm.
  - rewrite (KeyBytes_distance_via a b c). apply N_lxor_le_add.
  - pose proof (KeyBytes_distance_lt a b). unfold U256_MAX. lia.
Qed.

(** [for_distance] returns the uniquely determined key at a given distance:
    [self xor other = d] if and only if [other = for_distance self d]. *)
Theorem KeyBytes_for_distance_unique (self other : KeyBytes) (d : Distance) :
  d ≤ U256_MAX →
  KeyBytes_distance self other = d ↔ other = KeyBytes_for_distance self d.
Proof.
  intros Hd. unfold KeyBytes_for_distance, U256_to_bytes.
  assert (N.lxor (U256_from_slice self) d < 2 ^ 256) as Hlt.
  { apply N_lxor_lt_pow2; [apply U256_from_slice_lt|unfold U256_MAX in Hd; lia]. }
  split.
  - intros <-. unfold KeyBytes_distance, as_ref, KeyBytes_as_ref.
    rewrite <-N.lxor_assoc, N.lxor_nilpotent, N.lxor_0_l.
    symmetry. apply N_to_be_to_N.
  - intros ->. unfold KeyBytes_distance, as_ref, KeyBytes_as_ref, U256_from_slice in *.
    rewrite (be_to_N_to_be 32) by exact Hlt.
    by rewrite <-N.lxor_assoc, N.lxor_nilpotent, N.lxor_0_l.
Qed.

Lemma KeyBytes_for_distance_unique_witness :
  ∃ k : KeyBytes, KeyBytes_distance (vreplicate 32 Byte.x07) k = 1029.
Proof.
  exists (KeyBytes_for_distance (vreplicate 32 Byte.x07) 1029).
  apply (KeyBytes_for_distance_unique (vreplicate 32 Byte.x07) _ 1029); [|done].
  vm_compute. discriminate.
Defined.
