(* ===== verification/KadBucket.v ===== *)
(** * A k-bucket of the Kademlia routing table

    [protocols/kad/src/kbucket/bucket.rs].  A bucket keeps at most [K_VALUE]
    nodes in one array, the disconnected ones first, with the position of the
    first connected node and at most one pending node.  The file gives the
    concrete operations ([KBucket_*]), an abstract bucket made of two queues
    ([ABucket], [a_*]) and the refinement between the two.  [Instant::now()]
    is the argument [now] of an operation; instants and durations are [N]. *)

From stdpp Require Import prelude.
From S2P Require Import Prelude KadKey.

(** [K_VALUE], from [protocols/kad/src/lib.rs]. *)
Definition K_VALUE : nat := 20.

Inductive NodeStatus : Type :=
| Connected
| Disconnected.

#[export] Instance NodeStatus_eq_dec : EqDecision NodeStatus.
Proof. solve_decision. Defined.

Section bucket.
Context {TKey TVal : Type} `{!AsRef TKey}.

Record Node : Type := mkNode { node_key : TKey; node_value : TVal }.

Record PendingNode : Type := mkPending {
  pending_node : Node;
  pending_status : NodeStatus;
  pending_replace : N
}.

Definition PendingNode_is_ready (now : N) (self : PendingNode) : bool :=
  (pending_replace self <=? now)%N.

Definition PendingNode_set_ready_at (t : N) (self : PendingNode) : PendingNode :=
  mkPending (pending_node self) (pending_status self) t.

Record KBucket : Type := mkKBucket {
  nodes : list Node;
  first_connected_pos : option nat;
  pending : option PendingNode;
  pending_timeout : N
}.

Inductive InsertResult : Type :=
| Inserted
| Pending (disconnected : TKey)
| Full.

Record AppliedPending : Type := mkApplied {
  applied_inserted : Node;
  applied_evicted : option Node
}.

(** [p.key.as_ref() == key.as_ref()]. *)
Definition same_key (key : TKey) (n : Node) : bool :=
  bool_decide (as_ref (node_key n) = as_ref key).

Definition KBucket_new (timeout : N) : KBucket := mkKBucket [] None None timeout.

Definition KBucket_as_pending (self : KBucket) (key : TKey) : option PendingNode :=
  match pending self with
  | Some p => if same_key key (pending_node p) then Some p else None
  | None => None
  end.

Definition KBucket_position (self : KBucket) (key : TKey) : option nat :=
  position (same_key key) (nodes self).

Definition KBucket_get (self : KBucket) (key : TKey) : outcome (option Node) :=
  match KBucket_position self key with
  | Some p => Some <$> vec_index (nodes self) p
  | None => Ret None
  end.

Definition KBucket_status (self : KBucket) (pos : nat) : NodeStatus :=
  if map_or false (λ i, i <=? pos) (first_connected_pos self)
  then Connected else Disconnected.

Definition KBucket_is_connected (self : KBucket) (pos : nat) : bool :=
  bool_decide (KBucket_status self pos = Connected).

Definition KBucket_iter (self : KBucket) : list (Node * NodeStatus) :=
  imap (λ p n, (n, KBucket_status self p)) (nodes self).

Definition KBucket_num_entries (self : KBucket) : nat := length (nodes self).

Definition KBucket_num_connected (self : KBucket) : outcome nat :=
  map_or (Ret 0) (λ i, usize_sub (length (nodes self)) i) (first_connected_pos self).

Definition KBucket_num_disconnected (self : KBucket) : outcome nat :=
  c ← KBucket_num_connected self; usize_sub (length (nodes self)) c.

(** [self.nodes.is_full()]. *)
Definition is_full (l : list Node) : bool := length l =? K_VALUE.

Definition KBucket_insert (now : N) (self : KBucket) (node : Node) (status : NodeStatus)
    : outcome (InsertResult * KBucket) :=
  match status with
  | Connected =>
      if is_full (nodes self) then
        if bool_decide (first_connected_pos self = Some 0) || bool_decide (is_Some (pending self))
        then Ret (Full, self)
        else
          let p := mkPending node Connected (now + pending_timeout self)%N in
          n ← vec_index (nodes self) 0;
          Ret (Pending (node_key n),
               mkKBucket (nodes self) (first_connected_pos self) (Some p) (pending_timeout self))
      else
        let pos := length (nodes self) in
        let fcp := match first_connected_pos self with Some p => Some p | None => Some pos end in
        l ← array_push K_VALUE node (nodes self);
        Ret (Inserted, mkKBucket l fcp (pending self) (pending_timeout self))
  | Disconnected =>
      if is_full (nodes self) then Ret (Full, self)
      else
        match first_connected_pos self with
        | Some p =>
            l ← array_insert K_VALUE p node (nodes self);
            Ret (Inserted, mkKBucket l (Some (p + 1)) (pending self) (pending_timeout self))
        | None =>
            l ← array_push K_VALUE node (nodes self);
            Ret (Inserted, mkKBucket l None (pending self) (pending_timeout self))
        end
  end.

Definition KBucket_remove (self : KBucket) (key : TKey)
    : outcome (option (Node * NodeStatus * nat) * KBucket) :=
  match KBucket_position self key with
  | Some pos =>
      let status := KBucket_status self pos in
      '(node, l) ← vec_remove pos (nodes self);
      fcp ← match status with
            | Connected =>
                Ret (if map_or false (λ p, p =? pos) (first_connected_pos self)
                     then if pos =? length l then None else first_connected_pos self
                     else first_connected_pos self)
            | Disconnected =>
                match first_connected_pos self with
                | Some p => Some <$> usize_sub p 1
                | None => Ret None
                end
            end;
      Ret (Some (node, status, pos), mkKBucket l fcp (pending self) (pending_timeout self))
  | None => Ret (None, self)
  end.

Definition KBucket_update (now : N) (self : KBucket) (key : TKey) (status : NodeStatus)
    : outcome KBucket :=
  '(r, b) ← KBucket_remove self key;
  match r with
  | Some (node, _, pos) =>
      let b := if bool_decide (pos = 0) && bool_decide (status = Connected)
               then mkKBucket (nodes b) (first_connected_pos b) None (pending_timeout b)
               else b in
      '(res, b) ← KBucket_insert now b node status;
      match res with
      | Inserted => Ret b
      | _ => Panic
      end
  | None => Ret b
  end.

Definition KBucket_update_pending (self : KBucket) (status : NodeStatus) : KBucket :=
  match pending self with
  | Some p =>
      mkKBucket (nodes self) (first_connected_pos self)
        (Some (mkPending (pending_node p) status (pending_replace p))) (pending_timeout self)
  | None => self
  end.

Definition KBucket_remove_pending (self : KBucket) : option PendingNode * KBucket :=
  (pending self, mkKBucket (nodes self) (first_connected_pos self) None (pending_timeout self)).

Definition KBucket_apply_pending (now : N) (self : KBucket)
    : outcome (option AppliedPending * KBucket) :=
  match pending self with
  | Some p =>
      (* [self.pending.take()] *)
      let b := mkKBucket (nodes self) (first_connected_pos self) None (pending_timeout self) in
      if (pending_replace p <=? now)%N then
        if is_full (nodes b) then
          if bool_decide (KBucket_status b 0 = Connected) then Ret (None, b)
          else if negb (map_or true (λ p, 0 <? p) (first_connected_pos b)) then
            (* [debug_assert!] *)
            Panic
          else
            let inserted := pending_node p in
            if bool_decide (pending_status p = Connected) then
              '(evicted, l) ← vec_remove 0 (nodes b);
              let fcp := match first_connected_pos b with
                         | None => Some (length l)
                         | Some p => checked_sub p 1
                         end in
              l ← array_push K_VALUE (pending_node p) l;
              Ret (Some (mkApplied inserted (Some evicted)),
                   mkKBucket l fcp None (pending_timeout b))
            else
              match first_connected_pos b with
              | Some q =>
                  insert_pos ← expect (checked_sub q 1);
                  '(evicted, l) ← vec_remove 0 (nodes b);
                  l ← array_insert K_VALUE insert_pos (pending_node p) l;
                  Ret (Some (mkApplied inserted (Some evicted)),
                       mkKBucket l (Some q) None (pending_timeout b))
              | None =>
                  '(evicted, l) ← vec_remove 0 (nodes b);
                  l ← array_push K_VALUE (pending_node p) l;
                  Ret (Some (mkApplied inserted (Some evicted)),
                       mkKBucket l None None (pending_timeout b))
              end
        else
          let inserted := pending_node p in
          '(res, b) ← KBucket_insert now b (pending_node p) (pending_status p);
          match res with
          | Inserted => Ret (Some (mkApplied inserted None), b)
          | _ => Panic
          end
      else
        (* [self.pending = Some(pending)] *)
        Ret (None, mkKBucket (nodes b) (first_connected_pos b) (Some p) (pending_timeout b))
  | None => Ret (None, self)
  end.

(** [get_mut]: an update of the first node with the key through the returned
    reference; [None] when there is no such node. *)
Definition KBucket_get_mut (self : KBucket) (key : TKey) (f : Node → Node) : option KBucket :=
  match KBucket_position self key with
  | Some i =>
      Some (mkKBucket (alter f i (nodes self)) (first_connected_pos self)
              (pending self) (pending_timeout self))
  | None => None
  end.
End bucket.

Arguments Node : clear implicits.
Arguments PendingNode : clear implicits.
Arguments KBucket : clear implicits.
Arguments InsertResult : clear implicits.
Arguments AppliedPending : clear implicits.

(** ** The abstract bucket

    What a bucket promises: two queues, the disconnected nodes from
    least-recently to most-recently disconnected and the connected nodes from
    least-recently to most-recently connected, a capacity shared by both, and
    a pending node that replaces the least-recently disconnected node once its
    timeout elapsed. *)
Section abstract.
Context {TKey TVal : Type} `{!AsRef TKey}.
Abbreviation Node := (Node TKey TVal).
Abbreviation KBucket := (KBucket TKey TVal).
Abbreviation PendingNode := (PendingNode TKey TVal).

Record ABucket : Type := mkABucket {
  disconnected_q : list Node;
  connected_q : list Node;
  a_pending : option PendingNode;
  a_timeout : N
}.

Definition a_nodes (a : ABucket) : list Node := disconnected_q a ++ connected_q a.
Definition a_full (a : ABucket) : bool := length (a_nodes a) =? K_VALUE.

Definition a_set_pending (p : option PendingNode) (a : ABucket) : ABucket :=
  mkABucket (disconnected_q a) (connected_q a) p (a_timeout a).

(** Append to the queue of a status. *)
Definition a_push (n : Node) (st : NodeStatus) (a : ABucket) : ABucket :=
  match st with
  | Connected => mkABucket (disconnected_q a) (connected_q a ++ [n]) (a_pending a) (a_timeout a)
  | Disconnected => mkABucket (disconnected_q a ++ [n]) (connected_q a) (a_pending a) (a_timeout a)
  end.

Definition a_insert (now : N) (n : Node) (st : NodeStatus) (a : ABucket)
    : InsertResult TKey * ABucket :=
  if a_full a then
    match st, disconnected_q a, a_pending a with
    | Connected, d :: _, None =>
        (Pending (node_key d),
         a_set_pending (Some (mkPending n Connected (now + a_timeout a)%N)) a)
    | _, _, _ => (Full, a)
    end
  else (Inserted, a_push n st a).

Definition a_remove (key : TKey) (a : ABucket) : option (Node * NodeStatus * nat) * ABucket :=
  match extract (same_key key) (disconnected_q a) with
  | Some (i, n, q) =>
      (Some (n, Disconnected, i), mkABucket q (connected_q a) (a_pending a) (a_timeout a))
  | None =>
      match extract (same_key key) (connected_q a) with
      | Some (i, n, q) =>
          (Some (n, Connected, length (disconnected_q a) + i),
           mkABucket (disconnected_q a) q (a_pending a) (a_timeout a))
      | None => (None, a)
      end
  end.

Definition a_update (key : TKey) (st : NodeStatus) (a : ABucket) : ABucket :=
  match a_remove key a with
  | (Some (n, _, pos), a') =>
      let a' := if bool_decide (pos = 0) && bool_decide (st = Connected)
                then a_set_pending None a' else a' in
      a_push n st a'
  | (None, a') => a'
  end.

Definition a_update_pending (st : NodeStatus) (a : ABucket) : ABucket :=
  match a_pending a with
  | Some p => a_set_pending (Some (mkPending (pending_node p) st (pending_replace p))) a
  | None => a
  end.

Definition a_apply_pending (now : N) (a : ABucket)
    : option (AppliedPending TKey TVal) * ABucket :=
  match a_pending a with
  | Some p =>
      if (pending_replace p <=? now)%N then
        let a' := a_set_pending None a in
        if a_full a then
          match disconnected_q a with
          | [] => (None, a')
          | d :: ds =>
              (Some (mkApplied (pending_node p) (Some d)),
               a_push (pending_node p) (pending_status p)
                 (mkABucket ds (connected_q a) None (a_timeout a)))
          end
        else (Some (mkApplied (pending_node p) None), a_push (pending_node p) (pending_status p) a')
      else (None, a)
  | None => (None, a)
  end.

(** The array representation of an abstract bucket. *)
Definition fcp_of (ds cs : list Node) : option nat :=
  match cs with [] => None | _ => Some (length ds) end.

Definition rep (a : ABucket) : KBucket :=
  mkKBucket (a_nodes a) (fcp_of (disconnected_q a) (connected_q a)) (a_pending a) (a_timeout a).

(** The abstraction function and the representation invariant of a bucket. *)
Definition abs (b : KBucket) : ABucket :=
  let p := default (length (nodes b)) (first_connected_pos b) in
  mkABucket (take p (nodes b)) (drop p (nodes b)) (pending b) (pending_timeout b).

Definition bucket_wf (b : KBucket) : Prop :=
  length (nodes b) ≤ K_VALUE ∧
  ∀ p, first_connected_pos b = Some p → p < length (nodes b).

Lemma abs_rep (a : ABucket) : abs (rep a) = a.
Proof.
  destruct a as [ds cs pe t]. unfold abs, rep, a_nodes; simpl.
  destruct cs as [|c cs]; simpl.
  - by rewrite app_nil_r, firstn_all, drop_all.
  - by rewrite take_app_length, drop_app_length.
Qed.

Lemma rep_abs (b : KBucket) : bucket_wf b → rep (abs b) = b.
Proof.
  destruct b as [l fcp pe t]. intros [_ Hfcp]; simpl in *.
  unfold rep, abs, a_nodes; simpl. rewrite take_drop. f_equal.
  destruct fcp as [p|]; simpl.
  - specialize (Hfcp p eq_refl). unfold fcp_of.
    destruct (drop p l) eqn:E.
    + apply (f_equal length) in E. rewrite length_drop in E. simpl in E. lia.
    + rewrite length_take. f_equal. lia.
  - by rewrite drop_all.
Qed.

Lemma rep_wf (a : ABucket) : bucket_wf (rep a) ↔ length (a_nodes a) ≤ K_VALUE.
Proof.
  split; [by intros [? _]|]. intros H. split; [done|]. simpl. intros p Hp.
  unfold fcp_of, a_nodes in *. destruct (connected_q a); simplify_eq.
  rewrite length_app. simpl. lia.
Qed.

Lemma bucket_wf_rep (b : KBucket) :
  bucket_wf b → ∃ a, b = rep a ∧ length (a_nodes a) ≤ K_VALUE.
Proof.
  intros H. exists (abs b). rewrite rep_abs by done. split; [done|].
  apply (proj1 (rep_wf _)). by rewrite rep_abs.
Qed.

(** ** The operations of the representation *)

Lemma rep_status (a : ABucket) (pos : nat) :
  pos < length (a_nodes a) →
  KBucket_status (rep a) pos =
    if decide (pos < length (disconnected_q a)) then Disconnected else Connected.
Proof.
  unfold KBucket_status, rep, fcp_of, a_nodes; simpl. rewrite length_app. intros H.
  destruct (connected_q a) as [|c cs]; simpl in *.
  - rewrite decide_True by lia. done.
  - destruct (Nat.leb_spec (length (disconnected_q a)) pos);
      [rewrite decide_False by lia|rewrite decide_True by lia]; done.
Qed.

Lemma rep_push_connected (a : ABucket) (n : Node) :
  length (a_nodes a) < K_VALUE →
  array_push K_VALUE n (a_nodes a) = Ret (a_nodes (a_push n Connected a)).
Proof.
  intros H. unfold array_push. rewrite decide_True by done.
  unfold a_nodes, a_push; simpl. by rewrite app_assoc.
Qed.

Lemma rep_insert (now : N) (a : ABucket) (n : Node) (st : NodeStatus) :
  length (a_nodes a) ≤ K_VALUE →
  KBucket_insert now (rep a) n st = Ret (prod_map id rep (a_insert now n st a)).
Proof.
  intros Hle. destruct a as [ds cs pe t]. unfold KBucket_insert, a_insert, a_full, is_full; simpl.
  destruct (Nat.eqb_spec (length (a_nodes (mkABucket ds cs pe t))) K_VALUE) as [E|E].
  - destruct st; [|done]. unfold a_nodes, K_VALUE in *; simpl in *.
    destruct ds as [|d ds], cs as [|c cs], pe as [pe|]; try done.
  - destruct st.
    + rewrite (rep_push_connected (mkABucket ds cs pe t)) by lia.
      unfold rep, fcp_of; simpl. destruct cs; simpl; [|done].
      unfold a_nodes; simpl. by rewrite app_nil_r.
    + unfold array_push, array_insert, a_nodes in *; simpl in *.
      destruct cs as [|c cs]; simpl.
      * rewrite app_nil_r in *. rewrite decide_True by lia.
        unfold rep, a_nodes, fcp_of; simpl. by rewrite app_nil_r.
      * rewrite decide_True by lia. rewrite vec_insert_app. simpl.
        unfold rep, a_nodes, fcp_of; simpl. by rewrite length_app, <-app_assoc.
Qed.

Lemma rep_position (a : ABucket) (key : TKey) :
  KBucket_position (rep a) key =
  match position (same_key key) (disconnected_q a) with
  | Some i => Some i
  | None => Nat.add (length (disconnected_q a)) <$> position (same_key key) (connected_q a)
  end.
Proof. apply position_app. Qed.

Lemma rep_remove (a : ABucket) (key : TKey) :
  KBucket_remove (rep a) key = Ret (prod_map id rep (a_remove key a)).
Proof.
  destruct a as [ds cs pe t]. unfold KBucket_remove, a_remove. rewrite rep_position; simpl.
  pose proof (extract_spec (same_key key) ds) as Hds.
  destruct (extract (same_key key) ds) as [[[i n] q]|].
  { destruct Hds as (-> & _ & _ & l1 & l2 & -> & -> & ->).
    rewrite rep_status, decide_True; unfold a_nodes; simpl; rewrite ?length_app; simpl; try lia.
    rewrite <-app_assoc. simpl. rewrite vec_remove_app. simpl.
    unfold rep, a_nodes, fcp_of; simpl. rewrite app_assoc.
    destruct cs; simpl; [done|]. rewrite usize_sub_le; rewrite length_app; simpl; [|lia].
    simpl. do 4 f_equal. rewrite length_app. lia. }
  rewrite Hds. pose proof (extract_spec (same_key key) cs) as Hcs.
  destruct (extract (same_key key) cs) as [[[i n] q]|]; [|by rewrite Hcs].
  destruct Hcs as (-> & _ & _ & l1 & l2 & -> & -> & ->). simpl.
  rewrite rep_status, decide_False; unfold a_nodes; simpl; rewrite ?length_app; simpl; try lia.
  rewrite app_assoc, <-length_app, vec_remove_app. simpl. unfold rep, a_nodes, fcp_of; simpl.
  destruct l1 as [|c l1]; simpl.
  - rewrite app_nil_r, Nat.eqb_refl, length_app. destruct l2 as [|c2 l2]; simpl.
    + by rewrite Nat.add_0_r, Nat.eqb_refl.
    + rewrite (proj2 (Nat.eqb_neq _ _)) by lia. done.
  - rewrite length_app. simpl. rewrite (proj2 (Nat.eqb_neq _ _)) by lia. by rewrite <-app_assoc.
Qed.

Lemma a_remove_length (key : TKey) (a : ABucket) :
  match a_remove key a with
  | (Some _, a') => length (a_nodes a) = S (length (a_nodes a'))
  | (None, a') => a' = a
  end.
Proof.
  unfold a_remove, a_nodes.
  destruct (extract (same_key key) (disconnected_q a)) as [[[i n] q]|] eqn:E.
  { apply extract_perm in E. simpl. by rewrite E. }
  destruct (extract (same_key key) (connected_q a)) as [[[i n] q]|] eqn:E2; [|done].
  apply extract_perm in E2. simpl. by rewrite E2, <-Permutation_middle.
Qed.

Lemma a_push_length (n : Node) (st : NodeStatus) (a : ABucket) :
  length (a_nodes (a_push n st a)) = S (length (a_nodes a)).
Proof. destruct st; unfold a_nodes; simpl; rewrite !length_app; simpl; lia. Qed.

Lemma a_insert_not_full (now : N) (n : Node) (st : NodeStatus) (a : ABucket) :
  length (a_nodes a) < K_VALUE → a_insert now n st a = (Inserted, a_push n st a).
Proof.
  intros H. unfold a_insert, a_full. by rewrite (proj2 (Nat.eqb_neq _ _)) by lia.
Qed.

Lemma rep_update (now : N) (a : ABucket) (key : TKey) (st : NodeStatus) :
  length (a_nodes a) ≤ K_VALUE →
  KBucket_update now (rep a) key st = Ret (rep (a_update key st a)).
Proof.
  intros Hle. unfold KBucket_update, a_update. rewrite rep_remove. simpl.
  pose proof (a_remove_length key a) as Hlen.
  destruct (a_remove key a) as [[[[n st'] pos]|] a'] eqn:E; simpl; [|done].
  set (a'' := if _ && _ then a_set_pending None a' else a').
  assert (length (a_nodes a'') < K_VALUE) as Hlt.
  { replace (a_nodes a'') with (a_nodes a') by (unfold a''; by case_match). lia. }
  replace (if _ && _ then _ else rep a') with (rep a'') by (unfold a''; by case_match).
  rewrite rep_insert, a_insert_not_full by lia. done.
Qed.

Lemma rep_update_pending (a : ABucket) (st : NodeStatus) :
  KBucket_update_pending (rep a) st = rep (a_update_pending st a).
Proof. unfold KBucket_update_pending, a_update_pending; simpl. by destruct (a_pending a). Qed.

Lemma rep_apply_pending (now : N) (a : ABucket) :
  length (a_nodes a) ≤ K_VALUE →
  KBucket_apply_pending now (rep a) = Ret (prod_map id rep (a_apply_pending now a)).
Proof.
  intros Hle. destruct a as [ds cs pe t]. unfold KBucket_apply_pending, a_apply_pending; simpl.
  destruct pe as [p|]; [|done]. destruct (_ <=? now)%N; [|done].
  change (mkKBucket (a_nodes (mkABucket ds cs (Some p) t)) (fcp_of ds cs) None t)
    with (rep (mkABucket ds cs None t)).
  unfold is_full, a_full. change (a_nodes (mkABucket ds cs (Some p) t)) with (ds ++ cs) in *.
  destruct (Nat.eqb_spec (length (ds ++ cs)) K_VALUE) as [E|E].
  2:{ rewrite rep_insert, a_insert_not_full by (unfold a_nodes; simpl; lia). done. }
  rewrite rep_status by (unfold a_nodes; simpl; rewrite E; unfold K_VALUE; lia). simpl.
  destruct ds as [|d ds]; simpl; [done|]. simpl in E. unfold K_VALUE, fcp_of, rep, a_nodes in *.
  destruct cs as [|c cs]; simpl.
  - rewrite app_nil_r in *. destruct (pending_status p); simpl; rewrite drop_0;
      unfold array_push; rewrite decide_True by lia; simpl; by rewrite ?app_nil_r.
  - rewrite drop_0. destruct (pending_status p); simpl.
    + unfold array_push. rewrite decide_True, checked_sub_le by lia. simpl.
      by rewrite Nat.sub_0_r, <-app_assoc.
    + unfold array_insert. rewrite Nat.sub_0_r, decide_True, vec_insert_app by lia. simpl.
      by rewrite length_app, <-app_assoc, Nat.add_1_r.
Qed.

Lemma a_insert_length (now : N) (n : Node) (st : NodeStatus) (a : ABucket) :
  length (a_nodes a) ≤ K_VALUE → length (a_nodes (a_insert now n st a).2) ≤ K_VALUE.
Proof.
  intros H. unfold a_insert, a_full. destruct (Nat.eqb_spec (length (a_nodes a)) K_VALUE).
  - by case_all.
  - simpl. rewrite a_push_length. lia.
Qed.

Lemma a_update_length (key : TKey) (st : NodeStatus) (a : ABucket) :
  length (a_nodes (a_update key st a)) = length (a_nodes a).
Proof.
  unfold a_update. pose proof (a_remove_length key a) as Hlen.
  destruct (a_remove key a) as [[[[n st'] pos]|] a']; [|by subst].
  rewrite a_push_length, Hlen. by case_match.
Qed.

Lemma a_apply_pending_length (now : N) (a : ABucket) :
  length (a_nodes a) ≤ K_VALUE → length (a_nodes (a_apply_pending now a).2) ≤ K_VALUE.
Proof.
  intros H. unfold a_apply_pending, a_full. destruct (a_pending a) as [p|]; [|done].
  destruct (_ <=? now)%N; [|done]. destruct (Nat.eqb_spec (length (a_nodes a)) K_VALUE).
  - unfold a_nodes in *. destruct (disconnected_q a) as [|d ds] eqn:Eds; simpl in *;
      [by rewrite Eds|]. pose proof (a_push_length (pending_node p) (pending_status p)
        (mkABucket ds (connected_q a) None (a_timeout a))) as Hp.
    unfold a_nodes in Hp; simpl in Hp. lia.
  - simpl. rewrite a_push_length. change (a_nodes (a_set_pending None a)) with (a_nodes a). lia.
Qed.

(** ** Keys held by a bucket

    The nodes of a bucket together with its pending node; the routing table
    keeps their keys distinct. *)
Definition a_all (a : ABucket) : list Node :=
  a_nodes a ++ option_list (pending_node <$> a_pending a).
Definition key_of (n : Node) : KeyBytes := as_ref (node_key n).

Lemma same_key_true (key : TKey) (n : Node) : same_key key n = true ↔ key_of n = as_ref key.
Proof. apply bool_decide_eq_true. Qed.

Lemma a_push_nodes (n : Node) (st : NodeStatus) (a : ABucket) :
  a_nodes (a_push n st a) ≡ₚ n :: a_nodes a.
Proof.
  destruct st; unfold a_nodes; simpl.
  - by rewrite app_assoc, <-Permutation_cons_append.
  - by rewrite <-Permutation_cons_append.
Qed.

Lemma a_push_all (n : Node) (st : NodeStatus) (a : ABucket) :
  a_all (a_push n st a) ≡ₚ n :: a_all a.
Proof. unfold a_all. rewrite a_push_nodes. by destruct st. Qed.

Lemma a_remove_nodes (key : TKey) (a : ABucket) :
  match a_remove key a with
  | (Some (n, _, _), a') =>
      a_nodes a ≡ₚ n :: a_nodes a' ∧ key_of n = as_ref key ∧ a_pending a' = a_pending a
  | (None, a') => a' = a ∧ as_ref key ∉ key_of <$> a_nodes a
  end.
Proof.
  unfold a_remove, a_nodes.
  pose proof (extract_spec (same_key key) (disconnected_q a)) as Hds.
  destruct (extract (same_key key) (disconnected_q a)) as [[[i n] q]|] eqn:E.
  { apply extract_perm in E. simpl. rewrite E. destruct Hds as (_ & _ & ?%same_key_true & _).
    by split_and!. }
  pose proof (extract_spec (same_key key) (connected_q a)) as Hcs.
  destruct (extract (same_key key) (connected_q a)) as [[[i n] q]|] eqn:E2.
  { apply extract_perm in E2. simpl. rewrite E2. destruct Hcs as (_ & _ & ?%same_key_true & _).
    split_and!; [|done..]. by rewrite <-Permutation_middle. }
  split; [done|]. apply position_None in Hds, Hcs. intros (n & Hk & Hn)%list_elem_of_fmap.
  assert (same_key key n = true) by by apply same_key_true.
  assert (same_key key n = false); [|congruence].
  apply elem_of_app in Hn as [Hn|Hn]; [by eapply Forall_forall in Hds|by eapply Forall_forall in Hcs].
Qed.

Lemma a_insert_all (now : N) (n : Node) (st : NodeStatus) (a : ABucket) :
  (a_insert now n st a).2 = a ∧ (a_insert now n st a).1 = Full ∨
  a_all (a_insert now n st a).2 ≡ₚ n :: a_all a ∧ (a_insert now n st a).1 ≠ Full.
Proof.
  unfold a_insert. destruct (a_full a); [|right; simpl; by rewrite a_push_all].
  destruct st; [|by left]. destruct (disconnected_q a) as [|d ds] eqn:E; [by left|].
  destruct (a_pending a) eqn:Ep; [by left|]. right. simpl. split; [|done].
  unfold a_all, a_set_pending; simpl. rewrite Ep. simpl.
  by rewrite app_nil_r, <-Permutation_cons_append.
Qed.

Lemma a_update_all (key : TKey) (st : NodeStatus) (a : ABucket) :
  a_all (a_update key st a) ⊆+ a_all a.
Proof.
  unfold a_update. pose proof (a_remove_nodes key a) as H.
  destruct (a_remove key a) as [[[[n st'] pos]|] a'].
  - destruct H as (Hn & _ & Hp). rewrite a_push_all. unfold a_all.
    rewrite Hn. simpl. apply submseteq_skip.
    case_match; simpl; [|by rewrite Hp]. rewrite app_nil_r. by apply submseteq_inserts_r.
  - by destruct H as [-> _].
Qed.

Lemma a_apply_pending_all (now : N) (a : ABucket) :
  a_all (a_apply_pending now a).2 ⊆+ a_all a.
Proof.
  unfold a_apply_pending. destruct (a_pending a) as [p|] eqn:Ep; [|done].
  destruct (_ <=? now)%N; [|done].
  assert (a_all a ≡ₚ pending_node p :: a_nodes a) as Ha.
  { unfold a_all. rewrite Ep. simpl. by rewrite <-Permutation_cons_append. }
  destruct (a_full a).
  - destruct (disconnected_q a) as [|d ds] eqn:Eds; simpl.
    + rewrite Ha. unfold a_all, a_set_pending; simpl. rewrite app_nil_r. by apply submseteq_cons.
    + rewrite a_push_all, Ha. apply submseteq_skip. unfold a_all, a_nodes; simpl.
      rewrite Eds, app_nil_r. simpl. by apply submseteq_cons.
  - simpl. rewrite a_push_all, Ha. unfold a_all, a_set_pending; simpl. by rewrite app_nil_r.
Qed.

(** ** Sequences of operations *)
Inductive bucket_op : Type :=
| OpInsert (now : N) (node : Node) (status : NodeStatus)
| OpUpdate (now : N) (key : TKey) (status : NodeStatus)
| OpRemove (key : TKey)
| OpUpdatePending (status : NodeStatus)
| OpRemovePending
| OpApplyPending (now : N).

(** What an operation returns to its caller. *)
Inductive bucket_obs : Type :=
| ObsInsert (r : InsertResult TKey)
| ObsUnit
| ObsRemove (r : option (Node * NodeStatus * nat))
| ObsPending (r : option PendingNode)
| ObsApplied (r : option (AppliedPending TKey TVal)).

Definition bucket_step (b : KBucket) (op : bucket_op) : outcome (bucket_obs * KBucket) :=
  match op with
  | OpInsert now n st => prod_map ObsInsert id <$> KBucket_insert now b n st
  | OpUpdate now key st => pair ObsUnit <$> KBucket_update now b key st
  | OpRemove key => prod_map ObsRemove id <$> KBucket_remove b key
  | OpUpdatePending st => Ret (ObsUnit, KBucket_update_pending b st)
  | OpRemovePending => Ret (prod_map ObsPending id (KBucket_remove_pending b))
  | OpApplyPending now => prod_map ObsApplied id <$> KBucket_apply_pending now b
  end.

Definition a_step (a : ABucket) (op : bucket_op) : bucket_obs * ABucket :=
  match op with
  | OpInsert now n st => prod_map ObsInsert id (a_insert now n st a)
  | OpUpdate _ key st => (ObsUnit, a_update key st a)
  | OpRemove key => prod_map ObsRemove id (a_remove key a)
  | OpUpdatePending st => (ObsUnit, a_update_pending st a)
  | OpRemovePending => (ObsPending (a_pending a), a_set_pending None a)
  | OpApplyPending now => prod_map ObsApplied id (a_apply_pending now a)
  end.

Fixpoint bucket_run (b : KBucket) (ops : list bucket_op) : outcome (list bucket_obs * KBucket) :=
  match ops with
  | [] => Ret ([], b)
  | op :: ops =>
      '(o, b) ← bucket_step b op;
      '(os, b) ← bucket_run b ops;
      Ret (o :: os, b)
  end.

Fixpoint a_run (a : ABucket) (ops : list bucket_op) : list bucket_obs * ABucket :=
  match ops with
  | [] => ([], a)
  | op :: ops =>
      let '(o, a) := a_step a op in
      let '(os, a) := a_run a ops in
      (o :: os, a)
  end.

Lemma rep_step (a : ABucket) (op : bucket_op) :
  length (a_nodes a) ≤ K_VALUE → bucket_step (rep a) op = Ret (prod_map id rep (a_step a op)).
Proof.
  intros H. destruct op; simpl.
  - rewrite rep_insert by done. by destruct (a_insert _ _ _ _).
  - by rewrite rep_update.
  - rewrite rep_remove. by destruct (a_remove _ _).
  - by rewrite rep_update_pending.
  - done.
  - rewrite rep_apply_pending by done. by destruct (a_apply_pending _ _).
Qed.

Lemma a_step_length (a : ABucket) (op : bucket_op) :
  length (a_nodes a) ≤ K_VALUE → length (a_nodes (a_step a op).2) ≤ K_VALUE.
Proof.
  intros H. destruct op; simpl.
  - by apply a_insert_length.
  - by rewrite a_update_length.
  - pose proof (a_remove_length key a). destruct (a_remove key a) as [[?|] ?]; simpl; [lia|by subst].
  - unfold a_update_pending. by destruct (a_pending a).
  - done.
  - by apply a_apply_pending_length.
Qed.

Lemma rep_run (a : ABucket) (ops : list bucket_op) :
  length (a_nodes a) ≤ K_VALUE →
  bucket_run (rep a) ops = Ret (prod_map id rep (a_run a ops)) ∧
  length (a_nodes (a_run a ops).2) ≤ K_VALUE.
Proof.
  revert a. induction ops as [|op ops IH]; intros a H; simpl; [done|].
  pose proof (a_step_length a op H) as H'. rewrite rep_step by done.
  destruct (a_step a op) as [o a']. simpl in *. destruct (IH a' H') as [-> Hl].
  by destruct (a_run a' ops).
Qed.
End abstract.

Arguments ABucket : clear implicits.
Arguments bucket_op : clear implicits.
Arguments bucket_obs : clear implicits.

(** ** Properties of a bucket *)
Section properties.
Context {TKey TVal : Type} `{!AsRef TKey}.
Implicit Types (b : KBucket TKey TVal) (n : Node TKey TVal).

(** [C2] Refinement: whatever sequence of operations is applied to a new bucket,
    no operation panics, every result is that of the two-queue bucket, and the
    final array represents the final queues within the capacity. *)
Theorem KBucket_run_refines (timeout : N) (ops : list (bucket_op TKey TVal)) :
  let '(os, a) := a_run (mkABucket [] [] None timeout) ops in
  bucket_run (KBucket_new timeout) ops = Ret (os, rep a) ∧ abs (rep a) = a ∧ bucket_wf (rep a).
Proof.
  change (KBucket_new timeout) with (rep (mkABucket (TKey:=TKey) (TVal:=TVal) [] [] None timeout)).
  destruct (rep_run (mkABucket [] [] None timeout) ops) as [Hr Hl]; [unfold K_VALUE; simpl; lia|].
  rewrite Hr. destruct (a_run _ ops) as [os a]; simpl in *.
  split_and!; [done|apply abs_rep|by apply rep_wf].
Qed.

(** Iteration lists the disconnected queue, then the connected one. *)
Lemma KBucket_iter_rep (a : ABucket TKey TVal) :
  KBucket_iter (rep a) =
    ((λ n, (n, Disconnected)) <$> disconnected_q a) ++ ((λ n, (n, Connected)) <$> connected_q a).
Proof.
  apply list_eq. intros i. unfold KBucket_iter. rewrite list_lookup_imap. simpl.
  destruct (a_nodes a !! i) as [n|] eqn:E; simpl.
  - rewrite rep_status by (by eapply lookup_lt_Some). unfold a_nodes in E.
    rewrite lookup_app, !list_lookup_fmap, length_fmap.
    case_decide as Hlt.
    + rewrite lookup_app_l in E by done. by rewrite E.
    + rewrite lookup_app_r in E by lia. rewrite lookup_ge_None_2 by lia. simpl. by rewrite E.
  - symmetry. apply lookup_ge_None_2. apply lookup_ge_None_1 in E.
    unfold a_nodes in E. rewrite length_app in *. by rewrite !length_fmap.
Qed.

Lemma KBucket_num_connected_rep (a : ABucket TKey TVal) :
  KBucket_num_connected (rep a) = Ret (length (connected_q a)).
Proof.
  unfold KBucket_num_connected, rep, fcp_of, a_nodes; simpl.
  destruct (connected_q a) as [|c cs]; simpl; [done|].
  rewrite usize_sub_le; rewrite length_app; simpl; [f_equal|]; lia.
Qed.

(** The two counters of a well-formed bucket are the numbers of entries
    that iteration reports as connected and as disconnected, and they add up to
    the number of entries, which is at most [K_VALUE]. *)
Theorem KBucket_counts b :
  bucket_wf b →
  ∃ c d, KBucket_num_connected b = Ret c ∧ KBucket_num_disconnected b = Ret d ∧
    c = length (filter (λ e, e.2 = Connected) (KBucket_iter b)) ∧
    d = length (filter (λ e, e.2 = Disconnected) (KBucket_iter b)) ∧
    c + d = KBucket_num_entries b ∧ c + d ≤ K_VALUE.
Proof.
  intros (a & -> & Hwf)%bucket_wf_rep.
  exists (length (connected_q a)), (length (disconnected_q a)).
  unfold KBucket_num_disconnected, KBucket_num_entries.
  rewrite KBucket_num_connected_rep, KBucket_iter_rep, !filter_app, !length_app. simpl.
  unfold a_nodes in *. rewrite length_app in *.
  assert (∀ (st st' : NodeStatus) (l : list (Node TKey TVal)), length (filter (λ e, e.2 = st')
    ((λ n, (n, st)) <$> l)) = if decide (st = st') then length l else 0) as Hf.
  { intros st st' l. induction l as [|x l IH]; [by case_decide|].
    rewrite fmap_cons, filter_cons; cbn [snd]. revert IH.
    case_decide; cbn [length]; by intros ->. }
  rewrite !Hf. simpl. rewrite usize_sub_le by lia. split_and!; [done|f_equal; lia|lia..].
Qed.

(** Life cycle of a pending node: inserting a connected node into a full
    bucket yields [Pending] only with the least-recently disconnected node [d]
    at the head; until the timeout elapsed [apply_pending] changes nothing;
    afterwards it evicts exactly [d] and appends the pending node as the
    most-recently connected one; and if [d] is reported connected before that,
    it moves to the end and the pending node is dropped. *)
Theorem KBucket_pending_lifecycle (now : N) b b' n (k : TKey) :
  bucket_wf b →
  KBucket_insert now b n Connected = Ret (Pending k, b') →
  ∃ d rest, nodes b = d :: rest ∧ node_key d = k ∧ nodes b' = nodes b ∧
    length (nodes b) = K_VALUE ∧ KBucket_status b 0 = Disconnected ∧
    ∀ t,
      ((t < now + pending_timeout b)%N → KBucket_apply_pending t b' = Ret (None, b')) ∧
      ((now + pending_timeout b ≤ t)%N → ∃ b2,
          KBucket_apply_pending t b' = Ret (Some (mkApplied n (Some d)), b2) ∧
          nodes b2 = rest ++ [n] ∧ KBucket_status b2 (length rest) = Connected ∧
          pending b2 = None) ∧
      ∃ b3, KBucket_update t b' k Connected = Ret b3 ∧
            nodes b3 = rest ++ [d] ∧ pending b3 = None.
Proof.
  intros ([ds cs pe t0] & -> & Hle)%bucket_wf_rep. rewrite rep_insert by done.
  unfold a_insert, a_full; simpl.
  destruct (Nat.eqb_spec (length (a_nodes (mkABucket ds cs pe t0))) K_VALUE) as [E|]; [|done].
  destruct ds as [|d ds], pe; try done. intros [= <- <-].
  set (a' := mkABucket (d :: ds) cs (Some (mkPending n Connected (now + t0)%N)) t0).
  assert (length (a_nodes a') ≤ K_VALUE) as Hle' by exact Hle.
  assert (a_full a' = true) as Hfull by by apply Nat.eqb_eq.
  exists d, (ds ++ cs). unfold a_nodes in E; simpl in E.
  split_and!; try done. { rewrite rep_status; [done|]. unfold a_nodes; simpl; lia. }
  change (a_set_pending _ _) with a'. intros t. rewrite rep_apply_pending, rep_update by done.
  unfold a_apply_pending. rewrite Hfull. cbn [a' a_pending pending_replace disconnected_q].
  split_and!.
  - intros Ht. by rewrite (proj2 (N.leb_gt _ _)) by lia.
  - intros Ht. rewrite (proj2 (N.leb_le _ _)) by lia. eexists. split; [done|].
    rewrite rep_status; unfold a_nodes; simpl; rewrite !length_app; simpl; [|lia].
    split_and!; [unfold a_nodes; simpl; by rewrite app_assoc| |done].
    by rewrite decide_False by lia.
  - unfold a_update, a_remove; simpl.
    assert (same_key (node_key d) d = true) as -> by by apply bool_decide_eq_true.
    simpl. eexists. split; [done|]. split; [|done].
    unfold rep, a_nodes; simpl. by rewrite app_assoc.
Qed.
End properties.

(** Concrete buckets for the witnesses: [count] disconnected nodes with keys
    [1, 2, ...]. *)
Definition sample_node (i : nat) : Node KeyBytes nat :=
  mkNode (U256_to_bytes (N.of_nat i)) i.
Definition sample_bucket (count : nat) : KBucket KeyBytes nat :=
  mkKBucket (sample_node <$> seq 1 count) None None 60.

Lemma KBucket_counts_witness :
  ∃ c d, KBucket_num_connected (sample_bucket 7) = Ret c ∧
    KBucket_num_disconnected (sample_bucket 7) = Ret d ∧ c + d = 7.
Proof.
  destruct (KBucket_counts (sample_bucket 7)) as (c & d & Hc & Hd & _ & _ & H & _).
  { split; [vm_compute; lia|done]. }
  by exists c, d.
Defined.

Definition sample_pending_bucket : KBucket KeyBytes nat :=
  mkKBucket (sample_node <$> seq 1 20) None (Some (mkPending (sample_node 21) Connected 160)) 60.

Lemma KBucket_pending_lifecycle_witness :
  KBucket_apply_pending 159 sample_pending_bucket = Ret (None, sample_pending_bucket) ∧
  ∃ b2, KBucket_apply_pending 160 sample_pending_bucket =
          Ret (Some (mkApplied (sample_node 21) (Some (sample_node 1))), b2).
Proof.
  destruct (KBucket_pending_lifecycle 100 (sample_bucket 20) sample_pending_bucket
    (sample_node 21) (node_key (sample_node 1)))
    as (d & rest & Hd & _ & _ & _ & _ & H); [split; [by apply Nat.leb_le|done]|done|].
  cbn [sample_bucket nodes seq fmap list_fmap] in Hd. injection Hd as <- <-. split.
  - apply (H 159%N). done.
  - destruct (H 160%N) as (_ & H2 & _). destruct H2 as (b2 & H2 & _); [done|].
    exists b2. exact H2.
Defined.
