(* ===== verification/KadTable.v ===== *)
(** * The Kademlia routing table

    [protocols/kad/src/kbucket.rs] and [protocols/kad/src/kbucket/entry.rs]:
    the table of 256 buckets around a local key, the [Entry] API through which
    buckets are modified, and the iterators over the keys closest to a target.

    An [Entry] borrows a bucket of the table; here it names the bucket by its
    index, and the operations of an entry take the table it was obtained from. *)

From stdpp Require Import prelude.
From S2P Require Import Prelude KadKey KadBucket.

Definition NUM_BUCKETS : nat := 256.

(** ** Bucket indices *)

(** [BucketIndex::new]. *)
Definition BucketIndex_new (d : Distance) : option nat := Distance_ilog2 d.

Definition BucketIndex_range (i : nat) : Distance * Distance :=
  let min := (2 ^ N.of_nat i)%N in
  if i =? 255 then (min, U256_MAX)
  else (min, (2 ^ N.of_nat (i + 1) - 1)%N).

(** [rand_distance]: [gen i] is the byte of the [i]-th call of [rng.gen()] and
    [gen_range lower upper] the result of [rng.gen_range]. *)
Definition BucketIndex_rand_distance (gen : nat → byte) (gen_range : N → N → N) (i : nat)
    : Distance :=
  let bytes := replicate 32 Byte.x00 in
  let quot := i `div` 8 in
  let bytes := foldl (λ bytes i, <[31 - i := gen i]> bytes) bytes (seq 0 quot) in
  let rem := N.of_nat (i `mod` 8) in
  let lower := (2 ^ rem)%N in
  let upper := (2 ^ (rem + 1))%N in
  let bytes := <[31 - quot := N2b (gen_range lower upper)]> bytes in
  U256_from_slice bytes.

(** ** The iterator over bucket indices *)
Inductive ClosestBucketsIterState : Type :=
| Start (i : nat)
| ZoomIn (i : nat)
| ZoomOut (i : nat)
| Done.

Record ClosestBucketsIter : Type := mkCBI {
  cbi_distance : Distance;
  cbi_state : ClosestBucketsIterState
}.

(** [distance.0.bit(i)]. *)
Definition U256_bit (d : Distance) (i : nat) : bool := N.testbit d (N.of_nat i).

Definition ClosestBucketsIter_new (distance : Distance) : ClosestBucketsIter :=
  let state := match BucketIndex_new distance with
               | Some i => Start i
               | None => Start 0
               end in
  mkCBI distance state.

(** The first element of a list that satisfies a predicate ([find_map]). *)
Definition find_first {A} (p : A → bool) (l : list A) : option A :=
  head (filter (λ x, p x = true) l).

Definition ClosestBucketsIter_next_in (self : ClosestBucketsIter) (i : nat) : option nat :=
  find_first (U256_bit (cbi_distance self)) (reverse (seq 0 i)).

Definition ClosestBucketsIter_next_out (self : ClosestBucketsIter) (i : nat) : option nat :=
  find_first (λ i, negb (U256_bit (cbi_distance self) i)) (seq (i + 1) (NUM_BUCKETS - (i + 1))).

Definition ClosestBucketsIter_next (self : ClosestBucketsIter)
    : option nat * ClosestBucketsIter :=
  let go st := mkCBI (cbi_distance self) st in
  match cbi_state self with
  | Start i => (Some i, go (ZoomIn i))
  | ZoomIn i =>
      match ClosestBucketsIter_next_in self i with
      | Some i => (Some i, go (ZoomIn i))
      | None => (Some 0, go (ZoomOut 0))
      end
  | ZoomOut i =>
      match ClosestBucketsIter_next_out self i with
      | Some i => (Some i, go (ZoomOut i))
      | None => (None, go Done)
      end
  | Done => (None, self)
  end.

Section table.
Context {TKey TVal : Type} `{!AsRef TKey}.
Abbreviation Node := (Node TKey TVal).
Abbreviation KBucket := (KBucket TKey TVal).
Abbreviation AppliedPending := (AppliedPending TKey TVal).

Record KBucketsTable : Type := mkTable {
  local_key : TKey;
  buckets : list KBucket;
  applied_pending : list AppliedPending
}.

Definition KBucketsTable_new (local_key : TKey) (pending_timeout : N) : KBucketsTable :=
  mkTable local_key ((λ _, KBucket_new pending_timeout) <$> seq 0 NUM_BUCKETS) [].

(** An operation on the bucket at an index; indexing out of range panics. *)
Definition on_bucket {R} (self : KBucketsTable) (i : nat) (f : KBucket → outcome (R * KBucket))
    : outcome (R * KBucketsTable) :=
  b ← vec_index (buckets self) i;
  '(r, b) ← f b;
  Ret (r, mkTable (local_key self) (<[i:=b]> (buckets self)) (applied_pending self)).

(** [if let Some(applied) = bucket.apply_pending() { applied_pending.push_back(applied) }]. *)
Definition apply_pending_at (now : N) (self : KBucketsTable) (i : nat) : outcome KBucketsTable :=
  '(r, t) ← on_bucket self i (KBucket_apply_pending now);
  Ret (mkTable (local_key t) (buckets t) (applied_pending t ++ option_list r)).

(** *** Entries *)
Record EntryRef : Type := mkEntryRef { entry_bucket : nat; entry_key : TKey }.

Inductive Entry : Type :=
| EntryPresent (e : EntryRef) (status : NodeStatus)
| EntryPending (e : EntryRef) (status : NodeStatus)
| EntryAbsent (e : EntryRef)
| SelfEntry.

Record EntryView : Type := mkView { view_node : Node; view_status : NodeStatus }.

#[local] Instance EntryView_as_ref : AsRef EntryView := λ v, as_ref (node_key (view_node v)).

(** [Entry::new(bucket, key)] for the bucket at index [i]. *)
Definition Entry_new (i : nat) (bucket : KBucket) (key : TKey) : Entry :=
  match KBucket_position bucket key with
  | Some pos =>
      let status := KBucket_status bucket pos in
      EntryPresent (mkEntryRef i key) status
  | None =>
      match KBucket_as_pending bucket key with
      | Some p => EntryPending (mkEntryRef i key) (pending_status p)
      | None => EntryAbsent (mkEntryRef i key)
      end
  end.

Definition KBucketsTable_entry (now : N) (self : KBucketsTable) (key : TKey)
    : outcome (Entry * KBucketsTable) :=
  match BucketIndex_new (KeyBytes_distance (as_ref (local_key self)) key) with
  | Some i =>
      t ← apply_pending_at now self i;
      b ← vec_index (buckets t) i;
      Ret (Entry_new i b key, t)
  | None => Ret (SelfEntry, self)
  end.

(** [PresentEntry::value]: the closure [f] is what the caller does with the
    mutable reference. *)
Definition PresentEntry_value (self : KBucketsTable) (e : EntryRef) (f : TVal → TVal)
    : outcome KBucketsTable :=
  snd <$> on_bucket self (entry_bucket e) (λ b,
    pair () <$> expect (KBucket_get_mut b (entry_key e)
                          (λ n, mkNode (node_key n) (f (node_value n))))).

Definition PresentEntry_update (now : N) (self : KBucketsTable) (e : EntryRef) (status : NodeStatus)
    : outcome KBucketsTable :=
  snd <$> on_bucket self (entry_bucket e) (λ b,
    pair () <$> KBucket_update now b (entry_key e) status).

Definition PresentEntry_remove (self : KBucketsTable) (e : EntryRef)
    : outcome (EntryView * KBucketsTable) :=
  on_bucket self (entry_bucket e) (λ b,
    '(r, b) ← KBucket_remove b (entry_key e);
    '(node, status, _) ← expect r;
    Ret (mkView node status, b)).

Definition PendingEntry_value (self : KBucketsTable) (e : EntryRef) (f : TVal → TVal)
    : outcome KBucketsTable :=
  snd <$> on_bucket self (entry_bucket e) (λ b,
    p ← expect (pending b);
    let n := pending_node p in
    let p := mkPending (mkNode (node_key n) (f (node_value n))) (pending_status p)
               (pending_replace p) in
    Ret ((), mkKBucket (nodes b) (first_connected_pos b) (Some p) (pending_timeout b))).

Definition PendingEntry_update (self : KBucketsTable) (e : EntryRef) (status : NodeStatus)
    : outcome KBucketsTable :=
  snd <$> on_bucket self (entry_bucket e) (λ b, Ret ((), KBucket_update_pending b status)).

Definition PendingEntry_remove (self : KBucketsTable) (e : EntryRef)
    : outcome (EntryView * KBucketsTable) :=
  on_bucket self (entry_bucket e) (λ b,
    let '(r, b) := KBucket_remove_pending b in
    p ← expect r;
    Ret (mkView (pending_node p) (pending_status p), b)).

Definition AbsentEntry_insert (now : N) (self : KBucketsTable) (e : EntryRef)
    (value : TVal) (status : NodeStatus) : outcome (InsertResult TKey * KBucketsTable) :=
  on_bucket self (entry_bucket e) (λ b,
    KBucket_insert now b (mkNode (entry_key e) value) status).

(** *** Access to whole buckets *)
Record KBucketRef : Type := mkBucketRef { ref_index : nat; ref_bucket : KBucket }.

Definition KBucketsTable_bucket {K} `{!AsRef K} (now : N) (self : KBucketsTable) (key : K)
    : outcome (option KBucketRef * KBucketsTable) :=
  match BucketIndex_new (KeyBytes_distance (as_ref (local_key self)) key) with
  | Some i =>
      t ← apply_pending_at now self i;
      b ← vec_index (buckets t) i;
      Ret (Some (mkBucketRef i b), t)
  | None => Ret (None, self)
  end.

(** [iter()] run to its end: pending nodes are applied bucket by bucket. *)
Definition iter_bucket (now : N) (acc : outcome (list KBucketRef * KBucketsTable)) (i : nat)
    : outcome (list KBucketRef * KBucketsTable) :=
  '(refs, t) ← acc;
  t ← apply_pending_at now t i;
  b ← vec_index (buckets t) i;
  Ret (refs ++ [mkBucketRef i b], t).

Definition KBucketsTable_iter (now : N) (self : KBucketsTable)
    : outcome (list KBucketRef * KBucketsTable) :=
  foldl (iter_bucket now) (Ret ([], self)) (seq 0 (length (buckets self))).

Definition KBucketsTable_take_applied_pending (self : KBucketsTable)
    : option AppliedPending * KBucketsTable :=
  match applied_pending self with
  | [] => (None, self)
  | a :: l => (Some a, mkTable (local_key self) (buckets self) l)
  end.

Definition KBucketRef_range (self : KBucketRef) : Distance * Distance :=
  BucketIndex_range (ref_index self).
Definition KBucketRef_num_entries (self : KBucketRef) : nat :=
  KBucket_num_entries (ref_bucket self).
Definition KBucketRef_is_empty (self : KBucketRef) : bool := KBucketRef_num_entries self =? 0.
Definition KBucketRef_has_pending (now : N) (self : KBucketRef) : bool :=
  map_or false (λ n, negb (PendingNode_is_ready now n)) (pending (ref_bucket self)).
Definition KBucketRef_contains (self : KBucketRef) (d : Distance) : bool :=
  map_or false (λ i, i =? ref_index self) (BucketIndex_new d).
Definition KBucketRef_iter (self : KBucketRef) : list EntryView :=
  (λ '(n, status), mkView n status) <$> KBucket_iter (ref_bucket self).

(** *** The closest nodes to a target *)
Section closest.
Context {TOut : Type} `{!AsRef TOut} (target : KeyBytes) (fmap_bucket : KBucket → list TOut).

Record ClosestIter : Type := mkClosestIter {
  ci_buckets_iter : ClosestBucketsIter;
  ci_iter : option (list TOut)
}.

(** [a.distance(target) <= b.distance(target)], the order given to [sort_by]. *)
Definition closer (a b : TOut) : bool :=
  (KeyBytes_distance target a <=? KeyBytes_distance target b)%N.

(** [ClosestIter::next]; [None] when the fuel of the loop is exhausted. *)
Fixpoint ClosestIter_next (fuel : nat) (now : N) (self : ClosestIter) (table : KBucketsTable)
    : option (outcome (option TOut * ClosestIter * KBucketsTable)) :=
  match fuel with
  | 0 => None
  | S fuel =>
      match ci_iter self with
      | Some (k :: l) =>
          Some (Ret (Some k, mkClosestIter (ci_buckets_iter self) (Some l), table))
      | Some [] => ClosestIter_next fuel now (mkClosestIter (ci_buckets_iter self) None) table
      | None =>
          match ClosestBucketsIter_next (ci_buckets_iter self) with
          | (Some i, bi) =>
              match (t ← apply_pending_at now table i; b ← vec_index (buckets t) i; Ret (t, b)) with
              | Ret (t, b) =>
                  let v := sort_by closer (fmap_bucket b) in
                  ClosestIter_next fuel now (mkClosestIter bi (Some v)) t
              | Panic => Some Panic
              end
          | (None, bi) => Some (Ret (None, mkClosestIter bi None, table))
          end
      end
  end.

(** The iterator run to its end. *)
Fixpoint ClosestIter_collect (fuel : nat) (now : N) (self : ClosestIter) (table : KBucketsTable)
    : option (outcome (list TOut * KBucketsTable)) :=
  match fuel with
  | 0 => None
  | S fuel' =>
      match ClosestIter_next fuel now self table with
      | Some (Ret (Some k, it, t)) =>
          match ClosestIter_collect fuel' now it t with
          | Some (Ret (l, t)) => Some (Ret (k :: l, t))
          | r => r
          end
      | Some (Ret (None, _, t)) => Some (Ret ([], t))
      | Some Panic => Some Panic
      | None => None
      end
  end.
End closest.

Definition KBucketsTable_closest_keys (fuel : nat) (now : N) (self : KBucketsTable)
    (target : KeyBytes) : option (outcome (list TKey * KBucketsTable)) :=
  let distance := KeyBytes_distance (as_ref (local_key self)) target in
  ClosestIter_collect target (λ b, (λ '(n, _), node_key n) <$> KBucket_iter b) fuel now
    (mkClosestIter (ClosestBucketsIter_new distance) None) self.

Definition KBucketsTable_closest (fuel : nat) (now : N) (self : KBucketsTable)
    (target : KeyBytes) : option (outcome (list EntryView * KBucketsTable)) :=
  let distance := KeyBytes_distance (as_ref (local_key self)) target in
  ClosestIter_collect target (λ b, (λ '(n, status), mkView n status) <$> KBucket_iter b) fuel now
    (mkClosestIter (ClosestBucketsIter_new distance) None) self.

(** [ClosestBucketsIter::new(distance).take_while(|i| i.get() != 0)]. *)
Fixpoint take_while_nonzero (fuel : nat) (it : ClosestBucketsIter) : list nat :=
  match fuel with
  | 0 => []
  | S fuel =>
      match ClosestBucketsIter_next it with
      | (Some (S i), it) => S i :: take_while_nonzero fuel it
      | (_, _) => []
      end
  end.

Definition KBucketsTable_count_nodes_between (self : KBucketsTable) (target : KeyBytes)
    : outcome nat :=
  let distance := KeyBytes_distance target (local_key self) in
  match take_while_nonzero NUM_BUCKETS (ClosestBucketsIter_new distance) with
  | i :: rest =>
      b ← vec_index (buckets self) i;
      let num_first := length (filter (λ '(n, _),
        (KeyBytes_distance (as_ref (node_key n)) (local_key self) ≤ distance)%N)
        (KBucket_iter b)) in
      num_rest ← foldl (λ acc i, s ← acc; b ← vec_index (buckets self) i;
                          Ret (s + KBucket_num_entries b)) (Ret 0) rest;
      Ret (num_first + num_rest)
  | [] => Ret 0
  end.
End table.

Arguments KBucketsTable : clear implicits.
Arguments EntryView : clear implicits.
Arguments EntryRef : clear implicits.
Arguments Entry : clear implicits.
#[export] Existing Instance EntryView_as_ref.

(** ** Bucket indices partition the key space *)

Lemma BucketIndex_new_lt (d : Distance) (i : nat) :
  (d < 2 ^ 256)%N → BucketIndex_new d = Some i → i < NUM_BUCKETS.
Proof.
  intros Hd Hi. apply Distance_ilog2_Some in Hi as [Hnz Hl]; [|done].
  assert (N.log2 d < 256)%N by (apply N.log2_lt_pow2; lia). unfold NUM_BUCKETS. lia.
Qed.

(** The ranges of the 256 buckets are non-overlapping and exhaustive: a
    non-zero distance of the key space belongs to the bucket [i] exactly when
    it lies in the range of [i], and zero belongs to no bucket. *)
Theorem BucketIndex_range_spec (d : Distance) (i : nat) :
  (d ≤ U256_MAX)%N → i < NUM_BUCKETS →
  (BucketIndex_new d = Some i ↔
     ((BucketIndex_range i).1 ≤ d)%N ∧ (d ≤ (BucketIndex_range i).2)%N) ∧
  (BucketIndex_new d = None ↔ d = 0%N).
Proof.
  unfold U256_MAX, NUM_BUCKETS. intros Hd Hi. assert (d < 2 ^ 256)%N as Hd' by lia.
  split; [|by apply Distance_ilog2_None].
  unfold BucketIndex_new. rewrite Distance_ilog2_Some by done.
  assert (∀ e : N, d ≠ 0%N → N.log2 d = e ↔ (2 ^ e ≤ d)%N ∧ (d < 2 ^ (e + 1))%N) as Hlog.
  { intros e Hnz. rewrite N.add_1_r. split.
    - intros <-. apply N.log2_spec. lia.
    - intros H. apply N.log2_unique; lia. }
  assert (0 < 2 ^ N.of_nat i)%N by (apply N.neq_0_lt_0, N.pow_nonzero; lia).
  unfold BucketIndex_range. destruct (Nat.eqb_spec i 255) as [->|Hne]; simpl fst; simpl snd.
  - split.
    + intros [Hnz Hl]. apply Hlog in Hl; [|done]. unfold U256_MAX. lia.
    + intros [Hmin _]. assert (d ≠ 0%N) as Hnz by lia. split; [done|].
      apply Hlog; [done|]. split; [done|]. exact Hd'.
  - rewrite Nat2N.inj_add. change (N.of_nat 1) with 1%N. split.
    + intros [Hnz Hl]. apply Hlog in Hl; [|done]. lia.
    + intros [Hmin Hmax]. assert (d ≠ 0%N) as Hnz by lia. split; [done|]. apply Hlog; [done|].
      assert (0 < 2 ^ (N.of_nat i + 1))%N by (apply N.neq_0_lt_0, N.pow_nonzero; lia). lia.
Qed.

Lemma BucketIndex_range_spec_witness : BucketIndex_new 5 = Some 2 ∧ BucketIndex_new 0 = None.
Proof.
  split.
  - destruct (BucketIndex_range_spec 5 2) as [[_ H] _]; [done|by apply Nat.ltb_lt|by apply H].
  - destruct (BucketIndex_range_spec 0 2) as [_ [_ H]]; [done|by apply Nat.ltb_lt|by apply H].
Defined.

Lemma rand_bytes_fill (gen : nat → byte) (q : nat) :
  q ≤ 31 →
  foldl (λ bytes i, <[31 - i := gen i]> bytes) (replicate 32 Byte.x00) (seq 0 q) =
  replicate (32 - q) Byte.x00 ++ reverse (gen <$> seq 0 q).
Proof.
  induction q as [|q IH]; intros Hq; [by rewrite app_nil_r|].
  rewrite seq_S, foldl_app, IH, fmap_app, reverse_app by lia. simpl.
  replace (32 - q) with (S (31 - q)) by lia. rewrite replicate_S_end, <-app_assoc.
  rewrite <-(Nat.add_0_r (31 - q)) at 1. rewrite <-(length_replicate (31 - q) Byte.x00) at 1.
  rewrite insert_app_r. done.
Qed.

Lemma be_to_N_zeros (n : nat) (l : list byte) : be_to_N (replicate n Byte.x00 ++ l) = be_to_N l.
Proof. induction n as [|n IH]; simpl; [done|]. by rewrite IH. Qed.

(** [rand_distance] generates a distance of the bucket it is asked for,
    whatever the random number generator returns within the requested range. *)
Theorem BucketIndex_rand_distance_spec
    (gen : nat → byte) (gen_range : N → N → N) (i : nat) :
  i < NUM_BUCKETS →
  (∀ lower upper, (lower < upper)%N →
     (lower ≤ gen_range lower upper)%N ∧ (gen_range lower upper < upper)%N) →
  BucketIndex_new (BucketIndex_rand_distance gen gen_range i) = Some i.
Proof.
  intros Hi Hrng. unfold BucketIndex_rand_distance, NUM_BUCKETS in *.
  pose proof (Nat.div_mod i 8) as Hdm. pose proof (Nat.mod_upper_bound i 8) as Hm.
  set (q := i `div` 8) in *. set (r := i `mod` 8) in *.
  rewrite rand_bytes_fill by lia. replace (32 - q) with (S (31 - q)) by lia.
  rewrite replicate_S_end, <-app_assoc. rewrite <-(Nat.add_0_r (31 - q)) at 1.
  rewrite <-(length_replicate (31 - q) Byte.x00) at 1. rewrite insert_app_r. simpl.
  unfold U256_from_slice. rewrite be_to_N_zeros. cbn [be_to_N].
  set (rest := reverse (gen <$> seq 0 q)).
  assert (length rest = q) as Hlen by (unfold rest; by rewrite length_reverse, length_fmap, length_seq).
  pose proof (be_to_N_lt rest) as Hlt. rewrite Hlen in *.
  destruct (Hrng (2 ^ N.of_nat r)%N (2 ^ (N.of_nat r + 1))%N) as [Hlo Hhi].
  { apply N.pow_lt_mono_r; lia. }
  set (x := gen_range (2 ^ N.of_nat r)%N (2 ^ (N.of_nat r + 1))%N) in *.
  assert (x < 256)%N as Hx.
  { eapply N.lt_le_trans; [exact Hhi|]. change 256%N with (2 ^ 8)%N. apply N.pow_le_mono_r; lia. }
  rewrite b2N_N2b, N.mod_small by done.
  assert (256 ^ N.of_nat q = 2 ^ (8 * N.of_nat q))%N as Hp by (by rewrite N.pow_mul_r).
  rewrite Hp in *. set (p := (2 ^ (8 * N.of_nat q))%N) in *.
  assert (2 ^ N.of_nat i = 2 ^ N.of_nat r * p)%N as Ei.
  { unfold p. rewrite <-N.pow_add_r. f_equal. lia. }
  assert (2 ^ (N.of_nat i + 1) = 2 ^ (N.of_nat r + 1) * p)%N as Ei'.
  { unfold p. rewrite <-N.pow_add_r. f_equal. lia. }
  assert (2 ^ N.of_nat i ≤ x * p + be_to_N rest)%N as Hge by (rewrite Ei; nia).
  assert (x * p + be_to_N rest < 2 ^ (N.of_nat i + 1))%N as Hle by (rewrite Ei'; nia).
  assert (2 ^ N.of_nat i ≠ 0)%N as Hnz by (apply N.pow_nonzero; lia).
  unfold BucketIndex_new. apply Distance_ilog2_Some.
  - eapply N.lt_le_trans; [exact Hle|]. apply N.pow_le_mono_r; lia.
  - split; [lia|]. apply N.log2_unique; [lia|]. by rewrite <-N.add_1_r.
Qed.

Lemma BucketIndex_rand_distance_spec_witness :
  BucketIndex_new (BucketIndex_rand_distance (λ _, Byte.x2a) (λ lower _, lower) 77) = Some 77.
Proof.
  apply BucketIndex_rand_distance_spec; [by apply Nat.ltb_lt|]. intros lower upper H. split; [|done].
  reflexivity.
Defined.

(** ** The invariant of the routing table *)
Section invariant.
Context {TKey TVal : Type} `{!AsRef TKey}.
Abbreviation KBucketsTable := (KBucketsTable TKey TVal).
Abbreviation ABucket := (ABucket TKey TVal).
Abbreviation Node := (Node TKey TVal).

(** The bucket at index [i] around [local]: within its capacity, without
    duplicate keys, and holding only keys whose distance falls into [i]. *)
Record abucket_ok (local : KeyBytes) (i : nat) (a : ABucket) : Prop := {
  abucket_length : length (a_nodes a) ≤ K_VALUE;
  abucket_nodup : NoDup (key_of <$> a_all a);
  abucket_index n :
    n ∈ a_all a → BucketIndex_new (KeyBytes_distance local (key_of n)) = Some i
}.

(** A table whose buckets represent the abstract buckets [as_]. *)
Record table_rep (t : KBucketsTable) (as_ : list ABucket) : Prop := {
  table_buckets : buckets t = rep <$> as_;
  table_length : length as_ = NUM_BUCKETS;
  table_ok i a : as_ !! i = Some a → abucket_ok (as_ref (local_key t)) i a
}.

Definition table_inv (local : TKey) (t : KBucketsTable) : Prop :=
  ∃ as_, table_rep t as_ ∧ local_key t = local.

(** All nodes of the table, pending ones included. *)
Definition table_nodes (t : KBucketsTable) : list Node := mjoin (a_all ∘ abs <$> buckets t).

Lemma abucket_ok_submseteq (local : KeyBytes) (i : nat) (a a' : ABucket) :
  abucket_ok local i a → length (a_nodes a') ≤ K_VALUE →
  key_of <$> a_all a' ⊆+ key_of <$> a_all a → abucket_ok local i a'.
Proof.
  intros [Hl Hnd Hi] Hl' Hsub. split; [done| |].
  - by eapply submseteq_NoDup.
  - intros n Hn. assert (key_of n ∈ key_of <$> a_all a) as (m & Hm & Hin)%list_elem_of_fmap.
    { eapply elem_of_submseteq; [|exact Hsub]. by apply list_elem_of_fmap_2. }
    rewrite Hm. by apply Hi.
Qed.

Lemma abucket_ok_insert (local : KeyBytes) (i : nat) (a : ABucket) now (n : Node) st :
  abucket_ok local i a → key_of n ∉ key_of <$> a_all a →
  BucketIndex_new (KeyBytes_distance local (key_of n)) = Some i →
  abucket_ok local i (a_insert now n st a).2.
Proof.
  intros [Hl Hnd Hi] Hfresh Hn.
  destruct (a_insert_all now n st a) as [[-> _]|[Hall _]]; [done|].
  split; [by apply a_insert_length| |].
  - rewrite Hall. simpl. by constructor.
  - intros m. rewrite Hall. rewrite elem_of_cons. intros [->|Hm]; [done|by apply Hi].
Qed.

Lemma table_rep_lookup (t : KBucketsTable) (as_ : list ABucket) (i : nat) :
  table_rep t as_ → i < NUM_BUCKETS →
  ∃ a, as_ !! i = Some a ∧ vec_index (buckets t) i = Ret (rep a) ∧
       abucket_ok (as_ref (local_key t)) i a.
Proof.
  intros [Hb Hl Hok] Hi. destruct (lookup_lt_is_Some_2 as_ i) as [a Ha]; [lia|].
  exists a. split_and!; [done| |by apply Hok]. unfold vec_index. rewrite Hb, list_lookup_fmap, Ha. done.
Qed.

(** An operation on a bucket that maps representations to representations. *)
Lemma on_bucket_rep {R} (t : KBucketsTable) (as_ : list ABucket) (i : nat) (a a' : ABucket)
    (f : KBucket TKey TVal → outcome (R * KBucket TKey TVal)) (r : R) :
  table_rep t as_ → as_ !! i = Some a → f (rep a) = Ret (r, rep a') →
  abucket_ok (as_ref (local_key t)) i a' →
  ∃ t', on_bucket t i f = Ret (r, t') ∧ table_rep t' (<[i:=a']> as_) ∧
        local_key t' = local_key t ∧ applied_pending t' = applied_pending t.
Proof.
  intros [Hb Hl Hok] Ha Hf Ha'. unfold on_bucket, vec_index.
  rewrite Hb, list_lookup_fmap, Ha. simpl. rewrite Hf. simpl. eexists. split; [done|].
  split; [|done]. split; simpl.
  - by rewrite list_fmap_insert.
  - by rewrite length_insert.
  - intros j b. destruct (decide (i = j)) as [->|Hne].
    + rewrite list_lookup_insert_eq by (by eapply lookup_lt_Some). by intros [= <-].
    + rewrite list_lookup_insert_ne by done. apply Hok.
Qed.

Lemma abucket_ok_apply_pending (local : KeyBytes) (i : nat) (a : ABucket) (now : N) :
  abucket_ok local i a → abucket_ok local i (a_apply_pending now a).2.
Proof.
  intros H. eapply abucket_ok_submseteq; [done|apply a_apply_pending_length, H|].
  apply fmap_submseteq, a_apply_pending_all.
Qed.

Lemma apply_pending_at_rep (now : N) (t : KBucketsTable) (as_ : list ABucket) (i : nat) (a : ABucket) :
  table_rep t as_ → as_ !! i = Some a →
  ∃ t', apply_pending_at now t i = Ret t' ∧
        table_rep t' (<[i:=(a_apply_pending now a).2]> as_) ∧
        local_key t' = local_key t ∧
        applied_pending t' = applied_pending t ++ (option_list (a_apply_pending now a).1).
Proof.
  intros Ht Ha. pose proof (table_ok _ _ Ht i a Ha) as Hok.
  destruct (on_bucket_rep t as_ i a (a_apply_pending now a).2 (KBucket_apply_pending now)
    (a_apply_pending now a).1) as (t' & Ho & Ht' & Hloc & Happ); [done..| | |].
  - rewrite rep_apply_pending by apply Hok. by destruct (a_apply_pending now a).
  - by apply abucket_ok_apply_pending.
  - unfold apply_pending_at. rewrite Ho. simpl. eexists. split; [done|].
    split; [by destruct Ht'|]. simpl. by rewrite Happ.
Qed.

Lemma KBucketsTable_new_rep (local : TKey) (timeout : N) :
  table_rep (KBucketsTable_new local timeout) (replicate NUM_BUCKETS (mkABucket [] [] None timeout)).
Proof.
  split; [done|by rewrite length_replicate|].
  intros i a [-> _]%lookup_replicate. split; simpl; [unfold K_VALUE; lia|constructor|].
  intros n Hn. by apply not_elem_of_nil in Hn.
Qed.

(** The state of an entry, in terms of the abstract bucket. *)
Lemma Entry_new_rep (i : nat) (a : ABucket) (key : TKey) :
  Entry_new i (rep a) key =
  match (a_remove key a).1 with
  | Some (_, st, _) => EntryPresent (mkEntryRef i key) st
  | None =>
      match a_pending a with
      | Some p =>
          if same_key key (pending_node p) then EntryPending (mkEntryRef i key) (pending_status p)
          else EntryAbsent (mkEntryRef i key)
      | None => EntryAbsent (mkEntryRef i key)
      end
  end.
Proof.
  unfold Entry_new. pose proof (rep_remove a key) as Hrem. unfold KBucket_remove in Hrem.
  destruct (KBucket_position (rep a) key) as [pos|].
  - destruct (vec_remove pos _) as [[n l]|]; [|done]. simpl in Hrem.
    destruct (a_remove key a) as [r a']; simpl in *. revert Hrem.
    destruct (match KBucket_status _ _ with Connected => _ | Disconnected => _ end); simpl; [|done].
    by intros [= <- _].
  - destruct (a_remove key a) as [[[[n st] pos]|] a']; [done|]. unfold KBucket_as_pending; simpl.
    destruct (a_pending a) as [p|]; [|done]. by destruct (same_key key (pending_node p)).
Qed.

Lemma a_remove_None (key : TKey) (a : ABucket) :
  (a_remove key a).1 = None ↔ as_ref key ∉ key_of <$> a_nodes a.
Proof.
  pose proof (a_remove_nodes key a) as H. destruct (a_remove key a) as [[[[n st] pos]|] a']; simpl.
  - destruct H as (Hn & Hk & _). split; [done|]. intros []. rewrite Hn, <-Hk. simpl. by left.
  - destruct H as [-> H]. done.
Qed.

Lemma same_key_Forall (key : TKey) (l : list Node) :
  as_ref key ∉ key_of <$> l → Forall (λ n, same_key key n = false) l.
Proof.
  intros H. apply Forall_forall. intros n Hn. destruct (same_key key n) eqn:E; [|done].
  destruct H. apply same_key_true in E. rewrite <-E. by apply list_elem_of_fmap_2.
Qed.

Lemma a_remove_push (key : TKey) (n : Node) (st : NodeStatus) (a : ABucket) :
  key_of n = as_ref key → as_ref key ∉ key_of <$> a_nodes a →
  ∃ pos, (a_remove key (a_push n st a)).1 = Some (n, st, pos).
Proof.
  intros Hn. unfold a_nodes. rewrite fmap_app, elem_of_app. intros Hnot.
  assert (extract (same_key key) (disconnected_q a) = None) as Hd.
  { apply extract_None, same_key_Forall. tauto. }
  assert (Forall (λ m, same_key key m = false) (connected_q a)) as Hc.
  { apply same_key_Forall. tauto. }
  apply same_key_true in Hn. unfold a_remove. destruct st; simpl.
  - rewrite Hd, (extract_snoc _ _ _ Hc Hn). eauto.
  - apply extract_None in Hd. rewrite (extract_snoc _ _ _ Hd Hn). eauto.
Qed.

(** A bucket without a pending node that is due at [now]. *)
Definition settled (now : N) (a : ABucket) : Prop :=
  ∀ p, a_pending a = Some p → (now < pending_replace p)%N.

Lemma a_apply_pending_settled (now : N) (a : ABucket) : settled now (a_apply_pending now a).2.
Proof.
  unfold settled, a_apply_pending. intros q. destruct (a_pending a) as [p|] eqn:Ep; [|simpl; congruence].
  destruct (N.leb_spec (pending_replace p) now); simpl; [|rewrite Ep; by intros [= ->]].
  destruct (a_full a); [destruct (disconnected_q a)|]; simpl; [done|..];
    by destruct (pending_status p).
Qed.

Lemma settled_apply_pending (now : N) (a : ABucket) :
  settled now a → a_apply_pending now a = (None, a).
Proof.
  intros H. unfold settled, a_apply_pending in *. destruct (a_pending a) as [p|]; [|done].
  specialize (H p eq_refl). by rewrite (proj2 (N.leb_gt _ _)).
Qed.

(** The entry of a key in a table, for the bucket the key falls into. *)
Lemma KBucketsTable_entry_rep (now : N) (t : KBucketsTable) (as_ : list ABucket) (key : TKey) :
  table_rep t as_ →
  match BucketIndex_new (KeyBytes_distance (as_ref (local_key t)) (as_ref key)) with
  | Some i => ∃ a t', as_ !! i = Some a ∧
      KBucketsTable_entry now t key = Ret (Entry_new i (rep (a_apply_pending now a).2) key, t') ∧
      table_rep t' (<[i:=(a_apply_pending now a).2]> as_) ∧ local_key t' = local_key t ∧
      (settled now a → t' = t)
  | None => KBucketsTable_entry now t key = Ret (SelfEntry, t) ∧ as_ref key = as_ref (local_key t)
  end.
Proof.
  intros Ht. unfold KBucketsTable_entry.
  change (KeyBytes_distance (as_ref (local_key t)) key)
    with (KeyBytes_distance (as_ref (local_key t)) (as_ref key)).
  pose proof (KeyBytes_distance_lt (as_ref (local_key t)) (as_ref key)) as Hlt.
  destruct (BucketIndex_new _) as [i|] eqn:Ei.
  - pose proof (BucketIndex_new_lt _ _ Hlt Ei) as Hi.
    destruct (table_rep_lookup t as_ i Ht Hi) as (a & Ha & Hv & Hok).
    destruct (apply_pending_at_rep now t as_ i a Ht Ha) as (t' & Hap & Ht' & Hloc & Happ).
    destruct (table_rep_lookup t' _ i Ht' Hi) as (a' & Ha' & Hv' & _).
    rewrite list_lookup_insert_eq in Ha' by (by eapply lookup_lt_Some). injection Ha' as <-.
    exists a, t'. rewrite Hap. simpl. rewrite Hv'. simpl. split_and!; [done..|].
    intros Hs. rewrite (settled_apply_pending now a Hs) in *. simpl in *.
    rewrite app_nil_r in Happ. rewrite (list_insert_id as_ i a Ha) in Ht'.
    destruct Ht as [Hb _ _], Ht' as [Hb' _ _], t, t'; simpl in *. congruence.
  - split; [done|]. symmetry. apply KeyBytes_distance_0. by apply Distance_ilog2_None.
Qed.
End invariant.

(** ** Using the table through its public interface

    [table_op] is one use of the table by a client: obtain the entry of a key
    and act on it according to its state, look at one or all buckets, or take
    an applied pending entry. *)
Section operations.
Context {TKey TVal : Type} `{!AsRef TKey} {L : TKey}.
Abbreviation KBucketsTable := (KBucketsTable TKey TVal).
Abbreviation ABucket := (ABucket TKey TVal).
Abbreviation Node := (Node TKey TVal).

Inductive table_op : Type :=
| TInsert (now : N) (key : TKey) (value : TVal) (status : NodeStatus)
| TUpdate (now : N) (key : TKey) (status : NodeStatus)
| TRemove (now : N) (key : TKey)
| TValue (now : N) (key : TKey) (f : TVal → TVal)
| TBucket (now : N) (key : KeyBytes)
| TIter (now : N)
| TTakeApplied.

Definition table_step (t : KBucketsTable) (op : table_op) : outcome KBucketsTable :=
  match op with
  | TInsert now key v st =>
      '(e, t) ← KBucketsTable_entry now t key;
      match e with
      | EntryAbsent r => snd <$> AbsentEntry_insert now t r v st
      | _ => Ret t
      end
  | TUpdate now key st =>
      '(e, t) ← KBucketsTable_entry now t key;
      match e with
      | EntryPresent r _ => PresentEntry_update now t r st
      | EntryPending r _ => PendingEntry_update t r st
      | _ => Ret t
      end
  | TRemove now key =>
      '(e, t) ← KBucketsTable_entry now t key;
      match e with
      | EntryPresent r _ => snd <$> PresentEntry_remove t r
      | EntryPending r _ => snd <$> PendingEntry_remove t r
      | _ => Ret t
      end
  | TValue now key f =>
      '(e, t) ← KBucketsTable_entry now t key;
      match e with
      | EntryPresent r _ => PresentEntry_value t r f
      | EntryPending r _ => PendingEntry_value t r f
      | _ => Ret t
      end
  | TBucket now key => snd <$> KBucketsTable_bucket now t key
  | TIter now => snd <$> KBucketsTable_iter now t
  | TTakeApplied => Ret (KBucketsTable_take_applied_pending t).2
  end.

Fixpoint table_run (t : KBucketsTable) (ops : list table_op) : outcome KBucketsTable :=
  match ops with
  | [] => Ret t
  | op :: ops => t ← table_step t op; table_run t ops
  end.

(** The value of the first node with a key, updated in place. *)
Definition a_set_value (key : TKey) (f : Node → Node) (a : ABucket) : ABucket :=
  match position (same_key key) (disconnected_q a), position (same_key key) (connected_q a) with
  | Some i, _ => mkABucket (alter f i (disconnected_q a)) (connected_q a) (a_pending a) (a_timeout a)
  | None, Some i => mkABucket (disconnected_q a) (alter f i (connected_q a)) (a_pending a) (a_timeout a)
  | None, None => a
  end.

Lemma rep_get_mut (a : ABucket) (key : TKey) (f : Node → Node) :
  (a_remove key a).1 ≠ None → KBucket_get_mut (rep a) key f = Some (rep (a_set_value key f a)).
Proof.
  intros Hne. unfold KBucket_get_mut, a_set_value. rewrite rep_position.
  destruct (position _ (disconnected_q a)) as [i|] eqn:Ei.
  - apply position_Some in Ei as (x & Hx & _). unfold rep, a_nodes; simpl.
    unfold fcp_of. rewrite length_alter, alter_app_l; [done|by eapply lookup_lt_Some].
  - destruct (position _ (connected_q a)) as [j|] eqn:Ej; simpl.
    + unfold rep, a_nodes; simpl. rewrite alter_app_r.
      destruct (connected_q a); simpl; [done|]. by destruct j.
    + destruct Hne. apply a_remove_None. apply position_None in Ei, Ej.
      unfold a_nodes. intros (n & Hk & Hn)%list_elem_of_fmap.
      symmetry in Hk. apply same_key_true in Hk.
      apply elem_of_app in Hn as [Hn|Hn]; eapply Forall_forall in Hn; [|exact Ei| |exact Ej];
        simpl in Hn; by rewrite Hk in Hn.
Qed.

Lemma a_set_value_keys (key : TKey) (f : Node → Node) (a : ABucket) :
  (∀ n, key_of (f n) = key_of n) → key_of <$> a_all (a_set_value key f a) = key_of <$> a_all a.
Proof.
  intros Hf. assert (∀ (i : nat) (l : list Node), key_of <$> alter f i l = key_of <$> l) as Halter.
  { intros i l. rewrite (list_fmap_alter key_of f (λ k, k)).
    - apply list_alter_id. done.
    - apply Forall_forall. intros x _. apply Hf. }
  unfold a_set_value, a_all, a_nodes.
  destruct (position _ _); [|destruct (position _ _); [|done]]; simpl;
    rewrite !fmap_app, Halter; done.
Qed.

Lemma KBucketsTable_iter_inv (now : N) (t : KBucketsTable) :
  table_inv L t → ∃ r t', KBucketsTable_iter now t = Ret (r, t') ∧ table_inv L t'.
Proof.
  unfold KBucketsTable_iter. intros (as_ & Ht & HL).
  assert (∀ n acc (t : KBucketsTable) as_ s, table_rep t as_ → local_key t = L →
    s + n ≤ NUM_BUCKETS → ∃ r t',
    foldl (iter_bucket now) (Ret (acc, t)) (seq s n) = Ret (r, t') ∧ table_inv L t') as Hgen.
  { clear. induction n as [|n IH]; intros acc t as_ s Ht HL Hs; simpl;
      [eexists _, _; split; [done|by exists as_]|].
    destruct (table_rep_lookup t as_ s Ht) as (a & Ha & _ & _); [lia|].
    destruct (apply_pending_at_rep now t as_ s a Ht Ha) as (t' & -> & Ht' & HL' & _). simpl.
    destruct (table_rep_lookup t' _ s Ht') as (a' & _ & -> & _); [lia|]. simpl.
    eapply IH; [done|congruence|lia]. }
  apply (Hgen _ _ _ as_); [done..|]. destruct Ht as [-> Hl _]. rewrite length_fmap. lia.
Qed.

(** [on_bucket_rep] for operations with and without a result of interest. *)
Lemma on_bucket_ret {R} (t : KBucketsTable) (as_ : list ABucket) (i : nat) (a a' : ABucket)
    (f : KBucket TKey TVal → outcome (R * KBucket TKey TVal)) (r : R) :
  table_rep t as_ → as_ !! i = Some a → f (rep a) = Ret (r, rep a') →
  abucket_ok (as_ref (local_key t)) i a' →
  ∃ t', on_bucket t i f = Ret (r, t') ∧ table_rep t' (<[i:=a']> as_) ∧ local_key t' = local_key t.
Proof.
  intros H1 H2 H3 H4. destruct (on_bucket_rep t as_ i a a' f r H1 H2 H3 H4) as (t' & ? & ? & ? & _).
  eauto.
Qed.

Lemma on_bucket_snd {R} (t : KBucketsTable) (as_ : list ABucket) (i : nat) (a a' : ABucket)
    (f : KBucket TKey TVal → outcome (R * KBucket TKey TVal)) (r : R) :
  table_rep t as_ → as_ !! i = Some a → f (rep a) = Ret (r, rep a') →
  abucket_ok (as_ref (local_key t)) i a' →
  ∃ t', snd <$> on_bucket t i f = Ret t' ∧ table_rep t' (<[i:=a']> as_) ∧ local_key t' = local_key t.
Proof.
  intros H1 H2 H3 H4. destruct (on_bucket_ret t as_ i a a' f r H1 H2 H3 H4) as (t' & -> & ? & ?).
  by exists t'.
Qed.

(** The entry of a key in an invariant table: either the key is the local one,
    or the entry stands for a settled bucket of the resulting table. *)
Lemma KBucketsTable_entry_inv (now : N) (t : KBucketsTable) (key : TKey) :
  table_inv L t →
  ∃ e t', KBucketsTable_entry now t key = Ret (e, t') ∧ table_inv L t' ∧
    (e = SelfEntry ∨ ∃ i a as_,
       table_rep t' as_ ∧ as_ !! i = Some a ∧ e = Entry_new i (rep a) key ∧ settled now a ∧
       abucket_ok (as_ref (local_key t')) i a ∧
       BucketIndex_new (KeyBytes_distance (as_ref (local_key t')) (as_ref key)) = Some i ∧
       local_key t' = L).
Proof.
  intros (as_ & Ht & HL). pose proof (KBucketsTable_entry_rep now t as_ key Ht) as H.
  destruct (BucketIndex_new _) as [i|] eqn:Ei.
  - destruct H as (a & t' & Ha & -> & Ht' & Hloc & _). eexists _, t'. split; [done|].
    split; [eexists; split; [done|congruence]|]. right. eexists i, _, _.
    assert (<[i:=(a_apply_pending now a).2]> as_ !! i = Some (a_apply_pending now a).2) as Hl.
    { apply list_lookup_insert_eq. by eapply lookup_lt_Some. }
    split_and!; [exact Ht'|exact Hl|done|apply a_apply_pending_settled|by eapply table_ok| |congruence].
    by rewrite Hloc.
  - destruct H as [-> _]. eexists _, t. split; [done|]. split; [by eexists|]. by left.
Qed.

Section entry_ops.
Context (now : N) (t : KBucketsTable) (as_ : list ABucket) (i : nat) (a : ABucket) (key : TKey).
Context (Ht : table_rep t as_) (Ha : as_ !! i = Some a).
Context (Hok : abucket_ok (as_ref (local_key t)) i a).
Abbreviation r := (mkEntryRef i key).

Lemma AbsentEntry_insert_rep (v : TVal) (st : NodeStatus) :
  as_ref key ∉ key_of <$> a_all a →
  BucketIndex_new (KeyBytes_distance (as_ref (local_key t)) (as_ref key)) = Some i →
  ∃ t', AbsentEntry_insert now t r v st = Ret ((a_insert now (mkNode key v) st a).1, t') ∧
        table_rep t' (<[i:=(a_insert now (mkNode key v) st a).2]> as_) ∧
        local_key t' = local_key t.
Proof.
  intros Hfresh Hi. eapply on_bucket_ret; [done|done| |].
  - simpl. rewrite rep_insert by apply Hok. by destruct (a_insert _ _ _ _).
  - apply abucket_ok_insert; [done|exact Hfresh|exact Hi].
Qed.

Lemma PresentEntry_update_rep (st : NodeStatus) :
  ∃ t', PresentEntry_update now t r st = Ret t' ∧
        table_rep t' (<[i:=a_update key st a]> as_) ∧ local_key t' = local_key t.
Proof.
  eapply (on_bucket_snd _ _ _ _ _ _ ()); [done|done|simpl; by rewrite rep_update by apply Hok|].
  eapply abucket_ok_submseteq; [done|rewrite a_update_length; apply Hok|].
  apply fmap_submseteq, a_update_all.
Qed.

Lemma a_remove_ok : abucket_ok (as_ref (local_key t)) i (a_remove key a).2.
Proof.
  pose proof (a_remove_nodes key a) as Hn. pose proof (a_remove_length key a) as Hl.
  destruct (a_remove key a) as [[[[n st] pos]|] a']; [|by destruct Hn as [-> _]].
  destruct Hn as (Hn & _ & Hp). pose proof (abucket_length _ _ _ Hok).
  eapply abucket_ok_submseteq; [done|simpl; lia|].
  simpl. unfold a_all. rewrite Hp, Hn. simpl. by apply submseteq_cons.
Qed.

Lemma PresentEntry_remove_rep (n : Node) (st : NodeStatus) (pos : nat) :
  (a_remove key a).1 = Some (n, st, pos) →
  ∃ t', PresentEntry_remove t r = Ret (mkView n st, t') ∧
        table_rep t' (<[i:=(a_remove key a).2]> as_) ∧ local_key t' = local_key t.
Proof.
  intros Hr. eapply on_bucket_ret; [done|done| |apply a_remove_ok].
  simpl. rewrite rep_remove. destruct (a_remove key a); simpl in *. by rewrite Hr.
Qed.

Lemma set_pending_ok (p : PendingNode TKey TVal) (q : option (PendingNode TKey TVal)) :
  a_pending a = Some p → (∀ q', q = Some q' → key_of (pending_node q') = key_of (pending_node p)) →
  abucket_ok (as_ref (local_key t)) i (a_set_pending q a).
Proof.
  intros Hp Hq. eapply abucket_ok_submseteq; [done|apply (abucket_length _ _ _ Hok)|].
  unfold a_all. rewrite Hp, !fmap_app. apply submseteq_app; [done|].
  destruct q as [q|]; simpl; [by rewrite (Hq q eq_refl)|apply submseteq_nil_l].
Qed.

Lemma PendingEntry_update_rep (st : NodeStatus) (p : PendingNode TKey TVal) :
  a_pending a = Some p →
  ∃ t', PendingEntry_update t r st = Ret t' ∧
        table_rep t' (<[i:=a_update_pending st a]> as_) ∧ local_key t' = local_key t.
Proof.
  intros Hp. eapply (on_bucket_snd _ _ _ _ _ _ ()); [done|done|by rewrite rep_update_pending|].
  unfold a_update_pending. rewrite Hp. eapply set_pending_ok; [done|]. by intros q [= <-].
Qed.

Lemma PendingEntry_remove_rep (p : PendingNode TKey TVal) :
  a_pending a = Some p →
  ∃ t', PendingEntry_remove t r = Ret (mkView (pending_node p) (pending_status p), t') ∧
        table_rep t' (<[i:=a_set_pending None a]> as_) ∧ local_key t' = local_key t.
Proof.
  intros Hp. eapply on_bucket_ret; [done|done|simpl; by rewrite Hp|].
  by eapply set_pending_ok.
Qed.

Lemma PresentEntry_value_rep (f : TVal → TVal) :
  (a_remove key a).1 ≠ None →
  let g := λ n : Node, mkNode (node_key n) (f (node_value n)) in
  ∃ t', PresentEntry_value t r f = Ret t' ∧
        table_rep t' (<[i:=a_set_value key g a]> as_) ∧ local_key t' = local_key t.
Proof.
  intros Hne g. eapply (on_bucket_snd _ _ _ _ _ _ ());
    [done|done|simpl; by rewrite (rep_get_mut a key _ Hne)|].
  assert (key_of <$> a_all (a_set_value key g a) = key_of <$> a_all a) as Hk.
  { by apply a_set_value_keys. }
  eapply abucket_ok_submseteq; [done| |by rewrite Hk].
  unfold a_set_value. pose proof (abucket_length _ _ _ Hok) as Hl. unfold a_nodes in *.
  case_match; [|case_match; [|done]]; simpl; rewrite length_app, length_alter, <-length_app; done.
Qed.

Lemma PendingEntry_value_rep (f : TVal → TVal) (p : PendingNode TKey TVal) :
  a_pending a = Some p →
  let n := mkNode (node_key (pending_node p)) (f (node_value (pending_node p))) in
  ∃ t', PendingEntry_value t r f = Ret t' ∧
        table_rep t' (<[i:=a_set_pending
          (Some (mkPending n (pending_status p) (pending_replace p))) a]> as_) ∧
        local_key t' = local_key t.
Proof.
  intros Hp n. eapply (on_bucket_snd _ _ _ _ _ _ ()); [done|done|simpl; by rewrite Hp|].
  eapply set_pending_ok; [done|]. by intros q' [= <-].
Qed.
End entry_ops.

Lemma a_all_fresh (key : TKey) (a : ABucket) :
  (a_remove key a).1 = None →
  (∀ p, a_pending a = Some p → same_key key (pending_node p) = false) →
  as_ref key ∉ key_of <$> a_all a.
Proof.
  rewrite a_remove_None. intros Hn Hp. unfold a_all. rewrite fmap_app, elem_of_app.
  intros [?|Hk]; [done|]. destruct (a_pending a) as [p|]; simpl in Hk; [|by apply elem_of_nil in Hk].
  apply list_elem_of_singleton in Hk. symmetry in Hk. apply same_key_true in Hk.
  by rewrite (Hp p eq_refl) in Hk.
Qed.

Lemma KBucketsTable_bucket_inv (now : N) (t : KBucketsTable) (key : KeyBytes) :
  table_inv L t → ∃ r t', KBucketsTable_bucket now t key = Ret (r, t') ∧ table_inv L t'.
Proof.
  intros (as_ & Ht & HL). unfold KBucketsTable_bucket.
  pose proof (KeyBytes_distance_lt (as_ref (local_key t)) key) as Hlt.
  destruct (BucketIndex_new _) as [i|] eqn:Ei; [|eexists _, _; split; [done|by eexists]].
  pose proof (BucketIndex_new_lt _ _ Hlt Ei) as Hi.
  destruct (table_rep_lookup t as_ i Ht Hi) as (a & Ha & _ & _).
  destruct (apply_pending_at_rep now t as_ i a Ht Ha) as (t' & -> & Ht' & HL' & _). simpl.
  destruct (table_rep_lookup t' _ i Ht' Hi) as (a' & _ & -> & _). simpl.
  eexists _, _; split; [done|]. eexists. split; [done|congruence].
Qed.

Lemma table_inv_intro (m : outcome KBucketsTable) (as_ : list ABucket) (t : KBucketsTable) :
  local_key t = L → (∃ t', m = Ret t' ∧ table_rep t' as_ ∧ local_key t' = local_key t) →
  ∃ t', m = Ret t' ∧ table_inv L t'.
Proof. intros <- (t' & ? & ? & ?). exists t'. split; [done|]. by exists as_. Qed.

Lemma table_inv_intro_snd {R} (m : outcome (R * KBucketsTable)) (r : R) (as_ : list ABucket)
    (t : KBucketsTable) :
  local_key t = L → (∃ t', m = Ret (r, t') ∧ table_rep t' as_ ∧ local_key t' = local_key t) →
  ∃ t', snd <$> m = Ret t' ∧ table_inv L t'.
Proof. intros <- (t' & -> & ? & ?). exists t'. split; [done|]. by exists as_. Qed.

(** Case analysis on the entry of [key] in an invariant table. *)
Ltac entry_cases now t key :=
  match goal with Hinv : table_inv L t |- _ =>
    let Hcase := fresh "Hcase" in
    destruct (KBucketsTable_entry_inv now t key Hinv) as (e & t1 & -> & Hinv1 & Hcase); simpl;
    destruct Hcase as [->|(i & a & as_ & Ht & Ha & -> & Hs & Hok & Hi & HL)]; [by exists t1|];
    rewrite Entry_new_rep; destruct (a_remove key a).1 as [[[n st0] pos]|] eqn:Hrem;
    [|destruct (a_pending a) as [p|] eqn:Hp; [destruct (same_key key (pending_node p)) eqn:Es|]]
  end.

Lemma table_step_inv (t : KBucketsTable) (op : table_op) :
  table_inv L t → ∃ t', table_step t op = Ret t' ∧ table_inv L t'.
Proof.
  intros Hinv. destruct op as [now key v st|now key st|now key|now key f|now key|now|]; simpl.
  - entry_cases now t key; [by exists t1|by exists t1| |];
      (eapply table_inv_intro_snd, AbsentEntry_insert_rep; [exact HL|done..| |done]);
      (apply a_all_fresh; [done|]); rewrite Hp; by intros ? [= <-].
  - entry_cases now t key; [| |by exists t1|by exists t1].
    + by eapply (table_inv_intro _ _ _ HL), PresentEntry_update_rep.
    + by eapply (table_inv_intro _ _ _ HL), PendingEntry_update_rep.
  - entry_cases now t key; [| |by exists t1|by exists t1].
    + by eapply (table_inv_intro_snd _ _ _ _ HL), PresentEntry_remove_rep.
    + by eapply (table_inv_intro_snd _ _ _ _ HL), PendingEntry_remove_rep.
  - entry_cases now t key; [| |by exists t1|by exists t1].
    + eapply (table_inv_intro _ _ _ HL), PresentEntry_value_rep; [done..|]. by rewrite Hrem.
    + by eapply (table_inv_intro _ _ _ HL), PendingEntry_value_rep.
  - destruct (KBucketsTable_bucket_inv now t key Hinv) as (rs & t' & -> & ?). by exists t'.
  - destruct (KBucketsTable_iter_inv now t Hinv) as (rs & t' & -> & ?). by exists t'.
  - eexists; split; [done|]. unfold KBucketsTable_take_applied_pending.
    destruct (applied_pending t); [done|]. destruct Hinv as (as_ & [? ? ?] & ?). by exists as_.
Qed.

Lemma table_run_inv (t : KBucketsTable) (ops : list table_op) :
  table_inv L t → ∃ t', table_run t ops = Ret t' ∧ table_inv L t'.
Proof.
  revert t. induction ops as [|op ops IH]; intros t Ht; simpl; [by eauto|].
  destruct (table_step_inv t op Ht) as (t' & -> & Ht'). by apply IH.
Qed.

(** Keys are spread over the buckets without repetition. *)
Lemma NoDup_concat_index {A} (g : A → option nat) (ls : list (list A)) (s : nat) :
  (∀ i l, ls !! i = Some l → NoDup l) →
  (∀ i l x, ls !! i = Some l → x ∈ l → g x = Some (s + i)) → NoDup (mjoin ls).
Proof.
  revert s. induction ls as [|l ls IH]; intros s Hnd Hg; simpl; [constructor|].
  apply NoDup_app. split_and!.
  - by apply (Hnd 0).
  - intros x Hx Hx'. apply list_elem_of_join in Hx' as (l' & Hx' & [j Hj]%list_elem_of_lookup).
    pose proof (Hg 0 l x eq_refl Hx) as H0. pose proof (Hg (S j) l' x Hj Hx') as H1.
    rewrite H0 in H1. injection H1. lia.
  - apply (IH (S s)); [intros i l'; apply (Hnd (S i))|].
    intros i l' x Hi Hx. rewrite (Hg (S i) l' x Hi Hx). f_equal. lia.
Qed.

Lemma table_nodes_rep (t : KBucketsTable) (as_ : list ABucket) :
  table_rep t as_ → table_nodes t = mjoin (a_all <$> as_).
Proof.
  intros [Hb _ _]. unfold table_nodes. rewrite Hb, <-list_fmap_compose. f_equal.
  apply list_fmap_ext. intros _ a _. simpl. by rewrite abs_rep.
Qed.

Lemma table_nodes_nodup (t : KBucketsTable) (as_ : list ABucket) :
  table_rep t as_ → NoDup (key_of <$> table_nodes t).
Proof.
  intros Ht. rewrite (table_nodes_rep t as_ Ht). rewrite list_fmap_mjoin, <-list_fmap_compose.
  apply (NoDup_concat_index (λ k, BucketIndex_new (KeyBytes_distance (as_ref (local_key t)) k)) _ 0).
  - intros i l. rewrite list_lookup_fmap, fmap_Some. intros (a & Ha & ->).
    apply (table_ok _ _ Ht i a Ha).
  - intros i l x. rewrite list_lookup_fmap, fmap_Some. intros (a & Ha & ->).
    intros (n & -> & Hn)%list_elem_of_fmap. by apply (table_ok _ _ Ht i a Ha).
Qed.

(** The entry of a key after an operation that left its bucket settled. *)
Lemma KBucketsTable_entry_settled (now : N) (t t2 : KBucketsTable) (as_ : list ABucket) (i : nat)
    (a a2 : ABucket) (key : TKey) :
  as_ !! i = Some a → table_rep t2 (<[i:=a2]> as_) → local_key t2 = local_key t →
  BucketIndex_new (KeyBytes_distance (as_ref (local_key t)) (as_ref key)) = Some i →
  settled now a2 → KBucketsTable_entry now t2 key = Ret (Entry_new i (rep a2) key, t2).
Proof.
  intros Ha Ht2 HL Hi Hs. pose proof (KBucketsTable_entry_rep now t2 _ key Ht2) as H.
  rewrite HL, Hi in H. destruct H as (a' & t' & Ha' & He & _ & _ & Heq).
  rewrite list_lookup_insert_eq in Ha' by (by eapply lookup_lt_Some). injection Ha' as <-.
  rewrite He, (settled_apply_pending now a2 Hs), (Heq Hs). done.
Qed.

Lemma settled_push (now : N) (n : Node) (st : NodeStatus) (a : ABucket) :
  settled now a → settled now (a_push n st a).
Proof. unfold settled. by destruct st. Qed.

Lemma settled_remove (now : N) (key : TKey) (a : ABucket) :
  settled now a → settled now (a_remove key a).2.
Proof. unfold settled, a_remove. intros H p. by case_all; apply H. Qed.

Lemma settled_update (now : N) (key : TKey) (st : NodeStatus) (a : ABucket) :
  settled now a → settled now (a_update key st a).
Proof.
  intros H%(settled_remove _ key). unfold a_update.
  destruct (a_remove key a) as [[[[n st'] pos]|] a']; [|done].
  apply settled_push. by case_match.
Qed.

Lemma a_remove_update (key : TKey) (st : NodeStatus) (a : ABucket) :
  NoDup (key_of <$> a_nodes a) → (a_remove key a).1 ≠ None →
  ∃ n pos, (a_remove key (a_update key st a)).1 = Some (n, st, pos).
Proof.
  intros Hnd Hne. unfold a_update. pose proof (a_remove_nodes key a) as H.
  destruct (a_remove key a) as [[[[n st'] pos]|] a']; [|done].
  destruct H as (Hn & Hk & Hp). rewrite Hn in Hnd. simpl in Hnd.
  apply NoDup_cons in Hnd as [Hnot _]. rewrite Hk in Hnot.
  edestruct (a_remove_push key n st) as [pos' Hr]; [exact Hk| |eauto].
  by case_match.
Qed.

Lemma a_remove_remove (key : TKey) (a : ABucket) :
  NoDup (key_of <$> a_nodes a) → (a_remove key (a_remove key a).2).1 = None.
Proof.
  intros Hnd. apply a_remove_None. pose proof (a_remove_nodes key a) as H.
  destruct (a_remove key a) as [[[[n st'] pos]|] a']; simpl.
  - destruct H as (Hn & Hk & _). rewrite Hn in Hnd. simpl in Hnd. rewrite <-Hk.
    by apply NoDup_cons in Hnd as [? _].
  - by destruct H as [-> ?].
Qed.

(** The entry of [key] after each operation on it. *)
Section entry_after.
Context (now : N) (t : KBucketsTable) (as_ : list ABucket) (i : nat) (a : ABucket) (key : TKey).
Context (Ht : table_rep t as_) (Ha : as_ !! i = Some a) (Hs : settled now a).
Context (Hok : abucket_ok (as_ref (local_key t)) i a).
Context (Hi : BucketIndex_new (KeyBytes_distance (as_ref (local_key t)) (as_ref key)) = Some i).
Abbreviation r := (mkEntryRef i key).

Lemma entry_after_bucket (t2 : KBucketsTable) (a2 : ABucket) :
  table_rep t2 (<[i:=a2]> as_) → local_key t2 = local_key t → settled now a2 →
  KBucketsTable_entry now t2 key = Ret (Entry_new i (rep a2) key, t2).
Proof. intros. by eapply KBucketsTable_entry_settled. Qed.

Lemma a_nodes_nodup : NoDup (key_of <$> a_nodes a).
Proof.
  pose proof (abucket_nodup _ _ _ Hok) as Hnd. unfold a_all in Hnd. rewrite fmap_app in Hnd.
  by apply NoDup_app in Hnd as (Hnd & _).
Qed.

Lemma pending_not_node (p : PendingNode TKey TVal) :
  a_pending a = Some p → key_of (pending_node p) ∉ key_of <$> a_nodes a.
Proof.
  pose proof (abucket_nodup _ _ _ Hok) as Hnd. unfold a_all in Hnd. rewrite fmap_app in Hnd.
  apply NoDup_app in Hnd as (_ & Hdisj & _). intros Hp Hin. apply (Hdisj _ Hin).
  rewrite Hp. simpl. by left.
Qed.

Lemma entry_after_update (st : NodeStatus) :
  (a_remove key a).1 ≠ None →
  ∃ t2, PresentEntry_update now t r st = Ret t2 ∧
        KBucketsTable_entry now t2 key = Ret (EntryPresent r st, t2).
Proof.
  intros Hsome. destruct (PresentEntry_update_rep now t as_ i a key Ht Ha Hok st) as (t2 & H1 & H2 & H3).
  exists t2. split; [done|]. rewrite (entry_after_bucket _ _ H2 H3) by (by apply settled_update).
  rewrite Entry_new_rep.
  by destruct (a_remove_update key st a a_nodes_nodup Hsome) as (n' & pos' & ->).
Qed.

Lemma entry_after_remove (n : Node) (st0 : NodeStatus) (pos : nat) :
  (a_remove key a).1 = Some (n, st0, pos) →
  ∃ t2, PresentEntry_remove t r = Ret (mkView n st0, t2) ∧ key_of n = as_ref key ∧
        KBucketsTable_entry now t2 key = Ret (EntryAbsent r, t2).
Proof.
  intros Hrem. destruct (PresentEntry_remove_rep t as_ i a key Ht Ha Hok n st0 pos Hrem)
    as (t2 & H1 & H2 & H3).
  exists t2. split; [done|]. rewrite (entry_after_bucket _ _ H2 H3) by (by apply settled_remove).
  rewrite Entry_new_rep, a_remove_remove by apply a_nodes_nodup.
  pose proof (a_remove_nodes key a) as Hn.
  destruct (a_remove key a) as [[[[n' st'] pos']|] a']; simplify_eq/=.
  destruct Hn as (Hperm & Hk & Hp). split; [done|]. rewrite Hp.
  destruct (a_pending a) as [p|] eqn:Ep; [|done].
  destruct (same_key key (pending_node p)) eqn:Es; [|done]. apply same_key_true in Es.
  destruct (pending_not_node p Ep). rewrite Es, Hperm, <-Hk. by left.
Qed.

Lemma entry_after_pending (p : PendingNode TKey TVal) :
  a_pending a = Some p → key_of (pending_node p) = as_ref key →
  (∀ st, ∃ t2, PendingEntry_update t r st = Ret t2 ∧
         KBucketsTable_entry now t2 key = Ret (EntryPending r st, t2)) ∧
  ∃ t2, PendingEntry_remove t r = Ret (mkView (pending_node p) (pending_status p), t2) ∧
        KBucketsTable_entry now t2 key = Ret (EntryAbsent r, t2).
Proof.
  intros Hp Hk. pose proof (pending_not_node p Hp) as Hnot. rewrite Hk in Hnot.
  assert (∀ q, (a_remove key (a_set_pending q a)).1 = None) as Hrem.
  { intros q. by apply a_remove_None. }
  apply same_key_true in Hk. split.
  - intros st. destruct (PendingEntry_update_rep t as_ i a key Ht Ha Hok st p Hp) as (t2 & H1 & H2 & H3).
    exists t2. split; [done|]. unfold a_update_pending in H2. rewrite Hp in H2.
    rewrite (entry_after_bucket _ _ H2 H3) by (intros q [= <-]; by apply (Hs p)).
    rewrite Entry_new_rep, Hrem. simpl. by rewrite Hk.
  - destruct (PendingEntry_remove_rep t as_ i a key Ht Ha Hok p Hp) as (t2 & H1 & H2 & H3).
    exists t2. split; [done|]. rewrite (entry_after_bucket _ _ H2 H3) by done.
    by rewrite Entry_new_rep, Hrem.
Qed.

Lemma entry_after_insert (v : TVal) (st : NodeStatus) :
  as_ref key ∉ key_of <$> a_all a →
  ∃ res t2, AbsentEntry_insert now t r v st = Ret (res, t2) ∧
    match res with
    | Inserted => KBucketsTable_entry now t2 key = Ret (EntryPresent r st, t2)
    | Pending _ => ∃ b, buckets t2 !! i = Some b ∧ length (nodes b) = K_VALUE ∧
        pending b = Some (mkPending (mkNode key v) Connected (now + pending_timeout b)%N)
    | Full => KBucketsTable_entry now t2 key = Ret (EntryAbsent r, t2)
    end.
Proof.
  intros Hf. destruct (AbsentEntry_insert_rep now t as_ i a key Ht Ha Hok v st Hf Hi) as (t2 & H1 & H2 & H3).
  eexists _, t2. split; [exact H1|]. clear H1.
  assert (as_ref key ∉ key_of <$> a_nodes a) as Hn.
  { unfold a_all in Hf. rewrite fmap_app, elem_of_app in Hf. tauto. }
  unfold a_insert in *. destruct (a_full a) eqn:Efull; simpl in *.
  - assert (∀ t2, table_rep t2 (<[i:=a]> as_) → local_key t2 = local_key t →
      KBucketsTable_entry now t2 key = Ret (EntryAbsent r, t2)) as Hfull.
    { intros t3 Ht3 HL3. rewrite (entry_after_bucket _ _ Ht3 HL3) by done. rewrite Entry_new_rep.
      rewrite (proj2 (a_remove_None key a) Hn). destruct (a_pending a) as [p|] eqn:Hp; [|done].
      destruct (same_key key (pending_node p)) eqn:Es; [|done]. apply same_key_true in Es.
      destruct Hf. unfold a_all. rewrite fmap_app, Hp. simpl. rewrite Es, elem_of_app.
      right. by left. }
    destruct st; [|by apply Hfull]. destruct (disconnected_q a) as [|d ds] eqn:Ed; [by apply Hfull|].
    destruct (a_pending a) eqn:Ep; [by apply Hfull|]. simpl in *.
    destruct H2 as [Hb Hl _]. eexists. rewrite Hb, list_lookup_fmap, list_lookup_insert_eq
      by (by eapply lookup_lt_Some). split; [done|]. split; [|done]. by apply Nat.eqb_eq in Efull.
  - rewrite (entry_after_bucket _ _ H2 H3) by (by apply settled_push).
    rewrite Entry_new_rep. by destruct (a_remove_push key (mkNode key v) st a eq_refl Hn) as [pos ->].
Qed.
End entry_after.
End operations.
Arguments table_op : clear implicits.

Section table_properties.
Context {TKey TVal : Type} `{!AsRef TKey}.

(** [C8] Invariant of the routing table: no sequence of uses of a new table
    panics, and afterwards the table has 256 buckets of at most [K_VALUE]
    nodes, every node (pending ones included) is in the bucket its distance to
    the local key falls into, no key occurs twice in the whole table, and the
    local key does not occur at all. *)
Theorem KBucketsTable_run_inv (local : TKey) (timeout : N) (ops : list (table_op TKey TVal)) :
  ∃ t, table_run (KBucketsTable_new local timeout) ops = Ret t ∧ local_key t = local ∧
    length (buckets t) = NUM_BUCKETS ∧
    (∀ i b n, buckets t !! i = Some b → n ∈ a_all (abs b) →
       length (nodes b) ≤ K_VALUE ∧
       BucketIndex_new (KeyBytes_distance (as_ref local) (key_of n)) = Some i) ∧
    NoDup (key_of <$> table_nodes t) ∧ as_ref local ∉ key_of <$> table_nodes t.
Proof.
  destruct (table_run_inv (L:=local) (KBucketsTable_new local timeout) ops) as (t & Hrun & as_ & Ht & HL).
  { eexists. split; [apply KBucketsTable_new_rep|done]. }
  exists t. pose proof (table_nodes_nodup t as_ Ht) as Hnd. subst local.
  split_and!; [done..| | |done|].
  - destruct Ht as [-> Hl _]. by rewrite length_fmap.
  - intros i b n. destruct Ht as [Hb _ Hok]. rewrite Hb, list_lookup_fmap, fmap_Some.
    intros (a & Ha & ->). rewrite abs_rep. intros Hn. specialize (Hok i a Ha).
    split; [apply Hok|by apply Hok].
  - rewrite (table_nodes_rep t as_ Ht). intros (n & Hk & Hn)%list_elem_of_fmap.
    apply list_elem_of_join in Hn as (l & Hn & Hl). apply list_elem_of_fmap in Hl as (a & -> & Ha).
    apply list_elem_of_lookup in Ha as [i Ha].
    pose proof (abucket_index _ _ _ (table_ok _ _ Ht i a Ha) n Hn) as Hi. rewrite <-Hk in Hi.
    assert (KeyBytes_distance (as_ref (local_key t)) (as_ref (local_key t)) = 0%N) as Hz
      by (by apply KeyBytes_distance_0).
    by rewrite Hz in Hi.
Qed.

(** The entry of a key reports what was done to it last: after inserting
    an absent entry it is present with the given status (or recorded as the
    pending node of its bucket when the bucket is full of unexpired nodes, or
    still absent when it was refused), after an update it has the new status,
    and after a removal it is absent; only the local key has no entry. *)
Theorem KBucketsTable_entry_roundtrip (local : TKey) (t : KBucketsTable TKey TVal) (now : N) (key : TKey) :
  table_inv local t →
  ∃ e t1, KBucketsTable_entry now t key = Ret (e, t1) ∧ table_inv local t1 ∧
  match e with
  | SelfEntry => as_ref key = as_ref local
  | EntryAbsent r => ∀ v st, ∃ res t2, AbsentEntry_insert now t1 r v st = Ret (res, t2) ∧
      match res with
      | Inserted => KBucketsTable_entry now t2 key = Ret (EntryPresent r st, t2)
      | Pending _ => ∃ b, buckets t2 !! entry_bucket r = Some b ∧ length (nodes b) = K_VALUE ∧
          pending b = Some (mkPending (mkNode key v) Connected (now + pending_timeout b)%N)
      | Full => KBucketsTable_entry now t2 key = Ret (EntryAbsent r, t2)
      end
  | EntryPresent r st0 =>
      (∀ st, ∃ t2, PresentEntry_update now t1 r st = Ret t2 ∧
         KBucketsTable_entry now t2 key = Ret (EntryPresent r st, t2)) ∧
      ∃ n t2, PresentEntry_remove t1 r = Ret (mkView n st0, t2) ∧ key_of n = as_ref key ∧
         KBucketsTable_entry now t2 key = Ret (EntryAbsent r, t2)
  | EntryPending r st0 =>
      (∀ st, ∃ t2, PendingEntry_update t1 r st = Ret t2 ∧
         KBucketsTable_entry now t2 key = Ret (EntryPending r st, t2)) ∧
      ∃ n t2, PendingEntry_remove t1 r = Ret (mkView n st0, t2) ∧ key_of n = as_ref key ∧
         KBucketsTable_entry now t2 key = Ret (EntryAbsent r, t2)
  end.
Proof.
  intros Hinv. pose proof Hinv as (as0 & Ht0 & HL0).
  destruct (KBucketsTable_entry_inv now t key Hinv) as (e & t1 & He & Hinv1 & Hcase).
  exists e, t1. split; [done|]. split; [done|].
  destruct Hcase as [->|(i & a & as_ & Ht & Ha & -> & Hs & Hok & Hi & HL)].
  { pose proof (KBucketsTable_entry_rep now t as0 key Ht0) as H. rewrite He in H. subst local.
    destruct (BucketIndex_new _) as [i|]; [|by destruct H].
    destruct H as (a & t' & _ & [= Hbad _] & _). rewrite Entry_new_rep in Hbad. by case_all. }
  rewrite Entry_new_rep. destruct (a_remove key a).1 as [[[n st0] pos]|] eqn:Hrem.
  - split; [intros st; eapply entry_after_update; [done..|]; by rewrite Hrem|].
    exists n. by eapply entry_after_remove.
  - pose proof (a_all_fresh key a Hrem) as Hfresh.
    destruct (a_pending a) as [p|] eqn:Hp; [destruct (same_key key (pending_node p)) eqn:Es|].
    + apply same_key_true in Es.
      destruct (entry_after_pending now t1 as_ i a key Ht Ha Hs Hok Hi p Hp Es) as [Hu (t2 & Hr & He2)].
      split; [done|]. by exists (pending_node p), t2.
    + intros v st. eapply entry_after_insert; [done..|]. apply Hfresh. by intros ? [= <-].
    + intros v st. eapply entry_after_insert; [done..|]. by apply Hfresh.
Qed.

End table_properties.

Lemma KBucketsTable_entry_roundtrip_witness :
  ∃ e t1, KBucketsTable_entry 5 (KBucketsTable_new (TVal:=nat) (U256_to_bytes 0) 60) (U256_to_bytes 1)
            = Ret (e, t1) ∧ table_inv (U256_to_bytes 0) t1.
Proof.
  destruct (KBucketsTable_entry_roundtrip (U256_to_bytes 0)
    (KBucketsTable_new (TVal:=nat) (U256_to_bytes 0) 60) 5 (U256_to_bytes 1)) as (e & t1 & H1 & H2 & _).
  - eexists. split; [apply KBucketsTable_new_rep|done].
  - exists e, t1. split; [exact H1|exact H2].
Defined.
