(* ===== verification/KadClosest.v ===== *)
(** * The closest keys of the Kademlia routing table

    Correctness of [ClosestBucketsIter], [closest_keys], [closest] and
    [count_nodes_between] ([protocols/kad/src/kbucket.rs]): the buckets are
    visited in the order of their distance to the target, so that sorting each
    bucket by itself yields all nodes of the table sorted by distance. *)

From stdpp Require Import prelude.
From S2P Require Import Prelude KadKey KadBucket KadTable.

(** ** The sequence of bucket indices *)

(** The indices an iterator has still to return. *)
Definition zoom_out (d : Distance) (i : nat) : list nat :=
  filter (λ j, negb (U256_bit d j) = true) (seq (i + 1) (NUM_BUCKETS - (i + 1))).
Definition zoom_in (d : Distance) (i : nat) : list nat :=
  filter (λ j, U256_bit d j = true) (reverse (seq 0 i)) ++ 0 :: zoom_out d 0.
Definition cbi_rest (it : ClosestBucketsIter) : list nat :=
  match cbi_state it with
  | Start i => i :: zoom_in (cbi_distance it) i
  | ZoomIn i => zoom_in (cbi_distance it) i
  | ZoomOut i => zoom_out (cbi_distance it) i
  | Done => []
  end.

Lemma find_first_seq (p : nat → bool) (s n : nat) :
  match find_first p (seq s n) with
  | Some x => s ≤ x < s + n ∧
      filter (λ j, p j = true) (seq s n) =
        x :: filter (λ j, p j = true) (seq (x + 1) (s + n - (x + 1)))
  | None => filter (λ j, p j = true) (seq s n) = []
  end.
Proof.
  unfold find_first. revert s. induction n as [|n IH]; intros s; simpl; [done|].
  rewrite filter_cons. case_decide as Hp; simpl.
  - split; [lia|]. do 3 f_equal; lia.
  - specialize (IH (S s)). destruct (filter (λ x, p x = true) (seq (S s) n)) as [|x l]; simpl in *; [done|].
    destruct IH as [Hx Heq]. split; [lia|]. rewrite Heq. do 4 f_equal. lia.
Qed.

Lemma find_first_rev_seq (p : nat → bool) (n : nat) :
  match find_first p (reverse (seq 0 n)) with
  | Some x => x < n ∧
      filter (λ j, p j = true) (reverse (seq 0 n)) =
        x :: filter (λ j, p j = true) (reverse (seq 0 x))
  | None => filter (λ j, p j = true) (reverse (seq 0 n)) = []
  end.
Proof.
  unfold find_first. induction n as [|n IH]; [done|].
  rewrite seq_S, reverse_snoc, filter_cons. simpl. case_decide; simpl; [split; [lia|done]|].
  destruct (filter (λ x, p x = true) (reverse (seq 0 n))) as [|x l]; simpl in *; [done|].
  destruct IH. split; [lia|done].
Qed.

Lemma ClosestBucketsIter_next_rest (it : ClosestBucketsIter) :
  match cbi_rest it with
  | i :: rest => ∃ it', ClosestBucketsIter_next it = (Some i, it') ∧ cbi_rest it' = rest
  | [] => ∃ it', ClosestBucketsIter_next it = (None, it') ∧ cbi_rest it' = []
  end.
Proof.
  destruct it as [d [i|i|i|]]; unfold cbi_rest, ClosestBucketsIter_next; simpl.
  - by eexists.
  - unfold ClosestBucketsIter_next_in; simpl. pose proof (find_first_rev_seq (U256_bit d) i) as H.
    destruct (find_first _ _) as [x|].
    + destruct H as [_ H]. unfold zoom_in at 1. rewrite H. simpl. by eexists.
    + unfold zoom_in. rewrite H. simpl. by eexists.
  - unfold ClosestBucketsIter_next_out; simpl.
    pose proof (find_first_seq (λ j, negb (U256_bit d j)) (i + 1) (NUM_BUCKETS - (i + 1))) as H.
    destruct (find_first _ _) as [x|].
    + destruct H as [Hx H]. unfold zoom_out at 1. rewrite H. eexists. split; [done|]. simpl.
      unfold zoom_out. do 2 f_equal. lia.
    + unfold zoom_out at 1. rewrite H. by eexists.
  - by eexists.
Qed.

(** [i] may be visited before [j]: all keys in the bucket [i] are at least as
    close to the target as those in the bucket [j]. *)
Definition visit_before (d : Distance) (i j : nat) : Prop :=
  i < j ∧ U256_bit d j = false ∨ j < i ∧ U256_bit d i = true ∨ i = 0 ∧ j = 0.

Lemma zoom_out_sorted (d : Distance) (i : nat) : StronglySorted (visit_before d) (zoom_out d i).
Proof.
  unfold zoom_out. generalize (NUM_BUCKETS - (i + 1)) as n. generalize (i + 1) as s.
  intros s n. revert s. clear i. induction n as [|n IH]; intros s; simpl; [constructor|]. rewrite filter_cons. case_decide; [|done].
  constructor; [done|]. apply Forall_forall. intros j [Hj Hin]%list_elem_of_filter.
  apply elem_of_seq in Hin. left. split; [lia|]. by apply negb_true_iff.
Qed.

Lemma zoom_in_sorted (d : Distance) (i : nat) : StronglySorted (visit_before d) (zoom_in d i).
Proof.
  unfold zoom_in. assert (∀ j, j ∈ zoom_out d 0 → 0 < j ∧ U256_bit d j = false) as Hout.
  { intros j [Hj Hin]%list_elem_of_filter. apply elem_of_seq in Hin.
    split; [lia|]. by apply negb_true_iff. }
  induction i as [|i IH].
  { simpl. constructor; [apply zoom_out_sorted|]. apply Forall_forall. intros j Hj. left.
    by apply Hout. }
  rewrite seq_S, reverse_snoc, filter_cons. simpl. case_decide as Hbit; [|done]. simpl.
  constructor; [done|]. apply Forall_forall. intros j. rewrite elem_of_app, elem_of_cons.
  intros [[Hj Hin]%list_elem_of_filter|[->|Hj]].
  - apply elem_of_reverse, elem_of_seq in Hin. right; left. split; [lia|done].
  - destruct (decide (i = 0)) as [->|]; [by right; right|]. right; left. split; [lia|done].
  - destruct (Hout j Hj) as [? Hb]. destruct (decide (i < j)); [by left|].
    right; left. split; [|done]. assert (i ≠ j) by congruence. lia.
Qed.

Lemma BucketIndex_new_bit (d : Distance) (i : nat) :
  (d < 2 ^ 256)%N → BucketIndex_new d = Some i →
  U256_bit d i = true ∧ ∀ j, i < j → U256_bit d j = false.
Proof.
  intros Hd Hi. apply Distance_ilog2_Some in Hi as [Hnz Hl]; [|done]. unfold U256_bit. split.
  - rewrite <-Hl. by apply N.bit_log2.
  - intros j Hj. apply N.bits_above_log2. lia.
Qed.

Lemma cbi_rest_new_sorted (d : Distance) :
  (d < 2 ^ 256)%N → StronglySorted (visit_before d) (cbi_rest (ClosestBucketsIter_new d)).
Proof.
  intros Hd. unfold cbi_rest, ClosestBucketsIter_new; simpl.
  destruct (BucketIndex_new d) as [i|] eqn:Ei; simpl.
  - destruct (BucketIndex_new_bit d i Hd Ei) as [Hbit Habove].
    pose proof (zoom_in_sorted d (S i)) as H. unfold zoom_in in H.
    rewrite seq_S, reverse_snoc, filter_cons in H. simpl in H.
    rewrite decide_True in H by done. exact H.
  - constructor; [apply zoom_in_sorted|]. apply Distance_ilog2_None in Ei as ->; [|done].
    apply Forall_forall. intros j. unfold zoom_in. simpl. rewrite elem_of_cons.
    intros [->|[Hj Hin]%list_elem_of_filter]; [by right; right|].
    apply elem_of_seq in Hin. left. split; [lia|]. by apply negb_true_iff.
Qed.

(** Bucket [0] is visited once more when bit [0] of the distance is set, and
    when the distance is zero. *)
Definition repeated_indices (d : Distance) : list nat :=
  if U256_bit d 0 || (d =? 0)%N then [0] else [].

Lemma filter_bits_perm (d : Distance) (l : list nat) :
  filter (λ j, U256_bit d j = true) l ++ filter (λ j, negb (U256_bit d j) = true) l ≡ₚ l.
Proof.
  induction l as [|x l IH]; simpl; [done|]. rewrite !filter_cons.
  destruct (U256_bit d x); simpl; [by rewrite IH|]. by rewrite <-Permutation_middle, IH.
Qed.

Lemma cbi_rest_new_perm (d : Distance) :
  (d < 2 ^ 256)%N →
  cbi_rest (ClosestBucketsIter_new d) ≡ₚ repeated_indices d ++ seq 0 NUM_BUCKETS.
Proof.
  intros Hd. unfold cbi_rest, ClosestBucketsIter_new, repeated_indices; simpl.
  destruct (BucketIndex_new d) as [i|] eqn:Ei; simpl.
  - destruct (BucketIndex_new_bit d i Hd Ei) as [Hbit Habove].
    pose proof (BucketIndex_new_lt d i Hd Ei) as Hi.
    assert (i :: filter (λ j, U256_bit d j = true) (reverse (seq 0 i)) ≡ₚ
            filter (λ j, U256_bit d j = true) (seq 0 NUM_BUCKETS)) as Hin.
    { replace NUM_BUCKETS with (S i + (NUM_BUCKETS - S i)) by lia.
      generalize (NUM_BUCKETS - S i) as m. intros m.
      rewrite seq_app, filter_app. change (0 + S i) with (S i).
      assert (filter (λ j, U256_bit d j = true) (seq (S i) m) = []) as ->.
      { apply filter_none. intros j Hj%elem_of_seq. by rewrite Habove by lia. }
      rewrite app_nil_r, seq_S, filter_app, filter_cons. simpl.
      rewrite decide_True, filter_nil, reverse_Permutation by done.
      by rewrite <-Permutation_cons_append. }
    assert (d ≠ 0%N) as Hnz.
    { intros ->. done. }
    rewrite (proj2 (N.eqb_neq _ _) Hnz), orb_false_r.
    unfold zoom_in, zoom_out. change (NUM_BUCKETS - (0 + 1)) with 255. change (0 + 1) with 1.
    rewrite app_comm_cons, Hin.
    assert (filter (λ j, negb (U256_bit d j) = true) (seq 0 NUM_BUCKETS) =
      (if U256_bit d 0 then [] else [0]) ++ filter (λ j, negb (U256_bit d j) = true) (seq 1 255)) as Hout.
    { change (seq 0 NUM_BUCKETS) with (0 :: seq 1 255). rewrite filter_cons.
      destruct (U256_bit d 0); reflexivity. }
    pose proof (filter_bits_perm d (seq 0 NUM_BUCKETS)) as Hall. rewrite Hout in Hall.
    destruct (U256_bit d 0); cbn [app orb] in Hall |- *; [|exact Hall].
    rewrite <-Permutation_middle, Hall. reflexivity.
  - apply Distance_ilog2_None in Ei as ->; [|done]. done.
Qed.

(** ** The loop of [ClosestIter::next] *)
Section closest_iter.
Context {TKey TVal TOut : Type} `{!AsRef TKey, !AsRef TOut}.
Context (target : KeyBytes) (f : KBucket TKey TVal → list TOut) (now : N).
Abbreviation KBucketsTable := (KBucketsTable TKey TVal).
Abbreviation ABucket := (ABucket TKey TVal).

(** The buckets at the given indices visited one after the other. *)
Fixpoint closest_visit (ixs : list nat) (t : KBucketsTable) : outcome (list TOut * KBucketsTable) :=
  match ixs with
  | [] => Ret ([], t)
  | i :: ixs =>
      t ← apply_pending_at now t i;
      b ← vec_index (buckets t) i;
      '(l, t) ← closest_visit ixs t;
      Ret (sort_by (closer target) (f b) ++ l, t)
  end.

Definition iter_measure (o : option (list TOut)) (rest : list nat) : nat :=
  2 * length rest + match o with Some [] => 1 | _ => 0 end.

Lemma ClosestIter_next_visit (fuel : nat) it o t L t' :
  closest_visit (cbi_rest it) t = Ret (L, t') → iter_measure o (cbi_rest it) < fuel →
  match default [] o ++ L with
  | [] => ∃ it', ClosestIter_next target f fuel now (mkClosestIter it o) t = Some (Ret (None, it', t'))
  | k :: R => ∃ it2 l2 t2 L2,
      ClosestIter_next target f fuel now (mkClosestIter it o) t =
        Some (Ret (Some k, mkClosestIter it2 (Some l2), t2)) ∧
      closest_visit (cbi_rest it2) t2 = Ret (L2, t') ∧ R = l2 ++ L2 ∧
      length (cbi_rest it2) ≤ length (cbi_rest it)
  end.
Proof.
  revert it o t L t'. induction fuel as [|fuel IH]; intros it o t L t' Hv Hm; [lia|].
  destruct o as [[|k l]|]; simpl.
  - apply (IH it None t L t' Hv). unfold iter_measure in *. lia.
  - eexists it, l, t, L. done.
  - pose proof (ClosestBucketsIter_next_rest it) as Hnext. unfold iter_measure in Hm.
    destruct (cbi_rest it) as [|i ixs]; simpl in *.
    { destruct Hnext as (it' & -> & _). injection Hv as <- <-. by eexists. }
    destruct Hnext as (it' & -> & Hrest).
    destruct (apply_pending_at now t i) as [t1|]; simpl in *; [|done].
    destruct (vec_index (buckets t1) i) as [b|]; simpl in *; [|done].
    destruct (closest_visit ixs t1) as [[l t2]|] eqn:Hv2; simpl in *; [|done].
    injection Hv as <- <-. rewrite <-Hrest in Hv2.
    specialize (IH it' (Some (sort_by (closer target) (f b))) t1 l t2 Hv2). simpl in IH.
    destruct (sort_by (closer target) (f b) ++ l) as [|k R].
    + apply IH. unfold iter_measure. rewrite Hrest. case_match; lia.
    + destruct IH as (it2 & l2 & t3 & L2 & H1 & H2 & H3 & H4).
      { unfold iter_measure. rewrite Hrest. case_match; lia. }
      exists it2, l2, t3, L2. split_and!; [done..|]. rewrite Hrest in H4. lia.
Qed.

Lemma ClosestIter_collect_visit (fuel : nat) it o t L t' :
  closest_visit (cbi_rest it) t = Ret (L, t') →
  length (default [] o ++ L) + 2 * length (cbi_rest it) + 2 ≤ fuel →
  ClosestIter_collect target f fuel now (mkClosestIter it o) t = Some (Ret (default [] o ++ L, t')).
Proof.
  revert it o t L. induction fuel as [|fuel IH]; intros it o t L Hv Hm; [lia|].
  pose proof (ClosestIter_next_visit (S fuel) it o t L t' Hv) as Hn.
  assert (iter_measure o (cbi_rest it) < S fuel) as Hm'.
  { unfold iter_measure. destruct o as [[|??]|]; lia. }
  specialize (Hn Hm'). cbn [ClosestIter_collect].
  destruct (default [] o ++ L) as [|k R].
  - by destruct Hn as (it' & ->).
  - destruct Hn as (it2 & l2 & t2 & L2 & -> & Hv2 & -> & Hle).
    rewrite (IH it2 (Some l2) t2 L2 Hv2); [done|]. simpl in *. lia.
Qed.

(** ** The buckets after a visit *)

(** What a complete visit makes of a bucket. *)
Definition visited (a : ABucket) : ABucket := (a_apply_pending now a).2.

Lemma visited_idemp (a : ABucket) : visited (visited a) = visited a.
Proof.
  unfold visited at 1. by rewrite settled_apply_pending by apply a_apply_pending_settled.
Qed.

(** The entries of a bucket in the order of their distance to the target. *)
Definition sorted_entries (a : ABucket) : list TOut := sort_by (closer target) (f (rep (visited a))).

Lemma closest_visit_rep (ixs : list nat) (t : KBucketsTable) (bs as_ : list ABucket) :
  table_rep t bs → Forall2 (λ b a, b = a ∨ b = visited a) bs as_ →
  Forall (λ i, i < NUM_BUCKETS) ixs →
  ∃ L t' bs', closest_visit ixs t = Ret (L, t') ∧ table_rep t' bs' ∧ local_key t' = local_key t ∧
    Forall2 (λ b a, b = a ∨ b = visited a) bs' as_ ∧
    (∀ i a, bs !! i = Some (visited a) → as_ !! i = Some a → bs' !! i = Some (visited a)) ∧
    (∀ i a, i ∈ ixs → as_ !! i = Some a → bs' !! i = Some (visited a)) ∧
    L = mjoin ((λ i, match as_ !! i with Some a => sorted_entries a | None => [] end) <$> ixs).
Proof.
  revert t bs. induction ixs as [|i ixs IH]; intros t bs Ht Hall His; simpl.
  { exists [], t, bs. split_and!; try done. intros i a Hi. by apply elem_of_nil in Hi. }
  apply Forall_cons in His as [Hi His].
  destruct (table_rep_lookup t bs i Ht Hi) as (b & Hb & _ & _).
  destruct (apply_pending_at_rep now t bs i b Ht Hb) as (t1 & -> & Ht1 & HL1 & _). simpl.
  change ((a_apply_pending now b).2) with (visited b) in Ht1.
  destruct (table_rep_lookup t1 _ i Ht1 Hi) as (b1 & Hb1 & -> & _). simpl.
  assert (i < length bs) as Hlen by (by eapply lookup_lt_Some).
  rewrite list_lookup_insert_eq in Hb1 by done. injection Hb1 as <-.
  destruct (Forall2_lookup_l _ _ _ i b Hall Hb) as (a & Ha & Hba).
  assert (visited b = visited a) as Hvis by (destruct Hba as [->| ->]; [done|apply visited_idemp]).
  rewrite Hvis in *.
  destruct (IH t1 (<[i:=visited a]> bs)) as (L & t' & bs' & -> & Ht' & HL' & Hall' & Hkeep & Hin & ->).
  { done. } { rewrite <-(list_insert_id as_ i a Ha). apply Forall2_insert; [done|by right]. } { done. }
  simpl. eexists _, t', bs'. rewrite Ha. split_and!; [done|done|congruence|done| | |done].
  - intros j c Hj Hc. apply Hkeep; [|done]. destruct (decide (i = j)) as [->|Hne].
    + rewrite list_lookup_insert_eq by done. congruence.
    + by rewrite list_lookup_insert_ne.
  - intros j c [->|Hj]%elem_of_cons Hc; [|by apply Hin].
    apply Hkeep; [|done]. rewrite list_lookup_insert_eq by done. congruence.
Qed.
End closest_iter.

(** ** Buckets in the order of their distance *)

Lemma visit_before_le (d e e' : Distance) (i j : nat) :
  (e < 2 ^ 256)%N → (e' < 2 ^ 256)%N →
  BucketIndex_new e = Some i → BucketIndex_new e' = Some j → visit_before d i j →
  (N.lxor d e ≤ N.lxor d e')%N.
Proof.
  intros He He' Hi Hj Hb.
  destruct (BucketIndex_new_bit e i He Hi) as [Hbi Hai].
  destruct (BucketIndex_new_bit e' j He' Hj) as [Hbj Haj].
  assert (∀ m : N, m = N.of_nat (N.to_nat m)) as Hm by lia.
  destruct Hb as [[Hij Hd]|[[Hij Hd]|[-> ->]]].
  - apply N.lt_le_incl, (N_lt_by_bit _ _ (N.of_nat j)); unfold U256_bit in *.
    + intros m Hlt. rewrite !N.lxor_spec, (Hm m), Hai, Haj by lia. done.
    + rewrite N.lxor_spec, Hd, Hai by lia. done.
    + by rewrite N.lxor_spec, Hd, Hbj.
  - apply N.lt_le_incl, (N_lt_by_bit _ _ (N.of_nat i)); unfold U256_bit in *.
    + intros m Hlt. rewrite !N.lxor_spec, (Hm m), Hai, Haj by lia. done.
    + by rewrite N.lxor_spec, Hd, Hbi.
    + rewrite N.lxor_spec, Hd, Haj by lia. done.
  - apply Distance_ilog2_Some in Hi as [? Hi]; [|done]. apply Distance_ilog2_Some in Hj as [? Hj]; [|done].
    apply N.log2_null in Hi, Hj. by replace e with 1%N by lia; replace e' with 1%N by lia.
Qed.

Lemma StronglySorted_mjoin {A B} (R : A → A → Prop) (S : B → B → Prop) (g : B → list A) (l : list B) :
  StronglySorted S l → (∀ b, b ∈ l → StronglySorted R (g b)) →
  (∀ b b' x y, b ∈ l → b' ∈ l → S b b' → x ∈ g b → y ∈ g b' → R x y) →
  StronglySorted R (mjoin (g <$> l)).
Proof.
  induction 1 as [|b l Hl IH Hb]; intros Hg Hcross; simpl; [constructor|].
  apply StronglySorted_app. split_and!.
  - intros x y Hx (k & Hy & (b' & -> & Hb')%list_elem_of_fmap)%list_elem_of_join.
    eapply (Hcross b b'); [by left|by right| |done..]. by eapply Forall_forall in Hb.
  - apply Hg. by left.
  - apply IH; [intros; apply Hg; by right|].
    intros b1 b2 x y H1 H2. apply Hcross; by right.
Qed.

Lemma mjoin_fmap_perm {A B} (g h : B → list A) (l : list B) :
  (∀ b, g b ≡ₚ h b) → mjoin (g <$> l) ≡ₚ mjoin (h <$> l).
Proof. intros H. induction l as [|b l IH]; simpl; [done|]. by rewrite (H b), IH. Qed.

Lemma mjoin_fmap_length {A B} (g : B → list A) (l : list B) (k : nat) :
  (∀ b, length (g b) ≤ k) → length (mjoin (g <$> l)) ≤ length l * k.
Proof.
  intros H. induction l as [|b l IH]; [done|]. rewrite fmap_cons.
  change (mjoin (g b :: (g <$> l))) with (g b ++ mjoin (g <$> l)).
  rewrite length_app. specialize (H b). simpl. lia.
Qed.

(** Fuel that is enough for every table: each of the at most 257 visits takes two
    rounds of the loop and yields at most [K_VALUE] entries. *)
Definition closest_fuel : nat := (NUM_BUCKETS + 1) * (K_VALUE + 2) + 2.

Lemma closest_fuel_enough (len n : nat) :
  n ≤ NUM_BUCKETS + 1 → len ≤ n * K_VALUE → len + 2 * n + 2 ≤ closest_fuel.
Proof.
  intros Hn Hlen. unfold closest_fuel. rewrite Nat.mul_add_distr_l.
  pose proof (Nat.mul_le_mono_r n (NUM_BUCKETS + 1) K_VALUE Hn). lia.
Qed.

#[local] Opaque closest_fuel NUM_BUCKETS K_VALUE.

Section closest_sorted.
Context {TKey TVal TOut : Type} `{!AsRef TKey, !AsRef TOut}.
Context (target : KeyBytes) (f : KBucket TKey TVal → list TOut) (now : N).
Context (f_keys : ∀ a, as_ref <$> f (rep a) = key_of <$> a_nodes a).
Implicit Types (t : KBucketsTable TKey TVal).
Abbreviation ABuckets := (list (ABucket TKey TVal)).

Definition dist_le (x y : TOut) : Prop :=
  (KeyBytes_distance target x ≤ KeyBytes_distance target y)%N.

Lemma sorted_entries_sorted (a : ABucket TKey TVal) :
  StronglySorted dist_le (sorted_entries target f now a).
Proof.
  unfold sorted_entries. eapply StronglySorted_impl;
    [|apply (sort_by_sorted (closer target)); unfold closer].
  - intros x y Hxy. by apply N.leb_le in Hxy.
  - intros x y. rewrite !N.leb_le. lia.
  - intros x y z. rewrite !N.leb_le. lia.
Qed.

Lemma sorted_entries_index t (as_ : ABuckets) (i : nat) (a : ABucket TKey TVal) (x : TOut) :
  table_rep t as_ → as_ !! i = Some a → x ∈ sorted_entries target f now a →
  BucketIndex_new (KeyBytes_distance (as_ref (local_key t)) (as_ref x)) = Some i.
Proof.
  intros Ht Ha Hx. unfold sorted_entries in Hx. rewrite sort_by_perm in Hx.
  pose proof (abucket_ok_apply_pending _ _ _ now (table_ok _ _ Ht i a Ha)) as Hok.
  assert (as_ref x ∈ key_of <$> a_nodes (visited now a)) as (n & Hn & Hin)%list_elem_of_fmap.
  { rewrite <-f_keys. by apply list_elem_of_fmap_2. }
  rewrite Hn. apply Hok. unfold a_all. apply elem_of_app. by left.
Qed.

Lemma sorted_entries_length (a : ABucket TKey TVal) :
  length (a_nodes a) ≤ K_VALUE → length (sorted_entries target f now a) ≤ K_VALUE.
Proof.
  intros Ha. unfold sorted_entries. rewrite sort_by_perm.
  rewrite <-(length_fmap as_ref), f_keys, length_fmap. by apply a_apply_pending_length.
Qed.

Lemma ClosestIter_collect_sorted t (as_ : ABuckets) :
  table_rep t as_ →
  let d := KeyBytes_distance (as_ref (local_key t)) target in
  ∃ L t', ClosestIter_collect target f closest_fuel now
            (mkClosestIter (ClosestBucketsIter_new d) None) t = Some (Ret (L, t')) ∧
    table_rep t' (visited now <$> as_) ∧ local_key t' = local_key t ∧ StronglySorted dist_le L ∧
    L ≡ₚ mjoin ((λ i, match as_ !! i with Some a => f (rep (visited now a)) | None => [] end)
                <$> (repeated_indices d ++ seq 0 NUM_BUCKETS)).
Proof.
  intros Ht d. assert (d < 2 ^ 256)%N as Hd by apply KeyBytes_distance_lt.
  set (ixs := cbi_rest (ClosestBucketsIter_new d)).
  pose proof (cbi_rest_new_perm d Hd) as Hperm. fold ixs in Hperm.
  assert (Forall (λ i, i < NUM_BUCKETS) ixs) as Hixs.
  { rewrite Hperm. apply Forall_app. split.
    - unfold repeated_indices. case_match; [|done]. apply Forall_singleton. by apply Nat.ltb_lt.
    - apply Forall_forall. intros i Hi%elem_of_seq. lia. }
  destruct (closest_visit_rep target f now ixs t as_ as_) as (L & t' & bs & Hv & Ht' & HL & Hall & _ & Hin & ->);
    [done|by apply Forall2_same_length_lookup; naive_solver|done|].
  set (g := λ i, match as_ !! i with Some a => sorted_entries target f now a | None => [] end) in *.
  assert (∀ i, length (g i) ≤ K_VALUE) as Hg.
  { intros i. unfold g. destruct (as_ !! i) as [a|] eqn:Ha; [|simpl; lia].
    apply sorted_entries_length, (table_ok _ _ Ht i a Ha). }
  assert (bs = visited now <$> as_) as ->.
  { apply list_eq. intros i. rewrite list_lookup_fmap. destruct (as_ !! i) as [a|] eqn:Ha; simpl.
    - apply Hin; [|done]. rewrite Hperm, elem_of_app, elem_of_seq. right.
      apply lookup_lt_Some in Ha. rewrite (table_length _ _ Ht) in Ha. lia.
    - apply lookup_ge_None. apply lookup_ge_None in Ha. by rewrite (Forall2_length _ _ _ Hall). }
  exists (mjoin (g <$> ixs)), t'. split_and!; [|done|done| |].
  - apply (ClosestIter_collect_visit target f now closest_fuel _ None); [done|].
    apply closest_fuel_enough; [|by apply mjoin_fmap_length]. fold ixs.
    rewrite Hperm, length_app, length_seq. unfold repeated_indices. case_match; cbn [length]; lia.
  - eapply (StronglySorted_mjoin dist_le (visit_before d)); [by apply cbi_rest_new_sorted| |].
    + intros i _. unfold g. destruct (as_ !! i); [apply sorted_entries_sorted|constructor].
    + intros i j x y _ _ Hbefore Hx Hy. unfold g in Hx, Hy.
      destruct (as_ !! i) as [a|] eqn:Ha; [|by apply elem_of_nil in Hx].
      destruct (as_ !! j) as [b|] eqn:Hb; [|by apply elem_of_nil in Hy].
      apply (sorted_entries_index t as_ i a x Ht Ha) in Hx.
      apply (sorted_entries_index t as_ j b y Ht Hb) in Hy. unfold dist_le.
      change (KeyBytes_distance target x) with (KeyBytes_distance target (as_ref x)).
      change (KeyBytes_distance target y) with (KeyBytes_distance target (as_ref y)).
      rewrite (KeyBytes_distance_via target (as_ref (local_key t)) (as_ref x)).
      rewrite (KeyBytes_distance_via target (as_ref (local_key t)) (as_ref y)).
      rewrite (KeyBytes_distance_comm target (as_ref (local_key t))).
      by eapply visit_before_le; [apply KeyBytes_distance_lt..| | |].
  - rewrite Hperm. apply mjoin_fmap_perm. intros i. unfold g.
    destruct (as_ !! i); [|done]. apply sort_by_perm.
Qed.
End closest_sorted.

(** ** Properties of [closest_keys] and [closest] *)

Section closest_properties.
Context {TKey TVal : Type} `{!AsRef TKey}.

Lemma mjoin_visited (as_ : list (ABucket TKey TVal)) {B} (g : ABucket TKey TVal → list B) :
  length as_ = NUM_BUCKETS →
  (λ i, match as_ !! i with Some a => g a | None => [] end) <$> seq 0 NUM_BUCKETS = g <$> as_.
Proof.
  intros Hl. apply list_eq. intros i. rewrite !list_lookup_fmap.
  destruct (decide (i < NUM_BUCKETS)) as [Hi|Hi].
  - rewrite lookup_seq_lt by done. simpl.
    destruct (lookup_lt_is_Some_2 as_ i) as [a Ha]; [lia|]. by rewrite Ha.
  - rewrite lookup_seq_ge by lia. rewrite lookup_ge_None_2 by lia. done.
Qed.

(** The keys of the bucket that may be visited twice. *)
Definition repeated_nodes (d : Distance) (t : KBucketsTable TKey TVal) : list (Node TKey TVal) :=
  if U256_bit d 0 || (d =? 0)%N then default [] (nodes <$> buckets t !! 0) else [].

(** [C11] [closest_keys] terminates without panicking and returns keys in the
    order of their distance to the target, namely the keys of all nodes of the
    table (after applying the pending nodes that are due), each exactly once
    except for bucket 0: that bucket is visited a second time when bit 0 of the
    distance between the local key and the target is set or the distance is
    zero. *)
Theorem closest_keys_sorted (local : TKey) (t : KBucketsTable TKey TVal) (now : N) (target : KeyBytes) :
  table_inv local t →
  let d := KeyBytes_distance (as_ref local) target in
  ∃ L t', KBucketsTable_closest_keys closest_fuel now t target = Some (Ret (L, t')) ∧
    table_inv local t' ∧
    StronglySorted (λ x y, KeyBytes_distance target x ≤ KeyBytes_distance target y)%N L ∧
    L ≡ₚ node_key <$> (repeated_nodes d t' ++ mjoin (nodes <$> buckets t')).
Proof.
  intros (as_ & Ht & <-) d. unfold KBucketsTable_closest_keys. fold d.
  set (f := λ b : KBucket TKey TVal, (λ '(n, _), node_key n) <$> KBucket_iter b).
  assert (∀ a : ABucket TKey TVal, f (rep a) = node_key <$> a_nodes a) as Hf.
  { intros a. unfold f. rewrite KBucket_iter_rep, fmap_app, <-!list_fmap_compose. unfold a_nodes.
    by rewrite fmap_app. }
  destruct (ClosestIter_collect_sorted target f now) with (t := t) (as_ := as_)
    as (L & t' & Hc & Ht' & HL & Hsort & Hperm); [|done|].
  { intros a. rewrite Hf, <-list_fmap_compose. done. }
  exists L, t'. split_and!; [done|by exists (visited now <$> as_)|done|].
  rewrite Hperm, fmap_app, join_app, (mjoin_visited as_) by apply Ht.
  rewrite fmap_app. f_equiv; [|].
  - unfold repeated_indices, repeated_nodes. destruct (_ || _); [|done]. simpl. rewrite app_nil_r.
    rewrite (table_buckets _ _ Ht'), !list_lookup_fmap. destruct (as_ !! 0); simpl; [|done]. by rewrite Hf.
  - rewrite list_fmap_mjoin, (table_buckets _ _ Ht'), <-!list_fmap_compose.
    erewrite list_fmap_ext; [done|]. intros _ a _. simpl. by rewrite Hf.
Qed.

(** The same for [closest], which returns views of the nodes with their status. *)
Lemma closest_views_sorted (local : TKey) (t : KBucketsTable TKey TVal) (now : N) (target : KeyBytes) :
  table_inv local t →
  let d := KeyBytes_distance (as_ref local) target in
  ∃ L t', KBucketsTable_closest closest_fuel now t target = Some (Ret (L, t')) ∧
    table_inv local t' ∧
    StronglySorted (λ x y, KeyBytes_distance target x ≤ KeyBytes_distance target y)%N L ∧
    view_node <$> L ≡ₚ repeated_nodes d t' ++ mjoin (nodes <$> buckets t').
Proof.
  intros (as_ & Ht & <-) d. unfold KBucketsTable_closest. fold d.
  set (f := λ b : KBucket TKey TVal, (λ '(n, status), mkView n status) <$> KBucket_iter b).
  assert (∀ a : ABucket TKey TVal, view_node <$> f (rep a) = a_nodes a) as Hf.
  { intros a. unfold f. rewrite KBucket_iter_rep, !fmap_app, <-!list_fmap_compose. unfold a_nodes.
    f_equal; apply list_fmap_id. }
  destruct (ClosestIter_collect_sorted target f now) with (t := t) (as_ := as_)
    as (L & t' & Hc & Ht' & HL & Hsort & Hperm); [|done|].
  { intros a. rewrite <-(Hf a), <-list_fmap_compose. done. }
  exists L, t'. split_and!; [done|by exists (visited now <$> as_)|done|].
  rewrite Hperm, fmap_app, join_app, (mjoin_visited as_), fmap_app by apply Ht.
  f_equiv; [|].
  - unfold repeated_indices, repeated_nodes. destruct (_ || _); [|done]. simpl. rewrite app_nil_r.
    rewrite (table_buckets _ _ Ht'), !list_lookup_fmap. destruct (as_ !! 0); simpl; [|done]. by rewrite Hf.
  - rewrite list_fmap_mjoin, (table_buckets _ _ Ht'), <-!list_fmap_compose.
    erewrite list_fmap_ext; [done|]. intros _ a _. simpl. by rewrite Hf.
Qed.
End closest_properties.

(** The table around the key 0 that holds only the key 1, which falls into
    bucket 0. *)
Definition sample_table : KBucketsTable KeyBytes nat :=
  let t := KBucketsTable_new (U256_to_bytes 0) 60 in
  mkTable (local_key t) (<[0:=mkKBucket [mkNode (U256_to_bytes 1) 7] (Some 0) None 60]> (buckets t)) [].

Lemma sample_table_run :
  table_run (KBucketsTable_new (U256_to_bytes 0) 60) [TInsert 0 (U256_to_bytes 1) 7 Connected]
  = Ret sample_table.
Proof. vm_compute. reflexivity. Qed.

Lemma sample_table_inv : table_inv (U256_to_bytes 0) sample_table.
Proof.
  destruct (table_run_inv (L:=U256_to_bytes 0) (KBucketsTable_new (U256_to_bytes 0) 60)
    [TInsert 0 (U256_to_bytes 1) 7 Connected]) as (t & Ht & H).
  - eexists. split; [apply KBucketsTable_new_rep|done].
  - rewrite sample_table_run in Ht. by injection Ht as <-.
Qed.

Lemma closest_keys_sorted_witness :
  ∃ L t', KBucketsTable_closest_keys closest_fuel 0 sample_table (U256_to_bytes 6) = Some (Ret (L, t')).
Proof.
  destruct (closest_keys_sorted (U256_to_bytes 0) sample_table 0 (U256_to_bytes 6)) as (L & t' & H & _).
  - apply sample_table_inv.
  - exists L, t'. exact H.
Defined.

(** A key can be returned twice: in a table that holds the single key 1
    around the local key 0, the keys closest to 1 are reported as [1; 1]. *)
Theorem closest_keys_repeats_bucket_0 :
  table_run (KBucketsTable_new (U256_to_bytes 0) 60) [TInsert 0 (U256_to_bytes 1) 7 Connected]
    = Ret sample_table ∧
  node_key <$> table_nodes sample_table = [U256_to_bytes 1] ∧
  ∃ t', KBucketsTable_closest_keys closest_fuel 0 sample_table (U256_to_bytes 1)
    = Some (Ret ([U256_to_bytes 1; U256_to_bytes 1], t')).
Proof.
  split_and!; [apply sample_table_run|by vm_compute|]. eexists. vm_compute. reflexivity.
Qed.
