(* ===== verification/KadCount.v ===== *)
(** * Counting nodes of the Kademlia routing table

    [KBucketsTable::count_nodes_between] ([protocols/kad/src/kbucket.rs]). *)

From stdpp Require Import prelude.
From S2P Require Import Prelude KadKey KadBucket KadTable KadClosest.

#[local] Opaque NUM_BUCKETS.

(** ** Counting the nodes between the local key and a target *)

(** The indices of an iterator up to the first zero. *)
Fixpoint nonzero_prefix (l : list nat) : list nat :=
  match l with
  | S i :: l => S i :: nonzero_prefix l
  | _ => []
  end.

Lemma take_while_nonzero_rest (fuel : nat) (it : ClosestBucketsIter) :
  length (nonzero_prefix (cbi_rest it)) ≤ fuel →
  take_while_nonzero fuel it = nonzero_prefix (cbi_rest it).
Proof.
  revert it. induction fuel as [|fuel IH]; intros it Hlen; simpl.
  { destruct (nonzero_prefix _); [done|simpl in *; lia]. }
  pose proof (ClosestBucketsIter_next_rest it) as Hn.
  destruct (cbi_rest it) as [|[|i] l]; destruct Hn as (it' & -> & Hr); simpl in *; [done..|].
  f_equal. rewrite <-Hr. apply IH. rewrite Hr. lia.
Qed.

Lemma nonzero_prefix_filter (p : nat → bool) (n : nat) (r : list nat) :
  nonzero_prefix (filter (λ j, p j = true) (reverse (seq 0 n)) ++ 0 :: r) =
  filter (λ j, j ≠ 0) (filter (λ j, p j = true) (reverse (seq 0 n))).
Proof.
  induction n as [|n IH]; [done|]. rewrite seq_S, reverse_snoc, filter_cons. cbn [Nat.add].
  case_decide; [|done]. rewrite filter_cons. destruct n as [|n]; [done|].
  cbn [app nonzero_prefix]. rewrite IH, decide_True by done. done.
Qed.

(** The bits that are set in a distance, from the highest down to bit 1. *)
Lemma nonzero_prefix_new (d : Distance) (s : nat) :
  (d < 2 ^ 256)%N → BucketIndex_new d = Some s →
  nonzero_prefix (cbi_rest (ClosestBucketsIter_new d)) =
  filter (λ j, j ≠ 0) (filter (λ j, U256_bit d j = true) (reverse (seq 0 (S s)))).
Proof.
  intros Hd Hs. destruct (BucketIndex_new_bit d s Hd Hs) as [Hbit _].
  rewrite <-(nonzero_prefix_filter _ _ (zoom_out d 0)).
  unfold cbi_rest, ClosestBucketsIter_new. rewrite Hs. simpl cbi_state.
  rewrite seq_S, reverse_snoc, filter_cons_True by done. done.
Qed.

(** Sums that only some indices contribute to. *)
Lemma sum_list_with_filter (c : nat → nat) (P : nat → Prop) `{HP : !∀ x, Decision (P x)} (l : list nat) :
  (∀ j, j ∈ l → ¬ P j → c j = 0) → sum_list_with c (filter P l) = sum_list_with c l.
Proof.
  induction l as [|j l IH]; intros Hc; [done|]. rewrite filter_cons.
  assert (sum_list_with c (filter P l) = sum_list_with c l) as IH'.
  { apply IH. intros k Hk. apply Hc. by right. }
  case_decide as Hj; simpl; [by rewrite IH'|]. rewrite IH', (Hc j); [done|by left|done].
Qed.

Lemma length_filter_mjoin {A} (P : A → Prop) `{HP : !∀ x, Decision (P x)} (ls : list (list A)) :
  length (filter P (mjoin ls)) = sum_list_with (λ l, length (filter P l)) ls.
Proof.
  induction ls as [|l ls IH]; [done|].
  change (mjoin (l :: ls)) with (l ++ mjoin ls). rewrite filter_app, length_app, IH. done.
Qed.

Section count.
Context {TKey TVal : Type} `{!AsRef TKey}.

(** The node lies between the local key and the target: it is closer to the
    target than the local key is, and closer to the local key than the target
    is (or at the same distance); the neighbour at distance 1 is left out. *)
Definition node_between (local target : KeyBytes) (n : Node TKey TVal) : Prop :=
  (KeyBytes_distance target (key_of n) < KeyBytes_distance target local)%N ∧
  (KeyBytes_distance local (key_of n) ≤ KeyBytes_distance local target)%N ∧
  KeyBytes_distance local (key_of n) ≠ 1%N.

#[export] Instance node_between_dec (local target : KeyBytes) (n : Node TKey TVal) :
  Decision (node_between local target n).
Proof. unfold node_between. apply _. Defined.

(** A node of the bucket [j] is between the local key and a target at distance
    [d] exactly when bit [j > 0] of [d] is set and the node is not beyond [d]. *)
Lemma node_between_bucket (local target : KeyBytes) (n : Node TKey TVal) (j : nat) :
  let d := KeyBytes_distance local target in
  BucketIndex_new (KeyBytes_distance local (key_of n)) = Some j →
  node_between local target n ↔
  U256_bit d j = true ∧ j ≠ 0 ∧ (KeyBytes_distance local (key_of n) ≤ d)%N.
Proof.
  intros d Hj. unfold node_between. fold d.
  pose proof (KeyBytes_distance_lt local (key_of n)) as He.
  rewrite (KeyBytes_distance_via target local (key_of n)), (KeyBytes_distance_comm target local).
  fold d. set (e := KeyBytes_distance local (key_of n)) in *.
  destruct (BucketIndex_new_bit e j He Hj) as [Hbit Habove].
  assert (∀ m : N, m = N.of_nat (N.to_nat m)) as Hm by lia.
  assert (∀ m, (N.of_nat j < m)%N → N.testbit (N.lxor d e) m = N.testbit d m) as Hsame.
  { intros m Hlt. rewrite N.lxor_spec, (Hm m). unfold U256_bit in *. rewrite Habove by lia.
    apply xorb_false_r. }
  assert (N.testbit (N.lxor d e) (N.of_nat j) = negb (U256_bit d j)) as Hflip.
  { rewrite N.lxor_spec. unfold U256_bit in *. rewrite Hbit. apply xorb_true_r. }
  assert ((N.lxor d e < d)%N ↔ U256_bit d j = true) as Hlt.
  { destruct (U256_bit d j) eqn:Ed; simpl in Hflip.
    - split; [done|]. intros _. by eapply N_lt_by_bit.
    - split; [|done]. intros Hlt. exfalso.
      assert (d < N.lxor d e)%N; [|lia]. eapply (N_lt_by_bit _ _ (N.of_nat j)); [|done..].
      intros m Hlt'. by rewrite Hsame. }
  assert (e = 1%N ↔ j = 0) as Hone.
  { apply Distance_ilog2_Some in Hj as [Hnz Hlog]; [|done]. split.
    - intros Hone. rewrite Hone in Hlog. simpl in Hlog. lia.
    - intros ->. apply N.log2_null in Hlog. lia. }
  rewrite Hlt, Hone. tauto.
Qed.

Lemma count_rest_sum (t : KBucketsTable TKey TVal) (as_ : list (ABucket TKey TVal)) (ixs : list nat) (s : nat) :
  table_rep t as_ → Forall (λ i, i < NUM_BUCKETS) ixs →
  foldl (λ acc i, s ← acc; b ← vec_index (buckets t) i; Ret (s + KBucket_num_entries b)) (Ret s) ixs
  = Ret (s + sum_list_with (λ i, length (default [] (a_nodes <$> as_ !! i))) ixs).
Proof.
  intros Ht. revert s. induction ixs as [|i ixs IH]; intros s Hix; simpl; [by rewrite Nat.add_0_r|].
  apply Forall_cons in Hix as [Hi Hix].
  destruct (table_rep_lookup t as_ i Ht Hi) as (a & Ha & -> & _). simpl.
  rewrite IH by done. rewrite Ha. simpl. unfold KBucket_num_entries. simpl. f_equal. lia.
Qed.

(** The nodes of a bucket that are between the local key and the target. *)
Definition between_count (target : KeyBytes) (t : KBucketsTable TKey TVal)
    (as_ : list (ABucket TKey TVal)) (i : nat) : nat :=
  length (filter (node_between (as_ref (local_key t)) target) (default [] (a_nodes <$> as_ !! i))).

Lemma between_count_sum (target : KeyBytes) (t : KBucketsTable TKey TVal) as_ :
  table_rep t as_ →
  length (filter (node_between (as_ref (local_key t)) target) (mjoin (nodes <$> buckets t))) =
  sum_list_with (between_count target t as_) (seq 0 NUM_BUCKETS).
Proof.
  intros Ht. rewrite length_filter_mjoin, (table_buckets _ _ Ht), <-(table_length _ _ Ht).
  unfold between_count. generalize (as_ref (local_key t)) as l. intros l. clear Ht.
  assert (∀ k, sum_list_with (λ i, length (filter (node_between l target)
      (default [] (a_nodes <$> (k ++ as_) !! i)))) (seq (length k) (length as_)) =
    sum_list_with (λ ns, length (filter (node_between l target) ns)) (nodes <$> (rep <$> as_))) as Hgen.
  { induction as_ as [|a as_ IH]; intros k; simpl; [done|]. specialize (IH (k ++ [a])).
    rewrite <-app_assoc, length_app in IH. simpl in IH. rewrite Nat.add_1_r in IH. rewrite IH.
    by rewrite list_lookup_middle. }
  symmetry. apply (Hgen []).
Qed.

Lemma between_count_bit (target : KeyBytes) (t : KBucketsTable TKey TVal) as_ (i : nat) :
  table_rep t as_ →
  let d := KeyBytes_distance (as_ref (local_key t)) target in
  (U256_bit d i = false ∨ i = 0 → between_count target t as_ i = 0) ∧
  (U256_bit d i = true → i ≠ 0 → (∃ s, i < s ∧ U256_bit d s = true) →
   between_count target t as_ i = length (default [] (a_nodes <$> as_ !! i))).
Proof.
  intros Ht d. unfold between_count. destruct (as_ !! i) as [a|] eqn:Ha; simpl; [|done].
  assert (∀ n, n ∈ a_nodes a →
    BucketIndex_new (KeyBytes_distance (as_ref (local_key t)) (key_of n)) = Some i) as Hn.
  { intros n Hn. apply (table_ok _ _ Ht i a Ha). unfold a_all. apply elem_of_app. by left. }
  split.
  - intros Hno. rewrite filter_none; [done|]. intros n Hin.
    rewrite (node_between_bucket _ _ _ i) by (by apply Hn). fold d.
    intros (Hb & Hi & _). destruct Hno; congruence.
  - intros Hbit Hnz (s & Hs & Hbs). rewrite filter_all; [done|]. intros n Hin.
    apply (node_between_bucket _ _ _ i); [by apply Hn|]. fold d. split_and!; [done..|].
    pose proof (KeyBytes_distance_lt (as_ref (local_key t)) (key_of n)) as Hlt.
    destruct (BucketIndex_new_bit _ i Hlt (Hn n Hin)) as [_ Habove].
    specialize (Hn n Hin). apply Distance_ilog2_Some in Hn as [Hnz' Hlog]; [|done].
    apply N.lt_le_incl. apply N.log2_lt_cancel. rewrite Hlog.
    destruct (N.le_gt_cases (N.of_nat s) (N.log2 d)) as [?|Hgt]; [lia|].
    apply N.bits_above_log2 in Hgt. unfold U256_bit in Hbs. congruence.
Qed.

Lemma count_first (target : KeyBytes) (t : KBucketsTable TKey TVal) as_ (i : nat) (a : ABucket TKey TVal) :
  table_rep t as_ → as_ !! i = Some a → i ≠ 0 →
  let d := KeyBytes_distance (as_ref (local_key t)) target in
  U256_bit d i = true →
  length (filter (λ '(n, _), KeyBytes_distance (as_ref (node_key n)) (local_key t) ≤ d)%N
            (KBucket_iter (rep a))) = between_count target t as_ i.
Proof.
  intros Ht Ha Hnz d Hbit. unfold between_count. rewrite Ha. simpl.
  assert (∀ n, n ∈ a_nodes a → node_between (as_ref (local_key t)) target n ↔
    (KeyBytes_distance (as_ref (node_key n)) (local_key t) ≤ d)%N) as Hn.
  { intros n Hn. rewrite (node_between_bucket _ _ _ i).
    - fold d. change (KeyBytes_distance (as_ref (node_key n)) (local_key t))
        with (KeyBytes_distance (key_of n) (as_ref (local_key t))).
      rewrite KeyBytes_distance_comm. tauto.
    - apply (table_ok _ _ Ht i a Ha). unfold a_all. apply elem_of_app. by left. }
  rewrite KBucket_iter_rep, filter_app, length_app. unfold a_nodes in *. rewrite filter_app, length_app.
  assert (∀ (st : NodeStatus) (l : list (Node TKey TVal)), (∀ n, n ∈ l → n ∈ disconnected_q a ++ connected_q a) →
    length (filter (λ '(n, _), KeyBytes_distance (as_ref (node_key n)) (local_key t) ≤ d)%N
      ((λ n, (n, st)) <$> l)) = length (filter (node_between (as_ref (local_key t)) target) l)) as Hl.
  { intros st l Hin. induction l as [|n l IH]; [done|]. rewrite fmap_cons, !filter_cons.
    assert (∀ m, m ∈ l → m ∈ disconnected_q a ++ connected_q a) as Hin' by (intros m Hm; apply Hin; by right).
    specialize (IH Hin'). specialize (Hn n (Hin n ltac:(by left))).
    do 2 case_decide; simpl in *; rewrite ?IH; try done; tauto. }
  f_equal; apply Hl; intros n Hin; apply elem_of_app; tauto.
Qed.

Lemma length_filter_le {A} (P : A → Prop) `{HP : !∀ x, Decision (P x)} (l : list A) :
  length (filter P l) ≤ length l.
Proof. induction l as [|x l IH]; [done|]. rewrite filter_cons. case_decide; simpl; lia. Qed.

Lemma sum_list_with_ext_in {A} (c c' : A → nat) (l : list A) :
  (∀ x, x ∈ l → c x = c' x) → sum_list_with c l = sum_list_with c' l.
Proof.
  induction l as [|x l IH]; intros H; simpl; [done|]. rewrite (H x), IH; [done| |by left].
  intros y Hy. apply H. by right.
Qed.

(** Only the set bits up to the highest one contribute. *)
Lemma between_sum_prefix (d : Distance) (s : nat) (c : nat → nat) :
  s < NUM_BUCKETS → (∀ j, s < j → U256_bit d j = false) →
  (∀ i, ¬ (U256_bit d i = true ∧ i ≠ 0) → c i = 0) →
  sum_list_with c (seq 0 NUM_BUCKETS) =
  sum_list_with c (filter (λ j, j ≠ 0) (filter (λ j, U256_bit d j = true) (reverse (seq 0 (S s))))).
Proof.
  intros Hs Habove Hc. rewrite sum_list_with_filter by (intros j _ Hj; apply Hc; tauto).
  rewrite sum_list_with_filter by (intros j _ Hj; apply Hc; tauto).
  rewrite sum_list_with_reverse. replace NUM_BUCKETS with (S s + (NUM_BUCKETS - S s)) by lia.
  rewrite seq_app, sum_list_with_app. rewrite <-(Nat.add_0_r (sum_list_with c (seq 0 (S s)))) at 2.
  f_equal. rewrite <-(sum_list_with_filter c (λ _, False)).
  - rewrite filter_none; [done|]. by intros x _ [].
  - intros j Hj%elem_of_seq _. apply Hc. rewrite Habove by lia. by intros [? _].
Qed.

(** [C13] [count_nodes_between] counts exactly the nodes of the table that lie
    between the local key and the target in the XOR metric, apart from a node
    at distance 1 of the local key. *)
Theorem count_nodes_between_spec (local : TKey) (t : KBucketsTable TKey TVal) (target : KeyBytes) :
  table_inv local t →
  KBucketsTable_count_nodes_between t target =
  Ret (length (filter (node_between (as_ref local) target) (mjoin (nodes <$> buckets t)))).
Proof.
  intros (as_ & Ht & <-). rewrite (between_count_sum target t as_ Ht).
  unfold KBucketsTable_count_nodes_between.
  change (KeyBytes_distance target (local_key t))
    with (KeyBytes_distance target (as_ref (local_key t))).
  rewrite (KeyBytes_distance_comm target). set (d := KeyBytes_distance (as_ref (local_key t)) target).
  pose proof (KeyBytes_distance_lt (as_ref (local_key t)) target) as Hd. fold d in Hd.
  assert (∀ i, ¬ (U256_bit d i = true ∧ i ≠ 0) → between_count target t as_ i = 0) as Hzero.
  { intros i Hno. apply (proj1 (between_count_bit target t as_ i Ht)). fold d.
    destruct (U256_bit d i), (decide (i = 0)); naive_solver. }
  destruct (BucketIndex_new d) as [s|] eqn:Es.
  - pose proof (BucketIndex_new_lt d s Hd Es) as Hs.
    destruct (BucketIndex_new_bit d s Hd Es) as [Hbit Habove].
    rewrite (between_sum_prefix d s _ Hs Habove Hzero).
    pose proof (nonzero_prefix_new d s Hd Es) as Hnz.
    rewrite take_while_nonzero_rest, Hnz.
    2:{ rewrite Hnz. rewrite !length_filter_le, length_reverse, length_seq. lia. }
    destruct s as [|s].
    { change (reverse (seq 0 1)) with [0]. rewrite filter_cons_True, filter_cons_False by naive_solver.
      done. }
    rewrite seq_S, reverse_snoc. change (0 + S s) with (S s). rewrite filter_cons_True, filter_cons_True by done.
    set (rest := filter (λ j, j ≠ 0) _).
    assert (∀ j, j ∈ rest → U256_bit d j = true ∧ j ≠ 0 ∧ j < S s) as Hrest.
    { intros j [? [? Hin%elem_of_reverse%elem_of_seq]%list_elem_of_filter]%list_elem_of_filter.
      split_and!; [done..|lia]. }
    destruct (table_rep_lookup t as_ (S s) Ht Hs) as (a & Ha & -> & _). simpl.
    rewrite (count_rest_sum t as_ rest 0 Ht).
    2:{ apply Forall_forall. intros j Hj. specialize (Hrest j Hj). lia. }
    simpl. pose proof (count_first target t as_ (S s) a Ht Ha ltac:(done) Hbit) as Hfirst.
    fold d in Hfirst. rewrite Hfirst. do 2 f_equal.
    apply sum_list_with_ext_in. intros j Hj. destruct (Hrest j Hj) as (? & ? & ?).
    symmetry. apply (proj2 (between_count_bit target t as_ j Ht)); [done..|]. by exists (S s).
  - apply Distance_ilog2_None in Es; [|done]. rewrite Es in *. rewrite take_while_nonzero_rest by (simpl; lia).
    simpl. f_equal. rewrite <-(sum_list_with_filter _ (λ _, False)).
    + rewrite filter_none; [done|]. by intros x _ [].
    + intros j _ _. apply Hzero. unfold U256_bit. rewrite N.bits_0. naive_solver.
Qed.
End count.

Lemma count_nodes_between_spec_witness :
  KBucketsTable_count_nodes_between sample_table (U256_to_bytes 7) = Ret 0.
Proof.
  rewrite (count_nodes_between_spec (U256_to_bytes 0) sample_table (U256_to_bytes 7)).
  - vm_compute. reflexivity.
  - apply sample_table_inv.
Defined.
