(* ===== verification/BTreeMap.v ===== *)
(** * Ordered maps

    [std::collections::BTreeMap] with unsigned integer keys, as an association
    list in strictly increasing order of keys: iteration ([keys], [values],
    [values_mut], [into_iter]) is the order of the list.  Used by the
    Kademlia peer iterators, whose keys are distances. *)

From stdpp Require Import prelude.
From S2P Require Import Prelude.

Local Open Scope N_scope.

Section btree_map.
Context {A : Type}.
Implicit Types m : list (N * A).

(** Strictly increasing keys. *)
Definition bt_wf (m : list (N * A)) : Prop := StronglySorted N.lt (m.*1).

(** [BTreeMap::get]. *)
Fixpoint bt_get (k : N) (m : list (N * A)) : option A :=
  match m with
  | [] => None
  | (k', v) :: m => if k =? k' then Some v else if k <? k' then None else bt_get k m
  end.

(** [BTreeMap::insert]: a value already present under the key is replaced. *)
Fixpoint bt_insert (k : N) (v : A) (m : list (N * A)) : list (N * A) :=
  match m with
  | [] => [(k, v)]
  | (k', v') :: m' =>
      if k =? k' then (k, v) :: m'
      else if k <? k' then (k, v) :: m else (k', v') :: bt_insert k v m'
  end.

(** [entry(k).or_insert(v)]: a value already present under the key is kept. *)
Definition bt_or_insert (k : N) (v : A) (m : list (N * A)) : list (N * A) :=
  match bt_get k m with Some _ => m | None => bt_insert k v m end.

(** [BTreeMap::from_iter]: of two pairs with the same key the last one stays. *)
Definition bt_from_iter (l : list (N * A)) : list (N * A) :=
  foldl (λ m '(k, v), bt_insert k v m) [] l.

Lemma bt_wf_cons (k : N) (v : A) m :
  bt_wf ((k, v) :: m) ↔ bt_wf m ∧ (∀ k' v', (k', v') ∈ m → k < k').
Proof.
  unfold bt_wf. cbn [fmap list_fmap fst]. rewrite StronglySorted_cons, Forall_forall.
  split; [intros [H2 H1]; split; [done|]|intros [H1 H2]; split; [|done]].
  - intros k' v' Hin. apply H2. by apply (list_elem_of_fmap_2 fst _ (k', v')).
  - intros x ([x' v'] & -> & Hin)%list_elem_of_fmap. eauto.
Qed.

Lemma bt_wf_NoDup m : bt_wf m → NoDup (m.*1).
Proof.
  unfold bt_wf. induction 1 as [|k l Hl IH Hk]; constructor; [|done].
  rewrite Forall_forall in Hk. intros Hin%Hk. lia.
Qed.

Lemma bt_insert_elem (k : N) (v : A) m (k' : N) (v' : A) :
  bt_wf m →
  (k', v') ∈ bt_insert k v m ↔ (k' = k ∧ v' = v) ∨ (k' ≠ k ∧ (k', v') ∈ m).
Proof.
  induction m as [|[k1 v1] m IH]; cbn [bt_insert]; intros Hwf.
  { rewrite list_elem_of_singleton. set_solver. }
  apply bt_wf_cons in Hwf as [Hwf Hlt]. specialize (IH Hwf).
  destruct (N.eqb_spec k k1) as [<-|Hne]; [|destruct (N.ltb_spec k k1)].
  - rewrite !elem_of_cons. split; [|naive_solver].
    intros [?|Hin]; [naive_solver|]. right. specialize (Hlt _ _ Hin). split; [lia|by right].
  - rewrite !elem_of_cons. split; [|naive_solver].
    intros [?|[?|Hin]]; [naive_solver| |].
    + simplify_eq. right. split; [done|by left].
    + right. specialize (Hlt _ _ Hin). split; [lia|by right].
  - rewrite !elem_of_cons, IH. split; naive_solver.
Qed.

Lemma bt_insert_wf (k : N) (v : A) m : bt_wf m → bt_wf (bt_insert k v m).
Proof.
  induction m as [|[k1 v1] m IH]; cbn [bt_insert]; intros Hwf.
  { repeat constructor. }
  pose proof Hwf as [Hwf' Hlt]%bt_wf_cons. specialize (IH Hwf').
  destruct (N.eqb_spec k k1) as [<-|Hne]; [|destruct (N.ltb_spec k k1)].
  - by apply bt_wf_cons.
  - apply bt_wf_cons. split; [done|]. intros k' v' [?|Hin]%elem_of_cons; [by simplify_eq|].
    specialize (Hlt _ _ Hin). lia.
  - apply bt_wf_cons. split; [done|]. intros k' v'. rewrite bt_insert_elem by done.
    intros [[-> ->]|[? Hin]]; [lia|]. by eapply Hlt.
Qed.

Lemma bt_get_Some (k : N) (v : A) m : bt_wf m → bt_get k m = Some v ↔ (k, v) ∈ m.
Proof.
  induction m as [|[k1 v1] m IH]; cbn [bt_get]; intros Hwf.
  { split; [done|]. by intros ?%elem_of_nil. }
  apply bt_wf_cons in Hwf as [Hwf Hlt]. specialize (IH Hwf). rewrite elem_of_cons.
  destruct (N.eqb_spec k k1) as [<-|Hne]; [|destruct (N.ltb_spec k k1)].
  - split; [intros [= <-]; by left|]. intros [?|Hin]; [by simplify_eq|].
    specialize (Hlt _ _ Hin). lia.
  - split; [done|]. intros [?|Hin]; [by simplify_eq|]. specialize (Hlt _ _ Hin). lia.
  - rewrite IH. split; [by right|]. intros [?|?]; [by simplify_eq|done].
Qed.

Lemma bt_get_None (k : N) m : bt_wf m → bt_get k m = None ↔ ∀ v, (k, v) ∉ m.
Proof.
  intros Hwf. rewrite eq_None_not_Some. split.
  - intros Hn v Hin. apply Hn. exists v. by apply bt_get_Some.
  - intros Hn [v Hv]. apply (Hn v). by apply bt_get_Some.
Qed.

Lemma bt_elem_unique (k : N) (v v' : A) m : bt_wf m → (k, v) ∈ m → (k, v') ∈ m → v = v'.
Proof. intros Hwf. rewrite <-!bt_get_Some by done. congruence. Qed.

Lemma bt_or_insert_wf (k : N) (v : A) m : bt_wf m → bt_wf (bt_or_insert k v m).
Proof. unfold bt_or_insert. destruct (bt_get k m); [done|]. apply bt_insert_wf. Qed.

Lemma bt_or_insert_elem (k : N) (v : A) m (k' : N) (v' : A) :
  bt_wf m →
  (k', v') ∈ bt_or_insert k v m ↔
  (k', v') ∈ m ∨ (k' = k ∧ v' = v ∧ bt_get k m = None).
Proof.
  intros Hwf. unfold bt_or_insert. destruct (bt_get k m) as [w|] eqn:E; [naive_solver|].
  rewrite bt_insert_elem by done. rewrite bt_get_None in E by done.
  split; [naive_solver|]. intros [Hin|]; [|naive_solver]. right. split; [|done].
  intros ->. by apply (E v').
Qed.

Lemma bt_from_iter_wf (l : list (N * A)) : bt_wf (bt_from_iter l).
Proof.
  unfold bt_from_iter. assert (bt_wf []) as H by constructor. revert H.
  generalize (@nil (N * A)). induction l as [|[k v] l IH]; intros m Hm; simpl; [done|].
  apply IH. by apply bt_insert_wf.
Qed.

Lemma bt_from_iter_elem (l : list (N * A)) (k : N) (v : A) :
  (k, v) ∈ bt_from_iter l → (k, v) ∈ l.
Proof.
  unfold bt_from_iter. assert (bt_wf []) as H by constructor. revert H.
  enough (∀ m, bt_wf m → (k, v) ∈ foldl (λ m '(k, v), bt_insert k v m) m l → (k, v) ∈ m ++ l).
  { intros Hwf Hin. apply (H [] Hwf) in Hin. done. }
  induction l as [|[k1 v1] l IH]; intros m Hm; simpl; [by rewrite app_nil_r|].
  intros Hin%IH; [|by apply bt_insert_wf]. rewrite elem_of_app, bt_insert_elem in Hin by done.
  set_solver.
Qed.

Lemma bt_from_iter_mem (l : list (N * A)) (k : N) (v : A) :
  (k, v) ∈ l → ∃ v', (k, v') ∈ bt_from_iter l.
Proof.
  unfold bt_from_iter. assert (bt_wf []) as H by constructor. revert H.
  enough (∀ m, bt_wf m → (k, v) ∈ l ∨ (∃ w, (k, w) ∈ m) →
            ∃ v', (k, v') ∈ foldl (λ m '(k, v), bt_insert k v m) m l) by eauto.
  induction l as [|[k1 v1] l IH]; intros m Hm; cbn [foldl].
  { by intros [?%elem_of_nil|?]. }
  intros Hin. apply IH; [by apply bt_insert_wf|].
  destruct (decide (k = k1)) as [->|Hne].
  { right. exists v1. apply bt_insert_elem; [done|by left]. }
  destruct Hin as [[?|?]%elem_of_cons|[w Hw]]; [by simplify_eq|by left|].
  right. exists w. apply bt_insert_elem; [done|by right].
Qed.

Lemma bt_insert_new (k : N) (v : A) m : bt_get k m = None → bt_insert k v m ≡ₚ (k, v) :: m.
Proof.
  induction m as [|[k1 v1] m IH]; cbn [bt_get bt_insert]; [done|].
  destruct (k =? k1); [done|]. destruct (k <? k1); [done|]. intros Hn.
  rewrite IH by done. apply Permutation_swap.
Qed.

Lemma bt_insert_replace (k : N) (v w : A) m :
  bt_get k m = Some w → ∃ m1 m2, m = m1 ++ (k, w) :: m2 ∧ bt_insert k v m = m1 ++ (k, v) :: m2.
Proof.
  induction m as [|[k1 v1] m IH]; cbn [bt_get bt_insert]; [done|].
  destruct (N.eqb_spec k k1) as [<-|]; [intros [= ->]; by exists [], m|].
  destruct (k <? k1); [done|]. intros (m1 & m2 & -> & ->)%IH. by exists ((k1, v1) :: m1), m2.
Qed.

Lemma bt_first_least (k : N) (v : A) m k' v' :
  bt_wf ((k, v) :: m) → (k', v') ∈ (k, v) :: m → k ≤ k'.
Proof.
  intros [_ Hlt]%bt_wf_cons [?|Hin]%elem_of_cons; [simplify_eq; lia|].
  specialize (Hlt _ _ Hin). lia.
Qed.
End btree_map.

#[export] Hint Resolve bt_insert_wf bt_or_insert_wf bt_from_iter_wf : libp2p.
