(* ===== verification/KadPeers.v ===== *)
(** * The iterator over the closest peers of a Kademlia lookup

    [protocols/kad/src/query/peers.rs] and
    [protocols/kad/src/query/peers/closest.rs].  The iterator is a state
    machine driven by its caller: [next] decides whom to contact,
    [on_success] and [on_failure] deliver results.  Peer ids are a parameter
    with decidable equality, and so is the conversion of a peer id to the
    bytes that are hashed; [now] arguments are the instants the caller passes,
    [NonZeroUsize] is [positive]. *)

From stdpp Require Import prelude.
From S2P Require Import Prelude KadKey BTreeMap KadBucket.

(** ** Data *)

(** [PeersIterState]. *)
Inductive PeersIterState (PeerId : Type) : Type :=
| IterWaiting (peer : option PeerId)
| IterWaitingAtCapacity
| IterFinished.
Arguments IterWaiting {PeerId} peer.
Arguments IterWaitingAtCapacity {PeerId}.
Arguments IterFinished {PeerId}.

Record ClosestPeersIterConfig : Type := mkClosestPeersIterConfig {
  parallelism : positive;
  num_results : positive;
  peer_timeout : N
}.

Definition ALPHA_VALUE : positive := 3.

(** [K_VALUE] as the [NonZeroUsize] it is, and the timeout in milliseconds. *)
Definition ClosestPeersIterConfig_default : ClosestPeersIterConfig :=
  mkClosestPeersIterConfig ALPHA_VALUE (Pos.of_nat K_VALUE) 10000.

Inductive IterState : Type :=
| Iterating (no_progress : nat)
| Stalled
| Finished.

Inductive PeerState : Type :=
| NotContacted
| Waiting (timeout : N)
| Unresponsive
| Failed
| Succeeded.

#[export] Instance IterState_eq_dec : EqDecision IterState.
Proof. solve_decision. Defined.
#[export] Instance PeerState_eq_dec : EqDecision PeerState.
Proof. solve_decision. Defined.

Section closest_peers_iter.
Context {PeerId : Type} `{!EqDecision PeerId}.
Context (sha256 : list byte → KeyBytes) (to_bytes : PeerId → list byte).

(** [From<PeerId> for Key<PeerId>]. *)
Definition Key_from_PeerId (p : PeerId) : Key PeerId := mkKey p (sha256 (to_bytes p)).

Record Peer : Type := mkPeer { peer_key : Key PeerId; peer_state : PeerState }.

Record ClosestPeersIter : Type := mkClosestPeersIter {
  cpi_config : ClosestPeersIterConfig;
  cpi_target : KeyBytes;
  cpi_state : IterState;
  cpi_closest_peers : list (Distance * Peer);
  cpi_num_waiting : nat
}.

Implicit Types it : ClosestPeersIter.

Definition set_state (st : IterState) (it : ClosestPeersIter) : ClosestPeersIter :=
  mkClosestPeersIter (cpi_config it) (cpi_target it) st (cpi_closest_peers it) (cpi_num_waiting it).
Definition set_peers (ps : list (Distance * Peer)) (nw : nat) (it : ClosestPeersIter)
  : ClosestPeersIter :=
  mkClosestPeersIter (cpi_config it) (cpi_target it) (cpi_state it) ps nw.

(** ** Operations *)

Definition ClosestPeersIter_with_config (config : ClosestPeersIterConfig) (target : KeyBytes)
    (known_closest_peers : list (Key PeerId)) : ClosestPeersIter :=
  let closest_peers :=
    bt_from_iter (take K_VALUE
      ((λ key, (Key_distance key target, mkPeer key NotContacted)) <$> known_closest_peers)) in
  mkClosestPeersIter config target (Iterating 0) closest_peers 0.

Definition ClosestPeersIter_new (target : KeyBytes) (known_closest_peers : list (Key PeerId))
  : ClosestPeersIter :=
  ClosestPeersIter_with_config ClosestPeersIterConfig_default target known_closest_peers.

(** The entry of a peer that delivers a result: [None] if no result is
    expected of it, otherwise the number of peers still waited for. *)
Definition result_entry (it : ClosestPeersIter) (distance : Distance) : option (Peer * outcome nat) :=
  match bt_get distance (cpi_closest_peers it) with
  | None => None
  | Some e =>
      match peer_state e with
      | Waiting _ => Some (e, usize_sub (cpi_num_waiting it) 1)
      | Unresponsive => Some (e, Ret (cpi_num_waiting it))
      | NotContacted | Failed | Succeeded => None
      end
  end.

(** One iteration of the loop of [on_success] over the reported peers. *)
Definition add_closer (target : KeyBytes) (enough : bool)
    (acc : list (Distance * Peer) * bool) (peer : PeerId) : list (Distance * Peer) * bool :=
  let key := Key_from_PeerId peer in
  let distance := KeyBytes_distance target key in
  let ps := bt_or_insert distance (mkPeer key NotContacted) acc.1 in
  (ps, bool_decide (head ps.*1 = Some distance) || negb enough).

Definition next_state (config : ClosestPeersIterConfig) (progress : bool) (st : IterState) : IterState :=
  match st with
  | Iterating no_progress =>
      let no_progress := if progress then 0 else no_progress + 1 in
      if decide (Pos.to_nat (parallelism config) ≤ no_progress) then Stalled
      else Iterating no_progress
  | Stalled => if progress then Iterating 0 else Stalled
  | Finished => Finished
  end.

Definition ClosestPeersIter_on_success (it : ClosestPeersIter) (peer : PeerId)
    (closer_peers : list PeerId) : outcome (bool * ClosestPeersIter) :=
  match cpi_state it with
  | Finished => Ret (false, it)
  | _ =>
      let distance := Key_distance (Key_from_PeerId peer) (cpi_target it) in
      match result_entry it distance with
      | None => Ret (false, it)
      | Some (e, nw) =>
          nw ← nw;
          let ps := bt_insert distance (mkPeer (peer_key e) Succeeded) (cpi_closest_peers it) in
          let num_closest := length ps in
          let enough := bool_decide (Pos.to_nat (num_results (cpi_config it)) ≤ num_closest) in
          let '(ps, progress) := foldl (add_closer (cpi_target it) enough) (ps, false) closer_peers in
          Ret (true, set_state (next_state (cpi_config it) progress (cpi_state it))
                       (set_peers ps nw it))
      end
  end.

Definition ClosestPeersIter_on_failure (it : ClosestPeersIter) (peer : PeerId)
  : outcome (bool * ClosestPeersIter) :=
  match cpi_state it with
  | Finished => Ret (false, it)
  | _ =>
      let distance := Key_distance (Key_from_PeerId peer) (cpi_target it) in
      match result_entry it distance with
      | None => Ret (false, it)
      | Some (e, nw) =>
          nw ← nw;
          Ret (true, set_peers (bt_insert distance (mkPeer (peer_key e) Failed)
                                  (cpi_closest_peers it)) nw it)
      end
  end.

Definition is_waiting_state (st : PeerState) : bool :=
  match st with Waiting _ => true | _ => false end.

Definition ClosestPeersIter_waiting (it : ClosestPeersIter) : list PeerId :=
  omap (λ p, if is_waiting_state (peer_state p) then Some (key_preimage (peer_key p)) else None)
       (cpi_closest_peers it).*2.

Definition ClosestPeersIter_num_waiting (it : ClosestPeersIter) : nat := cpi_num_waiting it.

Definition ClosestPeersIter_is_waiting (it : ClosestPeersIter) (peer : PeerId) : bool :=
  bool_decide (peer ∈ ClosestPeersIter_waiting it).

Definition ClosestPeersIter_at_capacity (it : ClosestPeersIter) : bool :=
  match cpi_state it with
  | Stalled =>
      bool_decide (Pos.to_nat (num_results (cpi_config it)) `max`
                   Pos.to_nat (parallelism (cpi_config it)) ≤ cpi_num_waiting it)
  | Iterating _ => bool_decide (Pos.to_nat (parallelism (cpi_config it)) ≤ cpi_num_waiting it)
  | Finished => true
  end.

(** The loop of [next] over the peers in order of distance.  The result is
    the changed peers, the number of peers waited for and, if the loop
    returned early, the state it returned ([IterFinished] also sets the state
    of the iterator). *)
Fixpoint next_loop (config : ClosestPeersIterConfig) (now : N) (at_capacity : bool)
    (ps : list (Distance * Peer)) (nw : nat) (result_counter : option nat)
  : outcome (list (Distance * Peer) * nat * option (PeersIterState PeerId)) :=
  match ps with
  | [] => Ret ([], nw, None)
  | (d, p) :: rest =>
      let continue p nw rc :=
        '(rest, nw, r) ← next_loop config now at_capacity rest nw rc;
        Ret ((d, p) :: rest, nw, r) in
      match peer_state p with
      | Waiting timeout =>
          if decide (timeout ≤ now)%N then
            nw ← usize_sub nw 1;
            continue (mkPeer (peer_key p) Unresponsive) nw result_counter
          else if at_capacity then Ret (ps, nw, Some IterWaitingAtCapacity)
          else continue p nw None
      | Succeeded =>
          match result_counter with
          | Some cnt =>
              if decide (Pos.to_nat (num_results config) ≤ cnt + 1)
              then Ret (ps, nw, Some IterFinished)
              else continue p nw (Some (cnt + 1))
          | None => continue p nw None
          end
      | NotContacted =>
          if at_capacity then Ret (ps, nw, Some IterWaitingAtCapacity)
          else Ret ((d, mkPeer (peer_key p) (Waiting (now + peer_timeout config)%N)) :: rest,
                    nw + 1, Some (IterWaiting (Some (key_preimage (peer_key p)))))
      | Unresponsive | Failed => continue p nw result_counter
      end
  end.

Definition ClosestPeersIter_next (it : ClosestPeersIter) (now : N)
  : outcome (PeersIterState PeerId * ClosestPeersIter) :=
  match cpi_state it with
  | Finished => Ret (IterFinished, it)
  | _ =>
      '(ps, nw, r) ← next_loop (cpi_config it) now (ClosestPeersIter_at_capacity it)
                       (cpi_closest_peers it) (cpi_num_waiting it) (Some 0);
      let it' := set_peers ps nw it in
      match r with
      | Some IterFinished => Ret (IterFinished, set_state Finished it')
      | Some r => Ret (r, it')
      | None => if decide (0 < nw) then Ret (IterWaiting None, it')
                else Ret (IterFinished, set_state Finished it')
      end
  end.

Definition ClosestPeersIter_finish (it : ClosestPeersIter) : ClosestPeersIter := set_state Finished it.

Definition ClosestPeersIter_is_finished (it : ClosestPeersIter) : bool :=
  bool_decide (cpi_state it = Finished).

Definition ClosestPeersIter_into_result (it : ClosestPeersIter) : list PeerId :=
  take (Pos.to_nat (num_results (cpi_config it)))
    (omap (λ '(_, p), match peer_state p with
                      | Succeeded => Some (key_preimage (peer_key p))
                      | _ => None
                      end) (cpi_closest_peers it)).

(** ** The states of a peer

    What may happen to a single peer; it is contacted at most once, and a
    result is accepted at most once. *)
Inductive PeerState_step : PeerState → PeerState → Prop :=
| step_contacted t : PeerState_step NotContacted (Waiting t)
| step_timeout t : PeerState_step (Waiting t) Unresponsive
| step_succeeded t : PeerState_step (Waiting t) Succeeded
| step_failed t : PeerState_step (Waiting t) Failed
| step_late_success : PeerState_step Unresponsive Succeeded
| step_late_failure : PeerState_step Unresponsive Failed.

Definition PeerState_step01 (s s' : PeerState) : Prop := s' = s ∨ PeerState_step s s'.

(** The peers of [ps] are all still there in [ps'], under the same key and at
    most one step further; peers of [ps'] that are not in [ps] have not been
    contacted. *)
Definition peers_evolve (ps ps' : list (Distance * Peer)) : Prop :=
  (∀ d p, (d, p) ∈ ps → ∃ p', (d, p') ∈ ps' ∧ peer_key p' = peer_key p ∧
     PeerState_step01 (peer_state p) (peer_state p')) ∧
  (∀ d p', (d, p') ∈ ps' → (∃ p, (d, p) ∈ ps) ∨ peer_state p' = NotContacted).

Definition expire_peer (now : N) (p : Peer) : Peer :=
  match peer_state p with
  | Waiting t => if decide (t ≤ now)%N then mkPeer (peer_key p) Unresponsive else p
  | _ => p
  end.

(** Peers that have not answered yet but still may: not contacted or waited for. *)
Definition is_active (st : PeerState) : bool :=
  match st with NotContacted | Waiting _ => true | _ => false end.

Definition waiting_count (ps : list (Distance * Peer)) : nat :=
  length (filter (λ e, is_waiting_state (peer_state e.2) = true) ps).
Definition succeeded_count (ps : list (Distance * Peer)) : nat :=
  length (filter (λ e, peer_state e.2 = Succeeded) ps).

(** How [next_loop] splits the peers: a prefix is passed over (timed out peers
    becoming unresponsive), and the first peer after it, if any, determines the
    result. *)
Definition next_loop_post (config : ClosestPeersIterConfig) (now : N) (at_cap : bool)
    (rc : option nat) (l1 l2 l2' : list (Distance * Peer)) (r : option (PeersIterState PeerId)) : Prop :=
  match r with
  | None => l2 = [] ∧ l2' = [] ∧
      (at_cap = true → Forall (λ e, is_active (peer_state (expire_peer now e.2)) = false) l1)
  | Some (IterWaiting q) => at_cap = false ∧ ∃ d p rest,
      l2 = (d, p) :: rest ∧ peer_state p = NotContacted ∧ q = Some (key_preimage (peer_key p)) ∧
      l2' = (d, mkPeer (peer_key p) (Waiting (now + peer_timeout config)%N)) :: rest
  | Some IterWaitingAtCapacity => at_cap = true ∧ l2' = l2 ∧
      Forall (λ e, is_active (peer_state (expire_peer now e.2)) = false) l1 ∧
      ∃ d p rest, l2 = (d, p) :: rest ∧ is_active (peer_state (expire_peer now p)) = true
  | Some IterFinished => l2' = l2 ∧
      Forall (λ e, is_active (peer_state (expire_peer now e.2)) = false) l1 ∧
      ∃ d p rest cnt, l2 = (d, p) :: rest ∧ peer_state p = Succeeded ∧ rc = Some cnt ∧
        Pos.to_nat (num_results config) ≤ cnt + succeeded_count l1 + 1
  end.

Definition expire (now : N) (ps : list (Distance * Peer)) : list (Distance * Peer) :=
  prod_map id (expire_peer now) <$> ps.

Lemma waiting_count_cons d p ps :
  waiting_count ((d, p) :: ps) =
  (if is_waiting_state (peer_state p) then 1 else 0) + waiting_count ps.
Proof. unfold waiting_count. rewrite filter_cons. simpl. by destruct (is_waiting_state _). Qed.

Lemma waiting_count_app ps1 ps2 :
  waiting_count (ps1 ++ ps2) = waiting_count ps1 + waiting_count ps2.
Proof. unfold waiting_count. by rewrite filter_app, length_app. Qed.

Lemma succeeded_count_cons d p ps :
  succeeded_count ((d, p) :: ps) =
  (if decide (peer_state p = Succeeded) then 1 else 0) + succeeded_count ps.
Proof. unfold succeeded_count. rewrite filter_cons. simpl. by case_decide. Qed.

(** The specification of [next_loop]: it never underflows the number of peers
    waited for, and returns what [next_loop_post] says. *)
Definition next_loop_ok (config : ClosestPeersIterConfig) (now : N) (at_cap : bool)
    (ps : list (Distance * Peer)) (nw : nat) (rc : option nat)
    (res : outcome (list (Distance * Peer) * nat * option (PeersIterState PeerId))) : Prop :=
  ∃ l1 l2 l2' nw' r, ps = l1 ++ l2 ∧
    res = Ret (expire now l1 ++ l2', nw', r) ∧
    nw' + waiting_count ps = nw + waiting_count (expire now l1 ++ l2') ∧
    Forall (λ e, peer_state e.2 ≠ NotContacted) l1 ∧
    next_loop_post config now at_cap rc l1 l2 l2' r.

Lemma next_loop_ok_stop config now at_cap ps ps' nw nw' rc r :
  nw' + waiting_count ps = nw + waiting_count ps' →
  next_loop_post config now at_cap rc [] ps ps' r →
  next_loop_ok config now at_cap ps nw rc (Ret (ps', nw', r)).
Proof. intros Hnw Hpost. exists [], ps, ps', nw', r. by split_and!. Qed.

Lemma next_loop_ok_cons config now at_cap d p ps nw nw0 rc rc0 res :
  peer_state p ≠ NotContacted →
  nw0 + (if is_waiting_state (peer_state p) then 1 else 0) =
    nw + (if is_waiting_state (peer_state (expire_peer now p)) then 1 else 0) →
  (is_active (peer_state (expire_peer now p)) = true → at_cap = false ∧ rc0 = None) →
  (∀ c0, rc0 = Some c0 →
     ∃ c, rc = Some c ∧ c0 = c + (if decide (peer_state p = Succeeded) then 1 else 0)) →
  next_loop_ok config now at_cap ps nw0 rc0 res →
  next_loop_ok config now at_cap ((d, p) :: ps) nw rc
    ('(rest, nw, r) ← res; Ret ((d, expire_peer now p) :: rest, nw, r)).
Proof.
  intros Hnc Hnw Hact Hrc (l1 & l2 & l2' & nw' & r & -> & -> & Hcount & Hl1 & Hpost).
  exists ((d, p) :: l1), l2, l2', nw', r. simpl. split_and!; [done..| |by constructor|].
  { rewrite !waiting_count_cons. lia. }
  assert (rc0 ≠ None ∨ at_cap = true → is_active (peer_state (expire_peer now p)) = false) as Hna.
  { intros Ho. apply not_true_is_false. intros [-> ->]%Hact. naive_solver. }
  destruct r as [[q| |]|]; simpl in *; [done| | |].
  - destruct Hpost as (-> & -> & Hf & He). split_and!; try done. constructor; [apply Hna; by right|done].
  - destruct Hpost as (-> & Hf & d1 & p1 & rest & cnt & -> & Hs & -> & Hc).
    split_and!; [done|constructor; [apply Hna; by left|done]|].
    destruct (Hrc cnt eq_refl) as (c & -> & ->). exists d1, p1, rest, c.
    split_and!; try done. rewrite succeeded_count_cons. lia.
  - destruct Hpost as (-> & -> & Hf). split_and!; try done. intros Hcap.
    constructor; [apply Hna; by right|by apply Hf].
Qed.

Lemma next_loop_ok_same config now at_cap d p ps nw rc rc0 res :
  is_active (peer_state p) = false →
  (∀ c0, rc0 = Some c0 →
     ∃ c, rc = Some c ∧ c0 = c + (if decide (peer_state p = Succeeded) then 1 else 0)) →
  next_loop_ok config now at_cap ps nw rc0 res →
  next_loop_ok config now at_cap ((d, p) :: ps) nw rc
    ('(rest, nw, r) ← res; Ret ((d, p) :: rest, nw, r)).
Proof.
  intros Hna Hrc Hok. assert (expire_peer now p = p) as He.
  { unfold expire_peer. by destruct (peer_state p). }
  pose proof (next_loop_ok_cons config now at_cap d p ps nw nw rc rc0 res) as Hc.
  rewrite He in Hc. apply Hc; try done; [by intros Hp; rewrite Hp in Hna|by rewrite Hna].
Qed.

Lemma next_loop_spec config now at_cap ps nw rc :
  waiting_count ps ≤ nw →
  next_loop_ok config now at_cap ps nw rc (next_loop config now at_cap ps nw rc).
Proof.
  revert nw rc. induction ps as [|[d p] ps IH]; intros nw rc Hw.
  { by apply next_loop_ok_stop. }
  rewrite waiting_count_cons in Hw. cbn [next_loop].
  destruct (peer_state p) as [|t| | |] eqn:Hp; simpl in Hw.
  - destruct at_cap; apply next_loop_ok_stop; simpl.
    + done.
    + split_and!; [done..|]. exists d, p, ps. unfold expire_peer. by rewrite !Hp.
    + rewrite !waiting_count_cons, Hp. simpl. lia.
    + split; [done|]. by exists d, p, ps.
  - destruct (decide (t ≤ now)%N) as [Ht|Ht].
    + rewrite usize_sub_le by lia. cbn [mbind outcome_bind].
      assert (expire_peer now p = mkPeer (peer_key p) Unresponsive) as He.
      { unfold expire_peer. rewrite Hp. by rewrite decide_True. }
      rewrite <-He. apply (next_loop_ok_cons _ _ _ _ _ _ _ (nw - 1) _ rc).
      * by rewrite Hp.
      * rewrite He, Hp. simpl. lia.
      * by rewrite He.
      * intros c ->. exists c. rewrite Hp. split; [done|]. simpl. lia.
      * apply IH. lia.
    + assert (expire_peer now p = p) as He.
      { unfold expire_peer. rewrite Hp. by rewrite decide_False. }
      destruct at_cap.
      * apply next_loop_ok_stop; [done|]. simpl. split_and!; [done..|].
        exists d, p, ps. split; [done|]. by rewrite He, Hp.
      * pose proof (next_loop_ok_cons config now false d p ps nw nw rc None) as Hc.
        rewrite He in Hc. apply Hc; [by rewrite Hp|done..|]. apply IH. lia.
  - apply (next_loop_ok_same _ _ _ _ _ _ _ _ rc); [by rewrite Hp| |by apply IH].
    intros c ->. exists c. by rewrite Hp, Nat.add_0_r.
  - apply (next_loop_ok_same _ _ _ _ _ _ _ _ rc); [by rewrite Hp| |by apply IH].
    intros c ->. exists c. by rewrite Hp, Nat.add_0_r.
  - destruct rc as [c|]; [case_decide|].
    + apply next_loop_ok_stop; [done|]. simpl. split_and!; [done..|].
      exists d, p, ps, c. split_and!; try done. change (succeeded_count []) with 0. lia.
    + apply (next_loop_ok_same _ _ _ _ _ _ _ _ (Some (c + 1))); [by rewrite Hp| |by apply IH].
      intros c' [= <-]. exists c. by rewrite decide_True.
    + by apply (next_loop_ok_same _ _ _ _ _ _ _ _ None); [rewrite Hp| |apply IH].
Qed.

(** ** The invariant of the iterator *)

Definition key_ok (k : Key PeerId) : Prop := k = Key_from_PeerId (key_preimage k).

Definition capacity_max (config : ClosestPeersIterConfig) : nat :=
  Pos.to_nat (num_results config) `max` Pos.to_nat (parallelism config).

Record cpi_inv (it : ClosestPeersIter) : Prop := {
  inv_sorted : bt_wf (cpi_closest_peers it);
  inv_keys d p : (d, p) ∈ cpi_closest_peers it →
    key_ok (peer_key p) ∧ d = Key_distance (peer_key p) (cpi_target it);
  inv_waiting : cpi_num_waiting it = waiting_count (cpi_closest_peers it);
  inv_capacity : cpi_num_waiting it ≤ capacity_max (cpi_config it)
}.

Lemma expire_keys now ps : (expire now ps).*1 = ps.*1.
Proof. unfold expire. rewrite <-list_fmap_compose. by apply list_fmap_ext; intros ? [] ?. Qed.

Lemma expire_peer_key now p : peer_key (expire_peer now p) = peer_key p.
Proof. unfold expire_peer. destruct (peer_state p); try done. by case_decide. Qed.

Lemma expire_peer_step now p : PeerState_step01 (peer_state p) (peer_state (expire_peer now p)).
Proof.
  unfold expire_peer, PeerState_step01. destruct (peer_state p) eqn:E; try (left; done).
  case_decide; [right; constructor|by left].
Qed.

Lemma expire_elem now d p' ps :
  (d, p') ∈ expire now ps ↔ ∃ p, p' = expire_peer now p ∧ (d, p) ∈ ps.
Proof.
  unfold expire. rewrite list_elem_of_fmap. split.
  - intros ([d1 p] & [= -> ->] & Hin). by exists p.
  - intros (p & -> & Hin). by exists (d, p).
Qed.

(** Peers evolve: reflexivity, and pointwise changes. *)
Lemma peers_evolve_refl ps : peers_evolve ps ps.
Proof. split; [|by eauto]. intros d p Hin. exists p. split_and!; [done..|by left]. Qed.

Lemma peers_evolve_pointwise ps ps' :
  Forall2 (λ e e', e'.1 = e.1 ∧ peer_key e'.2 = peer_key e.2 ∧
                   PeerState_step01 (peer_state e.2) (peer_state e'.2)) ps ps' →
  peers_evolve ps ps' ∧ ps'.*1 = ps.*1.
Proof.
  intros H. split; [split|].
  - intros d p [i Hi]%list_elem_of_lookup. pose proof (Forall2_lookup_l _ _ _ _ _ H Hi) as ([d' p'] & Hi' & Hd & Hk & Hs).
    simpl in *. subst d'. exists p'. split; [by eapply list_elem_of_lookup_2|done].
  - intros d p' [i Hi]%list_elem_of_lookup. pose proof (Forall2_lookup_r _ _ _ _ _ H Hi) as ([d' p] & Hi' & Hd & Hk & Hs).
    simpl in *. subst d'. left. exists p. by eapply list_elem_of_lookup_2.
  - induction H as [|[d p] [d' p'] ps ps' [Hd _] _ IH]; [done|].
    simpl in *. by rewrite Hd; f_equal.
Qed.

(** What [next] does to the peers, whatever its result. *)
Lemma next_loop_post_pointwise config now at_cap rc l1 l2 l2' r :
  next_loop_post config now at_cap rc l1 l2 l2' r →
  Forall2 (λ e e', e'.1 = e.1 ∧ peer_key e'.2 = peer_key e.2 ∧
                   PeerState_step01 (peer_state e.2) (peer_state e'.2))
    (l1 ++ l2) (expire now l1 ++ l2').
Proof.
  intros Hpost. apply Forall2_app.
  { unfold expire. apply Forall2_fmap_r, Forall_Forall2_diag, Forall_true. intros [d p]. simpl.
    split_and!; [done|apply expire_peer_key|apply expire_peer_step]. }
  assert (∀ l, Forall2 (λ e e' : Distance * Peer, e'.1 = e.1 ∧ peer_key e'.2 = peer_key e.2 ∧
            PeerState_step01 (peer_state e.2) (peer_state e'.2)) l l) as Hrefl.
  { intros l. apply Forall_Forall2_diag, Forall_true. intros [d p]. split_and!; [done..|by left]. }
  destruct r as [[q| |]|]; simpl in Hpost.
  - destruct Hpost as (_ & d & p & rest & -> & Hs & -> & ->). constructor; [|done].
    simpl. split_and!; [done..|]. rewrite Hs. right. constructor.
  - by destruct Hpost as (_ & -> & _).
  - by destruct Hpost as (-> & _).
  - by destruct Hpost as (-> & -> & _).
Qed.

(** [next] on an iterator that is not finished, in terms of [next_loop_post]. *)
Lemma ClosestPeersIter_next_unfold it now :
  cpi_inv it → cpi_state it ≠ Finished →
  ∃ l1 l2 l2' nw' r, cpi_closest_peers it = l1 ++ l2 ∧
    Forall (λ e, peer_state e.2 ≠ NotContacted) l1 ∧
    next_loop_post (cpi_config it) now (ClosestPeersIter_at_capacity it) (Some 0) l1 l2 l2' r ∧
    nw' = waiting_count (expire now l1 ++ l2') ∧
    ClosestPeersIter_next it now =
      let it' := set_peers (expire now l1 ++ l2') nw' it in
      match r with
      | Some IterFinished => Ret (IterFinished, set_state Finished it')
      | Some r => Ret (r, it')
      | None => if decide (0 < nw') then Ret (IterWaiting None, it')
                else Ret (IterFinished, set_state Finished it')
      end.
Proof.
  intros Hinv Hst. pose proof (inv_waiting _ Hinv) as Hw.
  destruct (next_loop_spec (cpi_config it) now (ClosestPeersIter_at_capacity it)
              (cpi_closest_peers it) (cpi_num_waiting it) (Some 0))
    as (l1 & l2 & l2' & nw' & r & Hps & Hloop & Hnw & Hl1 & Hpost); [lia|].
  exists l1, l2, l2', nw', r. split_and!; [done..|lia|].
  unfold ClosestPeersIter_next. rewrite Hloop. by destruct (cpi_state it).
Qed.

Lemma waiting_count_expire now ps : waiting_count (expire now ps) ≤ waiting_count ps.
Proof.
  induction ps as [|[d p] ps IH]; [done|]. cbn [expire fmap list_fmap prod_map fst snd].
  fold (expire now ps). rewrite !waiting_count_cons. unfold expire_peer.
  destruct (peer_state p) eqn:E; simpl; rewrite ?E; simpl; try lia. case_decide; simpl; rewrite ?E; simpl; lia.
Qed.

Lemma waiting_count_perm ps ps' : ps ≡ₚ ps' → waiting_count ps = waiting_count ps'.
Proof. unfold waiting_count. by intros ->. Qed.

(** The parts of the invariant that only concern the peers. *)
Definition peers_ok (target : KeyBytes) (ps : list (Distance * Peer)) : Prop :=
  bt_wf ps ∧ ∀ d p, (d, p) ∈ ps → key_ok (peer_key p) ∧ d = Key_distance (peer_key p) target.

Lemma cpi_inv_peers it : cpi_inv it → peers_ok (cpi_target it) (cpi_closest_peers it).
Proof. intros []. by split. Qed.

Lemma peers_ok_evolve target ps ps' :
  peers_evolve ps ps' → ps'.*1 = ps.*1 → peers_ok target ps → peers_ok target ps'.
Proof.
  intros [Hev Hold] Hkeys [Hwf Hk]. assert (bt_wf ps') as Hwf' by (unfold bt_wf; by rewrite Hkeys).
  split; [done|]. intros d p' Hin.
  assert (d ∈ ps.*1) as ([d' p] & -> & Hp)%list_elem_of_fmap.
  { rewrite <-Hkeys. by apply (list_elem_of_fmap_2 fst _ (d, p')). }
  destruct (Hev _ _ Hp) as (p2 & Hp2 & Hkey & _). simpl in *.
  rewrite (bt_elem_unique _ _ _ _ Hwf' Hin Hp2), Hkey. by apply Hk.
Qed.

Lemma next_loop_post_capacity config now at_cap rc l1 l2 l2' r :
  next_loop_post config now at_cap rc l1 l2 l2' r →
  waiting_count (expire now l1 ++ l2') ≤
    waiting_count (l1 ++ l2) + (if at_cap then 0 else 1).
Proof.
  intros Hpost. rewrite !waiting_count_app. pose proof (waiting_count_expire now l1).
  assert (waiting_count l2' ≤ waiting_count l2 + (if at_cap then 0 else 1)); [|lia].
  destruct r as [[q| |]|]; simpl in Hpost.
  - destruct Hpost as (-> & d & p & rest & -> & Hs & _ & ->).
    rewrite !waiting_count_cons. simpl. lia.
  - destruct Hpost as (_ & -> & _). lia.
  - destruct Hpost as (-> & _). lia.
  - destruct Hpost as (-> & -> & _). lia.
Qed.

Lemma at_capacity_false it :
  ClosestPeersIter_at_capacity it = false → cpi_num_waiting it < capacity_max (cpi_config it).
Proof.
  unfold ClosestPeersIter_at_capacity, capacity_max.
  destruct (cpi_state it); rewrite ?bool_decide_eq_false; try done; lia.
Qed.

Lemma ClosestPeersIter_next_inv it now :
  cpi_inv it → ∃ r it', ClosestPeersIter_next it now = Ret (r, it') ∧ cpi_inv it' ∧
    cpi_config it' = cpi_config it ∧ cpi_target it' = cpi_target it ∧
    peers_evolve (cpi_closest_peers it) (cpi_closest_peers it').
Proof.
  intros Hinv. destruct (decide (cpi_state it = Finished)) as [Hf|Hf].
  { exists IterFinished, it. unfold ClosestPeersIter_next. rewrite Hf.
    split_and!; try done. apply peers_evolve_refl. }
  destruct (ClosestPeersIter_next_unfold it now Hinv Hf)
    as (l1 & l2 & l2' & nw' & r & Hps & Hl1 & Hpost & Hnw & ->).
  destruct (peers_evolve_pointwise _ _ (next_loop_post_pointwise _ _ _ _ _ _ _ _ Hpost)) as [Hev Hkeys].
  rewrite <-Hps in Hev, Hkeys.
  pose proof (peers_ok_evolve _ _ _ Hev Hkeys (cpi_inv_peers _ Hinv)) as [Hwf Hk].
  pose proof (next_loop_post_capacity _ _ _ _ _ _ _ _ Hpost) as Hcap.
  rewrite <-Hps, <-(inv_waiting _ Hinv), <-Hnw in Hcap.
  assert (nw' ≤ capacity_max (cpi_config it)) as Hmax.
  { pose proof (inv_capacity _ Hinv). destruct (ClosestPeersIter_at_capacity it) eqn:E; [lia|].
    apply at_capacity_false in E. lia. }
  destruct r as [[q| |]|]; [| | |case_decide]; do 2 eexists; (split; [done|]); (split; [|done]);
    constructor; simpl; done.
Qed.

(** ** Delivering results *)

(** A result of a peer is expected while the iterator waits for it, and still
    accepted after its timeout. *)
Definition expects_result (st : PeerState) : bool :=
  match st with Waiting _ | Unresponsive => true | _ => false end.

Lemma waiting_count_elem d p ps :
  (d, p) ∈ ps → (if is_waiting_state (peer_state p) then 1 else 0) ≤ waiting_count ps.
Proof.
  intros (l1 & l2 & ->)%list_elem_of_split. rewrite waiting_count_app, waiting_count_cons. lia.
Qed.

Lemma result_entry_spec it d :
  cpi_inv it →
  result_entry it d =
    match bt_get d (cpi_closest_peers it) with
    | Some e => if expects_result (peer_state e)
                then Some (e, Ret (cpi_num_waiting it -
                                   (if is_waiting_state (peer_state e) then 1 else 0)))
                else None
    | None => None
    end.
Proof.
  intros Hinv. unfold result_entry. destruct (bt_get d _) as [e|] eqn:E; [|done].
  rewrite bt_get_Some in E by apply Hinv. apply waiting_count_elem in E.
  rewrite <-(inv_waiting _ Hinv) in E.
  destruct (peer_state e); simpl in *; try done.
  - by rewrite usize_sub_le.
  - by rewrite Nat.sub_0_r.
Qed.

(** Recording the result of a peer that is expected. *)
Lemma record_result it d e st :
  cpi_inv it → bt_get d (cpi_closest_peers it) = Some e →
  PeerState_step (peer_state e) st → is_waiting_state st = false →
  let ps := bt_insert d (mkPeer (peer_key e) st) (cpi_closest_peers it) in
  peers_evolve (cpi_closest_peers it) ps ∧ peers_ok (cpi_target it) ps ∧
  waiting_count ps = cpi_num_waiting it - (if is_waiting_state (peer_state e) then 1 else 0).
Proof.
  intros Hinv Hget Hstep Hst ps.
  destruct (bt_insert_replace d (mkPeer (peer_key e) st) e _ Hget) as (m1 & m2 & Hps & Hps').
  fold ps in Hps'.
  assert (peers_evolve (cpi_closest_peers it) ps ∧ ps.*1 = (cpi_closest_peers it).*1) as [Hev Hkeys].
  { apply peers_evolve_pointwise. rewrite Hps, Hps'.
    assert (∀ l, Forall2 (λ e e' : Distance * Peer, e'.1 = e.1 ∧ peer_key e'.2 = peer_key e.2 ∧
              PeerState_step01 (peer_state e.2) (peer_state e'.2)) l l) as Hrefl.
    { intros l. apply Forall_Forall2_diag, Forall_true. intros [? ?]. split_and!; [done..|by left]. }
    apply Forall2_app; [done|]. constructor; [|done]. simpl. split_and!; [done..|by right]. }
  split_and!; [done|eapply peers_ok_evolve; [done..|by apply cpi_inv_peers]|].
  rewrite (inv_waiting _ Hinv), Hps, Hps', !waiting_count_app, !waiting_count_cons.
  simpl. rewrite Hst. lia.
Qed.

(** Peers of [cl] join [ps] and are not contacted; nothing else changes. *)
Definition peers_extend (cl : list PeerId) (ps ps' : list (Distance * Peer)) : Prop :=
  (∀ e, e ∈ ps → e ∈ ps') ∧
  (∀ d p, (d, p) ∈ ps' → (d, p) ∈ ps ∨
     ∃ q, q ∈ cl ∧ p = mkPeer (Key_from_PeerId q) NotContacted).

Lemma peers_evolve_extend cl ps1 ps2 ps3 :
  peers_evolve ps1 ps2 → peers_extend cl ps2 ps3 → peers_evolve ps1 ps3.
Proof.
  intros [H1 H2] [H3 H4]. split.
  - intros d p (p' & Hin & Hk & Hs)%H1. exists p'. split_and!; try done. by apply H3.
  - intros d p' [Hin|(q & _ & ->)]%H4; [by apply H2|by right].
Qed.

Lemma add_closer_spec target enough ps b p :
  peers_ok target ps →
  let ps' := (add_closer target enough (ps, b) p).1 in
  peers_ok target ps' ∧ peers_extend [p] ps ps' ∧ waiting_count ps' = waiting_count ps ∧
  ∃ e, (KeyBytes_distance target (Key_from_PeerId p), e) ∈ ps'.
Proof.
  intros [Hwf Hk]. unfold add_closer. cbn [fst snd].
  set (d := KeyBytes_distance target (Key_from_PeerId p)).
  split_and!; [split| split| |].
  - by apply bt_or_insert_wf.
  - intros d' p' [?|(-> & -> & _)]%bt_or_insert_elem; [by apply Hk| |done].
    split; [done|]. apply KeyBytes_distance_comm.
  - intros [d' p'] ?. apply bt_or_insert_elem; [done|by left].
  - intros d' p' [?|(-> & -> & _)]%bt_or_insert_elem; [by left| |done].
    right. exists p. split; [by left|done].
  - unfold bt_or_insert. destruct (bt_get d ps) eqn:E; [done|].
    rewrite (waiting_count_perm _ _ (bt_insert_new _ _ _ E)), waiting_count_cons. done.
  - destruct (bt_get d ps) as [e|] eqn:E.
    + exists e. apply bt_or_insert_elem; [done|]. left. by apply bt_get_Some.
    + exists (mkPeer (Key_from_PeerId p) NotContacted). apply bt_or_insert_elem; [done|]. by right.
Qed.

Lemma add_closers_spec target enough ps b cl :
  peers_ok target ps →
  let ps' := (foldl (add_closer target enough) (ps, b) cl).1 in
  peers_ok target ps' ∧ peers_extend cl ps ps' ∧ waiting_count ps' = waiting_count ps ∧
  ∀ p, p ∈ cl → ∃ e, (KeyBytes_distance target (Key_from_PeerId p), e) ∈ ps'.
Proof.
  revert ps b. induction cl as [|q cl IH]; intros ps b Hok; cbn [foldl].
  { split_and!; try done. - split; [done|by left]. - by intros p ?%elem_of_nil. }
  destruct (add_closer_spec target enough ps b q Hok) as (Hok1 & [Hx1 Hy1] & Hw1 & Hq).
  destruct (add_closer target enough (ps, b) q) as [ps1 b1]. simpl in *.
  destruct (IH ps1 b1 Hok1) as (Hok2 & [Hx2 Hy2] & Hw2 & Hcl).
  split_and!; [done| |congruence|].
  - split; [by auto|]. intros d p [[?|(r & ->%list_elem_of_singleton & ->)]%Hy1|(r & Hr & ->)]%Hy2.
    + by left.
    + right. exists q. split; [by left|done].
    + right. exists r. split; [by right|done].
  - intros p [->|Hin]%elem_of_cons; [|by apply Hcl]. destruct Hq as [e He]. exists e. by apply Hx2.
Qed.

(** What a result changes: nothing unless it is expected; otherwise the state
    of its peer, and for a success the reported peers join the iterator. *)
Definition result_of (cl : option (list PeerId)) (it : ClosestPeersIter) (p : PeerId)
  : outcome (bool * ClosestPeersIter) :=
  match cl with
  | Some cl => ClosestPeersIter_on_success it p cl
  | None => ClosestPeersIter_on_failure it p
  end.

Definition result_expected (it : ClosestPeersIter) (p : PeerId) : bool :=
  negb (ClosestPeersIter_is_finished it) &&
  map_or false (λ e, expects_result (peer_state e))
    (bt_get (Key_distance (Key_from_PeerId p) (cpi_target it)) (cpi_closest_peers it)).

Definition result_state (cl : option (list PeerId)) : PeerState :=
  match cl with Some _ => Succeeded | None => Failed end.

Lemma result_of_spec cl it p :
  cpi_inv it →
  ∃ it', result_of cl it p = Ret (result_expected it p, it') ∧ cpi_inv it' ∧
    cpi_config it' = cpi_config it ∧ cpi_target it' = cpi_target it ∧
    if result_expected it p then
      let d := Key_distance (Key_from_PeerId p) (cpi_target it) in
      ∃ e ps, bt_get d (cpi_closest_peers it) = Some e ∧
        expects_result (peer_state e) = true ∧
        ps = bt_insert d (mkPeer (peer_key e) (result_state cl)) (cpi_closest_peers it) ∧
        peers_evolve (cpi_closest_peers it) ps ∧
        bt_wf ps ∧ peers_extend (default [] cl) ps (cpi_closest_peers it') ∧
        ∀ q, q ∈ default [] cl →
          ∃ e, (KeyBytes_distance (cpi_target it) (Key_from_PeerId q), e) ∈ cpi_closest_peers it'
    else it' = it.
Proof.
  intros Hinv. unfold result_expected, ClosestPeersIter_is_finished.
  destruct (decide (cpi_state it = Finished)) as [Hf|Hf].
  { rewrite bool_decide_true by done. exists it. split_and!; try done.
    destruct cl; simpl; unfold ClosestPeersIter_on_success, ClosestPeersIter_on_failure; by rewrite Hf. }
  rewrite bool_decide_false by done. cbn [negb andb].
  set (d := Key_distance (Key_from_PeerId p) (cpi_target it)).
  pose proof (result_entry_spec it d Hinv) as Hre.
  assert (∀ A (x y : A), match cpi_state it with Finished => x | _ => y end = y) as Hm.
  { intros A x y. by destruct (cpi_state it). }
  destruct (bt_get d (cpi_closest_peers it)) as [e|] eqn:Hget; cbn [map_or];
    [destruct (expects_result (peer_state e)) eqn:Hex|].
  2,3: exists it; split_and!; try done; destruct cl; simpl;
    unfold ClosestPeersIter_on_success, ClosestPeersIter_on_failure; fold d; rewrite Hre;
    by destruct (cpi_state it).
  assert (PeerState_step (peer_state e) (result_state cl)) as Hstep.
  { destruct (peer_state e), cl; try done; constructor. }
  destruct (record_result it d e (result_state cl) Hinv Hget Hstep) as (Hev & Hok & Hw);
    [by destruct cl|].
  pose proof (inv_capacity _ Hinv) as Hcap.
  set (ps := bt_insert d _ _) in *.
  destruct cl as [cl|]; cbn [result_of result_state default] in *.
  - unfold ClosestPeersIter_on_success. fold d. rewrite Hre. cbn [mbind outcome_bind].
    fold ps. set (enough := bool_decide _).
    destruct (add_closers_spec (cpi_target it) enough ps false cl Hok) as ([Hwf2 Hk2] & Hx & Hw2 & Hcl).
    destruct (foldl _ _ _) as [ps2 b2]. cbn [fst] in *. rewrite Hm.
    eexists. split; [done|]. split; [constructor; simpl; [done|done|lia|lia]|].
    split_and!; [done..|]. exists e, ps. split_and!; try done. apply Hok.
  - unfold ClosestPeersIter_on_failure. fold d. rewrite Hre. cbn [mbind outcome_bind]. rewrite Hm.
    eexists. split; [done|]. split; [constructor; simpl; [apply Hok|apply Hok|done|lia]|].
    split_and!; [done..|]. exists e, ps. split_and!; try done; [apply Hok| |by intros q ?%elem_of_nil].
    split; [done|by left].
Qed.

(** ** Sequences of operations *)

Inductive cpi_op : Type :=
| OpNext (now : N)
| OpResult (peer : PeerId) (closer_peers : option (list PeerId))
| OpFinish.

(** The peer an operation says to contact, and the new state. *)
Definition cpi_apply (op : cpi_op) (it : ClosestPeersIter) : outcome (option PeerId * ClosestPeersIter) :=
  match op with
  | OpNext now =>
      '(r, it) ← ClosestPeersIter_next it now;
      Ret (match r with IterWaiting q => q | _ => None end, it)
  | OpResult p cl => '(_, it) ← result_of cl it p; Ret (None, it)
  | OpFinish => Ret (None, ClosestPeersIter_finish it)
  end.

Fixpoint cpi_run (ops : list cpi_op) (it : ClosestPeersIter) : outcome (list PeerId * ClosestPeersIter) :=
  match ops with
  | [] => Ret ([], it)
  | op :: ops =>
      '(q, it) ← cpi_apply op it;
      '(qs, it) ← cpi_run ops it;
      Ret (option_list q ++ qs, it)
  end.

Definition contacted (it : ClosestPeersIter) (p : PeerId) : Prop :=
  ∃ d e, (d, e) ∈ cpi_closest_peers it ∧ key_preimage (peer_key e) = p ∧ peer_state e ≠ NotContacted.

(** The distance and the entry under which a peer is known are unique. *)
Lemma cpi_entry_unique it d1 d2 e1 e2 :
  cpi_inv it → (d1, e1) ∈ cpi_closest_peers it → (d2, e2) ∈ cpi_closest_peers it →
  key_preimage (peer_key e1) = key_preimage (peer_key e2) → d1 = d2 ∧ e1 = e2.
Proof.
  intros Hinv H1 H2 Hp. destruct (inv_keys _ Hinv _ _ H1) as [Hk1 Hd1].
  destruct (inv_keys _ Hinv _ _ H2) as [Hk2 Hd2].
  assert (d1 = d2) as <- by (rewrite Hd1, Hd2, Hk1, Hk2, Hp; done).
  split; [done|]. eapply bt_elem_unique; [apply Hinv|done..].
Qed.

Lemma contacted_evolve it it' p :
  peers_evolve (cpi_closest_peers it) (cpi_closest_peers it') → contacted it p → contacted it' p.
Proof.
  intros [Hev _] (d & e & Hin & Hp & Hs). destruct (Hev _ _ Hin) as (e' & Hin' & Hk & Hst).
  exists d, e'. rewrite Hk. split_and!; try done.
  intros Hn. rewrite Hn in Hst. destruct Hst as [Hst|Hst]; [congruence|inversion Hst].
Qed.

(** [next] asks for a peer that has not been contacted before. *)
Lemma ClosestPeersIter_next_contacts it now q it' :
  cpi_inv it → ClosestPeersIter_next it now = Ret (IterWaiting (Some q), it') →
  ¬ contacted it q ∧ contacted it' q.
Proof.
  intros Hinv Hn. destruct (decide (cpi_state it = Finished)) as [Hf|Hf].
  { unfold ClosestPeersIter_next in Hn. by rewrite Hf in Hn. }
  destruct (ClosestPeersIter_next_unfold it now Hinv Hf)
    as (l1 & l2 & l2' & nw' & r & Hps & _ & Hpost & _ & Hn'). rewrite Hn' in Hn. clear Hn'.
  destruct r as [[q'| |]|]; simplify_eq/=; [|by case_decide].
  destruct Hpost as (_ & d & p & rest & -> & Hs & [= ->] & ->).
  assert ((d, p) ∈ cpi_closest_peers it) as Hin by (rewrite Hps; set_solver). split.
  - intros (d2 & e2 & Hin2 & Hp2 & Hs2).
    by destruct (cpi_entry_unique it d d2 p e2) as [-> ->].
  - eexists d, _. split_and!; [simpl; apply elem_of_app; right; by left|done|done].
Qed.

Lemma ClosestPeersIter_next_pointwise it now r it' :
  cpi_inv it → ClosestPeersIter_next it now = Ret (r, it') →
  Forall2 (λ e e', e'.1 = e.1 ∧ peer_key e'.2 = peer_key e.2 ∧
                   PeerState_step01 (peer_state e.2) (peer_state e'.2))
    (cpi_closest_peers it) (cpi_closest_peers it').
Proof.
  intros Hinv Hn. destruct (decide (cpi_state it = Finished)) as [Hf|Hf].
  { unfold ClosestPeersIter_next in Hn. rewrite Hf in Hn. simplify_eq.
    apply Forall_Forall2_diag, Forall_true. intros [? ?]. split_and!; [done..|by left]. }
  destruct (ClosestPeersIter_next_unfold it now Hinv Hf)
    as (l1 & l2 & l2' & nw' & r' & Hps & _ & Hpost & _ & Hn'). rewrite Hn' in Hn. clear Hn'.
  apply next_loop_post_pointwise in Hpost. rewrite <-Hps in Hpost.
  destruct r' as [[q'| |]|]; [| | |case_decide]; simplify_eq/=; done.
Qed.

(** The peers an iterator knows, and where they come from. *)
Definition knows (it : ClosestPeersIter) (p : PeerId) : Prop :=
  ∃ d e, (d, e) ∈ cpi_closest_peers it ∧ key_preimage (peer_key e) = p.

Lemma next_knows it now r it' p :
  cpi_inv it → ClosestPeersIter_next it now = Ret (r, it') → knows it' p → knows it p.
Proof.
  intros Hinv Hn (d & e & [i Hi]%list_elem_of_lookup & <-).
  pose proof (ClosestPeersIter_next_pointwise _ _ _ _ Hinv Hn) as H2.
  destruct (Forall2_lookup_r _ _ _ _ _ H2 Hi) as ([d0 e0] & Hi0 & Hd & Hk & _). simpl in *.
  exists d0, e0. split; [by eapply list_elem_of_lookup_2|by rewrite Hk].
Qed.

Lemma result_knows cl it p b it' q :
  cpi_inv it → result_of cl it p = Ret (b, it') → knows it' q → knows it q ∨ q ∈ default [] cl.
Proof.
  intros Hinv Hr (d & e & Hin & <-).
  destruct (result_of_spec cl it p Hinv) as (it2 & Hr2 & _ & _ & _ & Hspec).
  rewrite Hr in Hr2. simplify_eq. destruct (result_expected it p); [|left; subst; by exists d, e].
  destruct Hspec as (e0 & ps & Hget & _ & Hps & _ & _ & [_ Hx] & _).
  destruct (Hx _ _ Hin) as [Hin2|(q & Hq & ->)]; [left|by right].
  rewrite Hps in Hin2. rewrite bt_get_Some in Hget by apply Hinv.
  apply bt_insert_elem in Hin2 as [[-> ->]|[_ ?]]; [by eexists _, e0|by exists d, e|apply Hinv].
Qed.

(** The keys of the peers that are not contacted yet. *)
Definition uncontacted (ps : list (Distance * Peer)) : list Distance :=
  (filter (λ e, peer_state e.2 = NotContacted) ps).*1.

Lemma elem_of_uncontacted ps d :
  d ∈ uncontacted ps ↔ ∃ e, (d, e) ∈ ps ∧ peer_state e = NotContacted.
Proof.
  unfold uncontacted. rewrite list_elem_of_fmap. split.
  - intros ([d' e] & -> & [Hs Hin]%list_elem_of_filter). by exists e.
  - intros (e & Hin & Hs). exists (d, e). split; [done|]. by apply list_elem_of_filter.
Qed.

Lemma uncontacted_NoDup ps : bt_wf ps → NoDup (uncontacted ps).
Proof.
  intros Hwf. unfold uncontacted. apply (submseteq_NoDup _ ps.*1).
  - by apply fmap_submseteq, sublist_submseteq, sublist_filter.
  - by apply bt_wf_NoDup.
Qed.

Lemma uncontacted_evolve ps ps' :
  bt_wf ps' → peers_evolve ps ps' → (∀ d e, (d, e) ∈ ps' → ∃ e0, (d, e0) ∈ ps) →
  ∀ d, d ∈ uncontacted ps' → d ∈ uncontacted ps.
Proof.
  intros Hwf [Hev _] Hknown d (e & Hin & Hs)%elem_of_uncontacted. apply elem_of_uncontacted.
  destruct (Hknown _ _ Hin) as [e0 Hin0]. exists e0. split; [done|].
  destruct (Hev _ _ Hin0) as (e' & Hin' & _ & Hst). rewrite (bt_elem_unique _ _ _ _ Hwf Hin' Hin), Hs in Hst.
  destruct Hst as [<-|Hst]; [done|inversion Hst].
Qed.

(** Every peer [next] hands out reduces the number of peers not contacted. *)
Lemma next_uncontacted it now q it' :
  cpi_inv it → ClosestPeersIter_next it now = Ret (IterWaiting (Some q), it') →
  length (uncontacted (cpi_closest_peers it')) < length (uncontacted (cpi_closest_peers it)).
Proof.
  intros Hinv Hn. destruct (ClosestPeersIter_next_contacts it now q it' Hinv Hn)
    as [Hnc (d & e & Hin & Hq & Hs)].
  destruct (ClosestPeersIter_next_inv it now Hinv) as (r2 & it2 & Hn2 & Hinv2 & _ & _ & Hev).
  rewrite Hn in Hn2. simplify_eq.
  pose proof (ClosestPeersIter_next_pointwise _ _ _ _ Hinv Hn) as H2.
  assert (∀ d e, (d, e) ∈ cpi_closest_peers it2 → ∃ e0, (d, e0) ∈ cpi_closest_peers it ∧
            key_preimage (peer_key e0) = key_preimage (peer_key e)) as Hknown.
  { intros d1 e1 [i Hi]%list_elem_of_lookup.
    destruct (Forall2_lookup_r _ _ _ _ _ H2 Hi) as ([d0 e0] & Hi0 & Hd & Hk & _). simpl in *. subst d1.
    exists e0. split; [by eapply list_elem_of_lookup_2|by rewrite Hk]. }
  assert (d :: uncontacted (cpi_closest_peers it2) ⊆+ uncontacted (cpi_closest_peers it)) as Hsub;
    [|by apply submseteq_length in Hsub].
  apply NoDup_submseteq.
  - constructor; [|by apply uncontacted_NoDup, Hinv2].
    intros (e' & Hin' & Hs')%elem_of_uncontacted. apply Hs.
    by rewrite (bt_elem_unique _ _ _ _ (inv_sorted _ Hinv2) Hin Hin').
  - intros d' [->|Hd']%elem_of_cons.
    + destruct (Hknown _ _ Hin) as (e0 & Hin0 & Hk0). apply elem_of_uncontacted. exists e0.
      split; [done|]. destruct (decide (peer_state e0 = NotContacted)); [done|].
      destruct Hnc. by exists d, e0.
    + eapply uncontacted_evolve; [apply Hinv2|done| |done]. intros d1 e1 (e0 & ? & _)%Hknown. eauto.
Qed.

Lemma result_uncontacted cl it p b it' :
  cpi_inv it → result_of cl it p = Ret (b, it') → default [] cl = [] →
  length (uncontacted (cpi_closest_peers it')) ≤ length (uncontacted (cpi_closest_peers it)).
Proof.
  intros Hinv Hr Hcl. destruct (result_of_spec cl it p Hinv) as (it2 & Hr2 & Hinv2 & _ & _ & Hspec).
  rewrite Hr in Hr2. simplify_eq. destruct (result_expected it p); [|by subst].
  destruct Hspec as (e0 & ps & Hget & _ & Hps & Hev & Hwf & Hx & _).
  apply submseteq_length, NoDup_submseteq; [by apply uncontacted_NoDup, Hinv2|].
  intros d. apply uncontacted_evolve; [apply Hinv2|by eapply peers_evolve_extend|].
  intros d1 e1 Hin. destruct Hx as [_ Hx]. destruct (Hx _ _ Hin) as [Hin2|(q & Hq & _)].
  - rewrite Hps in Hin2. rewrite bt_get_Some in Hget by apply Hinv.
    apply bt_insert_elem in Hin2 as [[-> ->]|[_ ?]]; [by eexists|by eexists|apply Hinv].
  - rewrite Hcl in Hq. by apply elem_of_nil in Hq.
Qed.

(** A result of the peer has been accepted; no other one will be. *)
Definition is_final (st : PeerState) : bool :=
  match st with Failed | Succeeded => true | _ => false end.

Definition answered (it : ClosestPeersIter) (p : PeerId) : Prop :=
  ∃ e, (Key_distance (Key_from_PeerId p) (cpi_target it), e) ∈ cpi_closest_peers it ∧
       is_final (peer_state e) = true.

Lemma answered_evolve it it' p :
  cpi_target it' = cpi_target it →
  peers_evolve (cpi_closest_peers it) (cpi_closest_peers it') → answered it p → answered it' p.
Proof.
  intros Ht [Hev _] (e & Hin & Hs). destruct (Hev _ _ Hin) as (e' & Hin' & _ & Hst).
  exists e'. rewrite Ht. split; [done|]. destruct Hst as [->|Hst]; [done|]. by destruct Hst.
Qed.

Lemma answered_not_expected it p : cpi_inv it → answered it p → result_expected it p = false.
Proof.
  intros Hinv (e & Hin & Hs). unfold result_expected. apply andb_false_iff. right.
  rewrite <-bt_get_Some in Hin by apply Hinv. rewrite Hin. simpl. by destruct (peer_state e).
Qed.

Lemma result_answered cl it p it' :
  cpi_inv it → result_of cl it p = Ret (true, it') → answered it' p.
Proof.
  intros Hinv Hr. destruct (result_of_spec cl it p Hinv) as (it2 & Hr2 & Hinv2 & _ & Ht & Hspec).
  rewrite Hr in Hr2. simplify_eq. destruct (result_expected it p); [|done].
  destruct Hspec as (e0 & ps & Hget & _ & Hps & _ & _ & [Hx _] & _).
  exists (mkPeer (peer_key e0) (result_state cl)). rewrite Ht. split; [|by destruct cl].
  apply Hx. rewrite Hps. apply bt_insert_elem; [apply Hinv|by left].
Qed.

Lemma next_finished_state it now it' :
  ClosestPeersIter_next it now = Ret (IterFinished, it') → cpi_state it' = Finished.
Proof.
  unfold ClosestPeersIter_next. destruct (cpi_state it) eqn:E; [| |by intros; simplify_eq].
  all: destruct (next_loop _ _ _ _ _ _) as [[[ps nw] r]|]; [simpl|done].
  all: destruct r as [[]|]; try done; try case_decide; intros; by simplify_eq/=.
Qed.

Lemma next_of_finished it now :
  cpi_state it = Finished → ClosestPeersIter_next it now = Ret (IterFinished, it).
Proof. unfold ClosestPeersIter_next. by intros ->. Qed.

(** [next] records no results. *)
Lemma ClosestPeersIter_next_quiet it now r it' :
  cpi_inv it → ClosestPeersIter_next it now = Ret (r, it') →
  ∀ d e, (d, e) ∈ cpi_closest_peers it' →
    (d, e) ∈ cpi_closest_peers it ∨ (∃ t, peer_state e = Waiting t) ∨ peer_state e = Unresponsive.
Proof.
  intros Hinv Hn d e Hin. destruct (decide (cpi_state it = Finished)) as [Hf|Hf].
  { unfold ClosestPeersIter_next in Hn. rewrite Hf in Hn. simplify_eq. by left. }
  destruct (ClosestPeersIter_next_unfold it now Hinv Hf)
    as (l1 & l2 & l2' & nw' & r' & Hps & _ & Hpost & _ & Hn'). rewrite Hn' in Hn. clear Hn'.
  assert ((d, e) ∈ expire now l1 ++ l2') as [Hin'|Hin']%elem_of_app.
  { destruct r' as [[q'| |]|]; [| | |case_decide]; simplify_eq/=; done. }
  - apply expire_elem in Hin' as (p & -> & Hp). rewrite Hps. unfold expire_peer.
    destruct (peer_state p) as [|t| | |] eqn:E; try (left; apply elem_of_app; by left).
    destruct (decide (t ≤ now)%N); [by do 2 right|left; apply elem_of_app; by left].
  - rewrite Hps. destruct r' as [[q'| |]|]; simpl in Hpost.
    + destruct Hpost as (_ & d1 & p & rest & -> & Hs & _ & ->).
      apply elem_of_cons in Hin' as [?|?]; [simplify_eq/=; right; left; by eexists|].
      left. apply elem_of_app. right. by right.
    + destruct Hpost as (_ & -> & _). left. apply elem_of_app. by right.
    + destruct Hpost as (-> & _). left. apply elem_of_app. by right.
    + destruct Hpost as (_ & -> & _). by apply elem_of_nil in Hin'.
Qed.

Lemma cpi_apply_spec op it :
  cpi_inv it → ∃ q it', cpi_apply op it = Ret (q, it') ∧ cpi_inv it' ∧
    cpi_config it' = cpi_config it ∧ cpi_target it' = cpi_target it ∧
    peers_evolve (cpi_closest_peers it) (cpi_closest_peers it') ∧
    (∀ p, q = Some p → ¬ contacted it p ∧ contacted it' p).
Proof.
  intros Hinv. destruct op as [now|p cl|]; simpl.
  - destruct (ClosestPeersIter_next_inv it now Hinv) as (r & it' & Hn & Hinv' & Hc & Ht & Hev).
    rewrite Hn. simpl. do 2 eexists. split_and!; try done.
    intros p Hp. destruct r; simplify_eq. by eapply ClosestPeersIter_next_contacts.
  - destruct (result_of_spec cl it p Hinv) as (it' & -> & Hinv' & Hc & Ht & Hev). simpl.
    do 2 eexists. split_and!; try done. destruct (result_expected it p); [|subst; apply peers_evolve_refl].
    destruct Hev as (e & ps & _ & _ & _ & Hev & _ & Hx & _). by eapply peers_evolve_extend.
  - do 2 eexists. split_and!; try done; [by destruct Hinv; constructor|apply peers_evolve_refl].
Qed.

Lemma cpi_run_spec ops it :
  cpi_inv it → ∃ qs it', cpi_run ops it = Ret (qs, it') ∧ cpi_inv it' ∧
    cpi_config it' = cpi_config it ∧ cpi_target it' = cpi_target it ∧
    NoDup qs ∧ (∀ p, p ∈ qs → ¬ contacted it p ∧ contacted it' p) ∧
    (∀ p, contacted it p → contacted it' p).
Proof.
  revert it. induction ops as [|op ops IH]; intros it Hinv; simpl.
  { exists [], it. split_and!; try done; [constructor|by intros p ?%elem_of_nil]. }
  destruct (cpi_apply_spec op it Hinv) as (q & it1 & -> & Hinv1 & Hc1 & Ht1 & Hev & Hq). simpl.
  destruct (IH it1 Hinv1) as (qs & it2 & -> & Hinv2 & Hc2 & Ht2 & Hnd & Hqs & Hmono). simpl.
  do 2 eexists. split_and!; [done|done|congruence|congruence| | |].
  - destruct q as [p|]; [|done]. simpl. constructor; [|done]. intros Hin. by apply (Hqs p Hin), Hq.
  - intros p Hin. destruct q as [p'|]; simpl in Hin; [apply elem_of_cons in Hin as [->|Hin]|].
    + split; [by apply Hq|]. by apply Hmono, Hq.
    + split; [|by apply Hqs]. intros Hcon. apply (Hqs p Hin). by eapply contacted_evolve.
    + split; [|by apply Hqs]. intros Hcon. apply (Hqs p Hin). by eapply contacted_evolve.
  - intros p Hcon. apply Hmono. by eapply contacted_evolve.
Qed.

Lemma with_config_inv config target known :
  Forall key_ok known → cpi_inv (ClosestPeersIter_with_config config target known).
Proof.
  intros Hok. unfold ClosestPeersIter_with_config. set (l := take _ _).
  assert (∀ d p, (d, p) ∈ bt_from_iter l →
    peer_state p = NotContacted ∧ key_ok (peer_key p) ∧ d = Key_distance (peer_key p) target) as Hel.
  { intros d p Hin%bt_from_iter_elem. apply elem_of_take in Hin as (i & Hi%list_elem_of_lookup_2 & _).
    apply list_elem_of_fmap in Hi as (k & [= -> ->] & Hk). rewrite Forall_forall in Hok. auto. }
  constructor; simpl; [apply bt_from_iter_wf|intros d p Hin; by apply Hel| |lia].
  unfold waiting_count. rewrite filter_none; [done|]. intros [d p] Hin. simpl.
  apply Hel in Hin as [-> _]. done.
Qed.

(** [C14] Whatever sequence of calls is made on a new iterator, it does not panic;
    it keeps its peers in increasing order of their distance to the target,
    each once; [num_waiting] is the number of peers it waits for and never
    exceeds the larger of [num_results] and [parallelism]; and no peer is ever
    handed out to be contacted twice. *)
Theorem ClosestPeersIter_run_safe (config : ClosestPeersIterConfig) (target : KeyBytes)
    (known : list (Key PeerId)) (ops : list cpi_op) :
  Forall key_ok known →
  ∃ qs it, cpi_run ops (ClosestPeersIter_with_config config target known) = Ret (qs, it) ∧
    StronglySorted N.lt (cpi_closest_peers it).*1 ∧
    (∀ d p, (d, p) ∈ cpi_closest_peers it → d = Key_distance (peer_key p) target) ∧
    ClosestPeersIter_num_waiting it = length (ClosestPeersIter_waiting it) ∧
    ClosestPeersIter_num_waiting it ≤
      Pos.to_nat (num_results config) `max` Pos.to_nat (parallelism config) ∧
    NoDup qs ∧ length qs ≤ length (cpi_closest_peers it).
Proof.
  intros Hok. destruct (cpi_run_spec ops _ (with_config_inv config target known Hok))
    as (qs & it & Hrun & Hinv & Hc & Ht & Hnd & Hqs & _).
  exists qs, it. split_and!; [done|apply Hinv| | | |done|].
  - intros d p Hin. apply (inv_keys _ Hinv) in Hin as [_ ->]. by rewrite Ht.
  - unfold ClosestPeersIter_num_waiting, ClosestPeersIter_waiting. rewrite (inv_waiting _ Hinv).
    generalize (cpi_closest_peers it). intros ps. induction ps as [|[d p] ps IH]; [done|].
    rewrite waiting_count_cons, IH. simpl. by destruct (is_waiting_state _).
  - unfold ClosestPeersIter_num_waiting. pose proof (inv_capacity _ Hinv) as Hcap.
    by rewrite Hc in Hcap.
  - rewrite <-(length_fmap (λ e, key_preimage (peer_key e.2)) (cpi_closest_peers it)).
    apply submseteq_length, NoDup_submseteq; [done|]. intros p Hp.
    apply Hqs in Hp as [_ (d & e & Hin & <- & _)].
    by apply (list_elem_of_fmap_2 (λ e, key_preimage (peer_key e.2)) _ (d, e)).
Qed.

(** ** The result of the iterator *)

Definition succeeded_of (ps : list (Distance * Peer)) : list PeerId :=
  omap (λ '(_, p), match peer_state p with
                   | Succeeded => Some (key_preimage (peer_key p))
                   | _ => None
                   end) ps.

(** The peers that neither failed nor timed out, in order of distance. *)
Definition candidates_of (ps : list (Distance * Peer)) : list PeerId :=
  omap (λ '(_, p), match peer_state p with
                   | Failed | Unresponsive => None
                   | _ => Some (key_preimage (peer_key p))
                   end) ps.

Definition candidates (it : ClosestPeersIter) : list PeerId := candidates_of (cpi_closest_peers it).

Lemma candidates_inactive ps :
  Forall (λ e, is_active (peer_state e.2) = false) ps → candidates_of ps = succeeded_of ps.
Proof.
  induction 1 as [|[d p] ps Hp _ IH]; [done|]. unfold candidates_of, succeeded_of. simpl in *.
  destruct (peer_state p); try done; [exact IH..|]. f_equal. exact IH.
Qed.

Lemma length_succeeded_of ps : length (succeeded_of ps) = succeeded_count ps.
Proof.
  induction ps as [|[d p] ps IH]; [done|]. rewrite succeeded_count_cons, <-IH.
  unfold succeeded_of. simpl. by destruct (peer_state p).
Qed.

Lemma succeeded_count_expire now ps : succeeded_count (expire now ps) = succeeded_count ps.
Proof.
  induction ps as [|[d p] ps IH]; [done|]. cbn [expire fmap list_fmap prod_map fst snd].
  fold (expire now ps). rewrite !succeeded_count_cons, IH. f_equal. apply decide_ext.
  unfold expire_peer. destruct (peer_state p) as [|t| | |] eqn:E; rewrite ?E; try done.
  destruct (decide (t ≤ now)%N); simpl; by rewrite ?E.
Qed.

Lemma expire_inactive now ps :
  Forall (λ e, is_active (peer_state (expire_peer now e.2)) = false) ps →
  Forall (λ e, is_active (peer_state e.2) = false) (expire now ps).
Proof. intros H. unfold expire. by apply Forall_fmap. Qed.

Lemma inactive_of_counts ps :
  waiting_count ps = 0 → Forall (λ e, peer_state e.2 ≠ NotContacted) ps →
  Forall (λ e, is_active (peer_state e.2) = false) ps.
Proof.
  intros Hw Hn. apply Forall_forall. intros [d p] Hin. rewrite Forall_forall in Hn.
  specialize (Hn _ Hin). apply waiting_count_elem in Hin. rewrite Hw in Hin. simpl in *.
  destruct (peer_state p); simpl in *; [done|lia|done..].
Qed.

Lemma expire_contacted now ps :
  Forall (λ e, peer_state e.2 ≠ NotContacted) ps →
  Forall (λ e, peer_state e.2 ≠ NotContacted) (expire now ps).
Proof.
  intros H. apply Forall_fmap. eapply Forall_impl; [exact H|]. intros [d p] Hp. simpl in *.
  unfold expire_peer. destruct (peer_state p) eqn:E; try done; try (by rewrite E).
  case_decide; simpl; [done|by rewrite E].
Qed.

(** A prefix with enough successes and no active peer determines the result. *)
Lemma take_candidates n ps d p rest :
  Forall (λ e, is_active (peer_state e.2) = false) ps → peer_state p = Succeeded →
  n ≤ succeeded_count ps + 1 →
  take n (succeeded_of (ps ++ (d, p) :: rest)) = take n (candidates_of (ps ++ (d, p) :: rest)).
Proof.
  intros Hps Hp Hn. assert (∃ x tl tl',
    succeeded_of (ps ++ (d, p) :: rest) = (succeeded_of ps ++ [x]) ++ tl ∧
    candidates_of (ps ++ (d, p) :: rest) = (succeeded_of ps ++ [x]) ++ tl') as (x & tl & tl' & -> & ->).
  { exists (key_preimage (peer_key p)), (succeeded_of rest), (candidates_of rest).
    rewrite <-!(assoc_L (++)). split.
    - unfold succeeded_of. rewrite omap_app. simpl. by rewrite Hp.
    - rewrite <-candidates_inactive by done. unfold candidates_of. rewrite omap_app. simpl. by rewrite Hp. }
  rewrite !(take_app_le (succeeded_of ps ++ [x])); [done|rewrite length_app, length_succeeded_of; simpl; lia..].
Qed.

Lemma next_finished_result it now it' :
  cpi_inv it → cpi_state it ≠ Finished → ClosestPeersIter_next it now = Ret (IterFinished, it') →
  ClosestPeersIter_into_result it' =
    take (Pos.to_nat (num_results (cpi_config it))) (candidates it').
Proof.
  intros Hinv Hf Hn. destruct (ClosestPeersIter_next_unfold it now Hinv Hf)
    as (l1 & l2 & l2' & nw' & r & Hps & Hl1 & Hpost & Hnw & Hn'). rewrite Hn' in Hn. clear Hn'.
  destruct r as [[q| |]|]; simplify_eq/=.
  - destruct Hpost as (-> & Hf1 & d & p & rest & cnt & -> & Hs & [= <-] & Hc).
    apply expire_inactive in Hf1. apply take_candidates; [done..|].
    rewrite succeeded_count_expire. simpl. lia.
  - destruct Hpost as (-> & -> & _). rewrite app_nil_r in *. apply (expire_contacted now) in Hl1.
    destruct (decide _) as [?|Hw] in Hn; simplify_eq. unfold candidates. simpl.
    rewrite candidates_inactive; [done|]. apply inactive_of_counts; [lia|done].
Qed.

Lemma into_result_succeeded it p d e :
  cpi_inv it → p ∈ ClosestPeersIter_into_result it →
  (d, e) ∈ cpi_closest_peers it → key_preimage (peer_key e) = p → peer_state e = Succeeded.
Proof.
  intros Hinv Hp Hin Hpe. apply elem_of_take in Hp as (i & Hi%list_elem_of_lookup_2 & _).
  apply list_elem_of_omap in Hi as ([d' e'] & Hin' & He'). simpl in He'.
  destruct (peer_state e') eqn:Hs; simplify_eq.
  by destruct (cpi_entry_unique it d' d e' e Hinv Hin' Hin) as [_ <-].
Qed.

(** What [next] answers on an iterator that is not finished.  It hands out
    a peer only below the permitted parallelism, and then the closest peer not
    contacted yet; it waits without handing out a peer only if there is a peer
    to wait for or the parallelism is exhausted; and when it finishes, its
    result is exactly the [num_results] closest known peers among those that
    neither failed nor timed out. *)
Theorem ClosestPeersIter_next_spec (it : ClosestPeersIter) (now : N) :
  cpi_inv it → cpi_state it ≠ Finished →
  ∃ r it', ClosestPeersIter_next it now = Ret (r, it') ∧
  match r with
  | IterWaiting (Some q) =>
      ClosestPeersIter_at_capacity it = false ∧
      ∃ d p, (d, p) ∈ cpi_closest_peers it ∧ peer_state p = NotContacted ∧
        q = key_preimage (peer_key p) ∧
        (d, mkPeer (peer_key p) (Waiting (now + peer_timeout (cpi_config it))%N)) ∈ cpi_closest_peers it' ∧
        ∀ d' p', (d', p') ∈ cpi_closest_peers it → (d' < d)%N → peer_state p' ≠ NotContacted
  | IterWaiting None =>
      0 < ClosestPeersIter_num_waiting it' ∧
      ∀ d p, (d, p) ∈ cpi_closest_peers it' → peer_state p ≠ NotContacted
  | IterWaitingAtCapacity =>
      ClosestPeersIter_at_capacity it = true ∧
      ∃ d p, (d, p) ∈ cpi_closest_peers it' ∧ is_active (peer_state p) = true
  | IterFinished =>
      ClosestPeersIter_is_finished it' = true ∧
      ClosestPeersIter_into_result it' =
        take (Pos.to_nat (num_results (cpi_config it))) (candidates it')
  end.
Proof.
  intros Hinv Hf. destruct (ClosestPeersIter_next_unfold it now Hinv Hf)
    as (l1 & l2 & l2' & nw' & r & Hps & Hl1 & Hpost & Hnw & Hn). rewrite Hn.
  destruct r as [[q| |]|]; simpl in Hpost, Hn |- *.
  - destruct Hpost as (Hcap & d & p & rest & -> & Hs & -> & ->). do 2 eexists. split; [done|].
    split; [done|]. exists d, p. rewrite Hps. split_and!; [set_solver|done|done|simpl; set_solver|].
    pose proof (inv_sorted _ Hinv) as Hwf. rewrite Hps in Hwf.
    unfold bt_wf in Hwf. rewrite fmap_app in Hwf. apply StronglySorted_app in Hwf as (_ & _ & Hwf).
    intros d' p' [Hin|Hin]%elem_of_app Hlt; [rewrite Forall_forall in Hl1; by apply (Hl1 (d', p'))|].
    exfalso. apply bt_first_least in Hin; [lia|done].
  - destruct Hpost as (Hcap & -> & Hf1 & d & p & rest & -> & Hact). do 2 eexists. split; [done|].
    split; [done|]. exists d, p. split; [simpl; set_solver|].
    unfold expire_peer in Hact. destruct (peer_state p) eqn:E; by rewrite ?E in Hact.
  - destruct Hpost as (-> & Hf1 & d & p & rest & cnt & -> & Hs & [= <-] & Hc). do 2 eexists.
    split; [done|]. split; [done|]. by eapply (next_finished_result it now).
  - destruct Hpost as (-> & -> & _). rewrite app_nil_r in *. apply (expire_contacted now) in Hl1.
    destruct (decide (0 < nw')) as [Hw|Hw]; do 2 eexists; (split; [done|]).
    + split; [done|]. intros d p Hin. simpl in Hin. rewrite Forall_forall in Hl1. by apply (Hl1 (d, p)).
    + split; [done|]. by eapply (next_finished_result it now).
Qed.
End closest_peers_iter.
