(* ===== verification/KadLookup.v ===== *)
(** * Convergence of a Kademlia lookup

    What the iterator of [protocols/kad/src/query/peers/closest.rs] finds in a
    network: if every peer that answers reports a closer peer whenever there
    is one, a lookup ends at the peer closest to the target, whatever the
    order of the answers.  The file also holds the concrete iterators on which
    the theorems about the iterator are instantiated. *)

From stdpp Require Import prelude.
From S2P Require Import Prelude KadKey BTreeMap KadBucket KadPeers.

Section lookup.
Context {PeerId : Type} `{!EqDecision PeerId}.
Context (sha256 : list byte → KeyBytes) (to_bytes : PeerId → list byte).
Context (config : ClosestPeersIterConfig) (target : KeyBytes).
Context (live : PeerId → Prop) (respond : PeerId → list PeerId).

Definition dist (p : PeerId) : Distance := Key_distance (Key_from_PeerId sha256 to_bytes p) target.

(** Exactly the peers in [live] answer, with the peers [respond] says. *)
Definition op_honest (op : cpi_op (PeerId := PeerId)) : Prop :=
  match op with
  | OpResult p (Some cl) => live p ∧ cl = respond p
  | OpResult p None => ¬ live p
  | OpNext _ | OpFinish => True
  end.

(** The keys of live peers do not collide with the keys of other peers. *)
Definition collision_free : Prop := ∀ p q, live p → dist q = dist p → q = p.

(** A live peer is the closest live peer, or reports a live peer closer than itself. *)
Definition reports_closer : Prop :=
  ∀ p, live p → (∀ q, live q → (dist p ≤ dist q)%N) ∨
    ∃ q, q ∈ respond p ∧ live q ∧ (dist q < dist p)%N.

Definition known_at (d : Distance) (it : ClosestPeersIter) : Prop :=
  ∃ e, (d, e) ∈ cpi_closest_peers (PeerId := PeerId) it.

Record lookup_inv (it : ClosestPeersIter) : Prop := {
  li_inv : cpi_inv sha256 to_bytes it;
  li_target : cpi_target it = target;
  li_succeeded d e : (d, e) ∈ cpi_closest_peers it → peer_state e = Succeeded →
    live (key_preimage (peer_key e)) ∧
    ∀ q, q ∈ respond (key_preimage (peer_key e)) → known_at (dist q) it;
  li_failed d e : (d, e) ∈ cpi_closest_peers it → peer_state e = Failed →
    ¬ live (key_preimage (peer_key e))
}.

Lemma entry_dist it d e :
  lookup_inv it → (d, e) ∈ cpi_closest_peers it → d = dist (key_preimage (peer_key e)).
Proof.
  intros Hli Hin. destruct (inv_keys _ _ _ (li_inv _ Hli) _ _ Hin) as [Hk ->].
  unfold dist. by rewrite <-Hk, (li_target _ Hli).
Qed.

Lemma known_at_evolve it it' d :
  peers_evolve (cpi_closest_peers it) (cpi_closest_peers it') → known_at d it → known_at d it'.
Proof. intros [Hev _] [e He]. destruct (Hev _ _ He) as (e' & He' & _). by exists e'. Qed.

Lemma lookup_inv_next it now r it' :
  lookup_inv it → ClosestPeersIter_next it now = Ret (r, it') → lookup_inv it'.
Proof.
  intros Hli Hn. destruct (ClosestPeersIter_next_inv _ _ it now (li_inv _ Hli))
    as (r2 & it2 & Hn2 & Hinv & Hc & Ht & Hev). rewrite Hn in Hn2. simplify_eq.
  pose proof (ClosestPeersIter_next_quiet _ _ _ _ _ _ (li_inv _ Hli) Hn) as Hq.
  constructor; [done|by rewrite Ht, (li_target _ Hli)| |].
  - intros d e Hin Hs. destruct (Hq _ _ Hin) as [Hold|Hnew]; [|by rewrite Hs in Hnew; destruct Hnew as [[? ?]|?]].
    destruct (li_succeeded _ Hli _ _ Hold Hs) as [Hl Hk]. split; [done|].
    intros q Hq'. eapply known_at_evolve; [done|by apply Hk].
  - intros d e Hin Hs. destruct (Hq _ _ Hin) as [Hold|Hnew]; [|by rewrite Hs in Hnew; destruct Hnew as [[? ?]|?]].
    by eapply li_failed.
Qed.

Lemma lookup_inv_result it p cl b it' :
  collision_free → lookup_inv it → op_honest (OpResult p cl) →
  result_of sha256 to_bytes cl it p = Ret (b, it') → lookup_inv it'.
Proof.
  intros Hcf Hli Hop Hr. pose proof (li_inv _ Hli) as Hinv.
  destruct (result_of_spec sha256 to_bytes cl it p Hinv) as (it2 & Hr2 & Hinv2 & Hc & Ht & Hspec).
  rewrite Hr in Hr2. simplify_eq. destruct (result_expected sha256 to_bytes it p); [|by subst].
  destruct Hspec as (e & ps & Hget & Hex & Hps & Hev & Hwf & Hx & Hcl).
  rewrite (li_target _ Hli) in Hget, Hps, Hcl. fold (dist p) in Hget, Hps.
  rewrite bt_get_Some in Hget by apply Hinv.
  assert (live p ∨ live (key_preimage (peer_key e)) → key_preimage (peer_key e) = p) as Hpe.
  { pose proof (entry_dist _ _ _ Hli Hget) as Hd. intros [?|?]; [by apply Hcf|].
    symmetry. by apply Hcf. }
  assert (∀ d, known_at d it → known_at d it2) as Hmono.
  { intros d. apply known_at_evolve. by eapply peers_evolve_extend. }
  assert (∀ d e', (d, e') ∈ cpi_closest_peers it2 → peer_state e' ≠ NotContacted →
    (d, e') ∈ cpi_closest_peers it ∨ (d = dist p ∧ e' = mkPeer (peer_key e) (result_state cl))) as Hcases.
  { intros d e' Hin Hne. destruct Hx as [_ Hx]. destruct (Hx _ _ Hin) as [Hin2|(q & _ & ->)]; [|done].
    rewrite Hps in Hin2. apply bt_insert_elem in Hin2 as [[-> ->]|[_ ?]]; [by right|by left|apply Hinv]. }
  constructor; [done|by rewrite Ht, (li_target _ Hli)| |].
  - intros d e' Hin Hs. destruct (Hcases d e' Hin) as [Hold|[-> ->]]; [by rewrite Hs| |].
    { destruct (li_succeeded _ Hli _ _ Hold Hs) as [Hl Hk]. split; [done|]. auto. }
    destruct cl as [cl|]; [|done]. destruct Hop as [Hl ->]. cbn [peer_key].
    rewrite Hpe by (by left). split; [done|]. intros q Hq.
    destruct (Hcl q Hq) as [e2 He2]. exists e2. unfold dist, Key_distance.
    rewrite KeyBytes_distance_comm. exact He2.
  - intros d e' Hin Hs. destruct (Hcases d e' Hin) as [Hold|[-> ->]]; [by rewrite Hs| |].
    { by eapply li_failed. }
    destruct cl as [cl|]; [done|]. cbn [peer_key]. intros Hl. apply Hop. rewrite Hpe in Hl; [done|by right].
Qed.

Lemma lookup_inv_run ops it qs it' :
  collision_free → lookup_inv it → Forall op_honest ops →
  cpi_run sha256 to_bytes ops it = Ret (qs, it') →
  lookup_inv it' ∧ ∀ d, known_at d it → known_at d it'.
Proof.
  intros Hcf. revert it qs. induction ops as [|op ops IH]; intros it qs Hli Hops Hrun; simpl in Hrun.
  { by simplify_eq. }
  apply Forall_cons in Hops as [Hop Hops].
  destruct (cpi_apply_spec sha256 to_bytes op it (li_inv _ Hli)) as (q & it1 & Happ & _ & _ & _ & Hev & _).
  rewrite Happ in Hrun. simpl in Hrun.
  assert (lookup_inv it1) as Hli1.
  { destruct op as [now|p cl|]; simpl in Happ.
    - destruct (ClosestPeersIter_next it now) as [[r it2]|] eqn:En; simplify_eq/=. by eapply lookup_inv_next.
    - destruct (result_of sha256 to_bytes cl it p) as [[r it2]|] eqn:Er; simplify_eq/=. by eapply lookup_inv_result.
    - simplify_eq. destruct Hli as [[] Ht Hs Hf].
      constructor; [by constructor|done|exact Hs|exact Hf]. }
  destruct (cpi_run sha256 to_bytes ops it1) as [[qs' it2]|] eqn:E; simplify_eq/=.
  destruct (IH it1 _ Hli1 Hops E) as [Hli' Hmono]. split; [done|].
  intros d Hd. apply Hmono. by eapply known_at_evolve.
Qed.

Lemma lookup_inv_new known :
  Forall (key_ok sha256 to_bytes) known →
  lookup_inv (ClosestPeersIter_with_config config target known).
Proof.
  intros Hok. assert (∀ d e, (d, e) ∈ cpi_closest_peers (ClosestPeersIter_with_config config target known) →
    peer_state e = NotContacted) as Hnc.
  { intros d e Hin%bt_from_iter_elem. apply elem_of_take in Hin as (i & Hi%list_elem_of_lookup_2 & _).
    by apply list_elem_of_fmap in Hi as (k & [= -> ->] & Hk). }
  constructor; [by apply with_config_inv|done| |]; intros d e Hin; by rewrite (Hnc _ _ Hin).
Qed.

Lemma known_at_new known p :
  Key_from_PeerId sha256 to_bytes p ∈ take K_VALUE known →
  known_at (dist p) (ClosestPeersIter_with_config config target known).
Proof.
  intros Hin. unfold known_at, ClosestPeersIter_with_config. cbn [cpi_closest_peers].
  apply (bt_from_iter_mem _ _ (mkPeer (Key_from_PeerId sha256 to_bytes p) NotContacted)).
  rewrite <-fmap_take. apply list_elem_of_fmap. by eexists.
Qed.

(** The first of the candidates is the closest of them. *)
Lemma candidates_head ps (c : PeerId) :
  bt_wf ps → head (candidates_of ps) = Some c →
  ∃ d e, (d, e) ∈ ps ∧ key_preimage (peer_key e) = c ∧
    ∀ d' e', (d', e') ∈ ps → peer_state e' ≠ Failed → peer_state e' ≠ Unresponsive → (d ≤ d')%N.
Proof.
  induction ps as [|[d e] ps IH]; [done|]. intros Hwf. pose proof Hwf as [Hwf' _]%bt_wf_cons.
  unfold candidates_of. simpl. fold (candidates_of ps).
  assert (head (candidates_of ps) = Some c → peer_state e = Failed ∨ peer_state e = Unresponsive →
    ∃ d0 e0, (d0, e0) ∈ (d, e) :: ps ∧ key_preimage (peer_key e0) = c ∧
    ∀ d' e', (d', e') ∈ (d, e) :: ps → peer_state e' ≠ Failed → peer_state e' ≠ Unresponsive →
      (d0 ≤ d')%N) as Hskip.
  { intros Hh Hst. destruct (IH Hwf' Hh) as (d1 & e1 & Hin & Hc & Hmin). exists d1, e1.
    split_and!; [by right|done|]. intros d' e' [?|?]%elem_of_cons; [|by eauto].
    simplify_eq. naive_solver. }
  destruct (peer_state e) eqn:E; try (intros [= <-]); try (intros Hh; apply Hskip; by auto).
  all: exists d, e; split_and!; [by left|done|]; intros d' e' Hin' _ _;
    by apply (bt_first_least d e ps d' e').
Qed.

Lemma candidates_elem ps d (e : Peer (PeerId := PeerId)) :
  (d, e) ∈ ps → peer_state e ≠ Failed → peer_state e ≠ Unresponsive →
  key_preimage (peer_key e) ∈ candidates_of ps.
Proof.
  intros Hin Hf Hu. apply list_elem_of_omap. exists (d, e). split; [done|]. by destruct (peer_state e).
Qed.

Lemma head_take {A} (n : nat) (l : list A) : 0 < n → head (take n l) = head l.
Proof. intros Hn. destruct n; [lia|]. by destruct l. Qed.

(** [C4] A lookup converges: let every live peer report a live peer closer to the
    target unless it is the closest one itself, let exactly the live peers
    answer, and let the iterator start from at least one live peer.  When the
    iterator finishes, whatever the interleaving of requests and answers and
    whichever other peers failed, the first peer of its result is the live
    peer closest to the target. *)
Theorem ClosestPeersIter_finds_closest (known : list (Key PeerId)) (ops : list cpi_op)
    (qs : list PeerId) (it it' : ClosestPeersIter) (now : N) (p0 : PeerId) :
  Forall (key_ok sha256 to_bytes) known → collision_free → reports_closer →
  Forall op_honest ops →
  live p0 → Key_from_PeerId sha256 to_bytes p0 ∈ take K_VALUE known →
  cpi_run sha256 to_bytes ops (ClosestPeersIter_with_config config target known) = Ret (qs, it) →
  cpi_state it ≠ Finished →
  ClosestPeersIter_next it now = Ret (IterFinished, it') →
  (∀ d e, (d, e) ∈ cpi_closest_peers it' → peer_state e = Unresponsive →
     ¬ live (key_preimage (peer_key e))) →
  ∃ c, head (ClosestPeersIter_into_result it') = Some c ∧ live c ∧
       ∀ q, live q → (dist c ≤ dist q)%N.
Proof.
  intros Hok Hcf Hrep Hops Hp0 Hin0 Hrun Hst Hn Hunr.
  destruct (lookup_inv_run ops _ _ _ Hcf (lookup_inv_new known Hok) Hops Hrun) as [Hli Hmono].
  pose proof (lookup_inv_next _ _ _ _ Hli Hn) as Hli'.
  destruct (ClosestPeersIter_next_inv _ _ it now (li_inv _ Hli)) as (r & it2 & Hn2 & _ & _ & _ & Hev).
  rewrite Hn in Hn2. symmetry in Hn2. simplify_eq.
  pose proof (next_finished_result _ _ it now _ (li_inv _ Hli) Hst Hn) as Hres.
  (* every live peer that is known is a candidate *)
  assert (∀ q, live q → known_at (dist q) it' → ∃ e, (dist q, e) ∈ cpi_closest_peers it' ∧
            key_preimage (peer_key e) = q ∧ peer_state e ≠ Failed ∧ peer_state e ≠ Unresponsive) as Hlive.
  { intros q Hq [e He]. pose proof (entry_dist _ _ _ Hli' He) as Hd. symmetry in Hd.
    apply Hcf in Hd; [|done]. exists e. split_and!; [done..| |]; intros Hs.
    - by apply (li_failed _ Hli' _ _ He Hs); rewrite Hd.
    - by apply (Hunr _ _ He Hs); rewrite Hd. }
  destruct (Hlive p0 Hp0) as (e0 & He0 & Hpre0 & Hnf0 & Hnu0).
  { eapply known_at_evolve; [done|]. apply Hmono. by apply known_at_new. }
  destruct (head (candidates it')) as [c|] eqn:Hc.
  2:{ apply (candidates_elem _ _ _ He0 Hnf0) in Hnu0. unfold candidates in Hc.
      apply head_None in Hc. rewrite Hc in Hnu0. by apply elem_of_nil in Hnu0. }
  exists c. rewrite Hres, head_take by lia. split; [done|].
  destruct (candidates_head _ _ (inv_sorted _ _ _ (li_inv _ Hli')) Hc) as (d & e & He & Hpe & Hmin).
  assert (c ∈ ClosestPeersIter_into_result it') as Hcin.
  { apply head_Some_elem_of. by rewrite Hres, head_take by lia. }
  assert (peer_state e = Succeeded) as Hs.
  { by apply (into_result_succeeded sha256 to_bytes it' c d e (li_inv _ Hli')). }
  destruct (li_succeeded _ Hli' _ _ He Hs) as [Hlc Hresp]. rewrite Hpe in Hlc, Hresp.
  split; [done|]. destruct (Hrep c Hlc) as [?|(q & Hq & Hlq & Hlt)]; [done|exfalso].
  destruct (Hlive q Hlq (Hresp q Hq)) as (e1 & He1 & _ & Hnf & Hnu).
  specialize (Hmin _ _ He1 Hnf Hnu). rewrite (entry_dist _ _ _ Hli' He), Hpe in Hmin. lia.
Qed.
End lookup.

(** ** Concrete iterators

    Peer ids are single bytes and their keys the bytes themselves, so that the
    distance to the zero key is the value of the byte. *)
Definition byte_key (l : list byte) : KeyBytes := N_to_be 32 (be_to_N l).
Definition byte_bytes (b : byte) : list byte := [b].
Definition zero_key : KeyBytes := vreplicate 32 Byte.x00.
Definition byte_peer (b : byte) : Key byte := Key_from_PeerId byte_key byte_bytes b.

Lemma byte_dist (b : byte) : dist byte_key byte_bytes zero_key b = b2N b.
Proof. by destruct b; vm_compute. Qed.

(** Peers 1, 2 and 3 are alive, 2 and 3 report the peer before them; peer 9 fails. *)
Definition sample_live (b : byte) : Prop := b = Byte.x01 ∨ b = Byte.x02 ∨ b = Byte.x03.
Definition sample_respond (b : byte) : list byte :=
  if decide (b = Byte.x03) then [Byte.x02; Byte.x09]
  else if decide (b = Byte.x02) then [Byte.x01] else [].
Definition sample_config : ClosestPeersIterConfig := mkClosestPeersIterConfig 2 2 10.
Definition sample_known : list (Key byte) := [byte_peer Byte.x03; byte_peer Byte.x09].
Definition sample_ops : list cpi_op :=
  [OpNext 0; OpNext 0; OpNext 1;
   OpResult Byte.x03 (Some (sample_respond Byte.x03)); OpNext 2; OpResult Byte.x09 None;
   OpResult Byte.x02 (Some (sample_respond Byte.x02)); OpNext 3;
   OpResult Byte.x01 (Some (sample_respond Byte.x01))].
Definition sample_new : ClosestPeersIter := ClosestPeersIter_with_config sample_config zero_key sample_known.
Definition sample_run : list byte * ClosestPeersIter :=
  match cpi_run byte_key byte_bytes sample_ops sample_new with
  | Ret x => x
  | Panic => ([], sample_new)
  end.
Definition sample_finished : ClosestPeersIter :=
  match ClosestPeersIter_next (sample_run.2) 4 with Ret (_, it) => it | Panic => sample_new end.

Lemma sample_known_ok : Forall (key_ok byte_key byte_bytes) sample_known.
Proof. by repeat constructor. Qed.

Lemma sample_finished_responsive :
  Forall (λ e, peer_state e.2 ≠ Unresponsive) (cpi_closest_peers sample_finished).
Proof. vm_compute. by repeat constructor. Qed.

Lemma ClosestPeersIter_finds_closest_witness :
  ∃ c, head (ClosestPeersIter_into_result sample_finished) = Some c ∧ sample_live c ∧
       ∀ q, sample_live q →
         (dist byte_key byte_bytes zero_key c ≤ dist byte_key byte_bytes zero_key q)%N.
Proof.
  apply (ClosestPeersIter_finds_closest byte_key byte_bytes sample_config zero_key sample_live
           sample_respond sample_known sample_ops (sample_run.1) (sample_run.2) sample_finished 4 Byte.x03).
  - apply sample_known_ok.
  - intros p q _. rewrite !byte_dist. apply (inj b2N).
  - intros p [->|[->| ->]]; [left|right; exists Byte.x01|right; exists Byte.x02]; rewrite ?byte_dist.
    + intros q [->|[->| ->]]; by rewrite byte_dist.
    + split_and!; [left|by left|done].
    + split_and!; [left|by right; left|done].
  - unfold sample_ops. rewrite !Forall_cons, Forall_nil.
    split_and!; try done; [|by intros [?|[?|?]]|..]; (split; [unfold sample_live; auto|done]).
  - by do 2 right.
  - left.
  - vm_compute. reflexivity.
  - vm_compute. discriminate.
  - vm_compute. reflexivity.
  - intros d e Hin Hu. pose proof sample_finished_responsive as Hr. rewrite Forall_forall in Hr.
    by apply Hr in Hin.
Defined.

Lemma ClosestPeersIter_run_safe_witness :
  ∃ qs it, cpi_run byte_key byte_bytes sample_ops sample_new = Ret (qs, it) ∧
    StronglySorted N.lt (cpi_closest_peers it).*1 ∧
    (∀ d p, (d, p) ∈ cpi_closest_peers it → d = Key_distance (peer_key p) zero_key) ∧
    ClosestPeersIter_num_waiting it = length (ClosestPeersIter_waiting it) ∧
    ClosestPeersIter_num_waiting it ≤ 2 ∧
    NoDup qs ∧ length qs ≤ length (cpi_closest_peers it).
Proof. apply (ClosestPeersIter_run_safe byte_key byte_bytes sample_config zero_key sample_known sample_ops), sample_known_ok. Defined.

Lemma ClosestPeersIter_next_spec_witness :
  ∃ r it', ClosestPeersIter_next sample_new 5 = Ret (r, it') ∧ r = IterWaiting (Some Byte.x03).
Proof.
  destruct (ClosestPeersIter_next_spec byte_key byte_bytes sample_new 5) as (r & it' & Hn & _).
  - apply with_config_inv, sample_known_ok.
  - discriminate.
  - exists r, it'. split; [exact Hn|]. vm_compute in Hn. by simplify_eq.
Defined.

(** ** Where the iterator departs from its documentation *)

(** An iterator for one result and one request at a time that waits for peer 9. *)
Definition one_new : ClosestPeersIter :=
  ClosestPeersIter_with_config (mkClosestPeersIterConfig 1 1 10) zero_key [byte_peer Byte.x09; byte_peer Byte.x0a].
Definition one_waiting : ClosestPeersIter :=
  match ClosestPeersIter_next one_new 0 with Ret (_, it) => it | Panic => one_new end.

(** Of the peers that a response reports only the last one decides whether
    the iterator makes progress: the same two peers, one of them closer than
    any peer known so far, stall the iterator in one order and count as
    progress in the other. *)
Theorem on_success_last_peer_decides :
  (∃ it, ClosestPeersIter_on_success byte_key byte_bytes one_waiting Byte.x09 [Byte.x01; Byte.x20]
           = Ret (true, it) ∧ cpi_state it = Stalled) ∧
  (∃ it, ClosestPeersIter_on_success byte_key byte_bytes one_waiting Byte.x09 [Byte.x20; Byte.x01]
           = Ret (true, it) ∧ cpi_state it = Iterating 0).
Proof. split; eexists; (split; [vm_compute; reflexivity|done]). Qed.

(** [next] can answer that it is waiting at capacity although it waits for no
    peer at all: the capacity is checked before the peers that timed out are
    discounted. *)
Theorem next_at_capacity_waiting_for_none :
  ∃ it, ClosestPeersIter_next one_waiting 10 = Ret (IterWaitingAtCapacity, it) ∧
    ClosestPeersIter_num_waiting it = 0 ∧ ClosestPeersIter_at_capacity it = false.
Proof. eexists. split; [vm_compute; reflexivity|done]. Qed.
