(* ===== verification/KadFixed.v ===== *)
(** * The iterator over a fixed set of peers

    [protocols/kad/src/query/peers/fixed.rs].  The peers are handed out in the
    given order, duplicates skipped, at most [parallelism] at a time.  The
    [FnvHashMap] of peer states is a [gmap]; [into_result] leaves the order of
    its peers unspecified, so only membership in it is meaningful. *)

From stdpp Require Import prelude fin_maps.
From S2P Require Import Prelude KadPeers.

Inductive FixedState : Type :=
| FixedWaiting (num_waiting : nat)
| FixedFinished.

Inductive FixedPeerState : Type :=
| FpWaiting
| FpFailed
| FpSucceeded.

#[export] Instance FixedState_eq_dec : EqDecision FixedState.
Proof. solve_decision. Defined.
#[export] Instance FixedPeerState_eq_dec : EqDecision FixedPeerState.
Proof. solve_decision. Defined.

Section fixed_peers_iter.
Context {PeerId : Type} `{Countable PeerId}.

Record FixedPeersIter : Type := mkFixedPeersIter {
  fpi_parallelism : positive;
  fpi_peers : gmap PeerId FixedPeerState;
  fpi_iter : list PeerId;
  fpi_state : FixedState
}.

Implicit Types it : FixedPeersIter.

(** ** Operations *)

Definition FixedPeersIter_new (peers : list PeerId) (parallelism : positive) : FixedPeersIter :=
  mkFixedPeersIter parallelism ∅ peers (FixedWaiting 0).

(** The common body of [on_success] and [on_failure]. *)
Definition fixed_result (st : FixedPeerState) (it : FixedPeersIter) (peer : PeerId)
  : outcome (bool * FixedPeersIter) :=
  match fpi_state it with
  | FixedWaiting num_waiting =>
      match fpi_peers it !! peer with
      | Some FpWaiting =>
          num_waiting ← usize_sub num_waiting 1;
          Ret (true, mkFixedPeersIter (fpi_parallelism it) (<[peer := st]> (fpi_peers it))
                       (fpi_iter it) (FixedWaiting num_waiting))
      | _ => Ret (false, it)
      end
  | FixedFinished => Ret (false, it)
  end.

Definition FixedPeersIter_on_success : FixedPeersIter → PeerId → outcome (bool * FixedPeersIter) :=
  fixed_result FpSucceeded.
Definition FixedPeersIter_on_failure : FixedPeersIter → PeerId → outcome (bool * FixedPeersIter) :=
  fixed_result FpFailed.

Definition FixedPeersIter_is_waiting (it : FixedPeersIter) (peer : PeerId) : bool :=
  bool_decide (fpi_peers it !! peer = Some FpWaiting).

Definition FixedPeersIter_finish (it : FixedPeersIter) : FixedPeersIter :=
  match fpi_state it with
  | FixedWaiting _ => mkFixedPeersIter (fpi_parallelism it) (fpi_peers it) (fpi_iter it) FixedFinished
  | FixedFinished => it
  end.

Definition FixedPeersIter_is_finished (it : FixedPeersIter) : bool :=
  bool_decide (fpi_state it = FixedFinished).

(** The loop of [next] over the backlog. *)
Fixpoint fixed_next_loop (par : positive) (peers : gmap PeerId FixedPeerState) (num_waiting : nat)
    (iter : list PeerId) : PeersIterState PeerId * FixedPeersIter :=
  match iter with
  | [] =>
      if decide (num_waiting = 0)
      then (IterFinished, mkFixedPeersIter par peers [] FixedFinished)
      else (IterWaiting None, mkFixedPeersIter par peers [] (FixedWaiting num_waiting))
  | p :: iter =>
      match peers !! p with
      | Some _ => fixed_next_loop par peers num_waiting iter
      | None => (IterWaiting (Some p),
                 mkFixedPeersIter par (<[p := FpWaiting]> peers) iter (FixedWaiting (num_waiting + 1)))
      end
  end.

Definition FixedPeersIter_next (it : FixedPeersIter) : PeersIterState PeerId * FixedPeersIter :=
  match fpi_state it with
  | FixedFinished => (IterFinished, it)
  | FixedWaiting num_waiting =>
      if decide (Pos.to_nat (fpi_parallelism it) ≤ num_waiting) then (IterWaitingAtCapacity, it)
      else fixed_next_loop (fpi_parallelism it) (fpi_peers it) num_waiting (fpi_iter it)
  end.

Definition FixedPeersIter_into_result (it : FixedPeersIter) : list PeerId :=
  omap (λ '(p, s), match s with FpSucceeded => Some p | _ => None end) (map_to_list (fpi_peers it)).

(** ** Sequences of operations *)

Inductive fixed_op : Type :=
| FixedNext
| FixedResult (peer : PeerId) (st : FixedPeerState)
| FixedFinish.

(** [FixedResult] stands for [on_success] or [on_failure]. *)
Definition fixed_apply (op : fixed_op) (it : FixedPeersIter) : outcome (option PeerId * FixedPeersIter) :=
  match op with
  | FixedNext =>
      let '(r, it) := FixedPeersIter_next it in
      Ret (match r with IterWaiting q => q | _ => None end, it)
  | FixedResult p st =>
      '(_, it) ← (if decide (st = FpSucceeded) then FixedPeersIter_on_success it p
                  else FixedPeersIter_on_failure it p);
      Ret (None, it)
  | FixedFinish => Ret (None, FixedPeersIter_finish it)
  end.

(** ** Invariant *)

Definition fixed_waiting (m : gmap PeerId FixedPeerState) : nat :=
  map_count (λ x, x.2 = FpWaiting) m.

(** [qs] are the peers handed out so far, [peers0] all peers of the iterator. *)
Record fixed_inv (peers0 qs : list PeerId) (it : FixedPeersIter) : Prop := {
  fi_nodup : NoDup qs;
  fi_dom p : is_Some (fpi_peers it !! p) ↔ p ∈ qs;
  fi_all p : p ∈ peers0 ↔ p ∈ qs ∨ p ∈ fpi_iter it;
  fi_waiting nw : fpi_state it = FixedWaiting nw →
    nw = fixed_waiting (fpi_peers it) ∧ nw ≤ Pos.to_nat (fpi_parallelism it)
}.

Lemma fixed_inv_new peers0 par : fixed_inv peers0 [] (FixedPeersIter_new peers0 par).
Proof.
  constructor; simpl.
  - constructor.
  - intros p. rewrite lookup_empty, elem_of_nil. split; [by intros []|done].
  - set_solver.
  - intros nw [= <-]. unfold fixed_waiting. rewrite map_count_empty. split; [done|lia].
Qed.

(** Some peer is waited for. *)
Lemma fixed_waiting_pos (m : gmap PeerId FixedPeerState) : 0 < fixed_waiting m → ∃ p, m !! p = Some FpWaiting.
Proof.
  unfold fixed_waiting, map_count. intros Hs. destruct (decide (filter (λ x, x.2 = FpWaiting) m = ∅)) as [E|Hne].
  { rewrite E, map_size_empty in Hs. lia. }
  apply map_choose in Hne as (p & st & [Hp E]%map_lookup_filter_Some). simpl in E. subst. by exists p.
Qed.

(** [next] hands out the first peer of the backlog that has not been handed out. *)
Lemma fixed_next_loop_spec peers0 qs par m nw iter :
  fixed_inv peers0 qs (mkFixedPeersIter par m iter (FixedWaiting nw)) → nw < Pos.to_nat par →
  (let '(r, it') := fixed_next_loop par m nw iter in
  match r with
  | IterWaiting (Some q) => (q ∉ qs) ∧ fixed_inv peers0 (qs ++ [q]) it'
  | IterWaiting None => fixed_inv peers0 qs it' ∧ fpi_iter it' = [] ∧ 0 < nw
  | IterFinished => fixed_inv peers0 qs it' ∧ fpi_iter it' = [] ∧
      fpi_state it' = FixedFinished ∧ nw = 0 ∧ fpi_peers it' = m
  | IterWaitingAtCapacity => False
  end).
Proof.
  intros Hinv Hnw. induction iter as [|p iter IH]; simpl.
  { case_decide as Hz; [split_and!; try done|split_and!; [done..|lia]].
    by destruct Hinv; constructor. }
  destruct Hinv as [Hnd Hdom Hall Hw]; simpl in *. destruct (m !! p) as [st|] eqn:Hp.
  - apply IH. constructor; simpl; try done. intros q. rewrite Hall, elem_of_cons.
    split; [|naive_solver]. intros [?|[->|?]]; [by left| |by right]. left. apply Hdom. by rewrite Hp.
  - assert (p ∉ qs) as Hnin by (intros [? Hs]%Hdom; congruence). split; [done|]. constructor; simpl.
    + apply NoDup_app. split_and!; [done| |apply NoDup_singleton]. set_solver.
    + intros q. rewrite lookup_insert_is_Some, elem_of_app, list_elem_of_singleton, <-Hdom.
      destruct (decide (p = q)) as [->|]; naive_solver.
    + intros q. rewrite Hall. set_solver.
    + intros nw' [= <-]. split; [|lia]. destruct (Hw nw eq_refl) as [-> _].
      pose proof (map_count_insert (λ x : PeerId * FixedPeerState, x.2 = FpWaiting) m p FpWaiting) as Hc.
      rewrite Hp in Hc. unfold count1, fixed_waiting in *. simpl in Hc. lia.
Qed.

Lemma fixed_result_spec peers0 qs it p st :
  fixed_inv peers0 qs it → st ≠ FpWaiting →
  ∃ b it', fixed_result st it p = Ret (b, it') ∧ fixed_inv peers0 qs it' ∧
    b = negb (FixedPeersIter_is_finished it) && FixedPeersIter_is_waiting it p ∧
    (if b then fpi_peers it' = <[p := st]> (fpi_peers it) ∧ fpi_state it' ≠ FixedFinished
     else it' = it).
Proof.
  intros Hinv Hst. pose proof Hinv as [Hnd Hdom Hall Hw]. unfold fixed_result, FixedPeersIter_is_finished, FixedPeersIter_is_waiting.
  destruct (fpi_state it) as [nw|] eqn:Es; [|by exists false, it; rewrite bool_decide_true].
  rewrite (bool_decide_false (FixedWaiting nw = _)) by done. simpl.
  destruct (decide (fpi_peers it !! p = Some FpWaiting)) as [Hp|Hp].
  - rewrite Hp, bool_decide_true by done. destruct (Hw nw eq_refl) as [-> Hle].
    assert (0 < fixed_waiting (fpi_peers it)) by (by eapply map_count_pos).
    rewrite usize_sub_le by lia. simpl. do 2 eexists. split; [done|]. split; [|done].
    constructor; simpl; try done.
    + intros q. rewrite lookup_insert_is_Some, <-Hdom.
      destruct (decide (p = q)) as [->|]; [rewrite Hp|]; naive_solver.
    + intros nw' [= <-]. split; [|lia].
      pose proof (map_count_insert (λ x : PeerId * FixedPeerState, x.2 = FpWaiting) (fpi_peers it) p st) as Hc.
      rewrite Hp in Hc. unfold count1, fixed_waiting in *. simpl in Hc.
      rewrite decide_False in Hc by done. lia.
  - rewrite bool_decide_false by done. exists false, it. split_and!; try done.
    by destruct (fpi_peers it !! p) as [[]|].
Qed.

Lemma fixed_apply_spec peers0 qs op it :
  fixed_inv peers0 qs it → ∃ q it', fixed_apply op it = Ret (q, it') ∧
    fixed_inv peers0 (qs ++ option_list q) it' ∧ fpi_parallelism it' = fpi_parallelism it.
Proof.
  intros Hinv. destruct op as [|p st|]; simpl.
  - unfold FixedPeersIter_next. destruct it as [par m iter [nw|]]; simpl in *.
    + case_decide as Hcap; [do 2 eexists; split; [done|]; by rewrite app_nil_r|].
      pose proof (fixed_next_loop_spec peers0 qs par m nw iter Hinv) as Hl.
      assert (fpi_parallelism (fixed_next_loop par m nw iter).2 = par) as Hpar.
      { clear. induction iter as [|p iter IH]; simpl; [by case_decide|]. by destruct (m !! p). }
      destruct (fixed_next_loop par m nw iter) as [r it']. simpl in Hpar.
      do 2 eexists. split; [done|]. split; [|done]. specialize (Hl ltac:(lia)).
      destruct r as [[q|]| |]; simpl; rewrite ?app_nil_r; [apply Hl|apply Hl|done|apply Hl].
    + do 2 eexists. split; [done|]. by rewrite app_nil_r.
  - assert (∃ st', st' ≠ FpWaiting ∧ (if decide (st = FpSucceeded) then FixedPeersIter_on_success it p
      else FixedPeersIter_on_failure it p) = fixed_result st' it p) as (st' & Hst' & ->).
    { case_decide; [by exists FpSucceeded|by exists FpFailed]. }
    destruct (fixed_result_spec peers0 qs it p st' Hinv Hst') as (b & it' & Hr & Hinv' & _ & Hb).
    rewrite Hr. simpl. do 2 eexists. split; [done|]. rewrite app_nil_r. split; [done|].
    unfold fixed_result in Hr. destruct (fpi_state it) as [nw|]; [|by simplify_eq].
    destruct (fpi_peers it !! p) as [[]|]; try by simplify_eq.
    destruct (usize_sub nw 1); by simplify_eq/=.
  - do 2 eexists. split; [done|]. rewrite app_nil_r. unfold FixedPeersIter_finish.
    destruct (fpi_state it); [|done]. split; [|done]. by destruct Hinv; constructor.
Qed.

(** ** Outcomes

    [ok] tells which peers answer successfully. *)
Section outcomes.
Context (ok : PeerId → bool).

Definition fixed_outcome (p : PeerId) : FixedPeerState := if ok p then FpSucceeded else FpFailed.

Definition fixed_honest (op : fixed_op) : Prop :=
  match op with
  | FixedNext => True
  | FixedResult p st => st = fixed_outcome p
  | FixedFinish => False
  end.

(** Recorded results are true, and the iterator only finishes by itself when
    nothing is left. *)
Record fixed_true (it : FixedPeersIter) : Prop := {
  ft_peers p st : fpi_peers it !! p = Some st → st = FpWaiting ∨ st = fixed_outcome p;
  ft_finished : fpi_state it = FixedFinished → fpi_iter it = [] ∧ fixed_waiting (fpi_peers it) = 0
}.

Lemma fixed_true_next_loop par m nw iter :
  fixed_true (mkFixedPeersIter par m iter (FixedWaiting nw)) → nw = fixed_waiting m →
  fixed_true (fixed_next_loop par m nw iter).2.
Proof.
  intros [Hp _] Hnw. simpl in *. induction iter as [|p iter IH]; simpl.
  - case_decide as Hz; constructor; simpl; try done. intros _. split; [done|lia].
  - destruct (m !! p) eqn:E; [done|]. constructor; simpl; [|done].
    intros q st [[-> <-]|[_ ?]]%lookup_insert_Some; [by left|by apply Hp].
Qed.

Lemma fixed_true_apply peers0 qs op it q it' :
  fixed_inv peers0 qs it → fixed_true it → fixed_honest op → fixed_apply op it = Ret (q, it') →
  fixed_true it'.
Proof.
  intros Hinv Ht Hop Happ. destruct op as [|p st|]; simpl in *; [| |done].
  - unfold FixedPeersIter_next in Happ. destruct (fpi_state it) as [nw|] eqn:Es; simplify_eq/=; [|done].
    case_decide; simplify_eq/=; [done|]. destruct (fi_waiting _ _ _ Hinv nw Es) as [Hnw _].
    pose proof (fixed_true_next_loop (fpi_parallelism it) (fpi_peers it) nw (fpi_iter it)) as Hl.
    destruct (fixed_next_loop _ _ _ _) as [r it2]. simplify_eq/=. apply Hl; [|done].
    destruct Ht as [Hp _]. by constructor.
  - assert ((if decide (st = FpSucceeded) then FixedPeersIter_on_success it p
      else FixedPeersIter_on_failure it p) = fixed_result st it p) as Hr.
    { subst. unfold fixed_outcome. by destruct (ok p). }
    rewrite Hr in Happ. destruct (fixed_result_spec peers0 qs it p st Hinv) as (b & it2 & Hr2 & _ & _ & Hb).
    { subst. unfold fixed_outcome. by destruct (ok p). }
    rewrite Hr2 in Happ. simplify_eq/=. destruct b; [|by subst]. destruct Hb as [Hps Hst].
    constructor; [|done]. intros p' st'. rewrite Hps.
    intros [[-> <-]|[_ ?]]%lookup_insert_Some; [by right|by apply (ft_peers _ Ht)].
Qed.

Lemma fixed_true_new peers0 par : fixed_true (FixedPeersIter_new peers0 par).
Proof. by constructor. Qed.

(** The result of an iterator that finished by itself. *)
Lemma fixed_finished_result peers0 qs it p :
  fixed_inv peers0 qs it → fixed_true it → FixedPeersIter_is_finished it = true →
  p ∈ FixedPeersIter_into_result it ↔ p ∈ peers0 ∧ ok p = true.
Proof.
  intros Hinv Ht Hf%bool_decide_eq_true. destruct (ft_finished _ Ht Hf) as [Hit Hw].
  unfold FixedPeersIter_into_result. rewrite list_elem_of_omap.
  rewrite (fi_all _ _ _ Hinv), Hit, <-(fi_dom _ _ _ Hinv). split.
  - intros ([p' st] & Hin%elem_of_map_to_list & Hst). destruct st; simplify_eq.
    destruct (ft_peers _ Ht _ _ Hin) as [?|Ho]; [done|].
    split; [by left; rewrite Hin|]. unfold fixed_outcome in Ho. by destruct (ok p).
  - intros [[[st Hst]|?%elem_of_nil] Hok]; [|done]. exists (p, st).
    split; [by apply elem_of_map_to_list|]. destruct (ft_peers _ Ht _ _ Hst) as [->|Ho].
    + by destruct (map_count_zero _ _ _ _ Hw Hst).
    + unfold fixed_outcome in Ho. rewrite Hok in Ho. by subst.
Qed.

(** ** Every run ends

    The states that are reached from a new iterator by any interleaving of calls of
    [next] and of results, true ones, for any peers.  The number counts the calls
    that make progress: [next] when it hands out a peer or finishes the iterator, and
    results that the iterator was waiting for. *)
Definition fixed_report (it : FixedPeersIter) (p : PeerId) : outcome (bool * FixedPeersIter) :=
  if ok p then FixedPeersIter_on_success it p else FixedPeersIter_on_failure it p.

Definition next_progress (r : PeersIterState PeerId) (it : FixedPeersIter) : nat :=
  match r with
  | IterWaiting (Some _) => 1
  | IterFinished => if FixedPeersIter_is_finished it then 0 else 1
  | _ => 0
  end.

Inductive fixed_reach (peers0 : list PeerId) (par : positive) : nat → FixedPeersIter → Prop :=
| reach_fixed_new : fixed_reach peers0 par 0 (FixedPeersIter_new peers0 par)
| reach_fixed_next n it r it' :
    fixed_reach peers0 par n it → FixedPeersIter_next it = (r, it') → fixed_reach peers0 par (n + next_progress r it) it'
| reach_fixed_report n it p b it' :
    fixed_reach peers0 par n it → fixed_report it p = Ret (b, it') → fixed_reach peers0 par (n + if b : bool then 1 else 0) it'.

(** What is left to do. *)
Definition fixed_left (it : FixedPeersIter) : nat :=
  match fpi_state it with FixedWaiting nw => 2 * length (fpi_iter it) + nw + 1 | FixedFinished => 0 end.

Lemma fixed_left_next_loop par m nw iter :
  let '(r, it') := fixed_next_loop par m nw iter in
  fixed_left it' + match r with IterWaiting (Some _) | IterFinished => 1 | _ => 0 end ≤ 2 * length iter + nw + 1.
Proof.
  induction iter as [|p iter IH]; simpl; [case_decide; cbn; lia|].
  destruct (m !! p); [|cbn; lia]. destruct (fixed_next_loop par m nw iter). lia.
Qed.

Lemma fixed_left_next it r it' :
  FixedPeersIter_next it = (r, it') → fixed_left it' + next_progress r it ≤ fixed_left it.
Proof.
  unfold FixedPeersIter_next, next_progress, FixedPeersIter_is_finished, fixed_left at 2.
  destruct (fpi_state it) as [nw|] eqn:Es.
  - case_decide; [intros [= <- <-]; unfold fixed_left; rewrite Es; lia|]. intros Hn.
    pose proof (fixed_left_next_loop (fpi_parallelism it) (fpi_peers it) nw (fpi_iter it)) as Hl. rewrite Hn in Hl.
    rewrite bool_decide_false by done. by destruct r as [[]| |].
  - intros [= <- <-]. rewrite bool_decide_true by done. unfold fixed_left. by rewrite Es.
Qed.

Lemma fixed_left_report it p b it' :
  fixed_report it p = Ret (b, it') → fixed_left it' + (if b then 1 else 0) ≤ fixed_left it.
Proof.
  assert (∀ st, fixed_result st it p = Ret (b, it') → fixed_left it' + (if b then 1 else 0) ≤ fixed_left it) as Hr.
  { intros st. unfold fixed_result, fixed_left at 2. destruct (fpi_state it) as [nw|] eqn:Es.
    - destruct (fpi_peers it !! p) as [[]|]; try (intros [= <- <-]; unfold fixed_left; rewrite Es; lia).
      unfold usize_sub. case_decide; [|done]. intros [= <- <-]. cbn. lia.
    - intros [= <- <-]. unfold fixed_left. rewrite Es. done. }
  unfold fixed_report. destruct (ok p); apply Hr.
Qed.

Lemma fixed_reach_inv peers0 par n it :
  fixed_reach peers0 par n it →
  fpi_parallelism it = par ∧ n + fixed_left it ≤ 2 * length peers0 + 1 ∧ fixed_true it ∧ ∃ qs, fixed_inv peers0 qs it.
Proof.
  induction 1 as [|n it r it' _ (Hpar & Hn & Ht & qs & Hinv) Hnext|n it p b it' _ (Hpar & Hn & Ht & qs & Hinv) Hrep].
  - split_and!; [done|cbn; lia|apply fixed_true_new|]. exists []. apply fixed_inv_new.
  - destruct (fixed_apply_spec peers0 qs FixedNext it Hinv) as (q & it1 & Happ & Hinv' & Hpar').
    pose proof (fixed_true_apply _ _ FixedNext _ _ _ Hinv Ht I Happ) as Ht'.
    pose proof (fixed_left_next it r it' Hnext). cbn in Happ. rewrite Hnext in Happ. injection Happ as <- <-.
    split_and!; [congruence|lia|done|eauto].
  - destruct (fixed_apply_spec peers0 qs (FixedResult p (fixed_outcome p)) it Hinv) as (q & it1 & Happ & Hinv' & Hpar').
    pose proof (fixed_true_apply _ _ (FixedResult p (fixed_outcome p)) _ _ _ Hinv Ht eq_refl Happ) as Ht'.
    pose proof (fixed_left_report it p b it' Hrep). cbn in Happ.
    replace (if decide (fixed_outcome p = FpSucceeded) then _ else _) with (fixed_report it p) in Happ
      by (unfold fixed_report, fixed_outcome; by destruct (ok p)).
    rewrite Hrep in Happ. injection Happ as <- <-. split_and!; [congruence|lia|done|eauto].
Qed.

(** A result that is waited for is accepted. *)
Lemma fixed_report_spec peers0 qs it p :
  fixed_inv peers0 qs it →
  ∃ it', fixed_report it p = Ret (negb (FixedPeersIter_is_finished it) && FixedPeersIter_is_waiting it p, it').
Proof.
  intros Hinv. destruct (fixed_result_spec peers0 qs it p (fixed_outcome p) Hinv) as (b & it' & Hr & _ & -> & _).
  { unfold fixed_outcome. by destruct (ok p). }
  exists it'. rewrite <-Hr. unfold fixed_report, fixed_outcome. by destruct (ok p).
Qed.

(** An iterator that has not finished waits for a result, or [next] makes progress. *)
Lemma fixed_reach_progress peers0 par n it :
  fixed_reach peers0 par n it → FixedPeersIter_is_finished it = false → ∃ it', fixed_reach peers0 par (S n) it'.
Proof.
  intros Hr Hf. destruct (fixed_reach_inv peers0 par n it Hr) as (Hpar & _ & _ & qs & Hinv).
  pose proof Hf as Hs%bool_decide_eq_false. destruct (fpi_state it) as [nw|] eqn:Es; [|done].
  destruct (fi_waiting _ _ _ Hinv nw Es) as [Hnw _]. destruct nw as [|nw].
  - destruct (FixedPeersIter_next it) as [r it'] eqn:En. exists it'.
    replace (S n) with (n + next_progress r it); [by eapply reach_fixed_next|].
    unfold FixedPeersIter_next in En. rewrite Es, decide_False in En by lia. revert En. clear -Hf.
    generalize (fpi_iter it). intros iter. induction iter as [|p iter IH]; cbn [fixed_next_loop].
    + intros [= <- <-]. cbn. rewrite Hf. lia.
    + destruct (fpi_peers it !! p); [done|]. intros [= <- <-]. cbn. lia.
  - assert (∃ p, fpi_peers it !! p = Some FpWaiting) as [p Hp] by (apply fixed_waiting_pos; lia).
    destruct (fixed_report_spec peers0 qs it p Hinv) as [it' Hr'].
    unfold FixedPeersIter_is_waiting in Hr'. rewrite Hf, bool_decide_true in Hr' by done. cbn in Hr'.
    exists it'. rewrite <-Nat.add_1_r. by eapply (reach_fixed_report _ _ n it p true).
Qed.

End outcomes.
End fixed_peers_iter.

