(* ===== verification/KadDisjoint.v ===== *)
(** * Disjoint paths of a Kademlia lookup

    [protocols/kad/src/query/peers/closest/disjoint.rs].  The iterator runs
    [parallelism] closest-peers iterators (paths) side by side.  A peer is
    contacted by the first path that asks for it; the other paths learn the
    outcome of the request but not the peers it reported.  [HashMap] is a
    [gmap].  The inner loop of [next] has fuel, one more than the number of
    peers of the path; running out of it would be a [Panic], which the
    theorems exclude. *)

From stdpp Require Import prelude fin_maps.
From S2P Require Import Prelude KadKey BTreeMap KadBucket KadPeers KadLookup.

Inductive ResponseState : Type :=
| ResponseWaiting
| ResponseSucceeded
| ResponseFailed.

#[export] Instance ResponseState_eq_dec : EqDecision ResponseState.
Proof. solve_decision. Defined.

(** [IteratorIndex] is the index into [iters]. *)
Record DisjointPeerState : Type := mkDisjointPeerState {
  initiated_by : nat;
  response : ResponseState
}.

Definition DisjointPeerState_new (i : nat) : DisjointPeerState := mkDisjointPeerState i ResponseWaiting.

Section disjoint.
Context {PeerId : Type} `{Countable PeerId}.
Context (sha256 : list byte → KeyBytes) (to_bytes : PeerId → list byte).

(** [iter_order] cycles through the indices of [iters]: it is the number of
    indices taken from it so far. *)
Record ClosestDisjointPeersIter : Type := mkClosestDisjointPeersIter {
  cdp_config : ClosestPeersIterConfig;
  cdp_target : KeyBytes;
  cdp_iters : list (ClosestPeersIter (PeerId := PeerId));
  cdp_iter_order : nat;
  cdp_contacted_peers : gmap PeerId DisjointPeerState
}.

Implicit Types self : ClosestDisjointPeersIter.

Definition set_paths (iters : list ClosestPeersIter) (m : gmap PeerId DisjointPeerState)
    (self : ClosestDisjointPeersIter) : ClosestDisjointPeersIter :=
  mkClosestDisjointPeersIter (cdp_config self) (cdp_target self) iters (cdp_iter_order self) m.

(** ** Operations *)

Definition ClosestDisjointPeersIter_with_config (config : ClosestPeersIterConfig) (target : KeyBytes)
    (known_closest_peers : list (Key PeerId)) : ClosestDisjointPeersIter :=
  let peers := take K_VALUE known_closest_peers in
  let iters := (λ _, ClosestPeersIter_with_config config target peers) <$>
                 seq 0 (Pos.to_nat (parallelism config)) in
  mkClosestDisjointPeersIter config target iters 0 ∅.

Definition ClosestDisjointPeersIter_new (target : KeyBytes) (known_closest_peers : list (Key PeerId))
  : ClosestDisjointPeersIter :=
  ClosestDisjointPeersIter_with_config ClosestPeersIterConfig_default target known_closest_peers.

(** Reporting an outcome to all paths but the one with index [i0]. *)
Fixpoint report_others (i0 j : nat) (f : ClosestPeersIter → outcome (bool * ClosestPeersIter))
    (iters : list (ClosestPeersIter (PeerId := PeerId))) : outcome (list ClosestPeersIter) :=
  match iters with
  | [] => Ret []
  | it :: iters =>
      it ← (if decide (j ≠ i0) then '(_, it) ← f it; Ret it else Ret it);
      iters ← report_others i0 (S j) f iters;
      Ret (it :: iters)
  end.

Definition ClosestDisjointPeersIter_on_failure (self : ClosestDisjointPeersIter) (peer : PeerId)
  : outcome (bool * ClosestDisjointPeersIter) :=
  match cdp_contacted_peers self !! peer with
  | Some st =>
      let i := initiated_by st in
      it ← vec_index (cdp_iters self) i;
      '(updated, it) ← ClosestPeersIter_on_failure sha256 to_bytes it peer;
      let m := if updated : bool
               then <[peer := mkDisjointPeerState i ResponseFailed]> (cdp_contacted_peers self)
               else cdp_contacted_peers self in
      iters ← report_others i 0 (λ it, ClosestPeersIter_on_failure sha256 to_bytes it peer)
                (<[i := it]> (cdp_iters self));
      Ret (updated, set_paths iters m self)
  | None => Ret (false, self)
  end.

Definition ClosestDisjointPeersIter_on_success (self : ClosestDisjointPeersIter) (peer : PeerId)
    (closer_peers : list PeerId) : outcome (bool * ClosestDisjointPeersIter) :=
  match cdp_contacted_peers self !! peer with
  | Some st =>
      let i := initiated_by st in
      it ← vec_index (cdp_iters self) i;
      '(updated, it) ← ClosestPeersIter_on_success sha256 to_bytes it peer closer_peers;
      let m := if updated : bool
               then <[peer := mkDisjointPeerState i ResponseSucceeded]> (cdp_contacted_peers self)
               else cdp_contacted_peers self in
      iters ← report_others i 0 (λ it, ClosestPeersIter_on_success sha256 to_bytes it peer [])
                (<[i := it]> (cdp_iters self));
      Ret (updated, set_paths iters m self)
  | None => Ret (false, self)
  end.

Definition ClosestDisjointPeersIter_is_waiting (self : ClosestDisjointPeersIter) (peer : PeerId) : bool :=
  existsb (λ it, ClosestPeersIter_is_waiting it peer) (cdp_iters self).

(** How [next] combines the answer [Waiting(None)] of a path with [state]. *)
Definition combine_waiting (state : option (PeersIterState PeerId)) : outcome (option (PeersIterState PeerId)) :=
  match state with
  | Some (IterWaiting (Some _)) => Panic
  | Some (IterWaiting None) => Ret state
  | Some IterWaitingAtCapacity => Ret (Some (IterWaiting None))
  | Some IterFinished => Panic
  | None => Ret (Some (IterWaiting None))
  end.

(** How [next] combines the answer [WaitingAtCapacity] of a path with [state]. *)
Definition combine_capacity (state : option (PeersIterState PeerId)) : outcome (option (PeersIterState PeerId)) :=
  match state with
  | Some (IterWaiting (Some _)) => Panic
  | Some (IterWaiting None) => Ret state
  | Some IterWaitingAtCapacity => Ret state
  | Some IterFinished => Panic
  | None => Ret (Some IterWaitingAtCapacity)
  end.

(** The inner loop of [next] on one path: the peer to contact, if the path
    yields one that no path contacted before, the new [state], and the path. *)
Fixpoint path_loop (fuel : nat) (now : N) (contacted_peers : gmap PeerId DisjointPeerState)
    (state : option (PeersIterState PeerId)) (it : ClosestPeersIter)
  : outcome (option PeerId * option (PeersIterState PeerId) * ClosestPeersIter) :=
  match fuel with
  | O => Panic
  | S fuel =>
      '(r, it) ← ClosestPeersIter_next it now;
      match r with
      | IterWaiting None => state ← combine_waiting state; Ret (None, state, it)
      | IterWaiting (Some peer) =>
          match contacted_peers !! peer with
          | Some st =>
              it ← match response st with
                   | ResponseWaiting => Ret it
                   | ResponseSucceeded =>
                       '(_, it) ← ClosestPeersIter_on_success sha256 to_bytes it peer []; Ret it
                   | ResponseFailed =>
                       '(_, it) ← ClosestPeersIter_on_failure sha256 to_bytes it peer; Ret it
                   end;
              path_loop fuel now contacted_peers state it
          | None => Ret (Some peer, state, it)
          end
      | IterWaitingAtCapacity => state ← combine_capacity state; Ret (None, state, it)
      | IterFinished => Ret (None, state, it)
      end
  end.

(** The outer loop of [next], over [n] more paths. *)
Fixpoint paths_loop (n : nat) (now : N) (state : option (PeersIterState PeerId))
    (self : ClosestDisjointPeersIter) : outcome (PeersIterState PeerId * ClosestDisjointPeersIter) :=
  match n with
  | O => Ret (default IterFinished state, self)
  | S n =>
      let i := cdp_iter_order self `mod` length (cdp_iters self) in
      it ← vec_index (cdp_iters self) i;
      '(yield, state, it) ← path_loop (S (length (cpi_closest_peers it))) now
                              (cdp_contacted_peers self) state it;
      let self := mkClosestDisjointPeersIter (cdp_config self) (cdp_target self)
                    (<[i := it]> (cdp_iters self)) (S (cdp_iter_order self)) (cdp_contacted_peers self) in
      match yield with
      | Some peer =>
          Ret (IterWaiting (Some peer),
               set_paths (cdp_iters self)
                 (<[peer := DisjointPeerState_new i]> (cdp_contacted_peers self)) self)
      | None => paths_loop n now state self
      end
  end.

Definition ClosestDisjointPeersIter_next (self : ClosestDisjointPeersIter) (now : N)
  : outcome (PeersIterState PeerId * ClosestDisjointPeersIter) :=
  paths_loop (length (cdp_iters self)) now None self.

Definition ClosestDisjointPeersIter_is_finished (self : ClosestDisjointPeersIter) : bool :=
  forallb ClosestPeersIter_is_finished (cdp_iters self).

(** The loop of [finish_paths]. *)
Fixpoint finish_each (peers : list PeerId) (self : ClosestDisjointPeersIter)
  : outcome ClosestDisjointPeersIter :=
  match peers with
  | [] => Ret self
  | peer :: peers =>
      self ← match cdp_contacted_peers self !! peer with
             | Some st =>
                 it ← vec_index (cdp_iters self) (initiated_by st);
                 Ret (set_paths (<[initiated_by st := ClosestPeersIter_finish it]> (cdp_iters self))
                        (cdp_contacted_peers self) self)
             | None => Ret self
             end;
      finish_each peers self
  end.

Definition ClosestDisjointPeersIter_finish_paths (self : ClosestDisjointPeersIter) (peers : list PeerId)
  : outcome (bool * ClosestDisjointPeersIter) :=
  self ← finish_each peers self;
  Ret (ClosestDisjointPeersIter_is_finished self, self).

Definition ClosestDisjointPeersIter_finish (self : ClosestDisjointPeersIter) : ClosestDisjointPeersIter :=
  set_paths (ClosestPeersIter_finish <$> cdp_iters self) (cdp_contacted_peers self) self.

(** ** [ResultIter]: merging the results of the paths *)

(** One step of the fold of [next]: [sel] is the index of [iter_a], [b] that
    of [iter_b]. *)
Definition result_step (target : KeyBytes) (acc : list (list (Key PeerId)) * option nat) (b : nat)
  : list (list (Key PeerId)) * option nat :=
  let '(iters, sel) := acc in
  match sel with
  | None => (iters, Some b)
  | Some a =>
      match iters !! a ≫= head, iters !! b ≫= head with
      | Some next_a, Some next_b =>
          if Key_eq next_a next_b then (alter tail b iters, Some a)
          else if decide (KeyBytes_distance target next_a < KeyBytes_distance target next_b)%N
               then (iters, Some a) else (iters, Some b)
      | Some _, None => (iters, Some a)
      | None, Some _ => (iters, Some b)
      | None, None => (iters, None)
      end
  end.

Definition ResultIter_next (target : KeyBytes) (iters : list (list (Key PeerId)))
  : option (Key PeerId) * list (list (Key PeerId)) :=
  match foldl (result_step target) (iters, None) (seq 0 (length iters)) with
  | (iters, Some a) => (iters !! a ≫= head, alter tail a iters)
  | (iters, None) => (None, iters)
  end.

(** Exhausting the iterator; [fuel] bounds the number of calls of [next]. *)
Fixpoint ResultIter_collect (fuel : nat) (target : KeyBytes) (iters : list (list (Key PeerId)))
  : option (list (Key PeerId)) :=
  match fuel with
  | O => None
  | S fuel =>
      match ResultIter_next target iters with
      | (Some k, iters) => cons k <$> ResultIter_collect fuel target iters
      | (None, _) => Some []
      end
  end.

Definition result_per_path (self : ClosestDisjointPeersIter) : list (list (Key PeerId)) :=
  map (λ it : ClosestPeersIter (PeerId := PeerId),
         map (Key_from_PeerId sha256 to_bytes) (ClosestPeersIter_into_result it)) (cdp_iters self).

Definition ClosestDisjointPeersIter_into_result (self : ClosestDisjointPeersIter) : option (list PeerId) :=
  map key_preimage <$>
    ResultIter_collect (S (sum_list_with length (result_per_path self))) (cdp_target self)
      (result_per_path self).

(** ** The merged results are ordered and free of duplicates *)
Section result_iter.
Context (target : KeyBytes).

Definition kd (k : Key PeerId) : Distance := KeyBytes_distance target k.
Definition nth_iter (iters : list (list (Key PeerId))) (i : nat) : list (Key PeerId) :=
  default [] (iters !! i).
Definition mem_key (b : KeyBytes) (iters : list (list (Key PeerId))) : Prop :=
  ∃ i k, k ∈ nth_iter iters i ∧ key_bytes k = b.
Definition ordered : list (Key PeerId) → Prop := StronglySorted (λ a b, kd a < kd b)%N.

(** After the first [j] iterators, [sel] is the one with the closest peer, and
    no other of them starts with the same peer. *)
Record fold_inv (iters0 : list (list (Key PeerId))) (j : nat)
    (acc : list (list (Key PeerId)) * option nat) : Prop := {
  rf_length : length acc.1 = length iters0;
  rf_ordered i : ordered (nth_iter acc.1 i);
  rf_sub i k : k ∈ nth_iter acc.1 i → k ∈ nth_iter iters0 i;
  rf_mem b : mem_key b iters0 → mem_key b acc.1;
  rf_size : sum_list_with length acc.1 ≤ sum_list_with length iters0;
  rf_sel : match acc.2 with
           | None => ∀ i, i < j → nth_iter acc.1 i = []
           | Some a => a < j ∧
               match head (nth_iter acc.1 a) with
               | None => ∀ i, i < j → nth_iter acc.1 i = []
               | Some x => ∀ i k, i < j → k ∈ nth_iter acc.1 i →
                   (kd x ≤ kd k)%N ∧ (i ≠ a → (kd x < kd k)%N)
               end
           end
}.

Lemma nth_iter_head iters i : iters !! i ≫= head = head (nth_iter iters i).
Proof. unfold nth_iter. by destruct (iters !! i). Qed.

Lemma nth_iter_alter iters i j :
  nth_iter (alter tail j iters) i = if decide (i = j) then tail (nth_iter iters i) else nth_iter iters i.
Proof.
  unfold nth_iter. case_decide as Hij.
  - subst. rewrite list_lookup_alter_eq. by destruct (iters !! j).
  - by rewrite list_lookup_alter_ne.
Qed.

Lemma ordered_head l x k : ordered l → head l = Some x → k ∈ l → (kd x ≤ kd k)%N.
Proof.
  intros Hs Hh Hk. destruct l as [|y l]; [done|]. simplify_eq/=.
  apply StronglySorted_cons in Hs as [Hall _]. rewrite Forall_forall in Hall.
  apply elem_of_cons in Hk as [->|Hk]; [done|]. apply N.lt_le_incl. by apply Hall.
Qed.

Lemma ordered_tail l x k : ordered l → head l = Some x → k ∈ tail l → (kd x < kd k)%N.
Proof.
  intros Hs Hh Hk. destruct l as [|y l]; [done|]. simplify_eq/=.
  apply StronglySorted_cons in Hs as [Hall _]. rewrite Forall_forall in Hall. by apply Hall.
Qed.

Lemma ordered_tl l : ordered l → ordered (tail l).
Proof. destruct l; [done|]. by intros [_ ?]%StronglySorted_cons. Qed.

Lemma sum_alter_tail iters i :
  sum_list_with length (alter tail i iters) + (if nth_iter iters i is _ :: _ then 1 else 0) =
  sum_list_with length iters.
Proof.
  unfold nth_iter. revert i. induction iters as [|l iters IH]; intros [|i]; simpl; try done.
  - destruct l; simpl; lia.
  - rewrite <-(IH i). change (list_alter tail i iters) with (alter tail i iters). lia.
Qed.

Lemma kd_key_eq (a b : Key PeerId) : Key_eq a b = true ↔ kd a = kd b.
Proof.
  unfold Key_eq. rewrite bool_decide_eq_true. unfold kd. split.
  - intros Hab. unfold KeyBytes_distance, as_ref, Key_as_ref. by rewrite Hab.
  - apply KeyBytes_distance_inj.
Qed.

Lemma mem_key_alter iters a j xa xb b :
  a ≠ j → head (nth_iter iters a) = Some xa → head (nth_iter iters j) = Some xb →
  key_bytes xa = key_bytes xb → mem_key b iters → mem_key b (alter tail j iters).
Proof.
  intros Haj Ha Hj Hbytes (i & k & Hk & <-). destruct (decide (i = j)) as [->|Hij].
  - destruct (nth_iter iters j) as [|y l] eqn:E; [by apply elem_of_nil in Hk|].
    simplify_eq/=. apply elem_of_cons in Hk as [->|Hk].
    + exists a, xa. rewrite nth_iter_alter, decide_False by done. split; [|done].
      destruct (nth_iter iters a); simplify_eq/=. by left.
    + exists j, k. rewrite nth_iter_alter, decide_True by done. by rewrite E.
  - exists i, k. by rewrite nth_iter_alter, decide_False.
Qed.

Lemma head_elem {A} (l : list A) x : head l = Some x → x ∈ l.
Proof. destruct l; intros; simplify_eq/=. by left. Qed.

Lemma fold_inv_keep iters0 j iters sel sel' :
  fold_inv iters0 j (iters, sel) →
  match sel' with
  | None => ∀ i, i < S j → nth_iter iters i = []
  | Some a => a < S j ∧
      match head (nth_iter iters a) with
      | None => ∀ i, i < S j → nth_iter iters i = []
      | Some x => ∀ i k, i < S j → k ∈ nth_iter iters i →
          (kd x ≤ kd k)%N ∧ (i ≠ a → (kd x < kd k)%N)
      end
  end → fold_inv iters0 (S j) (iters, sel').
Proof. intros [] Hsel. by constructor. Qed.

(** The selected iterator stays selected if it starts before iterator [j]. *)
Lemma fold_inv_dedup iters0 j iters a xa xb :
  fold_inv iters0 j (iters, Some a) → head (nth_iter iters a) = Some xa →
  head (nth_iter iters j) = Some xb → kd xa = kd xb →
  fold_inv iters0 (S j) (alter tail j iters, Some a).
Proof.
  intros [Hlen Hord Hsub Hmem Hsize [Ha Hsel]] Hxa Hxb Heq; simpl in *. rewrite Hxa in Hsel.
  assert (a ≠ j) as Haj by lia. constructor; simpl.
  - by rewrite length_alter.
  - intros i. rewrite nth_iter_alter. case_decide; [apply ordered_tl|]; apply Hord.
  - intros i k Hk. apply Hsub. rewrite nth_iter_alter in Hk. case_decide; [|done].
    destruct (nth_iter iters i); [done|]. by right.
  - intros b Hb. apply (mem_key_alter iters a j xa xb); try done; [|by apply Hmem].
    by apply kd_key_eq, bool_decide_eq_true in Heq.
  - pose proof (sum_alter_tail iters j). lia.
  - split; [lia|]. rewrite nth_iter_alter, decide_False, Hxa by done.
    intros i k Hi. rewrite nth_iter_alter. case_decide as Hij.
    + subst i. intros Hk. pose proof (ordered_tail _ _ _ (Hord j) Hxb Hk). split; lia.
    + intros Hk. apply Hsel; [lia|done].
Qed.

Lemma fold_inv_step iters0 j acc :
  fold_inv iters0 j acc → fold_inv iters0 (S j) (result_step target acc j).
Proof.
  intros Hinv. destruct acc as [iters sel]. unfold result_step. rewrite (nth_iter_head iters j).
  pose proof (rf_ordered _ _ _ Hinv j) as Hord. pose proof (rf_sel _ _ _ Hinv) as Hsel. simpl in *.
  assert ((∀ i, i < j → nth_iter iters i = []) → fold_inv iters0 (S j) (iters, Some j)) as Hfirst.
  { intros Hem. eapply fold_inv_keep; [done|]. split; [lia|].
    destruct (head (nth_iter iters j)) as [x|] eqn:Ex.
    - intros i k Hi Hk. destruct (decide (i = j)) as [->|]; [|rewrite Hem in Hk by lia; by apply elem_of_nil in Hk].
      split; [by eapply ordered_head|done].
    - intros i Hi. destruct (decide (i = j)) as [->|]; [by apply head_None|apply Hem; lia]. }
  destruct sel as [a|]; [|by apply Hfirst]. rewrite (nth_iter_head iters a).
  destruct Hsel as [Ha Hsel]. destruct (head (nth_iter iters a)) as [xa|] eqn:Exa.
  - destruct (head (nth_iter iters j)) as [xb|] eqn:Exb; [destruct (Key_eq xa xb) eqn:Ek|].
    + apply kd_key_eq in Ek. by eapply fold_inv_dedup.
    + assert (kd xa ≠ kd xb) as Hne by (by intros Hk%kd_key_eq; rewrite Hk in Ek).
      fold (kd xa) (kd xb). case_decide as Hlt; (eapply fold_inv_keep; [done|]; split; [lia|]).
      * rewrite Exa. intros i k Hi Hk. destruct (decide (i = j)) as [->|]; [|apply Hsel; [lia|done]].
        pose proof (ordered_head _ _ _ Hord Exb Hk). split; lia.
      * rewrite Exb. intros i k Hi Hk. destruct (decide (i = j)) as [->|]; [by split; [eapply ordered_head|]|].
        destruct (Hsel i k ltac:(lia) Hk). split; lia.
    + eapply fold_inv_keep; [done|]. split; [lia|]. rewrite Exa. intros i k Hi Hk.
      destruct (decide (i = j)) as [->|]; [|apply Hsel; [lia|done]].
      apply head_None in Exb. rewrite Exb in Hk. by apply elem_of_nil in Hk.
  - destruct (head (nth_iter iters j)) as [xb|] eqn:Exb; [by apply Hfirst|].
    eapply fold_inv_keep; [done|]. intros i Hi.
    destruct (decide (i = j)) as [->|]; [by apply head_None|apply Hsel; lia].
Qed.

Lemma fold_inv_all iters j :
  (∀ i, ordered (nth_iter iters i)) →
  fold_inv iters j (foldl (result_step target) (iters, None) (seq 0 j)).
Proof.
  intros Hord. induction j as [|j IH]; [constructor; simpl; try done; lia|].
  rewrite seq_S, foldl_app. by apply fold_inv_step.
Qed.

(** [next] of [ResultIter] removes the closest of the remaining peers from all
    iterators. *)
Lemma ResultIter_next_spec iters :
  (∀ i, ordered (nth_iter iters i)) →
  match ResultIter_next target iters with
  | (Some x, iters') =>
      (∀ i, ordered (nth_iter iters' i)) ∧
      sum_list_with length iters' < sum_list_with length iters ∧
      (∃ i, x ∈ nth_iter iters i) ∧
      (∀ i k, k ∈ nth_iter iters' i → k ∈ nth_iter iters i ∧ (kd x < kd k)%N) ∧
      (∀ b, mem_key b iters → b = key_bytes x ∨ mem_key b iters')
  | (None, _) => ∀ b, ¬ mem_key b iters
  end.
Proof.
  intros Hord. unfold ResultIter_next. pose proof (fold_inv_all iters (length iters) Hord) as Hinv.
  destruct (foldl _ _ _) as [iters' sel]. destruct Hinv as [Hlen Hord' Hsub Hmem Hsize Hsel]. simpl in *.
  assert ((∀ i, i < length iters → nth_iter iters' i = []) → ∀ b, ¬ mem_key b iters) as Hnone.
  { intros Hem b (i & k & Hk & _)%Hmem. destruct (decide (i < length iters)) as [Hi|Hi].
    - rewrite Hem in Hk by done. by apply elem_of_nil in Hk.
    - unfold nth_iter in Hk. rewrite lookup_ge_None_2 in Hk by lia. by apply elem_of_nil in Hk. }
  destruct sel as [a|]; [|by apply Hnone]. rewrite nth_iter_head. destruct Hsel as [Ha Hsel].
  destruct (head (nth_iter iters' a)) as [x|] eqn:Ex; [|by apply Hnone].
  assert (∀ i k, k ∈ nth_iter (alter tail a iters') i → k ∈ nth_iter iters' i ∧ (kd x < kd k)%N) as Htail.
  { intros i k. rewrite nth_iter_alter. case_decide as Hia; intros Hk.
    - subst i. split; [|by apply (ordered_tail (nth_iter iters' a))]. destruct (nth_iter iters' a); [done|]. by right.
    - split; [done|]. apply (Hsel i k); [|done|done]. destruct (decide (i < length iters)); [done|].
      unfold nth_iter in Hk. rewrite lookup_ge_None_2 in Hk by lia. by apply elem_of_nil in Hk. }
  split_and!.
  - intros i. rewrite nth_iter_alter. case_decide; [apply ordered_tl|]; apply Hord'.
  - pose proof (sum_alter_tail iters' a) as Hs. destruct (nth_iter iters' a); [done|]. lia.
  - exists a. apply Hsub. by apply head_elem.
  - intros i k [Hk ?]%Htail. split; [by apply Hsub|done].
  - intros b (i & k & Hk & <-)%Hmem. destruct (decide (i = a)) as [->|Hia].
    + destruct (nth_iter iters' a) as [|y l] eqn:E; [done|]. simplify_eq/=.
      apply elem_of_cons in Hk as [->|Hk]; [by left|]. right. exists a, k.
      rewrite nth_iter_alter, decide_True by done. by rewrite E.
    + right. exists i, k. by rewrite nth_iter_alter, decide_False.
Qed.

Lemma ResultIter_collect_spec fuel iters :
  (∀ i, ordered (nth_iter iters i)) → sum_list_with length iters < fuel →
  ∃ out, ResultIter_collect fuel target iters = Some out ∧ ordered out ∧
    (∀ k, k ∈ out → ∃ i, k ∈ nth_iter iters i) ∧
    (∀ b, mem_key b iters → b ∈ key_bytes <$> out).
Proof.
  revert iters. induction fuel as [|fuel IH]; intros iters Hord Hfuel; [lia|].
  cbn [ResultIter_collect]. pose proof (ResultIter_next_spec iters Hord) as Hn.
  destruct (ResultIter_next target iters) as [[x|] iters'].
  - destruct Hn as (Hord' & Hlt & Hx & Hrest & Hmem).
    destruct (IH iters' Hord') as (out & -> & Hout & Hsub & Hall); [lia|].
    exists (x :: out). split_and!; [done| | |].
    + apply StronglySorted_cons. split; [|done]. apply Forall_forall. intros k Hk.
      destruct (Hsub k Hk) as [i Hi]. by apply (Hrest i).
    + intros k [->|Hk]%elem_of_cons; [done|]. destruct (Hsub k Hk) as [i Hi]. exists i. by apply Hrest.
    + intros b [->|Hb]%Hmem; [by left|]. right. by apply Hall.
  - exists []. split_and!; [done|constructor|by intros k ?%elem_of_nil|]. intros b Hb. by destruct (Hn b).
Qed.
End result_iter.

(** ** The paths of [next] *)

Abbreviation path_inv := (cpi_inv sha256 to_bytes).

(** [state] never holds a peer or [Finished], so the [unreachable!]s are. *)
Definition state_ok (state : option (PeersIterState PeerId)) : Prop :=
  match state with
  | Some (IterWaiting (Some _)) | Some IterFinished => False
  | _ => True
  end.

(** What a path keeps when it is advanced. *)
Definition path_step (cl : list PeerId) (it it' : ClosestPeersIter) : Prop :=
  path_inv it' ∧ cpi_config it' = cpi_config it ∧ cpi_target it' = cpi_target it ∧
  (∀ p, knows it' p → knows it p ∨ p ∈ cl) ∧
  (cpi_state it = Finished → cpi_state it' = Finished) ∧
  (∀ p, answered sha256 to_bytes it p → answered sha256 to_bytes it' p).

Lemma path_step_refl it : path_inv it → path_step [] it it.
Proof. intros Hinv. split_and!; try done. by left. Qed.

Lemma path_step_trans it1 it2 it3 : path_step [] it1 it2 → path_step [] it2 it3 → path_step [] it1 it3.
Proof.
  intros (_ & ? & ? & Hk1 & Hf1 & Ha1) (? & ? & ? & Hk2 & Hf2 & Ha2).
  split_and!; [done|congruence|congruence| |by auto|by auto]. intros p [?|?%elem_of_nil]%Hk2; [by apply Hk1|done].
Qed.

Lemma path_step_next it now r it' :
  path_inv it → ClosestPeersIter_next it now = Ret (r, it') → path_step [] it it'.
Proof.
  intros Hinv Hn. destruct (ClosestPeersIter_next_inv _ _ it now Hinv) as (r2 & it2 & Hn2 & Hi & Hc & Ht & Hev).
  rewrite Hn in Hn2. simplify_eq. split_and!; try done.
  - intros p Hp. left. by eapply next_knows.
  - intros Hf. rewrite next_of_finished in Hn by done. by simplify_eq.
  - intros p. by apply answered_evolve.
Qed.

Lemma result_of_finished cl it p b it' :
  cpi_state it = Finished → result_of sha256 to_bytes cl it p = Ret (b, it') → it' = it.
Proof.
  intros Hf Hr. destruct cl; simpl in Hr;
    unfold ClosestPeersIter_on_success, ClosestPeersIter_on_failure in Hr; rewrite Hf in Hr; by simplify_eq.
Qed.

Lemma path_step_result cl it p :
  path_inv it → ∃ b it', result_of sha256 to_bytes cl it p = Ret (b, it') ∧
    path_step (default [] cl) it it'.
Proof.
  intros Hinv. destruct (result_of_spec sha256 to_bytes cl it p Hinv) as (it' & Hr & Hi & Hc & Ht & Hspec).
  do 2 eexists. split; [done|]. split_and!; try done.
  - intros q. by eapply result_knows.
  - intros Hf. by rewrite (result_of_finished _ _ _ _ _ Hf Hr).
  - intros q. apply answered_evolve; [done|]. destruct (result_expected _ _ it p); [|subst; apply peers_evolve_refl].
    destruct Hspec as (e & ps & _ & _ & _ & Hev & _ & Hx & _). by eapply peers_evolve_extend.
Qed.

Lemma path_step_finish it : path_inv it → path_step [] it (ClosestPeersIter_finish it).
Proof.
  intros Hinv. split_and!; try done; [by destruct Hinv; constructor|].
  intros p (d & e & Hin & Hp). left. by exists d, e.
Qed.

(** [next] of a path, or the outcome of a request it did not make. *)
Lemma path_loop_spec fuel now m state it :
  path_inv it → length (uncontacted (cpi_closest_peers it)) < fuel → state_ok state →
  ∃ y state' it', path_loop fuel now m state it = Ret (y, state', it') ∧
    path_step [] it it' ∧ state_ok state' ∧
    (∀ p, y = Some p → m !! p = None) ∧
    (y = None → state' = None → state = None ∧ cpi_state it' = Finished).
Proof.
  revert state it. induction fuel as [|fuel IH]; intros state it Hinv Hfuel Hst; [lia|].
  cbn [path_loop]. destruct (ClosestPeersIter_next_inv _ _ it now Hinv) as (r & it1 & Hn & Hinv1 & _).
  rewrite Hn. cbn [mbind outcome_bind]. pose proof (path_step_next _ _ _ _ Hinv Hn) as Hstep.
  destruct r as [[q|]| |].
  - pose proof (next_uncontacted _ _ _ _ _ _ Hinv Hn) as Hlt.
    destruct (m !! q) as [st|] eqn:Hm; [|by do 3 eexists; split_and!; try done; intros; simplify_eq].
    assert (∃ it2, match response st with
        | ResponseWaiting => Ret it1
        | ResponseSucceeded => '(_, it) ← ClosestPeersIter_on_success sha256 to_bytes it1 q []; Ret it
        | ResponseFailed => '(_, it) ← ClosestPeersIter_on_failure sha256 to_bytes it1 q; Ret it
        end = Ret it2 ∧ path_step [] it1 it2 ∧
        length (uncontacted (cpi_closest_peers it2)) ≤ length (uncontacted (cpi_closest_peers it1)))
      as (it2 & -> & Hstep2 & Hle).
    { destruct (response st).
      - exists it1. split_and!; [done|by apply path_step_refl|done].
      - destruct (path_step_result (Some []) it1 q Hinv1) as (b & it2 & Hr & Hs2). exists it2.
        pose proof (result_uncontacted _ _ _ _ _ _ _ Hinv1 Hr eq_refl). simpl in Hr. by rewrite Hr.
      - destruct (path_step_result None it1 q Hinv1) as (b & it2 & Hr & Hs2). exists it2.
        pose proof (result_uncontacted _ _ _ _ _ _ _ Hinv1 Hr eq_refl). simpl in Hr. by rewrite Hr. }
    cbn [mbind outcome_bind].
    destruct (IH state it2) as (y & state' & it' & -> & Hs3 & Hrest); [apply Hstep2|lia|done|].
    do 3 eexists. split; [done|]. split; [|done].
    eapply path_step_trans; [done|]. by eapply path_step_trans.
  - destruct state as [[[]| |]|]; try done; simpl; do 3 eexists; split_and!; try done.
  - destruct state as [[[]| |]|]; try done; simpl; do 3 eexists; split_and!; try done.
  - do 3 eexists. split_and!; try done. intros _ ->. split; [done|]. by eapply next_finished_state.
Qed.

(** ** The invariant of the disjoint paths

    [known] are the peers the lookup starts from; [log] records which path got
    to know which peer through a response. *)
Record disjoint_inv (known : list PeerId) (log : list (nat * PeerId))
    (self : ClosestDisjointPeersIter) : Prop := {
  di_length : length (cdp_iters self) = Pos.to_nat (parallelism (cdp_config self));
  di_paths i it : cdp_iters self !! i = Some it →
    path_inv it ∧ cpi_config it = cdp_config self ∧ cpi_target it = cdp_target self;
  di_initiated p st : cdp_contacted_peers self !! p = Some st → initiated_by st < length (cdp_iters self);
  di_origin i it p : cdp_iters self !! i = Some it → knows it p → p ∈ known ∨ (i, p) ∈ log;
  di_answered p st it : cdp_contacted_peers self !! p = Some st → response st ≠ ResponseWaiting →
    cdp_iters self !! initiated_by st = Some it → answered sha256 to_bytes it p
}.

(** Advancing one path. *)
Lemma disjoint_inv_path known log log' self order m i it it' cl :
  disjoint_inv known log self → cdp_iters self !! i = Some it → path_step cl it it' →
  (∀ e, e ∈ log → e ∈ log') → (∀ p, p ∈ cl → (i, p) ∈ log') →
  (∀ p st, m !! p = Some st → initiated_by st < length (cdp_iters self)) →
  (∀ p st, m !! p = Some st → response st ≠ ResponseWaiting →
     cdp_contacted_peers self !! p = Some st ∨ (initiated_by st = i ∧ answered sha256 to_bytes it' p)) →
  disjoint_inv known log' (mkClosestDisjointPeersIter (cdp_config self) (cdp_target self)
    (<[i := it']> (cdp_iters self)) order m).
Proof.
  intros Hinv Hi (Hp & Hc & Ht & Hk & _ & Ha) Hlog Hcl Hm Hans. constructor; simpl.
  - rewrite length_insert. apply Hinv.
  - intros j itj [(-> & -> & _)|[Hne Hj]]%list_lookup_insert_Some; [|by apply (di_paths _ _ _ Hinv j)].
    rewrite Hc, Ht. split; [done|]. by apply (di_paths _ _ _ Hinv j).
  - intros p st. rewrite length_insert. apply Hm.
  - intros j itj p [(-> & -> & _)|[Hne Hj]]%list_lookup_insert_Some Hkn.
    + apply Hk in Hkn as [Hkn|Hin]; [|by right; apply Hcl].
      apply (di_origin _ _ _ Hinv j it) in Hkn as [?|?]; [by left|right; by apply Hlog|done].
    + apply (di_origin _ _ _ Hinv j itj) in Hkn as [?|?]; [by left|right; by apply Hlog|done].
  - intros p st itj Hst Hr Hj. destruct (Hans p st Hst Hr) as [Hold|[Hsti Hp']].
    + apply list_lookup_insert_Some in Hj as [(Hij & -> & _)|[Hne Hj]]; [|by apply (di_answered _ _ _ Hinv p st)].
      apply Ha. apply (di_answered _ _ _ Hinv p st); [done..|by rewrite <-Hij].
    + rewrite Hsti, list_lookup_insert_eq in Hj by (by eapply lookup_lt_Some). by simplify_eq.
Qed.

Definition path_finished (self : ClosestDisjointPeersIter) (i : nat) : Prop :=
  ∃ it, cdp_iters self !! i = Some it ∧ cpi_state it = Finished.

Lemma paths_loop_spec known log n now state self :
  disjoint_inv known log self → state_ok state →
  ∃ r self', paths_loop n now state self = Ret (r, self') ∧ disjoint_inv known log self' ∧
    cdp_config self' = cdp_config self ∧ cdp_target self' = cdp_target self ∧
    length (cdp_iters self') = length (cdp_iters self) ∧
    match r with
    | IterWaiting (Some q) => cdp_contacted_peers self !! q = None ∧
        ∃ i, cdp_contacted_peers self' = <[q := DisjointPeerState_new i]> (cdp_contacted_peers self)
    | _ => cdp_contacted_peers self' = cdp_contacted_peers self
    end ∧
    (∀ i, path_finished self i → path_finished self' i) ∧
    (r = IterFinished → state = None ∧
       ∀ j, j < n → path_finished self' ((cdp_iter_order self + j) `mod` length (cdp_iters self))).
Proof.
  revert state self. induction n as [|n IH]; intros state self Hinv Hst; cbn [paths_loop].
  { do 2 eexists. split; [done|]. split_and!; try done.
    - destruct state as [[[]| |]|]; done.
    - intros Hr. split; [|lia]. by destruct state as [[[]| |]|]. }
  set (L := length (cdp_iters self)). set (i := cdp_iter_order self `mod` L).
  assert (i < L) as HiL.
  { apply Nat.mod_upper_bound. unfold L. rewrite (di_length _ _ _ Hinv). lia. }
  destruct (lookup_lt_is_Some_2 _ _ HiL) as [it Hit].
  unfold vec_index. rewrite Hit. cbn [expect mbind outcome_bind].
  destruct (di_paths _ _ _ Hinv i it Hit) as (Hpi & Hc & Ht).
  destruct (path_loop_spec (S (length (cpi_closest_peers it))) now (cdp_contacted_peers self) state it Hpi)
    as (y & state' & it' & -> & Hstep & Hst' & Hy & Hnone); [|done|].
  { unfold uncontacted. rewrite length_fmap. pose proof (length_filter (λ e, peer_state e.2 = NotContacted) (cpi_closest_peers it)). lia. }
  cbn [mbind outcome_bind].
  set (self1 := mkClosestDisjointPeersIter _ _ _ _ _).
  assert (∀ j, path_finished self j → path_finished self1 j) as Hmono.
  { intros j (itj & Hj & Hf). unfold path_finished, self1. simpl. destruct (decide (i = j)) as [<-|Hne].
    - exists it'. rewrite list_lookup_insert_eq by done. split; [done|]. apply Hstep. by simplify_eq.
    - exists itj. by rewrite list_lookup_insert_ne. }
  assert (length (cdp_iters self1) = L) as HL1 by apply length_insert.
  destruct y as [q|].
  - do 2 eexists. split; [done|]. split_and!; try done.
    + apply (disjoint_inv_path known log log self _ _ i it it' []); try done; [by intros p ?%elem_of_nil|..].
      * intros p st [[-> <-]|[_ ?]]%lookup_insert_Some; [done|]. by eapply di_initiated.
      * intros p st [[-> <-]|[_ ?]]%lookup_insert_Some; [done|by left].
    + by apply Hy.
    + by exists i.
  - assert (disjoint_inv known log self1) as Hinv1.
    { apply (disjoint_inv_path known log log self _ _ i it it' []); try done; [by intros p ?%elem_of_nil| |by left].
      intros p st. by apply (di_initiated _ _ _ Hinv). }
    destruct (IH state' self1 Hinv1 Hst') as (r & self' & -> & Hinv' & Hc' & Ht' & Hl' & Hcont & Hmono' & Hfin).
    do 2 eexists. split; [done|]. split_and!; try done; [congruence|by auto|].
    intros Hr. destruct (Hfin Hr) as [Hs' Hall]. destruct (Hnone eq_refl Hs') as [-> Hf]. split; [done|].
    intros [|j] Hj.
    + rewrite Nat.add_0_r. apply Hmono'. exists it'. split; [|done]. by apply list_lookup_insert_eq.
    + rewrite <-Nat.add_succ_comm, <-HL1. apply (Hall j). lia.
Qed.

Lemma mod_reach (k L i : nat) : i < L → ∃ j, j < L ∧ (k + j) `mod` L = i.
Proof.
  intros Hi. pose proof (Nat.div_mod_eq k L) as Hk. pose proof (Nat.mod_upper_bound k L ltac:(lia)) as Hm.
  set (m := k `mod` L) in *. destruct (decide (m ≤ i)) as [Hle|Hgt].
  - exists (i - m). split; [lia|]. replace (k + (i - m)) with (i + (k / L) * L) by lia.
    rewrite Nat.Div0.mod_add. by apply Nat.mod_small.
  - exists (i + L - m). split; [lia|]. replace (k + (i + L - m)) with (i + (k / L + 1) * L) by lia.
    rewrite Nat.Div0.mod_add. by apply Nat.mod_small.
Qed.

Lemma report_others_spec i0 j cl p iters :
  Forall path_inv iters →
  ∃ iters', report_others i0 j (λ it, result_of sha256 to_bytes cl it p) iters = Ret iters' ∧
    Forall2 (λ it it', path_step (default [] cl) it it') iters iters' ∧
    (∀ i it, iters !! i = Some it → j + i = i0 → iters' !! i = Some it).
Proof.
  intros Hall. revert j. induction Hall as [|it iters Hit Hall IH]; intros j; cbn [report_others].
  { exists []. split_and!; try done. }
  assert (∃ it', (if decide (j ≠ i0) then '(_, it) ← result_of sha256 to_bytes cl it p; Ret it else Ret it)
    = Ret it' ∧ path_step (default [] cl) it it' ∧ (j = i0 → it' = it)) as (it' & -> & Hstep & Hsame).
  { case_decide as Hj.
    - destruct (path_step_result cl it p Hit) as (b & it' & -> & Hs). by exists it'.
    - exists it. split_and!; try done. unfold path_step. split_and!; try done. by left. }
  cbn [mbind outcome_bind]. destruct (IH (S j)) as (iters' & -> & H2 & Hs). exists (it' :: iters').
  split_and!; [done|by constructor|]. intros [|i] it0 Hi Hji; simpl in *.
  - simplify_eq. by rewrite Hsame by lia.
  - apply Hs; [done|lia].
Qed.

(** Advancing all paths without new peers. *)
Lemma disjoint_inv_paths known log self iters m :
  disjoint_inv known log self → Forall2 (path_step []) (cdp_iters self) iters →
  (∀ p st, m !! p = Some st → cdp_contacted_peers self !! p = Some st) →
  disjoint_inv known log (set_paths iters m self).
Proof.
  intros Hinv H2 Hm. pose proof (Forall2_length _ _ _ H2) as Hlen. constructor; simpl.
  - rewrite <-Hlen. apply Hinv.
  - intros i it' Hi. destruct (Forall2_lookup_r _ _ _ _ _ H2 Hi) as (it & Hit & Hp & Hc & Ht & _).
    rewrite Hc, Ht. split; [done|]. by apply (di_paths _ _ _ Hinv i).
  - intros p st. rewrite <-Hlen. intros ?%Hm. by eapply di_initiated.
  - intros i it' p Hi Hk. destruct (Forall2_lookup_r _ _ _ _ _ H2 Hi) as (it & Hit & _ & _ & _ & Hkn & _).
    destruct (Hkn p Hk) as [Hk1|?%elem_of_nil]; [|done]. by eapply di_origin.
  - intros p st it' Hst Hr Hi. destruct (Forall2_lookup_r _ _ _ _ _ H2 Hi) as (it & Hit & _ & _ & _ & _ & _ & Ha).
    apply Ha. eapply di_answered; [done|by apply Hm|done|done].
Qed.

(** [on_success] with the reported peers, or [on_failure]. *)
Definition disjoint_result_of (cl : option (list PeerId)) (self : ClosestDisjointPeersIter) (p : PeerId)
  : outcome (bool * ClosestDisjointPeersIter) :=
  match cl with
  | Some cl => ClosestDisjointPeersIter_on_success self p cl
  | None => ClosestDisjointPeersIter_on_failure self p
  end.

(** The peers a response makes known, to the path that made the request. *)
Definition reported (cl : option (list PeerId)) (self : ClosestDisjointPeersIter) (p : PeerId)
  : list (nat * PeerId) :=
  match cdp_contacted_peers self !! p with
  | Some st => pair (initiated_by st) <$> default [] cl
  | None => []
  end.

Lemma disjoint_result_body known log self p cl st f :
  disjoint_inv known log self → cdp_contacted_peers self !! p = Some st →
  ∃ (b : bool) self',
    (it ← vec_index (cdp_iters self) (initiated_by st);
     '(updated, it) ← result_of sha256 to_bytes cl it p;
     let m := if updated : bool
              then <[p := mkDisjointPeerState (initiated_by st) f]> (cdp_contacted_peers self)
              else cdp_contacted_peers self in
     iters ← report_others (initiated_by st) 0
               (λ it, result_of sha256 to_bytes ((λ _, []) <$> cl) it p)
               (<[initiated_by st := it]> (cdp_iters self));
     Ret (updated, set_paths iters m self)) = Ret (b, self') ∧
    disjoint_inv known (log ++ reported cl self p) self' ∧
    cdp_config self' = cdp_config self ∧ cdp_target self' = cdp_target self ∧
    cdp_contacted_peers self' =
      (if b then <[p := mkDisjointPeerState (initiated_by st) f]> (cdp_contacted_peers self)
       else cdp_contacted_peers self) ∧
    (b = true → response st = ResponseWaiting).
Proof.
  intros Hinv Hst. pose proof (di_initiated _ _ _ Hinv _ _ Hst) as Hlt.
  destruct (lookup_lt_is_Some_2 _ _ Hlt) as [it Hit]. unfold vec_index. rewrite Hit.
  cbn [expect mbind outcome_bind]. destruct (di_paths _ _ _ Hinv _ it Hit) as (Hpi & _ & _).
  destruct (path_step_result cl it p Hpi) as (b & it' & Hr & Hstep). rewrite Hr. cbn [mbind outcome_bind].
  set (m := if b then _ else _).
  assert (∀ q st', m !! q = Some st' → initiated_by st' < length (cdp_iters self)) as Hm.
  { intros q st'. unfold m. destruct b; [|by apply (di_initiated _ _ _ Hinv)].
    intros [[-> <-]|[_ ?]]%lookup_insert_Some; [done|]. by eapply di_initiated. }
  assert (disjoint_inv known (log ++ reported cl self p)
    (mkClosestDisjointPeersIter (cdp_config self) (cdp_target self)
      (<[initiated_by st := it']> (cdp_iters self)) (cdp_iter_order self) m)) as Hinv1.
  { eapply disjoint_inv_path; try done; [set_solver| |].
    - intros q Hq. apply elem_of_app. right. unfold reported. rewrite Hst.
      by apply list_elem_of_fmap_2.
    - intros q st'. unfold m. destruct b; [|by left].
      intros [[-> <-]|[_ ?]]%lookup_insert_Some; [|by left]. right. split; [done|]. by eapply result_answered. }
  destruct (report_others_spec (initiated_by st) 0 ((λ _, []) <$> cl) p
    (<[initiated_by st := it']> (cdp_iters self))) as (iters & -> & H2 & _).
  { apply Forall_lookup. intros j itj Hj. by apply (di_paths _ _ _ Hinv1 j). }
  do 2 eexists. split; [done|].
  replace (default [] ((λ _, []) <$> cl)) with (@nil PeerId) in H2 by (by destruct cl).
  split; [|split_and!; try done].
  - eapply (disjoint_inv_paths _ _ _ iters m Hinv1); done.
  - intros ->. destruct (response st) eqn:Hresp; [done|exfalso..].
    all: assert (answered sha256 to_bytes it p) as Ha
      by (eapply (di_answered _ _ _ Hinv p st); [done|by rewrite Hresp|done]).
    all: apply answered_not_expected in Ha; [|done].
    all: destruct (result_of_spec sha256 to_bytes cl it p Hpi) as (it2 & Hr2 & _).
    all: rewrite Hr, Ha in Hr2; by simplify_eq.
Qed.

Lemma disjoint_result_spec known log self p cl :
  disjoint_inv known log self →
  ∃ b self', disjoint_result_of cl self p = Ret (b, self') ∧
    disjoint_inv known (log ++ reported cl self p) self' ∧
    cdp_config self' = cdp_config self ∧ cdp_target self' = cdp_target self ∧
    (if b : bool then ∃ st f, cdp_contacted_peers self !! p = Some st ∧
       response st = ResponseWaiting ∧ response f ≠ ResponseWaiting ∧
       cdp_contacted_peers self' = <[p := f]> (cdp_contacted_peers self)
     else cdp_contacted_peers self' = cdp_contacted_peers self).
Proof.
  intros Hinv. destruct (cdp_contacted_peers self !! p) as [st|] eqn:Hst.
  - assert (∃ (b : bool) self', disjoint_result_of cl self p = Ret (b, self') ∧
      disjoint_inv known (log ++ reported cl self p) self' ∧
      cdp_config self' = cdp_config self ∧ cdp_target self' = cdp_target self ∧
      ∃ f, f ≠ ResponseWaiting ∧ cdp_contacted_peers self' =
        (if b then <[p := mkDisjointPeerState (initiated_by st) f]> (cdp_contacted_peers self)
         else cdp_contacted_peers self) ∧ (b = true → response st = ResponseWaiting))
      as (b & self' & Hr & Hinv' & Hc & Ht & f & Hf & Hcont & Hb).
    { destruct cl as [cl|]; simpl; unfold ClosestDisjointPeersIter_on_success, ClosestDisjointPeersIter_on_failure;
        rewrite Hst; [destruct (disjoint_result_body known log self p (Some cl) st ResponseSucceeded Hinv Hst)
                        as (b & self' & Hr & ? & ? & ? & ? & ?)|
                      destruct (disjoint_result_body known log self p None st ResponseFailed Hinv Hst)
                        as (b & self' & Hr & ? & ? & ? & ? & ?)]; exists b, self'.
      - split_and!; try done. by exists ResponseSucceeded.
      - split_and!; try done. by exists ResponseFailed. }
    exists b, self'. split_and!; try done. destruct b; [|done]. eexists st, _. by split_and!; [|apply Hb| |done].
  - exists false, self. unfold reported. rewrite Hst, app_nil_r. split_and!; try done.
    destruct cl; simpl; unfold ClosestDisjointPeersIter_on_success, ClosestDisjointPeersIter_on_failure;
      by rewrite Hst.
Qed.

Lemma finish_each_spec known log peers self :
  disjoint_inv known log self →
  ∃ self', finish_each peers self = Ret self' ∧ disjoint_inv known log self' ∧
    cdp_config self' = cdp_config self ∧ cdp_target self' = cdp_target self ∧
    cdp_contacted_peers self' = cdp_contacted_peers self.
Proof.
  revert self. induction peers as [|p peers IH]; intros self Hinv; cbn [finish_each]; [by eexists|].
  destruct (cdp_contacted_peers self !! p) as [st|] eqn:Hst; cbn [mbind outcome_bind]; [|by apply IH].
  destruct (lookup_lt_is_Some_2 _ _ (di_initiated _ _ _ Hinv _ _ Hst)) as [it Hit].
  unfold vec_index. rewrite Hit. cbn [expect mbind outcome_bind].
  destruct (di_paths _ _ _ Hinv _ it Hit) as (Hpi & _ & _).
  apply (IH (set_paths (<[initiated_by st:=ClosestPeersIter_finish it]> (cdp_iters self))
                      (cdp_contacted_peers self) self)).
  eapply (disjoint_inv_path known log log self); try done; [by apply path_step_finish|by intros q ?%elem_of_nil| |by left].
  by apply (di_initiated _ _ _ Hinv).
Qed.

(** ** Sequences of operations *)

Inductive disjoint_op : Type :=
| DjNext (now : N)
| DjResult (peer : PeerId) (closer_peers : option (list PeerId))
| DjFinishPaths (peers : list PeerId)
| DjFinish.

(** The peer to contact, the peers made known to a path, and the new state. *)
Definition disjoint_apply (op : disjoint_op) (self : ClosestDisjointPeersIter)
  : outcome (option PeerId * list (nat * PeerId) * ClosestDisjointPeersIter) :=
  match op with
  | DjNext now =>
      '(r, self) ← ClosestDisjointPeersIter_next self now;
      Ret (match r with IterWaiting q => q | _ => None end, [], self)
  | DjResult p cl => '(_, self') ← disjoint_result_of cl self p; Ret (None, reported cl self p, self')
  | DjFinishPaths ps => '(_, self) ← ClosestDisjointPeersIter_finish_paths self ps; Ret (None, [], self)
  | DjFinish => Ret (None, [], ClosestDisjointPeersIter_finish self)
  end.

Fixpoint disjoint_run (ops : list disjoint_op) (self : ClosestDisjointPeersIter)
  : outcome (list PeerId * list (nat * PeerId) * ClosestDisjointPeersIter) :=
  match ops with
  | [] => Ret ([], [], self)
  | op :: ops =>
      '(q, l, self) ← disjoint_apply op self;
      '(qs, log, self) ← disjoint_run ops self;
      Ret (option_list q ++ qs, l ++ log, self)
  end.

Lemma disjoint_apply_spec known log op self :
  disjoint_inv known log self →
  ∃ q l self', disjoint_apply op self = Ret (q, l, self') ∧ disjoint_inv known (log ++ l) self' ∧
    cdp_config self' = cdp_config self ∧ cdp_target self' = cdp_target self ∧
    match q with
    | Some q => (q ∉ dom (cdp_contacted_peers self)) ∧
        dom (cdp_contacted_peers self') = {[ q ]} ∪ dom (cdp_contacted_peers self)
    | None => dom (cdp_contacted_peers self') = dom (cdp_contacted_peers self)
    end.
Proof.
  intros Hinv. destruct op as [now|p cl|ps|]; simpl.
  - unfold ClosestDisjointPeersIter_next.
    destruct (paths_loop_spec known log (length (cdp_iters self)) now None self Hinv I)
      as (r & self' & -> & Hinv' & Hc & Ht & _ & Hr & _). simpl. do 3 eexists. split; [done|].
    rewrite app_nil_r. split_and!; try done.
    destruct r as [[q|]| |]; [|by rewrite Hr..]. destruct Hr as [Hn [i ->]].
    split; [by apply not_elem_of_dom|apply dom_insert_L].
  - destruct (disjoint_result_spec known log self p cl Hinv) as (b & self' & -> & Hinv' & Hc & Ht & Hd).
    simpl. do 3 eexists. split_and!; try done. destruct b; [|by rewrite Hd].
    destruct Hd as (st & f & Hst & _ & _ & ->). rewrite dom_insert_lookup_L; [done|by eexists].
  - unfold ClosestDisjointPeersIter_finish_paths.
    destruct (finish_each_spec known log ps self Hinv) as (self' & -> & Hinv' & Hc & Ht & Hd). simpl.
    do 3 eexists. split; [done|]. rewrite app_nil_r. split_and!; try done. by rewrite Hd.
  - do 3 eexists. split; [done|]. rewrite app_nil_r. split_and!; try done.
    apply disjoint_inv_paths; [done| |done].
    apply Forall2_fmap_r, Forall_Forall2_diag, Forall_lookup. intros i it Hi.
    apply path_step_finish. by apply (di_paths _ _ _ Hinv i).
Qed.

Lemma disjoint_run_spec known log ops self :
  disjoint_inv known log self →
  ∃ qs l self', disjoint_run ops self = Ret (qs, l, self') ∧ disjoint_inv known (log ++ l) self' ∧
    cdp_config self' = cdp_config self ∧ cdp_target self' = cdp_target self ∧
    NoDup qs ∧ (∀ q, q ∈ qs → q ∉ dom (cdp_contacted_peers self)) ∧
    dom (cdp_contacted_peers self') = list_to_set qs ∪ dom (cdp_contacted_peers self).
Proof.
  revert log self. induction ops as [|op ops IH]; intros log self Hinv; cbn [disjoint_run].
  { exists [], [], self. rewrite app_nil_r. split_and!; try done; [constructor|by intros q ?%elem_of_nil|set_solver]. }
  destruct (disjoint_apply_spec known log op self Hinv) as (q & l & self1 & -> & Hinv1 & Hc1 & Ht1 & Hq).
  cbn [mbind outcome_bind].
  destruct (IH (log ++ l) self1 Hinv1) as (qs & l' & self2 & -> & Hinv2 & Hc2 & Ht2 & Hnd & Hnew & Hdom).
  cbn [mbind outcome_bind]. do 3 eexists. split; [done|]. rewrite (assoc_L (++)).
  split_and!; [done|congruence|congruence| | |].
  - destruct q as [q|]; [|done]. simpl. constructor; [|done]. intros Hin%Hnew. apply Hin.
    destruct Hq as [_ ->]. set_solver.
  - destruct q as [q|]; simpl; intros p Hp; [apply elem_of_cons in Hp as [->|Hp]; [apply Hq|]|].
    + apply Hnew in Hp. destruct Hq as [_ Hq]. set_solver.
    + apply Hnew in Hp. by rewrite Hq in Hp.
  - rewrite Hdom. destruct q as [q|]; simpl; [destruct Hq as [_ ->]; set_solver|by rewrite Hq].
Qed.

Lemma disjoint_inv_new config target known :
  Forall (key_ok sha256 to_bytes) known →
  disjoint_inv (key_preimage <$> known) [] (ClosestDisjointPeersIter_with_config config target known).
Proof.
  intros Hok. constructor; simpl.
  - by rewrite length_fmap, length_seq.
  - intros i it (j & -> & _)%list_lookup_fmap_Some. split_and!; try done.
    apply with_config_inv. by apply Forall_take.
  - intros p st. by rewrite lookup_empty.
  - intros i it p (j & -> & _)%list_lookup_fmap_Some (d & e & Hin & <-). left. simpl in Hin.
    apply bt_from_iter_elem, elem_of_take in Hin as (k & Hk%list_elem_of_lookup_2 & _).
    apply list_elem_of_fmap in Hk as (key & [= _ ->] & Hkey). apply list_elem_of_fmap_2.
    apply elem_of_take in Hkey as (n & Hn & _). by eapply list_elem_of_lookup_2.
  - intros p st it. by rewrite lookup_empty.
Qed.

(** [C12] The paths of a lookup are disjoint.  Whatever sequence of calls is made,
    the iterator does not panic and asks for no peer twice; and a path knows
    only the peers the lookup started from and the peers reported in a
    response to a request which that path made itself.  [log] lists, for every
    response, the reported peers under the path that first asked for the
    responding peer. *)
Theorem ClosestDisjointPeersIter_paths_disjoint (config : ClosestPeersIterConfig) (target : KeyBytes)
    (known : list (Key PeerId)) (ops : list disjoint_op) :
  Forall (key_ok sha256 to_bytes) known →
  ∃ qs log self,
    disjoint_run ops (ClosestDisjointPeersIter_with_config config target known) = Ret (qs, log, self) ∧
    NoDup qs ∧ dom (cdp_contacted_peers self) = list_to_set qs ∧
    length (cdp_iters self) = Pos.to_nat (parallelism config) ∧
    ∀ i it p, cdp_iters self !! i = Some it → knows it p → p ∈ key_preimage <$> known ∨ (i, p) ∈ log.
Proof.
  intros Hok. destruct (disjoint_run_spec _ [] ops _ (disjoint_inv_new config target known Hok))
    as (qs & log & self & Hrun & Hinv & Hc & Ht & Hnd & _ & Hdom).
  exists qs, log, self. split_and!; [done|done| | |].
  - rewrite Hdom. simpl. set_solver.
  - by rewrite (di_length _ _ _ Hinv), Hc.
  - intros i it p Hi Hk. by eapply (di_origin _ _ _ Hinv).
Qed.

(** ** Finishing *)

Lemma is_finished_paths self :
  ClosestDisjointPeersIter_is_finished self = true ↔
  ∀ i, i < length (cdp_iters self) → path_finished self i.
Proof.
  unfold ClosestDisjointPeersIter_is_finished. rewrite forallb_forall. split.
  - intros Hall i [it Hit]%lookup_lt_is_Some_2. exists it. split; [done|].
    apply (bool_decide_eq_true_1 _ (Hall it (proj1 (list_elem_of_In _ _) (list_elem_of_lookup_2 _ _ _ Hit)))).
  - intros Hall it [i Hi]%list_elem_of_In%list_elem_of_lookup.
    destruct (Hall i) as (it2 & Hit2 & Hf); [by eapply lookup_lt_Some|]. simplify_eq.
    by apply bool_decide_eq_true.
Qed.

Lemma paths_loop_finished known log n now self :
  disjoint_inv known log self → (∀ i, i < length (cdp_iters self) → path_finished self i) →
  ∃ self', paths_loop n now None self = Ret (IterFinished, self').
Proof.
  revert self. induction n as [|n IH]; intros self Hinv Hall; cbn [paths_loop]; [by eexists|].
  set (i := _ `mod` _).
  assert (i < length (cdp_iters self)) as Hi.
  { apply Nat.mod_upper_bound. rewrite (di_length _ _ _ Hinv). lia. }
  destruct (Hall i Hi) as (it & Hit & Hf). unfold vec_index. rewrite Hit.
  cbn [expect mbind outcome_bind path_loop]. rewrite next_of_finished by done. cbn [mbind outcome_bind].
  destruct (di_paths _ _ _ Hinv i it Hit) as (Hpi & _ & _). apply IH.
  - eapply (disjoint_inv_path known log log self _ _ i it it []); try done;
      [by apply path_step_refl|by intros p ?%elem_of_nil|by apply (di_initiated _ _ _ Hinv)|by left].
  - intros j. simpl. rewrite length_insert. unfold path_finished. simpl.
    rewrite list_insert_id by done. apply Hall.
Qed.

Lemma next_finished_iff known log self now :
  disjoint_inv known log self →
  ∃ r self', ClosestDisjointPeersIter_next self now = Ret (r, self') ∧
    (r = IterFinished → ClosestDisjointPeersIter_is_finished self' = true) ∧
    (ClosestDisjointPeersIter_is_finished self = true → r = IterFinished).
Proof.
  intros Hinv. unfold ClosestDisjointPeersIter_next.
  destruct (paths_loop_spec known log (length (cdp_iters self)) now None self Hinv I)
    as (r & self' & Hn & Hinv' & _ & _ & Hlen & _ & _ & Hfin).
  exists r, self'. split_and!; [done| |].
  - intros Hr. apply is_finished_paths. rewrite Hlen. intros i Hi.
    destruct (mod_reach (cdp_iter_order self) (length (cdp_iters self)) i Hi) as (j & Hj & <-).
    by apply Hfin.
  - intros Hall. pose proof (proj1 (is_finished_paths self) Hall) as Hf.
    destruct (paths_loop_finished known log (length (cdp_iters self)) now self Hinv Hf) as [self2 Hn2].
    rewrite Hn in Hn2. by simplify_eq.
Qed.

(** [next] answers [Finished] exactly when all paths are finished: if it does,
    they all are afterwards, and once they all are, it does. *)
Theorem ClosestDisjointPeersIter_next_finished (known : list PeerId) (log : list (nat * PeerId))
    (self : ClosestDisjointPeersIter) (now : N) :
  disjoint_inv known log self →
  ∃ r self', ClosestDisjointPeersIter_next self now = Ret (r, self') ∧
    (r = IterFinished → ClosestDisjointPeersIter_is_finished self' = true) ∧
    (ClosestDisjointPeersIter_is_finished self = true → r = IterFinished).
Proof. apply next_finished_iff. Qed.

(** ** The result *)

Lemma into_result_ordered target it :
  path_inv it → cpi_target it = target →
  ordered target (map (Key_from_PeerId sha256 to_bytes) (ClosestPeersIter_into_result it)).
Proof.
  intros Hinv <-. unfold ClosestPeersIter_into_result, ordered.
  set (f := λ '(_, p), _). set (n := Pos.to_nat _).
  assert (∀ ps, bt_wf ps → (∀ d p, (d, p) ∈ ps → key_ok sha256 to_bytes (peer_key p) ∧
            d = Key_distance (peer_key p) (cpi_target it)) →
    StronglySorted (λ a b, kd (cpi_target it) a < kd (cpi_target it) b)%N
      (map (Key_from_PeerId sha256 to_bytes) (omap f ps)) ∧
    ∀ k, k ∈ map (Key_from_PeerId sha256 to_bytes) (omap f ps) → ∃ e, (kd (cpi_target it) k, e) ∈ ps) as Hps.
  { induction ps as [|[d p] ps IH]; intros Hwf Hk; [split; [constructor|by intros k ?%elem_of_nil]|].
    apply bt_wf_cons in Hwf as [Hwf Hlt]. destruct IH as [Hs Hin]; [done|intros ? ? ?; apply Hk; by right|].
    assert (kd (cpi_target it) (Key_from_PeerId sha256 to_bytes (key_preimage (peer_key p))) = d) as Hd.
    { destruct (Hk d p) as [Hok ->]; [by left|]. rewrite <-Hok. apply KeyBytes_distance_comm. }
    simpl. destruct (peer_state p); simpl; try (split; [done|]; intros k (e & He)%Hin; exists e; by right).
    split.
    - constructor; [done|]. apply Forall_forall. intros k (e & He)%Hin. rewrite Hd. by eapply Hlt.
    - intros k [->|(e & He)%Hin]%elem_of_cons; [exists p; rewrite Hd; by left|exists e; by right]. }
  destruct (Hps _ (inv_sorted _ _ _ Hinv) (inv_keys _ _ _ Hinv)) as [Hs _].
  rewrite <-firstn_map. rewrite <-(take_drop n (map _ _)) in Hs. by apply StronglySorted_app_1_l in Hs.
Qed.

(** The result of the lookup merges the results of the paths: it is in
    strictly increasing order of distance to the target, so without
    duplicates, every peer of it is a result of some path, and every result of
    a path occurs in it (up to peers with the same key). *)
Theorem ClosestDisjointPeersIter_into_result_spec (known : list PeerId) (log : list (nat * PeerId))
    (self : ClosestDisjointPeersIter) :
  disjoint_inv known log self →
  ∃ out, ClosestDisjointPeersIter_into_result self = Some out ∧
    StronglySorted (λ p q, KeyBytes_distance (cdp_target self) (Key_from_PeerId sha256 to_bytes p) <
                           KeyBytes_distance (cdp_target self) (Key_from_PeerId sha256 to_bytes q))%N out ∧
    (∀ p, p ∈ out → ∃ it, it ∈ cdp_iters self ∧ p ∈ ClosestPeersIter_into_result it) ∧
    (∀ it p, it ∈ cdp_iters self → p ∈ ClosestPeersIter_into_result it →
       ∃ q, q ∈ out ∧ key_bytes (Key_from_PeerId sha256 to_bytes q) =
                      key_bytes (Key_from_PeerId sha256 to_bytes p)).
Proof.
  intros Hinv. unfold ClosestDisjointPeersIter_into_result.
  set (iters := result_per_path self).
  assert (∀ i, nth_iter iters i = default [] ((λ it, map (Key_from_PeerId sha256 to_bytes)
            (ClosestPeersIter_into_result it)) <$> cdp_iters self !! i)) as Hnth.
  { intros i. unfold nth_iter, iters, result_per_path. by rewrite list_lookup_fmap. }
  destruct (ResultIter_collect_spec (cdp_target self) (S (sum_list_with length iters)) iters)
    as (keys & -> & Hord & Hsub & Hall); [|lia|].
  { intros i. rewrite Hnth. destruct (cdp_iters self !! i) as [it|] eqn:Hi; [|constructor].
    destruct (di_paths _ _ _ Hinv i it Hi) as (Hpi & _ & Ht). by apply into_result_ordered. }
  assert (∀ k, k ∈ keys → ∃ it p, it ∈ cdp_iters self ∧ p ∈ ClosestPeersIter_into_result it ∧
            k = Key_from_PeerId sha256 to_bytes p) as Hkeys.
  { intros k [i Hi]%Hsub. rewrite Hnth in Hi.
    destruct (cdp_iters self !! i) as [it|] eqn:Hit; [|by apply elem_of_nil in Hi].
    apply list_elem_of_fmap in Hi as (p & -> & Hp). exists it, p. split_and!; [|done|done].
    by eapply list_elem_of_lookup_2. }
  simpl. eexists. split; [done|]. split_and!.
  - clear Hsub Hall. induction Hord as [|k keys Hs IH Hk]; simpl; constructor.
    + apply IH. intros k' Hk'. apply Hkeys. by right.
    + apply Forall_fmap, Forall_forall. intros k' Hk'. rewrite Forall_forall in Hk.
      destruct (Hkeys k) as (it & p & _ & _ & ->); [by left|].
      destruct (Hkeys k') as (it' & p' & _ & _ & ->); [by right|]. by apply (Hk _ Hk').
  - intros p (k & -> & Hk)%list_elem_of_fmap. destruct (Hkeys k Hk) as (it & p & Hit & Hp & ->).
    by exists it.
  - intros it p [i Hi]%list_elem_of_lookup Hp.
    assert (key_bytes (Key_from_PeerId sha256 to_bytes p) ∈ key_bytes <$> keys) as Hin.
    { apply Hall. exists i, (Key_from_PeerId sha256 to_bytes p). split; [|done].
      rewrite Hnth, Hi. simpl. by apply (list_elem_of_fmap_2 (Key_from_PeerId sha256 to_bytes)). }
    apply list_elem_of_fmap in Hin as (k & Hk & Hin). exists (key_preimage k).
    split; [by apply (list_elem_of_fmap_2 key_preimage)|].
    destruct (Hkeys k Hin) as (_ & q & _ & _ & ->). exact (eq_sym Hk).
Qed.
End disjoint.

(** ** A concrete lookup on two paths *)
Definition two_paths : ClosestDisjointPeersIter (PeerId := byte) :=
  ClosestDisjointPeersIter_with_config sample_config zero_key sample_known.
Definition two_paths_ops : list disjoint_op :=
  [DjNext 0; DjNext 0; DjResult Byte.x03 (Some [Byte.x02; Byte.x05]); DjNext 1;
   DjResult Byte.x09 (Some [Byte.x04; Byte.x06]); DjNext 2; DjResult Byte.x02 None; DjNext 3].

Lemma ClosestDisjointPeersIter_paths_disjoint_witness :
  ∃ qs log self, disjoint_run byte_key byte_bytes two_paths_ops two_paths = Ret (qs, log, self) ∧
    NoDup qs ∧ dom (cdp_contacted_peers self) = list_to_set qs ∧ length (cdp_iters self) = 2 ∧
    ∀ i it p, cdp_iters self !! i = Some it → knows it p → p ∈ [Byte.x03; Byte.x09] ∨ (i, p) ∈ log.
Proof.
  apply (ClosestDisjointPeersIter_paths_disjoint byte_key byte_bytes sample_config zero_key
           sample_known two_paths_ops), sample_known_ok.
Defined.

Definition two_paths_run : list byte * list (nat * byte) * ClosestDisjointPeersIter (PeerId := byte) :=
  match disjoint_run byte_key byte_bytes two_paths_ops two_paths with
  | Ret x => x
  | Panic => ([], [], two_paths)
  end.

Lemma two_paths_inv : ∃ log, disjoint_inv byte_key byte_bytes [Byte.x03; Byte.x09] log two_paths_run.2.
Proof.
  destruct (disjoint_run_spec byte_key byte_bytes _ [] two_paths_ops two_paths
    (disjoint_inv_new byte_key byte_bytes sample_config zero_key sample_known sample_known_ok))
    as (qs & log & self & Hrun & Hinv & _).
  exists log. unfold two_paths_run. rewrite Hrun. exact Hinv.
Qed.

Lemma ClosestDisjointPeersIter_next_finished_witness :
  ∃ r self', ClosestDisjointPeersIter_next byte_key byte_bytes (two_paths_run.2) 4 = Ret (r, self') ∧
    (r = IterFinished → ClosestDisjointPeersIter_is_finished self' = true) ∧
    (ClosestDisjointPeersIter_is_finished (two_paths_run.2) = true → r = IterFinished).
Proof.
  destruct two_paths_inv as [log Hinv].
  exact (ClosestDisjointPeersIter_next_finished byte_key byte_bytes _ log _ 4 Hinv).
Defined.

Lemma ClosestDisjointPeersIter_into_result_spec_witness :
  ∃ out, ClosestDisjointPeersIter_into_result byte_key byte_bytes (two_paths_run.2) = Some out ∧
    out = [Byte.x03; Byte.x09].
Proof.
  destruct two_paths_inv as [log Hinv].
  destruct (ClosestDisjointPeersIter_into_result_spec byte_key byte_bytes _ log _ Hinv) as (out & Hout & _).
  exists out. split; [exact Hout|]. vm_compute in Hout. by simplify_eq.
Defined.
