(* ===== verification/KadQuery.v ===== *)
(** * Queries and the query pool

    [protocols/kad/src/query.rs].  A query drives one of the three peer
    iterators; the pool polls its queries.  What a query needs of an iterator
    is the interface [PeersIter] with the laws [PeersIterSpec], which the three
    iterators implement; the theorems about queries and the pool are proved
    against the interface.  The pool is a [FnvHashMap]: the order in which
    [poll] visits the queries is an argument, any permutation of the keys.
    Instants are numbers; subtracting a later instant gives zero. *)

From stdpp Require Import prelude fin_maps.
From S2P Require Import Prelude KadKey BTreeMap KadBucket KadPeers KadLookup KadFixed KadDisjoint.

(** ** The interface of peer iterators *)

Class PeersIter (PeerId IT : Type) := {
  iter_next : IT → N → outcome (PeersIterState PeerId * IT);
  iter_on_success : IT → PeerId → list PeerId → outcome (bool * IT);
  iter_on_failure : IT → PeerId → outcome (bool * IT);
  iter_is_waiting : IT → PeerId → bool;
  iter_finish : IT → IT;
  iter_is_finished : IT → bool
}.

Definition asks {PeerId} (r : PeersIterState PeerId) : nat :=
  match r with IterWaiting (Some _) => 1 | _ => 0 end.

(** An iterator counts the requests it asked for and the answers it accepted,
    at most one per request; [next] and [is_finished] agree. *)
Class PeersIterSpec (PeerId IT : Type) `{!PeersIter PeerId IT} := {
  iter_inv : IT → Prop;
  iter_requests : IT → nat;
  iter_answers : IT → nat;
  iter_answers_le it : iter_inv it → iter_answers it ≤ iter_requests it;
  iter_next_spec it now : iter_inv it → ∃ r it', iter_next it now = Ret (r, it') ∧ iter_inv it' ∧
    iter_requests it' = iter_requests it + asks r ∧ iter_answers it' = iter_answers it ∧
    (r = IterFinished → iter_is_finished it' = true) ∧
    (iter_is_finished it = true → r = IterFinished);
  iter_success_spec it p cl : iter_inv it → ∃ b it', iter_on_success it p cl = Ret (b, it') ∧
    iter_inv it' ∧ iter_requests it' = iter_requests it ∧
    iter_answers it' = iter_answers it + (if b then 1 else 0);
  iter_failure_spec it p : iter_inv it → ∃ b it', iter_on_failure it p = Ret (b, it') ∧
    iter_inv it' ∧ iter_requests it' = iter_requests it ∧
    iter_answers it' = iter_answers it + (if b then 1 else 0);
  iter_finish_spec it : iter_inv it → iter_inv (iter_finish it) ∧
    iter_is_finished (iter_finish it) = true ∧
    iter_requests (iter_finish it) = iter_requests it ∧ iter_answers (iter_finish it) = iter_answers it
}.

(** ** The closest-peers iterator implements the interface *)
Section closest_instance.
Context {PeerId : Type} `{Countable PeerId}.
Context (sha256 : list byte → KeyBytes) (to_bytes : PeerId → list byte).

Definition closest_peers_iter : PeersIter PeerId (ClosestPeersIter (PeerId := PeerId)) := {|
  iter_next := ClosestPeersIter_next;
  iter_on_success := ClosestPeersIter_on_success sha256 to_bytes;
  iter_on_failure := ClosestPeersIter_on_failure sha256 to_bytes;
  iter_is_waiting := ClosestPeersIter_is_waiting;
  iter_finish := ClosestPeersIter_finish;
  iter_is_finished := ClosestPeersIter_is_finished
|}.

(** Counting the peers whose state satisfies [f]. *)
Definition pcount (f : PeerState → bool) (ps : list (Distance * Peer (PeerId := PeerId))) : nat :=
  length (filter (λ e, f (peer_state e.2) = true) ps).
Definition is_contacted (st : PeerState) : bool :=
  match st with NotContacted => false | _ => true end.

Lemma pcount_cons f d p ps :
  pcount f ((d, p) :: ps) = (if f (peer_state p) then 1 else 0) + pcount f ps.
Proof. unfold pcount. rewrite filter_cons. simpl. by destruct (f (peer_state p)). Qed.

Lemma pcount_app f ps1 ps2 : pcount f (ps1 ++ ps2) = pcount f ps1 + pcount f ps2.
Proof. unfold pcount. by rewrite filter_app, length_app. Qed.

Lemma pcount_expire f now ps :
  (∀ t, f (Waiting t) = f Unresponsive) → pcount f (expire now ps) = pcount f ps.
Proof.
  intros Hf. induction ps as [|[d p] ps IH]; [done|]. cbn [expire fmap list_fmap prod_map fst snd].
  fold (expire now ps). rewrite !pcount_cons, IH. f_equal. unfold expire_peer.
  destruct (peer_state p) as [|t| | |] eqn:E; rewrite ?E; try done.
  destruct (decide (t ≤ now)%N); simpl; by rewrite ?E, ?Hf.
Qed.

Lemma pcount_le f g ps : (∀ st, f st = true → g st = true) → pcount f ps ≤ pcount g ps.
Proof.
  intros Hfg. induction ps as [|[d p] ps IH]; [done|]. rewrite !pcount_cons.
  specialize (Hfg (peer_state p)). destruct (f (peer_state p)); [rewrite Hfg by done|]; lia.
Qed.

Lemma pcount_extend f cl ps ps' :
  bt_wf ps → bt_wf ps' → f NotContacted = false →
  peers_extend sha256 to_bytes cl ps ps' → pcount f ps' = pcount f ps.
Proof.
  intros Hwf Hwf' Hf [Hx Hy]. unfold pcount. apply Permutation_length, NoDup_Permutation.
  1,2: apply NoDup_filter, (NoDup_fmap_1 fst); by apply bt_wf_NoDup.
  intros [d p]. rewrite !list_elem_of_filter. simpl. split; [|by intros [? ?]; auto].
  intros [Hs Hin]. split; [done|]. apply Hy in Hin as [?|(q & _ & ->)]; [done|]. simpl in Hs. congruence.
Qed.

Lemma next_counts it now r it' :
  cpi_inv sha256 to_bytes it → ClosestPeersIter_next it now = Ret (r, it') →
  pcount is_contacted (cpi_closest_peers it') = pcount is_contacted (cpi_closest_peers it) + asks r ∧
  pcount is_final (cpi_closest_peers it') = pcount is_final (cpi_closest_peers it).
Proof.
  intros Hinv Hn. destruct (decide (cpi_state it = Finished)) as [Hf|Hf].
  { rewrite next_of_finished in Hn by done. simplify_eq. simpl. lia. }
  destruct (ClosestPeersIter_next_unfold _ _ it now Hinv Hf)
    as (l1 & l2 & l2' & nw' & r' & Hps & _ & Hpost & _ & Hn'). rewrite Hn' in Hn. clear Hn'.
  assert (cpi_closest_peers it' = expire now l1 ++ l2' ∧
    pcount is_contacted l2' = pcount is_contacted l2 + asks r ∧ pcount is_final l2' = pcount is_final l2)
    as (-> & Hc & Hfin).
  { destruct r' as [[q| |]|]; simpl in Hpost.
    - destruct Hpost as (_ & d & p & rest & -> & Hs & -> & ->). simplify_eq/=.
      rewrite !pcount_cons, Hs. simpl. split_and!; [done|lia|done].
    - destruct Hpost as (_ & -> & _). simplify_eq/=. split_and!; [done|lia|done].
    - destruct Hpost as (-> & _). simplify_eq/=. split_and!; [done|lia|done].
    - destruct Hpost as (-> & -> & _). case_decide; simplify_eq/=; split_and!; (done || lia). }
  rewrite Hps, !pcount_app, !pcount_expire by done. lia.
Qed.

Lemma result_counts cl it p b it' :
  cpi_inv sha256 to_bytes it → result_of sha256 to_bytes cl it p = Ret (b, it') →
  pcount is_contacted (cpi_closest_peers it') = pcount is_contacted (cpi_closest_peers it) ∧
  pcount is_final (cpi_closest_peers it') =
    pcount is_final (cpi_closest_peers it) + (if b then 1 else 0).
Proof.
  intros Hinv Hr. destruct (result_of_spec sha256 to_bytes cl it p Hinv) as (it2 & Hr2 & Hinv2 & _ & _ & Hspec).
  rewrite Hr in Hr2. simplify_eq. destruct (result_expected sha256 to_bytes it p); [|subst; lia].
  destruct Hspec as (e & ps & Hget & Hex & Hps & _ & Hwf & Hx & _).
  destruct (bt_insert_replace _ (mkPeer (peer_key e) (result_state cl)) e _ Hget) as (m1 & m2 & Hm & Hm').
  rewrite (pcount_extend is_contacted (default [] cl) ps) by (done || apply Hinv2).
  rewrite (pcount_extend is_final (default [] cl) ps) by (done || apply Hinv2).
  rewrite Hps, Hm', Hm, !pcount_app, !pcount_cons. simpl.
  destruct (peer_state e), cl; simpl in *; try done; lia.
Qed.

#[export] Instance closest_peers_iter_spec : @PeersIterSpec PeerId _ closest_peers_iter.
Proof.
  refine {| iter_inv := cpi_inv sha256 to_bytes : _ → Prop;
            iter_requests := λ it, pcount is_contacted (cpi_closest_peers it);
            iter_answers := λ it, pcount is_final (cpi_closest_peers it) |}.
  - intros it _. apply pcount_le. by intros [].
  - intros it now Hinv. destruct (ClosestPeersIter_next_inv _ _ it now Hinv) as (r & it' & Hn & Hinv' & _).
    destruct (next_counts it now r it' Hinv Hn). exists r, it'. split_and!; try done.
    + intros ->. apply bool_decide_eq_true. by eapply next_finished_state.
    + intros Hf%bool_decide_eq_true_1. simpl in Hn. rewrite next_of_finished in Hn by done. by simplify_eq.
  - intros it p cl Hinv. destruct (result_of_spec _ _ (Some cl) it p Hinv) as (it' & Hr & Hinv' & _).
    destruct (result_counts _ _ _ _ _ Hinv Hr). by do 2 eexists.
  - intros it p Hinv. destruct (result_of_spec _ _ None it p Hinv) as (it' & Hr & Hinv' & _).
    destruct (result_counts _ _ _ _ _ Hinv Hr). by do 2 eexists.
  - intros it []. by split_and!.
Defined.
End closest_instance.

(** ** The fixed-peers iterator implements the interface *)
Section fixed_instance.
Context {PeerId : Type} `{Countable PeerId}.

Definition fixed_peers_iter : PeersIter PeerId (FixedPeersIter (PeerId := PeerId)) := {|
  iter_next it _ := Ret (FixedPeersIter_next it);
  iter_on_success it p _ := FixedPeersIter_on_success it p;
  iter_on_failure := FixedPeersIter_on_failure;
  iter_is_waiting := FixedPeersIter_is_waiting;
  iter_finish := FixedPeersIter_finish;
  iter_is_finished := FixedPeersIter_is_finished
|}.

Definition fixed_answers (m : gmap PeerId FixedPeerState) : nat := map_count (λ x, x.2 ≠ FpWaiting) m.

Lemma map_count_size {K A} `{Countable K} (P : K * A → Prop) `{!∀ x, Decision (P x)} (m : gmap K A) :
  map_count P m ≤ size m.
Proof. unfold map_count. apply map_subseteq_size, map_filter_subseteq. Qed.

Lemma fixed_next_counts peers0 qs it :
  fixed_inv peers0 qs it →
  let '(r, it') := FixedPeersIter_next it in
  (∃ qs', fixed_inv peers0 qs' it') ∧
  size (fpi_peers it') = size (fpi_peers it) + asks r ∧
  fixed_answers (fpi_peers it') = fixed_answers (fpi_peers it) ∧
  (r = IterFinished → FixedPeersIter_is_finished it' = true) ∧
  (FixedPeersIter_is_finished it = true → r = IterFinished).
Proof.
  intros Hinv. destruct (fixed_apply_spec peers0 qs FixedNext it Hinv) as (q & it1 & Happ & Hinv1 & _).
  simpl in Happ. unfold FixedPeersIter_next in *. unfold FixedPeersIter_is_finished.
  destruct it as [par m iter [nw|]]; simpl in *.
  2:{ simplify_eq. split_and!; [by eexists|simpl; lia|done|done|done]. }
  case_decide; [simplify_eq; split_and!; [by eexists|simpl; lia|done..]|].
  assert (let '(r, it') := fixed_next_loop par m nw iter in
    size (fpi_peers it') = size m + asks r ∧ fixed_answers (fpi_peers it') = fixed_answers m ∧
    (r = IterFinished → fpi_state it' = FixedFinished)) as Hl.
  { clear. induction iter as [|p iter IH]; simpl.
    - case_decide; simpl; split_and!; (done || lia).
    - destruct (m !! p) eqn:Hp; [done|]. simpl. split_and!; [|..|done].
      + rewrite map_size_insert_None by done. lia.
      + pose proof (map_count_insert (λ x : PeerId * FixedPeerState, x.2 ≠ FpWaiting) m p FpWaiting) as Hc.
        rewrite Hp in Hc. unfold fixed_answers, count1 in *. simpl in Hc. lia. }
  destruct (fixed_next_loop par m nw iter) as [r it'] eqn:Hn. simplify_eq.
  destruct Hl as (Hs & Ha & Hf). split_and!; [by eexists|done|done| |done].
  intros Hr. apply bool_decide_eq_true. by apply Hf.
Qed.

Lemma fixed_result_counts peers0 qs it p st :
  fixed_inv peers0 qs it → st ≠ FpWaiting →
  ∃ b it', fixed_result st it p = Ret (b, it') ∧ (∃ qs', fixed_inv peers0 qs' it') ∧
    size (fpi_peers it') = size (fpi_peers it) ∧
    fixed_answers (fpi_peers it') = fixed_answers (fpi_peers it) + (if b then 1 else 0).
Proof.
  intros Hinv Hst. destruct (fixed_result_spec peers0 qs it p st Hinv Hst) as (b & it' & Hr & Hinv' & Hb & Hb').
  exists b, it'. split; [done|]. split; [by eexists|]. destruct b; [|subst; lia].
  symmetry in Hb. apply andb_true_iff in Hb as [_ Hp%bool_decide_eq_true_1]. destruct Hb' as [-> _].
  rewrite map_size_insert_Some by (by eexists). split; [done|].
  pose proof (map_count_insert (λ x : PeerId * FixedPeerState, x.2 ≠ FpWaiting) (fpi_peers it) p st) as Hc.
  rewrite Hp in Hc. unfold fixed_answers, count1 in *. simpl in Hc. rewrite decide_True in Hc by done. lia.
Qed.

#[export] Instance fixed_peers_iter_spec : @PeersIterSpec PeerId _ fixed_peers_iter.
Proof.
  refine {| iter_inv := (λ it, ∃ peers0 qs, fixed_inv peers0 qs it) : _ → Prop;
            iter_requests := λ it, size (fpi_peers it);
            iter_answers := λ it, fixed_answers (fpi_peers it) |}.
  - intros it _. apply map_count_size.
  - intros it now (peers0 & qs & Hinv). simpl. pose proof (fixed_next_counts peers0 qs it Hinv) as Hn.
    destruct (FixedPeersIter_next it) as [r it']. exists r, it'. destruct Hn as ([qs' ?] & ?).
    split_and!; try done; [by eexists _, _|naive_solver..].
  - intros it p cl (peers0 & qs & Hinv). simpl.
    destruct (fixed_result_counts peers0 qs it p FpSucceeded Hinv) as (b & it' & Hr & [qs' ?] & ? & ?); [done|].
    exists b, it'. split_and!; try done. by eexists _, _.
  - intros it p (peers0 & qs & Hinv). simpl.
    destruct (fixed_result_counts peers0 qs it p FpFailed Hinv) as (b & it' & Hr & [qs' ?] & ? & ?); [done|].
    exists b, it'. split_and!; try done. by eexists _, _.
  - intros it (peers0 & qs & Hinv). simpl. unfold FixedPeersIter_finish, FixedPeersIter_is_finished.
    destruct (fpi_state it) eqn:E; simpl; rewrite ?E; split_and!; try done; [|by eexists _, _].
    exists peers0, qs. by destruct Hinv; constructor.
Defined.
End fixed_instance.

(** ** The disjoint-paths iterator implements the interface *)
Section disjoint_instance.
Context {PeerId : Type} `{Countable PeerId}.
Context (sha256 : list byte → KeyBytes) (to_bytes : PeerId → list byte).

Definition closest_disjoint_iter : PeersIter PeerId (ClosestDisjointPeersIter (PeerId := PeerId)) := {|
  iter_next := ClosestDisjointPeersIter_next sha256 to_bytes;
  iter_on_success := ClosestDisjointPeersIter_on_success sha256 to_bytes;
  iter_on_failure := ClosestDisjointPeersIter_on_failure sha256 to_bytes;
  iter_is_waiting := ClosestDisjointPeersIter_is_waiting;
  iter_finish := ClosestDisjointPeersIter_finish;
  iter_is_finished := ClosestDisjointPeersIter_is_finished
|}.

Definition disjoint_answers (m : gmap PeerId DisjointPeerState) : nat :=
  map_count (λ x, response x.2 ≠ ResponseWaiting) m.

Lemma disjoint_result_counts known log self p cl :
  disjoint_inv sha256 to_bytes known log self →
  ∃ (b : bool) self', disjoint_result_of sha256 to_bytes cl self p = Ret (b, self') ∧
    (∃ known log, disjoint_inv sha256 to_bytes known log self') ∧
    size (cdp_contacted_peers self') = size (cdp_contacted_peers self) ∧
    disjoint_answers (cdp_contacted_peers self') =
      disjoint_answers (cdp_contacted_peers self) + (if b then 1 else 0).
Proof.
  intros Hinv. destruct (disjoint_result_spec _ _ known log self p cl Hinv)
    as (b & self' & Hr & Hinv' & _ & _ & Hb). exists b, self'. split; [done|].
  split; [by eexists _, _|]. destruct b; [|rewrite Hb; lia].
  destruct Hb as (st & f & Hst & Hw & Hf & ->). rewrite map_size_insert_Some by (by eexists). split; [done|].
  pose proof (map_count_insert (λ x : PeerId * DisjointPeerState, response x.2 ≠ ResponseWaiting)
    (cdp_contacted_peers self) p f) as Hc.
  rewrite Hst in Hc. unfold disjoint_answers, count1 in *. simpl in Hc.
  rewrite (decide_True _ _ Hf), decide_False in Hc by naive_solver. lia.
Qed.

Lemma disjoint_next_counts known log self now :
  disjoint_inv sha256 to_bytes known log self →
  ∃ r self', ClosestDisjointPeersIter_next sha256 to_bytes self now = Ret (r, self') ∧
    disjoint_inv sha256 to_bytes known log self' ∧
    size (cdp_contacted_peers self') = size (cdp_contacted_peers self) + asks r ∧
    disjoint_answers (cdp_contacted_peers self') = disjoint_answers (cdp_contacted_peers self).
Proof.
  intros Hinv. unfold ClosestDisjointPeersIter_next.
  destruct (paths_loop_spec _ _ known log (length (cdp_iters self)) now None self Hinv I)
    as (r & self' & Hn & Hinv' & _ & _ & _ & Hc & _).
  exists r, self'. split_and!; [done|done| |].
  - destruct r as [[q|]| |]; simpl; [|rewrite Hc; lia..]. destruct Hc as [Hq [i ->]].
    rewrite map_size_insert_None by done. lia.
  - destruct r as [[q|]| |]; simpl; [|rewrite Hc; lia..]. destruct Hc as [Hq [i ->]].
    pose proof (map_count_insert (λ x : PeerId * DisjointPeerState, response x.2 ≠ ResponseWaiting)
      (cdp_contacted_peers self) q (DisjointPeerState_new i)) as Hm.
    rewrite Hq in Hm. unfold disjoint_answers, count1 in *. simpl in Hm. lia.
Qed.

Lemma disjoint_finish_spec known log self :
  disjoint_inv sha256 to_bytes known log self →
  disjoint_inv sha256 to_bytes known log (ClosestDisjointPeersIter_finish self) ∧
  ClosestDisjointPeersIter_is_finished (ClosestDisjointPeersIter_finish self) = true.
Proof.
  intros Hinv. split.
  - destruct (disjoint_apply_spec _ _ known log DjFinish self Hinv) as (q & l & self' & Ha & Hinv' & _).
    simpl in Ha. simplify_eq. by rewrite app_nil_r in Hinv'.
  - unfold ClosestDisjointPeersIter_is_finished, ClosestDisjointPeersIter_finish. simpl.
    apply forallb_forall. intros it Hin%list_elem_of_In. by apply list_elem_of_fmap in Hin as (it0 & -> & _).
Qed.

#[export] Instance closest_disjoint_iter_spec : @PeersIterSpec PeerId _ closest_disjoint_iter.
Proof.
  refine {| iter_inv := (λ self, ∃ known log, disjoint_inv sha256 to_bytes known log self) : _ → Prop;
            iter_requests := λ self, size (cdp_contacted_peers self);
            iter_answers := λ self, disjoint_answers (cdp_contacted_peers self) |}.
  - intros self _. apply map_count_size.
  - intros self now (known & log & Hinv). simpl.
    destruct (disjoint_next_counts known log self now Hinv) as (r & self' & Hn & Hinv' & Hs & Ha).
    destruct (next_finished_iff _ _ known log self now Hinv) as (r2 & self2 & Hn2 & Hf).
    rewrite Hn in Hn2. simplify_eq. eexists _, _. split_and!; try done; [by eexists _, _|apply Hf..].
  - intros self p cl (known & log & Hinv). apply (disjoint_result_counts known log self p (Some cl) Hinv).
  - intros self p (known & log & Hinv). apply (disjoint_result_counts known log self p None Hinv).
  - intros self (known & log & Hinv). simpl. destruct (disjoint_finish_spec known log self Hinv).
    split_and!; try done. by eexists _, _.
Defined.
End disjoint_instance.

(** ** [QueryPeerIter]: the choice among the iterators *)
Section query.
Context {PeerId : Type} `{Countable PeerId}.
Context (sha256 : list byte → KeyBytes) (to_bytes : PeerId → list byte).

Inductive QueryPeerIter : Type :=
| QClosest (iter : ClosestPeersIter (PeerId := PeerId))
| QClosestDisjoint (iter : ClosestDisjointPeersIter (PeerId := PeerId))
| QFixed (iter : FixedPeersIter (PeerId := PeerId)).

Definition wrap {A B C} (f : B → C) (m : outcome (A * B)) : outcome (A * C) :=
  '(a, b) ← m; Ret (a, f b).

Definition QueryPeerIter_next (it : QueryPeerIter) (now : N) : outcome (PeersIterState PeerId * QueryPeerIter) :=
  match it with
  | QClosest it => wrap QClosest (ClosestPeersIter_next it now)
  | QClosestDisjoint it => wrap QClosestDisjoint (ClosestDisjointPeersIter_next sha256 to_bytes it now)
  | QFixed it => wrap QFixed (Ret (FixedPeersIter_next it))
  end.

Definition QueryPeerIter_on_success (it : QueryPeerIter) (p : PeerId) (new_peers : list PeerId)
  : outcome (bool * QueryPeerIter) :=
  match it with
  | QClosest it => wrap QClosest (ClosestPeersIter_on_success sha256 to_bytes it p new_peers)
  | QClosestDisjoint it =>
      wrap QClosestDisjoint (ClosestDisjointPeersIter_on_success sha256 to_bytes it p new_peers)
  | QFixed it => wrap QFixed (FixedPeersIter_on_success it p)
  end.

Definition QueryPeerIter_on_failure (it : QueryPeerIter) (p : PeerId) : outcome (bool * QueryPeerIter) :=
  match it with
  | QClosest it => wrap QClosest (ClosestPeersIter_on_failure sha256 to_bytes it p)
  | QClosestDisjoint it => wrap QClosestDisjoint (ClosestDisjointPeersIter_on_failure sha256 to_bytes it p)
  | QFixed it => wrap QFixed (FixedPeersIter_on_failure it p)
  end.

Definition QueryPeerIter_is_waiting (it : QueryPeerIter) (p : PeerId) : bool :=
  match it with
  | QClosest it => ClosestPeersIter_is_waiting it p
  | QClosestDisjoint it => ClosestDisjointPeersIter_is_waiting it p
  | QFixed it => FixedPeersIter_is_waiting it p
  end.

Definition QueryPeerIter_finish (it : QueryPeerIter) : QueryPeerIter :=
  match it with
  | QClosest it => QClosest (ClosestPeersIter_finish it)
  | QClosestDisjoint it => QClosestDisjoint (ClosestDisjointPeersIter_finish it)
  | QFixed it => QFixed (FixedPeersIter_finish it)
  end.

Definition QueryPeerIter_is_finished (it : QueryPeerIter) : bool :=
  match it with
  | QClosest it => ClosestPeersIter_is_finished it
  | QClosestDisjoint it => ClosestDisjointPeersIter_is_finished it
  | QFixed it => FixedPeersIter_is_finished it
  end.

#[export] Instance query_peer_iter : PeersIter PeerId QueryPeerIter := {|
  iter_next := QueryPeerIter_next;
  iter_on_success := QueryPeerIter_on_success;
  iter_on_failure := QueryPeerIter_on_failure;
  iter_is_waiting := QueryPeerIter_is_waiting;
  iter_finish := QueryPeerIter_finish;
  iter_is_finished := QueryPeerIter_is_finished
|}.

Definition on_iter {A} (f : ClosestPeersIter (PeerId := PeerId) → A)
    (g : ClosestDisjointPeersIter (PeerId := PeerId) → A)
    (h : FixedPeersIter (PeerId := PeerId) → A) (it : QueryPeerIter) : A :=
  match it with QClosest it => f it | QClosestDisjoint it => g it | QFixed it => h it end.

(** The choice implements the interface because its alternatives do. *)
#[export] Instance query_peer_iter_spec : PeersIterSpec PeerId QueryPeerIter.
Proof.
  pose (C := closest_peers_iter_spec sha256 to_bytes). pose (D := closest_disjoint_iter_spec sha256 to_bytes).
  pose (F := @fixed_peers_iter_spec PeerId _ _).
  refine {| iter_inv := on_iter (@iter_inv _ _ _ C) (@iter_inv _ _ _ D) (@iter_inv _ _ _ F) : _ → Prop;
            iter_requests := on_iter (@iter_requests _ _ _ C) (@iter_requests _ _ _ D) (@iter_requests _ _ _ F);
            iter_answers := on_iter (@iter_answers _ _ _ C) (@iter_answers _ _ _ D) (@iter_answers _ _ _ F) |}.
  - intros [it|it|it]; apply iter_answers_le.
  - intros [it|it|it] now Hinv.
    + destruct (@iter_next_spec _ _ _ C it now Hinv) as (r & it' & Hn & Hrest). exists r, (QClosest it').
      split; [|exact Hrest]. simpl in *. by rewrite Hn.
    + destruct (@iter_next_spec _ _ _ D it now Hinv) as (r & it' & Hn & Hrest). exists r, (QClosestDisjoint it').
      split; [|exact Hrest]. simpl in *. by rewrite Hn.
    + destruct (@iter_next_spec _ _ _ F it now Hinv) as (r & it' & Hn & Hrest). exists r, (QFixed it').
      split; [|exact Hrest]. simpl in *. injection Hn as Hn. by rewrite Hn.
  - intros [it|it|it] p cl Hinv.
    + destruct (@iter_success_spec _ _ _ C it p cl Hinv) as (r & it' & Hn & Hrest). exists r, (QClosest it').
      split; [|exact Hrest]. simpl in *. by rewrite Hn.
    + destruct (@iter_success_spec _ _ _ D it p cl Hinv) as (r & it' & Hn & Hrest). exists r, (QClosestDisjoint it').
      split; [|exact Hrest]. simpl in *. by rewrite Hn.
    + destruct (@iter_success_spec _ _ _ F it p cl Hinv) as (r & it' & Hn & Hrest). exists r, (QFixed it').
      split; [|exact Hrest]. simpl in *. by rewrite Hn.
  - intros [it|it|it] p Hinv.
    + destruct (@iter_failure_spec _ _ _ C it p Hinv) as (r & it' & Hn & Hrest). exists r, (QClosest it').
      split; [|exact Hrest]. simpl in *. by rewrite Hn.
    + destruct (@iter_failure_spec _ _ _ D it p Hinv) as (r & it' & Hn & Hrest). exists r, (QClosestDisjoint it').
      split; [|exact Hrest]. simpl in *. by rewrite Hn.
    + destruct (@iter_failure_spec _ _ _ F it p Hinv) as (r & it' & Hn & Hrest). exists r, (QFixed it').
      split; [|exact Hrest]. simpl in *. by rewrite Hn.
  - intros [it|it|it] Hinv; [apply (@iter_finish_spec _ _ _ C it Hinv)
      |apply (@iter_finish_spec _ _ _ D it Hinv)|apply (@iter_finish_spec _ _ _ F it Hinv)].
Defined.
End query.
