(* ===== verification/KadPool.v ===== *)
(** * The query pool

    The second half of [protocols/kad/src/query.rs]: statistics, queries and
    [QueryPool].  Queries are modelled for any peer iterator with the interface
    of [KadQuery]; the pool instantiates it with [QueryPeerIter]. *)

From stdpp Require Import prelude fin_maps.
From S2P Require Import Prelude KadKey BTreeMap KadBucket KadPeers KadLookup KadFixed KadDisjoint KadQuery.

(** ** [QueryStats] *)

Record QueryStats : Type := mkQueryStats {
  requests : N;
  success : N;
  failure : N;
  start : option N;
  end_ : option N
}.

Definition QueryStats_empty : QueryStats := mkQueryStats 0 0 0 None None.
Definition QueryStats_num_requests (s : QueryStats) : N := requests s.
Definition QueryStats_num_successes (s : QueryStats) : N := success s.
Definition QueryStats_num_failures (s : QueryStats) : N := failure s.
Definition QueryStats_num_pending (s : QueryStats) : outcome N :=
  a ← u32_add (success s) (failure s); u32_sub (requests s) a.

Definition QueryStats_duration (s : QueryStats) (now : N) : option N :=
  match start s with
  | Some st => match end_ s with Some e => Some (e - st)%N | None => Some (now - st)%N end
  | None => None
  end.

(** [max] on [Option<Instant>]: [None] is less than [Some]. *)
Definition option_max (a b : option N) : option N :=
  match a, b with
  | Some x, Some y => Some (x `max` y)%N
  | Some x, None => Some x
  | None, b => b
  end.

Definition QueryStats_merge (s other : QueryStats) : outcome QueryStats :=
  r ← u32_add (requests s) (requests other);
  su ← u32_add (success s) (success other);
  f ← u32_add (failure s) (failure other);
  Ret (mkQueryStats r su f
    (match start s, start other with
     | Some a, Some b => Some (a `min` b)%N
     | Some a, None => Some a
     | None, b => b
     end)
    (option_max (end_ s) (end_ other))).

(** ** Queries *)
Section query.
Context {PeerId IT TInner : Type} `{!PeersIter PeerId IT}.

(** [QueryId] is the [usize] it wraps. *)
Record Query : Type := mkQuery {
  query_id : N;
  query_iter : IT;
  query_stats : QueryStats;
  query_inner : TInner
}.

Definition Query_new (id : N) (peer_iter : IT) (inner : TInner) : Query :=
  mkQuery id peer_iter QueryStats_empty inner.

Definition with_iter (q : Query) (it : IT) (s : QueryStats) : Query :=
  mkQuery (query_id q) it s (query_inner q).

Definition Query_on_failure (q : Query) (peer : PeerId) : outcome Query :=
  '(updated, it) ← iter_on_failure (query_iter q) peer;
  let s := query_stats q in
  f ← (if updated : bool then u32_add (failure s) 1 else Ret (failure s));
  Ret (with_iter q it (mkQueryStats (requests s) (success s) f (start s) (end_ s))).

Definition Query_on_success (q : Query) (peer : PeerId) (new_peers : list PeerId) : outcome Query :=
  '(updated, it) ← iter_on_success (query_iter q) peer new_peers;
  let s := query_stats q in
  su ← (if updated : bool then u32_add (success s) 1 else Ret (success s));
  Ret (with_iter q it (mkQueryStats (requests s) su (failure s) (start s) (end_ s))).

Definition Query_is_waiting (q : Query) (peer : PeerId) : bool := iter_is_waiting (query_iter q) peer.

Definition Query_next (q : Query) (now : N) : outcome (PeersIterState PeerId * Query) :=
  '(state, it) ← iter_next (query_iter q) now;
  let s := query_stats q in
  r ← match state with
      | IterWaiting (Some _) => u32_add (requests s) 1
      | _ => Ret (requests s)
      end;
  Ret (state, with_iter q it (mkQueryStats r (success s) (failure s) (start s) (end_ s))).

Definition Query_finish (q : Query) : Query :=
  with_iter q (iter_finish (query_iter q)) (query_stats q).

Definition Query_is_finished (q : Query) : bool := iter_is_finished (query_iter q).

(** ** Polling a pool of queries *)

(** The queries of a pool in progress: what made [poll] stop. *)
Inductive PollEvent : Type :=
| EvFinished (id : N)
| EvWaiting (id : N) (peer : PeerId)
| EvTimeout (id : N).

Definition set_start (now : N) (q : Query) : Query :=
  let s := query_stats q in
  with_iter q (query_iter q)
    (mkQueryStats (requests s) (success s) (failure s)
       (match start s with Some t => Some t | None => Some now end) (end_ s)).

Definition set_end (now : N) (q : Query) : Query :=
  let s := query_stats q in
  with_iter q (query_iter q) (mkQueryStats (requests s) (success s) (failure s) (start s) (Some now)).

(** The loop of [poll], visiting the queries in the given order. *)
Fixpoint poll_loop (timeout now : N) (order : list N) (queries : gmap N Query)
  : outcome (option PollEvent * gmap N Query) :=
  match order with
  | [] => Ret (None, queries)
  | id :: order =>
      match queries !! id with
      | None => poll_loop timeout now order queries
      | Some q =>
          '(r, q) ← Query_next (set_start now q) now;
          let queries := <[id := q]> queries in
          match r with
          | IterFinished => Ret (Some (EvFinished id), queries)
          | IterWaiting (Some peer) => Ret (Some (EvWaiting id peer), queries)
          | IterWaiting None | IterWaitingAtCapacity =>
              let elapsed := (now - default now (start (query_stats q)))%N in
              if decide (timeout ≤ elapsed)%N then Ret (Some (EvTimeout id), queries)
              else poll_loop timeout now order queries
          end
      end
  end.

(** [QueryPoolState]; the query of [Waiting] stays in the pool. *)
Inductive QueryPoolState : Type :=
| PoolIdle
| PoolWaiting (request : option (Query * PeerId))
| PoolFinished (q : Query)
| PoolTimeout (q : Query).

Definition pool_poll (timeout : N) (order : list N) (now : N) (queries : gmap N Query)
  : outcome (QueryPoolState * gmap N Query) :=
  '(ev, queries) ← poll_loop timeout now order queries;
  match ev with
  | Some (EvWaiting id peer) =>
      q ← expect (queries !! id);
      Ret (PoolWaiting (Some (q, peer)), queries)
  | Some (EvFinished id) =>
      q ← expect (queries !! id);
      Ret (PoolFinished (set_end now q), delete id queries)
  | Some (EvTimeout id) =>
      q ← expect (queries !! id);
      Ret (PoolTimeout (set_end now q), delete id queries)
  | None => if decide (queries = ∅) then Ret (PoolIdle, queries) else Ret (PoolWaiting None, queries)
  end.

(** ** Properties of queries, for any iterator with the interface *)
Context `{!PeersIterSpec PeerId IT}.

(** The counters are those of the iterator. *)
Record query_inv (q : Query) : Prop := {
  qi_iter : iter_inv (query_iter q);
  qi_requests : requests (query_stats q) = N.of_nat (iter_requests (query_iter q));
  qi_answers : (success (query_stats q) + failure (query_stats q))%N =
               N.of_nat (iter_answers (query_iter q))
}.

Lemma query_inv_pending q :
  query_inv q → (success (query_stats q) + failure (query_stats q) ≤ requests (query_stats q))%N.
Proof. intros [Hi Hr Ha]. pose proof (iter_answers_le _ Hi). lia. Qed.

Lemma query_inv_new id it inner :
  iter_inv it → iter_requests it = 0 → query_inv (Query_new id it inner).
Proof. intros Hi Hr. pose proof (iter_answers_le _ Hi). constructor; simpl; [done|lia|lia]. Qed.

Lemma Query_next_spec q now :
  query_inv q → (requests (query_stats q) + 1 < 2 ^ 32)%N →
  ∃ r q', Query_next q now = Ret (r, q') ∧ query_inv q' ∧ query_id q' = query_id q ∧
    start (query_stats q') = start (query_stats q) ∧
    requests (query_stats q') = (requests (query_stats q) + N.of_nat (asks r))%N ∧
    (r = IterFinished → Query_is_finished q' = true) ∧
    (Query_is_finished q = true → r = IterFinished).
Proof.
  intros [Hi Hr Ha] Hlt. unfold Query_next.
  destruct (iter_next_spec (query_iter q) now Hi) as (r & it & -> & Hi' & Hreq & Hans & Hf).
  cbn [mbind outcome_bind].
  assert (∃ n, match r with IterWaiting (Some _) => u32_add (requests (query_stats q)) 1
                          | _ => Ret (requests (query_stats q)) end = Ret n ∧
               n = (requests (query_stats q) + N.of_nat (asks r))%N) as (n & -> & ->).
  { destruct r as [[p|]| |]; simpl; rewrite ?u32_add_lt by lia; eexists; (split; [done|lia]). }
  cbn [mbind outcome_bind]. do 2 eexists. split; [done|]. split_and!; try done; try apply Hf.
  constructor; simpl; [done|lia|lia].
Qed.

Lemma Query_on_success_spec q p cl :
  query_inv q → (requests (query_stats q) < 2 ^ 32)%N →
  ∃ q', Query_on_success q p cl = Ret q' ∧ query_inv q' ∧ query_id q' = query_id q ∧
    requests (query_stats q') = requests (query_stats q).
Proof.
  intros Hinv Hlt. pose proof Hinv as [Hi Hr Ha]. unfold Query_on_success.
  destruct (iter_success_spec (query_iter q) p cl Hi) as (b & it & -> & Hi' & Hreq & Hans).
  pose proof (iter_answers_le _ Hi').
  assert (∃ n, (if b then u32_add (success (query_stats q)) 1 else Ret (success (query_stats q))) = Ret n ∧
               n = (success (query_stats q) + (if b then 1 else 0))%N) as (n & Hn & ->).
  { destruct b; [rewrite u32_add_lt by lia|]; eexists; (split; [done|lia]). }
  cbn [mbind outcome_bind]. rewrite Hn. cbn [mbind outcome_bind]. eexists. split; [done|].
  split_and!; try done. constructor; simpl; [done|lia|destruct b; lia].
Qed.

Lemma Query_on_failure_spec q p :
  query_inv q → (requests (query_stats q) < 2 ^ 32)%N →
  ∃ q', Query_on_failure q p = Ret q' ∧ query_inv q' ∧ query_id q' = query_id q ∧
    requests (query_stats q') = requests (query_stats q).
Proof.
  intros Hinv Hlt. pose proof Hinv as [Hi Hr Ha]. unfold Query_on_failure.
  destruct (iter_failure_spec (query_iter q) p Hi) as (b & it & -> & Hi' & Hreq & Hans).
  pose proof (iter_answers_le _ Hi').
  assert (∃ n, (if b then u32_add (failure (query_stats q)) 1 else Ret (failure (query_stats q))) = Ret n ∧
               n = (failure (query_stats q) + (if b then 1 else 0))%N) as (n & Hn & ->).
  { destruct b; [rewrite u32_add_lt by lia|]; eexists; (split; [done|lia]). }
  cbn [mbind outcome_bind]. rewrite Hn. cbn [mbind outcome_bind]. eexists. split; [done|].
  split_and!; try done. constructor; simpl; [done|lia|destruct b; lia].
Qed.

(** Sequences of operations on a query. *)
Inductive query_op : Type :=
| QNext (now : N)
| QSuccess (peer : PeerId) (new_peers : list PeerId)
| QFailure (peer : PeerId)
| QFinish.

Definition query_apply (op : query_op) (q : Query) : outcome Query :=
  match op with
  | QNext now => '(_, q) ← Query_next q now; Ret q
  | QSuccess p cl => Query_on_success q p cl
  | QFailure p => Query_on_failure q p
  | QFinish => Ret (Query_finish q)
  end.

Fixpoint query_run (ops : list query_op) (q : Query) : outcome Query :=
  match ops with
  | [] => Ret q
  | op :: ops => q ← query_apply op q; query_run ops q
  end.

Lemma query_run_spec ops q :
  query_inv q → (requests (query_stats q) + N.of_nat (length ops) < 2 ^ 32)%N →
  ∃ q', query_run ops q = Ret q' ∧ query_inv q' ∧
    (requests (query_stats q') ≤ requests (query_stats q) + N.of_nat (length ops))%N.
Proof.
  revert q. induction ops as [|op ops IH]; intros q Hinv Hlt; cbn [query_run length] in *.
  { exists q. split_and!; [done..|lia]. }
  assert (∃ q1, query_apply op q = Ret q1 ∧ query_inv q1 ∧
    (requests (query_stats q1) ≤ requests (query_stats q) + 1)%N) as (q1 & -> & Hinv1 & Hle).
  { destruct op as [now|p cl|p|]; simpl.
    - destruct (Query_next_spec q now Hinv) as (r & q1 & -> & Hinv1 & _ & _ & Hr & _); [lia|].
      simpl. exists q1. split_and!; [done..|]. rewrite Hr. destruct r as [[]| |]; simpl; lia.
    - destruct (Query_on_success_spec q p cl Hinv) as (q1 & -> & Hinv1 & _ & Hq1); [lia|].
      exists q1. split_and!; [done..|lia].
    - destruct (Query_on_failure_spec q p Hinv) as (q1 & -> & Hinv1 & _ & Hq1); [lia|].
      exists q1. split_and!; [done..|lia].
    - exists (Query_finish q). split_and!; [done| |simpl; lia]. destruct Hinv as [Hi Hr Ha].
      destruct (iter_finish_spec _ Hi) as (Hi' & _ & Hreq & Hans). constructor; simpl; [done|lia|lia]. }
  cbn [mbind outcome_bind]. destruct (IH q1 Hinv1) as (q' & Hrun & Hinv' & Hle'); [lia|].
  exists q'. split_and!; [done..|lia].
Qed.

(** The statistics of a query are consistent, whichever peer iterator drives
    it: after any sequence of fewer than [2 ^ 32] operations on a new query,
    the counters have not overflowed, [num_pending] does not underflow, and
    requests are successes, failures and pending requests. *)
Theorem Query_stats_consistent (id : N) (it : IT) (inner : TInner) (ops : list query_op) :
  iter_inv it → iter_requests it = 0 → (N.of_nat (length ops) < 2 ^ 32)%N →
  ∃ q pending, query_run ops (Query_new id it inner) = Ret q ∧
    QueryStats_num_pending (query_stats q) = Ret pending ∧
    QueryStats_num_requests (query_stats q) =
      (QueryStats_num_successes (query_stats q) + QueryStats_num_failures (query_stats q) + pending)%N.
Proof.
  intros Hi Hreq Hlt. assert (query_inv (Query_new id it inner)) as Hinv.
  { by apply query_inv_new. }
  destruct (query_run_spec ops _ Hinv) as (q & Hrun & Hinv' & Hle); [simpl; lia|].
  pose proof (query_inv_pending q Hinv') as Hp. simpl in Hle. eexists q, _. split; [done|]. split.
  - unfold QueryStats_num_pending. rewrite u32_add_lt by lia. cbn [mbind outcome_bind]. by apply u32_sub_le.
  - unfold QueryStats_num_requests, QueryStats_num_successes, QueryStats_num_failures. lia.
Qed.

(** ** Properties of polling *)

Definition pool_inv (m : gmap N Query) : Prop :=
  ∀ id q, m !! id = Some q →
    query_id q = id ∧ query_inv q ∧ (requests (query_stats q) + 1 < 2 ^ 32)%N.

(** What [poll] may leave behind: the counters may have reached their bound. *)
Definition pool_after (m : gmap N Query) : Prop :=
  ∀ id q, m !! id = Some q → query_id q = id ∧ query_inv q.

Lemma set_start_inv now q :
  query_inv q → query_inv (set_start now q).
Proof. intros []. by constructor. Qed.

Definition elapsed (now : N) (q : Query) : N := (now - default now (start (query_stats q)))%N.

(** What the loop of [poll] over the queries [order] establishes. *)
Definition poll_post (timeout now : N) (order : list N) (m : gmap N Query)
    (ev : option PollEvent) (m' : gmap N Query) : Prop :=
  pool_after m' ∧ dom m' = dom m ∧ (∀ id, id ∉ order → m' !! id = m !! id) ∧
  match ev with
  | Some (EvFinished id) => ∃ q, m' !! id = Some q ∧ Query_is_finished q = true
  | Some (EvWaiting id p) => ∃ q q', m !! id = Some q ∧ m' !! id = Some q' ∧
      requests (query_stats q') = (requests (query_stats q) + 1)%N
  | Some (EvTimeout id) => ∃ q, m' !! id = Some q ∧ (timeout ≤ elapsed now q)%N
  | None => ∀ id q, id ∈ order → m !! id = Some q → Query_is_finished q = false ∧
      ∃ q', m' !! id = Some q' ∧ (elapsed now q' < timeout)%N
  end.

(** Passing over a query that is neither finished nor timed out. *)
Lemma poll_post_pass timeout now id order m q q1 ev m' :
  id ∉ order → m !! id = Some q → Query_is_finished q = false → (elapsed now q1 < timeout)%N →
  requests (query_stats q1) = requests (query_stats q) →
  poll_post timeout now order (<[id := q1]> m) ev m' → poll_post timeout now (id :: order) m ev m'.
Proof.
  intros Hid Hq Hf Hel Hreq (Hafter & Hdom & Hframe & Hev). split_and!; [done| | |].
  - rewrite Hdom. apply dom_insert_lookup_L. by eexists.
  - intros j Hj. rewrite Hframe by set_solver. apply lookup_insert_ne. set_solver.
  - assert (m' !! id = Some q1) as Hq1 by (rewrite Hframe by done; apply lookup_insert_eq).
    destruct ev as [[j|j p|j]|]; [done| |done|].
    + destruct Hev as (q2 & q3 & Hj & Hj' & Hrq). destruct (decide (j = id)) as [->|Hne].
      * rewrite lookup_insert_eq in Hj. simplify_eq. lia.
      * exists q2, q3. by rewrite lookup_insert_ne in Hj.
    + intros j q' [->|Hj]%elem_of_cons Hjq; [simplify_eq; split; [done|by exists q1]|].
      apply Hev; [done|]. rewrite lookup_insert_ne by set_solver. done.
Qed.

(** Stopping at a query. *)
Lemma poll_post_stop timeout now id order m q q1 ev :
  m !! id = Some q → pool_after (<[id := q1]> m) →
  match ev with
  | EvFinished j => j = id ∧ Query_is_finished q1 = true
  | EvWaiting j p => j = id ∧ requests (query_stats q1) = (requests (query_stats q) + 1)%N
  | EvTimeout j => j = id ∧ (timeout ≤ elapsed now q1)%N
  end → poll_post timeout now (id :: order) m (Some ev) (<[id := q1]> m).
Proof.
  intros Hq Hafter Hev. split_and!; [done| | |].
  - apply dom_insert_lookup_L. by eexists.
  - intros j Hj. apply lookup_insert_ne. set_solver.
  - destruct ev; destruct Hev as [-> Hev].
    + exists q1. by rewrite lookup_insert_eq.
    + exists q, q1. by rewrite lookup_insert_eq.
    + exists q1. by rewrite lookup_insert_eq.
Qed.

Lemma poll_loop_spec timeout now order m :
  NoDup order → pool_inv m →
  ∃ ev m', poll_loop timeout now order m = Ret (ev, m') ∧ poll_post timeout now order m ev m'.
Proof.
  intros Hnd. revert m. induction Hnd as [|id order Hid Hnd IH]; intros m Hinv; cbn [poll_loop].
  { exists None, m. split; [done|]. split_and!; [|done|done|by intros id q ?%elem_of_nil].
    intros id q Hq. destruct (Hinv id q Hq) as (? & ? & _). done. }
  destruct (m !! id) as [q|] eqn:Hq.
  2:{ destruct (IH m Hinv) as (ev & m' & -> & Hafter & Hdom & Hframe & Hev). exists ev, m'.
      split; [done|]. split_and!; [done..|intros j Hj; apply Hframe; set_solver|].
      destruct ev as [[j|j p|j]|]; [done..|]. intros j q' [->|Hj]%elem_of_cons; [congruence|by apply Hev]. }
  destruct (Hinv id q Hq) as (Hidq & Hqi & Hreq).
  destruct (Query_next_spec (set_start now q) now (set_start_inv now q Hqi) Hreq)
    as (r & q1 & -> & Hq1 & Hid1 & Hst1 & Hreq1 & Hfin & Hfin'). cbn [mbind outcome_bind].
  assert (pool_after (<[id := q1]> m)) as Hafter.
  { intros j qj [[-> <-]|[_ Hj]]%lookup_insert_Some; [by rewrite Hid1|]. destruct (Hinv j qj Hj) as (? & ? & _). done. }
  assert (r = IterWaiting None ∨ r = IterWaitingAtCapacity →
    ∃ ev m', (if decide (timeout ≤ now - default now (start (query_stats q1)))%N
              then Ret (Some (EvTimeout id), <[id := q1]> m)
              else poll_loop timeout now order (<[id := q1]> m)) = Ret (ev, m') ∧
      poll_post timeout now (id :: order) m ev m') as Hpass.
  { intros Hr. assert (asks r = 0) as Hr0 by (by destruct Hr as [-> | ->]). rewrite Hr0, N.add_0_r in Hreq1.
    destruct (decide _) as [Hto|Hto]; [do 2 eexists; split; [done|]; by eapply poll_post_stop|].
    destruct (IH (<[id := q1]> m)) as (ev & m' & -> & Hpost).
    { intros j qj [[-> <-]|[_ Hj]]%lookup_insert_Some; [by rewrite Hid1, Hreq1|by apply Hinv]. }
    exists ev, m'. split; [done|]. eapply poll_post_pass; try done; [|unfold elapsed; lia].
    destruct (Query_is_finished q) eqn:Hf; [|done]. rewrite (Hfin' Hf) in Hr. naive_solver. }
  destruct r as [[p|]| |]; [|by apply Hpass; left|by apply Hpass; right|]; do 2 eexists; (split; [done|]).
  - eapply poll_post_stop; [done|done|]. split; [done|]. by rewrite Hreq1.
  - eapply poll_post_stop; [done|done|]. split; [done|]. by apply Hfin.
Qed.

(** [poll] advances the queries without panicking and reports what it found.
    A query is reported finished, and removed, only if its iterator is
    finished; it is reported as timed out, and removed, only if the timeout
    has elapsed since its start; a query reported with a peer stays and has
    counted one more request.  The pool is idle only if it is empty, and if
    [poll] reports nothing, then no query was finished and none has timed
    out.  The order in which the hash map is visited does not matter. *)
Theorem pool_poll_spec (timeout now : N) (order : list N) (m : gmap N Query) :
  order ≡ₚ (map_to_list m).*1 → pool_inv m →
  ∃ st m', pool_poll timeout order now m = Ret (st, m') ∧ pool_after m' ∧
  match st with
  | PoolIdle => m = ∅ ∧ m' = ∅
  | PoolWaiting (Some (q', p)) => dom m' = dom m ∧
      ∃ q, m !! query_id q' = Some q ∧ m' !! query_id q' = Some q' ∧
        requests (query_stats q') = (requests (query_stats q) + 1)%N
  | PoolWaiting None => m ≠ ∅ ∧ dom m' = dom m ∧
      ∀ id q, m !! id = Some q → Query_is_finished q = false ∧
        ∃ q', m' !! id = Some q' ∧ (elapsed now q' < timeout)%N
  | PoolFinished q => Query_is_finished q = true ∧ end_ (query_stats q) = Some now ∧
      query_id q ∈ dom m ∧ dom m' = dom m ∖ {[ query_id q ]}
  | PoolTimeout q => (timeout ≤ elapsed now q)%N ∧ end_ (query_stats q) = Some now ∧
      query_id q ∈ dom m ∧ dom m' = dom m ∖ {[ query_id q ]}
  end.
Proof.
  intros Hord Hinv. destruct (poll_loop_spec timeout now order m) as (ev & m' & Hloop & Hafter & Hdom & _ & Hev);
    [rewrite Hord; apply NoDup_fst_map_to_list|done|].
  unfold pool_poll. rewrite Hloop. cbn [mbind outcome_bind].
  assert (∀ id q, m' !! id = Some q → query_id q = id ∧ id ∈ dom m) as Hids.
  { intros id q Hq. split; [by apply Hafter|]. rewrite <-Hdom. by apply elem_of_dom_2 in Hq. }
  assert (∀ id, pool_after (delete id m')) as Hdel.
  { intros id j q [_ Hj]%lookup_delete_Some. by apply Hafter. }
  destruct ev as [[id|id p|id]|].
  - destruct Hev as (q & Hq & Hf). rewrite Hq. simpl. destruct (Hids id q Hq) as [Hid Hin].
    do 2 eexists. split; [done|]. rewrite dom_delete_L, Hdom. split_and!; try done; simpl; by rewrite Hid.
  - destruct Hev as (q & q' & Hq & Hq' & Hr). rewrite Hq'. simpl. destruct (Hids id q' Hq') as [<- Hin].
    do 2 eexists. split; [done|]. split_and!; try done. by exists q.
  - destruct Hev as (q & Hq & Hto). rewrite Hq. simpl. destruct (Hids id q Hq) as [Hid Hin].
    do 2 eexists. split; [done|]. rewrite dom_delete_L, Hdom. split_and!; try done; simpl; by rewrite Hid.
  - assert (∀ id q, m !! id = Some q → id ∈ order) as Hall.
    { intros id q Hq. rewrite Hord. by apply (list_elem_of_fmap_2 fst _ (id, q)), elem_of_map_to_list. }
    case_decide as Hem; do 2 eexists; (split; [done|]); (split; [done|]).
    + subst. split; [|done]. apply dom_empty_inv_L. by rewrite <-Hdom, dom_empty_L.
    + split_and!; [|done|eauto]. intros ->. apply Hem, dom_empty_inv_L. by rewrite Hdom, dom_empty_L.
Qed.
End query.
Arguments Query : clear implicits.
Arguments QueryPoolState : clear implicits.

(** ** [QueryPool] *)
Section query_pool.
Context {PeerId TInner : Type} `{Countable PeerId}.
Context (sha256 : list byte → KeyBytes) (to_bytes : PeerId → list byte).

Abbreviation PoolQuery := (Query (QueryPeerIter (PeerId := PeerId)) TInner).

Record QueryConfig : Type := mkQueryConfig {
  timeout : N;
  replication_factor : positive;
  query_parallelism : positive;
  disjoint_query_paths : bool
}.

(** In milliseconds. *)
Definition QueryConfig_default : QueryConfig :=
  mkQueryConfig 60000 (Pos.of_nat K_VALUE) ALPHA_VALUE false.

Record QueryPool : Type := mkQueryPool {
  next_id : N;
  pool_config : QueryConfig;
  queries : gmap N PoolQuery
}.

Definition QueryPool_new (config : QueryConfig) : QueryPool := mkQueryPool 0 config ∅.
Definition QueryPool_size (pool : QueryPool) : nat := size (queries pool).
Definition QueryPool_get (pool : QueryPool) (id : N) : option PoolQuery := queries pool !! id.

Definition set_queries (m : gmap N PoolQuery) (pool : QueryPool) : QueryPool :=
  mkQueryPool (next_id pool) (pool_config pool) m.

Definition QueryPool_next_query_id (pool : QueryPool) : N * QueryPool :=
  (next_id pool, mkQueryPool (usize_wrapping_add (next_id pool) 1) (pool_config pool) (queries pool)).

Definition QueryPool_continue_fixed (pool : QueryPool) (id : N) (peers : list PeerId) (inner : TInner)
  : outcome QueryPool :=
  if decide (is_Some (queries pool !! id)) then Panic
  else
    let parallelism := replication_factor (pool_config pool) in
    let peer_iter := QFixed (FixedPeersIter_new peers parallelism) in
    let query := Query_new id peer_iter inner in
    Ret (set_queries (<[id := query]> (queries pool)) pool).

Definition QueryPool_add_fixed (pool : QueryPool) (peers : list PeerId) (inner : TInner)
  : outcome (N * QueryPool) :=
  let '(id, pool) := QueryPool_next_query_id pool in
  pool ← QueryPool_continue_fixed pool id peers inner;
  Ret (id, pool).

Definition QueryPool_continue_iter_closest (pool : QueryPool) (id : N) (target : KeyBytes)
    (peers : list (Key PeerId)) (inner : TInner) : QueryPool :=
  let cfg := mkClosestPeersIterConfig (query_parallelism (pool_config pool))
               (replication_factor (pool_config pool)) (peer_timeout ClosestPeersIterConfig_default) in
  let peer_iter :=
    if disjoint_query_paths (pool_config pool)
    then QClosestDisjoint (ClosestDisjointPeersIter_with_config cfg target peers)
    else QClosest (ClosestPeersIter_with_config cfg target peers) in
  let query := Query_new id peer_iter inner in
  set_queries (<[id := query]> (queries pool)) pool.

Definition QueryPool_add_iter_closest (pool : QueryPool) (target : KeyBytes)
    (peers : list (Key PeerId)) (inner : TInner) : N * QueryPool :=
  let '(id, pool) := QueryPool_next_query_id pool in
  (id, QueryPool_continue_iter_closest pool id target peers inner).

#[local] Instance pool_iter : PeersIter PeerId (QueryPeerIter (PeerId := PeerId)) :=
  query_peer_iter sha256 to_bytes.

Definition QueryPool_poll (pool : QueryPool) (order : list N) (now : N)
  : outcome (QueryPoolState PeerId (QueryPeerIter (PeerId := PeerId)) TInner * QueryPool) :=
  '(st, m) ← pool_poll (timeout (pool_config pool)) order now (queries pool);
  Ret (st, set_queries m pool).

(** [Query::try_finish]. *)
Definition Query_try_finish (q : PoolQuery) (peers : list PeerId) : outcome (bool * PoolQuery) :=
  match query_iter q with
  | QClosest it => Ret (true, with_iter q (QClosest (ClosestPeersIter_finish it)) (query_stats q))
  | QClosestDisjoint it =>
      '(b, it) ← ClosestDisjointPeersIter_finish_paths it peers;
      Ret (b, with_iter q (QClosestDisjoint it) (query_stats q))
  | QFixed it => Ret (true, with_iter q (QFixed (FixedPeersIter_finish it)) (query_stats q))
  end.

(** [Query::into_result]: the peers and the statistics. *)
Definition Query_into_result (q : PoolQuery) : option (list PeerId) * TInner * QueryStats :=
  let peers := match query_iter q with
               | QClosest it => Some (ClosestPeersIter_into_result it)
               | QClosestDisjoint it => ClosestDisjointPeersIter_into_result sha256 to_bytes it
               | QFixed it => Some (FixedPeersIter_into_result it)
               end in
  (peers, query_inner q, query_stats q).

(** ** Adding queries *)

#[local] Instance pool_iter_spec : PeersIterSpec PeerId (QueryPeerIter (PeerId := PeerId)) :=
  query_peer_iter_spec sha256 to_bytes.

(** Identifiers are handed out in order; every query carries its own. *)
Record pool_wf (pool : QueryPool) : Prop := {
  pw_next : (next_id pool < 2 ^ 64)%N;
  pw_ids id q : queries pool !! id = Some q → (id < next_id pool)%N ∧ query_id q = id ∧ query_inv q
}.

Lemma pool_wf_insert pool (it : QueryPeerIter (PeerId := PeerId)) inner :
  pool_wf pool → (next_id pool + 1 < 2 ^ 64)%N → iter_inv it → iter_requests it = 0 →
  pool_wf (set_queries (<[next_id pool := Query_new (next_id pool) it inner]> (queries pool))
             (QueryPool_next_query_id pool).2).
Proof.
  intros [Hn Hids] Hlt Hi Hr. constructor; simpl; unfold usize_wrapping_add; rewrite N.mod_small by lia; [lia|].
  intros id q [[<- <-]|[Hne Hq]]%lookup_insert_Some.
  - split_and!; [lia|done|]. by apply query_inv_new.
  - destruct (Hids id q Hq) as (? & ? & ?). split_and!; [lia|done|done].
Qed.

Lemma fixed_iter_new (peers : list PeerId) (par : positive) :
  iter_inv (QFixed (FixedPeersIter_new peers par)) ∧
  iter_requests (QFixed (FixedPeersIter_new peers par)) = 0.
Proof. split; [exists peers, []; apply fixed_inv_new|]. simpl. apply map_size_empty. Qed.

Lemma closest_iter_new config target (peers : list (Key PeerId)) :
  Forall (key_ok sha256 to_bytes) peers →
  iter_inv (QClosest (ClosestPeersIter_with_config config target peers)) ∧
  iter_requests (QClosest (ClosestPeersIter_with_config config target peers)) = 0.
Proof.
  intros Hok. split; [by apply with_config_inv|]. simpl. unfold pcount.
  rewrite filter_none; [done|]. intros [d e] Hin.
  apply bt_from_iter_elem, elem_of_take in Hin as (i & Hi%list_elem_of_lookup_2 & _).
  by apply list_elem_of_fmap in Hi as (k & [= -> ->] & _).
Qed.

Lemma disjoint_iter_new config target (peers : list (Key PeerId)) :
  Forall (key_ok sha256 to_bytes) peers →
  iter_inv (QClosestDisjoint (ClosestDisjointPeersIter_with_config config target peers)) ∧
  iter_requests (QClosestDisjoint (ClosestDisjointPeersIter_with_config config target peers)) = 0.
Proof.
  intros Hok. split; [by eexists _, _; apply disjoint_inv_new|]. simpl. apply map_size_empty.
Qed.

(** Adding a query never hits the assertion against reusing an identifier: as
    long as the identifiers do not wrap around, the new query gets a fresh
    one, can be looked up under it in its initial state, and all other queries
    are untouched. *)
Theorem QueryPool_add_fresh (pool : QueryPool) (peers : list PeerId) (target : KeyBytes)
    (keys : list (Key PeerId)) (inner : TInner) :
  pool_wf pool → (next_id pool + 1 < 2 ^ 64)%N → Forall (key_ok sha256 to_bytes) keys →
  (∃ id pool', QueryPool_add_fixed pool peers inner = Ret (id, pool') ∧ pool_wf pool' ∧
     QueryPool_get pool id = None ∧
     QueryPool_get pool' id =
       Some (Query_new id (QFixed (FixedPeersIter_new peers (replication_factor (pool_config pool)))) inner) ∧
     ∀ id', id' ≠ id → QueryPool_get pool' id' = QueryPool_get pool id') ∧
  (∃ id pool', QueryPool_add_iter_closest pool target keys inner = (id, pool') ∧ pool_wf pool' ∧
     QueryPool_get pool id = None ∧
     (∃ q, QueryPool_get pool' id = Some q ∧ query_id q = id ∧ query_stats q = QueryStats_empty ∧
           query_inner q = inner) ∧
     ∀ id', id' ≠ id → QueryPool_get pool' id' = QueryPool_get pool id').
Proof.
  intros Hwf Hlt Hok. assert (queries pool !! next_id pool = None) as Hfresh.
  { apply eq_None_not_Some. intros [q Hq]. destruct (pw_ids _ Hwf _ _ Hq) as (? & _). lia. }
  split.
  - exists (next_id pool). eexists. split.
    { unfold QueryPool_add_fixed, QueryPool_continue_fixed. simpl. rewrite Hfresh.
      rewrite decide_False by (by intros ?%is_Some_None). done. }
    destruct (fixed_iter_new peers (replication_factor (pool_config pool))) as [Hi Hr].
    split_and!; [by apply pool_wf_insert|done|apply lookup_insert_eq|]. intros id' Hne. by apply lookup_insert_ne.
  - exists (next_id pool). eexists. split; [done|].
    split_and!; [apply (pool_wf_insert pool); try done|done| |].
    1,2: simpl; destruct (disjoint_query_paths _); [by apply disjoint_iter_new|by apply closest_iter_new].
    + eexists. split; [apply lookup_insert_eq|done].
    + intros id' Hne. by apply lookup_insert_ne.
Qed.
End query_pool.

(** ** Concrete pools *)

#[local] Existing Instance fixed_peers_iter.

(** A query for peers 1 and 2, of which the first answers. *)
Lemma Query_stats_consistent_witness :
  ∃ q pending,
    query_run [QNext 0; QNext 0; QSuccess 1%positive []; QNext 1; QFailure 1%positive]
      (Query_new 7 (FixedPeersIter_new [1; 2]%positive 2) tt) = Ret q ∧
    QueryStats_num_pending (query_stats q) = Ret pending ∧
    QueryStats_num_requests (query_stats q) =
      (QueryStats_num_successes (query_stats q) + QueryStats_num_failures (query_stats q) + pending)%N.
Proof.
  apply (Query_stats_consistent (PeerId := positive) (IT := FixedPeersIter) 7
           (FixedPeersIter_new [1; 2]%positive 2) tt).
  - exists [1; 2]%positive, []. apply fixed_inv_new.
  - apply map_size_empty.
  - done.
Defined.

(** A pool with two queries: one has nobody to ask, the other one two peers. *)
Definition sample_pool : gmap N (Query (FixedPeersIter (PeerId := positive)) unit) :=
  <[0%N := Query_new 0 (FixedPeersIter_new [] 2) tt]>
  (<[1%N := Query_new 1 (FixedPeersIter_new [1; 2]%positive 2) tt]> ∅).

Lemma sample_query_inv id (peers : list positive) :
  query_inv (Query_new id (FixedPeersIter_new peers 2) tt).
Proof.
  apply query_inv_new; [exists peers, []; apply fixed_inv_new|apply map_size_empty].
Qed.

Lemma sample_pool_inv : pool_inv sample_pool.
Proof.
  intros id q Hq. unfold sample_pool in Hq. apply lookup_insert_Some in Hq as [[<- <-]|[_ Hq]].
  { split_and!; [done|apply sample_query_inv|done]. }
  apply lookup_insert_Some in Hq as [[<- <-]|[_ Hq]]; [|by rewrite lookup_empty in Hq].
  split_and!; [done|apply sample_query_inv|done].
Qed.

Lemma pool_poll_spec_witness :
  ∃ st m', pool_poll 60 [1; 0]%N 5 sample_pool = Ret (st, m') ∧ pool_after m' ∧
    ∃ q p, st = PoolWaiting (Some (q, p)) ∧ p = 1%positive.
Proof.
  destruct (pool_poll_spec 60 5 [1; 0]%N sample_pool) as (st & m' & Hp & Hafter & _).
  - vm_compute. apply Permutation_refl.
  - apply sample_pool_inv.
  - exists st, m'. split_and!; [exact Hp|exact Hafter|]. vm_compute in Hp. simplify_eq. by do 2 eexists.
Defined.

(** Adding to an empty pool. *)
Lemma QueryPool_add_fresh_witness :
  ∃ id pool', QueryPool_add_fixed (QueryPool_new QueryConfig_default) [Byte.x01] tt = Ret (id, pool') ∧
    pool_wf byte_key byte_bytes pool' ∧
    QueryPool_get (QueryPool_new (PeerId := byte) (TInner := unit) QueryConfig_default) id = None ∧
    QueryPool_get pool' id = Some (Query_new id (QFixed (FixedPeersIter_new [Byte.x01]
      (replication_factor QueryConfig_default))) tt).
Proof.
  destruct (QueryPool_add_fresh byte_key byte_bytes (QueryPool_new QueryConfig_default) [Byte.x01] zero_key
    sample_known tt) as [(id & pool' & H1 & H2 & H3 & H4 & _) _].
  - constructor; [done|]. intros id q Hq. simpl in Hq. by apply lookup_empty_Some in Hq.
  - done.
  - apply sample_known_ok.
  - exists id, pool'. split_and!; [exact H1|exact H2|exact H3|exact H4].
Defined.
