(* ===== verification/KadStore.v ===== *)
(** * Records and the in-memory record store

    [protocols/kad/src/record.rs], [protocols/kad/src/record/store.rs] and
    [protocols/kad/src/record/store/memory.rs].  Record keys are byte strings;
    the hash maps are [gmap]s.  [provided] is a hash set of provider records
    that are equal when key and provider are: a map from key and provider to
    the element the set holds; inserting an element equal to one in the set
    keeps the old one.  Addresses are a parameter. *)

From stdpp Require Import prelude fin_maps.
From S2P Require Import Prelude KadKey KadBucket KadPeers KadLookup.

Section store.
Context {PeerId Multiaddr : Type} `{Countable PeerId}.

(** ** Records *)

(** [record::Key]. *)
Definition RecordKey : Type := list byte.

Record Record_ : Type := mkRecord {
  rec_key : RecordKey;
  rec_value : list byte;
  rec_publisher : option PeerId;
  rec_expires : option N
}.

Definition Record_new (key : RecordKey) (value : list byte) : Record_ := mkRecord key value None None.

Definition Record_is_expired (r : Record_) (now : N) : bool :=
  map_or false (λ t, bool_decide (t ≤ now)%N) (rec_expires r).

Record ProviderRecord : Type := mkProviderRecord {
  prov_key : RecordKey;
  prov_provider : PeerId;
  prov_expires : option N;
  prov_addresses : list Multiaddr
}.

Definition ProviderRecord_new (key : RecordKey) (provider : PeerId) (addresses : list Multiaddr) : ProviderRecord :=
  mkProviderRecord key provider None addresses.

Definition ProviderRecord_is_expired (r : ProviderRecord) (now : N) : bool :=
  map_or false (λ t, bool_decide (t ≤ now)%N) (prov_expires r).

(** [PartialEq for ProviderRecord]. *)
Definition ProviderRecord_eq (a b : ProviderRecord) : bool :=
  bool_decide (prov_key a = prov_key b) && bool_decide (prov_provider a = prov_provider b).

(** [store::Error]. *)
Inductive StoreError : Type :=
| MaxRecords
| MaxProvidedKeys
| ValueTooLarge.

(** [RecordStore]. *)
Class RecordStore (S : Type) := {
  store_get : S → RecordKey → option Record_;
  store_put : S → Record_ → (unit + StoreError) * S;
  store_remove : S → RecordKey → S;
  store_records : S → list Record_;
  store_add_provider : S → ProviderRecord → (unit + StoreError) * S;
  store_providers : S → RecordKey → list ProviderRecord;
  store_provided : S → list ProviderRecord;
  store_remove_provider : S → RecordKey → PeerId → S
}.

(** ** [MemoryStore] *)

Record MemoryStoreConfig : Type := mkMemoryStoreConfig {
  max_records : nat;
  max_value_bytes : nat;
  max_providers_per_key : nat;
  max_provided_keys : nat
}.

Definition MemoryStoreConfig_default : MemoryStoreConfig :=
  mkMemoryStoreConfig 1024 (65 * 1024) K_VALUE 1024.

Context (sha256 : list byte → KeyBytes) (to_bytes : PeerId → list byte).

Record MemoryStore : Type := mkMemoryStore {
  ms_local_key : Key PeerId;
  ms_config : MemoryStoreConfig;
  ms_records : gmap RecordKey Record_;
  ms_providers : gmap RecordKey (list ProviderRecord);
  ms_provided : gmap (RecordKey * PeerId) ProviderRecord
}.

Definition MemoryStore_with_config (local_id : PeerId) (config : MemoryStoreConfig) : MemoryStore :=
  mkMemoryStore (Key_from_PeerId sha256 to_bytes local_id) config ∅ ∅ ∅.

Definition MemoryStore_new (local_id : PeerId) : MemoryStore :=
  MemoryStore_with_config local_id MemoryStoreConfig_default.

Definition set_records (m : gmap RecordKey Record_) (s : MemoryStore) : MemoryStore :=
  mkMemoryStore (ms_local_key s) (ms_config s) m (ms_providers s) (ms_provided s).
Definition set_providers (m : gmap RecordKey (list ProviderRecord))
    (pr : gmap (RecordKey * PeerId) ProviderRecord) (s : MemoryStore) : MemoryStore :=
  mkMemoryStore (ms_local_key s) (ms_config s) (ms_records s) m pr.

(** [HashMap::retain] with a predicate that may change the record. *)
Definition MemoryStore_retain (f : RecordKey → Record_ → bool * Record_) (s : MemoryStore) : MemoryStore :=
  set_records (map_imap (λ k r, let '(b, r) := f k r in if b then Some r else None) (ms_records s)) s.

Definition MemoryStore_get (s : MemoryStore) (k : RecordKey) : option Record_ := ms_records s !! k.

Definition MemoryStore_put (s : MemoryStore) (r : Record_) : (unit + StoreError) * MemoryStore :=
  if decide (max_value_bytes (ms_config s) ≤ length (rec_value r)) then (inr ValueTooLarge, s)
  else
    let num_records := size (ms_records s) in
    match ms_records s !! rec_key r with
    | Some _ => (inl tt, set_records (<[rec_key r := r]> (ms_records s)) s)
    | None =>
        if decide (max_records (ms_config s) ≤ num_records) then (inr MaxRecords, s)
        else (inl tt, set_records (<[rec_key r := r]> (ms_records s)) s)
    end.

Definition MemoryStore_remove (s : MemoryStore) (k : RecordKey) : MemoryStore :=
  set_records (delete k (ms_records s)) s.

(** In an unspecified order. *)
Definition MemoryStore_records (s : MemoryStore) : list Record_ := (map_to_list (ms_records s)).*2.

(** [HashSet::insert] and [HashSet::remove] on [provided]. *)
Definition provided_insert (r : ProviderRecord) (m : gmap (RecordKey * PeerId) ProviderRecord)
  : gmap (RecordKey * PeerId) ProviderRecord :=
  match m !! (prov_key r, prov_provider r) with
  | Some _ => m
  | None => <[(prov_key r, prov_provider r) := r]> m
  end.
Definition provided_remove (r : ProviderRecord) (m : gmap (RecordKey * PeerId) ProviderRecord)
  : gmap (RecordKey * PeerId) ProviderRecord := delete (prov_key r, prov_provider r) m.

(** The distance of a provider to a record key. *)
Definition provider_distance (key : RecordKey) (p : PeerId) : Distance :=
  Key_distance (Key_from_PeerId sha256 to_bytes p) (Key_new sha256 id key).

(** [add_provider] on the provider list of the record's key and on [provided]. *)
Definition add_to_providers (max : nat) (local : PeerId) (record : ProviderRecord)
    (providers : list ProviderRecord) (provided : gmap (RecordKey * PeerId) ProviderRecord)
  : list ProviderRecord * gmap (RecordKey * PeerId) ProviderRecord :=
  match position (λ p, bool_decide (prov_provider p = prov_provider record)) providers with
  | Some i => (<[i := record]> providers, provided)
  | None =>
      let key := prov_key record in
      match position (λ p, bool_decide (provider_distance key (prov_provider record) <
                                        provider_distance key (prov_provider p))%N) providers with
      | Some i =>
          let provided := if decide (local = prov_provider record)
                          then provided_insert record provided else provided in
          let providers := take i providers ++ record :: drop i providers in
          if decide (max < length providers) then
            match last providers with
            | Some p => (take (length providers - 1) providers, provided_remove p provided)
            | None => (providers, provided)
            end
          else (providers, provided)
      | None =>
          if decide (length providers < max) then
            (providers ++ [record],
             if decide (local = prov_provider record)
             then provided_insert record provided else provided)
          else (providers, provided)
      end
  end.

Definition MemoryStore_add_provider (s : MemoryStore) (record : ProviderRecord)
  : (unit + StoreError) * MemoryStore :=
  let num_keys := size (ms_providers s) in
  let add providers :=
    let '(providers, provided) :=
      add_to_providers (max_providers_per_key (ms_config s)) (key_preimage (ms_local_key s))
        record providers (ms_provided s) in
    (inl tt, set_providers (<[prov_key record := providers]> (ms_providers s)) provided s) in
  match ms_providers s !! prov_key record with
  | Some providers => add providers
  | None => if decide (max_provided_keys (ms_config s) = num_keys) then (inr MaxProvidedKeys, s)
            else add []
  end.

Definition MemoryStore_providers (s : MemoryStore) (key : RecordKey) : list ProviderRecord :=
  default [] (ms_providers s !! key).

(** In an unspecified order. *)
Definition MemoryStore_provided (s : MemoryStore) : list ProviderRecord := (map_to_list (ms_provided s)).*2.

Definition MemoryStore_remove_provider (s : MemoryStore) (key : RecordKey) (provider : PeerId) : MemoryStore :=
  match ms_providers s !! key with
  | None => s
  | Some providers =>
      let '(providers, provided) :=
        match extract (λ p, bool_decide (prov_provider p = provider)) providers with
        | Some (_, p, providers) => (providers, provided_remove p (ms_provided s))
        | None => (providers, ms_provided s)
        end in
      match providers with
      | [] => set_providers (delete key (ms_providers s)) provided s
      | _ => set_providers (<[key := providers]> (ms_providers s)) provided s
      end
  end.

#[export] Instance MemoryStore_record_store : RecordStore MemoryStore := {|
  store_get := MemoryStore_get;
  store_put := MemoryStore_put;
  store_remove := MemoryStore_remove;
  store_records := MemoryStore_records;
  store_add_provider := MemoryStore_add_provider;
  store_providers := MemoryStore_providers;
  store_provided := MemoryStore_provided;
  store_remove_provider := MemoryStore_remove_provider
|}.

(** ** The provider list of a key: the closest providers *)

Definition closer_than (key : RecordKey) (a b : ProviderRecord) : bool :=
  bool_decide (provider_distance key (prov_provider a) < provider_distance key (prov_provider b))%N.

Definition providers_of (ps : list ProviderRecord) : list PeerId := prov_provider <$> ps.

(** Records of one key, of different providers, closest first. *)
Record providers_ok (key : RecordKey) (ps : list ProviderRecord) : Prop := {
  po_key : Forall (λ p, prov_key p = key) ps;
  po_nodup : NoDup (providers_of ps);
  po_sorted : StronglySorted (λ a b, provider_distance key a ≤ provider_distance key b)%N (providers_of ps)
}.

(** [provided] holds the local node's records of [key], and only those. *)
Definition provided_ok (local : PeerId) (key : RecordKey) (ps : list ProviderRecord)
    (m : gmap (RecordKey * PeerId) ProviderRecord) : Prop :=
  ∀ p, is_Some (m !! (key, p)) ↔ p = local ∧ p ∈ providers_of ps.

Lemma provided_insert_lookup r m x :
  is_Some (provided_insert r m !! x) ↔ is_Some (m !! x) ∨ x = (prov_key r, prov_provider r).
Proof.
  unfold provided_insert. destruct (m !! (prov_key r, prov_provider r)) eqn:E.
  - split; [by left|]. intros [?| ->]; [done|by rewrite E].
  - rewrite lookup_insert_is_Some. destruct (decide ((prov_key r, prov_provider r) = x)); naive_solver.
Qed.

Lemma provided_remove_lookup r m x :
  is_Some (provided_remove r m !! x) ↔ is_Some (m !! x) ∧ x ≠ (prov_key r, prov_provider r).
Proof. unfold provided_remove. rewrite lookup_delete_is_Some. naive_solver. Qed.

Lemma position_sort_insert (f : ProviderRecord → bool) (r : ProviderRecord) le ps :
  (∀ p, le r p = f p) →
  sort_insert le r ps =
    match position f ps with
    | Some i => take i ps ++ r :: drop i ps
    | None => ps ++ [r]
    end.
Proof.
  intros Hle. induction ps as [|p ps IH]; simpl; [done|]. rewrite Hle. destruct (f p); [done|].
  rewrite IH. by destruct (position f ps).
Qed.

Lemma take_all_but_last {A} (l : list A) x : take (length (l ++ [x]) - 1) (l ++ [x]) = l.
Proof. rewrite length_app. simpl. replace (length l + 1 - 1) with (length l) by lia. apply take_app_length. Qed.

(** A new provider takes its place by distance, and the farthest one is dropped. *)
Lemma add_to_providers_list max local r ps m :
  prov_provider r ∉ providers_of ps → length ps ≤ max →
  (add_to_providers max local r ps m).1 = take max (sort_insert (closer_than (prov_key r)) r ps).
Proof.
  intros Hnew Hlen. unfold add_to_providers.
  destruct (position _ ps) as [i|] eqn:Hpos.
  { apply position_Some in Hpos as (p & Hp & Heq%bool_decide_eq_true_1 & _). destruct Hnew.
    rewrite <-Heq. apply list_elem_of_fmap_2. by eapply list_elem_of_lookup_2. }
  clear Hpos. rewrite (position_sort_insert _ r (closer_than (prov_key r)) ps (λ p, eq_refl)).
  set (f := λ p, bool_decide _). change (closer_than (prov_key r) r) with f.
  destruct (position f ps) as [i|] eqn:Hi.
  - apply position_Some in Hi as (p & Hp%lookup_lt_Some & _).
    set (ps' := take i ps ++ r :: drop i ps).
    assert (length ps' = S (length ps)) as Hl.
    { unfold ps'. rewrite length_app, length_take. simpl. rewrite length_drop. lia. }
    case_decide as Hmax; [|simpl; by rewrite take_ge by lia].
    destruct (last ps') as [q|] eqn:Hlast; [|by apply last_None in Hlast; rewrite Hlast in Hl].
    simpl. f_equal. lia.
  - case_decide as Hmax; simpl.
    + rewrite take_ge; [done|]. rewrite length_app. simpl. lia.
    + rewrite take_app_le by lia. by rewrite take_ge by lia.
Qed.

(** Only the records of the local node in the new list stay in [provided]. *)
Lemma add_to_providers_provided max local r ps m :
  prov_provider r ∉ providers_of ps → Forall (λ p, prov_key p = prov_key r) ps → NoDup (providers_of ps) →
  provided_ok local (prov_key r) ps m →
  provided_ok local (prov_key r) (add_to_providers max local r ps m).1 (add_to_providers max local r ps m).2 ∧
  ∀ k p, k ≠ prov_key r → (add_to_providers max local r ps m).2 !! (k, p) = m !! (k, p).
Proof.
  intros Hnew Hkeys Hnd Hok. unfold add_to_providers.
  destruct (position _ ps) as [i|] eqn:Hpos.
  { apply position_Some in Hpos as (p & Hp & Heq%bool_decide_eq_true_1 & _). destruct Hnew.
    rewrite <-Heq. apply list_elem_of_fmap_2. by eapply list_elem_of_lookup_2. }
  clear Hpos. set (f := λ p, bool_decide _).
  set (m1 := if decide (local = prov_provider r) then provided_insert r m else m).
  assert (∀ p, is_Some (m1 !! (prov_key r, p)) ↔ p = local ∧ (p ∈ providers_of ps ∨ p = prov_provider r)) as Hm1.
  { intros p. unfold m1. case_decide as Hl.
    - rewrite provided_insert_lookup, (Hok p). naive_solver.
    - rewrite (Hok p). naive_solver. }
  assert (∀ k p, k ≠ prov_key r → m1 !! (k, p) = m !! (k, p)) as Hframe.
  { intros k p Hk. unfold m1, provided_insert. case_decide; [|done].
    destruct (m !! (prov_key r, prov_provider r)); [done|]. apply lookup_insert_ne. naive_solver. }
  assert (∀ i, providers_of (take i ps ++ r :: drop i ps) ≡ₚ prov_provider r :: providers_of ps) as Hperm.
  { intros i. unfold providers_of. rewrite fmap_app, fmap_cons, <-Permutation_middle.
    by rewrite <-fmap_app, take_drop. }
  destruct (position f ps) as [i|] eqn:Hi; [case_decide as Hmax|case_decide as Hmax]; simpl.
  - set (ps' := take i ps ++ r :: drop i ps) in *.
    destruct (last ps') as [q|] eqn:Hlast; simpl.
    2:{ apply last_None in Hlast. unfold ps' in Hlast. by destruct (take i ps). }
    apply last_Some in Hlast as [l Hl]. rewrite Hl, take_all_but_last.
    specialize (Hperm i). fold ps' in Hperm. rewrite Hl in Hperm. unfold providers_of in Hperm.
    rewrite fmap_app in Hperm. change (prov_provider <$> [q]) with [prov_provider q] in Hperm.
    rewrite <-Permutation_cons_append in Hperm.
    assert (prov_key q = prov_key r) as Hqk.
    { assert (Forall (λ p, prov_key p = prov_key r) ps') as Hf.
      { apply Forall_app. split; [by apply Forall_take|]. constructor; [done|by apply Forall_drop]. }
      rewrite Hl, Forall_app, Forall_singleton in Hf. apply Hf. }
    assert (NoDup (prov_provider q :: providers_of l)) as Hndl.
    { unfold providers_of in *. rewrite Hperm. by constructor. }
    apply NoDup_cons in Hndl as [Hql _].
    split.
    + intros p. rewrite provided_remove_lookup, Hm1, Hqk.
      assert (p ∈ prov_provider q :: providers_of l ↔ p ∈ prov_provider r :: providers_of ps) as Hin.
      { unfold providers_of. by rewrite Hperm. }
      rewrite !elem_of_cons in Hin. split.
      * intros [[-> Hp] Hne]. split; [done|]. assert (local = prov_provider q ∨ local ∈ providers_of l)
          as [->|?] by (apply Hin; tauto); done.
      * intros [-> Hp]. split; [split; [done|]; assert (local = prov_provider r ∨ local ∈ providers_of ps)
          by (apply Hin; tauto); tauto|]. intros [= ->]. done.
    + intros k p Hk. unfold provided_remove. rewrite lookup_delete_ne by naive_solver. by apply Hframe.
  - split; [|done]. intros p. rewrite Hm1. rewrite (Hperm i), elem_of_cons. naive_solver.
  - split; [|done]. intros p. rewrite Hm1. unfold providers_of. rewrite fmap_app, elem_of_app.
    cbn [fmap list_fmap]. rewrite list_elem_of_singleton. naive_solver.
  - done.
Qed.

Lemma sort_insert_closer_sorted key r ps :
  StronglySorted (λ a b, provider_distance key a ≤ provider_distance key b)%N (providers_of ps) →
  StronglySorted (λ a b, provider_distance key a ≤ provider_distance key b)%N
    (providers_of (sort_insert (closer_than key) r ps)).
Proof.
  induction ps as [|p ps IH]; [by repeat constructor|]. unfold providers_of. cbn [sort_insert fmap list_fmap].
  intros [Hp Hs]%StronglySorted_cons. unfold closer_than. case_bool_decide as Hlt; cbn [fmap list_fmap].
  - apply StronglySorted_cons. split; [|by apply StronglySorted_cons]. constructor; [lia|].
    eapply Forall_impl; [exact Hp|]. simpl. lia.
  - apply StronglySorted_cons. split; [|by apply IH]. rewrite sort_insert_perm. cbn [fmap list_fmap].
    constructor; [lia|done].
Qed.

Lemma providers_ok_take key n ps : providers_ok key ps → providers_ok key (take n ps).
Proof.
  intros [Hk Hnd Hs]. rewrite <-(take_drop n ps) in Hnd, Hs. unfold providers_of in *. rewrite fmap_app in Hnd, Hs.
  constructor; [by apply Forall_take|by apply NoDup_app in Hnd as [? _]|by apply StronglySorted_app_1_l in Hs].
Qed.

Lemma providers_ok_insert key r ps :
  prov_key r = key → prov_provider r ∉ providers_of ps → providers_ok key ps →
  providers_ok key (sort_insert (closer_than key) r ps).
Proof.
  intros Hr Hnew [Hk Hnd Hs]. constructor.
  - rewrite sort_insert_perm. by constructor.
  - unfold providers_of. rewrite sort_insert_perm. by constructor.
  - by apply sort_insert_closer_sorted.
Qed.

(** Updating the record of a provider in place. *)
Lemma providers_of_update i r p (ps : list ProviderRecord) :
  ps !! i = Some p → prov_provider p = prov_provider r → providers_of (<[i := r]> ps) = providers_of ps.
Proof.
  intros Hi Hp. unfold providers_of. rewrite list_fmap_insert. apply list_insert_id.
  by rewrite list_lookup_fmap, Hi, <-Hp.
Qed.

Lemma add_to_providers_spec max local r ps m :
  providers_ok (prov_key r) ps → length ps ≤ max → provided_ok local (prov_key r) ps m →
  let '(ps', m') := add_to_providers max local r ps m in
  providers_ok (prov_key r) ps' ∧ length ps' ≤ max ∧ provided_ok local (prov_key r) ps' m' ∧
  ∀ k p, k ≠ prov_key r → m' !! (k, p) = m !! (k, p).
Proof.
  intros Hok Hlen Hprov. destruct (decide (prov_provider r ∈ providers_of ps)) as [Hin|Hnew].
  - unfold add_to_providers. destruct (position _ ps) as [i|] eqn:Hpos.
    + apply position_Some in Hpos as (p & Hp & Heq%bool_decide_eq_true_1 & _).
      pose proof (providers_of_update i r p ps Hp Heq) as Hsame. destruct Hok as [Hk Hnd Hs].
      split_and!; [constructor; rewrite ?Hsame; try done|by rewrite length_insert| |done].
      * apply Forall_insert; [done|done].
      * intros q. by rewrite Hsame.
    + apply position_None in Hpos. apply list_elem_of_fmap in Hin as (p & Hpr & Hp).
      rewrite Forall_forall in Hpos. specialize (Hpos p Hp). simpl in Hpos.
      by apply bool_decide_eq_false in Hpos.
  - pose proof (add_to_providers_list max local r ps m Hnew Hlen) as Hl.
    destruct (add_to_providers_provided max local r ps m Hnew (po_key _ _ Hok) (po_nodup _ _ Hok) Hprov) as [Hpr Hf].
    destruct (add_to_providers max local r ps m) as [ps' m']. simpl in *. subst ps'. split_and!; try done.
    + by apply providers_ok_take, providers_ok_insert.
    + rewrite length_take. lia.
Qed.

(** The elements of [provided] are under their own key and provider. *)
Definition entries_ok (m : gmap (RecordKey * PeerId) ProviderRecord) : Prop :=
  ∀ k p r, m !! (k, p) = Some r → prov_key r = k ∧ prov_provider r = p.

Lemma entries_ok_insert r m : entries_ok m → entries_ok (provided_insert r m).
Proof.
  intros Hm k p r'. unfold provided_insert. destruct (m !! (prov_key r, prov_provider r)); [apply Hm|].
  intros [[[= <- <-] <-]|[_ Hr]]%lookup_insert_Some; [done|by apply Hm].
Qed.

Lemma entries_ok_remove r m : entries_ok m → entries_ok (provided_remove r m).
Proof. intros Hm k p r'. unfold provided_remove. intros [_ Hr]%lookup_delete_Some. by apply Hm. Qed.

Lemma entries_ok_add max local r ps m : entries_ok m → entries_ok (add_to_providers max local r ps m).2.
Proof.
  intros Hm. unfold add_to_providers. repeat case_match; simpl; auto using entries_ok_insert, entries_ok_remove.
Qed.

(** ** The invariant of the store *)
Record store_inv (local : PeerId) (s : MemoryStore) : Prop := {
  si_local : key_preimage (ms_local_key s) = local;
  si_max_records : size (ms_records s) ≤ max_records (ms_config s);
  si_max_keys : size (ms_providers s) ≤ max_provided_keys (ms_config s);
  si_providers k ps : ms_providers s !! k = Some ps →
    providers_ok k ps ∧ length ps ≤ max_providers_per_key (ms_config s);
  si_provided k : provided_ok local k (MemoryStore_providers s k) (ms_provided s);
  si_entries : entries_ok (ms_provided s)
}.

(** The records are under their own keys, and their values are not too large. *)
Definition records_ok (s : MemoryStore) : Prop :=
  ∀ k r, ms_records s !! k = Some r → rec_key r = k ∧ length (rec_value r) < max_value_bytes (ms_config s).

Lemma store_inv_new local config :
  store_inv local (MemoryStore_with_config local config).
Proof.
  constructor; simpl; try done; try (rewrite map_size_empty; lia).
  intros k p. unfold MemoryStore_providers. simpl. rewrite !lookup_empty.
  split; [by intros ?%is_Some_None|]. by intros [_ ?%elem_of_nil].
Qed.

Lemma store_inv_put local s r : store_inv local s → store_inv local (MemoryStore_put s r).2.
Proof.
  intros Hinv. unfold MemoryStore_put. case_decide as Hv; [done|].
  assert (∀ n, size (<[rec_key r := r]> (ms_records s)) = n → n ≤ max_records (ms_config s) →
    store_inv local (set_records (<[rec_key r := r]> (ms_records s)) s)) as Hins.
  { intros n Hn Hle. destruct Hinv. constructor; simpl; try done. lia. }
  destruct (ms_records s !! rec_key r) eqn:E; [|case_decide as Hm; [done|]]; simpl.
  - eapply Hins; [done|]. rewrite map_size_insert_Some by (by eexists). apply Hinv.
  - eapply Hins; [done|]. rewrite map_size_insert_None by done. lia.
Qed.

Lemma store_inv_remove local s k : store_inv local s → store_inv local (MemoryStore_remove s k).
Proof.
  intros []. constructor; simpl; try done. etrans; [|done]. apply map_subseteq_size, delete_subseteq.
Qed.

Lemma store_inv_retain local s f : store_inv local s → store_inv local (MemoryStore_retain f s).
Proof.
  intros []. constructor; simpl; try done. etrans; [|done]. rewrite <-!size_dom. apply subseteq_size.
  intros k. rewrite !elem_of_dom, map_lookup_imap. by destruct (ms_records s !! k); [intros _|intros []].
Qed.

Lemma store_inv_add_provider local s r :
  store_inv local s → store_inv local (MemoryStore_add_provider s r).2.
Proof.
  intros Hinv. unfold MemoryStore_add_provider. rewrite (si_local _ _ Hinv).
  assert (∀ ps, MemoryStore_providers s (prov_key r) = ps → providers_ok (prov_key r) ps →
    length ps ≤ max_providers_per_key (ms_config s) →
    size (<[prov_key r := ps]> (ms_providers s)) ≤ max_provided_keys (ms_config s) →
    store_inv local (let '(ps, m) := add_to_providers (max_providers_per_key (ms_config s)) local r ps (ms_provided s) in
      (inl tt : unit + StoreError, set_providers (<[prov_key r := ps]> (ms_providers s)) m s)).2) as Hadd.
  { intros ps Hps Hok Hlen Hsize.
    assert (provided_ok local (prov_key r) ps (ms_provided s)) as Hprov by (rewrite <-Hps; apply Hinv).
    pose proof (add_to_providers_spec _ local r ps (ms_provided s) Hok Hlen Hprov) as Hspec.
    pose proof (entries_ok_add (max_providers_per_key (ms_config s)) local r ps _ (si_entries _ _ Hinv)) as Hent.
    destruct (add_to_providers _ _ _ _ _) as [ps' m']. destruct Hspec as (Hok' & Hlen' & Hprov' & Hframe).
    destruct Hinv. constructor; simpl; try done.
    - rewrite map_size_insert in *. done.
    - intros k ps2 [[<- <-]|[_ Hk]]%lookup_insert_Some; [done|eauto].
    - intros k p. unfold MemoryStore_providers. simpl. destruct (decide (prov_key r = k)) as [<-|Hne].
      + rewrite lookup_insert_eq. apply Hprov'.
      + rewrite lookup_insert_ne, Hframe by done. apply si_provided0. }
  destruct (ms_providers s !! prov_key r) as [ps|] eqn:E; [|case_decide as Hm; [done|]].
  - destruct (si_providers _ _ Hinv _ _ E) as [Hok Hlen]. apply Hadd; try done.
    + unfold MemoryStore_providers. by rewrite E.
    + rewrite map_size_insert_Some by (by eexists). apply Hinv.
  - apply Hadd; [unfold MemoryStore_providers; by rewrite E|by repeat constructor|simpl; lia|].
    rewrite map_size_insert_None by done. pose proof (si_max_keys _ _ Hinv). lia.
Qed.

(** Removing one record from a provider list. *)
Lemma providers_ok_extract key f ps i p ps' :
  providers_ok key ps → extract f ps = Some (i, p, ps') →
  providers_ok key ps' ∧ length ps' ≤ length ps ∧
  (∀ q, q ∈ providers_of ps' ↔ q ∈ providers_of ps ∧ q ≠ prov_provider p) ∧ prov_key p = key.
Proof.
  intros [Hk Hnd Hs] He. pose proof (extract_spec f ps) as H'. rewrite He in H'.
  destruct H' as (_ & _ & _ & l1 & l2 & -> & -> & _). unfold providers_of in *.
  rewrite fmap_app, fmap_cons in Hnd, Hs. rewrite Forall_app, Forall_cons in Hk. destruct Hk as (Hk1 & Hkp & Hk2).
  rewrite <-Permutation_middle, NoDup_cons in Hnd. destruct Hnd as [Hnp Hnd].
  split_and!; [constructor| | |done].
  - by apply Forall_app.
  - unfold providers_of. by rewrite fmap_app.
  - unfold providers_of. rewrite fmap_app. apply StronglySorted_app in Hs as (H1 & H2 & [_ H3]%StronglySorted_cons).
    apply StronglySorted_app_2; [|done|done]. intros x y Hx Hy. apply H1; [done|by right].
  - rewrite !length_app. simpl. lia.
  - intros q. rewrite !fmap_app, fmap_cons, !elem_of_app, elem_of_cons. rewrite elem_of_app in Hnp. naive_solver.
Qed.

Lemma store_inv_remove_provider local s key p :
  store_inv local s → store_inv local (MemoryStore_remove_provider s key p).
Proof.
  intros Hinv. unfold MemoryStore_remove_provider.
  destruct (ms_providers s !! key) as [ps|] eqn:E; [|done].
  destruct (si_providers _ _ Hinv _ _ E) as [Hok Hlen].
  assert (∃ ps' m', (match extract (λ r, bool_decide (prov_provider r = p)) ps with
      | Some (_, r, ps) => (ps, provided_remove r (ms_provided s)) | None => (ps, ms_provided s) end) = (ps', m') ∧
      providers_ok key ps' ∧ length ps' ≤ length ps ∧ provided_ok local key ps' m' ∧
      (∀ k q, k ≠ key → m' !! (k, q) = ms_provided s !! (k, q)) ∧ entries_ok m') as (ps' & m' & -> & Hok' & Hlen' & Hprov & Hframe & Hent).
  { pose proof (si_provided _ _ Hinv key) as Hprov. unfold MemoryStore_providers in Hprov. rewrite E in Hprov.
    destruct (extract _ ps) as [[[i r] ps']|] eqn:Hex; [|by exists ps, (ms_provided s); split_and!; [..|apply Hinv]].
    destruct (providers_ok_extract _ _ _ _ _ _ Hok Hex) as (Hok' & Hl & Hq & Hkey).
    exists ps', (provided_remove r (ms_provided s)). split_and!; try done.
    - intros q. rewrite provided_remove_lookup, (Hprov q), Hq. simpl. rewrite Hkey. naive_solver.
    - intros k q Hk. unfold provided_remove. apply lookup_delete_ne. naive_solver.
    - apply entries_ok_remove, Hinv. }
  assert (∀ pm, (∀ k, k ≠ key → pm !! k = ms_providers s !! k) →
    default [] (pm !! key) = ps' → size pm ≤ size (ms_providers s) →
    store_inv local (set_providers pm m' s)) as Hset.
  { intros pm Hne Hpm Hsize. destruct Hinv. constructor; simpl; try done; [lia| |].
    - intros k ps2 Hk. destruct (decide (k = key)) as [->|Hk']; [|rewrite Hne in Hk by done; eauto].
      rewrite Hk in Hpm. simpl in Hpm. subst. split; [done|lia].
    - intros k q. unfold MemoryStore_providers. simpl. destruct (decide (k = key)) as [->|Hk'].
      + rewrite Hpm. apply Hprov.
      + rewrite Hne, Hframe by done. apply si_provided0. }
  destruct ps' as [|r ps']; apply Hset.
  - intros k Hk. by apply lookup_delete_ne.
  - by rewrite lookup_delete_eq.
  - apply map_subseteq_size, delete_subseteq.
  - intros k Hk. by apply lookup_insert_ne.
  - by rewrite lookup_insert_eq.
  - by rewrite map_size_insert_Some by (by eexists).
Qed.

(** ** Sequences of store operations *)
Inductive store_op : Type :=
| SPut (r : Record_)
| SRemove (k : RecordKey)
| SRetain (f : RecordKey → Record_ → bool * Record_)
| SAddProvider (r : ProviderRecord)
| SRemoveProvider (k : RecordKey) (p : PeerId).

Definition store_apply (s : MemoryStore) (op : store_op) : MemoryStore :=
  match op with
  | SPut r => (MemoryStore_put s r).2
  | SRemove k => MemoryStore_remove s k
  | SRetain f => MemoryStore_retain f s
  | SAddProvider r => (MemoryStore_add_provider s r).2
  | SRemoveProvider k p => MemoryStore_remove_provider s k p
  end.

(** A predicate given to [retain] that changes no key and makes no value longer. *)
Definition retain_keeps (op : store_op) : Prop :=
  match op with
  | SRetain f => ∀ k r, (f k r).1 = true → rec_key (f k r).2 = rec_key r ∧ length (rec_value (f k r).2) ≤ length (rec_value r)
  | _ => True
  end.

Lemma store_apply_config s op : ms_config (store_apply s op) = ms_config s.
Proof.
  destruct op as [r|k|f|r|k p]; simpl; unfold MemoryStore_put, MemoryStore_add_provider, MemoryStore_remove_provider.
  - case_decide; [done|]. destruct (ms_records s !! rec_key r); [done|]. by case_decide.
  - done.
  - done.
  - destruct (ms_providers s !! prov_key r); [|case_decide; [done|]]; by destruct (add_to_providers _ _ _ _ _).
  - destruct (ms_providers s !! k); [|done]. destruct (extract _ _) as [[[? ?] []]|]; [done..|]. by destruct l.
Qed.

Lemma records_ok_apply s op : retain_keeps op → records_ok s → records_ok (store_apply s op).
Proof.
  intros Hop Hs k r. rewrite store_apply_config. destruct op as [r'|k'|f|r'|k' p]; simpl.
  - unfold MemoryStore_put. case_decide as Hv; [apply Hs|].
    destruct (ms_records s !! rec_key r'); [|case_decide; [apply Hs|]]; simpl;
      (intros [[<- <-]|[_ Hr]]%lookup_insert_Some; [split; [done|lia]|by apply Hs]).
  - intros [_ Hr]%lookup_delete_Some. by apply Hs.
  - rewrite map_lookup_imap. destruct (ms_records s !! k) as [r0|] eqn:E; [|done]. cbn. pose proof (Hop k r0) as Hf.
    destruct (f k r0) as [[] r1]; [|done]. intros [= <-]. destruct (Hf eq_refl) as [Hk Hl]. simpl in Hk, Hl. rewrite Hk.
    destruct (Hs k r0 E). split; [done|lia].
  - unfold MemoryStore_add_provider. destruct (ms_providers s !! prov_key r'); [|case_decide; [apply Hs|]];
      destruct (add_to_providers _ _ _ _ _); apply Hs.
  - unfold MemoryStore_remove_provider. destruct (ms_providers s !! k'); [|apply Hs].
    destruct (extract _ _) as [[[? ?] []]|]; [apply Hs..|]. destruct l; apply Hs.
Qed.

Lemma store_run_inv local config ops :
  store_inv local (foldl store_apply (MemoryStore_with_config local config) ops) ∧
  ms_config (foldl store_apply (MemoryStore_with_config local config) ops) = config ∧
  (Forall retain_keeps ops → records_ok (foldl store_apply (MemoryStore_with_config local config) ops)).
Proof.
  induction ops as [|op ops IH] using rev_ind; [split_and!; [apply store_inv_new|done|by intros _ k r]|].
  rewrite foldl_app. simpl. destruct IH as (IH & Hc & Hrec). rewrite store_apply_config. split_and!; [|done|].
  - destruct op; simpl; [by apply store_inv_put|by apply store_inv_remove|by apply store_inv_retain|
      by apply store_inv_add_provider|by apply store_inv_remove_provider].
  - intros [Hops Hop%Forall_inv]%Forall_app. by apply records_ok_apply, Hrec.
Qed.

(** [C15] After any sequence of operations on a new store: it holds at most
    [max_records] records, and it has providers for at most [max_provided_keys]
    keys; the providers of a key number at most [max_providers_per_key], are distinct
    and ordered by their distance to the key; and [provided] has an element for
    exactly the keys that the local node is a stored provider of, a record of that key
    and of the local node, though not always the one that is stored.  Each
    record is under its own key and has a value smaller than [max_value_bytes], unless
    a predicate given to [retain] has changed that. *)
Theorem MemoryStore_run_inv (local : PeerId) (config : MemoryStoreConfig) (ops : list store_op) :
  let s := foldl store_apply (MemoryStore_with_config local config) ops in
  size (ms_records s) ≤ max_records config ∧
  size (ms_providers s) ≤ max_provided_keys config ∧
  (∀ k, length (MemoryStore_providers s k) ≤ max_providers_per_key config ∧
        Forall (λ r, prov_key r = k) (MemoryStore_providers s k) ∧
        NoDup (prov_provider <$> MemoryStore_providers s k) ∧
        StronglySorted (λ a b, provider_distance k a ≤ provider_distance k b)%N
          (prov_provider <$> MemoryStore_providers s k)) ∧
  (∀ k p, is_Some (ms_provided s !! (k, p)) ↔ p = local ∧ p ∈ prov_provider <$> MemoryStore_providers s k) ∧
  (∀ k p r, ms_provided s !! (k, p) = Some r → prov_key r = k ∧ prov_provider r = p) ∧
  (Forall retain_keeps ops →
   ∀ k r, MemoryStore_get s k = Some r → rec_key r = k ∧ length (rec_value r) < max_value_bytes config).
Proof.
  intros s. destruct (store_run_inv local config ops) as (Hinv & Hc & Hrec). fold s in Hinv, Hc, Hrec. rewrite <-Hc.
  split_and!; [apply Hinv|apply Hinv| |apply Hinv|apply Hinv|exact Hrec]. intros k. unfold MemoryStore_providers.
  destruct (ms_providers s !! k) as [ps|] eqn:E; simpl; [|split_and!; [lia|constructor|constructor|constructor]].
  by destruct (si_providers _ _ Hinv k ps E) as [[Hk Hnd Hs] Hl].
Qed.

(** [C17] [put] stores the record so that [get] returns it, leaves every other
    record in place, and fails only for a value that reaches
    [max_value_bytes] or for a new key when the store is full; then it changes
    nothing. *)
Theorem MemoryStore_put_spec (s : MemoryStore) (r : Record_) :
  match MemoryStore_put s r with
  | (inl _, s') => length (rec_value r) < max_value_bytes (ms_config s) ∧
      (is_Some (MemoryStore_get s (rec_key r)) ∨ size (ms_records s) < max_records (ms_config s)) ∧
      MemoryStore_get s' (rec_key r) = Some r ∧
      (∀ k, k ≠ rec_key r → MemoryStore_get s' k = MemoryStore_get s k) ∧
      ms_providers s' = ms_providers s
  | (inr ValueTooLarge, s') => s' = s ∧ max_value_bytes (ms_config s) ≤ length (rec_value r)
  | (inr MaxRecords, s') => s' = s ∧ MemoryStore_get s (rec_key r) = None ∧
      max_records (ms_config s) ≤ size (ms_records s)
  | (inr MaxProvidedKeys, _) => False
  end.
Proof.
  unfold MemoryStore_put, MemoryStore_get. case_decide as Hv; [done|].
  destruct (ms_records s !! rec_key r) eqn:E; [|case_decide as Hm; [done|]]; simpl.
  - split_and!; [lia|left; by eexists|apply lookup_insert_eq| |done]. intros k Hk. by apply lookup_insert_ne.
  - split_and!; [lia|right; lia|apply lookup_insert_eq| |done]. intros k Hk. by apply lookup_insert_ne.
Qed.

(** ** The closest providers survive *)

Lemma take_sort_insert le (x : ProviderRecord) n l :
  take n (sort_insert le x (take n l)) = take n (sort_insert le x l).
Proof.
  revert n. induction l as [|y l IH]; intros n; [by rewrite take_nil|].
  destruct n as [|n]; [done|]. cbn [take sort_insert]. destruct (le x y); cbn [take].
  - f_equal. destruct n; [done|]. cbn [take]. f_equal. by rewrite take_take, Nat.min_l by lia.
  - f_equal. apply IH.
Qed.

(** Adding the records one after the other to an empty list. *)
Definition add_all (max : nat) (local : PeerId) (rs : list ProviderRecord) : list ProviderRecord :=
  (foldl (λ '(ps, m) r, add_to_providers max local r ps m) ([], ∅) rs).1.

(** [C16] The store keeps the providers closest to the key: adding records of
    different providers for one key leaves the [max_providers_per_key] closest
    of all of them, in order of distance, whatever order they arrived in. *)
Theorem add_providers_closest (max : nat) (local : PeerId) (key : RecordKey) (rs : list ProviderRecord) :
  Forall (λ r, prov_key r = key) rs → NoDup (prov_provider <$> rs) →
  add_all max local rs = take max (foldl (λ l r, sort_insert (closer_than key) r l) [] rs) ∧
  foldl (λ l r, sort_insert (closer_than key) r l) [] rs ≡ₚ rs ∧
  StronglySorted (λ a b, provider_distance key a ≤ provider_distance key b)%N
    (prov_provider <$> foldl (λ l r, sort_insert (closer_than key) r l) [] rs).
Proof.
  intros Hk Hnd. unfold add_all. induction rs as [|r rs IH] using rev_ind.
  { simpl. rewrite take_nil. split_and!; [done|done|constructor]. }
  rewrite Forall_app, Forall_singleton in Hk. destruct Hk as [Hk Hr].
  rewrite fmap_app in Hnd. apply NoDup_app in Hnd as (Hnd & Hdis & _).
  destruct (IH Hk Hnd) as (IHl & IHp & IHs). rewrite !foldl_app. cbn [foldl].
  destruct (foldl (λ '(ps, m) r, add_to_providers max local r ps m) _ rs) as [ps m]. simpl in IHl. subst ps.
  set (l := foldl (λ l r, sort_insert (closer_than key) r l) [] rs) in *. split_and!.
  - rewrite add_to_providers_list, Hr, take_sort_insert; [done| |rewrite length_take; lia].
    intros Hin. unfold providers_of in Hin. rewrite fmap_take in Hin.
    apply elem_of_take in Hin as (j & Hj%list_elem_of_lookup_2 & _). rewrite IHp in Hj.
    apply (Hdis _ Hj). simpl. by left.
  - rewrite sort_insert_perm, IHp. apply Permutation_cons_append.
  - by apply sort_insert_closer_sorted.
Qed.
End store.

(** Three providers of a key for which two are kept; the keys are bytes. *)
Definition sample_provider (p : byte) (expires : option N) : ProviderRecord (PeerId := byte) (Multiaddr := unit) :=
  mkProviderRecord [Byte.x00] p expires [].

Lemma add_providers_closest_witness :
  let rs := [sample_provider Byte.x05 None; sample_provider Byte.x02 None; sample_provider Byte.x03 None] in
  add_all byte_key byte_bytes 2 Byte.x05 rs = [sample_provider Byte.x02 None; sample_provider Byte.x03 None].
Proof.
  intros rs. destruct (add_providers_closest byte_key byte_bytes 2 Byte.x05 [Byte.x00] rs) as (Hadd & _ & _).
  - by repeat constructor.
  - apply (bool_decide_unpack (NoDup (prov_provider <$> rs))). vm_compute. exact I.
  - rewrite Hadd. vm_compute. reflexivity.
Defined.

(** A store for two keys with one provider each, at its limits. *)
Lemma MemoryStore_run_inv_witness :
  let ops := [SPut (mkRecord [Byte.x01] [] None None); SRetain (λ _ r, (bool_decide (rec_expires r = None), r));
    SAddProvider (sample_provider Byte.x05 None); SAddProvider (sample_provider Byte.x02 None)] in
  let s := foldl (store_apply byte_key byte_bytes) (MemoryStore_with_config byte_key byte_bytes Byte.x05 (mkMemoryStoreConfig 1 8 1 2)) ops in
  size (ms_records s) = 1 ∧ size (ms_providers s) ≤ 2 ∧
  ∀ k r, MemoryStore_get s k = Some r → rec_key r = k ∧ length (rec_value r) < 8.
Proof.
  intros ops s. split; [vm_compute; reflexivity|].
  destruct (MemoryStore_run_inv byte_key byte_bytes Byte.x05 (mkMemoryStoreConfig 1 8 1 2) ops) as (_ & Hk & _ & _ & _ & Hr).
  split; [exact Hk|]. apply Hr. constructor; [done|]. constructor; [|by repeat constructor]. intros k r _. split; [done|apply Nat.le_refl].
Defined.
