(* ===== verification/KadJobs.v ===== *)
(** * Periodic replication and publication of records

    [protocols/kad/src/jobs.rs].  The jobs run over any record store with the
    interface of [KadStore].  The timer of the [futures-timer] crate is a
    parameter: a type of delays, the creation of a delay for a duration, its
    reset, and whether polling it finds it elapsed.  Instants and durations are in
    nanoseconds, with the panics of their arithmetic. *)

From stdpp Require Import prelude fin_maps.
From S2P Require Import Prelude KadKey KadBucket KadPeers KadLookup KadStore.

Section jobs.
Context {PeerId Multiaddr : Type} `{Countable PeerId}.
Context {S : Type} `{!RecordStore (PeerId := PeerId) (Multiaddr := Multiaddr) S}.
Context {Delay : Type} (Delay_new : N → Delay) (Delay_reset : Delay → N → Delay)
        (Delay_elapsed : Delay → bool).

Abbreviation StoreRecord := (Record_ (PeerId := PeerId)).
Abbreviation StoreProvider := (ProviderRecord (PeerId := PeerId) (Multiaddr := Multiaddr)).

Definition JOBS_MAX_QUERIES : nat := 100.
Definition JOBS_MAX_NEW_QUERIES : nat := 10.

(** ** [PeriodicJob] *)

Inductive PeriodicJobState (T : Type) : Type :=
| JobRunning (records : list T)
| JobWaiting (delay : Delay) (deadline : N).

Record PeriodicJob (T : Type) : Type := mkPeriodicJob {
  job_interval : N;
  job_state : PeriodicJobState T
}.
#[global] Arguments JobRunning {T} _.
#[global] Arguments JobWaiting {T} _ _.
#[global] Arguments mkPeriodicJob {T} _ _.
#[global] Arguments job_interval {T} _.
#[global] Arguments job_state {T} _.

Definition PeriodicJob_is_running {T} (job : PeriodicJob T) : bool :=
  match job_state job with JobRunning _ => true | JobWaiting _ _ => false end.

(** [Duration::from_secs(1)] *)
Definition one_second : N := 10 ^ 9.

Definition PeriodicJob_asap {T} (job : PeriodicJob T) (now : N) : outcome (PeriodicJob T) :=
  match job_state job with
  | JobWaiting delay _ =>
      new_deadline ← instant_sub now one_second;
      Ret (mkPeriodicJob (job_interval job) (JobWaiting (Delay_reset delay one_second) new_deadline))
  | JobRunning _ => Ret job
  end.

Definition PeriodicJob_is_ready {T} (job : PeriodicJob T) (now : N) : bool :=
  match job_state job with
  | JobWaiting delay deadline => bool_decide (deadline ≤ now)%N || Delay_elapsed delay
  | JobRunning _ => false
  end.

(** The end of both [poll]s: wait for the next run. *)
Definition wait_for_next {T} (job : PeriodicJob T) (now : N) : outcome (PeriodicJob T) :=
  deadline ← instant_add now (job_interval job);
  let delay := Delay_new (job_interval job) in
  let job := mkPeriodicJob (job_interval job) (JobWaiting delay deadline) in
  if PeriodicJob_is_ready job now then Panic else Ret job.

(** ** [PutRecordJob] *)

Record PutRecordJob : Type := mkPutRecordJob {
  pj_local_id : PeerId;
  pj_next_publish : option N;
  pj_publish_interval : option N;
  pj_record_ttl : option N;
  pj_skipped : gset RecordKey;
  pj_inner : PeriodicJob StoreRecord
}.

Definition PutRecordJob_new (now : N) (local_id : PeerId) (replicate_interval : N)
    (publish_interval record_ttl : option N) : outcome PutRecordJob :=
  deadline ← instant_add now replicate_interval;
  let delay := Delay_new replicate_interval in
  next_publish ← try_map (instant_add now) publish_interval;
  Ret (mkPutRecordJob local_id next_publish publish_interval record_ttl ∅
    (mkPeriodicJob replicate_interval (JobWaiting delay deadline))).

Definition set_inner (inner : PeriodicJob StoreRecord) (job : PutRecordJob) : PutRecordJob :=
  mkPutRecordJob (pj_local_id job) (pj_next_publish job) (pj_publish_interval job)
    (pj_record_ttl job) (pj_skipped job) inner.

Definition PutRecordJob_skip (job : PutRecordJob) (key : RecordKey) : PutRecordJob :=
  mkPutRecordJob (pj_local_id job) (pj_next_publish job) (pj_publish_interval job)
    (pj_record_ttl job) ({[ key ]} ∪ pj_skipped job) (pj_inner job).

Definition PutRecordJob_is_running (job : PutRecordJob) : bool := PeriodicJob_is_running (pj_inner job).

Definition PutRecordJob_asap (job : PutRecordJob) (now : N) (publish : bool) : outcome PutRecordJob :=
  next_publish ← (if publish then Some <$> instant_sub now one_second else Ret (pj_next_publish job));
  inner ← PeriodicJob_asap (pj_inner job) now;
  Ret (mkPutRecordJob (pj_local_id job) next_publish (pj_publish_interval job) (pj_record_ttl job) (pj_skipped job) inner).

(** The closure of the [filter_map] over the records of the store. *)
Definition select_record (job : PutRecordJob) (now : N) (publish : bool) (r : StoreRecord) : outcome (option StoreRecord) :=
  let is_publisher := bool_decide (rec_publisher r = Some (pj_local_id job)) in
  if bool_decide (rec_key r ∈ pj_skipped job) || (negb publish && is_publisher) then Ret None
  else if publish && is_publisher then
    expires ← match rec_expires r with Some t => Ret (Some t) | None => try_map (instant_add now) (pj_record_ttl job) end;
    Ret (Some (mkRecord (rec_key r) (rec_value r) (rec_publisher r) expires))
  else Ret (Some r).

(** The loop over the records of a running job: expired ones are removed from
    the store, the first other one is returned with the records left. *)
Fixpoint put_loop (now : N) (records : list StoreRecord) (store : S) : option (StoreRecord * list StoreRecord) * S :=
  match records with
  | [] => (None, store)
  | r :: records =>
      if Record_is_expired r now then put_loop now records (store_remove store (rec_key r))
      else (Some (r, records), store)
  end.

(** The start of a run in [poll]. *)
Definition start_run (job : PutRecordJob) (store : S) (now : N) : outcome PutRecordJob :=
  let publish := map_or false (λ t_pub, bool_decide (t_pub ≤ now)%N) (pj_next_publish job) in
  records ← try_filter_map (select_record job now publish) (store_records store);
  next_publish ← (if publish then try_map (instant_add now) (pj_publish_interval job) else Ret (pj_next_publish job));
  Ret (mkPutRecordJob (pj_local_id job) next_publish (pj_publish_interval job) (pj_record_ttl job) ∅
    (mkPeriodicJob (job_interval (pj_inner job)) (JobRunning records))).

(** [None] is [Poll::Pending]. *)
Definition PutRecordJob_poll (job : PutRecordJob) (store : S) (now : N)
  : outcome (option StoreRecord * PutRecordJob * S) :=
  job ← (if PeriodicJob_is_ready (pj_inner job) now then start_run job store now else Ret job);
  match job_state (pj_inner job) with
  | JobRunning records =>
      match put_loop now records store with
      | (Some (r, records), store) =>
          Ret (Some r, set_inner (mkPeriodicJob (job_interval (pj_inner job)) (JobRunning records)) job, store)
      | (None, store) =>
          inner ← wait_for_next (pj_inner job) now;
          Ret (None, set_inner inner job, store)
      end
  | JobWaiting _ _ => Ret (None, job, store)
  end.

(** ** [AddProviderJob] *)

Record AddProviderJob : Type := mkAddProviderJob {
  aj_inner : PeriodicJob StoreProvider
}.

Definition AddProviderJob_new (now interval : N) : outcome AddProviderJob :=
  deadline ← instant_add now interval;
  Ret (mkAddProviderJob (mkPeriodicJob interval (JobWaiting (Delay_new interval) deadline))).

Definition AddProviderJob_is_running (job : AddProviderJob) : bool := PeriodicJob_is_running (aj_inner job).

Definition AddProviderJob_asap (job : AddProviderJob) (now : N) : outcome AddProviderJob :=
  mkAddProviderJob <$> PeriodicJob_asap (aj_inner job) now.

Fixpoint provider_loop (now : N) (records : list StoreProvider) (store : S)
  : option (StoreProvider * list StoreProvider) * S :=
  match records with
  | [] => (None, store)
  | r :: records =>
      if ProviderRecord_is_expired r now
      then provider_loop now records (store_remove_provider store (prov_key r) (prov_provider r))
      else (Some (r, records), store)
  end.

Definition AddProviderJob_poll (job : AddProviderJob) (store : S) (now : N)
  : outcome (option StoreProvider * AddProviderJob * S) :=
  let job :=
    if PeriodicJob_is_ready (aj_inner job) now then
      mkAddProviderJob (mkPeriodicJob (job_interval (aj_inner job)) (JobRunning (store_provided store)))
    else job in
  match job_state (aj_inner job) with
  | JobRunning records =>
      match provider_loop now records store with
      | (Some (r, records), store) =>
          Ret (Some r, mkAddProviderJob (mkPeriodicJob (job_interval (aj_inner job)) (JobRunning records)), store)
      | (None, store) =>
          inner ← wait_for_next (aj_inner job) now;
          Ret (None, mkAddProviderJob inner, store)
      end
  | JobWaiting _ _ => Ret (None, job, store)
  end.

(** ** A whole run of a job

    Polling at one instant until the job is pending; [fuel] bounds the polls. *)
Fixpoint put_drain (fuel : nat) (job : PutRecordJob) (store : S) (now : N)
  : option (list StoreRecord * PutRecordJob * S) :=
  match fuel with
  | O => None
  | Datatypes.S fuel =>
      match PutRecordJob_poll job store now with
      | Ret (Some r, job, store) =>
          '(rs, job, store) ← put_drain fuel job store now; Some (r :: rs, job, store)
      | Ret (None, job, store) => Some ([], job, store)
      | Panic => None
      end
  end.

(** A run that starts at [now] is a publishing run. *)
Definition publishes (job : PutRecordJob) (now : N) : bool :=
  map_or false (λ t_pub, bool_decide (t_pub ≤ now)%N) (pj_next_publish job).

(** The records that a run is about: those that are not skipped, and in a run that
    does not publish only those of other publishers. *)
Definition in_run (job : PutRecordJob) (now : N) (r : StoreRecord) : bool :=
  bool_decide (rec_key r ∉ pj_skipped job) && (publishes job now || bool_decide (rec_publisher r ≠ Some (pj_local_id job))).

(** The record as it is sent: an own record without an expiration gets one. *)
Definition sent (job : PutRecordJob) (now : N) (r : StoreRecord) : StoreRecord :=
  if decide (rec_publisher r = Some (pj_local_id job) ∧ rec_expires r = None)
  then mkRecord (rec_key r) (rec_value r) (rec_publisher r) (N.add now <$> pj_record_ttl job)
  else r.

(** The sums of the current instant and the durations of the job can be represented. *)
Record times_fit (job : PutRecordJob) (now : N) : Prop := {
  fit_interval : (now + job_interval (pj_inner job) < instant_end)%N;
  fit_publish i : pj_publish_interval job = Some i → (now + i < instant_end)%N;
  fit_ttl i : pj_record_ttl job = Some i → (now + i < instant_end)%N;
}.

(** The store without those of the records that are expired. *)
Definition remove_expired (now : N) (store : S) (rs : list StoreRecord) : S :=
  foldl (λ s r, store_remove s (rec_key r)) store (filter (λ r, Record_is_expired r now = true) rs).

Lemma put_loop_spec now rs store :
  match put_loop now rs store with
  | (Some (r, rest), store') => ∃ skipped, rs = skipped ++ r :: rest ∧ Record_is_expired r now = false ∧
      Forall (λ r, Record_is_expired r now = true) skipped ∧ store' = remove_expired now store skipped
  | (None, store') => Forall (λ r, Record_is_expired r now = true) rs ∧ store' = remove_expired now store rs
  end.
Proof.
  unfold remove_expired. revert store. induction rs as [|r rs IH]; intros store; simpl; [done|].
  destruct (Record_is_expired r now) eqn:E.
  - specialize (IH (store_remove store (rec_key r))). destruct (put_loop now rs _) as [[[r' rest]|] store'].
    + destruct IH as (sk & -> & Hr & Hsk & ->). exists (r :: sk). split_and!; [done|done|by constructor|].
      by rewrite filter_cons_True.
    + destruct IH as [Hf ->]. split; [by constructor|]. by rewrite filter_cons_True.
  - exists []. by split_and!.
Qed.

Definition waiting_again (job : PutRecordJob) (now : N) : PutRecordJob :=
  set_inner (mkPeriodicJob (job_interval (pj_inner job))
    (JobWaiting (Delay_new (job_interval (pj_inner job))) (now + job_interval (pj_inner job))%N)) job.

(** The timer: a new delay for a positive interval is not elapsed. *)
Definition fresh_delay (interval : N) : Prop :=
  (0 < interval)%N ∧ Delay_elapsed (Delay_new interval) = false.

Lemma wait_for_next_fresh {T} (job : PeriodicJob T) now :
  fresh_delay (job_interval job) → (now + job_interval job < instant_end)%N →
  wait_for_next job now = Ret (mkPeriodicJob (job_interval job)
    (JobWaiting (Delay_new (job_interval job)) (now + job_interval job)%N)).
Proof.
  intros [Hpos Hel] Hn. unfold wait_for_next, PeriodicJob_is_ready. rewrite instant_add_lt by done. simpl.
  rewrite Hel, bool_decide_false by lia. done.
Qed.

Lemma try_map_fits now (o : option N) :
  (∀ i, o = Some i → (now + i < instant_end)%N) → try_map (instant_add now) o = Ret (N.add now <$> o).
Proof. intros Ho. destruct o as [i|]; [|done]. cbn. by rewrite instant_add_lt by auto. Qed.

Lemma select_record_spec job now r :
  times_fit job now →
  select_record job now (publishes job now) r = Ret (if in_run job now r then Some (sent job now r) else None).
Proof.
  clear Delay_reset Delay_elapsed Delay_new. intros Ht. unfold select_record, in_run, sent. destruct (decide (rec_key r ∈ pj_skipped job)) as [Hk|Hk].
  { by rewrite (bool_decide_true (_ ∈ _)), (bool_decide_false (_ ∉ _)) by tauto. }
  rewrite (bool_decide_false (_ ∈ _)), (bool_decide_true (_ ∉ _)) by done. cbn [orb andb].
  destruct (decide (rec_publisher r = Some (pj_local_id job))) as [Hp|Hp].
  - rewrite (bool_decide_true (_ = _)), (bool_decide_false (_ ≠ _)) by tauto. destruct (publishes job now); [|done]. cbn [negb andb orb].
    destruct r as [k v pub [t|]]; cbn in *; [by rewrite decide_False by naive_solver|].
    rewrite decide_True by done. rewrite try_map_fits by apply (fit_ttl _ _ Ht). done.
  - rewrite (bool_decide_false (_ = _)), (bool_decide_true (_ ≠ _)) by done. rewrite decide_False by tauto. by destruct (publishes job now).
Qed.

Lemma start_run_spec job store now :
  times_fit job now →
  start_run job store now = Ret (mkPutRecordJob (pj_local_id job)
    (if publishes job now then N.add now <$> pj_publish_interval job else pj_next_publish job) (pj_publish_interval job)
    (pj_record_ttl job) ∅ (mkPeriodicJob (job_interval (pj_inner job))
      (JobRunning (sent job now <$> filter (λ r, in_run job now r) (store_records store))))).
Proof.
  intros Ht. unfold start_run. fold (publishes job now).
  rewrite (try_filter_map_Ret _ _ _ (λ r, select_record_spec job now r Ht)). cbn [mbind outcome_bind].
  replace (omap _ (store_records store)) with (sent job now <$> filter (λ r, in_run job now r) (store_records store)).
  2:{ induction (store_records store) as [|r l IH]; [done|]. cbn [omap list_omap]. rewrite <-IH.
      destruct (in_run job now r) eqn:E; [rewrite filter_cons_True by by rewrite E|rewrite filter_cons_False by (rewrite E; intros [])]; done. }
  destruct (publishes job now); [|done]. by rewrite try_map_fits by apply (fit_publish _ _ Ht).
Qed.

Lemma put_drain_running fuel job store now rs :
  job_state (pj_inner job) = JobRunning rs → fresh_delay (job_interval (pj_inner job)) →
  (now + job_interval (pj_inner job) < instant_end)%N → length rs < fuel →
  put_drain fuel job store now =
    Some (filter (λ r, Record_is_expired r now = false) rs, waiting_again job now, remove_expired now store rs).
Proof.
  revert job store rs. induction fuel as [|fuel IH]; intros job store rs Hrun Hfresh Hend Hlen; [lia|].
  cbn [put_drain]. unfold PutRecordJob_poll, PeriodicJob_is_ready. rewrite Hrun. cbn [mbind outcome_bind]. rewrite Hrun.
  pose proof (put_loop_spec now rs store) as Hl.
  destruct (put_loop now rs store) as [[[r rest]|] store'].
  - destruct Hl as (sk & -> & Hr & Hsk & ->). rewrite length_app in Hlen. simpl in Hlen.
    rewrite (IH (set_inner (mkPeriodicJob (job_interval (pj_inner job)) (JobRunning rest)) job) _ rest)
      by (done || lia). cbn [mbind option_bind]. do 2 f_equal; [f_equal|].
    + rewrite filter_app, (filter_none _ sk), filter_cons_True by
        (done || (intros x Hx; rewrite Forall_forall in Hsk; rewrite (Hsk x Hx); done)). done.
    + unfold remove_expired. rewrite filter_app, (filter_cons_False _ r) by (by rewrite Hr).
      by rewrite foldl_app.
  - destruct Hl as [Hall ->]. rewrite wait_for_next_fresh by done. cbn [mbind outcome_bind].
    rewrite filter_none; [done|]. intros x Hx. rewrite Forall_forall in Hall. by rewrite (Hall x Hx).
Qed.

(** [C18] A run of the replication job.  When the job is due and polled until it
    has nothing left, it hands out those records of the store that are not skipped,
    not expired and, unless the run publishes, not published by the local node, each
    once and in the order of the store; an own record without an expiration is
    given one by the configured lifetime.  Of the records the run is about, the expired
    ones are removed from the store; records that are skipped, and own records in
    a run that does not publish, are left as they are, expired or not.  The
    skipped keys are forgotten, and the job waits for the next interval. *)
Theorem PutRecordJob_run (fuel : nat) (job : PutRecordJob) (store : S) (now : N) :
  PeriodicJob_is_ready (pj_inner job) now = true → fresh_delay (job_interval (pj_inner job)) → times_fit job now →
  length (store_records store) < fuel →
  let rs := sent job now <$> filter (λ r, in_run job now r) (store_records store) in
  ∃ job', put_drain fuel job store now =
      Some (filter (λ r, Record_is_expired r now = false) rs, job', remove_expired now store rs) ∧
    pj_skipped job' = ∅ ∧ PutRecordJob_is_running job' = false ∧
    PeriodicJob_is_ready (pj_inner job') now = false ∧
    pj_next_publish job' =
      (if publishes job now then N.add now <$> pj_publish_interval job else pj_next_publish job).
Proof.
  intros Hready Hfresh Ht Hfuel rs.
  set (job1 := mkPutRecordJob (pj_local_id job)
        (if publishes job now then N.add now <$> pj_publish_interval job else pj_next_publish job)
        (pj_publish_interval job) (pj_record_ttl job) ∅
        (mkPeriodicJob (job_interval (pj_inner job)) (JobRunning rs))).
  exists (waiting_again job1 now). split.
  - rewrite <-(put_drain_running fuel job1 store now rs); [|done|done|apply (fit_interval _ _ Ht)|].
    + destruct fuel as [|fuel]; [lia|]. cbn [put_drain]. unfold PutRecordJob_poll at 1.
      rewrite Hready, start_run_spec by done. done.
    + unfold rs. rewrite length_fmap. eapply Nat.le_lt_trans; [apply length_filter|done].
  - split_and!; try done. unfold PeriodicJob_is_ready. simpl. destruct Hfresh as [Hpos ->].
    rewrite bool_decide_false by lia. done.
Qed.
End jobs.

(** ** Concrete jobs on the in-memory store *)

(** A timer that never elapses by itself. *)
Definition no_delay_new (_ : N) : unit := tt.
Definition no_delay_elapsed (_ : unit) : bool := false.

Abbreviation ByteStore := (MemoryStore (PeerId := byte) (Multiaddr := unit)).

#[local] Instance byte_store : RecordStore ByteStore := MemoryStore_record_store byte_key byte_bytes.

Definition empty_store : ByteStore := 
  MemoryStore_with_config byte_key byte_bytes Byte.x05 (mkMemoryStoreConfig 10 10 3 10).
Definition sample_store : ByteStore :=
  foldl (store_apply byte_key byte_bytes) empty_store
    [SPut (mkRecord [Byte.x01] [Byte.xff] None (Some 10%N)); SPut (mkRecord [Byte.x02] [] None None)].
Definition sample_job (publish_interval ttl : option N) : PutRecordJob (PeerId := byte) (Delay := unit) :=
  mkPutRecordJob Byte.x05 publish_interval publish_interval ttl ∅ (mkPeriodicJob 20 (JobWaiting tt 20)).

(** At instant 30 the record of key 1 is expired. *)
Lemma PutRecordJob_run_witness :
  PutRecordJob_new no_delay_new 0 Byte.x05 20 None None = Ret (sample_job None None) ∧
  ∃ job', put_drain no_delay_new no_delay_elapsed 3 (sample_job None None) sample_store 30 =
    Some ([mkRecord [Byte.x02] [] None None], job', remove_expired 30 sample_store (MemoryStore_records sample_store)).
Proof.
  split; [vm_compute; reflexivity|].
  destruct (PutRecordJob_run (Multiaddr := unit) (S := ByteStore) no_delay_new no_delay_elapsed 3
    (sample_job None None) sample_store 30) as (job' & Hd & _).
  - done.
  - done.
  - split; [vm_compute; reflexivity|done|done].
  - vm_compute. lia.
  - exists job'. rewrite Hd. vm_compute. reflexivity.
Defined.

(** An own record that has expired is neither sent nor removed by a run that does not
    publish, nor is an expired record of another peer whose key is skipped. *)
Definition expired_store : ByteStore :=
  foldl (store_apply byte_key byte_bytes) empty_store
    [SPut (mkRecord [Byte.x01] [] (Some Byte.x05) (Some 10%N)); SPut (mkRecord [Byte.x02] [] None (Some 10%N))].

Example PutRecordJob_keeps_expired :
  Forall (λ r, Record_is_expired r 30 = true) (MemoryStore_records expired_store) ∧
  match put_drain no_delay_new no_delay_elapsed 3 (PutRecordJob_skip (sample_job (Some 50%N) None) [Byte.x02]) expired_store 30 with
  | Some (sent, _, store) => sent = [] ∧ length (MemoryStore_records store) = 2
  | None => False
  end.
Proof. vm_compute. by repeat constructor. Qed.

(** The local node announces itself twice as a provider of a key; the second
    announcement is valid until instant 100. *)
Definition refreshed_store : ByteStore :=
  foldl (store_apply byte_key byte_bytes) empty_store
    [SAddProvider (sample_provider Byte.x05 (Some 10%N)); SAddProvider (sample_provider Byte.x05 (Some 100%N))].

(** Updating a provider record in place leaves the old one in [provided], and
    the announcement job acts on it: a record refreshed before its expiration
    is dropped from the store as expired, and it is not announced again. *)
Theorem AddProviderJob_drops_refreshed :
  MemoryStore_providers refreshed_store [Byte.x00] = [sample_provider Byte.x05 (Some 100%N)] ∧
  MemoryStore_provided refreshed_store = [sample_provider Byte.x05 (Some 10%N)] ∧
  match AddProviderJob_new no_delay_new 0 20 ≫= λ job,
      AddProviderJob_poll (S := ByteStore) no_delay_new no_delay_elapsed job refreshed_store 30 with
  | Ret (r, _, store) => r = None ∧ MemoryStore_providers store [Byte.x00] = []
  | Panic => False
  end.
Proof. vm_compute. by repeat constructor. Qed.
