(* ===== verification/AsyncIo.v ===== *)
(** * Asynchronous I/O and variable-length integers

    The interfaces through which the protocols use code of other crates: the
    traits [AsyncRead] and [AsyncWrite] of an I/O resource, and the codec of
    [unsigned_varint].  Operations are classes that the definitions are
    parametric in; what the protocols rely on is stated as a second class of
    laws.  [Duplex] and [Leb128] are instances that show the laws to be
    satisfiable and let the definitions be evaluated. *)

From S2P Require Import Prelude.

(** ** Errors *)

(** [io::ErrorKind].  Of an [io::Error] only its kind is ever looked at, so an
    error is its kind; kinds that the protocols do not mention are numbered. *)
Inductive ErrorKind : Type :=
| UnexpectedEof
| InvalidData
| WriteZero
| BrokenPipe
| Other
| OtherKind (code : N).

#[export] Instance ErrorKind_eq_dec : EqDecision ErrorKind.
Proof. solve_decision. Defined.

(** ** I/O resources *)

(** [AsyncRead] and [AsyncWrite].  [poll_read r n] reads into a buffer of [n]
    bytes and returns the bytes that it has put there; [poll_read_vectored]
    does so for several buffers of the given lengths. *)
Class AsyncIo (R : Type) : Type := {
  poll_read : R → nat → Poll (Result (list byte) ErrorKind) * R;
  poll_write : R → list byte → Poll (Result nat ErrorKind) * R;
  poll_flush : R → Poll (Result unit ErrorKind) * R;
  poll_close : R → Poll (Result unit ErrorKind) * R;
  poll_read_vectored : R → list nat → Poll (Result (list byte) ErrorKind) * R;
  poll_write_vectored : R → list (list byte) → Poll (Result nat ErrorKind) * R;
}.

(** The contract of the traits: no more bytes are read than fit into the
    buffer, and no more are reported as written than there were. *)
Class AsyncIoContract (R : Type) `{!AsyncIo R} : Prop := {
  poll_read_le (r r' : R) n bs : poll_read r n = (Ready (Ok bs), r') → length bs ≤ n;
  poll_write_le (r r' : R) bs n : poll_write r bs = (Ready (Ok n), r') → n ≤ length bs;
}.

(** A resource without errors, as one end of a connection: [io_in] are the bytes
    that have arrived and have not been read, [io_out] the bytes written so
    far, [io_eof] tells whether the remote has closed its side, and [io_cap] is
    the number of bytes that may be written before writing has to wait. *)
Class ReliableIo (R : Type) `{!AsyncIo R} : Type := {
  io_in : R → list byte;
  io_out : R → list byte;
  io_eof : R → bool;
  io_cap : R → nat;
  poll_read_spec (r : R) n : 0 < n →
    match poll_read r n with
    | (Ready (Ok bs), r') =>
        length bs ≤ n ∧ io_in r = bs ++ io_in r' ∧ io_out r' = io_out r ∧ io_eof r' = io_eof r ∧
        io_cap r' = io_cap r ∧ (bs = [] → io_in r = [] ∧ io_eof r = true)
    | (Ready (Err _), _) => False
    | (Pending, r') => io_in r = [] ∧ io_eof r = false ∧ io_in r' = [] ∧ io_out r' = io_out r ∧
        io_eof r' = false ∧ io_cap r' = io_cap r
    end;
  poll_write_spec (r : R) bs : bs ≠ [] →
    match poll_write r bs with
    | (Ready (Ok n), r') =>
        0 < n ≤ length bs ∧ io_out r' = io_out r ++ take n bs ∧ io_in r' = io_in r ∧ io_eof r' = io_eof r ∧
        io_cap r' = io_cap r
    | (Ready (Err _), _) => False
    | (Pending, r') => io_out r' = io_out r ∧ io_in r' = io_in r ∧ io_eof r' = io_eof r ∧ io_cap r' = io_cap r ∧
        io_cap r ≤ length (io_out r)
    end;
  poll_flush_spec (r : R) :
    match poll_flush r with
    | (Ready (Err _), _) => False
    | (p, r') => io_out r' = io_out r ∧ io_in r' = io_in r ∧ io_eof r' = io_eof r ∧ io_cap r' = io_cap r ∧
        (p = Pending → io_cap r ≤ length (io_out r))
    end;
}.

(** One end of a connection with flow control: writing is accepted as long as
    there is room. *)
Record Duplex : Type := mkDuplex {
  dup_in : list byte;
  dup_eof : bool;
  dup_out : list byte;
  dup_room : nat;
}.

Definition Duplex_read (r : Duplex) (n : nat) : Poll (Result (list byte) ErrorKind) * Duplex :=
  match dup_in r with
  | [] => if dup_eof r then (Ready (Ok []), r) else (Pending, r)
  | bs => (Ready (Ok (take n bs)), mkDuplex (drop n bs) (dup_eof r) (dup_out r) (dup_room r))
  end.

Definition Duplex_write (r : Duplex) (bs : list byte) : Poll (Result nat ErrorKind) * Duplex :=
  match dup_room r with
  | O => (Pending, r)
  | S _ =>
      let n := dup_room r `min` length bs in
      (Ready (Ok n), mkDuplex (dup_in r) (dup_eof r) (dup_out r ++ take n bs) (dup_room r - n))
  end.

#[export] Instance Duplex_io : AsyncIo Duplex := {
  poll_read := Duplex_read;
  poll_write := Duplex_write;
  poll_flush r := (Ready (Ok ()), r);
  poll_close r := (Ready (Ok ()), r);
  poll_read_vectored r ns := Duplex_read r (sum_list ns);
  poll_write_vectored r bss := Duplex_write r (mjoin bss);
}.

#[export] Instance Duplex_contract : AsyncIoContract Duplex.
Proof.
  split; intros r r' x y; cbn; unfold Duplex_read, Duplex_write.
  - destruct (dup_in r); [destruct (dup_eof r)|]; intros H; simplify_eq; simpl; [lia|].
    rewrite length_take. lia.
  - destruct (dup_room r) eqn:E; [done|]. intros H. injection H as <- _. destruct (length x); lia.
Qed.

#[export, refine] Instance Duplex_reliable : ReliableIo Duplex := {
  io_in := dup_in; io_out := dup_out; io_eof := dup_eof; io_cap r := length (dup_out r) + dup_room r;
}.
Proof.
  - intros r n Hn. cbn; unfold Duplex_read. destruct (dup_in r) as [|b bs] eqn:E.
    + destruct (dup_eof r) eqn:Ee; rewrite ?E; split_and!; simpl; first [done|lia].
    + split_and!; [rewrite length_take; lia| |done|done|done|].
      * cbn [dup_in]. by rewrite take_drop.
      * destruct n; [lia|done].
  - intros r bs Hbs. cbn; unfold Duplex_write. destruct (dup_room r) as [|k] eqn:E.
    + split_and!; first [done|lia].
    + rewrite <-E. assert (length bs ≠ 0) by (by destruct bs). cbn [dup_in dup_out dup_eof dup_room].
      split_and!; [lia|lia|done|done|done|]. rewrite length_app, length_take. lia.
  - done.
Defined.

(** ** Variable-length integers *)

(** The codec of [unsigned_varint] for the integers below [bound]. *)
Class Varint (bound : N) : Type := {
  uvi_encode : N → list byte;
  uvi_decode : list byte → option (N * list byte);
}.
Arguments uvi_encode bound {_} n.
Arguments uvi_decode bound {_} l.

(** The most significant bit of a byte. *)
Definition msb (b : byte) : bool := (128 <=? b2N b)%N.

(** Decoding inverts encoding and accepts only minimal encodings; all bytes but
    the last have their most significant bit set; and every byte holds seven
    bits of the number. *)
Class VarintSpec (bound : N) `{!Varint bound} : Prop := {
  uvi_decode_encode n rest : (n < bound)%N → uvi_decode bound (uvi_encode bound n ++ rest) = Some (n, rest);
  uvi_decode_Some l n rest : uvi_decode bound l = Some (n, rest) → (n < bound)%N ∧ l = uvi_encode bound n ++ rest;
  uvi_encode_msb n : (n < bound)%N →
    ∃ init b, uvi_encode bound n = init ++ [b] ∧ Forall (λ c, msb c = true) init ∧ msb b = false;
  uvi_encode_length n k : (n < bound)%N → length (uvi_encode bound n) ≤ S k ↔ (n < 128 ^ N.of_nat (S k))%N;
}.

(** LEB128, seven bits per byte starting with the least significant ones. *)
Section leb128.
Context (bound : N).

Fixpoint leb128_encode (fuel : nat) (n : N) : list byte :=
  if decide (n < 128)%N then [N2b n]
  else match fuel with
       | O => []
       | S fuel => N2b (n mod 128 + 128) :: leb128_encode fuel (n / 128)
       end.

Fixpoint leb128_decode (l : list byte) : option (N * list byte) :=
  match l with
  | [] => None
  | b :: l =>
      if msb b then
        '(n, rest) ← leb128_decode l;
        if decide (n = 0)%N then None else Some (b2N b - 128 + 128 * n, rest)%N
      else Some (b2N b, l)
  end.

#[local] Instance Leb128 : Varint bound := {
  uvi_encode n := leb128_encode (N.size_nat n) n;
  uvi_decode l := '(n, rest) ← leb128_decode l; if decide (n < bound)%N then Some (n, rest) else None;
}.

Lemma msb_small n : (n < 128)%N → b2N (N2b n) = n ∧ msb (N2b n) = false.
Proof.
  intros Hn. unfold msb. rewrite b2N_N2b, N.mod_small by lia. split; [done|]. apply N.leb_gt. lia.
Qed.

Lemma div_mod_128 n : ∃ q r, (n / 128 = q ∧ n mod 128 = r ∧ n = 128 * q + r ∧ r < 128)%N.
Proof.
  exists (n / 128)%N, (n mod 128)%N. split_and!; [done|done| |by apply N.mod_lt].
  by apply N.div_mod.
Qed.

Lemma div128_lt n p : (n < 2 * p → n / 128 < p)%N.
Proof. intros H. apply N.Div0.div_lt_upper_bound. lia. Qed.

Lemma msb_large n : b2N (N2b (n mod 128 + 128)) = (n mod 128 + 128)%N ∧ msb (N2b (n mod 128 + 128)) = true.
Proof.
  pose proof (N.mod_lt n 128 ltac:(lia)). unfold msb.
  rewrite b2N_N2b, (N.mod_small (_ + 128)) by lia. split; [done|]. apply N.leb_le, N.le_add_l.
Qed.

Lemma leb128_decode_encode fuel n rest :
  (n < 2 ^ N.of_nat fuel)%N → leb128_decode (leb128_encode fuel n ++ rest) = Some (n, rest).
Proof.
  revert n. induction fuel as [|fuel IH]; intros n Hn.
  { change (2 ^ N.of_nat 0)%N with 1%N in Hn. assert (n = 0)%N as -> by lia. done. }
  rewrite Nat2N.inj_succ, N.pow_succ_r' in Hn. cbn [leb128_encode]. destruct (decide (n < 128)%N) as [Hs|Hs].
  - simpl. destruct (msb_small n Hs) as [-> ->]. done.
  - cbn [leb128_decode app]. destruct (msb_large n) as [-> ->].
    rewrite IH by (by apply div128_lt). cbn [mbind option_bind].
    destruct (div_mod_128 n) as (q & r & -> & -> & Hdm & Hr).
    rewrite decide_False by lia. do 2 f_equal. lia.
Qed.

Lemma size_nat_bound n : (n < 2 ^ N.of_nat (N.size_nat n))%N.
Proof.
  assert (∀ p, N.of_nat (Pos.size_nat p) = N.pos (Pos.size p)) as Hs.
  { intros p. induction p as [p IH|p IH|]; cbn [Pos.size_nat Pos.size];
      rewrite ?Nat2N.inj_succ, ?IH; done. }
  destruct n as [|p]; [done|]. cbn [N.size_nat]. rewrite Hs. apply (N.size_gt (N.pos p)).
Qed.

Lemma leb128_decode_Some l n rest :
  leb128_decode l = Some (n, rest) → ∀ k, (n < 2 ^ N.of_nat k)%N → l = leb128_encode k n ++ rest.
Proof.
  revert n. induction l as [|b l IH]; intros n; cbn [leb128_decode]; [done|].
  pose proof (b2N_lt b) as Hb. destruct (msb b) eqn:Em; unfold msb in Em.
  - apply N.leb_le in Em. destruct (leb128_decode l) as [[n' rest']|] eqn:E; [|done].
    cbn [mbind option_bind]. destruct (decide (n' = 0)%N); [done|]. intros [= <- <-] k Hk.
    destruct k as [|k]; [change (2 ^ N.of_nat 0)%N with 1%N in Hk; lia|].
    rewrite Nat2N.inj_succ, N.pow_succ_r' in Hk. cbn [leb128_encode]. rewrite decide_False by lia.
    assert ((b2N b - 128 + 128 * n') mod 128 = b2N b - 128)%N as ->.
    { rewrite (N.mul_comm 128), N.Div0.mod_add. apply N.mod_small. lia. }
    assert ((b2N b - 128 + 128 * n') / 128 = n')%N as ->.
    { rewrite (N.mul_comm 128), N.div_add by lia. rewrite N.div_small; lia. }
    replace (b2N b - 128 + 128)%N with (b2N b) by lia. rewrite N2b_b2N. simpl. f_equal.
    apply (IH n'); [done|lia].
  - apply N.leb_gt in Em. intros [= <- <-] k _. destruct k; cbn [leb128_encode];
      rewrite decide_True by lia; by rewrite N2b_b2N.
Qed.

Lemma leb128_encode_msb fuel n :
  (n < 2 ^ N.of_nat fuel)%N →
  ∃ init b, leb128_encode fuel n = init ++ [b] ∧ Forall (λ c, msb c = true) init ∧ msb b = false.
Proof.
  revert n. induction fuel as [|fuel IH]; intros n Hn; cbn [leb128_encode].
  { change (2 ^ N.of_nat 0)%N with 1%N in Hn. rewrite decide_True by lia. exists [], (N2b n).
    split_and!; [done|constructor|by apply msb_small; lia]. }
  rewrite Nat2N.inj_succ, N.pow_succ_r' in Hn. destruct (decide (n < 128)%N) as [Hs|Hs].
  - exists [], (N2b n). split_and!; [done|constructor|by apply msb_small].
  - destruct (IH (n / 128)%N) as (init & b & -> & Hi & Hb); [by apply div128_lt|].
    exists (N2b (n mod 128 + 128) :: init), b. split_and!; [done| |done].
    constructor; [apply msb_large|done].
Qed.

Lemma leb128_encode_length fuel n k :
  (n < 2 ^ N.of_nat fuel)%N → length (leb128_encode fuel n) ≤ S k ↔ (n < 128 ^ N.of_nat (S k))%N.
Proof.
  revert n k. induction fuel as [|fuel IH]; intros n k Hn; cbn [leb128_encode];
    rewrite (Nat2N.inj_succ k), N.pow_succ_r'; pose proof (N.pow_nonzero 128 (N.of_nat k) ltac:(lia)).
  { change (2 ^ N.of_nat 0)%N with 1%N in Hn. rewrite decide_True by lia. simpl. nia. }
  rewrite Nat2N.inj_succ, N.pow_succ_r' in Hn. destruct (decide (n < 128)%N) as [Hs|Hs]; [simpl; nia|].
  cbn [length]. assert (n / 128 < 2 ^ N.of_nat fuel)%N as Hd by (by apply div128_lt).
  destruct k as [|k].
  - change (128 ^ N.of_nat 0)%N with 1%N. split; [|lia]. intros Hl.
    destruct (leb128_encode_msb fuel (n / 128) Hd) as (init & b & E & _). rewrite E, length_app in Hl. simpl in Hl. lia.
  - rewrite <-Nat.succ_le_mono, (IH _ k Hd). destruct (div_mod_128 n) as (q & r & -> & _ & Hdm & Hr). nia.
Qed.

Lemma Leb128_spec : VarintSpec bound.
Proof.
  split.
  - intros n rest Hn. unfold uvi_decode, uvi_encode. simpl.
    rewrite leb128_decode_encode by apply size_nat_bound. simpl. by rewrite decide_True.
  - intros l n rest. unfold uvi_decode, uvi_encode. simpl.
    destruct (leb128_decode l) as [[n' rest']|] eqn:E; [|done]. simpl.
    destruct (decide (n' < bound)%N); [|done]. intros [= <- <-]. split; [done|].
    apply (leb128_decode_Some _ _ _ E), size_nat_bound.
  - intros n _. apply leb128_encode_msb, size_nat_bound.
  - intros n k _. apply leb128_encode_length, size_nat_bound.
Qed.
End leb128.
