(* ===== verification/LengthDelimited.v ===== *)
(** * Length-delimited frames

    [LengthDelimited] of misc/multistream-select/src/length_delimited.rs: frames
    of at most 16 KiB, each prefixed by its length as a variable-length integer
    of one or two bytes, read from and written to an I/O resource that may
    deliver and accept any number of bytes at a time.

    The theorems: for every resource that keeps the contract of the I/O traits
    reading does not panic and holds at most one frame in memory; a frame is
    yielded exactly if its encoding arrived, whatever the portions in which it
    did; the write buffer is bounded; and what one side sends the other side
    receives. *)

From S2P Require Import Prelude AsyncIo.

Definition MAX_LEN_BYTES : N := 2.
Definition MAX_FRAME_SIZE : N := N.shiftl 1 (MAX_LEN_BYTES * 8 - MAX_LEN_BYTES) - 1.

#[global] Arguments MAX_FRAME_SIZE : simpl never.
#[global] Arguments N.to_nat : simpl never.

(** [u16] *)
Abbreviation u16_max := (2 ^ 16)%N.

Inductive ReadState : Type :=
| ReadLength (buf : list byte) (pos : nat)
| ReadData (len : N) (pos : nat).

Definition ReadState_default : ReadState :=
  ReadLength (replicate (N.to_nat MAX_LEN_BYTES) Byte.x00) 0.

Record LengthDelimited (R : Type) : Type := mkLengthDelimited {
  ld_inner : R;
  ld_read_buffer : list byte;
  ld_write_buffer : list byte;
  ld_read_state : ReadState;
}.
Arguments mkLengthDelimited {R} _ _ _ _.
Arguments ld_inner {R} _.
Arguments ld_read_buffer {R} _.
Arguments ld_write_buffer {R} _.
Arguments ld_read_state {R} _.

(** Writing [bs] into a buffer at position [pos]. *)
Definition buf_write (pos : nat) (bs buf : list byte) : list byte :=
  take pos buf ++ bs ++ drop (pos + length bs) buf.

(** The length of the slice [buf[pos..end]]; a panic if it is out of range. *)
Definition slice_len (pos stop len : nat) : outcome nat :=
  if decide (pos ≤ stop ∧ stop ≤ len) then Ret (stop - pos) else Panic.

Section length_delimited.
Context {R : Type} `{!AsyncIo R} `{!Varint u16_max}.
Implicit Types (this : LengthDelimited R) (r : R).

Definition LengthDelimited_new (inner : R) : LengthDelimited R :=
  mkLengthDelimited inner [] [] ReadState_default.

Definition LengthDelimited_into_inner this : outcome R :=
  _ ← assert (bool_decide (ld_read_buffer this = []));
  _ ← assert (bool_decide (ld_write_buffer this = []));
  Ret (ld_inner this).

Definition set_inner r this : LengthDelimited R :=
  mkLengthDelimited r (ld_read_buffer this) (ld_write_buffer this) (ld_read_state this).
Definition set_write_buffer (wb : list byte) this : LengthDelimited R :=
  mkLengthDelimited (ld_inner this) (ld_read_buffer this) wb (ld_read_state this).
Definition set_read_state (st : ReadState) this : LengthDelimited R :=
  mkLengthDelimited (ld_inner this) (ld_read_buffer this) (ld_write_buffer this) st.
Definition set_read_buffer (rb : list byte) this : LengthDelimited R :=
  mkLengthDelimited (ld_inner this) rb (ld_write_buffer this) (ld_read_state this).

(** The body of the loop of [poll_write_buffer]. *)
Definition write_turn this : outcome (Turn (LengthDelimited R) (Poll (Result unit ErrorKind))) :=
  if bool_decide (ld_write_buffer this = []) then Ret (Return (Ready (Ok ())) this)
  else
    let '(p, r) := poll_write (ld_inner this) (ld_write_buffer this) in
    let this := set_inner r this in
    match p with
    | Pending => Ret (Return Pending this)
    | Ready (Ok O) => Ret (Return (Ready (Err WriteZero)) this)
    | Ready (Ok n) =>
        if decide (n ≤ length (ld_write_buffer this))
        then Ret (Continue (set_write_buffer (drop n (ld_write_buffer this)) this))
        else Panic
    | Ready (Err err) => Ret (Return (Ready (Err err)) this)
    end.

Definition LengthDelimited_poll_write_buffer this :
    outcome (Poll (Result unit ErrorKind) * LengthDelimited R) :=
  loop (S (length (ld_write_buffer this))) write_turn this.

(** The end of the length prefix in the loop of [poll_next]. *)
Definition length_turn this (buf : list byte) :
    Turn (LengthDelimited R) (Poll (option (Result (list byte) ErrorKind))) :=
  match uvi_decode u16_max buf with
  | None => Return (Ready (Some (Err InvalidData))) this
  | Some (len, _) =>
      if decide (1 ≤ len)%N then
        Continue (set_read_buffer (resize (N.to_nat len) Byte.x00 (ld_read_buffer this))
          (set_read_state (ReadData len 0) this))
      else Return (Ready (Some (Ok []))) (set_read_state ReadState_default this)
  end.

(** The body of the loop of [poll_next]. *)
Definition next_turn this :
    outcome (Turn (LengthDelimited R) (Poll (option (Result (list byte) ErrorKind)))) :=
  match ld_read_state this with
  | ReadLength buf pos =>
      n ← slice_len pos (pos + 1) (length buf);
      let '(p, r) := poll_read (ld_inner this) n in
      let this := set_inner r this in
      match p with
      | Ready (Ok []) =>
          if decide (pos = 0) then Ret (Return (Ready None) this)
          else Ret (Return (Ready (Some (Err UnexpectedEof))) this)
      | Ready (Err err) => Ret (Return (Ready (Some (Err err))) this)
      | Pending => Ret (Return Pending this)
      | Ready (Ok bs) =>
          _ ← assert (bool_decide (length bs = 1));
          let buf := buf_write pos bs buf in
          let pos := pos + length bs in
          let this := set_read_state (ReadLength buf pos) this in
          b ← vec_index buf (pos - 1);
          if negb (msb b) then
            Ret (length_turn this buf)
          else if decide (pos = N.to_nat MAX_LEN_BYTES) then
            Ret (Return (Ready (Some (Err InvalidData))) this)
          else Ret (Continue this)
      end
  | ReadData len pos =>
      n ← slice_len pos (length (ld_read_buffer this)) (length (ld_read_buffer this));
      let '(p, r) := poll_read (ld_inner this) n in
      let this := set_inner r this in
      match p with
      | Ready (Ok []) => Ret (Return (Ready (Some (Err UnexpectedEof))) this)
      | Pending => Ret (Return Pending this)
      | Ready (Err err) => Ret (Return (Ready (Some (Err err))) this)
      | Ready (Ok bs) =>
          let this := set_read_buffer (buf_write pos bs (ld_read_buffer this)) this in
          let pos := pos + length bs in
          let this := set_read_state (ReadData len pos) this in
          if decide (pos = N.to_nat len) then
            Ret (Return (Ready (Some (Ok (ld_read_buffer this))))
              (set_read_state ReadState_default (set_read_buffer [] this)))
          else Ret (Continue this)
      end
  end.

(** A turn reads at least one byte, so a call takes at most one turn per byte of
    the length and of the longest frame. *)
Definition next_fuel : nat := N.to_nat (MAX_LEN_BYTES + MAX_FRAME_SIZE + 1).

Definition LengthDelimited_poll_next this :
    outcome (Poll (option (Result (list byte) ErrorKind)) * LengthDelimited R) :=
  loop next_fuel next_turn this.

Definition LengthDelimited_poll_ready this :
    outcome (Poll (Result unit ErrorKind) * LengthDelimited R) :=
  if decide (MAX_FRAME_SIZE ≤ N.of_nat (length (ld_write_buffer this)))%N then
    '(p, this) ← LengthDelimited_poll_write_buffer this;
    match p with
    | Ready (Ok ()) =>
        _ ← assert (bool_decide (ld_write_buffer this = []));
        Ret (Ready (Ok ()), this)
    | Ready (Err err) => Ret (Ready (Err err), this)
    | Pending => Ret (Pending, this)
    end
  else Ret (Ready (Ok ()), this).

Definition LengthDelimited_start_send this (item : list byte) : Result unit ErrorKind * LengthDelimited R :=
  let n := N.of_nat (length item) in
  if decide (n < u16_max ∧ n ≤ MAX_FRAME_SIZE)%N then
    (Ok (), set_write_buffer (ld_write_buffer this ++ uvi_encode u16_max n ++ item) this)
  else (Err InvalidData, this).

Definition LengthDelimited_poll_flush this :
    outcome (Poll (Result unit ErrorKind) * LengthDelimited R) :=
  '(p, this) ← LengthDelimited_poll_write_buffer this;
  match p with
  | Ready (Ok ()) =>
      _ ← assert (bool_decide (ld_write_buffer this = []));
      let '(p, r) := poll_flush (ld_inner this) in Ret (p, set_inner r this)
  | Ready (Err err) => Ret (Ready (Err err), this)
  | Pending => Ret (Pending, this)
  end.

Definition LengthDelimited_poll_close this :
    outcome (Poll (Result unit ErrorKind) * LengthDelimited R) :=
  '(p, this) ← LengthDelimited_poll_write_buffer this;
  match p with
  | Ready (Ok ()) =>
      _ ← assert (bool_decide (ld_write_buffer this = []));
      let '(p, r) := poll_close (ld_inner this) in Ret (p, set_inner r this)
  | Ready (Err err) => Ret (Ready (Err err), this)
  | Pending => Ret (Pending, this)
  end.
End length_delimited.

(** ** [LengthDelimitedReader] *)

Record LengthDelimitedReader (R : Type) : Type := mkLengthDelimitedReader {
  ldr_inner : LengthDelimited R;
}.
Arguments mkLengthDelimitedReader {R} _.
Arguments ldr_inner {R} _.

Section length_delimited_reader.
Context {R : Type} `{!AsyncIo R} `{!Varint u16_max}.
Implicit Types (this : LengthDelimitedReader R).

Definition LengthDelimited_into_reader (this : LengthDelimited R) : LengthDelimitedReader R :=
  mkLengthDelimitedReader this.

Definition LengthDelimitedReader_into_inner this : outcome R :=
  LengthDelimited_into_inner (ldr_inner this).

Definition LengthDelimitedReader_poll_next this :
    outcome (Poll (option (Result (list byte) ErrorKind)) * LengthDelimitedReader R) :=
  '(p, ld) ← LengthDelimited_poll_next (ldr_inner this); Ret (p, mkLengthDelimitedReader ld).

Definition LengthDelimitedReader_poll_write this (buf : list byte) :
    outcome (Poll (Result nat ErrorKind) * LengthDelimitedReader R) :=
  '(p, ld) ← LengthDelimited_poll_write_buffer (ldr_inner this);
  match p with
  | Ready (Ok ()) =>
      _ ← assert (bool_decide (ld_write_buffer ld = []));
      let '(p, r) := poll_write (ld_inner ld) buf in
      Ret (p, mkLengthDelimitedReader (set_inner r ld))
  | Ready (Err err) => Ret (Ready (Err err), mkLengthDelimitedReader ld)
  | Pending => Ret (Pending, mkLengthDelimitedReader ld)
  end.

Definition LengthDelimitedReader_poll_write_vectored this (bufs : list (list byte)) :
    outcome (Poll (Result nat ErrorKind) * LengthDelimitedReader R) :=
  '(p, ld) ← LengthDelimited_poll_write_buffer (ldr_inner this);
  match p with
  | Ready (Ok ()) =>
      _ ← assert (bool_decide (ld_write_buffer ld = []));
      let '(p, r) := poll_write_vectored (ld_inner ld) bufs in
      Ret (p, mkLengthDelimitedReader (set_inner r ld))
  | Ready (Err err) => Ret (Ready (Err err), mkLengthDelimitedReader ld)
  | Pending => Ret (Pending, mkLengthDelimitedReader ld)
  end.

Definition LengthDelimitedReader_poll_flush this :
    outcome (Poll (Result unit ErrorKind) * LengthDelimitedReader R) :=
  '(p, ld) ← LengthDelimited_poll_flush (ldr_inner this); Ret (p, mkLengthDelimitedReader ld).

Definition LengthDelimitedReader_poll_close this :
    outcome (Poll (Result unit ErrorKind) * LengthDelimitedReader R) :=
  '(p, ld) ← LengthDelimited_poll_close (ldr_inner this); Ret (p, mkLengthDelimitedReader ld).
End length_delimited_reader.

(** ** Reading *)
Section reading.
Context {R : Type} `{!AsyncIo R} `{!Varint u16_max} `{!VarintSpec u16_max}.
Implicit Types (this : LengthDelimited R) (r : R).

(** The frames that can be sent, and their encoding. *)
Definition frame_ok (f : list byte) : Prop := (N.of_nat (length f) ≤ MAX_FRAME_SIZE)%N.
Definition frame_bytes (f : list byte) : list byte := uvi_encode u16_max (N.of_nat (length f)) ++ f.

(** The bytes of the current frame that have been read so far. *)
Definition partial this : list byte :=
  match ld_read_state this with
  | ReadLength buf pos => take pos buf
  | ReadData len pos => uvi_encode u16_max len ++ take pos (ld_read_buffer this)
  end.

(** A reader that has not failed. *)
Definition reader_wf this : Prop :=
  match ld_read_state this with
  | ReadLength buf pos => ld_read_buffer this = [] ∧
      (pos = 0 ∧ buf = [Byte.x00; Byte.x00] ∨ pos = 1 ∧ ∃ b, buf = [b; Byte.x00] ∧ msb b = true)
  | ReadData len pos => (len ≤ MAX_FRAME_SIZE)%N ∧ length (ld_read_buffer this) = N.to_nat len ∧ pos < N.to_nat len
  end.

(** The number of bytes that the reader asks for. *)
Definition want this : nat :=
  match ld_read_state this with ReadLength _ _ => 1 | ReadData len pos => N.to_nat len - pos end.

Definition turns_left this : nat :=
  match ld_read_state this with
  | ReadLength _ pos => N.to_nat (MAX_LEN_BYTES + MAX_FRAME_SIZE) - pos
  | ReadData len pos => N.to_nat len - pos
  end.

Lemma turns_left_length this buf pos :
  ld_read_state this = ReadLength buf pos → turns_left this = 2 + N.to_nat MAX_FRAME_SIZE - pos.
Proof. unfold turns_left. intros ->. by rewrite N2Nat.inj_add. Qed.

Lemma uvi_encode_cases n :
  (n ≤ MAX_FRAME_SIZE)%N →
  (∃ c, uvi_encode u16_max n = [c] ∧ msb c = false) ∨
  (∃ d c, uvi_encode u16_max n = [d; c] ∧ msb d = true ∧ msb c = false).
Proof.
  change MAX_FRAME_SIZE with 16383%N. intros Hn.
  assert (length (uvi_encode u16_max n) ≤ 2) as Hl by (apply uvi_encode_length; simpl; lia).
  destruct (uvi_encode_msb n) as (init & c & E & Hi & Hc); [lia|]. rewrite E in *.
  rewrite length_app in Hl. destruct init as [|d [|e init]]; simpl in *; [by eauto| |lia].
  inversion Hi. right. by exists d, c.
Qed.

(** What the decoder finds in the two bytes of the length buffer. *)
Lemma uvi_decode_buf b c len rest :
  uvi_decode u16_max [b; c] = Some (len, rest) →
  (len ≤ MAX_FRAME_SIZE)%N ∧
  (uvi_encode u16_max len = [b] ∧ msb b = false ∨ uvi_encode u16_max len = [b; c] ∧ msb b = true).
Proof.
  intros [Hlen E]%uvi_decode_Some. assert (len ≤ MAX_FRAME_SIZE)%N as Hle.
  { change MAX_FRAME_SIZE with 16383%N. cut (len < 128 ^ N.of_nat 2)%N; [simpl; lia|].
    apply uvi_encode_length; [done|]. apply (f_equal length) in E. rewrite length_app in E. simpl in E. lia. }
  split; [done|]. destruct (uvi_encode_cases len Hle) as [(c' & Ec & Hc)|(d & c' & Ec & Hd & Hc)];
    rewrite Ec in *; simplify_eq/=; eauto.
Qed.

Lemma decode_frame_start f t b c :
  frame_ok f → [b; c] `prefix_of` frame_bytes f ++ t → msb b = true →
  uvi_encode u16_max (N.of_nat (length f)) = [b; c] ∧ msb c = false.
Proof.
  intros Hf [k Hk] Hb. unfold frame_bytes in Hk.
  destruct (uvi_encode_cases _ Hf) as [(c' & E & Hc)|(d & c' & E & Hd & Hc)]; rewrite E in *; simplify_eq/=; [congruence|done].
Qed.

Lemma decode_frame_start1 f t b :
  frame_ok f → [b] `prefix_of` frame_bytes f ++ t → msb b = false →
  uvi_encode u16_max (N.of_nat (length f)) = [b].
Proof.
  intros Hf [k Hk] Hb. unfold frame_bytes in Hk.
  destruct (uvi_encode_cases _ Hf) as [(c' & E & Hc)|(d & c' & E & Hd & Hc)]; rewrite E in *; simplify_eq/=; [done|congruence].
Qed.

(** What a turn returns that has read the bytes [l] of a frame. *)
Definition turn_result this (l : list byte) (a : Poll (option (Result (list byte) ErrorKind))) (s : LengthDelimited R) : Prop :=
  ld_inner s = ld_inner this ∧ ld_write_buffer s = ld_write_buffer this ∧
  ((∃ f, a = Ready (Some (Ok f)) ∧ frame_ok f ∧ l = frame_bytes f ∧
      reader_wf s ∧ partial s = [] ∧ ld_read_buffer s = []) ∨
   (a = Ready (Some (Err InvalidData)) ∧ ld_read_buffer s = [] ∧
      ∀ f t, frame_ok f → ¬ l `prefix_of` frame_bytes f ++ t)).

Lemma length_turn_spec this b c l :
  ld_read_buffer this = [] →
  l = [b] ∧ msb b = false ∨ l = [b; c] ∧ msb b = true ∧ msb c = false →
  match length_turn this [b; c] with
  | Continue s => reader_wf s ∧ partial s = l ∧ ld_inner s = ld_inner this ∧
      ld_write_buffer s = ld_write_buffer this ∧ turns_left s ≤ N.to_nat MAX_FRAME_SIZE
  | Return a s => turn_result this l a s
  end.
Proof.
  intros Hrb Hl. unfold length_turn. destruct (uvi_decode u16_max [b; c]) as [[len rest]|] eqn:E.
  - apply uvi_decode_buf in E as [Hlen E]. assert (uvi_encode u16_max len = l) as E'.
    { destruct E as [[E ?]|[E ?]], Hl as [[-> ?]|(-> & ? & ?)]; congruence. }
    clear E Hl. destruct (decide (1 ≤ len)%N).
    + unfold reader_wf, partial, turns_left; simpl. rewrite Hrb. split_and!; [done| |lia| |done|done|lia].
      * by rewrite resize_nil, length_replicate.
      * by rewrite take_0, app_nil_r.
    + assert (len = 0%N) as -> by lia. split_and!; [done..|]. left. exists [].
      split_and!; [done| |by rewrite <-E', <-(app_nil_r (uvi_encode _ _))|split; [exact Hrb|by left]|done|exact Hrb].
      unfold frame_ok. simpl. lia.
  - split_and!; [done..|]. right. split_and!; [done..|]. intros f t Hf Hp.
    assert (uvi_encode u16_max (N.of_nat (length f)) `prefix_of` [b; c]) as [k Hk].
    { destruct Hl as [[-> Hb]|(-> & Hb & Hc)].
      - rewrite (decode_frame_start1 f t b) by done. by exists [c].
      - destruct (decode_frame_start f t b c Hf Hp Hb) as [-> _]. done. }
    rewrite Hk, uvi_decode_encode in E; [done|]. unfold frame_ok in Hf.
    change MAX_FRAME_SIZE with 16383%N in Hf. lia.
Qed.

Lemma partial_nil this : reader_wf this → partial this = [] ↔ ∃ buf, ld_read_state this = ReadLength buf 0.
Proof.
  unfold reader_wf, partial. destruct (ld_read_state this) as [buf pos|len pos].
  - intros [_ [[-> ->]|(-> & b & -> & _)]]; simpl; naive_solver.
  - intros (Hl & _). split; [|by intros [? ?]]. intros [E _]%app_eq_nil.
    destruct (uvi_encode_cases len Hl) as [(? & E' & _)|(? & ? & E' & _)]; congruence.
Qed.

(** What a turn does after reading the bytes [bs]. *)
Definition turn_read this r (bs : list byte)
    (t : Turn (LengthDelimited R) (Poll (option (Result (list byte) ErrorKind)))) : Prop :=
  match t with
  | Continue s => reader_wf s ∧ partial s = partial this ++ bs ∧ ld_inner s = r ∧
      ld_write_buffer s = ld_write_buffer this ∧ turns_left s < turns_left this
  | Return a s => turn_result (set_inner r this) (partial this ++ bs) a s
  end.

Lemma turn_read_length this (x : LengthDelimited R) r bs b c :
  ld_read_buffer x = [] → ld_inner x = r → ld_write_buffer x = ld_write_buffer this →
  N.to_nat MAX_FRAME_SIZE < turns_left this →
  partial this ++ bs = [b] ∧ msb b = false ∨ partial this ++ bs = [b; c] ∧ msb b = true ∧ msb c = false →
  turn_read this r bs (length_turn x [b; c]).
Proof.
  intros Hrb Hr Hwb Ht Hl. pose proof (length_turn_spec x b c _ Hrb Hl) as H. unfold turn_read.
  destruct (length_turn x [b; c]) as [s|a s].
  - destruct H as (? & ? & ? & ? & ?). split_and!; [done|done|congruence|congruence|lia].
  - destruct H as (? & ? & H). split_and!; simpl; [congruence|congruence|done].
Qed.

Lemma next_turn_length this buf pos r b :
  reader_wf this → ld_read_state this = ReadLength buf pos →
  poll_read (ld_inner this) 1 = (Ready (Ok [b]), r) →
  ∃ t, next_turn this = Ret t ∧ turn_read this r [b] t.
Proof.
  destruct this as [r0 rb wb st]. intros Hwf Hst Hr; simpl in *; subst st. destruct Hwf as [Hrb Hb]; simpl in *; subst rb.
  unfold next_turn, slice_len; simpl.
  rewrite decide_True by (destruct Hb as [[-> ->]|(-> & c & -> & _)]; simpl; lia). simpl.
  replace (pos + 1 - pos) with 1 by lia. rewrite Hr. simpl.
  destruct Hb as [[-> ->]|(-> & c & -> & Hc)]; unfold buf_write, vec_index; simpl; destruct (msb b) eqn:Hb; simpl.
  - eexists. split; [done|]. unfold turn_read, reader_wf, partial. simpl. split_and!; [done| |done|done|done|].
    + right. split; [done|]. by exists b.
    + erewrite !turns_left_length by done. lia.
  - eexists. split; [done|]. apply turn_read_length; [done..| |by left].
    erewrite turns_left_length by done. lia.
  - eexists. split; [done|]. split_and!; [done..|]. right. split_and!; [done..|]. intros f t Hf Hp.
    destruct (decode_frame_start f t c b Hf Hp Hc). congruence.
  - eexists. split; [done|]. apply turn_read_length; [done..| |by right].
    erewrite turns_left_length by done. lia.
Qed.

Lemma buf_write_app (l bs k : list byte) n :
  length l = n → length bs ≤ length k → buf_write n bs (l ++ k) = l ++ bs ++ drop (length bs) k.
Proof.
  intros <- Hle. unfold buf_write. by rewrite take_app_length, drop_app_add.
Qed.

Lemma next_turn_data this len pos r bs :
  reader_wf this → ld_read_state this = ReadData len pos → bs ≠ [] → length bs ≤ N.to_nat len - pos →
  poll_read (ld_inner this) (N.to_nat len - pos) = (Ready (Ok bs), r) →
  ∃ t, next_turn this = Ret t ∧ turn_read this r bs t.
Proof.
  destruct this as [r0 rb wb st]. intros Hwf Hst Hbs Hle Hr; simpl in *; subst st.
  destruct Hwf as (Hlen & Hrb & Hpos); simpl in *. unfold next_turn, slice_len; simpl.
  rewrite Hrb, decide_True by lia. simpl. rewrite Hr. simpl.
  assert (length (take pos rb) = pos) as Htk by (rewrite length_take; lia).
  assert (buf_write pos bs rb = take pos rb ++ bs ++ drop (length bs) (drop pos rb)) as Hw.
  { rewrite <-(take_drop pos rb) at 1. apply buf_write_app; [done|]. rewrite length_drop. lia. }
  assert (take (pos + length bs) (buf_write pos bs rb) = take pos rb ++ bs) as Htake.
  { rewrite Hw, app_assoc. apply take_app_length'. rewrite length_app. lia. }
  assert (length (buf_write pos bs rb) = N.to_nat len) as Hl.
  { rewrite Hw, !length_app, !length_drop. lia. }
  assert (length bs ≠ 0) as Hne by (by destruct bs).
  destruct bs as [|b bs']; [done|]. set (bs := b :: bs') in *.
  destruct (decide (pos + length bs = N.to_nat len)) as [E|E]; eexists; (split; [done|]).
  - split_and!; [done..|]. left. exists (buf_write pos bs rb).
    unfold frame_ok, frame_bytes, partial; simpl. rewrite Hl, N2Nat.id.
    split_and!; [done|done| |split; [done|by left]|done|done].
    rewrite <-app_assoc, <-Htake. f_equal. apply take_ge. lia.
  - clearbody bs. unfold turn_read, reader_wf, partial, turns_left; simpl. rewrite Htake, app_assoc.
    split_and!; [done|done|lia|done|done|done|lia].
Qed.

(** One turn of [poll_next], depending on what the resource answers. *)
Lemma next_turn_spec this :
  reader_wf this →
  (∀ r bs, poll_read (ld_inner this) (want this) = (Ready (Ok bs), r) → length bs ≤ want this) →
  ∃ t, next_turn this = Ret t ∧
  match poll_read (ld_inner this) (want this) with
  | (Pending, r) => t = Return Pending (set_inner r this)
  | (Ready (Err e), r) => t = Return (Ready (Some (Err e))) (set_inner r this)
  | (Ready (Ok []), r) =>
      t = Return (Ready (if decide (partial this = []) then None else Some (Err UnexpectedEof))) (set_inner r this)
  | (Ready (Ok bs), r) => turn_read this r bs t
  end.
Proof.
  intros Hwf Hread. pose proof (partial_nil this Hwf) as Hp.
  destruct (poll_read (ld_inner this) (want this)) as [[[[|b bs]|e]|] r] eqn:Er.
  2: { unfold want in *. destruct (ld_read_state this) as [buf pos|len pos] eqn:Hst.
       - specialize (Hread _ _ eq_refl). destruct bs; [|simpl in Hread; lia]. by eapply next_turn_length.
       - by eapply next_turn_data, Er; [done..|apply (Hread r)]. }
  all: destruct this as [r0 rb wb [buf pos|len pos]]; unfold reader_wf, want, next_turn, slice_len in *; simpl in *.
  all: first [ destruct Hwf as [-> Hb]; simpl in *;
               rewrite decide_True by (destruct Hb as [[-> ->]|(-> & c & -> & _)]; simpl; lia);
               simpl; replace (pos + 1 - pos) with 1 by lia
             | destruct Hwf as (? & Hl & ?); simpl in *; rewrite Hl, decide_True by lia; simpl ]; rewrite Er; simpl; eauto.
  - destruct (decide (pos = 0)) as [->|H0]; eexists; (split; [done|]).
    + rewrite decide_True; [done|]. apply Hp. eauto.
    + rewrite decide_False; [done|]. intros [? [= ? ?]]%Hp. done.
  - eexists. split; [done|]. rewrite decide_False; [done|]. intros [? ?]%Hp. done.
Qed.

Lemma turns_left_fuel this : reader_wf this → turns_left this < next_fuel.
Proof.
  unfold turns_left, next_fuel, reader_wf. rewrite !N2Nat.inj_add.
  destruct (ld_read_state this); [lia|]. intros (Hlen & _). lia.
Qed.

Lemma want_pos this : reader_wf this → 0 < want this.
Proof. unfold want, reader_wf. destruct (ld_read_state this); [lia|]. intros (_ & _ & ?). lia. Qed.

Lemma wf_read_buffer this : reader_wf this → (N.of_nat (length (ld_read_buffer this)) ≤ MAX_FRAME_SIZE)%N.
Proof. unfold reader_wf. destruct (ld_read_state this); [by intros [-> _]|]. intros (? & -> & _). lia. Qed.

Lemma reader_wf_set_inner this r : reader_wf this → reader_wf (set_inner r this).
Proof. done. Qed.

Lemma reader_wf_new r : reader_wf (LengthDelimited_new r).
Proof. split; [done|by left]. Qed.

(** An encoding determines its frame and where it ends. *)
Lemma frame_bytes_inj f g t u :
  frame_ok f → frame_ok g → frame_bytes f ++ t = frame_bytes g ++ u → f = g ∧ t = u.
Proof.
  unfold frame_ok, frame_bytes. change MAX_FRAME_SIZE with 16383%N. intros Hf Hg E. rewrite <-!app_assoc in E.
  assert (Some (N.of_nat (length f), f ++ t) = Some (N.of_nat (length g), g ++ u)) as [= Hl E'].
  { rewrite <-(uvi_decode_encode (bound := u16_max) (N.of_nat (length f))), <-(uvi_decode_encode (bound := u16_max) (N.of_nat (length g))) by lia.
    by rewrite E. }
  apply app_inj_1 in E' as [-> ->]; [done|]. lia.
Qed.

Lemma frame_bytes_nonempty f : frame_ok f → frame_bytes f ≠ [].
Proof.
  intros Hf [E _]%app_eq_nil. destruct (uvi_encode_cases _ Hf) as [(? & E' & _)|(? & ? & E' & _)]; congruence.
Qed.

(** What has been read of the current frame is not a whole frame. *)
Lemma partial_incomplete this f :
  reader_wf this → frame_ok f → ¬ frame_bytes f `prefix_of` partial this.
Proof.
  intros Hwf Hf [k E]. revert Hwf E. unfold reader_wf, partial, frame_bytes.
  destruct (ld_read_state this) as [buf pos|len pos].
  - intros [_ [[-> ->]|(-> & b & -> & Hb)]]; simpl;
      destruct (uvi_encode_cases _ Hf) as [(c & -> & Hc)|(d & c & -> & _)]; intros ?; simplify_eq/=. congruence.
  - intros (Hlen & Hl & Hpos). change MAX_FRAME_SIZE with 16383%N in *. unfold frame_ok in Hf.
    change MAX_FRAME_SIZE with 16383%N in *. rewrite <-app_assoc. intros E.
    assert (Some (len, take pos (ld_read_buffer this)) = Some (N.of_nat (length f), f ++ k)) as [= -> E'].
    { rewrite <-(uvi_decode_encode (bound := u16_max) len), E by lia. apply uvi_decode_encode. lia. }
    apply (f_equal length) in E'. rewrite length_take, length_app in E'. lia.
Qed.
End reading.

#[export] Hint Resolve reader_wf_set_inner reader_wf_new : libp2p.

(** *** On a resource that keeps the contract of the traits *)
Section contract.
Context {R : Type} `{!AsyncIo R} `{!AsyncIoContract R} `{!Varint u16_max} `{!VarintSpec u16_max}.
Implicit Types (this : LengthDelimited R).

Lemma poll_next_safe this :
  reader_wf this →
  ∃ p this', LengthDelimited_poll_next this = Ret (p, this') ∧ ld_write_buffer this' = ld_write_buffer this ∧
    (p = Ready (Some (Err InvalidData)) ∧ (N.of_nat (length (ld_read_buffer this')) ≤ MAX_FRAME_SIZE)%N ∨ reader_wf this') ∧
    ∀ f, p = Ready (Some (Ok f)) → frame_ok f ∧ ld_read_buffer this' = [].
Proof.
  intros Hwf. unfold LengthDelimited_poll_next.
  apply (loop_total next_turn reader_wf (λ s p s', ld_write_buffer s' = ld_write_buffer s ∧
    (p = Ready (Some (Err InvalidData)) ∧ (N.of_nat (length (ld_read_buffer s')) ≤ MAX_FRAME_SIZE)%N ∨ reader_wf s') ∧
    ∀ f, p = Ready (Some (Ok f)) → frame_ok f ∧ ld_read_buffer s' = []) turns_left);
    [|done|by apply turns_left_fuel].
  clear this Hwf. intros this Hwf. destruct (next_turn_spec this Hwf) as (t & Ht & Hr).
  { intros r bs. apply poll_read_le. }
  exists t. split; [done|]. destruct (poll_read (ld_inner this) (want this)) as [[[[|b bs]|e]|] r] eqn:Er.
  - subst t. split_and!; [done|by right|]. intros f. by destruct (decide _).
  - unfold turn_read, turn_result in Hr. destruct t as [s|a s].
    + destruct Hr as (? & ? & ? & Hwb & ?). split_and!; [done|done|]. intros p s' (? & ? & ?). by rewrite <-Hwb.
    + destruct Hr as (? & ? & [(f & -> & ? & ? & ? & ? & ?)|(-> & Hrb & ?)]).
      * split_and!; [done|by right|]. by intros ? [= <-].
      * split_and!; [done|left; by rewrite Hrb|done].
  - subst t. split_and!; [done|by right|done].
  - subst t. split_and!; [done|by right|done].
Qed.

Lemma poll_write_buffer_safe this :
  ∃ p this', LengthDelimited_poll_write_buffer this = Ret (p, this') ∧
    ld_read_state this' = ld_read_state this ∧ ld_read_buffer this' = ld_read_buffer this ∧
    length (ld_write_buffer this') ≤ length (ld_write_buffer this) ∧
    (p = Ready (Ok ()) → ld_write_buffer this' = []).
Proof.
  unfold LengthDelimited_poll_write_buffer.
  apply (loop_total write_turn (λ _, True) (λ s p s', ld_read_state s' = ld_read_state s ∧
    ld_read_buffer s' = ld_read_buffer s ∧ length (ld_write_buffer s') ≤ length (ld_write_buffer s) ∧
    (p = Ready (Ok ()) → ld_write_buffer s' = [])) (λ s, length (ld_write_buffer s))); [|done|lia].
  clear this. intros this _. unfold write_turn. case_bool_decide as Hwb; [by eexists|].
  destruct (poll_write (ld_inner this) (ld_write_buffer this)) as [[[[|n]|e]|] r] eqn:E; simpl;
    [by eexists| |by eexists..].
  pose proof (poll_write_le _ _ _ _ E). rewrite decide_True by done. eexists. split; [done|]. simpl.
  rewrite length_drop. split_and!; [done|lia|]. intros p s' (? & ? & ? & ?). split_and!; [done|done|lia|done].
Qed.
End contract.

(** *** On one end of a reliable connection *)
Section reliable.
Context {R : Type} `{!AsyncIo R} `{!ReliableIo R} `{!Varint u16_max} `{!VarintSpec u16_max}.
Implicit Types (this : LengthDelimited R).

(** The bytes that have arrived and are not part of a frame yielded earlier,
    and the bytes that have been sent, including those still buffered. *)
Definition incoming this : list byte := partial this ++ io_in (ld_inner this).
Definition outgoing this : list byte := io_out (ld_inner this) ++ ld_write_buffer this.

(** What a call of [poll_next] answers. *)
Definition next_result this (p : Poll (option (Result (list byte) ErrorKind))) (this' : LengthDelimited R) : Prop :=
  ld_write_buffer this' = ld_write_buffer this ∧ io_out (ld_inner this') = io_out (ld_inner this) ∧
  io_eof (ld_inner this') = io_eof (ld_inner this) ∧ io_cap (ld_inner this') = io_cap (ld_inner this) ∧
  match p with
  | Pending => reader_wf this' ∧ incoming this' = incoming this ∧ io_in (ld_inner this') = [] ∧
      io_eof (ld_inner this) = false ∧ ∀ f, frame_ok f → ¬ frame_bytes f `prefix_of` incoming this
  | Ready None => reader_wf this' ∧ incoming this = [] ∧ incoming this' = [] ∧ io_eof (ld_inner this) = true
  | Ready (Some (Ok f)) => reader_wf this' ∧ frame_ok f ∧ incoming this = frame_bytes f ++ incoming this' ∧
      ld_read_buffer this' = []
  | Ready (Some (Err e)) =>
      (e = UnexpectedEof ∧ io_eof (ld_inner this) = true ∧ incoming this ≠ [] ∧
         ∀ f, frame_ok f → ¬ frame_bytes f `prefix_of` incoming this) ∨
      (e = InvalidData ∧ ∀ f t, frame_ok f → ¬ incoming this `prefix_of` frame_bytes f ++ t)
  end.

Lemma next_result_trans this s p this' :
  ld_write_buffer s = ld_write_buffer this → io_out (ld_inner s) = io_out (ld_inner this) →
  io_eof (ld_inner s) = io_eof (ld_inner this) → io_cap (ld_inner s) = io_cap (ld_inner this) →
  incoming s = incoming this → next_result s p this' → next_result this p this'.
Proof. unfold next_result. by intros -> -> -> -> ->. Qed.

Lemma next_turn_reliable this :
  reader_wf this →
  ∃ t, next_turn this = Ret t ∧
  match t with
  | Continue s => reader_wf s ∧ turns_left s < turns_left this ∧ ∀ p s', next_result s p s' → next_result this p s'
  | Return a s => next_result this a s
  end.
Proof.
  intros Hwf. pose proof (poll_read_spec (ld_inner this) (want this) (want_pos this Hwf)) as Hs.
  destruct (next_turn_spec this Hwf) as (t & Ht & Hr).
  { intros r bs E. rewrite E in Hs. apply Hs. }
  exists t. split; [done|]. destruct (poll_read (ld_inner this) (want this)) as [[[[|b bs]|e]|] r] eqn:Er; [| |done|].
  - destruct Hs as (_ & Hin & Hout & Heof & Hcap & Hnil). destruct (Hnil eq_refl) as [Hin0 He]. subst t.
    unfold next_result, incoming. simpl in Hin. rewrite Hin0, app_nil_r. split_and!; [done..|].
    destruct (decide (partial this = [])) as [Hp|Hp].
    + split_and!; [done|done| |done]. simpl. by rewrite <-Hin, Hin0, app_nil_r.
    + left. split_and!; [done..|]. intros f Hf. by apply partial_incomplete.
  - destruct Hs as (_ & Hin & Hout & Heof & Hcap & _). destruct t as [s|a s]; simpl in Hr.
    + destruct Hr as (Hwf' & Hp & Hi & Hwb & Hm). split_and!; [done..|]. intros p s'.
      apply next_result_trans; [done|by rewrite Hi..|]. unfold incoming. by rewrite Hp, Hi, Hin, <-app_assoc.
    + destruct Hr as (Hi & Hwb & Hr). simpl in Hi, Hwb. unfold next_result, incoming.
      rewrite Hi, Hwb, Hin, app_assoc. split_and!; [done..|].
      destruct Hr as [(f & -> & Hf & Hl & ? & Hp & ?)|(-> & _ & Hno)].
      * rewrite Hl, Hp. done.
      * right. split; [done|]. intros f u Hf [k Hk]. apply (Hno f u Hf). rewrite <-app_assoc in Hk.
        by eexists.
  - destruct Hs as (Hin & Heof & Hin' & Hout & Heof' & Hcap). subst t. unfold next_result, incoming. simpl.
    rewrite Hin, Hin', !app_nil_r. split_and!; [done|done|congruence|done|done|done|done|done|].
    intros f Hf. by apply partial_incomplete.
Qed.

Lemma poll_next_spec this :
  reader_wf this → ∃ p this', LengthDelimited_poll_next this = Ret (p, this') ∧ next_result this p this'.
Proof.
  intros Hwf. apply (loop_total next_turn reader_wf next_result turns_left);
    [apply next_turn_reliable|done|by apply turns_left_fuel].
Qed.

(** What writing does: buffered bytes move to the resource. *)
Record moved this (this' : LengthDelimited R) : Prop := {
  moved_state : ld_read_state this' = ld_read_state this;
  moved_buffer : ld_read_buffer this' = ld_read_buffer this;
  moved_in : io_in (ld_inner this') = io_in (ld_inner this);
  moved_eof : io_eof (ld_inner this') = io_eof (ld_inner this);
  moved_cap : io_cap (ld_inner this') = io_cap (ld_inner this);
  moved_outgoing : outgoing this' = outgoing this;
  moved_out : io_out (ld_inner this) `prefix_of` io_out (ld_inner this');
}.

Lemma moved_refl this : moved this this.
Proof. by split. Qed.

Lemma moved_trans this1 this2 this3 : moved this1 this2 → moved this2 this3 → moved this1 this3.
Proof. intros [?????? H1] [?????? H2]. split; [congruence..|by etrans]. Qed.

Lemma moved_wf this this' : moved this this' → reader_wf this → reader_wf this'.
Proof. intros [H1 H2 _ _ _ _ _]. unfold reader_wf. by rewrite H1, H2. Qed.

Lemma moved_incoming this this' : moved this this' → incoming this' = incoming this.
Proof. intros [H1 H2 H3 _ _ _ _]. unfold incoming, partial. by rewrite H1, H2, H3. Qed.

Definition write_result (p : Poll (Result unit ErrorKind)) (this' : LengthDelimited R) : Prop :=
  match p with
  | Ready (Ok ()) => ld_write_buffer this' = []
  | Ready (Err _) => False
  | Pending => io_cap (ld_inner this') ≤ length (io_out (ld_inner this'))
  end.

Lemma poll_write_buffer_spec this :
  ∃ p this', LengthDelimited_poll_write_buffer this = Ret (p, this') ∧ moved this this' ∧ write_result p this'.
Proof.
  apply (loop_total write_turn (λ _, True) (λ s p s', moved s s' ∧ write_result p s')
    (λ s, length (ld_write_buffer s))); [|done|lia].
  clear this. intros this _. unfold write_turn. case_bool_decide as Hwb; [by eexists|].
  pose proof (poll_write_spec (ld_inner this) (ld_write_buffer this) Hwb) as Hs.
  destruct (poll_write (ld_inner this) (ld_write_buffer this)) as [[[[|n]|e]|] r] eqn:E; simpl; [lia| |done|].
  - destruct Hs as (Hn & Hout & Hin & Heof & Hcap). rewrite decide_True by lia. eexists. split; [done|]. simpl.
    rewrite length_drop. split_and!; [done|lia|]. intros p s' [Hm Hp]. split; [|done].
    eapply moved_trans; [|done]. split; simpl; [done..| |].
    + unfold outgoing. simpl. by rewrite Hout, <-app_assoc, take_drop.
    + rewrite Hout. by apply prefix_app_r.
  - destruct Hs as (Hout & Hin & Heof & Hcap & Hfull). eexists. split; [done|].
    split; [|simpl; by rewrite Hout, Hcap].
    split; unfold outgoing; simpl; by rewrite ?Hout, ?Hin, ?Heof, ?Hcap.
Qed.

Lemma poll_flush_result this :
  ∃ p this', LengthDelimited_poll_flush this = Ret (p, this') ∧ moved this this' ∧ write_result p this'.
Proof.
  unfold LengthDelimited_poll_flush. destruct (poll_write_buffer_spec this) as (p & s & -> & Hm & Hr). simpl.
  destruct p as [[[]|e]|]; [|by eauto..].
  rewrite bool_decide_true by done. simpl. pose proof (poll_flush_spec (ld_inner s)) as Hf.
  destruct (poll_flush (ld_inner s)) as [[[[]|e]|] r]; [|done|]; destruct Hf as (Ho & Hi & He & Hc & Hfull);
    (eexists _, _; split; [done|]; split;
       [eapply moved_trans; [done|]; split; unfold outgoing; simpl; by rewrite ?Ho, ?Hi, ?He, ?Hc|]); simpl.
  - done.
  - rewrite Ho, Hc. by apply Hfull.
Qed.

Lemma poll_ready_result this :
  ∃ p this', LengthDelimited_poll_ready this = Ret (p, this') ∧ moved this this' ∧
    match p with
    | Ready (Ok ()) => True
    | Ready (Err _) => False
    | Pending => io_cap (ld_inner this') ≤ length (io_out (ld_inner this'))
    end.
Proof.
  unfold LengthDelimited_poll_ready. destruct (decide _) as [Hd|Hd].
  - destruct (poll_write_buffer_spec this) as (p & s & -> & Hm & Hr). simpl.
    destruct p as [[[]|e]|]; [|done|by eauto 10]. rewrite bool_decide_true by done. simpl. by eauto.
  - eexists _, _. split; [done|]. split; [apply moved_refl|done].
Qed.

Lemma start_send_result this f :
  if decide (frame_ok f)
  then LengthDelimited_start_send this f = (Ok (), set_write_buffer (ld_write_buffer this ++ frame_bytes f) this)
  else LengthDelimited_start_send this f = (Err InvalidData, this).
Proof.
  unfold LengthDelimited_start_send, frame_ok. change MAX_FRAME_SIZE with 16383%N.
  destruct (decide (N.of_nat (length f) ≤ 16383)%N); [rewrite decide_True by lia|rewrite decide_False by lia]; done.
Qed.
End reliable.

(** ** Memory bounds *)
Section bounds.
Context {R : Type} `{!AsyncIo R} `{!AsyncIoContract R} `{!Varint u16_max} `{!VarintSpec u16_max}.
Implicit Types (this : LengthDelimited R).

(** What the owner of a [LengthDelimited] does: a frame is sent when the sink is
    ready for it, and nothing more is done after reading has failed. *)
Inductive ld_op : Type :=
| LdNext
| LdSend (item : list byte)
| LdFlush
| LdClose.

Definition ld_apply (op : ld_op) this : outcome (bool * LengthDelimited R) :=
  match op with
  | LdNext =>
      '(p, this) ← LengthDelimited_poll_next this;
      Ret (match p with Ready (Some (Err _)) => false | _ => true end, this)
  | LdSend item =>
      '(p, this) ← LengthDelimited_poll_ready this;
      match p with
      | Ready (Ok ()) => Ret (true, (LengthDelimited_start_send this item).2)
      | _ => Ret (true, this)
      end
  | LdFlush => '(_, this) ← LengthDelimited_poll_flush this; Ret (true, this)
  | LdClose => '(_, this) ← LengthDelimited_poll_close this; Ret (true, this)
  end.

Fixpoint ld_run (ops : list ld_op) this : outcome (LengthDelimited R) :=
  match ops with
  | [] => Ret this
  | op :: ops => '(go_on, this) ← ld_apply op this; if go_on : bool then ld_run ops this else Ret this
  end.

Definition ld_bounded this : Prop :=
  (N.of_nat (length (ld_read_buffer this)) ≤ MAX_FRAME_SIZE)%N ∧
  (N.of_nat (length (ld_write_buffer this)) ≤ 2 * MAX_FRAME_SIZE + 1)%N.

Lemma start_send_bound this f :
  (N.of_nat (length (ld_write_buffer this)) < MAX_FRAME_SIZE)%N →
  (N.of_nat (length (ld_write_buffer (LengthDelimited_start_send this f).2)) ≤ 2 * MAX_FRAME_SIZE + 1)%N.
Proof.
  intros Hlt. unfold LengthDelimited_start_send. destruct (decide _) as [[_ Hf]|_]; simpl; [|lia].
  rewrite !length_app. destruct (uvi_encode_cases _ Hf) as [(? & -> & _)|(? & ? & -> & _)]; simpl; lia.
Qed.

Lemma poll_ready_safe this :
  ∃ p this', LengthDelimited_poll_ready this = Ret (p, this') ∧
    ld_read_state this' = ld_read_state this ∧ ld_read_buffer this' = ld_read_buffer this ∧
    length (ld_write_buffer this') ≤ length (ld_write_buffer this) ∧
    (p = Ready (Ok ()) → (N.of_nat (length (ld_write_buffer this')) < MAX_FRAME_SIZE)%N).
Proof.
  unfold LengthDelimited_poll_ready. destruct (decide _) as [Hd|Hd].
  - destruct (poll_write_buffer_safe this) as (p & s & -> & H1 & H2 & H3 & H4). simpl.
    destruct p as [[[]|e]|]; [|eexists _, _; by split_and!..]. specialize (H4 eq_refl).
    rewrite bool_decide_true by done. simpl. eexists _, _. split_and!; [done..|]. by rewrite H4.
  - eexists _, _. split_and!; [done..|]. intros _. by apply N.nle_gt.
Qed.

Lemma ld_apply_safe op this :
  reader_wf this → ld_bounded this →
  ∃ go_on this', ld_apply op this = Ret (go_on, this') ∧ ld_bounded this' ∧ (go_on = true → reader_wf this').
Proof.
  intros Hwf [Hr Hw]. destruct op as [|item| |]; simpl.
  - destruct (poll_next_safe this Hwf) as (p & s & -> & Hwb & Hs & Hf). simpl. eexists _, _. split; [done|].
    unfold ld_bounded. rewrite Hwb. destruct Hs as [[-> Hrb]|Hs]; [done|].
    split_and!; [by apply wf_read_buffer|done|done].
  - destruct (poll_ready_safe this) as (p & s & -> & H1 & H2 & H3 & H4). simpl. unfold ld_bounded, reader_wf.
    destruct p as [[[]|e]|]; simpl; eexists _, _; (split; [done|]); rewrite ?H1, ?H2;
      [|by split_and!; [done|lia|]..].
    split_and!; [|by apply start_send_bound, H4|]; unfold LengthDelimited_start_send; destruct (decide _); simpl;
      rewrite ?H1, ?H2; done.
  - unfold LengthDelimited_poll_flush. destruct (poll_write_buffer_safe this) as (p & s & -> & H1 & H2 & H3 & H4). simpl.
    unfold ld_bounded, reader_wf.
    destruct p as [[[]|e]|]; simpl; [rewrite bool_decide_true by auto; simpl; destruct (poll_flush _)|..];
      eexists _, _; (split; [done|]); simpl; rewrite H1, H2; by split_and!; [done|lia|].
  - unfold LengthDelimited_poll_close. destruct (poll_write_buffer_safe this) as (p & s & -> & H1 & H2 & H3 & H4). simpl.
    unfold ld_bounded, reader_wf.
    destruct p as [[[]|e]|]; simpl; [rewrite bool_decide_true by auto; simpl; destruct (poll_close _)|..];
      eexists _, _; (split; [done|]); simpl; rewrite H1, H2; by split_and!; [done|lia|].
Qed.

(** Whatever the remote sends and whatever the sequence of operations, on
    every resource that keeps the contract of the I/O traits: no call panics,
    at most one frame is held for reading, and at most [2 * MAX_FRAME_SIZE + 1]
    bytes are buffered for writing. *)
Theorem LengthDelimited_run_bounded (r : R) (ops : list ld_op) :
  ∃ this, ld_run ops (LengthDelimited_new r) = Ret this ∧
    (N.of_nat (length (ld_read_buffer this)) ≤ MAX_FRAME_SIZE)%N ∧
    (N.of_nat (length (ld_write_buffer this)) ≤ 2 * MAX_FRAME_SIZE + 1)%N.
Proof.
  assert (∀ this, reader_wf this → ld_bounded this → ∃ this', ld_run ops this = Ret this' ∧ ld_bounded this') as Hrun.
  { induction ops as [|op ops IH]; intros this Hwf Hb; simpl; [by eauto|].
    destruct (ld_apply_safe op this Hwf Hb) as ([|] & s & -> & Hb' & Hwf'); simpl; [by apply IH; auto|by eauto]. }
  apply Hrun; [apply reader_wf_new|by split].
Qed.
End bounds.

(** ** What is sent is received *)
Section roundtrip.
Context `{!Varint u16_max} `{!VarintSpec u16_max}.

(** The encoding of a sequence of frames. *)
Definition wire_frames (fs : list (list byte)) : list byte := mjoin (frame_bytes <$> fs).

Definition send_all {R} (this : LengthDelimited R) (fs : list (list byte)) : LengthDelimited R :=
  foldl (λ s f, (LengthDelimited_start_send s f).2) this fs.

(** More bytes arrive. *)
Definition deliver (bs : list byte) (this : LengthDelimited Duplex) : LengthDelimited Duplex :=
  let r := ld_inner this in
  set_inner (mkDuplex (dup_in r ++ bs) (dup_eof r) (dup_out r) (dup_room r)) this.

(** Poll for frames as long as there are any. *)
Fixpoint drain (fuel : nat) (this : LengthDelimited Duplex) : outcome (list (list byte) * LengthDelimited Duplex) :=
  match fuel with
  | O => Panic
  | S fuel =>
      '(p, this) ← LengthDelimited_poll_next this;
      match p with
      | Ready (Some (Ok f)) => '(fs, this) ← drain fuel this; Ret (f :: fs, this)
      | _ => Ret ([], this)
      end
  end.

(** The bytes arrive in portions; after each of them the frames are taken. *)
Fixpoint receive (portions : list (list byte)) (this : LengthDelimited Duplex) : outcome (list (list byte)) :=
  match portions with
  | [] => Ret []
  | bs :: portions =>
      let this := deliver bs this in
      '(fs, this) ← drain (S (length (incoming this))) this;
      gs ← receive portions this;
      Ret (fs ++ gs)
  end.

Lemma send_all_outgoing {R} `{!AsyncIo R, !ReliableIo R} (this : LengthDelimited R) fs :
  Forall frame_ok fs →
  outgoing (send_all this fs) = outgoing this ++ wire_frames fs ∧
  io_out (ld_inner (send_all this fs)) = io_out (ld_inner this).
Proof.
  unfold send_all, wire_frames. revert this. induction fs as [|f fs IH]; intros this Hf; simpl.
  { by rewrite app_nil_r. }
  apply Forall_cons in Hf as [Hf Hfs]. pose proof (start_send_result this f) as E.
  rewrite decide_True in E by done. rewrite E. simpl. destruct (IH (set_write_buffer (ld_write_buffer this ++ frame_bytes f) this) Hfs) as [-> ->].
  unfold outgoing. simpl. by rewrite <-!app_assoc.
Qed.

(** Frames are cut off the front of the incoming bytes as long as they are
    complete; [rest] are the frames still to come. *)
Lemma drain_spec fuel (this : LengthDelimited Duplex) fs rest :
  reader_wf this → dup_eof (ld_inner this) = false → Forall frame_ok fs →
  incoming this ++ rest = wire_frames fs → length (incoming this) < fuel →
  ∃ fs1 fs2 this', drain fuel this = Ret (fs1, this') ∧ fs = fs1 ++ fs2 ∧ reader_wf this' ∧
    dup_eof (ld_inner this') = false ∧ dup_in (ld_inner this') = [] ∧ incoming this' ++ rest = wire_frames fs2.
Proof.
  revert this fs. induction fuel as [|fuel IH]; intros this fs Hwf He Hok Hin Hlen; [lia|]. simpl.
  destruct (poll_next_spec this Hwf) as (p & s & -> & Hwb & Hout & Heof & _ & Hp). simpl in *.
  destruct p as [[[f|e]|]|].
  - destruct Hp as (Hwf' & Hf & Hi & _). destruct fs as [|g fs].
    { exfalso. rewrite Hi in Hin. apply (frame_bytes_nonempty f Hf). unfold wire_frames in Hin. simpl in Hin.
      by apply app_eq_nil in Hin as [[? _]%app_eq_nil _]. }
    apply Forall_cons in Hok as [Hg Hok]. unfold wire_frames in Hin. simpl in Hin.
    rewrite Hi, <-app_assoc in Hin. destruct (frame_bytes_inj f g _ _ Hf Hg Hin) as [<- Hin'].
    destruct (IH s fs Hwf') as (fs1 & fs2 & s' & -> & -> & H); [congruence|done|done| |].
    { rewrite Hi, length_app in Hlen. pose proof (frame_bytes_nonempty f Hf). destruct (frame_bytes f); [done|simpl in Hlen; lia]. }
    simpl. by exists (f :: fs1), fs2, s'.
  - exfalso. destruct Hp as [(_ & Ht & _)|[_ Hno]]; [congruence|]. destruct fs as [|g fs].
    + apply (Hno [] []); [by unfold frame_ok; simpl; lia|]. apply app_eq_nil in Hin as [-> _]. apply prefix_nil.
    + apply Forall_cons in Hok as [Hg Hok]. apply (Hno g (wire_frames fs) Hg). by exists rest.
  - exfalso. destruct Hp as (_ & _ & _ & Ht). congruence.
  - destruct Hp as (Hwf' & Hi & Hnil & _). exists [], fs, s. split_and!; [done|done|done|congruence|done|].
    by rewrite Hi.
Qed.

Lemma receive_spec portions (this : LengthDelimited Duplex) fs :
  reader_wf this → dup_eof (ld_inner this) = false → Forall frame_ok fs → dup_in (ld_inner this) = [] →
  partial this ++ mjoin portions = wire_frames fs →
  receive portions this = Ret fs.
Proof.
  revert this fs. induction portions as [|bs portions IH]; intros this fs Hwf He Hok Hnil Hin.
  - simpl in *. rewrite app_nil_r in Hin. destruct fs as [|f fs]; [done|]. exfalso.
    apply Forall_cons in Hok as [Hf _]. apply (partial_incomplete this f Hwf Hf). rewrite Hin.
    unfold wire_frames. simpl. by apply prefix_app_r.
  - assert (incoming (deliver bs this) = partial this ++ bs) as Hinc.
    { unfold incoming, deliver. simpl. by rewrite Hnil. }
    cbn [receive]. destruct (drain_spec (S (length (incoming (deliver bs this)))) (deliver bs this) fs (mjoin portions))
      as (fs1 & fs2 & s & -> & -> & Hwf' & He' & Hnil' & Hin'); [done|done|done| |lia|].
    { by rewrite Hinc, <-app_assoc. }
    cbn [mbind outcome_bind]. apply Forall_app in Hok as [_ Hok]. rewrite (IH s fs2); [done|done|done|done|done|].
    unfold incoming in Hin'. simpl in Hin'. by rewrite Hnil', app_nil_r in Hin'.
Qed.

(** [C20] What is sent is received: after frames of admissible size have been put
    into the sink and it has been flushed, the bytes that the resource has
    taken, delivered in whatever portions, yield exactly these frames in this
    order. *)
Theorem LengthDelimited_roundtrip {R} `{!AsyncIo R, !ReliableIo R} (r : R) (fs : list (list byte))
    (sender : LengthDelimited R) (portions : list (list byte)) :
  io_out r = [] → Forall frame_ok fs →
  LengthDelimited_poll_flush (send_all (LengthDelimited_new r) fs) = Ret (Ready (Ok ()), sender) →
  mjoin portions = io_out (ld_inner sender) →
  receive portions (LengthDelimited_new (mkDuplex [] false [] 0)) = Ret fs.
Proof.
  intros Hr Hok Hflush Hp. apply receive_spec; [apply reader_wf_new|done|done|done|].
  destruct (poll_flush_result (send_all (LengthDelimited_new r) fs)) as (p & s & E & Hs).
  rewrite Hflush in E. injection E as <- <-. destruct Hs as [[_ _ _ _ _ Hout _] Hwb]. simpl in Hwb.
  destruct (send_all_outgoing (LengthDelimited_new r) fs Hok) as [Hs _].
  rewrite Hs in Hout. unfold outgoing in Hout. simpl in Hout. rewrite Hwb, Hr, app_nil_r in Hout. simpl in Hout.
  rewrite Hp, Hout. done.
Qed.
End roundtrip.

(** The length of the second frame takes two bytes; the bytes arrive three at a
    time. *)
Fixpoint chunks (k fuel : nat) (l : list byte) : list (list byte) :=
  match fuel with
  | O => []
  | S fuel => take k l :: chunks k fuel (drop k l)
  end.

#[local] Existing Instances Leb128 Leb128_spec.

Lemma LengthDelimited_roundtrip_witness :
  receive (chunks 3 60 ([Byte.x02; Byte.x61; Byte.x62] ++ [Byte.x96; Byte.x01] ++ replicate 150 Byte.x63 ++ [Byte.x00]))
    (LengthDelimited_new (mkDuplex [] false [] 0)) = Ret [[Byte.x61; Byte.x62]; replicate 150 Byte.x63; []].
Proof.
  apply (LengthDelimited_roundtrip (mkDuplex [] false [] 200)
    [[Byte.x61; Byte.x62]; replicate 150 Byte.x63; []]
    (mkLengthDelimited (mkDuplex [] false
       ([Byte.x02; Byte.x61; Byte.x62] ++ [Byte.x96; Byte.x01] ++ replicate 150 Byte.x63 ++ [Byte.x00]) 44)
       [] [] ReadState_default)).
  - done.
  - repeat constructor; unfold frame_ok; vm_compute; done.
  - vm_compute. done.
  - vm_compute. done.
Defined.

Lemma LengthDelimited_run_bounded_witness :
  ∃ this, ld_run [LdSend [Byte.x61]; LdNext; LdFlush; LdNext] (LengthDelimited_new (mkDuplex [Byte.x01; Byte.x62; Byte.xff; Byte.xff] false [] 1)) = Ret this ∧
    (N.of_nat (length (ld_read_buffer this)) ≤ MAX_FRAME_SIZE)%N ∧
    (N.of_nat (length (ld_write_buffer this)) ≤ 2 * MAX_FRAME_SIZE + 1)%N.
Proof. apply LengthDelimited_run_bounded. Defined.
