(* ===== verification/MsProtocol.v ===== *)
(** * Multistream-select messages

    misc/multistream-select/src/protocol.rs: the messages exchanged during a
    protocol negotiation, their encoding, and the streams and sinks of messages
    [MessageIO] and [MessageReader] on top of length-delimited frames.

    The theorems: encoding and decoding are inverse to each other; what is not
    the encoding of a message is rejected; and a stream of messages yields what
    the remote sent. *)

From stdpp Require Import strings.
From S2P Require Import Prelude AsyncIo LengthDelimited.

(** [usize] on 64-bit targets *)
Abbreviation usize_max := (2 ^ 64)%N.

Definition MAX_PROTOCOLS : nat := 1000.

(** The bytes of an ASCII string. *)
Definition ascii_bytes (s : string) : list byte := String.list_byte_of_string s.

(** The line feed and the slash. *)
Definition LF : byte := Byte.x0a.
Definition SLASH : byte := Byte.x2f.

Definition MSG_MULTISTREAM_1_0 : list byte := ascii_bytes "/multistream/1.0.0" ++ [LF].
Definition MSG_PROTOCOL_NA : list byte := ascii_bytes "na" ++ [LF].
Definition MSG_LS : list byte := ascii_bytes "ls" ++ [LF].

Inductive Version : Type := VersionV1 | VersionV1Lazy.

Inductive HeaderLine : Type := HeaderV1.

Definition HeaderLine_from (v : Version) : HeaderLine :=
  match v with VersionV1 | VersionV1Lazy => HeaderV1 end.

Record Protocol : Type := mkProtocol { protocol_bytes : list byte }.

Inductive ProtocolError : Type :=
| IoError (err : ErrorKind)
| InvalidMessage
| InvalidProtocol
| TooManyProtocols.

Definition ProtocolError_from_io (err : ErrorKind) : ProtocolError := IoError err.

(** [From<ProtocolError> for io::Error] *)
Definition io_error_from_protocol (err : ProtocolError) : ErrorKind :=
  match err with IoError e => e | _ => InvalidData end.

(** [From<uvi::decode::Error> for ProtocolError] *)
Definition ProtocolError_from_uvi : ProtocolError := ProtocolError_from_io InvalidData.

Definition Protocol_try_from (value : list byte) : Result Protocol ProtocolError :=
  if negb (bool_decide (head value = Some SLASH)) then Err InvalidProtocol else Ok (mkProtocol value).

Inductive Message : Type :=
| Header (h : HeaderLine)
| MProtocol (p : Protocol)
| ListProtocols
| Protocols (ps : list Protocol)
| NotAvailable.

#[export] Instance Version_eq_dec : EqDecision Version.
Proof. solve_decision. Defined.
#[export] Instance HeaderLine_eq_dec : EqDecision HeaderLine.
Proof. solve_decision. Defined.
#[export] Instance Protocol_eq_dec : EqDecision Protocol.
Proof. solve_decision. Defined.
#[export] Instance ProtocolError_eq_dec : EqDecision ProtocolError.
Proof. solve_decision. Defined.
#[export] Instance Message_eq_dec : EqDecision Message.
Proof. solve_decision. Defined.

Section message.
Context `{!Varint usize_max}.

(** The entry of a protocol in the list of protocols. *)
Definition encode_entry (p : Protocol) : list byte :=
  uvi_encode usize_max (N.of_nat (length (protocol_bytes p) + 1)) ++ protocol_bytes p ++ [LF].

Definition Message_encode (m : Message) : list byte :=
  match m with
  | Header HeaderV1 => MSG_MULTISTREAM_1_0
  | MProtocol p => protocol_bytes p ++ [LF]
  | ListProtocols => MSG_LS
  | Protocols ps => mjoin (encode_entry <$> ps) ++ [LF]
  | NotAvailable => MSG_PROTOCOL_NA
  end.

(** The loop of [decode] over the entries of a list of protocols.  Every entry
    takes at least one byte, so that the number of bytes bounds the turns. *)
Fixpoint decode_protocols (fuel : nat) (protocols : list Protocol) (remaining : list byte) :
    Result (list Protocol) ProtocolError :=
  if bool_decide (remaining = [LF]) then Ok protocols
  else if bool_decide (length protocols = MAX_PROTOCOLS) then Err TooManyProtocols
  else
    match uvi_decode usize_max remaining with
    | None => Err ProtocolError_from_uvi
    | Some (len, tail) =>
        if bool_decide (len = 0 ∨ N.of_nat (length tail) < len)%N then Err InvalidMessage
        else if negb (bool_decide (tail !! (N.to_nat len - 1) = Some LF)) then Err InvalidMessage
        else
          match Protocol_try_from (take (N.to_nat len - 1) tail) with
          | Err e => Err e
          | Ok p =>
              match fuel with
              | O => Err InvalidMessage
              | S fuel => decode_protocols fuel (protocols ++ [p]) (drop (N.to_nat len) tail)
              end
          end
    end.

Definition Message_decode (msg : list byte) : Result Message ProtocolError :=
  if bool_decide (msg = MSG_MULTISTREAM_1_0) then Ok (Header HeaderV1)
  else if bool_decide (msg = MSG_PROTOCOL_NA) then Ok NotAvailable
  else if bool_decide (msg = MSG_LS) then Ok ListProtocols
  else if bool_decide (head msg = Some SLASH) && bool_decide (last msg = Some LF) &&
          negb (bool_decide (LF ∈ take (length msg - 1) msg)) then
    match Protocol_try_from (take (length msg - 1) msg) with
    | Ok p => Ok (MProtocol p)
    | Err e => Err e
    end
  else
    match decode_protocols (length msg) [] msg with
    | Ok protocols => Ok (Protocols protocols)
    | Err e => Err e
    end.

(** The messages that have an encoding of their own.  A protocol name starts
    with a slash; proposed on its own it must not contain a line feed nor be
    the name of the header. *)
Definition name_ok (p : Protocol) : Prop := head (protocol_bytes p) = Some SLASH.
Definition protocol_ok (p : Protocol) : Prop :=
  name_ok p ∧ (LF ∉ protocol_bytes p) ∧ protocol_bytes p ++ [LF] ≠ MSG_MULTISTREAM_1_0.
Definition entry_ok (p : Protocol) : Prop :=
  name_ok p ∧ (N.of_nat (length (protocol_bytes p) + 1) < usize_max)%N.
Definition message_ok (m : Message) : Prop :=
  match m with
  | MProtocol p => protocol_ok p
  | Protocols ps => Forall entry_ok ps ∧ length ps ≤ MAX_PROTOCOLS
  | _ => True
  end.

Lemma Protocol_try_from_Ok l p : Protocol_try_from l = Ok p ↔ name_ok p ∧ l = protocol_bytes p.
Proof.
  unfold Protocol_try_from, name_ok. case_bool_decide; simpl; split.
  - by intros [= <-].
  - destruct p. by intros [_ ->].
  - done.
  - by intros [? ->].
Qed.

Context `{!VarintSpec usize_max}.

Lemma encode_entry_length p : entry_ok p → 2 < length (encode_entry p).
Proof.
  intros [Hn Hb]. unfold encode_entry. destruct (uvi_encode_msb _ Hb) as (init & b & -> & _).
  rewrite !length_app. unfold name_ok in Hn. destruct (protocol_bytes p); [done|simpl; lia].
Qed.

(** One turn of the loop cuts off the first entry. *)
Lemma decode_protocols_entry fuel acc p t :
  entry_ok p → length acc ≠ MAX_PROTOCOLS →
  decode_protocols (S fuel) acc (encode_entry p ++ t) = decode_protocols fuel (acc ++ [p]) t.
Proof.
  intros Hp Hacc. pose proof (encode_entry_length p Hp) as Hlen. destruct Hp as [Hn Hb]. cbn [decode_protocols].
  rewrite bool_decide_false by (intros E; apply (f_equal length) in E; rewrite length_app in E; simpl in E; lia).
  rewrite bool_decide_false by done. unfold encode_entry. rewrite <-!app_assoc, uvi_decode_encode by done.
  rewrite bool_decide_false by (rewrite length_app; simpl; lia).
  replace (N.to_nat (N.of_nat (length (protocol_bytes p) + 1))) with (S (length (protocol_bytes p))) by lia.
  cbn [Nat.sub]. change ([LF] ++ t) with (LF :: t). rewrite Nat.sub_0_r, list_lookup_middle by done.
  rewrite bool_decide_true by done. simpl. rewrite take_app_length.
  assert (Protocol_try_from (protocol_bytes p) = Ok p) as -> by (by apply Protocol_try_from_Ok).
  f_equal. rewrite cons_middle, app_assoc. apply drop_app_length'. rewrite length_app. simpl. lia.
Qed.

Lemma decode_protocols_encode fuel acc ps :
  Forall entry_ok ps → length acc + length ps ≤ MAX_PROTOCOLS → length ps ≤ fuel →
  decode_protocols fuel acc (mjoin (encode_entry <$> ps) ++ [LF]) = Ok (acc ++ ps).
Proof.
  intros Hps. revert fuel acc. induction Hps as [|p ps Hp Hps IH]; intros fuel acc Hlen Hf.
  - rewrite app_nil_r. by destruct fuel.
  - destruct fuel as [|fuel]; [simpl in Hf; lia|]. cbn [fmap list_fmap mjoin list_join length] in *. rewrite <-app_assoc.
    rewrite decode_protocols_entry by (done || lia). rewrite IH by (rewrite ?length_app; simpl; lia).
    by rewrite <-app_assoc.
Qed.

Lemma decode_protocols_Ok fuel acc l ps :
  decode_protocols fuel acc l = Ok ps →
  ∃ qs, ps = acc ++ qs ∧ l = mjoin (encode_entry <$> qs) ++ [LF] ∧ Forall entry_ok qs ∧
    (length acc ≤ MAX_PROTOCOLS → length ps ≤ MAX_PROTOCOLS).
Proof.
  revert acc l. induction fuel as [|fuel IH]; intros acc l; cbn [decode_protocols];
    (case_bool_decide as Hl; [intros [= <-]; exists []; by rewrite app_nil_r|]);
    (case_bool_decide as Hm; [done|]);
    (destruct (uvi_decode _ l) as [[len tail]|] eqn:E; [|done]);
    apply uvi_decode_Some in E as [Hlen ->];
    (case_bool_decide as Hr; [done|]);
    (case_bool_decide as Hlf; [|done]); simpl;
    (destruct (Protocol_try_from _) as [p|] eqn:Ep; [|done]); [done|].
  intros (qs & -> & Hd & Hqs & Hmax)%IH. apply Protocol_try_from_Ok in Ep as [Hp Ep].
  assert (length (protocol_bytes p) = N.to_nat len - 1) as Hpl by (rewrite <-Ep, length_take; lia).
  assert (tail = protocol_bytes p ++ LF :: drop (N.to_nat len) tail) as Ht.
  { rewrite <-Ep. replace (N.to_nat len) with (S (N.to_nat len - 1)) at 2 by lia. symmetry. by apply take_drop_middle. }
  assert (entry_ok p) as Hok by (split; [done|lia]).
  exists (p :: qs). split_and!; [by rewrite <-app_assoc| |by constructor|].
  - change (mjoin (encode_entry <$> p :: qs)) with (encode_entry p ++ mjoin (encode_entry <$> qs)).
    unfold encode_entry at 1. rewrite <-!app_assoc, <-Hd.
    replace (N.of_nat (length (protocol_bytes p) + 1)) with len by lia. by rewrite Ht at 1.
  - intros Hacc. apply Hmax. rewrite length_app. simpl. lia.
Qed.

(** The number of turns does not matter once it reaches the number of bytes. *)
Lemma decode_protocols_fuel fuel fuel' acc l :
  length l ≤ fuel → length l ≤ fuel' → decode_protocols fuel acc l = decode_protocols fuel' acc l.
Proof.
  revert fuel' acc l. induction fuel as [|fuel IH]; intros fuel' acc l Hf Hf'.
  { destruct l; [|simpl in *; lia]. destruct fuel' as [|fuel']; [done|]. cbn [decode_protocols].
    do 2 (case_bool_decide; [done|]). destruct (uvi_decode _ []) as [[len tail]|] eqn:E; [|done].
    apply uvi_decode_Some in E as [Hl E]. destruct (uvi_encode_msb _ Hl) as (init & b & Eb & _).
    rewrite Eb in E. by destruct init. }
  destruct fuel' as [|fuel'].
  { destruct l; [|simpl in *; lia]. cbn [decode_protocols].
    do 2 (case_bool_decide; [done|]). destruct (uvi_decode _ []) as [[len tail]|] eqn:E; [|done].
    apply uvi_decode_Some in E as [Hl E]. destruct (uvi_encode_msb _ Hl) as (init & b & Eb & _).
    rewrite Eb in E. by destruct init. }
  cbn [decode_protocols]. do 2 (case_bool_decide; [done|]).
  destruct (uvi_decode _ l) as [[len tail]|] eqn:E; [|done]. apply uvi_decode_Some in E as [Hl ->].
  case_bool_decide as Hr; [done|]. case_bool_decide; [|done]. simpl. destruct (Protocol_try_from _); [|done].
  destruct (uvi_encode_msb _ Hl) as (init & b & Eb & _). rewrite Eb in *.
  rewrite !length_app in *. simpl in *. apply IH; rewrite length_drop; lia.
Qed.

(** The encoding of a list of protocols is not taken for another message. *)
Lemma encode_protocols_shape ps :
  mjoin (encode_entry <$> ps) ++ [LF] = [LF] ∨ ∃ l, mjoin (encode_entry <$> ps) ++ [LF] = l ++ [LF; LF].
Proof.
  destruct ps as [|p ps _] using rev_ind; [by left|]. right.
  exists (mjoin (encode_entry <$> ps) ++ uvi_encode usize_max (N.of_nat (length (protocol_bytes p) + 1)) ++ protocol_bytes p).
  rewrite fmap_app, join_app. change (mjoin (encode_entry <$> [p])) with (encode_entry p ++ []).
  rewrite app_nil_r. unfold encode_entry at 2. by rewrite <-!app_assoc.
Qed.

Lemma snoc2_ne (l k : list byte) a : k !! (length k - 2) ≠ Some a → l ++ [a; a] ≠ k.
Proof.
  intros H <-. apply H. rewrite length_app. simpl. replace (length l + 2 - 2) with (length l + 0) by lia.
  by rewrite lookup_app_r, Nat.add_comm, Nat.add_sub by lia.
Qed.

Lemma take_snoc (l : list byte) b : take (length (l ++ [b]) - 1) (l ++ [b]) = l.
Proof. rewrite length_app. simpl. by rewrite Nat.add_sub, take_app_length. Qed.

Lemma decode_encode_protocol p : protocol_ok p → Message_decode (protocol_bytes p ++ [LF]) = Ok (MProtocol p).
Proof.
  intros (Hn & Hlf & Hh). unfold Message_decode. rewrite bool_decide_false by done.
  assert (head (protocol_bytes p ++ [LF]) = Some SLASH) as Hhead.
  { unfold name_ok in Hn. by destruct (protocol_bytes p). }
  rewrite bool_decide_false by (intros E; rewrite E in Hhead; done).
  rewrite bool_decide_false by (intros E; rewrite E in Hhead; done).
  rewrite bool_decide_true, last_snoc, bool_decide_true, take_snoc, bool_decide_false by done. simpl.
  assert (Protocol_try_from (protocol_bytes p) = Ok p) as -> by (by apply Protocol_try_from_Ok). done.
Qed.

Lemma length_entries ps : Forall entry_ok ps → length ps ≤ length (mjoin (encode_entry <$> ps)).
Proof.
  induction 1 as [|p ps Hp Hps IH]; [simpl; lia|].
  change (mjoin (encode_entry <$> p :: ps)) with (encode_entry p ++ mjoin (encode_entry <$> ps)).
  rewrite length_app. pose proof (encode_entry_length p Hp). simpl. lia.
Qed.

Lemma decode_encode_protocols ps :
  Forall entry_ok ps → length ps ≤ MAX_PROTOCOLS →
  Message_decode (mjoin (encode_entry <$> ps) ++ [LF]) = Ok (Protocols ps).
Proof.
  intros Hps Hlen. set (l := mjoin (encode_entry <$> ps) ++ [LF]) in *.
  assert (∀ k, k !! (length k - 2) ≠ Some LF → k ≠ [LF] → l ≠ k) as Hne.
  { intros k Hk Hk'. unfold l. destruct (encode_protocols_shape ps) as [->|[l' ->]]; [congruence|by apply snoc2_ne]. }
  unfold Message_decode. do 3 rewrite bool_decide_false by (by apply Hne).
  assert (bool_decide (head l = Some SLASH) && bool_decide (last l = Some LF) &&
          negb (bool_decide (LF ∈ take (length l - 1) l)) = false) as ->.
  { unfold l. destruct (encode_protocols_shape ps) as [->|[l' ->]]; [done|].
    rewrite (bool_decide_true (LF ∈ _)); [by rewrite andb_false_r|].
    change [LF; LF] with ([LF] ++ [LF]). rewrite app_assoc, take_snoc. apply elem_of_app. right. by left. }
  unfold l. rewrite decode_protocols_encode; [done|done|simpl; lia|]. rewrite length_app.
  pose proof (length_entries ps Hps). lia.
Qed.

Lemma Message_decode_encode m : message_ok m → Message_decode (Message_encode m) = Ok m.
Proof.
  destruct m as [[]|p| |ps|]; simpl; intros Hok; [done| |done| |done].
  - by apply decode_encode_protocol.
  - destruct Hok. by apply decode_encode_protocols.
Qed.

(** Decoding accepts exactly the encodings of messages: it inverts encoding
    on every message that has an encoding of its own, and whatever it accepts
    is the encoding of the message that it returns. *)
Theorem Message_decode_exact (l : list byte) (m : Message) :
  Message_decode l = Ok m ↔ message_ok m ∧ l = Message_encode m.
Proof.
  split.
  - unfold Message_decode. case_bool_decide as Hh; [by intros [= <-]|]. do 2 (case_bool_decide; [by intros [= <-]|]).
    destruct (bool_decide (head l = Some SLASH)) eqn:E1, (bool_decide (last l = Some LF)) eqn:E2,
      (bool_decide (LF ∈ take (length l - 1) l)) eqn:E3; simpl.
    all: try (destruct (decode_protocols _ _ _) as [ps|] eqn:E; [|done]; intros [= <-];
      apply decode_protocols_Ok in E as (qs & -> & Hl & Hqs & Hm); simpl; split; [split; [done|apply Hm; simpl; lia]|done]).
    destruct (Protocol_try_from _) as [p|] eqn:E; [|done]. intros [= <-]. apply Protocol_try_from_Ok in E as [Hp E].
    apply bool_decide_eq_true in E2. apply bool_decide_eq_false in E3. apply last_Some in E2 as [l' ->].
    rewrite take_snoc in E, E3. subst l'. done.
  - intros [Hok ->]. by apply Message_decode_encode.
Qed.
End message.

(** ** Streams and sinks of messages *)

Record MessageIO (R : Type) : Type := mkMessageIO { mio_inner : LengthDelimited R }.
Arguments mkMessageIO {R} _.
Arguments mio_inner {R} _.

Record MessageReader (R : Type) : Type := mkMessageReader { mr_inner : LengthDelimitedReader R }.
Arguments mkMessageReader {R} _.
Arguments mr_inner {R} _.

Section message_io.
Context {R : Type} `{!AsyncIo R} `{!Varint u16_max} `{!Varint usize_max}.
Implicit Types (io : MessageIO R) (rd : MessageReader R).

Definition map_poll_err {A} (p : Poll (Result A ErrorKind)) : Poll (Result A ProtocolError) :=
  match p with
  | Ready (Ok a) => Ready (Ok a)
  | Ready (Err e) => Ready (Err (ProtocolError_from_io e))
  | Pending => Pending
  end.

Definition poll_stream {S : Type}
    (poll_next : S → outcome (Poll (option (Result (list byte) ErrorKind)) * S)) (stream : S) :
    outcome (Poll (option (Result Message ProtocolError)) * S) :=
  '(p, stream) ← poll_next stream;
  match p with
  | Pending => Ret (Pending, stream)
  | Ready (Some (Err e)) => Ret (Ready (Some (Err (ProtocolError_from_io e))), stream)
  | Ready (Some (Ok msg)) =>
      match Message_decode msg with
      | Ok m => Ret (Ready (Some (Ok m)), stream)
      | Err err => Ret (Ready (Some (Err err)), stream)
      end
  | Ready None => Ret (Ready None, stream)
  end.

Definition MessageIO_new (inner : R) : MessageIO R := mkMessageIO (LengthDelimited_new inner).

Definition MessageIO_into_reader io : MessageReader R :=
  mkMessageReader (LengthDelimited_into_reader (mio_inner io)).

Definition MessageIO_into_inner io : outcome R := LengthDelimited_into_inner (mio_inner io).

Definition MessageIO_poll_ready io : outcome (Poll (Result unit ProtocolError) * MessageIO R) :=
  '(p, ld) ← LengthDelimited_poll_ready (mio_inner io); Ret (map_poll_err p, mkMessageIO ld).

Definition MessageIO_start_send io (item : Message) : Result unit ProtocolError * MessageIO R :=
  let '(r, ld) := LengthDelimited_start_send (mio_inner io) (Message_encode item) in
  (match r with Ok _ => Ok () | Err e => Err (ProtocolError_from_io e) end, mkMessageIO ld).

Definition MessageIO_poll_flush io : outcome (Poll (Result unit ProtocolError) * MessageIO R) :=
  '(p, ld) ← LengthDelimited_poll_flush (mio_inner io); Ret (map_poll_err p, mkMessageIO ld).

Definition MessageIO_poll_close io : outcome (Poll (Result unit ProtocolError) * MessageIO R) :=
  '(p, ld) ← LengthDelimited_poll_close (mio_inner io); Ret (map_poll_err p, mkMessageIO ld).

Definition MessageIO_poll_next io : outcome (Poll (option (Result Message ProtocolError)) * MessageIO R) :=
  '(p, ld) ← poll_stream LengthDelimited_poll_next (mio_inner io); Ret (p, mkMessageIO ld).

Definition MessageReader_into_inner rd : outcome R := LengthDelimitedReader_into_inner (mr_inner rd).

Definition MessageReader_poll_next rd :
    outcome (Poll (option (Result Message ProtocolError)) * MessageReader R) :=
  '(p, l) ← poll_stream LengthDelimitedReader_poll_next (mr_inner rd); Ret (p, mkMessageReader l).

Definition MessageReader_poll_write rd (buf : list byte) :
    outcome (Poll (Result nat ErrorKind) * MessageReader R) :=
  '(p, l) ← LengthDelimitedReader_poll_write (mr_inner rd) buf; Ret (p, mkMessageReader l).

Definition MessageReader_poll_flush rd : outcome (Poll (Result unit ErrorKind) * MessageReader R) :=
  '(p, l) ← LengthDelimitedReader_poll_flush (mr_inner rd); Ret (p, mkMessageReader l).

Definition MessageReader_poll_close rd : outcome (Poll (Result unit ErrorKind) * MessageReader R) :=
  '(p, l) ← LengthDelimitedReader_poll_close (mr_inner rd); Ret (p, mkMessageReader l).

Definition MessageReader_poll_write_vectored rd (bufs : list (list byte)) :
    outcome (Poll (Result nat ErrorKind) * MessageReader R) :=
  '(p, l) ← LengthDelimitedReader_poll_write_vectored (mr_inner rd) bufs; Ret (p, mkMessageReader l).
End message_io.

(** ** Messages on a reliable connection *)
Section reliable_messages.
Context {R : Type} `{!AsyncIo R} `{!ReliableIo R} `{!Varint u16_max} `{!VarintSpec u16_max}.
Context `{!Varint usize_max} `{!VarintSpec usize_max}.
Implicit Types (ld : LengthDelimited R) (io : MessageIO R) (ms : list Message).

(** The messages that can be sent, and their encoding on the wire. *)
Definition msg_ok (m : Message) : Prop := message_ok m ∧ frame_ok (Message_encode m).
Definition wire ms : list byte := wire_frames (Message_encode <$> ms).

Lemma wire_app ms1 ms2 : wire (ms1 ++ ms2) = wire ms1 ++ wire ms2.
Proof. unfold wire, wire_frames. by rewrite !fmap_app, join_app. Qed.

Lemma wire_cons m ms : wire (m :: ms) = frame_bytes (Message_encode m) ++ wire ms.
Proof. done. Qed.

Lemma wire_singleton m : wire [m] = frame_bytes (Message_encode m).
Proof. unfold wire, wire_frames. simpl. apply app_nil_r. Qed.

Lemma wire_nonempty m ms : msg_ok m → wire (m :: ms) ≠ [].
Proof. intros [_ Hf]. rewrite wire_cons. intros [E _]%app_eq_nil. by eapply frame_bytes_nonempty. Qed.

(** The message at the front of a stream is determined. *)
Lemma wire_inj m1 ms1 m2 t :
  msg_ok m1 → msg_ok m2 → frame_bytes (Message_encode m2) ++ t `prefix_of` wire (m1 :: ms1) →
  m1 = m2 ∧ t `prefix_of` wire ms1.
Proof.
  intros [Hm1 Hf1] [Hm2 Hf2] [k Hk]. rewrite wire_cons, <-app_assoc in Hk.
  destruct (frame_bytes_inj _ _ _ _ Hf1 Hf2 Hk) as [He Ht]. split; [|by exists k].
  apply (f_equal Message_decode) in He. rewrite !Message_decode_encode in He by done. by simplify_eq.
Qed.

(** What [poll_next] answers when the remote sends the messages [ms], of which
    some have not arrived yet. *)
Definition message_result ms ld (p : Poll (option (Result Message ProtocolError))) ld' : Prop :=
  ld_write_buffer ld' = ld_write_buffer ld ∧ io_out (ld_inner ld') = io_out (ld_inner ld) ∧
  io_eof (ld_inner ld') = io_eof (ld_inner ld) ∧ io_cap (ld_inner ld') = io_cap (ld_inner ld) ∧ reader_wf ld' ∧
  match p with
  | Pending => incoming ld' = incoming ld ∧ io_in (ld_inner ld') = [] ∧ io_eof (ld_inner ld) = false ∧
      ∀ m ms', ms = m :: ms' → ¬ wire [m] `prefix_of` incoming ld
  | Ready None => incoming ld = [] ∧ incoming ld' = [] ∧ io_eof (ld_inner ld) = true
  | Ready (Some (Ok m)) => ∃ ms', ms = m :: ms' ∧ incoming ld = wire [m] ++ incoming ld' ∧
      incoming ld' `prefix_of` wire ms' ∧ ld_read_buffer ld' = []
  | Ready (Some (Err _)) => False
  end.

Lemma poll_stream_spec ms ld :
  reader_wf ld → Forall msg_ok ms → incoming ld `prefix_of` wire ms →
  (io_eof (ld_inner ld) = true → ∃ ms1, Forall msg_ok ms1 ∧ incoming ld = wire ms1) →
  ∃ p ld', poll_stream LengthDelimited_poll_next ld = Ret (p, ld') ∧ message_result ms ld p ld'.
Proof.
  intros Hwf Hok Hpre Heof. unfold poll_stream, message_result.
  destruct (poll_next_spec ld Hwf) as (p & ld' & -> & Hwb & Hout & He & Hcap & Hp). simpl.
  destruct p as [[[f|e]|]|].
  - destruct Hp as (Hwf' & Hf & Hin & Hrb). destruct ms as [|m ms].
    { apply prefix_nil_inv in Hpre. rewrite Hpre in Hin. symmetry in Hin. apply app_eq_nil in Hin as [E _].
      by apply frame_bytes_nonempty in E. }
    apply Forall_cons in Hok as [[Hm Hfm] Hok]. rewrite wire_cons in Hpre. destruct Hpre as [k Hk].
    rewrite Hin, <-app_assoc in Hk. destruct (frame_bytes_inj _ _ _ _ Hfm Hf Hk) as [<- Hk'].
    rewrite Message_decode_encode by done. eexists _, _. split; [done|].
    split_and!; [done..|]. exists ms. rewrite wire_singleton. split_and!; [done|done| |done]. by exists k.
  - exfalso. destruct Hp as [(_ & Ht & Hne & Hno)|(_ & Hno)].
    + destruct (Heof Ht) as ([|m ms1] & Hok1 & E); [done|]. apply Forall_cons in Hok1 as [[_ Hf] _].
      apply (Hno _ Hf). rewrite E, wire_cons. by apply prefix_app_r.
    + destruct ms as [|m ms].
      * apply prefix_nil_inv in Hpre. apply (Hno [] []); [by unfold frame_ok; simpl; lia|]. rewrite Hpre. apply prefix_nil.
      * apply Forall_cons in Hok as [[_ Hf] _]. by apply (Hno _ (wire ms) Hf).
  - destruct Hp as (Hwf' & Hi & Hi' & Ht). by eexists _, _.
  - destruct Hp as (Hwf' & Hi & Hi' & Ht & Hno). eexists _, _. split; [done|]. split_and!; [done..|].
    intros m ms' ->. rewrite wire_singleton. apply Forall_cons in Hok as [[_ Hf] _]. by apply Hno.
Qed.

(** Sending and receiving on a [MessageIO].  Sending has to wait only when the
    resource takes no more bytes. *)
Definition io_full io : Prop :=
  io_cap (ld_inner (mio_inner io)) ≤ length (io_out (ld_inner (mio_inner io))).

Lemma mio_poll_ready_spec io :
  ∃ p io', MessageIO_poll_ready io = Ret (p, io') ∧ moved (mio_inner io) (mio_inner io') ∧
    (p = Ready (Ok ()) ∨ p = Pending ∧ io_full io').
Proof.
  unfold MessageIO_poll_ready. destruct (poll_ready_result (mio_inner io)) as (p & ld & -> & Hm & Hp). simpl.
  eexists _, _. split; [done|]. split; [done|]. destruct p as [[[]|]|]; [by left|done|by right].
Qed.

Lemma mio_poll_flush_spec io :
  ∃ p io', MessageIO_poll_flush io = Ret (p, io') ∧ moved (mio_inner io) (mio_inner io') ∧
    (p = Ready (Ok ()) ∧ ld_write_buffer (mio_inner io') = [] ∨ p = Pending ∧ io_full io').
Proof.
  unfold MessageIO_poll_flush. destruct (poll_flush_result (mio_inner io)) as (p & ld & -> & Hm & Hp). simpl.
  eexists _, _. split; [done|]. split; [done|]. destruct p as [[[]|]|]; [by left|done|by right].
Qed.

Lemma mio_start_send_spec io m :
  msg_ok m →
  MessageIO_start_send io m =
    (Ok (), mkMessageIO (set_write_buffer (ld_write_buffer (mio_inner io) ++ wire [m]) (mio_inner io))).
Proof.
  intros [_ Hf]. unfold MessageIO_start_send. pose proof (start_send_result (mio_inner io) (Message_encode m)) as E.
  rewrite decide_True in E by done. rewrite E. by rewrite wire_singleton.
Qed.

Lemma mio_poll_next_spec ms io :
  reader_wf (mio_inner io) → Forall msg_ok ms → incoming (mio_inner io) `prefix_of` wire ms →
  (io_eof (ld_inner (mio_inner io)) = true → ∃ ms1, Forall msg_ok ms1 ∧ incoming (mio_inner io) = wire ms1) →
  ∃ p io', MessageIO_poll_next io = Ret (p, io') ∧ message_result ms (mio_inner io) p (mio_inner io').
Proof.
  intros Hwf Hok Hpre He. unfold MessageIO_poll_next.
  destruct (poll_stream_spec ms (mio_inner io) Hwf Hok Hpre He) as (p & ld & -> & Hr). simpl. eauto.
Qed.

Lemma mio_into_inner_spec io :
  ld_read_buffer (mio_inner io) = [] → ld_write_buffer (mio_inner io) = [] →
  MessageIO_into_inner io = Ret (ld_inner (mio_inner io)).
Proof. intros H1 H2. unfold MessageIO_into_inner, LengthDelimited_into_inner. by rewrite H1, H2. Qed.
End reliable_messages.

#[local] Existing Instances Leb128 Leb128_spec.

(** A list of two protocols, and a message that claims more bytes than there are. *)
Lemma Message_decode_exact_witness :
  (Message_decode [Byte.x03; SLASH; Byte.x61; LF; Byte.x03; SLASH; Byte.x62; LF; LF] =
     Ok (Protocols [mkProtocol [SLASH; Byte.x61]; mkProtocol [SLASH; Byte.x62]]) ↔
   message_ok (Protocols [mkProtocol [SLASH; Byte.x61]; mkProtocol [SLASH; Byte.x62]]) ∧
   [Byte.x03; SLASH; Byte.x61; LF; Byte.x03; SLASH; Byte.x62; LF; LF] =
     Message_encode (Protocols [mkProtocol [SLASH; Byte.x61]; mkProtocol [SLASH; Byte.x62]])) ∧
  Message_decode [Byte.x05; SLASH; Byte.x61; LF; LF] = Err InvalidMessage.
Proof. split; [apply Message_decode_exact|vm_compute; reflexivity]. Defined.
