(* ===== verification/MsNegotiated.v ===== *)
(** * Negotiated streams

    misc/multistream-select/src/negotiated.rs: an I/O stream that has settled on
    a protocol, but may still have to send its proposal and to receive the
    confirmation of the remote. *)

From S2P Require Import Prelude AsyncIo LengthDelimited MsProtocol.

Inductive NegotiationError : Type :=
| NegotiationProtocolError (err : ProtocolError)
| NegotiationFailed.

Definition NegotiationError_from_protocol (err : ProtocolError) : NegotiationError :=
  NegotiationProtocolError err.

Definition NegotiationError_from_io (err : ErrorKind) : NegotiationError :=
  NegotiationError_from_protocol (ProtocolError_from_io err).

(** [From<NegotiationError> for io::Error] *)
Definition io_error_from_negotiation (err : NegotiationError) : ErrorKind :=
  match err with
  | NegotiationProtocolError e => io_error_from_protocol e
  | NegotiationFailed => Other
  end.

Inductive NegotiatedState (R : Type) : Type :=
| Expecting (io : MessageReader R) (header : option HeaderLine) (protocol : Protocol)
| Completed (io : R)
| Invalid.
Arguments Expecting {R} io header protocol.
Arguments Completed {R} io.
Arguments Invalid {R}.

Record Negotiated (R : Type) : Type := mkNegotiated { neg_state : NegotiatedState R }.
Arguments mkNegotiated {R} _.
Arguments neg_state {R} _.

Record NegotiatedComplete (R : Type) : Type := mkNegotiatedComplete { nc_inner : option (Negotiated R) }.
Arguments mkNegotiatedComplete {R} _.
Arguments nc_inner {R} _.

Section negotiated.
Context {R : Type} `{!AsyncIo R} `{!Varint u16_max} `{!Varint usize_max}.
Implicit Types (self : Negotiated R) (st : NegotiatedState R).

Definition Negotiated_completed (io : R) : Negotiated R := mkNegotiated (Completed io).

Definition Negotiated_expecting (io : MessageReader R) (protocol : Protocol) (header : option HeaderLine) :
    Negotiated R :=
  mkNegotiated (Expecting io header protocol).

Definition Negotiated_poll_flush self : outcome (Poll (Result unit ErrorKind) * Negotiated R) :=
  match neg_state self with
  | Completed io => let '(p, io) := poll_flush io in Ret (p, mkNegotiated (Completed io))
  | Expecting io header protocol =>
      '(p, io) ← MessageReader_poll_flush io; Ret (p, mkNegotiated (Expecting io header protocol))
  | Invalid => Panic
  end.

Definition Negotiated_poll_write self (buf : list byte) : outcome (Poll (Result nat ErrorKind) * Negotiated R) :=
  match neg_state self with
  | Completed io => let '(p, io) := poll_write io buf in Ret (p, mkNegotiated (Completed io))
  | Expecting io header protocol =>
      '(p, io) ← MessageReader_poll_write io buf; Ret (p, mkNegotiated (Expecting io header protocol))
  | Invalid => Panic
  end.

Definition Negotiated_poll_write_vectored self (bufs : list (list byte)) :
    outcome (Poll (Result nat ErrorKind) * Negotiated R) :=
  match neg_state self with
  | Completed io => let '(p, io) := poll_write_vectored io bufs in Ret (p, mkNegotiated (Completed io))
  | Expecting io header protocol =>
      '(p, io) ← MessageReader_poll_write_vectored io bufs; Ret (p, mkNegotiated (Expecting io header protocol))
  | Invalid => Panic
  end.

(** The body of the loop of [poll]; the state is left [Invalid] on an early
    return. *)
Definition expect_turn st : outcome (Turn (NegotiatedState R) (Poll (Result unit NegotiationError))) :=
  match st with
  | Expecting io header protocol =>
      '(p, io) ← MessageReader_poll_next io;
      match p with
      | Pending => Ret (Return Pending (Expecting io header protocol))
      | Ready None =>
          Ret (Return (Ready (Err (NegotiationError_from_protocol (IoError UnexpectedEof)))) Invalid)
      | Ready (Some (Err err)) => Ret (Return (Ready (Err (NegotiationError_from_protocol err))) Invalid)
      | Ready (Some (Ok msg)) =>
          let other :=
            match msg with
            | MProtocol p =>
                if bool_decide (protocol_bytes p = protocol_bytes protocol) then
                  io ← MessageReader_into_inner io; Ret (Return (Ready (Ok ())) (Completed io))
                else Ret (Return (Ready (Err NegotiationFailed)) Invalid)
            | _ => Ret (Return (Ready (Err NegotiationFailed)) Invalid)
            end in
          match msg with
          | Header h =>
              if bool_decide (Some h = header) then Ret (Continue (Expecting io None protocol)) else other
          | _ => other
          end
      end
  | _ => Panic
  end.

(** A call takes at most two turns, since the header is accepted only once. *)
Definition Negotiated_poll self : outcome (Poll (Result unit NegotiationError) * Negotiated R) :=
  '(p, self) ← Negotiated_poll_flush self;
  let rest :=
    match neg_state self with
    | Completed _ => Ret (Ready (Ok ()), self)
    | st => '(r, st) ← loop 3 expect_turn st; Ret (r, mkNegotiated st)
    end in
  match p with
  | Ready (Ok ()) => rest
  | Pending => Ret (Pending, self)
  | Ready (Err e) =>
      if negb (bool_decide (e = WriteZero)) then Ret (Ready (Err (NegotiationError_from_io e)), self) else rest
  end.

Definition Negotiated_complete self : NegotiatedComplete R := mkNegotiatedComplete (Some self).

Definition NegotiatedComplete_poll (self : NegotiatedComplete R) :
    outcome (Poll (Result (Negotiated R) NegotiationError) * NegotiatedComplete R) :=
  io ← expect (nc_inner self);
  '(p, io) ← Negotiated_poll io;
  match p with
  | Pending => Ret (Pending, mkNegotiatedComplete (Some io))
  | Ready (Ok ()) => Ret (Ready (Ok io), mkNegotiatedComplete None)
  | Ready (Err err) => Ret (Ready (Err err), mkNegotiatedComplete (Some io))
  end.

(** The loops of [poll_read] and [poll_read_vectored]; [read] is the operation on
    the stream below. *)
Definition read_turn (read : R → Poll (Result (list byte) ErrorKind) * R) self :
    outcome (Turn (Negotiated R) (Poll (Result (list byte) ErrorKind))) :=
  match neg_state self with
  | Completed io => let '(p, io) := read io in Ret (Return p (mkNegotiated (Completed io)))
  | _ =>
      '(p, self) ← Negotiated_poll self;
      match p with
      | Ready (Ok ()) => Ret (Continue self)
      | Pending => Ret (Return Pending self)
      | Ready (Err err) => Ret (Return (Ready (Err (io_error_from_negotiation err))) self)
      end
  end.

Definition Negotiated_poll_read self (n : nat) : outcome (Poll (Result (list byte) ErrorKind) * Negotiated R) :=
  loop 2 (read_turn (λ io, poll_read io n)) self.

Definition Negotiated_poll_read_vectored self (ns : list nat) :
    outcome (Poll (Result (list byte) ErrorKind) * Negotiated R) :=
  loop 2 (read_turn (λ io, poll_read_vectored io ns)) self.

Definition Negotiated_poll_close self : outcome (Poll (Result unit ErrorKind) * Negotiated R) :=
  '(p, self) ← Negotiated_poll self;
  match p with
  | Pending => Ret (Pending, self)
  | Ready (Err err) => Ret (Ready (Err (io_error_from_negotiation err)), self)
  | Ready (Ok ()) =>
      '(p, self) ← Negotiated_poll_flush self;
      match p with
      | Pending => Ret (Pending, self)
      | Ready (Err err) => Ret (Ready (Err err), self)
      | Ready (Ok ()) =>
          match neg_state self with
          | Completed io => let '(p, io) := poll_close io in Ret (p, mkNegotiated (Completed io))
          | Expecting io header protocol =>
              '(p, io) ← MessageReader_poll_close io; Ret (p, mkNegotiated (Expecting io header protocol))
          | Invalid => Panic
          end
      end
  end.
End negotiated.
