(* ===== verification/MsSelect.v ===== *)
(** * Protocol selection

    The two sides of a negotiation: the dialer, which proposes protocols one
    after the other or asks for the list of supported protocols
    (misc/multistream-select/src/dialer_select.rs), and the listener
    (misc/multistream-select/src/listener_select.rs).  Both are futures: state
    machines that run until they have to wait for I/O. *)

From S2P Require Import Prelude AsyncIo LengthDelimited MsProtocol MsNegotiated.

(** ** The dialer, one protocol after the other *)

Inductive SeqState (R N : Type) : Type :=
| SeqSendHeader (io : MessageIO R)
| SeqSendProtocol (io : MessageIO R) (protocol : N)
| SeqFlushProtocol (io : MessageIO R) (protocol : N)
| SeqAwaitProtocol (io : MessageIO R) (protocol : N)
| SeqDone.
Arguments SeqSendHeader {R N} io.
Arguments SeqSendProtocol {R N} io protocol.
Arguments SeqFlushProtocol {R N} io protocol.
Arguments SeqAwaitProtocol {R N} io protocol.
Arguments SeqDone {R N}.

(** [iter::Peekable] over a list of names is the list of those to come. *)
Record DialerSelectSeq (R N : Type) : Type := mkDialerSelectSeq {
  seq_protocols : list N;
  seq_state : SeqState R N;
  seq_version : Version;
}.
Arguments mkDialerSelectSeq {R N} _ _ _.
Arguments seq_protocols {R N} _.
Arguments seq_state {R N} _.
Arguments seq_version {R N} _.

Inductive ParState (R N : Type) : Type :=
| ParSendHeader (io : MessageIO R)
| ParSendProtocolsRequest (io : MessageIO R)
| ParFlush (io : MessageIO R)
| ParRecvProtocols (io : MessageIO R)
| ParSendProtocol (io : MessageIO R) (protocol : N)
| ParDone.
Arguments ParSendHeader {R N} io.
Arguments ParSendProtocolsRequest {R N} io.
Arguments ParFlush {R N} io.
Arguments ParRecvProtocols {R N} io.
Arguments ParSendProtocol {R N} io protocol.
Arguments ParDone {R N}.

Record DialerSelectPar (R N : Type) : Type := mkDialerSelectPar {
  par_protocols : list N;
  par_state : ParState R N;
  par_version : Version;
}.
Arguments mkDialerSelectPar {R N} _ _ _.
Arguments par_protocols {R N} _.
Arguments par_state {R N} _.
Arguments par_version {R N} _.

Inductive LState (R N : Type) : Type :=
| LRecvHeader (io : MessageIO R)
| LSendHeader (io : MessageIO R)
| LRecvMessage (io : MessageIO R)
| LSendMessage (io : MessageIO R) (message : Message) (protocol : option N)
| LFlush (io : MessageIO R) (protocol : option N)
| LDone.
Arguments LRecvHeader {R N} io.
Arguments LSendHeader {R N} io.
Arguments LRecvMessage {R N} io.
Arguments LSendMessage {R N} io message protocol.
Arguments LFlush {R N} io protocol.
Arguments LDone {R N}.

Record ListenerSelectFuture (R N : Type) : Type := mkListenerSelectFuture {
  lst_protocols : list (N * Protocol);
  lst_state : LState R N;
  lst_last_sent_na : bool;
}.
Arguments mkListenerSelectFuture {R N} _ _ _.
Arguments lst_protocols {R N} _.
Arguments lst_state {R N} _.
Arguments lst_last_sent_na {R N} _.

Section select.
Context {R : Type} `{!AsyncIo R} `{!Varint u16_max} `{!Varint usize_max}.
(** Names of protocols and their bytes ([AsRef<[u8]>]). *)
Context {N : Type} (as_ref : N → list byte).

(** What the futures resolve to. *)
Abbreviation SelectResult := (Result (N * Negotiated R) NegotiationError).

Abbreviation from_protocol_error := NegotiationError_from_protocol.

Definition dialer_select_proto_serial (inner : R) (protocols : list N) (version : Version) : DialerSelectSeq R N :=
  mkDialerSelectSeq protocols (SeqSendHeader (MessageIO_new inner)) version.

Definition dialer_select_proto_parallel (inner : R) (protocols : list N) (version : Version) : DialerSelectPar R N :=
  mkDialerSelectPar protocols (ParSendHeader (MessageIO_new inner)) version.

(** [DialerSelectFuture] is [Either<DialerSelectSeq, DialerSelectPar>]; the size
    of a list is known exactly. *)
Definition dialer_select_proto (inner : R) (protocols : list N) (version : Version) :
    DialerSelectSeq R N + DialerSelectPar R N :=
  if decide (length protocols ≤ 3) then inl (dialer_select_proto_serial inner protocols version)
  else inr (dialer_select_proto_parallel inner protocols version).

(** [mem::replace(this.state, Done)] at the start of a turn: unless a state is
    set again, [Done] remains. *)
Definition seq_set (this : DialerSelectSeq R N) (protocols : list N) (st : SeqState R N) : DialerSelectSeq R N :=
  mkDialerSelectSeq protocols st (seq_version this).

Definition seq_turn (this : DialerSelectSeq R N) :
    outcome (Turn (DialerSelectSeq R N) (Poll SelectResult)) :=
  let ps := seq_protocols this in
  let fail (e : NegotiationError) := Ret (Return (Ready (Err e)) (seq_set this ps SeqDone)) in
  match seq_state this with
  | SeqSendHeader io =>
      '(p, io) ← MessageIO_poll_ready io;
      match p with
      | Ready (Err e) => fail (from_protocol_error e)
      | Pending => Ret (Return Pending (seq_set this ps (SeqSendHeader io)))
      | Ready (Ok ()) =>
          match MessageIO_start_send io (Header (HeaderLine_from (seq_version this))) with
          | (Err err, _) => fail (from_protocol_error err)
          | (Ok _, io) =>
              match ps with
              | [] => fail NegotiationFailed
              | protocol :: ps => Ret (Continue (seq_set this ps (SeqSendProtocol io protocol)))
              end
          end
      end
  | SeqSendProtocol io protocol =>
      '(p, io) ← MessageIO_poll_ready io;
      match p with
      | Ready (Err e) => fail (from_protocol_error e)
      | Pending => Ret (Return Pending (seq_set this ps (SeqSendProtocol io protocol)))
      | Ready (Ok ()) =>
          match Protocol_try_from (as_ref protocol) with
          | Err e => fail (from_protocol_error e)
          | Ok p =>
              match MessageIO_start_send io (MProtocol p) with
              | (Err err, _) => fail (from_protocol_error err)
              | (Ok _, io) =>
                  match ps, seq_version this with
                  | _ :: _, _ | [], VersionV1 =>
                      Ret (Continue (seq_set this ps (SeqFlushProtocol io protocol)))
                  | [], VersionV1Lazy =>
                      let hl := HeaderLine_from VersionV1Lazy in
                      let io := Negotiated_expecting (MessageIO_into_reader io) p (Some hl) in
                      Ret (Return (Ready (Ok (protocol, io))) (seq_set this ps SeqDone))
                  end
              end
          end
      end
  | SeqFlushProtocol io protocol =>
      '(p, io) ← MessageIO_poll_flush io;
      match p with
      | Ready (Err e) => fail (from_protocol_error e)
      | Ready (Ok ()) => Ret (Continue (seq_set this ps (SeqAwaitProtocol io protocol)))
      | Pending => Ret (Return Pending (seq_set this ps (SeqFlushProtocol io protocol)))
      end
  | SeqAwaitProtocol io protocol =>
      '(p, io) ← MessageIO_poll_next io;
      match p with
      | Ready (Some (Err e)) => fail (from_protocol_error e)
      | Pending => Ret (Return Pending (seq_set this ps (SeqAwaitProtocol io protocol)))
      | Ready None => fail NegotiationFailed
      | Ready (Some (Ok msg)) =>
          let invalid := fail (from_protocol_error InvalidMessage) in
          match msg with
          | Header v =>
              if bool_decide (v = HeaderLine_from (seq_version this))
              then Ret (Continue (seq_set this ps (SeqAwaitProtocol io protocol)))
              else invalid
          | MProtocol p =>
              if bool_decide (protocol_bytes p = as_ref protocol) then
                io ← MessageIO_into_inner io;
                Ret (Return (Ready (Ok (protocol, Negotiated_completed io))) (seq_set this ps SeqDone))
              else invalid
          | NotAvailable =>
              match ps with
              | [] => fail NegotiationFailed
              | protocol :: ps => Ret (Continue (seq_set this ps (SeqSendProtocol io protocol)))
              end
          | _ => invalid
          end
      end
  | SeqDone => Panic
  end.

(** [fuel] bounds the turns of the loop: three for every proposal, and one for
    every header that the remote sends. *)
Definition DialerSelectSeq_poll (fuel : nat) (this : DialerSelectSeq R N) :
    outcome (Poll SelectResult * DialerSelectSeq R N) :=
  loop fuel seq_turn this.

Definition par_set (this : DialerSelectPar R N) (protocols : list N) (st : ParState R N) : DialerSelectPar R N :=
  mkDialerSelectPar protocols st (par_version this).

(** [Iterator::find] on the protocols, which consumes those that are skipped. *)
Fixpoint find_supported (supported : list Protocol) (protocols : list N) : option N * list N :=
  match protocols with
  | [] => (None, [])
  | p :: protocols =>
      if existsb (λ s, bool_decide (protocol_bytes s = as_ref p)) supported then (Some p, protocols)
      else find_supported supported protocols
  end.

Definition par_turn (this : DialerSelectPar R N) :
    outcome (Turn (DialerSelectPar R N) (Poll SelectResult)) :=
  let ps := par_protocols this in
  let fail (e : NegotiationError) := Ret (Return (Ready (Err e)) (par_set this ps ParDone)) in
  match par_state this with
  | ParSendHeader io =>
      '(p, io) ← MessageIO_poll_ready io;
      match p with
      | Ready (Err e) => fail (from_protocol_error e)
      | Pending => Ret (Return Pending (par_set this ps (ParSendHeader io)))
      | Ready (Ok ()) =>
          match MessageIO_start_send io (Header (HeaderLine_from (par_version this))) with
          | (Err err, _) => fail (from_protocol_error err)
          | (Ok _, io) => Ret (Continue (par_set this ps (ParSendProtocolsRequest io)))
          end
      end
  | ParSendProtocolsRequest io =>
      '(p, io) ← MessageIO_poll_ready io;
      match p with
      | Ready (Err e) => fail (from_protocol_error e)
      | Pending => Ret (Return Pending (par_set this ps (ParSendProtocolsRequest io)))
      | Ready (Ok ()) =>
          match MessageIO_start_send io ListProtocols with
          | (Err err, _) => fail (from_protocol_error err)
          | (Ok _, io) => Ret (Continue (par_set this ps (ParFlush io)))
          end
      end
  | ParFlush io =>
      '(p, io) ← MessageIO_poll_flush io;
      match p with
      | Ready (Err e) => fail (from_protocol_error e)
      | Ready (Ok ()) => Ret (Continue (par_set this ps (ParRecvProtocols io)))
      | Pending => Ret (Return Pending (par_set this ps (ParFlush io)))
      end
  | ParRecvProtocols io =>
      '(p, io) ← MessageIO_poll_next io;
      match p with
      | Ready (Some (Err e)) => fail (from_protocol_error e)
      | Pending => Ret (Return Pending (par_set this ps (ParRecvProtocols io)))
      | Ready None => fail NegotiationFailed
      | Ready (Some (Ok msg)) =>
          let invalid := fail (from_protocol_error InvalidMessage) in
          match msg with
          | Header h =>
              if bool_decide (h = HeaderLine_from (par_version this))
              then Ret (Continue (par_set this ps (ParRecvProtocols io)))
              else invalid
          | Protocols supported =>
              match find_supported supported ps with
              | (None, ps) => Ret (Return (Ready (Err NegotiationFailed)) (par_set this ps ParDone))
              | (Some protocol, ps) => Ret (Continue (par_set this ps (ParSendProtocol io protocol)))
              end
          | _ => invalid
          end
      end
  | ParSendProtocol io protocol =>
      '(p, io) ← MessageIO_poll_ready io;
      match p with
      | Ready (Err e) => fail (from_protocol_error e)
      | Pending => Ret (Return Pending (par_set this ps (ParSendProtocol io protocol)))
      | Ready (Ok ()) =>
          match Protocol_try_from (as_ref protocol) with
          | Err e => fail (from_protocol_error e)
          | Ok p =>
              match MessageIO_start_send io (MProtocol p) with
              | (Err err, _) => fail (from_protocol_error err)
              | (Ok _, io) =>
                  let io := Negotiated_expecting (MessageIO_into_reader io) p None in
                  Ret (Return (Ready (Ok (protocol, io))) (par_set this ps ParDone))
              end
          end
      end
  | ParDone => Panic
  end.

Definition DialerSelectPar_poll (fuel : nat) (this : DialerSelectPar R N) :
    outcome (Poll SelectResult * DialerSelectPar R N) :=
  loop fuel par_turn this.

(** ** The listener *)

Definition listener_protocols (protocols : list N) : list (N * Protocol) :=
  omap (λ n, match Protocol_try_from (as_ref n) with Ok p => Some (n, p) | Err _ => None end) protocols.

Definition listener_select_proto (inner : R) (protocols : list N) : ListenerSelectFuture R N :=
  mkListenerSelectFuture (listener_protocols protocols) (LRecvHeader (MessageIO_new inner)) false.

Definition lst_set (this : ListenerSelectFuture R N) (na : bool) (st : LState R N) : ListenerSelectFuture R N :=
  mkListenerSelectFuture (lst_protocols this) st na.

(** The first supported protocol that is equal to the proposed one. *)
Definition find_protocol (protocols : list (N * Protocol)) (p : Protocol) : option N :=
  fst <$> find (λ '(_, proto), bool_decide (p = proto)) protocols.

(** The error after reading has failed: garbage or an early end of the stream
    after a rejection is a failed negotiation. *)
Definition recv_error (last_sent_na : bool) (err : ProtocolError) : NegotiationError :=
  if last_sent_na && (bool_decide (err = InvalidMessage) || bool_decide (err = IoError UnexpectedEof))
  then NegotiationFailed
  else from_protocol_error err.

Definition listener_turn (this : ListenerSelectFuture R N) :
    outcome (Turn (ListenerSelectFuture R N) (Poll SelectResult)) :=
  let na := lst_last_sent_na this in
  let fail (e : NegotiationError) := Ret (Return (Ready (Err e)) (lst_set this na LDone)) in
  match lst_state this with
  | LRecvHeader io =>
      '(p, io) ← MessageIO_poll_next io;
      match p with
      | Ready (Some (Ok (Header HeaderV1))) => Ret (Continue (lst_set this na (LSendHeader io)))
      | Ready (Some (Ok _)) => fail (from_protocol_error InvalidMessage)
      | Ready (Some (Err err)) => fail (from_protocol_error err)
      | Ready None => fail NegotiationFailed
      | Pending => Ret (Return Pending (lst_set this na (LRecvHeader io)))
      end
  | LSendHeader io =>
      '(p, io) ← MessageIO_poll_ready io;
      match p with
      | Pending => Ret (Return Pending (lst_set this na (LSendHeader io)))
      | Ready (Err err) => fail (from_protocol_error err)
      | Ready (Ok ()) =>
          match MessageIO_start_send io (Header HeaderV1) with
          | (Err err, _) => fail (from_protocol_error err)
          | (Ok _, io) => Ret (Continue (lst_set this na (LFlush io None)))
          end
      end
  | LRecvMessage io =>
      '(p, io) ← MessageIO_poll_next io;
      match p with
      | Ready None => fail NegotiationFailed
      | Pending => Ret (Return Pending (lst_set this na (LRecvMessage io)))
      | Ready (Some (Err err)) => fail (recv_error na err)
      | Ready (Some (Ok msg)) =>
          match msg with
          | ListProtocols =>
              let supported := snd <$> lst_protocols this in
              Ret (Continue (lst_set this na (LSendMessage io (Protocols supported) None)))
          | MProtocol p =>
              let protocol := find_protocol (lst_protocols this) p in
              let message := match protocol with Some _ => MProtocol p | None => NotAvailable end in
              Ret (Continue (lst_set this na (LSendMessage io message protocol)))
          | _ => fail (from_protocol_error InvalidMessage)
          end
      end
  | LSendMessage io message protocol =>
      '(p, io) ← MessageIO_poll_ready io;
      match p with
      | Pending => Ret (Return Pending (lst_set this na (LSendMessage io message protocol)))
      | Ready (Err err) => fail (from_protocol_error err)
      | Ready (Ok ()) =>
          let na := bool_decide (message = NotAvailable) in
          match MessageIO_start_send io message with
          | (Err err, _) => Ret (Return (Ready (Err (from_protocol_error err))) (lst_set this na LDone))
          | (Ok _, io) => Ret (Continue (lst_set this na (LFlush io protocol)))
          end
      end
  | LFlush io protocol =>
      '(p, io) ← MessageIO_poll_flush io;
      match p with
      | Pending => Ret (Return Pending (lst_set this na (LFlush io protocol)))
      | Ready (Err err) => fail (from_protocol_error err)
      | Ready (Ok ()) =>
          match protocol with
          | Some protocol =>
              io ← MessageIO_into_inner io;
              Ret (Return (Ready (Ok (protocol, Negotiated_completed io))) (lst_set this na LDone))
          | None => Ret (Continue (lst_set this na (LRecvMessage io)))
          end
      end
  | LDone => Panic
  end.

Definition ListenerSelectFuture_poll (fuel : nat) (this : ListenerSelectFuture R N) :
    outcome (Poll SelectResult * ListenerSelectFuture R N) :=
  loop fuel listener_turn this.
End select.
