(* ===== verification/MsNegotiation.v ===== *)
(** * Protocol negotiation between a dialer and a listener

    The two futures of [MsSelect] connected by a network that delivers bytes in
    order, in portions of any size, and that accepts bytes as it has room for
    them.  Whatever the order in which the futures are polled and bytes are
    delivered, both sides settle on the first protocol of the dialer that the
    listener supports, or both fail if there is none. *)

From S2P Require Import Prelude AsyncIo LengthDelimited MsProtocol MsNegotiated MsSelect.

#[local] Opaque MessageIO_start_send MessageIO_poll_ready MessageIO_poll_flush MessageIO_poll_next
  MessageIO_into_inner.

Section negotiation.
Context `{!Varint u16_max} `{!VarintSpec u16_max} `{!Varint usize_max} `{!VarintSpec usize_max}.
Context {N : Type} (as_ref : N → list byte).
(** The protocols of the dialer and of the listener. *)
Context (ps qs : list N).

Definition proto (n : N) : Protocol := mkProtocol (as_ref n).

Definition supported (n : N) : bool :=
  match find_protocol (listener_protocols as_ref qs) (proto n) with Some _ => true | None => false end.

(** A protocol that can be proposed: its name starts with a slash, has no line
    feed, is not the header, and is not too long. *)
Definition proposable (n : N) : Prop := msg_ok (MProtocol (proto n)).

(** What the dialer sends and what the listener answers, after the headers. *)
Fixpoint proposals (l : list N) : list Message :=
  match l with
  | [] => []
  | n :: l => MProtocol (proto n) :: if supported n then [] else proposals l
  end.

Fixpoint answers (l : list N) : list Message :=
  match l with
  | [] => []
  | n :: l => if supported n then [MProtocol (proto n)] else NotAvailable :: answers l
  end.

Definition dialer_messages : list Message := Header HeaderV1 :: proposals ps.
Definition listener_messages : list Message := Header HeaderV1 :: answers ps.

Context (Hps : Forall proposable ps).

Lemma msg_ok_header : msg_ok (Header HeaderV1).
Proof. split; [done|]. unfold frame_ok. vm_compute. done. Qed.
Lemma msg_ok_na : msg_ok NotAvailable.
Proof. split; [done|]. unfold frame_ok. vm_compute. done. Qed.
#[local] Hint Resolve msg_ok_header msg_ok_na : core.

Lemma proposals_ok l : Forall proposable l → Forall msg_ok (proposals l).
Proof. induction 1; simpl; constructor; [done|]. by destruct (supported x). Qed.

Lemma answers_ok l : Forall proposable l → Forall msg_ok (answers l).
Proof. induction 1; simpl; [constructor|]. destruct (supported x); (constructor; [done|]); [constructor|done]. Qed.

Lemma dialer_messages_ok : Forall msg_ok dialer_messages.
Proof. constructor; [done|by apply proposals_ok]. Qed.
Lemma listener_messages_ok : Forall msg_ok listener_messages.
Proof. constructor; [done|by apply answers_ok]. Qed.

Abbreviation rejected l := (Forall (λ n, supported n = false) l).

Lemma proposals_rejected l k : rejected l → proposals (l ++ k) = (MProtocol ∘ proto <$> l) ++ proposals k.
Proof. induction 1 as [|n l Hn _ IH]; simpl; [done|]. by rewrite Hn, IH. Qed.

Lemma answers_rejected l k : rejected l → answers (l ++ k) = (const NotAvailable <$> l) ++ answers k.
Proof. induction 1 as [|n l Hn _ IH]; simpl; [done|]. by rewrite Hn, IH. Qed.

Lemma find_rejected l k : rejected l → find supported (l ++ k) = find supported k.
Proof. induction 1 as [|n l Hn _ IH]; simpl; [done|]. by rewrite Hn. Qed.

Section sides.
Context {R : Type} `{!AsyncIo R} `{!ReliableIo R}.
Implicit Types (io : MessageIO R) (K : nat * bool) (O B : list byte) (c : list Message).

(** The state of a connection: [B] are the bytes that have arrived so far, of
    which the messages [c] have been read, [O] are bytes known to have been
    written, and [K] says how many bytes may be written before writing has to
    wait and whether the remote has closed its side. *)
Definition link K O B c io : Prop :=
  reader_wf (mio_inner io) ∧ O `prefix_of` io_out (ld_inner (mio_inner io)) ∧
  (io_cap (ld_inner (mio_inner io)), io_eof (ld_inner (mio_inner io))) = K ∧ wire c ++ incoming (mio_inner io) = B.

Abbreviation sent io := (outgoing (mio_inner io)).
Abbreviation eof io := (io_eof (ld_inner (mio_inner io))).

Lemma link_moved K O B c io io' : link K O B c io → moved (mio_inner io) (mio_inner io') → link K O B c io'.
Proof.
  intros (Hwf & HO & HK & HB) Hm. split_and!.
  - by eapply moved_wf.
  - etrans; [done|apply Hm].
  - by rewrite (moved_cap _ _ Hm), (moved_eof _ _ Hm).
  - by rewrite (moved_incoming _ _ Hm).
Qed.

(** What has been written is a part of what has been sent. *)
Lemma link_sent K O B c io ms : link K O B c io → sent io = wire ms → O `prefix_of` wire ms.
Proof. intros (_ & HO & _ & _) <-. etrans; [done|]. by apply prefix_app_r. Qed.

Lemma wire_prefix ms1 ms2 : ms1 `prefix_of` ms2 → wire ms1 `prefix_of` wire ms2.
Proof. intros [k ->]. rewrite wire_app. by apply prefix_app_r. Qed.

Lemma link_send K O B c io wb : link K O B c io → link K O B c (mkMessageIO (set_write_buffer wb (mio_inner io))).
Proof. done. Qed.

Lemma incoming_send (ld : LengthDelimited R) wb : incoming (set_write_buffer wb ld) = incoming ld.
Proof. done. Qed.

Lemma sent_moved io io' : moved (mio_inner io) (mio_inner io') → sent io' = sent io.
Proof. intros Hm. apply Hm. Qed.

Lemma sent_send io m ms :
  sent io = wire ms →
  sent (mkMessageIO (set_write_buffer (ld_write_buffer (mio_inner io) ++ wire [m]) (mio_inner io))) = wire (ms ++ [m]).
Proof. intros Hs. unfold outgoing in *. simpl. by rewrite app_assoc, Hs, wire_app. Qed.

(** There is room for more than what has been sent. *)
Lemma link_not_full K O B c io l :
  link K O B c io → sent io `prefix_of` l → length l < K.1 → ¬ io_full io.
Proof.
  intros (_ & _ & <- & _) Hs%prefix_length Hlt Hfull. unfold io_full in Hfull. simpl in Hlt.
  unfold outgoing in Hs. rewrite length_app in Hs. lia.
Qed.

Lemma link_rest K O B c rem io :
  link K O B c io → B `prefix_of` wire (c ++ rem) → incoming (mio_inner io) `prefix_of` wire rem.
Proof. intros (_ & _ & _ & <-) Hpre. rewrite wire_app in Hpre. by apply prefix_app_inv in Hpre. Qed.

Lemma link_read K O B c rem io p io' :
  link K O B c io → message_result rem (mio_inner io) p (mio_inner io') →
  sent io' = sent io ∧ eof io' = eof io ∧ ld_write_buffer (mio_inner io') = ld_write_buffer (mio_inner io) ∧
  match p with
  | Pending => link K O B c io'
  | Ready (Some (Ok m)) => link K O B (c ++ [m]) io' ∧
      length (incoming (mio_inner io')) + length (wire [m]) = length (incoming (mio_inner io))
  | _ => True
  end.
Proof.
  intros (Hwf & HO & HK & HB) (Hwb & Hout & He & Hcap & Hwf' & Hp).
  split_and!; [unfold outgoing; by rewrite Hwb, Hout|done|done|]. destruct p as [[[m|]|]|]; [|done|done|].
  - destruct Hp as (ms' & -> & Hin & _ & _). split.
    + split_and!; [done|by rewrite Hout|by rewrite Hcap, He|]. by rewrite wire_app, <-app_assoc, <-Hin.
    + rewrite Hin, length_app. lia.
  - destruct Hp as (Hin & _). split_and!; [done|by rewrite Hout|by rewrite Hcap, He|]. by rewrite Hin.
Qed.

Arguments link_moved {K O B c io io'} Hl Hm : rename.
Arguments link_sent {K O B c io ms} Hl Hs : rename.
Arguments link_rest {K O B c rem io} Hl Hpre : rename.
Arguments link_read {K O B c rem io p io'} Hl Hr : rename.

(** ** The dialer *)

Implicit Types (d : DialerSelectSeq R N).

(** The dialer proposes [p]; the protocols [dn] have been rejected, and [c] are
    the messages read so far. *)
Definition proposing K O B (p : N) (rest dn : list N) c io : Prop :=
  link K O B c io ∧ eof io = false ∧ ps = dn ++ p :: rest ∧ rejected dn ∧
  ∃ hs, (hs = [] ∨ hs = [Header HeaderV1]) ∧ c ++ hs ++ answers (p :: rest) = listener_messages.

Definition proposed (dn : list N) : list Message := Header HeaderV1 :: (MProtocol ∘ proto <$> dn).

Definition replied (dn : list N) : list Message := Header HeaderV1 :: (const NotAvailable <$> dn).

Definition dialer_inv K O B d : Prop :=
  seq_version d = VersionV1 ∧
  match seq_state d with
  | SeqSendHeader io => link K O B [] io ∧ eof io = false ∧ seq_protocols d = ps ∧ sent io = []
  | SeqSendProtocol io p => ∃ dn c, proposing K O B p (seq_protocols d) dn c io ∧ sent io = wire (proposed dn)
  | SeqFlushProtocol io p => ∃ dn c, proposing K O B p (seq_protocols d) dn c io ∧ sent io = wire (proposed (dn ++ [p]))
  | SeqAwaitProtocol io p => ∃ dn c, proposing K O B p (seq_protocols d) dn c io ∧ sent io = wire (proposed (dn ++ [p])) ∧
      ld_write_buffer (mio_inner io) = []
  | SeqDone => False
  end.

(** How the dialer ends. *)
Definition dialer_done O B (res : Result (N * Negotiated R) NegotiationError) : Prop :=
  B = wire listener_messages ∧ O `prefix_of` wire dialer_messages ∧
  match res with
  | Ok (n, mkNegotiated (Completed r)) => find supported ps = Some n ∧ io_in r = [] ∧ io_out r = wire dialer_messages
  | Err NegotiationFailed => find supported ps = None
  | _ => False
  end.

Definition dialer_io d : option (MessageIO R) :=
  match seq_state d with
  | SeqSendHeader io | SeqSendProtocol io _ | SeqFlushProtocol io _ | SeqAwaitProtocol io _ => Some io
  | SeqDone => None
  end.

Definition dialer_turns d : nat :=
  4 * length (seq_protocols d) + map_or 0 (λ io, length (incoming (mio_inner io))) (dialer_io d) +
  match seq_state d with
  | SeqSendHeader _ => 4 | SeqSendProtocol _ _ => 3 | SeqFlushProtocol _ _ => 2 | SeqAwaitProtocol _ _ => 1 | SeqDone => 0
  end.

(** The dialer waits for the answer to its [k]-th proposal, which has been
    written. *)
Definition dialer_waits B d : Prop :=
  ∃ io k, dialer_io d = Some io ∧ 1 ≤ k ≤ length (proposals ps) ∧
    io_out (ld_inner (mio_inner io)) = wire (take (S k) dialer_messages) ∧
    ¬ wire (take (S k) listener_messages) `prefix_of` B.

(** What a turn of the dialer may do.  It has to wait for an answer only if the
    network takes all bytes. *)
Definition dialer_turn_ok K O B d (t : Turn (DialerSelectSeq R N) (Poll (Result (N * Negotiated R) NegotiationError))) : Prop :=
  match t with
  | Continue d' => dialer_inv K O B d' ∧ dialer_turns d' < dialer_turns d
  | Return Pending d' => dialer_inv K O B d' ∧ (length (wire dialer_messages) < K.1 → dialer_waits B d')
  | Return (Ready res) _ => dialer_done O B res
  end.

Lemma try_from_proto p : proposable p → Protocol_try_from (as_ref p) = Ok (proto p).
Proof. intros [[Hn _] _]. by apply Protocol_try_from_Ok. Qed.

Lemma proposing_moved K O B p rest dn c io io' :
  proposing K O B p rest dn c io → moved (mio_inner io) (mio_inner io') → proposing K O B p rest dn c io'.
Proof.
  intros (Hl & He & Hr) Hm. split; [by eapply link_moved|]. split; [|done]. by rewrite (moved_eof _ _ Hm).
Qed.

Arguments proposing_moved {K O B p rest dn c io io'} Hp Hm : rename.

Lemma proposed_prefix dn p rest :
  ps = dn ++ p :: rest → rejected dn → proposed (dn ++ [p]) `prefix_of` dialer_messages.
Proof.
  intros Eps Hdn. unfold dialer_messages, proposed. rewrite Eps, proposals_rejected, fmap_app by done. simpl.
  exists (if supported p then [] else proposals rest). simpl. by rewrite <-app_assoc.
Qed.

Lemma dialer_send_header K O B rest io (d := mkDialerSelectSeq rest (SeqSendHeader io) VersionV1) :
  ps ≠ [] → dialer_inv K O B d → ∃ t, seq_turn as_ref d = Ret t ∧ dialer_turn_ok K O B d t.
Proof.
  intros Hne [_ (Hl & He & Hpr & Hs)]. simpl in *. subst rest.
  destruct (mio_poll_ready_spec io) as (p & io' & E & Hm & Hp). unfold seq_turn, d; simpl. rewrite E; simpl. clear E.
  pose proof (link_moved Hl Hm) as Hl'. rewrite <-(sent_moved _ _ Hm) in Hs.
  rewrite <-(moved_eof _ _ Hm) in He. destruct Hp as [-> | [-> Hfull]].
  2: { eexists. split; [done|]. split; [by split|]. intros HK. exfalso.
       eapply link_not_full; [exact Hl'|rewrite Hs; apply prefix_nil|exact HK|done]. }
  rewrite mio_start_send_spec by apply msg_ok_header. destruct ps as [|p rest] eqn:Eps; [done|].
  eexists. split; [done|]. split.
  - split; [done|]. simpl. exists [], []. split; [|by apply (sent_send io' _ [])].
    split_and!; [done|done|done|constructor|]. exists [Header HeaderV1]. rewrite <-Eps. unfold listener_messages.
    rewrite Eps. auto.
  - unfold dialer_turns, d. simpl. rewrite !incoming_send, (moved_incoming _ _ Hm). lia.
Qed.

Lemma dialer_send_protocol K O B p rest io (d := mkDialerSelectSeq rest (SeqSendProtocol io p) VersionV1) :
  dialer_inv K O B d → ∃ t, seq_turn as_ref d = Ret t ∧ dialer_turn_ok K O B d t.
Proof.
  intros [_ (dn & c & Hp & Hs)]. simpl in *.
  destruct (mio_poll_ready_spec io) as (r & io' & E & Hm & Hr). unfold seq_turn, d; simpl. rewrite E; simpl. clear E.
  pose proof (proposing_moved Hp Hm) as Hp'. rewrite <-(sent_moved _ _ Hm) in Hs.
  destruct Hr as [-> | [-> Hfull]].
  2: { eexists. split; [done|]. split; [split; [done|]; by exists dn, c|]. intros HK. exfalso.
       eapply link_not_full; [apply Hp'| |exact HK|done]. rewrite Hs. apply wire_prefix.
       etrans; [|eapply proposed_prefix; apply Hp]. unfold proposed. rewrite fmap_app. by eexists. }
  assert (proposable p) as Hok.
  { destruct Hp as (_ & _ & E & _). rewrite E in Hps. by apply Forall_app in Hps as [_ [? _]%Forall_cons]. }
  rewrite try_from_proto, mio_start_send_spec by done.
  assert (dialer_turn_ok K O B d (Continue (mkDialerSelectSeq rest (SeqFlushProtocol
    (mkMessageIO (set_write_buffer (ld_write_buffer (mio_inner io') ++ wire [MProtocol (proto p)]) (mio_inner io'))) p) VersionV1)))
    as Hok'; [|destruct rest; by eexists].
  split.
  - split; [done|]. exists dn, c. split; [done|]. rewrite (sent_send _ _ (proposed dn)) by done.
    unfold proposed. by rewrite fmap_app.
  - unfold dialer_turns, d. simpl. rewrite !incoming_send, (moved_incoming _ _ Hm). lia.
Qed.

Lemma dialer_flush_protocol K O B p rest io (d := mkDialerSelectSeq rest (SeqFlushProtocol io p) VersionV1) :
  dialer_inv K O B d → ∃ t, seq_turn as_ref d = Ret t ∧ dialer_turn_ok K O B d t.
Proof.
  intros [_ (dn & c & Hp & Hs)]. simpl in *.
  destruct (mio_poll_flush_spec io) as (r & io' & E & Hm & Hr). unfold seq_turn, d; simpl. rewrite E; simpl. clear E.
  pose proof (proposing_moved Hp Hm) as Hp'. rewrite <-(sent_moved _ _ Hm) in Hs.
  destruct Hr as [[-> Hwb] | [-> Hfull]].
  2: { eexists. split; [done|]. split; [split; [done|]; by exists dn, c|]. intros HK. exfalso.
       eapply link_not_full; [apply Hp'| |exact HK|done]. rewrite Hs. apply wire_prefix.
       eapply proposed_prefix; apply Hp. }
  eexists. split; [done|]. split.
  - split; [done|]. by exists dn, c.
  - unfold dialer_turns, d. simpl. rewrite (moved_incoming _ _ Hm). lia.
Qed.

Lemma listener_messages_split dn rest : ps = dn ++ rest → rejected dn → replied dn ++ answers rest = listener_messages.
Proof. intros Eps Hdn. unfold listener_messages, replied. by rewrite Eps, answers_rejected. Qed.

(** The answer to the proposal [p] has not arrived as a whole. *)
Lemma dialer_waits_await B dn p rest c hs (inc : list byte) :
  ps = dn ++ p :: rest → rejected dn → c ++ hs ++ answers (p :: rest) = listener_messages →
  (∀ m ms', hs ++ answers (p :: rest) = m :: ms' → ¬ wire [m] `prefix_of` inc) → B = wire c ++ inc →
  1 ≤ S (length dn) ≤ length (proposals ps) ∧
  wire (proposed (dn ++ [p])) = wire (take (S (S (length dn))) dialer_messages) ∧
  ¬ wire (take (S (S (length dn))) listener_messages) `prefix_of` B.
Proof.
  intros Eps Hdn Hc Hno ->. split_and!; [lia| | |].
  - rewrite Eps, proposals_rejected, length_app, length_fmap by done. simpl. lia.
  - f_equal. destruct (proposed_prefix dn p rest Eps Hdn) as [k ->]. symmetry. apply take_app_length'.
    unfold proposed. simpl. rewrite length_fmap, length_app. simpl. lia.
  - rewrite <-(listener_messages_split dn (p :: rest)), app_assoc in Hc by done. apply app_inv_tail in Hc.
    destruct (hs ++ answers (p :: rest)) as [|m ms'] eqn:E.
    { apply app_eq_nil in E as [_ E]. simpl in E. by destruct (supported p). }
    intros Hpre. apply (Hno m ms' eq_refl), (prefix_app_inv (wire c)). rewrite <-wire_app. etrans; [|exact Hpre].
    apply wire_prefix. rewrite <-(listener_messages_split dn (p :: rest)), <-Hc, <-app_assoc, E by done.
    apply (f_equal length) in Hc. unfold replied in Hc. rewrite length_app in Hc. simpl in Hc. rewrite length_fmap in Hc.
    exists (take (S (S (length dn)) - S (length c)) ms'). rewrite take_app_ge by lia.
    replace (S (S (length dn)) - length c) with (S (S (S (length dn)) - S (length c))) by lia. simpl.
    by rewrite <-app_assoc.
Qed.

Lemma dialer_await_protocol K O B p rest io (d := mkDialerSelectSeq rest (SeqAwaitProtocol io p) VersionV1) :
  B `prefix_of` wire listener_messages →
  dialer_inv K O B d → ∃ t, seq_turn as_ref d = Ret t ∧ dialer_turn_ok K O B d t.
Proof.
  intros HB [_ (dn & c & (Hl & He & Eps & Hdn & hs & Hhs & Hc) & Hs & Hwb)]. simpl in *.
  assert (Forall msg_ok (hs ++ answers (p :: rest))) as Hok.
  { pose proof listener_messages_ok as H. rewrite <-Hc in H. by apply Forall_app in H as [_ ?]. }
  rewrite <-Hc in HB. pose proof (link_rest Hl HB) as Hin.
  destruct (mio_poll_next_spec _ io (proj1 Hl) Hok Hin) as (r & io' & E & Hr); [congruence|].
  destruct (link_read Hl Hr) as (Hs' & He' & Hwb' & Hl').
  rewrite <-Hs' in Hs. rewrite <-He' in He. rewrite <-Hwb' in Hwb.
  unfold seq_turn, d; simpl. rewrite E; simpl. clear E Hs' He' Hwb' Hin.
  destruct r as [[[m|e]|]|].
  - destruct Hl' as [Hl' Hlen]. destruct Hr as (_ & _ & _ & _ & _ & ms' & Hm & _ & Hpre & Hrb).
    assert (0 < length (wire [m])) as Hpos.
    { assert (msg_ok m) as Hmok by (rewrite Hm in Hok; by apply Forall_cons in Hok as [? _]).
      pose proof (wire_nonempty m [] Hmok). destruct (wire [m]); [done|simpl; lia]. }
    destruct Hhs as [-> | ->]; simplify_eq/=.
    + destruct (supported p) eqn:Esup; simplify_eq/=.
      * rewrite bool_decide_true by done. rewrite mio_into_inner_spec by done. simpl. eexists. split; [done|].
        unfold dialer_turn_ok, dialer_done.
        assert (incoming (mio_inner io') = []) as Hi by (by apply prefix_nil_inv in Hpre).
        pose proof (link_sent Hl' Hs) as HO'.
        destruct Hl' as (_ & HO & _ & HB'). rewrite Hi, app_nil_r in HB'.
        assert (wire (proposed (dn ++ [p])) = wire dialer_messages) as Hd.
        { unfold dialer_messages, proposed. rewrite Eps, proposals_rejected, fmap_app by done. simpl. by rewrite Esup. }
        apply app_eq_nil in Hi as [_ Hi].
        unfold dialer_turn_ok, dialer_done, Negotiated_completed. cbn iota beta. split_and!; [by rewrite <-HB', Hc|by rewrite <-Hd| |done|].
        { rewrite Eps, find_rejected by done. simpl. by rewrite Esup. }
        unfold outgoing in Hs. rewrite Hwb, app_nil_r in Hs. by rewrite Hs, Hd.
      * destruct rest as [|q rest]; (eexists; split; [done|]).
        { simpl in *. pose proof (link_sent Hl' Hs) as HO'. destruct Hl' as (_ & _ & _ & HB').
          apply prefix_nil_inv in Hpre. rewrite Hpre, app_nil_r in HB'. split_and!; [by rewrite <-HB', Hc| |].
          - etrans; [done|]. by eapply wire_prefix, proposed_prefix.
          - rewrite Eps, find_rejected by done. simpl. by rewrite Esup. }
        split; [|unfold dialer_turns, d; simpl; lia]. split; [done|]. simpl. exists (dn ++ [p]), (c ++ [NotAvailable]).
        split; [|done]. split_and!; [done|done|by rewrite <-app_assoc|by apply Forall_app; auto|].
        exists []. split; [by left|]. by rewrite <-app_assoc.
    + eexists. split; [done|]. split; [|unfold dialer_turns, d; simpl; lia].
      split; [done|]. simpl. exists dn, (c ++ [Header HeaderV1]). split; [|done].
      split_and!; [done|done|done|done|]. exists []. split; [by left|]. by rewrite <-app_assoc.
  - by destruct Hr as (_ & _ & _ & _ & _ & []).
  - destruct Hr as (_ & _ & He2 & _ & _ & _ & _ & Ht). congruence.
  - eexists. split; [done|]. split.
    { split; [done|]. simpl. exists dn, c. split; [|done]. split_and!; by eauto. }
    intros _. exists io', (S (length dn)). split; [done|]. unfold outgoing in Hs. rewrite Hwb, app_nil_r in Hs.
    destruct Hr as (_ & _ & _ & _ & _ & Hin' & _ & _ & Hno). rewrite Hs.
    eapply dialer_waits_await; try done. destruct Hl' as (_ & _ & _ & HB'). by rewrite <-HB', <-Hin'.
Qed.

Lemma dialer_poll_inv fuel K O B d :
  ps ≠ [] → B `prefix_of` wire listener_messages → dialer_inv K O B d → dialer_turns d < fuel →
  ∃ r d', DialerSelectSeq_poll as_ref fuel d = Ret (r, d') ∧
    match r with
    | Pending => dialer_inv K O B d' ∧ (length (wire dialer_messages) < K.1 → dialer_waits B d')
    | Ready res => dialer_done O B res
    end.
Proof.
  intros Hne HB Hinv Hf.
  apply (loop_total (seq_turn as_ref) (dialer_inv K O B)
    (λ _ r d', match r with Pending => dialer_inv K O B d' ∧ (length (wire dialer_messages) < K.1 → dialer_waits B d')
                 | Ready res => dialer_done O B res end) dialer_turns); [|done..].
  clear d Hinv Hf. intros d Hinv.
  assert (∃ t, seq_turn as_ref d = Ret t ∧ dialer_turn_ok K O B d t) as (t & -> & Ht).
  { destruct d as [rest st v]. assert (v = VersionV1) as -> by apply Hinv.
    destruct st as [io|io p|io p|io p|]; [by apply dialer_send_header|by apply dialer_send_protocol|
      by apply dialer_flush_protocol|by apply dialer_await_protocol|by destruct Hinv]. }
  exists t. split; [done|]. destruct t as [d'|[res|] d']; [|done..]. by destruct Ht.
Qed.

(** ** The listener *)

Implicit Types (l : ListenerSelectFuture R N).

(** The end of the stream arrives only when the dialer has given up. *)
Definition eof_ok O B io : Prop :=
  eof io = true → B = wire dialer_messages ∧ O = wire listener_messages ∧ find supported ps = None.

Definition listener_inv K O B l : Prop :=
  lst_protocols l = listener_protocols as_ref qs ∧
  match lst_state l with
  | LRecvHeader io => link K O B [] io ∧ eof_ok O B io ∧ sent io = []
  | LSendHeader io => link K O B [Header HeaderV1] io ∧ eof_ok O B io ∧ sent io = []
  | LRecvMessage io => ∃ dn rest, link K O B (proposed dn) io ∧ eof_ok O B io ∧ ps = dn ++ rest ∧ rejected dn ∧
      sent io = wire (replied dn) ∧ ld_write_buffer (mio_inner io) = []
  | LSendMessage io m n => ∃ dn p rest, link K O B (proposed (dn ++ [p])) io ∧ eof_ok O B io ∧ ps = dn ++ p :: rest ∧
      rejected dn ∧ sent io = wire (replied dn) ∧ n = find_protocol (listener_protocols as_ref qs) (proto p) ∧
      m = (if supported p then MProtocol (proto p) else NotAvailable)
  | LFlush io None => ∃ dn rest, link K O B (proposed dn) io ∧ eof_ok O B io ∧ ps = dn ++ rest ∧ rejected dn ∧
      sent io = wire (replied dn)
  | LFlush io (Some n) => ∃ dn p rest, link K O B (proposed (dn ++ [p])) io ∧ ps = dn ++ p :: rest ∧ rejected dn ∧
      sent io = wire (replied dn ++ [MProtocol (proto p)]) ∧ supported p = true ∧
      find_protocol (listener_protocols as_ref qs) (proto p) = Some n
  | LDone => False
  end.

Definition listener_done O B (res : Result (N * Negotiated R) NegotiationError) : Prop :=
  B = wire dialer_messages ∧ O `prefix_of` wire listener_messages ∧
  match res with
  | Ok (n, mkNegotiated (Completed r)) =>
      (∃ p, find supported ps = Some p ∧ find_protocol (listener_protocols as_ref qs) (proto p) = Some n) ∧
      io_in r = [] ∧ io_out r = wire listener_messages
  | Err NegotiationFailed => O = wire listener_messages ∧ find supported ps = None
  | _ => False
  end.

Definition listener_io l : option (MessageIO R) :=
  match lst_state l with
  | LRecvHeader io | LSendHeader io | LRecvMessage io | LSendMessage io _ _ | LFlush io _ => Some io
  | LDone => None
  end.

Definition listener_turns l : nat :=
  4 * map_or 0 (λ io, length (incoming (mio_inner io))) (listener_io l) +
  match lst_state l with LSendHeader _ | LSendMessage _ _ _ => 2 | LFlush _ _ => 1 | _ => 0 end.

(** The listener has read and answered [j] messages, and waits for the next one
    or for the end of the stream. *)
Definition listener_waits B l : Prop :=
  ∃ io j, listener_io l = Some io ∧ j ≤ length listener_messages ∧ eof io = false ∧
    io_out (ld_inner (mio_inner io)) = wire (take j listener_messages) ∧
    (j < length dialer_messages → ¬ wire (take (S j) dialer_messages) `prefix_of` B) ∧
    (is_Some (find supported ps) → j < length listener_messages).

Definition listener_turn_ok K O B l (t : Turn (ListenerSelectFuture R N) (Poll (Result (N * Negotiated R) NegotiationError))) : Prop :=
  match t with
  | Continue l' => listener_inv K O B l' ∧ listener_turns l' < listener_turns l
  | Return Pending l' => listener_inv K O B l' ∧ (length (wire listener_messages) < K.1 → listener_waits B l')
  | Return (Ready res) _ => listener_done O B res
  end.

Lemma replied_prefix dn rest : ps = dn ++ rest → rejected dn → replied dn `prefix_of` listener_messages.
Proof.
  intros Eps Hdn. unfold listener_messages, replied. rewrite Eps, answers_rejected by done. by exists (answers rest).
Qed.

(** Reading the next message of the dialer. *)
Lemma listener_read K O B c rem io :
  link K O B c io → B `prefix_of` wire dialer_messages → c ++ rem = dialer_messages → eof_ok O B io →
  ∃ r io', MessageIO_poll_next io = Ret (r, io') ∧
    sent io' = sent io ∧ eof_ok O B io' ∧ ld_write_buffer (mio_inner io') = ld_write_buffer (mio_inner io) ∧
    match r with
    | Pending => link K O B c io' ∧ eof io' = false ∧
        ∀ m rem', rem = m :: rem' → ¬ wire (c ++ [m]) `prefix_of` B
    | Ready (Some (Ok m)) => ∃ rem', rem = m :: rem' ∧ link K O B (c ++ [m]) io' ∧
        length (incoming (mio_inner io')) < length (incoming (mio_inner io)) ∧ ld_read_buffer (mio_inner io') = []
    | Ready (Some (Err _)) => False
    | Ready None => rem = [] ∧ B = wire dialer_messages ∧ O = wire listener_messages ∧ find supported ps = None
    end.
Proof.
  intros Hl HB Hc He. assert (Forall msg_ok rem) as Hok.
  { pose proof dialer_messages_ok as H. rewrite <-Hc in H. by apply Forall_app in H as [_ ?]. }
  rewrite <-Hc in HB. pose proof (link_rest Hl HB) as Hin.
  assert (eof io = true → incoming (mio_inner io) = wire rem) as Hend.
  { intros [HB' _]%He. destruct Hl as (_ & _ & _ & HB''). rewrite <-HB'', <-Hc, wire_app in HB'.
    by apply app_inv_head in HB'. }
  destruct (mio_poll_next_spec _ io (proj1 Hl) Hok Hin) as (r & io' & E & Hr); [by eauto|].
  destruct (link_read Hl Hr) as (Hs' & He' & Hwb' & Hl').
  exists r, io'. unfold eof_ok. rewrite He'. split_and!; [done..|]. destruct r as [[[m|e]|]|].
  - destruct Hl' as [Hl' Hlen]. destruct Hr as (_ & _ & _ & _ & _ & ms' & -> & _ & _ & Hrb).
    exists ms'. split_and!; [done|done| |done]. apply Forall_cons in Hok as [Hm _].
    pose proof (wire_nonempty m [] Hm). destruct (wire [m]); [done|simpl in Hlen; lia].
  - by destruct Hr as (_ & _ & _ & _ & _ & []).
  - destruct Hr as (_ & _ & _ & _ & _ & Hi & _ & Ht). specialize (Hend Ht). rewrite Hi in Hend.
    split; [|by apply He]. destruct rem as [|m rem]; [done|]. exfalso.
    apply Forall_cons in Hok as [Hm _]. by apply (wire_nonempty m rem Hm).
  - destruct Hr as (_ & _ & _ & _ & _ & _ & _ & Ht & Hno). split_and!; [done|congruence|].
    intros m rem' -> Hpre. apply (Hno m rem' eq_refl). destruct Hl as (_ & _ & _ & HB').
    rewrite <-HB', wire_app in Hpre. by apply prefix_app_inv in Hpre.
Qed.

Abbreviation lps := (listener_protocols as_ref qs).

Lemma listener_recv_header K O B na io (l := mkListenerSelectFuture lps (LRecvHeader io) na) :
  B `prefix_of` wire dialer_messages → listener_inv K O B l →
  ∃ t, listener_turn l = Ret t ∧ listener_turn_ok K O B l t.
Proof.
  intros HB [_ (Hl & He & Hs)]. simpl in *.
  destruct (listener_read K O B [] dialer_messages io) as (r & io' & E & Hs' & He' & _ & Hr); [done..|].
  rewrite <-Hs' in Hs. unfold listener_turn, l; simpl. rewrite E; simpl. destruct r as [[[m|e]|]|].
  - destruct Hr as (rem & [= <- _] & Hl' & Hlt & _). eexists. split; [done|]. split; [by split_and!|].
    unfold listener_turns, l. simpl. lia.
  - done.
  - by destruct Hr as [? _].
  - destruct Hr as (Hl' & Ht & Hno). eexists. split; [done|]. split; [by split_and!|]. intros _.
    exists io', 0. split_and!; [done|lia|done| | |].
    + by apply app_eq_nil in Hs as [-> _].
    + intros _. by apply (Hno _ (proposals ps)).
    + intros _. simpl. lia.
Qed.

Lemma listener_send_header K O B na io (l := mkListenerSelectFuture lps (LSendHeader io) na) :
  listener_inv K O B l → ∃ t, listener_turn l = Ret t ∧ listener_turn_ok K O B l t.
Proof.
  intros [_ (Hl & He & Hs)]. simpl in *.
  destruct (mio_poll_ready_spec io) as (r & io' & E & Hm & Hr). unfold listener_turn, l; simpl. rewrite E; simpl. clear E.
  pose proof (link_moved Hl Hm) as Hl'. rewrite <-(sent_moved _ _ Hm) in Hs.
  assert (eof_ok O B io') as He' by (unfold eof_ok; by rewrite (moved_eof _ _ Hm)).
  destruct Hr as [-> | [-> Hfull]].
  2: { eexists. split; [done|]. split; [by split_and!|]. intros HK. exfalso.
       eapply link_not_full; [exact Hl'|rewrite Hs; apply prefix_nil|exact HK|done]. }
  rewrite mio_start_send_spec by apply msg_ok_header. eexists. split; [done|]. split.
  - split; [done|]. simpl. exists [], ps. split_and!; [done|done|done|constructor|]. by apply (sent_send io' _ []).
  - unfold listener_turns, l. simpl. rewrite !incoming_send, (moved_incoming _ _ Hm). lia.
Qed.

Lemma dialer_messages_split dn rest : ps = dn ++ rest → rejected dn → proposed dn ++ proposals rest = dialer_messages.
Proof. intros Eps Hdn. unfold dialer_messages, proposed. by rewrite Eps, proposals_rejected. Qed.

Lemma proposed_snoc dn p : proposed dn ++ [MProtocol (proto p)] = proposed (dn ++ [p]).
Proof. unfold proposed. by rewrite fmap_app. Qed.

Lemma length_replied dn : length (replied dn) = S (length dn).
Proof. unfold replied. simpl. by rewrite length_fmap. Qed.

Lemma length_proposed dn : length (proposed dn) = S (length dn).
Proof. unfold proposed. simpl. by rewrite length_fmap. Qed.

(** The next proposal has not arrived as a whole. *)
Lemma listener_waits_recv B dn rest :
  ps = dn ++ rest → rejected dn →
  (∀ m rem', proposals rest = m :: rem' → ¬ wire (proposed dn ++ [m]) `prefix_of` B) →
  S (length dn) ≤ length listener_messages ∧ wire (replied dn) = wire (take (S (length dn)) listener_messages) ∧
  (S (length dn) < length dialer_messages → ¬ wire (take (S (S (length dn))) dialer_messages) `prefix_of` B) ∧
  (is_Some (find supported ps) → S (length dn) < length listener_messages).
Proof.
  intros Eps Hdn Hno. rewrite <-(listener_messages_split dn rest) by done. rewrite length_app, length_replied.
  split_and!; [lia| | |].
  - f_equal. symmetry. apply take_app_length'. by rewrite length_replied.
  - rewrite <-(dialer_messages_split dn rest) by done. rewrite length_app, length_proposed. intros Hlt.
    destruct (proposals rest) as [|m rem'] eqn:E; [simpl in Hlt; lia|].
    rewrite take_app_ge, length_proposed by (rewrite length_proposed; lia).
    replace (S (S (length dn)) - S (length dn)) with 1 by lia. by apply (Hno m rem').
  - rewrite Eps, find_rejected by done. destruct rest as [|p rest]; [by intros [? ?]|].
    intros _. simpl. destruct (supported p); simpl; lia.
Qed.

Lemma listener_recv_message K O B na io (l := mkListenerSelectFuture lps (LRecvMessage io) na) :
  B `prefix_of` wire dialer_messages → listener_inv K O B l →
  ∃ t, listener_turn l = Ret t ∧ listener_turn_ok K O B l t.
Proof.
  intros HB [_ (dn & rest & Hl & He & Eps & Hdn & Hs & Hwb)]. simpl in *.
  destruct (listener_read K O B (proposed dn) (proposals rest) io) as (r & io' & E & Hs' & He' & Hwb' & Hr);
    [done|done|by apply dialer_messages_split|done|].
  rewrite <-Hs' in Hs. rewrite <-Hwb' in Hwb. unfold listener_turn, l; simpl. rewrite E; simpl. destruct r as [[[m|e]|]|].
  - destruct Hr as (rem & Erem & Hl' & Hlt & _). destruct rest as [|p rest]; [done|]. injection Erem as <- _.
    eexists. split; [done|]. split; [|unfold listener_turns, l; simpl; lia]. split; [done|]. simpl.
    exists dn, p, rest. split_and!; [by rewrite <-proposed_snoc|done..|]. unfold supported.
    by destruct (find_protocol _ _).
  - done.
  - eexists. split; [done|]. destruct Hr as (_ & HB' & HO' & Hf). unfold listener_turn_ok, listener_done.
    split_and!; [done| |done|done]. etrans; [eapply link_sent; [exact Hl|by rewrite <-Hs']|]. by eapply wire_prefix, replied_prefix.
  - destruct Hr as (Hl' & Ht & Hno). eexists. split; [done|]. split; [split; [done|]; by exists dn, rest|]. intros _.
    exists io', (S (length dn)). unfold outgoing in Hs. rewrite Hwb, app_nil_r in Hs. rewrite Hs.
    destruct (listener_waits_recv B dn rest Eps Hdn Hno) as (? & ? & ? & ?). by split_and!.
Qed.

Lemma replied_snoc dn p : replied dn ++ [NotAvailable] = replied (dn ++ [p]).
Proof. unfold replied. by rewrite fmap_app. Qed.

Lemma listener_send_message K O B na io m n (l := mkListenerSelectFuture lps (LSendMessage io m n) na) :
  listener_inv K O B l → ∃ t, listener_turn l = Ret t ∧ listener_turn_ok K O B l t.
Proof.
  intros [_ (dn & p & rest & Hl & He & Eps & Hdn & Hs & -> & ->)]. simpl in *.
  destruct (mio_poll_ready_spec io) as (r & io' & E & Hm & Hr). unfold listener_turn, l; simpl. rewrite E; simpl. clear E.
  pose proof (link_moved Hl Hm) as Hl'. rewrite <-(sent_moved _ _ Hm) in Hs.
  assert (eof_ok O B io') as He' by (unfold eof_ok; by rewrite (moved_eof _ _ Hm)).
  destruct Hr as [-> | [-> Hfull]].
  2: { eexists. split; [done|]. split; [split; [done|]; by exists dn, p, rest|]. intros HK. exfalso.
       eapply link_not_full; [exact Hl'| |exact HK|done]. rewrite Hs. by eapply wire_prefix, replied_prefix. }
  assert (proposable p) as Hok by (rewrite Eps in Hps; by apply Forall_app in Hps as [_ [? _]%Forall_cons]).
  rewrite mio_start_send_spec by (by destruct (supported p)). eexists. split; [done|]. split.
  - split; [done|]. simpl. unfold supported at 1. destruct (find_protocol _ _) as [n|] eqn:Ef.
    + exists dn, p, rest. split_and!; [done|done|done| |unfold supported; by rewrite Ef|done].
      unfold supported. rewrite Ef. by apply (sent_send io' _ (replied dn)).
    + exists (dn ++ [p]), rest.
      assert (supported p = false) as Esup by (unfold supported; by rewrite Ef). rewrite Esup.
      split_and!; [done|done|by rewrite <-app_assoc|apply Forall_app; auto|]. rewrite <-replied_snoc. by apply (sent_send io' _ (replied dn)).
  - unfold listener_turns, l. simpl. rewrite !incoming_send, (moved_incoming _ _ Hm). lia.
Qed.

Lemma listener_flush K O B na io n (l := mkListenerSelectFuture lps (LFlush io n) na) :
  B `prefix_of` wire dialer_messages → listener_inv K O B l →
  ∃ t, listener_turn l = Ret t ∧ listener_turn_ok K O B l t.
Proof.
  intros HB [_ Hinv]. simpl in *.
  destruct (mio_poll_flush_spec io) as (r & io' & E & Hm & Hr). unfold listener_turn, l; simpl. rewrite E; simpl. clear E.
  destruct n as [n|].
  - destruct Hinv as (dn & p & rest & Hl & Eps & Hdn & Hs & Esup & Hf).
    pose proof (link_moved Hl Hm) as Hl'. rewrite <-(sent_moved _ _ Hm) in Hs.
    assert (wire (proposed (dn ++ [p])) = wire dialer_messages) as Hd.
    { rewrite <-proposed_snoc, <-(dialer_messages_split dn (p :: rest)) by done. simpl. by rewrite Esup. }
    assert (wire (replied dn ++ [MProtocol (proto p)]) = wire listener_messages) as Hlm.
    { unfold listener_messages, replied. rewrite Eps, answers_rejected by done. simpl. by rewrite Esup. }
    destruct Hr as [[-> Hwb] | [-> Hfull]].
    2: { eexists. split; [done|]. split; [split; [done|]; by exists dn, p, rest|]. intros HK. exfalso.
         eapply link_not_full; [exact Hl'| |exact HK|done]. rewrite Hs, <-Hlm. reflexivity. }
    destruct Hl' as (Hwf & HO & _ & HB'). rewrite Hd in HB'.
    assert (incoming (mio_inner io') = []) as Hi.
    { rewrite <-HB' in HB. destruct HB as [k Hk]. rewrite <-app_assoc in Hk.
      assert (incoming (mio_inner io') ++ k = []) as [? _]%app_eq_nil; [|done].
      apply (app_inv_head (wire dialer_messages)). by rewrite app_nil_r. }
    rewrite Hi, app_nil_r in HB'. apply app_eq_nil in Hi as [Hp Hi].
    assert (ld_read_buffer (mio_inner io') = []) as Hrb.
    { pose proof Hwf as Hwf'. apply (partial_nil _ Hwf') in Hp as [buf Hst]. unfold reader_wf in Hwf. rewrite Hst in Hwf. apply Hwf. }
    rewrite mio_into_inner_spec by done. simpl. eexists. split; [done|].
    unfold outgoing in Hs. rewrite Hwb, app_nil_r in Hs.
    unfold listener_turn_ok, listener_done, Negotiated_completed; cbn iota beta.
    split_and!; [done|etrans; [exact HO|rewrite Hs, <-Hlm; reflexivity]| |done|rewrite Hs; exact Hlm].
    exists p. split; [|done]. rewrite Eps, find_rejected by done. simpl. by rewrite Esup.
  - destruct Hinv as (dn & rest & Hl & He & Eps & Hdn & Hs).
    pose proof (link_moved Hl Hm) as Hl'. rewrite <-(sent_moved _ _ Hm) in Hs.
    assert (eof_ok O B io') as He' by (unfold eof_ok; by rewrite (moved_eof _ _ Hm)).
    destruct Hr as [[-> Hwb] | [-> Hfull]].
    2: { eexists. split; [done|]. split; [split; [done|]; by exists dn, rest|]. intros HK. exfalso.
         eapply link_not_full; [exact Hl'| |exact HK|done]. rewrite Hs. by eapply wire_prefix, replied_prefix. }
    eexists. split; [done|]. split; [split; [done|]; by exists dn, rest|].
    unfold listener_turns, l. simpl. rewrite (moved_incoming _ _ Hm). lia.
Qed.

Lemma listener_poll_inv fuel K O B l :
  B `prefix_of` wire dialer_messages → listener_inv K O B l → listener_turns l < fuel →
  ∃ r l', ListenerSelectFuture_poll fuel l = Ret (r, l') ∧
    match r with
    | Pending => listener_inv K O B l' ∧ (length (wire listener_messages) < K.1 → listener_waits B l')
    | Ready res => listener_done O B res
    end.
Proof.
  intros HB Hinv Hf.
  apply (loop_total listener_turn (listener_inv K O B)
    (λ _ r l', match r with Pending => listener_inv K O B l' ∧ (length (wire listener_messages) < K.1 → listener_waits B l')
                 | Ready res => listener_done O B res end) listener_turns); [|done..].
  clear l Hinv Hf. intros l Hinv.
  assert (∃ t, listener_turn l = Ret t ∧ listener_turn_ok K O B l t) as (t & -> & Ht).
  { destruct l as [prots st na]. assert (prots = lps) as -> by apply Hinv.
    destruct st as [io|io|io|io m n|io n|]; [by apply listener_recv_header|by apply listener_send_header|
      by apply listener_recv_message|by apply listener_send_message|by apply listener_flush|by destruct Hinv]. }
  exists t. split; [done|]. destruct t as [l'|[res|] l']; [|done..]. by destruct Ht.
Qed.
End sides.
End negotiation.
