(* ===== verification/MsSystem.v ===== *)
(** * Dialer, listener and network

    The closed system of a dialer that proposes its protocols one after the
    other and a listener, with the network between them.  A schedule is any
    sequence of polls of the two futures and of steps of the network.

    The theorems: under every schedule no call panics and the two sides never
    disagree; and from every state that a schedule leads to, both sides
    complete after a number of fair rounds bounded by the number of protocols. *)

From S2P Require Import Prelude AsyncIo LengthDelimited MsProtocol MsNegotiated MsSelect MsNegotiation.

(** A future that is still running or has resolved. *)
Inductive side (F Res : Type) : Type :=
| Running (future : F)
| Resolved (res : Res).
Arguments Running {F Res} future.
Arguments Resolved {F Res} res.

Section system.
Context `{!Varint u16_max} `{!VarintSpec u16_max} `{!Varint usize_max} `{!VarintSpec usize_max}.
Context {N : Type} (as_ref : N → list byte) (ps qs : list N).

Abbreviation Dialer := (DialerSelectSeq Duplex N).
Abbreviation Listener := (ListenerSelectFuture Duplex N).
Abbreviation Res := (Result (N * Negotiated Duplex) NegotiationError).
Abbreviation DT := (dialer_messages as_ref ps qs).
Abbreviation LT := (listener_messages as_ref ps qs).

(** The bytes written by either side, and how many of them have arrived at the
    other side. *)
Record system : Type := mkSystem {
  sys_dialer : side Dialer Res;
  sys_dialer_out : list byte;
  sys_to_listener : nat;
  sys_listener : side Listener Res;
  sys_listener_out : list byte;
  sys_to_dialer : nat;
}.

Definition sys_new : system :=
  let r := mkDuplex [] false [] 0 in
  mkSystem (Running (dialer_select_proto_serial r ps VersionV1)) [] 0
           (Running (listener_select_proto as_ref r qs)) [] 0.

(** Changes to the connection of a future that is waiting. *)
Definition mio_map (f : Duplex → Duplex) (io : MessageIO Duplex) : MessageIO Duplex :=
  mkMessageIO (set_inner (f (ld_inner (mio_inner io))) (mio_inner io)).

Definition seq_map (f : Duplex → Duplex) (d : Dialer) : Dialer :=
  mkDialerSelectSeq (seq_protocols d)
    match seq_state d with
    | SeqSendHeader io => SeqSendHeader (mio_map f io)
    | SeqSendProtocol io p => SeqSendProtocol (mio_map f io) p
    | SeqFlushProtocol io p => SeqFlushProtocol (mio_map f io) p
    | SeqAwaitProtocol io p => SeqAwaitProtocol (mio_map f io) p
    | SeqDone => SeqDone
    end (seq_version d).

Definition lst_map (f : Duplex → Duplex) (l : Listener) : Listener :=
  mkListenerSelectFuture (lst_protocols l)
    match lst_state l with
    | LRecvHeader io => LRecvHeader (mio_map f io)
    | LSendHeader io => LSendHeader (mio_map f io)
    | LRecvMessage io => LRecvMessage (mio_map f io)
    | LSendMessage io m p => LSendMessage (mio_map f io) m p
    | LFlush io p => LFlush (mio_map f io) p
    | LDone => LDone
    end (lst_last_sent_na l).

Definition arrive (bs : list byte) (r : Duplex) : Duplex :=
  mkDuplex (dup_in r ++ bs) (dup_eof r) (dup_out r) (dup_room r).
Definition grant (n : nat) (r : Duplex) : Duplex :=
  mkDuplex (dup_in r) (dup_eof r) (dup_out r) (dup_room r + n).
Definition hang_up (r : Duplex) : Duplex := mkDuplex (dup_in r) true (dup_out r) (dup_room r).

(** The bytes that a future has written; a future that has failed has dropped
    its connection, and what it wrote is what it had written before. *)
Definition io_written (io : option (MessageIO Duplex)) (before : list byte) : list byte :=
  match io with Some io => dup_out (ld_inner (mio_inner io)) | None => before end.
Definition res_written (res : Res) (before : list byte) : list byte :=
  match res with
  | Ok (_, mkNegotiated (Completed r)) => dup_out r
  | _ => before
  end.

Inductive action : Type :=
| PollDialer
| PollListener
| DeliverListener (n : nat)
| DeliverDialer (n : nat)
| GrantDialer (n : nat)
| GrantListener (n : nat)
| CloseDialer.

(** [CloseDialer]: a dialer that has failed drops its stream; the listener sees
    the end of the stream after all bytes. *)
Definition sys_step (fuel : nat) (a : action) (s : system) : outcome system :=
  let 'mkSystem d d_out to_l l l_out to_d := s in
  match a with
  | PollDialer =>
      match d with
      | Running f =>
          '(r, f) ← DialerSelectSeq_poll as_ref fuel f;
          match r with
          | Pending => Ret (mkSystem (Running f) (io_written (dialer_io f) d_out) to_l l l_out to_d)
          | Ready res => Ret (mkSystem (Resolved res) (res_written res d_out) to_l l l_out to_d)
          end
      | Resolved _ => Ret s
      end
  | PollListener =>
      match l with
      | Running f =>
          '(r, f) ← ListenerSelectFuture_poll fuel f;
          match r with
          | Pending => Ret (mkSystem d d_out to_l (Running f) (io_written (listener_io f) l_out) to_d)
          | Ready res => Ret (mkSystem d d_out to_l (Resolved res) (res_written res l_out) to_d)
          end
      | Resolved _ => Ret s
      end
  | DeliverListener n =>
      match l with
      | Running f =>
          let bs := take n (drop to_l d_out) in
          Ret (mkSystem d d_out (to_l + length bs) (Running (lst_map (arrive bs) f)) l_out to_d)
      | Resolved _ => Ret s
      end
  | DeliverDialer n =>
      match d with
      | Running f =>
          let bs := take n (drop to_d l_out) in
          Ret (mkSystem (Running (seq_map (arrive bs) f)) d_out to_l l l_out (to_d + length bs))
      | Resolved _ => Ret s
      end
  | GrantDialer n =>
      match d with
      | Running f => Ret (mkSystem (Running (seq_map (grant n) f)) d_out to_l l l_out to_d)
      | Resolved _ => Ret s
      end
  | GrantListener n =>
      match l with
      | Running f => Ret (mkSystem d d_out to_l (Running (lst_map (grant n) f)) l_out to_d)
      | Resolved _ => Ret s
      end
  | CloseDialer =>
      match d, l with
      | Resolved (Err _), Running f =>
          if decide (to_l = length d_out)
          then Ret (mkSystem d d_out to_l (Running (lst_map hang_up f)) l_out to_d)
          else Ret s
      | _, _ => Ret s
      end
  end.

Fixpoint sys_run (fuel : nat) (schedule : list action) (s : system) : outcome system :=
  match schedule with
  | [] => Ret s
  | a :: schedule => s ← sys_step fuel a s; sys_run fuel schedule s
  end.

(** ** The invariant *)

Context (Hps : Forall (proposable as_ref) ps) (Hne : ps ≠ []).

Definition at_dialer (s : system) : list byte := take (sys_to_dialer s) (sys_listener_out s).
Definition at_listener (s : system) : list byte := take (sys_to_listener s) (sys_dialer_out s).

(** The capacity of a connection, and whether its end has been announced. *)
Definition mio_conn (io : MessageIO Duplex) : nat * bool :=
  (io_cap (ld_inner (mio_inner io)), io_eof (ld_inner (mio_inner io))).
Definition conn_of (io : option (MessageIO Duplex)) : nat * bool := map_or (0, false) mio_conn io.

Definition dialer_side (s : system) : Prop :=
  sys_dialer_out s `prefix_of` wire DT ∧
  match sys_dialer s with
  | Running d => dialer_inv as_ref ps qs (conn_of (dialer_io d)) (at_listener s) (at_dialer s) d ∧
      io_written (dialer_io d) [] = sys_dialer_out s
  | Resolved res => dialer_done as_ref ps qs (at_listener s) (at_dialer s) res ∧
      res_written res (sys_dialer_out s) = sys_dialer_out s
  end.

Definition listener_side (s : system) : Prop :=
  sys_listener_out s `prefix_of` wire LT ∧
  match sys_listener s with
  | Running l => listener_inv as_ref ps qs (conn_of (listener_io l)) (at_dialer s) (at_listener s) l ∧
      io_written (listener_io l) [] = sys_listener_out s
  | Resolved res => listener_done as_ref ps qs (at_dialer s) (at_listener s) res ∧
      res_written res (sys_listener_out s) = sys_listener_out s
  end.

Definition sys_inv (s : system) : Prop :=
  dialer_side s ∧ listener_side s ∧
  sys_to_listener s ≤ length (sys_dialer_out s) ∧ sys_to_dialer s ≤ length (sys_listener_out s).

Lemma link_map K O O' B c io f bs :
  (∀ r, dup_in (f r) = dup_in r ++ bs ∧ dup_out (f r) = dup_out r) →
  O' `prefix_of` dup_out (ld_inner (mio_inner io)) →
  link K O B c io → link (mio_conn (mio_map f io)) O' (B ++ bs) c (mio_map f io).
Proof.
  intros Hf HO' (Hwf & _ & _ & <-). destruct (Hf (ld_inner (mio_inner io))) as [Hin Hout].
  split_and!; [done|by simpl; rewrite Hout|done|].
  rewrite <-app_assoc. f_equal. unfold incoming. simpl. rewrite Hin, app_assoc. done.
Qed.

Lemma link_out K O O' B c (io : MessageIO Duplex) :
  O' `prefix_of` dup_out (ld_inner (mio_inner io)) → link K O B c io → link K O' B c io.
Proof. intros HO' (Hwf & _ & HK & HB). by split_and!. Qed.

Lemma sent_map io f : (∀ r, dup_out (f r) = dup_out r) → outgoing (mio_inner (mio_map f io)) = outgoing (mio_inner io).
Proof. intros Hf. unfold outgoing. simpl. by rewrite Hf. Qed.

(** What the network may do to a connection: bytes arrive and room is granted. *)
Definition network (bs : list byte) (f : Duplex → Duplex) : Prop :=
  ∀ r, dup_in (f r) = dup_in r ++ bs ∧ dup_out (f r) = dup_out r ∧ dup_eof (f r) = dup_eof r.

Lemma network_link bs f : network bs f → ∀ r, dup_in (f r) = dup_in r ++ bs ∧ dup_out (f r) = dup_out r.
Proof. intros Hf r. by destruct (Hf r) as (? & ? & _). Qed.
Lemma network_out bs f : network bs f → ∀ r, dup_out (f r) = dup_out r.
Proof. intros Hf r. by destruct (Hf r) as (_ & ? & _). Qed.
Lemma network_eof bs f : network bs f → ∀ r, dup_eof (f r) = dup_eof r.
Proof. intros Hf r. by destruct (Hf r) as (_ & _ & ?). Qed.

Lemma proposing_map K O O' B p rest dn c io f bs :
  network bs f → O' `prefix_of` dup_out (ld_inner (mio_inner io)) →
  proposing as_ref ps qs K O B p rest dn c io →
  proposing as_ref ps qs (mio_conn (mio_map f io)) O' (B ++ bs) p rest dn c (mio_map f io).
Proof.
  intros Hf HO' (Hl & He & Hr). split; [|split; [|exact Hr]].
  - eapply link_map; [by eapply network_link|exact HO'|exact Hl].
  - simpl. by rewrite (network_eof _ _ Hf).
Qed.

(** The state of a future does not depend on what is known to be written, and
    it changes with the bytes that arrive. *)
Lemma dialer_inv_map {K O B d} (Hinv : dialer_inv as_ref ps qs K O B d) O' f bs :
  network bs f → O' `prefix_of` io_written (dialer_io d) [] →
  dialer_inv as_ref ps qs (conn_of (dialer_io (seq_map f d))) O' (B ++ bs) (seq_map f d) ∧
  io_written (dialer_io (seq_map f d)) [] = io_written (dialer_io d) [].
Proof.
  destruct Hinv as [Hv Hinv]. intros Hf HO'. pose proof (network_out _ _ Hf) as Hfo.
  destruct d as [rest [io|io p|io p|io p|] v]; unfold dialer_inv, dialer_io, conn_of in *; simpl in *; [..|done];
    (split; [split; [exact Hv|]|apply Hfo]).
  - destruct Hinv as (Hl & He & Hr & Hs). split_and!; [|by rewrite (network_eof _ _ Hf)|exact Hr|by etrans; [apply (sent_map io), Hfo|]].
    eapply link_map; [by eapply network_link|exact HO'|exact Hl].
  - destruct Hinv as (dn & c & Hp & Hs). exists dn, c. split; [by eapply (proposing_map _ _ _ _ _ _ _ _ io)|].
    etrans; [apply (sent_map io), Hfo|exact Hs].
  - destruct Hinv as (dn & c & Hp & Hs). exists dn, c. split; [by eapply (proposing_map _ _ _ _ _ _ _ _ io)|].
    etrans; [apply (sent_map io), Hfo|exact Hs].
  - destruct Hinv as (dn & c & Hp & Hs & Hwb). exists dn, c. split; [by eapply (proposing_map _ _ _ _ _ _ _ _ io)|].
    split; [|exact Hwb]. etrans; [apply (sent_map io), Hfo|exact Hs].
Qed.

Lemma dialer_inv_out K O O' B d :
  O' `prefix_of` io_written (dialer_io d) [] →
  dialer_inv as_ref ps qs K O B d → dialer_inv as_ref ps qs K O' B d.
Proof.
  intros HO' [Hv Hinv]. split; [exact Hv|].
  destruct d as [rest [io|io p|io p|io p|] v]; simpl in *; [| | | |done].
  - destruct Hinv as (Hl & Hr). split; [by eapply link_out|exact Hr].
  - destruct Hinv as (dn & c & (Hl & Hp) & Hr). exists dn, c. split; [split; [by eapply link_out|exact Hp]|exact Hr].
  - destruct Hinv as (dn & c & (Hl & Hp) & Hr). exists dn, c. split; [split; [by eapply link_out|exact Hp]|exact Hr].
  - destruct Hinv as (dn & c & (Hl & Hp) & Hr). exists dn, c. split; [split; [by eapply link_out|exact Hp]|exact Hr].
Qed.

(** What follows from the state of a connection: its capacity, and bounds on
    what has been written and what is still to be read. *)
Record io_bounds (K : nat * bool) (O B l : list byte) (io : option (MessageIO Duplex)) : Prop := {
  bounds_cap : K = conn_of io;
  bounds_known : ∀ before, O `prefix_of` io_written io before;
  bounds_written : io_written io [] `prefix_of` l;
  bounds_some before : io_written io before = io_written io [];
  bounds_incoming : map_or 0 (λ io, length (incoming (mio_inner io))) io ≤ length B;
}.

Lemma link_bounds K O B c l (io : MessageIO Duplex) :
  link K O B c io → outgoing (mio_inner io) `prefix_of` l → io_bounds K O B l (Some io).
Proof.
  intros (_ & HO & HK & <-) Hs. split; simpl; [done|done| |done|rewrite length_app; lia].
  etrans; [|exact Hs]. unfold outgoing. by apply prefix_app_r.
Qed.

Lemma dialer_inv_bounds K O B d :
  dialer_inv as_ref ps qs K O B d →
  io_bounds K O B (wire DT) (dialer_io d) ∧ length (seq_protocols d) ≤ length ps.
Proof.
  intros [_ Hinv]. destruct d as [rest [io|io p|io p|io p|] v]; simpl in *; [| | | |done].
  - destruct Hinv as (Hl & _ & -> & Hs). split; [|done]. eapply link_bounds; [done|]. rewrite Hs. apply prefix_nil.
  - destruct Hinv as (dn & c & (Hl & _ & Eps & Hdn & _) & Hs). split; [|rewrite Eps, length_app; simpl; lia].
    eapply link_bounds; [done|]. rewrite Hs. apply wire_prefix. etrans; [|by eapply proposed_prefix].
    unfold proposed. rewrite fmap_app. by eexists.
  - destruct Hinv as (dn & c & (Hl & _ & Eps & Hdn & _) & Hs). split; [|rewrite Eps, length_app; simpl; lia].
    eapply link_bounds; [done|]. rewrite Hs. by eapply wire_prefix, proposed_prefix.
  - destruct Hinv as (dn & c & (Hl & _ & Eps & Hdn & _) & Hs & _). split; [|rewrite Eps, length_app; simpl; lia].
    eapply link_bounds; [done|]. rewrite Hs. by eapply wire_prefix, proposed_prefix.
Qed.

Lemma dialer_inv_turns K O B d :
  dialer_inv as_ref ps qs K O B d → dialer_turns d ≤ 4 * length ps + length B + 4.
Proof.
  intros [[_ _ _ _ Hin] Hrest]%dialer_inv_bounds. unfold dialer_turns. destruct (seq_state d); lia.
Qed.

Lemma prefix_app_full {A} (l k : list A) : l ++ k `prefix_of` l → l ++ k = l.
Proof.
  intros Hpre. apply prefix_length in Hpre as Hl. rewrite length_app in Hl. destruct k; [apply app_nil_r|simpl in Hl; lia].
Qed.

(** The listener: the end of the stream may be announced as well. *)
Lemma eof_ok_map O B bs io f :
  (∀ r, dup_eof (f r) = true →
     dup_eof r = true ∨ B ++ bs = wire DT ∧ O = wire LT ∧ find (supported as_ref qs) ps = None) →
  B ++ bs `prefix_of` wire DT → eof_ok as_ref ps qs O B io → eof_ok as_ref ps qs O (B ++ bs) (mio_map f io).
Proof.
  intros Hf [k Hk] He [Ht|?]%Hf; [|done]. destruct (He Ht) as [-> Hnone]. split; [|done].
  rewrite <-app_assoc, <-(app_nil_r (wire DT)) in Hk at 1. apply app_inv_head in Hk.
  symmetry in Hk. apply app_eq_nil in Hk as [-> _]. by rewrite app_nil_r.
Qed.

Lemma listener_inv_map {K O B l} (Hinv : listener_inv as_ref ps qs K O B l) f bs :
  (∀ r, dup_in (f r) = dup_in r ++ bs ∧ dup_out (f r) = dup_out r) →
  (∀ r, dup_eof (f r) = true →
     dup_eof r = true ∨ B ++ bs = wire DT ∧ O = wire LT ∧ find (supported as_ref qs) ps = None) →
  B ++ bs `prefix_of` wire DT → O `prefix_of` io_written (listener_io l) [] →
  listener_inv as_ref ps qs (conn_of (listener_io (lst_map f l))) O (B ++ bs) (lst_map f l) ∧
  io_written (listener_io (lst_map f l)) [] = io_written (listener_io l) [].
Proof.
  destruct Hinv as [Hv Hinv]. intros Hf He HB HO'. assert (∀ r, dup_out (f r) = dup_out r) as Hfo by (intros r; apply Hf).
  assert (∀ io, eof_ok as_ref ps qs O B io → eof_ok as_ref ps qs O (B ++ bs) (mio_map f io)) as He' by (intros; by apply eof_ok_map).
  destruct l as [prots [io|io|io|io m n|io [n|]|] na]; unfold listener_inv, listener_io, conn_of in *; simpl in *; [..|done];
    (split; [split; [exact Hv|]|apply Hfo]).
  - destruct Hinv as (Hl & Heo & Hs). split_and!; [by eapply (link_map _ _ _ _ _ io)|by apply He'|].
    etrans; [apply (sent_map io), Hfo|exact Hs].
  - destruct Hinv as (Hl & Heo & Hs). split_and!; [by eapply (link_map _ _ _ _ _ io)|by apply He'|].
    etrans; [apply (sent_map io), Hfo|exact Hs].
  - destruct Hinv as (dn & rest & Hl & Heo & Eps & Hdn & Hs & Hwb). exists dn, rest.
    split_and!; [by eapply (link_map _ _ _ _ _ io)|by apply He'|done|done| |done].
    etrans; [apply (sent_map io), Hfo|exact Hs].
  - destruct Hinv as (dn & p & rest & Hl & Heo & Eps & Hdn & Hs & Hn). exists dn, p, rest.
    split_and!; [by eapply (link_map _ _ _ _ _ io)|by apply He'|done|done| |apply Hn..].
    etrans; [apply (sent_map io), Hfo|exact Hs].
  - destruct Hinv as (dn & p & rest & Hl & Eps & Hdn & Hs & Hn). exists dn, p, rest.
    split_and!; [by eapply (link_map _ _ _ _ _ io)|done|done| |apply Hn..].
    etrans; [apply (sent_map io), Hfo|exact Hs].
  - destruct Hinv as (dn & rest & Hl & Heo & Eps & Hdn & Hs). exists dn, rest.
    split_and!; [by eapply (link_map _ _ _ _ _ io)|by apply He'|done|done|].
    etrans; [apply (sent_map io), Hfo|exact Hs].
Qed.

Lemma eof_ok_out O O' B io :
  O `prefix_of` O' → O' `prefix_of` wire LT → eof_ok as_ref ps qs O B io → eof_ok as_ref ps qs O' B io.
Proof.
  intros HO HO' He Ht. destruct (He Ht) as (-> & -> & Hn). split_and!; [done| |done].
  destruct HO as [k ->]. by apply prefix_app_full.
Qed.

Lemma listener_inv_out K O O' B l :
  O `prefix_of` O' → O' `prefix_of` wire LT → O' `prefix_of` io_written (listener_io l) [] →
  listener_inv as_ref ps qs K O B l → listener_inv as_ref ps qs K O' B l.
Proof.
  intros HO HLT HO' [Hv Hinv]. split; [exact Hv|]. pose proof (eof_ok_out O O' B) as Hout.
  destruct l as [prots [io|io|io|io m n|io [n|]|] na]; simpl in *; [| | | | | |done].
  - destruct Hinv as (Hl & He & Hr). split_and!; [by eapply link_out|by apply Hout|exact Hr].
  - destruct Hinv as (Hl & He & Hr). split_and!; [by eapply link_out|by apply Hout|exact Hr].
  - destruct Hinv as (dn & rest & Hl & He & Hr). exists dn, rest. split; [by eapply link_out|]. split; [by apply Hout|exact Hr].
  - destruct Hinv as (dn & p & rest & Hl & He & Hr). exists dn, p, rest. split; [by eapply link_out|]. split; [by apply Hout|exact Hr].
  - destruct Hinv as (dn & p & rest & Hl & Hr). exists dn, p, rest. split; [by eapply link_out|exact Hr].
  - destruct Hinv as (dn & rest & Hl & He & Hr). exists dn, rest. split; [by eapply link_out|]. split; [by apply Hout|exact Hr].
Qed.

Lemma listener_inv_bounds K O B l :
  listener_inv as_ref ps qs K O B l → io_bounds K O B (wire LT) (listener_io l).
Proof.
  intros [_ Hinv]. destruct l as [prots [io|io|io|io m n|io [n|]|] na]; simpl in *; [| | | | | |done].
  - destruct Hinv as (Hl & _ & Hs). eapply link_bounds; [done|]. rewrite Hs. apply prefix_nil.
  - destruct Hinv as (Hl & _ & Hs). eapply link_bounds; [done|]. rewrite Hs. apply prefix_nil.
  - destruct Hinv as (dn & rest & Hl & _ & Eps & Hdn & Hs & _). eapply link_bounds; [done|]. rewrite Hs.
    by eapply wire_prefix, replied_prefix.
  - destruct Hinv as (dn & p & rest & Hl & _ & Eps & Hdn & Hs & _). eapply link_bounds; [done|]. rewrite Hs.
    by eapply wire_prefix, replied_prefix.
  - destruct Hinv as (dn & p & rest & Hl & Eps & Hdn & Hs & Esup & _). eapply link_bounds; [done|]. rewrite Hs.
    rewrite <-(listener_messages_split as_ref ps qs dn (p :: rest)) by done. simpl. by rewrite Esup.
  - destruct Hinv as (dn & rest & Hl & _ & Eps & Hdn & Hs). eapply link_bounds; [done|]. rewrite Hs.
    by eapply wire_prefix, replied_prefix.
Qed.

Lemma listener_inv_turns K O B l :
  listener_inv as_ref ps qs K O B l → listener_turns l ≤ 4 * length B + 2.
Proof.
  intros [_ _ _ _ Hin]%listener_inv_bounds. unfold listener_turns. destruct (lst_state l); lia.
Qed.

Lemma wire_rest_nil ms ms' : Forall msg_ok ms' → wire (ms ++ ms') `prefix_of` wire ms → ms' = [].
Proof.
  intros Hok Hpre%prefix_length. rewrite wire_app, length_app in Hpre. destruct ms' as [|m ms']; [done|]. exfalso.
  apply Forall_cons in Hok as [Hm _]. apply (wire_nonempty m ms' Hm). destruct (wire (m :: ms')); [done|simpl in Hpre; lia].
Qed.

(** Once everything that the listener has to say has been written, it has read
    everything that the dialer has to say. *)
Lemma listener_inv_all K B l :
  listener_inv as_ref ps qs K (wire LT) B l → B `prefix_of` wire DT → B = wire DT.
Proof.
  intros [_ Hinv] HB.
  assert (∀ c io, link K (wire LT) B c io → wire LT `prefix_of` outgoing (mio_inner io) ∧ (c = DT → B = wire DT)) as Hlink.
  { intros c io (_ & HO & _ & HB'). split; [etrans; [exact HO|]; unfold outgoing; by apply prefix_app_r|].
    intros ->. rewrite <-HB' in HB |- *. by apply prefix_app_full. }
  assert (∀ dn rest io, link K (wire LT) B (proposed as_ref dn) io → ps = dn ++ rest → Forall (λ n, supported as_ref qs n = false) dn →
    outgoing (mio_inner io) = wire (replied dn) → B = wire DT) as Hdone.
  { intros dn rest io Hl Eps Hdn Hs. destruct (Hlink _ _ Hl) as [Hall Hdt]. apply Hdt.
    rewrite Hs, <-(listener_messages_split as_ref ps qs dn rest) in Hall by done.
    rewrite <-(dialer_messages_split as_ref ps qs dn rest) by done.
    apply wire_rest_nil in Hall; [|apply answers_ok; rewrite Eps in Hps; by apply Forall_app in Hps as [_ ?]].
    destruct rest as [|p rest]; [by rewrite app_nil_r|]. simpl in Hall. by destruct (supported as_ref qs p). }
  assert (∀ io, outgoing (mio_inner io) = [] → ¬ wire LT `prefix_of` outgoing (mio_inner io)) as Hnil.
  { intros io -> Hall%prefix_nil_inv. by eapply wire_nonempty, Hall; apply msg_ok_header. }
  destruct l as [prots [io|io|io|io m n|io [n|]|] na]; simpl in *; [| | | | | |done].
  - destruct Hinv as (Hl & _ & Hs). exfalso. by eapply Hnil, Hlink.
  - destruct Hinv as (Hl & _ & Hs). exfalso. by eapply Hnil, Hlink.
  - destruct Hinv as (dn & rest & Hl & _ & Eps & Hdn & Hs & _). by eapply Hdone.
  - destruct Hinv as (dn & p & rest & Hl & _ & Eps & Hdn & Hs & _). exfalso. destruct (Hlink _ _ Hl) as [Hall _].
    rewrite Hs, <-(listener_messages_split as_ref ps qs dn (p :: rest)) in Hall by done.
    apply wire_rest_nil in Hall; [simpl in Hall; by destruct (supported as_ref qs p)|].
    apply answers_ok. rewrite Eps in Hps. by apply Forall_app in Hps as [_ ?].
  - destruct Hinv as (dn & p & rest & Hl & Eps & Hdn & Hs & Esup & _). apply (Hlink _ _ Hl).
    rewrite <-(dialer_messages_split as_ref ps qs dn (p :: rest)), <-proposed_snoc by done. simpl. by rewrite Esup.
  - destruct Hinv as (dn & rest & Hl & _ & Eps & Hdn & Hs). by eapply Hdone.
Qed.

(** ** Every step keeps the invariant *)

(** The number of turns that a call may take. *)
Definition negotiation_fuel : nat := 4 * length ps + 4 * length (wire DT) + length (wire LT) + 5.

Context (fuel : nat) (Hfuel : negotiation_fuel ≤ fuel).

Lemma sys_inv_new : sys_inv sys_new.
Proof.
  split_and!; simpl; [..|lia|lia]; (split; [apply prefix_nil|]); (split; [|done]); (split; [done|]); simpl; split_and!;
    try done; split_and!; try done; apply reader_wf_new.
Qed.

Lemma at_dialer_prefix s : sys_inv s → at_dialer s `prefix_of` wire LT.
Proof. intros (_ & [Hl _] & _). etrans; [|exact Hl]. apply prefix_take. Qed.
Lemma at_listener_prefix s : sys_inv s → at_listener s `prefix_of` wire DT.
Proof. intros ([Hd _] & _). etrans; [|exact Hd]. apply prefix_take. Qed.

Lemma take_known (O l : list byte) n : O `prefix_of` l → length O = n → take n l = O ∧ n ≤ length l.
Proof. intros [k ->] <-. rewrite take_app_length, length_app. split; [done|lia]. Qed.

Lemma take_more (l : list byte) k n :
  k ≤ length l → take (k + length (take n (drop k l))) l = take k l ++ take n (drop k l) ∧
  k + length (take n (drop k l)) ≤ length l.
Proof.
  intros Hk. rewrite length_take, length_drop, take_take_drop. split; [|lia].
  destruct (decide (n ≤ length l - k)); [by rewrite Nat.min_l by lia|]. by rewrite !take_ge by lia.
Qed.

Definition dialer_conn (s : system) : nat * bool :=
  match sys_dialer s with Running d => conn_of (dialer_io d) | _ => (0, false) end.
Definition listener_conn (s : system) : nat * bool :=
  match sys_listener s with Running l => conn_of (listener_io l) | _ => (0, false) end.

Lemma dialer_side_ext s s' :
  sys_dialer s' = sys_dialer s → sys_dialer_out s' = sys_dialer_out s →
  at_dialer s' = at_dialer s → at_listener s' = at_listener s → dialer_side s → dialer_side s'.
Proof. unfold dialer_side. by intros -> -> -> ->. Qed.

Lemma listener_side_ext s s' :
  sys_listener s' = sys_listener s → sys_listener_out s' = sys_listener_out s →
  at_dialer s' = at_dialer s → at_listener s' = at_listener s → listener_side s → listener_side s'.
Proof. unfold listener_side. by intros -> -> -> ->. Qed.

Definition resolved {F A} (x : side F A) : Prop := match x with Resolved _ => True | Running _ => False end.

Lemma poll_dialer_step s :
  sys_inv s →
  ∃ d d_out, let s' := mkSystem d d_out (sys_to_listener s) (sys_listener s) (sys_listener_out s) (sys_to_dialer s) in
    sys_step fuel PollDialer s = Ret s' ∧ sys_inv s' ∧ at_listener s' = at_listener s ∧
    (resolved (sys_dialer s) → resolved d) ∧
    match d with
    | Running f => length (wire DT) < (dialer_conn s).1 → dialer_waits as_ref ps qs (at_dialer s) f
    | Resolved _ => True
    end.
Proof.
  intros Hinv. pose proof (at_dialer_prefix s Hinv) as HB. pose proof (at_listener_prefix s Hinv) as HO.
  destruct s as [[f|res] d_out to_l l l_out to_d]; simpl; [|by eexists _, _].
  destruct Hinv as ([Hd [Hf Hw]] & Hl & Hto_l & Hto_d). simpl in *.
  pose proof (dialer_inv_turns _ _ _ _ Hf) as Ht.
  assert (length (at_listener (mkSystem (Running f) d_out to_l l l_out to_d)) = to_l) as Hlen.
  { unfold at_listener. simpl. rewrite length_take. lia. }
  destruct (dialer_poll_inv as_ref ps qs Hps fuel _ _ _ f Hne HB Hf) as (r & f' & -> & Hr).
  { apply prefix_length in HB. unfold negotiation_fuel in Hfuel. lia. }
  simpl. set (O := at_listener (mkSystem (Running f) d_out to_l l l_out to_d)) in *. destruct r as [res|].
  - destruct Hr as (HB' & HO' & Hres). eexists _, _. split; [done|].
    assert (take to_l (res_written res d_out) = O ∧ to_l ≤ length (res_written res d_out) ∧
            res_written res d_out `prefix_of` wire DT) as (Htk & Hle & Hpre).
    { destruct res as [[n [[?|r|]]]|]; simpl in *; try done.
      destruct Hres as (_ & _ & ->). by destruct (take_known O (wire DT) to_l). }
    split_and!; [|exact Htk|done|done]. split_and!; simpl; [|by eapply listener_side_ext, Hl|exact Hle|exact Hto_d].
    split; [exact Hpre|]. simpl. split; [|by destruct res as [[n [[?|r|]]]|]].
    unfold at_listener. simpl. rewrite Htk. by split_and!.
  - destruct Hr as [Hf' Hwait]. pose proof (dialer_inv_bounds _ _ _ _ Hf') as [[HK HO' Hw' Hsome _] _].
    destruct (take_known O (io_written (dialer_io f') d_out) to_l (HO' _) Hlen) as [Htk Hle].
    eexists _, _. split; [done|]. split_and!; [|exact Htk|done|exact Hwait].
    split_and!; simpl; [|by eapply listener_side_ext, Hl|exact Hle|exact Hto_d]. split; simpl; [by rewrite Hsome|].
    split; [|symmetry; apply Hsome]. unfold at_listener. simpl. rewrite Htk, <-HK. exact Hf'.
Qed.

Lemma poll_listener_step s :
  sys_inv s →
  ∃ l l_out, let s' := mkSystem (sys_dialer s) (sys_dialer_out s) (sys_to_listener s) l l_out (sys_to_dialer s) in
    sys_step fuel PollListener s = Ret s' ∧ sys_inv s' ∧ at_dialer s' = at_dialer s ∧
    (resolved (sys_listener s) → resolved l) ∧
    match l with
    | Running f => listener_conn s = conn_of (listener_io f) ∧
        (length (wire LT) < (listener_conn s).1 → listener_waits as_ref ps qs (at_listener s) f)
    | Resolved _ => True
    end.
Proof.
  intros Hinv. pose proof (at_dialer_prefix s Hinv) as HO. pose proof (at_listener_prefix s Hinv) as HB.
  destruct s as [d d_out to_l [f|res] l_out to_d]; simpl; [|by eexists _, _].
  destruct Hinv as (Hd & [Hl [Hf Hw]] & Hto_l & Hto_d). simpl in *.
  pose proof (listener_inv_turns _ _ _ _ Hf) as Ht.
  assert (length (at_dialer (mkSystem d d_out to_l (Running f) l_out to_d)) = to_d) as Hlen.
  { unfold at_dialer. simpl. rewrite length_take. lia. }
  destruct (listener_poll_inv as_ref ps qs Hps fuel _ _ _ f HB Hf) as (r & f' & -> & Hr).
  { apply prefix_length in HB. unfold negotiation_fuel in Hfuel. lia. }
  simpl. set (O := at_dialer (mkSystem d d_out to_l (Running f) l_out to_d)) in *. destruct r as [res|].
  - destruct Hr as (HB' & HO' & Hres). eexists _, _. split; [done|].
    assert (take to_d (res_written res l_out) = O ∧ to_d ≤ length (res_written res l_out) ∧
            res_written res l_out `prefix_of` wire LT) as (Htk & Hle & Hpre).
    { destruct res as [[n [[?|r|]]]|]; simpl in *; try done.
      destruct Hres as (_ & _ & ->). by destruct (take_known O (wire LT) to_d). }
    split_and!; [|exact Htk|done|done]. split_and!; simpl; [|split; [exact Hpre|]|exact Hto_l|exact Hle].
    + by eapply dialer_side_ext, Hd.
    + simpl. split; [|by destruct res as [[n [[?|r|]]]|]]. unfold at_dialer. simpl. rewrite Htk. by split_and!.
  - destruct Hr as [Hf' Hwait]. pose proof (listener_inv_bounds _ _ _ _ Hf') as [HK HO' Hw' Hsome _].
    destruct (take_known O (io_written (listener_io f') l_out) to_d (HO' _) Hlen) as [Htk Hle].
    eexists _, _. split; [done|]. split_and!; [|exact Htk|done|exact HK|exact Hwait].
    split_and!; simpl; [|split; simpl; [by rewrite Hsome|]|exact Hto_l|exact Hle].
    + by eapply dialer_side_ext, Hd.
    + split; [|symmetry; apply Hsome]. unfold at_dialer. simpl. rewrite Htk, <-HK. exact Hf'.
Qed.

Lemma network_arrive bs : network bs (arrive bs).
Proof. done. Qed.
Lemma network_grant n : network [] (grant n).
Proof. intros r. simpl. by rewrite app_nil_r. Qed.

Lemma conn_seq_map f d :
  (∀ r, length (dup_out (f r)) + dup_room (f r) = length (dup_out r) + dup_room r) → (∀ r, dup_eof (f r) = dup_eof r) →
  conn_of (dialer_io (seq_map f d)) = conn_of (dialer_io d).
Proof. intros Hf He. destruct d as [rest [io|io p|io p|io p|] v]; simpl; unfold mio_conn; simpl; by rewrite ?Hf, ?He. Qed.

Lemma conn_lst_map f l :
  (∀ r, length (dup_out (f r)) + dup_room (f r) = length (dup_out r) + dup_room r) → (∀ r, dup_eof (f r) = dup_eof r) →
  conn_of (listener_io (lst_map f l)) = conn_of (listener_io l).
Proof.
  intros Hf He. destruct l as [prots [io|io|io|io m n|io n|] na]; simpl; unfold mio_conn; simpl; by rewrite ?Hf, ?He.
Qed.

Lemma deliver_listener_step s n :
  sys_inv s →
  ∃ s', sys_step fuel (DeliverListener n) s = Ret s' ∧ sys_inv s' ∧ sys_dialer s' = sys_dialer s ∧
    sys_dialer_out s' = sys_dialer_out s ∧ sys_listener_out s' = sys_listener_out s ∧ at_dialer s' = at_dialer s ∧
    listener_conn s' = listener_conn s ∧
    match sys_listener s with
    | Running _ => length (sys_dialer_out s) ≤ n → at_listener s' = sys_dialer_out s ∧ sys_to_listener s' = length (sys_dialer_out s)
    | Resolved _ => s' = s
    end.
Proof.
  intros Hinv. pose proof (at_dialer_prefix s Hinv) as HO.
  destruct s as [d d_out to_l [f|res] l_out to_d]; simpl; [|by eexists].
  destruct Hinv as (Hd & [Hl [Hf Hw]] & Hto_l & Hto_d). simpl in *.
  destruct (take_more d_out to_l n Hto_l) as [Htk Hle]. set (bs := take n (drop to_l d_out)) in *.
  eexists. split; [done|]. assert (d_out `prefix_of` wire DT) as Hpre by apply Hd.
  split_and!; [|done|done|done|done|by apply conn_lst_map|].
  - split_and!; simpl; [| |exact Hle|exact Hto_d].
    + split; [exact Hpre|]. simpl. unfold at_listener. simpl. rewrite Htk.
      destruct Hd as [_ Hd]. destruct d as [g|res]; simpl in *.
      * destruct Hd as [Hg Hg']. split; [|exact Hg']. eapply dialer_inv_out; [|exact Hg]. rewrite Hg', <-Htk. apply prefix_take.
      * destruct Hd as [(HB & HO' & Hres) Hw']. split_and!; [|done]. split_and!; [done| |done]. rewrite <-Htk. etrans; [apply prefix_take|exact Hpre].
    + split; [exact Hl|]. simpl. unfold at_listener. simpl. rewrite Htk.
      destruct (listener_inv_map Hf (arrive bs) bs) as [Hf' Hw']; [done|by left| | |].
      * unfold at_listener. simpl. rewrite <-Htk. etrans; [apply prefix_take|exact Hpre].
      * rewrite Hw. apply prefix_take.
      * split; [exact Hf'|]. by rewrite Hw'.
  - intros Hn. assert (bs = drop to_l d_out) as -> by (apply take_ge; rewrite length_drop; lia).
    unfold at_listener. simpl. rewrite length_drop. split; [apply take_ge; lia|lia].
Qed.

Lemma deliver_dialer_step s n :
  sys_inv s →
  ∃ s', sys_step fuel (DeliverDialer n) s = Ret s' ∧ sys_inv s' ∧ sys_listener s' = sys_listener s ∧
    sys_dialer_out s' = sys_dialer_out s ∧ sys_to_listener s' = sys_to_listener s ∧
    sys_listener_out s' = sys_listener_out s ∧ dialer_conn s' = dialer_conn s ∧
    match sys_dialer s with
    | Running _ => length (sys_listener_out s) ≤ n → at_dialer s' = sys_listener_out s
    | Resolved _ => s' = s
    end.
Proof.
  intros Hinv. pose proof (at_dialer_prefix s Hinv) as HO. pose proof (at_listener_prefix s Hinv) as HB.
  destruct s as [[f|res] d_out to_l l l_out to_d]; simpl; [|by eexists].
  destruct Hinv as ([Hd [Hf Hw]] & Hl & Hto_l & Hto_d). simpl in *.
  destruct (take_more l_out to_d n Hto_d) as [Htk Hle]. set (bs := take n (drop to_d l_out)) in *.
  eexists. split; [done|]. assert (l_out `prefix_of` wire LT) as Hpre by apply Hl.
  split_and!; [|done|done|done|done|by apply conn_seq_map|].
  - split_and!; simpl; [| |exact Hto_l|exact Hle].
    + split; [exact Hd|]. simpl. unfold at_dialer. simpl. rewrite Htk.
      destruct (dialer_inv_map Hf (at_listener (mkSystem (Running f) d_out to_l l l_out to_d)) (arrive bs) bs (network_arrive bs))
        as [Hf' Hw'].
      * rewrite Hw. apply prefix_take.
      * split; [exact Hf'|]. by rewrite Hw'.
    + split; [exact Hpre|]. simpl. unfold at_dialer. simpl. rewrite Htk.
      destruct Hl as [_ Hl]. destruct l as [g|res]; simpl in *.
      * destruct Hl as [Hg Hg']. split; [|exact Hg'].
        eapply listener_inv_out; [| | |exact Hg].
        -- by apply prefix_app_r.
        -- rewrite <-Htk. etrans; [apply prefix_take|exact Hpre].
        -- rewrite Hg', <-Htk. apply prefix_take.
      * destruct Hl as [(HB' & HO' & Hres) Hw']. split; [|done].
        assert (take to_d l_out ++ bs `prefix_of` wire LT) as HO2.
        { rewrite <-Htk. etrans; [apply prefix_take|exact Hpre]. }
        split_and!; [done|exact HO2|]. destruct res as [r|[|]]; [done|done|]. destruct Hres as [Hall Hnone].
        split; [|done]. unfold at_dialer in Hall. simpl in Hall. rewrite Hall in HO2 |- *. by apply prefix_app_full.
  - intros Hn. assert (bs = drop to_d l_out) as -> by (apply take_ge; rewrite length_drop; lia).
    unfold at_dialer. simpl. rewrite length_drop. apply take_ge. lia.
Qed.

Lemma grant_dialer_step s n :
  sys_inv s →
  ∃ s', sys_step fuel (GrantDialer n) s = Ret s' ∧ sys_inv s' ∧ sys_listener s' = sys_listener s ∧
    sys_dialer_out s' = sys_dialer_out s ∧ sys_to_listener s' = sys_to_listener s ∧
    sys_listener_out s' = sys_listener_out s ∧ sys_to_dialer s' = sys_to_dialer s ∧
    match sys_dialer s with
    | Running _ => n ≤ (dialer_conn s').1 ∧ ∃ f, sys_dialer s' = Running f
    | Resolved _ => s' = s
    end.
Proof.
  intros Hinv. destruct s as [[f|res] d_out to_l l l_out to_d]; simpl; [|by eexists].
  destruct Hinv as ([Hd [Hf Hw]] & Hl & Hto_l & Hto_d). simpl in *.
  destruct (dialer_inv_map Hf (at_listener (mkSystem (Running f) d_out to_l l l_out to_d)) (grant n) [] (network_grant n))
    as [Hf' Hw']; [rewrite Hw; apply prefix_take|]. rewrite app_nil_r in Hf'.
  eexists. split; [done|]. split_and!; [|done|done|done|done|done| |by eexists].
  - split_and!; simpl; [|exact Hl|exact Hto_l|exact Hto_d]. split; [exact Hd|]. simpl. split; [exact Hf'|]. by rewrite Hw'.
  - unfold dialer_conn. simpl. destruct f as [rest [io|io p|io p|io p|] v]; simpl; [lia..|]. by destruct Hf.
Qed.

Lemma grant_listener_step s n :
  sys_inv s →
  ∃ s', sys_step fuel (GrantListener n) s = Ret s' ∧ sys_inv s' ∧ sys_dialer s' = sys_dialer s ∧
    sys_dialer_out s' = sys_dialer_out s ∧ sys_to_listener s' = sys_to_listener s ∧
    sys_listener_out s' = sys_listener_out s ∧ sys_to_dialer s' = sys_to_dialer s ∧
    match sys_listener s with
    | Running _ => n ≤ (listener_conn s').1 ∧ (listener_conn s').2 = (listener_conn s).2 ∧ ∃ f, sys_listener s' = Running f
    | Resolved _ => s' = s
    end.
Proof.
  intros Hinv. pose proof (at_listener_prefix s Hinv) as HB.
  destruct s as [d d_out to_l [f|res] l_out to_d]; simpl; [|by eexists].
  destruct Hinv as (Hd & [Hl [Hf Hw]] & Hto_l & Hto_d). simpl in *.
  destruct (listener_inv_map Hf (grant n) []) as [Hf' Hw'].
  { intros r. simpl. by rewrite app_nil_r. }
  { intros r Hr. by left. }
  { by rewrite app_nil_r. }
  { rewrite Hw. apply prefix_take. }
  rewrite app_nil_r in Hf'.
  eexists. split; [done|]. split_and!; [|done|done|done|done|done| | |by eexists].
  - split_and!; simpl; [exact Hd| |exact Hto_l|exact Hto_d]. split; [exact Hl|]. simpl. split; [exact Hf'|]. by rewrite Hw'.
  - unfold listener_conn. simpl. destruct f as [prots [io|io|io|io m k|io k|] na]; simpl; [lia..|]. by destruct Hf.
  - unfold listener_conn. simpl. by destruct f as [prots [io|io|io|io m k|io k|] na].
Qed.

Lemma close_dialer_step s :
  sys_inv s →
  ∃ s', sys_step fuel CloseDialer s = Ret s' ∧ sys_inv s' ∧ sys_dialer s' = sys_dialer s ∧
    sys_dialer_out s' = sys_dialer_out s ∧ sys_to_listener s' = sys_to_listener s ∧
    sys_listener_out s' = sys_listener_out s ∧ sys_to_dialer s' = sys_to_dialer s ∧
    match sys_dialer s, sys_listener s with
    | Resolved (Err _), Running _ => sys_to_listener s = length (sys_dialer_out s) → (listener_conn s').2 = true
    | _, _ => s' = s
    end.
Proof.
  intros Hinv. pose proof (at_listener_prefix s Hinv) as HB.
  destruct s as [[g|[?|e]] d_out to_l [f|res] l_out to_d]; simpl; try by eexists.
  destruct (decide (to_l = length d_out)) as [->|]; [|by eexists].
  destruct Hinv as (Hd & [Hl [Hf Hw]] & Hto_l & Hto_d). simpl in *.
  destruct Hd as (Hd & (HBd & HOd & Hnone) & _). destruct e; [done|]. rewrite HBd in Hf.
  pose proof (listener_inv_all _ _ _ Hf HB) as Hall.
  destruct (listener_inv_map Hf hang_up []) as [Hf' Hw'].
  { intros r. simpl. by rewrite app_nil_r. }
  { intros r _. right. by rewrite app_nil_r. }
  { by rewrite app_nil_r. }
  { rewrite Hw, <-HBd. apply prefix_take. }
  rewrite app_nil_r, <-HBd in Hf'.
  eexists. split; [done|]. split_and!; [|done|done|done|done|done|].
  - split_and!; simpl; [by split_and!| |lia|exact Hto_d]. split; [exact Hl|]. simpl. split; [exact Hf'|]. by rewrite Hw'.
  - intros _. unfold listener_conn. simpl. destruct f as [prots [io|io|io|io m k|io k|] na]; try done. by destruct Hf.
Qed.

Lemma sys_step_inv a s : sys_inv s → ∃ s', sys_step fuel a s = Ret s' ∧ sys_inv s'.
Proof.
  intros Hinv. destruct a as [| |n|n|n|n|].
  - destruct (poll_dialer_step s Hinv) as (d & d_out & Hs & Hi & _). eauto.
  - destruct (poll_listener_step s Hinv) as (l & l_out & Hs & Hi & _). eauto.
  - destruct (deliver_listener_step s n Hinv) as (s' & Hs & Hi & _). eauto.
  - destruct (deliver_dialer_step s n Hinv) as (s' & Hs & Hi & _). eauto.
  - destruct (grant_dialer_step s n Hinv) as (s' & Hs & Hi & _). eauto.
  - destruct (grant_listener_step s n Hinv) as (s' & Hs & Hi & _). eauto.
  - destruct (close_dialer_step s Hinv) as (s' & Hs & Hi & _). eauto.
Qed.

Lemma sys_run_inv schedule s : sys_inv s → ∃ s', sys_run fuel schedule s = Ret s' ∧ sys_inv s'.
Proof.
  revert s. induction schedule as [|a schedule IH]; intros s Hinv; simpl; [by eauto|].
  destruct (sys_step_inv a s Hinv) as (s' & -> & Hinv'). by apply IH.
Qed.

(** ** What the two sides settle on *)

(** The first protocol of the dialer that the listener has as well. *)
Definition chosen : option N := find (λ p, bool_decide (as_ref p ∈ as_ref <$> qs)) ps.

Lemma find_protocol_Some (p q : N) :
  find_protocol (listener_protocols as_ref qs) (proto as_ref p) = Some q → q ∈ qs ∧ as_ref q = as_ref p.
Proof.
  unfold find_protocol, listener_protocols. intros ([q1 pr] & Hf & ->)%fmap_Some. apply find_some in Hf as [Hin Heq].
  apply bool_decide_eq_true in Heq as <-. apply list_elem_of_In in Hin.
  apply list_elem_of_omap in Hin as (q & Hq & Ht). simpl.
  destruct (Protocol_try_from (as_ref q)) as [pr|] eqn:E; [|done]. injection Ht as <- Hpr. split; [done|].
  apply Protocol_try_from_Ok in E as [_ ->]. by rewrite Hpr.
Qed.

Lemma supported_iff p : proposable as_ref p → supported as_ref qs p = bool_decide (as_ref p ∈ as_ref <$> qs).
Proof.
  intros [[Hn _] _]. unfold supported. destruct (find_protocol _ _) as [q|] eqn:E; symmetry.
  - apply bool_decide_eq_true. apply find_protocol_Some in E as [Hq <-]. by apply list_elem_of_fmap_2.
  - apply bool_decide_eq_false. intros (q & Hpq & Hq)%list_elem_of_fmap. apply fmap_None in E.
    assert ((q, proto as_ref p) ∈ listener_protocols as_ref qs) as Hin.
    { apply list_elem_of_omap. exists q. split; [done|]. unfold proto. rewrite Hpq.
      assert (Protocol_try_from (as_ref q) = Ok (mkProtocol (as_ref q))) as ->; [|done].
      apply Protocol_try_from_Ok. split; [|done]. unfold name_ok in *. simpl in *. by rewrite <-Hpq. }
    eapply find_none in E; [|by apply list_elem_of_In]. simpl in E. by apply bool_decide_eq_false in E.
Qed.

Lemma chosen_supported : chosen = find (supported as_ref qs) ps.
Proof.
  unfold chosen. generalize Hps. generalize ps as l. induction 1 as [|p l Hp Hl IH]; [done|].
  simpl. rewrite supported_iff, IH by done. done.
Qed.

(** The results that the two sides may have. *)
Definition dialer_result (res : Res) : Prop :=
  match chosen with
  | Some p => ∃ r, res = Ok (p, Negotiated_completed r) ∧ dup_in r = []
  | None => res = Err NegotiationFailed
  end.
Definition listener_result (res : Res) : Prop :=
  match chosen with
  | Some p => ∃ q r, res = Ok (q, Negotiated_completed r) ∧ q ∈ qs ∧ as_ref q = as_ref p ∧ dup_in r = []
  | None => res = Err NegotiationFailed
  end.

Lemma dialer_done_result O B res : dialer_done as_ref ps qs O B res → dialer_result res.
Proof.
  unfold dialer_done, dialer_result. rewrite chosen_supported. intros (_ & _ & Hres).
  destruct res as [[n [[?|r|]]]|[|]]; try done; [|by rewrite Hres]. destruct Hres as (-> & Hin & _). by exists r.
Qed.

Lemma listener_done_result O B res : listener_done as_ref ps qs O B res → listener_result res.
Proof.
  unfold listener_done, listener_result. rewrite chosen_supported. intros (_ & _ & Hres).
  destruct res as [[n [[?|r|]]]|[|]]; try done; [|by destruct Hres as [_ ->]].
  destruct Hres as ((p & -> & [Hq Hpq]%find_protocol_Some) & Hin & _). by exists n, r.
Qed.

Lemma sys_inv_results s :
  sys_inv s → (∀ res, sys_dialer s = Resolved res → dialer_result res) ∧
              (∀ res, sys_listener s = Resolved res → listener_result res).
Proof.
  intros ([_ Hd] & [_ Hl] & _). split; intros res E; rewrite E in *.
  - by eapply dialer_done_result, Hd.
  - by eapply listener_done_result, Hl.
Qed.

(** ** Completion *)

Context (M : nat) (HM : length (wire DT) + length (wire LT) < M).

(** A fair round: there is room for all bytes, each side is polled, and all
    bytes are delivered. *)
Definition round : list action :=
  [GrantDialer M; GrantListener M; PollDialer; DeliverListener M; PollListener; DeliverDialer M; CloseDialer].

(** How far a negotiation is from its end: in the last rounds the dialer has
    resolved, and the listener has been told so; before, ever more answers
    have arrived at the dialer. *)
Definition within (n : nat) (s : system) : Prop :=
  match n with
  | 0 => resolved (sys_dialer s) ∧ resolved (sys_listener s)
  | 1 => resolved (sys_dialer s) ∧ (resolved (sys_listener s) ∨ (listener_conn s).2 = true)
  | 2 => resolved (sys_dialer s)
  | S (S (S m)) => resolved (sys_dialer s) ∨ wire (take (length LT - m) LT) `prefix_of` at_dialer s
  end.

Lemma length_transcripts : length DT = length LT ∧ length LT ≤ S (length ps).
Proof.
  unfold dialer_messages, listener_messages. simpl.
  assert (∀ l, length (proposals as_ref qs l) = length (answers as_ref qs l) ∧ length (answers as_ref qs l) ≤ length l) as H.
  { intros l. induction l as [|p l IH]; simpl; [lia|]. destruct (supported as_ref qs p); simpl; lia. }
  destruct (H ps). lia.
Qed.

Lemma wire_take_le (ms : list Message) i j :
  Forall msg_ok ms → wire (take i ms) `prefix_of` wire (take j ms) → i ≤ length ms → i ≤ j.
Proof.
  intros Hok Hpre Hi. destruct (decide (i ≤ j)) as [|Hlt]; [done|]. exfalso.
  assert (take i ms = take j ms ++ take (i - j) (drop j ms)) as E.
  { rewrite take_take_drop. f_equal. lia. }
  rewrite E in Hpre. apply wire_rest_nil in Hpre; [|by apply Forall_take, Forall_drop].
  apply (f_equal length) in Hpre. rewrite length_take, length_drop in Hpre. simpl in Hpre. lia.
Qed.

Lemma wire_take_mono (ms : list Message) i j : i ≤ j → wire (take i ms) `prefix_of` wire (take j ms).
Proof.
  intros Hle. apply wire_prefix. replace j with (i + (j - i)) by lia. rewrite <-take_take_drop. by apply prefix_app_r.
Qed.

(** What holds after both sides have been polled in a round. *)
Record polled (s s' : system) : Prop := {
  polled_inv : sys_inv s';
  polled_at : at_dialer s' = at_dialer s;
  polled_dialer : resolved (sys_dialer s) → resolved (sys_dialer s');
  polled_listener : resolved (sys_listener s) → resolved (sys_listener s');
  polled_dialer_waits : ¬ resolved (sys_dialer s') → ∃ k, S k ≤ length LT ∧
    sys_dialer_out s' = wire (take (S k) DT) ∧ ¬ wire (take (S k) LT) `prefix_of` at_dialer s;
  polled_listener_waits : ¬ resolved (sys_listener s') → ∃ j, j ≤ length LT ∧
    sys_listener_out s' = wire (take j LT) ∧ (j < length DT → ¬ wire (take (S j) DT) `prefix_of` sys_dialer_out s') ∧
    (is_Some chosen → j < length LT) ∧ (listener_conn s).2 = false ∧
    sys_to_listener s' = length (sys_dialer_out s');
}.

Lemma sys_run_app a b s : sys_run fuel (a ++ b) s = s' ← sys_run fuel a s; sys_run fuel b s'.
Proof.
  revert s. induction a as [|x a IH]; intros s; [done|]. cbn [app sys_run].
  destruct (sys_step fuel x s); [apply IH|done].
Qed.

Lemma poll_dialer_phase s :
  sys_inv s →
  ∃ s', sys_run fuel [GrantDialer M; GrantListener M; PollDialer] s = Ret s' ∧ sys_inv s' ∧
    at_dialer s' = at_dialer s ∧ (resolved (sys_dialer s) → resolved (sys_dialer s')) ∧
    (¬ resolved (sys_dialer s') → ∃ k, S k ≤ length LT ∧
       sys_dialer_out s' = wire (take (S k) DT) ∧ ¬ wire (take (S k) LT) `prefix_of` at_dialer s) ∧
    match sys_listener s with
    | Running _ => M ≤ (listener_conn s').1 ∧ (listener_conn s').2 = (listener_conn s).2 ∧ ¬ resolved (sys_listener s')
    | Resolved _ => resolved (sys_listener s')
    end.
Proof.
  intros Hinv. cbn [sys_run].
  destruct (grant_dialer_step s M Hinv) as (s1 & -> & Hi1 & Hl1 & Hdo1 & Htl1 & Hlo1 & Htd1 & Hd1). cbn [mbind outcome_bind].
  destruct (grant_listener_step s1 M Hi1) as (s2 & -> & Hi2 & Hd2 & Hdo2 & Htl2 & Hlo2 & Htd2 & Hl2). cbn [mbind outcome_bind].
  destruct (poll_dialer_step s2 Hi2) as (d & d_out & -> & Hi3 & Hat & Hr & Hw). cbn [mbind outcome_bind].
  set (s3 := mkSystem d d_out (sys_to_listener s2) (sys_listener s2) (sys_listener_out s2) (sys_to_dialer s2)) in *.
  assert (at_dialer s3 = at_dialer s) as Hat3.
  { unfold at_dialer, s3. simpl. by rewrite Hlo2, Htd2, Hlo1, Htd1. }
  assert (at_dialer s2 = at_dialer s) as Hat2.
  { unfold at_dialer. by rewrite Hlo2, Htd2, Hlo1, Htd1. }
  exists s3. split; [done|]. split_and!; [done|done| | |].
  - intros Hres. apply Hr. rewrite Hd2. destruct (sys_dialer s) eqn:E; [done|]. by rewrite Hd1, E.
  - intros Hnr. destruct d as [f|res]; [|by simpl in Hnr]. destruct (sys_dialer s) as [f0|res0] eqn:E.
    + destruct Hd1 as [Hcap [f1 Hf1]]. assert (dialer_conn s2 = dialer_conn s1) as Hc by (unfold dialer_conn; by rewrite Hd2).
      destruct Hw as (io & k & Hio & Hk & Hout & Hno); [rewrite Hc; lia|]. exists k.
      destruct Hi3 as [[_ [_ Hwr]] _]. simpl in Hwr. rewrite Hio in Hwr. simpl in Hwr. simpl. rewrite <-Hwr, <-Hat2.
      split_and!; [|done|done]. pose proof (proj1 length_transcripts) as Hlt. unfold dialer_messages in Hlt. simpl in Hlt. lia.
    + exfalso. apply Hnr. apply Hr. by rewrite Hd2, Hd1, E.
  - rewrite Hl1 in Hl2. destruct (sys_listener s) as [f0|res0] eqn:E.
    + destruct Hl2 as (Hcap & Heof & f & Hf). unfold listener_conn in *. simpl. rewrite Hf in *. rewrite Hl1 in Heof.
      rewrite E. split_and!; [lia|exact Heof|intros []].
    + simpl. rewrite Hl2, Hl1. done.
Qed.

Lemma poll_phase s :
  sys_inv s →
  ∃ s', sys_run fuel [GrantDialer M; GrantListener M; PollDialer; DeliverListener M; PollListener] s = Ret s' ∧ polled s s'.
Proof.
  intros Hinv. change (sys_run fuel [GrantDialer M; GrantListener M; PollDialer; DeliverListener M; PollListener] s)
    with (sys_run fuel ([GrantDialer M; GrantListener M; PollDialer] ++ [DeliverListener M; PollListener]) s).
  rewrite sys_run_app. destruct (poll_dialer_phase s Hinv) as (s3 & -> & Hi3 & Hat3 & Hr3 & Hw3 & Hl3).
  cbn [mbind outcome_bind sys_run].
  destruct (deliver_listener_step s3 M Hi3) as (s4 & -> & Hi4 & Hd4 & Hdo4 & Hlo4 & Hat4 & Hc4 & Hl4). cbn [mbind outcome_bind].
  destruct (poll_listener_step s4 Hi4) as (l & l_out & -> & Hi5 & Hat5 & Hr5 & Hw5). cbn [mbind outcome_bind].
  eexists. split; [done|]. split; simpl.
  - done.
  - by rewrite Hat5, Hat4, Hat3.
  - intros Hr. rewrite Hd4. by apply Hr3.
  - intros Hr. apply Hr5. destruct (sys_listener s); [done|]. destruct (sys_listener s3) eqn:E; [done|]. by rewrite Hl4, E.
  - rewrite Hd4, Hdo4. exact Hw3.
  - intros Hnr. destruct l as [f|res]; [|by simpl in Hnr].
    destruct (sys_listener s3) as [f3|res3] eqn:E3.
    2: { exfalso. apply Hnr, Hr5. by rewrite Hl4, E3. }
    destruct (sys_listener s) as [f0|res0] eqn:E0; [|done]. destruct Hl3 as (Hcap & Heof & _).
    assert (length (sys_dialer_out s3) ≤ M) as Hlen.
    { destruct Hi3 as [[Hpre%prefix_length _] _]. lia. }
    destruct (Hl4 Hlen) as [Hat Hto]. destruct Hw5 as [Hconn Hw5]. rewrite Hc4 in *.
    destruct Hw5 as (io & j & Hio & Hj & He & Hout & Hno & Hs); [lia|]. exists j.
    destruct Hi5 as (_ & [_ [_ Hwr]] & _). simpl in Hwr. rewrite Hio in Hwr. simpl in Hwr.
    rewrite Hat in Hno. rewrite <-Hwr, Hdo4, <-Heof, Hconn, Hio, chosen_supported.
    split_and!; [done|exact Hout|exact Hno|exact Hs|exact He|exact Hto].
Qed.

Lemma sides_resolved_dec {F A} (x : side F A) : resolved x ∨ ¬ resolved x.
Proof. destruct x; [right; intros []|by left]. Qed.

(** The dialer goes on waiting in a round only if one more answer arrives. *)
Lemma polled_progress s s' k :
  polled s s' → ¬ resolved (sys_dialer s') → wire (take k LT) `prefix_of` at_dialer s →
  k < length LT ∧ wire (take (S k) LT) `prefix_of` sys_listener_out s'.
Proof.
  intros Hp Hnr Hk. destruct (polled_dialer_waits _ _ Hp Hnr) as (k' & Hk' & Hdo & Hno).
  assert (k ≤ k') as Hle.
  { destruct (decide (k ≤ k')) as [|Hlt]; [done|]. exfalso. apply Hno. etrans; [|exact Hk]. apply wire_take_mono. lia. }
  split; [lia|]. destruct (sides_resolved_dec (sys_listener s')) as [Hr|Hnl].
  - destruct (polled_inv _ _ Hp) as (_ & [Hlo Hl] & _). destruct (sys_listener s') as [|res]; [done|].
    assert (sys_listener_out s' = wire LT ∨ at_dialer s' = wire LT) as [->|Hat].
    { destruct Hl as [(_ & _ & Hres) Hwr]. destruct res as [[n [[?|r|]]]|[|]]; try done; [left|right; apply Hres].
      destruct Hres as (_ & _ & <-). exact (eq_sym Hwr). }
    + rewrite <-(firstn_all LT) at 2. apply wire_take_mono. lia.
    + rewrite (polled_at _ _ Hp) in Hat. exfalso. apply Hno. rewrite Hat. rewrite <-(firstn_all LT) at 2. apply wire_take_mono. lia.
  - destruct (polled_listener_waits _ _ Hp Hnl) as (j & Hj & -> & Hnoj & _). apply wire_take_mono.
    destruct (decide (S k ≤ j)) as [|Hlt]; [done|]. exfalso. apply Hnoj; [destruct length_transcripts; lia|].
    rewrite Hdo. apply wire_take_mono. lia.
Qed.

(** Once the dialer has resolved, the listener resolves, or has only to be told
    that the dialer has given up. *)
Lemma polled_dialer_resolved s s' :
  polled s s' → resolved (sys_dialer s') → ¬ resolved (sys_listener s') →
  sys_dialer s' = Resolved (Err NegotiationFailed) ∧ sys_to_listener s' = length (sys_dialer_out s').
Proof.
  intros Hp Hr Hnl. destruct (polled_listener_waits _ _ Hp Hnl) as (j & Hj & Hlo & _ & Hs & _ & Hto). split; [|done].
  pose proof (polled_inv _ _ Hp) as Hinv. pose proof (proj1 (sys_inv_results _ Hinv)) as Hres.
  destruct Hinv as ([_ Hd] & _ & _ & Htd). destruct (sys_dialer s') as [|res]; [done|].
  specialize (Hres res eq_refl). unfold dialer_result in Hres. destruct chosen as [p|] eqn:Ec; [|by subst].
  exfalso. destruct Hd as [(HB & _) _]. specialize (Hs (mk_is_Some _ _ eq_refl)).
  assert (wire (take (length LT) LT) `prefix_of` wire (take j LT)) as Hpre.
  { rewrite firstn_all, <-HB, <-Hlo. apply prefix_take. }
  apply wire_take_le in Hpre; [lia|by apply listener_messages_ok|lia].
Qed.

Lemma round_step n s :
  sys_inv s → within n s → ∃ s', sys_run fuel round s = Ret s' ∧ sys_inv s' ∧ within (pred n) s'.
Proof.
  intros Hinv Hn. unfold round.
  change [GrantDialer M; GrantListener M; PollDialer; DeliverListener M; PollListener; DeliverDialer M; CloseDialer]
    with ([GrantDialer M; GrantListener M; PollDialer; DeliverListener M; PollListener] ++ [DeliverDialer M; CloseDialer]).
  rewrite sys_run_app. destruct (poll_phase s Hinv) as (s1 & -> & Hp). cbn [mbind outcome_bind sys_run].
  pose proof (polled_inv _ _ Hp) as Hi1.
  destruct (deliver_dialer_step s1 M Hi1) as (s2 & -> & Hi2 & Hl2 & Hdo2 & Htl2 & Hlo2 & Hc2 & Hd2). cbn [mbind outcome_bind].
  destruct (close_dialer_step s2 Hi2) as (s3 & -> & Hi3 & Hd3 & Hdo3 & Htl3 & Hlo3 & Htd3 & Hl3). cbn [mbind outcome_bind].
  exists s3. split; [done|]. split; [done|].
  destruct (sides_resolved_dec (sys_dialer s1)) as [Hr|Hnr].
  - (* the dialer has resolved *)
    assert (s2 = s1) as -> by (by destruct (sys_dialer s1)).
    assert (resolved (sys_dialer s3)) as Hr3 by (by rewrite Hd3).
    destruct (sides_resolved_dec (sys_listener s1)) as [Hlr|Hlnr].
    + assert (s3 = s1) as -> by (destruct (sys_dialer s1) as [|[]], (sys_listener s1); done).
      destruct n as [|[|[|m]]]; simpl; [by split..|by split; [|left]|]. destruct m as [|m]; [done|]. by left.
    + destruct (polled_dialer_resolved _ _ Hp Hr Hlnr) as [Ed Hto]. rewrite Ed in Hl3.
      destruct (polled_listener_waits _ _ Hp Hlnr) as (j & _ & _ & _ & _ & Heof & _).
      destruct (sys_listener s1) as [f1|] eqn:El1; [|by exfalso; apply Hlnr]. specialize (Hl3 Hto).
      destruct n as [|[|[|m]]]; simpl.
      * exfalso. apply Hlnr. pose proof (polled_listener _ _ Hp (proj2 Hn)) as H. by rewrite El1 in H.
      * exfalso. destruct Hn as [_ [Hn|Hn]]; [|congruence]. pose proof (polled_listener _ _ Hp Hn) as H. by rewrite El1 in H.
      * by split; [|right].
      * destruct m as [|m]; [done|]. by left.
  - (* the dialer is waiting *)
    assert (∀ k, wire (take k LT) `prefix_of` at_dialer s →
            k < length LT ∧ wire (take (S k) LT) `prefix_of` at_dialer s3) as Hprog.
    { intros k Hk. destruct (polled_progress _ _ _ Hp Hnr Hk) as [Hlt Hpre]. split; [done|].
      assert (at_dialer s3 = sys_listener_out s1) as ->; [|done].
      assert (at_dialer s3 = at_dialer s2) as -> by (unfold at_dialer; by rewrite Hlo3, Htd3).
      destruct (sys_dialer s1); [|by exfalso; apply Hnr]. apply Hd2.
      destruct Hi1 as (_ & [Hle%prefix_length _] & _). lia. }
    assert (¬ resolved (sys_dialer s)) as Hns by (intros H; by apply Hnr, (polled_dialer _ _ Hp)).
    destruct n as [|[|[|m]]]; cbn [within] in Hn; [by destruct Hn|by destruct Hn|done|]. destruct Hn as [Hn|Hn]; [done|].
    apply Hprog in Hn as [Hlt Hn]. destruct m as [|m]; [lia|]. cbn [within pred]. right.
    destruct (decide (m < length LT)); [by replace (length LT - m) with (S (length LT - S m)) by lia|].
    replace (length LT - m) with 0 by lia. apply prefix_nil.
Qed.

Lemma rounds_complete n m s :
  sys_inv s → within n s → n ≤ m →
  ∃ s', sys_run fuel (mjoin (replicate m round)) s = Ret s' ∧ sys_inv s' ∧ within 0 s'.
Proof.
  revert n s. induction m as [|m IH]; intros n s Hinv Hn Hle; [assert (n = 0) as -> by lia; by exists s|].
  change (mjoin (replicate (S m) round)) with (round ++ mjoin (replicate m round)). rewrite sys_run_app.
  destruct (round_step n s Hinv Hn) as (s1 & -> & Hi1 & Hn1). apply (IH (pred n)); [done|done|lia].
Qed.

Lemma within_max s : within (3 + length LT) s.
Proof. simpl. right. rewrite Nat.sub_diag. apply prefix_nil. Qed.

(** [C10] The serial dialer, with version [V1], and the listener never disagree.
    Whatever the schedule of polls, of portions in which bytes arrive and of waiting
    for room, no call panics; if a side resolves, then with the first protocol of the
    dialer that the listener has as well, on a stream that holds no unread negotiation
    data; and if there is none, both can only fail, without a protocol error. *)
Theorem negotiation_agrees (schedule : list action) :
  ∃ s, sys_run fuel schedule sys_new = Ret s ∧
    (∀ res, sys_dialer s = Resolved res → dialer_result res) ∧
    (∀ res, sys_listener s = Resolved res → listener_result res).
Proof.
  destruct (sys_run_inv schedule sys_new sys_inv_new) as (s & Hs & Hinv). exists s. split; [done|]. by apply sys_inv_results.
Qed.

(** [C3] A negotiation of the serial dialer, with version [V1], completes.  After any
    schedule whatsoever, a number of fair rounds that is bounded by the number of
    protocols of the dialer makes both sides resolve: with the same protocol, the
    first of the dialer that the listener has as well, or both with a failed
    negotiation if there is none. *)
Theorem negotiation_completes (schedule : list action) :
  ∃ s rd rl, sys_run fuel (schedule ++ mjoin (replicate (length ps + 4) round)) sys_new = Ret s ∧
    sys_dialer s = Resolved rd ∧ sys_listener s = Resolved rl ∧ dialer_result rd ∧ listener_result rl.
Proof.
  rewrite sys_run_app. destruct (sys_run_inv schedule sys_new sys_inv_new) as (s0 & -> & Hinv0). cbn [mbind outcome_bind].
  destruct (rounds_complete (3 + length LT) (length ps + 4) s0 Hinv0 (within_max s0)) as (s & -> & Hinv & [Hd Hl]).
  { destruct length_transcripts. lia. }
  destruct (sys_inv_results s Hinv) as [Hrd Hrl].
  destruct (sys_dialer s) as [|rd] eqn:Ed; [done|]. destruct (sys_listener s) as [|rl] eqn:El; [done|].
  exists s, rd, rl. split_and!; auto.
Qed.
End system.

(** A dialer with the protocols /a and /b, a listener with /b and /c; the first
    bytes arrive one by one. *)
#[local] Existing Instances Leb128 Leb128_spec.

Definition name_a : list byte := [SLASH; Byte.x61].
Definition name_b : list byte := [SLASH; Byte.x62].
Definition name_c : list byte := [SLASH; Byte.x63].

Lemma proposable_name b : b ≠ LF → proposable id [SLASH; b].
Proof.
  intros Hb. split; [|unfold frame_ok; vm_compute; done]. split_and!; [done| |done].
  intros [?|[?|H]%elem_of_cons]%elem_of_cons; [discriminate|congruence|by apply elem_of_nil in H].
Qed.

Lemma proposable_ab : Forall (proposable id) [name_a; name_b].
Proof. apply Forall_cons. split; [by apply proposable_name|]. apply Forall_singleton. by apply proposable_name. Qed.

Lemma negotiation_agrees_witness :
  ∃ s, sys_run id 300 [GrantDialer 3; PollDialer; DeliverListener 1; PollListener; DeliverListener 2; PollListener]
         (sys_new id [name_a; name_b] [name_b; name_c]) = Ret s ∧
    (∀ res, sys_dialer s = Resolved res → dialer_result id [name_a; name_b] [name_b; name_c] res) ∧
    (∀ res, sys_listener s = Resolved res → listener_result id [name_a; name_b] [name_b; name_c] res).
Proof.
  apply negotiation_agrees; [apply proposable_ab|done|]. vm_compute. lia.
Defined.

Lemma negotiation_completes_witness :
  ∃ s rd rl, sys_run id 300 ([PollListener; PollDialer] ++ mjoin (replicate 6 (round 100)))
               (sys_new id [name_a; name_b] [name_b; name_c]) = Ret s ∧
    sys_dialer s = Resolved rd ∧ sys_listener s = Resolved rl ∧
    dialer_result id [name_a; name_b] [name_b; name_c] rd ∧
    listener_result id [name_a; name_b] [name_b; name_c] rl.
Proof.
  apply (negotiation_completes id [name_a; name_b] [name_b; name_c] proposable_ab) with (M := 100).
  - done.
  - vm_compute. lia.
  - vm_compute. lia.
Defined.

(** ** A remote that stops reading *)

(** A stream whose remote no longer takes any bytes, but has sent some. *)
Record HalfClosed : Type := mkHalfClosed { hc_in : list byte }.

#[local] Instance HalfClosed_io : AsyncIo HalfClosed := {
  poll_read r n := (Ready (Ok (take n (hc_in r))), mkHalfClosed (drop n (hc_in r)));
  poll_write r _ := (Ready (Ok 0), r);
  poll_flush r := (Ready (Ok ()), r);
  poll_close r := (Ready (Ok ()), r);
  poll_read_vectored r ns := (Ready (Ok (take (sum_list ns) (hc_in r))), mkHalfClosed (drop (sum_list ns) (hc_in r)));
  poll_write_vectored r _ := (Ready (Ok 0), r);
}.

#[local] Instance HalfClosed_contract : AsyncIoContract HalfClosed.
Proof. split; intros r r' x y; simpl; intros H; simplify_eq; [rewrite length_take|]; lia. Qed.

(** The remote has confirmed the protocol /a before it was proposed. *)
Definition confirmed_early : HalfClosed := mkHalfClosed (wire [Header HeaderV1; MProtocol (mkProtocol name_a)]).

(** A stream that the dialer has settled on /a for, without having sent it. *)
Definition settled : option (Negotiated HalfClosed) :=
  match DialerSelectSeq_poll id 10 (dialer_select_proto_serial confirmed_early [name_a] VersionV1Lazy) with
  | Ret (Ready (Ok (_, io)), _) => Some io
  | _ => None
  end.

(** A remote can make a lazy dialer panic.  If the remote does not take the
    proposal but confirms the protocol all the same, [poll] goes on to read
    after the write error and takes the stream out of its reader although the
    proposal is still in the write buffer. *)
Theorem Negotiated_poll_panics_unsent :
  ∃ io, settled = Some io ∧
    (∃ io', Negotiated_poll_flush io = Ret (Ready (Err WriteZero), io') ∧
     ∃ rd1 rd2 rd3,
       neg_state io' = Expecting rd1 (Some HeaderV1) (mkProtocol name_a) ∧
       MessageReader_poll_next rd1 = Ret (Ready (Some (Ok (Header HeaderV1))), rd2) ∧
       MessageReader_poll_next rd2 = Ret (Ready (Some (Ok (MProtocol (mkProtocol name_a)))), rd3) ∧
       MessageReader_into_inner rd3 = Panic) ∧
    Negotiated_poll io = Panic ∧ Negotiated_poll_read io 1 = Panic.
Proof.
  eexists. split; [vm_compute; reflexivity|]. split; [|split; vm_compute; reflexivity].
  eexists. split; [vm_compute; reflexivity|]. do 3 eexists.
  split; [reflexivity|]. split; [vm_compute; reflexivity|]. split; vm_compute; reflexivity.
Qed.

(** ** Garbage after a rejection *)

(** A lazy dialer proposes /a and goes on with data of that protocol; the
    listener supports /b only. *)
Definition lazy_stream (data : list byte) : Duplex :=
  mkDuplex (wire [Header HeaderV1; MProtocol (mkProtocol name_a)] ++ data) false [] 100.

Definition listener_end (data : list byte) : option NegotiationError :=
  match ListenerSelectFuture_poll 20 (listener_select_proto id (lazy_stream data) [name_b]) with
  | Ret (Ready (Err err), _) => Some err
  | _ => None
  end.

(** After a rejection the listener reports data that is not a message as a
    failed negotiation in some cases only.  Data that is taken for a frame
    with a wrong list of protocols is a failed negotiation, but data that is
    not a frame or has no valid length in it is reported as an I/O error. *)
Theorem listener_garbage_after_rejection :
  listener_end [Byte.x01; Byte.x00] = Some NegotiationFailed ∧
  listener_end [Byte.xff; Byte.xff] = Some (NegotiationProtocolError (IoError InvalidData)) ∧
  listener_end [Byte.x01; Byte.xff] = Some (NegotiationProtocolError (IoError InvalidData)).
Proof. split_and!; vm_compute; reflexivity. Qed.
