(* ===== verification/MplexCodec.v ===== *)
(** * The frames of the mplex multiplexer

    [muxers/mplex/src/codec.rs] with [MplexConfig] of [config.rs] and [Endpoint]
    of [core/src/connection.rs].  The encoder and the incremental decoder are
    parametric in the crate [unsigned_varint].  The round trip states that
    whatever the portions in which encoded frames arrive, exactly these frames
    are decoded. *)

From S2P Require Import Prelude AsyncIo.

(** ** Stream identifiers *)

Inductive Endpoint : Type := Dialer | Listener.

Definition Endpoint_not (e : Endpoint) : Endpoint :=
  match e with Dialer => Listener | Listener => Dialer end.

#[export] Instance Endpoint_eq_dec : EqDecision Endpoint.
Proof. solve_decision. Defined.

#[export] Instance Endpoint_not_inj : Inj (=) (=) Endpoint_not.
Proof. by intros [] []. Qed.

Lemma Endpoint_not_not e : Endpoint_not (Endpoint_not e) = e.
Proof. by destruct e. Qed.

(** [num] is a [u64]. *)
Record LocalStreamId : Type := mkLocalStreamId { lid_num : N; lid_role : Endpoint }.
Record RemoteStreamId : Type := mkRemoteStreamId { rid_num : N; rid_role : Endpoint }.

#[export] Instance LocalStreamId_eq_dec : EqDecision LocalStreamId.
Proof. solve_decision. Defined.
#[export] Instance RemoteStreamId_eq_dec : EqDecision RemoteStreamId.
Proof. solve_decision. Defined.

#[export] Instance LocalStreamId_inhabited : Inhabited LocalStreamId := populate (mkLocalStreamId 0 Dialer).

#[export, refine] Instance LocalStreamId_countable : Countable LocalStreamId :=
  inj_countable' (λ i, (lid_num i, bool_decide (lid_role i = Dialer)))
    (λ p, mkLocalStreamId p.1 (if p.2 then Dialer else Listener)) _.
Proof. by intros [n []]. Defined.

Definition LocalStreamId_dialer (num : N) : LocalStreamId := mkLocalStreamId num Dialer.
Definition LocalStreamId_listener (num : N) : LocalStreamId := mkLocalStreamId num Listener.

(** [checked_add] with [expect]. *)
Definition LocalStreamId_next (i : LocalStreamId) : outcome LocalStreamId :=
  if decide (lid_num i + 1 < 2 ^ 64)%N then Ret (mkLocalStreamId (lid_num i + 1) (lid_role i)) else Panic.

Definition LocalStreamId_into_remote (i : LocalStreamId) : RemoteStreamId :=
  mkRemoteStreamId (lid_num i) (Endpoint_not (lid_role i)).

Definition RemoteStreamId_dialer (num : N) : RemoteStreamId := mkRemoteStreamId num Dialer.
Definition RemoteStreamId_listener (num : N) : RemoteStreamId := mkRemoteStreamId num Listener.

Definition RemoteStreamId_into_local (i : RemoteStreamId) : LocalStreamId :=
  mkLocalStreamId (rid_num i) (Endpoint_not (rid_role i)).

(** ** Frames *)

Inductive Frame (T : Type) : Type :=
| Frame_Open (stream_id : T)
| Frame_Data (stream_id : T) (data : list byte)
| Frame_Close (stream_id : T)
| Frame_Reset (stream_id : T).
Arguments Frame_Open {T} stream_id.
Arguments Frame_Data {T} stream_id data.
Arguments Frame_Close {T} stream_id.
Arguments Frame_Reset {T} stream_id.

#[export] Instance Frame_eq_dec `{EqDecision T} : EqDecision (Frame T).
Proof. solve_decision. Defined.

Definition Frame_id {T} (f : Frame T) : T :=
  match f with
  | Frame_Open i | Frame_Data i _ | Frame_Close i | Frame_Reset i => i
  end.

Definition Frame_remote_id (f : Frame RemoteStreamId) : RemoteStreamId :=
  match f with
  | Frame_Open stream_id => stream_id
  | Frame_Data stream_id _ => stream_id
  | Frame_Close stream_id => stream_id
  | Frame_Reset stream_id => stream_id
  end.

#[export] Instance Frame_fmap : FMap Frame := λ A B f x,
  match x with
  | Frame_Open i => Frame_Open (f i)
  | Frame_Data i d => Frame_Data (f i) d
  | Frame_Close i => Frame_Close (f i)
  | Frame_Reset i => Frame_Reset (f i)
  end.

(** ** Configuration *)

Definition Codec_MAX_FRAME_SIZE : nat := 1024 * 1024.
Arguments Codec_MAX_FRAME_SIZE : simpl never.

Inductive MaxBufferBehaviour : Type := ResetStream | Block.

#[export] Instance MaxBufferBehaviour_eq_dec : EqDecision MaxBufferBehaviour.
Proof. solve_decision. Defined.

Record MplexConfig : Type := mkMplexConfig {
  max_substreams : nat;
  max_buffer_len : nat;
  max_buffer_behaviour : MaxBufferBehaviour;
  split_send_size : nat;
  protocol_name : list byte;
}.

(** ["/mplex/6.7.0"] *)
Definition DEFAULT_MPLEX_PROTOCOL_NAME : list byte :=
  N2b <$> [47; 109; 112; 108; 101; 120; 47; 54; 46; 55; 46; 48]%N.

Definition MplexConfig_default : MplexConfig :=
  mkMplexConfig 128 32 Block (8 * 1024) DEFAULT_MPLEX_PROTOCOL_NAME.

Definition MplexConfig_new : MplexConfig := MplexConfig_default.

Definition set_max_num_streams (c : MplexConfig) (max : nat) : MplexConfig :=
  mkMplexConfig max (max_buffer_len c) (max_buffer_behaviour c) (split_send_size c) (protocol_name c).

Definition set_max_buffer_size (c : MplexConfig) (max : nat) : MplexConfig :=
  mkMplexConfig (max_substreams c) max (max_buffer_behaviour c) (split_send_size c) (protocol_name c).

Definition set_max_buffer_behaviour (c : MplexConfig) (behaviour : MaxBufferBehaviour) : MplexConfig :=
  mkMplexConfig (max_substreams c) (max_buffer_len c) behaviour (split_send_size c) (protocol_name c).

Definition set_split_send_size (c : MplexConfig) (size : nat) : MplexConfig :=
  mkMplexConfig (max_substreams c) (max_buffer_len c) (max_buffer_behaviour c)
    (size `min` Codec_MAX_FRAME_SIZE) (protocol_name c).

Definition set_protocol_name (c : MplexConfig) (name : list byte) : MplexConfig :=
  mkMplexConfig (max_substreams c) (max_buffer_len c) (max_buffer_behaviour c) (split_send_size c) name.

(** ** The codec *)

(** [unsigned_varint::codec::Uvi]: takes an integer from the front of the buffer
    if there is one. *)
Class Uvi (bound : N) : Type :=
  uvi_codec_decode : list byte → Result (option N) ErrorKind * list byte.
Arguments uvi_codec_decode bound {_} src.

(** A complete integer is taken from the buffer; an incomplete one is left. *)
Class UviSpec (bound : N) `{!Varint bound, !Uvi bound} : Prop := {
  uvi_codec_complete n rest : (n < bound)%N →
    uvi_codec_decode bound (uvi_encode bound n ++ rest) = (Ok (Some n), rest);
  uvi_codec_partial n p q : (n < bound)%N → uvi_encode bound n = p ++ q → q ≠ [] →
    uvi_codec_decode bound p = (Ok None, p);
}.

Abbreviation u64_bound := (2 ^ 64)%N.

(** [u64]: the shift drops the bits that do not fit. *)
Definition u64_shl (a n : N) : N := (N.shiftl a n mod 2 ^ 64)%N.

Inductive CodecDecodeState : Type :=
| Begin
| HasHeader (header : N)
| HasHeaderAndLen (header : N) (len : nat)
| Poisoned.

(** [varint_decoder] has no state. *)
Record Codec : Type := mkCodec { decoder_state : CodecDecodeState }.

Definition Codec_new : Codec := mkCodec Begin.

(** The header of a frame and its data. *)
Definition Codec_header (item : Frame LocalStreamId) : N * list byte :=
  match item with
  | Frame_Open i => (u64_shl (lid_num i) 3, [])
  | Frame_Data (mkLocalStreamId num Listener) data => (N.lor (u64_shl num 3) 1, data)
  | Frame_Data (mkLocalStreamId num Dialer) data => (N.lor (u64_shl num 3) 2, data)
  | Frame_Close (mkLocalStreamId num Listener) => (N.lor (u64_shl num 3) 3, [])
  | Frame_Close (mkLocalStreamId num Dialer) => (N.lor (u64_shl num 3) 4, [])
  | Frame_Reset (mkLocalStreamId num Listener) => (N.lor (u64_shl num 3) 5, [])
  | Frame_Reset (mkLocalStreamId num Dialer) => (N.lor (u64_shl num 3) 6, [])
  end.

(** The frame that a header and the data of a frame stand for. *)
Definition Codec_frame (header : N) (buf : list byte) : option (Frame RemoteStreamId) :=
  let num := N.shiftr header 3 in
  match N.land header 7 with
  | 0 => Some (Frame_Open (RemoteStreamId_dialer num))
  | 1 => Some (Frame_Data (RemoteStreamId_listener num) buf)
  | 2 => Some (Frame_Data (RemoteStreamId_dialer num) buf)
  | 3 => Some (Frame_Close (RemoteStreamId_listener num))
  | 4 => Some (Frame_Close (RemoteStreamId_dialer num))
  | 5 => Some (Frame_Reset (RemoteStreamId_listener num))
  | 6 => Some (Frame_Reset (RemoteStreamId_dialer num))
  | _ => None
  end%N.

Section codec.
Context `{!Varint u64_bound, !Uvi u64_bound}.

(** One turn of the loop of [decode]; the state is poisoned while it runs. *)
Definition decode_turn (s : Codec * list byte) :
    outcome (Turn (Codec * list byte) (Result (option (Frame RemoteStreamId)) ErrorKind)) :=
  let '(c, src) := s in
  match decoder_state c with
  | Begin =>
      match uvi_codec_decode u64_bound src with
      | (Err e, src) => Ret (Return (Err e) (mkCodec Poisoned, src))
      | (Ok (Some header), src) => Ret (Continue (mkCodec (HasHeader header), src))
      | (Ok None, src) => Ret (Return (Ok None) (mkCodec Begin, src))
      end
  | HasHeader header =>
      match uvi_codec_decode u64_bound src with
      | (Err e, src) => Ret (Return (Err e) (mkCodec Poisoned, src))
      | (Ok (Some len), src) =>
          if decide (N.of_nat Codec_MAX_FRAME_SIZE < len)%N
          then Ret (Return (Err InvalidData) (mkCodec Poisoned, src))
          else Ret (Continue (mkCodec (HasHeaderAndLen header (N.to_nat len)), src))
      | (Ok None, src) => Ret (Return (Ok None) (mkCodec (HasHeader header), src))
      end
  | HasHeaderAndLen header len =>
      if decide (length src < len)
      then Ret (Return (Ok None) (mkCodec (HasHeaderAndLen header len), src))
      else
        let buf := take len src in
        let src := drop len src in
        match Codec_frame header buf with
        | Some out => Ret (Return (Ok (Some out)) (mkCodec Begin, src))
        | None => Ret (Return (Err InvalidData) (mkCodec Poisoned, src))
        end
  | Poisoned => Ret (Return (Err InvalidData) (c, src))
  end.

(** The state only advances, so three turns are enough. *)
Definition Codec_decode (c : Codec) (src : list byte) :
    outcome (Result (option (Frame RemoteStreamId)) ErrorKind * (Codec * list byte)) :=
  loop 3 decode_turn (c, src).

Definition Codec_encode (item : Frame LocalStreamId) (dst : list byte) : Result unit ErrorKind * list byte :=
  let '(header, data) := Codec_header item in
  let header_bytes := uvi_encode u64_bound header in
  let data_len := length data in
  let data_len_bytes := uvi_encode u64_bound (N.of_nat data_len) in
  if decide (Codec_MAX_FRAME_SIZE < data_len) then (Err InvalidData, dst)
  else (Ok (), dst ++ header_bytes ++ data_len_bytes ++ data).

(** ** Using the codec on a connection *)

(** Encodes frames one after the other, as a sink does. *)
Fixpoint encode_all (fs : list (Frame LocalStreamId)) (dst : list byte) : Result unit ErrorKind * list byte :=
  match fs with
  | [] => (Ok (), dst)
  | f :: fs =>
      match Codec_encode f dst with
      | (Ok _, dst) => encode_all fs dst
      | (Err e, dst) => (Err e, dst)
      end
  end.

(** Decodes frames until there is none left in the buffer, as a stream does. *)
Fixpoint decode_all (fuel : nat) (c : Codec) (src : list byte) :
    outcome (Result (list (Frame RemoteStreamId)) ErrorKind * (Codec * list byte)) :=
  match fuel with
  | O => Panic
  | S fuel =>
      '(r, (c, src)) ← Codec_decode c src;
      match r with
      | Ok None => Ret (Ok [], (c, src))
      | Ok (Some f) =>
          '(r, s) ← decode_all fuel c src;
          Ret (match r with Ok fs => Ok (f :: fs) | Err e => Err e end, s)
      | Err e => Ret (Err e, (c, src))
      end
  end.

(** Decodes what arrives in portions.  Every frame but the first takes bytes
    from the buffer. *)
Fixpoint decode_chunks (c : Codec) (src : list byte) (chunks : list (list byte)) :
    outcome (Result (list (Frame RemoteStreamId)) ErrorKind * (Codec * list byte)) :=
  match chunks with
  | [] => Ret (Ok [], (c, src))
  | chunk :: chunks =>
      '(r, (c, src)) ← decode_all (2 + length (src ++ chunk)) c (src ++ chunk);
      match r with
      | Ok fs =>
          '(r, s) ← decode_chunks c src chunks;
          Ret (match r with Ok fs' => Ok (fs ++ fs') | Err e => Err e end, s)
      | Err e => Ret (Err e, (c, src))
      end
  end.
End codec.

(** ** Headers *)

Lemma header_split (num k : N) :
  (num < 2 ^ 61)%N → (k < 8)%N →
  (N.lor (u64_shl num 3) k < 2 ^ 64 ∧ N.shiftr (N.lor (u64_shl num 3) k) 3 = num ∧
   N.land (N.lor (u64_shl num 3) k) 7 = k)%N.
Proof.
  intros Hn Hk. assert (u64_shl num 3 = num * 2 ^ 3)%N as ->.
  { unfold u64_shl. rewrite N.shiftl_mul_pow2. apply N.mod_small. lia. }
  assert (N.lor (num * 2 ^ 3) k = num * 2 ^ 3 + k)%N as ->.
  { rewrite <-N.shiftl_mul_pow2, N.add_nocarry_lxor, N.lxor_lor; [done|..];
      apply N.bits_inj_0; intros i; rewrite N.land_spec;
      (destruct (decide (i < 3)%N); [by rewrite N.shiftl_spec_low|]);
      apply andb_false_intro2, N.bits_above_log2; 
      (destruct (decide (k = 0)%N) as [->|]; [cbn; lia|]);
      (apply N.log2_lt_pow2; [lia|]);
      (apply (N.lt_le_trans _ (2 ^ 3)); [lia|apply N.pow_le_mono_r; lia]). }
  change (2 ^ 3)%N with 8%N. split_and!; [lia| |].
  - rewrite N.shiftr_div_pow2. change (2 ^ 3)%N with 8%N. rewrite N.div_add_l, N.div_small by lia. lia.
  - change 7%N with (N.ones 3). rewrite N.land_ones. change (2 ^ 3)%N with 8%N.
    rewrite N.add_comm, N.Div0.mod_add. by apply N.mod_small.
Qed.

(** An identifier as the other side receives it: with the role of the sender. *)
Definition LocalStreamId_received (i : LocalStreamId) : RemoteStreamId :=
  mkRemoteStreamId (lid_num i) (lid_role i).

Definition Frame_received (f : Frame LocalStreamId) : Frame RemoteStreamId := LocalStreamId_received <$> f.

(** Frames that can be sent: the identifier fits into 61 bits, the data into a frame, and
    only own streams are opened. *)
Definition Frame_valid (f : Frame LocalStreamId) : Prop :=
  (lid_num (Frame_id f) < 2 ^ 61)%N ∧ length (Codec_header f).2 ≤ Codec_MAX_FRAME_SIZE ∧
  match f with Frame_Open i => lid_role i = Dialer | _ => True end.

Lemma Codec_header_frame (f : Frame LocalStreamId) :
  Frame_valid f →
  ((Codec_header f).1 < 2 ^ 64)%N ∧
  Codec_frame (Codec_header f).1 (Codec_header f).2 = Some (Frame_received f).
Proof.
  intros (Hn & Hl & Hr). unfold Codec_frame.
  assert (∀ num, u64_shl num 3 = N.lor (u64_shl num 3) 0) as H0 by (intros; by rewrite N.lor_0_r).
  destruct f as [[num role]|[num []] data|[num []]|[num []]];
    cbn [Frame_id lid_num lid_role Codec_header fst snd] in *; subst;
    (lazymatch goal with |- context [N.lor _ _] => idtac | _ => rewrite (H0 num) end);
    match goal with |- context [N.lor _ ?k] =>
      destruct (header_split num k Hn) as (Hlt & Hs & Ha); [lia|] end;
    rewrite Hs, Ha; (split; [exact Hlt|done]).
Qed.

Section roundtrip.
Context `{!Varint u64_bound, !VarintSpec u64_bound, !Uvi u64_bound, !UviSpec u64_bound}.

(** The bytes of a frame. *)
Definition frame_bytes (f : Frame LocalStreamId) : list byte :=
  uvi_encode u64_bound (Codec_header f).1 ++
  uvi_encode u64_bound (N.of_nat (length (Codec_header f).2)) ++ (Codec_header f).2.

Lemma Codec_encode_valid f dst : Frame_valid f → Codec_encode f dst = (Ok (), dst ++ frame_bytes f).
Proof.
  intros (_ & Hl & _). unfold Codec_encode, frame_bytes.
  destruct (Codec_header f) as [h data]; simpl in *. rewrite decide_False by lia. done.
Qed.

Lemma encode_all_valid fs dst :
  Forall Frame_valid fs → encode_all fs dst = (Ok (), dst ++ mjoin (frame_bytes <$> fs)).
Proof.
  intros H. revert dst. induction H as [|f fs Hf Hfs IH]; intros dst; [by rewrite app_nil_r|].
  cbn [encode_all]. rewrite Codec_encode_valid by done. rewrite IH, <-app_assoc. done.
Qed.

(** The bytes that a decoder still has to see before the frames [fs] are
    complete. *)
Definition decoder_expects (c : Codec) (l : list byte) (fs : list (Frame LocalStreamId)) : Prop :=
  Forall Frame_valid fs ∧
  match decoder_state c with
  | Begin => l = mjoin (frame_bytes <$> fs)
  | HasHeader h =>
      ∃ f fs', fs = f :: fs' ∧ h = (Codec_header f).1 ∧
      l = uvi_encode u64_bound (N.of_nat (length (Codec_header f).2)) ++ (Codec_header f).2 ++
          mjoin (frame_bytes <$> fs')
  | HasHeaderAndLen h len =>
      ∃ f fs', fs = f :: fs' ∧ h = (Codec_header f).1 ∧ len = length (Codec_header f).2 ∧
      l = (Codec_header f).2 ++ mjoin (frame_bytes <$> fs')
  | Poisoned => False
  end.

(** What decoding a varint does when its bytes arrive in portions. *)
Lemma uvi_codec_split n tail src more :
  (n < u64_bound)%N → src ++ more = uvi_encode u64_bound n ++ tail →
  (uvi_codec_decode u64_bound src = (Ok None, src) ∧ more ≠ []) ∨
  ∃ src', uvi_codec_decode u64_bound src = (Ok (Some n), src') ∧ src' ++ more = tail ∧
          src = uvi_encode u64_bound n ++ src'.
Proof.
  intros Hn Heq. destruct (decide (length (uvi_encode u64_bound n) ≤ length src)) as [Hl|Hl].
  - right. apply app_eq_inv in Heq as [(k & -> & ->)|(k & Hk & ->)].
    + exists k. split_and!; [by apply uvi_codec_complete|done..].
    + assert (k = []) as -> by (destruct k; [done|]; rewrite Hk, length_app in Hl; simpl in Hl; lia).
      rewrite app_nil_r in Hk. exists []. rewrite <-Hk. split_and!; [|done|by rewrite app_nil_r].
      rewrite <-(app_nil_r (uvi_encode _ _)). by apply uvi_codec_complete.
  - left. apply app_eq_inv in Heq as [(k & -> & _)|(k & Hk & ->)].
    { rewrite length_app in Hl. lia. }
    assert (k ≠ []) by (intros ->; rewrite app_nil_r in Hk; rewrite Hk in Hl; lia).
    split; [by apply (uvi_codec_partial n _ k)|]. destruct k; naive_solver.
Qed.

Arguments decode_turn : simpl never.
Arguments Codec_header : simpl never.

Lemma uvi_codec_nil : uvi_codec_decode u64_bound [] = (Ok None, []).
Proof.
  apply (uvi_codec_partial 0 [] (uvi_encode u64_bound 0)); [done..|].
  destruct (uvi_encode_msb (bound := u64_bound) 0) as (init & b & -> & _); [done|]. by destruct init.
Qed.

Lemma len_u64 n : n ≤ Codec_MAX_FRAME_SIZE → (N.of_nat n < u64_bound)%N.
Proof. intros H. assert (N.of_nat Codec_MAX_FRAME_SIZE < u64_bound)%N by (vm_compute; reflexivity). lia. Qed.

Lemma decoder_expects_frame c src more fs f len :
  decoder_state c = HasHeaderAndLen (Codec_header f).1 len → decoder_expects c (src ++ more) (f :: fs) →
  (decode_turn (c, src) = Ret (Return (Ok None) (c, src)) ∧ more ≠ []) ∨
  ∃ src', decode_turn (c, src) = Ret (Return (Ok (Some (Frame_received f))) (mkCodec Begin, src')) ∧
          length src' ≤ length src ∧ decoder_expects (mkCodec Begin) (src' ++ more) fs.
Proof.
  destruct c as [st]; simpl. intros -> [Hv (f' & fs' & [= <- <-] & _ & -> & Hl)].
  unfold decode_turn; simpl. case_decide as Hlt.
  - left. split; [done|]. intros ->. rewrite app_nil_r in Hl. rewrite Hl, length_app in Hlt. lia.
  - right. inversion Hv as [|?? Hf Hfs]; subst.
    assert (take (length (Codec_header f).2) src = (Codec_header f).2) as Ht.
    { rewrite <-(take_app_le src more) by lia. rewrite Hl. apply take_app_length. }
    assert (drop (length (Codec_header f).2) src ++ more = mjoin (frame_bytes <$> fs)) as Hd.
    { rewrite <-drop_app_le by lia. rewrite Hl. apply drop_app_length. }
    rewrite Ht. destruct (Codec_header_frame f Hf) as [_ ->]. eexists. split; [done|].
    split; [rewrite length_drop; lia|]. by split.
Qed.

(** Decoding either waits for more bytes or yields the next frame. *)
Lemma Codec_decode_expects c src more fs :
  decoder_expects c (src ++ more) fs →
  (∃ c' src', Codec_decode c src = Ret (Ok None, (c', src')) ∧ decoder_expects c' (src' ++ more) fs ∧
              (more = [] → fs = [] ∧ c' = mkCodec Begin ∧ src' = [])) ∨
  ∃ f fs' src', fs = f :: fs' ∧
    Codec_decode c src = Ret (Ok (Some (Frame_received f)), (mkCodec Begin, src')) ∧
    length src' ≤ length src ∧ (decoder_state c = Begin → length src' < length src) ∧
    decoder_expects (mkCodec Begin) (src' ++ more) fs'.
Proof.
  assert (∀ c src more f fs n, n < 3 → decoder_state c = HasHeaderAndLen (Codec_header f).1 (length (Codec_header f).2) →
    decoder_expects c (src ++ more) (f :: fs) →
    (loop (S n) decode_turn (c, src) = Ret (Ok None, (c, src)) ∧ more ≠ []) ∨
    ∃ src', loop (S n) decode_turn (c, src) = Ret (Ok (Some (Frame_received f)), (mkCodec Begin, src')) ∧
      length src' ≤ length src ∧ decoder_expects (mkCodec Begin) (src' ++ more) fs) as H2.
  { intros c0 src0 more0 f fs0 n _ Hst Hx.
    destruct (decoder_expects_frame _ _ _ _ _ _ Hst Hx) as [[E Hm]|(src' & E & Hle & Hx')].
    - left. by erewrite loop_return.
    - right. exists src'. by erewrite loop_return. }
  assert (∀ c src more f fs n, n < 2 → decoder_state c = HasHeader (Codec_header f).1 →
    decoder_expects c (src ++ more) (f :: fs) →
    (∃ c' src', loop (S (S n)) decode_turn (c, src) = Ret (Ok None, (c', src')) ∧
       decoder_expects c' (src' ++ more) (f :: fs) ∧ more ≠ []) ∨
    ∃ src', loop (S (S n)) decode_turn (c, src) = Ret (Ok (Some (Frame_received f)), (mkCodec Begin, src')) ∧
      length src' ≤ length src ∧ decoder_expects (mkCodec Begin) (src' ++ more) fs) as H1.
  { intros [st] src0 more0 f fs0 n Hn Hst Hx. simpl in Hst. subst st. pose proof Hx as [Hv (f' & fs' & [= <- <-] & _ & Hl)].
    pose proof Hv as [Hf Hfs]%Forall_cons. pose proof Hf as (_ & Hlen & _).
    destruct (uvi_codec_split _ _ _ _ (len_u64 _ Hlen) Hl) as [[E Hm]|(src' & E & Hl' & ->)].
    - left. exists (mkCodec (HasHeader (Codec_header f).1)), src0. split_and!; [|done|done].
      apply loop_return. unfold decode_turn; simpl. by rewrite E.
    - destruct (H2 (mkCodec (HasHeaderAndLen (Codec_header f).1 (length (Codec_header f).2))) src' more0 f fs0 n)
        as [[E' Hm]|(src'' & E' & Hle & Hx')]; [lia|done|by split; [|by exists f, fs0]|left|right].
      all: assert (decode_turn (mkCodec (HasHeader (Codec_header f).1),
             uvi_encode u64_bound (N.of_nat (length (Codec_header f).2)) ++ src') =
             Ret (Continue (mkCodec (HasHeaderAndLen (Codec_header f).1 (length (Codec_header f).2)), src'))) as Et
        by (unfold decode_turn; simpl; rewrite E, decide_False by lia; by rewrite Nat2N.id).
      + eexists _, _. rewrite (loop_continue _ _ _ _ Et). split_and!; [done| |done]. by split; [|by exists f, fs0].
      + exists src''. rewrite (loop_continue _ _ _ _ Et). split_and!; [done| |done]. rewrite length_app. lia. }
  intros Hx. unfold Codec_decode. destruct c as [[|h|h len|]]; pose proof Hx as [Hv Hst]; simpl in Hst.
  - destruct fs as [|f fs].
    { left. apply app_nil in Hst as [-> ->]. exists (mkCodec Begin), []. split_and!; [|done..].
      apply loop_return. unfold decode_turn; simpl. by rewrite uvi_codec_nil. }
    pose proof Hv as [Hf _]%Forall_cons. change (mjoin (frame_bytes <$> f :: fs)) with (frame_bytes f ++ mjoin (frame_bytes <$> fs)) in Hst.
    unfold frame_bytes in Hst at 1. rewrite <-!app_assoc in Hst.
    destruct (uvi_codec_split _ _ _ _ (proj1 (Codec_header_frame f Hf)) Hst) as [[E Hm]|(src' & E & Hl' & ->)].
    + left. exists (mkCodec Begin), src. split_and!; [|done|done].
      apply loop_return. unfold decode_turn; simpl. by rewrite E.
    + assert (decode_turn (mkCodec Begin, uvi_encode u64_bound (Codec_header f).1 ++ src') =
             Ret (Continue (mkCodec (HasHeader (Codec_header f).1), src'))) as Et
        by (unfold decode_turn; simpl; by rewrite E).
      rewrite (loop_continue _ _ _ _ Et).
      destruct (H1 (mkCodec (HasHeader (Codec_header f).1)) src' more f fs 0)
        as [(c' & src'' & E' & Hx' & Hm)|(src'' & E' & Hle & Hx')]; [lia|done|by split; [|by exists f, fs]|left|right].
      * by exists c', src''.
      * exists f, fs, src''. destruct (uvi_encode_msb (bound := u64_bound) _ (proj1 (Codec_header_frame f Hf)))
          as (init & b & -> & _). rewrite !length_app. simpl. split_and!; first [done|lia].
  - destruct Hst as (f & fs' & -> & -> & Hl).
    destruct (H1 (mkCodec (HasHeader (Codec_header f).1)) src more f fs' 1)
      as [(c' & src'' & E' & Hx' & Hm)|(src'' & E' & Hle & Hx')]; [lia|done|done|left|right].
    + by exists c', src''.
    + by exists f, fs', src''.
  - destruct Hst as (f & fs' & -> & -> & -> & Hl).
    destruct (H2 (mkCodec (HasHeaderAndLen (Codec_header f).1 (length (Codec_header f).2))) src more f fs' 2)
      as [[E' Hm]|(src'' & E' & Hle & Hx')]; [lia|done|done|left|right].
    + by eexists _, src.
    + by exists f, fs', src''.
  - done.
Qed.

(** Decoding all frames that are in the buffer. *)
Lemma decode_all_expects fuel c src more fs :
  decoder_expects c (src ++ more) fs → length src + 1 < fuel →
  ∃ fs1 fs2 c' src', fs = fs1 ++ fs2 ∧
    decode_all fuel c src = Ret (Ok (Frame_received <$> fs1), (c', src')) ∧
    decoder_expects c' (src' ++ more) fs2 ∧ (more = [] → fs2 = [] ∧ c' = mkCodec Begin ∧ src' = []).
Proof.
  revert c src fs. assert (∀ fuel src fs, decoder_expects (mkCodec Begin) (src ++ more) fs → length src < fuel →
    ∃ fs1 fs2 c' src', fs = fs1 ++ fs2 ∧
    decode_all fuel (mkCodec Begin) src = Ret (Ok (Frame_received <$> fs1), (c', src')) ∧
    decoder_expects c' (src' ++ more) fs2 ∧ (more = [] → fs2 = [] ∧ c' = mkCodec Begin ∧ src' = [])) as Hb.
  { intros n. induction n as [|n IH]; intros src fs Hx Hl; [lia|]. cbn [decode_all].
    destruct (Codec_decode_expects _ _ _ _ Hx) as [(c' & src' & -> & Hx' & Hm)|(f & fs' & src' & -> & -> & _ & Hlt & Hx')].
    - exists [], fs, c', src'. by split_and!.
    - destruct (IH src' fs' Hx') as (fs1 & fs2 & c' & src'' & -> & E & Hx'' & Hm); [specialize (Hlt eq_refl); lia|].
      exists (f :: fs1), fs2, c', src''. split_and!; [done| |done|done]. cbn [mbind outcome_bind]. by rewrite E. }
  intros c src fs Hx Hl. destruct fuel as [|fuel]; [lia|]. cbn [decode_all].
  destruct (Codec_decode_expects _ _ _ _ Hx) as [(c' & src' & -> & Hx' & Hm)|(f & fs' & src' & -> & -> & Hle & _ & Hx')].
  - exists [], fs, c', src'. by split_and!.
  - destruct (Hb fuel src' fs' Hx') as (fs1 & fs2 & c' & src'' & -> & E & Hx'' & Hm); [lia|].
    exists (f :: fs1), fs2, c', src''. split_and!; [done| |done|done]. cbn [mbind outcome_bind]. by rewrite E.
Qed.

Lemma decode_chunks_expects chunks c src fs :
  decoder_expects c (src ++ mjoin chunks) fs → (chunks = [] → fs = [] ∧ c = mkCodec Begin ∧ src = []) →
  decode_chunks c src chunks = Ret (Ok (Frame_received <$> fs), (mkCodec Begin, [])).
Proof.
  revert c src fs. induction chunks as [|chunk chunks IH]; intros c src fs Hx Hnil.
  { destruct (Hnil eq_refl) as (-> & -> & ->). done. }
  cbn [decode_chunks]. change (mjoin (chunk :: chunks)) with (chunk ++ mjoin chunks) in Hx. rewrite app_assoc in Hx.
  destruct (decode_all_expects (2 + length (src ++ chunk)) _ _ _ _ Hx)
    as (fs1 & fs2 & c' & src' & -> & -> & Hx' & Hm); [lia|]. cbn [mbind outcome_bind].
  rewrite (IH c' src' fs2 Hx'); [by rewrite fmap_app|]. intros ->. by apply Hm.
Qed.

(** [C21] Encoding and decoding of frames: frames whose identifiers are below
    [2^61], whose data does not exceed the maximum, and which open only streams of
    the sender's own ([Frame_valid]), are encoded without an error; and in whatever
    portions the encoding arrives, the decoder yields exactly these frames in their
    order, each with the role of the sender, and is left in its initial state with
    nothing in the buffer. *)
Theorem Codec_roundtrip (fs : list (Frame LocalStreamId)) :
  Forall Frame_valid fs →
  ∃ bytes, encode_all fs [] = (Ok (), bytes) ∧
    ∀ chunks, mjoin chunks = bytes → chunks ≠ [] →
      decode_chunks Codec_new [] chunks = Ret (Ok (Frame_received <$> fs), (Codec_new, [])).
Proof.
  intros Hv. eexists. rewrite encode_all_valid by done. split; [done|]. intros chunks Hc Hne.
  apply decode_chunks_expects; [|done]. by split.
Qed.
End roundtrip.

(** ** An instance *)

(** A decoder of integers that waits as long as all bytes, fewer than ten, are
    marked to be continued. *)
#[local] Instance Leb128_uvi `{!Varint u64_bound} : Uvi u64_bound := λ src,
  match uvi_decode u64_bound src with
  | Some (n, rest) => (Ok (Some n), rest)
  | None => if forallb msb src && (length src <? 10) then (Ok None, src) else (Err InvalidData, src)
  end.

Lemma Leb128_uvi_spec `{!Varint u64_bound, !VarintSpec u64_bound} : UviSpec u64_bound.
Proof.
  split.
  - intros n rest Hn. unfold uvi_codec_decode, Leb128_uvi. by rewrite uvi_decode_encode.
  - intros n p q Hn Hpq Hq. destruct (uvi_encode_msb (bound := u64_bound) n Hn) as (init & b & E & Hi & Hb).
    destruct (exists_last Hq) as (q' & b' & ->). rewrite E, app_assoc in Hpq.
    apply app_inj_tail in Hpq as [-> <-]. apply Forall_app in Hi as [Hp _].
    unfold uvi_codec_decode, Leb128_uvi. destruct (uvi_decode u64_bound p) as [[m rest]|] eqn:Em.
    { exfalso. apply uvi_decode_Some in Em as [Hm ->].
      destruct (uvi_encode_msb (bound := u64_bound) m Hm) as (i' & c & Ec & _ & Hc). rewrite Ec in Hp.
      apply Forall_app in Hp as [Hp _]. apply Forall_app in Hp as [_ Hp]. apply Forall_cons in Hp as [Hp _]. congruence. }
    assert (forallb msb p = true) as ->.
    { apply forallb_forall. rewrite Forall_forall in Hp. intros x Hx. apply Hp. by apply list_elem_of_In. }
    assert (length (uvi_encode u64_bound n) ≤ 10) as Hl.
    { apply uvi_encode_length; [done|]. apply (N.lt_trans _ _ _ Hn). done. }
    rewrite E, !length_app in Hl. simpl in *. destruct (Nat.ltb_spec (length p) 10); [done|lia].
Qed.

#[local] Existing Instances Leb128 Leb128_spec Leb128_uvi_spec.

(** A stream that is opened, used and closed, arriving byte by byte. *)
Lemma Codec_roundtrip_witness :
  let i := LocalStreamId_dialer (2 ^ 60)%N in
  let fs := [Frame_Open i; Frame_Data i [Byte.x01; Byte.x02]; Frame_Close i] in
  decode_chunks Codec_new [] ((λ b, [b]) <$> (encode_all fs []).2) =
    Ret (Ok (Frame_received <$> fs), (Codec_new, [])).
Proof.
  intros i fs. destruct (Codec_roundtrip fs) as (bytes & He & Hd).
  - assert (∀ f, f ∈ fs → Frame_valid f) as H; [|by apply Forall_forall].
    intros f Hf. unfold fs in Hf. rewrite !elem_of_cons, elem_of_nil in Hf.
    destruct Hf as [->|[->|[->|[]]]];
      (split; [vm_compute; reflexivity|split; [apply Nat.leb_le; vm_compute; reflexivity|done]]).
  - apply Hd; [|vm_compute; discriminate].
    assert (bytes = (encode_all fs []).2) as -> by (rewrite He; reflexivity). vm_compute. reflexivity.
Defined.
