(* ===== verification/Mplex.v ===== *)
(** * The mplex multiplexer

    [Multiplexed] of [muxers/mplex/src/io.rs] and the [StreamMuxer] of
    [muxers/mplex/src/lib.rs].  The framed I/O stream below the multiplexer is a
    parameter.  Tasks are numbers: a waker is the number of the task that it
    wakes, and [woken] collects the tasks that were woken. *)

From S2P Require Import Prelude AsyncIo MplexCodec.

(** ** The I/O stream *)

(** [Fuse<Framed<C, Codec>>] as a sink and a stream. *)
Class FramedIo (R : Type) : Type := {
  framed_ready : R → Poll (Result unit ErrorKind) * R;
  framed_send : R → Frame LocalStreamId → Result unit ErrorKind * R;
  framed_flush : R → Poll (Result unit ErrorKind) * R;
  framed_close : R → Poll (Result unit ErrorKind) * R;
  framed_next : R → Poll (option (Result (Frame RemoteStreamId) ErrorKind)) * R;
}.

(** ** State *)

Abbreviation Waker := N (only parsing).
Abbreviation Bytes := (list byte) (only parsing).

Inductive SubstreamState : Type :=
| Substream_Open (buf : list Bytes)
| Substream_SendClosed (buf : list Bytes)
| Substream_RecvClosed (buf : list Bytes)
| Substream_Closed (buf : list Bytes)
| Substream_Reset (buf : list Bytes).

Definition recv_buf (s : SubstreamState) : list Bytes :=
  match s with
  | Substream_Open buf => buf
  | Substream_SendClosed buf => buf
  | Substream_RecvClosed buf => buf
  | Substream_Closed buf => buf
  | Substream_Reset buf => buf
  end.

(** Writing through the reference that [recv_buf] returns. *)
Definition set_recv_buf (s : SubstreamState) (buf : list Bytes) : SubstreamState :=
  match s with
  | Substream_Open _ => Substream_Open buf
  | Substream_SendClosed _ => Substream_SendClosed buf
  | Substream_RecvClosed _ => Substream_RecvClosed buf
  | Substream_Closed _ => Substream_Closed buf
  | Substream_Reset _ => Substream_Reset buf
  end.

Definition recv_buf_open (s : SubstreamState) : option (list Bytes) :=
  match s with
  | Substream_Open buf => Some buf
  | Substream_SendClosed buf => Some buf
  | Substream_RecvClosed _ => None
  | Substream_Closed _ => None
  | Substream_Reset _ => None
  end.

Inductive Status : Type :=
| Status_Open
| Status_Closed
| Status_Err (e : ErrorKind).

(** [AtomicWaker] holds at most one waker. *)
Record NotifierRead : Type := mkNotifierRead {
  next_stream : option Waker;
  read_stream : gmap LocalStreamId Waker;
}.

Definition EXTRA_PENDING_FRAMES : nat := 1000.
Arguments EXTRA_PENDING_FRAMES : simpl never.

(** The connection identifier is only used in log messages.  The front of a
    [VecDeque] is the head of the list. *)
Record Multiplexed (R : Type) : Type := mkMultiplexed {
  status : Status;
  io : R;
  config : MplexConfig;
  open_buffer : list LocalStreamId;
  pending_flush_open : gset LocalStreamId;
  blocking_stream : option LocalStreamId;
  pending_frames : list (Frame LocalStreamId);
  substreams : gmap LocalStreamId SubstreamState;
  next_outbound_stream_id : LocalStreamId;
  notifier_read : NotifierRead;
  notifier_write : list Waker;
  notifier_open : list Waker;
  woken : gset Waker;
}.
Arguments mkMultiplexed {R}.
Arguments status {R} _.
Arguments io {R} _.
Arguments config {R} _.
Arguments open_buffer {R} _.
Arguments pending_flush_open {R} _.
Arguments blocking_stream {R} _.
Arguments pending_frames {R} _.
Arguments substreams {R} _.
Arguments next_outbound_stream_id {R} _.
Arguments notifier_read {R} _.
Arguments notifier_write {R} _.
Arguments notifier_open {R} _.
Arguments woken {R} _.

Section setters.
Context {R : Type}.
Implicit Types m : Multiplexed R.

Definition set_status m (x : Status) : Multiplexed R :=
  mkMultiplexed x (io m) (config m) (open_buffer m) (pending_flush_open m) (blocking_stream m)
    (pending_frames m) (substreams m) (next_outbound_stream_id m) (notifier_read m) (notifier_write m)
    (notifier_open m) (woken m).
Definition set_io m (x : R) : Multiplexed R :=
  mkMultiplexed (status m) x (config m) (open_buffer m) (pending_flush_open m) (blocking_stream m)
    (pending_frames m) (substreams m) (next_outbound_stream_id m) (notifier_read m) (notifier_write m)
    (notifier_open m) (woken m).
Definition set_open_buffer m (x : list LocalStreamId) : Multiplexed R :=
  mkMultiplexed (status m) (io m) (config m) x (pending_flush_open m) (blocking_stream m) (pending_frames m)
    (substreams m) (next_outbound_stream_id m) (notifier_read m) (notifier_write m) (notifier_open m)
    (woken m).
Definition set_pending_flush_open m (x : gset LocalStreamId) : Multiplexed R :=
  mkMultiplexed (status m) (io m) (config m) (open_buffer m) x (blocking_stream m) (pending_frames m)
    (substreams m) (next_outbound_stream_id m) (notifier_read m) (notifier_write m) (notifier_open m)
    (woken m).
Definition set_blocking_stream m (x : option LocalStreamId) : Multiplexed R :=
  mkMultiplexed (status m) (io m) (config m) (open_buffer m) (pending_flush_open m) x (pending_frames m)
    (substreams m) (next_outbound_stream_id m) (notifier_read m) (notifier_write m) (notifier_open m)
    (woken m).
Definition set_pending_frames m (x : list (Frame LocalStreamId)) : Multiplexed R :=
  mkMultiplexed (status m) (io m) (config m) (open_buffer m) (pending_flush_open m) (blocking_stream m) x
    (substreams m) (next_outbound_stream_id m) (notifier_read m) (notifier_write m) (notifier_open m)
    (woken m).
Definition set_substreams m (x : gmap LocalStreamId SubstreamState) : Multiplexed R :=
  mkMultiplexed (status m) (io m) (config m) (open_buffer m) (pending_flush_open m) (blocking_stream m)
    (pending_frames m) x (next_outbound_stream_id m) (notifier_read m) (notifier_write m) (notifier_open m)
    (woken m).
Definition set_next_outbound_stream_id m (x : LocalStreamId) : Multiplexed R :=
  mkMultiplexed (status m) (io m) (config m) (open_buffer m) (pending_flush_open m) (blocking_stream m)
    (pending_frames m) (substreams m) x (notifier_read m) (notifier_write m) (notifier_open m) (woken m).
Definition set_notifier_read m (x : NotifierRead) : Multiplexed R :=
  mkMultiplexed (status m) (io m) (config m) (open_buffer m) (pending_flush_open m) (blocking_stream m)
    (pending_frames m) (substreams m) (next_outbound_stream_id m) x (notifier_write m) (notifier_open m)
    (woken m).
Definition set_notifier_write m (x : list Waker) : Multiplexed R :=
  mkMultiplexed (status m) (io m) (config m) (open_buffer m) (pending_flush_open m) (blocking_stream m)
    (pending_frames m) (substreams m) (next_outbound_stream_id m) (notifier_read m) x (notifier_open m)
    (woken m).
Definition set_notifier_open m (x : list Waker) : Multiplexed R :=
  mkMultiplexed (status m) (io m) (config m) (open_buffer m) (pending_flush_open m) (blocking_stream m)
    (pending_frames m) (substreams m) (next_outbound_stream_id m) (notifier_read m) (notifier_write m) x
    (woken m).
Definition set_woken m (x : gset Waker) : Multiplexed R :=
  mkMultiplexed (status m) (io m) (config m) (open_buffer m) (pending_flush_open m) (blocking_stream m)
    (pending_frames m) (substreams m) (next_outbound_stream_id m) (notifier_read m) (notifier_write m)
    (notifier_open m) x.
End setters.

(** ** Operations *)

Section multiplexed.
Context {R : Type} `{!FramedIo R}.
Implicit Types m : Multiplexed R.

Definition Multiplexed_new (r : R) (config : MplexConfig) : Multiplexed R :=
  mkMultiplexed Status_Open r config [] ∅ None [] ∅ (LocalStreamId_dialer 0) (mkNotifierRead None ∅) [] [] ∅.

(** *** Notifying tasks *)

Definition wake m (w : Waker) : Multiplexed R := set_woken m ({[ w ]} ∪ woken m).

Definition register_read_stream m (w : Waker) (id : LocalStreamId) : Multiplexed R :=
  set_notifier_read m (mkNotifierRead (next_stream (notifier_read m)) (<[id := w]> (read_stream (notifier_read m)))).

Definition register_next_stream m (w : Waker) : Multiplexed R :=
  set_notifier_read m (mkNotifierRead (Some w) (read_stream (notifier_read m))).

Definition wake_read_stream m (id : LocalStreamId) : bool * Multiplexed R :=
  match read_stream (notifier_read m) !! id with
  | Some w =>
      (true, wake (set_notifier_read m
         (mkNotifierRead (next_stream (notifier_read m)) (delete id (read_stream (notifier_read m))))) w)
  | None => (false, m)
  end.

Definition wake_next_stream m : Multiplexed R :=
  match next_stream (notifier_read m) with
  | Some w => wake (set_notifier_read m (mkNotifierRead None (read_stream (notifier_read m)))) w
  | None => m
  end.

(** [ArcWake for NotifierRead] *)
Definition NotifierRead_wake_by_ref m : Multiplexed R :=
  let wakers := read_stream (notifier_read m) in
  let m := set_notifier_read m (mkNotifierRead (next_stream (notifier_read m)) ∅) in
  let m := set_woken m (map_img wakers ∪ woken m) in
  wake_next_stream m.

Definition NotifierWrite_register m (w : Waker) : Multiplexed R :=
  if forallb (λ w', negb (w' =? w)%N) (notifier_write m) then set_notifier_write m (notifier_write m ++ [w]) else m.

(** [ArcWake for NotifierWrite] *)
Definition NotifierWrite_wake_by_ref m : Multiplexed R :=
  let wakers := notifier_write m in
  set_woken (set_notifier_write m []) (list_to_set wakers ∪ woken m).

Definition NotifierOpen_register m (w : Waker) : Multiplexed R :=
  if forallb (λ w', negb (w' =? w)%N) (notifier_open m) then set_notifier_open m (notifier_open m ++ [w]) else m.

Definition NotifierOpen_wake_all m : Multiplexed R :=
  let wakers := notifier_open m in
  set_woken (set_notifier_open m []) (list_to_set wakers ∪ woken m).

(** *** Errors and limits *)

Definition on_error {T} m (e : ErrorKind) : Result T ErrorKind * Multiplexed R :=
  let m := set_status m (Status_Err e) in
  let m := set_pending_frames m [] in
  let m := set_substreams m ∅ in
  let m := set_open_buffer m [] in
  (Err e, m).

Definition guard_open m : Result unit ErrorKind :=
  match status m with
  | Status_Closed => Err Other
  | Status_Err e => Err e
  | Status_Open => Ok ()
  end.

Definition check_max_pending_frames m : Result unit ErrorKind * Multiplexed R :=
  if decide (max_substreams (config m) + EXTRA_PENDING_FRAMES ≤ length (pending_frames m))
  then on_error m Other
  else (Ok (), m).

Definition can_read m (id : LocalStreamId) : bool :=
  match substreams m !! id with
  | Some (Substream_Open _) | Some (Substream_SendClosed _) => true
  | _ => false
  end.

Definition Multiplexed_next_outbound_stream_id m : outcome (LocalStreamId * Multiplexed R) :=
  let id := next_outbound_stream_id m in
  next ← LocalStreamId_next (next_outbound_stream_id m);
  Ret (id, set_next_outbound_stream_id m next).

(** *** Sending frames *)

Definition poll_send_frame m (w : Waker) (frame : Frame LocalStreamId) : Poll (Result unit ErrorKind) * Multiplexed R :=
  let m := NotifierWrite_register m w in
  let '(p, r) := framed_ready (io m) in
  let m := set_io m r in
  match p with
  | Pending => (Pending, m)
  | Ready (Ok _) =>
      let '(res, r) := framed_send (io m) frame in
      let m := set_io m r in
      match res with
      | Ok _ => (Ready (Ok ()), m)
      | Err e => let '(res, m) := on_error m e in (Ready res, m)
      end
  | Ready (Err e) => let '(res, m) := on_error m e in (Ready res, m)
  end.

(** Every turn takes a frame from the queue, so that its length bounds the number
    of turns. *)
Fixpoint send_pending_loop (fuel : nat) m (w : Waker) : outcome (Poll (Result unit ErrorKind) * Multiplexed R) :=
  match last (pending_frames m) with
  | None => Ret (Ready (Ok ()), m)
  | Some frame =>
      match fuel with
      | O => Panic
      | S fuel =>
          let m := set_pending_frames m (removelast (pending_frames m)) in
          let '(p, m) := poll_send_frame m w frame in
          match p with
          | Ready (Err e) => Ret (Ready (Err e), m)
          | Pending => Ret (Pending, set_pending_frames m (pending_frames m ++ [frame]))
          | Ready (Ok _) => send_pending_loop fuel m w
          end
      end
  end.

Definition send_pending_frames m (w : Waker) : outcome (Poll (Result unit ErrorKind) * Multiplexed R) :=
  send_pending_loop (length (pending_frames m)) m w.

(** *** Flushing and closing the connection *)

Definition Multiplexed_poll_flush m (w : Waker) : outcome (Poll (Result unit ErrorKind) * Multiplexed R) :=
  match status m with
  | Status_Closed => Ret (Ready (Ok ()), m)
  | Status_Err e => Ret (Ready (Err e), m)
  | Status_Open =>
      '(p, m) ← send_pending_frames m w;
      match p with
      | Pending => Ret (Pending, m)
      | Ready (Err e) => Ret (Ready (Err e), m)
      | Ready (Ok _) =>
          let m := NotifierWrite_register m w in
          let '(p, r) := framed_flush (io m) in
          let m := set_io m r in
          match p with
          | Pending => Ret (Pending, m)
          | Ready (Err e) => let '(res, m) := on_error m e in Ret (Ready res, m)
          | Ready (Ok _) => Ret (Ready (Ok ()), set_pending_flush_open m ∅)
          end
      end
  end.

Definition Multiplexed_poll_close m (w : Waker) : Poll (Result unit ErrorKind) * Multiplexed R :=
  match status m with
  | Status_Closed => (Ready (Ok ()), m)
  | Status_Err e => (Ready (Err e), m)
  | Status_Open =>
      let m := NotifierWrite_register m w in
      let '(p, r) := framed_close (io m) in
      let m := set_io m r in
      match p with
      | Pending => (Pending, m)
      | Ready (Err e) => let '(res, m) := on_error m e in (Ready res, m)
      | Ready (Ok _) =>
          let m := set_pending_frames m [] in
          let m := set_open_buffer m [] in
          let m := set_substreams m ∅ in
          let m := set_status m Status_Closed in
          (Ready (Ok ()), m)
      end
  end.

(** *** Inbound frames *)

Definition on_open m (id : RemoteStreamId) : Result (option LocalStreamId) ErrorKind * Multiplexed R :=
  let id := RemoteStreamId_into_local id in
  match substreams m !! id with
  | Some _ => on_error m Other
  | None =>
      if decide (max_substreams (config m) ≤ size (substreams m)) then
        let '(res, m) := check_max_pending_frames m in
        match res with
        | Err e => (Err e, m)
        | Ok _ => (Ok None, set_pending_frames m (Frame_Reset id :: pending_frames m))
        end
      else (Ok (Some id), set_substreams m (<[id := Substream_Open []]> (substreams m)))
  end.

Definition on_reset m (id : LocalStreamId) : Multiplexed R :=
  match substreams m !! id with
  | Some state =>
      let m := set_substreams m (delete id (substreams m)) in
      match state with
      | Substream_Closed _ => m
      | Substream_Reset _ => m
      | Substream_RecvClosed buf | Substream_SendClosed buf | Substream_Open buf =>
          let m := set_substreams m (<[id := Substream_Reset buf]> (substreams m)) in
          (wake_read_stream m id).2
      end
  | None => m
  end.

Definition on_close m (id : LocalStreamId) : Multiplexed R :=
  match substreams m !! id with
  | Some state =>
      let m := set_substreams m (delete id (substreams m)) in
      match state with
      | Substream_RecvClosed _ | Substream_Closed _ => set_substreams m (<[id := state]> (substreams m))
      | Substream_Reset buf => set_substreams m (<[id := Substream_Reset buf]> (substreams m))
      | Substream_SendClosed buf =>
          let m := set_substreams m (<[id := Substream_Closed buf]> (substreams m)) in
          (wake_read_stream m id).2
      | Substream_Open buf =>
          let m := set_substreams m (<[id := Substream_RecvClosed buf]> (substreams m)) in
          (wake_read_stream m id).2
      end
  | None => m
  end.

Definition buffer m (id : LocalStreamId) (data : Bytes) : outcome (Result unit ErrorKind * Multiplexed R) :=
  match substreams m !! id with
  | None => Ret (Ok (), m)
  | Some state =>
      match recv_buf_open state with
      | None => Ret (Ok (), m)
      | Some buf =>
          assert (bool_decide (length buf ≤ max_buffer_len (config m)));;
          let buf := buf ++ [data] in
          let m := set_substreams m (<[id := set_recv_buf state buf]> (substreams m)) in
          let m := (wake_read_stream m id).2 in
          if decide (max_buffer_len (config m) < length buf) then
            match max_buffer_behaviour (config m) with
            | ResetStream =>
                let '(res, m) := check_max_pending_frames m in
                match res with
                | Err e => Ret (Err e, m)
                | Ok _ =>
                    let m := set_substreams m (<[id := Substream_Reset buf]> (substreams m)) in
                    Ret (Ok (), set_pending_frames m (Frame_Reset id :: pending_frames m))
                end
            | Block => Ret (Ok (), set_blocking_stream m (Some id))
            end
          else Ret (Ok (), m)
      end
  end.

(** [poll_read_frame]: any pending flush before reading. *)
Definition read_frame_flush m (w : Waker) (stream_id : option LocalStreamId) :
    outcome (Poll (Result unit ErrorKind) * Multiplexed R) :=
  match stream_id with
  | Some id =>
      if decide (id ∈ pending_flush_open m) then
        '(p, m) ← Multiplexed_poll_flush m w;
        match p with
        | Ready (Ok _) => Ret (p, set_pending_flush_open m ∅)
        | _ => Ret (p, m)
        end
      else Ret (Ready (Ok ()), m)
  | None => Ret (Ready (Ok ()), m)
  end.

(** [poll_read_frame]: from the check for a blocked stream on. *)
Definition read_frame_next m (w : Waker) (stream_id : option LocalStreamId) :
    outcome (Poll (Result (Frame RemoteStreamId) ErrorKind) * Multiplexed R) :=
  match blocking_stream m with
  | Some blocked_id =>
      let '(woke, m) := wake_read_stream m blocked_id in
      if negb woke then Ret (Pending, wake m w)
      else match stream_id with
           | Some id =>
               assert (bool_decide (blocked_id ≠ id));;
               Ret (Pending, register_read_stream m w id)
           | None => Ret (Pending, register_next_stream m w)
           end
  | None =>
      let m := match stream_id with
               | Some id => register_read_stream m w id
               | None => register_next_stream m w
               end in
      let '(p, r) := framed_next (io m) in
      let m := set_io m r in
      match p with
      | Pending => Ret (Pending, m)
      | Ready (Some (Ok frame)) => Ret (Ready (Ok frame), m)
      | Ready (Some (Err e)) => let '(res, m) := on_error m e in Ret (Ready res, m)
      | Ready None => let '(res, m) := on_error m UnexpectedEof in Ret (Ready res, m)
      end
  end.

Definition poll_read_frame m (w : Waker) (stream_id : option LocalStreamId) :
    outcome (Poll (Result (Frame RemoteStreamId) ErrorKind) * Multiplexed R) :=
  '(p, m) ← send_pending_frames m w;
  match p with
  | Ready (Err e) => Ret (Ready (Err e), m)
  | Ready (Ok _) | Pending =>
      '(p, m) ← read_frame_flush m w stream_id;
      match p with
      | Pending => Ret (Pending, m)
      | Ready (Err e) => Ret (Ready (Err e), m)
      | Ready (Ok _) => read_frame_next m w stream_id
      end
  end.

(** *** Streams *)

(** One turn of the loop of [poll_next_stream]. *)
Definition next_stream_turn (w : Waker) (s : nat * Multiplexed R) :
    outcome (Turn (nat * Multiplexed R) (Poll (Result LocalStreamId ErrorKind))) :=
  let '(num_buffered, m) := s in
  if decide (num_buffered = max_buffer_len (config m)) then Ret (Return Pending (num_buffered, wake m w))
  else
    '(p, m) ← poll_read_frame m w None;
    match p with
    | Pending => Ret (Return Pending (num_buffered, m))
    | Ready (Err e) => Ret (Return (Ready (Err e)) (num_buffered, m))
    | Ready (Ok frame) =>
        match frame with
        | Frame_Open stream_id =>
            let '(res, m) := on_open m stream_id in
            match res with
            | Err e => Ret (Return (Ready (Err e)) (num_buffered, m))
            | Ok (Some id) => Ret (Return (Ready (Ok id)) (num_buffered, m))
            | Ok None => Ret (Continue (num_buffered, m))
            end
        | Frame_Data stream_id data =>
            '(res, m) ← buffer m (RemoteStreamId_into_local stream_id) data;
            match res with
            | Err e => Ret (Return (Ready (Err e)) (num_buffered, m))
            | Ok _ => Ret (Continue (num_buffered + 1, m))
            end
        | Frame_Close stream_id => Ret (Continue (num_buffered, on_close m (RemoteStreamId_into_local stream_id)))
        | Frame_Reset stream_id => Ret (Continue (num_buffered, on_reset m (RemoteStreamId_into_local stream_id)))
        end
    end.

(** [fuel] bounds the number of turns. *)
Definition poll_next_stream (fuel : nat) m (w : Waker) :
    outcome (Poll (Result LocalStreamId ErrorKind) * Multiplexed R) :=
  match guard_open m with
  | Err e => Ret (Ready (Err e), m)
  | Ok _ =>
      match last (open_buffer m) with
      | Some stream_id => Ret (Ready (Ok stream_id), set_open_buffer m (removelast (open_buffer m)))
      | None =>
          assert (bool_decide (open_buffer m = []));;
          '(p, (_, m)) ← loop fuel (next_stream_turn w) (0, m);
          Ret (p, m)
      end
  end.

Definition poll_open_stream m (w : Waker) : outcome (Poll (Result LocalStreamId ErrorKind) * Multiplexed R) :=
  match guard_open m with
  | Err e => Ret (Ready (Err e), m)
  | Ok _ =>
      if decide (max_substreams (config m) ≤ size (substreams m))
      then Ret (Pending, NotifierOpen_register m w)
      else
        let m := NotifierWrite_register m w in
        let '(p, r) := framed_ready (io m) in
        let m := set_io m r in
        match p with
        | Pending => Ret (Pending, m)
        | Ready (Ok _) =>
            '(stream_id, m) ← Multiplexed_next_outbound_stream_id m;
            let '(res, r) := framed_send (io m) (Frame_Open stream_id) in
            let m := set_io m r in
            match res with
            | Ok _ =>
                let m := set_substreams m (<[stream_id := Substream_Open []]> (substreams m)) in
                let m := set_pending_flush_open m ({[ stream_id ]} ∪ pending_flush_open m) in
                Ret (Ready (Ok stream_id), m)
            | Err e => let '(res, m) := on_error m e in Ret (Ready res, m)
            end
        | Ready (Err e) => let '(res, m) := on_error m e in Ret (Ready res, m)
        end
  end.

Definition drop_stream m (id : LocalStreamId) : outcome (Multiplexed R) :=
  match status m with
  | Status_Closed | Status_Err _ => Ret m
  | Status_Open =>
      let m := (wake_read_stream m id).2 in
      match substreams m !! id with
      | None => Ret m
      | Some state =>
          let m := set_substreams m (delete id (substreams m)) in
          limit ← usize_sub (max_substreams (config m)) 1;
          let m := if decide (size (substreams m) = limit) then NotifierOpen_wake_all m else m in
          match state with
          | Substream_Closed _ => Ret m
          | Substream_SendClosed _ => Ret m
          | Substream_Reset _ => Ret m
          | Substream_RecvClosed _ =>
              let '(res, m) := check_max_pending_frames m in
              match res with
              | Err _ => Ret m
              | Ok _ => Ret (set_pending_frames m (Frame_Close id :: pending_frames m))
              end
          | Substream_Open _ =>
              let '(res, m) := check_max_pending_frames m in
              match res with
              | Err _ => Ret m
              | Ok _ => Ret (set_pending_frames m (Frame_Reset id :: pending_frames m))
              end
          end
      end
  end.

Definition poll_write_stream m (w : Waker) (id : LocalStreamId) (buf : list byte) :
    Poll (Result nat ErrorKind) * Multiplexed R :=
  match guard_open m with
  | Err e => (Ready (Err e), m)
  | Ok _ =>
      match substreams m !! id with
      | None | Some (Substream_Reset _) => (Ready (Err BrokenPipe), m)
      | Some (Substream_SendClosed _) | Some (Substream_Closed _) => (Ready (Err WriteZero), m)
      | Some (Substream_Open _) | Some (Substream_RecvClosed _) =>
          let frame_len := length buf `min` split_send_size (config m) in
          let '(p, m) := poll_send_frame m w (Frame_Data id (take frame_len buf)) in
          match p with
          | Pending => (Pending, m)
          | Ready (Err e) => (Ready (Err e), m)
          | Ready (Ok _) => (Ready (Ok frame_len), m)
          end
      end
  end.

(** One turn of the loop of [poll_read_stream]. *)
Definition read_stream_turn (w : Waker) (id : LocalStreamId) (s : nat * Multiplexed R) :
    outcome (Turn (nat * Multiplexed R) (Poll (Result (option Bytes) ErrorKind))) :=
  let '(num_buffered, m) := s in
  if decide (num_buffered = max_buffer_len (config m)) then Ret (Return Pending (num_buffered, wake m w))
  else if negb (can_read m id) then Ret (Return (Ready (Ok None)) (num_buffered, m))
  else
    '(p, m) ← poll_read_frame m w (Some id);
    match p with
    | Pending => Ret (Return Pending (num_buffered, m))
    | Ready (Err e) => Ret (Return (Ready (Err e)) (num_buffered, m))
    | Ready (Ok frame) =>
        match frame with
        | Frame_Data stream_id data =>
            if decide (RemoteStreamId_into_local stream_id = id)
            then Ret (Return (Ready (Ok (Some data))) (num_buffered, m))
            else
              '(res, m) ← buffer m (RemoteStreamId_into_local stream_id) data;
              match res with
              | Err e => Ret (Return (Ready (Err e)) (num_buffered, m))
              | Ok _ => Ret (Continue (num_buffered + 1, m))
              end
        | Frame_Open _ =>
            let '(res, m) := on_open m (Frame_remote_id frame) in
            match res with
            | Err e => Ret (Return (Ready (Err e)) (num_buffered, m))
            | Ok (Some id') =>
                let m := set_open_buffer m (id' :: open_buffer m) in
                Ret (Continue (num_buffered, wake_next_stream m))
            | Ok None => Ret (Continue (num_buffered, m))
            end
        | Frame_Close stream_id =>
            let stream_id := RemoteStreamId_into_local stream_id in
            let m := on_close m stream_id in
            if decide (id = stream_id) then Ret (Return (Ready (Ok None)) (num_buffered, m))
            else Ret (Continue (num_buffered, m))
        | Frame_Reset stream_id =>
            let stream_id := RemoteStreamId_into_local stream_id in
            let m := on_reset m stream_id in
            if decide (id = stream_id) then Ret (Return (Ready (Ok None)) (num_buffered, m))
            else Ret (Continue (num_buffered, m))
        end
    end.

Definition poll_read_stream (fuel : nat) m (w : Waker) (id : LocalStreamId) :
    outcome (Poll (Result (option Bytes) ErrorKind) * Multiplexed R) :=
  match guard_open m with
  | Err e => Ret (Ready (Err e), m)
  | Ok _ =>
      let read_loop :=
        '(p, (_, m)) ← loop fuel (read_stream_turn w id) (0, m);
        Ret (p, m) in
      match substreams m !! id with
      | Some state =>
          match recv_buf state with
          | data :: buf =>
              let m :=
                if decide (blocking_stream m = Some id)
                then NotifierRead_wake_by_ref (set_blocking_stream m None)
                else m in
              Ret (Ready (Ok (Some data)), set_substreams m (<[id := set_recv_buf state buf]> (substreams m)))
          | [] => read_loop
          end
      | None => read_loop
      end
  end.

Definition poll_flush_stream m (w : Waker) (id : LocalStreamId) : outcome (Poll (Result unit ErrorKind) * Multiplexed R) :=
  match guard_open m with
  | Err e => Ret (Ready (Err e), m)
  | Ok _ => Multiplexed_poll_flush m w
  end.

Definition poll_close_stream m (w : Waker) (id : LocalStreamId) : Poll (Result unit ErrorKind) * Multiplexed R :=
  match guard_open m with
  | Err e => (Ready (Err e), m)
  | Ok _ =>
      match substreams m !! id with
      | None => (Ready (Ok ()), m)
      | Some state =>
          let m := set_substreams m (delete id (substreams m)) in
          match state with
          | Substream_SendClosed buf =>
              (Ready (Ok ()), set_substreams m (<[id := Substream_SendClosed buf]> (substreams m)))
          | Substream_Closed buf =>
              (Ready (Ok ()), set_substreams m (<[id := Substream_Closed buf]> (substreams m)))
          | Substream_Reset buf =>
              (Ready (Ok ()), set_substreams m (<[id := Substream_Reset buf]> (substreams m)))
          | Substream_Open buf =>
              let '(p, m) := poll_send_frame m w (Frame_Close id) in
              match p with
              | Ready (Err e) => (Ready (Err e), m)
              | Pending => (Pending, set_substreams m (<[id := Substream_Open buf]> (substreams m)))
              | Ready (Ok _) =>
                  (Ready (Ok ()), set_substreams m (<[id := Substream_SendClosed buf]> (substreams m)))
              end
          | Substream_RecvClosed buf =>
              let '(p, m) := poll_send_frame m w (Frame_Close id) in
              match p with
              | Ready (Err e) => (Ready (Err e), m)
              | Pending => (Pending, set_substreams m (<[id := Substream_RecvClosed buf]> (substreams m)))
              | Ready (Ok _) =>
                  (Ready (Ok ()), set_substreams m (<[id := Substream_Closed buf]> (substreams m)))
              end
          end
      end
  end.

(** ** The stream muxer *)

(** [lib.rs]: the operations of [Multiplex], whose lock gives every call exclusive
    access to the state. *)
Record Substream : Type := mkSubstream { substream_id : LocalStreamId; current_data : Bytes }.

Definition Substream_new (id : LocalStreamId) : Substream := mkSubstream id [].

Definition Multiplex_poll_event (fuel : nat) m (w : Waker) : outcome (Poll (Result Substream ErrorKind) * Multiplexed R) :=
  '(p, m) ← poll_next_stream fuel m w;
  Ret (match p with
       | Pending => Pending
       | Ready (Err e) => Ready (Err e)
       | Ready (Ok stream_id) => Ready (Ok (Substream_new stream_id))
       end, m).

Definition Multiplex_poll_outbound m (w : Waker) : outcome (Poll (Result Substream ErrorKind) * Multiplexed R) :=
  '(p, m) ← poll_open_stream m w;
  Ret (match p with
       | Pending => Pending
       | Ready (Err e) => Ready (Err e)
       | Ready (Ok stream_id) => Ready (Ok (Substream_new stream_id))
       end, m).

(** One turn of the loop of [read_substream], with a buffer of [n] bytes. *)
Definition read_substream_turn (fuel : nat) (w : Waker) (n : nat) (s : Substream * Multiplexed R) :
    outcome (Turn (Substream * Multiplexed R) (Poll (Result (list byte) ErrorKind))) :=
  let '(substream, m) := s in
  match current_data substream with
  | _ :: _ =>
      let len := length (current_data substream) `min` n in
      Ret (Return (Ready (Ok (take len (current_data substream))))
             (mkSubstream (substream_id substream) (drop len (current_data substream)), m))
  | [] =>
      '(p, m) ← poll_read_stream fuel m w (substream_id substream);
      match p with
      | Pending => Ret (Return Pending (substream, m))
      | Ready (Err e) => Ret (Return (Ready (Err e)) (substream, m))
      | Ready (Ok (Some data)) => Ret (Continue (mkSubstream (substream_id substream) data, m))
      | Ready (Ok None) => Ret (Return (Ready (Ok [])) (substream, m))
      end
  end.

(** The bytes that are copied into the buffer; none of them means the end of the
    stream. *)
Definition Multiplex_read_substream (fuel : nat) m (w : Waker) (substream : Substream) (n : nat) :
    outcome (Poll (Result (list byte) ErrorKind) * (Substream * Multiplexed R)) :=
  loop fuel (read_substream_turn fuel w n) (substream, m).

Definition Multiplex_write_substream m (w : Waker) (substream : Substream) (buf : list byte) :=
  poll_write_stream m w (substream_id substream) buf.

Definition Multiplex_flush_substream m (w : Waker) (substream : Substream) :=
  poll_flush_stream m w (substream_id substream).

Definition Multiplex_shutdown_substream m (w : Waker) (substream : Substream) :=
  poll_close_stream m w (substream_id substream).

Definition Multiplex_destroy_substream m (sub : Substream) := drop_stream m (substream_id sub).
Definition Multiplex_close m (w : Waker) := Multiplexed_poll_close m w.
Definition Multiplex_flush_all m (w : Waker) := Multiplexed_poll_flush m w.
End multiplexed.
