(* ===== verification/MplexCore.v ===== *)
(** * The mplex multiplexer as a transition system

    What the operations of [Multiplexed] do to the streams is described by a step
    relation on the part of its state that matters for it, leaving out wakers
    and flushing.  Every operation is shown to return, without panicking, after a
    sequence of such steps, so that properties of the multiplexer are proved by
    rule induction on the steps. *)

From S2P Require Import Prelude AsyncIo MplexCodec Mplex.

(** ** The I/O stream *)

(** The decoder yields [Open] frames with the role of a dialer only, see
    [Codec_frame_inbound]. *)
Definition inbound_ok (f : Frame RemoteStreamId) : Prop :=
  match f with Frame_Open r => rid_role r = Dialer | _ => True end.

Lemma Codec_frame_inbound header buf f : Codec_frame header buf = Some f → inbound_ok f.
Proof.
  unfold Codec_frame. intros H.
  destruct (N.land header 7) as [|[[[p|p|]|[p|p|]|]|[[p|p|]|[p|p|]|]|]]; simpl in H; by simplify_eq/=.
Qed.

(** What is relied on: [framed_in] are the frames that have arrived and have not
    been taken, [framed_out] those that were accepted for sending.  All calls
    may fail or be pending. *)
Class FramedIoSpec (R : Type) `{!FramedIo R} : Type := {
  framed_in : R → list (Frame RemoteStreamId);
  framed_out : R → list (Frame LocalStreamId);
  framed_ready_spec (r r' : R) p :
    framed_ready r = (p, r') → framed_in r' = framed_in r ∧ framed_out r' = framed_out r;
  framed_flush_spec (r r' : R) p :
    framed_flush r = (p, r') → framed_in r' = framed_in r ∧ framed_out r' = framed_out r;
  framed_close_spec (r r' : R) p :
    framed_close r = (p, r') → framed_in r' = framed_in r ∧ framed_out r' = framed_out r;
  framed_send_spec (r r' : R) f res :
    framed_send r f = (res, r') → framed_in r' = framed_in r ∧
    framed_out r' = framed_out r ++ match res with Ok _ => [f] | Err _ => [] end;
  framed_next_spec (r r' : R) p :
    framed_next r = (p, r') → framed_out r' = framed_out r ∧
    framed_in r = match p with Ready (Some (Ok f)) => [f] | _ => [] end ++ framed_in r';
  framed_in_open (r : R) : Forall inbound_ok (framed_in r);
}.

(** ** Steps *)

Record core : Type := mkCore {
  k_config : MplexConfig;
  k_open : bool;
  k_subs : gmap LocalStreamId SubstreamState;
  k_pend : list (Frame LocalStreamId);
  k_next : LocalStreamId;
  k_block : option LocalStreamId;
  k_inbound : list LocalStreamId;
  k_in : list (Frame RemoteStreamId);
  k_out : list (Frame LocalStreamId);
}.

(** The state of a stream after a [Close] frame of the remote. *)
Definition remote_close (st : SubstreamState) : SubstreamState :=
  match st with
  | Substream_Open buf => Substream_RecvClosed buf
  | Substream_SendClosed buf => Substream_Closed buf
  | _ => st
  end.

(** After a [Reset] frame of the remote; the stream may be gone. *)
Definition remote_reset (st : SubstreamState) : option SubstreamState :=
  match st with
  | Substream_Open buf | Substream_SendClosed buf | Substream_RecvClosed buf => Some (Substream_Reset buf)
  | Substream_Closed _ | Substream_Reset _ => None
  end.

(** After the stream was closed locally, if a [Close] frame is sent. *)
Definition local_close (st : SubstreamState) : option SubstreamState :=
  match st with
  | Substream_Open buf => Some (Substream_SendClosed buf)
  | Substream_RecvClosed buf => Some (Substream_Closed buf)
  | _ => None
  end.

Definition can_write (st : SubstreamState) : bool :=
  match st with Substream_Open _ | Substream_RecvClosed _ => true | _ => false end.

(** The frame that announces to the remote that a stream was dropped. *)
Definition drop_frame (id : LocalStreamId) (st : SubstreamState) : list (Frame LocalStreamId) :=
  match st with
  | Substream_Open _ => [Frame_Reset id]
  | Substream_RecvClosed _ => [Frame_Close id]
  | _ => []
  end.

(** What happens in a step. *)
Inductive event : Type :=
| ESent (f : Frame LocalStreamId)
| EOpened (id : LocalStreamId)
| EWrote (id : LocalStreamId) (data : Bytes)
| EClosed (id : LocalStreamId)
| EDropped (id : LocalStreamId)
| ERead (id : LocalStreamId) (data : Bytes)
| EReceived (f : Frame RemoteStreamId)
| EDelivered (id : LocalStreamId) (data : Bytes)
| EAccepted (id : LocalStreamId)
| EFailed.

Abbreviation pending_limit c := (max_substreams c + EXTRA_PENDING_FRAMES).

Inductive kstep : core → event → core → Prop :=
| K_sent c S l f n b q i o :
    kstep (mkCore c true S (l ++ [f]) n b q i o) (ESent f) (mkCore c true S l n b q i (o ++ [f]))
| K_opened c S l n n' b q i o :
    size S < max_substreams c → LocalStreamId_next n = Ret n' →
    kstep (mkCore c true S l n b q i o) (EOpened n)
      (mkCore c true (<[n := Substream_Open []]> S) l n' b q i (o ++ [Frame_Open n]))
| K_wrote c S l n b q i o id st data :
    S !! id = Some st → can_write st = true →
    kstep (mkCore c true S l n b q i o) (EWrote id data) (mkCore c true S l n b q i (o ++ [Frame_Data id data]))
| K_closed c S l n b q i o id st st' :
    S !! id = Some st → local_close st = Some st' →
    kstep (mkCore c true S l n b q i o) (EClosed id)
      (mkCore c true (<[id := st']> S) l n b q i (o ++ [Frame_Close id]))
| K_dropped c S l n b q i o id st :
    S !! id = Some st → length l + length (drop_frame id st) ≤ pending_limit c →
    kstep (mkCore c true S l n b q i o) (EDropped id) (mkCore c true (delete id S) (drop_frame id st ++ l) n b q i o)
| K_read c S l n b q i o id st data buf :
    S !! id = Some st → recv_buf st = data :: buf →
    kstep (mkCore c true S l n b q i o) (ERead id data)
      (mkCore c true (<[id := set_recv_buf st buf]> S) l n (if decide (b = Some id) then None else b) q i o)
| K_delivered c S l n q i o r st data :
    S !! RemoteStreamId_into_local r = Some st → recv_buf_open st = Some [] →
    kstep (mkCore c true S l n None q (Frame_Data r data :: i) o) (EDelivered (RemoteStreamId_into_local r) data)
      (mkCore c true S l n None q i o)
| K_recv_open c S l n q q' i o r :
    S !! RemoteStreamId_into_local r = None → size S < max_substreams c →
    q' = q ∨ q' = RemoteStreamId_into_local r :: q →
    kstep (mkCore c true S l n None q (Frame_Open r :: i) o) (EReceived (Frame_Open r))
      (mkCore c true (<[RemoteStreamId_into_local r := Substream_Open []]> S) l n None q' i o)
| K_recv_reject c S l n q i o r :
    S !! RemoteStreamId_into_local r = None → max_substreams c ≤ size S → length l < pending_limit c →
    kstep (mkCore c true S l n None q (Frame_Open r :: i) o) (EReceived (Frame_Open r))
      (mkCore c true S (Frame_Reset (RemoteStreamId_into_local r) :: l) n None q i o)
| K_recv_ignored c S l n q i o r data :
    S !! RemoteStreamId_into_local r ≫= recv_buf_open = None →
    kstep (mkCore c true S l n None q (Frame_Data r data :: i) o) (EReceived (Frame_Data r data))
      (mkCore c true S l n None q i o)
| K_recv_data c S l n b q i o r st buf data :
    S !! RemoteStreamId_into_local r = Some st → recv_buf_open st = Some buf →
    b = (if decide (length buf < max_buffer_len c) then None else Some (RemoteStreamId_into_local r)) →
    (length buf < max_buffer_len c ∨ length buf = max_buffer_len c ∧ max_buffer_behaviour c = Block) →
    kstep (mkCore c true S l n None q (Frame_Data r data :: i) o) (EReceived (Frame_Data r data))
      (mkCore c true (<[RemoteStreamId_into_local r := set_recv_buf st (buf ++ [data])]> S) l n b q i o)
| K_recv_overflow c S l n q i o r st buf data :
    S !! RemoteStreamId_into_local r = Some st → recv_buf_open st = Some buf →
    length buf = max_buffer_len c → max_buffer_behaviour c = ResetStream → length l < pending_limit c →
    kstep (mkCore c true S l n None q (Frame_Data r data :: i) o) (EReceived (Frame_Data r data))
      (mkCore c true (<[RemoteStreamId_into_local r := Substream_Reset (buf ++ [data])]> S)
         (Frame_Reset (RemoteStreamId_into_local r) :: l) n None q i o)
| K_recv_close c S l n q i o r :
    kstep (mkCore c true S l n None q (Frame_Close r :: i) o) (EReceived (Frame_Close r))
      (mkCore c true (alter remote_close (RemoteStreamId_into_local r) S) l n None q i o)
| K_recv_reset c S l n q i o r :
    kstep (mkCore c true S l n None q (Frame_Reset r :: i) o) (EReceived (Frame_Reset r))
      (mkCore c true (partial_alter (λ st, st ≫= remote_reset) (RemoteStreamId_into_local r) S) l n None q i o)
| K_accepted c S l n b q i o id :
    kstep (mkCore c true S l n b (q ++ [id]) i o) (EAccepted id) (mkCore c true S l n b q i o)
| K_failed c S l n n' b q i i' o :
    (n' = n ∨ LocalStreamId_next n = Ret n') → i' `suffix_of` i →
    kstep (mkCore c true S l n b q i o) EFailed (mkCore c false ∅ [] n' b [] i' o).

Inductive ksteps : core → list event → core → Prop :=
| ksteps_nil k : ksteps k [] k
| ksteps_cons k1 e k2 es k3 : kstep k1 e k2 → ksteps k2 es k3 → ksteps k1 (e :: es) k3.

Lemma ksteps_app k1 es1 k2 es2 k3 : ksteps k1 es1 k2 → ksteps k2 es2 k3 → ksteps k1 (es1 ++ es2) k3.
Proof. induction 1; intros; [done|]. econstructor; eauto. Qed.

Lemma ksteps_one k1 e k2 : kstep k1 e k2 → ksteps k1 [e] k2.
Proof. intros. econstructor; [done|constructor]. Qed.

Create HintDb mplex.
#[export] Hint Constructors kstep ksteps : mplex.
#[export] Hint Resolve ksteps_one ksteps_app : mplex.

(** The data that is given to readers and that is accepted from writers. *)
Definition event_reads (es : list event) : list (LocalStreamId * Bytes) :=
  omap (λ e, match e with ERead id d | EDelivered id d => Some (id, d) | _ => None end) es.
Definition event_writes (es : list event) : list (LocalStreamId * Bytes) :=
  omap (λ e, match e with EWrote id d => Some (id, d) | _ => None end) es.

Definition event_opens (es : list event) : list LocalStreamId :=
  omap (λ e, match e with EOpened id => Some id | _ => None end) es.

Lemma event_reads_app es1 es2 : event_reads (es1 ++ es2) = event_reads es1 ++ event_reads es2.
Proof. apply omap_app. Qed.
Lemma event_writes_app es1 es2 : event_writes (es1 ++ es2) = event_writes es1 ++ event_writes es2.
Proof. apply omap_app. Qed.

Lemma event_opens_app es1 es2 : event_opens (es1 ++ es2) = event_opens es1 ++ event_opens es2.
Proof. apply omap_app. Qed.

(** ** Invariant *)

Definition is_final (f : Frame LocalStreamId) : Prop :=
  match f with Frame_Close _ | Frame_Reset _ => True | _ => False end.

(** A stream that was opened locally has a number that was already used. *)
Definition id_used (n id : LocalStreamId) : Prop := lid_role id = Dialer → (lid_num id < lid_num n)%N.

Record kinv (k : core) : Prop := {
  ki_size : size (k_subs k) ≤ max_substreams (k_config k);
  ki_pend : length (k_pend k) ≤ pending_limit (k_config k);
  ki_final : Forall is_final (k_pend k);
  ki_buf id st : k_subs k !! id = Some st → length (recv_buf st) ≤ S (max_buffer_len (k_config k));
  ki_room id st : k_subs k !! id = Some st → is_Some (recv_buf_open st) → k_block k ≠ Some id →
    length (recv_buf st) ≤ max_buffer_len (k_config k);
  ki_block id st : k_block k = Some id → k_subs k !! id = Some st → recv_buf st ≠ [];
  ki_next : lid_role (k_next k) = Dialer;
  ki_used id st : k_subs k !! id = Some st → id_used (k_next k) id;
  ki_block_used id : k_block k = Some id → id_used (k_next k) id;
  ki_in : Forall inbound_ok (k_in k);
  ki_closed : k_open k = false → k_subs k = ∅ ∧ k_pend k = [] ∧ k_inbound k = [];
}.

Lemma recv_buf_open_Some st buf : recv_buf_open st = Some buf → recv_buf st = buf.
Proof. by destruct st; intros [= ->]. Qed.

Lemma recv_buf_set st buf : recv_buf (set_recv_buf st buf) = buf.
Proof. by destruct st. Qed.

Lemma recv_buf_open_set st buf : recv_buf_open (set_recv_buf st buf) = (λ _, buf) <$> recv_buf_open st.
Proof. by destruct st. Qed.

Lemma remote_close_buf st : recv_buf (remote_close st) = recv_buf st.
Proof. by destruct st. Qed.

Lemma remote_close_open st : recv_buf_open (remote_close st) = None.
Proof. by destruct st. Qed.

Lemma remote_reset_buf st st' : remote_reset st = Some st' → recv_buf st' = recv_buf st ∧ recv_buf_open st' = None.
Proof. destruct st; intros [= <-]; done. Qed.

Lemma local_close_buf st st' : local_close st = Some st' → recv_buf st' = recv_buf st ∧ recv_buf_open st' = recv_buf_open st.
Proof. destruct st; intros [= <-]; done. Qed.

Lemma LocalStreamId_next_Ret n n' :
  LocalStreamId_next n = Ret n' → lid_role n' = lid_role n ∧ (lid_num n' = lid_num n + 1)%N.
Proof. unfold LocalStreamId_next. intros H. case_decide; [|done]. by injection H as <-. Qed.

Lemma id_used_next n n' id : LocalStreamId_next n = Ret n' → id_used n id → id_used n' id.
Proof. intros [_ Hn]%LocalStreamId_next_Ret Hu Hr. specialize (Hu Hr). lia. Qed.

(** Changing one stream. *)
Lemma kinv_insert k k' id st :
  kinv k → k_config k' = k_config k → k_open k' = true →
  k_subs k' = <[id := st]> (k_subs k) →
  (is_Some (k_subs k !! id) ∨ size (k_subs k) < max_substreams (k_config k)) →
  length (k_pend k') ≤ pending_limit (k_config k) → Forall is_final (k_pend k') →
  length (recv_buf st) ≤ S (max_buffer_len (k_config k)) →
  (is_Some (recv_buf_open st) → k_block k' ≠ Some id → length (recv_buf st) ≤ max_buffer_len (k_config k)) →
  (k_block k' = Some id → recv_buf st ≠ []) →
  (∀ id', id' ≠ id → k_block k' = Some id' ↔ k_block k = Some id') →
  lid_role (k_next k') = Dialer → (∀ id', id_used (k_next k) id' → id_used (k_next k') id') →
  id_used (k_next k') id → Forall inbound_ok (k_in k') →
  kinv k'.
Proof.
  intros [] Hc Ho Hs Hsz Hp Hf Hb Hr Hbl Hbo Hrole Hmono Hid Hin. split; rewrite ?Hc, ?Hs; try done.
  - destruct Hsz as [Hsz|Hsz].
    + by rewrite map_size_insert_Some.
    + destruct (k_subs k !! id) eqn:E; [by rewrite map_size_insert_Some|]. rewrite map_size_insert_None by done. lia.
  - intros id' st'. rewrite lookup_insert_Some. intros [[-> ->]|[Hne Hl]]; eauto.
  - intros id' st'. rewrite lookup_insert_Some. intros [[-> ->]|[Hne Hl]]; [done|].
    intros ? Hb'. eapply ki_room0; [done|done|]. by rewrite <-Hbo.
  - intros id' st' Hb'. rewrite lookup_insert_Some. intros [[-> ->]|[Hne Hl]]; [by apply Hbl|].
    eapply ki_block0; [|done]. by apply Hbo.
  - intros id' st'. rewrite lookup_insert_Some. intros [[-> ->]|[Hne Hl]]; [done|]. eapply Hmono, ki_used0; done.
  - intros id' Hb'. destruct (decide (id' = id)) as [->|Hne]; [done|]. apply Hmono, ki_block_used0. by apply Hbo.
  - congruence.
Qed.

(** Removing streams, or leaving them as they are. *)
Lemma kinv_subseteq k k' :
  kinv k → k_config k' = k_config k → k_subs k' ⊆ k_subs k →
  length (k_pend k') ≤ pending_limit (k_config k) → Forall is_final (k_pend k') →
  k_block k' = k_block k → lid_role (k_next k') = Dialer → (∀ id', id_used (k_next k) id' → id_used (k_next k') id') →
  Forall inbound_ok (k_in k') →
  (k_open k' = false → k_subs k' = ∅ ∧ k_pend k' = [] ∧ k_inbound k' = []) →
  kinv k'.
Proof.
  intros [] Hc Hs Hp Hf Hb Hrole Hmono Hin Hcl.
  assert (∀ id st, k_subs k' !! id = Some st → k_subs k !! id = Some st) as Hl by (intros; by eapply lookup_weaken).
  split; rewrite ?Hc, ?Hb; eauto. etrans; [by apply map_subseteq_size|done].
Qed.

Ltac kinv_same :=
  match goal with H : kinv ?k |- _ => apply (kinv_subseteq k); simpl; [done|done| |..] end.

Lemma kstep_kinv k e k' : kstep k e k' → kinv k → kinv k'.
Proof.
  intros Hstep Hk. pose proof Hk as [? ? ? ? ? ? ? ? ? ? ?].
  assert (∀ f i, k_in k = f :: i → inbound_ok f ∧ Forall inbound_ok i) as Hin
    by (intros f i E; by rewrite E, Forall_cons in ki_in0).
  inversion Hstep; subst; simpl in *; try (destruct (Hin _ _ eq_refl) as [Hok Hin']).
  - (* sent *)
    rewrite length_app in *. simpl in *. kinv_same; [done|lia|by apply Forall_app in ki_final0 as [? _]|done..].
  - (* opened *)
    pose proof (LocalStreamId_next_Ret _ _ H0) as [Hrole Hnum].
    apply (kinv_insert (mkCore c true S l n b q i o) _ n (Substream_Open []) Hk); simpl;
      [done|done|done|by right|done|done|lia|intros; lia| |done|congruence| |intros ?; lia|done].
    + intros ->. specialize (ki_block_used0 n eq_refl ki_next0). lia.
    + intros id'. by apply id_used_next.
  - (* wrote *) kinv_same; done.
  - (* closed *)
    destruct (local_close_buf _ _ H0) as [Hb1 Hb2].
    apply (kinv_insert (mkCore c true S l n b q i o) _ id st' Hk); simpl;
      [done|done|done|left; by eexists|done|done|rewrite Hb1; eauto|rewrite Hb1, Hb2; eauto|rewrite Hb1; eauto|done|done|done|eauto|done].
  - (* dropped *)
    kinv_same; [apply delete_subseteq|rewrite length_app; lia| |done..].
    apply Forall_app; split; [by destruct st; repeat constructor|done].
  - (* read *)
    pose proof (ki_buf0 _ _ H) as Hl. rewrite H0 in Hl. simpl in Hl.
    apply (kinv_insert (mkCore c true S l n b q i o) _ id (set_recv_buf st buf) Hk); simpl;
      [done|done|done|left; by eexists|done|done|rewrite recv_buf_set; lia|rewrite recv_buf_set; intros; lia| | |done|done|eauto|done].
    + intros Hb. exfalso. case_decide; congruence.
    + intros id' Hne. case_decide; [|done]. split; congruence.
  - (* delivered *) kinv_same; done.
  - (* received: open *)
    apply (kinv_insert _ _ (RemoteStreamId_into_local r) (Substream_Open []) Hk); simpl;
      [done|done|done|by right|done|done|lia|intros; lia|done|done|done|done| |done].
    destruct r as [num []]; done.
  - (* rejected *) kinv_same; [done|lia|by constructor|done..].
  - (* ignored *) kinv_same; done.
  - (* data *)
    pose proof (recv_buf_open_Some _ _ H0) as Hb.
    apply (kinv_insert _ _ (RemoteStreamId_into_local r) (set_recv_buf st (buf ++ [data])) Hk); simpl;
      rewrite ?recv_buf_set, ?length_app; simpl;
      [done|done|done|left; by eexists|done|done|lia| |by destruct buf| |done|done|by eapply ki_used0|done].
    + intros _ Hne. case_decide; [lia|done].
    + intros id' Hne. case_decide; split; congruence.
  - (* overflow *)
    apply (kinv_insert _ _ (RemoteStreamId_into_local r) (Substream_Reset (buf ++ [data])) Hk); simpl;
      rewrite ?length_app; simpl;
      [done|done|done|left; by eexists|lia|by constructor|lia|by intros []|done|done|done|done|by eapply ki_used0|done].
  - (* close *)
    destruct (S !! RemoteStreamId_into_local r) as [st|] eqn:E.
    + apply (kinv_insert _ _ (RemoteStreamId_into_local r) (remote_close st) Hk); simpl;
        rewrite ?remote_close_buf, ?remote_close_open;
        [done|done| |left; by eexists|done|done|by eapply ki_buf0|by intros []|done|done|done|done|by eapply ki_used0|done].
      apply map_eq. intros j. rewrite lookup_alter, lookup_insert, E. by case_decide.
    + rewrite alter_id' by done. kinv_same; done.
  - (* reset *)
    destruct (S !! RemoteStreamId_into_local r ≫= remote_reset) as [st'|] eqn:E.
    + destruct (S !! RemoteStreamId_into_local r) as [st|] eqn:E'; [|done]. simpl in E.
      destruct (remote_reset_buf _ _ E) as [Hb1 Hb2].
      apply (kinv_insert _ _ (RemoteStreamId_into_local r) st' Hk); simpl; rewrite ?Hb1, ?Hb2;
        [done|done| |left; by eexists|done|done|by eapply ki_buf0|by intros []|done|done|done|done|by eapply ki_used0|done].
      apply map_eq. intros j. rewrite lookup_partial_alter, lookup_insert. case_decide; [|done]. subst j. rewrite E'. exact E.
    + kinv_same; [|done..]. apply map_subseteq_spec. intros j st. rewrite lookup_partial_alter.
      case_decide; [|done]. subst j. by rewrite E.
  - (* accepted *) kinv_same; done.
  - (* failed *)
    kinv_same; [apply map_empty_subseteq|lia|done|done| | | |done].
    + destruct H as [->|[-> _]%LocalStreamId_next_Ret]; done.
    + intros id'. destruct H as [->|H]; [done|by apply id_used_next].
    + destruct H0 as [k' ->]. by apply Forall_app in ki_in0 as [_ ?].
Qed.

Lemma ksteps_kinv k es k' : ksteps k es k' → kinv k → kinv k'.
Proof. induction 1; eauto using kstep_kinv. Qed.

Lemma kstep_config k e k' : kstep k e k' → k_config k' = k_config k.
Proof. by inversion 1. Qed.

Lemma ksteps_config k es k' : ksteps k es k' → k_config k' = k_config k.
Proof. induction 1 as [|???? H IH]; [done|]. rewrite IHksteps. by eapply kstep_config. Qed.

(** ** The operations as sequences of steps *)

Section refinement.
Context {R : Type} `{!FramedIo R, !FramedIoSpec R}.
Implicit Types m : Multiplexed R.

Definition is_open (s : Status) : bool := match s with Status_Open => true | _ => false end.

Definition core_of m : core :=
  mkCore (config m) (is_open (status m)) (substreams m) (pending_frames m) (next_outbound_stream_id m)
    (blocking_stream m) (open_buffer m) (framed_in (io m)) (framed_out (io m)).

(** Wakers are not part of the core. *)
Lemma core_wake m w : core_of (wake m w) = core_of m.
Proof. done. Qed.
Lemma core_register_read m w id : core_of (register_read_stream m w id) = core_of m.
Proof. done. Qed.
Lemma core_register_next m w : core_of (register_next_stream m w) = core_of m.
Proof. done. Qed.
Lemma core_wake_read m id : core_of (wake_read_stream m id).2 = core_of m.
Proof. unfold wake_read_stream. by destruct (_ !! _). Qed.
Lemma core_wake_next m : core_of (wake_next_stream m) = core_of m.
Proof. unfold wake_next_stream. by destruct (next_stream _). Qed.
Lemma core_wake_all_read m : core_of (NotifierRead_wake_by_ref m) = core_of m.
Proof. unfold NotifierRead_wake_by_ref. by rewrite core_wake_next. Qed.
Lemma core_register_write m w : core_of (NotifierWrite_register m w) = core_of m.
Proof. unfold NotifierWrite_register. by destruct (forallb _ _). Qed.
Lemma core_register_open m w : core_of (NotifierOpen_register m w) = core_of m.
Proof. unfold NotifierOpen_register. by destruct (forallb _ _). Qed.
Lemma core_wake_open m : core_of (NotifierOpen_wake_all m) = core_of m.
Proof. done. Qed.

(** The connection has failed. *)
Definition k_failed (k : core) : core :=
  mkCore (k_config k) false ∅ [] (k_next k) (k_block k) [] (k_in k) (k_out k).

Lemma core_on_error {T} m e : ∃ m', on_error (T:=T) m e = (Err e, m') ∧ core_of m' = k_failed (core_of m).
Proof. eexists. by split. Qed.

Lemma ksteps_failed k : k_open k = true → kstep k EFailed (k_failed k).
Proof. destruct k; simpl. intros ->. apply K_failed; [by left|done]. Qed.

(** A frame is handed to the I/O stream. *)
Definition k_sent (k : core) (f : Frame LocalStreamId) : core :=
  mkCore (k_config k) (k_open k) (k_subs k) (k_pend k) (k_next k) (k_block k) (k_inbound k) (k_in k) (k_out k ++ [f]).

Lemma poll_send_frame_spec m w f :
  let '(p, m') := poll_send_frame m w f in
  match p with
  | Pending => core_of m' = core_of m
  | Ready (Ok _) => core_of m' = k_sent (core_of m) f
  | Ready (Err _) => core_of m' = k_failed (core_of m)
  end.
Proof.
  unfold poll_send_frame. rewrite <-(core_register_write m w).
  set (m0 := NotifierWrite_register m w). destruct (framed_ready (io m0)) as [p r] eqn:E.
  destruct (framed_ready_spec _ _ _ E) as [Hi Ho].
  destruct p as [[[]|e]|]; [|unfold core_of, k_failed; simpl; by rewrite Hi, Ho|unfold core_of; simpl; by rewrite Hi, Ho].
  simpl. destruct (framed_send r f) as [res r'] eqn:E'.
  destruct (framed_send_spec _ _ _ _ E') as [Hi' Ho'].
  destruct res as [[]|e]; unfold core_of, k_failed, k_sent; simpl; rewrite Hi', Ho', Hi, Ho, ?app_nil_r; done.
Qed.

(** The frames [fs] are sent, in this order, and [l] is left. *)
Definition k_flushed (k : core) (fs l : list (Frame LocalStreamId)) : core :=
  mkCore (k_config k) (k_open k) (k_subs k) l (k_next k) (k_block k) (k_inbound k) (k_in k) (k_out k ++ fs).

Lemma ksteps_flushed k fs l :
  k_open k = true → k_pend k = l ++ reverse fs → ksteps k (ESent <$> fs) (k_flushed k fs l).
Proof.
  revert k. induction fs as [|f fs IH]; intros [c b S pend n bl q i o]; simpl; intros -> ->.
  - rewrite app_nil_r. unfold k_flushed; simpl. rewrite app_nil_r. constructor.
  - rewrite reverse_cons, app_assoc. econstructor; [apply K_sent|].
    specialize (IH (mkCore c true S (l ++ reverse fs) n bl q i (o ++ [f])) eq_refl eq_refl).
    unfold k_flushed in *; simpl in *. by rewrite <-app_assoc in IH.
Qed.

Lemma removelast_last {A} (l : list A) x : last l = Some x → l = removelast l ++ [x].
Proof.
  intros H. apply last_Some in H as [l' ->]. by rewrite removelast_last.
Qed.

Lemma send_pending_loop_spec fuel m w :
  length (pending_frames m) ≤ fuel → status m = Status_Open →
  ∃ p m' fs l, send_pending_loop fuel m w = Ret (p, m') ∧ pending_frames m = l ++ reverse fs ∧
    (p = Ready (Ok ()) → l = []) ∧
    core_of m' = (if p is Ready (Err _) then k_failed else id) (k_flushed (core_of m) fs l).
Proof.
  revert m. induction fuel as [|fuel IH]; intros m Hf Ho; simpl;
    (destruct (last (pending_frames m)) as [f|] eqn:El;
     [|apply last_None in El; exists (Ready (Ok ())), m, [], []; split_and!; [done|by rewrite El|done|];
       unfold core_of, k_flushed; simpl; by rewrite El, app_nil_r]).
  { apply removelast_last in El. rewrite El, length_app in Hf. simpl in Hf. lia. }
  apply removelast_last in El. set (l0 := removelast (pending_frames m)) in *.
  pose proof (poll_send_frame_spec (set_pending_frames m l0) w f) as Hs.
  destruct (poll_send_frame (set_pending_frames m l0) w f) as [[[[]|e]|] m1].
  - destruct (IH m1) as (p & m' & fs & l & E & Hp & Hl & Hc).
    { apply (f_equal k_pend) in Hs. simpl in Hs. rewrite Hs. rewrite El, length_app in Hf. simpl in Hf. lia. }
    { apply (f_equal k_open) in Hs. simpl in Hs. rewrite Ho in Hs. by destruct (status m1). }
    exists p, m', (f :: fs), l. split_and!; [done| |done|].
    + rewrite El. apply (f_equal k_pend) in Hs. simpl in Hs. rewrite <-Hs, Hp. by rewrite reverse_cons, app_assoc.
    + rewrite Hc, Hs. unfold k_flushed, k_sent; simpl. by rewrite <-app_assoc.
  - exists (Ready (Err e)), m1, [], (pending_frames m). split_and!; [done|by rewrite app_nil_r|done|].
    rewrite Hs. unfold k_failed, k_flushed; simpl. by rewrite app_nil_r.
  - eexists Pending, _, [], (pending_frames m). split_and!; [done|by rewrite app_nil_r|done|].
    unfold core_of, k_flushed in *; simpl in *. rewrite app_nil_r. injection Hs as -> -> -> Hpf -> -> -> -> ->.
    by rewrite Hpf, <-El.
Qed.

Lemma send_pending_frames_spec m w :
  status m = Status_Open →
  ∃ p m' fs l, send_pending_frames m w = Ret (p, m') ∧ pending_frames m = l ++ reverse fs ∧
    (p = Ready (Ok ()) → l = []) ∧
    core_of m' = (if p is Ready (Err _) then k_failed else id) (k_flushed (core_of m) fs l).
Proof. by apply send_pending_loop_spec. Qed.

Lemma core_open m : status m = Status_Open ↔ k_open (core_of m) = true.
Proof. simpl. by destruct (status m). Qed.

Lemma poll_flush_spec m w :
  status m = Status_Open →
  ∃ p m' fs l, Multiplexed_poll_flush m w = Ret (p, m') ∧ pending_frames m = l ++ reverse fs ∧
    core_of m' = (if p is Ready (Err _) then k_failed else id) (k_flushed (core_of m) fs l).
Proof.
  intros Ho. unfold Multiplexed_poll_flush. rewrite Ho.
  destruct (send_pending_frames_spec m w Ho) as (p & m1 & fs & l & -> & Hp & _ & Hc). simpl.
  destruct p as [[[]|e]|]; [|by exists (Ready (Err e)), m1, fs, l|by exists Pending, m1, fs, l].
  simpl in Hc. rewrite <-(core_register_write m1 w) in Hc. set (m2 := NotifierWrite_register m1 w) in *.
  destruct (framed_flush (io m2)) as [p r] eqn:E. destruct (framed_flush_spec _ _ _ E) as [Hi Hout].
  assert (core_of (set_io m2 r) = core_of m2) as Hc2 by (unfold core_of; simpl; by rewrite Hi, Hout).
  rewrite <-Hc2 in Hc. destruct p as [[[]|e]|].
  - eexists (Ready (Ok ())), _, fs, l. by split_and!.
  - eexists (Ready (Err e)), _, fs, l. split_and!; [done..|]. by rewrite <-Hc.
  - eexists Pending, _, fs, l. by split_and!.
Qed.

Definition k_took (k : core) (i : list (Frame RemoteStreamId)) : core :=
  mkCore (k_config k) (k_open k) (k_subs k) (k_pend k) (k_next k) (k_block k) (k_inbound k) i (k_out k).

Lemma k_flushed_flushed k fs l fs' l' : k_flushed (k_flushed k fs l) fs' l' = k_flushed k (fs ++ fs') l'.
Proof. unfold k_flushed; simpl. by rewrite app_assoc. Qed.

Lemma read_frame_flush_spec m w sid :
  status m = Status_Open →
  ∃ p m' fs l, read_frame_flush m w sid = Ret (p, m') ∧ pending_frames m = l ++ reverse fs ∧
    core_of m' = (if p is Ready (Err _) then k_failed else id) (k_flushed (core_of m) fs l).
Proof.
  intros Ho. assert (core_of m = k_flushed (core_of m) [] (pending_frames m)) as Hid
    by (unfold core_of, k_flushed; simpl; by rewrite app_nil_r).
  unfold read_frame_flush. destruct sid as [id|]; [case_decide|];
    [|exists (Ready (Ok ())), m, [], (pending_frames m); by rewrite app_nil_r..].
  destruct (poll_flush_spec m w Ho) as (p & m' & fs & l & -> & Hp & Hc).
  destruct p as [[[]|e]|]; simpl;
    [by eexists (Ready (Ok ())), _, fs, l|by eexists (Ready (Err e)), _, fs, l|by eexists Pending, _, fs, l].
Qed.

Lemma read_frame_next_spec m w sid :
  (∀ id, sid = Some id → blocking_stream m ≠ Some id) →
  ∃ p m', read_frame_next m w sid = Ret (p, m') ∧
    match p with
    | Pending => core_of m' = core_of m
    | Ready (Err _) => core_of m' = k_failed (core_of m)
    | Ready (Ok f) =>
        blocking_stream m = None ∧ ∃ i, framed_in (io m) = f :: i ∧ core_of m' = k_took (core_of m) i
    end.
Proof.
  intros Hne. unfold read_frame_next. destruct (blocking_stream m) as [bid|] eqn:Hbl.
  - destruct (wake_read_stream m bid) as [woke m2] eqn:Ew. pose proof (core_wake_read m bid) as Hw.
    rewrite Ew in Hw. simpl in Hw. destruct woke; simpl.
    + destruct sid as [id|].
      * rewrite bool_decide_eq_true_2 by (intros ->; by apply (Hne id)). simpl.
        eexists Pending, _. split; [done|]. by rewrite core_register_read, Hw.
      * eexists Pending, _. split; [done|]. by rewrite core_register_next, Hw.
    + eexists Pending, _. split; [done|]. by rewrite core_wake, Hw.
  - set (m2 := match sid with Some id => register_read_stream m w id | None => register_next_stream m w end).
    assert (core_of m2 = core_of m) as Hc by (by destruct sid). clearbody m2.
    destruct (framed_next (io m2)) as [p r] eqn:E. destruct (framed_next_spec _ _ _ E) as [Hout Hin].
    assert (framed_in (io m2) = framed_in (io m)) as Him by (by apply (f_equal k_in) in Hc).
    destruct p as [[[f|e]|]|]; simpl in Hin.
    + eexists (Ready (Ok f)), _. split_and!; [done|done|]. exists (framed_in r). split; [congruence|].
      rewrite <-Hc. unfold core_of, k_took; simpl. by rewrite Hout.
    + eexists (Ready (Err e)), _. split; [done|]. rewrite <-Hc.
      unfold core_of, k_failed; simpl. by rewrite Hout, Hin.
    + eexists (Ready (Err UnexpectedEof)), _. split; [done|]. rewrite <-Hc.
      unfold core_of, k_failed; simpl. by rewrite Hout, Hin.
    + eexists Pending, _. split; [done|]. rewrite <-Hc. unfold core_of; simpl. by rewrite Hout, Hin.
Qed.

(** Reading a frame: pending frames may be sent before it. *)
Lemma poll_read_frame_spec m w sid :
  status m = Status_Open → (∀ id, sid = Some id → blocking_stream m ≠ Some id) →
  ∃ p m' fs l, poll_read_frame m w sid = Ret (p, m') ∧ pending_frames m = l ++ reverse fs ∧
    match p with
    | Pending => core_of m' = k_flushed (core_of m) fs l
    | Ready (Err _) => core_of m' = k_failed (k_flushed (core_of m) fs l)
    | Ready (Ok f) =>
        blocking_stream m = None ∧ ∃ i, framed_in (io m) = f :: i ∧ core_of m' = k_took (k_flushed (core_of m) fs l) i
    end.
Proof.
  intros Ho Hne. unfold poll_read_frame.
  destruct (send_pending_frames_spec m w Ho) as (p & m1 & fs1 & l1 & -> & Hp1 & _ & Hc1). cbn [mbind outcome_bind].
  assert ((∃ e, p = Ready (Err e)) ∨ core_of m1 = k_flushed (core_of m) fs1 l1) as [[e ->]|Hc1']
    by (destruct p as [[[]|e]|]; eauto).
  { exists (Ready (Err e)), m1, fs1, l1. by split_and!. }
  assert (status m1 = Status_Open) as Ho1 by (apply core_open; rewrite Hc1'; simpl; by rewrite Ho).
  destruct (read_frame_flush_spec m1 w sid Ho1) as (p2 & m2 & fs2 & l2 & E2 & Hp2 & Hc2).
  rewrite Hc1', k_flushed_flushed in Hc2.
  assert (pending_frames m = l2 ++ reverse (fs1 ++ fs2)) as Hp.
  { apply (f_equal k_pend) in Hc1'. simpl in Hc1'. rewrite Hp1, <-Hc1', Hp2, reverse_app. by rewrite app_assoc. }
  assert (blocking_stream m2 = blocking_stream m ∧ framed_in (io m2) = framed_in (io m)) as [Hb Hi].
  { destruct p2 as [[|]|]; simpl in Hc2; unfold core_of, k_failed, k_flushed in Hc2; simpl in Hc2; by injection Hc2. }
  destruct (read_frame_next_spec m2 w sid) as (p3 & m3 & E3 & Hc3); [by rewrite Hb|].
  assert (∃ p' m' fs l, ('(p, m) ← read_frame_flush m1 w sid;
      match p with
      | Pending => Ret (Pending, m)
      | Ready (Err e) => Ret (Ready (Err e), m)
      | Ready (Ok _) => read_frame_next m w sid
      end) = Ret (p', m') ∧ pending_frames m = l ++ reverse fs ∧
    match p' with
    | Pending => core_of m' = k_flushed (core_of m) fs l
    | Ready (Err _) => core_of m' = k_failed (k_flushed (core_of m) fs l)
    | Ready (Ok f) =>
        blocking_stream m = None ∧ ∃ i, framed_in (io m) = f :: i ∧ core_of m' = k_took (k_flushed (core_of m) fs l) i
    end) as Hrest; [|destruct p as [[[]|e]|]; [done| |done]].
  - rewrite E2. cbn [mbind outcome_bind]. destruct p2 as [[[]|e]|]; simpl in Hc2.
    + exists p3, m3, (fs1 ++ fs2), l2. split_and!; [done|done|]. destruct p3 as [[f|e]|]; rewrite <-Hc2; [|done|done].
      rewrite <-Hb, <-Hi. done.
    + by exists (Ready (Err e)), m2, (fs1 ++ fs2), l2.
    + by exists Pending, m2, (fs1 ++ fs2), l2.
  - simpl in Hc1. exists (Ready (Err e)), m1, fs1, l1. by split_and!.
Qed.

(** Processing a frame that was taken from the I/O stream. *)

Lemma check_max_pending_spec m c S l n b q i o :
  core_of m = mkCore c true S l n b q i o →
  let '(res, m') := check_max_pending_frames m in
  match res with
  | Ok _ => m' = m ∧ length l < pending_limit c
  | Err _ => core_of m' = mkCore c false ∅ [] n b [] i o
  end.
Proof.
  intros [= <- Ho <- <- <- <- <- <- <-]. unfold check_max_pending_frames. case_decide; [done|]. split; [done|lia].
Qed.

Lemma on_open_spec m r c S l n q i o :
  core_of m = mkCore c true S l n None q i o →
  let k := mkCore c true S l n None q (Frame_Open r :: i) o in
  let '(res, m') := on_open m r in
  match res with
  | Ok (Some id) =>
      id = RemoteStreamId_into_local r ∧
      core_of m' = mkCore c true (<[id := Substream_Open []]> S) l n None q i o ∧
      S !! id = None ∧ size S < max_substreams c
  | Ok None => kstep k (EReceived (Frame_Open r)) (core_of m')
  | Err _ => kstep k EFailed (core_of m')
  end.
Proof.
  intros Hc k. pose proof Hc as [= Hcf Ho HS Hl Hn Hb Hq Hi Hout]. unfold on_open. rewrite HS.
  destruct (S !! _) eqn:E.
  { unfold k; simpl. replace (core_of _) with (mkCore c false ∅ [] n None [] i o)
      by (unfold core_of; simpl; congruence). constructor; [by left|by exists [Frame_Open r]]. }
  rewrite Hcf. case_decide.
  - pose proof (check_max_pending_spec _ _ _ _ _ _ _ _ _ Hc) as Hm.
    destruct (check_max_pending_frames m) as [[[]|e] m'].
    + destruct Hm as [-> Hm]. replace (core_of _) with
        (mkCore c true S (Frame_Reset (RemoteStreamId_into_local r) :: l) n None q i o)
        by (unfold core_of; simpl; congruence). by constructor.
    + rewrite Hm. constructor; [by left|by exists [Frame_Open r]].
  - split_and!; [done| |done|lia]. unfold core_of; simpl. congruence.
Qed.

Lemma core_subs m S' c S l n b q i o :
  core_of m = mkCore c true S l n b q i o → core_of (set_substreams m S') = mkCore c true S' l n b q i o.
Proof. intros [= <- <- <- <- <- <- <- <- <-]. done. Qed.

Lemma on_close_spec m r c S l n q i o :
  core_of m = mkCore c true S l n None q i o →
  kstep (mkCore c true S l n None q (Frame_Close r :: i) o) (EReceived (Frame_Close r))
    (core_of (on_close m (RemoteStreamId_into_local r))).
Proof.
  intros Hc. set (id := RemoteStreamId_into_local r).
  replace (core_of (on_close m id)) with (mkCore c true (alter remote_close id S) l n None q i o); [constructor|].
  assert (S = substreams m) as HS by (by injection Hc). unfold on_close. rewrite <-HS.
  assert (∀ st, S !! id = Some st → alter remote_close id S = <[id := remote_close st]> (delete id S)) as Ha.
  { intros st E. apply map_eq. intros j. rewrite lookup_alter, lookup_insert, lookup_delete, E. by case_decide. }
  destruct (S !! id) as [st|] eqn:E; [|by rewrite alter_id'].
  rewrite (Ha st eq_refl). destruct st; simpl; rewrite ?core_wake_read; symmetry; by eapply core_subs, core_subs.
Qed.

Lemma on_reset_spec m r c S l n q i o :
  core_of m = mkCore c true S l n None q i o →
  kstep (mkCore c true S l n None q (Frame_Reset r :: i) o) (EReceived (Frame_Reset r))
    (core_of (on_reset m (RemoteStreamId_into_local r))).
Proof.
  intros Hc. set (id := RemoteStreamId_into_local r).
  replace (core_of (on_reset m id)) with (mkCore c true (partial_alter (λ st, st ≫= remote_reset) id S) l n None q i o);
    [constructor|].
  assert (S = substreams m) as HS by (by injection Hc). unfold on_reset. rewrite <-HS.
  assert (∀ st st', S !! id = Some st → remote_reset st = Some st' →
    partial_alter (λ st, st ≫= remote_reset) id S = <[id := st']> (delete id S)) as Ha.
  { intros st st' E E'. apply map_eq. intros j. rewrite lookup_partial_alter, lookup_insert, lookup_delete.
    case_decide; [|done]. by rewrite E. }
  assert (S !! id ≫= remote_reset = None → partial_alter (λ st, st ≫= remote_reset) id S = delete id S) as Hd.
  { intros E. apply map_eq. intros j. rewrite lookup_partial_alter, lookup_delete. case_decide; [|done]. by rewrite E. }
  destruct (S !! id) as [st|] eqn:E; [|by rewrite Hd, delete_id by done].
  destruct st; simpl; rewrite ?core_wake_read.
  1-3: rewrite (Ha _ _ eq_refl eq_refl); symmetry; by eapply core_subs, core_subs.
  1-2: rewrite Hd by done; symmetry; by eapply core_subs.
Qed.

Lemma buffer_spec m r data c S l n q i o :
  core_of m = mkCore c true S l n None q i o → kinv (core_of m) →
  ∃ res m', buffer m (RemoteStreamId_into_local r) data = Ret (res, m') ∧
    kstep (mkCore c true S l n None q (Frame_Data r data :: i) o)
      (match res with Ok _ => EReceived (Frame_Data r data) | Err _ => EFailed end) (core_of m').
Proof.
  intros Hc Hk. rewrite Hc in Hk. set (id := RemoteStreamId_into_local r).
  assert (S = substreams m ∧ c = config m) as [HS Hcf] by (by injection Hc). unfold buffer. rewrite <-HS, <-Hcf.
  destruct (S !! id) as [st|] eqn:E.
  2: { exists (Ok ()), m. split; [done|]. rewrite Hc. constructor. fold id. by rewrite E. }
  destruct (recv_buf_open st) as [buf|] eqn:Eb.
  2: { exists (Ok ()), m. split; [done|]. rewrite Hc. constructor. fold id. by rewrite E. }
  assert (length buf ≤ max_buffer_len c) as Hlen.
  { rewrite <-(recv_buf_open_Some _ _ Eb). by apply (ki_room _ Hk id st); [|rewrite Eb|]. }
  rewrite bool_decide_eq_true_2 by done. cbn [assert mbind outcome_bind].
  set (m1 := (wake_read_stream (set_substreams m (<[id:=set_recv_buf st (buf ++ [data])]> S)) id).2).
  assert (core_of m1 = mkCore c true (<[id:=set_recv_buf st (buf ++ [data])]> S) l n None q i o) as Hc1.
  { unfold m1. rewrite core_wake_read. by eapply core_subs. }
  clearbody m1. assert (config m1 = c) as -> by (by injection Hc1). rewrite length_app; simpl.
  case_decide as Hfull; [destruct (max_buffer_behaviour c) eqn:Hbeh|].
  - pose proof (check_max_pending_spec _ _ _ _ _ _ _ _ _ Hc1) as Hm.
    destruct (check_max_pending_frames m1) as [[[]|e] m2].
    + destruct Hm as [-> Hm]. eexists (Ok ()), _. split; [done|].
      assert (S = substreams m ∧ pending_frames m1 = l ∧
        substreams m1 = <[id:=set_recv_buf st (buf ++ [data])]> S) as (_ & Hpf & Hsm) by (by injection Hc1).
      replace (core_of _) with (mkCore c true (<[id := Substream_Reset (buf ++ [data])]> S) (Frame_Reset id :: l) n None q i o).
      * eapply K_recv_overflow; [done|done|lia|done|done].
      * injection Hc1 as ?????????. unfold core_of; simpl. rewrite Hpf, Hsm, insert_insert_eq. congruence.
    + exists (Err e), m2. split; [done|]. rewrite Hm. constructor; [by left|by exists [Frame_Data r data]].
  - eexists (Ok ()), _. split; [done|]. injection Hc1 as ?????????.
    replace (core_of _) with (mkCore c true (<[id := set_recv_buf st (buf ++ [data])]> S) l n (Some id) q i o)
      by (unfold core_of; simpl; congruence).
    eapply K_recv_data; [done|done|rewrite decide_False by lia; done|right; split; [lia|done]].
  - exists (Ok ()), m1. split; [done|]. rewrite Hc1.
    eapply K_recv_data; [done|done|rewrite decide_True by lia; done|left; lia].
Qed.

(** Events without data for or from a user of the streams. *)
Definition quiet (es : list event) : Prop := event_reads es = [] ∧ event_writes es = [] ∧ event_opens es = [].

Lemma quiet_app es1 es2 : quiet es1 → quiet es2 → quiet (es1 ++ es2).
Proof.
  intros (H1 & H2 & H3) (H4 & H5 & H6). unfold quiet. rewrite event_reads_app, event_writes_app, event_opens_app.
  by rewrite H1, H2, H3.
Qed.

Lemma quiet_sent fs : quiet (ESent <$> fs).
Proof. by induction fs. Qed.

(** The core when the frame [f] is taken from the I/O stream. *)
Definition k_taking m l i o : core :=
  mkCore (config m) true (substreams m) l (next_outbound_stream_id m) None (open_buffer m) i o.

Lemma poll_read_frame_steps m w sid :
  status m = Status_Open → (∀ id, sid = Some id → blocking_stream m ≠ Some id) →
  ∃ p m' es, poll_read_frame m w sid = Ret (p, m') ∧ quiet es ∧
    match p with
    | Ready (Ok f) => ∃ l i o,
        ksteps (core_of m) es (k_taking m l (f :: i) o) ∧ core_of m' = k_taking m l i o ∧ framed_in (io m) = f :: i
    | _ => ksteps (core_of m) es (core_of m')
    end.
Proof.
  intros Ho Hne. destruct (poll_read_frame_spec m w sid Ho Hne) as (p & m' & fs & l & E & Hp & Hc).
  assert (ksteps (core_of m) (ESent <$> fs) (k_flushed (core_of m) fs l)) as Hs
    by (apply ksteps_flushed; [by apply core_open|done]).
  destruct p as [[f|e]|].
  - destruct Hc as (Hb & i & Hi & Hc). exists (Ready (Ok f)), m', (ESent <$> fs). split_and!; [done|apply quiet_sent|].
    exists l, i, (framed_out (io m) ++ fs). unfold k_took, k_flushed, k_taking in *; simpl in *.
    rewrite Ho, Hb, Hi in *. by split_and!.
  - exists (Ready (Err e)), m', ((ESent <$> fs) ++ [EFailed]).
    split_and!; [done|apply quiet_app; [apply quiet_sent|done]|]. rewrite Hc.
    eapply ksteps_app; [done|]. apply ksteps_one, ksteps_failed. by apply core_open.
  - exists Pending, m', (ESent <$> fs). split_and!; [done|apply quiet_sent|by rewrite Hc].
Qed.

Lemma kinv_taking m l f i o es :
  kinv (core_of m) → ksteps (core_of m) es (k_taking m l (f :: i) o) → kinv (k_taking m l i o).
Proof.
  intros Hk Hs. apply (ksteps_kinv _ _ _ Hs) in Hk. apply (kinv_subseteq _ _ Hk); simpl; try apply Hk; try done.
  apply ki_in in Hk. simpl in Hk. by apply Forall_cons in Hk as [_ ?].
Qed.

(** What a turn of the reading loops leads to: with the data [d] for the user,
    and going on only if the connection has not failed and a frame was taken. *)
Definition turned m (d : list (LocalStreamId * Bytes)) (cont : bool) m' : Prop :=
  ∃ es, ksteps (core_of m) es (core_of m') ∧ event_reads es = d ∧ event_writes es = [] ∧ event_opens es = [] ∧
    (cont = true → status m' = Status_Open ∧ length (framed_in (io m')) < length (framed_in (io m))).

Lemma turned_stop m es m' : ksteps (core_of m) es (core_of m') → quiet es → turned m [] false m'.
Proof. intros Hs (Hr & Hw & Ho). by exists es. Qed.

Lemma turned_step m l f i o es e d cont m' :
  ksteps (core_of m) es (k_taking m l (f :: i) o) → quiet es → framed_in (io m) = f :: i →
  kstep (k_taking m l (f :: i) o) e (core_of m') → event_reads [e] = d → event_writes [e] = [] →
  event_opens [e] = [] → (cont = true → ∃ fr, e = EReceived fr) → turned m d cont m'.
Proof.
  intros Hs (Hr & Hw & Hop) Hi He Hd Hwe Hoe Hcont. exists (es ++ [e]). split_and!.
  - eapply ksteps_app; [done|]. by apply ksteps_one.
  - by rewrite event_reads_app, Hr.
  - by rewrite event_writes_app, Hw.
  - by rewrite event_opens_app, Hop.
  - intros Hct. destruct (Hcont Hct) as [fr ->].
    assert (k_open (core_of m') = true ∧ k_in (core_of m') = i) as [Ho' Hi'] by (by inversion He).
    split; [by apply core_open|]. simpl in Hi'. rewrite Hi', Hi. simpl. lia.
Qed.

Lemma next_stream_turn_spec w n m :
  kinv (core_of m) → status m = Status_Open →
  ∃ t, next_stream_turn w (n, m) = Ret t ∧
    match t with Continue (_, m') => turned m [] true m' | Return _ (_, m') => turned m [] false m' end.
Proof.
  intros Hk Ho. unfold next_stream_turn. case_decide.
  { eexists. split; [done|]. by apply (turned_stop _ []); [constructor|]. }
  destruct (poll_read_frame_steps m w None Ho) as (p & m1 & es & -> & Hq & Hp); [done|]. cbn [mbind outcome_bind].
  destruct p as [[f|e]|]; [|by eexists; split; [done|eapply turned_stop]|by eexists; split; [done|eapply turned_stop]].
  destruct Hp as (l & i & o & Hs & Hc & Hi).
  destruct f as [r|r data|r|r].
  - pose proof (on_open_spec _ r _ _ _ _ _ _ _ Hc) as H1. destruct (on_open m1 r) as [[[id|]|e] m2].
    + destruct H1 as (-> & Hc2 & HS & Hsz). eexists. split; [done|]. simpl.
      eapply (turned_step _ _ _ _ _ _ (EReceived (Frame_Open r))); [done|done|done| |done..].
      rewrite Hc2. constructor; [done|done|by left].
    + eexists. split; [done|]. simpl. eapply turned_step; naive_solver.
    + eexists. split; [done|]. simpl. by eapply turned_step.
  - assert (kinv (core_of m1)) as Hk1 by (rewrite Hc; by eapply kinv_taking).
    destruct (buffer_spec _ r data _ _ _ _ _ _ _ Hc Hk1) as (res & m2 & -> & H1). cbn [mbind outcome_bind].
    destruct res as [[]|e]; (eexists; split; [done|]); simpl; eapply turned_step; naive_solver.
  - pose proof (on_close_spec _ r _ _ _ _ _ _ _ Hc) as H1. eexists. split; [done|]. simpl. eapply turned_step; naive_solver.
  - pose proof (on_reset_spec _ r _ _ _ _ _ _ _ Hc) as H1. eexists. split; [done|]. simpl. eapply turned_step; naive_solver.
Qed.

(** A stream whose buffer was seen to be empty stays so while the loop waits for
    data for it. *)
Definition drained m (id : LocalStreamId) : Prop := ∀ st, substreams m !! id = Some st → recv_buf st = [].

Lemma drained_step k f m' id :
  kstep k (EReceived f) (core_of m') → (∀ r d, f = Frame_Data r d → RemoteStreamId_into_local r ≠ id) →
  (∀ st, k_subs k !! id = Some st → recv_buf st = []) → drained m' id.
Proof.
  intros Hstep Hne Hdr st Hst. change (substreams m') with (k_subs (core_of m')) in Hst.
  revert Hst. generalize dependent (core_of m'). clear m'. intros k' Hstep.
  inversion Hstep; subst; simpl in *; try by apply Hdr.
  - rewrite lookup_insert_Some. intros [[_ <-]|[_ Hl]]; [done|by apply Hdr].
  - rewrite lookup_insert_ne by naive_solver. by apply Hdr.
  - rewrite lookup_insert_ne by naive_solver. by apply Hdr.
  - rewrite lookup_alter. case_decide; [|by apply Hdr]. subst. intros (st' & Hl & ->)%fmap_Some.
    rewrite remote_close_buf. by apply Hdr.
  - rewrite lookup_partial_alter. case_decide; [|by apply Hdr]. subst. intros (st' & Hl & [-> _]%remote_reset_buf)%bind_Some.
    by apply Hdr.
Qed.

Lemma read_stream_turn_spec w id n m :
  kinv (core_of m) → status m = Status_Open → drained m id →
  ∃ t, read_stream_turn w id (n, m) = Ret t ∧
    match t with
    | Continue (_, m') => turned m [] true m' ∧ drained m' id
    | Return p (_, m') => turned m (if p is Ready (Ok (Some d)) then [(id, d)] else []) false m'
    end.
Proof.
  intros Hk Ho Hdr. unfold read_stream_turn. case_decide.
  { eexists. split; [done|]. by apply (turned_stop _ []); [constructor|]. }
  destruct (can_read m id) eqn:Hcan; simpl.
  2: { eexists. split; [done|]. by apply (turned_stop _ []); [constructor|]. }
  assert (∃ st, substreams m !! id = Some st ∧ recv_buf_open st = Some []) as (st & Hst & Hst').
  { unfold can_read in Hcan. destruct (substreams m !! id) as [st|] eqn:E; [|done]. pose proof (Hdr _ E) as Hb.
    exists st. split; [done|]. destruct st; simpl in *; by subst. }
  destruct (poll_read_frame_steps m w (Some id) Ho) as (p & m1 & es & -> & Hq & Hp).
  { intros ? [= <-] Hb. apply (ki_block _ Hk id st Hb Hst). by apply recv_buf_open_Some. }
  cbn [mbind outcome_bind].
  destruct p as [[f|e]|]; [|by eexists; split; [done|eapply turned_stop]|by eexists; split; [done|eapply turned_stop]].
  destruct Hp as (l & i & o & Hs & Hc & Hi).
  assert (∀ m', kstep (k_taking m l (f :: i) o) (EReceived f) (core_of m') →
    (∀ r d, f = Frame_Data r d → RemoteStreamId_into_local r ≠ id) → turned m [] true m' ∧ drained m' id) as Hcont.
  { intros m' He Hne. split; [|by eapply drained_step]. eapply turned_step; naive_solver. }
  destruct f as [r|r data|r|r]; simpl.
  - pose proof (on_open_spec _ r _ _ _ _ _ _ _ Hc) as H1. destruct (on_open m1 r) as [[[id'|]|e] m2].
    + destruct H1 as (-> & Hc2 & HS & Hsz). eexists. split; [done|]. simpl. apply Hcont; [|done].
      rewrite core_wake_next. injection Hc2 as ?????????.
      replace (core_of _) with (mkCore (config m) true (<[RemoteStreamId_into_local r := Substream_Open []]> (substreams m)) l
        (next_outbound_stream_id m) None (RemoteStreamId_into_local r :: open_buffer m) i o)
        by (unfold core_of; simpl; congruence).
      constructor; [done|done|by right].
    + eexists. split; [done|]. by apply Hcont.
    + eexists. split; [done|]. simpl. by eapply turned_step.
  - case_decide as Hr.
    { eexists. split; [done|]. eapply (turned_step _ _ _ _ _ _ (EDelivered id data)); [done|done|done| |done..].
      rewrite Hc, <-Hr. unfold k_taking. econstructor; [by rewrite Hr|done]. }
    assert (kinv (core_of m1)) as Hk1 by (rewrite Hc; by eapply kinv_taking).
    destruct (buffer_spec _ r data _ _ _ _ _ _ _ Hc Hk1) as (res & m2 & -> & H1). cbn [mbind outcome_bind].
    destruct res as [[]|e]; (eexists; split; [done|]); simpl; [apply Hcont; naive_solver|by eapply turned_step].
  - pose proof (on_close_spec _ r _ _ _ _ _ _ _ Hc) as H1.
    case_decide; (eexists; split; [done|]); [by eapply turned_step|by apply Hcont].
  - pose proof (on_reset_spec _ r _ _ _ _ _ _ _ Hc) as H1.
    case_decide; (eexists; split; [done|]); [by eapply turned_step|by apply Hcont].
Qed.

(** *** The operations *)

Lemma turned_trans m m1 d cont m2 : turned m [] true m1 → turned m1 d cont m2 → turned m d cont m2.
Proof.
  intros (es1 & Hs1 & Hr1 & Hw1 & Ho1 & Hc1) (es2 & Hs2 & Hr2 & Hw2 & Ho2 & Hc2). exists (es1 ++ es2). split_and!.
  - by eapply ksteps_app.
  - by rewrite event_reads_app, Hr1.
  - by rewrite event_writes_app, Hw1.
  - by rewrite event_opens_app, Ho1.
  - intros Hct. destruct (Hc1 eq_refl), (Hc2 Hct). split; [done|lia].
Qed.

Lemma turned_kinv m d cont m' : turned m d cont m' → kinv (core_of m) → kinv (core_of m').
Proof. intros (es & Hs & _). by eapply ksteps_kinv. Qed.

Lemma poll_next_stream_spec fuel m w :
  kinv (core_of m) → length (framed_in (io m)) < fuel →
  ∃ p m', poll_next_stream fuel m w = Ret (p, m') ∧ turned m [] false m'.
Proof.
  intros Hk Hf. unfold poll_next_stream, guard_open.
  destruct (status m) eqn:Ho; [|eexists _, _; split; [done|]; by apply (turned_stop _ []); [constructor|]..].
  destruct (last (open_buffer m)) as [id|] eqn:El.
  - apply removelast_last in El. eexists _, _. split; [done|]. eapply (turned_stop _ [EAccepted id]); [|done].
    apply ksteps_one. unfold core_of; simpl. rewrite Ho. rewrite El at 1. apply K_accepted.
  - apply last_None in El. rewrite bool_decide_eq_true_2 by done. cbn [mbind outcome_bind assert].
    destruct (loop_total (next_stream_turn w) (λ s, kinv (core_of s.2) ∧ status s.2 = Status_Open)
      (λ s p s', turned s.2 [] false s'.2) (λ s, length (framed_in (io s.2)))) with (fuel := fuel) (s := (0, m))
      as (p & [n' m'] & -> & Ht); [|done|done|].
    + intros [n m0] [Hk0 Ho0]. destruct (next_stream_turn_spec w n m0 Hk0 Ho0) as (t & -> & Ht).
      exists t. split; [done|]. destruct t as [[n' m']|p [n' m']]; [|done]. simpl in *.
      split_and!; [by eapply turned_kinv|..]; [by destruct Ht as (? & ? & ? & ? & ? & []); [done|..]| | ].
      * by destruct Ht as (? & ? & ? & ? & ? & []).
      * intros p [n'' m'']. by apply turned_trans.
    + by eexists _, _.
Qed.

(** An operation that gives the data [rd] to the user and takes [wr] from it. *)
Definition did m (rd wr : list (LocalStreamId * Bytes)) m' : Prop :=
  ∃ es, ksteps (core_of m) es (core_of m') ∧ event_reads es = rd ∧ event_writes es = wr ∧ length (event_opens es) ≤ 1.

Lemma did_turned m d cont m' : turned m d cont m' → did m d [] m'.
Proof. intros (es & ? & ? & ? & Ho & _). exists es. rewrite Ho. split_and!; [done..|simpl; lia]. Qed.

Lemma did_nothing m m' : core_of m' = core_of m → did m [] [] m'.
Proof. intros E. exists []. rewrite E. split_and!; [constructor|done|done|simpl; lia]. Qed.

Lemma did_one m e m' : kstep (core_of m) e (core_of m') → did m (event_reads [e]) (event_writes [e]) m'.
Proof. intros H. exists [e]. split_and!; [by apply ksteps_one|done|done|]. destruct e; simpl; lia. Qed.

Lemma did_failed m m' : status m = Status_Open → core_of m' = k_failed (core_of m) → did m [] [] m'.
Proof. intros Ho E. apply (did_one _ EFailed). rewrite E. by apply ksteps_failed, core_open. Qed.

Lemma did_kinv m rd wr m' : did m rd wr m' → kinv (core_of m) → kinv (core_of m').
Proof. intros (es & Hs & _). by eapply ksteps_kinv. Qed.

Lemma poll_read_stream_spec fuel m w id :
  kinv (core_of m) → length (framed_in (io m)) < fuel →
  ∃ p m', poll_read_stream fuel m w id = Ret (p, m') ∧
    did m (if p is Ready (Ok (Some d)) then [(id, d)] else []) [] m'.
Proof.
  intros Hk Hf. unfold poll_read_stream, guard_open.
  destruct (status m) eqn:Ho; [|eexists _, _; split; [done|]; by apply did_nothing..].
  match goal with |- context [mbind ?g ?x] => set (rl := mbind g x) end.
  assert (drained m id → ∃ p m', rl = Ret (p, m') ∧ did m (if p is Ready (Ok (Some d)) then [(id, d)] else []) [] m') as Hl.
  { intros Hd. destruct (loop_total (read_stream_turn w id)
      (λ s, (kinv (core_of s.2) ∧ status s.2 = Status_Open) ∧ drained s.2 id)
      (λ s p s', turned s.2 (if p is Ready (Ok (Some d)) then [(id, d)] else []) false s'.2)
      (λ s, length (framed_in (io s.2)))) with (fuel := fuel) (s := (0, m))
      as (p & [n' m'] & E & Ht); [|done|done|].
    - intros [n m0] [[Hk0 Ho0] Hd0]. destruct (read_stream_turn_spec w id n m0 Hk0 Ho0 Hd0) as (t & -> & Ht).
      exists t. split; [done|]. destruct t as [[n' m']|p [n' m']]; [|done]. simpl in *. destruct Ht as [Ht Hd'].
      pose proof Ht as (? & ? & ? & ? & ? & [Ho' Hlt]); [done|].
      split_and!; [by eapply turned_kinv|done|done|done|]. intros p [n'' m'']. by apply turned_trans.
    - exists p, m'. unfold rl. rewrite E. split; [done|]. by eapply did_turned. }
  clearbody rl. destruct (substreams m !! id) as [st|] eqn:E; [|apply Hl; by intros st; rewrite E].
  destruct (recv_buf st) as [|d buf] eqn:Eb; [apply Hl; intros st'; rewrite E; by intros [= <-]|].
  eexists _, _. split; [done|]. apply (did_one _ (ERead id d)). case_decide as Hb.
  - pose proof (core_wake_all_read (set_blocking_stream m None)) as Hw. injection Hw as ?????????.
    replace (core_of (set_substreams _ _)) with (mkCore (config m) true (<[id := set_recv_buf st buf]> (substreams m))
      (pending_frames m) (next_outbound_stream_id m) (if decide (blocking_stream m = Some id) then None else blocking_stream m)
      (open_buffer m) (framed_in (io m)) (framed_out (io m))).
    { unfold core_of. rewrite Ho. by eapply K_read. }
    rewrite decide_True by done. unfold core_of; simpl. rewrite Ho in *; simpl in *; congruence.
  - replace (core_of (set_substreams _ _)) with (mkCore (config m) true (<[id := set_recv_buf st buf]> (substreams m))
      (pending_frames m) (next_outbound_stream_id m) (if decide (blocking_stream m = Some id) then None else blocking_stream m)
      (open_buffer m) (framed_in (io m)) (framed_out (io m))).
    { unfold core_of. rewrite Ho. by eapply K_read. }
    rewrite decide_False by done. unfold core_of; simpl. by rewrite Ho.
Qed.

Lemma poll_open_stream_spec m w :
  kinv (core_of m) →
  (poll_open_stream m w = Panic ∧ ¬ (lid_num (next_outbound_stream_id m) + 1 < 2 ^ 64)%N) ∨
  ∃ p m', poll_open_stream m w = Ret (p, m') ∧ did m [] [] m'.
Proof.
  intros Hk. unfold poll_open_stream, guard_open.
  destruct (status m) eqn:Ho; [|right; eexists _, _; split; [done|]; by apply did_nothing..].
  case_decide as Hsz; [right; eexists _, _; split; [done|]; apply did_nothing, core_register_open|].
  pose proof (core_register_write m w) as Hw. set (m0 := NotifierWrite_register m w) in *.
  destruct (framed_ready (io m0)) as [p r] eqn:E. destruct (framed_ready_spec _ _ _ E) as [Hi Hout].
  assert (core_of (set_io m0 r) = core_of m) as Hc by (rewrite <-Hw; unfold core_of; simpl; by rewrite Hi, Hout).
  destruct p as [[[]|e]|];
    [|right; eexists _, _; split; [done|]; apply did_failed; [done|]; by rewrite <-Hc
     |right; eexists _, _; split; [done|]; by apply did_nothing].
  set (m1 := set_io m0 r) in *. clearbody m1. injection Hc as Hcf Hst Hsub Hpend Hnext Hbl Hob Hin Hou.
  unfold Multiplexed_next_outbound_stream_id. rewrite Hnext.
  unfold LocalStreamId_next. destruct (decide _) as [Hn|Hn]; [right|by left].
  cbn [mbind outcome_bind].
  set (n' := mkLocalStreamId _ _). simpl.
  destruct (framed_send (io m1) _) as [res r'] eqn:E'. destruct (framed_send_spec _ _ _ _ E') as [Hi' Ho'].
  assert (LocalStreamId_next (next_outbound_stream_id m) = Ret n') as En
    by (unfold LocalStreamId_next; by rewrite decide_True).
  rewrite Hou in Ho'. rewrite Hin in Hi'. destruct res as [[]|e].
  - eexists _, _. split; [done|]. apply (did_one _ (EOpened (next_outbound_stream_id m))).
    unfold core_of; simpl. rewrite Hi', Ho', Hcf, Hst, Hsub, Hpend, Hbl, Hob, Ho. constructor; [lia|done].
  - eexists _, _. split; [done|]. apply (did_one _ EFailed).
    unfold core_of; simpl. rewrite Hi', Ho', Hcf, Hbl, Ho, app_nil_r. constructor; [by right|done].
Qed.

Lemma drop_stream_spec m id :
  kinv (core_of m) → ∃ m', drop_stream m id = Ret m' ∧ did m [] [] m'.
Proof.
  intros Hk. unfold drop_stream.
  destruct (status m) eqn:Ho; [|eexists; split; [done|]; by apply did_nothing..].
  pose proof (core_wake_read m id) as Hc. set (m1 := (wake_read_stream m id).2) in *. clearbody m1.
  rewrite <-Hc in Hk. assert (substreams m1 = substreams m ∧ config m1 = config m) as [-> Hcf] by (by injection Hc).
  destruct (substreams m !! id) as [st|] eqn:E; [|eexists; split; [done|]; by apply did_nothing].
  assert (1 ≤ max_substreams (config m)) as Hmax.
  { pose proof (ki_size _ Hk) as Hsz. rewrite Hc in Hsz. simpl in Hsz.
    assert (size (substreams m) ≠ 0); [|lia]. intros Hz%map_size_empty_inv. by rewrite Hz in E. }
  simpl. rewrite Hcf. rewrite usize_sub_le by done. cbn [mbind outcome_bind].
  set (m2 := if decide _ then _ else _).
  assert (core_of m2 = mkCore (config m) true (delete id (substreams m)) (pending_frames m) (next_outbound_stream_id m)
    (blocking_stream m) (open_buffer m) (framed_in (io m)) (framed_out (io m))) as Hc2.
  { unfold m2. case_decide; rewrite ?core_wake_open; eapply core_subs; rewrite Hc; unfold core_of; by rewrite Ho. }
  clearbody m2. pose proof (check_max_pending_spec _ _ _ _ _ _ _ _ _ Hc2) as Hm.
  assert (∀ m', core_of m' = mkCore (config m) true (delete id (substreams m)) (drop_frame id st ++ pending_frames m)
    (next_outbound_stream_id m) (blocking_stream m) (open_buffer m) (framed_in (io m)) (framed_out (io m)) →
    length (pending_frames m) + length (drop_frame id st) ≤ pending_limit (config m) → did m [] [] m') as Hd.
  { intros m' Hc' Hle. apply (did_one _ (EDropped id)). rewrite Hc'. unfold core_of. rewrite Ho. by constructor. }
  assert (length (pending_frames m) ≤ pending_limit (config m)) as Hpl.
  { pose proof (ki_pend _ Hk) as Hp. rewrite Hc in Hp. done. }
  assert (∀ m', core_of m' = mkCore (config m) false ∅ [] (next_outbound_stream_id m) (blocking_stream m) []
    (framed_in (io m)) (framed_out (io m)) → did m [] [] m') as Hfail
    by (intros m' Hc'; by apply did_failed).
  destruct st; simpl in *;
    try (eexists; split; [done|]; apply Hd; [done|lia]);
    (destruct (check_max_pending_frames m2) as [[[]|e] m3]; [|eexists; split; [done|]; by apply Hfail]);
    destruct Hm as [-> Hm]; (eexists; split; [done|]); (apply Hd; [|lia]);
    injection Hc2 as ?????????; unfold core_of; simpl; congruence.
Qed.

Lemma poll_write_stream_spec m w id buf :
  let '(p, m') := poll_write_stream m w id buf in
  (if p is Ready (Ok n) then n = length buf `min` split_send_size (config m) else True) ∧
  did m [] (if p is Ready (Ok n) then [(id, take n buf)] else []) m'.
Proof.
  unfold poll_write_stream, guard_open.
  destruct (status m) eqn:Ho; [|split; [done|by apply did_nothing]..].
  destruct (substreams m !! id) as [st|] eqn:E; [|split; [done|by apply did_nothing]].
  destruct (can_write st) eqn:Ew; [|by destruct st; try discriminate; (split; [|apply did_nothing])].
  set (n := length buf `min` _). pose proof (poll_send_frame_spec m w (Frame_Data id (take n buf))) as Hs.
  assert (∀ m', core_of m' = k_sent (core_of m) (Frame_Data id (take n buf)) → did m [] [(id, take n buf)] m') as Hd.
  { intros m' E'. apply (did_one _ (EWrote id (take n buf))). rewrite E'. unfold core_of, k_sent; simpl.
    rewrite Ho. by econstructor. }
  destruct st; try done; destruct (poll_send_frame m w _) as [[[[]|e]|] m']; (split; [done|]);
    first [by apply Hd|by apply did_failed|by apply did_nothing].
Qed.

Lemma did_flushed m (p : Poll (Result unit ErrorKind)) m' fs l :
  status m = Status_Open → pending_frames m = l ++ reverse fs →
  core_of m' = (if p is Ready (Err _) then k_failed else id) (k_flushed (core_of m) fs l) → did m [] [] m'.
Proof.
  intros Ho Hp Hc. assert (ksteps (core_of m) (ESent <$> fs) (k_flushed (core_of m) fs l)) as Hs
    by (apply ksteps_flushed; [by apply core_open|done]). destruct (quiet_sent fs) as (Hr & Hw & Hop).
  assert (core_of m' = k_flushed (core_of m) fs l → did m [] [] m') as Hok
    by (intros E; exists (ESent <$> fs); rewrite E, Hop; split_and!; [done..|simpl; lia]).
  destruct p as [[[]|e]|]; [by apply Hok| |by apply Hok].
  exists ((ESent <$> fs) ++ [EFailed]). rewrite event_reads_app, event_writes_app, event_opens_app, Hr, Hw, Hop, Hc.
  split_and!; [|done|done|simpl; lia].
  eapply ksteps_app; [done|]. apply ksteps_one, ksteps_failed. by apply core_open.
Qed.

Lemma poll_flush_did m w : ∃ p m', Multiplexed_poll_flush m w = Ret (p, m') ∧ did m [] [] m'.
Proof.
  destruct (status m) eqn:Ho.
  - destruct (poll_flush_spec m w Ho) as (p & m' & fs & l & -> & Hp & Hc). eexists _, _. split; [done|].
    by eapply did_flushed.
  - unfold Multiplexed_poll_flush. rewrite Ho. eexists _, _. split; [done|]. by apply did_nothing.
  - unfold Multiplexed_poll_flush. rewrite Ho. eexists _, _. split; [done|]. by apply did_nothing.
Qed.

Lemma poll_close_did m w : did m [] [] (Multiplexed_poll_close m w).2.
Proof.
  unfold Multiplexed_poll_close. destruct (status m) eqn:Ho; [|by apply did_nothing..].
  pose proof (core_register_write m w) as Hw. set (m0 := NotifierWrite_register m w) in *. clearbody m0.
  destruct (framed_close (io m0)) as [p r] eqn:E. destruct (framed_close_spec _ _ _ E) as [Hi Hout].
  assert (core_of (set_io m0 r) = core_of m) as Hc by (rewrite <-Hw; unfold core_of; simpl; by rewrite Hi, Hout).
  destruct p as [[[]|e]|]; [| |by apply did_nothing]; apply did_failed; [done| |done|]; rewrite <-Hc; done.
Qed.

Lemma poll_close_stream_did m w id : did m [] [] (poll_close_stream m w id).2.
Proof.
  unfold poll_close_stream, guard_open. destruct (status m) eqn:Ho; [|by apply did_nothing..].
  destruct (substreams m !! id) as [st|] eqn:E; [|by apply did_nothing].
  set (m1 := set_substreams m (delete id (substreams m))).
  assert (∀ m', core_of m' = core_of m1 →
    core_of (set_substreams m' (<[id := st]> (substreams m'))) = core_of m) as Hback.
  { intros m' Hc. assert (substreams m' = delete id (substreams m)) as -> by (by apply (f_equal k_subs) in Hc).
    rewrite insert_delete_eq, insert_id by done. injection Hc as ?????????. unfold core_of; simpl. congruence. }
  assert (∀ st' m', local_close st = Some st' → core_of m' = k_sent (core_of m1) (Frame_Close id) →
    did m [] [] (set_substreams m' (<[id := st']> (substreams m')))) as Hclose.
  { intros st' m' Hst' Hc. apply (did_one _ (EClosed id)).
    assert (substreams m' = delete id (substreams m)) as -> by (by apply (f_equal k_subs) in Hc).
    rewrite insert_delete_eq. unfold core_of at 1. rewrite Ho. injection Hc as ?????????.
    replace (core_of _) with (mkCore (config m) true (<[id := st']> (substreams m)) (pending_frames m)
      (next_outbound_stream_id m) (blocking_stream m) (open_buffer m) (framed_in (io m)) (framed_out (io m) ++ [Frame_Close id])).
    - by econstructor.
    - unfold core_of; simpl. rewrite Ho in *; simpl in *; congruence. }
  pose proof (poll_send_frame_spec m1 w (Frame_Close id)) as Hs.
  destruct st as [buf|buf|buf|buf|buf]; simpl;
    try (by apply did_nothing, Hback);
    destruct (poll_send_frame m1 w (Frame_Close id)) as [[[[]|e]|] m2];
    first [by apply Hclose|by apply did_failed|by apply did_nothing, Hback].
Qed.
End refinement.

(** ** An I/O stream in memory *)

(** Frames can be sent as long as there is room; a frame that the decoder would
    not yield is an error. *)
Record Pipe : Type := mkPipe {
  pipe_in : list (Frame RemoteStreamId);
  pipe_out : list (Frame LocalStreamId);
  pipe_room : nat;
}.

#[export] Instance inbound_ok_dec f : Decision (inbound_ok f).
Proof. destruct f; simpl; apply _. Defined.

Fixpoint inbound_prefix (l : list (Frame RemoteStreamId)) : list (Frame RemoteStreamId) :=
  match l with
  | [] => []
  | f :: l => if decide (inbound_ok f) then f :: inbound_prefix l else []
  end.

#[export] Instance Pipe_io : FramedIo Pipe := {
  framed_ready r := (match pipe_room r with O => Pending | S _ => Ready (Ok ()) end, r);
  framed_send r f := (Ok (), mkPipe (pipe_in r) (pipe_out r ++ [f]) (pred (pipe_room r)));
  framed_flush r := (Ready (Ok ()), r);
  framed_close r := (Ready (Ok ()), r);
  framed_next r :=
    match pipe_in r with
    | [] => (Pending, r)
    | f :: l =>
        if decide (inbound_ok f) then (Ready (Some (Ok f)), mkPipe l (pipe_out r) (pipe_room r))
        else (Ready (Some (Err InvalidData)), mkPipe [] (pipe_out r) (pipe_room r))
    end;
}.

#[export, refine] Instance Pipe_spec : FramedIoSpec Pipe := {
  framed_in r := inbound_prefix (pipe_in r);
  framed_out := pipe_out;
}.
Proof.
  - by intros r r' p [= _ <-].
  - by intros r r' p [= _ <-].
  - by intros r r' p [= _ <-].
  - by intros r r' f res [= <- <-].
  - intros [[|f l] o n] r' p; simpl; [by intros [= <- <-]|]. case_decide; by intros [= <- <-].
  - intros [l o n]; simpl. induction l as [|f l IH]; simpl; [constructor|]. case_decide; by constructor.
Defined.
