(* ===== verification/MplexStreams.v ===== *)
(** * The streams of the mplex multiplexer

    What one end of a connection has written to, received for and given to the
    reader of a single stream, as an invariant of the steps of [MplexCore]. *)

From S2P Require Import Prelude AsyncIo MplexCodec Mplex MplexCore.

(** ** The frames of one stream *)

Inductive kind : Type :=
| KOpen
| KData (data : Bytes)
| KClose
| KReset.

Definition frame_kind {T} (f : Frame T) : kind :=
  match f with
  | Frame_Open _ => KOpen
  | Frame_Data _ data => KData data
  | Frame_Close _ => KClose
  | Frame_Reset _ => KReset
  end.

(** The frames of the stream [id]. *)
Definition kinds (id : LocalStreamId) (l : list (Frame LocalStreamId)) : list kind :=
  omap (λ f, if decide (Frame_id f = id) then Some (frame_kind f) else None) l.

Definition kinds_data (l : list kind) : list Bytes :=
  omap (λ x, match x with KData d => Some d | _ => None end) l.

Definition final_kind (x : kind) : Prop := match x with KClose | KReset => True | _ => False end.

(** The data of the stream [id]. *)
Definition data_for (id : LocalStreamId) (l : list (LocalStreamId * Bytes)) : list Bytes :=
  omap (λ p, if decide (p.1 = id) then Some p.2 else None) l.

Lemma kinds_app id l1 l2 : kinds id (l1 ++ l2) = kinds id l1 ++ kinds id l2.
Proof. apply omap_app. Qed.
Lemma kinds_data_app l1 l2 : kinds_data (l1 ++ l2) = kinds_data l1 ++ kinds_data l2.
Proof. apply omap_app. Qed.
Lemma data_for_app id l1 l2 : data_for id (l1 ++ l2) = data_for id l1 ++ data_for id l2.
Proof. apply omap_app. Qed.

Lemma kinds_one id f : kinds id [f] = if decide (Frame_id f = id) then [frame_kind f] else [].
Proof. unfold kinds. simpl. by case_decide. Qed.

Lemma kinds_final id l : Forall is_final l → Forall final_kind (kinds id l).
Proof.
  induction 1 as [|f l Hf Hl IH]; [constructor|]. change (f :: l) with ([f] ++ l). rewrite kinds_app, kinds_one.
  case_decide; [|done]. constructor; [by destruct f|done].
Qed.

Lemma final_no_data l : Forall final_kind l → kinds_data l = [].
Proof. induction 1 as [|[] l Hx Hl IH]; done. Qed.

(** A stream starts with [Open], which does not occur again. *)
Definition opened (l : list kind) : Prop :=
  match l with [] => True | x :: l => x = KOpen ∧ KOpen ∉ l end.

Lemma opened_prefix l1 l2 : opened (l1 ++ l2) → opened l1.
Proof. destruct l1; [done|]. intros [-> H]. split; [done|]. rewrite elem_of_app in H. tauto. Qed.

Lemma opened_snoc l x : opened l → (x = KOpen ↔ l = []) → opened (l ++ [x]).
Proof.
  destruct l as [|y l]; simpl.
  - intros _ Hx. split; [by apply Hx|by intros ?%elem_of_nil].
  - intros [-> H] Hx. split; [done|]. rewrite elem_of_app, list_elem_of_singleton. naive_solver.
Qed.

Lemma opened_snoc_inv l x : opened (l ++ [x]) → x = KOpen ↔ l = [].
Proof.
  destruct l as [|y l]; simpl.
  - intros [-> _]. done.
  - intros [-> H]. rewrite elem_of_app, list_elem_of_singleton in H. naive_solver.
Qed.

(** Nothing is sent on a stream after its end. *)
Definition ends (l : list kind) : Prop :=
  ∀ l1 x l2, l = l1 ++ x :: l2 → final_kind x → kinds_data l2 = [].

Lemma ends_snoc l x : ends l → (∀ d, x = KData d → Forall (λ y, ¬ final_kind y) l) → ends (l ++ [x]).
Proof.
  intros Hl Hx l1 y l2 E Hy. destruct (decide (l2 = [])) as [->|Hne]; [done|].
  destruct (exists_last Hne) as (l2' & z & ->). rewrite app_comm_cons, app_assoc in E.
  apply app_inj_tail in E as [-> <-]. rewrite kinds_data_app, (Hl _ _ _ eq_refl Hy).
  destruct x as [|d| |]; try done. specialize (Hx d eq_refl). rewrite Forall_app, Forall_cons in Hx. tauto.
Qed.

(** ** The invariant of a stream *)

(** The data that the state of a stream says is still to be read: all that was
    received, except that after a reset some may be missing. *)
Definition received_ok (st : SubstreamState) (d : list Bytes) (pc : list kind) : Prop :=
  match st with
  | Substream_Open buf | Substream_SendClosed buf => d ++ buf = kinds_data pc
  | Substream_RecvClosed buf | Substream_Closed buf => d ++ buf = kinds_data pc ∧ KClose ∈ pc
  | Substream_Reset buf => (d ++ buf) `prefix_of` kinds_data pc
  end.

(** [po], [pp], [pc] are the frames of the stream that were sent, are to be sent
    and were received, [w] and [d] the data that was written and that was read,
    [alive] says that the connection is open, and [used] that the number of a
    stream to be opened locally was used. *)
Record stream_inv (role : Endpoint) (alive : bool) (used : Prop) (st : option SubstreamState)
    (po pp pc : list kind) (w d : list Bytes) : Prop := {
  si_written : w = kinds_data po;
  si_pend : Forall final_kind pp;
  si_dialer : role = Dialer →
    opened po ∧ (st ≠ None ∨ pp ≠ [] → po ≠ []) ∧ (po ≠ [] → used) ∧ (alive = true → used → po ≠ []);
  si_listener : role = Listener → (KOpen ∉ po) ∧ (st ≠ None ∨ po ≠ [] ∨ pp ≠ [] → pc ≠ []);
  si_received : match st with Some st => received_ok st d pc | None => d `prefix_of` kinds_data pc end;
  si_fresh : (match role with Dialer => po | Listener => pc end) = [] → kinds_data pc = [];
  si_writable s : st = Some s → can_write s = true → Forall (λ y, ¬ final_kind y) (po ++ pp);
  si_ends : ends po;
}.

(** What is relied on about the frames that arrive: a stream of the remote starts
    with [Open], there are no frames for a stream that is not yet opened, and
    there is no data after the end of a stream. *)
Definition arrivals_ok (role : Endpoint) (used : Prop) (pa : list kind) : Prop :=
  match role with Listener => opened pa | Dialer => pa ≠ [] → used end ∧ ends pa.

Lemma ends_prefix l1 l2 : ends (l1 ++ l2) → ends l1.
Proof.
  intros H k1 x k2 -> Hx. specialize (H k1 x (k2 ++ l2)). rewrite <-app_assoc in H.
  specialize (H eq_refl Hx). rewrite kinds_data_app in H. by apply app_nil in H as [? _].
Qed.

Lemma arrivals_prefix role used l1 l2 : arrivals_ok role used (l1 ++ l2) → arrivals_ok role used l1.
Proof.
  intros [H1 H2]. split; [|by eapply ends_prefix]. destruct role; [|by eapply opened_prefix].
  intros Hne. apply H1. by destruct l1.
Qed.

Lemma ends_close l x : ends (l ++ [KData x]) → KClose ∉ l.
Proof.
  intros H [l1 [l2 ->]]%list_elem_of_split. specialize (H l1 KClose (l2 ++ [KData x])).
  rewrite <-app_assoc in H. specialize (H eq_refl I). rewrite kinds_data_app in H. by apply app_nil in H as [_ ?].
Qed.

Lemma received_ok_prefix st d pc : received_ok st d pc → (d ++ recv_buf st) `prefix_of` kinds_data pc.
Proof. destruct st; simpl; [intros ->|intros ->|intros [-> _]|intros [-> _]|]; done. Qed.

Section stream_steps.
Context (role : Endpoint) (used : Prop).
Implicit Types (po pp pc : list kind) (w d : list Bytes) (st : option SubstreamState).

(** A pending frame is sent. *)
Lemma si_sent st po pp x pc w d :
  stream_inv role true used st po (pp ++ [x]) pc w d → stream_inv role true used st (po ++ [x]) pp pc w d.
Proof.
  intros [Hw Hp Hd Hl Hr Hf Hwr He]. apply Forall_app in Hp as [Hp Hx]. apply Forall_cons in Hx as [Hx _].
  assert (kinds_data [x] = []) as Hx0 by (by destruct x).
  assert (x ≠ KOpen) as Hxo by (by intros ->).
  split; [by rewrite kinds_data_app, Hx0, app_nil_r|done|..].
  - intros Hrole. destruct (Hd Hrole) as (Ho & Hs & Hu & Ha). assert (po ≠ []) by (apply Hs; right; by destruct pp).
    split_and!; [apply opened_snoc; [done|naive_solver]|by destruct po|tauto|by destruct po].
  - intros Hrole. destruct (Hl Hrole) as (Ho & Hs). split.
    + rewrite elem_of_app, list_elem_of_singleton. naive_solver.
    + intros _. apply Hs. right; right. by destruct pp.
  - done.
  - intros Hn. apply Hf. destruct role; [by destruct po|done].
  - intros s Hs Hc. specialize (Hwr s Hs Hc). by rewrite app_assoc, (Permutation_app_comm (po ++ pp)), app_assoc,
      (Permutation_app_comm [x]) in Hwr.
  - apply ends_snoc; [done|]. intros d' ->. done.
Qed.

(** The stream is opened locally. *)
Lemma si_opened st po pp pc w d (used' : Prop) :
  role = Dialer → ¬ used → used' → stream_inv role true used st po pp pc w d →
  stream_inv role true used' (Some (Substream_Open [])) (po ++ [KOpen]) pp pc w d.
Proof.
  intros -> Hnu Hu' [Hw Hp Hd Hl Hr Hf Hwr He]. destruct (Hd eq_refl) as (Ho & Hs & Hu & Ha).
  assert (po = []) as -> by (destruct po; [done|]; exfalso; by apply Hnu, Hu).
  assert (pp = []) as -> by (destruct pp; [done|]; exfalso; by apply Hs; [right|]).
  assert (st = None) as -> by (destruct st; [|done]; exfalso; by apply Hs; [left|]).
  pose proof (Hf eq_refl) as Hf0. rewrite Hf0 in Hr. apply prefix_nil_inv in Hr as ->.
  split; [done|done|..].
  - intros _. split_and!; [by split; [|intros ?%elem_of_nil]|done..].
  - done.
  - simpl. by rewrite Hf0.
  - done.
  - intros s _ _. apply Forall_cons. split; [by intros ?|constructor].
  - apply (ends_snoc [] KOpen He). done.
Qed.

(** Data is written. *)
Lemma si_wrote s po pp pc w d x :
  can_write s = true → stream_inv role true used (Some s) po pp pc w d →
  stream_inv role true used (Some s) (po ++ [KData x]) pp pc (w ++ [x]) d.
Proof.
  intros Hc [Hw Hp Hd Hl Hr Hf Hwr He]. pose proof (Hwr s eq_refl Hc) as Hwf. pose proof Hwf as [Hwf1 Hwf2]%Forall_app.
  split; [by rewrite kinds_data_app, Hw|done|..].
  - intros Hrole. destruct (Hd Hrole) as (Ho & Hs & Hu & Ha). assert (po ≠ []) by (apply Hs; by left).
    split_and!; [apply opened_snoc; [done|naive_solver]|by destruct po|tauto|by destruct po].
  - intros Hrole. destruct (Hl Hrole) as (Ho & Hs). split.
    + rewrite elem_of_app, list_elem_of_singleton. naive_solver.
    + intros _. apply Hs. by left.
  - done.
  - intros Hn. apply Hf. destruct role; [by destruct po|done].
  - intros s' _ _. rewrite !Forall_app. split_and!; [done|apply Forall_cons; split; [by intros ?|constructor]|done].
  - by apply ends_snoc.
Qed.

(** The stream is closed locally. *)
Lemma si_closed s s' po pp pc w d :
  local_close s = Some s' → stream_inv role true used (Some s) po pp pc w d →
  stream_inv role true used (Some s') (po ++ [KClose]) pp pc w d.
Proof.
  intros Hc [Hw Hp Hd Hl Hr Hf Hwr He].
  split; [by rewrite kinds_data_app, app_nil_r|done|..].
  - intros Hrole. destruct (Hd Hrole) as (Ho & Hs & Hu & Ha). assert (po ≠ []) by (apply Hs; by left).
    split_and!; [apply opened_snoc; [done|naive_solver]|by destruct po|tauto|by destruct po].
  - intros Hrole. destruct (Hl Hrole) as (Ho & Hs). split.
    + rewrite elem_of_app, list_elem_of_singleton. naive_solver.
    + intros _. apply Hs. by left.
  - destruct s; try done; injection Hc as <-; done.
  - intros Hn. apply Hf. destruct role; [by destruct po|done].
  - intros s'' [= <-] Hw''. destruct s; try done; injection Hc as <-; done.
  - by apply ends_snoc.
Qed.

(** The stream is dropped; at most a final frame is to be sent. *)
Lemma si_dropped s po pp pc w d xs :
  Forall final_kind xs → stream_inv role true used (Some s) po pp pc w d →
  stream_inv role true used None po (xs ++ pp) pc w d.
Proof.
  intros Hxs [Hw Hp Hd Hl Hr Hf Hwr He].
  split; [done|by apply Forall_app|..].
  - intros Hrole. destruct (Hd Hrole) as (Ho & Hs & Hu & Ha). assert (po ≠ []) by (apply Hs; by left). done.
  - intros Hrole. destruct (Hl Hrole) as (Ho & Hs). split; [done|]. intros _. apply Hs. by left.
  - etrans; [|by apply (received_ok_prefix s)]. by apply prefix_app_r.
  - done.
  - done.
  - done.
Qed.

(** The receiving side changes; [xs] are frames that were received. *)
Lemma si_receive st st' po pp pp' pc xs w d d' :
  arrivals_ok role used (pc ++ xs) →
  stream_inv role true used st po pp pc w d →
  (st' ≠ None → st ≠ None ∨ role = Listener ∧ pc ++ xs ≠ []) →
  (pp' = pp ∨ pp' = KReset :: pp ∧ (st ≠ None ∨ role = Listener ∧ pc ++ xs ≠ [])) →
  match st' with Some s => received_ok s d' (pc ++ xs) | None => d' `prefix_of` kinds_data (pc ++ xs) end →
  (∀ s', st' = Some s' → can_write s' = true →
     pp' = pp ∧ ((∃ s, st = Some s ∧ can_write s = true) ∨ role = Listener ∧ pc = [])) →
  stream_inv role true used st' po pp' (pc ++ xs) w d'.
Proof.
  intros Harr [Hw Hp Hd Hl Hr Hf Hwr He] Hst Hpp Hrec Hcan.
  split; [done|..].
  - destruct Hpp as [->|[-> _]]; [done|by constructor].
  - intros Hrole. destruct (Hd Hrole) as (Ho & Hs & Hu & Ha). split_and!; [done| |done|done].
    intros [H|H]; apply Hs.
    + destruct (Hst H) as [?|[? _]]; [by left|congruence].
    + destruct Hpp as [->|[-> [?|[? _]]]]; [by right|by left|congruence].
  - intros Hrole. destruct (Hl Hrole) as (Ho & Hs). split; [done|].
    assert ((st ≠ None ∨ po ≠ [] ∨ pp ≠ []) → pc ++ xs ≠ []) as Hs'
      by (intros H; specialize (Hs H); by destruct pc).
    intros [H|[H|H]]; [|apply Hs'; by right; left|].
    + destruct (Hst H) as [?|[_ ?]]; [apply Hs'; by left|done].
    + destruct Hpp as [->|[-> [?|[_ ?]]]]; [apply Hs'; by right; right|apply Hs'; by left|done].
  - done.
  - intros Hn. destruct Harr as [Harr _]. destruct role; [|by rewrite Hn].
    destruct (Hd eq_refl) as (Ho & Hs & Hu & Ha).
    destruct (decide (pc ++ xs = [])) as [->|Hne]; [done|]. exfalso. by apply (Ha eq_refl (Harr Hne)).
  - intros s' -> Hc. destruct (Hcan s' eq_refl Hc) as [-> [(s & -> & Hs)|[Hrole ->]]]; [by eapply Hwr|].
    destruct (Hl Hrole) as (Ho & Hs). assert (po = []) as -> by (destruct po; [done|]; exfalso; by apply Hs; [right; left|]).
    assert (pp = []) as -> by (destruct pp; [done|]; exfalso; by apply Hs; [right; right|]). constructor.
  - done.
Qed.

(** The connection fails, possibly after some more frames were taken. *)
Lemma si_failed st po pp pc xs w d (used' : Prop) :
  arrivals_ok role used (pc ++ xs) → (used → used') →
  stream_inv role true used st po pp pc w d → stream_inv role false used' None po [] (pc ++ xs) w d.
Proof.
  intros Harr Hmono [Hw Hp Hd Hl Hr Hf Hwr He]. split; [done|done|..].
  - intros Hrole. destruct (Hd Hrole) as (Ho & Hs & Hu & Ha). split_and!; [done|naive_solver|tauto|done].
  - intros Hrole. destruct (Hl Hrole) as (Ho & Hs). split; [done|].
    intros [H|[H|H]]; [done| |done]. assert (pc ≠ []) by (apply Hs; by right; left). by destruct pc.
  - rewrite kinds_data_app. etrans; [|by apply prefix_app_r].
    destruct st as [s|]; [|done]. etrans; [|by apply (received_ok_prefix s)]. by apply prefix_app_r.
  - intros Hn. destruct Harr as [Harr _]. destruct role; [|by rewrite Hn].
    destruct (Hd eq_refl) as (Ho & Hs & Hu & Ha).
    destruct (decide (pc ++ xs = [])) as [->|Hne]; [done|]. exfalso. by apply (Ha eq_refl (Harr Hne)).
  - done.
  - done.
Qed.
End stream_steps.

(** ** Steps keep the invariants of all streams *)

Definition Frame_local (f : Frame RemoteStreamId) : Frame LocalStreamId := RemoteStreamId_into_local <$> f.

(** [C] are the frames received so far, [W] and [D] the data written and read. *)
Definition stream_ok (k : core) (C : list (Frame LocalStreamId)) (W D : list (LocalStreamId * Bytes))
    (id : LocalStreamId) : Prop :=
  stream_inv (lid_role id) (k_open k) (lid_num id < lid_num (k_next k))%N (k_subs k !! id)
    (kinds id (k_out k)) (kinds id (k_pend k)) (kinds id C) (data_for id W) (data_for id D).

Definition arrivals (k : core) (C : list (Frame LocalStreamId)) (id : LocalStreamId) : Prop :=
  arrivals_ok (lid_role id) (lid_num id < lid_num (k_next k))%N (kinds id (C ++ (Frame_local <$> k_in k))).

Lemma stream_inv_used role alive (used used' : Prop) st po pp pc w d :
  (role = Dialer → used ↔ used') →
  stream_inv role alive used st po pp pc w d → stream_inv role alive used' st po pp pc w d.
Proof. intros Hu []. split; naive_solver. Qed.

Lemma Frame_id_local f : Frame_id (Frame_local f) = RemoteStreamId_into_local (Frame_id f).
Proof. by destruct f. Qed.
Lemma frame_kind_local f : frame_kind (Frame_local f) = frame_kind f.
Proof. by destruct f. Qed.

Lemma kinds_local_cons id f i :
  kinds id (Frame_local <$> f :: i) =
  (if decide (RemoteStreamId_into_local (Frame_id f) = id) then [frame_kind f] else []) ++ kinds id (Frame_local <$> i).
Proof.
  change (Frame_local <$> f :: i) with ([Frame_local f] ++ (Frame_local <$> i)).
  by rewrite kinds_app, kinds_one, Frame_id_local, frame_kind_local.
Qed.

Lemma data_for_one id i x : data_for id [(i, x)] = if decide (i = id) then [x] else [].
Proof. unfold data_for. simpl. by case_decide. Qed.

(** A received frame of another stream does not matter. *)
Lemma stream_ok_other k k' C W D f id :
  stream_ok k C W D id → k_open k' = k_open k → k_next k' = k_next k → k_subs k' !! id = k_subs k !! id →
  k_out k' = k_out k → kinds id (k_pend k') = kinds id (k_pend k) →
  RemoteStreamId_into_local (Frame_id f) ≠ id → stream_ok k' (C ++ [Frame_local f]) W D id.
Proof.
  intros Hs Ho Hn Hsub Hout Hp Hne. unfold stream_ok in *.
  rewrite Ho, Hn, Hsub, Hout, Hp, kinds_app, kinds_one, Frame_id_local, decide_False, app_nil_r by done. done.
Qed.

Lemma can_write_set s buf : can_write (set_recv_buf s buf) = can_write s.
Proof. by destruct s. Qed.

Lemma received_ok_read s d x buf pc :
  recv_buf s = x :: buf → received_ok s d pc → received_ok (set_recv_buf s buf) (d ++ [x]) pc.
Proof. destruct s; simpl; intros ->; by rewrite <-app_assoc. Qed.

Lemma received_ok_data s d x buf pc :
  recv_buf_open s = Some buf → received_ok s d pc →
  received_ok (set_recv_buf s (buf ++ [x])) d (pc ++ [KData x]) ∧
  received_ok (Substream_Reset (buf ++ [x])) d (pc ++ [KData x]) ∧
  (buf = [] → received_ok s (d ++ [x]) (pc ++ [KData x])).
Proof.
  destruct s; simpl; intros [= ->]; rewrite kinds_data_app, app_assoc; intros <-;
    (split_and!; [done|done|]); intros ->; by rewrite !app_nil_r.
Qed.

Arguments Frame_local : simpl never.
Arguments kinds : simpl never.
Arguments data_for : simpl never.

Ltac stream_norm Hs :=
  unfold stream_ok in Hs |- *; simpl in Hs |- *;
  repeat rewrite ?kinds_app, ?kinds_one, ?data_for_app, ?data_for_one, ?app_nil_r in Hs;
  repeat rewrite ?kinds_app, ?kinds_one, ?data_for_app, ?data_for_one, ?app_nil_r;
  simpl in Hs |- *.

Lemma kinds_snoc_local id C f :
  RemoteStreamId_into_local (Frame_id f) = id → kinds id (C ++ [Frame_local f]) = kinds id C ++ [frame_kind f].
Proof. intros H. by rewrite kinds_app, kinds_one, Frame_id_local, frame_kind_local, decide_True. Qed.

(** Frames of other streams. *)
Lemma kstep_received_other k f k' C W D id :
  kstep k (EReceived f) k' → RemoteStreamId_into_local (Frame_id f) ≠ id →
  stream_ok k C W D id → stream_ok k' (C ++ [Frame_local f]) W D id.
Proof.
  intros Hstep Hid Hs. inversion Hstep; subst; simpl in Hid; eapply (stream_ok_other _ _ _ _ _ _ id Hs); simpl; try done;
    rewrite ?lookup_insert_ne, ?lookup_alter_ne, ?lookup_partial_alter_ne by done; try done;
    change (?f :: l) with ([f] ++ l); by rewrite kinds_app, kinds_one, decide_False.
Qed.

(** Frames of the stream. *)
Lemma kstep_received_ok k f k' C W D id :
  kinv k → kstep k (EReceived f) k' → RemoteStreamId_into_local (Frame_id f) = id →
  arrivals_ok (lid_role id) (lid_num id < lid_num (k_next k))%N (kinds id (C ++ [Frame_local f])) →
  stream_ok k C W D id → stream_ok k' (C ++ [Frame_local f]) W D id.
Proof.
  intros Hk Hstep Hid Harr Hs. unfold stream_ok in *. rewrite kinds_snoc_local in Harr |- * by done.
  assert (kinds id C ++ [frame_kind f] ≠ []) as Hne by (by destruct (kinds id C)).
  assert (∀ l, kinds id (Frame_Reset id :: l) = KReset :: kinds id l) as Hreset
    by (intros l; change (Frame_Reset id :: l) with ([Frame_Reset id] ++ l); by rewrite kinds_app, kinds_one, decide_True).
  pose proof (si_received _ _ _ _ _ _ _ _ _ Hs) as Hrec. inversion Hstep as [| | | | | | |????????? Hst|???????? Hst|????????? Hst|???????????? Hst Hbuf|??????????? Hst Hbuf| | | |]; subst; simpl in *.
  - (* open *)
    pose proof (ki_in _ Hk) as [Hok _]%Forall_cons. 
    assert (Endpoint_not (rid_role r) = Listener) as Hrole by (simpl in Hok; by rewrite Hok).
    pose proof Harr as [Ho _]. rewrite Hrole in Ho. apply opened_snoc_inv in Ho. 
    assert (kinds (RemoteStreamId_into_local r) C = []) as Hnil by (by apply Ho).
    rewrite lookup_insert_eq. rewrite Hst in Hs, Hrec. eapply si_receive; [done|done|by right|by left| |].
    + rewrite Hnil in Hrec |- *. apply prefix_nil_inv in Hrec as ->. done.
    + intros s' _ _. split; [done|]. by right.
  - (* rejected *)
    pose proof (ki_in _ Hk) as [Hok _]%Forall_cons. 
    assert (Endpoint_not (rid_role r) = Listener) as Hrole by (simpl in Hok; by rewrite Hok).
    rewrite Hreset. rewrite Hst in Hs, Hrec |- *. eapply si_receive; [done|done|done|by right; split; [|right]| |done].
    rewrite kinds_data_app, app_nil_r. done.
  - (* ignored *)
    eapply si_receive; [done|done|by left|by left| |].
    + destruct (S !! _) as [s|]; [|rewrite kinds_data_app; by apply prefix_app_r].
      simpl in Hst. assert (KClose ∉ kinds (RemoteStreamId_into_local r) C) as Hncl by (eapply ends_close, Harr).
      destruct s; simpl in *; try done; try (by destruct Hrec).
      rewrite kinds_data_app. by apply prefix_app_r.
    + intros s' -> Hc. split; [done|]. left. by exists s'.
  - (* data *)
    rewrite lookup_insert_eq. rewrite Hst in Hs, Hrec. eapply si_receive; [done|done|by left|by left| |].
    + by eapply received_ok_data.
    + intros s' [= <-] Hc. split; [done|]. left. exists st. by rewrite can_write_set in Hc.
  - (* overflow *)
    rewrite lookup_insert_eq, Hreset. rewrite Hst in Hs, Hrec.
    eapply si_receive; [done|done|by left|by right; split; [|left]| |by intros s' [= <-]].
    by eapply received_ok_data.
  - (* close *)
    rewrite lookup_alter_eq. eapply si_receive; [done|done| |by left| |].
    + destruct (S !! _); [by left|done].
    + destruct (S !! _) as [s|]; simpl; [|by rewrite kinds_data_app, app_nil_r].
      assert (KClose ∈ kinds (RemoteStreamId_into_local r) C ++ [KClose]) by (apply elem_of_app; right; by left).
      destruct s; simpl in *; rewrite kinds_data_app, ?app_nil_r; naive_solver.
    + intros s' Hs' Hc. split; [done|]. left. destruct (S !! _) as [s|]; [|done]. injection Hs' as <-.
      exists s. split; [done|]. by destruct s.
  - (* reset *)
    rewrite lookup_partial_alter_eq. eapply si_receive; [done|done| |by left| |].
    + destruct (S !! _); [by left|done].
    + destruct (S !! _) as [s|]; simpl; [|by rewrite kinds_data_app, app_nil_r].
      pose proof (received_ok_prefix _ _ _ Hrec) as Hpre.
      destruct s; simpl in *; rewrite ?kinds_data_app, ?app_nil_r; try done; (etrans; [|done]; by apply prefix_app_r).
    + intros s' Hs' Hc. destruct (S !! _) as [s|]; [|done]. simpl in Hs'. destruct s; simplify_eq/=.
Qed.

Lemma kstep_delivered_ok k i x k' C W D id f :
  kstep k (EDelivered i x) k' → k_in k = f :: k_in k' →
  arrivals_ok (lid_role id) (lid_num id < lid_num (k_next k))%N (kinds id (C ++ [Frame_local f])) →
  stream_ok k C W D id → stream_ok k' (C ++ [Frame_local f]) W (D ++ [(i, x)]) id.
Proof.
  intros Hstep Hf Harr Hs. inversion Hstep as [| | | | | |?????????? Hst| | | | | | | | |]; subst; simpl in Hf. injection Hf as <-.
  assert (stream_ok (mkCore c true S l n None q i0 o) C W D id) as Hs' by exact Hs.
  unfold stream_ok in *; simpl in *. rewrite data_for_app, data_for_one.
  destruct (decide (RemoteStreamId_into_local r = id)) as [Hid|Hid].
  - rewrite kinds_snoc_local in Harr |- * by done. subst id. rewrite Hst in *. simpl in *.
    eapply si_receive; [done|done|by left|by left| |].
    + eapply received_ok_data; [done| |done]. apply (si_received _ _ _ _ _ _ _ _ _ Hs).
    + intros s' [= <-] Hc. split; [done|]. left. by eexists.
  - rewrite app_nil_r, kinds_app, kinds_one, Frame_id_local. simpl. by rewrite decide_False, app_nil_r.
Qed.

Lemma arrivals_cons k C id f i :
  k_in k = f :: i → arrivals k C id →
  arrivals_ok (lid_role id) (lid_num id < lid_num (k_next k))%N (kinds id (C ++ [Frame_local f])).
Proof.
  unfold arrivals. intros ->. change (Frame_local <$> f :: i) with ([Frame_local f] ++ (Frame_local <$> i)).
  rewrite app_assoc, (kinds_app _ (C ++ _)). apply arrivals_prefix.
Qed.

Lemma kstep_stream_ok k e k' C W D id :
  kinv k → kstep k e k' → arrivals k C id → stream_ok k C W D id →
  ∃ xs, k_in k = xs ++ k_in k' ∧
    stream_ok k' (C ++ (Frame_local <$> xs)) (W ++ event_writes [e]) (D ++ event_reads [e]) id.
Proof.
  intros Hk Hstep Harr Hs. destruct e as [f|i|i x|i|i|i x|f|i x|i|].
  7: { assert (k_in k = f :: k_in k') as Hf by (by inversion Hstep). exists [f]. split; [done|].
       simpl. rewrite !app_nil_r. destruct (decide (RemoteStreamId_into_local (Frame_id f) = id)).
       - eapply kstep_received_ok; [done|done|done|by eapply arrivals_cons|done].
       - by eapply kstep_received_other. }
  7: { assert (∃ f, k_in k = f :: k_in k') as [f Hf] by (inversion Hstep; subst; by eexists). exists [f]. split; [done|].
       rewrite app_nil_r. eapply kstep_delivered_ok; [done|done|by eapply arrivals_cons|done]. }
  all: inversion Hstep; subst.
  - (* sent *)
    exists []. split; [done|]. stream_norm Hs. case_decide; [by apply si_sent|by rewrite !app_nil_r in *].
  - (* opened *)
    exists []. split; [done|]. stream_norm Hs. 
    match goal with H : LocalStreamId_next _ = _ |- _ => destruct (LocalStreamId_next_Ret _ _ H) as [Hrole Hnum] end.
    case_decide as Hid.
    + subst id. rewrite lookup_insert_eq. eapply si_opened; [apply (ki_next _ Hk)| | |done]; simpl; lia.
    + rewrite lookup_insert_ne by done. rewrite app_nil_r. eapply stream_inv_used; [|done].
      intros Hr. rewrite Hnum. split; [lia|]. intros Hlt. destruct (decide (lid_num id = lid_num i)) as [E|]; [|lia].
      destruct Hid. pose proof (ki_next _ Hk) as Hn. simpl in Hn. destruct id, i; simpl in *; congruence.
  - (* wrote *)
    exists []. split; [done|]. stream_norm Hs.
    case_decide as Hid; [subst id|by rewrite !app_nil_r].
    match goal with H : S !! _ = _ |- _ => rewrite H in * end. by apply si_wrote.
  - (* closed *)
    exists []. split; [done|]. stream_norm Hs. case_decide as Hid.
    + subst id. rewrite lookup_insert_eq. match goal with H : S !! _ = _ |- _ => rewrite H in Hs end. by eapply si_closed.
    + rewrite lookup_insert_ne by done. by rewrite app_nil_r.
  - (* dropped *)
    exists []. split; [done|]. stream_norm Hs.
    assert (Forall is_final (drop_frame i st)) as Hfin by (by destruct st; repeat constructor).
    destruct (decide (i = id)) as [->|Hid].
    + rewrite lookup_delete_eq. match goal with H : S !! _ = _ |- _ => rewrite H in Hs end.
      eapply si_dropped; [by apply kinds_final|done].
    + rewrite lookup_delete_ne by done. assert (kinds id (drop_frame i st) = []) as ->; [|done].
      destruct st; simpl; try done; rewrite kinds_one; by rewrite decide_False.
  - (* read *)
    exists []. split; [done|]. stream_norm Hs. 
    destruct (decide (i = id)) as [->|Hid]; [|rewrite lookup_insert_ne by done; by rewrite app_nil_r].
    rewrite lookup_insert_eq. match goal with H : S !! _ = _ |- _ => rewrite H in Hs end. rewrite <-(app_nil_r (kinds id C)).
    unfold arrivals in Harr. rewrite kinds_app in Harr. apply arrivals_prefix in Harr.
    eapply si_receive; [by rewrite app_nil_r|done|by left|by left| |].
    + rewrite app_nil_r. apply received_ok_read; [done|]. apply (si_received _ _ _ _ _ _ _ _ _ Hs).
    + intros s' [= <-] Hc. split; [done|]. left. exists st. by rewrite can_write_set in Hc.
  - (* accepted *) exists []. split; [done|]. by stream_norm Hs.
  - (* failed *)
    match goal with H : _ `suffix_of` _ |- _ => destruct H as [xs ->] end. exists xs. split; [done|]. stream_norm Hs.
    rewrite lookup_empty. unfold arrivals in Harr. simpl in Harr. rewrite fmap_app, app_assoc, kinds_app in Harr. apply arrivals_prefix in Harr.
    rewrite kinds_app in Harr. eapply si_failed; [done| |done].
    match goal with H : _ ∨ _ |- _ => destruct H as [->|[_ ->]%LocalStreamId_next_Ret] end; [done|lia].
Qed.

Lemma kstep_next_le k e k' : kstep k e k' → (lid_num (k_next k) ≤ lid_num (k_next k'))%N.
Proof.
  destruct 1; simpl; try lia.
  - match goal with H : LocalStreamId_next _ = _ |- _ => apply LocalStreamId_next_Ret in H; lia end.
  - match goal with H : _ ∨ _ |- _ => destruct H as [->|[_ ->]%LocalStreamId_next_Ret]; lia end.
Qed.

Lemma arrivals_step k C id k' xs :
  (lid_num (k_next k) ≤ lid_num (k_next k'))%N → k_in k = xs ++ k_in k' →
  arrivals k C id → arrivals k' (C ++ (Frame_local <$> xs)) id.
Proof.
  intros Hn Hin. unfold arrivals. rewrite Hin, fmap_app, app_assoc. intros [Ha He]. split; [|done].
  destruct (lid_role id); [|done]. intros Hne. specialize (Ha Hne). lia.
Qed.

(** A sequence of steps keeps the invariants of all streams. *)
Lemma ksteps_streams_ok k es k' C W D :
  ksteps k es k' → kinv k → (∀ id, arrivals k C id) → (∀ id, stream_ok k C W D id) →
  ∃ xs, k_in k = xs ++ k_in k' ∧
    ∀ id, stream_ok k' (C ++ (Frame_local <$> xs)) (W ++ event_writes es) (D ++ event_reads es) id.
Proof.
  intros Hsteps. revert C W D. induction Hsteps as [k|k1 e k2 es k3 Hstep Hsteps IH]; intros C W D Hk Harr Hs.
  - exists []. split; [done|]. intros id. by rewrite !app_nil_r.
  - assert (∃ xs, k_in k1 = xs ++ k_in k2) as [xs Hxs].
    { destruct (kstep_stream_ok _ _ _ _ _ _ inhabitant Hk Hstep (Harr _) (Hs _)) as (xs & ? & _). by exists xs. }
    destruct (IH (C ++ (Frame_local <$> xs)) (W ++ event_writes [e]) (D ++ event_reads [e])) as (ys & Hys & Hs').
    + by eapply kstep_kinv.
    + intros id. eapply arrivals_step; [by eapply kstep_next_le|done|done].
    + intros id. destruct (kstep_stream_ok _ _ _ _ _ _ id Hk Hstep (Harr id) (Hs id)) as (xs' & Hxs' & Hs').
      rewrite Hxs in Hxs'. by apply app_inv_tail in Hxs' as ->.
    + exists (xs ++ ys). split; [by rewrite Hxs, Hys, app_assoc|]. intros id. specialize (Hs' id).
      change (e :: es) with ([e] ++ es). rewrite event_writes_app, event_reads_app, fmap_app. by rewrite !app_assoc in *.
Qed.
