(* ===== verification/MplexSystem.v ===== *)
(** * Two mplex multiplexers and a connection

    The operations of a multiplexer in any order, against any remote, are safe
    and keep its limits; and in a system of two multiplexers, what is read from
    a stream on one side is what was written to it on the other side. *)

From S2P Require Import Prelude AsyncIo MplexCodec Mplex MplexCore MplexStreams.

(** ** Operations *)

Inductive mux_op : Type :=
| OpNextStream
| OpOpenStream
| OpDrop (id : LocalStreamId)
| OpWrite (id : LocalStreamId) (buf : list byte)
| OpRead (id : LocalStreamId)
| OpFlushStream (id : LocalStreamId)
| OpCloseStream (id : LocalStreamId)
| OpFlush
| OpClose.

Inductive mux_res : Type :=
| ResStream (p : Poll (Result LocalStreamId ErrorKind))
| ResDropped
| ResWrite (p : Poll (Result nat ErrorKind))
| ResRead (p : Poll (Result (option Bytes) ErrorKind))
| ResUnit (p : Poll (Result unit ErrorKind)).

(** The data that a call has returned or accepted. *)
Definition res_reads (op : mux_op) (res : mux_res) : list (LocalStreamId * Bytes) :=
  match op, res with
  | OpRead id, ResRead (Ready (Ok (Some d))) => [(id, d)]
  | _, _ => []
  end.
Definition res_writes (op : mux_op) (res : mux_res) : list (LocalStreamId * Bytes) :=
  match op, res with
  | OpWrite id buf, ResWrite (Ready (Ok n)) => [(id, take n buf)]
  | _, _ => []
  end.

Section operations.
Context {R : Type} `{!FramedIo R, !FramedIoSpec R}.
Implicit Types m : Multiplexed R.

(** A call by the task [w].  The loops take one turn for every frame that has
    arrived, and one to return. *)
Definition mux_do (w : Waker) (op : mux_op) m : outcome (mux_res * Multiplexed R) :=
  let fuel := S (length (framed_in (io m))) in
  match op with
  | OpNextStream => '(p, m) ← poll_next_stream fuel m w; Ret (ResStream p, m)
  | OpOpenStream => '(p, m) ← poll_open_stream m w; Ret (ResStream p, m)
  | OpDrop id => m ← drop_stream m id; Ret (ResDropped, m)
  | OpWrite id buf => let '(p, m) := poll_write_stream m w id buf in Ret (ResWrite p, m)
  | OpRead id => '(p, m) ← poll_read_stream fuel m w id; Ret (ResRead p, m)
  | OpFlushStream id => '(p, m) ← poll_flush_stream m w id; Ret (ResUnit p, m)
  | OpCloseStream id => let '(p, m) := poll_close_stream m w id in Ret (ResUnit p, m)
  | OpFlush => '(p, m) ← Multiplexed_poll_flush m w; Ret (ResUnit p, m)
  | OpClose => let '(p, m) := Multiplexed_poll_close m w in Ret (ResUnit p, m)
  end.

Lemma mux_do_spec w op m :
  kinv (core_of m) →
  (mux_do w op m = Panic ∧ ¬ (lid_num (next_outbound_stream_id m) + 1 < 2 ^ 64)%N) ∨
  ∃ res m', mux_do w op m = Ret (res, m') ∧ did m (res_reads op res) (res_writes op res) m'.
Proof.
  intros Hk. assert (length (framed_in (io m)) < S (length (framed_in (io m)))) as Hf by lia.
  destruct op as [| |id|id buf|id|id|id| |]; unfold mux_do.
  - right. destruct (poll_next_stream_spec _ m w Hk Hf) as (p & m' & -> & Hd). eexists _, _. split; [done|].
    by eapply did_turned.
  - destruct (poll_open_stream_spec m w Hk) as [[-> Hn]|(p & m' & -> & Hd)]; [by left|right; by eexists _, _].
  - right. destruct (drop_stream_spec m id Hk) as (m' & -> & Hd). by eexists _, _.
  - right. pose proof (poll_write_stream_spec m w id buf) as Hw. destruct (poll_write_stream m w id buf) as [p m'].
    destruct Hw as [_ Hd]. eexists _, _. split; [done|]. destruct p as [[n|e]|]; done.
  - right. destruct (poll_read_stream_spec _ m w id Hk Hf) as (p & m' & -> & Hd). eexists _, _. split; [done|].
    destruct p as [[[d|]|e]|]; done.
  - right. unfold poll_flush_stream. destruct (guard_open m) as [[]|e].
    + destruct (poll_flush_did m w) as (p & m' & -> & Hd). by eexists _, _.
    + eexists _, _. split; [done|]. by apply did_nothing.
  - right. pose proof (poll_close_stream_did m w id) as Hd. destruct (poll_close_stream m w id) as [p m']. by eexists _, _.
  - right. destruct (poll_flush_did m w) as (p & m' & -> & Hd). by eexists _, _.
  - right. pose proof (poll_close_did m w) as Hd. destruct (Multiplexed_poll_close m w) as [p m']. by eexists _, _.
Qed.

Lemma kinv_new r cfg : kinv (core_of (Multiplexed_new r cfg)).
Proof.
  split; simpl; try done; try lia.
  - rewrite map_size_empty. lia.
  - apply framed_in_open.
Qed.

(** ** One multiplexer *)

(** A sequence of calls; before each of them the I/O stream may have changed in
    any way, for example because frames have arrived. *)
Fixpoint mux_run (ops : list ((R → R) * Waker * mux_op)) m : outcome (Multiplexed R) :=
  match ops with
  | [] => Ret m
  | (env, w, op) :: ops =>
      '(_, m) ← mux_do w op (set_io m (env (io m)));
      mux_run ops m
  end.

Lemma kinv_env m r : kinv (core_of m) → kinv (core_of (set_io m r)).
Proof.
  intros Hk. apply (kinv_subseteq _ _ Hk); simpl; try apply Hk; try done. apply framed_in_open.
Qed.

Lemma ksteps_next k es k' :
  ksteps k es k' → k_open k' = true →
  k_open k = true ∧ lid_num (k_next k') = (lid_num (k_next k) + N.of_nat (length (event_opens es)))%N.
Proof.
  induction 1 as [k|k1 e k2 es k3 Hstep Hs IH]; intros Ho; [simpl; split; [done|lia]|].
  destruct (IH Ho) as [Ho2 Hn]. assert (k_open k1 = true) by (by inversion Hstep). split; [done|].
  change (e :: es) with ([e] ++ es). rewrite event_opens_app, length_app, Hn.
  inversion Hstep; subst; simpl in *; try lia; try done.
  match goal with H : LocalStreamId_next _ = _ |- _ => apply LocalStreamId_next_Ret in H as [_ ->] end. lia.
Qed.

Lemma did_next m rd wr m' :
  did m rd wr m' → status m' = Status_Open →
  status m = Status_Open ∧ (lid_num (next_outbound_stream_id m') ≤ lid_num (next_outbound_stream_id m) + 1)%N.
Proof.
  intros (es & Hs & _ & _ & Hl) Ho%core_open. destruct (ksteps_next _ _ _ Hs Ho) as [Ho' Hn].
  split; [by apply core_open|]. simpl in Hn. lia.
Qed.

Lemma mux_do_closed w op m : status m ≠ Status_Open → is_ret (mux_do w op m).
Proof.
  intros Ho. unfold mux_do, poll_next_stream, poll_open_stream, drop_stream, poll_write_stream, poll_read_stream,
    poll_flush_stream, poll_close_stream, Multiplexed_poll_flush, Multiplexed_poll_close, guard_open.
  destruct (status m); [done|..]; destruct op; by eexists.
Qed.

Lemma did_config m rd wr m' : did m rd wr m' → config m' = config m.
Proof. intros (es & Hs & _). by apply ksteps_config in Hs. Qed.

Lemma mux_run_safe ops m :
  kinv (core_of m) →
  (status m = Status_Open → lid_num (next_outbound_stream_id m) + N.of_nat (length ops) < 2 ^ 64)%N →
  ∃ m', mux_run ops m = Ret m' ∧ kinv (core_of m') ∧ config m' = config m.
Proof.
  revert m. induction ops as [|[[env w] op] ops IH]; intros m Hk Hn; [by exists m|]. cbn [mux_run length] in *.
  set (m0 := set_io m (env (io m))). assert (kinv (core_of m0)) as Hk0 by (by apply kinv_env).
  assert (∃ res m1, mux_do w op m0 = Ret (res, m1) ∧ did m0 (res_reads op res) (res_writes op res) m1)
    as (res & m1 & -> & Hd).
  { destruct (mux_do_spec w op m0 Hk0) as [[Hp Hov]|H]; [|done]. exfalso. destruct (status m) eqn:Ho.
    - apply Hov. simpl. specialize (Hn eq_refl). lia.
    - destruct (mux_do_closed w op m0) as [x Hx]; [simpl; by rewrite Ho|]. congruence.
    - destruct (mux_do_closed w op m0) as [x Hx]; [simpl; by rewrite Ho|]. congruence. }
  cbn [mbind outcome_bind]. destruct (IH m1) as (m' & Hm' & Hk' & Hc').
  - by eapply did_kinv.
  - intros Ho. destruct (did_next _ _ _ _ Hd Ho) as [Ho0 Hle]. simpl in *. specialize (Hn Ho0). lia.
  - exists m'. split_and!; [done..|]. by rewrite Hc', (did_config _ _ _ _ Hd).
Qed.

Lemma mux_run_kinv ops m m' : kinv (core_of m) → mux_run ops m = Ret m' → kinv (core_of m').
Proof.
  revert m. induction ops as [|[[env w] op] ops IH]; intros m Hk; simpl; [by intros [= <-]|].
  destruct (mux_do_spec w op _ (kinv_env _ (env (io m)) Hk)) as [[-> _]|(res & m1 & -> & Hd)]; [done|]. simpl.
  apply IH. eapply did_kinv; [done|by apply kinv_env].
Qed.

(** [C9] A multiplexer is safe against any remote: every sequence of fewer than
    2^64 calls on a new multiplexer, with any frames, errors and delays of the
    I/O stream in between, runs without panicking and without looping, and
    keeps the limits of the configuration: the number of streams, the number of
    frames buffered for each of them (one more than configured is buffered
    before reading is blocked or the stream is reset), and the number of
    pending frames. *)
Theorem Multiplexed_run_safe (r : R) (cfg : MplexConfig) (ops : list ((R → R) * Waker * mux_op)) :
  (N.of_nat (length ops) < 2 ^ 64)%N →
  ∃ m, mux_run ops (Multiplexed_new r cfg) = Ret m ∧
    size (substreams m) ≤ max_substreams cfg ∧
    (∀ id st, substreams m !! id = Some st → length (recv_buf st) ≤ max_buffer_len cfg + 1) ∧
    length (pending_frames m) ≤ max_substreams cfg + EXTRA_PENDING_FRAMES ∧
    (status m ≠ Status_Open → substreams m = ∅ ∧ pending_frames m = [] ∧ open_buffer m = []).
Proof.
  intros Hl. destruct (mux_run_safe ops (Multiplexed_new r cfg)) as (m & Hm & Hk & Hc).
  - apply kinv_new.
  - intros _. simpl. lia.
  - exists m. simpl in Hc. destruct Hk as [Hsz Hp _ Hb _ _ _ _ _ _ Hcl]. simpl in *. rewrite Hc in *.
    split_and!; [done|done| |done|].
    + intros id st Hst. specialize (Hb id st Hst). lia.
    + intros Ho. apply Hcl. by destruct (status m).
Qed.
End operations.

(** ** Two multiplexers *)

(** The identifier of a stream on the other side. *)
Definition LocalStreamId_peer (i : LocalStreamId) : LocalStreamId :=
  mkLocalStreamId (lid_num i) (Endpoint_not (lid_role i)).
Definition Frame_peer (f : Frame LocalStreamId) : Frame LocalStreamId := LocalStreamId_peer <$> f.

Lemma peer_peer i : LocalStreamId_peer (LocalStreamId_peer i) = i.
Proof. by destruct i as [n []]. Qed.

Lemma Frame_local_received f : Frame_local (Frame_received f) = Frame_peer f.
Proof. by destruct f as [[]|[]|[]|[]]. Qed.

Lemma kinds_peer id l : kinds id (Frame_peer <$> l) = kinds (LocalStreamId_peer id) l.
Proof.
  induction l as [|f l IH]; [done|]. change (Frame_peer <$> f :: l) with ([Frame_peer f] ++ (Frame_peer <$> l)).
  change (f :: l) with ([f] ++ l). rewrite !kinds_app, IH, !kinds_one. f_equal.
  assert (Frame_id (Frame_peer f) = LocalStreamId_peer (Frame_id f)) as -> by (by destruct f).
  assert (frame_kind (Frame_peer f) = frame_kind f) as -> by (by destruct f).
  destruct (decide (LocalStreamId_peer (Frame_id f) = id)) as [<-|Hne]; [by rewrite peer_peer, decide_True|].
  rewrite decide_False; [done|]. intros E. apply Hne. by rewrite E, peer_peer.
Qed.

Section system.
Context {R : Type} `{!FramedIo R, !FramedIoSpec R}.

(** The multiplexers of the two sides, and how many of the frames that each side
    has sent have arrived at the other one. *)
Record sys : Type := mkSys {
  mux : bool → Multiplexed R;
  moved : bool → nat;
}.

Definition upd {A} (f : bool → A) (x : bool) (a : A) : bool → A := λ y, if Bool.eqb x y then a else f y.

(** A step is a call on one side, a change of its I/O stream that is not visible
    to it, a wake-up, or the arrival of a frame. *)
Inductive sys_step (s : sys) : list (bool * mux_op * mux_res) → sys → Prop :=
| sys_call x w op res m' :
    mux_do w op (mux s x) = Ret (res, m') →
    sys_step s [(x, op, res)] (mkSys (upd (mux s) x m') (moved s))
| sys_env x r :
    framed_in r = framed_in (io (mux s x)) → framed_out r = framed_out (io (mux s x)) →
    sys_step s [] (mkSys (upd (mux s) x (set_io (mux s x) r)) (moved s))
| sys_wake_read x :
    sys_step s [] (mkSys (upd (mux s) x (NotifierRead_wake_by_ref (mux s x))) (moved s))
| sys_wake_write x :
    sys_step s [] (mkSys (upd (mux s) x (NotifierWrite_wake_by_ref (mux s x))) (moved s))
| sys_arrive x f r :
    framed_out (io (mux s x)) !! moved s x = Some f →
    framed_in r = framed_in (io (mux s (negb x))) ++ [Frame_received f] →
    framed_out r = framed_out (io (mux s (negb x))) →
    sys_step s [] (mkSys (upd (mux s) (negb x) (set_io (mux s (negb x)) r)) (upd (moved s) x (S (moved s x)))).

Inductive sys_run (s : sys) : list (bool * mux_op * mux_res) → sys → Prop :=
| sys_run_nil : sys_run s [] s
| sys_run_snoc tr s1 o s2 : sys_run s tr s1 → sys_step s1 o s2 → sys_run s (tr ++ o) s2.

(** What was read and written on the side [x]. *)
Definition sys_reads (x : bool) (tr : list (bool * mux_op * mux_res)) : list (LocalStreamId * Bytes) :=
  tr ≫= λ '(y, op, res), if Bool.eqb x y then res_reads op res else [].
Definition sys_writes (x : bool) (tr : list (bool * mux_op * mux_res)) : list (LocalStreamId * Bytes) :=
  tr ≫= λ '(y, op, res), if Bool.eqb x y then res_writes op res else [].

(** The frames [C] that the side [x] has taken and those that have arrived and
    were not yet taken are the first frames that the other side has sent. *)
Definition flow (s : sys) (x : bool) (C : list (Frame LocalStreamId)) : Prop :=
  ∃ P T U, framed_out (io (mux s (negb x))) = P ++ T ++ U ∧ length (P ++ T) = moved s (negb x) ∧
    C = Frame_peer <$> P ∧ framed_in (io (mux s x)) = Frame_received <$> T.

Definition side_inv (s : sys) (tr : list (bool * mux_op * mux_res)) (x : bool) (C : list (Frame LocalStreamId)) : Prop :=
  kinv (core_of (mux s x)) ∧
  (∀ id, stream_ok (core_of (mux s x)) C (sys_writes x tr) (sys_reads x tr) id) ∧ flow s x C.

Definition sys_inv (s : sys) (tr : list (bool * mux_op * mux_res)) : Prop :=
  ∃ C, ∀ x, side_inv s tr x (C x).

Lemma flow_local s x C :
  flow s x C → ∃ l, C ++ (Frame_local <$> framed_in (io (mux s x))) = Frame_peer <$> l ∧
    l `prefix_of` framed_out (io (mux s (negb x))).
Proof.
  intros (P & T & U & Ho & _ & -> & Hi). exists (P ++ T). rewrite Hi, Ho, fmap_app. split.
  - f_equal. rewrite <-list_fmap_compose. apply list_fmap_ext. intros _ f _. apply Frame_local_received.
  - exists U. by rewrite app_assoc.
Qed.

Lemma kinds_prefix id l l' : l `prefix_of` l' → ∃ k, kinds id l' = kinds id l ++ k.
Proof. intros [k ->]. exists (kinds id k). apply kinds_app. Qed.

(** What a side relies on is what the other side ensures. *)
Lemma sys_arrivals s tr C x id :
  (∀ x, side_inv s tr x (C x)) → arrivals (core_of (mux s x)) (C x) id.
Proof.
  intros Hinv. destruct (Hinv x) as (Hk & Hs & Hf). destruct (Hinv (negb x)) as (Hk' & Hs' & Hf').
  destruct (flow_local _ _ _ Hf) as (l & Hl & Hpre). unfold arrivals, core_of; simpl. rewrite Hl, kinds_peer.
  destruct (kinds_prefix (LocalStreamId_peer id) _ _ Hpre) as [k Hkd].
  pose proof (Hs' (LocalStreamId_peer id)) as [_ _ Hdial Hlist _ _ _ Hends]. simpl in Hdial, Hlist, Hends.
  rewrite Hkd in *. split; [|by eapply ends_prefix]. destruct (lid_role id) eqn:Hrole; simpl in *.
  - intros Hne. destruct (Hlist eq_refl) as [_ Hc].
    assert (kinds (LocalStreamId_peer id) (C (negb x)) ≠ []) as Hc'.
    { apply Hc. right; left. by destruct (kinds _ l). }
    destruct Hf' as (P & T & U & Ho & _ & HC & _). rewrite negb_involutive in Ho.
    rewrite HC, kinds_peer, peer_peer in Hc'.
    destruct (si_dialer _ _ _ _ _ _ _ _ _ (Hs id) Hrole) as (_ & _ & Hused & _). apply Hused. simpl.
    rewrite Ho, kinds_app. by destruct (kinds id P).
  - destruct (Hdial eq_refl) as (Hopen & _). by eapply opened_prefix.
Qed.

Lemma ksteps_out k es k' : ksteps k es k' → k_out k `prefix_of` k_out k'.
Proof.
  induction 1 as [|k1 e k2 es k3 Hstep Hs IH]; [done|]. etrans; [|done].
  inversion Hstep; subst; simpl; first [done|by apply prefix_app_r].
Qed.

Lemma upd_same {A} (f : bool → A) x a : upd f x a x = a.
Proof. by destruct x. Qed.
Lemma upd_other {A} (f : bool → A) x a : upd f x a (negb x) = f (negb x).
Proof. by destruct x. Qed.
Lemma upd_other' {A} (f : bool → A) x a : upd f (negb x) a x = f x.
Proof. by destruct x. Qed.

(** It is enough to look at the side that takes the step and at the other one. *)
Lemma sys_inv_sides s tr x Cx Cy :
  side_inv s tr x Cx → side_inv s tr (negb x) Cy → sys_inv s tr.
Proof.
  intros Hx Hy. exists (λ y, if Bool.eqb x y then Cx else Cy). intros y.
  destruct (Bool.eqb_spec x y) as [<-|Hne]; [done|]. assert (y = negb x) as -> by (by destruct x, y). done.
Qed.

Lemma sys_reads_app x tr o : sys_reads x (tr ++ o) = sys_reads x tr ++ sys_reads x o.
Proof. apply bind_app. Qed.
Lemma sys_writes_app x tr o : sys_writes x (tr ++ o) = sys_writes x tr ++ sys_writes x o.
Proof. apply bind_app. Qed.

Lemma sys_call_inv s tr x w op res m' :
  sys_inv s tr → mux_do w op (mux s x) = Ret (res, m') →
  sys_inv (mkSys (upd (mux s) x m') (moved s)) (tr ++ [(x, op, res)]).
Proof.
  intros [C Hinv] Hdo. destruct (Hinv x) as (Hk & Hs & Hf). destruct (Hinv (negb x)) as (Hk' & Hs' & Hf').
  destruct (mux_do_spec w op _ Hk) as [[Hp _]|(res' & m'' & Hdo' & Hd)]; [congruence|].
  rewrite Hdo in Hdo'. injection Hdo' as <- <-. pose proof (did_kinv _ _ _ _ Hd Hk) as Hk2.
  destruct Hd as (es & Hsteps & Hr & Hw & _).
  destruct (ksteps_streams_ok _ _ _ (C x) (sys_writes x tr) (sys_reads x tr) Hsteps Hk) as (xs & Hxs & Hs2); [intros; by eapply sys_arrivals|exact Hs|].
  apply (sys_inv_sides _ _ x (C x ++ (Frame_local <$> xs)) (C (negb x))); unfold side_inv, flow; simpl;
    rewrite ?negb_involutive, ?upd_same, ?upd_other, sys_reads_app, sys_writes_app; simpl;
    rewrite ?Bool.eqb_reflx, ?app_nil_r.
  - split_and!; [done| |].
    + intros id. specialize (Hs2 id). by rewrite Hr, Hw in Hs2.
    + destruct Hf as (P & T & U & Ho & Hlen & HC & Hi). simpl in Hxs. rewrite Hi in Hxs.
      apply fmap_app_inv in Hxs as (T1 & T2 & HT1 & HT2 & ->).
      exists (P ++ T1), T2, U. split_and!; [by rewrite Ho, <-!app_assoc|by rewrite <-app_assoc| |done].
      rewrite HC, HT1, fmap_app. f_equal. rewrite <-list_fmap_compose. apply list_fmap_ext. intros _ f _. apply Frame_local_received.
  - assert (Bool.eqb (negb x) x = false) as -> by (by destruct x). rewrite !app_nil_r. split_and!; [done|done|].
    destruct Hf' as (P & T & U & Ho & Hlen & HC & Hi). rewrite negb_involutive in Ho, Hlen.
    apply ksteps_out in Hsteps as [more Hmore]. simpl in Hmore. exists P, T, (U ++ more).
    split_and!; [by rewrite Hmore, Ho, <-!app_assoc|done|done|done].
Qed.

(** Replacing a multiplexer by one with the same core changes nothing. *)
Lemma sys_core_inv s tr x m' :
  sys_inv s tr → core_of m' = core_of (mux s x) → sys_inv (mkSys (upd (mux s) x m') (moved s)) tr.
Proof.
  intros [C Hinv] Hc. destruct (Hinv x) as (Hk & Hs & Hf). destruct (Hinv (negb x)) as (Hk' & Hs' & Hf').
  assert (framed_in (io m') = framed_in (io (mux s x)) ∧ framed_out (io m') = framed_out (io (mux s x))) as [Hi Ho]
    by (by injection Hc).
  apply (sys_inv_sides _ _ x (C x) (C (negb x))); unfold side_inv, flow in *; simpl;
    rewrite ?negb_involutive, ?upd_same, ?upd_other in *; [by rewrite Hc, Hi|by rewrite Ho].
Qed.

Lemma sys_arrive_inv s tr x f r :
  sys_inv s tr → framed_out (io (mux s x)) !! moved s x = Some f →
  framed_in r = framed_in (io (mux s (negb x))) ++ [Frame_received f] →
  framed_out r = framed_out (io (mux s (negb x))) →
  sys_inv (mkSys (upd (mux s) (negb x) (set_io (mux s (negb x)) r)) (upd (moved s) x (S (moved s x)))) tr.
Proof.
  intros [C Hinv] Hf Hin Hout. destruct (Hinv x) as (Hk & Hs & Hf1). destruct (Hinv (negb x)) as (Hk' & Hs' & Hf2).
  apply (sys_inv_sides _ _ x (C x) (C (negb x))); unfold side_inv, flow in *; simpl;
    rewrite ?negb_involutive, ?upd_same, ?upd_other, ?upd_other' in *.
  - split_and!; [done|done|]. simpl. by rewrite Hout.
  - split_and!; [by apply kinv_env| |].
    + intros id. specialize (Hs' id). unfold stream_ok, core_of in *; simpl in *. by rewrite Hout.
    + simpl. destruct Hf2 as (P & T & U & Ho & Hlen & HC & Hi).
      assert (∃ U', U = f :: U') as [U' ->].
      { rewrite Ho, app_assoc, lookup_app_r in Hf by lia. rewrite Hlen, Nat.sub_diag in Hf. destruct U as [|f' U]; [done|].
        injection Hf as ->. by exists U. }
      exists P, (T ++ [f]), U'. split_and!; [by rewrite Ho, <-!app_assoc| |done|by rewrite Hin, Hi, fmap_app].
      rewrite app_assoc, length_app, Hlen. simpl. lia.
Qed.

Lemma mux_sys_step_inv s tr o s' : sys_inv s tr → sys_step s o s' → sys_inv s' (tr ++ o).
Proof.
  intros Hinv Hstep. destruct Hstep as [x w op res m' Hdo|x r Hi Ho|x|x|x f r Hf Hi Ho].
  - by eapply sys_call_inv.
  - rewrite app_nil_r. apply sys_core_inv; [done|]. unfold core_of; simpl. by rewrite Hi, Ho.
  - rewrite app_nil_r. apply sys_core_inv; [done|]. apply core_wake_all_read.
  - rewrite app_nil_r. by apply sys_core_inv.
  - rewrite app_nil_r. by eapply sys_arrive_inv.
Qed.

(** Two new multiplexers on a new connection. *)
Definition sys_new (r : bool → R) (cfg : bool → MplexConfig) : sys :=
  mkSys (λ x, Multiplexed_new (r x) (cfg x)) (λ _, 0).

Lemma sys_new_inv r cfg :
  (∀ x, framed_in (r x) = [] ∧ framed_out (r x) = []) → sys_inv (sys_new r cfg) [].
Proof.
  intros Hr. exists (λ _, []). intros x. destruct (Hr x) as [Hi Ho]. destruct (Hr (negb x)) as [Hi' Ho'].
  split_and!; [apply kinv_new| |].
  - intros id. unfold stream_ok, core_of; simpl. rewrite Ho, lookup_empty.
    split; try done.
    + intros Hd. split_and!; [done|naive_solver|done|intros _ Hlt; simpl in Hlt; lia].
    + intros _. split; [by intros ?%elem_of_nil|naive_solver].
    + by intros [|] ? ?.
  - exists [], [], []. simpl. by rewrite Ho', Hi.
Qed.

Lemma mux_sys_run_inv s tr s' : sys_inv s [] → sys_run s tr s' → sys_inv s' tr.
Proof. intros Hs Hrun. induction Hrun as [|tr s1 o s2 Hrun IH Hstep]; [done|]. by eapply mux_sys_step_inv. Qed.

Context (r : bool → R) (cfg : bool → MplexConfig).
Context (Hr : ∀ x, framed_in (r x) = [] ∧ framed_out (r x) = []).

(** [C1] Streams deliver what was written: in every run of two multiplexers on a
    new connection, whatever the calls, the frames that have arrived, errors and
    limits, the data read from a stream on one side is a prefix of the data
    that was accepted for this stream on the other side: nothing is lost in
    between, reordered, duplicated or mixed up with another stream. *)
Theorem streams_deliver_prefix (tr : list (bool * mux_op * mux_res)) (s : sys) (x : bool) (id : LocalStreamId) :
  sys_run (sys_new r cfg) tr s →
  data_for id (sys_reads x tr) `prefix_of` data_for (LocalStreamId_peer id) (sys_writes (negb x) tr).
Proof.
  intros Hrun. destruct (mux_sys_run_inv _ _ _ (sys_new_inv r cfg Hr) Hrun) as [C Hinv].
  destruct (Hinv x) as (_ & Hs & Hf). destruct (Hinv (negb x)) as (_ & Hs' & _).
  rewrite (si_written _ _ _ _ _ _ _ _ _ (Hs' (LocalStreamId_peer id))). simpl.
  destruct Hf as (P & T & U & -> & _ & HC & _). rewrite kinds_app, kinds_data_app.
  etrans; [|by apply prefix_app_r]. rewrite <-kinds_peer, <-HC.
  pose proof (si_received _ _ _ _ _ _ _ _ _ (Hs id)) as Hrec. simpl in Hrec.
  destruct (substreams (mux s x) !! id) as [st|]; [|done].
  etrans; [|by apply (received_ok_prefix st)]. by apply prefix_app_r.
Qed.

(** [C7] The end of a stream is reliable: if the remote has closed a stream that
    was not reset, and everything buffered for it was read, then all that the
    other side has ever written to the stream was read, and writing to it
    again fails there. *)
Theorem stream_end_complete (tr : list (bool * mux_op * mux_res)) (s : sys) (x : bool) (id : LocalStreamId) :
  sys_run (sys_new r cfg) tr s →
  substreams (mux s x) !! id = Some (Substream_RecvClosed []) ∨ substreams (mux s x) !! id = Some (Substream_Closed []) →
  data_for id (sys_reads x tr) = data_for (LocalStreamId_peer id) (sys_writes (negb x) tr) ∧
  ∀ w buf, ∃ e, poll_write_stream (mux s (negb x)) w (LocalStreamId_peer id) buf = (Ready (Err e), mux s (negb x)).
Proof.
  intros Hrun Hst. destruct (mux_sys_run_inv _ _ _ (sys_new_inv r cfg Hr) Hrun) as [C Hinv].
  destruct (Hinv x) as (_ & Hs & Hf). destruct (Hinv (negb x)) as (_ & Hs' & _).
  pose proof (si_received _ _ _ _ _ _ _ _ _ (Hs id)) as Hrec. simpl in Hrec.
  assert (data_for id (sys_reads x tr) = kinds_data (kinds id (C x)) ∧ KClose ∈ kinds id (C x)) as [Hd Hclose].
  { destruct Hst as [E|E]; rewrite E in Hrec; simpl in Hrec; by rewrite app_nil_r in Hrec. }
  destruct Hf as (P & T & U & Ho & _ & HC & _). rewrite HC, kinds_peer in Hd, Hclose.
  pose proof (Hs' (LocalStreamId_peer id)) as [Hw _ _ _ _ _ Hwr Hends]. simpl in Hw, Hwr, Hends.
  rewrite Ho, kinds_app in Hw, Hwr, Hends. split.
  - rewrite Hd, Hw, kinds_data_app. apply list_elem_of_split in Hclose as (l1 & l2 & Hl). rewrite Hl in Hends.
    specialize (Hends l1 KClose (l2 ++ kinds (LocalStreamId_peer id) (T ++ U))). rewrite <-app_assoc in Hends.
    specialize (Hends eq_refl I). rewrite kinds_data_app in Hends. apply app_nil in Hends as [_ ->]. by rewrite app_nil_r.
  - intros w buf. unfold poll_write_stream. destruct (guard_open _) as [[]|e]; [|by exists e].
    destruct (substreams (mux s (negb x)) !! _) as [st|] eqn:E; [|by eexists].
    destruct (can_write st) eqn:Hc; [|destruct st; try done; by eexists].
    exfalso. specialize (Hwr st eq_refl Hc). rewrite !Forall_app in Hwr. destruct Hwr as [[Hp _] _].
    rewrite Forall_forall in Hp. by apply (Hp KClose Hclose).
Qed.
End system.

(** ** Witnesses *)

Section exec.

(** Schedules for two multiplexers on [Pipe]s: a call, room for sending, or the
    arrival of a frame. *)
Inductive act : Type :=
| ACall (x : bool) (w : Waker) (op : mux_op)
| AArrive (x : bool).

Definition sys_act (a : act) (s : sys (R := Pipe)) : option (list (bool * mux_op * mux_res) * sys (R := Pipe)) :=
  match a with
  | ACall x w op =>
      match mux_do w op (mux s x) with
      | Ret (res, m') => Some ([(x, op, res)], mkSys (upd (mux s) x m') (moved s))
      | Panic => None
      end
  | AArrive x =>
      f ← framed_out (io (mux s x)) !! moved s x;
      let p := io (mux s (negb x)) in
      let r := mkPipe (pipe_in p ++ [Frame_received f]) (pipe_out p) (pipe_room p) in
      if decide (framed_in r = framed_in p ++ [Frame_received f])
      then Some ([], mkSys (upd (mux s) (negb x) (set_io (mux s (negb x)) r)) (upd (moved s) x (S (moved s x))))
      else None
  end.

Fixpoint sys_acts (acts : list act) (s : sys (R := Pipe)) (tr : list (bool * mux_op * mux_res)) :
    option (list (bool * mux_op * mux_res) * sys (R := Pipe)) :=
  match acts with
  | [] => Some (tr, s)
  | a :: acts => '(o, s) ← sys_act a s; sys_acts acts s (tr ++ o)
  end.

Lemma sys_acts_run acts s0 tr s tr' s' :
  sys_run s0 tr s → sys_acts acts s tr = Some (tr', s') → sys_run s0 tr' s'.
Proof.
  revert tr s. induction acts as [|a acts IH]; intros tr s Hrun; simpl; [by intros [= <- <-]|].
  destruct (sys_act a s) as [[o s1]|] eqn:E; simpl; [|done]. apply IH. eapply sys_run_snoc; [done|].
  destruct a as [x w op|x]; simpl in E.
  - destruct (mux_do w op (mux s x)) as [[res m']|] eqn:Em; [|done]. injection E as <- <-. by eapply sys_call.
  - destruct (_ !! _) as [f|] eqn:Ef; [|done]. simpl in E. case_decide as Hd; [|done]. injection E as <- <-.
    by eapply sys_arrive.
Qed.

(** One side opens a stream, writes to it twice and closes it; the other side
    reads everything. *)
Definition demo_cfg : MplexConfig := mkMplexConfig 2 2 Block 10 [].
Definition demo_acts : list act :=
  [ACall true 1 OpOpenStream; ACall true 1 (OpWrite (LocalStreamId_dialer 0) [Byte.x01]);
   ACall true 1 (OpWrite (LocalStreamId_dialer 0) [Byte.x02]); ACall true 1 (OpCloseStream (LocalStreamId_dialer 0));
   AArrive true; AArrive true; ACall false 2 OpNextStream; AArrive true; AArrive true;
   ACall false 2 (OpRead (LocalStreamId_listener 0)); ACall false 2 (OpRead (LocalStreamId_listener 0));
   ACall false 2 (OpRead (LocalStreamId_listener 0))]%N.

Lemma demo_new (x : bool) : framed_in (mkPipe [] [] 10) = [] ∧ framed_out (mkPipe [] [] 10) = [].
Proof. done. Qed.

Definition demo_run := sys_acts demo_acts (sys_new (λ _, mkPipe [] [] 10) (λ _, demo_cfg)) [].

Lemma demo_run_reads :
  (λ '(tr, s), (data_for (LocalStreamId_listener 0) (sys_reads false tr), substreams (mux s false) !! LocalStreamId_listener 0)) <$> demo_run =
  Some ([[Byte.x01]; [Byte.x02]], Some (Substream_RecvClosed [])).
Proof. vm_compute. reflexivity. Qed.

Lemma demo_run_spec :
  ∃ tr s, demo_run = Some (tr, s) ∧ sys_run (sys_new (λ _, mkPipe [] [] 10) (λ _, demo_cfg)) tr s ∧
    data_for (LocalStreamId_listener 0) (sys_reads false tr) = [[Byte.x01]; [Byte.x02]] ∧
    substreams (mux s false) !! LocalStreamId_listener 0 = Some (Substream_RecvClosed []).
Proof.
  pose proof demo_run_reads as H. destruct demo_run as [[tr s]|] eqn:E; [|done]. exists tr, s. injection H as H1 H2.
  split_and!; [done| |done|done]. eapply sys_acts_run; [apply sys_run_nil|exact E].
Qed.

Lemma streams_deliver_prefix_witness :
  ∃ tr s, demo_run = Some (tr, s) ∧
    data_for (LocalStreamId_listener 0) (sys_reads false tr) = [[Byte.x01]; [Byte.x02]] ∧
    data_for (LocalStreamId_listener 0) (sys_reads false tr) `prefix_of`
      data_for (LocalStreamId_dialer 0) (sys_writes true tr).
Proof.
  destruct demo_run_spec as (tr & s & E & Hrun & Hr & _). exists tr, s. split; [done|]. split; [done|].
  apply (streams_deliver_prefix (λ _, mkPipe [] [] 10) (λ _, demo_cfg) demo_new tr s false (LocalStreamId_listener 0) Hrun).
Defined.

Lemma stream_end_complete_witness :
  ∃ tr s, demo_run = Some (tr, s) ∧
    (data_for (LocalStreamId_listener 0) (sys_reads false tr) =
       data_for (LocalStreamId_dialer 0) (sys_writes true tr) ∧
     ∀ w buf, ∃ e, poll_write_stream (mux s true) w (LocalStreamId_dialer 0) buf = (Ready (Err e), mux s true)).
Proof.
  destruct demo_run_spec as (tr & s & E & Hrun & _ & Hst). exists tr, s. split; [done|].
  apply (stream_end_complete (λ _, mkPipe [] [] 10) (λ _, demo_cfg) demo_new tr s false (LocalStreamId_listener 0) Hrun).
  by left.
Defined.

Lemma Multiplexed_run_safe_witness :
  ∃ m, mux_run [(λ _, mkPipe [Frame_Open (RemoteStreamId_dialer 0); Frame_Open (RemoteStreamId_dialer 1);
                  Frame_Open (RemoteStreamId_dialer 2); Frame_Data (RemoteStreamId_dialer 1) [Byte.x01]] [] 0, 1%N, OpNextStream);
                (id, 1%N, OpRead (LocalStreamId_listener 0)); (id, 1%N, OpOpenStream)]
         (Multiplexed_new (mkPipe [] [] 0) demo_cfg) = Ret m ∧
    size (substreams m) ≤ 2 ∧
    (∀ id st, substreams m !! id = Some st → length (recv_buf st) ≤ 3) ∧
    length (pending_frames m) ≤ 2 + EXTRA_PENDING_FRAMES ∧
    (status m ≠ Status_Open → substreams m = ∅ ∧ pending_frames m = [] ∧ open_buffer m = []).
Proof. apply (Multiplexed_run_safe (mkPipe [] [] 0) demo_cfg). vm_compute. reflexivity. Defined.
End exec.
