(* ===== verification/MplexTasks.v ===== *)
(** * Tasks waiting on the mplex multiplexer

    A task whose call is pending will be woken; a stream that is dropped while
    it blocks reading blocks it for ever; and the effects of superfluous
    [Reset] frames.  [Pipe] is an I/O stream to evaluate the operations on. *)

From S2P Require Import Prelude AsyncIo MplexCodec Mplex MplexCore MplexStreams MplexSystem.

(** ** Pending calls *)

Section tasks.
Context {R : Type} `{!FramedIo R}.
Implicit Types m : Multiplexed R.

(** The task [w] has been woken, or will be when the I/O stream can be written, or
    when there is something to read for the stream [id] (or, without [id], for
    [poll_next_stream]). *)
Definition registered m (w : Waker) (id : option LocalStreamId) : Prop :=
  w ∈ woken m ∨ w ∈ notifier_write m ∨
  match id with
  | Some id => read_stream (notifier_read m) !! id = Some w
  | None => next_stream (notifier_read m) = Some w
  end.

Lemma register_write_in m w : w ∈ notifier_write (NotifierWrite_register m w).
Proof.
  unfold NotifierWrite_register. destruct (forallb _ _) eqn:E; simpl.
  - apply elem_of_app. right. by left.
  - destruct (decide (w ∈ notifier_write m)) as [|Hn]; [done|]. exfalso. rewrite <-not_true_iff_false in E. apply E.
    apply forallb_forall. intros w' Hw'%list_elem_of_In. destruct (N.eqb_spec w' w) as [->|]; done.
Qed.

Lemma poll_send_frame_pending m w f m' : poll_send_frame m w f = (Pending, m') → w ∈ notifier_write m'.
Proof.
  unfold poll_send_frame. pose proof (register_write_in m w) as Hin. set (m0 := NotifierWrite_register m w) in *.
  destruct (framed_ready (io m0)) as [[[[]|e]|] r]; simpl; [|done|by intros [= <-]].
  destruct (framed_send r f) as [[[]|e] r']; done.
Qed.

Lemma send_pending_pending fuel m w m' : send_pending_loop fuel m w = Ret (Pending, m') → w ∈ notifier_write m'.
Proof.
  revert m. induction fuel as [|fuel IH]; intros m; simpl; destruct (last _) as [f|]; try done.
  destruct (poll_send_frame _ w f) as [[[[]|e]|] m1] eqn:E; [apply IH|done|].
  intros [= <-]. simpl. by eapply poll_send_frame_pending.
Qed.

Lemma poll_flush_pending m w m' : Multiplexed_poll_flush m w = Ret (Pending, m') → w ∈ notifier_write m'.
Proof.
  unfold Multiplexed_poll_flush. destruct (status m); [|done|done].
  destruct (send_pending_frames m w) as [[[[[]|e]|] m1]|] eqn:E; simpl; [|done| |done].
  - pose proof (register_write_in m1 w) as Hin. destruct (framed_flush _) as [[[[]|e]|] r]; simpl; [done..|].
    by intros [= <-].
  - intros [= <-]. by eapply send_pending_pending.
Qed.

Lemma poll_read_frame_pending m w sid m' : poll_read_frame m w sid = Ret (Pending, m') → registered m' w sid.
Proof.
  unfold poll_read_frame. destruct (send_pending_frames m w) as [[p m1]|]; [|done]. cbn [mbind outcome_bind].
  assert ((∃ e, p = Ready (Err e)) ∨ ∀ e, p ≠ Ready (Err e)) as [[e ->]|Hne]
    by (destruct p as [[[]|e]|]; naive_solver); [done|].
  intros H. assert (('(p, m) ← read_frame_flush m1 w sid;
      match p with
      | Pending => Ret (Pending, m)
      | Ready (Err e) => Ret (Ready (Err e), m)
      | Ready (Ok _) => read_frame_next m w sid
      end) = Ret (Pending, m')) as H' by (destruct p as [[[]|e]|]; naive_solver).
  clear H. destruct (read_frame_flush m1 w sid) as [[[[[]|e]|] m2]|] eqn:Ef; simpl in H'; [|done| |done].
  - clear Ef. unfold read_frame_next in H'. destruct (blocking_stream m2) as [bid|].
    + destruct (wake_read_stream m2 bid) as [[] m3]; simpl in H'.
      * destruct sid as [id|].
        { destruct (bool_decide _); simpl in H'; [|done]. injection H' as <-. right; right. simpl. apply lookup_insert_eq. }
        injection H' as <-. right; right. done.
      * injection H' as <-. left. simpl. set_solver.
    + destruct sid as [id|]; destruct (framed_next _) as [[[[f|e]|]|] r]; simpl in H'; try done;
        injection H' as <-; right; right; simpl; [apply lookup_insert_eq|done].
  - injection H' as <-. right; left. unfold read_frame_flush in Ef. destruct sid as [id|]; [|done].
    case_decide; [|done]. destruct (Multiplexed_poll_flush m1 w) as [[[[[]|e]|] m3]|] eqn:E; simpl in Ef; try done.
    injection Ef as <-. by eapply poll_flush_pending.
Qed.

(** What a loop returns is what its last turn returns. *)
Lemma loop_Return {S A} fuel (body : S → outcome (Turn S A)) s a s' :
  loop fuel body s = Ret (a, s') → ∃ s0, body s0 = Ret (Return a s').
Proof.
  revert s. induction fuel as [|fuel IH]; intros s; simpl; [done|]. destruct (body s) as [[s1|a1 s1]|] eqn:E; simpl; [apply IH| |done].
  intros [= <- <-]. by exists s.
Qed.

(** [C22] No wake-up is lost: if the next inbound stream or data of a stream is
    polled and the call is pending, then the calling task has been woken
    already, or it is registered to be woken when frames can be read for it or
    when pending frames can be written. *)
Theorem poll_pending_registered fuel m (w : Waker) m' :
  (poll_next_stream fuel m w = Ret (Pending, m') → registered m' w None) ∧
  ∀ id, poll_read_stream fuel m w id = Ret (Pending, m') → registered m' w (Some id).
Proof.
  assert (∀ n m0, w ∈ woken (wake (m0 : Multiplexed R) w)) as Hwake by (intros; simpl; set_solver).
  split; [|intros id].
  - unfold poll_next_stream. destruct (guard_open m); [|done]. destruct (last _); [done|].
    destruct (bool_decide _); simpl; [|done]. destruct (loop _ _ _) as [[p [n m1]]|] eqn:E; simpl; [|done]. intros [= -> <-].
    apply loop_Return in E as [[n0 m0] E]. unfold next_stream_turn in E. case_decide; [injection E as _ <-; left; by apply Hwake|].
    destruct (poll_read_frame m0 w None) as [[p m2]|] eqn:Er; simpl in E; [|done].
    destruct p as [[f|e]|]; [|done|injection E as _ <-; by eapply poll_read_frame_pending].
    destruct f as [i|i d|i|i]; [destruct (on_open m2 i) as [[[]|] ?]; done| |done|done].
    destruct (buffer m2 _ d) as [[[]]|]; done.
  - unfold poll_read_stream. destruct (guard_open m); [|done].
    match goal with |- context [mbind ?g ?x] => set (rl := mbind g x) end.
    assert (rl = Ret (Pending, m') → registered m' w (Some id)) as Hrl.
    + subst rl. destruct (loop _ _ _) as [[p [n m1]]|] eqn:E; simpl; [|done]. intros [= -> <-].
      apply loop_Return in E as [[n0 m0] E]. unfold read_stream_turn in E.
      case_decide; [injection E as _ <-; left; by apply Hwake|]. destruct (negb (can_read m0 id)); [done|].
      destruct (poll_read_frame m0 w (Some id)) as [[p m2]|] eqn:Er; simpl in E; [|done].
      destruct p as [[f|e]|]; [|done|injection E as _ <-; by eapply poll_read_frame_pending].
      destruct f as [i|i d|i|i]; [destruct (on_open m2 _) as [[[]|] ?]; done| |by case_decide|by case_decide].
      case_decide; [done|]. destruct (buffer m2 _ d) as [[[]]|]; done.
    + clearbody rl. destruct (substreams m !! id) as [st|]; [|done]. by destruct (recv_buf st).
Qed.
End tasks.

(** ** A stream that is dropped while it blocks reading *)

Section blocked.
Context {R : Type} `{!FramedIo R, !FramedIoSpec R}.
Implicit Types m : Multiplexed R.

(** Reading is blocked by a stream that does not exist. *)
Definition k_stuck (id : LocalStreamId) (k : core) : Prop :=
  k_open k = true → k_block k = Some id ∧ k_subs k !! id = None.

Lemma kstep_stuck id k e k' : kinv k → kstep k e k' → k_stuck id k → k_stuck id k'.
Proof.
  intros Hk Hstep Hs _. assert (k_open k = true) as Ho by (by inversion Hstep). destruct (Hs Ho) as [Hb Hsub].
  pose proof (ki_block_used _ Hk id Hb) as Hu. pose proof (ki_next _ Hk) as Hn. revert Hb Hsub Hu Hn.
  inversion Hstep; subst; simpl; try done; intros -> Hsub Hu Hn.
  - split; [done|]. rewrite lookup_insert_ne; [done|]. intros ->. specialize (Hu Hn). lia.
  - split; [done|]. rewrite lookup_insert_ne; [done|]. naive_solver.
  - split; [done|]. by rewrite lookup_delete_None; right.
  - assert (id0 ≠ id) by naive_solver. split; [|by rewrite lookup_insert_ne]. rewrite decide_False; [done|]. naive_solver.
Qed.

Lemma ksteps_stuck id k es k' : ksteps k es k' → kinv k → k_stuck id k → k_stuck id k'.
Proof. induction 1 as [|k1 e k2 es k3 Hstep Hs IH]; [done|]. intros Hk Hst. apply IH; [by eapply kstep_kinv|by eapply kstep_stuck]. Qed.

Lemma mux_run_stuck id ops m m' :
  kinv (core_of m) → k_stuck id (core_of m) → mux_run ops m = Ret m' → kinv (core_of m') ∧ k_stuck id (core_of m').
Proof.
  revert m. induction ops as [|[[env w] op] ops IH]; intros m Hk Hst; simpl; [by intros [= <-]|].
  set (m0 := set_io m (env (io m))). assert (kinv (core_of m0)) as Hk0 by (by apply kinv_env).
  destruct (mux_do_spec w op m0 Hk0) as [[-> _]|(res & m1 & -> & Hd)]; [done|]. simpl.
  apply IH; [by eapply did_kinv|]. destruct Hd as (es & Hs & _). by eapply ksteps_stuck.
Qed.

(** While reading is blocked no frame is taken from the I/O stream. *)
Lemma poll_read_frame_blocked m w sid :
  status m = Status_Open → blocking_stream m ≠ None → (∀ id, sid = Some id → blocking_stream m ≠ Some id) →
  ∃ p m', poll_read_frame m w sid = Ret (p, m') ∧ ∀ f, p ≠ Ready (Ok f).
Proof.
  intros Ho Hb Hne. destruct (poll_read_frame_spec m w sid Ho Hne) as (p & m' & fs & l & -> & _ & Hc).
  exists p, m'. split; [done|]. intros f ->. by destruct Hc as [Hc _].
Qed.

(** Calls return a buffered inbound stream or buffered data at most. *)
Definition reads_nothing m : Prop :=
  (∀ fuel w, 0 < fuel → open_buffer m = [] →
     ∃ p m', poll_next_stream fuel m w = Ret (p, m') ∧ ∀ i, p ≠ Ready (Ok i)) ∧
  (∀ fuel w i, 0 < fuel → (∀ st, substreams m !! i = Some st → recv_buf st = []) →
     ∃ p m', poll_read_stream fuel m w i = Ret (p, m') ∧ ∀ d, p ≠ Ready (Ok (Some d))).

Lemma drop_stream_removes m id m' :
  drop_stream m id = Ret m' → status m' = Status_Open →
  blocking_stream m' = blocking_stream m ∧ substreams m' !! id = None.
Proof.
  intros Hd Ho. pose proof (core_wake_read m id) as Hc. unfold drop_stream in Hd.
  destruct (status m) eqn:Hst; [|injection Hd as <-; congruence..].
  set (m1 := (wake_read_stream m id).2) in *. clearbody m1.
  assert (blocking_stream m1 = blocking_stream m) as Hb by (by injection Hc).
  destruct (substreams m1 !! id) as [st|] eqn:E; [|by injection Hd as <-].
  destruct (usize_sub _ 1) as [limit|]; [|done]. cbn [mbind outcome_bind] in Hd.
  set (m2 := if decide _ then _ else _) in *.
  assert (blocking_stream m2 = blocking_stream m ∧ substreams m2 !! id = None) as Hm2.
  { subst m2. case_decide; simpl; (split; [done|apply lookup_delete_eq]). }
  clearbody m2. unfold check_max_pending_frames in Hd.
  destruct st; simpl in Hd; try case_decide; by injection Hd as <-.
Qed.

(** If a stream is dropped while its full buffer blocks reading, then no
    frame is ever read from the connection again, whatever is called on the
    multiplexer: as long as the connection is open, neither a new inbound stream
    nor data beyond what is already buffered is returned. *)
Theorem drop_stream_blocks_reading (r : R) (cfg : MplexConfig) ops m id m' ops' m'' :
  mux_run ops (Multiplexed_new r cfg) = Ret m → blocking_stream m = Some id →
  drop_stream m id = Ret m' → mux_run ops' m' = Ret m'' → status m'' = Status_Open →
  blocking_stream m'' = Some id ∧ reads_nothing m''.
Proof.
  intros Hrun Hbl Hdrop Hrun' Ho.
  assert (kinv (core_of m)) as Hk by (eapply mux_run_kinv; [apply kinv_new|done]).
  destruct (drop_stream_spec m id Hk) as (m1 & Hdrop1 & Hd). rewrite Hdrop in Hdrop1. injection Hdrop1 as <-.
  assert (kinv (core_of m') ∧ k_stuck id (core_of m')) as [Hk' Hst].
  { split; [by eapply did_kinv|]. intros Ho'%core_open. destruct (drop_stream_removes _ _ _ Hdrop Ho') as [Hb Hs].
    split; [|done]. simpl. congruence. }
  destruct (mux_run_stuck _ _ _ _ Hk' Hst Hrun') as [Hk'' Hst'']. apply core_open in Ho as Ho'.
  destruct (Hst'' Ho') as [Hb Hs]. simpl in Hb, Hs. split; [done|split].
  - intros [|fuel] w Hf Hob; [lia|]. unfold poll_next_stream, guard_open. rewrite Ho, Hob. simpl. case_decide.
    { simpl. by eexists _, _. }
    destruct (poll_read_frame_blocked m'' w None Ho) as (p & m3 & -> & Hp); [by rewrite Hb|done|]. simpl.
    destruct p as [[f|e]|]; [by destruct (Hp f)|by eexists _, _|by eexists _, _].
  - intros [|fuel] w i Hf Hemp; [lia|]. unfold poll_read_stream, guard_open. rewrite Ho.
    match goal with |- context [mbind ?g ?x] => set (rl := mbind g x) end.
    assert (∃ p m3, rl = Ret (p, m3) ∧ ∀ d, p ≠ Ready (Ok (Some d))) as Hrl.
    + subst rl. simpl. case_decide; [simpl; by eexists _, _|].
      destruct (can_read m'' i) eqn:Hcan; simpl; [|by eexists _, _].
      assert (i ≠ id) as Hne by (intros ->; unfold can_read in Hcan; by rewrite Hs in Hcan).
      destruct (poll_read_frame_blocked m'' w (Some i) Ho) as (p & m3 & -> & Hp); [by rewrite Hb|naive_solver|]. simpl.
      destruct p as [[f|e]|]; [by destruct (Hp f)|by eexists _, _|by eexists _, _].
    + clearbody rl. destruct (substreams m'' !! i) as [st|] eqn:E; [|done]. by rewrite (Hemp st eq_refl).
Qed.
End blocked.

(** The buffer of a stream is full, so that reading is blocked; the stream is
    dropped; and the data of another stream is never read. *)
Definition full_in : list (Frame RemoteStreamId) :=
  let d := RemoteStreamId_dialer in
  [Frame_Open (d 0); Frame_Open (d 1); Frame_Data (d 0) []; Frame_Data (d 0) []; Frame_Data (d 1) [Byte.x01]]%N.
Definition full_ops : list ((Pipe → Pipe) * Waker * mux_op) :=
  [(id, 1, OpNextStream); (id, 1, OpNextStream); (id, 1, OpRead (LocalStreamId_listener 1));
   (id, 1, OpRead (LocalStreamId_listener 1))]%N.
Definition full_run : outcome (Multiplexed Pipe) :=
  mux_run full_ops (Multiplexed_new (mkPipe full_in [] 9) (mkMplexConfig 2 1 Block 10 [])).

Lemma full_run_spec :
  ∃ m m', full_run = Ret m ∧ blocking_stream m = Some (LocalStreamId_listener 0) ∧
    drop_stream m (LocalStreamId_listener 0) = Ret m' ∧ status m' = Status_Open ∧
    (∀ st, substreams m' !! LocalStreamId_listener 1 = Some st → recv_buf st = []).
Proof.
  destruct full_run as [m|] eqn:E; [|by vm_compute in E]. exists m. vm_compute in E. injection E as <-.
  eexists. split; [done|]. split; [done|]. split; [vm_compute; reflexivity|]. split; [done|].
  intros st. vm_compute. by intros [= <-].
Qed.

Lemma drop_stream_blocks_reading_witness :
  ∃ m', blocking_stream (m' : Multiplexed Pipe) = Some (LocalStreamId_listener 0) ∧
    framed_in (io m') = [Frame_Data (RemoteStreamId_dialer 1) [Byte.x01]] ∧
    ∃ p m3, poll_read_stream 5 m' 1%N (LocalStreamId_listener 1) = Ret (p, m3) ∧ ∀ d, p ≠ Ready (Ok (Some d)).
Proof.
  destruct full_run_spec as (m & m' & Hm & Hb & Hd & Ho & Hs). exists m'.
  destruct (drop_stream_blocks_reading (mkPipe full_in [] 9) (mkMplexConfig 2 1 Block 10 []) full_ops m
    (LocalStreamId_listener 0) m' [] m' Hm Hb Hd eq_refl Ho) as (H1 & _ & H3).
  split; [done|]. split; [|apply H3; [lia|done]].
  vm_compute in Hm. injection Hm as <-. vm_compute in Hd. injection Hd as <-. reflexivity.
Defined.

(** ** Superfluous resets *)

Lemma mux_do_read_drained {R} `{!FramedIo R, !FramedIoSpec R} (m : Multiplexed R) w id st :
  status m = Status_Open → substreams m !! id = Some st → recv_buf st = [] →
  mux_do w (OpRead id) m =
  '(p, (_, m')) ← loop (S (length (framed_in (io m)))) (read_stream_turn w id) (0, m); Ret (ResRead p, m').
Proof.
  intros Ho Hst Hb. unfold mux_do, poll_read_stream, guard_open. rewrite Ho, Hst, Hb.
  by destruct (loop _ _ _) as [[p [n m']]|].
Qed.

(** The data of a stream that both sides have closed, and [Reset] frames for it. *)
Definition closed_stream_run (resets : list (Frame RemoteStreamId)) : outcome mux_res :=
  let d := RemoteStreamId_dialer in
  let frames := [Frame_Open (d 0); Frame_Open (d 1); Frame_Data (d 0) [Byte.x01]; Frame_Close (d 0)]%N in
  m ← mux_run [(id, 1, OpNextStream); (id, 1, OpNextStream); (id, 1, OpCloseStream (LocalStreamId_listener 0));
               (id, 1, OpRead (LocalStreamId_listener 1))]%N
        (Multiplexed_new (mkPipe (frames ++ resets) [] 9) (mkMplexConfig 2 4 Block 10 []));
  '(res, _) ← mux_do 1%N (OpRead (LocalStreamId_listener 0)) m;
  Ret res.

(** The stream of the identifier 0 is opened and reset twice, [n] times. *)
Definition reset_frames (n : nat) : list (Frame RemoteStreamId) :=
  mjoin (replicate n [Frame_Open (RemoteStreamId_dialer 0); Frame_Reset (RemoteStreamId_dialer 0);
                      Frame_Reset (RemoteStreamId_dialer 0)]).

Definition reset_run (n : nat) : outcome (Multiplexed Pipe) :=
  mux_run [(id, 1, OpNextStream); (id, 1, OpRead (LocalStreamId_listener 1))]%N
    (Multiplexed_new (mkPipe (Frame_Open (RemoteStreamId_dialer 1) :: reset_frames n) [] 9) (mkMplexConfig 2 4 Block 10 [])).

(** The state while the frames are taken. *)
Definition reset_state (frames : list (Frame RemoteStreamId)) (q : list LocalStreamId)
    (subs : gmap LocalStreamId SubstreamState) (rs : NotifierRead * gset Waker) : nat * Multiplexed Pipe :=
  (0, mkMultiplexed Status_Open (mkPipe frames [] 9) (mkMplexConfig 2 4 Block 10 []) q ∅ None []
    (<[LocalStreamId_listener 1 := Substream_Open []]> subs) (LocalStreamId_dialer 0) rs.1 [] [] rs.2).

Definition reset_initial : NotifierRead * gset Waker := (mkNotifierRead (Some 1%N) ∅, ∅).
Definition reset_waker : NotifierRead * gset Waker :=
  (mkNotifierRead None {[ LocalStreamId_listener 1 := 1%N ]}, {[ 1%N ]}).
Definition reset_body := read_stream_turn (R := Pipe) 1%N (LocalStreamId_listener 1).

Lemma reset_turns l q rs fuel :
  rs = reset_initial ∨ rs = reset_waker →
  loop (3 + fuel) reset_body
    (reset_state (Frame_Open (RemoteStreamId_dialer 0) :: Frame_Reset (RemoteStreamId_dialer 0) ::
                  Frame_Reset (RemoteStreamId_dialer 0) :: l) q ∅ rs) =
  loop fuel reset_body (reset_state l (LocalStreamId_listener 0 :: q) ∅ reset_waker).
Proof.
  intros Hrs. change (3 + fuel) with (1 + (1 + (1 + fuel))).
  rewrite (loop_continue _ _ _ (reset_state (Frame_Reset (RemoteStreamId_dialer 0) :: Frame_Reset (RemoteStreamId_dialer 0) :: l)
    (LocalStreamId_listener 0 :: q) {[ LocalStreamId_listener 0 := Substream_Open [] ]} reset_waker))
    by (destruct Hrs as [->| ->]; vm_compute; reflexivity).
  rewrite (loop_continue _ _ _ (reset_state (Frame_Reset (RemoteStreamId_dialer 0) :: l)
    (LocalStreamId_listener 0 :: q) {[ LocalStreamId_listener 0 := Substream_Reset [] ]} reset_waker))
    by (vm_compute; reflexivity).
  by rewrite (loop_continue _ _ _ (reset_state l (LocalStreamId_listener 0 :: q) ∅ reset_waker)) by (vm_compute; reflexivity).
Qed.

Lemma reset_loop n q rs fuel :
  rs = reset_initial ∨ rs = reset_waker → 3 * n < fuel →
  ∃ m, loop fuel reset_body (reset_state (reset_frames n) q ∅ rs) = Ret (Pending, (0, m)) ∧
    length (open_buffer m) = n + length q ∧ size (substreams m) = 1.
Proof.
  revert q rs fuel. induction n as [|n IH]; intros q rs fuel Hrs Hf.
  - destruct fuel as [|fuel]; [lia|]. change (S fuel) with (1 + fuel).
    destruct Hrs as [->| ->]; (eexists; split; [apply loop_return; vm_compute; reflexivity|done]).
  - destruct fuel as [|[|[|fuel]]]; [lia..|]. change (S (S (S fuel))) with (3 + fuel).
    change (reset_frames (S n)) with ([Frame_Open (RemoteStreamId_dialer 0); Frame_Reset (RemoteStreamId_dialer 0);
                      Frame_Reset (RemoteStreamId_dialer 0)] ++ reset_frames n).
    cbn [app]. rewrite reset_turns by done. destruct (IH (LocalStreamId_listener 0 :: q) reset_waker fuel) as (m & -> & Hl & Hs);
      [by right|lia|]. exists m. split_and!; [done| |done]. simpl in Hl. lia.
Qed.

(** Data that has arrived is lost: the data of a stream that both sides have
    closed can be read, unless the remote sends a [Reset] for it, which then
    removes the stream together with its buffer.  The remote can therefore make
    the list of inbound streams grow without bound, beyond the limit on the
    number of streams: each [Open] followed by two [Reset]s adds to it. *)
Theorem reset_removes_stream :
  closed_stream_run [] = Ret (ResRead (Ready (Ok (Some [Byte.x01])))) ∧
  closed_stream_run [Frame_Reset (RemoteStreamId_dialer 0)] = Ret (ResRead (Ready (Ok None))) ∧
  ∀ n, ∃ m, reset_run n = Ret m ∧ length (open_buffer m) = n ∧ size (substreams m) = 1.
Proof.
  split; [vm_compute; reflexivity|]. split; [vm_compute; reflexivity|]. intros n.
  assert (length (reset_frames n) = 3 * n ∧ inbound_prefix (reset_frames n) = reset_frames n) as [Hlen Hpre].
  { induction n as [|n [IH1 IH2]]; [done|]. change (length (reset_frames (S n))) with (3 + length (reset_frames n)).
    split; [lia|]. change (reset_frames (S n)) with ([Frame_Open (RemoteStreamId_dialer 0); Frame_Reset (RemoteStreamId_dialer 0);
      Frame_Reset (RemoteStreamId_dialer 0)] ++ reset_frames n). simpl. by rewrite IH2. }
  destruct (reset_loop n [] reset_initial (S (length (reset_frames n)))) as (m & Hm & Hl & Hs); [by left|lia|].
  exists m. split; [|by rewrite Nat.add_0_r in Hl]. unfold reset_run. cbn [mux_run].
  assert (∀ l, mux_do 1%N OpNextStream (Multiplexed_new (mkPipe (Frame_Open (RemoteStreamId_dialer 1) :: l) [] 9)
    (mkMplexConfig 2 4 Block 10 [])) = Ret (ResStream (Ready (Ok (LocalStreamId_listener 1))), (reset_state l [] ∅ reset_initial).2))
    as Hfirst by (intros l; vm_compute; reflexivity).
  change (set_io (Multiplexed_new ?a ?b) _) with (Multiplexed_new a b). rewrite Hfirst. cbn [mbind outcome_bind].
  change (set_io _ _) with (reset_state (reset_frames n) [] ∅ reset_initial).2.
  rewrite (mux_do_read_drained _ _ _ (Substream_Open [])); [|done|apply lookup_insert_eq|done].
  change (framed_in _) with (inbound_prefix (reset_frames n)). rewrite Hpre.
  change (loop _ _ _) with (loop (S (length (reset_frames n))) reset_body (reset_state (reset_frames n) [] ∅ reset_initial)).
  by rewrite Hm.
Qed.
