(* ===== verification/GossipTimeCache.v ===== *)
(** * The duplicate cache of gossipsub

    [protocols/gossipsub/src/time_cache.rs]: a cache whose elements expire, with a
    list of keys ordered by expiry so that expired elements are found without
    searching.  Keys that are inserted again are in the list more than once.
    Instants are numbers of nanoseconds; the current instant is an argument. *)

From S2P Require Import Prelude.
From stdpp Require Import fin_maps.

Record ExpiringElement (Element : Type) : Type := mkExpiring {
  element : Element;
  expires : N;
}.
Arguments mkExpiring {Element}.
Arguments element {Element} _.
Arguments expires {Element} _.

Section time_cache.
Context {Key Value : Type} `{Countable Key}.

Record TimeCache : Type := mkTimeCache {
  tc_map : gmap Key (ExpiringElement Value);
  tc_list : list (ExpiringElement Key);
  tc_ttl : N;
}.

(** An entry borrows the cache; its operations take the cache as an argument. *)
Inductive TimeEntry : Type :=
| TimeOccupied (expiration : N) (key : Key)
| TimeVacant (expiration : N) (key : Key).

Definition TimeCache_new (ttl : N) : TimeCache := mkTimeCache ∅ [] ttl.

(** The loop of [remove_expired_keys]. *)
Fixpoint remove_expired (now : N) (m : gmap Key (ExpiringElement Value)) (l : list (ExpiringElement Key)) :
    gmap Key (ExpiringElement Value) * list (ExpiringElement Key) :=
  match l with
  | [] => (m, [])
  | e :: l =>
      if decide (now < expires e)%N then (m, e :: l)
      else
        let m :=
          match m !! element e with
          | Some entry => if decide (expires entry ≤ now)%N then delete (element e) m else m
          | None => m
          end in
        remove_expired now m l
  end.

Definition TimeCache_remove_expired_keys (c : TimeCache) (now : N) : TimeCache :=
  let '(m, l) := remove_expired now (tc_map c) (tc_list c) in mkTimeCache m l (tc_ttl c).

Definition TimeCache_entry (c : TimeCache) (key : Key) (now : N) : TimeEntry * TimeCache :=
  let c := TimeCache_remove_expired_keys c now in
  match tc_map c !! key with
  | Some _ => (TimeOccupied (now + tc_ttl c) key, c)
  | None => (TimeVacant (now + tc_ttl c) key, c)
  end.

(** [into_mut] of an occupied entry, read. *)
Definition OccupiedEntry_into_mut (c : TimeCache) (key : Key) : option Value := element <$> tc_map c !! key.

Definition OccupiedEntry_insert_without_updating_expiration (c : TimeCache) (key : Key) (value : Value) :
    option Value * TimeCache :=
  (element <$> tc_map c !! key,
   mkTimeCache (alter (λ e, mkExpiring value (expires e)) key (tc_map c)) (tc_list c) (tc_ttl c)).

Definition OccupiedEntry_insert_and_update_expiration (c : TimeCache) (expiration : N) (key : Key) (value : Value) :
    option Value * TimeCache :=
  (element <$> tc_map c !! key,
   mkTimeCache (<[key := mkExpiring value expiration]> (tc_map c)) (tc_list c ++ [mkExpiring key expiration]) (tc_ttl c)).

Definition VacantEntry_insert (c : TimeCache) (expiration : N) (key : Key) (value : Value) : TimeCache :=
  mkTimeCache (<[key := mkExpiring value expiration]> (tc_map c)) (tc_list c ++ [mkExpiring key expiration]) (tc_ttl c).

Definition TimeEntry_or_insert_with (c : TimeCache) (e : TimeEntry) (default : Value) : option Value * TimeCache :=
  match e with
  | TimeOccupied _ key => (OccupiedEntry_into_mut c key, c)
  | TimeVacant expiration key => (Some default, VacantEntry_insert c expiration key default)
  end.

Definition TimeCache_clear (c : TimeCache) : TimeCache := mkTimeCache ∅ [] (tc_ttl c).

Definition TimeCache_contains_key (c : TimeCache) (key : Key) : bool := bool_decide (is_Some (tc_map c !! key)).

Definition TimeCache_get (c : TimeCache) (key : Key) : option Value := element <$> tc_map c !! key.

(** Writing through the reference that [get_mut] returns. *)
Definition TimeCache_get_mut (c : TimeCache) (key : Key) (value : Value) : TimeCache :=
  mkTimeCache (alter (λ e, mkExpiring value (expires e)) key (tc_map c)) (tc_list c) (tc_ttl c).

(** ** Sequences of uses *)

Inductive tc_op : Type :=
| TcOrInsert (key : Key) (value : Value)
| TcInsert (key : Key) (value : Value)
| TcRenew (key : Key) (value : Value)
| TcReplace (key : Key) (value : Value)
| TcGet (key : Key)
| TcSet (key : Key) (value : Value)
| TcClear.

(** [TcInsert] inserts if the key is absent, as [DuplicateCache] does; [TcRenew]
    and [TcReplace] also write to an occupied entry. *)
Definition tc_apply (op : tc_op) (now : N) (c : TimeCache) : option Value * TimeCache :=
  match op with
  | TcOrInsert key value => let '(e, c) := TimeCache_entry c key now in TimeEntry_or_insert_with c e value
  | TcInsert key value =>
      match TimeCache_entry c key now with
      | (TimeVacant expiration key, c) => (Some value, VacantEntry_insert c expiration key value)
      | (TimeOccupied _ _, c) => (None, c)
      end
  | TcRenew key value =>
      match TimeCache_entry c key now with
      | (TimeVacant expiration key, c) => (None, VacantEntry_insert c expiration key value)
      | (TimeOccupied expiration key, c) => OccupiedEntry_insert_and_update_expiration c expiration key value
      end
  | TcReplace key value =>
      match TimeCache_entry c key now with
      | (TimeVacant expiration key, c) => (None, VacantEntry_insert c expiration key value)
      | (TimeOccupied _ key, c) => OccupiedEntry_insert_without_updating_expiration c key value
      end
  | TcGet key => (TimeCache_get c key, c)
  | TcSet key value => (None, TimeCache_get_mut c key value)
  | TcClear => (None, TimeCache_clear c)
  end.

Fixpoint tc_run (ops : list (tc_op * N)) (c : TimeCache) : list (option Value) * TimeCache :=
  match ops with
  | [] => ([], c)
  | (op, now) :: ops =>
      let '(r, c) := tc_apply op now c in
      let '(rs, c) := tc_run ops c in
      (r :: rs, c)
  end.

(** ** The reference *)

(** A map of values with their expiry.  Whenever an entry is looked up, everything
    that has expired is dropped. *)
Definition ref_live (now : N) (m : gmap Key (Value * N)) : gmap Key (Value * N) := filter (λ p, now < p.2.2)%N m.

Definition ref_apply (ttl : N) (op : tc_op) (now : N) (m : gmap Key (Value * N)) : option Value * gmap Key (Value * N) :=
  match op with
  | TcOrInsert key value =>
      let m := ref_live now m in
      match m !! key with
      | Some (v, _) => (Some v, m)
      | None => (Some value, <[key := (value, now + ttl)%N]> m)
      end
  | TcInsert key value =>
      let m := ref_live now m in
      match m !! key with
      | Some _ => (None, m)
      | None => (Some value, <[key := (value, now + ttl)%N]> m)
      end
  | TcRenew key value =>
      let m := ref_live now m in (fst <$> m !! key, <[key := (value, now + ttl)%N]> m)
  | TcReplace key value =>
      let m := ref_live now m in
      (fst <$> m !! key, <[key := (value, from_option snd (now + ttl)%N (m !! key))]> m)
  | TcGet key => (fst <$> m !! key, m)
  | TcSet key value => (None, alter (λ p, (value, p.2)) key m)
  | TcClear => (None, ∅)
  end.

Fixpoint ref_run (ttl : N) (ops : list (tc_op * N)) (m : gmap Key (Value * N)) : list (option Value) * gmap Key (Value * N) :=
  match ops with
  | [] => ([], m)
  | (op, now) :: ops =>
      let '(r, m) := ref_apply ttl op now m in
      let '(rs, m) := ref_run ttl ops m in
      (r :: rs, m)
  end.

(** ** Refinement *)

Definition tc_pair (e : ExpiringElement Value) : Value * N := (element e, expires e).

(** The list is ordered, nothing expires later than [ttl] after the last use, and
    every element of the map is in the list with its expiry. *)
Record tc_inv (now : N) (c : TimeCache) : Prop := {
  tci_sorted : StronglySorted (λ a b, expires a ≤ expires b)%N (tc_list c);
  tci_bound : Forall (λ e, expires e ≤ now + tc_ttl c)%N (tc_list c);
  tci_listed k e : tc_map c !! k = Some e → mkExpiring k (expires e) ∈ tc_list c;
}.

Lemma filter_Forall_id {A} (P : A → Prop) `{∀ x, Decision (P x)} (l : list A) : Forall P l → filter P l = l.
Proof. induction 1; [done|]. rewrite filter_cons_True; congruence. Qed.

Lemma remove_expired_spec now m l :
  StronglySorted (λ a b, expires a ≤ expires b)%N l →
  (∀ k e, m !! k = Some e → (expires e ≤ now)%N → mkExpiring k (expires e) ∈ l) →
  remove_expired now m l = (filter (λ p, now < expires p.2)%N m, filter (λ e, now < expires e)%N l).
Proof.
  intros Hsort. revert m. induction Hsort as [|e l Hsort IH Hle]; intros m Hl; simpl.
  - f_equal. symmetry. apply map_filter_id. intros k e Hk. simpl. destruct (decide (now < expires e)%N); [done|].
    exfalso. specialize (Hl k e Hk ltac:(lia)). by apply elem_of_nil in Hl.
  - destruct (decide (now < expires e)%N) as [Hlt|Hge].
    + assert (Forall (λ e, now < expires e)%N (e :: l)) as Hall.
      { constructor; [done|]. eapply Forall_impl; [exact Hle|]. simpl. lia. }
      f_equal; [|symmetry; by apply filter_Forall_id].
      symmetry. apply map_filter_id. intros k x Hk. simpl. destruct (decide (now < expires x)%N); [done|].
      exfalso. specialize (Hl k x Hk ltac:(lia)). rewrite Forall_forall in Hall. specialize (Hall _ Hl). simpl in Hall. lia.
    + set (m' := match m !! element e with Some _ => _ | None => _ end).
      assert (filter (λ p, now < expires p.2)%N m' = filter (λ p, now < expires p.2)%N m) as Hf.
      { subst m'. destruct (m !! element e) as [x|] eqn:E; [|done]. case_decide; [|done].
        rewrite map_filter_delete. apply delete_id. apply map_lookup_filter_None. right. simpl. intros x' Hx'.
        rewrite E in Hx'. injection Hx' as <-. lia. }
      rewrite IH, Hf; [by rewrite filter_cons_False|].
      intros k x Hk Hx. assert (m !! k = Some x ∧ (k ≠ element e ∨ mkExpiring k (expires x) ≠ e)) as [Hk' Hne].
      { subst m'. destruct (m !! element e) as [y|] eqn:E.
        - case_decide.
          + apply lookup_delete_Some in Hk as [? ?]. by split; [|left].
          + split; [done|]. destruct (decide (k = element e)) as [->|]; [|by left]. rewrite E in Hk. injection Hk as <-. lia.
        - split; [done|]. left. congruence. }
      specialize (Hl k x Hk' Hx). apply elem_of_cons in Hl as [Hl|Hl]; [|done]. exfalso. rewrite <-Hl in Hne. naive_solver.
Qed.

Lemma TimeCache_remove_expired_keys_spec now now' c :
  (now ≤ now')%N → tc_inv now c →
  tc_inv now' (TimeCache_remove_expired_keys c now') ∧
  tc_pair <$> tc_map (TimeCache_remove_expired_keys c now') = ref_live now' (tc_pair <$> tc_map c) ∧
  tc_ttl (TimeCache_remove_expired_keys c now') = tc_ttl c.
Proof.
  intros Hnow [Hs Hb Hl]. unfold TimeCache_remove_expired_keys. rewrite remove_expired_spec; [|done|by intros; apply Hl].
  simpl. split_and!; [split; simpl| |done].
  - clear Hb Hl. induction Hs as [|e l Hs IH Hle]; [constructor|]. rewrite filter_cons. case_decide; [|done].
    constructor; [done|]. apply Forall_forall. intros x [_ Hx]%list_elem_of_filter. by rewrite Forall_forall in Hle; apply Hle.
  - apply Forall_forall. intros x [_ Hx]%list_elem_of_filter. rewrite Forall_forall in Hb. specialize (Hb x Hx). simpl in Hb. lia.
  - intros k e [Hk He]%map_lookup_filter_Some. apply list_elem_of_filter. by split; [|apply Hl].
  - unfold ref_live. by rewrite map_filter_fmap.
Qed.

Lemma tc_inv_insert now c key value :
  tc_inv now c →
  tc_inv now (mkTimeCache (<[key := mkExpiring value (now + tc_ttl c)%N]> (tc_map c))
    (tc_list c ++ [mkExpiring key (now + tc_ttl c)%N]) (tc_ttl c)).
Proof.
  intros [Hs Hb Hl]. split; simpl.
  - apply StronglySorted_app_2; [|done|by repeat constructor].
    intros x y Hx ->%list_elem_of_singleton. rewrite Forall_forall in Hb. by apply Hb.
  - apply Forall_app. split; [done|]. by repeat constructor.
  - intros k e [[<- <-]|[_ Hk]]%lookup_insert_Some; apply elem_of_app; [right; by left|left; by apply Hl].
Qed.

Lemma tc_inv_alter now c key value :
  tc_inv now c → tc_inv now (mkTimeCache (alter (λ e, mkExpiring value (expires e)) key (tc_map c)) (tc_list c) (tc_ttl c)).
Proof.
  intros [Hs Hb Hl]. split; simpl; [done|done|].
  intros k e Hk. destruct (decide (k = key)) as [->|Hne].
  - rewrite lookup_alter_eq in Hk. apply fmap_Some in Hk as (x & Hx & ->). simpl. by apply Hl.
  - rewrite lookup_alter_ne in Hk by done. by apply Hl.
Qed.

Lemma tc_inv_later now now' c : (now ≤ now')%N → tc_inv now c → tc_inv now' c.
Proof. intros ? [Hs Hb Hl]. split; [done| |done]. eapply Forall_impl; [exact Hb|]. simpl. lia. Qed.

Lemma fmap_pair_alter (m : gmap Key (ExpiringElement Value)) key value :
  tc_pair <$> alter (λ e, mkExpiring value (expires e)) key m = alter (λ p, (value, p.2)) key (tc_pair <$> m).
Proof. by rewrite (fmap_alter _ _ (λ p, (value, p.2))). Qed.

(** What a use of the cache shows and leaves is what the reference shows and leaves. *)
Lemma tc_apply_refines op now now' c :
  (now ≤ now')%N → tc_inv now c →
  tc_inv now' (tc_apply op now' c).2 ∧ tc_ttl (tc_apply op now' c).2 = tc_ttl c ∧
  ref_apply (tc_ttl c) op now' (tc_pair <$> tc_map c) =
    ((tc_apply op now' c).1, tc_pair <$> tc_map (tc_apply op now' c).2).
Proof.
  intros Hnow Hinv. pose proof (TimeCache_remove_expired_keys_spec now now' c Hnow Hinv) as (Hi & Hm & Ht).
  destruct op as [key value|key value|key value|key value|key|key value|]; simpl; unfold TimeCache_entry;
    rewrite <-?Hm, ?lookup_fmap.
  1-4: remember (TimeCache_remove_expired_keys c now') as d eqn:Ed; rewrite <-Ht; clear Ed Ht Hm Hinv;
    destruct (tc_map d !! key) as [e|] eqn:E; simpl;
    unfold OccupiedEntry_into_mut, OccupiedEntry_insert_without_updating_expiration; rewrite ?E; simpl;
    split_and!; rewrite ?fmap_insert; try done; try (by apply tc_inv_insert).
  - by apply tc_inv_alter.
  - f_equal. rewrite fmap_pair_alter. apply map_eq. intros k. destruct (decide (k = key)) as [->|].
    + by rewrite lookup_insert_eq, lookup_alter_eq, lookup_fmap, E.
    + by rewrite lookup_insert_ne, lookup_alter_ne by done.
  - split_and!; [by eapply tc_inv_later|done|]. unfold TimeCache_get. f_equal. by destruct (tc_map c !! key).
  - split_and!; [|done|by rewrite fmap_pair_alter]. by apply tc_inv_alter; eapply tc_inv_later.
  - split_and!; [|done|by rewrite fmap_empty]. split; simpl; [constructor|constructor|]. intros k e. by rewrite lookup_empty.
Qed.

Lemma tc_run_refines ops now c :
  Sorted N.le (now :: (snd <$> ops)) → tc_inv now c →
  ref_run (tc_ttl c) ops (tc_pair <$> tc_map c) = ((tc_run ops c).1, tc_pair <$> tc_map (tc_run ops c).2).
Proof.
  revert now c. induction ops as [|[op now'] ops IH]; intros now c Hs Hi; [done|]. simpl in *.
  apply Sorted_inv in Hs as [Hs Hh]. apply HdRel_inv in Hh.
  destruct (tc_apply_refines op now now' c Hh Hi) as (Hi' & Ht & Hr). rewrite Hr.
  destruct (tc_apply op now' c) as [r d]. simpl in *. specialize (IH now' d Hs Hi'). rewrite Ht in IH. rewrite IH.
  by destruct (tc_run ops d).
Qed.

Lemma tc_inv_new ttl : tc_inv 0 (TimeCache_new ttl).
Proof. split; simpl; [constructor|constructor|]. intros k e. by rewrite lookup_empty. Qed.

(** The cache is a map of values with their expiry from which, whenever an
    entry is looked up, exactly the elements that have expired are dropped:
    whatever uses are made of a new cache at non-decreasing instants, every result
    is that of the reference, and so is the content left, although the code looks
    only at the front of a list in which renewed keys occur several times. *)
Theorem TimeCache_run_refines ttl ops :
  Sorted N.le (snd <$> ops) →
  ref_run ttl ops ∅ = ((tc_run ops (TimeCache_new ttl)).1, tc_pair <$> tc_map (tc_run ops (TimeCache_new ttl)).2).
Proof.
  intros Hs. pose proof (tc_run_refines ops 0 (TimeCache_new ttl)) as Hr. simpl in Hr. rewrite fmap_empty in Hr.
  apply Hr; [|apply tc_inv_new]. constructor; [done|]. destruct (snd <$> ops); constructor. apply N.le_0_l.
Qed.
End time_cache.

(** ** The duplicate cache *)

Section duplicate_cache.
Context {Key : Type} `{Countable Key}.

(** [struct DuplicateCache]: a time cache with unit values. *)
Definition DuplicateCache : Type := TimeCache (Key := Key) (Value := unit).

Definition DuplicateCache_new (ttl : N) : DuplicateCache := TimeCache_new ttl.

Definition DuplicateCache_insert (c : DuplicateCache) (key : Key) (now : N) : bool * DuplicateCache :=
  match TimeCache_entry c key now with
  | (TimeVacant expiration key, c) => (true, VacantEntry_insert c expiration key tt)
  | (TimeOccupied _ _, c) => (false, c)
  end.

Definition DuplicateCache_contains (c : DuplicateCache) (key : Key) : bool := TimeCache_contains_key c key.

(** The answers of [insert] to a sequence of keys with their instants. *)
Fixpoint DuplicateCache_run (c : DuplicateCache) (keys : list (Key * N)) : list bool :=
  match keys with
  | [] => []
  | (key, now) :: keys => let '(b, c) := DuplicateCache_insert c key now in b :: DuplicateCache_run c keys
  end.

(** The keys accepted at an instant less than [ttl] before [now] are those of the cache. *)
Definition accepted (ttl : N) (past : list (Key * N * bool)) (key : Key) (now : N) : Prop :=
  ∃ t, (key, t, true) ∈ past ∧ (now < t + ttl)%N.

Record dup_inv (ttl : N) (past : list (Key * N * bool)) (now : N) (c : DuplicateCache) : Prop := {
  dup_cache : tc_inv now c;
  dup_ttl : tc_ttl c = ttl;
  dup_map k e : tc_map c !! k = Some e → ∃ t, (k, t, true) ∈ past ∧ expires e = (t + ttl)%N;
  dup_past k t : (k, t, true) ∈ past → (now < t + ttl)%N →
    ∃ e, tc_map c !! k = Some e ∧ (t + ttl ≤ expires e)%N;
}.

Lemma DuplicateCache_insert_spec ttl past now now' c key :
  (now ≤ now')%N → dup_inv ttl past now c →
  ((DuplicateCache_insert c key now').1 = false ↔ accepted ttl past key now') ∧
  dup_inv ttl (past ++ [(key, now', (DuplicateCache_insert c key now').1)]) now' (DuplicateCache_insert c key now').2.
Proof.
  intros Hnow [Hc Ht Hm Hp].
  destruct (TimeCache_remove_expired_keys_spec now now' c Hnow Hc) as (Hi & Hr & Ht').
  unfold DuplicateCache_insert, TimeCache_entry.
  remember (TimeCache_remove_expired_keys c now') as d eqn:Ed. clear Ed.
  assert (∀ k e, tc_map d !! k = Some e ↔ tc_map c !! k = Some e ∧ (now' < expires e)%N) as Hlive.
  { intros k [[] x]. apply (f_equal (.!! k)) in Hr. rewrite lookup_fmap in Hr. unfold ref_live in Hr. split.
    - intros Hd. rewrite Hd in Hr. symmetry in Hr. apply map_lookup_filter_Some in Hr as [Hr Hx].
      rewrite lookup_fmap in Hr. apply fmap_Some in Hr as ([[] y] & Hy & [= ->]). done.
    - intros [Hk Hx]. destruct (tc_map d !! k) as [[[] y]|] eqn:E; simpl in Hr.
      + symmetry in Hr. apply map_lookup_filter_Some in Hr as [Hr _]. rewrite lookup_fmap, Hk in Hr. by injection Hr as ->.
      + symmetry in Hr. apply map_lookup_filter_None in Hr as [Hr|Hr].
        * by rewrite lookup_fmap, Hk in Hr.
        * exfalso. apply (Hr ((), x)); [by rewrite lookup_fmap, Hk|done]. }
  assert (∀ k, is_Some (tc_map d !! k) ↔ accepted ttl past k now') as Hacc.
  { intros k. split.
    - intros [e [He Hx]%Hlive]. destruct (Hm k e He) as (t & Hin & Hex). exists t. split; [done|lia].
    - intros (t & Hin & Hlt). destruct (Hp k t Hin ltac:(lia)) as (e & He & Hle). exists e. apply Hlive. split; [done|lia]. }
  destruct (tc_map d !! key) as [e|] eqn:E; simpl.
  - split; [split; [intros _; apply Hacc; rewrite E; eauto|done]|]. split; [done|by rewrite Ht'| |].
    + intros k x [Hx _]%Hlive. destruct (Hm k x Hx) as (t & ? & ?). exists t. split; [set_solver|done].
    + intros k t Hin Hlt. apply elem_of_app in Hin as [Hin|[=]%list_elem_of_singleton].
      destruct (Hp k t Hin ltac:(lia)) as (x & Hx & Hle). exists x. split; [apply Hlive; split; [done|lia]|done].
  - split; [split; [done|intros Ha%Hacc; rewrite E in Ha; by destruct Ha]|].
    split; [by apply tc_inv_insert|by simpl; rewrite Ht'| |]; simpl.
    + intros k x [[<- <-]|[_ [Hx _]%Hlive]]%lookup_insert_Some.
      * exists now'. split; [set_solver|simpl; congruence].
      * destruct (Hm k x Hx) as (t & ? & ?). exists t. split; [set_solver|done].
    + intros k t Hin Hlt. destruct (decide (k = key)) as [->|Hne].
      * rewrite lookup_insert_eq. eexists. split; [done|]. simpl. rewrite Ht', Ht.
        apply elem_of_app in Hin as [Hin|[= ->]%list_elem_of_singleton]; [|lia].
        destruct (Hp key t Hin ltac:(lia)) as (x & Hx & Hle). exfalso.
        assert (tc_map d !! key = Some x) by (apply Hlive; split; [done|lia]). congruence.
      * rewrite lookup_insert_ne by done. apply elem_of_app in Hin as [Hin|[= -> _]%list_elem_of_singleton]; [|done].
        destruct (Hp k t Hin ltac:(lia)) as (x & Hx & Hle). exists x. split; [apply Hlive; split; [done|lia]|done].
Qed.

Lemma DuplicateCache_run_accepted ttl keys past now c :
  Sorted N.le (now :: (snd <$> keys)) → dup_inv ttl past now c →
  ∀ j key t b, keys !! j = Some (key, t) → DuplicateCache_run c keys !! j = Some b →
    b = false ↔ accepted ttl (past ++ take j (zip keys (DuplicateCache_run c keys))) key t.
Proof.
  revert past now c. induction keys as [|[k now'] keys IH]; intros past now c Hs Hi j key t b Hj Hb; [done|]. simpl in *.
  apply Sorted_inv in Hs as [Hs Hh]. apply HdRel_inv in Hh.
  destruct (DuplicateCache_insert_spec ttl past now now' c k Hh Hi) as [Ha Hi'].
  destruct (DuplicateCache_insert c k now') as [b' d]. simpl in *. destruct j as [|j]; simpl in *.
  - injection Hj as -> ->. injection Hb as ->. by rewrite app_nil_r.
  - rewrite (IH _ now' d Hs Hi' j key t b Hj Hb). by rewrite <-app_assoc.
Qed.

(** A key is refused as a duplicate exactly if it was accepted less than [ttl]
    ago: in a sequence of [insert]s at non-decreasing instants, [insert] answers
    [false] for the [j]th key if and only if an earlier [insert] of the same key
    answered [true], at an instant [t'] with [t < t' + ttl].  Refused inserts do not
    prolong the time for which the key is remembered. *)
Theorem DuplicateCache_refuses_recent ttl keys j key t b :
  Sorted N.le (snd <$> keys) → keys !! j = Some (key, t) →
  DuplicateCache_run (DuplicateCache_new ttl) keys !! j = Some b →
  b = false ↔
    ∃ i t', i < j ∧ keys !! i = Some (key, t') ∧
      DuplicateCache_run (DuplicateCache_new ttl) keys !! i = Some true ∧ (t < t' + ttl)%N.
Proof.
  intros Hs Hj Hb.
  assert (Sorted N.le (0%N :: (snd <$> keys))) as Hs'.
  { constructor; [done|]. destruct (snd <$> keys); constructor. apply N.le_0_l. }
  assert (dup_inv ttl [] 0 (DuplicateCache_new ttl)) as Hi.
  { split; [apply tc_inv_new|done| |by intros ?? ?%elem_of_nil]. intros k e. simpl. by rewrite lookup_empty. }
  rewrite (DuplicateCache_run_accepted ttl keys [] 0 _ Hs' Hi j key t b Hj Hb).
  simpl. unfold accepted. split.
  - intros (t' & Hin & Hlt). apply elem_of_take in Hin as (i & Hz & Hij). apply lookup_zip_Some in Hz as [H1 H2]. eauto 6.
  - intros (i & t' & Hij & H1 & H2 & Hlt). exists t'. split; [|done]. apply elem_of_take. exists i.
    split; [|done]. by apply lookup_zip_Some.
Qed.
End duplicate_cache.

Lemma TimeCache_run_refines_witness :
  let ops := [(TcOrInsert 1 10, 0%N); (TcRenew 1 11, 3%N); (TcOrInsert 2 20, 6%N); (TcGet 1, 7%N)] in
  (tc_run ops (TimeCache_new 5)).1 = [Some 10; Some 10; Some 20; Some 11].
Proof.
  intros ops. pose proof (TimeCache_run_refines 5 ops) as Hr.
  assert ((ref_run 5 ops ∅).1 = [Some 10; Some 10; Some 20; Some 11]) as Href by (vm_compute; reflexivity).
  rewrite Hr in Href; [exact Href|]. repeat constructor; vm_compute; discriminate.
Defined.

(** The third insert comes more than [ttl] after the accepted one, although less
    than [ttl] after the refused one. *)
Lemma DuplicateCache_refuses_recent_witness :
  let keys := [(7, 0%N); (7, 4%N); (7, 6%N)] in
  DuplicateCache_run (DuplicateCache_new 5) keys = [true; false; true] ∧
  ∃ i t', i < 1 ∧ keys !! i = Some (7, t') ∧ DuplicateCache_run (DuplicateCache_new 5) keys !! i = Some true ∧ (4 < t' + 5)%N.
Proof.
  intros keys. split; [vm_compute; reflexivity|].
  apply (DuplicateCache_refuses_recent 5 keys 1 7 4 false); [|reflexivity|vm_compute; reflexivity|reflexivity].
  repeat constructor; vm_compute; discriminate.
Defined.
