(* ===== verification/GossipBackoff.v ===== *)
(** * The backoff storage of gossipsub

    [protocols/gossipsub/src/backoff.rs]: for every topic and peer the instant until
    which the peer must not be grafted again, and a cyclic vector of sets by which
    each heartbeat finds the few backoffs that may be over.  Instants and durations
    are numbers of nanoseconds; the current instant is an argument of the operations
    that read the clock.  The length of a backoff is chosen by the remote, so the end
    of the clock is modelled: a sum beyond it is a panic. *)

From S2P Require Import Prelude.
From stdpp Require Import fin_maps fin_sets.

(** [usize] addition, where overflow is a panic. *)
Definition usize_add (a b : N) : outcome N := if decide (a + b < 2 ^ 64)%N then Ret (a + b)%N else Panic.

Lemma usize_add_lt a b : (a + b < 2 ^ 64)%N → usize_add a b = Ret (a + b)%N.
Proof. intros H. unfold usize_add. by rewrite decide_True. Qed.

Section backoff.
Context {TopicHash PeerId : Type} `{Countable TopicHash} `{Countable PeerId}.

Abbreviation pair := (TopicHash * PeerId)%type.

(** The order in which a [HashSet] is visited is not specified. *)
Context (iter : gset pair → list pair).

Record BackoffStorage : Type := mkBackoff {
  backoffs : gmap TopicHash (gmap PeerId (N * nat));
  backoffs_by_heartbeat : list (gset pair);
  heartbeat_index : nat;
  heartbeat_interval : N;
  backoff_slack : N;
}.

(** A zero interval makes the division panic; [as usize] truncates. *)
Definition BackoffStorage_heartbeats (d interval : N) : outcome N :=
  if decide (interval = 0)%N then Panic else Ret (((d + interval - 1) `div` interval) mod 2 ^ 64)%N.

Definition BackoffStorage_new (prune_backoff interval slack : N) : outcome BackoffStorage :=
  n ← BackoffStorage_heartbeats prune_backoff interval;
  n ← usize_add n slack;
  max_heartbeats ← usize_add n 1;
  Ret (mkBackoff ∅ (replicate (N.to_nat max_heartbeats) ∅) 0 interval slack).

(** The closure [insert_into_backoffs_by_heartbeat]. *)
Definition insert_into_backoffs_by_heartbeat (b : BackoffStorage) (slots : list (gset pair)) (p : pair) (time : N) :
    outcome (nat * list (gset pair)) :=
  h ← BackoffStorage_heartbeats time (heartbeat_interval b);
  n ← usize_add (N.of_nat (heartbeat_index b)) h;
  n ← usize_add n (backoff_slack b);
  if decide (length slots = 0) then Panic
  else
    let index := N.to_nat (n mod N.of_nat (length slots)) in
    slot ← expect (slots !! index);
    Ret (index, <[index := {[p]} ∪ slot]> slots).

Definition BackoffStorage_update_backoff (b : BackoffStorage) (topic : TopicHash) (peer : PeerId) (time now : N) :
    outcome BackoffStorage :=
  instant ← instant_add now time;
  let peers := default ∅ (backoffs b !! topic) in
  let insert slots :=
    '(index, slots) ← insert_into_backoffs_by_heartbeat b slots (topic, peer) time;
    Ret (mkBackoff (<[topic := <[peer := (instant, index)]> peers]> (backoffs b)) slots
      (heartbeat_index b) (heartbeat_interval b) (backoff_slack b)) in
  match peers !! peer with
  | Some (backoff, index) =>
      if decide (backoff < instant)%N
      then insert (alter (λ s, s ∖ {[(topic, peer)]}) index (backoffs_by_heartbeat b))
      else
        Ret (mkBackoff (<[topic := peers]> (backoffs b)) (backoffs_by_heartbeat b)
          (heartbeat_index b) (heartbeat_interval b) (backoff_slack b))
  | None => insert (backoffs_by_heartbeat b)
  end.

Definition BackoffStorage_is_backoff_with_slack (b : BackoffStorage) (topic : TopicHash) (peer : PeerId) : bool :=
  match backoffs b !! topic with
  | Some m => bool_decide (is_Some (m !! peer))
  | None => false
  end.

Definition get_backoff_time_from_backoffs (bs : gmap TopicHash (gmap PeerId (N * nat))) (topic : TopicHash) (peer : PeerId) :
    option N :=
  m ← bs !! topic; fst <$> m !! peer.

Definition BackoffStorage_get_backoff_time (b : BackoffStorage) (topic : TopicHash) (peer : PeerId) : option N :=
  get_backoff_time_from_backoffs (backoffs b) topic peer.

(** The removal of a backoff that is over, in the closure given to [retain]. *)
Definition remove_backoff (bs : gmap TopicHash (gmap PeerId (N * nat))) (p : pair) :
    gmap TopicHash (gmap PeerId (N * nat)) :=
  match bs !! p.1 with
  | Some m =>
      let m' := delete p.2 m in
      if decide (is_Some (m !! p.2) ∧ m' = ∅) then delete p.1 bs else <[p.1 := m']> bs
  | None => bs
  end.

(** One call of the closure given to [retain]. *)
Definition retain_turn (slack now : N) (st : gmap TopicHash (gmap PeerId (N * nat)) * gset pair) (p : pair) :
    outcome (gmap TopicHash (gmap PeerId (N * nat)) * gset pair) :=
  keep ←
    match get_backoff_time_from_backoffs st.1 p.1 p.2 with
    | Some backoff_time => t ← instant_add backoff_time slack; Ret (bool_decide (now < t)%N)
    | None => Ret false
    end;
  Ret (if keep : bool then st else (remove_backoff st.1 p, st.2 ∖ {[p]})).

Definition BackoffStorage_heartbeat (b : BackoffStorage) (now : N) : outcome BackoffStorage :=
  '(bs, slots) ←
    match backoffs_by_heartbeat b !! heartbeat_index b with
    | Some s =>
        slack ← duration_mul (heartbeat_interval b) (backoff_slack b);
        '(bs, s) ← for_each (retain_turn slack now) (backoffs b, s) (iter s);
        Ret (bs, <[heartbeat_index b := s]> (backoffs_by_heartbeat b))
    | None => Ret (backoffs b, backoffs_by_heartbeat b)
    end;
  if decide (length slots = 0) then Panic
  else
    Ret (mkBackoff bs slots ((heartbeat_index b + 1) `mod` length slots) (heartbeat_interval b) (backoff_slack b)).

(** ** Sequences of operations *)

Inductive bo_op : Type :=
| BoUpdate (topic : TopicHash) (peer : PeerId) (time : N)
| BoHeartbeat.

Definition bo_apply (op : bo_op) (now : N) (b : BackoffStorage) : outcome BackoffStorage :=
  match op with
  | BoUpdate topic peer time => BackoffStorage_update_backoff b topic peer time now
  | BoHeartbeat => BackoffStorage_heartbeat b now
  end.

Fixpoint bo_run (ops : list (bo_op * N)) (b : BackoffStorage) : outcome BackoffStorage :=
  match ops with
  | [] => Ret b
  | (op, now) :: ops => b ← bo_apply op now b; bo_run ops b
  end.

(** ** Lookups *)

Definition bo_lookup (bs : gmap TopicHash (gmap PeerId (N * nat))) (p : pair) : option (N * nat) :=
  m ← bs !! p.1; m !! p.2.

Lemma bo_lookup_insert bs p x q :
  bo_lookup (<[p.1 := <[p.2 := x]> (default ∅ (bs !! p.1))]> bs) q = if decide (q = p) then Some x else bo_lookup bs q.
Proof.
  destruct p as [t a], q as [t' a']. unfold bo_lookup. simpl. destruct (decide (t' = t)) as [->|Hne].
  - rewrite lookup_insert_eq. simpl. destruct (decide (a' = a)) as [->|].
    + rewrite lookup_insert_eq. by rewrite decide_True.
    + rewrite lookup_insert_ne by done. rewrite decide_False by congruence. by destruct (bs !! t).
  - rewrite lookup_insert_ne by done. rewrite decide_False by congruence. done.
Qed.

Lemma bo_lookup_touch bs t q : is_Some (bs !! t) → bo_lookup (<[t := default ∅ (bs !! t)]> bs) q = bo_lookup bs q.
Proof. intros [m Hm]. rewrite Hm. simpl. by rewrite insert_id. Qed.

Lemma bo_lookup_remove bs p q : bo_lookup (remove_backoff bs p) q = if decide (q = p) then None else bo_lookup bs q.
Proof.
  destruct p as [t a], q as [t' a']. unfold remove_backoff, bo_lookup. simpl.
  destruct (bs !! t) as [m|] eqn:E.
  - destruct (decide (_ ∧ _)) as [[_ He]|_].
    + destruct (decide (t' = t)) as [->|].
      * rewrite lookup_delete_eq, E. simpl. case_decide; [done|]. assert (a' ≠ a) as Hne by congruence.
        rewrite <-(lookup_delete_ne m a a') by done. by rewrite He, lookup_empty.
      * rewrite lookup_delete_ne by done. rewrite decide_False by congruence. done.
    + destruct (decide (t' = t)) as [->|].
      * rewrite lookup_insert_eq, E. simpl. destruct (decide (a' = a)) as [->|].
        -- by rewrite lookup_delete_eq, decide_True.
        -- rewrite lookup_delete_ne by done. by rewrite decide_False by congruence.
      * rewrite lookup_insert_ne by done. by rewrite decide_False by congruence.
  - case_decide as Hd; [|done]. injection Hd as -> ->. by rewrite E.
Qed.

Lemma get_backoff_time_lookup bs t a : get_backoff_time_from_backoffs bs t a = fst <$> bo_lookup bs (t, a).
Proof. unfold get_backoff_time_from_backoffs, bo_lookup. simpl. by destruct (bs !! t). Qed.

Lemma is_backoff_lookup b t a :
  BackoffStorage_is_backoff_with_slack b t a = bool_decide (is_Some (bo_lookup (backoffs b) (t, a))).
Proof.
  unfold BackoffStorage_is_backoff_with_slack, bo_lookup. simpl. destruct (backoffs b !! t); [done|].
  done.
Qed.

(** ** The invariant *)

(** A backoff whose slack is over. *)
Definition over (slack now : N) (o : option (N * nat)) : Prop :=
  match o with Some (t, _) => (t + slack ≤ now)%N | None => True end.

#[local] Instance over_dec slack now o : Decision (over slack now o).
Proof. destruct o as [[]|]; simpl; apply _. Defined.

(** A backoff that already lasts until the instant. *)
Definition lasts (instant : N) (o : option (N * nat)) : Prop :=
  match o with Some (t, _) => (instant ≤ t)%N | None => False end.

#[local] Instance lasts_dec instant o : Decision (lasts instant o).
Proof. destruct o as [[]|]; simpl; apply _. Defined.

(** The time that a backoff stays after it is over. *)
Definition bo_slack (b : BackoffStorage) : N := heartbeat_interval b * backoff_slack b.

(** Every backoff is in the slot it names, and in no other, and its end with the
    slack is before the end of the clock. *)
Record bo_inv (b : BackoffStorage) : Prop := {
  bo_index : heartbeat_index b < length (backoffs_by_heartbeat b);
  bo_interval : (0 < heartbeat_interval b)%N;
  bo_slots i s p : backoffs_by_heartbeat b !! i = Some s → p ∈ s → ∃ t, bo_lookup (backoffs b) p = Some (t, i);
  bo_listed p t i : bo_lookup (backoffs b) p = Some (t, i) → ∃ s, backoffs_by_heartbeat b !! i = Some s ∧ p ∈ s;
  bo_ends p t i : bo_lookup (backoffs b) p = Some (t, i) → (t + bo_slack b < instant_end)%N;
}.

Definition same_config (b b' : BackoffStorage) : Prop :=
  length (backoffs_by_heartbeat b') = length (backoffs_by_heartbeat b) ∧
  heartbeat_interval b' = heartbeat_interval b ∧ backoff_slack b' = backoff_slack b.

(** The slot in which a backoff of the given length is put, as a distance from the
    current one. *)
Definition bo_offset (b : BackoffStorage) (time : N) : N :=
  ((time + heartbeat_interval b - 1) `div` heartbeat_interval b + backoff_slack b)%N.

(** The sums the code computes stay within [usize]. *)
Definition time_fits (b : BackoffStorage) (time : N) : Prop :=
  (N.of_nat (length (backoffs_by_heartbeat b)) + bo_offset b time < 2 ^ 64)%N.

Lemma insert_into_spec b slots p time :
  bo_inv b → length slots = length (backoffs_by_heartbeat b) → time_fits b time →
  ∃ slot, let index := N.to_nat ((N.of_nat (heartbeat_index b) + bo_offset b time) mod N.of_nat (length slots)) in
    slots !! index = Some slot ∧
    insert_into_backoffs_by_heartbeat b slots p time = Ret (index, <[index := {[p]} ∪ slot]> slots).
Proof.
  intros [Hi Hn _ _ _] Hl Hfit. unfold time_fits, bo_offset in *. unfold insert_into_backoffs_by_heartbeat, BackoffStorage_heartbeats.
  rewrite decide_False by lia. cbn [mbind outcome_bind].
  set (h := ((time + heartbeat_interval b - 1) `div` heartbeat_interval b)%N) in *.
  rewrite (N.mod_small h) by lia. rewrite usize_add_lt by lia. cbn [mbind outcome_bind].
  rewrite usize_add_lt by lia. cbn [mbind outcome_bind]. rewrite decide_False by lia.
  rewrite <-N.add_assoc.
  assert (is_Some (slots !! N.to_nat ((N.of_nat (heartbeat_index b) + (h + backoff_slack b)) mod N.of_nat (length slots)))) as [slot Hs].
  { apply lookup_lt_is_Some. assert (N.of_nat (length slots) ≠ 0%N) as Hne by lia.
    pose proof (N.mod_lt (N.of_nat (heartbeat_index b) + (h + backoff_slack b)) _ Hne). lia. }
  exists slot. split; [done|]. by rewrite Hs.
Qed.

(** Putting the backoff of a peer that is in none of the slots. *)
Lemma insert_backoff_spec b topic peer time now :
  bo_inv b → time_fits b time → (now + time + bo_slack b < instant_end)%N →
  let L := length (backoffs_by_heartbeat b) in
  ∀ slots, length slots = L →
    (∀ i s p, slots !! i = Some s → p ∈ s ↔ p ≠ (topic, peer) ∧ ∃ t, bo_lookup (backoffs b) p = Some (t, i)) →
    ∃ b', ('(index, slots) ← insert_into_backoffs_by_heartbeat b slots (topic, peer) time;
      Ret (mkBackoff (<[topic := <[peer := ((now + time)%N, index)]> (default ∅ (backoffs b !! topic))]> (backoffs b)) slots
        (heartbeat_index b) (heartbeat_interval b) (backoff_slack b))) = Ret b' ∧ bo_inv b' ∧ same_config b b' ∧
    heartbeat_index b' = heartbeat_index b ∧
    ∀ p, bo_lookup (backoffs b') p =
      if decide (p = (topic, peer))
      then Some ((now + time)%N, N.to_nat ((N.of_nat (heartbeat_index b) + bo_offset b time) mod N.of_nat L))
      else bo_lookup (backoffs b) p.
Proof.
  intros Hinv Hfit Hend L. pose proof Hinv as [Hi Hn Hs Hl He].
  intros slots Hlen Hex. destruct (insert_into_spec b slots (topic, peer) time Hinv Hlen Hfit) as (slot & Hslot & ->).
  cbn [mbind outcome_bind]. rewrite Hlen in *. set (index := N.to_nat (_ mod _)) in *.
  eexists. split; [done|]. pose proof (bo_lookup_insert (backoffs b) (topic, peer) ((now + time)%N, index)) as Hlk.
  simpl in Hlk. split_and!; [split|by unfold same_config; simpl; rewrite length_insert|done|done]; simpl.
  - by rewrite length_insert, Hlen.
  - done.
  - intros i s p Hi' Hp. rewrite Hlk. apply list_lookup_insert_Some in Hi' as [(<- & <- & _)|[Hne Hi']].
    + case_decide; [by eauto|]. assert (p ∈ slot) as Hps by set_solver. by apply (Hex _ _ _ Hslot) in Hps as [_ ?].
    + apply (Hex _ _ _ Hi') in Hp as [Hp ?]. by rewrite decide_False.
  - intros p t i. rewrite Hlk. case_decide as Hd.
    + intros [= <- <-]. eexists. split; [apply list_lookup_insert_eq; by eapply lookup_lt_Some|set_solver].
    + intros Hp. destruct (decide (i = index)) as [->|Hne].
      * eexists. split; [apply list_lookup_insert_eq; by eapply lookup_lt_Some|].
        apply elem_of_union_r. apply (Hex _ _ _ Hslot). eauto.
      * rewrite list_lookup_insert_ne by done. destruct (Hl p t i Hp) as (s & Hsi & _).
        assert (i < length slots) as Hlt by (rewrite Hlen; by eapply lookup_lt_Some).
        apply lookup_lt_is_Some in Hlt as [s' Hs']. exists s'. split; [done|]. apply (Hex _ _ _ Hs'). eauto.
  - intros p t i. rewrite Hlk. case_decide; [by intros [= <- <-]|]. apply He.
Qed.

(** What [update_backoff] leaves for every topic and peer. *)
Lemma update_backoff_spec b topic peer time now :
  bo_inv b → time_fits b time → (now + time + bo_slack b < instant_end)%N →
  ∃ b', BackoffStorage_update_backoff b topic peer time now = Ret b' ∧ bo_inv b' ∧ same_config b b' ∧
    heartbeat_index b' = heartbeat_index b ∧
    ∀ p, bo_lookup (backoffs b') p =
      if decide (p = (topic, peer) ∧ ¬ lasts (now + time) (bo_lookup (backoffs b) p))
      then Some ((now + time)%N,
        N.to_nat ((N.of_nat (heartbeat_index b) + bo_offset b time) mod N.of_nat (length (backoffs_by_heartbeat b))))
      else bo_lookup (backoffs b) p.
Proof.
  intros Hinv Hfit Hend. pose proof Hinv as [Hi Hn Hs Hl He]. unfold BackoffStorage_update_backoff.
  rewrite instant_add_lt by lia. cbn [mbind outcome_bind].
  set (L := length (backoffs_by_heartbeat b)).
  assert (default ∅ (backoffs b !! topic) !! peer = bo_lookup (backoffs b) (topic, peer)) as ->.
  { unfold bo_lookup. simpl. by destruct (backoffs b !! topic). }
  pose proof (insert_backoff_spec b topic peer time now Hinv Hfit Hend) as Hins. fold L in Hins.
  destruct (bo_lookup (backoffs b) (topic, peer)) as [[backoff index]|] eqn:E.
  - destruct (decide (backoff < now + time)%N) as [Hlt|Hge].
    + edestruct (Hins (alter (λ s, s ∖ {[(topic, peer)]}) index (backoffs_by_heartbeat b))) as (b' & Hb & Hi' & Hc & Hx & Hlk).
      * apply length_alter.
      * intros i s p Hi'. destruct (decide (i = index)) as [->|Hne].
        -- rewrite list_lookup_alter_eq in Hi'. apply fmap_Some in Hi' as (s0 & Hs0 & ->). split.
           ++ intros [Hp Hp']%elem_of_difference. split; [set_solver|by eapply Hs].
           ++ intros [Hp (t & Ht)]. destruct (Hl p t index Ht) as (s' & Hs' & Hp'). set_solver.
        -- rewrite list_lookup_alter_ne in Hi' by done. split.
           ++ intros Hp. destruct (Hs i s p Hi' Hp) as [t Ht]. split; [|eauto]. intros ->. congruence.
           ++ intros [Hp (t & Ht)]. destruct (Hl p t i Ht) as (s' & Hs' & Hp'). congruence.
      * exists b'. split_and!; try done. intros p. rewrite Hlk. apply decide_ext. split; [|naive_solver].
        intros ->. split; [done|]. rewrite E. simpl. lia.
    + eexists. split; [done|]. assert (is_Some (backoffs b !! topic)) as Ht.
      { unfold bo_lookup in E. simpl in E. by destruct (backoffs b !! topic). }
      split_and!; [|done|done|].
      * split; simpl; [done|done| | |]; intros *; rewrite bo_lookup_touch by done; [eauto|eauto|apply He].
      * intros p. simpl. rewrite bo_lookup_touch by done. case_decide as Hd; [|done]. destruct Hd as [-> Hd].
        exfalso. apply Hd. rewrite E. simpl. lia.
  - edestruct (Hins (backoffs_by_heartbeat b)) as (b' & Hb & Hi' & Hc & Hx & Hlk); [done| |].
    + intros i s p Hi'. split.
      * intros Hp. destruct (Hs i s p Hi' Hp) as [t Ht]. split; [|eauto]. intros ->. congruence.
      * intros [Hp (t & Ht)]. destruct (Hl p t i Ht) as (s' & Hs' & Hp'). congruence.
    + exists b'. split_and!; try done. intros p. rewrite Hlk. apply decide_ext. split; [|naive_solver].
      intros ->. split; [done|]. rewrite E. simpl. tauto.
Qed.

Lemma retain_turn_spec slack now bs s p :
  (∀ t i, bo_lookup bs p = Some (t, i) → (t + slack < instant_end)%N) →
  ∃ bs' s', retain_turn slack now (bs, s) p = Ret (bs', s') ∧
    (∀ q, bo_lookup bs' q = if decide (q = p ∧ over slack now (bo_lookup bs q)) then None else bo_lookup bs q) ∧
    (∀ q, q ∈ s' ↔ q ∈ s ∧ ¬ (q = p ∧ over slack now (bo_lookup bs q))).
Proof.
  intros Hend. unfold retain_turn. cbn [fst snd]. rewrite get_backoff_time_lookup, <-surjective_pairing.
  assert (over slack now (bo_lookup bs p) ∨ ∃ t i, bo_lookup bs p = Some (t, i) ∧ (now < t + slack)%N) as [Ho|(t & i & E & Hlt)].
  { destruct (bo_lookup bs p) as [[t i]|]; simpl; [|by left]. destruct (decide (t + slack ≤ now)%N); [by left|].
    right. eexists _, _. split; [done|lia]. }
  - exists (remove_backoff bs p), (s ∖ {[p]}). split_and!.
    + destruct (bo_lookup bs p) as [[t i]|]; simpl in *; [|done].
      rewrite instant_add_lt by by eapply Hend. cbn. by rewrite bool_decide_eq_false_2 by lia.
    + intros q. rewrite bo_lookup_remove. destruct (decide (q = p)) as [->|]; [by rewrite decide_True|].
      by rewrite decide_False by naive_solver.
    + intros q. destruct (decide (q = p)) as [->|]; set_solver.
  - exists bs, s. split_and!.
    + rewrite E. cbn. rewrite instant_add_lt by by eapply Hend. cbn. by rewrite bool_decide_eq_true_2.
    + intros q. case_decide as Hd; [|done]. destruct Hd as [-> Ho]. rewrite E in Ho. simpl in Ho. lia.
    + intros q. split; [|naive_solver]. intros Hq. split; [done|]. intros [-> Ho]. rewrite E in Ho. simpl in Ho. lia.
Qed.

Lemma retain_spec slack now l bs s :
  (∀ q t i, bo_lookup bs q = Some (t, i) → (t + slack < instant_end)%N) →
  ∃ bs' s', for_each (retain_turn slack now) (bs, s) l = Ret (bs', s') ∧
    (∀ q, bo_lookup bs' q = if decide (q ∈ l ∧ over slack now (bo_lookup bs q)) then None else bo_lookup bs q) ∧
    (∀ q, q ∈ s' ↔ q ∈ s ∧ ¬ (q ∈ l ∧ over slack now (bo_lookup bs q))).
Proof.
  revert bs s. induction l as [|p l IH]; intros bs s Hend; cbn [for_each].
  { exists bs, s. split_and!; [done| |set_solver]. intros q. case_decide as Hd; [|done]. by destruct Hd as [[]%elem_of_nil _]. }
  destruct (retain_turn_spec slack now bs s p (Hend p)) as (bs1 & s1 & -> & Hbs & Hs). cbn [mbind outcome_bind].
  destruct (IH bs1 s1) as (bs' & s' & -> & IH1 & IH2).
  { intros q t i. rewrite Hbs. case_decide; [done|apply Hend]. }
  exists bs', s'. split_and!; [done| |]; intros q.
  - rewrite IH1, Hbs. destruct (decide (q = p ∧ _)) as [[-> Ho]|Hn].
    + rewrite (decide_True (P := p ∈ p :: l ∧ _)) by set_solver. by destruct (decide _).
    + apply decide_ext. set_solver.
  - rewrite IH2, Hs, Hbs. destruct (decide (q = p ∧ _)) as [[-> Ho]|Hn]; set_solver.
Qed.

Section runs.
Hypothesis iter_elements : ∀ s, iter s ≡ₚ elements s.

(** What a heartbeat leaves for every topic and peer. *)
Lemma heartbeat_spec b now :
  bo_inv b → (bo_slack b < duration_end)%N →
  ∃ b', BackoffStorage_heartbeat b now = Ret b' ∧ bo_inv b' ∧ same_config b b' ∧
    heartbeat_index b' = (heartbeat_index b + 1) `mod` length (backoffs_by_heartbeat b) ∧
    ∀ p, bo_lookup (backoffs b') p =
      if decide (snd <$> bo_lookup (backoffs b) p = Some (heartbeat_index b) ∧
        over (heartbeat_interval b * backoff_slack b) now (bo_lookup (backoffs b) p))
      then None else bo_lookup (backoffs b) p.
Proof.
  intros [Hi Hn Hs Hl He] Hslack. unfold BackoffStorage_heartbeat.
  destruct (lookup_lt_is_Some_2 _ _ Hi) as [s Hcur]. rewrite Hcur, duration_mul_lt by done. cbn [mbind outcome_bind].
  destruct (retain_spec (heartbeat_interval b * backoff_slack b) now (iter s) (backoffs b) s He) as (bs & s' & -> & Hbs & Hset).
  cbn [mbind outcome_bind]. rewrite length_insert, decide_False by lia.
  assert (∀ p, p ∈ iter s ↔ snd <$> bo_lookup (backoffs b) p = Some (heartbeat_index b)) as Hin.
  { intros p. rewrite iter_elements, elem_of_elements. split.
    - intros Hp. by destruct (Hs _ _ _ Hcur Hp) as [t ->].
    - intros Hp. destruct (bo_lookup (backoffs b) p) as [[t i]|] eqn:E; [|done]. injection Hp as ->.
      destruct (Hl _ _ _ E) as (? & ? & ?). by simplify_eq. }
  assert (∀ p, bo_lookup bs p =
    if decide (snd <$> bo_lookup (backoffs b) p = Some (heartbeat_index b) ∧
      over (heartbeat_interval b * backoff_slack b) now (bo_lookup (backoffs b) p)) then None else bo_lookup (backoffs b) p) as Hlk.
  { intros p. rewrite Hbs. apply decide_ext. by rewrite Hin. }
  eexists. split; [done|]. split_and!; [|unfold same_config; simpl; by rewrite length_insert|done|exact Hlk].
  split; cbn [backoffs backoffs_by_heartbeat heartbeat_index heartbeat_interval]; rewrite ?length_insert; [|done| | |].
  - apply Nat.mod_upper_bound. lia.
  - intros i s1 p Hi1 Hp. rewrite Hlk. apply list_lookup_insert_Some in Hi1 as [(<- & <- & _)|[Hne Hi1]].
    + apply Hset in Hp as [Hp Hnot]. rewrite Hin in Hnot. rewrite decide_False by done. by eapply Hs.
    + destruct (Hs _ _ _ Hi1 Hp) as [t Ht]. rewrite decide_False; [eauto|]. rewrite Ht. simpl. naive_solver.
  - intros p t i. rewrite Hlk. case_decide as Hd; [done|]. intros Hp. destruct (Hl p t i Hp) as (s1 & Hs1 & Hps).
    destruct (decide (i = heartbeat_index b)) as [->|Hne].
    + exists s'. split; [by apply list_lookup_insert_eq|]. apply Hset. rewrite Hin. simplify_eq. done.
    + exists s1. by rewrite list_lookup_insert_ne.
  - intros p t i. rewrite Hlk. case_decide; [done|apply He].
Qed.

(** The durations an operation uses fit: the sums with which the code computes are before
    the end of the clock, and the slack is a duration. *)
Definition op_fits (b : BackoffStorage) (op : bo_op * N) : Prop :=
  match op.1 with
  | BoUpdate _ _ time => time_fits b time ∧ (op.2 + time + bo_slack b < instant_end)%N
  | BoHeartbeat => (bo_slack b < duration_end)%N
  end.

Lemma op_fits_same_config b b' op : same_config b b' → op_fits b op → op_fits b' op.
Proof.
  intros (Hl & Hi & Hsl). unfold op_fits. destruct op as [[topic peer time|] now]; simpl;
    unfold time_fits, bo_offset, bo_slack; by rewrite ?Hl, Hi, Hsl.
Qed.

Lemma same_config_trans b1 b2 b3 : same_config b1 b2 → same_config b2 b3 → same_config b1 b3.
Proof. intros (? & ? & ?) (? & ? & ?). split_and!; congruence. Qed.

(** What an operation leaves for a topic and peer, and the slot it makes current. *)
Definition bo_after (op : bo_op) (now : N) (b : BackoffStorage) (p : pair) : option (N * nat) :=
  let o := bo_lookup (backoffs b) p in
  match op with
  | BoUpdate topic peer time =>
      if decide (p = (topic, peer) ∧ ¬ lasts (now + time) o)
      then Some ((now + time)%N,
        N.to_nat ((N.of_nat (heartbeat_index b) + bo_offset b time) mod N.of_nat (length (backoffs_by_heartbeat b))))
      else o
  | BoHeartbeat =>
      if decide (snd <$> o = Some (heartbeat_index b) ∧ over (heartbeat_interval b * backoff_slack b) now o) then None else o
  end.

Definition index_after (op : bo_op) (b : BackoffStorage) : nat :=
  match op with
  | BoUpdate _ _ _ => heartbeat_index b
  | BoHeartbeat => (heartbeat_index b + 1) `mod` length (backoffs_by_heartbeat b)
  end.

Lemma bo_apply_spec op now b :
  bo_inv b → op_fits b (op, now) →
  ∃ b', bo_apply op now b = Ret b' ∧ bo_inv b' ∧ same_config b b' ∧ heartbeat_index b' = index_after op b ∧
    ∀ p, bo_lookup (backoffs b') p = bo_after op now b p.
Proof.
  intros Hi Hf. destruct op as [topic peer time|]; [destruct Hf; by apply update_backoff_spec|by apply heartbeat_spec].
Qed.

Lemma bo_run_cons op now ops b :
  bo_inv b → Forall (op_fits b) ((op, now) :: ops) →
  ∃ b', bo_run ((op, now) :: ops) b = bo_run ops b' ∧ bo_inv b' ∧ same_config b b' ∧ Forall (op_fits b') ops ∧
    heartbeat_index b' = index_after op b ∧ ∀ p, bo_lookup (backoffs b') p = bo_after op now b p.
Proof.
  intros Hi [Hf Hfs]%Forall_cons. destruct (bo_apply_spec op now b Hi Hf) as (b' & Hb & Hi' & Hc & Hx & Hl).
  exists b'. simpl. rewrite Hb. split_and!; try done.
  eapply Forall_impl; [exact Hfs|]. intros o. by apply op_fits_same_config.
Qed.

Lemma bo_run_returns ops b :
  bo_inv b → Forall (op_fits b) ops → ∃ b', bo_run ops b = Ret b' ∧ bo_inv b' ∧ same_config b b'.
Proof.
  revert b. induction ops as [|[op now] ops IH]; intros b Hi Hf; [by exists b|].
  destruct (bo_run_cons op now ops b Hi Hf) as (b1 & -> & Hi1 & Hc1 & Hf1 & _).
  destruct (IH b1 Hi1 Hf1) as (b2 & Hr & Hi2 & Hc2). exists b2. split_and!; [done|done|by eapply same_config_trans].
Qed.

Lemma bo_run_app ops1 ops2 b : bo_run (ops1 ++ ops2) b = (b ← bo_run ops1 b; bo_run ops2 b).
Proof.
  revert b. induction ops1 as [|[op now] ops1 IH]; intros b; [done|]. simpl.
  destruct (bo_apply op now b); [apply IH|done].
Qed.

Lemma BackoffStorage_new_inv prune interval slack b :
  BackoffStorage_new prune interval slack = Ret b →
  bo_inv b ∧ (∀ p, bo_lookup (backoffs b) p = None) ∧ heartbeat_interval b = interval ∧ backoff_slack b = slack ∧
  length (backoffs_by_heartbeat b) = N.to_nat (((prune + interval - 1) `div` interval) mod 2 ^ 64 + slack + 1).
Proof.
  unfold BackoffStorage_new, BackoffStorage_heartbeats. case_decide as Hz; [done|]. cbn [mbind outcome_bind].
  unfold usize_add. repeat (case_decide; [|done]; cbn [mbind outcome_bind]). intros [= <-].
  assert (∀ p, bo_lookup (∅ : gmap TopicHash (gmap PeerId (N * nat))) p = None) as He.
  { intros p. unfold bo_lookup. by rewrite lookup_empty. }
  split_and!; [split|done|done|done|]; cbn [backoffs backoffs_by_heartbeat heartbeat_index heartbeat_interval];
    rewrite ?length_replicate; [clear; rewrite N2Nat.inj_add; apply Nat.add_pos_r; lia|clear - Hz; lia| |by intros p t i; rewrite He|by intros p t i; rewrite He|done].
  intros i s p [-> _]%lookup_replicate Hp. set_solver.
Qed.

(** A backoff once recorded lasts, while no heartbeat comes after its slack. *)
Lemma bo_run_lasts ops now b b' x topic peer :
  bo_inv b → Forall (op_fits b) ops → Forall (λ o, (o.2 ≤ now)%N) ops → bo_run ops b = Ret b' →
  (now < x + heartbeat_interval b * backoff_slack b)%N →
  lasts x (bo_lookup (backoffs b) (topic, peer)) → lasts x (bo_lookup (backoffs b') (topic, peer)).
Proof.
  revert b. induction ops as [|[op t] ops IH]; intros b Hi Hf Ht Hr Hx Hl; [by injection Hr as <-|].
  destruct (bo_run_cons op t ops b Hi Hf) as (b1 & Hb & Hi1 & (_ & Hint & Hsl) & Hf1 & _ & Hlk). rewrite Hb in Hr.
  apply Forall_cons in Ht as [Ht Hts]. simpl in Ht. apply (IH b1); try done; [by rewrite Hint, Hsl|].
  rewrite Hlk. unfold bo_after. destruct op as [topic' peer' time|]; (case_decide as Hd; [|done]); destruct Hd as [_ Hd];
    destruct (bo_lookup (backoffs b) (topic, peer)) as [[y i]|]; simpl in *; lia.
Qed.

(** Nothing but updates makes backoffs. *)
Lemma bo_run_from ops b b' p y i :
  bo_inv b → Forall (op_fits b) ops → bo_run ops b = Ret b' → bo_lookup (backoffs b') p = Some (y, i) →
  (fst <$> bo_lookup (backoffs b) p = Some y) ∨ ∃ time t, (BoUpdate p.1 p.2 time, t) ∈ ops ∧ y = (t + time)%N.
Proof.
  revert b. induction ops as [|[op t] ops IH]; intros b Hi Hf Hr Hp.
  { injection Hr as <-. left. by rewrite Hp. }
  destruct (bo_run_cons op t ops b Hi Hf) as (b1 & Hb & Hi1 & _ & Hf1 & _ & Hlk). rewrite Hb in Hr.
  destruct (IH b1 Hi1 Hf1 Hr Hp) as [Hy|(time & t' & Hin & Hy)]; [|right; exists time, t'; split; [by right|done]].
  rewrite Hlk in Hy. unfold bo_after in Hy. destruct op as [topic peer time|]; case_decide as Hd; try done; try (by left).
  destruct Hd as [-> _]. injection Hy as <-. right. exists time, t. split; [by left|done].
Qed.


(** The instants of the heartbeats of a sequence. *)
Definition heartbeat_times (ops : list (bo_op * N)) : list N :=
  omap (λ o, match o.1 with BoHeartbeat => Some o.2 | BoUpdate _ _ _ => None end) ops.

Definition updates_peer (topic : TopicHash) (peer : PeerId) (op : bo_op * N) : Prop :=
  ∃ time, op.1 = BoUpdate topic peer time.

(** What remains to be done for a backoff that is put [off] slots ahead, [j] heartbeats later. *)
Definition released_in (b : BackoffStorage) (p : pair) (x : N) (left : nat) : Prop :=
  bo_lookup (backoffs b) p = None ∨
  bo_lookup (backoffs b) p = Some (x, (heartbeat_index b + left) `mod` length (backoffs_by_heartbeat b)).

Lemma bo_run_released ops b b' topic peer x left :
  bo_inv b → Forall (op_fits b) ops → bo_run ops b = Ret b' →
  Forall (λ o, ¬ updates_peer topic peer o) ops →
  left < length (heartbeat_times ops) →
  (∀ k now, heartbeat_times ops !! k = Some now → left ≤ k → (x + heartbeat_interval b * backoff_slack b ≤ now)%N) →
  released_in b (topic, peer) x left →
  bo_lookup (backoffs b') (topic, peer) = None.
Proof.
  intros Hi Hf Hr Hu.
  assert (∀ ops b, bo_inv b → Forall (op_fits b) ops → bo_run ops b = Ret b' → Forall (λ o, ¬ updates_peer topic peer o) ops →
    bo_lookup (backoffs b) (topic, peer) = None → bo_lookup (backoffs b') (topic, peer) = None) as Hnone.
  { clear - iter_elements. induction ops as [|[op t] ops IH]; intros b Hi Hf Hr Hu Hn; [by injection Hr as <-|].
    destruct (bo_run_cons op t ops b Hi Hf) as (b1 & Hb & Hi1 & _ & Hf1 & _ & Hlk). rewrite Hb in Hr.
    apply Forall_cons in Hu as [Hu Hus]. apply (IH b1); try done. rewrite Hlk. unfold bo_after. rewrite Hn.
    destruct op as [topic' peer' time|]; (case_decide as Hd; [|done]); [|done]. exfalso. apply Hu.
    destruct Hd as [[= <- <-] _]. by exists time. }
  revert b left Hi Hf Hr. induction ops as [|[op t] ops IH]; intros b left Hi Hf Hr Hlt Htm Hrel; [simpl in Hlt; lia|].
  destruct (bo_run_cons op t ops b Hi Hf) as (b1 & Hb & Hi1 & (Hlen & Hint & Hsl) & Hf1 & Hx & Hlk). rewrite Hb in Hr.
  pose proof (bo_index b Hi) as HL.
  apply Forall_cons in Hu as [Hu Hus]. destruct Hrel as [Hn|Hs].
  { apply (Hnone ((op, t) :: ops) b); [done|done|by rewrite Hb|by constructor|done]. }
  specialize (Hlk (topic, peer)). unfold bo_after in Hlk. rewrite Hs in Hlk. destruct op as [topic' peer' time|].
  - apply (IH Hus b1 left Hi1 Hf1 Hr Hlt); [by rewrite Hint, Hsl|]. right.
    simpl in Hx. rewrite Hx, Hlen, Hlk. rewrite decide_False; [done|]. intros [[= <- <-] _]. apply Hu. by exists time.
  - simpl in Hlt, Htm, Hx. destruct left as [|left].
    + apply (Hnone ops b1); try done. rewrite Hlk, Nat.add_0_r, Nat.mod_small by lia.
      rewrite decide_True; [done|]. split; [done|]. simpl. by apply (Htm 0).
    + apply (IH Hus b1 left Hi1 Hf1 Hr); [simpl in Hlt; lia| |].
      * intros k now Hk Hle. rewrite Hint, Hsl. apply (Htm (S k)); [done|lia].
      * unfold released_in. rewrite Hx, Hlen, Hlk. case_decide; [by left|right]. do 2 f_equal.
        rewrite Nat.Div0.add_mod_idemp_l. f_equal. lia.
Qed.

(** A backoff is released on time: a backoff of length [time], at most the
    prune backoff the storage was made for, that is recorded at [t] after any
    sequence of operations and is longer than the one recorded before, is gone after
    [⌈time / interval⌉ + slack + 1] heartbeats, if it is not renewed and the [k]th
    of these heartbeats is not earlier than [t + k * interval]. *)
Theorem BackoffStorage_releases_on_time prune interval slack b ops1 b1 topic peer time t ops2 :
  BackoffStorage_new prune interval slack = Ret b →
  Forall (op_fits b) (ops1 ++ (BoUpdate topic peer time, t) :: ops2) →
  bo_run ops1 b = Ret b1 →
  (∀ x, BackoffStorage_get_backoff_time b1 topic peer = Some x → (x < t + time)%N) →
  (time ≤ prune)%N → (prune + interval < 2 ^ 64)%N →
  Forall (λ o, ¬ updates_peer topic peer o) ops2 →
  (∀ k now, heartbeat_times ops2 !! k = Some now → (t + N.of_nat k * interval ≤ now)%N) →
  ((time + interval - 1) `div` interval + slack < N.of_nat (length (heartbeat_times ops2)))%N →
  ∃ b', bo_run (ops1 ++ (BoUpdate topic peer time, t) :: ops2) b = Ret b' ∧
    BackoffStorage_is_backoff_with_slack b' topic peer = false.
Proof.
  intros Hnew Hf Hr1 Hlonger Hprune Hfit Hu Htm Hcount.
  destruct (BackoffStorage_new_inv _ _ _ _ Hnew) as (Hi & _ & Hint & Hsl & Hlen).
  destruct (bo_run_returns _ b Hi Hf) as (b' & Hr & Hi' & _). exists b'. split; [done|].
  apply Forall_app in Hf as [Hf1 Hf2]. destruct (bo_run_returns ops1 b Hi Hf1) as (b1' & Hr1' & Hi1 & Hc1).
  rewrite Hr1 in Hr1'. injection Hr1' as <-. rewrite bo_run_app, Hr1 in Hr.
  assert (Forall (op_fits b1) ((BoUpdate topic peer time, t) :: ops2)) as Hf2'.
  { eapply Forall_impl; [exact Hf2|]. intros o. by apply op_fits_same_config. }
  destruct (bo_run_cons _ _ ops2 b1 Hi1 Hf2') as (b2 & Hb2 & Hi2 & Hc2 & Hf3 & Hx & Hlk).
  destruct (same_config_trans _ _ _ Hc1 Hc2) as (Hlen2 & Hint2 & Hsl2).
  pose proof Hc1 as (Hlen1 & Hint1 & Hsl1).
  assert (interval ≠ 0%N) as Hnz by (pose proof (bo_interval b Hi); lia).
  set (h := ((time + interval - 1) `div` interval)%N) in *.
  assert (time ≤ h * interval)%N as Hceil.
  { pose proof (N.mul_succ_div_gt (time + interval - 1) interval Hnz). unfold h. lia. }
  assert (h + slack < N.of_nat (length (backoffs_by_heartbeat b)))%N as HoffL.
  { rewrite Hlen, N2Nat.id, N.mod_small.
    - assert (h ≤ (prune + interval - 1) `div` interval)%N by (apply N.Div0.div_le_mono; lia). lia.
    - eapply N.le_lt_trans; [apply N.Div0.div_le_upper_bound with (q := (prune + interval - 1)%N)|]; [nia|lia]. }
  rewrite is_backoff_lookup. apply bool_decide_eq_false. rewrite <-eq_None_not_Some.
  apply (bo_run_released ops2 b2 b' topic peer (t + time) (N.to_nat (h + slack))); try done.
  - by rewrite <-Hb2.
  - lia.
  - intros k now Hk Hle. rewrite Hint2, Hsl2, Hint, Hsl. specialize (Htm k now Hk).
    assert ((h + slack) * interval ≤ N.of_nat k * interval)%N by (apply N.mul_le_mono_r; lia). lia.
  - right. simpl in Hx. rewrite Hlk, Hx, Hlen2. unfold bo_after. rewrite decide_True.
    + do 2 f_equal. rewrite Hlen1. unfold bo_offset. rewrite Hint1, Hsl1, Hint, Hsl. fold h.
      rewrite N2Nat.inj_mod, N2Nat.inj_add, !Nat2N.id. done.
    + split; [done|]. specialize (Hlonger). unfold BackoffStorage_get_backoff_time in Hlonger.
      rewrite get_backoff_time_lookup in Hlonger. destruct (bo_lookup (backoffs b1) (topic, peer)) as [[y i]|]; [|by intros []].
      specialize (Hlonger y eq_refl). simpl. lia.
Qed.
End runs.
End backoff.

(** ** Examples *)

Lemma elements_iter (s : gset (nat * nat)) : elements s ≡ₚ elements s.
Proof. done. Qed.

(** An interval of 10, a slack of one heartbeat: a backoff of 25 recorded at 5. *)
Definition example_storage : BackoffStorage (TopicHash := nat) (PeerId := nat) := mkBackoff ∅ (replicate 5 ∅) 0 10 1.

Lemma example_storage_new : BackoffStorage_new 30 10 1 = Ret example_storage.
Proof. vm_compute. reflexivity. Qed.


Lemma BackoffStorage_releases_on_time_witness :
  ∃ b', bo_run elements ([] ++ (BoUpdate 1 2 25, 5%N) :: [(BoHeartbeat, 10%N); (BoHeartbeat, 20%N); (BoHeartbeat, 30%N);
      (BoHeartbeat, 40%N); (BoHeartbeat, 50%N)]) example_storage = Ret b' ∧
    BackoffStorage_is_backoff_with_slack b' 1 2 = false.
Proof.
  apply (BackoffStorage_releases_on_time elements elements_iter 30 10 1 example_storage [] example_storage 1 2 25 5).
  - exact example_storage_new.
  - repeat constructor.
  - reflexivity.
  - intros x Hx. vm_compute in Hx. discriminate.
  - vm_compute. discriminate.
  - vm_compute. reflexivity.
  - repeat constructor; by intros [time Ht].
  - intros k now Hk. do 5 (destruct k as [|k]; [injection Hk as <-; vm_compute; discriminate|]). discriminate.
  - vm_compute. reflexivity.
Defined.

(** A backoff whose end is a valid instant, but not with the slack, is recorded, and
    the heartbeat that looks at it panics. *)
Example late_backoff_panics :
  let r := bo_run elements [(BoUpdate 1 2 (instant_end - 25), 20%N)] example_storage in
  match r with Ret _ => True | Panic => False end ∧
  (r ≫= bo_run elements (replicate 5 (BoHeartbeat, 30%N))) = Panic.
Proof. vm_compute. by split. Qed.
