(* ===== verification/GossipMcache.v ===== *)
(** * The message cache of gossipsub

    [protocols/gossipsub/src/mcache.rs]: the messages of the last heartbeats, with a
    history of their ids by heartbeat.  The history is indexed from the newest
    heartbeat; [shift] drops the messages of the oldest. *)

From S2P Require Import Prelude.
From stdpp Require Import fin_maps fin_sets.

Section mcache.
Context {MessageId TopicHash PeerId : Type} `{Countable MessageId} `{Countable TopicHash} `{Countable PeerId}.

Record RawGossipsubMessage : Type := mkRaw {
  source : option PeerId;
  data : list byte;
  sequence_number : option N;
  topic : TopicHash;
  signature : option (list byte);
  key : option (list byte);
  validated : bool;
}.

Record CacheEntry : Type := mkCacheEntry {
  mid : MessageId;
  ce_topic : TopicHash;
}.

Record MessageCache : Type := mkMessageCache {
  msgs : gmap MessageId (RawGossipsubMessage * gset PeerId);
  iwant_counts : gmap MessageId (gmap PeerId N);
  history : list (list CacheEntry);
  gossip : nat;
}.

Definition MessageCache_new (gossip history_capacity : nat) : MessageCache :=
  mkMessageCache ∅ ∅ (replicate history_capacity []) gossip.

(** [history[0]] panics if the history has no capacity. *)
Definition MessageCache_put (c : MessageCache) (message_id : MessageId) (msg : RawGossipsubMessage) :
    outcome (bool * MessageCache) :=
  match msgs c !! message_id with
  | Some _ => Ret (false, c)
  | None =>
      let cache_entry := mkCacheEntry message_id (topic msg) in
      match history c with
      | [] => Panic
      | first :: rest =>
          Ret (true, mkMessageCache (<[message_id := (msg, ∅)]> (msgs c)) (iwant_counts c)
            ((first ++ [cache_entry]) :: rest) (gossip c))
      end
  end.

Definition MessageCache_observe_duplicate (c : MessageCache) (message_id : MessageId) (src : PeerId) : MessageCache :=
  match msgs c !! message_id with
  | Some (message, originating_peers) =>
      if validated message then c
      else
        mkMessageCache (<[message_id := (message, {[src]} ∪ originating_peers)]> (msgs c)) (iwant_counts c)
          (history c) (gossip c)
  | None => c
  end.

Definition MessageCache_get (c : MessageCache) (message_id : MessageId) : option RawGossipsubMessage :=
  fst <$> msgs c !! message_id.

Definition MessageCache_get_with_iwant_counts (c : MessageCache) (message_id : MessageId) (peer : PeerId) :
    outcome (option (RawGossipsubMessage * N) * MessageCache) :=
  match msgs c !! message_id with
  | Some (message, _) =>
      if validated message then
        let counts := default ∅ (iwant_counts c !! message_id) in
        count ← u32_add (default 0%N (counts !! peer)) 1;
        Ret (Some (message, count),
          mkMessageCache (msgs c) (<[message_id := <[peer := count]> counts]> (iwant_counts c)) (history c) (gossip c))
      else Ret (None, c)
  | None => Ret (None, c)
  end.

Definition set_validated (m : RawGossipsubMessage) : RawGossipsubMessage :=
  mkRaw (source m) (data m) (sequence_number m) (topic m) (signature m) (key m) true.

Definition MessageCache_validate (c : MessageCache) (message_id : MessageId) :
    option (RawGossipsubMessage * gset PeerId) * MessageCache :=
  match msgs c !! message_id with
  | Some (message, known_peers) =>
      let message := set_validated message in
      (Some (message, known_peers),
       mkMessageCache (<[message_id := (message, ∅)]> (msgs c)) (iwant_counts c) (history c) (gossip c))
  | None => (None, c)
  end.

(** The closure of [filter_map]. *)
Definition gossip_entry (c : MessageCache) (t : TopicHash) (entry : CacheEntry) : option MessageId :=
  if decide (ce_topic entry = t) then
    match msgs c !! mid entry with
    | Some (msg, _) => if validated msg then Some (mid entry) else None
    | None => None
    end
  else None.

(** Slicing the history panics if it is shorter than [gossip]. *)
Definition MessageCache_get_gossip_message_ids (c : MessageCache) (t : TopicHash) : outcome (list MessageId) :=
  if decide (gossip c ≤ length (history c))
  then Ret (foldl (λ current_entries entries, current_entries ++ omap (gossip_entry c t) entries) [] (take (gossip c) (history c)))
  else Panic.

(** One turn of the loop of [shift]. *)
Definition shift_entry (ms : gmap MessageId (RawGossipsubMessage * gset PeerId) * gmap MessageId (gmap PeerId N)) (entry : CacheEntry) :
    gmap MessageId (RawGossipsubMessage * gset PeerId) * gmap MessageId (gmap PeerId N) :=
  (delete (mid entry) ms.1, delete (mid entry) ms.2).

Definition MessageCache_shift (c : MessageCache) : outcome MessageCache :=
  popped ← expect (last (history c));
  let '(ms, iw) := foldl shift_entry (msgs c, iwant_counts c) popped in
  Ret (mkMessageCache ms iw ([] :: removelast (history c)) (gossip c)).

Definition MessageCache_remove (c : MessageCache) (message_id : MessageId) :
    option (RawGossipsubMessage * gset PeerId) * MessageCache :=
  (msgs c !! message_id,
   mkMessageCache (delete message_id (msgs c)) (delete message_id (iwant_counts c)) (history c) (gossip c)).

(** ** Sequences of operations *)

Inductive mc_op : Type :=
| McPut (id : MessageId) (msg : RawGossipsubMessage)
| McObserve (id : MessageId) (src : PeerId)
| McIwant (id : MessageId) (peer : PeerId)
| McValidate (id : MessageId)
| McGossip (t : TopicHash)
| McShift
| McRemove (id : MessageId).

Inductive mc_res : Type :=
| ResBool (b : bool)
| ResUnit
| ResIwant (r : option (RawGossipsubMessage * N))
| ResMessage (r : option (RawGossipsubMessage * gset PeerId))
| ResIds (ids : list MessageId).

Definition mc_apply (op : mc_op) (c : MessageCache) : outcome (mc_res * MessageCache) :=
  match op with
  | McPut id msg => '(b, c) ← MessageCache_put c id msg; Ret (ResBool b, c)
  | McObserve id src => Ret (ResUnit, MessageCache_observe_duplicate c id src)
  | McIwant id peer => '(r, c) ← MessageCache_get_with_iwant_counts c id peer; Ret (ResIwant r, c)
  | McValidate id => let '(r, c) := MessageCache_validate c id in Ret (ResMessage r, c)
  | McGossip t => ids ← MessageCache_get_gossip_message_ids c t; Ret (ResIds ids, c)
  | McShift => c ← MessageCache_shift c; Ret (ResUnit, c)
  | McRemove id => let '(r, c) := MessageCache_remove c id in Ret (ResMessage r, c)
  end.

Fixpoint mc_run (ops : list mc_op) (c : MessageCache) : outcome (list mc_res * MessageCache) :=
  match ops with
  | [] => Ret ([], c)
  | op :: ops =>
      '(r, c) ← mc_apply op c;
      '(rs, c) ← mc_run ops c;
      Ret (r :: rs, c)
  end.

(** ** The reference: messages with their age *)

Record aged : Type := mkAged {
  a_msg : RawGossipsubMessage;
  a_peers : gset PeerId;
  a_counts : gmap PeerId N;
  a_age : nat;
}.

Definition older (capacity : nat) (e : aged) : option aged :=
  if decide (S (a_age e) < capacity) then Some (mkAged (a_msg e) (a_peers e) (a_counts e) (S (a_age e))) else None.

(** A message is gossiped if it is validated, of the topic and young. *)
Definition gossiped (g : nat) (t : TopicHash) (p : MessageId * aged) : Prop :=
  topic (a_msg p.2) = t ∧ validated (a_msg p.2) = true ∧ a_age p.2 < g.

#[local] Instance gossiped_dec g t p : Decision (gossiped g t p).
Proof. unfold gossiped. apply _. Defined.

(** The reference with capacity [n], gossiping the messages younger than [g] shifts. *)
Definition aged_apply (g n : nat) (op : mc_op) (m : gmap MessageId aged) : outcome (mc_res * gmap MessageId aged) :=
  match op with
  | McPut id msg =>
      match m !! id with
      | Some _ => Ret (ResBool false, m)
      | None => Ret (ResBool true, <[id := mkAged msg ∅ ∅ 0]> m)
      end
  | McObserve id src =>
      match m !! id with
      | Some e =>
          if validated (a_msg e) then Ret (ResUnit, m)
          else Ret (ResUnit, <[id := mkAged (a_msg e) ({[src]} ∪ a_peers e) (a_counts e) (a_age e)]> m)
      | None => Ret (ResUnit, m)
      end
  | McIwant id peer =>
      match m !! id with
      | Some e =>
          if validated (a_msg e) then
            count ← u32_add (default 0%N (a_counts e !! peer)) 1;
            Ret (ResIwant (Some (a_msg e, count)),
              <[id := mkAged (a_msg e) (a_peers e) (<[peer := count]> (a_counts e)) (a_age e)]> m)
          else Ret (ResIwant None, m)
      | None => Ret (ResIwant None, m)
      end
  | McValidate id =>
      match m !! id with
      | Some e =>
          Ret (ResMessage (Some (set_validated (a_msg e), a_peers e)),
            <[id := mkAged (set_validated (a_msg e)) ∅ (a_counts e) (a_age e)]> m)
      | None => Ret (ResMessage None, m)
      end
  | McGossip t => Ret (ResIds (map_to_list (filter (gossiped g t) m)).*1, m)
  | McShift => Ret (ResUnit, omap (older n) m)
  | McRemove id => Ret (ResMessage ((λ e, (a_msg e, a_peers e)) <$> m !! id), delete id m)
  end.

Fixpoint aged_run (g n : nat) (ops : list mc_op) (m : gmap MessageId aged) : outcome (list mc_res * gmap MessageId aged) :=
  match ops with
  | [] => Ret ([], m)
  | op :: ops =>
      '(r, m) ← aged_apply g n op m;
      '(rs, m) ← aged_run g n ops m;
      Ret (r :: rs, m)
  end.

(** An id is not put again once it has been removed.  Gossipsub puts only messages
    that its duplicate cache accepts, which remembers an id for longer. *)
Fixpoint no_reput (removed : gset MessageId) (ops : list mc_op) : Prop :=
  match ops with
  | [] => True
  | McPut id _ :: ops => (id ∉ removed) ∧ no_reput removed ops
  | McRemove id :: ops => no_reput ({[id]} ∪ removed) ops
  | _ :: ops => no_reput removed ops
  end.

#[local] Instance no_reput_dec removed ops : Decision (no_reput removed ops).
Proof. revert removed. induction ops as [|[] ops IH]; simpl; intros removed; apply _. Defined.

(** ** The simulation *)

Record mc_rel (n : nat) (removed : gset MessageId) (c : MessageCache) (m : gmap MessageId aged) : Prop := {
  mc_msgs id : msgs c !! id = (λ e, (a_msg e, a_peers e)) <$> m !! id;
  mc_counts id : default ∅ (iwant_counts c !! id) = default ∅ (a_counts <$> m !! id);
  mc_length : length (history c) = n;
  mc_nodup : NoDup (mid <$> mjoin (history c));
  mc_listed id e : m !! id = Some e →
    ∃ es, history c !! a_age e = Some es ∧ mkCacheEntry id (topic (a_msg e)) ∈ es;
  mc_known i es ent : history c !! i = Some es → ent ∈ es →
    match m !! mid ent with
    | Some e => a_age e = i ∧ ce_topic ent = topic (a_msg e)
    | None => mid ent ∈ removed
    end;
}.

(** Results agree up to the order of the ids to gossip. *)
Definition res_equiv (r r' : mc_res) : Prop :=
  match r, r' with
  | ResIds ids, ResIds ids' => ids ≡ₚ ids'
  | _, _ => r = r'
  end.

Definition removed_by (op : mc_op) (removed : gset MessageId) : gset MessageId :=
  match op with McRemove id => {[id]} ∪ removed | _ => removed end.

Definition outcome_rel {A B} (P : A → B → Prop) (x : outcome A) (y : outcome B) : Prop :=
  match x, y with Ret a, Ret b => P a b | Panic, Panic => True | _, _ => False end.

Definition step_rel (n : nat) (removed : gset MessageId) (x : mc_res * MessageCache) (y : mc_res * gmap MessageId aged) : Prop :=
  res_equiv x.1 y.1 ∧ mc_rel n removed x.2 y.2.

(** Changing a message in place, whatever is changed but its topic and age. *)
Lemma mc_rel_update n removed c m id e msg peers counts iw :
  mc_rel n removed c m → m !! id = Some e → topic msg = topic (a_msg e) →
  default ∅ (iw !! id) = counts → (∀ id', id' ≠ id → iw !! id' = iwant_counts c !! id') →
  mc_rel n removed (mkMessageCache (<[id := (msg, peers)]> (msgs c)) iw (history c) (gossip c))
    (<[id := mkAged msg peers counts (a_age e)]> m).
Proof.
  intros [Hm Hc Hl Hn Hli Hk] He Htop Hiw Hiw'. split; cbn [msgs iwant_counts history]; [| |done|done| |].
  - intros id'. destruct (decide (id' = id)) as [->|]; [by rewrite !lookup_insert_eq|by rewrite !lookup_insert_ne by done].
  - intros id'. destruct (decide (id' = id)) as [->|]; [by rewrite lookup_insert_eq|].
    rewrite lookup_insert_ne by done. by rewrite Hiw'.
  - intros id' x [[<- <-]|[_ Hx]]%lookup_insert_Some; [|by apply Hli]. simpl. rewrite Htop. by apply Hli.
  - intros i es ent Hi Hent. specialize (Hk i es ent Hi Hent). destruct (decide (mid ent = id)) as [E|].
    + subst id. rewrite lookup_insert_eq. rewrite He in Hk. simpl. by rewrite Htop.
    + by rewrite lookup_insert_ne.
Qed.

Lemma mc_put_sim n removed c m id msg :
  0 < n → mc_rel n removed c m → id ∉ removed → m !! id = None →
  ∃ c', MessageCache_put c id msg = Ret (true, c') ∧ gossip c' = gossip c ∧ mc_rel n removed c' (<[id := mkAged msg ∅ ∅ 0]> m).
Proof.
  intros Hpos [Hm Hc Hl Hn Hli Hk] Hid Hnone. unfold MessageCache_put. rewrite (Hm id), Hnone. simpl.
  destruct (history c) as [|first rest] eqn:Eh; [simpl in Hl; lia|]. eexists. split; [done|]. split; [done|].
  split; cbn [msgs iwant_counts history]; [| |done| | |].
  - intros id'. destruct (decide (id' = id)) as [->|]; [by rewrite !lookup_insert_eq|by rewrite !lookup_insert_ne by done].
  - intros id'. destruct (decide (id' = id)) as [->|]; [|by rewrite lookup_insert_ne by done].
    rewrite lookup_insert_eq, Hc, Hnone. done.
  - assert (mid <$> mjoin ((first ++ [mkCacheEntry id (topic msg)]) :: rest) ≡ₚ id :: (mid <$> mjoin (first :: rest))) as ->.
    { simpl. rewrite <-app_assoc, !fmap_app. simpl. by rewrite <-Permutation_middle. }
    constructor; [|done]. intros (ent & -> & (es & Hent & Hes)%list_elem_of_join)%list_elem_of_fmap.
    apply list_elem_of_lookup_1 in Hes as [i Hi]. specialize (Hk i es ent Hi Hent). by rewrite Hnone in Hk.
  - intros id' e [[<- <-]|[_ He]]%lookup_insert_Some; [eexists; split; [done|simpl; set_solver]|].
    destruct (Hli id' e He) as (es & Hes & Hin). destruct (a_age e) as [|i]; simpl in *; [|eauto].
    injection Hes as ->. eexists. split; [done|]. set_solver.
  - intros i es ent Hi Hent. destruct i as [|i]; simpl in Hi.
    + injection Hi as <-. apply elem_of_app in Hent as [Hent| ->%list_elem_of_singleton]; [|by simpl; rewrite lookup_insert_eq].
      specialize (Hk 0 first ent eq_refl Hent). destruct (decide (mid ent = id)) as [E|]; [rewrite E, Hnone in Hk; done|].
      by rewrite lookup_insert_ne.
    + specialize (Hk (S i) es ent Hi Hent). destruct (decide (mid ent = id)) as [E|]; [rewrite E, Hnone in Hk; done|].
      by rewrite lookup_insert_ne.
Qed.

Lemma shift_entries_spec l ms iw id :
  (foldl shift_entry (ms, iw) l).1 !! id = (if decide (id ∈ mid <$> l) then None else ms !! id) ∧
  (foldl shift_entry (ms, iw) l).2 !! id = (if decide (id ∈ mid <$> l) then None else iw !! id).
Proof.
  revert ms iw. induction l as [|ent l IH]; intros ms iw; [done|].
  cbn [foldl]. unfold shift_entry at 2 4. cbn [fst snd]. destruct (IH (delete (mid ent) ms) (delete (mid ent) iw)) as [-> ->].
  rewrite fmap_cons. destruct (decide (id ∈ mid <$> l)); [by rewrite !decide_True by (by right)|].
  destruct (decide (id = mid ent)) as [->|].
  - rewrite !lookup_delete_eq, !decide_True by (by left). done.
  - rewrite !lookup_delete_ne by done. by rewrite !decide_False by (by intros [?|?]%elem_of_cons).
Qed.

Lemma mc_shift_sim n removed c m :
  0 < n → mc_rel n removed c m →
  ∃ c', MessageCache_shift c = Ret c' ∧ gossip c' = gossip c ∧ mc_rel n removed c' (omap (older n) m).
Proof.
  intros Hpos [Hm Hc Hl Hn Hli Hk]. unfold MessageCache_shift.
  destruct (exists_last (l := history c)) as (init & popped & Eh); [by intros E; rewrite E in Hl; simpl in Hl; lia|].
  rewrite Eh in *. rewrite last_snoc, removelast_last. cbn [expect mbind outcome_bind].
  rewrite length_app in Hl. simpl in Hl. assert (length init = n - 1) as Hinit by lia.
  pose proof (shift_entries_spec popped (msgs c) (iwant_counts c)) as Hsh.
  destruct (foldl _ _ _) as [ms iw]. cbn [fst snd] in Hsh. eexists. split; [done|]. split; [done|].
  assert (∀ i es, init !! i = Some es → (init ++ [popped]) !! i = Some es) as Hin by (intros; by apply lookup_app_l_Some).
  assert ((init ++ [popped]) !! (n - 1) = Some popped) as Hlast by (rewrite <-Hinit; by apply list_lookup_middle).
  assert (∀ id e, m !! id = Some e → id ∈ mid <$> popped ↔ a_age e = n - 1) as Hpop.
  { intros id e He. split.
    - intros (ent & -> & Hent)%list_elem_of_fmap. specialize (Hk _ _ _ Hlast Hent). rewrite He in Hk. by destruct Hk.
    - intros Ha. destruct (Hli id e He) as (es & Hes & Hent). rewrite Ha, Hlast in Hes. injection Hes as <-.
      apply list_elem_of_fmap. eexists. by split; [|exact Hent]. }
  assert (∀ id e, m !! id = Some e → a_age e < n) as Hage.
  { intros id e He. destruct (Hli id e He) as (es & Hes & _). apply lookup_lt_Some in Hes. rewrite length_app in Hes. simpl in Hes. lia. }
  assert (∀ id, omap (older n) m !! id = if decide (id ∈ mid <$> popped) then None else
    (λ e, mkAged (a_msg e) (a_peers e) (a_counts e) (S (a_age e))) <$> m !! id) as Ho.
  { intros id. rewrite lookup_omap. destruct (m !! id) as [e|] eqn:E; simpl; [|by case_decide].
    specialize (Hpop id e E). specialize (Hage id e E). unfold older.
    destruct (decide (S (a_age e) < n)), (decide (id ∈ mid <$> popped)) as [Hp|Hp]; try done; [apply Hpop in Hp; lia|].
    exfalso. apply Hp, Hpop. lia. }
  split; cbn [msgs iwant_counts history].
  - intros id. destruct (Hsh id) as [-> _]. rewrite Ho, Hm. case_decide; [done|]. by destruct (m !! id).
  - intros id. destruct (Hsh id) as [_ ->]. rewrite Ho. case_decide; [done|]. rewrite Hc. by destruct (m !! id).
  - simpl. lia.
  - simpl. rewrite join_app, fmap_app in Hn. by apply NoDup_app in Hn as [? _].
  - intros id e'. rewrite Ho. case_decide as Hd; [done|]. intros (e & He & ->)%fmap_Some. simpl.
    destruct (Hli id e He) as (es & Hes & Hent). exists es. split; [|done]. apply lookup_app_Some in Hes as [?|[Hge _]]; [done|].
    exfalso. apply Hd, (Hpop id e He). specialize (Hage id e He). lia.
  - intros [|i] es ent; simpl; [intros [= <-] []%elem_of_nil|]. intros Hi Hent. specialize (Hk i es ent (Hin _ _ Hi) Hent).
    rewrite Ho. case_decide as Hd.
    + destruct (m !! mid ent) as [e|] eqn:E; [|done]. apply (Hpop _ _ E) in Hd. apply lookup_lt_Some in Hi. lia.
    + destruct (m !! mid ent) as [e|]; simpl; [|done]. destruct Hk as [-> ->]. done.
Qed.

Lemma foldl_app_omap {A B} (f : A → option B) (ls : list (list A)) (acc : list B) :
  foldl (λ cur es, cur ++ omap f es) acc ls = acc ++ omap f (mjoin ls).
Proof.
  revert acc. induction ls as [|l ls IH]; intros acc; simpl; [by rewrite app_nil_r|].
  by rewrite IH, omap_app, app_assoc.
Qed.

Lemma mc_gossip_sim n removed c m t :
  gossip c ≤ n → mc_rel n removed c m →
  ∃ ids, MessageCache_get_gossip_message_ids c t = Ret ids ∧ ids ≡ₚ (map_to_list (filter (gossiped (gossip c) t) m)).*1.
Proof.
  intros Hg [Hm Hc Hl Hn Hli Hk]. unfold MessageCache_get_gossip_message_ids. rewrite decide_True by lia.
  eexists. split; [done|]. rewrite foldl_app_omap. simpl. apply NoDup_Permutation.
  - assert (omap (gossip_entry c t) (mjoin (take (gossip c) (history c))) `sublist_of` (mid <$> mjoin (history c))) as Hsub.
    { rewrite <-(take_drop (gossip c) (history c)) at 2. rewrite join_app, fmap_app. apply sublist_inserts_r.
      generalize (mjoin (take (gossip c) (history c))). clear. induction l as [|ent l IH]; simpl; [constructor|].
      destruct (gossip_entry c t ent) as [i|] eqn:E; [|by constructor].
      assert (i = mid ent) as -> by (unfold gossip_entry in E; repeat case_match; congruence). by constructor. }
    by eapply sublist_NoDup.
  - apply NoDup_fst_map_to_list.
  - intros id. rewrite list_elem_of_omap, list_elem_of_fmap. split.
    + intros (ent & (es & Hent & Hes)%list_elem_of_join & Hge). apply elem_of_take in Hes as (i & Hi & Hlt).
      specialize (Hk i es ent Hi Hent). unfold gossip_entry in Hge. case_decide as Ht; [|done]. rewrite Hm in Hge.
      destruct (m !! mid ent) as [e|] eqn:E; simpl in Hge; [|done]. destruct (validated (a_msg e)) eqn:Ev; [|done].
      injection Hge as <-. exists (mid ent, e). split; [done|]. apply elem_of_map_to_list, map_lookup_filter_Some.
      split; [done|]. destruct Hk as [Ha Htop]. unfold gossiped. simpl. split_and!; [congruence|done|lia].
    + intros ([id' e] & -> & Hin). apply elem_of_map_to_list, map_lookup_filter_Some in Hin as [He (Htop & Hv & Ha)]. simpl in *.
      destruct (Hli id' e He) as (es & Hes & Hent). eexists. split.
      * apply list_elem_of_join. exists es. split; [exact Hent|]. apply elem_of_take. eauto.
      * unfold gossip_entry. simpl. rewrite decide_True by done. rewrite Hm, He. simpl. by rewrite Hv.
Qed.

Lemma mc_remove_sim n removed c m id :
  mc_rel n removed c m → mc_rel n ({[id]} ∪ removed) (MessageCache_remove c id).2 (delete id m).
Proof.
  intros [Hm Hc Hl Hn Hli Hk]. split; cbn [MessageCache_remove msgs iwant_counts history snd]; [| |done|done| |].
  - intros id'. destruct (decide (id' = id)) as [->|]; [by rewrite !lookup_delete_eq|by rewrite !lookup_delete_ne by done].
  - intros id'. destruct (decide (id' = id)) as [->|]; [by rewrite !lookup_delete_eq|by rewrite !lookup_delete_ne by done].
  - intros id' e [_ He]%lookup_delete_Some. by apply Hli.
  - intros i es ent Hi Hent. specialize (Hk i es ent Hi Hent). destruct (decide (mid ent = id)) as [E|].
    + subst id. rewrite lookup_delete_eq. set_solver.
    + rewrite lookup_delete_ne by done. destruct (m !! mid ent); [done|set_solver].
Qed.

(** The part of [no_reput] that concerns one operation. *)
Definition not_removed (removed : gset MessageId) (op : mc_op) : Prop :=
  match op with McPut id _ => id ∉ removed | _ => True end.

Lemma mc_apply_sim n removed c m op :
  0 < n → gossip c ≤ n → mc_rel n removed c m → not_removed removed op →
  outcome_rel (λ x y, step_rel n (removed_by op removed) x y ∧ gossip x.2 = gossip c)
    (mc_apply op c) (aged_apply (gossip c) n op m).
Proof.
  intros Hpos Hg Hrel Hnr. pose proof (mc_msgs _ _ _ _ Hrel) as Hm.
  destruct op as [id msg|id src|id peer|id|t| |id]; cbn [mc_apply aged_apply removed_by]; simpl in Hnr.
  - destruct (m !! id) as [e|] eqn:E.
    + unfold MessageCache_put. rewrite Hm, E. done.
    + destruct (mc_put_sim n removed c m id msg Hpos Hrel Hnr E) as (c' & -> & Hgc & Hr). done.
  - unfold MessageCache_observe_duplicate. rewrite Hm. destruct (m !! id) as [e|] eqn:E; simpl; [|done].
    destruct (validated (a_msg e)); [done|]. split; [|done]. split; [done|]. simpl.
    apply mc_rel_update; try done.
    by rewrite (mc_counts _ _ _ _ Hrel), E.
  - unfold MessageCache_get_with_iwant_counts. rewrite Hm. destruct (m !! id) as [e|] eqn:E; simpl; [|done].
    destruct (validated (a_msg e)); [|done]. rewrite (mc_counts _ _ _ _ Hrel), E. simpl.
    destruct (u32_add (default 0%N (a_counts e !! peer)) 1) as [count|]; [|done]. simpl. split; [|done]. split; [done|]. simpl.
    rewrite <-(insert_id (msgs c) id (a_msg e, a_peers e)) by (by rewrite Hm, E).
    apply mc_rel_update; try done.
    + by rewrite lookup_insert_eq.
    + intros id' Hne. by rewrite lookup_insert_ne.
  - unfold MessageCache_validate. rewrite Hm. destruct (m !! id) as [e|] eqn:E; simpl; [|done].
    split; [|done]. split; [done|]. simpl.
    apply mc_rel_update; try done.
    by rewrite (mc_counts _ _ _ _ Hrel), E.
  - destruct (mc_gossip_sim n removed c m t Hg Hrel) as (ids & -> & Hids). done.
  - destruct (mc_shift_sim n removed c m Hpos Hrel) as (c' & -> & Hgc & Hr). done.
  - split; [|done]. split; [simpl; by rewrite Hm|]. by apply mc_remove_sim.
Qed.

Lemma no_reput_cons removed op ops :
  no_reput removed (op :: ops) ↔ not_removed removed op ∧ no_reput (removed_by op removed) ops.
Proof. destruct op; simpl; tauto. Qed.

Lemma mc_run_sim n removed c m ops :
  0 < n → gossip c ≤ n → mc_rel n removed c m → no_reput removed ops →
  outcome_rel (λ x y, Forall2 res_equiv x.1 y.1 ∧ ∃ removed', mc_rel n removed' x.2 y.2)
    (mc_run ops c) (aged_run (gossip c) n ops m).
Proof.
  intros Hpos. revert removed c m. induction ops as [|op ops IH]; intros removed c m Hg Hrel Hnr.
  { split; [constructor|eauto]. }
  apply no_reput_cons in Hnr as [Hop Hnr]. simpl.
  pose proof (mc_apply_sim n removed c m op Hpos Hg Hrel Hop) as Hs.
  destruct (mc_apply op c) as [[r c1]|], (aged_apply (gossip c) n op m) as [[r' m1]|]; simpl in Hs; try done.
  destruct Hs as [[Hr Hrel1] Hg1]. cbn [fst snd mbind outcome_bind] in *.
  pose proof (IH (removed_by op removed) c1 m1 ltac:(lia) Hrel1 Hnr) as Hi. rewrite Hg1 in Hi.
  destruct (mc_run ops c1) as [[rs c2]|], (aged_run (gossip c) n ops m1) as [[rs' m2]|]; simpl in Hi; try done.
  destruct Hi as [Hrs Hrem]. simpl. split; [by constructor|done].
Qed.

Lemma mc_rel_new g n : mc_rel n ∅ (MessageCache_new g n) ∅.
Proof.
  assert (∀ k, mjoin (replicate k ([] : list CacheEntry)) = []) as Hj by (induction k; done).
  split; simpl.
  - intros id. by rewrite !lookup_empty.
  - intros id. by rewrite !lookup_empty.
  - apply length_replicate.
  - rewrite Hj. constructor.
  - intros id e. by rewrite lookup_empty.
  - intros i es ent [-> _]%lookup_replicate []%elem_of_nil.
Qed.

(** What the cache answers for a message is what the reference has. *)
Definition mc_content (c : MessageCache) (m : gmap MessageId aged) : Prop :=
  ∀ id, MessageCache_get c id = a_msg <$> m !! id.

(** [C24] A message is kept for [history_capacity] shifts and gossiped for [gossip]
    of them: on every sequence of operations in which no removed id is put again, a
    new cache panics exactly if the reference does, which it does only if a peer asks
    2^32 times for the same message, and otherwise answers every operation as the
    reference does, up to the order of the ids to gossip.  In the reference every
    message has an age that [shift] increments; it is dropped at age
    [history_capacity], and [get_gossip_message_ids] lists, once, each validated
    message of the topic that is younger than [gossip]. *)
Theorem MessageCache_run_refines g n ops :
  0 < n → g ≤ n → no_reput ∅ ops →
  outcome_rel (λ x y, Forall2 res_equiv x.1 y.1 ∧ mc_content x.2 y.2)
    (mc_run ops (MessageCache_new g n)) (aged_run g n ops ∅).
Proof.
  intros Hpos Hg Hnr. pose proof (mc_run_sim n ∅ (MessageCache_new g n) ∅ ops Hpos Hg (mc_rel_new g n) Hnr) as Hs.
  change (gossip (MessageCache_new g n)) with g in Hs.
  destruct (mc_run ops (MessageCache_new g n)) as [[rs c]|], (aged_run g n ops ∅) as [[rs' m]|]; try done.
  destruct Hs as [Hrs [removed Hrel]]. split; [done|]. intros id. unfold MessageCache_get. simpl.
  simpl in Hrel. rewrite (mc_msgs _ _ _ _ Hrel). by destruct (m !! id).
Qed.
End mcache.

(** ** Examples *)

Definition example_message (validated : bool) : RawGossipsubMessage (TopicHash := nat) (PeerId := nat) :=
  mkRaw (Some 1) [] (Some 7%N) 3 None None validated.

Definition example_ops : list (mc_op (MessageId := nat) (TopicHash := nat) (PeerId := nat)) :=
  [McPut 5 (example_message false); McObserve 5 9; McValidate 5; McGossip 3; McShift; McGossip 3; McIwant 5 9; McShift; McIwant 5 9].

Lemma MessageCache_run_refines_witness :
  match mc_run example_ops (MessageCache_new 1 2) with
  | Ret (rs, _) =>
      Forall2 res_equiv rs [ResBool true; ResUnit; ResMessage (Some (example_message true, {[9]})); ResIds [5]; ResUnit;
        ResIds []; ResIwant (Some (example_message true, 1%N)); ResUnit; ResIwant None]
  | Panic => False
  end.
Proof.
  pose proof (MessageCache_run_refines 1 2 example_ops ltac:(lia) ltac:(lia)) as Hr.
  assert (no_reput ∅ example_ops) as Hn by (vm_compute; split; [intros Hin; inversion Hin|exact I]).
  specialize (Hr Hn). assert (∃ m, aged_run 1 2 example_ops ∅ =
    Ret ([ResBool true; ResUnit; ResMessage (Some (example_message true, {[9]})); ResIds [5]; ResUnit;
        ResIds []; ResIwant (Some (example_message true, 1%N)); ResUnit; ResIwant None], m)) as [m Hm].
  { eexists. vm_compute. reflexivity. }
  rewrite Hm in Hr. destruct (mc_run example_ops (MessageCache_new 1 2)) as [[rs c]|]; [|exact Hr]. exact (proj1 Hr).
Defined.
