(* ===== verification/Float64.v ===== *)
(** * Floating-point numbers

    [f64], as the binary floating-point numbers of the Standard Library's
    specification of IEEE 754 with 53 bits of precision, and what the code does with
    them: comparisons, sums, products and conversions from and to [usize]. *)

From S2P Require Import Prelude.
From Stdlib Require Export Floats.SpecFloat.

Abbreviation f64 := spec_float.

Definition f64_zero : f64 := S754_zero false.
(** The literal [0.5]. *)
Definition f64_half : f64 := S754_finite false 4503599627370496 (-53).

(** The operators on [f64]; comparisons with a NaN are false. *)
Definition f64_lt (x y : f64) : bool := SFltb x y.
Definition f64_le (x y : f64) : bool := SFleb x y.
Definition f64_add (x y : f64) : f64 := SFadd 53 1024 x y.
Definition f64_mul (x y : f64) : f64 := SFmul 53 1024 x y.
Definition f64_sub (x y : f64) : f64 := SFsub 53 1024 x y.
Definition f64_div (x y : f64) : f64 := SFdiv 53 1024 x y.
Definition f64_eq (x y : f64) : bool := SFeqb x y.

(** [partial_cmp] with [unwrap_or(Ordering::Equal)], as the test of a sort. *)
Definition f64_cmp_le (x y : f64) : bool :=
  match SFcompare x y with Some Gt => false | _ => true end.

(** [n as f64] and [x as usize]: the latter truncates and saturates. *)
Definition f64_of_N (n : N) : f64 := binary_normalize 53 1024 (Z.of_N n) 0 false.

Definition f64_to_usize (x : f64) : N :=
  match x with
  | S754_finite false m e => N.min (Z.to_N (Z.shiftl (Zpos m) e)) (2 ^ 64 - 1)
  | S754_infinity false => 2 ^ 64 - 1
  | _ => 0
  end.

Definition f64_one : f64 := f64_of_N 1.

(** [Duration::as_secs_f64], of a duration in nanoseconds. *)
Definition as_secs_f64 (d : N) : f64 :=
  f64_add (f64_of_N (d / 10 ^ 9)) (f64_div (f64_of_N (d mod 10 ^ 9)) (f64_of_N (10 ^ 9))).

(** A number that is not negative, or no number. *)
Definition f64_nonneg (x : f64) : bool := negb (f64_lt x f64_zero).

Lemma f64_nonneg_sign x :
  f64_nonneg x = true ↔
  match x with S754_infinity true | S754_finite true _ _ => False | _ => True end.
Proof. destruct x as [[]|[]| |[]]; cbn; naive_solver. Qed.

Lemma f64_le_nonneg x : f64_le f64_zero x = true → f64_nonneg x = true.
Proof. by destruct x as [[]|[]| |[]]. Qed.

Lemma binary_round_aux_nonneg mx ex lx : f64_nonneg (binary_round_aux 53 1024 false mx ex lx) = true.
Proof.
  unfold binary_round_aux. destruct (shr_fexp _ _ mx ex lx) as [mrs e].
  destruct (shr_fexp _ _ _ _ _) as [mrs' e']. destruct (shr_m mrs'); [done| |done]. by destruct (Z.leb _ _).
Qed.

Lemma f64_add_nonneg x y : f64_nonneg x = true → f64_nonneg y = true → f64_nonneg (f64_add x y) = true.
Proof.
  rewrite (f64_nonneg_sign x), (f64_nonneg_sign y).
  destruct x as [[]|[]| |[] mx ex], y as [[]|[]| |[] my ey]; try done; intros _ _.
  unfold f64_add, SFadd. cbn [cond_Zopp]. rewrite <-Pos2Z.inj_add. unfold binary_normalize, binary_round.
  destruct (shl_align _ _ (fexp _ _ _)) as [mz ez]. apply binary_round_aux_nonneg.
Qed.

Lemma f64_mul_nonneg x y : f64_nonneg x = true → f64_nonneg y = true → f64_nonneg (f64_mul x y) = true.
Proof.
  rewrite (f64_nonneg_sign x), (f64_nonneg_sign y).
  destruct x as [[]|[]| |[] mx ex], y as [[]|[]| |[] my ey]; try done; intros _ _.
  apply binary_round_aux_nonneg.
Qed.

(** What exceeds a number that is not negative is not negative either. *)
Lemma f64_lt_nonneg x y : f64_nonneg x = true → f64_lt x y = true → f64_le f64_zero y = true.
Proof.
  rewrite (f64_nonneg_sign x). destruct x as [[]|[]| |[]], y as [[]|[]| |[]]; done.
Qed.

Lemma f64_square_nonneg x : f64_nonneg (f64_mul x x) = true.
Proof. destruct x as [[]|[]| |[] m e]; try done; apply binary_round_aux_nonneg. Qed.

Lemma f64_of_N_nonneg n : f64_nonneg (f64_of_N n) = true.
Proof.
  unfold f64_of_N, binary_normalize. destruct n as [|p]; [done|]. cbn [Z.of_N]. unfold binary_round.
  destruct (shl_align _ _ (fexp _ _ _)) as [mz ez]. apply binary_round_aux_nonneg.
Qed.

(** What is not below a positive number is not negative. *)
Lemma f64_not_lt_nonneg x z : f64_lt f64_zero z = true → f64_lt x z = false → f64_nonneg x = true.
Proof. rewrite (f64_nonneg_sign x). destruct x as [[]|[]| |[]], z as [[]|[]| |[]]; done. Qed.
