(* ===== verification/GossipRpc.v ===== *)
(** * The messages of gossipsub

    The types of [protocols/gossipsub/src/types.rs], their conversion into the
    messages of [rpc.proto], and [fragment_message] of [behaviour.rs], which cuts a
    message into pieces that are to fit the transmission limit.  The encoded lengths
    are computed by generated code: they are the methods of a class.  A [TopicHash] is
    its string and a [MessageId] its bytes, so these are the same in the protobuf
    messages. *)

From S2P Require Import Prelude Float64 GossipMcache.
From stdpp Require Import fin_maps fin_sets.

Inductive PeerKind : Type := Gossipsubv1_1 | Gossipsub_kind | Floodsub | NotSupported.

#[export] Instance PeerKind_eq_dec : EqDecision PeerKind.
Proof. solve_decision. Defined.

Inductive GossipsubSubscriptionAction : Type := Subscribe | Unsubscribe.

#[export] Instance GossipsubSubscriptionAction_eq_dec : EqDecision GossipsubSubscriptionAction.
Proof. solve_decision. Defined.

Inductive PublishError : Type := Duplicate | SigningError | InsufficientPeers | MessageTooLarge | TransformFailed.

Section rpc.
Context {MessageId TopicHash PeerId : Type}.
Context `{!EqDecision MessageId} `{!EqDecision TopicHash} `{!EqDecision PeerId}.

Record GossipsubSubscription : Type := mkSubscription {
  action : GossipsubSubscriptionAction;
  sub_topic_hash : TopicHash;
}.

Record PeerInfo : Type := mkPeerInfo { info_peer_id : option PeerId }.

Inductive GossipsubControlAction : Type :=
| IHave (topic_hash : TopicHash) (message_ids : list MessageId)
| IWant (message_ids : list MessageId)
| Graft (topic_hash : TopicHash)
| Prune (topic_hash : TopicHash) (peers : list PeerInfo) (backoff : option N).

Record GossipsubRpc : Type := mkGossipsubRpc {
  messages : list (RawGossipsubMessage (TopicHash := TopicHash) (PeerId := PeerId));
  rpc_subscriptions : list GossipsubSubscription;
  control_msgs : list GossipsubControlAction;
}.

(** ** The messages of [rpc.proto] *)

Record PbMessage : Type := mkPbMessage {
  pb_from : option (list byte);
  pb_data : option (list byte);
  pb_seqno : option (list byte);
  pb_topic : TopicHash;
  pb_signature : option (list byte);
  pb_key : option (list byte);
}.

Record SubOpts : Type := mkSubOpts {
  so_subscribe : option bool;
  so_topic_id : option TopicHash;
}.

Record ControlIHave : Type := mkControlIHave {
  ih_topic_id : option TopicHash;
  ih_message_ids : list MessageId;
}.

Record ControlIWant : Type := mkControlIWant { iw_message_ids : list MessageId }.

Record ControlGraft : Type := mkControlGraft { gr_topic_id : option TopicHash }.

Record PbPeerInfo : Type := mkPbPeerInfo {
  pi_peer_id : option (list byte);
  pi_signed_peer_record : option (list byte);
}.

Record ControlPrune : Type := mkControlPrune {
  pr_topic_id : option TopicHash;
  pr_peers : list PbPeerInfo;
  pr_backoff : option N;
}.

Record ControlMessage : Type := mkControl {
  ihave : list ControlIHave;
  iwant : list ControlIWant;
  graft : list ControlGraft;
  prune : list ControlPrune;
}.

Record Rpc : Type := mkRpc {
  subscriptions : list SubOpts;
  publish : list PbMessage;
  control : option ControlMessage;
}.

#[export] Instance PbMessage_eq_dec : EqDecision PbMessage.
Proof. solve_decision. Defined.
#[export] Instance SubOpts_eq_dec : EqDecision SubOpts.
Proof. solve_decision. Defined.
#[export] Instance ControlIHave_eq_dec : EqDecision ControlIHave.
Proof. solve_decision. Defined.
#[export] Instance ControlIWant_eq_dec : EqDecision ControlIWant.
Proof. solve_decision. Defined.
#[export] Instance ControlGraft_eq_dec : EqDecision ControlGraft.
Proof. solve_decision. Defined.
#[export] Instance PbPeerInfo_eq_dec : EqDecision PbPeerInfo.
Proof. solve_decision. Defined.
#[export] Instance ControlPrune_eq_dec : EqDecision ControlPrune.
Proof. solve_decision. Defined.
#[export] Instance ControlMessage_eq_dec : EqDecision ControlMessage.
Proof. solve_decision. Defined.
#[export] Instance Rpc_eq_dec : EqDecision Rpc.
Proof. solve_decision. Defined.

(** [PeerId::to_bytes] *)
Context (to_bytes : PeerId → list byte).

Definition GossipsubRpc_message (m : RawGossipsubMessage (TopicHash := TopicHash) (PeerId := PeerId)) : PbMessage :=
  mkPbMessage (to_bytes <$> source m) (Some (data m)) ((λ s, N_to_be 8 s : list byte) <$> sequence_number m)
    (topic m) (signature m) (key m).

Definition GossipsubRpc_subscription (s : GossipsubSubscription) : SubOpts :=
  mkSubOpts (Some (bool_decide (action s = Subscribe))) (Some (sub_topic_hash s)).

(** One turn of the loop over the control messages. *)
Definition GossipsubRpc_control (c : ControlMessage) (a : GossipsubControlAction) : ControlMessage :=
  match a with
  | IHave t ids => mkControl (ihave c ++ [mkControlIHave (Some t) ids]) (iwant c) (graft c) (prune c)
  | IWant ids => mkControl (ihave c) (iwant c ++ [mkControlIWant ids]) (graft c) (prune c)
  | Graft t => mkControl (ihave c) (iwant c) (graft c ++ [mkControlGraft (Some t)]) (prune c)
  | Prune t peers backoff =>
      let infos := (λ info, mkPbPeerInfo (to_bytes <$> info_peer_id info) None) <$> peers in
      mkControl (ihave c) (iwant c) (graft c) (prune c ++ [mkControlPrune (Some t) infos backoff])
  end.

Definition GossipsubRpc_into_protobuf (rpc : GossipsubRpc) : Rpc :=
  let control := foldl GossipsubRpc_control (mkControl [] [] [] []) (control_msgs rpc) in
  mkRpc (GossipsubRpc_subscription <$> rpc_subscriptions rpc) (GossipsubRpc_message <$> messages rpc)
    (if decide (control_msgs rpc = []) then None else Some control).
End rpc.

Arguments mkSubscription {TopicHash}.
Arguments mkRpc {MessageId TopicHash}.
Arguments GossipsubSubscription : clear implicits.
Arguments GossipsubControlAction : clear implicits.
Arguments GossipsubRpc : clear implicits.
Arguments PeerInfo : clear implicits.
Arguments Rpc : clear implicits.
Arguments PbMessage : clear implicits.
Arguments SubOpts : clear implicits.
Arguments ControlMessage : clear implicits.
Arguments ControlIHave : clear implicits.
Arguments ControlIWant : clear implicits.
Arguments ControlGraft : clear implicits.
Arguments ControlPrune : clear implicits.

(** [prost::Message::encoded_len] of the generated types. *)
Class EncodedLen (MessageId TopicHash : Type) : Type := {
  len_rpc : Rpc MessageId TopicHash → N;
  len_message : PbMessage TopicHash → N;
  len_subscription : SubOpts TopicHash → N;
  len_control : ControlMessage MessageId TopicHash → N;
  len_ihave : ControlIHave MessageId TopicHash → N;
  len_iwant : ControlIWant MessageId → N;
  len_graft : ControlGraft TopicHash → N;
  len_prune : ControlPrune TopicHash → N;
}.

Section fragment.
Context {MessageId TopicHash : Type} `{!EqDecision MessageId} `{!EqDecision TopicHash} `{!EncodedLen MessageId TopicHash}.
Context (max_transmit_size : N).

#[local] Abbreviation Rpc := (Rpc MessageId TopicHash).

Definition new_rpc : Rpc := mkRpc [] [] None.

(** [((object_size as f64) * 1.05) as usize] *)
Definition buffer_size (object_size : N) : N :=
  f64_to_usize (f64_mul (f64_of_N object_size) (S754_finite false 4728779608739021 (-52))).

(** The vector [rpc_list], which is never empty: its last element, and those before. *)
Definition rpc_list : Type := list Rpc * Rpc.

Definition create_or_add_rpc (object_size : N) (l : rpc_list) : rpc_list :=
  if decide (max_transmit_size < len_rpc l.2 + buffer_size object_size ∧ l.2 ≠ new_rpc)%N
  then (l.1 ++ [l.2], new_rpc)
  else l.

(** The macro [add_item], for a kind of items with their length and the push. *)
Definition add_item {A : Type} (len : A → N) (push : A → Rpc → Rpc) (l : rpc_list) (object : A) :
    Result rpc_list PublishError :=
  let object_size := len object in
  if decide (max_transmit_size < object_size + 2)%N then Err MessageTooLarge
  else
    let l := create_or_add_rpc object_size l in
    Ok (l.1, push object l.2).

Fixpoint add_items {A : Type} (len : A → N) (push : A → Rpc → Rpc) (l : rpc_list) (objects : list A) :
    Result rpc_list PublishError :=
  match objects with
  | [] => Ok l
  | object :: objects => l ←? add_item len push l object; add_items len push l objects
  end.

(** The loops over the control messages of one kind. *)
Definition add_controls {A : Type} (len : A → N) (push : A → Rpc → Rpc) (l : rpc_list) (objects : list A) : rpc_list :=
  foldl (λ l object, let l := create_or_add_rpc (len object) l in (l.1, push object l.2)) l objects.

Definition push_publish (m : PbMessage TopicHash) (r : Rpc) : Rpc := mkRpc (subscriptions r) (publish r ++ [m]) (control r).
Definition push_subscription (s : SubOpts TopicHash) (r : Rpc) : Rpc := mkRpc (subscriptions r ++ [s]) (publish r) (control r).

(** [control.get_or_insert_with(|| empty_control.clone())], and a push. *)
Definition on_control (f : ControlMessage MessageId TopicHash → ControlMessage MessageId TopicHash) (r : Rpc) : Rpc :=
  mkRpc (subscriptions r) (publish r) (Some (f (default (mkControl [] [] [] []) (control r)))).
Definition push_ihave x := on_control (λ c, mkControl (ihave c ++ [x]) (iwant c) (graft c) (prune c)).
Definition push_iwant x := on_control (λ c, mkControl (ihave c) (iwant c ++ [x]) (graft c) (prune c)).
Definition push_graft x := on_control (λ c, mkControl (ihave c) (iwant c) (graft c ++ [x]) (prune c)).
Definition push_prune x := on_control (λ c, mkControl (ihave c) (iwant c) (graft c) (prune c ++ [x])).

Definition fragment_message (rpc : Rpc) : Result (list Rpc) PublishError :=
  if decide (len_rpc rpc < max_transmit_size)%N then Ok [rpc]
  else
    l ←? add_items len_message push_publish ([], new_rpc) (publish rpc);
    l ←? add_items len_subscription push_subscription l (subscriptions rpc);
    let l :=
      match control rpc with
      | Some control =>
          if decide (max_transmit_size < len_control control + 2)%N then
            let l := add_controls len_ihave push_ihave l (ihave control) in
            let l := add_controls len_iwant push_iwant l (iwant control) in
            let l := add_controls len_graft push_graft l (graft control) in
            add_controls len_prune push_prune l (prune control)
          else
            let l := create_or_add_rpc (len_control control) l in
            (l.1, mkRpc (subscriptions l.2) (publish l.2) (Some control))
      | None => l
      end in
    Ok (l.1 ++ [l.2]).

(** ** What the pieces contain *)

(** The items of one kind in a message, and in a list of messages. *)
Definition controls {A} (f : ControlMessage MessageId TopicHash → list A) (r : Rpc) : list A :=
  match control r with Some c => f c | None => [] end.

Definition items {A} (f : Rpc → list A) (l : rpc_list) : list A := mjoin (f <$> l.1) ++ f l.2.

(** Two lists of messages have the same contents, in the same order. *)
Record same_contents (rs : list Rpc) (r : Rpc) : Prop := {
  same_publish : mjoin (publish <$> rs) = publish r;
  same_subscriptions : mjoin (subscriptions <$> rs) = subscriptions r;
  same_ihave : mjoin (controls ihave <$> rs) = controls ihave r;
  same_iwant : mjoin (controls iwant <$> rs) = controls iwant r;
  same_graft : mjoin (controls graft <$> rs) = controls graft r;
  same_prune : mjoin (controls prune <$> rs) = controls prune r;
}.

Lemma mjoin_cons {A} (l : list A) (ls : list (list A)) : mjoin (l :: ls) = l ++ mjoin ls.
Proof. done. Qed.

Lemma items_create {A} (f : Rpc → list A) n l : f new_rpc = [] → items f (create_or_add_rpc n l) = items f l.
Proof.
  intros Hf. unfold create_or_add_rpc, items. case_decide; [|done]. cbn [fst snd].
  by rewrite fmap_app, join_app, Hf, app_nil_r, fmap_cons, mjoin_cons, app_nil_r.
Qed.

(** Pushing to the last message adds to the items of one kind and leaves the others. *)
Lemma items_push {A B} (f : Rpc → list A) (g : B → list A) (push : B → Rpc → Rpc) l b n :
  f new_rpc = [] → (∀ r, f (push b r) = f r ++ g b) →
  items f ((create_or_add_rpc n l).1, push b (create_or_add_rpc n l).2) = items f l ++ g b.
Proof.
  intros Hn Hp. rewrite <-(items_create f n l Hn). unfold items. cbn [fst snd]. by rewrite Hp, app_assoc.
Qed.

Lemma add_items_items {A B} (f : Rpc → list A) (g : B → list A) len push l bs l' :
  f new_rpc = [] → (∀ b r, f (push b r) = f r ++ g b) →
  add_items len push l bs = Ok l' → items f l' = items f l ++ mjoin (g <$> bs).
Proof.
  intros Hn Hp. revert l. induction bs as [|b bs IH]; intros l; cbn [add_items].
  { intros [= <-]. by rewrite app_nil_r. }
  unfold add_item. case_decide; [done|]. cbn [result_try]. intros ->%IH.
  rewrite (items_push f g) by auto. by rewrite <-app_assoc, fmap_cons, mjoin_cons.
Qed.

Lemma add_controls_items {A B} (f : Rpc → list A) (g : B → list A) len push l bs :
  f new_rpc = [] → (∀ b r, f (push b r) = f r ++ g b) →
  items f (add_controls len push l bs) = items f l ++ mjoin (g <$> bs).
Proof.
  intros Hn Hp. revert l. unfold add_controls. induction bs as [|b bs IH]; intros l; cbn [foldl].
  { by rewrite app_nil_r. }
  rewrite IH. cbn zeta. rewrite (items_push f g) by auto. by rewrite <-app_assoc, fmap_cons, mjoin_cons.
Qed.

Lemma add_items_Ok {A} len (push : A → Rpc → Rpc) bs l :
  is_Some (match add_items len push l bs with Ok l => Some l | Err _ => None end) ↔
  Forall (λ b, len b + 2 ≤ max_transmit_size)%N bs.
Proof.
  revert l. induction bs as [|b bs IH]; intros l; cbn [add_items]; [by split; [constructor|eexists]|].
  unfold add_item. rewrite Forall_cons. case_decide; cbn [result_try].
  - split; [by intros []|intros [? _]; lia].
  - rewrite IH. split; [intros; split; [lia|done]|by intros []].
Qed.

Lemma add_items_Err {A} len (push : A → Rpc → Rpc) bs l e : add_items len push l bs = Err e → e = MessageTooLarge.
Proof.
  revert l. induction bs as [|b bs IH]; intros l; cbn [add_items]; [done|].
  unfold add_item. case_decide; cbn [result_try]; [by intros [= <-]|apply IH].
Qed.

Lemma mjoin_singletons {A} (l : list A) : mjoin ((λ x, [x]) <$> l) = l.
Proof. induction l as [|x l IH]; [done|]. by rewrite fmap_cons, mjoin_cons, IH. Qed.

Lemma mjoin_nils {A B} (l : list B) : mjoin ((λ _, @nil A) <$> l) = [].
Proof. induction l as [|x l IH]; [done|]. by rewrite fmap_cons, mjoin_cons, IH. Qed.

Lemma add_items_keeps {A B} (f : Rpc → list A) len (push : B → Rpc → Rpc) l bs l' :
  f new_rpc = [] → (∀ b r, f (push b r) = f r) → add_items len push l bs = Ok l' → items f l' = items f l.
Proof.
  intros Hn Hp H. rewrite (add_items_items f (λ _, []) _ _ _ _ _ Hn) by (done || (intros; by rewrite Hp, app_nil_r)).
  by rewrite mjoin_nils, app_nil_r.
Qed.

Lemma add_items_control {A} len (push : A → Rpc → Rpc) bs l l' :
  (∀ b r, control (push b r) = control r) → control l.2 = None →
  add_items len push l bs = Ok l' → control l'.2 = None.
Proof.
  intros Hp. revert l. induction bs as [|b bs IH]; intros l Hl; cbn [add_items]; [by intros [= <-]|].
  unfold add_item. case_decide; [done|]. cbn [result_try]. apply IH. cbn [snd]. rewrite Hp.
  unfold create_or_add_rpc. by case_decide.
Qed.

(** The items of one kind of control messages that a control message brings. *)
Lemma controls_push {A} (h : ControlMessage MessageId TopicHash → list A) (g : list A) c r :
  h (mkControl [] [] [] []) = [] → (∀ x, h (c x) = h x ++ g) →
  controls h (on_control c r) = controls h r ++ g.
Proof. intros H0 Hc. unfold controls, on_control. cbn [control]. rewrite Hc. destruct (control r); [done|]. cbn [default]. simpl. by rewrite H0. Qed.

(** The messages of the loops over publications and subscriptions. *)
Lemma add_plain_spec (rpc : Rpc) l l' :
  add_items len_message push_publish ([], new_rpc) (publish rpc) = Ok l →
  add_items len_subscription push_subscription l (subscriptions rpc) = Ok l' →
  items publish l' = publish rpc ∧ items subscriptions l' = subscriptions rpc ∧ control l'.2 = None ∧
  ∀ A (h : ControlMessage MessageId TopicHash → list A), items (controls h) l' = [].
Proof.
  intros H1 H2. split_and!.
  - rewrite (add_items_keeps publish len_subscription push_subscription _ _ _ eq_refl (λ _ _, eq_refl) H2).
    rewrite (add_items_items publish (λ m, [m]) len_message push_publish _ _ _ eq_refl (λ _ _, eq_refl) H1). by rewrite mjoin_singletons.
  - rewrite (add_items_items subscriptions (λ m, [m]) len_subscription push_subscription _ _ _ eq_refl (λ _ _, eq_refl) H2).
    rewrite (add_items_keeps subscriptions len_message push_publish _ _ _ eq_refl (λ _ _, eq_refl) H1). by rewrite mjoin_singletons.
  - eapply add_items_control, H2; [done|]. by eapply add_items_control, H1.
  - intros A h. rewrite (add_items_keeps (controls h) len_subscription push_subscription _ _ _ eq_refl (λ _ _, eq_refl) H2).
    by rewrite (add_items_keeps (controls h) len_message push_publish _ _ _ eq_refl (λ _ _, eq_refl) H1).
Qed.

(** The loops over the control messages. *)
Definition add_all_controls (l : rpc_list) (c : ControlMessage MessageId TopicHash) : rpc_list :=
  add_controls len_prune push_prune (add_controls len_graft push_graft
    (add_controls len_iwant push_iwant (add_controls len_ihave push_ihave l (ihave c)) (iwant c)) (graft c)) (prune c).

Lemma add_all_controls_items {A} (f : Rpc → list A) gi gw gg gp l c :
  f new_rpc = [] →
  (∀ x r, f (push_ihave x r) = f r ++ gi x) → (∀ x r, f (push_iwant x r) = f r ++ gw x) →
  (∀ x r, f (push_graft x r) = f r ++ gg x) → (∀ x r, f (push_prune x r) = f r ++ gp x) →
  items f (add_all_controls l c) =
    items f l ++ mjoin (gi <$> ihave c) ++ mjoin (gw <$> iwant c) ++ mjoin (gg <$> graft c) ++ mjoin (gp <$> prune c).
Proof.
  intros H0 H1 H2 H3 H4. unfold add_all_controls.
  rewrite (add_controls_items f gp), (add_controls_items f gg), (add_controls_items f gw), (add_controls_items f gi) by done.
  by rewrite <-!app_assoc.
Qed.

Lemma add_all_controls_plain {A} (f : Rpc → list A) l c :
  (∀ h r, f (on_control h r) = f r) → f new_rpc = [] → items f (add_all_controls l c) = items f l.
Proof.
  intros Hf H0. rewrite (add_all_controls_items f (λ _, []) (λ _, []) (λ _, []) (λ _, [])) by (done || (intros; rewrite app_nil_r; apply Hf)).
  by rewrite !mjoin_nils, app_nil_r.
Qed.

Ltac control_items := intros; apply controls_push; [done|intros; cbn; by rewrite ?app_nil_r].

Lemma add_all_controls_spec l c :
  items (controls ihave) (add_all_controls l c) = items (controls ihave) l ++ ihave c ∧
  items (controls iwant) (add_all_controls l c) = items (controls iwant) l ++ iwant c ∧
  items (controls graft) (add_all_controls l c) = items (controls graft) l ++ graft c ∧
  items (controls prune) (add_all_controls l c) = items (controls prune) l ++ prune c.
Proof.
  split_and!.
  - rewrite (add_all_controls_items _ (λ x, [x]) (λ _, []) (λ _, []) (λ _, [])) by (done || control_items).
    by rewrite !mjoin_nils, mjoin_singletons, !app_nil_r.
  - rewrite (add_all_controls_items _ (λ _, []) (λ x, [x]) (λ _, []) (λ _, [])) by (done || control_items).
    by rewrite !mjoin_nils, mjoin_singletons, !app_nil_r.
  - rewrite (add_all_controls_items _ (λ _, []) (λ _, []) (λ x, [x]) (λ _, [])) by (done || control_items).
    by rewrite !mjoin_nils, mjoin_singletons, !app_nil_r.
  - rewrite (add_all_controls_items _ (λ _, []) (λ _, []) (λ _, []) (λ x, [x])) by (done || control_items).
    by rewrite !mjoin_nils, mjoin_singletons.
Qed.

(** The items of the vector that is returned. *)
Lemma items_list {A} (f : Rpc → list A) l : mjoin (f <$> (l.1 ++ [l.2])) = items f l.
Proof. unfold items. by rewrite fmap_app, join_app, fmap_cons, mjoin_cons, app_nil_r. Qed.

(** Setting the control message of the last message, which has none. *)
Lemma items_set_control {A} (f : Rpc → list A) (x : ControlMessage MessageId TopicHash → list A) c l n :
  f new_rpc = [] → (∀ r, control r = None → f (mkRpc (subscriptions r) (publish r) (Some c)) = f r ++ x c) →
  control l.2 = None →
  let l' := create_or_add_rpc n l in
  items f (l'.1, mkRpc (subscriptions l'.2) (publish l'.2) (Some c)) = items f l ++ x c.
Proof.
  intros H0 Hf Hl. cbn zeta. rewrite <-(items_create f n l H0). unfold items. cbn [fst snd].
  rewrite Hf, app_assoc; [done|]. unfold create_or_add_rpc. by case_decide.
Qed.

(** [C38] Fragmentation neither loses, duplicates nor reorders anything: the pieces
    contain the publications, subscriptions and control messages of the message, in
    their order.  A message below the limit is sent as it is, and it is refused only
    if it is not below the limit and one of its publications or subscriptions does
    not fit. *)
Theorem fragment_message_spec (rpc : Rpc) :
  match fragment_message rpc with
  | Ok rs =>
      rs ≠ [] ∧ same_contents rs rpc ∧ ((len_rpc rpc < max_transmit_size)%N → rs = [rpc]) ∧
      ((max_transmit_size ≤ len_rpc rpc)%N →
       Forall (λ m, len_message m + 2 ≤ max_transmit_size)%N (publish rpc) ∧
       Forall (λ s, len_subscription s + 2 ≤ max_transmit_size)%N (subscriptions rpc))
  | Err e =>
      e = MessageTooLarge ∧ (max_transmit_size ≤ len_rpc rpc)%N ∧
      ¬ (Forall (λ m, len_message m + 2 ≤ max_transmit_size)%N (publish rpc) ∧
         Forall (λ s, len_subscription s + 2 ≤ max_transmit_size)%N (subscriptions rpc))
  end.
Proof.
  unfold fragment_message. case_decide as Hlt.
  { split_and!; [done| |done|lia]. split; cbn; by rewrite app_nil_r. }
  pose proof (add_items_Ok len_message push_publish (publish rpc) ([], new_rpc)) as Hok1.
  destruct (add_items len_message push_publish ([], new_rpc) (publish rpc)) as [l|e] eqn:E1; cbn [result_try].
  2:{ split_and!; [by eapply add_items_Err|lia|]. intros [[? [=]]%Hok1 _]. }
  pose proof (add_items_Ok len_subscription push_subscription (subscriptions rpc) l) as Hok2.
  destruct (add_items len_subscription push_subscription l (subscriptions rpc)) as [l'|e] eqn:E2; cbn [result_try].
  2:{ split_and!; [by eapply add_items_Err|lia|]. intros [_ [? [=]]%Hok2]. }
  destruct (add_plain_spec rpc l l' E1 E2) as (Hp & Hs & Hc & Hx). cbn zeta.
  split_and!; [by intros [_ [=]]%app_nil| |lia|intros _; split; [apply Hok1|apply Hok2]; by eexists].
  assert (∀ A (h : _ → list A), controls h rpc = match control rpc with Some c => h c | None => [] end) as Hr by done.
  destruct (control rpc) as [c|]; [case_decide|].
  - fold (add_all_controls l' c). destruct (add_all_controls_spec l' c) as (H1 & H2 & H3 & H4).
    split; by rewrite items_list, ?Hr, ?H1, ?H2, ?H3, ?H4, ?add_all_controls_plain, ?Hx.
  - split; rewrite items_list, ?Hr.
    1-2: by rewrite (items_set_control _ (λ _, [])), app_nil_r by (done || (intros; by rewrite app_nil_r)).
    all: rewrite (items_set_control _ _ c) by (done || (intros r Hr0; unfold controls; by rewrite Hr0)); by rewrite Hx.
  - split; by rewrite items_list, ?Hr, ?Hx.
Qed.
End fragment.

(** ** The lengths of the wire format *)

Section wire.
Open Scope N_scope.
#[local] Abbreviation bytes := (list byte).

(** A variable-length integer, and a field with a one-byte key whose contents have a
    length prefix. *)
Definition varint_size (n : N) : N := N.log2 n / 7 + 1.
Definition field_size (n : N) : N := 1 + varint_size n + n.
Definition sum_sizes {A} (f : A → N) (l : list A) : N := foldr (λ a n, field_size (f a) + n)%N 0%N l.
Definition opt_size {A} (f : A → N) (o : option A) : N := match o with Some a => f a | None => 0 end.
Definition bytes_size (l : bytes) : N := N.of_nat (length l).

Definition wire_message (m : PbMessage bytes) : N :=
  sum_sizes bytes_size (option_list (pb_from m) ++ option_list (pb_data m) ++ option_list (pb_seqno m) ++
    [pb_topic m] ++ option_list (pb_signature m) ++ option_list (pb_key m)).
Definition wire_subscription (s : SubOpts bytes) : N :=
  opt_size (λ _, 2%N) (so_subscribe s) + sum_sizes bytes_size (option_list (so_topic_id s)).
Definition wire_ihave (i : ControlIHave bytes bytes) : N := sum_sizes bytes_size (option_list (ih_topic_id i) ++ ih_message_ids i).
Definition wire_iwant (i : ControlIWant bytes) : N := sum_sizes bytes_size (iw_message_ids i).
Definition wire_graft (g : ControlGraft bytes) : N := sum_sizes bytes_size (option_list (gr_topic_id g)).
Definition wire_prune (p : ControlPrune bytes) : N :=
  sum_sizes bytes_size (option_list (pr_topic_id p)) +
  sum_sizes (λ i, sum_sizes bytes_size (option_list (pi_peer_id i) ++ option_list (pi_signed_peer_record i))) (pr_peers p) +
  opt_size (λ n, 1 + varint_size n)%N (pr_backoff p).
Definition wire_control (c : ControlMessage bytes bytes) : N :=
  sum_sizes wire_ihave (ihave c) + sum_sizes wire_iwant (iwant c) + sum_sizes wire_graft (graft c) + sum_sizes wire_prune (prune c).
Definition wire_rpc (r : Rpc bytes bytes) : N :=
  sum_sizes wire_subscription (subscriptions r) + sum_sizes wire_message (publish r) + sum_sizes wire_control (option_list (control r)).

#[local] Instance wire_len : EncodedLen bytes bytes := {|
  len_rpc := wire_rpc;
  len_message := wire_message;
  len_subscription := wire_subscription;
  len_control := wire_control;
  len_ihave := wire_ihave;
  len_iwant := wire_iwant;
  len_graft := wire_graft;
  len_prune := wire_prune;
|}.

(** Six subscriptions to topics of eleven bytes, with the least limit that is
    allowed.  The pieces are to stay below the limit, but the length prefixes of
    small items are more than the five percent that are reserved for them. *)
Example fragment_exceeds_limit :
  let rpc := mkRpc (replicate 6 (mkSubOpts (Some true) (Some (replicate 11 Byte.x61)))) [] None in
  fragment_message 100 rpc = Ok [rpc] ∧ len_rpc rpc = 102%N.
Proof. split; vm_compute; reflexivity. Qed.

(** The length of a single control message is not looked at: an IHAVE of ten message
    ids exceeds the limit and is sent in one piece. *)
Example fragment_keeps_large_ihave :
  let rpc := mkRpc [] [] (Some (mkControl [mkControlIHave (Some [Byte.x61]) (replicate 10 (replicate 20 Byte.x00))] [] [] [])) in
  fragment_message 100 rpc = Ok [rpc] ∧ len_rpc rpc = 229%N.
Proof. split; vm_compute; reflexivity. Qed.
End wire.
