(* ===== verification/GossipFilter.v ===== *)
(** * The subscription filters of gossipsub

    [protocols/gossipsub/src/subscription_filter.rs]: the trait
    [TopicSubscriptionFilter] with its default methods, and its implementers.  Sets of
    references to subscriptions are sets of subscriptions. *)

From S2P Require Import Prelude GossipRpc.
From stdpp Require Import fin_maps fin_sets strings.

#[export] Instance GossipsubSubscription_eq_dec {T} `{!EqDecision T} : EqDecision (GossipsubSubscription T).
Proof. solve_decision. Defined.

#[export] Instance GossipsubSubscription_countable {T} `{Countable T} : Countable (GossipsubSubscription T).
Proof.
  refine (inj_countable' (λ s, (bool_decide (action s = Subscribe), sub_topic_hash s))
    (λ p, mkSubscription (if p.1 : bool then Subscribe else Unsubscribe) p.2) _).
  by intros [[] t].
Defined.

(** The filters that are put on others. *)
Record MaxCountSubscriptionFilter (T : Type) : Type := mkMaxCount {
  mc_filter : T;
  max_subscribed_topics : nat;
  max_subscriptions_per_request : nat;
}.
Arguments mkMaxCount {T}.
Arguments mc_filter {T}.
Arguments max_subscribed_topics {T}.
Arguments max_subscriptions_per_request {T}.

Record CombinedSubscriptionFilters (T S : Type) : Type := mkCombined { filter1 : T; filter2 : S }.
Arguments mkCombined {T S}.
Arguments filter1 {T S}.
Arguments filter2 {T S}.

Section filters.
Context {TopicHash : Type} `{Countable TopicHash}.

#[local] Abbreviation Subscription := (GossipsubSubscription TopicHash).

(** The trait; [hash_subs] is the order in which a set is visited. *)
Class TopicSubscriptionFilter (F : Type) : Type := {
  can_subscribe : F → TopicHash → bool * F;
  allow_incoming_subscription : F → Subscription → bool * F;
  filter_incoming_subscription_set :
    (gset Subscription → list Subscription) → F → gset Subscription → gset TopicHash → Result (gset Subscription) string * F;
  filter_incoming_subscriptions :
    (gset Subscription → list Subscription) → F → list Subscription → gset TopicHash → Result (gset Subscription) string * F;
}.

(** ** The default methods *)

Definition default_allow_incoming_subscription {F} (can : F → TopicHash → bool * F) (f : F) (s : Subscription) : bool * F :=
  can f (sub_topic_hash s).

(** [retain] with a closure that uses the filter. *)
Definition default_filter_incoming_subscription_set {F} (allow : F → Subscription → bool * F)
    (hash_subs : gset Subscription → list Subscription) (f : F) (subs : gset Subscription) (current : gset TopicHash) :
    Result (gset Subscription) string * F :=
  let '(kept, f) :=
    foldl (λ st s, let '(ok, f) := allow st.2 s in (if ok : bool then st.1 else st.1 ∖ {[s]}, f)) (subs, f) (hash_subs subs) in
  (Ok kept, f).

(** One turn of the loop that removes duplicates. *)
Definition dedup_turn (m : gmap TopicHash Subscription) (s : Subscription) : gmap TopicHash Subscription :=
  match m !! sub_topic_hash s with
  | Some s' => if decide (action s' ≠ action s) then delete (sub_topic_hash s) m else m
  | None => <[sub_topic_hash s := s]> m
  end.

Definition default_filter_incoming_subscriptions {F}
    (filter_set : F → gset Subscription → gset TopicHash → Result (gset Subscription) string * F)
    (f : F) (subs : list Subscription) (current : gset TopicHash) : Result (gset Subscription) string * F :=
  filter_set f (map_img (foldl dedup_turn ∅ subs)) current.

(** A filter that only says which topics can be subscribed to. *)
Definition plain_filter {F} (can : F → TopicHash → bool * F) : TopicSubscriptionFilter F := {|
  can_subscribe := can;
  allow_incoming_subscription := default_allow_incoming_subscription can;
  filter_incoming_subscription_set := default_filter_incoming_subscription_set (default_allow_incoming_subscription can);
  filter_incoming_subscriptions hash_subs :=
    default_filter_incoming_subscriptions
      (default_filter_incoming_subscription_set (default_allow_incoming_subscription can) hash_subs);
|}.

(** ** The implementers *)

Record AllowAllSubscriptionFilter : Type := mkAllowAll {}.

#[export] Instance AllowAll_filter : TopicSubscriptionFilter AllowAllSubscriptionFilter :=
  plain_filter (λ f _, (true, f)).

Record WhitelistSubscriptionFilter : Type := mkWhitelist { whitelist : gset TopicHash }.

#[export] Instance Whitelist_filter : TopicSubscriptionFilter WhitelistSubscriptionFilter :=
  plain_filter (λ f t, (bool_decide (t ∈ whitelist f), f)).

(** The loop that counts: topics left and topics newly subscribed. *)
Definition count_subscription (current : gset TopicHash) (n : nat * nat) (s : Subscription) : nat * nat :=
  let contained := bool_decide (sub_topic_hash s ∈ current) in
  match action s with
  | Unsubscribe => if contained then (S n.1, n.2) else n
  | Subscribe => if contained then n else (n.1, S n.2)
  end.

Definition MaxCount_filter_incoming_subscriptions {T} `{!TopicSubscriptionFilter T}
    (hash_subs : gset Subscription → list Subscription) (f : MaxCountSubscriptionFilter T) (subs : list Subscription)
    (current : gset TopicHash) : Result (gset Subscription) string * MaxCountSubscriptionFilter T :=
  if decide (max_subscriptions_per_request f < length subs) then (Err "too many subscriptions per request"%string, f)
  else
    let '(r, inner) := filter_incoming_subscriptions hash_subs (mc_filter f) subs current in
    let f := mkMaxCount inner (max_subscribed_topics f) (max_subscriptions_per_request f) in
    match r with
    | Err e => (Err e, f)
    | Ok result =>
        let '(unsubscribed, new_subscribed) := foldl (count_subscription current) (0, 0) (hash_subs result) in
        if decide (max_subscribed_topics f + unsubscribed < new_subscribed + size current)
        then (Err "too many subscribed topics"%string, f)
        else (Ok result, f)
    end.

Definition MaxCount_can_subscribe {T} `{!TopicSubscriptionFilter T} (f : MaxCountSubscriptionFilter T) (t : TopicHash) :
    bool * MaxCountSubscriptionFilter T :=
  let '(b, inner) := can_subscribe (mc_filter f) t in
  (b, mkMaxCount inner (max_subscribed_topics f) (max_subscriptions_per_request f)).

#[export] Instance MaxCount_filter {T} `{!TopicSubscriptionFilter T} : TopicSubscriptionFilter (MaxCountSubscriptionFilter T) := {|
  can_subscribe := MaxCount_can_subscribe;
  allow_incoming_subscription := default_allow_incoming_subscription MaxCount_can_subscribe;
  filter_incoming_subscription_set :=
    default_filter_incoming_subscription_set (default_allow_incoming_subscription MaxCount_can_subscribe);
  filter_incoming_subscriptions := MaxCount_filter_incoming_subscriptions;
|}.

Definition Combined_can_subscribe {T S} `{!TopicSubscriptionFilter T} `{!TopicSubscriptionFilter S}
    (f : CombinedSubscriptionFilters T S) (t : TopicHash) : bool * CombinedSubscriptionFilters T S :=
  let '(b1, f1) := can_subscribe (filter1 f) t in
  if b1 : bool then
    let '(b2, f2) := can_subscribe (filter2 f) t in (b2, mkCombined f1 f2)
  else (false, mkCombined f1 (filter2 f)).

Definition Combined_filter_incoming_subscription_set {T S} `{!TopicSubscriptionFilter T} `{!TopicSubscriptionFilter S}
    (hash_subs : gset Subscription → list Subscription) (f : CombinedSubscriptionFilters T S) (subs : gset Subscription)
    (current : gset TopicHash) : Result (gset Subscription) string * CombinedSubscriptionFilters T S :=
  let '(r1, f1) := filter_incoming_subscription_set hash_subs (filter1 f) subs current in
  match r1 with
  | Err e => (Err e, mkCombined f1 (filter2 f))
  | Ok intermediate =>
      let '(r2, f2) := filter_incoming_subscription_set hash_subs (filter2 f) intermediate current in
      (r2, mkCombined f1 f2)
  end.

#[export] Instance Combined_filter {T S} `{!TopicSubscriptionFilter T} `{!TopicSubscriptionFilter S} :
    TopicSubscriptionFilter (CombinedSubscriptionFilters T S) := {|
  can_subscribe := Combined_can_subscribe;
  allow_incoming_subscription := default_allow_incoming_subscription Combined_can_subscribe;
  filter_incoming_subscription_set := Combined_filter_incoming_subscription_set;
  filter_incoming_subscriptions hash_subs :=
    default_filter_incoming_subscriptions (Combined_filter_incoming_subscription_set hash_subs);
|}.
End filters.

Arguments TopicSubscriptionFilter TopicHash {_ _} F.

(** ** What the filters guarantee *)

Section limits.
Context {TopicHash : Type} `{Countable TopicHash}.

#[local] Abbreviation Subscription := (GossipsubSubscription TopicHash).

(** What the behaviour does to the topics of a peer for one subscription, and for all
    those of a request. *)
Definition apply_subscription (topics : gset TopicHash) (s : Subscription) : gset TopicHash :=
  match action s with
  | Subscribe => {[sub_topic_hash s]} ∪ topics
  | Unsubscribe => topics ∖ {[sub_topic_hash s]}
  end.

(** The filter passes only subscriptions that it was given, duplicates removed. *)
Class NarrowingFilter (F : Type) `{!TopicSubscriptionFilter TopicHash F} : Prop := {
  filter_set_narrows hash_subs (f f' : F) subs current r :
    filter_incoming_subscription_set hash_subs f subs current = (Ok r, f') → r ⊆ subs;
  filter_narrows hash_subs (f f' : F) l current r :
    filter_incoming_subscriptions hash_subs f l current = (Ok r, f') → r ⊆ map_img (foldl dedup_turn ∅ l);
}.

Lemma default_set_narrows {F} (allow : F → Subscription → bool * F) hash_subs f f' subs (current : gset TopicHash) r :
  default_filter_incoming_subscription_set allow hash_subs f subs current = (Ok r, f') → r ⊆ subs.
Proof.
  unfold default_filter_incoming_subscription_set. generalize (hash_subs subs) as l. intros l.
  assert (∀ st : gset Subscription * F,
    (foldl (λ st s, let '(ok, f) := allow st.2 s in (if ok : bool then st.1 else st.1 ∖ {[s]}, f)) st l).1 ⊆ st.1) as Hl.
  { induction l as [|s l IH]; intros [kept g]; cbn [foldl fst snd]; [done|]. destruct (allow g s) as [[] g'].
    - apply (IH (kept, g')).
    - etrans; [apply (IH (kept ∖ {[s]}, g'))|]. set_solver. }
  specialize (Hl (subs, f)). destruct (foldl _ _ _) as [kept g]. by intros [= <- _].
Qed.

#[export] Instance plain_narrows {F} (can : F → TopicHash → bool * F) : @NarrowingFilter F (plain_filter can).
Proof.
  split; cbn.
  - intros hash_subs f f' subs current r. apply default_set_narrows.
  - intros hash_subs f f' l current r. unfold default_filter_incoming_subscriptions. apply default_set_narrows.
Qed.

#[export] Instance AllowAll_narrows : NarrowingFilter AllowAllSubscriptionFilter.
Proof. apply plain_narrows. Qed.

#[export] Instance Whitelist_narrows : NarrowingFilter (WhitelistSubscriptionFilter (TopicHash := TopicHash)).
Proof. apply plain_narrows. Qed.

#[export] Instance MaxCount_narrows {T} `{!TopicSubscriptionFilter TopicHash T} `{!NarrowingFilter T} :
  NarrowingFilter (MaxCountSubscriptionFilter T).
Proof.
  split; cbn.
  - intros hash_subs f f' subs current r. apply default_set_narrows.
  - intros hash_subs f f' l current r. unfold MaxCount_filter_incoming_subscriptions. case_decide; [done|].
    destruct (filter_incoming_subscriptions hash_subs (mc_filter f) l current) as [[r'|e] g] eqn:E; [|done].
    destruct (foldl _ _ _) as [u n]. case_decide; [done|]. intros [= -> _]. by eapply filter_narrows.
Qed.

#[export] Instance Combined_narrows {T S} `{!TopicSubscriptionFilter TopicHash T} `{!TopicSubscriptionFilter TopicHash S}
    `{!NarrowingFilter T} `{!NarrowingFilter S} : NarrowingFilter (CombinedSubscriptionFilters T S).
Proof.
  assert (∀ hash_subs (f f' : CombinedSubscriptionFilters T S) subs current r,
    Combined_filter_incoming_subscription_set hash_subs f subs current = (Ok r, f') → r ⊆ subs) as Hset.
  { intros hash_subs f f' subs current r. unfold Combined_filter_incoming_subscription_set.
    destruct (filter_incoming_subscription_set hash_subs (filter1 f) subs current) as [[r1|e] f1] eqn:E1; [|done].
    destruct (filter_incoming_subscription_set hash_subs (filter2 f) r1 current) as [r2 f2] eqn:E2.
    intros [= -> _]. etrans; [apply (filter_set_narrows _ _ _ _ _ _ E2)|apply (filter_set_narrows _ _ _ _ _ _ E1)]. }
  split; cbn; [done|]. intros hash_subs f f' l current r. unfold default_filter_incoming_subscriptions. apply Hset.
Qed.

Lemma dedup_keys l (m : gmap TopicHash Subscription) :
  map_Forall (λ t s, sub_topic_hash s = t) m → map_Forall (λ t s, sub_topic_hash s = t) (foldl dedup_turn m l).
Proof.
  revert m. induction l as [|s l IH]; intros m Hm; [done|]. cbn [foldl]. apply IH. unfold dedup_turn.
  case_match; [case_decide; [by apply map_Forall_delete|done]|]. by apply map_Forall_insert_2.
Qed.

(** Of the subscriptions that pass, no two are to one topic. *)
Lemma narrowed_topics l (r : gset Subscription) (s1 s2 : Subscription) :
  r ⊆ map_img (foldl dedup_turn ∅ l) → s1 ∈ r → s2 ∈ r → sub_topic_hash s1 = sub_topic_hash s2 → s1 = s2.
Proof.
  intros Hr H1%Hr H2%Hr Heq. apply elem_of_map_img in H1 as [t1 H1], H2 as [t2 H2].
  pose proof (dedup_keys l ∅ (map_Forall_empty _)) as Hk.
  pose proof (Hk _ _ H1) as E1. pose proof (Hk _ _ H2) as E2. simpl in E1, E2. subst t1 t2. rewrite Heq in H1.
  rewrite H1 in H2. by injection H2.
Qed.

Lemma count_subscription_size (l : list Subscription) (orig cur : gset TopicHash) n :
  NoDup (sub_topic_hash <$> l) → (∀ s, s ∈ l → sub_topic_hash s ∈ cur ↔ sub_topic_hash s ∈ orig) →
  size (foldl apply_subscription cur l) + ((foldl (count_subscription orig) n l).1 + n.2) =
  size cur + (n.1 + (foldl (count_subscription orig) n l).2).
Proof.
  revert cur n. induction l as [|s l IH]; intros cur n Hnd Hl; cbn [foldl]; [lia|].
  rewrite fmap_cons in Hnd. apply NoDup_cons in Hnd as [Hs Hnd].
  assert (∀ s', s' ∈ l → sub_topic_hash s' ∈ apply_subscription cur s ↔ sub_topic_hash s' ∈ orig) as Hl'.
  { intros s' Hs'. rewrite <-Hl by (by right). assert (sub_topic_hash s' ≠ sub_topic_hash s).
    { intros Heq. apply Hs. rewrite <-Heq. by apply list_elem_of_fmap_2. }
    unfold apply_subscription. destruct (action s); set_solver. }
  specialize (IH (apply_subscription cur s) (count_subscription orig n s) Hnd Hl').
  pose proof (Hl s (list_elem_of_here _ _)) as Hsc. revert IH.
  generalize (foldl apply_subscription (apply_subscription cur s) l). intros fin.
  generalize (foldl (count_subscription orig) (count_subscription orig n s) l). intros [a b].
  unfold apply_subscription, count_subscription. destruct (action s).
  - destruct (decide (sub_topic_hash s ∈ orig)) as [Hin|Hin].
    + rewrite bool_decide_true by done. assert ({[sub_topic_hash s]} ∪ cur = cur) as -> by set_solver. cbn. lia.
    + rewrite bool_decide_false by done. rewrite size_union, size_singleton by set_solver. cbn. lia.
  - destruct (decide (sub_topic_hash s ∈ orig)) as [Hin|Hin].
    + rewrite bool_decide_true by done. rewrite size_difference, size_singleton by set_solver.
      assert (size cur ≠ 0) by (rewrite size_non_empty_iff; set_solver). cbn. lia.
    + rewrite bool_decide_false by done. assert (cur ∖ {[sub_topic_hash s]} = cur) as -> by set_solver. cbn. lia.
Qed.

(** The counts do not depend on the order. *)
Lemma count_subscription_perm (orig : gset TopicHash) l1 l2 n :
  l1 ≡ₚ l2 → foldl (count_subscription orig) n l1 = foldl (count_subscription orig) n l2.
Proof.
  intros Hp. revert n. induction Hp as [|s l1 l2 _ IH|s1 s2 l|l1 l2 l3 _ IH1 _ IH2]; intros n; cbn [foldl]; [done|apply IH| |].
  - f_equal. unfold count_subscription. destruct (action s1), (action s2), (bool_decide (sub_topic_hash s1 ∈ orig)),
      (bool_decide (sub_topic_hash s2 ∈ orig)); done.
  - by rewrite IH1.
Qed.

Lemma dedup_elements l (m : gmap TopicHash Subscription) s :
  s ∈ (map_img (foldl dedup_turn m l) : gset Subscription) → s ∈ (map_img m : gset Subscription) ∨ s ∈ l.
Proof.
  revert m. induction l as [|x l IH]; intros m; [by left|]. cbn [foldl]. intros [Hs|Hs]%IH; [|by right; right].
  revert Hs. unfold dedup_turn. rewrite !elem_of_map_img. intros [t Ht]. case_match; [case_decide|].
  - apply lookup_delete_Some in Ht as [_ Ht]. left. by exists t.
  - left. by exists t.
  - apply lookup_insert_Some in Ht as [[_ <-]|[_ Ht]]; [right; by left|left; by exists t].
Qed.

Lemma narrowed_NoDup l (r : gset Subscription) order :
  r ⊆ map_img (foldl dedup_turn ∅ l) → order ≡ₚ elements r → NoDup (sub_topic_hash <$> order).
Proof.
  intros Hr Hp. rewrite Hp. apply NoDup_fmap_2_strong; [|apply NoDup_elements].
  intros s1 s2 H1%elem_of_elements H2%elem_of_elements. by eapply narrowed_topics.
Qed.

(** The limit of [MaxCountSubscriptionFilter] holds: if it lets the
    subscriptions of a request pass, the peer is subscribed to at most
    [max_subscribed_topics] topics once they are applied, in any order, whatever
    filter it is put on; the request has at most [max_subscriptions_per_request]
    subscriptions, and only subscriptions of the request pass. *)
Theorem MaxCount_limits {T} `{!TopicSubscriptionFilter TopicHash T} `{!NarrowingFilter T} hash_subs
    (f f' : MaxCountSubscriptionFilter T) l current r order :
  (∀ X : gset Subscription, hash_subs X ≡ₚ elements X) →
  filter_incoming_subscriptions hash_subs f l current = (Ok r, f') → order ≡ₚ elements r →
  length l ≤ max_subscriptions_per_request f ∧ (∀ s, s ∈ r → s ∈ l) ∧
  size (foldl apply_subscription current order) ≤ max_subscribed_topics f ∧ max_subscribed_topics f' = max_subscribed_topics f.
Proof.
  intros Hhash Hf Hord. pose proof (filter_narrows _ _ _ _ _ _ Hf) as Hr. revert Hf. cbn.
  unfold MaxCount_filter_incoming_subscriptions. case_decide; [done|].
  destruct (filter_incoming_subscriptions hash_subs (mc_filter f) l current) as [[r'|e] g]; [|done].
  destruct (foldl (count_subscription current) _ _) as [u n] eqn:E. case_decide as Hle; [done|]. intros [= -> <-].
  cbn [max_subscribed_topics] in *. split_and!; [lia| | |done].
  - intros s [Hs|Hs]%Hr%dedup_elements; [|done]. apply elem_of_map_img in Hs as [t Ht]. by rewrite lookup_empty in Ht.
  - pose proof (count_subscription_size order current current (0, 0) (narrowed_NoDup _ _ _ Hr Hord) (λ _ _, iff_refl _)) as Hsz.
    rewrite (count_subscription_perm current order (hash_subs r)) in Hsz by (by rewrite Hord, Hhash).
    rewrite E in Hsz. cbn in Hsz. lia.
Qed.
End limits.

(** ** Examples *)

#[local] Abbreviation subs l := ((λ t, mkSubscription Subscribe t) <$> (l : list nat)).

Lemma MaxCount_limits_witness :
  ∃ r f', filter_incoming_subscriptions elements (mkMaxCount mkAllowAll 3 5) (subs [1; 2; 1]) {[7]} = (Ok r, f') ∧
    size (foldl apply_subscription {[7]} (elements r)) ≤ 3.
Proof.
  destruct (filter_incoming_subscriptions elements (mkMaxCount mkAllowAll 3 5) (subs [1; 2; 1]) {[7]}) as [[r|e] f'] eqn:E.
  - exists r, f'. split; [done|].
    apply (MaxCount_limits elements (mkMaxCount mkAllowAll 3 5) f' (subs [1; 2; 1]) {[7]} r (elements r)); [done|exact E|done].
  - vm_compute in E. discriminate.
Defined.

(** A limit is lost in a combination of filters: [CombinedSubscriptionFilters] only
    asks its parts to filter sets of subscriptions, where there is no limit. *)
Example combined_loses_limit :
  let limited := mkMaxCount mkAllowAll 1 10 in
  (filter_incoming_subscriptions elements limited (subs [1; 2; 3]) ∅).1 = Err "too many subscribed topics"%string ∧
  match filter_incoming_subscriptions elements (mkCombined limited mkAllowAll) (subs [1; 2; 3]) ∅ with
  | (Ok r, _) => size r = 3
  | _ => False
  end.
Proof. split; vm_compute; reflexivity. Qed.
