(* ===== verification/GossipBehaviour.v ===== *)
(** * The gossipsub behaviour

    The state of [Gossipsub] in [protocols/gossipsub/src/behaviour.rs] and the
    operations on the mesh: subscribing and leaving topics, grafts and prunes, the
    subscriptions of remotes and the events of connections.  [GossipHeartbeat] has the
    heartbeat.

    Metrics and log messages are left out.  The peer score, the random generator, the
    subscription filter and the lengths of encoded messages are interfaces.  The
    orders in which hash and B-tree collections are visited are arguments; the clock
    is one as well.  A [HashSet] or [BTreeSet] is a [gset]. *)

From S2P Require Import Prelude Float64 GossipTimeCache GossipBackoff GossipMcache GossipRpc GossipFilter.
From stdpp Require Import fin_maps fin_sets strings.

(** The generator of [rand] with the operations on slices. *)
Class Rng (G : Type) : Type := {
  shuffle {A} : G → list A → list A * G;
  partial_shuffle {A} : G → nat → list A → list A * G;
}.

Class RngSpec (G : Type) `{!Rng G} : Prop := {
  shuffle_perm {A} (g : G) (l : list A) : (shuffle g l).1 ≡ₚ l;
  partial_shuffle_perm {A} (g : G) n (l : list A) : (partial_shuffle g n l).1 ≡ₚ l;
}.

Inductive ValidationError : Type :=
| InvalidSignature | EmptySequenceNumber | InvalidSequenceNumber | InvalidPeerId
| SignaturePresent | SequenceNumberPresent | MessageSourcePresent | Validation_TransformFailed.

Inductive RejectReason : Type :=
| Reject_ValidationError (e : ValidationError)
| SelfOrigin | BlackListedPeer | BlackListedSource | ValidationIgnored | ValidationFailed.

(** [PeerScore], of which the behaviour uses the score and reports what happens. *)
Class PeerScoring (PeerId TopicHash MessageId IpAddr PS : Type) : Type := {
  PeerScore_score : PS → PeerId → f64;
  PeerScore_graft : PS → PeerId → TopicHash → PS;
  PeerScore_prune : PS → PeerId → TopicHash → PS;
  PeerScore_add_penalty : PS → PeerId → nat → PS;
  PeerScore_add_peer : PS → PeerId → PS;
  PeerScore_remove_peer : PS → PeerId → PS;
  PeerScore_add_ip : PS → PeerId → IpAddr → PS;
  PeerScore_remove_ip : PS → PeerId → IpAddr → PS;
  PeerScore_refresh_scores : PS → PS;
  PeerScore_validate_message : PS → PeerId → MessageId → TopicHash → PS;
  PeerScore_deliver_message : PS → PeerId → MessageId → TopicHash → PS;
  PeerScore_reject_invalid_message : PS → PeerId → TopicHash → PS;
  PeerScore_reject_message : PS → PeerId → MessageId → TopicHash → RejectReason → PS;
  PeerScore_duplicated_message : PS → PeerId → MessageId → TopicHash → PS;
}.

Record PeerScoreThresholds : Type := mkThresholds {
  gossip_threshold : f64;
  publish_threshold : f64;
  graylist_threshold : f64;
  accept_px_threshold : f64;
  opportunistic_graft_threshold : f64;
}.

Definition PeerScoreThresholds_validate (t : PeerScoreThresholds) : Result unit string :=
  if f64_lt f64_zero (gossip_threshold t) then Err "invalid gossip threshold; it must be <= 0"%string
  else if f64_lt f64_zero (publish_threshold t) || f64_lt (gossip_threshold t) (publish_threshold t)
  then Err "Invalid publish threshold; it must be <= 0 and <= gossip threshold"%string
  else if f64_lt f64_zero (graylist_threshold t) || f64_lt (publish_threshold t) (graylist_threshold t)
  then Err "Invalid graylist threshold; it must be <= 0 and <= publish threshold"%string
  else if f64_lt (accept_px_threshold t) f64_zero then Err "Invalid accept px threshold; it must be >= 0"%string
  else if f64_lt (opportunistic_graft_threshold t) f64_zero
  then Err "Invalid opportunistic grafting threshold; it must be >= 0"%string
  else Ok tt.

Inductive ValidationMode : Type := Mode_Strict | Mode_Permissive | Mode_Anonymous | Mode_None.

Section gossipsub.
Context {PeerId TopicHash MessageId FastMessageId ConnectionId IpAddr : Type}.
Context `{Countable PeerId} `{Countable TopicHash} `{Countable MessageId} `{Countable FastMessageId} `{!EqDecision ConnectionId}.
Context {PS F G : Type} `{!PeerScoring PeerId TopicHash MessageId IpAddr PS} `{!TopicSubscriptionFilter TopicHash F} `{!Rng G}.
Context `{!EncodedLen MessageId TopicHash}.

#[local] Abbreviation Raw := (RawGossipsubMessage (TopicHash := TopicHash) (PeerId := PeerId)).
#[local] Abbreviation Control := (GossipsubControlAction MessageId TopicHash PeerId).
#[local] Abbreviation Subscription := (GossipsubSubscription TopicHash).
#[local] Abbreviation Rpc := (Rpc MessageId TopicHash).

(** ** Data *)

Record GossipsubMessage : Type := mkGossipsubMessage {
  gm_source : option PeerId;
  gm_data : list byte;
  gm_sequence_number : option N;
  gm_topic : TopicHash;
}.

Record PeerConnections : Type := mkPeerConnections {
  kind : PeerKind;
  connections : list ConnectionId;
}.

Inductive GossipsubEvent : Type :=
| Event_Message (propagation_source : PeerId) (message_id : MessageId) (message : GossipsubMessage)
| Event_Subscribed (peer_id : PeerId) (topic : TopicHash)
| Event_Unsubscribed (peer_id : PeerId) (topic : TopicHash)
| GossipsubNotSupported (peer_id : PeerId).

Inductive GossipsubHandlerIn : Type := HandlerIn_Message (rpc : Rpc) | JoinedMesh | LeftMesh.

Inductive NotifyHandler : Type := One (connection : ConnectionId) | Any.

(** [NetworkBehaviourAction]; a peer is dialled if it is disconnected. *)
Inductive Action : Type :=
| GenerateEvent (event : GossipsubEvent)
| Notify (peer_id : PeerId) (handler : NotifyHandler) (event : GossipsubHandlerIn)
| DialPeer (peer_id : PeerId).

Record GossipsubConfig : Type := mkConfig {
  history_length : nat;
  history_gossip : nat;
  mesh_n : nat;
  mesh_n_low : nat;
  mesh_n_high : nat;
  retain_scores : nat;
  gossip_lazy : nat;
  gossip_factor : f64;
  cfg_heartbeat_interval : N;
  fanout_ttl : N;
  check_explicit_peers_ticks : N;
  max_transmit_size : N;
  duplicate_cache_time : N;
  validate_messages : bool;
  validation_mode : ValidationMode;
  message_id_fn : GossipsubMessage → MessageId;
  fast_message_id_fn : option (Raw → FastMessageId);
  allow_self_origin : bool;
  do_px : bool;
  prune_peers : nat;
  prune_backoff : N;
  unsubscribe_backoff : N;
  cfg_backoff_slack : N;
  flood_publish : bool;
  graft_flood_threshold : N;
  mesh_outbound_min : nat;
  opportunistic_graft_ticks : N;
  opportunistic_graft_peers : nat;
  gossip_retransimission : N;
  max_messages_per_rpc : option nat;
  max_ihave_length : nat;
  max_ihave_messages : nat;
  iwant_followup_time : N;
  published_message_ids_cache_time : N;
}.

Definition GossipsubConfigBuilder_build (config : GossipsubConfig) : Result GossipsubConfig string :=
  if decide (max_transmit_size config < 100)%N
  then Err "The maximum transmission size must be greater than 100 to permit basic control messages"%string
  else if decide (history_length config < history_gossip config)
  then Err "The history_length must be greater than or equal to the history_gossip length"%string
  else if negb (bool_decide (mesh_outbound_min config ≤ mesh_n_low config) && bool_decide (mesh_n_low config ≤ mesh_n config) &&
                bool_decide (mesh_n config ≤ mesh_n_high config))
  then Err "The following inequality doesn't hold mesh_outbound_min <= mesh_n_low <= mesh_n <= mesh_n_high"%string
  else if decide (mesh_n config < mesh_outbound_min config * 2)
  then Err "The following inequality doesn't hold mesh_outbound_min <= self.config.mesh_n / 2"%string
  else if decide (unsubscribe_backoff config / 10 ^ 6 = 0)%N
  then Err "The unsubscribe_backoff parameter should be positive."%string
  else Ok config.

(** [PublishConfig]; the keypair is only used to sign. *)
Inductive PublishConfig : Type :=
| Publish_Signing (author : PeerId) (inline_key : option (list byte))
| Publish_Author (author : PeerId)
| Publish_RandomAuthor
| Publish_Anonymous.

Definition PublishConfig_get_own_id (c : PublishConfig) : option PeerId :=
  match c with
  | Publish_Signing author _ => Some author
  | Publish_Author author => Some author
  | _ => None
  end.

(** [MessageAuthenticity]; of the keypair, the id of the peer and the encoding of its
    public key are used here. *)
Inductive MessageAuthenticity : Type :=
| Auth_Signed (public : PeerId) (key_enc : list byte)
| Auth_Author (peer_id : PeerId)
| Auth_RandomAuthor
| Auth_Anonymous.

(** A key that fits into the peer id is not sent with the messages. *)
Definition PublishConfig_from (authenticity : MessageAuthenticity) : PublishConfig :=
  match authenticity with
  | Auth_Signed public key_enc => Publish_Signing public (if decide (length key_enc ≤ 42) then None else Some key_enc)
  | Auth_Author peer_id => Publish_Author peer_id
  | Auth_RandomAuthor => Publish_RandomAuthor
  | Auth_Anonymous => Publish_Anonymous
  end.

Definition is_signing (a : MessageAuthenticity) : bool := match a with Auth_Signed _ _ => true | _ => false end.
Definition is_anonymous (a : MessageAuthenticity) : bool := match a with Auth_Anonymous => true | _ => false end.

(** The errors are named after their messages. *)
Inductive ConfigError : Type := SigningWhileAnonymous | AuthorWhileAnonymous | UnsignedWhileStrict.

Definition validate_config (authenticity : MessageAuthenticity) (mode : ValidationMode) : Result unit ConfigError :=
  match mode with
  | Mode_Anonymous =>
      if is_signing authenticity then Err SigningWhileAnonymous
      else if negb (is_anonymous authenticity) then Err AuthorWhileAnonymous
      else Ok tt
  | Mode_Strict => if negb (is_signing authenticity) then Err UnsignedWhileStrict else Ok tt
  | _ => Ok tt
  end.

(** ** [gossip_promises.rs] *)

Record GossipPromises : Type := mkPromises { promises : gmap MessageId (gmap PeerId N) }.

Definition GossipPromises_contains (g : GossipPromises) (m : MessageId) : bool := bool_decide (is_Some (promises g !! m)).

Definition GossipPromises_add_promise (g : GossipPromises) (peer : PeerId) (ms : list MessageId) (expires : N) : GossipPromises :=
  mkPromises (foldl (λ ps m,
    let peers := default ∅ (ps !! m) in
    <[m := match peers !! peer with Some _ => peers | None => <[peer := expires]> peers end]> ps) (promises g) ms).

Definition GossipPromises_message_delivered (g : GossipPromises) (m : MessageId) : GossipPromises :=
  mkPromises (delete m (promises g)).

Definition GossipPromises_reject_message (g : GossipPromises) (m : MessageId) (reason : RejectReason) : GossipPromises :=
  match reason with
  | Reject_ValidationError InvalidSignature => g
  | SelfOrigin => g
  | _ => mkPromises (delete m (promises g))
  end.

(** The broken promises of every peer are counted, in whatever order. *)
Definition GossipPromises_get_broken_promises (g : GossipPromises) (now : N) : gmap PeerId nat * GossipPromises :=
  let broken :=
    map_fold (λ _ peers acc, map_fold (λ peer expires acc,
      if decide (expires < now)%N then <[peer := S (default 0 (acc !! peer))]> acc else acc) acc peers) ∅ (promises g) in
  (broken, mkPromises (omap (λ peers, let kept := filter (λ x, now ≤ x.2)%N peers in
    if decide (kept = ∅) then None else Some kept) (promises g))).

(** ** The state *)

Record Gossipsub : Type := mkGossipsub {
  config : GossipsubConfig;
  events : list Action;
  control_pool : gmap PeerId (list Control);
  publish_config : PublishConfig;
  duplicate_cache : DuplicateCache (Key := MessageId);
  connected_peers : gmap PeerId PeerConnections;
  topic_peers : gmap TopicHash (gset PeerId);
  peer_topics : gmap PeerId (gset TopicHash);
  explicit_peers : gset PeerId;
  blacklisted_peers : gset PeerId;
  mesh : gmap TopicHash (gset PeerId);
  fanout : gmap TopicHash (gset PeerId);
  fanout_last_pub : gmap TopicHash N;
  backoff_storage : BackoffStorage (TopicHash := TopicHash) (PeerId := PeerId);
  mcache : MessageCache (MessageId := MessageId) (TopicHash := TopicHash) (PeerId := PeerId);
  heartbeat_ticks : N;
  px_peers : gset PeerId;
  outbound_peers : gset PeerId;
  peer_score : option (PS * PeerScoreThresholds * GossipPromises);
  count_received_ihave : gmap PeerId nat;
  count_sent_iwant : gmap PeerId nat;
  pending_iwant_msgs : gset MessageId;
  published_message_ids : DuplicateCache (Key := MessageId);
  fast_message_id_cache : TimeCache (Key := FastMessageId) (Value := MessageId);
  subscription_filter : F;
  rng : G;
}.

(** The field that a method assigns to; [rebuild] is the record rebuilt. *)
Definition rebuild (s : Gossipsub) : Gossipsub :=
  mkGossipsub
    (config s) (events s) (control_pool s) (publish_config s) (duplicate_cache s) (connected_peers s)
    (topic_peers s) (peer_topics s) (explicit_peers s) (blacklisted_peers s) (mesh s) (fanout s)
    (fanout_last_pub s) (backoff_storage s) (mcache s) (heartbeat_ticks s) (px_peers s) (outbound_peers s)
    (peer_score s) (count_received_ihave s) (count_sent_iwant s) (pending_iwant_msgs s) (published_message_ids s)
    (fast_message_id_cache s) (subscription_filter s) (rng s).

Ltac update s field x :=
  let e := eval cbv beta delta [rebuild] in (rebuild s) in
  let e := eval pattern field in e in
  lazymatch e with ?f _ => let r := eval cbv beta in (f x) in exact r end.

Definition set_events (x : list Action) (s : Gossipsub) : Gossipsub := ltac:(update s (events s) x).
Definition set_control_pool (x : gmap PeerId (list Control)) (s : Gossipsub) : Gossipsub := ltac:(update s (control_pool s) x).
Definition set_duplicate_cache (x : DuplicateCache (Key := MessageId)) (s : Gossipsub) : Gossipsub := ltac:(update s (duplicate_cache s) x).
Definition set_connected_peers (x : gmap PeerId PeerConnections) (s : Gossipsub) : Gossipsub := ltac:(update s (connected_peers s) x).
Definition set_topic_peers (x : gmap TopicHash (gset PeerId)) (s : Gossipsub) : Gossipsub := ltac:(update s (topic_peers s) x).
Definition set_peer_topics (x : gmap PeerId (gset TopicHash)) (s : Gossipsub) : Gossipsub := ltac:(update s (peer_topics s) x).
Definition set_explicit_peers (x : gset PeerId) (s : Gossipsub) : Gossipsub := ltac:(update s (explicit_peers s) x).
Definition set_blacklisted_peers (x : gset PeerId) (s : Gossipsub) : Gossipsub := ltac:(update s (blacklisted_peers s) x).
Definition set_mesh (x : gmap TopicHash (gset PeerId)) (s : Gossipsub) : Gossipsub := ltac:(update s (mesh s) x).
Definition set_fanout (x : gmap TopicHash (gset PeerId)) (s : Gossipsub) : Gossipsub := ltac:(update s (fanout s) x).
Definition set_fanout_last_pub (x : gmap TopicHash N) (s : Gossipsub) : Gossipsub := ltac:(update s (fanout_last_pub s) x).
Definition set_backoff_storage (x : BackoffStorage (TopicHash := TopicHash) (PeerId := PeerId)) (s : Gossipsub) : Gossipsub := ltac:(update s (backoff_storage s) x).
Definition set_mcache (x : MessageCache (MessageId := MessageId) (TopicHash := TopicHash) (PeerId := PeerId)) (s : Gossipsub) : Gossipsub := ltac:(update s (mcache s) x).
Definition set_heartbeat_ticks (x : N) (s : Gossipsub) : Gossipsub := ltac:(update s (heartbeat_ticks s) x).
Definition set_px_peers (x : gset PeerId) (s : Gossipsub) : Gossipsub := ltac:(update s (px_peers s) x).
Definition set_outbound_peers (x : gset PeerId) (s : Gossipsub) : Gossipsub := ltac:(update s (outbound_peers s) x).
Definition set_peer_score (x : option (PS * PeerScoreThresholds * GossipPromises)) (s : Gossipsub) : Gossipsub := ltac:(update s (peer_score s) x).
Definition set_count_received_ihave (x : gmap PeerId nat) (s : Gossipsub) : Gossipsub := ltac:(update s (count_received_ihave s) x).
Definition set_count_sent_iwant (x : gmap PeerId nat) (s : Gossipsub) : Gossipsub := ltac:(update s (count_sent_iwant s) x).
Definition set_pending_iwant_msgs (x : gset MessageId) (s : Gossipsub) : Gossipsub := ltac:(update s (pending_iwant_msgs s) x).
Definition set_published_message_ids (x : DuplicateCache (Key := MessageId)) (s : Gossipsub) : Gossipsub := ltac:(update s (published_message_ids s) x).
Definition set_fast_message_id_cache (x : TimeCache (Key := FastMessageId) (Value := MessageId)) (s : Gossipsub) : Gossipsub := ltac:(update s (fast_message_id_cache s) x).
Definition set_subscription_filter (x : F) (s : Gossipsub) : Gossipsub := ltac:(update s (subscription_filter s) x).
Definition set_rng (x : G) (s : Gossipsub) : Gossipsub := ltac:(update s (rng s) x).

(** The order in which collections are visited during an operation. *)
Record Orders : Type := mkOrders {
  btree_peers : gset PeerId → list PeerId;
  hash_peers : gset PeerId → list PeerId;
  hash_topics : gset TopicHash → list TopicHash;
  hash_ids : gset MessageId → list MessageId;
  hash_subs : gset Subscription → list Subscription;
  hash_backoffs : gset (TopicHash * PeerId) → list (TopicHash * PeerId);
}.

Record orders_ok (o : Orders) : Prop := {
  btree_peers_perm X : btree_peers o X ≡ₚ elements X;
  hash_peers_perm X : hash_peers o X ≡ₚ elements X;
  hash_topics_perm X : hash_topics o X ≡ₚ elements X;
  hash_ids_perm X : hash_ids o X ≡ₚ elements X;
  hash_subs_perm X : hash_subs o X ≡ₚ elements X;
  hash_backoffs_perm X : hash_backoffs o X ≡ₚ elements X;
}.

Definition Gossipsub_new (privacy : MessageAuthenticity) (config : GossipsubConfig) (filter : F) (g : G) :
    outcome (Result Gossipsub ConfigError) :=
  match validate_config privacy (validation_mode config) with
  | Err e => Ret (Err e)
  | Ok _ =>
      backoffs ← BackoffStorage_new (prune_backoff config) (cfg_heartbeat_interval config) (cfg_backoff_slack config);
      Ret (Ok (mkGossipsub config [] ∅ (PublishConfig_from privacy) (DuplicateCache_new (duplicate_cache_time config)) ∅ ∅ ∅ ∅ ∅ ∅ ∅ ∅
        backoffs (MessageCache_new (history_gossip config) (history_length config)) 0 ∅ ∅ None ∅ ∅ ∅
        (DuplicateCache_new (published_message_ids_cache_time config)) (TimeCache_new (duplicate_cache_time config)) filter g))
  end.

(** ** Helpers *)

Definition push_event (e : Action) (s : Gossipsub) : Gossipsub := set_events (events s ++ [e]) s.

(** [if let Some((peer_score, ..)) = &mut self.peer_score { .. }] *)
Definition on_score (f : PS → PS) (s : Gossipsub) : Gossipsub :=
  match peer_score s with
  | Some (ps, thresholds, promises) => set_peer_score (Some (f ps, thresholds, promises)) s
  | None => s
  end.

(** The scores are made from validated parameters; [scores] is what comes of these. *)
Definition Gossipsub_with_peer_score (s : Gossipsub) (scores : Result PS string) (threshold : PeerScoreThresholds) :
    Result unit string * Gossipsub :=
  match scores with
  | Err e => (Err e, s)
  | Ok ps =>
      match PeerScoreThresholds_validate threshold with
      | Err e => (Err e, s)
      | Ok _ =>
          if decide (is_Some (peer_score s)) then (Err "Peer score set twice"%string, s)
          else (Ok tt, set_peer_score (Some (ps, threshold, mkPromises ∅)) s)
      end
  end.

Definition score_below_threshold_from_scores (score : option (PS * PeerScoreThresholds * GossipPromises)) (peer : PeerId)
    (threshold : PeerScoreThresholds → f64) : bool * f64 :=
  match score with
  | Some (ps, thresholds, _) =>
      let score := PeerScore_score ps peer in
      if f64_lt score (threshold thresholds) then (true, score) else (false, score)
  | None => (false, f64_zero)
  end.

Definition Gossipsub_score_below_threshold (s : Gossipsub) (peer : PeerId) (threshold : PeerScoreThresholds → f64) : bool * f64 :=
  score_below_threshold_from_scores (peer_score s) peer threshold.

Definition control_pool_add (pool : gmap PeerId (list Control)) (peer : PeerId) (control : Control) : gmap PeerId (list Control) :=
  <[peer := default [] (pool !! peer) ++ [control]]> pool.

Context (to_bytes : PeerId → list byte).

Definition control_rpc (controls : list Control) : Rpc := GossipsubRpc_into_protobuf to_bytes (mkGossipsubRpc [] [] controls).
Definition subscription_rpc (subs : list Subscription) : Rpc := GossipsubRpc_into_protobuf to_bytes (mkGossipsubRpc [] subs []).

Definition Gossipsub_send_message (s : Gossipsub) (peer : PeerId) (message : Rpc) : Result unit PublishError * Gossipsub :=
  match fragment_message (max_transmit_size (config s)) message with
  | Ok messages => (Ok tt, set_events (events s ++ ((λ m, Notify peer Any (HandlerIn_Message m)) <$> messages)) s)
  | Err e => (Err e, s)
  end.

(** The loop that sends one message to many peers, up to the first error. *)
Fixpoint send_to_all (s : Gossipsub) (peers : list PeerId) (message : Rpc) : Result unit PublishError * Gossipsub :=
  match peers with
  | [] => (Ok tt, s)
  | peer :: peers =>
      match Gossipsub_send_message s peer message with
      | (Ok _, s) => send_to_all s peers message
      | (Err e, s) => (Err e, s)
      end
  end.

Definition in_mesh (mesh : gmap TopicHash (gset PeerId)) (topic : TopicHash) (peer : PeerId) : bool :=
  match mesh !! topic with Some peers => bool_decide (peer ∈ peers) | None => false end.

(** Whether a peer is in the mesh of a known topic other than some; the code returns
    at the first such topic. *)
Definition in_other_mesh (mesh : gmap TopicHash (gset PeerId)) (known : option (gset TopicHash)) (except : list TopicHash)
    (peer : PeerId) : bool :=
  match known with
  | Some topics => existsb (λ t, negb (bool_decide (t ∈ except)) && in_mesh mesh t peer) (elements topics)
  | None => false
  end.

Definition peer_added_to_mesh (peer : PeerId) (new_topics : list TopicHash) (mesh : gmap TopicHash (gset PeerId))
    (known : option (gset TopicHash)) (events : list Action) (connected : gmap PeerId PeerConnections) : outcome (list Action) :=
  conn ← expect (connected !! peer);
  _ ← assert (negb (bool_decide (connections conn = [])));
  connection ← vec_index (connections conn) 0;
  Ret (if in_other_mesh mesh known new_topics peer then events else events ++ [Notify peer (One connection) JoinedMesh]).

Definition peer_removed_from_mesh (peer : PeerId) (old_topic : TopicHash) (mesh : gmap TopicHash (gset PeerId))
    (known : option (gset TopicHash)) (events : list Action) (connected : gmap PeerId PeerConnections) : outcome (list Action) :=
  conn ← expect (connected !! peer);
  connection ← expect (connections conn !! 0);
  Ret (if in_other_mesh mesh known [old_topic] peer then events else events ++ [Notify peer (One connection) LeftMesh]).

Context (o : Orders).

Definition is_gossip_peer (connected : gmap PeerId PeerConnections) (peer : PeerId) : bool :=
  match connected !! peer with
  | Some c => bool_decide (kind c = Gossipsub_kind) || bool_decide (kind c = Gossipsubv1_1)
  | None => false
  end.

Definition get_random_peers_dynamic (topic_peers : gmap TopicHash (gset PeerId)) (connected : gmap PeerId PeerConnections)
    (topic : TopicHash) (n_map : nat → nat) (f : PeerId → bool) (g : G) : gset PeerId * G :=
  let gossip_peers :=
    match topic_peers !! topic with
    | Some peer_list => filter (λ p, f p && is_gossip_peer connected p) (btree_peers o peer_list)
    | None => []
    end in
  let n := n_map (length gossip_peers) in
  if decide (length gossip_peers ≤ n) then (list_to_set gossip_peers, g)
  else
    let '(l, g) := partial_shuffle g n gossip_peers in
    (list_to_set (take n l), g).

Definition get_random_peers (topic_peers : gmap TopicHash (gset PeerId)) (connected : gmap PeerId PeerConnections)
    (topic : TopicHash) (n : nat) (f : PeerId → bool) (g : G) : gset PeerId * G :=
  get_random_peers_dynamic topic_peers connected topic (λ _, n) f g.

(** ** Joining and leaving the mesh of a topic *)

(** One turn of the last loop of [join]. *)
Definition join_peer (topic : TopicHash) (s : Gossipsub) (peer : PeerId) : outcome Gossipsub :=
  let s := on_score (λ ps, PeerScore_graft ps peer topic) s in
  let s := set_control_pool (control_pool_add (control_pool s) peer (Graft topic)) s in
  ev ← peer_added_to_mesh peer [topic] (mesh s) (peer_topics s !! peer) (events s) (connected_peers s);
  Ret (set_events ev s).

(** The peers that may be grafted when a topic is joined. *)
Definition may_join (s : Gossipsub) (topic : TopicHash) (p : PeerId) : bool :=
  negb (bool_decide (p ∈ explicit_peers s)) && negb (Gossipsub_score_below_threshold s p (λ _, f64_zero)).1 &&
  negb (BackoffStorage_is_backoff_with_slack (backoff_storage s) topic p).

Definition Gossipsub_join (s : Gossipsub) (topic : TopicHash) : outcome Gossipsub :=
  if decide (is_Some (mesh s !! topic)) then Ret s
  else
    let '(added, s) :=
      match fanout s !! topic with
      | Some peers =>
          let s := set_fanout (delete topic (fanout s)) s in
          let peers : gset PeerId := filter (may_join s topic) peers in
          let add_peers := Nat.min (size peers) (mesh_n (config s)) in
          let added : gset PeerId := list_to_set (take add_peers (btree_peers o peers)) in
          let s := set_mesh (<[topic := added]> (mesh s)) s in
          (added, set_fanout_last_pub (delete topic (fanout_last_pub s)) s)
      | None => (∅, s)
      end in
    let '(added, s) :=
      if decide (size added < mesh_n (config s)) then
        let '(new_peers, g) := get_random_peers (topic_peers s) (connected_peers s) topic (mesh_n (config s) - size added)
          (λ p, negb (bool_decide (p ∈ added)) && may_join s topic p) (rng s) in
        let s := set_rng g s in
        (added ∪ new_peers, set_mesh (<[topic := default ∅ (mesh s !! topic) ∪ new_peers]> (mesh s)) s)
      else (added, s) in
    for_each (join_peer topic) s (hash_peers o added).

Context (now : N).

(** The end of [make_prune], for peers that are not of gossipsub 1.0. *)
Definition make_prune_v1_1 (s : Gossipsub) (topic : TopicHash) (peer : PeerId) (do_px on_unsubscribe : bool) :
    outcome (Control * Gossipsub) :=
  let '(peers, g) :=
    if do_px then
      let '(ps, g) := get_random_peers (topic_peers s) (connected_peers s) topic (prune_peers (config s))
        (λ p, bool_decide (p ≠ peer) && negb (Gossipsub_score_below_threshold s p (λ _, f64_zero)).1) (rng s) in
      ((λ p, mkPeerInfo (Some p)) <$> btree_peers o ps, g)
    else ([], rng s) in
  let s := set_rng g s in
  let backoff := if on_unsubscribe then unsubscribe_backoff (config s) else prune_backoff (config s) in
  b ← BackoffStorage_update_backoff (backoff_storage s) topic peer backoff now;
  Ret (Prune topic peers (Some (backoff / 10 ^ 9)%N), set_backoff_storage b s).

Definition Gossipsub_make_prune (s : Gossipsub) (topic : TopicHash) (peer : PeerId) (do_px on_unsubscribe : bool) :
    outcome (Control * Gossipsub) :=
  let s := on_score (λ ps, PeerScore_prune ps peer topic) s in
  match kind <$> connected_peers s !! peer with
  | Some Gossipsub_kind => Ret (Prune topic [] None, s)
  | _ => make_prune_v1_1 s topic peer do_px on_unsubscribe
  end.

(** One turn of the loop of [leave]. *)
Definition leave_peer (topic : TopicHash) (s : Gossipsub) (peer : PeerId) : outcome Gossipsub :=
  '(control, s) ← Gossipsub_make_prune s topic peer (do_px (config s)) true;
  let s := set_control_pool (control_pool_add (control_pool s) peer control) s in
  ev ← peer_removed_from_mesh peer topic (mesh s) (peer_topics s !! peer) (events s) (connected_peers s);
  Ret (set_events ev s).

Definition Gossipsub_leave (s : Gossipsub) (topic : TopicHash) : outcome Gossipsub :=
  match mesh s !! topic with
  | Some peers =>
      let s := set_mesh (delete topic (mesh s)) s in
      for_each (leave_peer topic) s (btree_peers o peers)
  | None => Ret s
  end.

Inductive SubscriptionError : Type := Subscription_PublishError (e : PublishError) | NotAllowed.

Definition Gossipsub_subscribe (s : Gossipsub) (topic : TopicHash) : outcome (Result bool SubscriptionError * Gossipsub) :=
  let '(can, f) := can_subscribe (subscription_filter s) topic in
  let s := set_subscription_filter f s in
  if negb can then Ret (Err NotAllowed, s)
  else if decide (is_Some (mesh s !! topic)) then Ret (Ok false, s)
  else
    match send_to_all s (hash_peers o (dom (peer_topics s))) (subscription_rpc [mkSubscription Subscribe topic]) with
    | (Err e, s) => Ret (Err (Subscription_PublishError e), s)
    | (Ok _, s) => s ← Gossipsub_join s topic; Ret (Ok true, s)
    end.

Definition Gossipsub_unsubscribe (s : Gossipsub) (topic : TopicHash) : outcome (Result bool PublishError * Gossipsub) :=
  if decide (mesh s !! topic = None) then Ret (Ok false, s)
  else
    match send_to_all s (hash_peers o (dom (peer_topics s))) (subscription_rpc [mkSubscription Unsubscribe topic]) with
    | (Err e, s) => Ret (Err e, s)
    | (Ok _, s) => s ← Gossipsub_leave s topic; Ret (Ok true, s)
    end.

(** ** Grafts and prunes of remotes *)

(** The recording, at the start of [handle_graft], that a peer is subscribed. *)
Definition record_subscription (peer : PeerId) (s : Gossipsub) (topic : TopicHash) : Gossipsub :=
  let s := set_peer_topics (<[peer := {[topic]} ∪ default ∅ (peer_topics s !! peer)]> (peer_topics s)) s in
  set_topic_peers (<[topic := {[peer]} ∪ default ∅ (topic_peers s !! topic)]> (topic_peers s)) s.

(** The penalty for a graft during a backoff.  The end of the backoff may have been chosen
    by the remote, so that the instants may not exist. *)
Definition penalize_graft (peer : PeerId) (backoff_time : N) (s : Gossipsub) : outcome Gossipsub :=
  match peer_score s with
  | None => Ret s
  | Some _ =>
      let s := on_score (λ ps, PeerScore_add_penalty ps peer 1) s in
      t ← instant_add backoff_time (graft_flood_threshold (config s));
      flood_cutoff ← instant_sub t (prune_backoff (config s));
      Ret (if decide (now < flood_cutoff)%N then on_score (λ ps, PeerScore_add_penalty ps peer 1) s else s)
  end.

(** One turn of the loop of [handle_graft]: the state, whether to exchange peers, and
    the topics to prune.  No backoff is like one that ends now. *)
Definition graft_topic (peer : PeerId) (below_zero : bool) (st : Gossipsub * bool * gset TopicHash) (topic : TopicHash) :
    outcome (Gossipsub * bool * gset TopicHash) :=
  let '(s, do_px, to_prune) := st in
  match mesh s !! topic with
  | Some peers =>
      if decide (peer ∈ peers) then Ret st
      else
        let backoff_time := BackoffStorage_get_backoff_time (backoff_storage s) topic peer in
        if decide (now < default now backoff_time)%N
        then s ← penalize_graft peer (default now backoff_time) s; Ret (s, false, {[topic]} ∪ to_prune)
        else if below_zero then Ret (s, false, {[topic]} ∪ to_prune)
        else if decide (mesh_n_high (config s) ≤ size peers ∧ peer ∉ outbound_peers s)
        then Ret (s, do_px, {[topic]} ∪ to_prune)
        else
          let s := set_mesh (<[topic := {[peer]} ∪ peers]> (mesh s)) s in
          ev ← peer_added_to_mesh peer [topic] (mesh s) (peer_topics s !! peer) (events s) (connected_peers s);
          Ret (on_score (λ ps, PeerScore_graft ps peer topic) (set_events ev s), do_px, to_prune)
  | None => Ret (s, false, to_prune)
  end.

(** [make_prune] for every topic of a list, with the controls in their order. *)
Fixpoint make_prunes (s : Gossipsub) (topics : list TopicHash) (peer : PeerId) (do_px on_unsubscribe : bool) :
    outcome (list Control * Gossipsub) :=
  match topics with
  | [] => Ret ([], s)
  | topic :: topics =>
      '(control, s) ← Gossipsub_make_prune s topic peer do_px on_unsubscribe;
      '(controls, s) ← make_prunes s topics peer do_px on_unsubscribe;
      Ret (control :: controls, s)
  end.

Definition Gossipsub_handle_graft (s : Gossipsub) (peer : PeerId) (topics : list TopicHash) : outcome Gossipsub :=
  let s := foldl (record_subscription peer) s topics in
  '(s, px, to_prune) ←
    (if decide (peer ∈ explicit_peers s) then Ret (s, false, list_to_set topics)
     else
       let below_zero := (Gossipsub_score_below_threshold s peer (λ _, f64_zero)).1 in
       for_each (graft_topic peer below_zero) (s, do_px (config s), ∅) topics);
  if decide (to_prune = ∅) then Ret s
  else
    '(prunes, s) ← make_prunes s (hash_topics o to_prune) peer px false;
    Ret (Gossipsub_send_message s peer (control_rpc prunes)).2.

(** The first part of [remove_peer_from_mesh]: the removal, and whether to update the
    backoff. *)
Definition mesh_remove (s : Gossipsub) (peer : PeerId) (topic : TopicHash) (always_update_backoff : bool) :
    outcome (Gossipsub * bool) :=
  match mesh s !! topic with
  | Some peers =>
      if decide (peer ∈ peers) then
        let s := set_mesh (<[topic := peers ∖ {[peer]}]> (mesh s)) s in
        let s := on_score (λ ps, PeerScore_prune ps peer topic) s in
        ev ← peer_removed_from_mesh peer topic (mesh s) (peer_topics s !! peer) (events s) (connected_peers s);
        Ret (set_events ev s, true)
      else Ret (s, always_update_backoff)
  | None => Ret (s, always_update_backoff)
  end.

Definition Gossipsub_remove_peer_from_mesh (s : Gossipsub) (peer : PeerId) (topic : TopicHash) (backoff : option N)
    (always_update_backoff : bool) : outcome Gossipsub :=
  '(s, update_backoff) ← mesh_remove s peer topic always_update_backoff;
  if update_backoff : bool then
    let time := match backoff with Some secs => (secs * 10 ^ 9)%N | None => prune_backoff (config s) end in
    b ← BackoffStorage_update_backoff (backoff_storage s) topic peer time now;
    Ret (set_backoff_storage b s)
  else Ret s.

(** One turn of the loop of [px_connect]; the list has no infos without a peer. *)
Definition px_connect_peer (s : Gossipsub) (info : PeerInfo PeerId) : Gossipsub :=
  match info_peer_id info with
  | Some peer => push_event (DialPeer peer) (set_px_peers ({[peer]} ∪ px_peers s) s)
  | None => s
  end.

Definition Gossipsub_px_connect (s : Gossipsub) (px : list (PeerInfo PeerId)) : Gossipsub :=
  let n := prune_peers (config s) in
  let px := filter (λ p, is_Some (info_peer_id p)) px in
  let '(px, g) :=
    if decide (n < length px) then let '(px, g) := partial_shuffle (rng s) n px in (take n px, g) else (px, rng s) in
  foldl px_connect_peer (set_rng g s) px.

(** One turn of the loop of [handle_prune]. *)
Definition prune_topic (peer : PeerId) (below_threshold : bool) (s : Gossipsub)
    (prune : TopicHash * list (PeerInfo PeerId) * option N) : outcome Gossipsub :=
  let '(topic, px, backoff) := prune in
  s ← Gossipsub_remove_peer_from_mesh s peer topic backoff true;
  Ret (if bool_decide (is_Some (mesh s !! topic)) && negb (bool_decide (px = [])) && negb below_threshold &&
          bool_decide (0 < prune_peers (config s))
       then Gossipsub_px_connect s px else s).

Definition Gossipsub_handle_prune (s : Gossipsub) (peer : PeerId)
    (prune_data : list (TopicHash * list (PeerInfo PeerId) * option N)) : outcome Gossipsub :=
  let below_threshold := (Gossipsub_score_below_threshold s peer accept_px_threshold).1 in
  for_each (prune_topic peer below_threshold) s prune_data.

(** ** Subscriptions of remotes *)

(** The state of the loop of [handle_received_subscriptions]: the topics that were
    unsubscribed, those to graft, and the events for the application. *)
Record SubsLoop : Type := mkSubsLoop {
  sl_state : Gossipsub;
  sl_unsubscribed : list TopicHash;
  sl_graft : list TopicHash;
  sl_events : list Action;
}.

(** Adding the peer to the mesh of a topic that needs peers. *)
Definition subscribe_mesh (peer : PeerId) (topic : TopicHash) (s : Gossipsub) : Gossipsub * bool :=
  if bool_decide (peer ∉ explicit_peers s) && is_gossip_peer (connected_peers s) peer &&
     negb (score_below_threshold_from_scores (peer_score s) peer (λ _, f64_zero)).1 &&
     negb (BackoffStorage_is_backoff_with_slack (backoff_storage s) topic peer)
  then
    match mesh s !! topic with
    | Some peers =>
        if decide (size peers < mesh_n_low (config s) ∧ peer ∉ peers) then
          (on_score (λ ps, PeerScore_graft ps peer topic) (set_mesh (<[topic := {[peer]} ∪ peers]> (mesh s)) s), true)
        else (s, false)
    | None => (s, false)
    end
  else (s, false).

Definition subscription_turn (peer : PeerId) (l : SubsLoop) (sub : Subscription) : SubsLoop :=
  let s := sl_state l in
  let topic := sub_topic_hash sub in
  let peer_list := default ∅ (topic_peers s !! topic) in
  let subscribed := default ∅ (peer_topics s !! peer) in
  match action sub with
  | Subscribe =>
      let s := set_topic_peers (<[topic := {[peer]} ∪ peer_list]> (topic_peers s)) s in
      let s := set_peer_topics (<[peer := {[topic]} ∪ subscribed]> (peer_topics s)) s in
      let '(s, grafted) := subscribe_mesh peer topic s in
      mkSubsLoop s (sl_unsubscribed l) (if grafted then sl_graft l ++ [topic] else sl_graft l)
        (sl_events l ++ [GenerateEvent (Event_Subscribed peer topic)])
  | Unsubscribe =>
      let s := set_topic_peers (<[topic := peer_list ∖ {[peer]}]> (topic_peers s)) s in
      let s := set_peer_topics (<[peer := subscribed ∖ {[topic]}]> (peer_topics s)) s in
      mkSubsLoop s (sl_unsubscribed l ++ [topic]) (sl_graft l) (sl_events l ++ [GenerateEvent (Event_Unsubscribed peer topic)])
  end.

(** What follows the loop. *)
Definition subscriptions_done (peer : PeerId) (l : SubsLoop) : outcome Gossipsub :=
  s ← for_each (λ s topic, Gossipsub_remove_peer_from_mesh s peer topic None false) (sl_state l) (sl_unsubscribed l);
  s ← (if decide (sl_graft l = []) then Ret s
       else
         ev ← peer_added_to_mesh peer (sl_graft l) (mesh s) (peer_topics s !! peer) (events s) (connected_peers s);
         Ret (Gossipsub_send_message (set_events ev s) peer (control_rpc (Graft <$> sl_graft l))).2);
  Ret (set_events (events s ++ sl_events l) s).

Definition Gossipsub_handle_received_subscriptions (s : Gossipsub) (subs : list Subscription) (peer : PeerId) :
    outcome Gossipsub :=
  match peer_topics s !! peer with
  | None => Ret s
  | Some subscribed =>
      let '(r, f) := filter_incoming_subscriptions (hash_subs o) (subscription_filter s) subs subscribed in
      let s := set_subscription_filter f s in
      match r with
      | Err _ => Ret s
      | Ok filtered =>
          subscriptions_done peer (foldl (subscription_turn peer) (mkSubsLoop s [] [] []) (hash_subs o filtered))
      end
  end.

(** ** Explicit and blacklisted peers *)

Definition Gossipsub_check_explicit_peer_connection (s : Gossipsub) (peer : PeerId) : Gossipsub :=
  if decide (peer_topics s !! peer = None) then push_event (DialPeer peer) s else s.

Definition Gossipsub_add_explicit_peer (s : Gossipsub) (peer : PeerId) : Gossipsub :=
  Gossipsub_check_explicit_peer_connection (set_explicit_peers ({[peer]} ∪ explicit_peers s) s) peer.

Definition Gossipsub_remove_explicit_peer (s : Gossipsub) (peer : PeerId) : Gossipsub :=
  set_explicit_peers (explicit_peers s ∖ {[peer]}) s.

Definition Gossipsub_blacklist_peer (s : Gossipsub) (peer : PeerId) : Gossipsub :=
  set_blacklisted_peers ({[peer]} ∪ blacklisted_peers s) s.

Definition Gossipsub_remove_blacklisted_peer (s : Gossipsub) (peer : PeerId) : Gossipsub :=
  set_blacklisted_peers (blacklisted_peers s ∖ {[peer]}) s.

(** ** Connections *)

(** The score follows the addresses; [ip] is what [get_ip_addr] finds in the address. *)
Definition score_add_ip (peer : PeerId) (ip : option IpAddr) (s : Gossipsub) : Gossipsub :=
  match ip with Some ip => on_score (λ ps, PeerScore_add_ip ps peer ip) s | None => s end.
Definition score_remove_ip (peer : PeerId) (ip : option IpAddr) (s : Gossipsub) : Gossipsub :=
  match ip with Some ip => on_score (λ ps, PeerScore_remove_ip ps peer ip) s | None => s end.

Definition Gossipsub_inject_connection_established (s : Gossipsub) (peer : PeerId) (connection : ConnectionId)
    (is_dialer : bool) (ip : option IpAddr) (other_established : nat) : Gossipsub :=
  let s :=
    if is_dialer && bool_decide (other_established = 0) && bool_decide (peer ∉ px_peers s)
    then set_outbound_peers ({[peer]} ∪ outbound_peers s) s else s in
  let s := score_add_ip peer ip s in
  let conns := default (mkPeerConnections Floodsub [connection]) (connected_peers s !! peer) in
  let s := set_connected_peers (<[peer := mkPeerConnections (kind conns) (connections conns ++ [connection])]> (connected_peers s)) s in
  if decide (other_established = 0) then
    let s :=
      if decide (peer ∈ blacklisted_peers s) then s
      else
        let subscriptions := mkSubscription Subscribe <$> hash_topics o (dom (mesh s)) in
        if decide (subscriptions = []) then s
        else (Gossipsub_send_message s peer (subscription_rpc subscriptions)).2 in
    let s := set_peer_topics (<[peer := ∅]> (peer_topics s)) s in
    on_score (λ ps, PeerScore_add_peer ps peer) s
  else s.

(** A connection that is not the last one of its peer is closed. *)
Definition connection_closed_some (s : Gossipsub) (peer : PeerId) (connection : ConnectionId) : outcome Gossipsub :=
  match connected_peers s !! peer with
  | Some conns =>
      index ← expect (position (λ v, bool_decide (v = connection)) (connections conns));
      '(_, rest) ← vec_remove index (connections conns);
      let s := set_connected_peers (<[peer := mkPeerConnections (kind conns) rest]> (connected_peers s)) s in
      match rest, peer_topics s !! peer with
      | first :: _, Some topics =>
          Ret (if existsb (λ t, in_mesh (mesh s) t peer) (elements topics)
               then push_event (Notify peer (One first) JoinedMesh) s else s)
      | _, _ => Ret s
      end
  | None => Ret s
  end.

(** A peer that has disconnected is removed from the maps of one of its topics. *)
Definition disconnect_topic (peer : PeerId) (s : Gossipsub) (topic : TopicHash) : Gossipsub :=
  let remove (m : gmap TopicHash (gset PeerId)) := alter (λ peers, peers ∖ {[peer]}) topic m in
  set_fanout (remove (fanout s)) (set_topic_peers (remove (topic_peers s)) (set_mesh (remove (mesh s)) s)).

(** The last connection of a peer is closed. *)
Definition connection_closed_last (s : Gossipsub) (peer : PeerId) : outcome Gossipsub :=
  match peer_topics s !! peer with
  | None => _ ← assert (bool_decide (peer ∈ blacklisted_peers s)); Ret s
  | Some topics =>
      let s := foldl (disconnect_topic peer) s (elements topics) in
      let s := set_px_peers (px_peers s ∖ {[peer]}) s in
      let s := set_outbound_peers (outbound_peers s ∖ {[peer]}) s in
      let s := set_peer_topics (delete peer (peer_topics s)) s in
      let s := set_connected_peers (delete peer (connected_peers s)) s in
      Ret (on_score (λ ps, PeerScore_remove_peer ps peer) s)
  end.

Definition Gossipsub_inject_connection_closed (s : Gossipsub) (peer : PeerId) (connection : ConnectionId)
    (ip : option IpAddr) (remaining_established : nat) : outcome Gossipsub :=
  let s := score_remove_ip peer ip s in
  if decide (remaining_established ≠ 0) then connection_closed_some s peer connection
  else connection_closed_last s peer.

Definition Gossipsub_inject_address_change (s : Gossipsub) (peer : PeerId) (ip_old ip_new : option IpAddr) : Gossipsub :=
  score_add_ip peer ip_new (score_remove_ip peer ip_old s).

(** The part of [inject_event] for [HandlerEvent::PeerKind]. *)
Definition Gossipsub_inject_peer_kind (s : Gossipsub) (peer : PeerId) (k : PeerKind) : Gossipsub :=
  match k with
  | NotSupported => push_event (GenerateEvent (GossipsubNotSupported peer)) s
  | _ =>
      match connected_peers s !! peer with
      | Some (mkPeerConnections Floodsub conns) =>
          set_connected_peers (<[peer := mkPeerConnections k conns]> (connected_peers s)) s
      | _ => s
      end
  end.
End gossipsub.

(** ** Facts about the helpers *)

Section facts.
Context {PeerId TopicHash MessageId ConnectionId : Type}.
Context `{Countable PeerId} `{Countable TopicHash} `{Countable MessageId} `{!EqDecision ConnectionId}.
Context {G : Type} `{!Rng G}.

#[local] Abbreviation PeerConnections := (PeerConnections (ConnectionId := ConnectionId)).

(** The peers among which [get_random_peers] chooses. *)
Definition candidates (topic_peers : gmap TopicHash (gset PeerId)) (connected : gmap PeerId PeerConnections) (topic : TopicHash)
    (f : PeerId → bool) : gset PeerId :=
  filter (λ p, f p && is_gossip_peer connected p) (default ∅ (topic_peers !! topic)).

Lemma elem_of_candidates tp connected topic f p :
  p ∈ candidates tp connected topic f ↔ p ∈ default ∅ (tp !! topic) ∧ f p = true ∧ is_gossip_peer connected p = true.
Proof. unfold candidates. rewrite elem_of_filter, Is_true_true, andb_true_iff. tauto. Qed.

Lemma get_random_peers_dynamic_spec `{!RngSpec G} (o : Orders (MessageId := MessageId)) tp connected topic n_map f g :
  orders_ok o →
  ∃ R g', get_random_peers_dynamic o tp connected topic n_map f g = (R, g') ∧
    R ⊆ candidates tp connected topic f ∧
    (size R = n_map (size (candidates tp connected topic f)) ∨ R = candidates tp connected topic f) ∧
    size R ≤ n_map (size (candidates tp connected topic f)).
Proof.
  intros Ho. unfold get_random_peers_dynamic.
  set (l := match tp !! topic with Some _ => _ | None => _ end).
  assert (l ≡ₚ elements (candidates tp connected topic f)) as Hl.
  { unfold l, candidates. destruct (tp !! topic) as [X|]; simpl; [|].
    2:{ replace (filter _ (∅ : gset PeerId)) with (∅ : gset PeerId) by set_solver. by rewrite elements_empty. }
    rewrite (btree_peers_perm o Ho X). apply NoDup_Permutation; [apply NoDup_filter, NoDup_elements|apply NoDup_elements|].
    intros p. by rewrite list_elem_of_filter, !elem_of_elements, elem_of_filter. }
  assert (length l = size (candidates tp connected topic f)) as Hlen by (by rewrite Hl).
  assert (list_to_set l = candidates tp connected topic f) as Hset by (rewrite Hl; apply list_to_set_elements_L).
  rewrite Hlen. case_decide as Hd.
  { eexists _, _. split; [done|]. rewrite Hset. split_and!; [done|by right|done]. }
  pose proof (partial_shuffle_perm g (n_map (size (candidates tp connected topic f))) l) as Hp.
  destruct (partial_shuffle g _ l) as [l' g']. cbn [fst] in Hp.
  assert (NoDup l') as Hnd by (rewrite Hp, Hl; apply NoDup_elements).
  eexists _, _. split; [done|].
  assert (size (list_to_set (take (n_map (size (candidates tp connected topic f))) l') : gset PeerId) =
    n_map (size (candidates tp connected topic f))) as Hsz.
  { rewrite size_list_to_set; [|exact (sublist_NoDup _ _ Hnd (sublist_take _ _))].
    rewrite length_take, Hp, Hlen. lia. }
  split_and!; [|by left|lia].
  rewrite <-Hset. intros p. rewrite !elem_of_list_to_set. intros (i & Hi%list_elem_of_lookup_2 & _)%elem_of_take. by rewrite <-Hp.
Qed.
End facts.
