(* ===== verification/GossipScore.v ===== *)
(** * The scores of gossipsub peers

    [protocols/gossipsub/src/peer_score.rs] and the parameters of
    [peer_score/params.rs]: what is counted for every peer and topic, the score that
    is computed from it, and how long it is remembered.  The counters are [f64]; the
    callback for delivery times and the metrics, which only observe, are left out. *)

From S2P Require Import Prelude Float64 GossipTimeCache GossipRpc GossipFilter GossipBehaviour.
From stdpp Require Import fin_maps fin_sets strings.

(** ** Parameters *)

Record TopicScoreParams : Type := mkTopicParams {
  topic_weight : f64;
  time_in_mesh_weight : f64;
  time_in_mesh_quantum : N;
  time_in_mesh_cap : f64;
  first_message_deliveries_weight : f64;
  first_message_deliveries_decay : f64;
  first_message_deliveries_cap : f64;
  mesh_message_deliveries_weight : f64;
  mesh_message_deliveries_decay : f64;
  mesh_message_deliveries_cap : f64;
  mesh_message_deliveries_threshold : f64;
  mesh_message_deliveries_window : N;
  mesh_message_deliveries_activation : N;
  mesh_failure_penalty_weight : f64;
  mesh_failure_penalty_decay : f64;
  invalid_message_deliveries_weight : f64;
  invalid_message_deliveries_decay : f64;
}.

(** [x <= 0f64 || x >= 1f64] *)
Definition outside_unit (x : f64) : bool := f64_le x f64_zero || f64_le f64_one x.

Definition TopicScoreParams_validate (p : TopicScoreParams) : Result unit string :=
  let disabled w := f64_eq w f64_zero in
  if f64_lt (topic_weight p) f64_zero then Err "invalid topic weight; must be >= 0"%string
  else if decide (time_in_mesh_quantum p = 0%N) then Err "Invalid time_in_mesh_quantum; must be non zero"%string
  else if f64_lt (time_in_mesh_weight p) f64_zero
  then Err "Invalid time_in_mesh_weight; must be positive (or 0 to disable)"%string
  else if negb (disabled (time_in_mesh_weight p)) && f64_le (time_in_mesh_cap p) f64_zero
  then Err "Invalid time_in_mesh_cap must be positive"%string
  else if f64_lt (first_message_deliveries_weight p) f64_zero
  then Err "Invalid first_message_deliveries_weight; must be positive (or 0 to disable)"%string
  else if negb (disabled (first_message_deliveries_weight p)) && outside_unit (first_message_deliveries_decay p)
  then Err "Invalid first_message_deliveries_decay; must be between 0 and 1"%string
  else if negb (disabled (first_message_deliveries_weight p)) && f64_le (first_message_deliveries_cap p) f64_zero
  then Err "Invalid first_message_deliveries_cap must be positive"%string
  else if f64_lt f64_zero (mesh_message_deliveries_weight p)
  then Err "Invalid mesh_message_deliveries_weight; must be negative (or 0 to disable)"%string
  else if negb (disabled (mesh_message_deliveries_weight p)) && outside_unit (mesh_message_deliveries_decay p)
  then Err "Invalid mesh_message_deliveries_decay; must be between 0 and 1"%string
  else if negb (disabled (mesh_message_deliveries_weight p)) && f64_le (mesh_message_deliveries_cap p) f64_zero
  then Err "Invalid mesh_message_deliveries_cap must be positive"%string
  else if negb (disabled (mesh_message_deliveries_weight p)) && f64_le (mesh_message_deliveries_threshold p) f64_zero
  then Err "Invalid mesh_message_deliveries_threshold; must be positive"%string
  else if negb (disabled (mesh_message_deliveries_weight p)) && bool_decide (mesh_message_deliveries_activation p < 10 ^ 9)%N
  then Err "Invalid mesh_message_deliveries_activation; must be at least 1s"%string
  else if f64_lt f64_zero (mesh_failure_penalty_weight p)
  then Err "Invalid mesh_failure_penalty_weight; must be negative (or 0 to disable)"%string
  else if negb (disabled (mesh_failure_penalty_weight p)) && outside_unit (mesh_failure_penalty_decay p)
  then Err "Invalid mesh_failure_penalty_decay; must be between 0 and 1"%string
  else if f64_lt f64_zero (invalid_message_deliveries_weight p)
  then Err "Invalid invalid_message_deliveries_weight; must be negative (or 0 to disable)"%string
  else if outside_unit (invalid_message_deliveries_decay p)
  then Err "Invalid invalid_message_deliveries_decay; must be between 0 and 1"%string
  else Ok tt.

Section score.
Context {PeerId TopicHash MessageId IpAddr : Type}.
Context `{Countable PeerId} `{Countable TopicHash} `{Countable MessageId} `{Countable IpAddr}.

Record PeerScoreParams : Type := mkScoreParams {
  topic_params : gmap TopicHash TopicScoreParams;
  topic_score_cap : f64;
  app_specific_weight : f64;
  ip_colocation_factor_weight : f64;
  ip_colocation_factor_threshold : f64;
  ip_colocation_factor_whitelist : gset IpAddr;
  behaviour_penalty_weight : f64;
  behaviour_penalty_threshold : f64;
  behaviour_penalty_decay : f64;
  decay_interval : N;
  decay_to_zero : f64;
  retain_score : N;
}.

(** The orders in which hash maps and sets are visited; sums of [f64] depend on them. *)
Context (hash_topics : gset TopicHash → list TopicHash) (hash_ips : gset IpAddr → list IpAddr).

(** An error for a topic also names the topic. *)
Definition PeerScoreParams_validate (p : PeerScoreParams) : Result unit (option TopicHash * string) :=
  let topic_error t :=
    match topic_params p !! t with
    | Some tp => match TopicScoreParams_validate tp with Err e => Some (Some t, e) | Ok _ => None end
    | None => None
    end in
  match omap topic_error (hash_topics (dom (topic_params p))) with
  | e :: _ => Err e
  | [] =>
      if f64_lt (topic_score_cap p) f64_zero then Err (None, "Invalid topic score cap; must be positive (or 0 for no cap)"%string)
      else if f64_lt f64_zero (ip_colocation_factor_weight p)
      then Err (None, "Invalid ip_colocation_factor_weight; must be negative (or 0 to disable)"%string)
      else if negb (f64_eq (ip_colocation_factor_weight p) f64_zero) && f64_lt (ip_colocation_factor_threshold p) f64_one
      then Err (None, "Invalid ip_colocation_factor_threshold; must be at least 1"%string)
      else if f64_lt f64_zero (behaviour_penalty_weight p)
      then Err (None, "Invalid behaviour_penalty_weight; must be negative (or 0 to disable)"%string)
      else if negb (f64_eq (behaviour_penalty_weight p) f64_zero) && outside_unit (behaviour_penalty_decay p)
      then Err (None, "invalid behaviour_penalty_decay; must be between 0 and 1"%string)
      else if f64_lt (behaviour_penalty_threshold p) f64_zero
      then Err (None, "invalid behaviour_penalty_threshold; must be >= 0"%string)
      else if decide (decay_interval p < 10 ^ 9)%N then Err (None, "Invalid decay_interval; must be at least 1s"%string)
      else if outside_unit (decay_to_zero p) then Err (None, "Invalid decay_to_zero; must be between 0 and 1"%string)
      else Ok tt
  end.

(** ** Statistics *)

Inductive MeshStatus : Type := Active (graft_time mesh_time : N) | InActive.

Record TopicStats : Type := mkTopicStats {
  mesh_status : MeshStatus;
  first_message_deliveries : f64;
  mesh_message_deliveries_active : bool;
  mesh_message_deliveries : f64;
  mesh_failure_penalty : f64;
  invalid_message_deliveries : f64;
}.

Definition TopicStats_default : TopicStats := mkTopicStats InActive f64_zero false f64_zero f64_zero f64_zero.

Definition TopicStats_in_mesh (ts : TopicStats) : bool := match mesh_status ts with Active _ _ => true | InActive => false end.

Inductive ConnectionStatus : Type := Connected | Disconnected (expire : N).

Record PeerStats : Type := mkPeerStats {
  status : ConnectionStatus;
  stats_topics : gmap TopicHash TopicStats;
  known_ips : gset IpAddr;
  behaviour_penalty : f64;
  application_score : f64;
}.

Definition PeerStats_default : PeerStats := mkPeerStats Connected ∅ ∅ f64_zero f64_zero.

Inductive DeliveryStatus : Type := Unknown | Valid (validated : N) | Invalid | Ignored.

Record DeliveryRecord : Type := mkDelivery {
  delivery_status : DeliveryStatus;
  first_seen : N;
  delivery_peers : gset PeerId;
}.

Definition DeliveryRecord_default (now : N) : DeliveryRecord := mkDelivery Unknown now ∅.

Record PeerScore : Type := mkPeerScore {
  params : PeerScoreParams;
  peer_stats : gmap PeerId PeerStats;
  peer_ips : gmap IpAddr (gset PeerId);
  deliveries : TimeCache (Key := MessageId) (Value := DeliveryRecord);
}.

Definition PeerScore_new (p : PeerScoreParams) : PeerScore := mkPeerScore p ∅ ∅ (TimeCache_new (120 * 10 ^ 9)).

Definition set_peer_stats (x : gmap PeerId PeerStats) (ps : PeerScore) : PeerScore :=
  mkPeerScore (params ps) x (peer_ips ps) (deliveries ps).
Definition set_peer_ips (x : gmap IpAddr (gset PeerId)) (ps : PeerScore) : PeerScore :=
  mkPeerScore (params ps) (peer_stats ps) x (deliveries ps).
Definition set_deliveries (x : TimeCache) (ps : PeerScore) : PeerScore :=
  mkPeerScore (params ps) (peer_stats ps) (peer_ips ps) x.

(** ** The score *)

(** A value, up to a cap. *)
Definition capped (v cap : f64) : f64 := if f64_lt v cap then v else cap.

(** The score of one topic. *)
Definition topic_score (tp : TopicScoreParams) (ts : TopicStats) : f64 :=
  let score := f64_zero in
  let score :=
    match mesh_status ts with
    | Active _ mesh_time =>
        let p1 := capped (f64_div (as_secs_f64 mesh_time) (as_secs_f64 (time_in_mesh_quantum tp))) (time_in_mesh_cap tp) in
        f64_add score (f64_mul p1 (time_in_mesh_weight tp))
    | InActive => score
    end in
  let p2 := capped (first_message_deliveries ts) (first_message_deliveries_cap tp) in
  let score := f64_add score (f64_mul p2 (first_message_deliveries_weight tp)) in
  let score :=
    if mesh_message_deliveries_active ts && f64_lt (mesh_message_deliveries ts) (mesh_message_deliveries_threshold tp) then
      let deficit := f64_sub (mesh_message_deliveries_threshold tp) (mesh_message_deliveries ts) in
      f64_add score (f64_mul (f64_mul deficit deficit) (mesh_message_deliveries_weight tp))
    else score in
  let score := f64_add score (f64_mul (mesh_failure_penalty ts) (mesh_failure_penalty_weight tp)) in
  let p4 := f64_mul (invalid_message_deliveries ts) (invalid_message_deliveries ts) in
  f64_add score (f64_mul p4 (invalid_message_deliveries_weight tp)).

(** The penalty for an address that too many peers share. *)
Definition ip_penalty (ps : PeerScore) (score : f64) (ip : IpAddr) : f64 :=
  if decide (ip ∈ ip_colocation_factor_whitelist (params ps)) then score
  else
    match peer_ips ps !! ip with
    | Some peers =>
        let peers_in_ip := f64_of_N (N.of_nat (size peers)) in
        if f64_lt (ip_colocation_factor_threshold (params ps)) peers_in_ip then
          let surplus := f64_sub peers_in_ip (ip_colocation_factor_threshold (params ps)) in
          f64_add score (f64_mul (f64_mul surplus surplus) (ip_colocation_factor_weight (params ps)))
        else score
    | None => score
    end.

(** [metric_score], without the metrics. *)
Definition PeerScore_score (ps : PeerScore) (p : PeerId) : f64 :=
  match peer_stats ps !! p with
  | None => f64_zero
  | Some stats =>
      let add_topic score t :=
        match stats_topics stats !! t, topic_params (params ps) !! t with
        | Some ts, Some tp => f64_add score (f64_mul (topic_score tp ts) (topic_weight tp))
        | _, _ => score
        end in
      let score := foldl add_topic f64_zero (hash_topics (dom (stats_topics stats))) in
      let cap := topic_score_cap (params ps) in
      let score := if f64_lt f64_zero cap && f64_lt cap score then cap else score in
      let score := f64_add score (f64_mul (application_score stats) (app_specific_weight (params ps))) in
      let score := foldl (ip_penalty ps) score (hash_ips (known_ips stats)) in
      if f64_lt (behaviour_penalty_threshold (params ps)) (behaviour_penalty stats) then
        let excess := f64_sub (behaviour_penalty stats) (behaviour_penalty_threshold (params ps)) in
        f64_add score (f64_mul (f64_mul excess excess) (behaviour_penalty_weight (params ps)))
      else score
  end.

(** ** Operations *)

(** [if let Some(peer_stats) = self.peer_stats.get_mut(peer_id) { .. }] *)
Definition with_peer (ps : PeerScore) (p : PeerId) (f : PeerStats → outcome PeerStats) : outcome PeerScore :=
  match peer_stats ps !! p with
  | Some stats => stats ← f stats; Ret (set_peer_stats (<[p := stats]> (peer_stats ps)) ps)
  | None => Ret ps
  end.

Definition PeerStats_stats_or_default_mut (stats : PeerStats) (t : TopicHash) (pr : PeerScoreParams) : option TopicStats :=
  if decide (is_Some (topic_params pr !! t)) then Some (default TopicStats_default (stats_topics stats !! t))
  else stats_topics stats !! t.

Definition set_topic_stats (t : TopicHash) (ts : TopicStats) (stats : PeerStats) : PeerStats :=
  mkPeerStats (status stats) (<[t := ts]> (stats_topics stats)) (known_ips stats) (behaviour_penalty stats) (application_score stats).

(** [if let Some(topic_stats) = peer_stats.stats_or_default_mut(topic, &self.params) { .. }] *)
Definition with_topic (pr : PeerScoreParams) (t : TopicHash) (f : TopicStats → outcome TopicStats) (stats : PeerStats) : outcome PeerStats :=
  match PeerStats_stats_or_default_mut stats t pr with
  | Some ts => ts ← f ts; Ret (set_topic_stats t ts stats)
  | None => Ret stats
  end.

Definition PeerScore_add_penalty (ps : PeerScore) (p : PeerId) (count : nat) : outcome PeerScore :=
  with_peer ps p (λ st, Ret (mkPeerStats (status st) (stats_topics st) (known_ips st)
    (f64_add (behaviour_penalty st) (f64_of_N (N.of_nat count))) (application_score st))).

Definition remove_ips_for_peer (stats : PeerStats) (ips : gmap IpAddr (gset PeerId)) (p : PeerId) : gmap IpAddr (gset PeerId) :=
  foldl (λ ips ip, alter (λ peers, peers ∖ {[p]}) ip ips) ips (elements (known_ips stats)).

(** A counter that decays to zero. *)
Definition decayed (pr : PeerScoreParams) (x decay : f64) : f64 :=
  let x := f64_mul x decay in if f64_lt x (decay_to_zero pr) then f64_zero else x.

Definition refresh_topic (pr : PeerScoreParams) (now : N) (t : TopicHash) (ts : TopicStats) : TopicStats :=
  match topic_params pr !! t with
  | None => ts
  | Some tp =>
      let '(mesh, active) :=
        match mesh_status ts with
        | Active graft_time _ =>
            let mesh_time := (now - graft_time)%N in
            (Active graft_time mesh_time,
             if decide (mesh_message_deliveries_activation tp < mesh_time)%N then true else mesh_message_deliveries_active ts)
        | InActive => (InActive, mesh_message_deliveries_active ts)
        end in
      mkTopicStats mesh (decayed pr (first_message_deliveries ts) (first_message_deliveries_decay tp)) active
        (decayed pr (mesh_message_deliveries ts) (mesh_message_deliveries_decay tp))
        (decayed pr (mesh_failure_penalty ts) (mesh_failure_penalty_decay tp))
        (decayed pr (invalid_message_deliveries ts) (invalid_message_deliveries_decay tp))
  end.

Definition score_expired (now : N) (stats : PeerStats) : bool :=
  match status stats with Disconnected expire => bool_decide (expire < now)%N | Connected => false end.

(** A peer that is kept; the scores of disconnected peers do not decay. *)
Definition refresh_peer (pr : PeerScoreParams) (now : N) (stats : PeerStats) : PeerStats :=
  match status stats with
  | Disconnected _ => stats
  | Connected =>
      mkPeerStats Connected (map_imap (λ t ts, Some (refresh_topic pr now t ts)) (stats_topics stats)) (known_ips stats)
        (decayed pr (behaviour_penalty stats) (behaviour_penalty_decay pr)) (application_score stats)
  end.

Definition PeerScore_refresh_scores (ps : PeerScore) (now : N) : PeerScore :=
  let gone := filter (λ x, score_expired now x.2) (peer_stats ps) in
  mkPeerScore (params ps)
    (refresh_peer (params ps) now <$> filter (λ x, negb (score_expired now x.2)) (peer_stats ps))
    (map_fold (λ p stats ips, remove_ips_for_peer stats ips p) (peer_ips ps) gone)
    (deliveries ps).

Definition connect (stats : PeerStats) : PeerStats :=
  mkPeerStats Connected (stats_topics stats) (known_ips stats) (behaviour_penalty stats) (application_score stats).

Definition PeerScore_add_peer (ps : PeerScore) (p : PeerId) : PeerScore :=
  set_peer_stats (<[p := connect (default PeerStats_default (peer_stats ps !! p))]> (peer_stats ps)) ps.

Definition PeerScore_add_ip (ps : PeerScore) (p : PeerId) (ip : IpAddr) : PeerScore :=
  let st := default PeerStats_default (peer_stats ps !! p) in
  let st := mkPeerStats Connected (stats_topics st) ({[ip]} ∪ known_ips st) (behaviour_penalty st) (application_score st) in
  mkPeerScore (params ps) (<[p := st]> (peer_stats ps)) (<[ip := {[p]} ∪ default ∅ (peer_ips ps !! ip)]> (peer_ips ps)) (deliveries ps).

Definition PeerScore_remove_ip (ps : PeerScore) (p : PeerId) (ip : IpAddr) : PeerScore :=
  match peer_stats ps !! p with
  | Some st =>
      let st := mkPeerStats (status st) (stats_topics st) (known_ips st ∖ {[ip]}) (behaviour_penalty st) (application_score st) in
      mkPeerScore (params ps) (<[p := st]> (peer_stats ps)) (alter (λ peers, peers ∖ {[p]}) ip (peer_ips ps)) (deliveries ps)
  | None => ps
  end.

(** What is left of the statistics of a topic when its peer disconnects. *)
Definition retain_topic (pr : PeerScoreParams) (t : TopicHash) (ts : TopicStats) : TopicStats :=
  let penalty :=
    match topic_params pr !! t with
    | Some tp =>
        if TopicStats_in_mesh ts && mesh_message_deliveries_active ts &&
           f64_lt (mesh_message_deliveries ts) (mesh_message_deliveries_threshold tp) then
          let deficit := f64_sub (mesh_message_deliveries_threshold tp) (mesh_message_deliveries ts) in
          f64_add (mesh_failure_penalty ts) (f64_mul deficit deficit)
        else mesh_failure_penalty ts
    | None => mesh_failure_penalty ts
    end in
  mkTopicStats InActive f64_zero false (mesh_message_deliveries ts) penalty (invalid_message_deliveries ts).

Definition PeerScore_remove_peer (ps : PeerScore) (p : PeerId) (now : N) : PeerScore :=
  if f64_lt f64_zero (PeerScore_score ps p) then
    match peer_stats ps !! p with
    | Some stats => mkPeerScore (params ps) (delete p (peer_stats ps)) (remove_ips_for_peer stats (peer_ips ps) p) (deliveries ps)
    | None => ps
    end
  else
    match peer_stats ps !! p with
    | Some st =>
        let st := mkPeerStats (Disconnected (now + retain_score (params ps))) (map_imap (λ t ts, Some (retain_topic (params ps) t ts)) (stats_topics st))
          (known_ips st) (behaviour_penalty st) (application_score st) in
        set_peer_stats (<[p := st]> (peer_stats ps)) ps
    | None => ps
    end.

Definition PeerScore_graft (ps : PeerScore) (p : PeerId) (t : TopicHash) (now : N) : outcome PeerScore :=
  with_peer ps p (with_topic (params ps) t (λ ts,
    Ret (mkTopicStats (Active now 0) (first_message_deliveries ts) false (mesh_message_deliveries ts) (mesh_failure_penalty ts)
      (invalid_message_deliveries ts)))).

Definition PeerScore_prune (ps : PeerScore) (p : PeerId) (t : TopicHash) : outcome PeerScore :=
  with_peer ps p (with_topic (params ps) t (λ ts,
    threshold ← expect (mesh_message_deliveries_threshold <$> topic_params (params ps) !! t);
    let penalty :=
      if mesh_message_deliveries_active ts && f64_lt (mesh_message_deliveries ts) threshold then
        let deficit := f64_sub threshold (mesh_message_deliveries ts) in
        f64_add (mesh_failure_penalty ts) (f64_mul deficit deficit)
      else mesh_failure_penalty ts in
    Ret (mkTopicStats InActive (first_message_deliveries ts) false (mesh_message_deliveries ts) penalty (invalid_message_deliveries ts)))).

(** [x + 1], up to a cap. *)
Definition count_up (x cap : f64) : f64 := if f64_lt cap (f64_add x f64_one) then cap else f64_add x f64_one.

Definition mark_invalid_message_delivery (ps : PeerScore) (p : PeerId) (t : TopicHash) : outcome PeerScore :=
  with_peer ps p (with_topic (params ps) t (λ ts,
    Ret (mkTopicStats (mesh_status ts) (first_message_deliveries ts) (mesh_message_deliveries_active ts) (mesh_message_deliveries ts)
      (mesh_failure_penalty ts) (f64_add (invalid_message_deliveries ts) f64_one)))).

Definition mark_first_message_delivery (ps : PeerScore) (p : PeerId) (t : TopicHash) : outcome PeerScore :=
  with_peer ps p (with_topic (params ps) t (λ ts,
    tp ← expect (topic_params (params ps) !! t);
    Ret (mkTopicStats (mesh_status ts) (count_up (first_message_deliveries ts) (first_message_deliveries_cap tp))
      (mesh_message_deliveries_active ts)
      (if TopicStats_in_mesh ts then count_up (mesh_message_deliveries ts) (mesh_message_deliveries_cap tp) else mesh_message_deliveries ts)
      (mesh_failure_penalty ts) (invalid_message_deliveries ts)))).

(** A message that was validated at the given time counts while the window is open. *)
Definition in_delivery_window (tp : TopicScoreParams) (validated : option N) (now : N) : bool :=
  match validated with
  | Some v => bool_decide (now ≤ v + mesh_message_deliveries_window tp)%N
  | None => true
  end.

Definition mark_duplicate_message_delivery (ps : PeerScore) (p : PeerId) (t : TopicHash) (validated : option N) (now : N) : outcome PeerScore :=
  with_peer ps p (with_topic (params ps) t (λ ts,
    if TopicStats_in_mesh ts then
      tp ← expect (topic_params (params ps) !! t);
      Ret (if in_delivery_window tp validated now
           then mkTopicStats (mesh_status ts) (first_message_deliveries ts) (mesh_message_deliveries_active ts)
             (count_up (mesh_message_deliveries ts) (mesh_message_deliveries_cap tp)) (mesh_failure_penalty ts) (invalid_message_deliveries ts)
           else ts)
    else Ret ts)).

(** The record of a message, [entry(msg_id).or_insert_with(DeliveryRecord::default)]. *)
Definition delivery_record (ps : PeerScore) (id : MessageId) (now : N) : DeliveryRecord * PeerScore :=
  let '(entry, c) := TimeCache_entry (deliveries ps) id now in
  let '(record, c) := TimeEntry_or_insert_with c entry (DeliveryRecord_default now) in
  (default (DeliveryRecord_default now) record, set_deliveries c ps).

(** Writing to the record. *)
Definition write_record (ps : PeerScore) (id : MessageId) (r : DeliveryRecord) : PeerScore :=
  set_deliveries (TimeCache_get_mut (deliveries ps) id r) ps.

Definition PeerScore_validate_message (ps : PeerScore) (id : MessageId) (now : N) : PeerScore := (delivery_record ps id now).2.

Definition PeerScore_deliver_message (ps : PeerScore) (from : PeerId) (id : MessageId) (t : TopicHash) (now : N) : outcome PeerScore :=
  ps ← mark_first_message_delivery ps from t;
  let '(record, ps) := delivery_record ps id now in
  match delivery_status record with
  | Unknown =>
      let ps := write_record ps id (mkDelivery (Valid now) (first_seen record) (delivery_peers record)) in
      for_each (λ ps p, mark_duplicate_message_delivery ps p t None now) ps (filter (λ p, p ≠ from) (elements (delivery_peers record)))
  | _ => Ret ps
  end.

Definition PeerScore_reject_invalid_message (ps : PeerScore) (from : PeerId) (t : TopicHash) : outcome PeerScore :=
  mark_invalid_message_delivery ps from t.

(** A message that is rejected after a record was made. *)
Definition reject_recorded (ps : PeerScore) (from : PeerId) (id : MessageId) (t : TopicHash) (ignored : bool) (now : N) : outcome PeerScore :=
  let '(record, ps) := delivery_record ps id now in
  match delivery_status record with
  | Unknown =>
      if ignored then Ret (write_record ps id (mkDelivery Ignored (first_seen record) ∅))
      else
        let ps := write_record ps id (mkDelivery Invalid (first_seen record) ∅) in
        ps ← mark_invalid_message_delivery ps from t;
        for_each (λ ps p, mark_invalid_message_delivery ps p t) ps (elements (delivery_peers record))
  | _ => Ret ps
  end.

Definition PeerScore_reject_message (ps : PeerScore) (from : PeerId) (id : MessageId) (t : TopicHash) (reason : RejectReason) (now : N) :
    outcome PeerScore :=
  match reason with
  | Reject_ValidationError _ | SelfOrigin => PeerScore_reject_invalid_message ps from t
  | BlackListedPeer | BlackListedSource => Ret ps
  | ValidationIgnored => reject_recorded ps from id t true now
  | ValidationFailed => reject_recorded ps from id t false now
  end.

Definition PeerScore_duplicated_message (ps : PeerScore) (from : PeerId) (id : MessageId) (t : TopicHash) (now : N) : outcome PeerScore :=
  let '(record, ps) := delivery_record ps id now in
  if decide (from ∈ delivery_peers record) then Ret ps
  else
    let seen := mkDelivery (delivery_status record) (first_seen record) ({[from]} ∪ delivery_peers record) in
    match delivery_status record with
    | Unknown => Ret (write_record ps id seen)
    | Valid validated => mark_duplicate_message_delivery (write_record ps id seen) from t (Some validated) now
    | Invalid => mark_invalid_message_delivery ps from t
    | Ignored => Ret ps
    end.

Definition PeerScore_set_application_score (ps : PeerScore) (p : PeerId) (new_score : f64) : bool * PeerScore :=
  match peer_stats ps !! p with
  | Some st =>
      (true, set_peer_stats (<[p := mkPeerStats (status st) (stats_topics st) (known_ips st) (behaviour_penalty st) new_score]> (peer_stats ps)) ps)
  | None => (false, ps)
  end.

(** The counters above a new, lower cap are lowered. *)
Definition lower_caps (old new : TopicScoreParams) (ts : TopicStats) : TopicStats :=
  let lower (old_cap new_cap x : f64) := if f64_lt new_cap old_cap && f64_lt new_cap x then new_cap else x in
  mkTopicStats (mesh_status ts) (lower (first_message_deliveries_cap old) (first_message_deliveries_cap new) (first_message_deliveries ts))
    (mesh_message_deliveries_active ts)
    (lower (mesh_message_deliveries_cap old) (mesh_message_deliveries_cap new) (mesh_message_deliveries ts))
    (mesh_failure_penalty ts) (invalid_message_deliveries ts).

Definition set_topic (t : TopicHash) (tp : TopicScoreParams) (pr : PeerScoreParams) : PeerScoreParams :=
  mkScoreParams (<[t := tp]> (topic_params pr)) (topic_score_cap pr) (app_specific_weight pr) (ip_colocation_factor_weight pr)
    (ip_colocation_factor_threshold pr) (ip_colocation_factor_whitelist pr) (behaviour_penalty_weight pr)
    (behaviour_penalty_threshold pr) (behaviour_penalty_decay pr) (decay_interval pr) (decay_to_zero pr) (retain_score pr).

Definition PeerScore_set_topic_params (ps : PeerScore) (t : TopicHash) (tp : TopicScoreParams) : PeerScore :=
  let stats :=
    match topic_params (params ps) !! t with
    | Some old =>
        (λ st, mkPeerStats (status st) (alter (lower_caps old tp) t (stats_topics st)) (known_ips st) (behaviour_penalty st)
          (application_score st)) <$> peer_stats ps
    | None => peer_stats ps
    end in
  mkPeerScore (set_topic t tp (params ps)) stats (peer_ips ps) (deliveries ps).
End score.

(** ** Sequences of operations *)

Section facts.
Context {PeerId TopicHash MessageId IpAddr : Type}.
Context `{Countable PeerId} `{Countable TopicHash} `{Countable MessageId} `{Countable IpAddr}.
Context (hash_topics : gset TopicHash → list TopicHash) (hash_ips : gset IpAddr → list IpAddr).

#[local] Abbreviation PeerScore := (PeerScore (PeerId := PeerId) (TopicHash := TopicHash) (MessageId := MessageId) (IpAddr := IpAddr)).
#[local] Abbreviation PeerStats := (PeerStats (TopicHash := TopicHash) (IpAddr := IpAddr)).
#[local] Abbreviation PeerScoreParams := (PeerScoreParams (TopicHash := TopicHash) (IpAddr := IpAddr)).
Implicit Types (ps : PeerScore) (p : PeerId) (t : TopicHash) (ip : IpAddr) (st : PeerStats) (ts : TopicStats) (pr : PeerScoreParams).

Inductive score_op : Type :=
| ScPenalty p (count : nat)
| ScRefresh
| ScAddPeer p
| ScAddIp p ip
| ScRemoveIp p ip
| ScRemovePeer p
| ScGraft p t
| ScPrune p t
| ScValidate (id : MessageId)
| ScDeliver p (id : MessageId) t
| ScRejectInvalid p t
| ScReject p (id : MessageId) t (reason : RejectReason)
| ScDuplicated p (id : MessageId) t
| ScSetApplication p (score : f64)
| ScSetTopic t (tp : TopicScoreParams).

Definition score_apply (op : score_op) (now : N) ps : outcome PeerScore :=
  match op with
  | ScPenalty p count => PeerScore_add_penalty ps p count
  | ScRefresh => Ret (PeerScore_refresh_scores ps now)
  | ScAddPeer p => Ret (PeerScore_add_peer ps p)
  | ScAddIp p ip => Ret (PeerScore_add_ip ps p ip)
  | ScRemoveIp p ip => Ret (PeerScore_remove_ip ps p ip)
  | ScRemovePeer p => Ret (PeerScore_remove_peer hash_topics hash_ips ps p now)
  | ScGraft p t => PeerScore_graft ps p t now
  | ScPrune p t => PeerScore_prune ps p t
  | ScValidate id => Ret (PeerScore_validate_message ps id now)
  | ScDeliver p id t => PeerScore_deliver_message ps p id t now
  | ScRejectInvalid p t => PeerScore_reject_invalid_message ps p t
  | ScReject p id t reason => PeerScore_reject_message ps p id t reason now
  | ScDuplicated p id t => PeerScore_duplicated_message ps p id t now
  | ScSetApplication p x => Ret (PeerScore_set_application_score ps p x).2
  | ScSetTopic t tp => Ret (PeerScore_set_topic_params ps t tp)
  end.

Definition score_run (ops : list (score_op * N)) ps : outcome PeerScore :=
  for_each (λ ps x, score_apply x.1 x.2 ps) ps ops.

(** ** The invariant *)

(** The counters of a topic are not negative. *)
Record counters_ok ts : Prop := {
  co_first : f64_nonneg (first_message_deliveries ts) = true;
  co_mesh : f64_nonneg (mesh_message_deliveries ts) = true;
  co_failure : f64_nonneg (mesh_failure_penalty ts) = true;
  co_invalid : f64_nonneg (invalid_message_deliveries ts) = true;
}.

(** Caps that can be reached. *)
Definition caps_ok (tp : TopicScoreParams) : Prop :=
  f64_nonneg (first_message_deliveries_cap tp) = true ∧ f64_nonneg (mesh_message_deliveries_cap tp) = true.

Record params_ok pr : Prop := {
  po_caps t tp : topic_params pr !! t = Some tp → caps_ok tp;
  po_zero : f64_lt f64_zero (decay_to_zero pr) = true;
}.

(** Only topics with parameters have statistics. *)
Record stats_ok pr st : Prop := {
  so_topics t ts : stats_topics st !! t = Some ts → is_Some (topic_params pr !! t) ∧ counters_ok ts;
  so_penalty : f64_nonneg (behaviour_penalty st) = true;
}.

Record score_inv ps : Prop := {
  si_params : params_ok (params ps);
  si_stats p st : peer_stats ps !! p = Some st → stats_ok (params ps) st;
  si_ips p ip : p ∈ default ∅ (peer_ips ps !! ip) ↔ ∃ st, peer_stats ps !! p = Some st ∧ ip ∈ known_ips st;
}.

Lemma default_counters_ok : counters_ok TopicStats_default.
Proof. by split. Qed.

Lemma default_stats_ok pr : stats_ok pr PeerStats_default.
Proof. split; [|done]. intros t ts. cbn. by rewrite lookup_empty. Qed.

(** The statistics of one peer change, but not its addresses. *)
Lemma score_inv_stats ps p st st' :
  score_inv ps → peer_stats ps !! p = Some st → known_ips st' = known_ips st → stats_ok (params ps) st' →
  score_inv (set_peer_stats (<[p := st']> (peer_stats ps)) ps).
Proof.
  intros [A B C] Hp Hk Hs. split; cbn; [done| |].
  - intros q st0 [[<- <-]|[_ Hq]]%lookup_insert_Some; [done|]. by eapply B.
  - intros q ip. rewrite C. destruct (decide (q = p)) as [->|Hne]; [rewrite lookup_insert_eq, Hp|by rewrite lookup_insert_ne by done].
    split; intros (st0 & [= <-] & Hin); eexists; (split; [done|]); congruence.
Qed.

Lemma score_inv_deliveries ps c : score_inv ps → score_inv (set_deliveries c ps).
Proof. intros [A B C]. by split. Qed.

Lemma with_peer_ok ps p f :
  score_inv ps →
  (∀ st, stats_ok (params ps) st → ∃ st', f st = Ret st' ∧ known_ips st' = known_ips st ∧ stats_ok (params ps) st') →
  ∃ ps', with_peer ps p f = Ret ps' ∧ score_inv ps' ∧ params ps' = params ps.
Proof.
  intros Hi Hf. unfold with_peer. destruct (peer_stats ps !! p) as [st|] eqn:E; [|by eexists].
  destruct (Hf st (si_stats _ Hi _ _ E)) as (st' & -> & Hk & Hs). cbn [mbind outcome_bind].
  eexists. split; [done|]. split; [|done]. by eapply score_inv_stats.
Qed.

(** Statistics of a topic are made only if the topic has parameters. *)
Lemma with_topic_ok pr t f st :
  stats_ok pr st →
  (∀ ts tp, topic_params pr !! t = Some tp → counters_ok ts → ∃ ts', f ts = Ret ts' ∧ counters_ok ts') →
  ∃ st', with_topic pr t f st = Ret st' ∧ known_ips st' = known_ips st ∧ stats_ok pr st'.
Proof.
  intros [Ht Hb] Hf. unfold with_topic, PeerStats_stats_or_default_mut. case_decide as Hd.
  - destruct Hd as [tp Htp]. destruct (Hf (default TopicStats_default (stats_topics st !! t)) tp Htp) as (ts' & -> & Hc).
    { destruct (stats_topics st !! t) as [ts|] eqn:E; [by eapply Ht|apply default_counters_ok]. }
    eexists. split; [done|]. split; [done|]. split; [|done]. cbn. intros t' ts [[<- <-]|[_ Hl]]%lookup_insert_Some; [|by apply Ht].
    split; [by eexists|done].
  - destruct (stats_topics st !! t) as [ts|] eqn:E; [|by eexists]. by destruct (Ht _ _ E) as [? _].
Qed.

Lemma with_peer_topic_ok ps p t f :
  score_inv ps →
  (∀ ts tp, topic_params (params ps) !! t = Some tp → counters_ok ts → ∃ ts', f ts = Ret ts' ∧ counters_ok ts') →
  ∃ ps', with_peer ps p (with_topic (params ps) t f) = Ret ps' ∧ score_inv ps' ∧ params ps' = params ps.
Proof. intros Hi Hf. apply with_peer_ok; [done|]. intros st Hs. by apply with_topic_ok. Qed.

Lemma count_up_nonneg x cap : f64_nonneg x = true → f64_nonneg cap = true → f64_nonneg (count_up x cap) = true.
Proof. intros Hx Hc. unfold count_up. destruct (f64_lt _ _); [done|]. apply f64_add_nonneg; [done|apply f64_of_N_nonneg]. Qed.

Lemma decayed_nonneg pr x d : params_ok pr → f64_nonneg (decayed pr x d) = true.
Proof.
  intros Hp. unfold decayed. cbn zeta. destruct (f64_lt _ _) eqn:E; [done|]. eapply f64_not_lt_nonneg; [exact (po_zero _ Hp)|exact E].
Qed.

Lemma penalty_nonneg (b : bool) x d : f64_nonneg x = true → f64_nonneg (if b then f64_add x (f64_mul d d) else x) = true.
Proof. intros Hx. destruct b; [|done]. apply f64_add_nonneg; [done|apply f64_square_nonneg]. Qed.

Lemma mark_invalid_ok ps p t : score_inv ps → ∃ ps', mark_invalid_message_delivery ps p t = Ret ps' ∧ score_inv ps' ∧ params ps' = params ps.
Proof.
  intros Hi. apply with_peer_topic_ok; [done|]. intros ts tp _ [A B C D]. eexists. split; [done|]. split; [done|done|done|].
  apply f64_add_nonneg; [done|apply f64_of_N_nonneg].
Qed.

Lemma mark_first_ok ps p t : score_inv ps → ∃ ps', mark_first_message_delivery ps p t = Ret ps' ∧ score_inv ps' ∧ params ps' = params ps.
Proof.
  intros Hi. apply with_peer_topic_ok; [done|]. intros ts tp Htp [A B C D]. rewrite Htp. cbn [expect mbind outcome_bind].
  destruct (po_caps _ (si_params _ Hi) _ _ Htp) as [Hc1 Hc2]. eexists. split; [done|]. split; cbn; [by apply count_up_nonneg| |done|done].
  destruct (TopicStats_in_mesh ts); [by apply count_up_nonneg|done].
Qed.

Lemma mark_duplicate_ok ps p t v now :
  score_inv ps → ∃ ps', mark_duplicate_message_delivery ps p t v now = Ret ps' ∧ score_inv ps' ∧ params ps' = params ps.
Proof.
  intros Hi. apply with_peer_topic_ok; [done|]. intros ts tp Htp Hts. pose proof Hts as [A B C D]. destruct (TopicStats_in_mesh ts); [|by eexists].
  rewrite Htp. cbn [expect mbind outcome_bind]. destruct (po_caps _ (si_params _ Hi) _ _ Htp) as [Hc1 Hc2].
  eexists. split; [done|]. destruct (in_delivery_window _ _ _); [|done]. split; cbn; [done|by apply count_up_nonneg|done|done].
Qed.

(** Loops over the peers of a record. *)
Lemma for_each_score {A} (f : PeerScore → A → outcome PeerScore) (l : list A) ps :
  score_inv ps → (∀ ps x, score_inv ps → ∃ ps', f ps x = Ret ps' ∧ score_inv ps' ∧ params ps' = params ps) →
  ∃ ps', for_each f ps l = Ret ps' ∧ score_inv ps'.
Proof.
  revert ps. induction l as [|x l IH]; intros ps Hi Hf; cbn [for_each]; [by exists ps|].
  destruct (Hf ps x Hi) as (ps1 & -> & Hi1 & _). cbn [mbind outcome_bind]. by apply IH.
Qed.

Lemma delivery_record_ok ps id now : score_inv ps → score_inv (delivery_record ps id now).2.
Proof.
  intros Hi. unfold delivery_record. destruct (TimeCache_entry _ _ _) as [e c]. destruct (TimeEntry_or_insert_with _ _ _) as [r c'].
  by apply score_inv_deliveries.
Qed.

Lemma reject_recorded_ok ps p id t ig now :
  score_inv ps → ∃ ps', reject_recorded ps p id t ig now = Ret ps' ∧ score_inv ps'.
Proof.
  intros Hi. unfold reject_recorded. pose proof (delivery_record_ok ps id now Hi) as Hi1. destruct (delivery_record ps id now) as [r ps1].
  cbn in Hi1. destruct (delivery_status r); [|by eexists..]. destruct ig.
  { eexists. split; [done|]. by apply score_inv_deliveries. }
  destruct (mark_invalid_ok (write_record ps1 id (mkDelivery Invalid (first_seen r) ∅)) p t) as (ps2 & -> & Hi2 & _).
  { by apply score_inv_deliveries. }
  cbn [mbind outcome_bind]. apply for_each_score; [done|]. intros ps3 q. apply mark_invalid_ok.
Qed.

Lemma deliver_ok ps p id t now : score_inv ps → ∃ ps', PeerScore_deliver_message ps p id t now = Ret ps' ∧ score_inv ps'.
Proof.
  intros Hi. unfold PeerScore_deliver_message. destruct (mark_first_ok ps p t Hi) as (ps1 & -> & Hi1 & _). cbn [mbind outcome_bind].
  pose proof (delivery_record_ok ps1 id now Hi1) as Hi2. destruct (delivery_record ps1 id now) as [r ps2]. cbn in Hi2.
  destruct (delivery_status r); [|by eexists..]. apply for_each_score; [by apply score_inv_deliveries|]. intros ps3 q. apply mark_duplicate_ok.
Qed.

Lemma duplicated_ok ps p id t now : score_inv ps → ∃ ps', PeerScore_duplicated_message ps p id t now = Ret ps' ∧ score_inv ps'.
Proof.
  intros Hi. unfold PeerScore_duplicated_message. pose proof (delivery_record_ok ps id now Hi) as Hi1.
  destruct (delivery_record ps id now) as [r ps1]. cbn in Hi1. case_decide; [by eexists|]. cbn zeta. destruct (delivery_status r) as [|v| |].
  - eexists. split; [done|by apply score_inv_deliveries].
  - destruct (mark_duplicate_ok (write_record ps1 id (mkDelivery (Valid v) (first_seen r) ({[p]} ∪ delivery_peers r))) p t (Some v) now)
      as (ps2 & Hr & Hi2 & _); [by apply score_inv_deliveries|]. by exists ps2.
  - destruct (mark_invalid_ok ps1 p t Hi1) as (ps2 & Hr & Hi2 & _). by exists ps2.
  - by eexists.
Qed.

(** ** Addresses and disconnections *)

Lemma remove_ips_spec st (ips : gmap IpAddr (gset PeerId)) p q ip :
  q ∈ default ∅ (remove_ips_for_peer st ips p !! ip) ↔ q ∈ default ∅ (ips !! ip) ∧ ¬ (q = p ∧ ip ∈ known_ips st).
Proof.
  unfold remove_ips_for_peer. rewrite <-(elem_of_elements (known_ips st)). generalize (elements (known_ips st)) as l. intros l.
  revert ips. induction l as [|x l IH]; intros ips; cbn [foldl]; [set_solver|]. rewrite IH, elem_of_cons.
  destruct (decide (ip = x)) as [->|Hne]; [rewrite lookup_alter_eq|rewrite lookup_alter_ne by done; tauto].
  destruct (ips !! x); simpl; set_solver.
Qed.

Lemma remove_all_ips_spec (ips : gmap IpAddr (gset PeerId)) (gone : gmap PeerId PeerStats) q ip :
  q ∈ default ∅ (map_fold (λ p st ips, remove_ips_for_peer st ips p) ips gone !! ip) ↔
  q ∈ default ∅ (ips !! ip) ∧ ¬ ∃ st, gone !! q = Some st ∧ ip ∈ known_ips st.
Proof.
  apply (map_fold_weak_ind (λ r gone, q ∈ default ∅ (r !! ip) ↔
    q ∈ default ∅ (ips !! ip) ∧ ¬ ∃ st, gone !! q = Some st ∧ ip ∈ known_ips st)).
  - split; [|tauto]. intros Hq. split; [done|]. intros (st & Hst & _). by rewrite lookup_empty in Hst.
  - intros p st m r Hp IH. rewrite remove_ips_spec, IH. destruct (decide (q = p)) as [->|Hne].
    + rewrite lookup_insert_eq. split.
      * intros [[Hq _] Hn]. split; [done|]. intros (st' & [= <-] & Hin). tauto.
      * intros [Hq Hn]. split; [split; [done|]|].
        -- intros (st' & Hst' & _). by rewrite Hp in Hst'.
        -- intros [_ Hin]. apply Hn. by exists st.
    + rewrite lookup_insert_ne by done. tauto.
Qed.

Lemma refresh_topic_ok pr now t ts : params_ok pr → counters_ok ts → counters_ok (refresh_topic pr now t ts).
Proof.
  intros Hp Hc. unfold refresh_topic. destruct (topic_params pr !! t); [|done].
  destruct (match mesh_status ts with Active g _ => _ | InActive => _ end) as [m a]. split; by apply decayed_nonneg.
Qed.

Lemma refresh_peer_ok pr now st : params_ok pr → stats_ok pr st → stats_ok pr (refresh_peer pr now st) ∧ known_ips (refresh_peer pr now st) = known_ips st.
Proof.
  intros Hp Hs. unfold refresh_peer. destruct (status st); [|done]. split; [|done]. destruct Hs as [A B]. split; cbn; [|by apply decayed_nonneg].
  intros t ts. rewrite map_lookup_imap. destruct (stats_topics st !! t) as [ts0|] eqn:E; [|done]. intros [= <-].
  destruct (A _ _ E) as [Ht Hc]. split; [done|by apply refresh_topic_ok].
Qed.

Lemma refresh_ok ps now : score_inv ps → score_inv (PeerScore_refresh_scores ps now).
Proof.
  intros [A B C]. split; cbn; [done| |].
  - intros p st. rewrite lookup_fmap, map_lookup_filter. destruct (peer_stats ps !! p) as [st0|] eqn:E; [|done]. cbn.
    destruct (score_expired now st0); cbn; [done|]. intros [= <-]. apply refresh_peer_ok; [done|by eapply B].
  - intros p ip. rewrite remove_all_ips_spec, C. rewrite map_lookup_filter, lookup_fmap, map_lookup_filter.
    destruct (peer_stats ps !! p) as [st0|] eqn:E; cbn; [|naive_solver]. destruct (score_expired now st0); cbn.
    + split; [|by intros (? & ? & _)]. intros [(st & [= <-] & Hin) Hn]. destruct Hn. by exists st0.
    + destruct (refresh_peer_ok (params ps) now st0 A (B _ _ E)) as [_ Hk]. split.
      * intros [(st & [= <-] & Hin) _]. eexists. split; [done|]. by rewrite Hk.
      * intros (st & [= <-] & Hin). split; [exists st0; by rewrite <-Hk|by intros (? & ? & _)].
Qed.

Lemma retain_topic_ok pr t ts : counters_ok ts → counters_ok (retain_topic pr t ts).
Proof.
  intros [A B C D]. unfold retain_topic. split; cbn; [done|done| |done]. destruct (topic_params pr !! t); [by apply penalty_nonneg|done].
Qed.

Lemma remove_peer_ok ps p now : score_inv ps → score_inv (PeerScore_remove_peer hash_topics hash_ips ps p now).
Proof.
  intros Hi. unfold PeerScore_remove_peer. destruct (f64_lt _ _); (destruct (peer_stats ps !! p) as [st|] eqn:E; [|done]).
  - destruct Hi as [A B C]. split; cbn; [done| |].
    + intros q st' [_ Hq]%lookup_delete_Some. by eapply B.
    + intros q ip. rewrite remove_ips_spec, C. destruct (decide (q = p)) as [->|Hne].
      * rewrite lookup_delete_eq, E. split; [|by intros (? & ? & _)]. intros [(st' & [= <-] & Hin) Hn]. tauto.
      * rewrite lookup_delete_ne by done. naive_solver.
  - eapply score_inv_stats; [done|done|done|]. destruct (si_stats _ Hi _ _ E) as [A B]. split; cbn; [|done].
    intros t ts. rewrite map_lookup_imap. destruct (stats_topics st !! t) as [ts0|] eqn:Et; [|done]. intros [= <-].
    destruct (A _ _ Et) as [Ht Hc]. split; [done|by apply retain_topic_ok].
Qed.

(** A peer is added, or its addresses change. *)
Lemma score_inv_peer ps p st' ips :
  score_inv ps → stats_ok (params ps) st' →
  (∀ q ip, q ∈ default ∅ (ips !! ip) ↔ if decide (q = p) then ip ∈ known_ips st' else q ∈ default ∅ (peer_ips ps !! ip)) →
  score_inv (mkPeerScore (params ps) (<[p := st']> (peer_stats ps)) ips (deliveries ps)).
Proof.
  intros [A B C] Hs Hips. split; cbn; [done| |].
  - intros q st [[<- <-]|[_ Hq]]%lookup_insert_Some; [done|by eapply B].
  - intros q ip. rewrite Hips. case_decide as Hq; [subst q; rewrite lookup_insert_eq|rewrite lookup_insert_ne by done; apply C].
    split; [by exists st'|]. by intros (st & [= <-] & Hin).
Qed.

Lemma peer_or_default_ok ps p : score_inv ps → stats_ok (params ps) (default PeerStats_default (peer_stats ps !! p)) ∧
  ∀ ip, p ∈ default ∅ (peer_ips ps !! ip) ↔ ip ∈ known_ips (default PeerStats_default (peer_stats ps !! p)).
Proof.
  intros [A B C]. destruct (peer_stats ps !! p) as [st|] eqn:E; cbn.
  - split; [by eapply B|]. intros ip. rewrite C, E. split; [by intros (? & [= <-] & ?)|by eexists].
  - split; [apply default_stats_ok|]. intros ip. rewrite C, E. split; [by intros (? & ? & _)|set_solver].
Qed.

Lemma add_peer_ok ps p : score_inv ps → score_inv (PeerScore_add_peer ps p).
Proof.
  intros Hi. destruct (peer_or_default_ok ps p Hi) as [[A B] Hk]. apply score_inv_peer; [done|by split|].
  intros q ip. case_decide as Hq; [subst q; apply Hk|done].
Qed.

Lemma add_ip_ok ps p ip : score_inv ps → score_inv (PeerScore_add_ip ps p ip).
Proof.
  intros Hi. destruct (peer_or_default_ok ps p Hi) as [[A B] Hk]. apply score_inv_peer; [done|by split|]. cbn [known_ips].
  intros q ip'. destruct (decide (ip' = ip)) as [->|Hne]; [rewrite lookup_insert_eq|rewrite lookup_insert_ne by done]; simpl.
  - rewrite elem_of_union, elem_of_singleton. case_decide as Hq; [subst q|]; set_solver.
  - case_decide as Hq; [subst q; rewrite Hk; set_solver|done].
Qed.

Lemma remove_ip_ok ps p ip : score_inv ps → score_inv (PeerScore_remove_ip ps p ip).
Proof.
  intros Hi. unfold PeerScore_remove_ip. destruct (peer_or_default_ok ps p Hi) as [Hs Hk].
  destruct (peer_stats ps !! p) as [st|]; [|done]. cbn in Hs, Hk. destruct Hs as [A B]. apply score_inv_peer; [done|by split|]. cbn [known_ips].
  intros q ip'. destruct (decide (ip' = ip)) as [->|Hne]; [rewrite lookup_alter_eq|rewrite lookup_alter_ne by done].
  - case_decide as Hq; [subst q|]; destruct (peer_ips ps !! ip); simpl; set_solver.
  - case_decide as Hq; [subst q; rewrite Hk; set_solver|done].
Qed.

Lemma lower_caps_ok old new ts : caps_ok new → counters_ok ts → counters_ok (lower_caps old new ts).
Proof. intros [Hn1 Hn2] [A B C D]. unfold lower_caps. split; cbn; [| |done|done]; by destruct (f64_lt _ _ && f64_lt _ _). Qed.

Lemma set_topic_ok ps t tp : caps_ok tp → score_inv ps → score_inv (PeerScore_set_topic_params ps t tp).
Proof.
  intros Hc [[A1 A2] B C]. split; cbn.
  - split; [|done]. cbn. intros t' tp' [[<- <-]|[_ Hl]]%lookup_insert_Some; [done|by eapply A1].
  - assert (∀ t', is_Some (topic_params (params ps) !! t') → is_Some (<[t := tp]> (topic_params (params ps)) !! t')) as Hgrow.
    { intros t' Ht'. destruct (decide (t' = t)) as [->|]; [rewrite lookup_insert_eq; by eexists|by rewrite lookup_insert_ne]. }
    intros p st. destruct (topic_params (params ps) !! t) as [old|] eqn:E.
    + rewrite lookup_fmap. destruct (peer_stats ps !! p) as [st0|] eqn:Ep; [|done]. intros [= <-]. destruct (B _ _ Ep) as [D1 D2].
      split; cbn; [|done]. intros t' ts. destruct (decide (t' = t)) as [->|Hne]; [rewrite lookup_alter_eq|rewrite lookup_alter_ne by done].
      * destruct (stats_topics st0 !! t) as [ts0|] eqn:Et; [|done]. intros [= <-]. destruct (D1 _ _ Et). split; [by apply Hgrow|by apply lower_caps_ok].
      * intros Ht'. destruct (D1 _ _ Ht'). split; [by apply Hgrow|done].
    + intros Hp. destruct (B _ _ Hp) as [D1 D2]. split; [|done]. cbn. intros t' ts Ht'. destruct (D1 _ _ Ht'). split; [by apply Hgrow|done].
  - intros p ip. rewrite C. destruct (topic_params (params ps) !! t); [|done]. rewrite lookup_fmap.
    destruct (peer_stats ps !! p); naive_solver.
Qed.

(** Only the parameters of topics that are set later have to be usable. *)
Definition score_op_ok (op : score_op) : Prop := match op with ScSetTopic _ tp => caps_ok tp | _ => True end.

Lemma score_apply_ok op now ps : score_op_ok op → score_inv ps → ∃ ps', score_apply op now ps = Ret ps' ∧ score_inv ps'.
Proof.
  intros Hop Hi. destruct op as [p count| |p|p ip|p ip|p|p t|p t|id|p id t|p t|p id t reason|p id t|p x|t tp]; cbn [score_apply].
  - destruct (with_peer_ok ps p (λ st, Ret (mkPeerStats (status st) (stats_topics st) (known_ips st)
      (f64_add (behaviour_penalty st) (f64_of_N (N.of_nat count))) (application_score st))) Hi) as (ps' & Hr & Hi' & _); [|by exists ps'].
    intros st [A B]. eexists. split; [done|]. split; [done|]. split; [done|]. apply f64_add_nonneg; [done|apply f64_of_N_nonneg].
  - eexists. split; [done|by apply refresh_ok].
  - eexists. split; [done|by apply add_peer_ok].
  - eexists. split; [done|by apply add_ip_ok].
  - eexists. split; [done|by apply remove_ip_ok].
  - eexists. split; [done|by apply remove_peer_ok].
  - destruct (with_peer_topic_ok ps p t (λ ts, Ret (mkTopicStats (Active now 0) (first_message_deliveries ts) false (mesh_message_deliveries ts)
      (mesh_failure_penalty ts) (invalid_message_deliveries ts))) Hi) as (ps' & Hr & Hi' & _); [|by exists ps'].
    intros ts tp _ [A B C D]. eexists. split; [done|by split].
  - unfold PeerScore_prune. destruct (with_peer_topic_ok ps p t (λ ts,
      threshold ← expect (mesh_message_deliveries_threshold <$> topic_params (params ps) !! t);
      let penalty :=
        if mesh_message_deliveries_active ts && f64_lt (mesh_message_deliveries ts) threshold then
          let deficit := f64_sub threshold (mesh_message_deliveries ts) in
          f64_add (mesh_failure_penalty ts) (f64_mul deficit deficit)
        else mesh_failure_penalty ts in
      Ret (mkTopicStats InActive (first_message_deliveries ts) false (mesh_message_deliveries ts) penalty (invalid_message_deliveries ts))) Hi)
      as (ps' & Hr & Hi' & _); [|by exists ps'].
    intros ts tp Htp [A B C D]. rewrite Htp. eexists. split; [done|]. split; cbn; [done|done|by apply penalty_nonneg|done].
  - eexists. split; [done|by apply delivery_record_ok].
  - by apply deliver_ok.
  - destruct (mark_invalid_ok ps p t Hi) as (ps' & Hr & Hi' & _). by exists ps'.
  - unfold PeerScore_reject_message, PeerScore_reject_invalid_message. destruct (mark_invalid_ok ps p t Hi) as (ps' & Hr & Hi' & _).
    destruct reason; [by exists ps'|by exists ps'|by exists ps|by exists ps|by apply reject_recorded_ok|by apply reject_recorded_ok].
  - by apply duplicated_ok.
  - eexists. split; [done|]. unfold PeerScore_set_application_score. destruct (peer_stats ps !! p) as [st|] eqn:E; [|done]. cbn.
    eapply score_inv_stats; [done|done|done|]. destruct (si_stats _ Hi _ _ E). by split.
  - eexists. split; [done|by apply set_topic_ok].
Qed.

(** [C34] Whatever is reported about peers, with topic parameters whose caps are not
    negative, those that are set later included, and a positive [decay_to_zero]
    ([params_ok], [score_op_ok]), computing their scores never panics; the addresses
    of the peers and the peers of an address are always inverse to each other;
    statistics exist only for topics with parameters; and no counter that enters a
    score is ever negative, so that penalties are never rewards. *)
Theorem PeerScore_run_safe pr (ops : list (score_op * N)) :
  params_ok pr → Forall (λ x, score_op_ok x.1) ops → ∃ ps, score_run ops (PeerScore_new pr) = Ret ps ∧ score_inv ps.
Proof.
  intros Hp Hops. set (ps0 := PeerScore_new pr : PeerScore). assert (score_inv ps0) as Hi.
  { split; cbn; [done| |].
    - intros p st. by rewrite lookup_empty.
    - intros p ip. rewrite !lookup_empty. cbn. set_solver. }
  revert Hi. change (PeerScore_new pr) with ps0. generalize ps0. unfold score_run. induction Hops as [|[op now] ops Hop _ IH]; intros ps Hi; cbn [for_each]; [by exists ps|]. cbn [fst snd].
  destruct (score_apply_ok op now ps Hop Hi) as (ps1 & -> & Hi1). cbn [mbind outcome_bind]. by apply IH.
Qed.

(** ** Reconnections *)

(** The statistics [ts'] of a topic of a peer that comes back, which has left with
    [ts]. *)
Record retained_topic pr (t : TopicHash) (ts ts' : TopicStats) : Prop := {
  rt_mesh : mesh_status ts' = InActive;
  rt_active : mesh_message_deliveries_active ts' = false;
  rt_first : first_message_deliveries ts' = f64_zero;
  rt_deliveries : mesh_message_deliveries ts' = mesh_message_deliveries ts;
  rt_invalid : invalid_message_deliveries ts' = invalid_message_deliveries ts;
  rt_failure :
    mesh_failure_penalty ts' = mesh_failure_penalty ts ∧
      (∀ tp, topic_params pr !! t = Some tp → TopicStats_in_mesh ts = true → mesh_message_deliveries_active ts = true →
       f64_lt (mesh_message_deliveries ts) (mesh_message_deliveries_threshold tp) = false) ∨
    ∃ tp, let deficit := f64_sub (mesh_message_deliveries_threshold tp) (mesh_message_deliveries ts) in
      topic_params pr !! t = Some tp ∧ TopicStats_in_mesh ts = true ∧ mesh_message_deliveries_active ts = true ∧
      f64_lt (mesh_message_deliveries ts) (mesh_message_deliveries_threshold tp) = true ∧
      mesh_failure_penalty ts' = f64_add (mesh_failure_penalty ts) (f64_mul deficit deficit);
}.

(** The statistics [st'] of a peer that comes back, which has left with [st]. *)
Record retained pr (st st' : PeerStats) : Prop := {
  rt_connected : status st' = Connected;
  rt_ips : known_ips st' = known_ips st;
  rt_behaviour : behaviour_penalty st' = behaviour_penalty st;
  rt_application : application_score st' = application_score st;
  rt_topics t : option_Forall2 (retained_topic pr t) (stats_topics st !! t) (stats_topics st' !! t);
}.

Lemma retain_topic_retained pr t ts : retained_topic pr t ts (retain_topic pr t ts).
Proof.
  split; try done. cbn [retain_topic mesh_failure_penalty]. destruct (topic_params pr !! t) as [tp|]; [|by left; split].
  destruct (TopicStats_in_mesh ts); [|by left; split]. destruct (mesh_message_deliveries_active ts); [|by left; split]. cbn [andb].
  destruct (f64_lt _ _) eqn:E; [by right; exists tp|]. left. split; [done|]. by intros tp' [= <-].
Qed.

Lemma refresh_disconnected ps p st expire now :
  peer_stats ps !! p = Some st → status st = Disconnected expire → (now ≤ expire)%N →
  peer_stats (PeerScore_refresh_scores ps now) !! p = Some st ∧ params (PeerScore_refresh_scores ps now) = params ps.
Proof.
  intros Hp Hst Hn. split; [|done]. assert (score_expired now st = false) as He.
  { unfold score_expired. rewrite Hst. by apply bool_decide_false, N.le_ngt. }
  cbn [PeerScore_refresh_scores peer_stats]. rewrite lookup_fmap, map_lookup_filter, Hp. cbn [mbind option_bind fst snd]. rewrite He.
  destruct st as [stat tops ips pen app]. cbn in Hst. by subst stat.
Qed.

(** [C35] A peer cannot get rid of a bad score by reconnecting: if its score is not
    positive when it disconnects, then whatever refreshes happen within the time that
    scores are retained, it comes back with its penalties as they were, those for a
    deficit of deliveries added, and without its credit for first deliveries. *)
Theorem reconnecting_keeps_score ps p st (now : N) (refreshes : list N) :
  peer_stats ps !! p = Some st → f64_lt f64_zero (PeerScore_score hash_topics hash_ips ps p) = false →
  Forall (λ x, x ≤ now + retain_score (params ps))%N refreshes →
  let ps' := foldl PeerScore_refresh_scores (PeerScore_remove_peer hash_topics hash_ips ps p now) refreshes in
  ∃ st', peer_stats (PeerScore_add_peer ps' p) !! p = Some st' ∧ retained (params ps) st st'.
Proof.
  intros Hp Hs Hr ps'. unfold PeerScore_add_peer. cbn [set_peer_stats peer_stats]. rewrite lookup_insert_eq. eexists. split; [done|].
  set (st' := mkPeerStats (Disconnected (now + retain_score (params ps))) (map_imap (λ t ts, Some (retain_topic (params ps) t ts)) (stats_topics st))
    (known_ips st) (behaviour_penalty st) (application_score st)).
  assert (peer_stats ps' !! p = Some st') as ->.
  2:{ split; [done..|]. intros t. cbn [from_option id connect stats_topics st']. rewrite map_lookup_imap.
      destruct (stats_topics st !! t); constructor. apply retain_topic_retained. }
  assert (peer_stats (PeerScore_remove_peer hash_topics hash_ips ps p now) !! p = Some st') as H0'.
  { unfold PeerScore_remove_peer. rewrite Hs, Hp. cbn. by rewrite lookup_insert_eq. }
  subst ps'. revert H0'. generalize (PeerScore_remove_peer hash_topics hash_ips ps p now) as ps0.
  induction Hr as [|t l Ht _ IH]; intros ps0 H0'; cbn [foldl]; [done|].
  apply IH. by eapply refresh_disconnected.
Qed.

(** ** The interface of the behaviour *)

(** The operations with the clock at [now]; what the behaviour uses of a [PeerScore]. *)
Definition score_or (r : outcome PeerScore) ps : PeerScore := match r with Ret ps' => ps' | Panic => ps end.

Definition peer_scoring (now : N) : PeerScoring PeerId TopicHash MessageId IpAddr PeerScore := {|
  GossipBehaviour.PeerScore_score ps p := PeerScore_score hash_topics hash_ips ps p;
  GossipBehaviour.PeerScore_graft ps p t := score_or (PeerScore_graft ps p t now) ps;
  GossipBehaviour.PeerScore_prune ps p t := score_or (PeerScore_prune ps p t) ps;
  GossipBehaviour.PeerScore_add_penalty ps p count := score_or (PeerScore_add_penalty ps p count) ps;
  GossipBehaviour.PeerScore_add_peer ps p := PeerScore_add_peer ps p;
  GossipBehaviour.PeerScore_remove_peer ps p := PeerScore_remove_peer hash_topics hash_ips ps p now;
  GossipBehaviour.PeerScore_add_ip ps p ip := PeerScore_add_ip ps p ip;
  GossipBehaviour.PeerScore_remove_ip ps p ip := PeerScore_remove_ip ps p ip;
  GossipBehaviour.PeerScore_refresh_scores ps := PeerScore_refresh_scores ps now;
  GossipBehaviour.PeerScore_validate_message ps _ id _ := PeerScore_validate_message ps id now;
  GossipBehaviour.PeerScore_deliver_message ps p id t := score_or (PeerScore_deliver_message ps p id t now) ps;
  GossipBehaviour.PeerScore_reject_invalid_message ps p t := score_or (PeerScore_reject_invalid_message ps p t) ps;
  GossipBehaviour.PeerScore_reject_message ps p id t reason := score_or (PeerScore_reject_message ps p id t reason now) ps;
  GossipBehaviour.PeerScore_duplicated_message ps p id t := score_or (PeerScore_duplicated_message ps p id t now) ps;
|}.
End facts.

(** ** An instance *)

Module score_example.
Definition minus (x : f64) : f64 := SFopp x.

Definition topic : TopicScoreParams := {|
  topic_weight := f64_one; time_in_mesh_weight := f64_one; time_in_mesh_quantum := 10 ^ 9; time_in_mesh_cap := f64_of_N 3600;
  first_message_deliveries_weight := f64_one; first_message_deliveries_decay := f64_half; first_message_deliveries_cap := f64_of_N 2000;
  mesh_message_deliveries_weight := minus f64_one; mesh_message_deliveries_decay := f64_half; mesh_message_deliveries_cap := f64_of_N 100;
  mesh_message_deliveries_threshold := f64_of_N 20; mesh_message_deliveries_window := 10 ^ 7; mesh_message_deliveries_activation := 10 ^ 9;
  mesh_failure_penalty_weight := minus f64_one; mesh_failure_penalty_decay := f64_half;
  invalid_message_deliveries_weight := minus f64_one; invalid_message_deliveries_decay := f64_half
|}.

Definition params : PeerScoreParams (TopicHash := nat) (IpAddr := nat) := {|
  topic_params := {[7 := topic]}; topic_score_cap := f64_of_N 3600; app_specific_weight := f64_one;
  ip_colocation_factor_weight := minus f64_one; ip_colocation_factor_threshold := f64_of_N 10; ip_colocation_factor_whitelist := ∅;
  behaviour_penalty_weight := minus f64_one; behaviour_penalty_threshold := f64_zero; behaviour_penalty_decay := f64_half;
  decay_interval := 10 ^ 9; decay_to_zero := f64_half; retain_score := 3600 * 10 ^ 9
|}.

Lemma params_valid : PeerScoreParams_validate elements params = Ok tt.
Proof. vm_compute. reflexivity. Qed.

Lemma usable : params_ok params.
Proof.
  split; [|vm_compute; reflexivity]. intros t tp. cbn [params topic_params]. intros [<- <-]%lookup_singleton_Some. split; vm_compute; reflexivity.
Qed.

(** A peer that is in the mesh for two seconds, delivers nothing but an invalid message
    and disconnects. *)
Definition ops : list (score_op (PeerId := nat) (TopicHash := nat) (MessageId := nat) (IpAddr := nat) * N) :=
  [(ScAddPeer 1, 0%N); (ScAddIp 1 3, 0%N); (ScGraft 1 7, 0%N); (ScRefresh, (2 * 10 ^ 9)%N); (ScDuplicated 1 9 7, (2 * 10 ^ 9)%N);
   (ScReject 2 9 7 ValidationFailed, (2 * 10 ^ 9)%N)].
Definition final : outcome (PeerScore (PeerId := nat) (TopicHash := nat) (MessageId := nat) (IpAddr := nat)) :=
  score_run elements elements ops (PeerScore_new params).
End score_example.

Lemma PeerScore_run_safe_witness :
  ∃ ps, score_example.final = Ret ps ∧ score_inv ps.
Proof.
  apply (PeerScore_run_safe elements elements score_example.params score_example.ops score_example.usable).
  repeat constructor.
Defined.

Lemma reconnecting_keeps_score_witness :
  match score_example.final with
  | Ret ps =>
      match peer_stats ps !! 1 with
      | Some st =>
          let ps' := foldl PeerScore_refresh_scores (PeerScore_remove_peer elements elements ps 1 (3 * 10 ^ 9)) [5 * 10 ^ 9; 3602 * 10 ^ 9]%N in
          ∃ st', peer_stats (PeerScore_add_peer ps' 1) !! 1 = Some st' ∧ retained (params ps) st st'
      | None => False
      end
  | Panic => False
  end.
Proof.
  assert (match score_example.final with
    | Ret ps => match peer_stats ps !! 1 with
        | Some st => f64_lt f64_zero (PeerScore_score elements elements ps 1) = false ∧ retain_score (params ps) = (3600 * 10 ^ 9)%N
        | None => False end
    | Panic => False end) as Hc by (vm_compute; split; reflexivity).
  destruct score_example.final as [ps|]; [|exact Hc]. destruct (peer_stats ps !! 1) as [st|] eqn:E; [|exact Hc].
  destruct Hc as (Hs & Hr).
  apply (reconnecting_keeps_score elements elements ps 1 st (3 * 10 ^ 9) [5 * 10 ^ 9; 3602 * 10 ^ 9]%N E Hs).
  rewrite Hr. repeat constructor; vm_compute; discriminate.
Defined.
