(* ===== verification/GossipHeartbeat.v ===== *)
(** * The heartbeat of gossipsub

    [heartbeat] of [protocols/gossipsub/src/behaviour.rs]: the maintenance of the mesh
    and of the fanout, the gossip and the control messages.  After a heartbeat, the
    mesh of every topic is as the parameters ask for it. *)

From S2P Require Import Prelude Float64 GossipTimeCache GossipBackoff GossipMcache GossipRpc GossipFilter GossipBehaviour.
From stdpp Require Import fin_maps fin_sets strings.

Section heartbeat.
Context {PeerId TopicHash MessageId FastMessageId ConnectionId IpAddr : Type}.
Context `{Countable PeerId} `{Countable TopicHash} `{Countable MessageId} `{Countable FastMessageId} `{!EqDecision ConnectionId}.
Context {PS F G : Type} `{!PeerScoring PeerId TopicHash MessageId IpAddr PS} `{!TopicSubscriptionFilter TopicHash F} `{!Rng G}.
Context `{!EncodedLen MessageId TopicHash}.
Context (to_bytes : PeerId → list byte).

#[local] Abbreviation Gossipsub := (Gossipsub (PeerId := PeerId) (TopicHash := TopicHash) (MessageId := MessageId)
  (FastMessageId := FastMessageId) (ConnectionId := ConnectionId) (PS := PS) (F := F) (G := G)).
#[local] Abbreviation Orders := (Orders (PeerId := PeerId) (TopicHash := TopicHash) (MessageId := MessageId)).
#[local] Abbreviation Control := (GossipsubControlAction MessageId TopicHash PeerId).

Context (o : Orders) (now : N).

(** ** The mesh of one topic *)

(** The cached scores. *)
Definition score_of (scores : gmap PeerId f64) (p : PeerId) : f64 := default f64_zero (scores !! p).

(** What the maintenance of a topic changes: its peers, the grafts and prunes to send,
    the peers that get no peer exchange, and the generator. *)
Record Maintenance : Type := mkMaintenance {
  m_peers : gset PeerId;
  m_graft : gmap PeerId (list TopicHash);
  m_prune : gmap PeerId (list TopicHash);
  m_no_px : gset PeerId;
  m_rng : G;
}.

(** [entry(peer).or_insert_with(Vec::new).push(topic)] *)
Definition push_topic (topic : TopicHash) (m : gmap PeerId (list TopicHash)) (peer : PeerId) : gmap PeerId (list TopicHash) :=
  <[peer := default [] (m !! peer) ++ [topic]]> m.

(** Peers with a negative score are dropped. *)
Definition drop_negative (topic : TopicHash) (scores : gmap PeerId f64) (m : Maintenance) : Maintenance :=
  let to_remove := filter (λ p, f64_lt (score_of scores p) f64_zero) (btree_peers o (m_peers m)) in
  mkMaintenance (m_peers m ∖ list_to_set to_remove) (m_graft m) (foldl (push_topic topic) (m_prune m) to_remove)
    (m_no_px m ∪ list_to_set to_remove) (m_rng m).

(** New peers are added to the mesh. *)
Definition graft_new (topic : TopicHash) (new_peers : gset PeerId) (g : G) (m : Maintenance) : Maintenance :=
  mkMaintenance (m_peers m ∪ new_peers) (foldl (push_topic topic) (m_graft m) (btree_peers o new_peers)) (m_prune m) (m_no_px m) g.

(** The condition that all new peers of a heartbeat satisfy, the score apart. *)
Definition may_graft (s : Gossipsub) (topic : TopicHash) (peers : gset PeerId) (p : PeerId) : bool :=
  bool_decide (p ∉ peers) && bool_decide (p ∉ explicit_peers s) &&
  negb (BackoffStorage_is_backoff_with_slack (backoff_storage s) topic p).

(** Too few peers: some are added. *)
Definition fill_low (s : Gossipsub) (topic : TopicHash) (scores : gmap PeerId f64) (m : Maintenance) : outcome Maintenance :=
  if decide (size (m_peers m) < mesh_n_low (config s)) then
    desired ← usize_sub (mesh_n (config s)) (size (m_peers m));
    let '(peer_list, g) := get_random_peers o (topic_peers s) (connected_peers s) topic desired
      (λ p, may_graft s topic (m_peers m) p && f64_le f64_zero (score_of scores p)) (m_rng m) in
    Ret (graft_new topic peer_list g m)
  else Ret m.

(** The loop that removes the excess peers. *)
Fixpoint remove_excess (s : Gossipsub) (topic : TopicHash) (excess removed outbound : nat) (peers : gset PeerId)
    (to_prune : gmap PeerId (list TopicHash)) (shuffled : list PeerId) : gset PeerId * gmap PeerId (list TopicHash) :=
  match shuffled with
  | [] => (peers, to_prune)
  | peer :: shuffled =>
      if decide (removed = excess) then (peers, to_prune)
      else if decide (peer ∈ outbound_peers s ∧ outbound ≤ mesh_outbound_min (config s))
      then remove_excess s topic excess removed outbound peers to_prune shuffled
      else
        let outbound := if decide (peer ∈ outbound_peers s) then outbound - 1 else outbound in
        remove_excess s topic excess (S removed) outbound (peers ∖ {[peer]}) (push_topic topic to_prune peer) shuffled
  end.

(** Too many peers: some are removed, but not the best, nor the last outbound ones. *)
Definition trim_high (s : Gossipsub) (topic : TopicHash) (scores : gmap PeerId f64) (m : Maintenance) : outcome Maintenance :=
  if decide (mesh_n_high (config s) < size (m_peers m)) then
    excess ← usize_sub (size (m_peers m)) (mesh_n (config s));
    let '(shuffled, g) := shuffle (m_rng m) (btree_peers o (m_peers m)) in
    let shuffled := sort_by (λ p1 p2, f64_cmp_le (score_of scores p1) (score_of scores p2)) shuffled in
    worst ← usize_sub (size (m_peers m)) (retain_scores (config s));
    let '(front, g) := shuffle g (take worst shuffled) in
    let shuffled := front ++ drop worst shuffled in
    let outbound := length (filter (λ p, p ∈ outbound_peers s) shuffled) in
    let '(peers, to_prune) := remove_excess s topic excess 0 outbound (m_peers m) (m_prune m) shuffled in
    Ret (mkMaintenance peers (m_graft m) to_prune (m_no_px m) g)
  else Ret m.

(** Enough outbound peers are in the mesh. *)
Definition graft_outbound (s : Gossipsub) (topic : TopicHash) (scores : gmap PeerId f64) (m : Maintenance) : Maintenance :=
  if decide (mesh_n_low (config s) ≤ size (m_peers m)) then
    let outbound := length (filter (λ p, p ∈ outbound_peers s) (btree_peers o (m_peers m))) in
    if decide (outbound < mesh_outbound_min (config s)) then
      let needed := mesh_outbound_min (config s) - outbound in
      let '(peer_list, g) := get_random_peers o (topic_peers s) (connected_peers s) topic needed
        (λ p, may_graft s topic (m_peers m) p && (f64_le f64_zero (score_of scores p) &&
              bool_decide (p ∈ outbound_peers s))) (m_rng m) in
      graft_new topic peer_list g m
    else m
  else m.

(** The median score of the peers of a mesh. *)
Definition median_score (scores : gmap PeerId f64) (peers : gset PeerId) : outcome f64 :=
  let peers_by_score := sort_by (λ p1 p2, f64_cmp_le (score_of scores p1) (score_of scores p2)) (btree_peers o peers) in
  let middle := length peers_by_score `div` 2 in
  if decide (length peers_by_score `mod` 2 = 0) then
    sub_middle ← usize_sub middle 1;
    sub_middle_peer ← expect (peers_by_score !! sub_middle);
    middle_peer ← expect (peers_by_score !! middle);
    Ret (f64_mul (f64_add (score_of scores sub_middle_peer) (score_of scores middle_peer)) f64_half)
  else
    middle_peer ← expect (peers_by_score !! middle);
    Ret (score_of scores middle_peer).

(** Opportunistic grafting: a mesh with a low median score gets better peers. *)
Definition graft_opportunistic (s : Gossipsub) (topic : TopicHash) (scores : gmap PeerId f64) (m : Maintenance) :
    outcome Maintenance :=
  _ ← assert (bool_decide (opportunistic_graft_ticks (config s) ≠ 0)%N);
  match peer_score s with
  | Some (_, thresholds, _) =>
      if decide ((heartbeat_ticks s) mod (opportunistic_graft_ticks (config s)) = 0 ∧ 1 < N.of_nat (size (m_peers m)))%N then
        median ← median_score scores (m_peers m);
        if f64_lt median (opportunistic_graft_threshold thresholds) then
          let '(peer_list, g) := get_random_peers o (topic_peers s) (connected_peers s) topic (opportunistic_graft_peers (config s))
            (λ p, may_graft s topic (m_peers m) p && f64_lt median (score_of scores p)) (m_rng m) in
          Ret (graft_new topic peer_list g m)
        else Ret m
      else Ret m
  | None => Ret m
  end.

Definition heartbeat_topic (s : Gossipsub) (topic : TopicHash) (scores : gmap PeerId f64) (m : Maintenance) : outcome Maintenance :=
  let m := drop_negative topic scores m in
  m ← fill_low s topic scores m;
  m ← trim_high s topic scores m;
  graft_opportunistic s topic scores (graft_outbound s topic scores m).

(** One turn of the loop over the meshes.  Only the peers of the topic change in the
    state, which the steps for the other topics do not look at. *)
Definition heartbeat_mesh_turn (scores : gmap PeerId f64) (st : Gossipsub * Maintenance) (topic : TopicHash) :
    outcome (Gossipsub * Maintenance) :=
  let '(s, m) := st in
  peers ← expect (mesh s !! topic);
  m ← heartbeat_topic s topic scores (mkMaintenance peers (m_graft m) (m_prune m) (m_no_px m) (m_rng m));
  Ret (set_mesh (<[topic := m_peers m]> (mesh s)) s, m).

(** ** The fanout *)

(** Fanout topics to which nothing was published for a while are removed. *)
Definition expire_fanout (s : Gossipsub) : Gossipsub :=
  let expired (x : TopicHash * N) := bool_decide (x.2 + fanout_ttl (config s) < now)%N in
  let gone := dom (filter expired (fanout_last_pub s)) in
  set_fanout (filter (λ x, x.1 ∉ gone) (fanout s)) (set_fanout_last_pub (filter (λ x, negb (expired x)) (fanout_last_pub s)) s).

(** One turn of the loop over the fanout. *)
Definition maintain_fanout_turn (scores : gmap PeerId f64) (s : Gossipsub) (topic : TopicHash) : Gossipsub :=
  match fanout s !! topic with
  | None => s
  | Some peers =>
      let publish_threshold := match peer_score s with Some (_, thresholds, _) => publish_threshold thresholds | None => f64_zero end in
      let gone p :=
        match peer_topics s !! p with
        | Some topics => bool_decide (topic ∉ topics) || f64_lt (score_of scores p) publish_threshold
        | None => true
        end in
      let peers : gset PeerId := filter (λ p, negb (gone p)) peers in
      let '(peers, g) :=
        if decide (size peers < mesh_n (config s)) then
          let '(new_peers, g) := get_random_peers o (topic_peers s) (connected_peers s) topic (mesh_n (config s) - size peers)
            (λ p, bool_decide (p ∉ peers) && bool_decide (p ∉ explicit_peers s) && f64_lt (score_of scores p) publish_threshold)
            (rng s) in
          (peers ∪ new_peers, g)
        else (peers, rng s) in
      set_rng g (set_fanout (<[topic := peers]> (fanout s)) s)
  end.

(** ** Gossip and control messages *)

(** The IHAVE for one peer. *)
Definition emit_gossip_peer (topic : TopicHash) (message_ids : list MessageId) (s : Gossipsub) (peer : PeerId) : Gossipsub :=
  let max := max_ihave_length (config s) in
  let '(ids, g) :=
    if decide (max < length message_ids)
    then let '(ids, g) := partial_shuffle (rng s) max message_ids in (take max ids, g)
    else (message_ids, rng s) in
  set_rng g (set_control_pool (control_pool_add (control_pool s) peer (IHave topic ids)) s).

(** One turn of the loop of [emit_gossip]. *)
Definition emit_gossip_turn (s : Gossipsub) (tp : TopicHash * gset PeerId) : outcome Gossipsub :=
  let '(topic, peers) := tp in
  message_ids ← MessageCache_get_gossip_message_ids (mcache s) topic;
  if decide (message_ids = []) then Ret s
  else
    let '(message_ids, g) :=
      if decide (max_ihave_length (config s) < length message_ids) then (message_ids, rng s) else shuffle (rng s) message_ids in
    let n_map m := Nat.max (gossip_lazy (config s)) (N.to_nat (f64_to_usize (f64_mul (gossip_factor (config s)) (f64_of_N (N.of_nat m))))) in
    let '(to_msg_peers, g) := get_random_peers_dynamic o (topic_peers s) (connected_peers s) topic n_map
      (λ p, bool_decide (p ∉ peers) && bool_decide (p ∉ explicit_peers s) &&
            negb (Gossipsub_score_below_threshold s p gossip_threshold).1) g in
    Ret (foldl (emit_gossip_peer topic message_ids) (set_rng g s) (btree_peers o to_msg_peers)).

(** The entries of a map of peers by topic, in the order in which it is visited. *)
Definition topic_entries (m : gmap TopicHash (gset PeerId)) : list (TopicHash * gset PeerId) :=
  omap (λ t, (λ peers, (t, peers)) <$> m !! t) (hash_topics o (dom m)).

Definition Gossipsub_emit_gossip (s : Gossipsub) : outcome Gossipsub :=
  for_each emit_gossip_turn s (topic_entries (mesh s) ++ topic_entries (fanout s)).

(** The grafts of one peer in [send_graft_prune]. *)
Definition added_topic (peer : PeerId) (s : Gossipsub) (topic : TopicHash) : outcome Gossipsub :=
  let s := on_score (λ ps, PeerScore_graft ps peer topic) s in
  ev ← peer_added_to_mesh peer [topic] (mesh s) (peer_topics s !! peer) (events s) (connected_peers s);
  Ret (set_events ev s).

(** One turn of the first loop of [send_graft_prune]. *)
Definition send_grafts_turn (no_px : gset PeerId) (st : Gossipsub * gmap PeerId (list TopicHash)) (pt : PeerId * list TopicHash) :
    outcome (Gossipsub * gmap PeerId (list TopicHash)) :=
  let '(s, to_prune) := st in
  let '(peer, topics) := pt in
  s ← for_each (added_topic peer) s topics;
  let px := do_px (config s) && bool_decide (peer ∉ no_px) in
  '(prunes, s) ← make_prunes o now s (default [] (to_prune !! peer)) peer px false;
  Ret ((Gossipsub_send_message s peer (control_rpc to_bytes ((Graft <$> topics) ++ prunes))).2, delete peer to_prune).

(** One prune of the second loop. *)
Definition removed_topic (peer : PeerId) (px : bool) (st : Gossipsub * list Control) (topic : TopicHash) :
    outcome (Gossipsub * list Control) :=
  let '(s, prunes) := st in
  '(prune, s) ← Gossipsub_make_prune o now s topic peer px false;
  ev ← peer_removed_from_mesh peer topic (mesh s) (peer_topics s !! peer) (events s) (connected_peers s);
  Ret (set_events ev s, prunes ++ [prune]).

Definition send_prunes_turn (no_px : gset PeerId) (s : Gossipsub) (pt : PeerId * list TopicHash) : outcome Gossipsub :=
  let '(peer, topics) := pt in
  let px := do_px (config s) && bool_decide (peer ∉ no_px) in
  '(s, prunes) ← for_each (removed_topic peer px) (s, []) topics;
  Ret (Gossipsub_send_message s peer (control_rpc to_bytes prunes)).2.

(** The entries of a map by peer, in the order in which it is visited. *)
Definition peer_entries {A} (m : gmap PeerId A) : list (PeerId * A) :=
  omap (λ p, (λ a, (p, a)) <$> m !! p) (hash_peers o (dom m)).

Definition Gossipsub_send_graft_prune (s : Gossipsub) (to_graft to_prune : gmap PeerId (list TopicHash)) (no_px : gset PeerId) :
    outcome Gossipsub :=
  '(s, to_prune) ← for_each (send_grafts_turn no_px) (s, to_prune) (peer_entries to_graft);
  for_each (send_prunes_turn no_px) s (peer_entries to_prune).

Definition Gossipsub_flush_control_pool (s : Gossipsub) : Gossipsub :=
  let entries := peer_entries (control_pool s) in
  let s := set_control_pool ∅ s in
  let s := foldl (λ s pc, (Gossipsub_send_message s pc.1 (control_rpc to_bytes pc.2)).2) s entries in
  set_pending_iwant_msgs ∅ s.

Definition Gossipsub_apply_iwant_penalties (s : Gossipsub) : Gossipsub :=
  match peer_score s with
  | Some (ps, thresholds, promises) =>
      let '(broken, promises) := GossipPromises_get_broken_promises promises now in
      let ps := foldl (λ ps pc, PeerScore_add_penalty ps pc.1 pc.2) ps (peer_entries broken) in
      set_peer_score (Some (ps, thresholds, promises)) s
  | None => s
  end.

(** ** The heartbeat *)

(** The scores of all connected peers. *)
Definition cached_scores (s : Gossipsub) : gmap PeerId f64 :=
  match peer_score s with
  | Some (ps, _, _) => map_imap (λ p _, Some (PeerScore_score ps p)) (connected_peers s)
  | None => ∅
  end.

(** The tick, the backoffs and the counters of a new heartbeat. *)
Definition heartbeat_counters (s : Gossipsub) : outcome Gossipsub :=
  let s := set_heartbeat_ticks (heartbeat_ticks s + 1)%N s in
  b ← BackoffStorage_heartbeat (hash_backoffs o) (backoff_storage s) now;
  Ret (set_count_received_ihave ∅ (set_count_sent_iwant ∅ (set_backoff_storage b s))).

(** The explicit peers that are not connected are dialed from time to time. *)
Definition heartbeat_explicit (s : Gossipsub) : outcome Gossipsub :=
  _ ← assert (bool_decide (check_explicit_peers_ticks (config s) ≠ 0)%N);
  Ret (if decide (heartbeat_ticks s mod check_explicit_peers_ticks (config s) = 0)%N
       then foldl Gossipsub_check_explicit_peer_connection s (hash_peers o (explicit_peers s)) else s).

(** Up to the maintenance of the mesh. *)
Definition heartbeat_begin (s : Gossipsub) : outcome Gossipsub :=
  s ← heartbeat_counters s;
  heartbeat_explicit (Gossipsub_apply_iwant_penalties s).

(** The maintenance of the mesh: the grafts and prunes, and the new state. *)
Definition heartbeat_mesh (s : Gossipsub) : outcome (Gossipsub * Maintenance) :=
  for_each (heartbeat_mesh_turn (cached_scores s)) (s, mkMaintenance ∅ ∅ ∅ ∅ (rng s)) (hash_topics o (dom (mesh s))).

(** What follows the maintenance of the mesh. *)
Definition heartbeat_end (scores : gmap PeerId f64) (s : Gossipsub) (m : Maintenance) : outcome Gossipsub :=
  let s := expire_fanout (set_rng (m_rng m) s) in
  let s := foldl (maintain_fanout_turn scores) s (hash_topics o (dom (fanout s))) in
  s ← Gossipsub_emit_gossip s;
  s ← (if decide (m_graft m = ∅ ∧ m_prune m = ∅) then Ret s
       else Gossipsub_send_graft_prune s (m_graft m) (m_prune m) (m_no_px m));
  let s := Gossipsub_flush_control_pool s in
  mc ← MessageCache_shift (mcache s);
  Ret (set_mcache mc s).

Definition Gossipsub_heartbeat (s : Gossipsub) : outcome Gossipsub :=
  s ← heartbeat_begin s;
  let scores := cached_scores s in
  '(s, m) ← heartbeat_mesh s;
  heartbeat_end scores s m.
End heartbeat.

(** ** What the steps do to a mesh *)

Section maintenance.
Context {PeerId TopicHash MessageId FastMessageId ConnectionId IpAddr : Type}.
Context `{Countable PeerId} `{Countable TopicHash} `{Countable MessageId} `{Countable FastMessageId} `{!EqDecision ConnectionId}.
Context {PS F G : Type} `{!PeerScoring PeerId TopicHash MessageId IpAddr PS} `{!TopicSubscriptionFilter TopicHash F} `{!Rng G}.

#[local] Abbreviation Gossipsub := (Gossipsub (PeerId := PeerId) (TopicHash := TopicHash) (MessageId := MessageId)
  (FastMessageId := FastMessageId) (ConnectionId := ConnectionId) (PS := PS) (F := F) (G := G)).
#[local] Abbreviation Orders := (Orders (PeerId := PeerId) (TopicHash := TopicHash) (MessageId := MessageId)).
#[local] Abbreviation Maintenance := (Maintenance (PeerId := PeerId) (TopicHash := TopicHash) (G := G)).

Context (o : Orders).
Implicit Types (s : Gossipsub) (m : Maintenance) (topic : TopicHash) (scores : gmap PeerId f64).

(** The slots of the backoff storage, and the durations for which its indices do not
    overflow. *)
#[local] Abbreviation GossipsubConfig :=
  (GossipsubConfig (PeerId := PeerId) (TopicHash := TopicHash) (MessageId := MessageId) (FastMessageId := FastMessageId)).

Definition backoff_slots (c : GossipsubConfig) : N :=
  (((prune_backoff c + cfg_heartbeat_interval c - 1) / cfg_heartbeat_interval c) mod 2 ^ 64 + cfg_backoff_slack c + 1)%N.

Definition backoff_fits (c : GossipsubConfig) (time : N) : Prop :=
  (backoff_slots c + ((time + cfg_heartbeat_interval c - 1) / cfg_heartbeat_interval c + cfg_backoff_slack c) < 2 ^ 64)%N.

(** The configurations that can be built, with the values that [build] does not check
    but the code relies on. *)
Record config_ok (c : GossipsubConfig) : Prop := {
  cfg_built : GossipsubConfigBuilder_build c = Ok c;
  cfg_explicit_ticks : check_explicit_peers_ticks c ≠ 0%N;
  cfg_graft_ticks : opportunistic_graft_ticks c ≠ 0%N;
  cfg_retain : retain_scores c ≤ S (mesh_n_high c);
  cfg_history : 0 < history_length c;
  cfg_interval : cfg_heartbeat_interval c ≠ 0%N;
  cfg_prune_fits : backoff_fits c (prune_backoff c);
  cfg_unsubscribe_fits : backoff_fits c (unsubscribe_backoff c);
}.

Lemma config_ok_mesh c : config_ok c →
  mesh_outbound_min c ≤ mesh_n_low c ∧ mesh_n_low c ≤ mesh_n c ∧ mesh_n c ≤ mesh_n_high c ∧ mesh_outbound_min c * 2 ≤ mesh_n c.
Proof.
  intros Hc. pose proof (cfg_built _ Hc) as Hb. revert Hb. unfold GossipsubConfigBuilder_build.
  do 2 (case_decide; [done|]). destruct (negb _) eqn:E; [done|].
  destruct (decide (mesh_n c < mesh_outbound_min c * 2)); [done|]. intros _.
  apply negb_false_iff in E. rewrite !andb_true_iff, !bool_decide_eq_true in E. lia.
Qed.

(** The peers that the heartbeat may graft for a topic. *)
Definition eligible (s : Gossipsub) (topic : TopicHash) (scores : gmap PeerId f64) : gset PeerId :=
  candidates (topic_peers s) (connected_peers s) topic (λ p, may_graft s topic ∅ p && f64_le f64_zero (score_of scores p)).

Lemma elem_of_eligible s topic scores p :
  p ∈ eligible s topic scores ↔
  p ∈ default ∅ (topic_peers s !! topic) ∧ is_gossip_peer (connected_peers s) p = true ∧ (p ∉ explicit_peers s) ∧
  BackoffStorage_is_backoff_with_slack (backoff_storage s) topic p = false ∧ f64_le f64_zero (score_of scores p) = true.
Proof.
  unfold eligible, may_graft. rewrite elem_of_candidates, !andb_true_iff, !bool_decide_eq_true, negb_true_iff. set_solver.
Qed.

(** The controls that are to be sent to a peer about a topic. *)
Definition announced (m : gmap PeerId (list TopicHash)) (p : PeerId) (t : TopicHash) : Prop := t ∈ default [] (m !! p).

Lemma announced_push t a p q t' : announced (push_topic t a p) q t' ↔ q = p ∧ t' = t ∨ announced a q t'.
Proof.
  unfold announced, push_topic. destruct (decide (q = p)) as [->|Hne].
  - rewrite lookup_insert_eq. simpl. rewrite elem_of_app, list_elem_of_singleton. naive_solver.
  - rewrite lookup_insert_ne by done. naive_solver.
Qed.

Lemma announced_pushes t l a q t' : announced (foldl (push_topic t) a l) q t' ↔ q ∈ l ∧ t' = t ∨ announced a q t'.
Proof.
  revert a. induction l as [|p l IH]; intros a; cbn [foldl]; [set_solver|].
  rewrite IH, announced_push. set_solver.
Qed.

(** A step of the maintenance of a topic: what it adds is eligible and announced by a
    graft, what it removes is announced by a prune, and nothing else is announced. *)
Record maint_step (s : Gossipsub) (topic : TopicHash) (scores : gmap PeerId f64) (m m' : Maintenance) : Prop := {
  ms_added p : p ∈ m_peers m' → p ∈ m_peers m ∨ p ∈ eligible s topic scores ∧ announced (m_graft m') p topic;
  ms_removed p : p ∈ m_peers m → p ∈ m_peers m' ∨ announced (m_prune m') p topic;
  ms_graft q t : announced (m_graft m) q t → announced (m_graft m') q t;
  ms_prune q t : announced (m_prune m) q t → announced (m_prune m') q t;
  ms_graft_only q t : announced (m_graft m') q t → announced (m_graft m) q t ∨ t = topic ∧ q ∈ eligible s topic scores;
  ms_prune_only q t : announced (m_prune m') q t →
    announced (m_prune m) q t ∨ t = topic ∧ (q ∈ m_peers m ∨ q ∈ eligible s topic scores);
}.

Lemma maint_step_refl s topic scores m : maint_step s topic scores m m.
Proof. split; naive_solver. Qed.

Lemma maint_step_trans s topic scores m1 m2 m3 :
  maint_step s topic scores m1 m2 → maint_step s topic scores m2 m3 → maint_step s topic scores m1 m3.
Proof.
  intros [A1 B1 C1 D1 E1 F1] [A2 B2 C2 D2 E2 F2]. split.
  - intros p [Hp|Hp]%A2; [|by right]. apply A1 in Hp as [Hp|[Hp Ha]]; [by left|right]. auto.
  - intros p [Hp|Hp]%B1; [|right; auto]. apply B2 in Hp as [Hp|Hp]; auto.
  - auto.
  - auto.
  - intros q t [Hq|Hq]%E2; [|by right]. auto.
  - intros q t [Hq|[-> [Hq|Hq]]]%F2; [auto| |auto]. right. split; [done|]. apply A1 in Hq as [Hq|[Hq _]]; auto.
Qed.

Lemma graft_new_step s topic scores R g m :
  orders_ok o → R ⊆ eligible s topic scores → maint_step s topic scores m (graft_new o topic R g m).
Proof.
  intros Ho HR. assert (∀ p, p ∈ btree_peers o R ↔ p ∈ R) as Hb.
  { intros p. by rewrite (btree_peers_perm o Ho), elem_of_elements. }
  split; cbn.
  - intros p [Hp|Hp]%elem_of_union; [by left|right]. split; [by apply HR|]. apply announced_pushes. left. by rewrite Hb.
  - intros p Hp. left. by apply elem_of_union_l.
  - intros q t Hq. apply announced_pushes. by right.
  - done.
  - intros q t [[Hq ->]|Hq]%announced_pushes; [right|by left]. rewrite Hb in Hq. auto.
  - auto.
Qed.

Lemma drop_negative_spec s topic scores m :
  orders_ok o →
  maint_step s topic scores m (drop_negative o topic scores m) ∧
  m_peers (drop_negative o topic scores m) = filter (λ p, f64_nonneg (score_of scores p)) (m_peers m).
Proof.
  intros Ho. assert (∀ p, p ∈ filter (λ p, f64_lt (score_of scores p) f64_zero) (btree_peers o (m_peers m)) ↔
    f64_lt (score_of scores p) f64_zero = true ∧ p ∈ m_peers m) as Hb.
  { intros p. by rewrite list_elem_of_filter, (btree_peers_perm o Ho), elem_of_elements, Is_true_true. }
  assert (m_peers (drop_negative o topic scores m) = filter (λ p, f64_nonneg (score_of scores p)) (m_peers m)) as Heq.
  { apply set_eq. intros p. unfold drop_negative, f64_nonneg. cbn [m_peers].
    rewrite elem_of_difference, elem_of_list_to_set, Hb, elem_of_filter, Is_true_true, negb_true_iff.
    destruct (f64_lt _ _); naive_solver. }
  split; [|done]. split; unfold drop_negative; cbn.
  - set_solver.
  - intros p Hp. destruct (f64_lt (score_of scores p) f64_zero) eqn:E.
    + right. apply announced_pushes. left. by rewrite Hb.
    + left. rewrite elem_of_difference, elem_of_list_to_set, Hb. naive_solver congruence.
  - done.
  - intros q t Hq. apply announced_pushes. by right.
  - auto.
  - intros q t [[Hq ->]|Hq]%announced_pushes; [right|by left]. rewrite Hb in Hq. naive_solver.
Qed.

Lemma candidates_may_graft s topic scores P (c : PeerId → bool) p :
  (∀ p, c p = true → f64_le f64_zero (score_of scores p) = true) →
  p ∈ candidates (topic_peers s) (connected_peers s) topic (λ p, may_graft s topic P p && c p) ↔
  p ∈ eligible s topic scores ∧ (p ∉ P) ∧ c p = true.
Proof.
  intros Hc. rewrite elem_of_eligible, elem_of_candidates. unfold may_graft.
  rewrite !andb_true_iff, !bool_decide_eq_true, negb_true_iff. specialize (Hc p). tauto.
Qed.

(** Grafting up to [n] random peers that satisfy a condition. *)
Lemma random_graft_spec `{!RngSpec G} s topic scores n (c : PeerId → bool) m :
  orders_ok o → (∀ p, c p = true → f64_le f64_zero (score_of scores p) = true) →
  ∃ R g, get_random_peers o (topic_peers s) (connected_peers s) topic n (λ p, may_graft s topic (m_peers m) p && c p) (m_rng m) = (R, g) ∧
    maint_step s topic scores m (graft_new o topic R g m) ∧
    (∀ p, p ∈ R → p ∈ eligible s topic scores ∧ (p ∉ m_peers m) ∧ c p = true) ∧
    size (m_peers (graft_new o topic R g m)) = size (m_peers m) + size R ∧ size R ≤ n ∧
    (size R = n ∨ ∀ p, p ∈ eligible s topic scores → c p = true → p ∈ m_peers (graft_new o topic R g m)).
Proof.
  intros Ho Hc. set (f := λ p, may_graft s topic (m_peers m) p && c p).
  destruct (get_random_peers_dynamic_spec o (topic_peers s) (connected_peers s) topic (λ _, n) f (m_rng m) Ho)
    as (R & g & HR & Hsub & Hall & Hle). exists R, g. split; [done|].
  assert (∀ p, p ∈ R → p ∈ eligible s topic scores ∧ (p ∉ m_peers m) ∧ c p = true) as Hin.
  { intros p Hp. by apply (candidates_may_graft s topic scores (m_peers m) c p Hc), Hsub. }
  split_and!; [apply graft_new_step; [done|]; intros p Hp; by apply Hin|done|apply size_union; set_solver|done|].
  destruct Hall as [->|Heq]; [by left|right]. intros p Hp Hcp. apply elem_of_union.
  destruct (decide (p ∈ m_peers m)); [by left|right]. rewrite Heq.
  by apply (candidates_may_graft s topic scores (m_peers m) c p Hc).
Qed.

(** All peers of the mesh have a score that is not negative. *)
Definition all_nonneg (scores : gmap PeerId f64) (X : gset PeerId) : Prop := ∀ p, p ∈ X → f64_nonneg (score_of scores p) = true.

Lemma all_nonneg_step s topic scores m m' :
  maint_step s topic scores m m' → all_nonneg scores (m_peers m) → all_nonneg scores (m_peers m').
Proof.
  intros Hs Hn p [Hp|[Hp _]]%(ms_added _ _ _ _ _ Hs); [by apply Hn|].
  apply elem_of_eligible in Hp as (_ & _ & _ & _ & Hp). by apply f64_le_nonneg.
Qed.

Lemma fill_low_spec `{!RngSpec G} s topic scores m :
  orders_ok o → config_ok (config s) →
  ∃ m', fill_low o s topic scores m = Ret m' ∧ maint_step s topic scores m m' ∧
    size (m_peers m') ≤ Nat.max (size (m_peers m)) (mesh_n (config s)) ∧
    (mesh_n_low (config s) ≤ size (m_peers m') ∨ eligible s topic scores ⊆ m_peers m').
Proof.
  intros Ho (Hc1 & Hc2 & Hc3 & Hc4)%config_ok_mesh. unfold fill_low. case_decide as Hd.
  2:{ exists m. split_and!; [done|apply maint_step_refl|lia|left; lia]. }
  rewrite usize_sub_le by lia. cbn [mbind outcome_bind].
  destruct (random_graft_spec s topic scores (mesh_n (config s) - size (m_peers m)) (λ p, f64_le f64_zero (score_of scores p)) m Ho)
    as (R & g & -> & Hs & Hin & Hsz & Hle & Hall); [done|].
  eexists. split_and!; [done|done|lia|]. destruct Hall as [Hall|Hall]; [left; lia|right].
  intros p Hp. apply Hall; [done|]. apply elem_of_eligible in Hp. tauto.
Qed.

(** ** The removal of excess peers *)

(** The outbound peers of a mesh. *)
Definition outbound_of (s : Gossipsub) (X : gset PeerId) : gset PeerId := X ∩ outbound_peers s.

Lemma elem_of_outbound_of s X p : p ∈ outbound_of s X ↔ p ∈ X ∧ p ∈ outbound_peers s.
Proof. unfold outbound_of. by rewrite elem_of_intersection. Qed.

(** Invariant of the loop: [shuffled] are the peers not looked at yet, the others are
    outbound peers that were kept because there were too few of them. *)
Lemma remove_excess_spec s topic excess removed outbound peers to_prune shuffled :
  NoDup shuffled → list_to_set shuffled ⊆ peers → removed ≤ excess →
  (∀ p, p ∈ peers → p ∉ shuffled → p ∈ outbound_peers s ∧ outbound ≤ mesh_outbound_min (config s)) →
  outbound = size (outbound_of s peers) →
  let '(peers', to_prune') := remove_excess s topic excess removed outbound peers to_prune shuffled in
  peers' ⊆ peers ∧ size peers ≤ size peers' + (excess - removed) ∧
  (size peers' + (excess - removed) ≤ size peers ∨ size peers' ≤ mesh_outbound_min (config s)) ∧
  Nat.min outbound (mesh_outbound_min (config s)) ≤ size (outbound_of s peers') ∧
  (∀ q t, announced to_prune' q t ↔ announced to_prune q t ∨ t = topic ∧ q ∈ peers ∖ peers').
Proof.
  revert removed outbound peers to_prune. induction shuffled as [|p l IH]; intros removed outbound peers to_prune Hnd Hsub Hle Hkept Hout.
  { cbn. split_and!; [done|lia| |lia|set_solver]. right. destruct (decide (peers = ∅)) as [->|Hne]; [rewrite size_empty; lia|].
    apply set_choose_L in Hne as [p Hp]. destruct (Hkept p Hp) as [_ Hle']; [set_solver|].
    rewrite Hout in Hle'. etrans; [|exact Hle']. apply subseteq_size. intros q Hq. apply elem_of_outbound_of. split; [done|].
    apply Hkept; [done|set_solver]. }
  cbn [remove_excess]. apply NoDup_cons in Hnd as [Hp Hnd]. case_decide as Hd1.
  { split_and!; [done|lia|left; lia|lia|set_solver]. }
  case_decide as Hd2.
  { apply IH; [done|set_solver|done| |done]. intros q Hq Hql. destruct (decide (q = p)) as [->|]; [done|].
    apply Hkept; [done|]. by intros [->|?]%elem_of_cons. }
  assert (p ∈ peers) as Hpp by set_solver.
  set (outbound' := if decide (p ∈ outbound_peers s) then outbound - 1 else outbound).
  assert (outbound' = size (outbound_of s (peers ∖ {[p]}))) as Hout'.
  { unfold outbound', outbound_of in *. case_decide as Ho.
    - replace ((peers ∖ {[p]}) ∩ outbound_peers s) with ((peers ∩ outbound_peers s) ∖ {[p]}) by set_solver.
      rewrite size_difference, size_singleton by set_solver. lia.
    - replace ((peers ∖ {[p]}) ∩ outbound_peers s) with (peers ∩ outbound_peers s) by set_solver. done. }
  assert (Nat.min outbound (mesh_outbound_min (config s)) ≤ outbound') as Hmin.
  { unfold outbound'. case_decide as Ho; [|lia]. assert (¬ outbound ≤ mesh_outbound_min (config s)) by tauto. lia. }
  specialize (IH (S removed) outbound' (peers ∖ {[p]}) (push_topic topic to_prune p) Hnd).
  destruct (remove_excess _ _ _ _ _ _ _ l) as [peers' to_prune']. destruct IH as (H1' & H2' & H3' & H4' & H5'); [set_solver|lia| |done|].
  { intros q Hq Hql. destruct (Hkept q) as [Hqo Hqm]; [set_solver|set_solver|]. split; [done|]. unfold outbound'. case_decide; lia. }
  rewrite size_difference, size_singleton in H2', H3' by set_solver.
  assert (size peers ≠ 0) by (apply size_non_empty_iff; set_solver).
  split_and!; [set_solver|lia|destruct H3'; [left; lia|by right]|lia|].
  intros q t. rewrite H5', announced_push. split.
  - intros [[[-> ->]|Hq]|[-> Hq]]; [right; set_solver|by left|right; set_solver].
  - intros [Hq|[-> Hq]]; [by left; right|]. destruct (decide (q = p)) as [->|]; [left; by left|right; set_solver].
Qed.

Lemma outbound_count s (l : list PeerId) X :
  l ≡ₚ elements X → length (filter (λ p, p ∈ outbound_peers s) l) = size (outbound_of s X).
Proof.
  intros Hl. rewrite Hl. unfold size, set_size. apply Permutation_length, NoDup_Permutation.
  - apply NoDup_filter, NoDup_elements.
  - apply NoDup_elements.
  - intros p. rewrite list_elem_of_filter, !elem_of_elements, elem_of_outbound_of. tauto.
Qed.

(** The order in which the excess peers are looked at. *)
Lemma shuffled_perm `{!RngSpec G} (le : PeerId → PeerId → bool) (l : list PeerId) n g1 g2 :
  (shuffle (G := G) g2 (take n (sort_by le (shuffle g1 l).1))).1 ++ drop n (sort_by le (shuffle g1 l).1) ≡ₚ l.
Proof. by rewrite shuffle_perm, take_drop, sort_by_perm, shuffle_perm. Qed.

Lemma trim_high_spec `{!RngSpec G} s topic scores m :
  orders_ok o → config_ok (config s) →
  ∃ m', trim_high o s topic scores m = Ret m' ∧ maint_step s topic scores m m' ∧ m_peers m' ⊆ m_peers m ∧
    size (m_peers m') ≤ mesh_n_high (config s) ∧ (m' = m ∨ size (m_peers m') = mesh_n (config s)) ∧
    Nat.min (size (outbound_of s (m_peers m))) (mesh_outbound_min (config s)) ≤ size (outbound_of s (m_peers m')).
Proof.
  intros Ho Hc. pose proof (cfg_retain _ Hc) as Hr. apply config_ok_mesh in Hc as (Hc1 & Hc2 & Hc3 & Hc4).
  unfold trim_high. case_decide as Hd.
  2:{ exists m. split_and!; [done|apply maint_step_refl|done|lia|by left|lia]. }
  rewrite usize_sub_le by lia. cbn [mbind outcome_bind].
  set (le := λ p1 p2, f64_cmp_le (score_of scores p1) (score_of scores p2)).
  pose proof (λ n g2, shuffled_perm le (btree_peers o (m_peers m)) n (m_rng m) g2) as Hp.
  destruct (shuffle (m_rng m) (btree_peers o (m_peers m))) as [l g]. cbn [fst] in Hp.
  rewrite usize_sub_le by lia. cbn [mbind outcome_bind].
  set (k := size (m_peers m) - retain_scores (config s)) in *. specialize (Hp k g).
  destruct (shuffle g (take k (sort_by le l))) as [front g']. cbn [fst] in Hp. rewrite (btree_peers_perm o Ho) in Hp.
  set (shuffled := front ++ drop k (sort_by le l)) in *. rewrite (outbound_count s shuffled _ Hp).
  pose proof (remove_excess_spec s topic (size (m_peers m) - mesh_n (config s)) 0 (size (outbound_of s (m_peers m))) (m_peers m)
    (m_prune m) shuffled) as Hx.
  destruct (remove_excess _ _ _ _ _ _ _ _) as [peers' to_prune']. destruct Hx as (H1' & H2' & H3' & H4' & H5').
  { rewrite Hp. apply NoDup_elements. }
  { rewrite Hp. by rewrite list_to_set_elements_L. }
  { lia. }
  { intros p Hp1 Hp2. exfalso. apply Hp2. by rewrite Hp, elem_of_elements. }
  { done. }
  eexists. split; [done|]. cbn [m_peers]. split_and!; [|done|lia|right; lia|done].
  split; cbn.
  - intros p Hp'. left. by apply H1'.
  - intros p Hp'. destruct (decide (p ∈ peers')); [by left|right]. apply H5'. right. split; [done|]. by apply elem_of_difference.
  - done.
  - intros q t Hq. apply H5'. by left.
  - auto.
  - intros q t [Hq|[-> Hq]]%H5'; [by left|right]. apply elem_of_difference in Hq as [Hq _]. auto.
Qed.

Lemma graft_outbound_spec `{!RngSpec G} s topic scores m :
  orders_ok o →
  let m' := graft_outbound o s topic scores m in
  maint_step s topic scores m m' ∧ m_peers m ⊆ m_peers m' ∧
  size (m_peers m') ≤ size (m_peers m) + mesh_outbound_min (config s) ∧
  (size (m_peers m) < mesh_n_low (config s) ∨ mesh_outbound_min (config s) ≤ size (outbound_of s (m_peers m')) ∨
   ∀ p, p ∈ eligible s topic scores → p ∈ outbound_peers s → p ∈ m_peers m').
Proof.
  intros Ho. cbn zeta. unfold graft_outbound. case_decide as Hd1.
  2:{ split_and!; [apply maint_step_refl|done|lia|left; lia]. }
  rewrite (outbound_count s _ (m_peers m)) by apply (btree_peers_perm o Ho). case_decide as Hd2.
  2:{ split_and!; [apply maint_step_refl|done|lia|right; left; lia]. }
  destruct (random_graft_spec s topic scores (mesh_outbound_min (config s) - size (outbound_of s (m_peers m)))
    (λ p, f64_le f64_zero (score_of scores p) && bool_decide (p ∈ outbound_peers s)) m Ho) as (R & g & HR & Hs & Hin & Hsz & Hle & Hall).
  { intros p Hp. by apply andb_true_iff in Hp as [? _]. }
  rewrite HR. split_and!; [done| |lia|].
  { intros p Hp. by apply elem_of_union_l. }
  right. destruct Hall as [Hall|Hall]; [left|right].
  - assert (outbound_of s (m_peers (graft_new o topic R g m)) = outbound_of s (m_peers m) ∪ R) as ->.
    { apply set_eq. intros p. rewrite elem_of_union, !elem_of_outbound_of. change (m_peers (graft_new o topic R g m)) with (m_peers m ∪ R).
      rewrite elem_of_union. split; [tauto|]. intros [?|Hp]; [tauto|]. split; [by right|].
      apply Hin in Hp as (_ & _ & Hp). by apply andb_true_iff in Hp as [_ Hp%bool_decide_eq_true]. }
    rewrite size_union; [lia|]. intros p [Hp _]%elem_of_outbound_of Hp'. by apply Hin in Hp' as (_ & ? & _).
  - intros p Hp Hpo. apply Hall; [done|]. apply andb_true_iff. split; [apply elem_of_eligible in Hp; tauto|by apply bool_decide_eq_true].
Qed.

Lemma median_score_spec scores X :
  orders_ok o → all_nonneg scores X → 1 < size X → ∃ x, median_score o scores X = Ret x ∧ f64_nonneg x = true.
Proof.
  intros Ho Hn Hsz. unfold median_score. set (l := sort_by _ _).
  assert (l ≡ₚ elements X) as Hl by (unfold l; rewrite sort_by_perm; apply (btree_peers_perm o Ho)).
  assert (length l = size X) as Hlen by (by rewrite Hl).
  assert (∀ i, i < length l → ∃ p, l !! i = Some p ∧ f64_nonneg (score_of scores p) = true) as Hi.
  { intros i [p Hp]%lookup_lt_is_Some. exists p. split; [done|]. apply Hn.
    apply list_elem_of_lookup_2 in Hp. by rewrite Hl, elem_of_elements in Hp. }
  assert (length l `div` 2 < length l) by (apply Nat.div_lt; lia).
  case_decide as Hd.
  - assert (0 < length l `div` 2) by (apply Nat.div_str_pos; lia). rewrite usize_sub_le by lia. cbn [mbind outcome_bind].
    destruct (Hi (length l `div` 2 - 1)) as (p1 & -> & Hp1); [lia|]. destruct (Hi (length l `div` 2)) as (p2 & -> & Hp2); [lia|].
    eexists. split; [done|]. apply f64_mul_nonneg; [by apply f64_add_nonneg|done].
  - destruct (Hi (length l `div` 2)) as (p2 & -> & Hp2); [lia|]. eexists. by split.
Qed.

Lemma graft_opportunistic_spec `{!RngSpec G} s topic scores m :
  orders_ok o → config_ok (config s) → all_nonneg scores (m_peers m) →
  ∃ m', graft_opportunistic o s topic scores m = Ret m' ∧ maint_step s topic scores m m' ∧ m_peers m ⊆ m_peers m' ∧
    size (m_peers m') ≤ size (m_peers m) + opportunistic_graft_peers (config s) ∧ (peer_score s = None → m' = m).
Proof.
  intros Ho Hc Hn. unfold graft_opportunistic. rewrite bool_decide_true by apply (cfg_graft_ticks _ Hc). cbn [assert mbind outcome_bind].
  assert (∃ m', Ret m = Ret m' ∧ maint_step s topic scores m m' ∧ m_peers m ⊆ m_peers m' ∧
    size (m_peers m') ≤ size (m_peers m) + opportunistic_graft_peers (config s) ∧ m' = m) as Hsame.
  { exists m. split_and!; [done|apply maint_step_refl|done|lia|done]. }
  destruct (peer_score s) as [[[ps thresholds] promises]|]; [|naive_solver].
  case_decide as Hd; [|naive_solver]. destruct (median_score_spec scores (m_peers m) Ho Hn) as (x & -> & Hx); [lia|]. cbn [mbind outcome_bind].
  destruct (f64_lt x (opportunistic_graft_threshold thresholds)); [|naive_solver].
  destruct (random_graft_spec s topic scores (opportunistic_graft_peers (config s)) (λ p, f64_lt x (score_of scores p)) m Ho)
    as (R & g & -> & Hs & Hin & Hsz & Hle & Hall).
  { intros p. by apply f64_lt_nonneg. }
  eexists. split_and!; [done|done| |lia|done]. intros p Hp. by apply elem_of_union_l.
Qed.

(** What the mesh of a topic is after its maintenance. *)
Record maintained (s : Gossipsub) (topic : TopicHash) (scores : gmap PeerId f64) (peers : gset PeerId) : Prop := {
  mt_nonneg : all_nonneg scores peers;
  mt_upper : size peers ≤ mesh_n_high (config s) + mesh_outbound_min (config s) +
    match peer_score s with Some _ => opportunistic_graft_peers (config s) | None => 0 end;
  mt_lower : mesh_n_low (config s) ≤ size peers ∨ eligible s topic scores ⊆ peers;
  mt_outbound : mesh_outbound_min (config s) ≤ size (outbound_of s peers) ∨
    ∀ p, p ∈ eligible s topic scores → p ∈ outbound_peers s → p ∈ peers;
}.

Lemma heartbeat_topic_spec `{!RngSpec G} s topic scores m :
  orders_ok o → config_ok (config s) →
  ∃ m', heartbeat_topic o s topic scores m = Ret m' ∧ maint_step s topic scores m m' ∧ maintained s topic scores (m_peers m').
Proof.
  intros Ho Hc. unfold heartbeat_topic. destruct (drop_negative_spec s topic scores m Ho) as [Hs0 Hp0].
  set (m0 := drop_negative o topic scores m) in *.
  assert (all_nonneg scores (m_peers m0)) as Hn0.
  { intros p. rewrite Hp0, elem_of_filter, Is_true_true. tauto. }
  destruct (fill_low_spec s topic scores m0 Ho Hc) as (m1 & -> & Hs1 & Hsz1 & Hlow1). cbn [mbind outcome_bind].
  destruct (trim_high_spec s topic scores m1 Ho Hc) as (m2 & -> & Hs2 & Hsub2 & Hhigh2 & Hsame2 & Hout2). cbn [mbind outcome_bind].
  destruct (graft_outbound_spec s topic scores m2 Ho) as (Hs3 & Hsub3 & Hsz3 & Hout3).
  set (m3 := graft_outbound o s topic scores m2) in *.
  assert (maint_step s topic scores m m3) as Hs.
  { eapply maint_step_trans; [done|]. eapply maint_step_trans; [done|]. by eapply maint_step_trans. }
  assert (all_nonneg scores (m_peers m3)) as Hn3.
  { eapply all_nonneg_step, Hn0. eapply maint_step_trans; [done|]. by eapply maint_step_trans. }
  destruct (graft_opportunistic_spec s topic scores m3 Ho Hc Hn3) as (m4 & Hm4 & Hs4 & Hsub4 & Hsz4 & Hnone). exists m4.
  split_and!; [done|by eapply maint_step_trans|].
  apply config_ok_mesh in Hc as (Hc1 & Hc2 & Hc3 & Hc4).
  assert (mesh_n_low (config s) ≤ size (m_peers m2) ∨ eligible s topic scores ⊆ m_peers m2) as Hlow2.
  { destruct Hsame2 as [->|Heq]; [done|left; lia]. }
  split.
  - by eapply all_nonneg_step.
  - destruct (peer_score s); [lia|]. rewrite Hnone by done. lia.
  - destruct Hlow2 as [Hl|Hl]; [left|right; intros p Hp; by apply Hsub4, Hsub3, Hl].
    etrans; [exact Hl|]. etrans; [by apply subseteq_size|by apply subseteq_size].
  - destruct Hout3 as [Hl|[Hl|Hl]].
    + right. intros p Hp _. destruct Hlow2 as [?|Hl2]; [lia|]. by apply Hsub4, Hsub3, Hl2.
    + left. etrans; [exact Hl|]. apply subseteq_size. intros p. rewrite !elem_of_outbound_of. set_solver.
    + right. intros p Hp Hpo. apply Hsub4. by apply Hl.
Qed.

(** ** The maintenance of all topics *)

(** What the maintenance made of the mesh of a topic, with what is announced. *)
Record topic_maintained (s : Gossipsub) (topic : TopicHash) (scores : gmap PeerId f64) (peers peers' : gset PeerId) (m : Maintenance) :
    Prop := {
  tm_mesh : maintained s topic scores peers';
  tm_added p : p ∈ peers' → p ∈ peers ∨ p ∈ eligible s topic scores ∧ announced (m_graft m) p topic;
  tm_removed p : p ∈ peers → p ∈ peers' ∨ announced (m_prune m) p topic;
}.

(** Everything that is announced is about a mesh that there is. *)
Record announces_only (s : Gossipsub) (scores : gmap PeerId f64) (m : Maintenance) : Prop := {
  ao_graft q t : announced (m_graft m) q t → is_Some (mesh s !! t) ∧ q ∈ eligible s t scores;
  ao_prune q t : announced (m_prune m) q t → ∃ peers, mesh s !! t = Some peers ∧ (q ∈ peers ∨ q ∈ eligible s t scores);
}.

Lemma topic_maintained_mono s topic scores peers peers' m m' t0 :
  maint_step s t0 scores m m' → topic_maintained s topic scores peers peers' m → topic_maintained s topic scores peers peers' m'.
Proof.
  intros Hs [A B C]. split; [done| |].
  - intros p [Hp|[Hp Ha]]%B; [by left|right]. split; [done|by apply (ms_graft _ _ _ _ _ Hs)].
  - intros p [Hp|Hp]%C; [by left|right]. by apply (ms_prune _ _ _ _ _ Hs).
Qed.

(** The steps do not look at the meshes of the state. *)
Lemma maint_step_set_mesh s M topic scores m m' : maint_step (set_mesh M s) topic scores m m' → maint_step s topic scores m m'.
Proof. intros [A B C D E F']. split; [exact A|exact B|exact C|exact D|exact E|exact F']. Qed.

Lemma maintained_set_mesh s M topic scores peers : maintained (set_mesh M s) topic scores peers → maintained s topic scores peers.
Proof. intros [A B C D]. split; [exact A|exact B|exact C|exact D]. Qed.

(** The loop, after some of the topics. *)
Lemma heartbeat_mesh_loop `{!RngSpec G} s scores M (m : Maintenance) topics :
  orders_ok o → config_ok (config s) → NoDup topics →
  (∀ t, t ∈ topics → is_Some (mesh s !! t) ∧ M !! t = mesh s !! t) →
  announces_only s scores m →
  ∃ M' m', for_each (heartbeat_mesh_turn o scores) (set_mesh M s, m) topics = Ret (set_mesh M' s, m') ∧
    (∀ t, t ∉ topics → M' !! t = M !! t) ∧ announces_only s scores m' ∧
    (∀ q t, announced (m_graft m) q t → announced (m_graft m') q t) ∧
    (∀ q t, announced (m_prune m) q t → announced (m_prune m') q t) ∧
    (∀ t peers, t ∈ topics → mesh s !! t = Some peers →
       ∃ peers', M' !! t = Some peers' ∧ topic_maintained s t scores peers peers' m').
Proof.
  intros Ho Hc. revert M m. induction topics as [|topic topics IH]; intros M m Hnd Ht Ha.
  { exists M, m. split_and!; auto. intros t peers []%elem_of_nil. }
  apply NoDup_cons in Hnd as [Hnin Hnd]. destruct (Ht topic) as [[peers Hp] HM]; [by left|]. rewrite Hp in HM.
  set (m0 := mkMaintenance peers (m_graft m) (m_prune m) (m_no_px m) (m_rng m)).
  destruct (heartbeat_topic_spec (set_mesh M s) topic scores m0 Ho Hc) as (m1 & Hm1 & Hs & Hm).
  assert (heartbeat_mesh_turn o scores (set_mesh M s, m) topic = Ret (set_mesh (<[topic := m_peers m1]> M) s, m1)) as Hturn.
  { unfold heartbeat_mesh_turn. change (mesh (set_mesh M s)) with M. rewrite HM. cbn [expect mbind outcome_bind].
    fold m0. by rewrite Hm1. }
  cbn [for_each]. rewrite Hturn. cbn [mbind outcome_bind].
  apply maint_step_set_mesh in Hs as Hs'. apply maintained_set_mesh in Hm.
  destruct (IH (<[topic := m_peers m1]> M) m1 Hnd) as (M' & m' & -> & Hrest & Hao & Hg & Hpr & Hall).
  { intros t Hin. destruct (Ht t) as [H1' H2']; [by right|]. split; [done|]. rewrite lookup_insert_ne; [done|]. by intros ->. }
  { split.
    - intros q t [Hq|[-> Hq]]%(ms_graft_only _ _ _ _ _ Hs'); [by apply (ao_graft _ _ _ Ha)|]. split; [by eexists|done].
    - intros q t [Hq|[-> Hq]]%(ms_prune_only _ _ _ _ _ Hs'); [by apply (ao_prune _ _ _ Ha)|]. by exists peers. }
  exists M', m'. split; [done|].
  split_and!; [|done| | |].
  - intros t Hin. rewrite Hrest by set_solver. rewrite lookup_insert_ne; [done|]. set_solver.
  - intros q t Hq. by apply Hg, (ms_graft _ _ _ _ _ Hs').
  - intros q t Hq. by apply Hpr, (ms_prune _ _ _ _ _ Hs').
  - intros t peers0 Hin Hp0. apply elem_of_cons in Hin as [->|Hin]; [|by apply Hall].
    rewrite Hp in Hp0. injection Hp0 as <-. exists (m_peers m1). rewrite Hrest by done. rewrite lookup_insert_eq. split; [done|]. split; [exact Hm| |].
    + intros p [Hp'|[Hp' Han]]%(ms_added _ _ _ _ _ Hs'); [by left|right]. split; [done|by apply Hg].
    + intros p [Hp'|Hp']%(ms_removed _ _ _ _ _ Hs'); [by left|right]. by apply Hpr.
Qed.

Lemma heartbeat_mesh_spec `{!RngSpec G} s :
  orders_ok o → config_ok (config s) →
  ∃ M m, heartbeat_mesh o s = Ret (set_mesh M s, m) ∧ dom M = dom (mesh s) ∧ announces_only s (cached_scores s) m ∧
    ∀ t peers, mesh s !! t = Some peers →
      ∃ peers', M !! t = Some peers' ∧ topic_maintained s t (cached_scores s) peers peers' m.
Proof.
  intros Ho Hc. unfold heartbeat_mesh.
  assert (∀ t, t ∈ hash_topics o (dom (mesh s)) ↔ is_Some (mesh s !! t)) as Hin.
  { intros t. by rewrite (hash_topics_perm o Ho), elem_of_elements, elem_of_dom. }
  destruct (heartbeat_mesh_loop s (cached_scores s) (mesh s) (mkMaintenance ∅ ∅ ∅ ∅ (rng s)) (hash_topics o (dom (mesh s))) Ho Hc)
    as (M & m & Hr & Hrest & Ha & _ & _ & Hall).
  { rewrite (hash_topics_perm o Ho). apply NoDup_elements. }
  { intros t Ht%Hin. done. }
  { split; intros q t []%elem_of_nil. }
  exists M, m. split; [|split_and!].
  - rewrite <-Hr. by destruct s.
  - apply set_eq. intros t. rewrite !elem_of_dom. destruct (decide (t ∈ hash_topics o (dom (mesh s)))) as [Ht|Ht].
    + pose proof Ht as [peers Hp]%Hin. destruct (Hall t peers Ht Hp) as (peers' & -> & _). rewrite Hp. by split; eexists.
    + by rewrite Hrest.
  - done.
  - intros t peers Hp. apply (Hall t peers); [|done]. apply Hin. by eexists.
Qed.
End maintenance.
