(* ===== verification/GossipMessages.v ===== *)
(** * Messages of gossipsub

    What [protocols/gossipsub/src/behaviour.rs] does with messages: publishing and
    forwarding them, receiving and validating them, and the gossip about them (IHAVE
    and IWANT); [inject_event] and [poll], which put the parts together. *)

From S2P Require Import Prelude Float64 GossipTimeCache GossipBackoff GossipMcache GossipRpc GossipFilter GossipBehaviour GossipHeartbeat.
From stdpp Require Import fin_maps fin_sets strings.

Inductive MessageAcceptance : Type := Accept | Reject | Ignore.

Section messages.
Context {PeerId TopicHash MessageId FastMessageId ConnectionId IpAddr : Type}.
Context `{Countable PeerId} `{Countable TopicHash} `{Countable MessageId} `{Countable FastMessageId} `{!EqDecision ConnectionId}.
Context {PS F G : Type} `{!PeerScoring PeerId TopicHash MessageId IpAddr PS} `{!TopicSubscriptionFilter TopicHash F} `{!Rng G}.
Context `{!EncodedLen MessageId TopicHash}.

#[local] Abbreviation Gossipsub := (Gossipsub (PeerId := PeerId) (TopicHash := TopicHash) (MessageId := MessageId)
  (FastMessageId := FastMessageId) (ConnectionId := ConnectionId) (PS := PS) (F := F) (G := G)).
#[local] Abbreviation Orders := (Orders (PeerId := PeerId) (TopicHash := TopicHash) (MessageId := MessageId)).
#[local] Abbreviation Control := (GossipsubControlAction MessageId TopicHash PeerId).
#[local] Abbreviation Raw := (RawGossipsubMessage (TopicHash := TopicHash) (PeerId := PeerId)).
#[local] Abbreviation GossipsubMessage := (GossipsubMessage (TopicHash := TopicHash) (PeerId := PeerId)).
#[local] Abbreviation Subscription := (GossipsubSubscription TopicHash).

(** What is not in the repository: the bytes of a peer id, the signature of an encoded
    message, and the [DataTransform] of the application; [None] is an error. *)
Context (to_bytes : PeerId → list byte) (sign : PbMessage TopicHash → option (list byte)).
Context (inbound_transform : Raw → option GossipsubMessage) (outbound_transform : TopicHash → list byte → option (list byte)).

Context (o : Orders) (now : N).

Definition message_rpc (msgs : list Raw) : Rpc MessageId TopicHash := GossipsubRpc_into_protobuf to_bytes (mkGossipsubRpc msgs [] []).

(** ** Publishing *)

(** The random sequence number and author are arguments. *)
Definition Gossipsub_build_raw_message (s : Gossipsub) (topic : TopicHash) (data : list byte) (seqno : N) (random_author : PeerId) :
    Result Raw PublishError :=
  match publish_config s with
  | Publish_Signing author inline_key =>
      match sign (mkPbMessage (Some (to_bytes author)) (Some data) (Some (N_to_be 8 seqno : list byte)) topic None None) with
      | Some signature => Ok (mkRaw (Some author) data (Some seqno) topic (Some signature) inline_key true)
      | None => Err SigningError
      end
  | Publish_Author peer => Ok (mkRaw (Some peer) data (Some seqno) topic None None true)
  | Publish_RandomAuthor => Ok (mkRaw (Some random_author) data (Some seqno) topic None None true)
  | Publish_Anonymous => Ok (mkRaw None data None topic None None true)
  end.

(** The peers a message is forwarded to: neither where it came from nor its author. *)
Definition forward_to (message : Raw) (propagation_source : option PeerId) (originating : gset PeerId) (p : PeerId) : bool :=
  bool_decide (Some p ≠ propagation_source) && bool_decide (p ∉ originating) && bool_decide (Some p ≠ source message).

(** A peer that is known to be subscribed to a topic. *)
Definition subscribes (s : Gossipsub) (p : PeerId) (t : TopicHash) : bool :=
  match peer_topics s !! p with Some topics => bool_decide (t ∈ topics) | None => false end.

Definition forward_recipients (s : Gossipsub) (message : Raw) (propagation_source : option PeerId) (originating : gset PeerId) :
    gset PeerId :=
  let explicit : gset PeerId :=
    filter (λ p, forward_to message propagation_source originating p && subscribes s p (topic message)) (explicit_peers s) in
  explicit ∪ filter (forward_to message propagation_source originating) (default ∅ (mesh s !! topic message)).

Definition Gossipsub_forward_msg (s : Gossipsub) (msg_id : MessageId) (message : Raw) (propagation_source : option PeerId)
    (originating : gset PeerId) : Result bool PublishError * Gossipsub :=
  let s :=
    match propagation_source with
    | Some peer => on_score (λ ps, PeerScore_deliver_message ps peer msg_id (topic message)) s
    | None => s
    end in
  let recipients := forward_recipients s message propagation_source originating in
  if decide (recipients = ∅) then (Ok false, s)
  else
    match send_to_all s (hash_peers o recipients) (message_rpc [message]) with
    | (Ok _, s) => (Ok true, s)
    | (Err e, s) => (Err e, s)
    end.

(** The peers of a topic that is not subscribed: those of the fanout, which is made if
    there is none. *)
Definition publish_fanout (s : Gossipsub) (topic : TopicHash) : gset PeerId * Gossipsub :=
  let '(peers, s) :=
    match fanout s !! topic with
    | Some peers => (peers, s)
    | None =>
        let '(new_peers, g) := get_random_peers o (topic_peers s) (connected_peers s) topic (mesh_n (config s))
          (λ p, bool_decide (p ∉ explicit_peers s) && negb (Gossipsub_score_below_threshold s p publish_threshold).1) (rng s) in
        (new_peers, set_rng g (set_fanout (<[topic := new_peers]> (fanout s)) s))
    end in
  (peers, set_fanout_last_pub (<[topic := now]> (fanout_last_pub s)) s).

(** The recipients of a published message that are not peers of the mesh. *)
Definition publish_recipients (s : Gossipsub) (topic : TopicHash) : gset PeerId * Gossipsub :=
  let above p := negb (Gossipsub_score_below_threshold s p publish_threshold).1 in
  match topic_peers s !! topic with
  | None => (∅, s)
  | Some subscribed =>
      if flood_publish (config s) then (filter (λ p, bool_decide (p ∈ explicit_peers s) || above p) subscribed, s)
      else
        let explicit := explicit_peers s ∩ subscribed in
        let floodsub : gset PeerId := filter above (dom (filter (λ pc, kind pc.2 = Floodsub) (connected_peers s))) in
        let '(gossip, s) := if decide (mesh s !! topic = None) then publish_fanout s topic else (∅, s) in
        (explicit ∪ floodsub ∪ gossip, s)
  end.

(** The end of [publish]: the message is remembered and sent. *)
Definition publish_send (s : Gossipsub) (msg_id : MessageId) (raw : Raw) (recipients : gset PeerId) :
    outcome (Result MessageId PublishError * Gossipsub) :=
  let s := set_duplicate_cache (DuplicateCache_insert (duplicate_cache s) msg_id now).2 s in
  '(_, mc) ← MessageCache_put (mcache s) msg_id raw;
  let s := set_mcache mc s in
  let s :=
    match publish_config s with
    | Publish_RandomAuthor | Publish_Anonymous =>
        if allow_self_origin (config s) then s
        else set_published_message_ids (DuplicateCache_insert (published_message_ids s) msg_id now).2 s
    | _ => s
    end in
  match send_to_all s (hash_peers o recipients) (message_rpc [raw]) with
  | (Ok _, s) => Ret (Ok msg_id, s)
  | (Err e, s) => Ret (Err e, s)
  end.

Definition Gossipsub_publish (s : Gossipsub) (topic : TopicHash) (data : list byte) (seqno : N) (random_author : PeerId) :
    outcome (Result MessageId PublishError * Gossipsub) :=
  match outbound_transform topic data with
  | None => Ret (Err TransformFailed, s)
  | Some transformed =>
      match Gossipsub_build_raw_message s topic transformed seqno random_author with
      | Err e => Ret (Err e, s)
      | Ok raw =>
          let msg_id := message_id_fn (config s) (mkGossipsubMessage (source raw) data (sequence_number raw) (GossipMcache.topic raw)) in
          if decide (max_transmit_size (config s) < len_rpc (message_rpc [raw]))%N then Ret (Err MessageTooLarge, s)
          else if DuplicateCache_contains (duplicate_cache s) msg_id then Ret (Err Duplicate, s)
          else
            let '(sent, s) :=
              if flood_publish (config s) then (Ok false, s) else Gossipsub_forward_msg s msg_id raw None ∅ in
            match sent with
            | Err e => Ret (Err e, s)
            | Ok mesh_peers_sent =>
                let '(recipients, s) := publish_recipients s (GossipMcache.topic raw) in
                if decide (recipients = ∅ ∧ mesh_peers_sent = false) then Ret (Err InsufficientPeers, s)
                else publish_send s msg_id raw recipients
            end
      end
  end.

(** ** Receiving *)

(** [if let Some((peer_score, .., gossip_promises)) = &mut self.peer_score { .. }] *)
Definition on_promises (f : PS → PS) (h : GossipPromises → GossipPromises) (s : Gossipsub) : Gossipsub :=
  match peer_score s with
  | Some (ps, thresholds, promises) => set_peer_score (Some (f ps, thresholds, h promises)) s
  | None => s
  end.

Definition fast_message_id (s : Gossipsub) (raw : Raw) : option FastMessageId :=
  (λ f, f raw) <$> fast_message_id_fn (config s).

Definition Gossipsub_handle_invalid_message (s : Gossipsub) (peer : PeerId) (raw : Raw) (reason : RejectReason) : Gossipsub :=
  match fast_message_id s raw ≫= TimeCache_get (fast_message_id_cache s) with
  | Some msg_id =>
      on_promises (λ ps, PeerScore_reject_message ps peer msg_id (topic raw) reason)
        (λ pr, GossipPromises_reject_message pr msg_id reason) s
  | None => on_score (λ ps, PeerScore_reject_invalid_message ps peer (topic raw)) s
  end.

Definition set_raw_validated (raw : Raw) : Raw :=
  mkRaw (source raw) (data raw) (sequence_number raw) (topic raw) (signature raw) (key raw) true.

(** A message that claims to be ours but was not published here. *)
Definition self_published (s : Gossipsub) (msg_id : MessageId) (raw : Raw) (peer : PeerId) : bool :=
  negb (allow_self_origin (config s)) &&
  match PublishConfig_get_own_id (publish_config s) with
  | Some own_id => bool_decide (own_id ≠ peer) && bool_decide (source raw = Some own_id)
  | None => DuplicateCache_contains (published_message_ids s) msg_id
  end.

(** Whether the message is valid, and the message with its flag. *)
Definition Gossipsub_message_is_valid (s : Gossipsub) (msg_id : MessageId) (raw : Raw) (peer : PeerId) : bool * Raw * Gossipsub :=
  if decide (peer ∈ blacklisted_peers s) then
    (false, raw, on_promises (λ ps, PeerScore_reject_message ps peer msg_id (topic raw) BlackListedPeer)
      (λ pr, GossipPromises_reject_message pr msg_id BlackListedPeer) s)
  else if match source raw with Some src => bool_decide (src ∈ blacklisted_peers s) | None => false end then
    (false, raw, Gossipsub_handle_invalid_message s peer raw BlackListedSource)
  else
    let raw := if validate_messages (config s) then raw else set_raw_validated raw in
    if self_published s msg_id raw peer then (false, raw, Gossipsub_handle_invalid_message s peer raw SelfOrigin)
    else (true, raw, s).

(** A message that was seen before. *)
Definition handle_duplicate (s : Gossipsub) (msg_id : MessageId) (t : TopicHash) (peer : PeerId) : Gossipsub :=
  let s := on_score (λ ps, PeerScore_duplicated_message ps peer msg_id t) s in
  set_mcache (MessageCache_observe_duplicate (mcache s) msg_id peer) s.

(** A message that is valid and was not seen before: it is remembered, given to the
    application if it is subscribed to, and forwarded. *)
Definition handle_new_message (s : Gossipsub) (msg_id : MessageId) (raw : Raw) (message : GossipsubMessage) (peer : PeerId) :
    outcome Gossipsub :=
  let s := on_promises (λ ps, PeerScore_validate_message ps peer msg_id (gm_topic message))
    (λ pr, GossipPromises_message_delivered pr msg_id) s in
  '(_, mc) ← MessageCache_put (mcache s) msg_id raw;
  let s := set_mcache mc s in
  if decide (mesh s !! gm_topic message = None) then Ret s
  else
    let s := push_event (GenerateEvent (Event_Message peer msg_id message)) s in
    Ret (if validate_messages (config s) then s else (Gossipsub_forward_msg s msg_id raw (Some peer) ∅).2).

(** From the transformation of the message on. *)
Definition handle_transformed (s : Gossipsub) (fast : option FastMessageId) (raw : Raw) (message : GossipsubMessage) (peer : PeerId) :
    outcome Gossipsub :=
  let msg_id := message_id_fn (config s) message in
  let '(valid, raw, s) := Gossipsub_message_is_valid s msg_id raw peer in
  if negb valid then Ret s
  else
    let s :=
      match fast with
      | Some id =>
          let '(entry, cache) := TimeCache_entry (fast_message_id_cache s) id now in
          set_fast_message_id_cache (TimeEntry_or_insert_with cache entry msg_id).2 s
      | None => s
      end in
    let '(fresh, cache) := DuplicateCache_insert (duplicate_cache s) msg_id now in
    let s := set_duplicate_cache cache s in
    if negb fresh then Ret (handle_duplicate s msg_id (gm_topic message) peer)
    else handle_new_message s msg_id raw message peer.

Definition Gossipsub_handle_received_message (s : Gossipsub) (raw : Raw) (peer : PeerId) : outcome Gossipsub :=
  let fast := fast_message_id s raw in
  match fast ≫= TimeCache_get (fast_message_id_cache s) with
  | Some msg_id =>
      let '(valid, raw, s) := Gossipsub_message_is_valid s msg_id raw peer in
      Ret (if valid then handle_duplicate s msg_id (topic raw) peer else s)
  | None =>
      match inbound_transform raw with
      | None => Ret (Gossipsub_handle_invalid_message s peer raw (Reject_ValidationError Validation_TransformFailed))
      | Some message => handle_transformed s fast raw message peer
      end
  end.

Definition Gossipsub_report_message_validation_result (s : Gossipsub) (msg_id : MessageId) (propagation_source : PeerId)
    (acceptance : MessageAcceptance) : Result bool PublishError * Gossipsub :=
  let refuse reason :=
    let '(removed, mc) := MessageCache_remove (mcache s) msg_id in
    let s := set_mcache mc s in
    match removed with
    | Some (raw, originating) =>
        (Ok true, on_score (λ ps, foldl (λ ps p, PeerScore_reject_message ps p msg_id (topic raw) reason) ps
          (propagation_source :: hash_peers o originating)) s)
    | None => (Ok false, s)
    end in
  match acceptance with
  | Accept =>
      let '(found, mc) := MessageCache_validate (mcache s) msg_id in
      let s := set_mcache mc s in
      match found with
      | Some (raw, originating) =>
          match Gossipsub_forward_msg s msg_id raw (Some propagation_source) originating with
          | (Ok _, s) => (Ok true, s)
          | (Err e, s) => (Err e, s)
          end
      | None => (Ok false, s)
      end
  | Reject => refuse ValidationFailed
  | Ignore => refuse ValidationIgnored
  end.

(** ** IHAVE and IWANT *)

(** The ids of an IHAVE that are to be asked for. *)
Definition wanted (s : Gossipsub) (id : MessageId) : bool :=
  negb (DuplicateCache_contains (duplicate_cache s) id) && negb (bool_decide (id ∈ pending_iwant_msgs s)) &&
  match peer_score s with Some (_, _, promises) => negb (GossipPromises_contains promises id) | None => true end.

Definition iwant_ids (s : Gossipsub) (ihave_msgs : list (TopicHash * list MessageId)) : gset MessageId :=
  list_to_set (filter (wanted s) (mjoin (snd <$> filter (λ im, is_Some (mesh s !! im.1)) ihave_msgs))).

(** The end of [handle_ihave]: asking for some of the messages. *)
Definition ask_for (s : Gossipsub) (peer : PeerId) (ids : gset MessageId) : Gossipsub :=
  let iasked := default 0 (count_sent_iwant s !! peer) in
  let iask :=
    if decide (max_ihave_length (config s) < iasked + size ids) then max_ihave_length (config s) - iasked else size ids in
  let '(l, g) := partial_shuffle (rng s) iask (hash_ids o ids) in
  let l := take iask l in
  let s := set_rng g s in
  let s := set_count_sent_iwant (<[peer := iasked + iask]> (count_sent_iwant s)) s in
  let s := set_pending_iwant_msgs (list_to_set l ∪ pending_iwant_msgs s) s in
  let s := on_promises id (λ pr, GossipPromises_add_promise pr peer l (now + iwant_followup_time (config s))) s in
  set_control_pool (control_pool_add (control_pool s) peer (IWant l)) s.

Definition Gossipsub_handle_ihave (s : Gossipsub) (peer : PeerId) (ihave_msgs : list (TopicHash * list MessageId)) : Gossipsub :=
  if (Gossipsub_score_below_threshold s peer gossip_threshold).1 then s
  else
    let peer_have := S (default 0 (count_received_ihave s !! peer)) in
    let s := set_count_received_ihave (<[peer := peer_have]> (count_received_ihave s)) s in
    if decide (max_ihave_messages (config s) < peer_have) then s
    else if match count_sent_iwant s !! peer with
            | Some iasked => bool_decide (max_ihave_length (config s) ≤ iasked)
            | None => false
            end then s
    else
      let ids := iwant_ids s ihave_msgs in
      if decide (ids = ∅) then s else ask_for s peer ids.

(** One turn of the loop of [handle_iwant]: the messages found so far. *)
Definition iwant_turn (peer : PeerId) (st : Gossipsub * gmap MessageId Raw) (id : MessageId) : outcome (Gossipsub * gmap MessageId Raw) :=
  let '(s, cached) := st in
  '(found, mc) ← MessageCache_get_with_iwant_counts (mcache s) id peer;
  let s := set_mcache mc s in
  Ret (s, match found with
          | Some (msg, count) => if decide (gossip_retransimission (config s) < count)%N then cached else <[id := msg]> cached
          | None => cached
          end).

Definition Gossipsub_handle_iwant (s : Gossipsub) (peer : PeerId) (iwant_msgs : list MessageId) : outcome Gossipsub :=
  if (Gossipsub_score_below_threshold s peer gossip_threshold).1 then Ret s
  else
    '(s, cached) ← for_each (iwant_turn peer) (s, ∅) iwant_msgs;
    if decide (cached = ∅) then Ret s
    else
      let message_list := omap (λ id, cached !! id) (hash_ids o (dom cached)) in
      Ret (Gossipsub_send_message s peer (message_rpc message_list)).2.

(** ** Events and timers *)

(** The control messages of an RPC, by kind. *)
Definition ihaves (l : list Control) : list (TopicHash * list MessageId) :=
  omap (λ c, match c with IHave t ids => Some (t, ids) | _ => None end) l.
Definition iwants (l : list Control) : list (list MessageId) :=
  omap (λ c, match c with IWant ids => Some ids | _ => None end) l.
Definition grafts (l : list Control) : list TopicHash :=
  omap (λ c, match c with Graft t => Some t | _ => None end) l.
Definition prunes (l : list Control) : list (TopicHash * list (PeerInfo PeerId) * option N) :=
  omap (λ c, match c with Prune t peers backoff => Some (t, peers, backoff) | _ => None end) l.

(** The control messages: IWANTs at once, the others grouped. *)
Definition handle_controls (s : Gossipsub) (peer : PeerId) (controls : list Control) : outcome Gossipsub :=
  s ← for_each (λ s ids, Gossipsub_handle_iwant s peer ids) s (iwants controls);
  let s := if decide (ihaves controls = []) then s else Gossipsub_handle_ihave s peer (ihaves controls) in
  s ← (if decide (grafts controls = []) then Ret s else Gossipsub_handle_graft to_bytes o now s peer (grafts controls));
  if decide (prunes controls = []) then Ret s else Gossipsub_handle_prune now s peer (prunes controls).

(** The part of [inject_event] for [HandlerEvent::Message]. *)
Definition Gossipsub_inject_message (s : Gossipsub) (peer : PeerId) (rpc : GossipsubRpc MessageId TopicHash PeerId)
    (invalid_messages : list (Raw * ValidationError)) : outcome Gossipsub :=
  s ← (if decide (rpc_subscriptions rpc = []) then Ret s
       else Gossipsub_handle_received_subscriptions to_bytes o now s (rpc_subscriptions rpc) peer);
  if (Gossipsub_score_below_threshold s peer graylist_threshold).1 then Ret s
  else
    let s :=
      match peer_score s with
      | Some _ => foldl (λ s re, Gossipsub_handle_invalid_message s peer re.1 (Reject_ValidationError re.2)) s invalid_messages
      | None => s
      end in
    let messages := match max_messages_per_rpc (config s) with Some n => take n (messages rpc) | None => messages rpc end in
    s ← for_each (λ s raw, Gossipsub_handle_received_message s raw peer) s messages;
    handle_controls s peer (control_msgs rpc).

(** [poll]: an event, or the timers of the scores and of the heartbeat, which have fired
    the given numbers of times. *)
Definition Gossipsub_poll (s : Gossipsub) (score_ticks heartbeats : nat) :
    outcome (Poll (Action (PeerId := PeerId) (TopicHash := TopicHash) (MessageId := MessageId) (ConnectionId := ConnectionId)) * Gossipsub) :=
  match events s with
  | event :: rest => Ret (Ready event, set_events rest s)
  | [] =>
      let s := Nat.iter score_ticks (on_score PeerScore_refresh_scores) s in
      s ← for_each (λ s _, Gossipsub_heartbeat to_bytes o now s) s (replicate heartbeats ());
      Ret (Pending, s)
  end.
End messages.
