(* ===== verification/GossipProtocol.v ===== *)
(** * The codec of gossipsub

    [protocols/gossipsub/src/protocol.rs]: the messages that a remote sends are
    validated and turned into the types of the behaviour.  The frames, the protobuf
    encoding and the cryptography are not in the crate: they are the methods of a
    class. *)

From S2P Require Import Prelude Float64 GossipTimeCache GossipBackoff GossipMcache GossipRpc GossipFilter GossipBehaviour GossipHeartbeat GossipMessages.
From stdpp Require Import strings.

(** Peer ids and public keys of [libp2p_core], and the encoding of a message. *)
Class Identity (PeerId TopicHash Key : Type) : Type := {
  peer_id_to_bytes : PeerId → list byte;
  peer_id_from_bytes : list byte → option PeerId;
  key_from_protobuf_encoding : list byte → option Key;
  key_to_peer_id : Key → PeerId;
  key_verify : Key → list byte → list byte → bool;
  encode_message : PbMessage TopicHash → list byte;
}.

Class IdentitySpec (PeerId TopicHash Key : Type) `{!Identity PeerId TopicHash Key} : Prop := {
  peer_id_from_to_bytes p : peer_id_from_bytes (peer_id_to_bytes p) = Some p;
  peer_id_from_empty : peer_id_from_bytes [] = None;
}.

(** [b"libp2p-pubsub:"] *)
Definition SIGNING_PREFIX : list byte := String.list_byte_of_string "libp2p-pubsub:".

Section protocol.
Context {PeerId TopicHash MessageId Key : Type} `{!EqDecision PeerId} `{!EqDecision TopicHash} `{!EqDecision MessageId}.
Context `{!Identity PeerId TopicHash Key}.
(** [TopicHash::from_raw(String::default())] *)
Context (empty_topic : TopicHash).

#[local] Abbreviation Raw := (RawGossipsubMessage (TopicHash := TopicHash) (PeerId := PeerId)).
#[local] Abbreviation Control := (GossipsubControlAction MessageId TopicHash PeerId).
#[local] Abbreviation GossipsubRpc := (GossipsubRpc MessageId TopicHash PeerId).
#[local] Abbreviation PbMessage := (PbMessage TopicHash).

(** The key in the message, or else the one inlined in the peer id. *)
Definition message_key (m : PbMessage) (source : PeerId) : option Key :=
  match pb_key m ≫= key_from_protobuf_encoding with
  | Some key => Some key
  | None => key_from_protobuf_encoding (drop 2 (peer_id_to_bytes source))
  end.

Definition GossipsubCodec_verify_signature (m : PbMessage) : bool :=
  match pb_from m ≫= peer_id_from_bytes with
  | None => false
  | Some source =>
      match pb_signature m with
      | None => false
      | Some signature =>
          match message_key m source with
          | None => false
          | Some key =>
              bool_decide (source = key_to_peer_id key) &&
              key_verify key (SIGNING_PREFIX ++ encode_message (mkPbMessage (pb_from m) (pb_data m) (pb_seqno m) (pb_topic m) None None)) signature
          end
      end
  end.

(** What is verified: the signature, the sequence number and the source. *)
Record Checks : Type := mkChecks { check_signature : bool; check_seqno : bool; check_source : bool }.

Definition checks_of (mode : ValidationMode) (m : PbMessage) : Result Checks ValidationError :=
  match mode with
  | Mode_Strict => Ok (mkChecks true true true)
  | Mode_Permissive => Ok (mkChecks (bool_decide (is_Some (pb_signature m))) (bool_decide (is_Some (pb_seqno m))) (bool_decide (is_Some (pb_from m))))
  | Mode_Anonymous =>
      if decide (is_Some (pb_signature m)) then Err SignaturePresent
      else if decide (is_Some (pb_seqno m)) then Err SequenceNumberPresent
      else if decide (is_Some (pb_from m)) then Err MessageSourcePresent
      else Ok (mkChecks false false false)
  | Mode_None => Ok (mkChecks false false false)
  end.

(** A message for the behaviour; [validated] is false. *)
Definition raw_of (m : PbMessage) (source : option PeerId) (seqno : option N) (signature : option (list byte)) : Raw :=
  mkRaw source (default [] (pb_data m)) seqno (pb_topic m) signature (pb_key m) false.

Definition decode_seqno (verify : bool) (m : PbMessage) : Result (option N) ValidationError :=
  if verify then
    match pb_seqno m with
    | Some [] => Ok None
    | Some bytes => if decide (length bytes = 8) then Ok (Some (be_to_N bytes)) else Err InvalidSequenceNumber
    | None => Err EmptySequenceNumber
    end
  else Ok None.

Definition decode_source (verify : bool) (m : PbMessage) : Result (option PeerId) ValidationError :=
  if verify then
    match pb_from m with
    | Some [] => Ok None
    | Some bytes => match peer_id_from_bytes bytes with Some p => Ok (Some p) | None => Err InvalidPeerId end
    | None => Ok None
    end
  else Ok None.

(** One turn of the loop over the messages. *)
Definition decode_message (mode : ValidationMode) (m : PbMessage) : Result Raw (Raw * ValidationError) :=
  match checks_of mode m with
  | Err e => Err (raw_of m None None None, e)
  | Ok c =>
      if check_signature c && negb (GossipsubCodec_verify_signature m) then Err (raw_of m None None None, InvalidSignature)
      else
        match decode_seqno (check_seqno c) m with
        | Err e => Err (raw_of m None None (pb_signature m), e)
        | Ok seqno =>
            match decode_source (check_source c) m with
            | Err e => Err (raw_of m None seqno (pb_signature m), e)
            | Ok source => Ok (raw_of m source seqno (pb_signature m))
            end
        end
  end.

Definition decode_subscription (s : SubOpts TopicHash) : GossipsubSubscription TopicHash :=
  mkSubscription (if decide (so_subscribe s = Some true) then Subscribe else Unsubscribe) (default empty_topic (so_topic_id s)).

(** Peers without a valid id are left out of a PRUNE. *)
Definition decode_peers (peers : list PbPeerInfo) : list (PeerInfo PeerId) :=
  omap (λ info, (λ p, mkPeerInfo (Some p)) <$> (pi_peer_id info ≫= peer_id_from_bytes)) peers.

Definition decode_control (c : ControlMessage MessageId TopicHash) : list Control :=
  ((λ x, IHave (default empty_topic (ih_topic_id x)) (ih_message_ids x)) <$> ihave c) ++
  ((λ x, IWant (iw_message_ids x)) <$> iwant c) ++
  ((λ x, Graft (default empty_topic (gr_topic_id x))) <$> graft c) ++
  ((λ x, Prune (default empty_topic (pr_topic_id x)) (decode_peers (pr_peers x)) (pr_backoff x)) <$> prune c).

(** [decode], of a packet that is a protobuf message. *)
Definition GossipsubCodec_decode (mode : ValidationMode) (rpc : Rpc MessageId TopicHash) : GossipsubRpc * list (Raw * ValidationError) :=
  let decoded := decode_message mode <$> publish rpc in
  (mkGossipsubRpc (omap (λ r, match r with Ok m => Some m | Err _ => None end) decoded) (decode_subscription <$> subscriptions rpc)
     (match control rpc with Some c => decode_control c | None => [] end),
   omap (λ r, match r with Ok _ => None | Err e => Some e end) decoded).

(** ** Round trip *)

(** The messages that a receiver accepts. *)
Definition accepts (mode : ValidationMode) (m : Raw) : bool :=
  match mode with
  | Mode_Strict => bool_decide (is_Some (sequence_number m)) && GossipsubCodec_verify_signature (GossipsubRpc_message peer_id_to_bytes m)
  | Mode_Permissive => bool_decide (signature m = None) || GossipsubCodec_verify_signature (GossipsubRpc_message peer_id_to_bytes m)
  | Mode_Anonymous => bool_decide (signature m = None ∧ sequence_number m = None ∧ source m = None)
  | Mode_None => true
  end.

(** The message as the receiver has it: without validation, source and sequence number
    are not decoded. *)
Definition received (mode : ValidationMode) (m : Raw) : Raw :=
  match mode with
  | Mode_None => mkRaw None (data m) None (topic m) (signature m) (key m) false
  | _ => mkRaw (source m) (data m) (sequence_number m) (topic m) (signature m) (key m) false
  end.

(** Sequence numbers are of type [u64]. *)
Definition seqno_u64 (m : Raw) : Prop := ∀ n, sequence_number m = Some n → (n < 2 ^ 64)%N.

(** The control messages arrive ordered by kind. *)
Definition control_kind (c : Control) : nat := match c with IHave _ _ => 0 | IWant _ => 1 | Graft _ => 2 | Prune _ _ _ => 3 end.
Definition of_kind (k : nat) (l : list Control) : list Control := filter (λ c, control_kind c = k) l.
Definition by_kind (l : list Control) : list Control := of_kind 0 l ++ of_kind 1 l ++ of_kind 2 l ++ of_kind 3 l.

(** Peers without an id are lost from a PRUNE. *)
Definition received_control (c : Control) : Control :=
  match c with Prune t peers backoff => Prune t (filter (λ i, is_Some (info_peer_id i)) peers) backoff | c => c end.

Section spec.
Context `{!IdentitySpec PeerId TopicHash Key}.

Lemma decode_seqno_message v (m : Raw) :
  seqno_u64 m →
  decode_seqno v (GossipsubRpc_message peer_id_to_bytes m) =
    if v then match sequence_number m with Some n => Ok (Some n) | None => Err EmptySequenceNumber end else Ok None.
Proof.
  intros Hlt. unfold decode_seqno. destruct v; [|done]. cbn [GossipsubRpc_message pb_seqno].
  destruct (sequence_number m) as [n|] eqn:En; [|done]. cbn [fmap option_fmap option_map]. destruct (N_to_be 8 n : list byte) as [|b l] eqn:E.
  { apply (f_equal length) in E. by rewrite length_vec_to_list in E. }
  rewrite <-E. rewrite length_vec_to_list, decide_True by done. rewrite be_to_N_to_be; [done|]. by apply Hlt.
Qed.

Lemma decode_source_message v (m : Raw) :
  decode_source v (GossipsubRpc_message peer_id_to_bytes m) = Ok (if v then source m else None).
Proof.
  unfold decode_source. destruct v; [|done]. cbn [GossipsubRpc_message pb_from]. destruct (source m) as [p|] eqn:Ep; [|done].
  cbn [fmap option_fmap option_map]. pose proof (peer_id_from_to_bytes p) as Hp.
  destruct (peer_id_to_bytes p); [by rewrite peer_id_from_empty in Hp|by rewrite Hp].
Qed.

Lemma verified_source (m : Raw) : GossipsubCodec_verify_signature (GossipsubRpc_message peer_id_to_bytes m) = true → is_Some (source m).
Proof. unfold GossipsubCodec_verify_signature. cbn. destruct (source m); [by eexists|done]. Qed.

(** A message that is sent is received or reported as invalid. *)
Lemma decode_message_sent mode (m : Raw) :
  seqno_u64 m →
  match decode_message mode (GossipsubRpc_message peer_id_to_bytes m) with
  | Ok m' => accepts mode m = true ∧ m' = received mode m
  | Err (m', _) => accepts mode m = false ∧ data m' = data m ∧ topic m' = topic m
  end.
Proof.
  intros Hn. unfold decode_message. destruct mode; cbn [checks_of accepts].
  - cbn [check_signature check_seqno check_source andb]. rewrite decode_seqno_message, decode_source_message by done.
    destruct (GossipsubCodec_verify_signature _) eqn:Hv; cbn [negb]; [|by rewrite andb_false_r].
    destruct (sequence_number m) eqn:En; cbn [raw_of]; [|done]. unfold raw_of, received. by rewrite En.
  - cbn [check_signature check_seqno check_source]. rewrite decode_seqno_message, decode_source_message by done.
    cbn [GossipsubRpc_message pb_signature pb_seqno pb_from]. destruct (signature m) as [sg|] eqn:Esg; cbn.
    + destruct (GossipsubCodec_verify_signature _); cbn; [|done]. unfold raw_of, received.
      by destruct (sequence_number m), (source m); cbn; rewrite Esg.
    + unfold raw_of, received. by destruct (sequence_number m), (source m); cbn; rewrite Esg.
  - cbn [GossipsubRpc_message pb_signature pb_seqno pb_from]. unfold raw_of, received.
    destruct (signature m) eqn:Esg; cbn; [done|].
    destruct (sequence_number m) eqn:En; cbn; [done|].
    destruct (source m) eqn:Es; cbn; [done|]. done.
  - done.
Qed.

Lemma decode_messages_sent mode (l : list Raw) :
  Forall seqno_u64 l →
  let decoded := decode_message mode <$> (GossipsubRpc_message peer_id_to_bytes <$> l) in
  omap (λ r, match r with Ok m => Some m | Err _ => None end) decoded = received mode <$> filter (λ m, accepts mode m = true) l ∧
  (λ x, (data x.1, topic x.1)) <$> omap (λ r, match r with Ok _ => None | Err e => Some e end) decoded =
    (λ m, (data m, topic m)) <$> filter (λ m, accepts mode m = false) l.
Proof.
  induction 1 as [|m l Hm _ [IH1 IH2]]; [done|]. cbn -[decode_message filter]. rewrite !filter_cons.
  pose proof (decode_message_sent mode m Hm) as Hd. destruct (decode_message _ _) as [m'|[m' e]].
  - destruct Hd as [-> ->]. cbn -[decode_message]. by rewrite IH1, IH2.
  - destruct Hd as (-> & E1 & E2). cbn -[decode_message]. by rewrite IH1, IH2, E1, E2.
Qed.

Lemma decode_peers_sent (peers : list (PeerInfo PeerId)) :
  decode_peers ((λ info, mkPbPeerInfo (peer_id_to_bytes <$> info_peer_id info) None) <$> peers) =
    filter (λ i, is_Some (info_peer_id i)) peers.
Proof.
  induction peers as [|[[p|]] peers IH]; [done|..]; unfold decode_peers in *; rewrite filter_cons; cbn; [|done].
  rewrite peer_id_from_to_bytes. cbn. by rewrite IH.
Qed.

Lemma of_kind_snoc k (l : list Control) c : of_kind k (l ++ [c]) = of_kind k l ++ of_kind k [c].
Proof. apply filter_app. Qed.

Lemma decode_control_by_kind (l : list Control) :
  decode_control (foldl (GossipsubRpc_control peer_id_to_bytes) (mkControl [] [] [] []) l) = by_kind (received_control <$> l).
Proof.
  set (cm := foldl _ _ l).
  assert (((λ x, IHave (default empty_topic (ih_topic_id x)) (ih_message_ids x)) <$> ihave cm) =
      of_kind 0 (received_control <$> l) ∧
    ((λ x, IWant (iw_message_ids x)) <$> iwant cm) = of_kind 1 (received_control <$> l) ∧
    ((λ x, Graft (default empty_topic (gr_topic_id x))) <$> graft cm) = of_kind 2 (received_control <$> l) ∧
    ((λ x, Prune (default empty_topic (pr_topic_id x)) (decode_peers (pr_peers x)) (pr_backoff x)) <$> prune cm) =
      of_kind 3 (received_control <$> l)) as (E1 & E2 & E3 & E4).
  2:{ unfold decode_control, by_kind. by rewrite E1, E2, E3, E4. }
  subst cm. induction l as [|c l IH] using rev_ind; [done|].
  destruct IH as (E1 & E2 & E3 & E4). rewrite foldl_snoc, fmap_app. cbn [fmap list_fmap]. rewrite !of_kind_snoc, <-E1, <-E2, <-E3, <-E4.
  set (cm := foldl _ _ l). destruct c as [t ids|ids|t|t peers backoff]; cbn [GossipsubRpc_control ihave iwant graft prune]; rewrite ?fmap_app, ?app_nil_r.
  - by split_and!.
  - by split_and!.
  - by split_and!.
  - split_and!; [done|done|done|]. cbn -[decode_peers]. by rewrite decode_peers_sent.
Qed.

Lemma decode_subscription_of (s : GossipsubSubscription TopicHash) : decode_subscription (GossipsubRpc_subscription s) = s.
Proof. by destruct s as [[] t]. Qed.

(** [C36] What a peer sends is what the other peer receives.  Decoding the protobuf
    message that was made of an RPC gives, in their order, those of its messages that
    the validation mode of the receiver accepts; they arrive unchanged, except that
    without validation their source and sequence number are not decoded.  Every other
    message is reported as invalid, with its data and topic.  The subscriptions arrive
    unchanged, and so do the control messages, ordered by kind, but for peers of a PRUNE
    that have no id. *)
Theorem decode_into_protobuf mode (rpc : GossipsubRpc) :
  Forall seqno_u64 (messages rpc) →
  ∃ invalid, GossipsubCodec_decode mode (GossipsubRpc_into_protobuf peer_id_to_bytes rpc) =
    (mkGossipsubRpc (received mode <$> filter (λ m, accepts mode m = true) (messages rpc)) (rpc_subscriptions rpc)
      (by_kind (received_control <$> control_msgs rpc)), invalid) ∧
    (λ x, (data x.1, topic x.1)) <$> invalid =
      (λ m, (data m, topic m)) <$> filter (λ m, accepts mode m = false) (messages rpc).
Proof.
  intros Hm. eexists. split; [|by apply decode_messages_sent]. unfold GossipsubCodec_decode.
  cbn [GossipsubRpc_into_protobuf publish subscriptions control]. f_equal. f_equal.
  - by apply decode_messages_sent.
  - rewrite <-list_fmap_compose. rewrite <-(list_fmap_id (rpc_subscriptions rpc)) at 2. apply list_fmap_ext. intros i s _. apply decode_subscription_of.
  - case_decide as Hd; [by rewrite Hd|]. by apply decode_control_by_kind.
Qed.

(** ** Signatures *)

(** The sequence number that a protobuf message carries: eight bytes, or no bytes. *)
Definition seqno_of (pb : PbMessage) (n : option N) : Prop :=
  pb_seqno pb = Some [] ∧ n = None ∨
  ∃ bytes, pb_seqno pb = Some bytes ∧ length bytes = 8 ∧ n = Some (be_to_N bytes).

Lemma decode_seqno_of pb n : decode_seqno true pb = Ok n → seqno_of pb n.
Proof.
  unfold decode_seqno, seqno_of. destruct (pb_seqno pb) as [[|b l]|]; [intros [= <-]; by left| |done].
  case_decide; [|done]. intros [= <-]. right. eauto.
Qed.

Lemma decode_message_strict pb (m : Raw) :
  decode_message Mode_Strict pb = Ok m →
  ∃ p k sg, pb_from pb ≫= peer_id_from_bytes = Some p ∧ source m = Some p ∧ signature m = Some sg ∧ key_to_peer_id k = p ∧
    data m = default [] (pb_data pb) ∧ topic m = pb_topic pb ∧ seqno_of pb (sequence_number m) ∧
    key_verify k (SIGNING_PREFIX ++ encode_message (mkPbMessage (pb_from pb) (pb_data pb) (pb_seqno pb) (pb_topic pb) None None)) sg = true.
Proof.
  unfold decode_message. cbn [checks_of check_signature check_seqno check_source andb].
  destruct (GossipsubCodec_verify_signature pb) eqn:Hv; [|done]. cbn [negb].
  destruct (decode_seqno true pb) as [seqno|] eqn:Hn; [|done]. apply decode_seqno_of in Hn. destruct (decode_source true pb) as [src|] eqn:Hs; [|done]. intros [= <-].
  unfold GossipsubCodec_verify_signature in Hv. destruct (pb_from pb ≫= peer_id_from_bytes) as [p|] eqn:Hp; [|done].
  destruct (pb_signature pb) as [sg|] eqn:Hsg; [|done]. destruct (message_key pb p) as [k|]; [|done].
  apply andb_true_iff in Hv as [Hk Hv]. apply bool_decide_eq_true in Hk. exists p, k, sg. cbn. split_and!; [done| |done|done|done|done|done|done].
  unfold decode_source in Hs. destruct (pb_from pb) as [[|b l]|]; cbn in Hp; [by rewrite peer_id_from_empty in Hp| |done].
  rewrite Hp in Hs. by simplify_eq.
Qed.

(** [C37] In the strict mode, only authenticated messages reach the behaviour: the source
    of every message that is decoded as valid is the peer that the message names as
    its author, its data, topic and sequence number are those of the message, and a key
    that belongs to this peer has signed the author, the data, the sequence number and
    the topic. *)
Theorem strict_messages_signed (rpc : Rpc MessageId TopicHash) (m : Raw) :
  m ∈ messages (GossipsubCodec_decode Mode_Strict rpc).1 →
  ∃ pb p k sg, pb ∈ publish rpc ∧ pb_from pb ≫= peer_id_from_bytes = Some p ∧ source m = Some p ∧ signature m = Some sg ∧
    key_to_peer_id k = p ∧ data m = default [] (pb_data pb) ∧ topic m = pb_topic pb ∧ seqno_of pb (sequence_number m) ∧
    key_verify k (SIGNING_PREFIX ++ encode_message (mkPbMessage (pb_from pb) (pb_data pb) (pb_seqno pb) (pb_topic pb) None None)) sg = true.
Proof.
  cbn [GossipsubCodec_decode fst messages]. intros (r & Hr & Hm)%list_elem_of_omap. apply list_elem_of_fmap in Hr as (pb & -> & Hpb).
  destruct (decode_message Mode_Strict pb) as [m'|] eqn:E; [|done]. injection Hm as <-.
  destruct (decode_message_strict pb m' E) as (p & k & sg & Hrest). by exists pb, p, k, sg.
Qed.

(** ** Messages of the publisher *)

(** A message that [build_raw_message] has signed is accepted by every receiver that
    does not insist on anonymous messages. *)
Lemma signed_accepted {FastMessageId ConnectionId PS F G} `{Countable PeerId} `{Countable TopicHash} `{Countable MessageId} `{Countable FastMessageId}
    (s : Gossipsub (PeerId := PeerId) (TopicHash := TopicHash) (MessageId := MessageId) (FastMessageId := FastMessageId)
      (ConnectionId := ConnectionId) (PS := PS) (F := F) (G := G)) sign t d seqno author random_author inline k raw mode :
  publish_config s = Publish_Signing author inline →
  Gossipsub_build_raw_message peer_id_to_bytes sign s t d seqno random_author = Ok raw →
  (∀ m sg, sign m = Some sg → key_verify k (SIGNING_PREFIX ++ encode_message m) sg = true) →
  key_to_peer_id k = author →
  key_from_protobuf_encoding (default (drop 2 (peer_id_to_bytes author)) inline) = Some k →
  (seqno < 2 ^ 64)%N → mode ≠ Mode_Anonymous → accepts mode raw = true ∧ seqno_u64 raw.
Proof.
  intros Hcfg Hb Hsign Hk Henc Hseq Hmode. unfold Gossipsub_build_raw_message in Hb. rewrite Hcfg in Hb.
  destruct (sign _) as [sg|] eqn:Hsg; [|done]. injection Hb as <-.
  assert (GossipsubCodec_verify_signature (GossipsubRpc_message peer_id_to_bytes (mkRaw (Some author) d (Some seqno) t (Some sg) inline true)) = true) as Hv.
  { unfold GossipsubCodec_verify_signature. cbn -[N_to_be]. rewrite peer_id_from_to_bytes. unfold message_key. cbn -[N_to_be].
    assert ((match inline ≫= key_from_protobuf_encoding with Some key => Some key | None => key_from_protobuf_encoding (drop 2 (peer_id_to_bytes author)) end) = Some k) as ->.
    { destruct inline as [e|]; cbn in *; [by rewrite Henc|done]. }
    rewrite bool_decide_true by done. cbn [andb]. by apply Hsign. }
  split; [|cbn; by intros n [= <-]]. destruct mode; cbn [accepts]; rewrite ?Hv; done.
Qed.

(** What a signing publisher sends, such a receiver gets. *)
Lemma signed_message_received {FastMessageId ConnectionId PS F G} `{Countable PeerId} `{Countable TopicHash} `{Countable MessageId} `{Countable FastMessageId}
    (s : Gossipsub (PeerId := PeerId) (TopicHash := TopicHash) (MessageId := MessageId) (FastMessageId := FastMessageId)
      (ConnectionId := ConnectionId) (PS := PS) (F := F) (G := G)) sign t d seqno author random_author inline k raw mode :
  publish_config s = Publish_Signing author inline →
  Gossipsub_build_raw_message peer_id_to_bytes sign s t d seqno random_author = Ok raw →
  (∀ m sg, sign m = Some sg → key_verify k (SIGNING_PREFIX ++ encode_message m) sg = true) →
  key_to_peer_id k = author →
  key_from_protobuf_encoding (default (drop 2 (peer_id_to_bytes author)) inline) = Some k →
  (seqno < 2 ^ 64)%N → mode ≠ Mode_Anonymous →
  decode_message mode (GossipsubRpc_message peer_id_to_bytes raw) = Ok (received mode raw).
Proof.
  intros Hcfg Hb Hsign Hk Henc Hseq Hmode.
  destruct (signed_accepted s sign t d seqno author random_author inline k raw mode) as [Ha Hn]; [done..|].
  pose proof (decode_message_sent mode raw Hn) as Hd. destruct (decode_message _ _) as [m'|[m' e]].
  - by destruct Hd as [_ ->].
  - destruct Hd as [Hf _]. congruence.
Qed.
End spec.
End protocol.

(** ** An instance *)

Module codec_example.
#[export] Instance identity : Identity nat nat nat := {|
  peer_id_to_bytes p := replicate (S p) Byte.x00;
  peer_id_from_bytes l := match l with [] => None | _ :: l => Some (length l) end;
  key_from_protobuf_encoding l := Some (length l);
  key_to_peer_id k := k;
  key_verify k m sg := bool_decide (sg = [Byte.x01]);
  encode_message _ := [];
|}.

#[export] Instance identity_spec : IdentitySpec nat nat nat.
Proof. split; [|done]. intros p. cbn. by rewrite length_replicate. Qed.

Definition message : RawGossipsubMessage (TopicHash := nat) (PeerId := nat) :=
  mkRaw (Some 4) [Byte.x61] (Some 300%N) 7 (Some [Byte.x01]) (Some (replicate 4 Byte.x00)) true.
Definition unsigned : RawGossipsubMessage (TopicHash := nat) (PeerId := nat) :=
  mkRaw (Some 5) [Byte.x62] (Some 301%N) 9 None None true.
Definition rpc : GossipsubRpc nat nat nat :=
  mkGossipsubRpc [message; unsigned] [mkSubscription Unsubscribe 8]
    [Prune 7 [mkPeerInfo None; mkPeerInfo (Some 3)] (Some 60%N); IHave 7 [1; 2]; Graft 8].
End codec_example.

Import codec_example.

Lemma decode_into_protobuf_witness :
  ∃ invalid, GossipsubCodec_decode 0 Mode_Strict (GossipsubRpc_into_protobuf peer_id_to_bytes rpc) =
    (mkGossipsubRpc [received Mode_Strict message] [mkSubscription Unsubscribe 8]
      [IHave 7 [1; 2]; Graft 8; Prune 7 [mkPeerInfo (Some 3)] (Some 60%N)], invalid) ∧
    (λ x, (data x.1, topic x.1)) <$> invalid = [([Byte.x62], 9)].
Proof.
  destruct (decode_into_protobuf 0 Mode_Strict rpc) as (invalid & Hd & Hi).
  { constructor; [|constructor; [|constructor]]; cbn; intros n [= <-]; lia. }
  exists invalid. split; [rewrite Hd; vm_compute; reflexivity|rewrite Hi; vm_compute; reflexivity].
Defined.

Lemma strict_messages_signed_witness :
  ∃ pb p k sg, pb ∈ publish (GossipsubRpc_into_protobuf peer_id_to_bytes rpc) ∧ pb_from pb ≫= peer_id_from_bytes = Some p ∧
    source (received Mode_Strict message) = Some p ∧ signature (received Mode_Strict message) = Some sg ∧ key_to_peer_id k = p ∧
    data (received Mode_Strict message) = default [] (pb_data pb) ∧ topic (received Mode_Strict message) = pb_topic pb ∧ seqno_of pb (sequence_number (received Mode_Strict message)) ∧
    key_verify k (SIGNING_PREFIX ++ encode_message (mkPbMessage (pb_from pb) (pb_data pb) (pb_seqno pb) (pb_topic pb) None None)) sg = true.
Proof.
  apply (strict_messages_signed 0 (GossipsubRpc_into_protobuf peer_id_to_bytes rpc) (received Mode_Strict message)).
  assert (messages (GossipsubCodec_decode 0 Mode_Strict (GossipsubRpc_into_protobuf peer_id_to_bytes rpc)).1 = [received Mode_Strict message]) as -> by (vm_compute; reflexivity).
  left.
Defined.

(** The strict mode is to require a sequence number, but a message with an empty one is
    accepted, without a number. *)
Example strict_accepts_empty_seqno :
  let pb := mkPbMessage (Some (peer_id_to_bytes 4)) (Some []) (Some []) 7 (Some [Byte.x01]) (Some (replicate 4 Byte.x00)) in
  decode_message Mode_Strict pb = Ok (mkRaw (Some 4) [] None 7 (Some [Byte.x01]) (Some (replicate 4 Byte.x00)) false).
Proof. vm_compute. reflexivity. Qed.
