(* ===== verification/GossipMesh.v ===== *)
(** * The mesh of gossipsub under any sequence of events

    The behaviour of [protocols/gossipsub/src/behaviour.rs] run with a swarm that
    opens and closes connections: every state it can reach satisfies an invariant that
    relates the tables of peers, topics, meshes and connections, and no operation
    panics. *)

From S2P Require Import Prelude Float64 GossipTimeCache GossipBackoff GossipMcache GossipRpc GossipFilter GossipBehaviour GossipHeartbeat GossipMessages.
From stdpp Require Import fin_maps fin_sets strings.

Lemma foldl_inv {A S : Type} (f : S → A → S) (I : S → Prop) (l : list A) s :
  I s → (∀ s x, x ∈ l → I s → I (f s x)) → I (foldl f s l).
Proof.
  revert s. induction l as [|x l IH]; intros s Hs Hf; [done|]. cbn [foldl].
  apply IH; [apply Hf; [by left|done]|]. intros s0 y Hy. apply Hf. by right.
Qed.

(** A function of the state that no turn changes. *)
Lemma foldl_keeps {A S B : Type} (f : S → A → S) (g : S → B) (l : list A) s :
  (∀ s x, g (f s x) = g s) → g (foldl f s l) = g s.
Proof. intros Hf. revert s. induction l as [|x l IH]; intros s; [done|]. cbn [foldl]. by rewrite IH. Qed.

Section invariant.
Context {PeerId TopicHash MessageId FastMessageId ConnectionId IpAddr : Type}.
Context `{Countable PeerId} `{Countable TopicHash} `{Countable MessageId} `{Countable FastMessageId} `{!EqDecision ConnectionId}.
Context {PS F G : Type} `{!PeerScoring PeerId TopicHash MessageId IpAddr PS} `{!TopicSubscriptionFilter TopicHash F} `{!Rng G}.
Context `{!EncodedLen MessageId TopicHash}.

#[local] Abbreviation Gossipsub := (Gossipsub (PeerId := PeerId) (TopicHash := TopicHash) (MessageId := MessageId)
  (FastMessageId := FastMessageId) (ConnectionId := ConnectionId) (PS := PS) (F := F) (G := G)).
#[local] Abbreviation Orders := (Orders (PeerId := PeerId) (TopicHash := TopicHash) (MessageId := MessageId)).
#[local] Abbreviation GossipsubConfig := (GossipsubConfig (PeerId := PeerId) (TopicHash := TopicHash) (MessageId := MessageId)
  (FastMessageId := FastMessageId)).
Implicit Types (s : Gossipsub) (o : Orders) (p : PeerId) (t : TopicHash).

(** ** The invariant *)

(** The message cache has its capacity, and no message was asked for more than [n] times
    by one peer. *)
Record mcache_ok (c : GossipsubConfig) (n : N) (mc : MessageCache (MessageId := MessageId) (TopicHash := TopicHash) (PeerId := PeerId)) :
    Prop := {
  mk_history : length (history mc) = history_length c;
  mk_gossip : gossip mc = history_gossip c;
  mk_counts id counts p k : iwant_counts mc !! id = Some counts → counts !! p = Some k → (k ≤ n)%N;
}.

(** The backoffs are consistent, in a storage as it was made, and the code can add to
    their ends what it adds when a peer grafts too early. *)
Record backoff_ok (c : GossipsubConfig) (b : BackoffStorage (TopicHash := TopicHash) (PeerId := PeerId)) : Prop := {
  bk_inv : bo_inv b;
  bk_slots : length (backoffs_by_heartbeat b) = N.to_nat (backoff_slots c);
  bk_interval : heartbeat_interval b = cfg_heartbeat_interval c;
  bk_slack : backoff_slack b = cfg_backoff_slack c;
  bk_ends x (e : N) i : bo_lookup (backoffs b) x = Some (e, i) → (e + graft_flood_threshold c < instant_end)%N;
}.

(** The tables of the behaviour, where [open] are the connections of the swarm.  The
    vector of connections of a peer has all of them, and may have others. *)
Record tables_ok (open : gmap PeerId (list ConnectionId)) s : Prop := {
  tb_topics p t : p ∈ default ∅ (topic_peers s !! t) ↔ t ∈ default ∅ (peer_topics s !! p);
  tb_known : dom (peer_topics s) = dom open;
  tb_connected : dom (connected_peers s) = dom open;
  tb_open p cs : open !! p = Some cs →
    cs ≠ [] ∧ NoDup cs ∧ ∃ c, connected_peers s !! p = Some c ∧ cs ⊆+ connections c;
}.

Context (cfg : GossipsubConfig).

(** What holds even while the mesh is being changed. *)
Record gs_base (open : gmap PeerId (list ConnectionId)) (n : N) s : Prop := {
  gb_config : config s = cfg;
  gb_tables : tables_ok open s;
  gb_backoff : backoff_ok cfg (backoff_storage s);
  gb_mcache : mcache_ok cfg n (mcache s);
}.

(** The peers of a mesh are subscribed to its topic. *)
Definition mesh_ok s : Prop := ∀ p t, p ∈ default ∅ (mesh s !! t) → t ∈ default ∅ (peer_topics s !! p).

Record gs_inv (open : gmap PeerId (list ConnectionId)) (n : N) s : Prop := {
  gi_base : gs_base open n s;
  gi_mesh : mesh_ok s;
}.

Lemma gi_tables open n s : gs_inv open n s → tables_ok open s.
Proof. intros [[]]. done. Qed.

(** The fields that [tables_ok] speaks of. *)
Definition tables s := (config s, topic_peers s, peer_topics s, connected_peers s, mesh s).

Lemma tables_config s s' : tables s' = tables s → config s' = config s.
Proof. unfold tables. by intros [=]. Qed.

Lemma tables_ok_eq open s s' : tables s' = tables s → tables_ok open s → tables_ok open s'.
Proof.
  unfold tables. intros [= E1 E2 E3 E4 E5] [A B C D]. split; rewrite ?E2, ?E3, ?E4; assumption.
Qed.

(** All that the invariant speaks of. *)
Definition core s := (tables s, backoff_storage s, mcache s).

Lemma core_eq s s' : core s' = core s → tables s' = tables s ∧ backoff_storage s' = backoff_storage s ∧ mcache s' = mcache s.
Proof. intros E. split_and!; [exact (f_equal (λ x, x.1.1) E)|exact (f_equal (λ x, x.1.2) E)|exact (f_equal snd E)]. Qed.

Lemma gs_base_eq open n s s' : core s' = core s → gs_base open n s → gs_base open n s'.
Proof.
  intros (E1 & E2 & E3)%core_eq [A B C D]. pose proof (tables_config _ _ E1) as Ec.
  split; [by rewrite Ec|by eapply tables_ok_eq|by rewrite E2|by rewrite E3].
Qed.

Lemma mesh_ok_eq s s' : tables s' = tables s → mesh_ok s → mesh_ok s'.
Proof. unfold tables, mesh_ok. intros [= _ _ E1 _ E2]. by rewrite E1, E2. Qed.

Lemma gs_inv_eq open n s s' : core s' = core s → gs_inv open n s → gs_inv open n s'.
Proof.
  intros Hc [A B]. split; [by eapply gs_base_eq|]. apply core_eq in Hc as (Hc & _). by eapply mesh_ok_eq.
Qed.

Lemma core_on_score f s : core (on_score f s) = core s.
Proof. unfold on_score. by destruct (peer_score s) as [[[]]|]. Qed.

Lemma core_on_promises f h s : core (on_promises f h s) = core s.
Proof. unfold on_promises. by destruct (peer_score s) as [[[]]|]. Qed.

Lemma core_send_message s p m : core (Gossipsub_send_message s p m).2 = core s.
Proof. unfold Gossipsub_send_message. by destruct (fragment_message _ _). Qed.

Lemma core_send_to_all s l m : core (send_to_all s l m).2 = core s.
Proof.
  revert s. induction l as [|p l IH]; intros s; [done|]. cbn [send_to_all].
  pose proof (core_send_message s p m) as Hs. destruct (Gossipsub_send_message s p m) as [[] s']; [|done].
  rewrite IH. exact Hs.
Qed.

(** A peer with an open connection has a first connection. *)
Lemma tables_first open s p : tables_ok open s → is_Some (open !! p) →
  ∃ c first rest, connected_peers s !! p = Some c ∧ connections c = first :: rest.
Proof.
  intros Ht [cs Hcs]. destruct (tb_open _ _ Ht p cs Hcs) as (Hne & _ & c & Hc & Hsub).
  destruct (connections c) as [|first rest] eqn:E; [|by eauto 10].
  exfalso. apply Hne. by apply submseteq_nil_r in Hsub.
Qed.

Lemma subscribed_open open s p t : tables_ok open s → t ∈ default ∅ (peer_topics s !! p) → is_Some (open !! p).
Proof.
  intros Ht Hin. apply elem_of_dom. rewrite <-(tb_known _ _ Ht). apply elem_of_dom.
  destruct (peer_topics s !! p); [by eexists|set_solver].
Qed.

Lemma peer_added_ok open s p (topics : list TopicHash) M known (ev : list (Action (MessageId := MessageId))) :
  tables_ok open s → is_Some (open !! p) → ∃ ev', peer_added_to_mesh p topics M known ev (connected_peers s) = Ret ev'.
Proof.
  intros Ht Hp. destruct (tables_first open s p Ht Hp) as (c & first & rest & Hc & Hf).
  unfold peer_added_to_mesh. rewrite Hc. cbn [expect mbind outcome_bind]. rewrite Hf. by eexists.
Qed.

Lemma peer_removed_ok open s p t M known (ev : list (Action (MessageId := MessageId))) :
  tables_ok open s → is_Some (open !! p) → ∃ ev', peer_removed_from_mesh p t M known ev (connected_peers s) = Ret ev'.
Proof.
  intros Ht Hp. destruct (tables_first open s p Ht Hp) as (c & first & rest & Hc & Hf).
  unfold peer_removed_from_mesh. rewrite Hc. cbn [expect mbind outcome_bind]. rewrite Hf. by eexists.
Qed.

(** ** Backoffs *)

(** What the code adds to the end of a backoff. *)
Definition backoff_margin (c : GossipsubConfig) : N :=
  N.max (cfg_heartbeat_interval c * cfg_backoff_slack c) (graft_flood_threshold c).

Lemma update_backoff_ok c b t p time now :
  backoff_ok c b → backoff_fits c time → (now + time + backoff_margin c < instant_end)%N →
  ∃ b', BackoffStorage_update_backoff b t p time now = Ret b' ∧ backoff_ok c b'.
Proof.
  intros Hb Hf He. unfold backoff_margin in He. pose proof Hb as [Hi A B C E].
  assert (time_fits b time) as Hf' by (unfold time_fits, bo_offset; by rewrite A, B, C, N2Nat.id).
  destruct (update_backoff_spec elements b t p time now Hi Hf') as (b' & Hr & Hi' & (Hl & Hiv & Hsl) & _ & Hlk).
  { unfold bo_slack. rewrite B, C. lia. }
  exists b'. split; [done|]. split; [done|by rewrite Hl|by rewrite Hiv|by rewrite Hsl|].
  intros q x i. rewrite Hlk. case_decide; [intros [= <- <-]; lia|apply E].
Qed.

(** The sums of the current instant and the durations of the configuration can be
    represented.  For a graft during a backoff, the code also goes back by the
    length of a backoff. *)
Record clock_ok (c : GossipsubConfig) (now : N) : Prop := {
  ck_prune : (now + prune_backoff c + backoff_margin c < instant_end)%N;
  ck_unsubscribe : (now + unsubscribe_backoff c + backoff_margin c < instant_end)%N;
  ck_flood : (prune_backoff c ≤ now + graft_flood_threshold c)%N;
  ck_fanout : (now + fanout_ttl c < instant_end)%N;
  ck_duplicates : (now + duplicate_cache_time c < instant_end)%N;
  ck_published : (now + published_message_ids_cache_time c < instant_end)%N;
  ck_followup : (now + iwant_followup_time c < instant_end)%N;
}.

(** A step that leaves the tables and the message cache, and keeps the backoffs
    consistent. *)
Record quiet s s' : Prop := {
  q_tables : tables s' = tables s;
  q_mcache : mcache s' = mcache s;
  q_backoff : backoff_ok cfg (backoff_storage s) → backoff_ok cfg (backoff_storage s');
}.

Lemma quiet_core s s' : core s' = core s → quiet s s'.
Proof. intros (E1 & E2 & E3)%core_eq. split; [done|done|by rewrite E2]. Qed.

Lemma quiet_trans s1 s2 s3 : quiet s1 s2 → quiet s2 s3 → quiet s1 s3.
Proof.
  intros [A B C] [A' B' C']. split; [by rewrite A'|by rewrite B'|auto].
Qed.

Lemma quiet_base open n s s' : quiet s s' → gs_base open n s → gs_base open n s'.
Proof.
  intros [A B C] [D E F' I]. split; [by rewrite (tables_config _ _ A)|by eapply tables_ok_eq|by apply C|by rewrite B].
Qed.

Lemma quiet_inv open n s s' : quiet s s' → gs_inv open n s → gs_inv open n s'.
Proof. intros Hq [A B]. split; [by eapply quiet_base|]. eapply mesh_ok_eq, B. apply Hq. Qed.

(** ** Prunes *)

Section operations.
Context (to_bytes : PeerId → list byte) (o : Orders) (now : N).
Hypotheses (Hcfg : config_ok cfg) (Hclock : clock_ok cfg now) (Ho : orders_ok o).

Lemma make_prune_v1_1_ok open n s t p px unsub :
  gs_base open n s → ∃ c s', make_prune_v1_1 o now s t p px unsub = Ret (c, s') ∧ quiet s s'.
Proof.
  intros Hi. unfold make_prune_v1_1. destruct (if px then _ else _) as [peers g]. cbn [config set_rng backoff_storage].
  rewrite (gb_config _ _ _ Hi). destruct (update_backoff_ok cfg (backoff_storage s) t p
    (if unsub then unsubscribe_backoff cfg else prune_backoff cfg) now (gb_backoff _ _ _ Hi)) as (b' & Hr & Hb').
  { destruct unsub; [apply (cfg_unsubscribe_fits _ Hcfg)|apply (cfg_prune_fits _ Hcfg)]. }
  { destruct unsub; apply Hclock. }
  rewrite Hr. cbn [mbind outcome_bind]. eexists _, _. split; [done|]. by split.
Qed.

Lemma make_prune_ok open n s t p px unsub :
  gs_base open n s → ∃ c s', Gossipsub_make_prune o now s t p px unsub = Ret (c, s') ∧ quiet s s'.
Proof.
  intros Hi. unfold Gossipsub_make_prune. set (s1 := on_score _ s).
  assert (quiet s s1) as Hq by (apply quiet_core, core_on_score). clearbody s1.
  assert (∃ c s', make_prune_v1_1 o now s1 t p px unsub = Ret (c, s') ∧ quiet s s') as Hv.
  { destruct (make_prune_v1_1_ok open n s1 t p px unsub) as (c & s' & Hr & Hq'); [by eapply quiet_base|].
    exists c, s'. split; [done|by eapply quiet_trans]. }
  destruct (kind <$> connected_peers s1 !! p) as [[]|]; [done| |done|done|done]. by eexists _, _.
Qed.

Lemma make_prunes_ok open n s ts p px unsub :
  gs_base open n s → ∃ cs s', make_prunes o now s ts p px unsub = Ret (cs, s') ∧ quiet s s'.
Proof.
  revert s. induction ts as [|t ts IH]; intros s Hi; cbn [make_prunes].
  { eexists _, _. split; [done|by apply quiet_core]. }
  destruct (make_prune_ok open n s t p px unsub Hi) as (c & s1 & -> & Hq1). cbn [mbind outcome_bind].
  destruct (IH s1) as (cs & s2 & -> & Hq2); [by eapply quiet_base|]. cbn [mbind outcome_bind].
  eexists _, _. split; [done|by eapply quiet_trans].
Qed.

(** ** Joining and leaving *)

Lemma inv_set_mesh open n s M :
  gs_inv open n s → (∀ p t, p ∈ default ∅ (M !! t) → t ∈ default ∅ (peer_topics s !! p)) → gs_inv open n (set_mesh M s).
Proof. intros [[A [B1 B2 B3 B4] C D] E] HM. split; [split; [done|by split|done|done]|done]. Qed.

(** The mesh of one topic is changed. *)
Lemma mesh_insert_ok s t X :
  mesh_ok s → (∀ p, p ∈ X → t ∈ default ∅ (peer_topics s !! p)) →
  ∀ p t', p ∈ default ∅ (<[t := X]> (mesh s) !! t') → t' ∈ default ∅ (peer_topics s !! p).
Proof.
  intros Ht HX p t'. destruct (decide (t' = t)) as [->|Hne].
  - rewrite lookup_insert_eq. apply HX.
  - rewrite lookup_insert_ne by done. apply Ht.
Qed.

(** Turns that are quiet. *)
Lemma for_each_quiet {A} (f : Gossipsub → A → outcome Gossipsub) (l : list A) open n s :
  gs_inv open n s → (∀ s x, x ∈ l → gs_inv open n s → ∃ s', f s x = Ret s' ∧ quiet s s') →
  ∃ s', for_each f s l = Ret s' ∧ quiet s s'.
Proof.
  intros Hi Hf. apply (for_each_inv f (quiet s)); [by apply quiet_core|].
  intros s1 x Hx Hq. destruct (Hf s1 x Hx) as (s2 & Hr & Hq2); [by eapply quiet_inv|].
  exists s2. split; [done|by eapply quiet_trans].
Qed.

Lemma join_peer_ok open n t s p :
  gs_inv open n s → is_Some (open !! p) → ∃ s', join_peer t s p = Ret s' ∧ quiet s s'.
Proof.
  intros Hi Hp. unfold join_peer. set (s1 := set_control_pool _ _).
  assert (core s1 = core s) as Hc by (unfold s1; exact (core_on_score _ _)). clearbody s1.
  destruct (peer_added_ok open s1 p [t] (mesh s1) (peer_topics s1 !! p) (events s1)) as [ev ->]; [|done|].
  { eapply tables_ok_eq, (gi_tables _ _ _ Hi). by apply core_eq in Hc as (? & _). }
  eexists. split; [done|]. apply quiet_core. exact Hc.
Qed.

(** The peers of the fanout of a topic are still subscribed to it. *)
Definition fanout_fresh s t : Prop := ∀ p, p ∈ default ∅ (fanout s !! t) → t ∈ default ∅ (peer_topics s !! p).

Lemma random_subscribed `{!RngSpec G} open s t n f :
  tables_ok open s →
  ∃ R g, get_random_peers o (topic_peers s) (connected_peers s) t n f (rng s) = (R, g) ∧
    ∀ p, p ∈ R → t ∈ default ∅ (peer_topics s !! p).
Proof.
  intros Ht. destruct (get_random_peers_dynamic_spec o (topic_peers s) (connected_peers s) t (λ _, n) f (rng s) Ho)
    as (R & g & HR & Hsub & _). exists R, g. split; [done|]. intros p Hp%Hsub. apply elem_of_candidates in Hp as [Hp _].
  by apply (tb_topics _ _ Ht).
Qed.

(** The first part of [join]: the peers of the fanout. *)
Definition join_fanout s t : gset PeerId * Gossipsub :=
  match fanout s !! t with
  | Some peers =>
      let s := set_fanout (delete t (fanout s)) s in
      let peers : gset PeerId := filter (may_join s t) peers in
      let add_peers := Nat.min (size peers) (mesh_n (config s)) in
      let added : gset PeerId := list_to_set (take add_peers (btree_peers o peers)) in
      let s := set_mesh (<[t := added]> (mesh s)) s in
      (added, set_fanout_last_pub (delete t (fanout_last_pub s)) s)
  | None => (∅, s)
  end.

Lemma join_fanout_ok open n s t :
  gs_inv open n s → fanout_fresh s t →
  let '(added, s') := join_fanout s t in
  gs_inv open n s' ∧ peer_topics s' = peer_topics s ∧ (∀ p, p ∈ added → t ∈ default ∅ (peer_topics s !! p)).
Proof.
  intros Hi Hf. unfold join_fanout, fanout_fresh in *. destruct (fanout s !! t) as [peers|].
  2:{ split_and!; [done|done|set_solver]. }
  set (s1 := set_fanout _ s). set (added := list_to_set _).
  assert (∀ p, p ∈ added → t ∈ default ∅ (peer_topics s !! p)) as Ha.
  { intros p. unfold added. rewrite elem_of_list_to_set. intros (i & Hin%list_elem_of_lookup_2 & _)%elem_of_take.
    rewrite (btree_peers_perm o Ho), elem_of_elements, elem_of_filter in Hin. apply Hf, Hin. }
  split_and!; [|done|done]. apply (gs_inv_eq _ _ (set_mesh (<[t := added]> (mesh s1)) s1)); [done|].
  apply inv_set_mesh; [by eapply gs_inv_eq, Hi|]. apply (mesh_insert_ok s t added); [apply Hi|done].
Qed.

Lemma join_ok `{!RngSpec G} open n s t :
  gs_inv open n s → fanout_fresh s t → ∃ s', Gossipsub_join o s t = Ret s' ∧ gs_inv open n s'.
Proof.
  intros Hi Hf. unfold Gossipsub_join. case_decide; [by exists s|]. fold (join_fanout s t).
  pose proof (join_fanout_ok open n s t Hi Hf) as Hj. destruct (join_fanout s t) as [added s1]. destruct Hj as (Hi1 & Hpt & Ha).
  assert (∀ added s2, gs_inv open n s2 → (∀ p, p ∈ added → is_Some (open !! p)) →
    ∃ s', for_each (join_peer t) s2 (hash_peers o added) = Ret s' ∧ gs_inv open n s') as Hloop.
  { intros X s2 Hi2 HX. destruct (for_each_quiet (join_peer t) (hash_peers o X) open n s2 Hi2) as (s' & Hr & Hq).
    - intros s3 p Hp Hi3. apply (join_peer_ok open n); [done|]. apply HX. by rewrite (hash_peers_perm o Ho), elem_of_elements in Hp.
    - exists s'. split; [done|by eapply quiet_inv]. }
  assert (∀ p, t ∈ default ∅ (peer_topics s !! p) → is_Some (open !! p)) as Hopen.
  { intros p Hp. eapply subscribed_open, Hp. by eapply gi_tables. }
  case_decide; [|apply Hloop; auto].
  destruct (random_subscribed open s1 t (mesh_n (config s1) - size added)
    (λ p, negb (bool_decide (p ∈ added)) && may_join s1 t p) (gi_tables _ _ _ Hi1)) as (R & g & -> & HR).
  rewrite Hpt in HR. apply Hloop.
  - apply inv_set_mesh; [by eapply gs_inv_eq, Hi1|]. apply (mesh_insert_ok s1); [apply Hi1|]. rewrite Hpt.
    intros p [Hp|Hp]%elem_of_union; [|by apply HR]. rewrite <-Hpt. by apply (gi_mesh _ _ _ Hi1).
  - intros p [Hp|Hp]%elem_of_union; auto.
Qed.

Lemma leave_peer_ok open n t s p :
  gs_inv open n s → is_Some (open !! p) → ∃ s', leave_peer o now t s p = Ret s' ∧ quiet s s'.
Proof.
  intros Hi Hp. unfold leave_peer.
  destruct (make_prune_ok open n s t p (do_px (config s)) true (gi_base _ _ _ Hi)) as (c & s1 & -> & Hq). cbn [mbind outcome_bind].
  set (s2 := set_control_pool _ s1). assert (quiet s s2) as Hq2 by (eapply quiet_trans; [exact Hq|by apply quiet_core]). clearbody s2.
  destruct (peer_removed_ok open s2 p t (mesh s2) (peer_topics s2 !! p) (events s2)) as [ev ->]; [|done|].
  { by eapply gi_tables, (quiet_inv _ _ _ _ Hq2 Hi). }
  eexists. split; [done|]. eapply quiet_trans; [exact Hq2|by apply quiet_core].
Qed.

Lemma leave_ok open n s t : gs_inv open n s → ∃ s', Gossipsub_leave o now s t = Ret s' ∧ gs_inv open n s'.
Proof.
  intros Hi. unfold Gossipsub_leave. destruct (mesh s !! t) as [peers|] eqn:E; [|by exists s].
  set (s1 := set_mesh _ s). assert (gs_inv open n s1) as Hi1.
  { apply inv_set_mesh; [done|]. intros p t'. destruct (decide (t' = t)) as [->|]; [rewrite lookup_delete_eq; set_solver|].
    rewrite lookup_delete_ne by done. apply (gi_mesh _ _ _ Hi). }
  destruct (for_each_quiet (leave_peer o now t) (btree_peers o peers) open n s1 Hi1) as (s' & Hr & Hq).
  - intros s2 p Hp Hi2. apply (leave_peer_ok open n); [done|].
    eapply (subscribed_open open s p t); [by eapply gi_tables|]. apply (gi_mesh _ _ _ Hi). rewrite E. simpl.
    by rewrite (btree_peers_perm o Ho), elem_of_elements in Hp.
  - exists s'. split; [done|by eapply quiet_inv].
Qed.

Lemma send_to_all_fanout s l m : fanout (send_to_all s l m).2 = fanout s ∧ peer_topics (send_to_all s l m).2 = peer_topics s.
Proof.
  revert s. induction l as [|p l IH]; intros s; [done|]. cbn [send_to_all]. unfold Gossipsub_send_message.
  destruct (fragment_message _ _); [|done]. destruct (IH (set_events (events s ++ ((λ m, Notify p Any (HandlerIn_Message m)) <$> l0)) s)) as [-> ->].
  done.
Qed.

Lemma subscribe_ok `{!RngSpec G} open n s t :
  gs_inv open n s → fanout_fresh s t → ∃ r s', Gossipsub_subscribe to_bytes o s t = Ret (r, s') ∧ gs_inv open n s'.
Proof.
  intros Hi Hf. unfold Gossipsub_subscribe. destruct (can_subscribe (subscription_filter s) t) as [can f].
  set (s1 := set_subscription_filter f s). assert (gs_inv open n s1) as Hi1 by (by eapply gs_inv_eq, Hi).
  destruct can; cbn [negb]; [|by eexists _, _]. case_decide; [by eexists _, _|].
  set (m := subscription_rpc _ _). set (l := hash_peers o _).
  pose proof (core_send_to_all s1 l m) as Hc. pose proof (send_to_all_fanout s1 l m) as [Hfa Hpt].
  destruct (send_to_all s1 l m) as [[]  s2]; cbn [snd] in *; [|eexists _, _; split; [done|by eapply gs_inv_eq, Hi1]].
  destruct (join_ok open n s2 t) as (s3 & -> & Hi3); [by eapply gs_inv_eq, Hi1| |by eexists _, _].
  intros p. rewrite Hfa, Hpt. apply Hf.
Qed.

Lemma unsubscribe_ok open n s t :
  gs_inv open n s → ∃ r s', Gossipsub_unsubscribe to_bytes o now s t = Ret (r, s') ∧ gs_inv open n s'.
Proof.
  intros Hi. unfold Gossipsub_unsubscribe. case_decide; [by eexists _, _|].
  set (m := subscription_rpc _ _). set (l := hash_peers o _). pose proof (core_send_to_all s l m) as Hc.
  destruct (send_to_all s l m) as [[] s2]; cbn [snd] in *; [|eexists _, _; split; [done|by eapply gs_inv_eq, Hi]].
  destruct (leave_ok open n s2 t) as (s3 & -> & Hi3); [by eapply gs_inv_eq, Hi|by eexists _, _].
Qed.

(** ** Grafts *)

Lemma elem_of_default_insert {K} `{Countable K} {A} `{Countable A} (m : gmap K (gset A)) k X k' (a : A) :
  a ∈ default ∅ (<[k := X]> m !! k') ↔ k' = k ∧ a ∈ X ∨ k' ≠ k ∧ a ∈ default ∅ (m !! k').
Proof.
  destruct (decide (k' = k)) as [->|Hne]; [rewrite lookup_insert_eq|rewrite lookup_insert_ne by done]; simpl; tauto.
Qed.

(** Both tables are told that a peer is, or is not, subscribed to a topic. *)
Lemma tables_topic open s s' p t X Y :
  tables_ok open s → is_Some (open !! p) →
  tables s' = (config s, <[t := X]> (topic_peers s), <[p := Y]> (peer_topics s), connected_peers s, mesh s) →
  (∀ q, q ∈ X ↔ if decide (q = p) then t ∈ Y else q ∈ default ∅ (topic_peers s !! t)) →
  (∀ t', t' ∈ Y ↔ if decide (t' = t) then t ∈ Y else t' ∈ default ∅ (peer_topics s !! p)) →
  tables_ok open s'.
Proof.
  intros [A B C D] Hp Heq HX HY. unfold tables in Heq. injection Heq as E1 E2 E3 E4 E5.
  split.
  - intros q t'. rewrite E2, E3, !elem_of_default_insert, HX, (HY t').
    repeat case_decide; subst; rewrite ?A; tauto.
  - rewrite E3, dom_insert_L, B. apply elem_of_dom in Hp. set_solver.
  - by rewrite E4.
  - intros q cs. rewrite E4. apply D.
Qed.

Lemma record_subscription_ok open n p s t :
  is_Some (open !! p) → gs_inv open n s → gs_inv open n (record_subscription p s t).
Proof.
  intros Hp [[A B C D] E]. split; [split; [done| |done|done]|].
  - eapply (tables_topic open s _ p t); [exact B|done|reflexivity| |].
    + intros q. rewrite elem_of_union, elem_of_singleton. case_decide; set_solver.
    + intros t'. case_decide; set_solver.
  - intros q t' Hq%E. cbn. apply elem_of_default_insert. destruct (decide (q = p)) as [->|]; [left|by right]. set_solver.
Qed.

Lemma peer_topics_on_score f s : peer_topics (on_score f s) = peer_topics s.
Proof. unfold on_score. by destruct (peer_score s) as [[[]]|]. Qed.

Lemma penalize_graft_ok open n p t s (x := BackoffStorage_get_backoff_time (backoff_storage s) t p) :
  gs_inv open n s → (now < default now x)%N →
  ∃ s', penalize_graft now p (default now x) s = Ret s' ∧ gs_inv open n s' ∧ peer_topics s' = peer_topics s.
Proof.
  intros Hi Hx. unfold penalize_graft. destruct (peer_score s) as [ps|]; [|by exists s].
  set (s1 := on_score _ s). assert (gs_inv open n s1) as Hi1 by by eapply gs_inv_eq, Hi; apply core_on_score.
  assert (peer_topics s1 = peer_topics s) as Hp1 by apply peer_topics_on_score.
  rewrite (gb_config _ _ _ (gi_base _ _ _ Hi1)). clearbody s1.
  assert (default now x + graft_flood_threshold cfg < instant_end)%N as He.
  { subst x. revert Hx. unfold BackoffStorage_get_backoff_time. rewrite get_backoff_time_lookup.
    destruct (bo_lookup _ _) as [[y i]|] eqn:E; cbn; [intros _|lia]. by apply (bk_ends _ _ (gb_backoff _ _ _ (gi_base _ _ _ Hi)) _ _ _ E). }
  rewrite instant_add_lt by done. cbn [mbind outcome_bind].
  rewrite instant_sub_le by (pose proof (ck_flood _ _ Hclock); lia). cbn [mbind outcome_bind].
  eexists. split; [done|]. case_decide; [|done]. split; [by eapply gs_inv_eq, Hi1; apply core_on_score|by rewrite peer_topics_on_score].
Qed.

(** Topics and the state while the topics of a graft are looked at. *)
Lemma graft_topic_ok open n p below s px tp t :
  is_Some (open !! p) → gs_inv open n s → t ∈ default ∅ (peer_topics s !! p) →
  ∃ s' px' tp', graft_topic now p below (s, px, tp) t = Ret (s', px', tp') ∧ gs_inv open n s' ∧ peer_topics s' = peer_topics s.
Proof.
  intros Hp Hi Ht. unfold graft_topic. destruct (mesh s !! t) as [peers|] eqn:E; [|by eexists _, _, _].
  case_decide; [by eexists _, _, _|]. case_decide.
  { destruct (penalize_graft_ok open n p t s) as (s' & Hr & Hi' & Hpt); [done|done|]. rewrite Hr. by exists s', false, ({[t]} ∪ tp). }
  destruct below; [by eexists _, _, _|]. case_decide; [by eexists _, _, _|].
  set (s1 := set_mesh _ s). assert (gs_inv open n s1) as Hi1.
  { apply inv_set_mesh; [done|]. apply mesh_insert_ok; [apply Hi|]. intros q [->%elem_of_singleton|Hq]%elem_of_union; [done|].
    apply (gi_mesh _ _ _ Hi). by rewrite E. }
  destruct (peer_added_ok open s1 p [t] (mesh s1) (peer_topics s1 !! p) (events s1)) as [ev ->]; [by eapply gi_tables|done|]. cbn [mbind outcome_bind].
  eexists _, _, _. split; [done|]. split.
  - eapply gs_inv_eq, Hi1. rewrite core_on_score. done.
  - unfold on_score. by destruct (peer_score (set_events ev s1)) as [[[]]|].
Qed.

Lemma handle_graft_ok open n s p ts :
  is_Some (open !! p) → gs_inv open n s → ∃ s', Gossipsub_handle_graft to_bytes o now s p ts = Ret s' ∧ gs_inv open n s'.
Proof.
  intros Hp Hi. unfold Gossipsub_handle_graft. set (s1 := foldl (record_subscription p) s ts).
  assert (gs_inv open n s1) as Hi1.
  { apply (foldl_inv (record_subscription p) (gs_inv open n)); [done|]. intros s2 t _. by apply record_subscription_ok. }
  assert (∀ t, t ∈ ts → t ∈ default ∅ (peer_topics s1 !! p)) as Hts.
  { unfold s1. clear. revert s. induction ts as [|x ts IH]; intros s t; [by intros ?%elem_of_nil|]. cbn [foldl].
    intros [->|Ht]%elem_of_cons; [|by apply IH]. apply (foldl_inv (record_subscription p) (λ s, x ∈ default ∅ (peer_topics s !! p))).
    - unfold record_subscription. cbn [peer_topics set_topic_peers set_peer_topics]. rewrite lookup_insert_eq. set_solver.
    - intros s2 y _ Hx. unfold record_subscription. cbn [peer_topics set_topic_peers set_peer_topics]. rewrite lookup_insert_eq. set_solver. }
  clearbody s1.
  assert (∃ s2 px tp, (if decide (p ∈ explicit_peers s1) then Ret (s1, false, list_to_set ts)
     else for_each (graft_topic now p (Gossipsub_score_below_threshold s1 p (λ _, f64_zero)).1) (s1, do_px (config s1), ∅) ts) =
     Ret (s2, px, tp) ∧ gs_inv open n s2) as (s2 & px & tp & Hr & Hi2).
  { case_decide; [by eexists _, _, _|].
    destruct (for_each_inv (graft_topic now p (Gossipsub_score_below_threshold s1 p (λ _, f64_zero)).1)
      (λ st, gs_inv open n st.1.1 ∧ peer_topics st.1.1 = peer_topics s1) ts (s1, do_px (config s1), ∅)) as ([[s2 px] tp] & Hr & Hi2 & _).
    - done.
    - intros [[s2 px] tp] t Ht [Hi2 Hpt]. destruct (graft_topic_ok open n p (Gossipsub_score_below_threshold s1 p (λ _, f64_zero)).1 s2 px tp t)
        as (s3 & px3 & tp3 & Hr & Hi3 & Hpt3); [done|done|cbn in *; rewrite Hpt; auto|].
      exists (s3, px3, tp3). cbn in *. split_and!; [done|done|by rewrite Hpt3].
    - by exists s2, px, tp. }
  cbn zeta. rewrite Hr. cbn [mbind outcome_bind]. clear Hr. case_decide; [by exists s2|].
  destruct (make_prunes_ok open n s2 (hash_topics o tp) p px false (gi_base _ _ _ Hi2)) as (cs & s3 & -> & Hq). cbn [mbind outcome_bind].
  eexists. split; [done|]. eapply gs_inv_eq, (quiet_inv _ _ _ _ Hq Hi2). apply core_send_message.
Qed.

(** ** Prunes of remotes *)

(** The end of the backoff a remote asks for can be represented, with what the code adds to it. *)
Definition remote_backoff_ok (backoff : option N) : Prop :=
  ∀ secs, backoff = Some secs → backoff_fits cfg (secs * 10 ^ 9) ∧ (now + secs * 10 ^ 9 + backoff_margin cfg < instant_end)%N.

Lemma base_set_mesh open n s M : gs_base open n s → gs_base open n (set_mesh M s).
Proof. intros [A [B1 B2 B3 B4] C D]. split; [done|by split|done|done]. Qed.

Lemma mesh_remove_ok open n s p t always :
  gs_base open n s → is_Some (open !! p) →
  ∃ s' upd, mesh_remove s p t always = Ret (s', upd) ∧ gs_base open n s' ∧ peer_topics s' = peer_topics s ∧
    ∀ q t', q ∈ default ∅ (mesh s' !! t') ↔ q ∈ default ∅ (mesh s !! t') ∧ ¬ (q = p ∧ t' = t).
Proof.
  intros Hi Hp. unfold mesh_remove. destruct (mesh s !! t) as [peers|] eqn:E; [case_decide as Hd|].
  - cbn zeta. set (s1 := on_score (λ ps, PeerScore_prune ps p t) (set_mesh (<[t := peers ∖ {[p]}]> (mesh s)) s)).
    assert (core s1 = core (set_mesh (<[t := peers ∖ {[p]}]> (mesh s)) s)) as Hc by apply core_on_score.
    clearbody s1. pose proof (core_eq _ _ Hc) as (Ht & _). injection Ht as _ _ Hpt _ Hm.
    assert (gs_base open n s1) as Hi1 by (by eapply gs_base_eq, base_set_mesh).
    destruct (peer_removed_ok open s1 p t (mesh s1) (peer_topics s1 !! p) (events s1)) as [ev ->]; [apply Hi1|done|].
    eexists _, _. split; [done|]. split_and!; [by eapply gs_base_eq, Hi1|done|]. intros q t'. cbn. rewrite Hm, elem_of_default_insert.
    destruct (decide (t' = t)) as [->|]; [rewrite E|]; simpl; set_solver.
  - eexists _, _. split_and!; [done|done|done|]. intros q t'. split; [|tauto]. intros Hq. split; [done|]. intros [-> ->]. by rewrite E in Hq.
  - eexists _, _. split_and!; [done|done|done|]. intros q t'. split; [|tauto]. intros Hq. split; [done|]. intros [-> ->]. rewrite E in Hq. set_solver.
Qed.

Lemma remove_peer_from_mesh_ok open n s p t backoff always :
  gs_base open n s → is_Some (open !! p) → remote_backoff_ok backoff →
  ∃ s', Gossipsub_remove_peer_from_mesh now s p t backoff always = Ret s' ∧ gs_base open n s' ∧ peer_topics s' = peer_topics s ∧
    ∀ q t', q ∈ default ∅ (mesh s' !! t') ↔ q ∈ default ∅ (mesh s !! t') ∧ ¬ (q = p ∧ t' = t).
Proof.
  intros Hi Hp Hbo. unfold Gossipsub_remove_peer_from_mesh.
  destruct (mesh_remove_ok open n s p t always Hi Hp) as (s1 & upd & Hr & Hi1 & Hpt & Hm).
  rewrite Hr. cbn [mbind outcome_bind]. destruct upd; [|by exists s1].
  destruct (update_backoff_ok cfg (backoff_storage s1) t p
    (match backoff with Some secs => (secs * 10 ^ 9)%N | None => prune_backoff (config s1) end) now (gb_backoff _ _ _ Hi1)) as (b & Hb & Hbk).
  { destruct backoff as [secs|]; [by apply Hbo|]. rewrite (gb_config _ _ _ Hi1). apply (cfg_prune_fits _ Hcfg). }
  { destruct backoff as [secs|]; [by apply Hbo|]. rewrite (gb_config _ _ _ Hi1). apply Hclock. }
  rewrite Hb. cbn [mbind outcome_bind]. eexists. split; [done|]. split_and!; [|done|done].
  destruct Hi1 as [A [B1 B2 B3 B4] C D]. split; [done|by split|done|done].
Qed.

Lemma core_px_connect s px : core (Gossipsub_px_connect s px) = core s.
Proof.
  unfold Gossipsub_px_connect. destruct (if decide _ then _ else _) as [px' g]. rewrite (foldl_keeps px_connect_peer core); [done|].
  intros s1 info. unfold px_connect_peer. by destruct (info_peer_id info).
Qed.

Lemma prune_topic_ok open n p below s t px backoff :
  is_Some (open !! p) → gs_inv open n s → remote_backoff_ok backoff →
  ∃ s', prune_topic now p below s (t, px, backoff) = Ret s' ∧ gs_inv open n s'.
Proof.
  intros Hp [Hb Hm] Hbo. unfold prune_topic.
  destruct (remove_peer_from_mesh_ok open n s p t backoff true Hb Hp Hbo) as (s1 & -> & Hb1 & Hpt & Hm1). cbn [mbind outcome_bind].
  assert (gs_inv open n s1) as Hi1.
  { split; [done|]. intros q t' [Hq _]%Hm1. rewrite Hpt. by apply Hm. }
  eexists. split; [done|]. destruct (_ && _); [|done]. eapply gs_inv_eq, Hi1. apply core_px_connect.
Qed.

Lemma handle_prune_ok open n s p (prunes : list (TopicHash * list (PeerInfo PeerId) * option N)) :
  is_Some (open !! p) → gs_inv open n s → Forall (λ x, remote_backoff_ok x.2) prunes →
  ∃ s', Gossipsub_handle_prune now s p prunes = Ret s' ∧ gs_inv open n s'.
Proof.
  intros Hp Hi Hf. unfold Gossipsub_handle_prune. apply for_each_inv; [done|].
  intros s1 [[t px] backoff] Hx Hi1. apply prune_topic_ok; [done|done|]. by eapply (proj1 (Forall_forall _ _) Hf) in Hx.
Qed.

(** ** Subscriptions *)

(** While the subscriptions of a peer are looked at, it may be in the meshes of topics
    that it has left. *)
Definition mesh_ok_except p (left : list TopicHash) s : Prop :=
  ∀ q t, q ∈ default ∅ (mesh s !! t) → t ∈ default ∅ (peer_topics s !! q) ∨ q = p ∧ t ∈ left.

Lemma subscribe_mesh_ok open n p t s left :
  gs_base open n s → mesh_ok_except p left s → t ∈ default ∅ (peer_topics s !! p) →
  gs_base open n (subscribe_mesh p t s).1 ∧ mesh_ok_except p left (subscribe_mesh p t s).1.
Proof.
  intros Hb Hm Ht. unfold subscribe_mesh. destruct (_ && _); [|done]. destruct (mesh s !! t) as [peers|] eqn:E; [|done].
  case_decide; [|done]. cbn [fst]. set (s1 := set_mesh _ s).
  pose proof (core_on_score (λ ps, PeerScore_graft ps p t) s1) as Hc.
  split; [eapply gs_base_eq; [exact Hc|]; by apply base_set_mesh|].
  apply core_eq in Hc as (Hc & _). injection Hc as _ _ Hpt _ Hmesh. intros q t'. rewrite Hpt, Hmesh. cbn. rewrite elem_of_default_insert.
  intros [[-> Hq]|[_ Hq]]; [|by apply Hm]. apply elem_of_union in Hq as [->%elem_of_singleton|Hq]; [by left|]. apply Hm. by rewrite E.
Qed.

Lemma subscription_turn_ok open n p l sub :
  is_Some (open !! p) → gs_base open n (sl_state l) ∧ mesh_ok_except p (sl_unsubscribed l) (sl_state l) →
  let l' := subscription_turn p l sub in
  gs_base open n (sl_state l') ∧ mesh_ok_except p (sl_unsubscribed l') (sl_state l').
Proof.
  intros Hp [Hb Hm]. cbn zeta. unfold subscription_turn. set (s := sl_state l) in *. set (t := sub_topic_hash sub).
  destruct (action sub).
  - set (s1 := set_peer_topics _ _). assert (gs_base open n s1) as Hb1.
    { destruct Hb as [A B C D]. split; [done| |done|done]. eapply (tables_topic open s _ p t); [exact B|done|reflexivity| |].
      + intros q. rewrite elem_of_union, elem_of_singleton. case_decide; set_solver.
      + intros t'. case_decide; set_solver. }
    assert (mesh_ok_except p (sl_unsubscribed l) s1) as Hm1.
    { intros q t' Hq. destruct (Hm q t' Hq) as [Hq'|Hq']; [left|by right]. cbn. apply elem_of_default_insert.
      destruct (decide (q = p)) as [->|]; [left|by right]. set_solver. }
    destruct (subscribe_mesh_ok open n p t s1 (sl_unsubscribed l) Hb1 Hm1) as [Hb2 Hm2].
    { cbn. rewrite lookup_insert_eq. set_solver. }
    destruct (subscribe_mesh p t s1) as [s2 b]. done.
  - set (s1 := set_peer_topics _ _). split.
    { cbn. destruct Hb as [A B C D]. split; [done| |done|done]. eapply (tables_topic open s _ p t); [exact B|done|reflexivity| |].
      + intros q. case_decide; set_solver.
      + intros t'. case_decide; set_solver. }
    cbn. intros q t' Hq. destruct (Hm q t' Hq) as [Hq'|[-> Hq']]; [|right; set_solver].
    destruct (decide (q = p ∧ t' = t)) as [[-> ->]|Hne]; [right; set_solver|left]. apply elem_of_default_insert.
    destruct (decide (q = p)) as [->|]; [left|by right]. set_solver.
Qed.

Lemma remove_unsubscribed_ok open n p s left :
  is_Some (open !! p) → gs_base open n s → mesh_ok_except p left s →
  ∃ s', for_each (λ s t, Gossipsub_remove_peer_from_mesh now s p t None false) s left = Ret s' ∧ gs_inv open n s'.
Proof.
  intros Hp. revert s. induction left as [|t left IH]; intros s Hb Hm; cbn [for_each].
  { exists s. split; [done|]. split; [done|]. intros q t Hq. by destruct (Hm q t Hq) as [?|[_ []%elem_of_nil]]. }
  destruct (remove_peer_from_mesh_ok open n s p t None false Hb Hp) as (s1 & -> & Hb1 & Hpt & Hm1); [by intros ? [=]|].
  cbn [mbind outcome_bind]. apply IH; [done|]. intros q t' [Hq Hne]%Hm1. rewrite Hpt.
  destruct (Hm q t' Hq) as [?|[-> Hin]]; [by left|right]. split; [done|]. apply elem_of_cons in Hin as [->|]; [tauto|done].
Qed.

Lemma handle_received_subscriptions_ok open n s subs p :
  is_Some (open !! p) → gs_inv open n s →
  ∃ s', Gossipsub_handle_received_subscriptions to_bytes o now s subs p = Ret s' ∧ gs_inv open n s'.
Proof.
  intros Hp Hi. unfold Gossipsub_handle_received_subscriptions. destruct (peer_topics s !! p); [|by exists s].
  destruct (filter_incoming_subscriptions _ _ _ _) as [r f]. set (s1 := set_subscription_filter f s).
  assert (gs_inv open n s1) as Hi1 by (by eapply gs_inv_eq, Hi). clearbody s1. destruct r as [filtered|e]; [|by exists s1].
  set (l := foldl _ _ _). assert (gs_base open n (sl_state l) ∧ mesh_ok_except p (sl_unsubscribed l) (sl_state l)) as [Hb Hm].
  { refine (foldl_inv (subscription_turn p) (λ l, gs_base open n (sl_state l) ∧ mesh_ok_except p (sl_unsubscribed l) (sl_state l))
      (hash_subs o filtered) (mkSubsLoop s1 [] [] []) _ _).
    - split; [exact (gi_base _ _ _ Hi1)|]. intros q t Hq. left. exact (gi_mesh _ _ _ Hi1 q t Hq).
    - intros l' sub _. by apply subscription_turn_ok. }
  clearbody l. unfold subscriptions_done. destruct (remove_unsubscribed_ok open n p (sl_state l) (sl_unsubscribed l) Hp Hb Hm) as (s2 & -> & Hi2).
  cbn [mbind outcome_bind]. case_decide.
  { eexists. split; [done|]. by eapply gs_inv_eq, Hi2. }
  destruct (peer_added_ok open s2 p (sl_graft l) (mesh s2) (peer_topics s2 !! p) (events s2)) as [ev ->]; [by eapply gi_tables|done|].
  cbn [mbind outcome_bind]. eexists. split; [done|]. eapply gs_inv_eq, Hi2. exact (core_send_message (set_events ev s2) _ _).
Qed.

(** ** Connections *)

Lemma core_add_ip p ip s : core (score_add_ip p ip s) = core s.
Proof. unfold score_add_ip. destruct ip; [apply core_on_score|done]. Qed.

Lemma core_remove_ip p ip s : core (score_remove_ip p ip s) = core s.
Proof. unfold score_remove_ip. destruct ip; [apply core_on_score|done]. Qed.

(** The fields that a new connection leaves, and the others. *)
Lemma connection_established_tables s p c dialer ip others :
  let s' := Gossipsub_inject_connection_established to_bytes o s p c dialer ip others in
  let conns := default (mkPeerConnections Floodsub [c]) (connected_peers s !! p) in
  tables s' = (config s, topic_peers s, if decide (others = 0) then <[p := ∅]> (peer_topics s) else peer_topics s,
    <[p := mkPeerConnections (kind conns) (connections conns ++ [c])]> (connected_peers s), mesh s) ∧
  backoff_storage s' = backoff_storage s ∧ mcache s' = mcache s.
Proof.
  cbn zeta. unfold Gossipsub_inject_connection_established.
  set (s1 := if dialer && _ && _ then _ else s). assert (core s1 = core s) as Hc1 by (unfold s1; by destruct (_ && _)). clearbody s1.
  set (s2 := score_add_ip p ip s1). assert (core s2 = core s) as Hc2 by (unfold s2; by rewrite core_add_ip). clearbody s2.
  pose proof (core_eq _ _ Hc2) as (Ht & Hb & Hm). unfold tables in Ht. injection Ht as E1 E2 E3 E4 E5. rewrite E4.
  set (conns := default _ _). set (s3 := set_connected_peers _ s2). case_decide as Hd.
  - set (s4 := if decide (p ∈ blacklisted_peers s3) then s3 else _).
    assert (core s4 = core s3) as Hc4.
    { unfold s4. case_decide; [done|]. case_decide; [done|]. apply core_send_message. }
    clearbody s4. pose proof (core_eq _ _ Hc4) as (Ht4 & Hb4 & Hm4). unfold tables in Ht4. injection Ht4 as F1 F2 F3 F4 F5.
    set (s5 := set_peer_topics _ s4). pose proof (core_eq _ _ (core_on_score (λ ps, PeerScore_add_peer ps p) s5)) as (-> & -> & ->).
    unfold tables, s5. cbn. rewrite F1, F2, F3, F4, F5, Hb4, Hm4. cbn. by rewrite E1, E2, E3, E5.
  - unfold tables. cbn. by rewrite E1, E2, E3, E5.
Qed.

Lemma established_ok open n s p c dialer ip :
  gs_inv open n s → c ∉ default [] (open !! p) →
  gs_inv (<[p := default [] (open !! p) ++ [c]]> open) n
    (Gossipsub_inject_connection_established to_bytes o s p c dialer ip (length (default [] (open !! p)))).
Proof.
  intros Hi Hc. destruct (connection_established_tables s p c dialer ip (length (default [] (open !! p)))) as (Ht & Hb & Hm).
  set (s' := Gossipsub_inject_connection_established _ _ _ _ _ _ _ _) in *. clearbody s'.
  destruct Hi as [[A [B1 B2 B3 B4] C D] E]. unfold tables in Ht. injection Ht as E1 E2 E3 E4 E5.
  assert (∀ q t, t ∈ default ∅ (peer_topics s' !! q) ↔ t ∈ default ∅ (peer_topics s !! q)) as Hpt.
  { intros q t. rewrite E3. case_decide as Hd; [|done]. rewrite elem_of_default_insert. destruct (decide (q = p)) as [->|]; [|tauto].
    assert (peer_topics s !! p = None) as ->; [|set_solver]. apply not_elem_of_dom. rewrite B2, not_elem_of_dom.
    destruct (open !! p) as [cs|] eqn:Eo; [|done]. destruct (B4 p cs Eo) as [Hne _]. by apply nil_length_inv in Hd. }
  split; [split; [by rewrite E1|split|by rewrite Hb|by rewrite Hm]|].
  - intros q t. by rewrite E2, Hpt.
  - rewrite E3, dom_insert_L, <-B2. case_decide as Hd; [by rewrite dom_insert_L|].
    assert (p ∈ dom (peer_topics s)); [|set_solver]. rewrite B2, elem_of_dom. destruct (open !! p); [by eexists|done].
  - by rewrite E4, !dom_insert_L, B3.
  - intros q cs. rewrite E4. destruct (decide (q = p)) as [->|]; [|rewrite !lookup_insert_ne by done; apply B4].
    rewrite !lookup_insert_eq. intros [= <-]. split_and!.
    + by destruct (default [] (open !! p)).
    + apply NoDup_app. split_and!; [|set_solver|apply NoDup_singleton].
      destruct (open !! p) as [cs|] eqn:Eo; [by apply (B4 p cs)|apply NoDup_nil_2].
    + eexists. split; [done|]. cbn. destruct (open !! p) as [cs|] eqn:Eo.
      * destruct (B4 p cs Eo) as (_ & _ & x & -> & Hx). cbn. by apply submseteq_app.
      * simpl. apply submseteq_inserts_l. done.
  - intros q t. rewrite E5, Hpt. apply E.
Qed.

(** The connections that are left. *)
Lemma closed_connections (cs conns : list ConnectionId) c :
  NoDup cs → c ∈ cs → cs ⊆+ conns →
  ∃ i rest, position (λ v, bool_decide (v = c)) conns = Some i ∧ vec_remove i conns = Ret (c, rest) ∧ filter (λ x, x ≠ c) cs ⊆+ rest.
Proof.
  intros Hnd Hc Hsub. assert (c ∈ conns) as Hin.
  { eapply elem_of_submseteq; [exact Hc|exact Hsub]. }
  apply list_elem_of_split_l in Hin as (l1 & l2 & -> & Hl1). exists (length l1), (l1 ++ l2). split_and!.
  - clear -Hl1. induction l1 as [|x l1 IH]; simpl; [by rewrite bool_decide_true|].
    rewrite bool_decide_false by set_solver. rewrite IH by set_solver. done.
  - apply vec_remove_app.
  - apply (submseteq_app_inv_l _ _ [c]). assert ([c] ++ filter (λ x, x ≠ c) cs ≡ₚ cs) as ->.
    { apply NoDup_Permutation; [|done|].
      - apply NoDup_cons. split; [|by apply NoDup_filter]. rewrite list_elem_of_filter. tauto.
      - intros x. rewrite elem_of_app, list_elem_of_singleton, list_elem_of_filter. destruct (decide (x = c)) as [->|]; tauto. }
    rewrite Hsub. simpl. by rewrite Permutation_middle.
Qed.

Lemma closed_some_ok open n s p c cs :
  gs_inv open n s → open !! p = Some cs → c ∈ cs → filter (λ x, x ≠ c) cs ≠ [] →
  ∃ s', connection_closed_some s p c = Ret s' ∧ gs_inv (<[p := filter (λ x, x ≠ c) cs]> open) n s'.
Proof.
  intros Hi Ho' Hc Hne. pose proof (gi_tables _ _ _ Hi) as [B1 B2 B3 B4]. destruct (B4 p cs Ho') as (_ & Hnd & x & Hx & Hsub).
  destruct (closed_connections cs (connections x) c Hnd Hc Hsub) as (i & rest & Hpos & Hrem & Hrest).
  unfold connection_closed_some. rewrite Hx, Hpos. cbn [expect mbind outcome_bind]. rewrite Hrem. cbn [mbind outcome_bind].
  set (s1 := set_connected_peers _ s). assert (gs_inv (<[p := filter (λ x, x ≠ c) cs]> open) n s1) as Hi1.
  { destruct Hi as [[A _ C D] E]. split; [split; [done|split|done|done]|done].
    - done.
    - rewrite dom_insert_lookup_L by (by eexists). done.
    - cbn. rewrite !dom_insert_lookup_L by (by eexists). done.
    - intros q cs'. cbn. destruct (decide (q = p)) as [->|]; [|rewrite !lookup_insert_ne by done; apply B4].
      rewrite !lookup_insert_eq. intros [= <-]. split_and!; [done|by apply NoDup_filter|]. by eexists. }
  clearbody s1. destruct rest as [|first rest]; [by exists s1|]. destruct (peer_topics s1 !! p); [|by exists s1].
  eexists. split; [done|]. destruct (existsb _ _); [by eapply gs_inv_eq, Hi1|done].
Qed.

(** The removal of a peer from the maps of its topics. *)
Lemma disconnect_topics_spec p s l :
  let s' := foldl (disconnect_topic p) s l in
  (config s', peer_topics s', connected_peers s', backoff_storage s', mcache s') =
    (config s, peer_topics s, connected_peers s, backoff_storage s, mcache s) ∧
  (∀ q t, q ∈ default ∅ (topic_peers s' !! t) ↔ q ∈ default ∅ (topic_peers s !! t) ∧ ¬ (q = p ∧ t ∈ l)) ∧
  (∀ q t, q ∈ default ∅ (mesh s' !! t) ↔ q ∈ default ∅ (mesh s !! t) ∧ ¬ (q = p ∧ t ∈ l)).
Proof.
  revert s. induction l as [|x l IH]; intros s; cbn [foldl].
  { split_and!; [done| |]; intros q t; split; try tauto; intros Hq; (split; [done|by intros [_ ?%elem_of_nil]]). }
  assert (∀ (m : gmap TopicHash (gset PeerId)) q t,
    q ∈ default ∅ (alter (λ peers, peers ∖ {[p]}) x m !! t) ↔ q ∈ default ∅ (m !! t) ∧ ¬ (q = p ∧ t = x)) as Halter.
  { intros m q t. destruct (decide (t = x)) as [->|Hne]; [rewrite lookup_alter_eq|rewrite lookup_alter_ne by done; tauto].
    destruct (m !! x); simpl; set_solver. }
  destruct (IH (disconnect_topic p s x)) as (E1 & E2 & E3). split_and!; [exact E1| |].
  - intros q t. rewrite E2. cbn [topic_peers disconnect_topic set_fanout set_topic_peers]. rewrite Halter, elem_of_cons. tauto.
  - intros q t. rewrite E3. cbn [mesh disconnect_topic set_fanout set_topic_peers set_mesh]. rewrite Halter, elem_of_cons. tauto.
Qed.

Lemma closed_last_ok open n s p :
  gs_inv open n s → is_Some (open !! p) → ∃ s', connection_closed_last s p = Ret s' ∧ gs_inv (delete p open) n s'.
Proof.
  intros Hi Hp. unfold connection_closed_last. destruct Hi as [[A [B1 B2 B3 B4] C D] E].
  assert (is_Some (peer_topics s !! p)) as [topics Ht] by (apply elem_of_dom; rewrite B2; by apply elem_of_dom). rewrite Ht.
  destruct (disconnect_topics_spec p s (elements topics)) as (E1 & E2 & E3). set (s1 := foldl _ s _) in *. clearbody s1.
  injection E1 as F1 F2 F3 F4 F5. eexists. split; [done|]. set (s2 := set_connected_peers _ _). eapply (gs_inv_eq _ _ s2); [apply core_on_score|].
  assert (∀ q t, t ∈ default ∅ (delete p (peer_topics s) !! q) ↔ t ∈ default ∅ (peer_topics s !! q) ∧ q ≠ p) as Hdel.
  { intros q t. destruct (decide (q = p)) as [->|]; [rewrite lookup_delete_eq|rewrite lookup_delete_ne by done; tauto]. set_solver. }
  split; [split; [by cbn; rewrite F1|split|by cbn; rewrite F4|by cbn; rewrite F5]|].
  - intros q t. cbn. rewrite E2, F2, Hdel, elem_of_elements, B1. destruct (decide (q = p)) as [->|]; [|tauto]. rewrite Ht. simpl. tauto.
  - cbn. by rewrite F2, !dom_delete_L, B2.
  - cbn. by rewrite F3, !dom_delete_L, B3.
  - intros q cs. cbn. rewrite F3. destruct (decide (q = p)) as [->|]; [by rewrite lookup_delete_eq|]. rewrite !lookup_delete_ne by done. apply B4.
  - intros q t. cbn. rewrite E3, F2, Hdel, elem_of_elements. intros [Hq Hne]. apply E in Hq. split; [done|]. intros ->. rewrite Ht in Hq. tauto.
Qed.

(** The connections after one is closed. *)
Definition open_after (open : gmap PeerId (list ConnectionId)) p c : gmap PeerId (list ConnectionId) :=
  let cs := filter (λ x, x ≠ c) (default [] (open !! p)) in
  if decide (cs = []) then delete p open else <[p := cs]> open.

Lemma closed_ok open n s p c ip :
  gs_inv open n s → c ∈ default [] (open !! p) →
  ∃ s', Gossipsub_inject_connection_closed s p c ip (length (filter (λ x, x ≠ c) (default [] (open !! p)))) = Ret s' ∧
    gs_inv (open_after open p c) n s'.
Proof.
  intros Hi Hc. unfold Gossipsub_inject_connection_closed, open_after. set (s1 := score_remove_ip p ip s).
  assert (gs_inv open n s1) as Hi1 by (eapply gs_inv_eq, Hi; apply core_remove_ip). clearbody s1.
  destruct (open !! p) as [cs|] eqn:Eo; simpl in *; [|by apply elem_of_nil in Hc].
  destruct (decide (filter (λ x, x ≠ c) cs = [])) as [Hnil|Hne].
  - rewrite Hnil. cbn [length]. rewrite decide_False by (by intros []). by apply closed_last_ok.
  - rewrite decide_True by (by intros ?%nil_length_inv). by apply closed_some_ok.
Qed.

Lemma peer_kind_ok open n s p k : gs_inv open n s → gs_inv open n (Gossipsub_inject_peer_kind s p k).
Proof.
  intros Hi. assert (∀ k conns, connected_peers s !! p = Some (mkPeerConnections Floodsub conns) →
    gs_inv open n (set_connected_peers (<[p := mkPeerConnections k conns]> (connected_peers s)) s)) as Hset.
  { intros k' conns Hc. destruct Hi as [[A [B1 B2 B3 B4] C D] E]. split; [split; [done|split|done|done]|done].
    - done.
    - done.
    - cbn. by rewrite dom_insert_lookup_L by (by eexists).
    - intros q cs Hq. destruct (B4 q cs Hq) as (H1' & H2' & x & Hx & H3'). split_and!; [done|done|]. cbn.
      destruct (decide (q = p)) as [->|]; [rewrite lookup_insert_eq|rewrite lookup_insert_ne by done; by eexists].
      rewrite Hc in Hx. injection Hx as <-. by eexists. }
  unfold Gossipsub_inject_peer_kind. destruct k; [| | |by eapply gs_inv_eq, Hi];
    (destruct (connected_peers s !! p) as [[[] conns]|] eqn:Ec; [done|done|by apply Hset|done|done]).
Qed.

(** ** The other operations of the application *)

Lemma explicit_peer_ok open n s p : gs_inv open n s → gs_inv open n (Gossipsub_add_explicit_peer s p).
Proof.
  intros Hi. unfold Gossipsub_add_explicit_peer, Gossipsub_check_explicit_peer_connection. case_decide; by eapply gs_inv_eq, Hi.
Qed.

Lemma address_change_ok open n s p ip ip' : gs_inv open n s → gs_inv open n (Gossipsub_inject_address_change s p ip ip').
Proof. intros Hi. eapply gs_inv_eq, Hi. unfold Gossipsub_inject_address_change. by rewrite core_add_ip, core_remove_ip. Qed.

(** ** The message cache *)

Lemma mcache_put_ok n mc id raw : mcache_ok cfg n mc → ∃ b mc', MessageCache_put mc id raw = Ret (b, mc') ∧ mcache_ok cfg n mc'.
Proof.
  intros Hm. pose proof Hm as [A B C]. pose proof (cfg_history _ Hcfg). unfold MessageCache_put.
  destruct (msgs mc !! id); [by eexists _, _|]. destruct (history mc) as [|first rest]; [cbn in A; lia|].
  eexists _, _. split; [done|]. by split.
Qed.

Lemma mcache_observe_ok n mc id p : mcache_ok cfg n mc → mcache_ok cfg n (MessageCache_observe_duplicate mc id p).
Proof.
  intros Hm. pose proof Hm as [A B C]. unfold MessageCache_observe_duplicate. destruct (msgs mc !! id) as [[m ps]|]; [|done].
  by destruct (validated m).
Qed.

Lemma mcache_validate_ok n mc id : mcache_ok cfg n mc → mcache_ok cfg n (MessageCache_validate mc id).2.
Proof. intros Hm. pose proof Hm as [A B C]. unfold MessageCache_validate. destruct (msgs mc !! id) as [[m ps]|]; [by split|done]. Qed.

Lemma mcache_remove_ok n mc id : mcache_ok cfg n mc → mcache_ok cfg n (MessageCache_remove mc id).2.
Proof.
  intros [A B C]. split; [done|done|]. intros id' counts p k. cbn. intros [_ Hc]%lookup_delete_Some. by apply (C id').
Qed.

Lemma mcache_shift_ok n mc : mcache_ok cfg n mc → ∃ mc', MessageCache_shift mc = Ret mc' ∧ mcache_ok cfg n mc'.
Proof.
  intros [A B C]. pose proof (cfg_history _ Hcfg). unfold MessageCache_shift. destruct (last (history mc)) as [popped|] eqn:E.
  2:{ apply last_None in E. rewrite E in A. cbn in A. lia. }
  cbn [expect mbind outcome_bind]. pose proof (shift_entries_spec popped (msgs mc) (iwant_counts mc)) as Hs.
  destruct (foldl _ _ _) as [ms iw]. eexists. split; [done|]. split; [|done|].
  - cbn. apply last_Some in E as [l E]. rewrite E, removelast_last. rewrite E, length_app in A. cbn in A. lia.
  - intros id counts p k. cbn. destruct (Hs id) as [_ Hid]. cbn in Hid. rewrite Hid. case_decide; [done|]. apply C.
Qed.

Lemma mcache_iwant_ok n mc id p :
  mcache_ok cfg n mc → (n + 1 < 2 ^ 32)%N →
  ∃ r mc', MessageCache_get_with_iwant_counts mc id p = Ret (r, mc') ∧ mcache_ok cfg (n + 1) mc'.
Proof.
  intros [A B C] Hn. assert (mcache_ok cfg (n + 1) mc) as Hm.
  { split; [done|done|]. intros id' counts q k H1' H2'. specialize (C id' counts q k H1' H2'). lia. }
  unfold MessageCache_get_with_iwant_counts. destruct (msgs mc !! id) as [[m ps]|]; [|by eexists _, _].
  destruct (validated m); [|by eexists _, _]. set (counts := default ∅ (iwant_counts mc !! id)).
  assert (∀ q k, counts !! q = Some k → (k ≤ n)%N) as Hc.
  { intros q k. unfold counts. destruct (iwant_counts mc !! id) as [c|] eqn:E; [by apply (C id)|done]. }
  assert (default 0 (counts !! p) ≤ n)%N as Hle.
  { destruct (counts !! p) as [k|] eqn:E; [by eapply Hc|]. simpl. lia. }
  unfold u32_add. rewrite decide_True by lia. cbn [mbind outcome_bind]. eexists _, _. split; [done|]. split; [done|done|].
  intros id' counts' q k. cbn. intros [[<- <-]|[_ H1']]%lookup_insert_Some; [|by apply (mk_counts _ _ _ Hm id')].
  intros [[<- <-]|[_ H1']]%lookup_insert_Some; [lia|]. apply Hc in H1'. lia.
Qed.

Lemma inv_set_mcache open n n' s mc : gs_inv open n s → mcache_ok cfg n' mc → gs_inv open n' (set_mcache mc s).
Proof. intros [[A [B1 B2 B3 B4] C D] E] Hm. split; [split; [done|by split|done|done]|done]. Qed.

Lemma gs_inv_more open n n' s : (n ≤ n')%N → gs_inv open n s → gs_inv open n' s.
Proof.
  intros Hn [[A B C [D1 D2 D3]] E]. split; [split; [done|done|done|]|done]. split; [done|done|].
  intros id counts p k H1' H2'. specialize (D3 id counts p k H1' H2'). lia.
Qed.

(** ** The heartbeat *)

Lemma core_iwant_penalties s : core (Gossipsub_apply_iwant_penalties o now s) = core s.
Proof.
  unfold Gossipsub_apply_iwant_penalties. destruct (peer_score s) as [[[ps th] pr]|]; [|done].
  by destruct (GossipPromises_get_broken_promises pr now).
Qed.

Lemma core_check_explicit s l : core (foldl Gossipsub_check_explicit_peer_connection s l) = core s.
Proof. apply foldl_keeps. intros s1 p. unfold Gossipsub_check_explicit_peer_connection. by case_decide. Qed.

Lemma heartbeat_counters_ok s : backoff_ok cfg (backoff_storage s) → ∃ s', heartbeat_counters o now s = Ret s' ∧ quiet s s'.
Proof.
  intros Hb. unfold heartbeat_counters. cbn zeta. set (s1 := set_heartbeat_ticks _ s).
  assert (core s1 = core s) as Hc by done. clearbody s1. apply core_eq in Hc as (Ht & Hb1 & Hm). rewrite <-Hb1 in Hb.
  pose proof Hb as [Hi A B C E].
  destruct (heartbeat_spec (hash_backoffs o) (hash_backoffs_perm o Ho) (backoff_storage s1) now Hi) as (b & Hr & Hbi & (Hl & Hiv & Hsl) & _ & Hlk).
  { pose proof (ck_prune _ _ Hclock) as Hp. unfold backoff_margin, instant_end in Hp. unfold bo_slack, duration_end. rewrite B, C. lia. }
  rewrite Hr. cbn [mbind outcome_bind]. eexists. split; [done|]. split; [exact Ht|exact Hm|]. intros _.
  split; [done|cbn; by rewrite Hl|cbn; by rewrite Hiv|cbn; by rewrite Hsl|]. intros p t i. cbn. rewrite Hlk. case_decide; [done|apply E].
Qed.

Lemma heartbeat_explicit_ok s s1 : config s = cfg → quiet s s1 → ∃ s', heartbeat_explicit o s1 = Ret s' ∧ quiet s s'.
Proof.
  intros Hc Hq. unfold heartbeat_explicit. rewrite (tables_config _ _ (q_tables _ _ Hq)), Hc.
  rewrite bool_decide_true by (apply (cfg_explicit_ticks _ Hcfg)).
  cbn [assert mbind outcome_bind]. eexists. split; [done|]. case_decide; [|done].
  eapply quiet_trans; [exact Hq|]. apply quiet_core, core_check_explicit.
Qed.

Lemma heartbeat_begin_ok open n s :
  gs_inv open n s → ∃ s', heartbeat_begin o now s = Ret s' ∧ quiet s s'.
Proof.
  intros Hi. unfold heartbeat_begin.
  destruct (heartbeat_counters_ok s (gb_backoff _ _ _ (gi_base _ _ _ Hi))) as (s1 & -> & Hq1). cbn [mbind outcome_bind].
  apply heartbeat_explicit_ok; [apply (gb_config _ _ _ (gi_base _ _ _ Hi))|].
  eapply quiet_trans; [exact Hq1|]. apply quiet_core, core_iwant_penalties.
Qed.

Lemma core_maintain_fanout scores s l : core (foldl (maintain_fanout_turn o scores) s l) = core s.
Proof.
  apply foldl_keeps. intros s1 t. unfold maintain_fanout_turn. destruct (fanout s1 !! t) as [peers|]; [|done].
  cbn zeta. case_decide; [|done]. by destruct (get_random_peers _ _ _ _ _ _ _).
Qed.

Lemma emit_gossip_turn_ok open n s tp : gs_inv open n s → ∃ s', emit_gossip_turn o s tp = Ret s' ∧ quiet s s'.
Proof.
  intros Hi. destruct tp as [t peers]. unfold emit_gossip_turn, MessageCache_get_gossip_message_ids.
  pose proof (gb_mcache _ _ _ (gi_base _ _ _ Hi)) as [A B C]. rewrite decide_True.
  2:{ rewrite A, B. pose proof (cfg_built _ Hcfg) as Hb. revert Hb. unfold GossipsubConfigBuilder_build.
      case_decide; [done|]. case_decide as Hd; [done|]. intros _. lia. }
  cbn [mbind outcome_bind]. case_decide; [eexists; split; [done|by apply quiet_core]|].
  destruct (if decide _ then _ else _) as [ids g]. destruct (get_random_peers_dynamic _ _ _ _ _ _ _) as [R g'].
  eexists. split; [done|]. apply quiet_core. rewrite (foldl_keeps (emit_gossip_peer t ids) core); [done|].
  intros s1 p. unfold emit_gossip_peer. by destruct (if decide _ then _ else _).
Qed.

Lemma elem_of_peer_entries {A} (m : gmap PeerId A) p a : (p, a) ∈ peer_entries o m → m !! p = Some a.
Proof.
  unfold peer_entries. rewrite list_elem_of_omap. intros (q & _ & Hq). destruct (m !! q) eqn:E; [|done]. cbn in Hq. by simplify_eq.
Qed.

Lemma added_topic_ok open n p s t :
  is_Some (open !! p) → gs_inv open n s → ∃ s', added_topic p s t = Ret s' ∧ quiet s s'.
Proof.
  intros Hp Hi. unfold added_topic. set (s1 := on_score _ s). assert (core s1 = core s) as Hc by apply core_on_score. clearbody s1.
  destruct (peer_added_ok open s1 p [t] (mesh s1) (peer_topics s1 !! p) (events s1)) as [ev ->]; [|done|].
  { eapply tables_ok_eq, (gi_tables _ _ _ Hi). by apply core_eq in Hc as (? & _). }
  eexists. split; [done|]. by apply quiet_core.
Qed.

(** What is to be announced goes to peers that are connected. *)
Definition announced_open (open : gmap PeerId (list ConnectionId)) (m : gmap PeerId (list TopicHash)) : Prop :=
  ∀ q t, announced m q t → is_Some (open !! q).

Lemma send_grafts_ok open n no_px s to_prune p topics :
  gs_inv open n s → announced_open open to_prune → (∀ t, t ∈ topics → is_Some (open !! p)) →
  ∃ s', send_grafts_turn to_bytes o now no_px (s, to_prune) (p, topics) = Ret (s', delete p to_prune) ∧ quiet s s'.
Proof.
  intros Hi Hpr Hto. unfold send_grafts_turn.
  destruct (for_each_quiet (added_topic p) topics open n s Hi) as (s1 & -> & Hq1).
  { intros s1 t Ht Hi1. apply (added_topic_ok open n); [by eapply Hto|done]. }
  cbn [mbind outcome_bind].
  destruct (make_prunes_ok open n s1 (default [] (to_prune !! p)) p (do_px (config s1) && bool_decide (p ∉ no_px)) false)
    as (cs & s2 & -> & Hq2); [by eapply quiet_base, (gi_base _ _ _ Hi)|].
  cbn [mbind outcome_bind]. eexists. split; [done|]. eapply quiet_trans; [exact Hq1|]. eapply quiet_trans; [exact Hq2|].
  apply quiet_core, core_send_message.
Qed.

Lemma send_prunes_ok open n no_px s p topics :
  gs_inv open n s → (∀ t, t ∈ topics → is_Some (open !! p)) →
  ∃ s', send_prunes_turn to_bytes o now no_px s (p, topics) = Ret s' ∧ quiet s s'.
Proof.
  intros Hi Hto. unfold send_prunes_turn. set (px := _ && _).
  destruct (for_each_inv (removed_topic o now p px) (λ st, quiet s st.1) topics (s, [])) as ([s1 cs] & -> & Hq).
  { by apply quiet_core. }
  { intros [s1 cs] t Ht Hq1. cbn in Hq1. unfold removed_topic.
    destruct (make_prune_ok open n s1 t p px false) as (c & s2 & -> & Hq2); [by eapply quiet_base, (gi_base _ _ _ Hi)|].
    cbn [mbind outcome_bind]. assert (quiet s s2) as Hq3 by (by eapply quiet_trans).
    destruct (peer_removed_ok open s2 p t (mesh s2) (peer_topics s2 !! p) (events s2)) as [ev ->].
    { eapply gi_tables, quiet_inv; [exact Hq3|exact Hi]. }
    { by eapply Hto. }
    eexists. split; [done|]. cbn. eapply quiet_trans; [exact Hq3|]. by apply quiet_core. }
  cbn [mbind outcome_bind]. eexists. split; [done|]. eapply quiet_trans; [exact Hq|]. apply quiet_core, core_send_message.
Qed.

Lemma send_graft_prune_ok open n s to_graft to_prune no_px :
  gs_inv open n s → announced_open open to_graft → announced_open open to_prune →
  ∃ s', Gossipsub_send_graft_prune to_bytes o now s to_graft to_prune no_px = Ret s' ∧ quiet s s'.
Proof.
  intros Hi Hg Hp. unfold Gossipsub_send_graft_prune.
  destruct (for_each_inv (send_grafts_turn to_bytes o now no_px) (λ st, quiet s st.1 ∧ announced_open open st.2)
    (peer_entries o to_graft) (s, to_prune)) as ([s1 tp] & -> & Hq1 & Hp1).
  { split; [by apply quiet_core|done]. }
  { intros [s1 tp] [p topics] Hin%elem_of_peer_entries [Hq1 Hp1]. cbn in Hq1, Hp1.
    destruct (send_grafts_ok open n no_px s1 tp p topics) as (s2 & Hr & Hq2); [by eapply quiet_inv|done| |].
    { intros t Ht. apply (Hg p t). unfold announced. by rewrite Hin. }
    eexists. split; [exact Hr|]. split; [by eapply quiet_trans|]. intros q t. cbn. unfold announced.
    destruct (decide (q = p)) as [->|]; [rewrite lookup_delete_eq; by intros ?%elem_of_nil|rewrite lookup_delete_ne by done; apply Hp1]. }
  cbn [mbind outcome_bind]. destruct (for_each_quiet (send_prunes_turn to_bytes o now no_px) (peer_entries o tp) open n s1) as (s2 & Hr & Hq2).
  { by eapply quiet_inv. }
  { intros s2 [p topics] Hin%elem_of_peer_entries Hi2. apply (send_prunes_ok open n); [done|].
    intros t Ht. apply (Hp1 p t). unfold announced. cbn. by rewrite Hin. }
  exists s2. split; [done|]. by eapply quiet_trans.
Qed.

Lemma core_flush s : core (Gossipsub_flush_control_pool to_bytes o s) = core s.
Proof.
  unfold Gossipsub_flush_control_pool. etrans.
  2:{ apply (foldl_keeps (λ s pc, (Gossipsub_send_message s pc.1 (control_rpc to_bytes pc.2)).2) core
        (peer_entries o (control_pool s)) (set_control_pool ∅ s)). intros s1 pc. apply core_send_message. }
  done.
Qed.

Lemma heartbeat_end_ok open n scores s m :
  gs_inv open n s → announced_open open (m_graft m) → announced_open open (m_prune m) →
  ∃ s', heartbeat_end to_bytes o now scores s m = Ret s' ∧ gs_inv open n s' ∧ tables s' = tables s.
Proof.
  intros Hi Hg Hp. unfold heartbeat_end. set (s1 := foldl _ _ _). assert (core s1 = core s) as Hc.
  { unfold s1. by rewrite core_maintain_fanout. }
  clearbody s1. assert (gs_inv open n s1) as Hi1 by (by eapply gs_inv_eq). unfold Gossipsub_emit_gossip.
  destruct (for_each_quiet (emit_gossip_turn o) (topic_entries o (mesh s1) ++ topic_entries o (fanout s1)) open n s1 Hi1) as (s2 & -> & Hq2).
  { intros s2 tp _. apply emit_gossip_turn_ok. }
  cbn [mbind outcome_bind]. assert (gs_inv open n s2) as Hi2 by (by eapply quiet_inv).
  assert (∃ s3, (if decide (m_graft m = ∅ ∧ m_prune m = ∅) then Ret s2
    else Gossipsub_send_graft_prune to_bytes o now s2 (m_graft m) (m_prune m) (m_no_px m)) = Ret s3 ∧ quiet s2 s3) as (s3 & Hr & Hq3).
  { case_decide; [eexists; split; [done|by apply quiet_core]|]. by eapply send_graft_prune_ok. }
  rewrite Hr. cbn [mbind outcome_bind]. clear Hr.
  pose proof (core_flush s3) as Hf. set (s4 := Gossipsub_flush_control_pool to_bytes o s3) in *. clearbody s4.
  assert (gs_inv open n s4) as Hi4 by (eapply gs_inv_eq, quiet_inv; [exact Hf|exact Hq3|exact Hi2]).
  destruct (mcache_shift_ok n (mcache s4) (gb_mcache _ _ _ (gi_base _ _ _ Hi4))) as (mc & -> & Hmc). cbn [mbind outcome_bind].
  eexists. split; [done|]. split; [by eapply inv_set_mcache|].
  apply core_eq in Hf as (Hf & _), Hc as (Hc & _). etrans; [|exact Hc]. etrans; [|exact (q_tables _ _ Hq2)].
  etrans; [|exact (q_tables _ _ Hq3)]. exact Hf.
Qed.

Lemma eligible_open open s t scores p : tables_ok open s → p ∈ eligible s t scores → is_Some (open !! p).
Proof.
  intros Ht (Hp & _)%elem_of_eligible. eapply subscribed_open; [exact Ht|]. by apply (tb_topics _ _ Ht).
Qed.

(** The whole heartbeat: the mesh of every topic is maintained, for the scores and the
    backoffs as they are after the first part of the heartbeat. *)
Lemma heartbeat_ok `{!RngSpec G} open n s :
  gs_inv open n s →
  ∃ s1 s', heartbeat_begin o now s = Ret s1 ∧ tables s1 = tables s ∧ Gossipsub_heartbeat to_bytes o now s = Ret s' ∧ gs_inv open n s' ∧
    dom (mesh s') = dom (mesh s) ∧
    ∀ t peers, mesh s' !! t = Some peers → maintained s1 t (cached_scores s1) peers.
Proof.
  intros Hi. destruct (heartbeat_begin_ok open n s Hi) as (s1 & Hb & Hq). exists s1. unfold Gossipsub_heartbeat. rewrite Hb. cbn [mbind outcome_bind].
  assert (gs_inv open n s1) as Hi1 by (by eapply quiet_inv).
  pose proof (gi_tables _ _ _ Hi1) as Ht1. pose proof (gi_mesh _ _ _ Hi1) as Hm1.
  destruct (heartbeat_mesh_spec o s1 Ho) as (M & m & -> & HM & Hao & Hall).
  { by rewrite (gb_config _ _ _ (gi_base _ _ _ Hi1)). }
  cbn [mbind outcome_bind]. assert (gs_inv open n (set_mesh M s1)) as Hi2.
  { apply inv_set_mesh; [done|]. intros p t Hp. destruct (M !! t) as [peers'|] eqn:E; [|set_solver]. cbn in Hp.
    assert (is_Some (mesh s1 !! t)) as [peers Hps].
    { apply elem_of_dom. rewrite <-HM. apply elem_of_dom. by eexists. }
    destruct (Hall t peers Hps) as (peers'' & HMt & Htm). rewrite E in HMt. injection HMt as <-.
    destruct (tm_added _ _ _ _ _ _ Htm p Hp) as [Hp'|[(Hp' & _)%elem_of_eligible _]]; [apply Hm1; by rewrite Hps|].
    by apply (tb_topics _ _ Ht1). }
  destruct (heartbeat_end_ok open n (cached_scores s1) (set_mesh M s1) m Hi2) as (s' & Hr & Hi' & Ht').
  { intros q t [_ Hq']%(ao_graft _ _ _ Hao). by eapply eligible_open. }
  { intros q t (peers & Hps & [Hq'|Hq'])%(ao_prune _ _ _ Hao); [|by eapply eligible_open].
    eapply subscribed_open; [exact Ht1|]. apply (Hm1 q t). by rewrite Hps. }
  exists s'. pose proof (f_equal snd Ht') as Hmesh. cbn in Hmesh. pose proof (f_equal snd (q_tables _ _ Hq)) as Hmesh1. cbn in Hmesh1.
  split_and!; [done|apply Hq|done|done|by rewrite Hmesh, HM, Hmesh1|].
  intros t peers'. rewrite Hmesh. intros HMt. assert (is_Some (mesh s1 !! t)) as [peers Hps].
  { apply elem_of_dom. rewrite <-HM. apply elem_of_dom. by eexists. }
  destruct (Hall t peers Hps) as (peers'' & HMt' & Htm). rewrite HMt in HMt'. injection HMt' as <-. apply Htm.
Qed.

(** ** Messages *)

Section messages.
Context (sign : PbMessage TopicHash → option (list byte)).
Context (inbound_transform : RawGossipsubMessage (TopicHash := TopicHash) (PeerId := PeerId) → option (GossipsubMessage (TopicHash := TopicHash) (PeerId := PeerId))).
Context (outbound_transform : TopicHash → list byte → option (list byte)).

Lemma core_forward s id raw src orig : core (Gossipsub_forward_msg to_bytes o s id raw src orig).2 = core s.
Proof.
  unfold Gossipsub_forward_msg. set (s1 := match src with Some _ => _ | None => s end).
  assert (core s1 = core s) as Hc by (unfold s1; destruct src; [apply core_on_score|done]). clearbody s1. rewrite <-Hc.
  cbn zeta. case_decide; [done|]. pose proof (core_send_to_all s1 (hash_peers o (forward_recipients s1 raw src orig)) (message_rpc to_bytes [raw])) as Hs.
  by destruct (send_to_all _ _ _) as [[] s2].
Qed.

Lemma core_invalid s p raw r : core (Gossipsub_handle_invalid_message s p raw r) = core s.
Proof. unfold Gossipsub_handle_invalid_message. destruct (_ ≫= _); [apply core_on_promises|apply core_on_score]. Qed.

Lemma core_valid s id raw p : core (Gossipsub_message_is_valid s id raw p).2 = core s.
Proof.
  unfold Gossipsub_message_is_valid. case_decide; [apply core_on_promises|].
  destruct (match source raw with Some src => _ | None => false end); [apply core_invalid|].
  cbn zeta. destruct (self_published _ _ _ _); [apply core_invalid|done].
Qed.

Lemma duplicate_ok open n s id t p : gs_inv open n s → gs_inv open n (handle_duplicate s id t p).
Proof.
  intros Hi. unfold handle_duplicate. cbn zeta. set (s1 := on_score _ s).
  assert (gs_inv open n s1) as Hi1 by (eapply gs_inv_eq, Hi; apply core_on_score). clearbody s1.
  apply (inv_set_mcache open n); [done|]. apply mcache_observe_ok, (gi_base _ _ _ Hi1).
Qed.

Lemma new_message_ok open n s id raw message p :
  gs_inv open n s → ∃ s', handle_new_message to_bytes o s id raw message p = Ret s' ∧ gs_inv open n s'.
Proof.
  intros Hi. unfold handle_new_message. cbn zeta. set (s1 := on_promises _ _ s).
  assert (gs_inv open n s1) as Hi1 by (eapply gs_inv_eq, Hi; apply core_on_promises). clearbody s1.
  destruct (mcache_put_ok n (mcache s1) id raw) as (b & mc & -> & Hmc); [apply (gi_base _ _ _ Hi1)|]. cbn [mbind outcome_bind].
  set (s2 := set_mcache mc s1). assert (gs_inv open n s2) as Hi2 by (by apply (inv_set_mcache open n)). clearbody s2.
  case_decide; [by exists s2|]. set (s3 := push_event _ s2). assert (gs_inv open n s3) as Hi3 by (by eapply gs_inv_eq, Hi2). clearbody s3.
  eexists. split; [done|]. destruct (validate_messages _); [done|]. eapply gs_inv_eq, Hi3. apply core_forward.
Qed.

Lemma transformed_ok open n s fast raw message p :
  gs_inv open n s → ∃ s', handle_transformed to_bytes o now s fast raw message p = Ret s' ∧ gs_inv open n s'.
Proof.
  intros Hi. unfold handle_transformed. pose proof (core_valid s (message_id_fn (config s) message) raw p) as Hc.
  destruct (Gossipsub_message_is_valid _ _ _ _) as [[valid raw'] s1]. cbn in Hc.
  assert (gs_inv open n s1) as Hi1 by (by eapply gs_inv_eq, Hi). destruct valid; cbn [negb]; [|by exists s1].
  set (s2 := match fast with Some id => _ | None => s1 end). assert (gs_inv open n s2) as Hi2.
  { unfold s2. destruct fast; [|done]. destruct (TimeCache_entry _ _ _). by eapply gs_inv_eq, Hi1. }
  clearbody s2. destruct (DuplicateCache_insert _ _ _) as [fresh cache]. set (s3 := set_duplicate_cache cache s2).
  assert (gs_inv open n s3) as Hi3 by (by eapply gs_inv_eq, Hi2). clearbody s3.
  destruct fresh; cbn [negb]; [by apply new_message_ok|]. eexists. split; [done|by apply duplicate_ok].
Qed.

Lemma received_message_ok open n s raw p :
  gs_inv open n s → ∃ s', Gossipsub_handle_received_message to_bytes inbound_transform o now s raw p = Ret s' ∧ gs_inv open n s'.
Proof.
  intros Hi. unfold Gossipsub_handle_received_message. cbn zeta. destruct (_ ≫= _) as [id|].
  - pose proof (core_valid s id raw p) as Hc. destruct (Gossipsub_message_is_valid _ _ _ _) as [[valid raw'] s1]. cbn in Hc.
    assert (gs_inv open n s1) as Hi1 by (by eapply gs_inv_eq, Hi). eexists. split; [done|]. destruct valid; [by apply duplicate_ok|done].
  - destruct (inbound_transform raw); [by apply transformed_ok|]. eexists. split; [done|]. eapply gs_inv_eq, Hi. apply core_invalid.
Qed.

Lemma report_ok open n s id p acc :
  gs_inv open n s → gs_inv open n (Gossipsub_report_message_validation_result to_bytes o s id p acc).2.
Proof.
  intros Hi. pose proof (gb_mcache _ _ _ (gi_base _ _ _ Hi)) as Hm. unfold Gossipsub_report_message_validation_result. cbn zeta.
  pose proof (mcache_validate_ok n (mcache s) id Hm) as Hv. pose proof (mcache_remove_ok n (mcache s) id Hm) as Hr.
  destruct (MessageCache_validate _ _) as [found mc]. destruct (MessageCache_remove _ _) as [removed mc']. cbn in Hv, Hr.
  pose proof (inv_set_mcache open n n s mc Hi Hv) as Hi1. pose proof (inv_set_mcache open n n s mc' Hi Hr) as Hi2.
  set (s1 := set_mcache mc s) in *. set (s2 := set_mcache mc' s) in *. clearbody s1 s2.
  destruct acc; [destruct found as [[raw orig]|]; [|done]|destruct removed as [[raw orig]|]; [|done]..].
  - pose proof (core_forward s1 id raw (Some p) orig) as Hc. destruct (Gossipsub_forward_msg _ _ _ _ _ _ _) as [[] s3]; by eapply gs_inv_eq, Hi1.
  - eapply gs_inv_eq, Hi2. apply core_on_score.
  - eapply gs_inv_eq, Hi2. apply core_on_score.
Qed.

Lemma core_publish_recipients s t : core (publish_recipients o now s t).2 = core s.
Proof.
  unfold publish_recipients. destruct (topic_peers s !! t); [|done]. destruct (flood_publish _); [done|]. cbn zeta.
  case_decide; [|done]. unfold publish_fanout. destruct (fanout s !! t); [done|]. by destruct (get_random_peers _ _ _ _ _ _ _).
Qed.

Lemma publish_send_ok open n s id raw rs :
  gs_inv open n s → ∃ r s', publish_send to_bytes o now s id raw rs = Ret (r, s') ∧ gs_inv open n s'.
Proof.
  intros Hi. unfold publish_send. cbn zeta. set (s1 := set_duplicate_cache _ s).
  assert (gs_inv open n s1) as Hi1 by (by eapply gs_inv_eq, Hi). clearbody s1.
  destruct (mcache_put_ok n (mcache s1) id raw) as (b & mc & -> & Hmc); [apply (gi_base _ _ _ Hi1)|]. cbn [mbind outcome_bind].
  set (s2 := set_mcache mc s1). assert (gs_inv open n s2) as Hi2 by (by apply (inv_set_mcache open n)). clearbody s2.
  set (s3 := match publish_config s2 with Publish_RandomAuthor | Publish_Anonymous => _ | _ => s2 end).
  assert (gs_inv open n s3) as Hi3.
  { unfold s3. destruct (publish_config s2); [done|done| |]; (destruct (allow_self_origin _); [done|by eapply gs_inv_eq, Hi2]). }
  clearbody s3. pose proof (core_send_to_all s3 (hash_peers o rs) (message_rpc to_bytes [raw])) as Hc.
  destruct (send_to_all _ _ _) as [[] s4]; eexists _, _; (split; [done|by eapply gs_inv_eq, Hi3]).
Qed.

Lemma publish_ok open n s t data seqno author :
  gs_inv open n s →
  ∃ r s', Gossipsub_publish to_bytes sign outbound_transform o now s t data seqno author = Ret (r, s') ∧ gs_inv open n s'.
Proof.
  intros Hi. unfold Gossipsub_publish. destruct (outbound_transform t data) as [transformed|]; [|by eexists _, _].
  destruct (Gossipsub_build_raw_message _ _ _ _ _ _ _) as [raw|]; [|by eexists _, _]. cbn zeta.
  case_decide; [by eexists _, _|]. destruct (DuplicateCache_contains _ _); [by eexists _, _|].
  set (id := message_id_fn _ _). set (fwd := if flood_publish (config s) then _ else _).
  assert (core fwd.2 = core s) as Hf by (unfold fwd; destruct (flood_publish _); [done|apply core_forward]).
  destruct fwd as [[sent|e] s1]; cbn in Hf; [|eexists _, _; split; [done|by eapply gs_inv_eq, Hi]].
  pose proof (core_publish_recipients s1 (GossipMcache.topic raw)) as Hr. destruct (publish_recipients _ _ _ _) as [rs s2]. cbn in Hr.
  assert (gs_inv open n s2) as Hi2 by (eapply gs_inv_eq, Hi; by rewrite Hr).
  case_decide; [by eexists _, _|by apply publish_send_ok].
Qed.

Lemma core_ihave s p l : core (Gossipsub_handle_ihave o now s p l) = core s.
Proof.
  unfold Gossipsub_handle_ihave. destruct (Gossipsub_score_below_threshold _ _ _).1; [done|]. cbn zeta.
  set (s1 := set_count_received_ihave _ s). assert (core s1 = core s) as <- by done. clearbody s1. case_decide; [done|].
  destruct (match count_sent_iwant s1 !! p with Some _ => _ | None => false end); [done|].
  case_decide; [done|]. unfold ask_for. cbn zeta. destruct (partial_shuffle _ _ _) as [l' g]. unfold on_promises.
  by destruct (peer_score _) as [[[]]|].
Qed.

Lemma handle_iwant_ok open n s p (ids : list MessageId) :
  gs_inv open n s → (n + N.of_nat (length ids) < 2 ^ 32)%N →
  ∃ s', Gossipsub_handle_iwant to_bytes o s p ids = Ret s' ∧ gs_inv open (n + N.of_nat (length ids)) s'.
Proof.
  intros Hi Hn. unfold Gossipsub_handle_iwant. destruct (Gossipsub_score_below_threshold _ _ _).1.
  { exists s. split; [done|]. eapply gs_inv_more, Hi. lia. }
  assert (∀ cached, ∃ s' cached', for_each (iwant_turn p) (s, cached) ids = Ret (s', cached') ∧ gs_inv open (n + N.of_nat (length ids)) s') as Hloop.
  { clear -Hi Hn. revert n s Hi Hn. induction ids as [|id ids IH]; intros n s Hi Hn cached.
    { exists s, cached. split; [done|]. eapply gs_inv_more, Hi. lia. }
    cbn [for_each]. cbn [length] in Hn.
    destruct (mcache_iwant_ok n (mcache s) id p) as (r & mc & Hr & Hmc); [apply (gi_base _ _ _ Hi)|lia|].
    assert (∃ cached', iwant_turn p (s, cached) id = Ret (set_mcache mc s, cached')) as [cached' ->] by (unfold iwant_turn; rewrite Hr; by eexists).
    cbn [mbind outcome_bind]. cbn [length]. replace (n + N.of_nat (S (length ids)))%N with (n + 1 + N.of_nat (length ids))%N by lia.
    apply IH; [by apply (inv_set_mcache open n)|lia]. }
  destruct (Hloop ∅) as (s1 & cached & -> & Hi1). cbn [mbind outcome_bind]. case_decide; [by exists s1|].
  eexists. split; [done|]. eapply gs_inv_eq, Hi1. apply core_send_message.
Qed.

Lemma handle_iwants_ok open n s p (l : list (list MessageId)) :
  gs_inv open n s → (n + N.of_nat (length (mjoin l)) < 2 ^ 32)%N →
  ∃ s', for_each (λ s ids, Gossipsub_handle_iwant to_bytes o s p ids) s l = Ret s' ∧ gs_inv open (n + N.of_nat (length (mjoin l))) s'.
Proof.
  revert n s. induction l as [|ids l IH]; intros n s Hi Hn; cbn [for_each].
  { exists s. split; [done|]. eapply gs_inv_more, Hi. lia. }
  change (mjoin (ids :: l)) with (ids ++ mjoin l) in *. rewrite length_app in *.
  destruct (handle_iwant_ok open n s p ids Hi) as (s1 & -> & Hi1); [lia|]. cbn [mbind outcome_bind].
  replace (n + N.of_nat (length ids + length (mjoin l)))%N with (n + N.of_nat (length ids) + N.of_nat (length (mjoin l)))%N by lia.
  apply IH; [done|lia].
Qed.

Lemma controls_ok open n s p controls :
  is_Some (open !! p) → gs_inv open n s → (n + N.of_nat (length (mjoin (iwants controls))) < 2 ^ 32)%N →
  Forall (λ x, remote_backoff_ok x.2) (prunes controls) →
  ∃ s', handle_controls to_bytes o now s p controls = Ret s' ∧ gs_inv open (n + N.of_nat (length (mjoin (iwants controls)))) s'.
Proof.
  intros Hp Hi Hn Hpr. unfold handle_controls. destruct (handle_iwants_ok open n s p (iwants controls) Hi Hn) as (s1 & -> & Hi1).
  cbn [mbind outcome_bind]. set (n' := (n + _)%N) in *. clearbody n'. set (s2 := if decide _ then s1 else _).
  assert (gs_inv open n' s2) as Hi2 by (unfold s2; case_decide; [done|]; eapply gs_inv_eq, Hi1; apply core_ihave). clearbody s2.
  assert (∃ s3, (if decide (grafts controls = []) then Ret s2 else Gossipsub_handle_graft to_bytes o now s2 p (grafts controls)) = Ret s3 ∧
    gs_inv open n' s3) as (s3 & -> & Hi3) by (case_decide; [by exists s2|by apply handle_graft_ok]).
  cbn [mbind outcome_bind]. case_decide; [by exists s3|by apply handle_prune_ok].
Qed.

Lemma inject_message_ok open n s p rpc invalid :
  is_Some (open !! p) → gs_inv open n s → (n + N.of_nat (length (mjoin (iwants (control_msgs rpc)))) < 2 ^ 32)%N →
  Forall (λ x, remote_backoff_ok x.2) (prunes (control_msgs rpc)) →
  ∃ n' s', Gossipsub_inject_message to_bytes inbound_transform o now s p rpc invalid = Ret s' ∧ gs_inv open n' s'.
Proof.
  intros Hp Hi Hn Hpr. unfold Gossipsub_inject_message.
  assert (∃ s1, (if decide (rpc_subscriptions rpc = []) then Ret s
    else Gossipsub_handle_received_subscriptions to_bytes o now s (rpc_subscriptions rpc) p) = Ret s1 ∧ gs_inv open n s1) as (s1 & -> & Hi1)
    by (case_decide; [by exists s|by apply handle_received_subscriptions_ok]).
  cbn [mbind outcome_bind]. destruct (Gossipsub_score_below_threshold _ _ _).1; [by exists n, s1|]. cbn zeta.
  set (s2 := match peer_score s1 with Some _ => _ | None => s1 end). assert (gs_inv open n s2) as Hi2.
  { unfold s2. destruct (peer_score s1); [|done]. eapply gs_inv_eq, Hi1.
    apply (foldl_keeps (λ s re, Gossipsub_handle_invalid_message s p re.1 (Reject_ValidationError re.2)) core). intros s3 re. apply core_invalid. }
  clearbody s2. set (msgs := match max_messages_per_rpc _ with Some _ => _ | None => _ end).
  destruct (for_each_inv (λ s raw, Gossipsub_handle_received_message to_bytes inbound_transform o now s raw p) (gs_inv open n) msgs s2 Hi2)
    as (s3 & -> & Hi3).
  { intros s3 raw _. apply received_message_ok. }
  cbn [mbind outcome_bind]. eexists. by apply controls_ok.
Qed.

Lemma poll_ok `{!RngSpec G} open n s score_ticks heartbeats :
  gs_inv open n s → ∃ r s', Gossipsub_poll to_bytes o now s score_ticks heartbeats = Ret (r, s') ∧ gs_inv open n s'.
Proof.
  intros Hi. unfold Gossipsub_poll. destruct (events s) as [|ev rest]; [|eexists _, _; split; [done|by eapply gs_inv_eq, Hi]].
  cbn zeta. set (s1 := Nat.iter _ _ s). assert (gs_inv open n s1) as Hi1.
  { unfold s1. eapply gs_inv_eq, Hi. clear. induction score_ticks as [|k IH]; [done|]. cbn [Nat.iter nat_rect]. by rewrite core_on_score. }
  clearbody s1. destruct (for_each_inv (λ s (_ : ()), Gossipsub_heartbeat to_bytes o now s) (gs_inv open n) (replicate heartbeats ()) s1 Hi1)
    as (s2 & -> & Hi2); [|by eexists _, _].
  intros s2 _ _ Hi2. destruct (heartbeat_ok open n s2 Hi2) as (_ & s3 & _ & _ & Hr & Hi3 & _). by exists s3.
Qed.
End messages.
End operations.
End invariant.

(** ** Sequences of events *)

Section run.
Context {PeerId TopicHash MessageId FastMessageId ConnectionId IpAddr : Type}.
Context `{Countable PeerId} `{Countable TopicHash} `{Countable MessageId} `{Countable FastMessageId} `{!EqDecision ConnectionId}.
Context {PS F G : Type} `{!TopicSubscriptionFilter TopicHash F} `{!Rng G} `{!EncodedLen MessageId TopicHash}.

#[local] Abbreviation Gossipsub := (Gossipsub (PeerId := PeerId) (TopicHash := TopicHash) (MessageId := MessageId)
  (FastMessageId := FastMessageId) (ConnectionId := ConnectionId) (PS := PS) (F := F) (G := G)).
#[local] Abbreviation Orders := (Orders (PeerId := PeerId) (TopicHash := TopicHash) (MessageId := MessageId)).
#[local] Abbreviation GossipsubConfig := (GossipsubConfig (PeerId := PeerId) (TopicHash := TopicHash) (MessageId := MessageId)
  (FastMessageId := FastMessageId)).
#[local] Abbreviation Raw := (RawGossipsubMessage (TopicHash := TopicHash) (PeerId := PeerId)).
#[local] Abbreviation Scoring := (PeerScoring PeerId TopicHash MessageId IpAddr PS).
#[local] Abbreviation Connections := (gmap PeerId (list ConnectionId)).

Context (to_bytes : PeerId → list byte) (sign : PbMessage TopicHash → option (list byte)).
Context (inbound_transform : Raw → option (GossipsubMessage (TopicHash := TopicHash) (PeerId := PeerId))).
Context (outbound_transform : TopicHash → list byte → option (list byte)).
Implicit Types (s : Gossipsub) (o : Orders) (open : Connections) (sc : Scoring) (p : PeerId) (t : TopicHash) (c : ConnectionId) (ip : option IpAddr).

(** What the application, the swarm and the timers ask of the behaviour. *)
Inductive gs_op : Type :=
| OpSubscribe t
| OpUnsubscribe t
| OpPublish t (data : list byte) (seqno : N) (random_author : PeerId)
| OpReport (msg_id : MessageId) p (acceptance : MessageAcceptance)
| OpAddExplicit p
| OpRemoveExplicit p
| OpBlacklist p
| OpUnblacklist p
| OpWithPeerScore (scores : Result PS string) (thresholds : PeerScoreThresholds)
| OpSetScore (f : PS → PS)
| OpEstablished p c (is_dialer : bool) ip
| OpClosed p c ip
| OpAddressChange p ip (new : option IpAddr)
| OpPeerKind p (k : PeerKind)
| OpMessage p (rpc : GossipsubRpc MessageId TopicHash PeerId) (invalid : list (Raw * ValidationError))
| OpPoll (score_ticks heartbeats : nat).

(** An operation, with the connections of the swarm.  [OpSetScore] is a change of the
    parameters or of the application scores. *)
Definition gs_apply sc o (now : N) (op : gs_op) (st : Connections * Gossipsub) : outcome (Connections * Gossipsub) :=
  let '(open, s) := st in
  match op with
  | OpSubscribe t => '(_, s) ← Gossipsub_subscribe to_bytes o s t; Ret (open, s)
  | OpUnsubscribe t => '(_, s) ← Gossipsub_unsubscribe to_bytes o now s t; Ret (open, s)
  | OpPublish t data seqno author =>
      '(_, s) ← Gossipsub_publish to_bytes sign outbound_transform o now s t data seqno author; Ret (open, s)
  | OpReport id p acc => Ret (open, (Gossipsub_report_message_validation_result to_bytes o s id p acc).2)
  | OpAddExplicit p => Ret (open, Gossipsub_add_explicit_peer s p)
  | OpRemoveExplicit p => Ret (open, Gossipsub_remove_explicit_peer s p)
  | OpBlacklist p => Ret (open, Gossipsub_blacklist_peer s p)
  | OpUnblacklist p => Ret (open, Gossipsub_remove_blacklisted_peer s p)
  | OpWithPeerScore scores thresholds => Ret (open, (Gossipsub_with_peer_score s scores thresholds).2)
  | OpSetScore f => Ret (open, on_score f s)
  | OpEstablished p c dialer ip =>
      let cs := default [] (open !! p) in
      Ret (<[p := cs ++ [c]]> open, Gossipsub_inject_connection_established to_bytes o s p c dialer ip (length cs))
  | OpClosed p c ip =>
      s ← Gossipsub_inject_connection_closed s p c ip (length (filter (λ x, x ≠ c) (default [] (open !! p))));
      Ret (open_after open p c, s)
  | OpAddressChange p ip new => Ret (open, Gossipsub_inject_address_change s p ip new)
  | OpPeerKind p k => Ret (open, Gossipsub_inject_peer_kind s p k)
  | OpMessage p rpc invalid => s ← Gossipsub_inject_message to_bytes inbound_transform o now s p rpc invalid; Ret (open, s)
  | OpPoll score_ticks heartbeats => '(_, s) ← Gossipsub_poll to_bytes o now s score_ticks heartbeats; Ret (open, s)
  end.

(** The counters of the IWANTs that are answered do not overflow. *)
Definition iwants_fit s (ids : nat) : Prop :=
  (N.of_nat ids < 2 ^ 32)%N ∧
  ∀ id counts p k, iwant_counts (mcache s) !! id = Some counts → counts !! p = Some k → (k + N.of_nat ids < 2 ^ 32)%N.

(** What the swarm promises: connections have their own ids and are closed once, and
    messages come from connected peers.  The other conditions are about values that the
    code does not check: the backoffs in a PRUNE, the number of IWANTs, and a fanout with
    a peer that has unsubscribed since the last heartbeat. *)
Definition op_ok (cfg : GossipsubConfig) (now : N) open s (op : gs_op) : Prop :=
  match op with
  | OpSubscribe t => fanout_fresh s t
  | OpEstablished p c _ _ => c ∉ default [] (open !! p)
  | OpClosed p c _ => c ∈ default [] (open !! p)
  | OpMessage p rpc _ =>
      is_Some (open !! p) ∧ iwants_fit s (length (mjoin (iwants (control_msgs rpc)))) ∧
      Forall (λ x, remote_backoff_ok cfg now x.2) (prunes (control_msgs rpc))
  | _ => True
  end.

(** The states of a behaviour with the given configuration, whatever the scores are. *)
Inductive reachable (cfg : GossipsubConfig) : Connections → Gossipsub → Prop :=
| reach_new privacy (filter : F) (g : G) s : Gossipsub_new privacy cfg filter g = Ret (Ok s) → reachable cfg ∅ s
| reach_step sc o now op open s open' s' :
    reachable cfg open s → orders_ok o → clock_ok cfg now → op_ok cfg now open s op →
    gs_apply sc o now op (open, s) = Ret (open', s') → reachable cfg open' s'.

Lemma new_ok (cfg : GossipsubConfig) privacy (filter : F) (g : G) :
  config_ok cfg →
  ∃ r, Gossipsub_new (ConnectionId := ConnectionId) (PS := PS) privacy cfg filter g = Ret r ∧
    match r with Ok s => gs_inv cfg ∅ 0 s | Err _ => True end.
Proof.
  intros Hc. unfold Gossipsub_new. destruct (validate_config _ _); [|by eexists].
  destruct (BackoffStorage_new _ _ _) as [b|] eqn:E; cbn [mbind outcome_bind].
  - eexists. split; [done|]. destruct (BackoffStorage_new_inv _ _ _ _ E) as (Hb & He & Hi & Hsl & Hlen).
    split; [split|intros p t; set_solver].
    + done.
    + split; [intros p t; set_solver|set_solver|set_solver|done].
    + split; [exact Hb|exact Hlen|exact Hi|exact Hsl|by intros x e i; cbn; rewrite He].
    + split; cbn; [apply length_replicate|done|]. intros id counts p k Hid. by rewrite lookup_empty in Hid.
  - exfalso. revert E. pose proof (cfg_prune_fits _ Hc) as Hf. unfold backoff_fits, backoff_slots in Hf.
    unfold BackoffStorage_new, BackoffStorage_heartbeats. rewrite decide_False by apply (cfg_interval _ Hc). cbn [mbind outcome_bind].
    set (d := ((prune_backoff cfg + cfg_heartbeat_interval cfg - 1) / cfg_heartbeat_interval cfg)%N) in *. clearbody d.
    set (k := (d mod 2 ^ 64)%N) in *. clearbody k.
    rewrite usize_add_lt by lia. cbn [mbind outcome_bind]. by rewrite usize_add_lt by lia.
Qed.

Lemma gs_inv_counts (cfg : GossipsubConfig) open n n' s :
  gs_inv cfg open n s →
  (∀ id counts p k, iwant_counts (mcache s) !! id = Some counts → counts !! p = Some k → (k ≤ n')%N) → gs_inv cfg open n' s.
Proof. intros [[A B C [D1 D2 D3]] E] Hn. split; [split; [done|done|done|by split]|done]. Qed.

Lemma gs_apply_ok `{!RngSpec G} (cfg : GossipsubConfig) sc o now op open n s :
  config_ok cfg → orders_ok o → clock_ok cfg now → gs_inv cfg open n s → op_ok cfg now open s op →
  ∃ open' s' n', gs_apply sc o now op (open, s) = Ret (open', s') ∧ gs_inv cfg open' n' s'.
Proof.
  intros Hc Ho Hn Hi Hop.
  destruct op as [t|t|t data seqno author|id p acc|p|p|p|p|scores th|f|p c d ip|p c ip|p ip new|p k|p rpc invalid|k h]; cbn [gs_apply op_ok] in *.
  - destruct (subscribe_ok cfg to_bytes o Ho open n s t Hi Hop) as (r & s' & -> & Hi'). by eexists _, _, _.
  - destruct (unsubscribe_ok cfg to_bytes o now Hc Hn Ho open n s t Hi) as (r & s' & -> & Hi'). by eexists _, _, _.
  - destruct (publish_ok cfg to_bytes o now Hc sign outbound_transform open n s t data seqno author Hi) as (r & s' & -> & Hi'). by eexists _, _, _.
  - eexists _, _, n. split; [done|]. by apply report_ok.
  - eexists _, _, n. split; [done|]. by apply explicit_peer_ok.
  - eexists _, _, n. split; [done|]. by eapply gs_inv_eq, Hi.
  - eexists _, _, n. split; [done|]. by eapply gs_inv_eq, Hi.
  - eexists _, _, n. split; [done|]. by eapply gs_inv_eq, Hi.
  - eexists _, _, n. split; [done|]. unfold Gossipsub_with_peer_score. destruct scores; [|done].
    destruct (PeerScoreThresholds_validate th); [|done]. case_decide; [done|]. by eapply gs_inv_eq, Hi.
  - eexists _, _, n. split; [done|]. eapply gs_inv_eq, Hi. apply core_on_score.
  - eexists _, _, n. split; [done|]. exact (established_ok cfg to_bytes o now Hc Hn Ho open n s p c d ip Hi Hop).
  - destruct (closed_ok cfg to_bytes o now Hc Hn Ho open n s p c ip Hi Hop) as (s' & -> & Hi'). by eexists _, _, _.
  - eexists _, _, n. split; [done|]. by apply address_change_ok.
  - eexists _, _, n. split; [done|]. by apply peer_kind_ok.
  - destruct Hop as (Hp & [Hlen Hfit] & Hpr). set (ids := length _) in *.
    destruct (inject_message_ok cfg to_bytes o now Hc Hn Ho inbound_transform open (2 ^ 32 - 1 - N.of_nat ids) s p rpc invalid Hp) as (n' & s' & -> & Hi').
    + eapply gs_inv_counts; [exact Hi|]. intros id counts q k H1' H2'. specialize (Hfit id counts q k H1' H2'). lia.
    + fold ids. lia.
    + done.
    + by eexists _, _, _.
  - destruct (poll_ok cfg to_bytes o now Hc Hn Ho open n s k h Hi) as (r & s' & -> & Hi'). by eexists _, _, _.
Qed.

Lemma reachable_inv `{!RngSpec G} (cfg : GossipsubConfig) open s : config_ok cfg → reachable cfg open s → ∃ n, gs_inv cfg open n s.
Proof.
  intros Hc. induction 1 as [privacy filter g s Hr|sc o now op open s open' s' _ [n IH] Ho Hn Hop Hr].
  - destruct (new_ok cfg privacy filter g Hc) as (r & Hr' & Hi). rewrite Hr in Hr'. injection Hr' as <-. by exists 0%N.
  - destruct (gs_apply_ok cfg sc o now op open n s Hc Ho Hn IH Hop) as (open2 & s2 & n2 & Hr2 & Hi2).
    rewrite Hr in Hr2. injection Hr2 as -> ->. by exists n2.
Qed.


(** [C6] A heartbeat restores the mesh, from every state that can be reached: afterwards
    every topic has its mesh, no peer in it has a negative score, it is at most
    as large as the parameters allow and, unless all peers that may be grafted are in
    it, it has at least the lower number of peers and of outbound peers. *)
Theorem heartbeat_restores_mesh `{!RngSpec G} (cfg : GossipsubConfig) open s sc o now :
  config_ok cfg → reachable cfg open s → orders_ok o → clock_ok cfg now →
  ∃ s1 s', heartbeat_begin o now s = Ret s1 ∧ Gossipsub_heartbeat to_bytes o now s = Ret s' ∧
    dom (mesh s') = dom (mesh s) ∧
    ∀ t peers, mesh s' !! t = Some peers → maintained s1 t (cached_scores s1) peers.
Proof.
  intros Hc Hr Ho Hn. destruct (reachable_inv cfg open s Hc Hr) as [n Hi].
  destruct (heartbeat_ok cfg to_bytes o now Hc Hn Ho open n s Hi) as (s1 & s' & Hb & _ & Hh & _ & Hd & Hall). by exists s1, s'.
Qed.
End run.

(** ** An instance *)

Module instance.
#[export] Instance fixed_scores : PeerScoring nat nat nat unit (gmap nat f64) := {|
  PeerScore_score ps p := default f64_zero (ps !! p);
  PeerScore_graft ps _ _ := ps;
  PeerScore_prune ps _ _ := ps;
  PeerScore_add_penalty ps _ _ := ps;
  PeerScore_add_peer ps _ := ps;
  PeerScore_remove_peer ps _ := ps;
  PeerScore_add_ip ps _ _ := ps;
  PeerScore_remove_ip ps _ _ := ps;
  PeerScore_refresh_scores ps := ps;
  PeerScore_validate_message ps _ _ _ := ps;
  PeerScore_deliver_message ps _ _ _ := ps;
  PeerScore_reject_invalid_message ps _ _ := ps;
  PeerScore_reject_message ps _ _ _ _ := ps;
  PeerScore_duplicated_message ps _ _ _ := ps;
|}.

#[export] Instance no_rng : Rng unit := {| shuffle _ g l := (l, g); partial_shuffle _ g _ l := (l, g) |}.
#[export] Instance no_rng_spec : RngSpec unit.
Proof. by split. Qed.

#[export] Instance no_len : EncodedLen nat nat := {|
  len_rpc _ := 0%N; len_message _ := 0%N; len_subscription _ := 0%N; len_control _ := 0%N;
  len_ihave _ := 0%N; len_iwant _ := 0%N; len_graft _ := 0%N; len_prune _ := 0%N;
|}.

Definition orders : Orders (PeerId := nat) (TopicHash := nat) (MessageId := nat) :=
  mkOrders elements elements elements elements elements elements.

Lemma orders_elements : orders_ok orders.
Proof. by split. Qed.

(** Meshes of one to three peers; times in nanoseconds. *)
Definition config_with (retain : nat) (explicit_ticks opportunistic_ticks : N) :
    GossipsubConfig (PeerId := nat) (TopicHash := nat) (MessageId := nat) (FastMessageId := nat) := {|
  history_length := 5; history_gossip := 3; mesh_n := 2; mesh_n_low := 1; mesh_n_high := 3; retain_scores := retain;
  gossip_lazy := 1; gossip_factor := f64_half; cfg_heartbeat_interval := 10 ^ 9; fanout_ttl := 60 * 10 ^ 9;
  check_explicit_peers_ticks := explicit_ticks; max_transmit_size := 65536; duplicate_cache_time := 60 * 10 ^ 9;
  validate_messages := false; validation_mode := Mode_Permissive;
  message_id_fn m := N.to_nat (default 0%N (gm_sequence_number m)); fast_message_id_fn := None;
  allow_self_origin := false; do_px := false; prune_peers := 0; prune_backoff := 3 * 10 ^ 9;
  unsubscribe_backoff := 10 ^ 9; cfg_backoff_slack := 1; flood_publish := false; graft_flood_threshold := 10 * 10 ^ 9;
  mesh_outbound_min := 1; opportunistic_graft_ticks := opportunistic_ticks; opportunistic_graft_peers := 2; gossip_retransimission := 3;
  max_messages_per_rpc := None; max_ihave_length := 5000; max_ihave_messages := 10; iwant_followup_time := 3 * 10 ^ 9;
  published_message_ids_cache_time := 10 * 10 ^ 9
|}.

Definition cfg : GossipsubConfig := config_with 1 300 60.

Lemma cfg_ok : config_ok cfg.
Proof. split; vm_compute; done || lia. Qed.

#[local] Abbreviation State := (Gossipsub (PeerId := nat) (TopicHash := nat) (MessageId := nat) (FastMessageId := nat)
  (ConnectionId := nat) (PS := gmap nat f64) (F := AllowAllSubscriptionFilter) (G := unit)).
#[local] Abbreviation Op := (gs_op (PeerId := nat) (TopicHash := nat) (MessageId := nat) (ConnectionId := nat) (IpAddr := unit) (PS := gmap nat f64)).

Definition to_bytes (p : nat) : list byte := [].
Definition sign (m : PbMessage nat) : option (list byte) := Some [].
Definition inbound (raw : RawGossipsubMessage (TopicHash := nat) (PeerId := nat)) :=
  Some (mkGossipsubMessage (source raw) (data raw) (sequence_number raw) (topic raw)).
Definition outbound (t : nat) (d : list byte) := Some d.

Definition apply (now : N) (op : Op) (st : gmap nat (list nat) * State) : outcome (gmap nat (list nat) * State) :=
  gs_apply to_bytes sign inbound outbound fixed_scores orders now op st.

(** A run from a new behaviour, with the time of each operation in seconds. *)
Definition run (c : GossipsubConfig) (ops : list (N * Op)) : outcome (gmap nat (list nat) * State) :=
  r ← Gossipsub_new Auth_Anonymous c mkAllowAll ();
  match r with
  | Ok s => for_each (λ st x, apply (x.1 * 10 ^ 9) x.2 st) (∅, s) ops
  | Err _ => Panic
  end.

(** A test that implies [op_ok], for the operations of the examples. *)
Definition checked (open : gmap nat (list nat)) (s : State) (op : Op) : bool :=
  match op with
  | OpSubscribe t => bool_decide (fanout s !! t = None)
  | OpEstablished p c _ _ => bool_decide (c ∉ default [] (open !! p))
  | OpClosed p c _ => bool_decide (c ∈ default [] (open !! p))
  | OpMessage p rpc _ => bool_decide (is_Some (open !! p)) && bool_decide (iwant_counts (mcache s) = ∅) &&
      bool_decide (iwants (control_msgs rpc) = []) && bool_decide (prunes (control_msgs rpc) = [])
  | _ => true
  end.

Lemma checked_ok now open s op : checked open s op = true → op_ok cfg now open s op.
Proof.
  destruct op; cbn; try done; rewrite ?andb_true_iff, ?bool_decide_eq_true; try done.
  - intros E p. by rewrite E.
  - intros [[[Hp Hc] ->] ->]. split_and!; [done| |by constructor]. split; [done|]. intros id counts q k. by rewrite Hc.
Qed.

(** The operations of a run, each checked in its state. *)
Fixpoint checked_run (ops : list (N * Op)) (st : gmap nat (list nat) * State) : bool :=
  match ops with
  | [] => true
  | (now, op) :: ops =>
      bool_decide (now < 10 ^ 9)%N && checked st.1 st.2 op &&
      match apply (now * 10 ^ 9) op st with Ret st => checked_run ops st | Panic => false end
  end.

#[local] Abbreviation reached := (reachable (IpAddr := unit) to_bytes sign inbound outbound cfg).

Lemma reachable_steps ops open s open' s' :
  reached open s → checked_run ops (open, s) = true →
  for_each (λ st x, apply (x.1 * 10 ^ 9) x.2 st) (open, s) ops = Ret (open', s') → reached open' s'.
Proof.
  revert open s. induction ops as [|[now op] ops IH]; intros open s Hr; cbn [checked_run for_each fst snd].
  { intros _ [= -> ->]. done. }
  rewrite !andb_true_iff, bool_decide_eq_true. intros [[Hn Hc] Hrest]. destruct (apply _ op (open, s)) as [[open1 s1]|] eqn:E; [|done].
  cbn [mbind outcome_bind]. apply IH; [|done]. eapply reach_step; [exact Hr|exact orders_elements| |by apply checked_ok|exact E].
  split; unfold backoff_margin, instant_end; cbn -[N.add N.mul N.pow N.max N.lt N.le]; lia.
Qed.

Definition checked_from_new (ops : list (N * Op)) : bool :=
  match Gossipsub_new Auth_Anonymous cfg mkAllowAll () with Ret (Ok s) => checked_run ops (∅, s) | _ => false end.

Lemma reachable_run ops open s : checked_from_new ops = true → run cfg ops = Ret (open, s) → reached open s.
Proof.
  unfold checked_from_new, run. destruct (Gossipsub_new Auth_Anonymous cfg mkAllowAll ()) as [[s0|e]|] eqn:E; [|done|done].
  intros Hc Hr. eapply reachable_steps; [by eapply reach_new|exact Hc|exact Hr].
Qed.

(** Peers that connect, say what they speak and subscribe. *)
Definition connects (p : nat) : list (N * Op) := [(1%N, OpEstablished p 0 true None); (1%N, OpPeerKind p Gossipsubv1_1)].
Definition subscribes_to (p t : nat) : N * Op := (2%N, OpMessage p (mkGossipsubRpc [] [mkSubscription Subscribe t] []) []).

Definition two_peers : list (N * Op) :=
  connects 1 ++ connects 2 ++ [subscribes_to 1 7; subscribes_to 2 7; (3%N, OpSubscribe 7)].

(** The mesh of a topic after a run. *)
Definition mesh_after (r : outcome (gmap nat (list nat) * State)) (t : nat) : option (gset nat) :=
  match r with Ret (_, s) => mesh s !! t | Panic => None end.
End instance.

Import instance.


Lemma heartbeat_restores_mesh_witness :
  match run cfg two_peers with
  | Ret (open, s) =>
      ∃ s1 s', heartbeat_begin orders 0 s = Ret s1 ∧
        Gossipsub_heartbeat to_bytes orders 0 s = Ret s' ∧ dom (mesh s') = dom (mesh s) ∧
        ∀ t peers, mesh s' !! t = Some peers → maintained s1 t (cached_scores s1) peers
  | Panic => False
  end.
Proof.
  assert (checked_from_new two_peers = true) as Hc by (vm_compute; reflexivity).
  assert (mesh_after (run cfg two_peers) 7 = Some {[1; 2]}) as Hm by (vm_compute; reflexivity).
  destruct (run cfg two_peers) as [[open s]|] eqn:E; [|discriminate Hm].
  apply (heartbeat_restores_mesh to_bytes sign inbound outbound cfg open s
    fixed_scores orders 0 cfg_ok (reachable_run _ _ _ Hc E) orders_elements).
  split; vm_compute; reflexivity || discriminate.
Defined.
