(* ===== verification/GossipDelivery.v ===== *)
(** * What gossipsub asks for and what it delivers

    Two properties of the handlers of [protocols/gossipsub/src/behaviour.rs] for the
    messages of peers: how often a message is given to the application
    ([handle_received_message]), and what the behaviour asks for when it is told which
    messages others have ([handle_ihave]). *)

From S2P Require Import Prelude Float64 GossipTimeCache GossipBackoff GossipMcache GossipRpc GossipFilter GossipBehaviour GossipHeartbeat GossipMessages GossipMesh.
From stdpp Require Import fin_maps fin_sets strings.

(** ** The cache of duplicates *)

(** What an insertion at a later instant does to the cache. *)
Lemma DuplicateCache_insert_keeps {Key} `{Countable Key} (c : DuplicateCache (Key := Key)) key now now' :
  (now ≤ now')%N → tc_inv now c →
  let '(fresh, c') := DuplicateCache_insert c key now' in
  tc_inv now' c' ∧ tc_ttl c' = tc_ttl c ∧
  (∀ k e, tc_map c !! k = Some e → (now' < expires e)%N → tc_map c' !! k = Some e) ∧
  (fresh = true → tc_map c' !! key = Some (mkExpiring tt (now' + tc_ttl c)%N)) ∧
  (∀ e, tc_map c !! key = Some e → (now' < expires e)%N → fresh = false).
Proof.
  intros Hn Hi. destruct (TimeCache_remove_expired_keys_spec now now' c Hn Hi) as (Hi1 & Hm & Ht).
  unfold DuplicateCache_insert, TimeCache_entry. cbn zeta. set (c1 := TimeCache_remove_expired_keys c now') in *. clearbody c1.
  assert (∀ k e, tc_map c !! k = Some e → (now' < expires e)%N → tc_map c1 !! k = Some e) as Hkeep.
  { intros k e Hk He. apply (f_equal (λ m, m !! k)) in Hm. unfold ref_live in Hm. rewrite map_lookup_filter, !lookup_fmap, Hk in Hm.
    cbn in Hm. rewrite option_guard_True in Hm by done. cbn in Hm. apply fmap_Some in Hm as ([] & -> & Heq). destruct e. by simplify_eq/=. }
  destruct (tc_map c1 !! key) as [e0|] eqn:E; cbn.
  - split_and!; [done|done|done|done|]. done.
  - rewrite <-Ht. split_and!; [by apply tc_inv_insert|done| | |].
    + intros k e Hk He. rewrite lookup_insert_ne; [by apply Hkeep|]. intros ->. by rewrite (Hkeep _ _ Hk He) in E.
    + intros _. by rewrite lookup_insert_eq.
    + intros e Hk He. by rewrite (Hkeep _ _ Hk He) in E.
Qed.

Section delivery.
Context {PeerId TopicHash MessageId FastMessageId ConnectionId IpAddr : Type}.
Context `{Countable PeerId} `{Countable TopicHash} `{Countable MessageId} `{Countable FastMessageId} `{!EqDecision ConnectionId}.
Context {PS F G : Type} `{!PeerScoring PeerId TopicHash MessageId IpAddr PS} `{!TopicSubscriptionFilter TopicHash F} `{!Rng G}.
Context `{!EncodedLen MessageId TopicHash}.

#[local] Abbreviation Gossipsub := (Gossipsub (PeerId := PeerId) (TopicHash := TopicHash) (MessageId := MessageId)
  (FastMessageId := FastMessageId) (ConnectionId := ConnectionId) (PS := PS) (F := F) (G := G)).
#[local] Abbreviation Orders := (Orders (PeerId := PeerId) (TopicHash := TopicHash) (MessageId := MessageId)).
#[local] Abbreviation Raw := (RawGossipsubMessage (TopicHash := TopicHash) (PeerId := PeerId)).
#[local] Abbreviation Action := (Action (PeerId := PeerId) (TopicHash := TopicHash) (MessageId := MessageId) (ConnectionId := ConnectionId)).
Implicit Types (s : Gossipsub) (o : Orders) (p : PeerId).

(** ** Deliveries *)

Context (to_bytes : PeerId → list byte).
Context (inbound_transform : Raw → option (GossipsubMessage (TopicHash := TopicHash) (PeerId := PeerId))) (o : Orders).

(** The ids of the messages that the application is given. *)
Definition deliveries (ev : list Action) : list MessageId :=
  omap (λ a, match a with GenerateEvent (Event_Message _ id _) => Some id | _ => None end) ev.

(** What the deliveries depend on. *)
Definition seen s := (duplicate_cache s, deliveries (events s)).

Lemma seen_eq s c d : seen s = (c, d) → duplicate_cache s = c ∧ deliveries (events s) = d.
Proof. unfold seen. intros [= -> ->]. done. Qed.

Lemma seen_on_score f s : seen (on_score f s) = seen s.
Proof. unfold on_score. by destruct (peer_score s) as [[[]]|]. Qed.

Lemma seen_on_promises f h s : seen (on_promises f h s) = seen s.
Proof. unfold on_promises. by destruct (peer_score s) as [[[]]|]. Qed.

Lemma seen_send_message s p m : seen (Gossipsub_send_message s p m).2 = seen s.
Proof.
  unfold Gossipsub_send_message. destruct (fragment_message _ _) as [ms|]; [|done]. unfold seen, deliveries. cbn. f_equal.
  rewrite omap_app. assert (omap (λ a : Action, match a with GenerateEvent (Event_Message _ id _) => Some id | _ => None end)
    ((λ m0, Notify p Any (HandlerIn_Message m0)) <$> ms) = []) as ->; [|by rewrite app_nil_r]. by induction ms.
Qed.

Lemma seen_send_to_all s l m : seen (send_to_all s l m).2 = seen s.
Proof.
  revert s. induction l as [|p l IH]; intros s; [done|]. cbn [send_to_all].
  pose proof (seen_send_message s p m) as Hs. destruct (Gossipsub_send_message s p m) as [[] s']; [|done]. rewrite IH. exact Hs.
Qed.

Lemma seen_forward s id raw src orig : seen (Gossipsub_forward_msg to_bytes o s id raw src orig).2 = seen s.
Proof.
  unfold Gossipsub_forward_msg. set (s1 := match src with Some _ => _ | None => s end).
  assert (seen s1 = seen s) as Hc by (unfold s1; destruct src; [apply seen_on_score|done]). clearbody s1. rewrite <-Hc.
  cbn zeta. case_decide; [done|]. pose proof (seen_send_to_all s1 (hash_peers o (forward_recipients s1 raw src orig)) (message_rpc to_bytes [raw])) as Hs.
  by destruct (send_to_all _ _ _) as [[] s2].
Qed.

Lemma seen_invalid s p raw r : seen (Gossipsub_handle_invalid_message s p raw r) = seen s.
Proof. unfold Gossipsub_handle_invalid_message. destruct (_ ≫= _); [apply seen_on_promises|apply seen_on_score]. Qed.

Lemma seen_valid s id raw p : seen (Gossipsub_message_is_valid s id raw p).2 = seen s.
Proof.
  unfold Gossipsub_message_is_valid. case_decide; [apply seen_on_promises|].
  destruct (match source raw with Some src => _ | None => false end); [apply seen_invalid|].
  cbn zeta. destruct (self_published _ _ _ _); [apply seen_invalid|done].
Qed.

Lemma seen_duplicate s id t p : seen (handle_duplicate s id t p) = seen s.
Proof. unfold handle_duplicate. exact (seen_on_score _ s). Qed.

Lemma deliveries_new_message s id raw message p s' :
  handle_new_message to_bytes o s id raw message p = Ret s' →
  duplicate_cache s' = duplicate_cache s ∧
  (deliveries (events s') = deliveries (events s) ∨ deliveries (events s') = deliveries (events s) ++ [id]).
Proof.
  unfold handle_new_message. cbn zeta. set (s1 := on_promises _ _ s). assert (seen s1 = seen s) as Hs by apply seen_on_promises. clearbody s1.
  destruct (MessageCache_put _ _ _) as [[b mc]|]; [|done]. cbn [mbind outcome_bind].
  set (s2 := set_mcache mc s1). assert (seen s2 = seen s) as Hs2 by done. clearbody s2. clear Hs. case_decide.
  { intros [= <-]. injection Hs2 as -> ->. auto. }
  set (s3 := push_event _ s2). assert (seen s3 = (duplicate_cache s, deliveries (events s) ++ [id])) as Hs3.
  { injection Hs2 as E1 E2. unfold s3, seen, push_event, deliveries in *. cbn. by rewrite omap_app, E1, E2. }
  clearbody s3. intros [= <-]. set (s4 := if validate_messages (config s3) then s3 else _).
  assert (seen s4 = seen s3) as Hs4 by (unfold s4; destruct (validate_messages _); [done|apply seen_forward]).
  rewrite Hs3 in Hs4. injection Hs4 as -> ->. auto.
Qed.

(** Receiving a message inserts its id at most once into the cache, and delivers it only
    if it was not there. *)
Lemma received_message_seen now s raw p s' :
  Gossipsub_handle_received_message to_bytes inbound_transform o now s raw p = Ret s' →
  seen s' = seen s ∨
  ∃ id fresh, DuplicateCache_insert (duplicate_cache s) id now = (fresh, duplicate_cache s') ∧
    (deliveries (events s') = deliveries (events s) ∨ fresh = true ∧ deliveries (events s') = deliveries (events s) ++ [id]).
Proof.
  unfold Gossipsub_handle_received_message. cbn zeta. destruct (_ ≫= _) as [id|].
  { pose proof (seen_valid s id raw p) as Hv. destruct (Gossipsub_message_is_valid _ _ _ _) as [[valid raw'] s1]. cbn in Hv.
    intros [= <-]. left. destruct valid; [by rewrite seen_duplicate|done]. }
  destruct (inbound_transform raw) as [message|].
  2:{ intros [= <-]. left. apply seen_invalid. }
  unfold handle_transformed. cbn zeta. set (id := message_id_fn _ _). pose proof (seen_valid s id raw p) as Hv.
  destruct (Gossipsub_message_is_valid _ _ _ _) as [[valid raw'] s1]. cbn in Hv.
  destruct valid; cbn [negb]; [|intros [= <-]; by left].
  set (s2 := match fast_message_id s raw with Some _ => _ | None => s1 end). assert (seen s2 = seen s) as Hs2.
  { unfold s2. destruct (fast_message_id s raw); [|done]. by destruct (TimeCache_entry _ _ _). }
  clearbody s2. injection Hs2 as E1 E2. rewrite E1. destruct (DuplicateCache_insert _ _ _) as [fresh cache] eqn:Ei.
  set (s3 := set_duplicate_cache cache s2). assert (seen s3 = (cache, deliveries (events s))) as Hs3 by (unfold seen; by rewrite <-E2).
  clearbody s3. intros Hr. right. exists id, fresh. destruct fresh; cbn [negb] in Hr.
  - apply deliveries_new_message in Hr as [Ec Hd]. injection Hs3 as E3 E4. rewrite Ec, E3. split; [done|]. rewrite E4 in Hd. naive_solver.
  - injection Hr as <-. pose proof (seen_duplicate s3 id (gm_topic message) p) as Hd. rewrite Hs3 in Hd. apply seen_eq in Hd as [-> ->]. auto.
Qed.

(** Messages that are received one after the other, each from a peer and at an instant.
    Besides the final state, the run has the log of deliveries: the ids for which the
    application got an event, each with the instant at which the message that caused it
    was received. *)
Fixpoint receive_all s (l : list (Raw * PeerId * N)) : outcome (Gossipsub * list (MessageId * N)) :=
  match l with
  | [] => Ret (s, [])
  | (raw, p, now) :: l =>
      s1 ← Gossipsub_handle_received_message to_bytes inbound_transform o now s raw p;
      let new := drop (length (deliveries (events s))) (deliveries (events s1)) in
      '(s2, log) ← receive_all s1 l;
      Ret (s2, ((λ id, (id, now)) <$> new) ++ log)
  end.

(** The deliveries so far, with their times, are in the cache until they expire. *)
Record delivered_inv (ttl now : N) (log : list (MessageId * N)) s : Prop := {
  di_cache : tc_inv now (duplicate_cache s);
  di_ttl : tc_ttl (duplicate_cache s) = ttl;
  di_log id t : (id, t) ∈ log → (now < t + ttl)%N → ∃ e, tc_map (duplicate_cache s) !! id = Some e ∧ (t + ttl ≤ expires e)%N;
  di_spaced i j id t t' : i < j → log !! i = Some (id, t) → log !! j = Some (id, t') → (t + ttl ≤ t')%N;
}.

Lemma delivered_step ttl now now' log s raw p s' :
  (now ≤ now')%N → delivered_inv ttl now log s →
  Gossipsub_handle_received_message to_bytes inbound_transform o now' s raw p = Ret s' →
  let new := drop (length (deliveries (events s))) (deliveries (events s')) in
  delivered_inv ttl now' (log ++ ((λ id, (id, now')) <$> new)) s' ∧ deliveries (events s') = deliveries (events s) ++ new.
Proof.
  intros Hn [A B C D] Hr new. subst new. apply received_message_seen in Hr as [Hs|(id & fresh & Hins & Hd)].
  { injection Hs as E1 E2. rewrite E2, drop_all. cbn. rewrite !app_nil_r. split; [|done]. split; rewrite ?E1; [by eapply tc_inv_later|done| |done].
    intros id t Hin Ht. apply C; [done|lia]. }
  pose proof (DuplicateCache_insert_keeps (duplicate_cache s) id now now' Hn A) as Hk. rewrite Hins, B in Hk.
  destruct Hk as (Hi & Ht & Hkeep & Hfresh & Hold).
  assert (∀ id t, (id, t) ∈ log → (now' < t + ttl)%N → ∃ e, tc_map (duplicate_cache s') !! id = Some e ∧ (t + ttl ≤ expires e)%N) as Hlog.
  { intros id' t Hin Hlt. destruct (C id' t Hin) as (e & He & Hle); [lia|]. exists e. split; [|done]. apply Hkeep; [done|lia]. }
  destruct Hd as [Hd|[-> Hd]].
  { rewrite Hd, drop_all. cbn. rewrite !app_nil_r. split; [|done]. split; [done|done|done|done]. }
  rewrite Hd, drop_app_length. cbn. split; [|done]. split; [done|done| |].
  - intros id' t [Hin|Hin]%elem_of_app; [by apply Hlog|]. apply list_elem_of_singleton in Hin as [= -> ->]. intros _.
    exists (mkExpiring tt (now' + ttl)%N). split; [by apply Hfresh|cbn; lia].
  - intros i j id' t t' Hij Hli Hlj. apply lookup_app_Some in Hlj as [Hlj|[Hge Hlj]].
    { rewrite lookup_app_l in Hli by (apply lookup_lt_Some in Hlj; lia). by eapply D. }
    apply list_lookup_singleton_Some in Hlj as [Hj [= -> ->]]. rewrite lookup_app_l in Hli by lia.
    destruct (decide (t' < t + ttl)%N) as [Hlt|]; [|lia]. exfalso.
    destruct (C id' t) as (e & He & Hle); [by eapply list_elem_of_lookup_2|lia|]. by specialize (Hold e He ltac:(lia)).
Qed.

Lemma delivered_run ttl now log s l s' new :
  Sorted N.le (now :: l.*2) → delivered_inv ttl now log s → receive_all s l = Ret (s', new) →
  ∃ now', delivered_inv ttl now' (log ++ new) s' ∧ deliveries (events s') = deliveries (events s) ++ new.*1.
Proof.
  revert now log s new. induction l as [|[[raw p] now'] l IH]; intros now log s new Hs Hi; cbn [receive_all].
  { intros [= <- <-]. exists now. by rewrite !app_nil_r. }
  destruct (Gossipsub_handle_received_message _ _ _ _ _ _ _) as [s1|] eqn:E; [|done]. cbn [mbind outcome_bind]. cbn zeta.
  destruct (receive_all s1 l) as [[s2 new2]|] eqn:E2; [|done]. cbn [mbind outcome_bind]. intros [= <- <-].
  apply Sorted_inv in Hs as [Hs Hh]. apply HdRel_inv in Hh. cbn in Hs, Hh.
  destruct (delivered_step ttl now now' log s raw p s1 Hh Hi E) as [Hi1 Hd].
  set (ids := drop _ _) in *. clearbody ids.
  destruct (IH now' (log ++ ((λ id, (id, now')) <$> ids)) s1 new2) as (now2 & Hi2 & Hd2); [done|done|done|].
  exists now2. split; [by rewrite app_assoc|]. rewrite Hd2, Hd, fmap_app, <-list_fmap_compose, app_assoc. do 2 f_equal.
  symmetry. apply list_fmap_id.
Qed.

(** [C32] The application gets a message at most once in the time for which duplicates
    are remembered: whatever messages are received, from whichever peers, if no call
    panics, in a log of all deliveries with the instants at which their messages were
    received, two deliveries of the same id are at least [duplicate_cache_time] apart.
    *)
Theorem messages_delivered_once s l s' log (t0 : N) :
  tc_inv t0 (duplicate_cache s) → Sorted N.le (t0 :: l.*2) → receive_all s l = Ret (s', log) →
  deliveries (events s') = deliveries (events s) ++ log.*1 ∧
  ∀ i j id t t', i < j → log !! i = Some (id, t) → log !! j = Some (id, t') → (t + tc_ttl (duplicate_cache s) ≤ t')%N.
Proof.
  intros Hc Hs Hr. destruct (delivered_run (tc_ttl (duplicate_cache s)) t0 [] s l s' log Hs) as (now' & Hi & Hd); [|done|].
  - split; [done|done|by intros ? ? ?%elem_of_nil|]. intros i j id t t' _. by rewrite lookup_nil.
  - split; [done|]. exact (di_spaced _ _ _ _ Hi).
Qed.

End delivery.

(** ** Requests *)

Section requests.
Context {PeerId TopicHash MessageId FastMessageId ConnectionId IpAddr : Type}.
Context `{Countable PeerId} `{Countable TopicHash} `{Countable MessageId} `{Countable FastMessageId} `{!EqDecision ConnectionId}.
Context {PS F G : Type} `{!PeerScoring PeerId TopicHash MessageId IpAddr PS} `{!TopicSubscriptionFilter TopicHash F} `{!Rng G}.
Context `{!EncodedLen MessageId TopicHash}.

#[local] Abbreviation Gossipsub := (Gossipsub (PeerId := PeerId) (TopicHash := TopicHash) (MessageId := MessageId)
  (FastMessageId := FastMessageId) (ConnectionId := ConnectionId) (PS := PS) (F := F) (G := G)).
#[local] Abbreviation Orders := (Orders (PeerId := PeerId) (TopicHash := TopicHash) (MessageId := MessageId)).
Implicit Types (s : Gossipsub) (o : Orders) (p : PeerId).

Context (o : Orders).

(** The ids that are to be asked for from a peer with the next heartbeat. *)
Definition asked s p : list MessageId := mjoin (iwants (default [] (control_pool s !! p))).

Lemma iwants_app (l k : list (GossipsubControlAction MessageId TopicHash PeerId)) : iwants (l ++ k) = iwants l ++ iwants k.
Proof. apply omap_app. Qed.

(** Between two heartbeats: what was announced, and what is asked for. *)
Record requests_ok s0 (past : list (PeerId * list (TopicHash * list MessageId))) s : Prop := {
  rq_same : config s = config s0 ∧ mesh s = mesh s0 ∧ duplicate_cache s = duplicate_cache s0;
  rq_count p : length (asked s p) = default 0 (count_sent_iwant s !! p);
  rq_bound p : length (asked s p) ≤ max_ihave_length (config s0);
  rq_pending p id : id ∈ asked s p → id ∈ pending_iwant_msgs s;
  rq_nodup p : NoDup (asked s p);
  rq_once p q id : id ∈ asked s p → id ∈ asked s q → p = q;
  rq_announced p id : id ∈ asked s p → DuplicateCache_contains (duplicate_cache s0) id = false ∧
    ∃ ihave t ids, (p, ihave) ∈ past ∧ (t, ids) ∈ ihave ∧ is_Some (mesh s0 !! t) ∧ id ∈ ids;
}.

(** Some of the ids in a set, none of which is asked for yet. *)
Lemma ask_for_ok `{!RngSpec G} now s0 past s p ids :
  orders_ok o → requests_ok s0 past s →
  (∀ id, id ∈ ids → (id ∉ pending_iwant_msgs s) ∧ DuplicateCache_contains (duplicate_cache s0) id = false ∧
    ∃ ihave t l, (p, ihave) ∈ past ∧ (t, l) ∈ ihave ∧ is_Some (mesh s0 !! t) ∧ id ∈ l) →
  requests_ok s0 past (ask_for o now s p ids).
Proof.
  intros Ho [[Ec [Em Ed]] Hc Hb Hp Hn Hd Ha] Hids. unfold ask_for. cbn zeta. rewrite Ec, <-Hc. set (iasked := length (asked s p)) in *.
  set (iask := if decide _ then _ else _). assert (iask ≤ size ids ∧ iasked + iask ≤ max_ihave_length (config s0)) as [Hle Hmax].
  { specialize (Hb p). unfold iask, iasked in *. case_decide; lia. }
  clearbody iask. pose proof (partial_shuffle_perm (rng s) iask (hash_ids o ids)) as Hperm.
  destruct (partial_shuffle (rng s) iask (hash_ids o ids)) as [l g]. cbn in Hperm. rewrite (hash_ids_perm o Ho) in Hperm.
  assert (NoDup l) as Hnd by (rewrite Hperm; apply NoDup_elements).
  assert (length l = size ids) as Hlen by (by rewrite Hperm). set (l' := take iask l).
  assert (length l' = iask) as Hlen' by (unfold l'; rewrite length_take; lia).
  assert (NoDup l') as Hnd' by (eapply sublist_NoDup; [exact Hnd|apply sublist_take]).
  assert (∀ id, id ∈ l' → id ∈ ids) as Hin.
  { intros id Hid. apply elem_of_elements. rewrite <-Hperm. eapply elem_of_submseteq; [exact Hid|]. apply sublist_submseteq, sublist_take. }
  clearbody l'. set (s1 := set_control_pool _ _).
  assert (∀ q, asked s1 q = if decide (q = p) then asked s p ++ l' else asked s q) as Hasked.
  { intros q. unfold asked, s1, on_promises, control_pool_add. destruct (peer_score _) as [[[]]|]; cbn;
      (case_decide as Hq; [subst q; rewrite lookup_insert_eq|by rewrite lookup_insert_ne by done]);
      simpl; rewrite iwants_app; simpl; rewrite join_app; simpl; by rewrite app_nil_r. }
  assert (config s1 = config s ∧ mesh s1 = mesh s ∧ duplicate_cache s1 = duplicate_cache s ∧
    count_sent_iwant s1 = <[p := iasked + iask]> (count_sent_iwant s) ∧ pending_iwant_msgs s1 = list_to_set l' ∪ pending_iwant_msgs s) as (F1 & F2 & F3 & F4 & F5).
  { unfold s1, on_promises. by destruct (peer_score _) as [[[]]|]. }
  clearbody s1. assert (∀ id, id ∈ l' → ∀ q, id ∉ asked s q) as Hfresh.
  { intros id Hid q Hq. destruct (Hids id (Hin id Hid)) as [Hnot _]. by apply Hnot, (Hp q). }
  split.
  - by rewrite F1, F2, F3.
  - intros q. rewrite Hasked, F4. case_decide as Hq; [subst q; rewrite lookup_insert_eq, length_app, Hlen'; done|].
    rewrite lookup_insert_ne by done. apply Hc.
  - intros q. rewrite Hasked. case_decide; [rewrite length_app, Hlen'; exact Hmax|apply Hb].
  - intros q id. rewrite Hasked, F5, elem_of_union, elem_of_list_to_set. case_decide; [rewrite elem_of_app; naive_solver|eauto].
  - intros q. rewrite Hasked. case_decide; [|done]. apply NoDup_app. split_and!; [done| |done]. intros id Hid Hid'. by apply (Hfresh id Hid' p).
  - intros q q' id. rewrite !Hasked. case_decide; case_decide; subst; rewrite ?elem_of_app; [done| | |apply Hd].
    + intros [Hid|Hid] Hid'; [by eapply Hd|]. by destruct (Hfresh id Hid q').
    + intros Hid' [Hid|Hid]; [by eapply Hd|]. by destruct (Hfresh id Hid q).
  - intros q id. rewrite Hasked. case_decide as Hq; [subst q; rewrite elem_of_app|apply Ha]. intros [Hid|Hid]; [by apply Ha|].
    by destruct (Hids id (Hin id Hid)) as [_ ?].
Qed.

Lemma elem_of_iwant_ids s l id :
  id ∈ iwant_ids s l → wanted s id = true ∧ ∃ t ids, (t, ids) ∈ l ∧ is_Some (mesh s !! t) ∧ id ∈ ids.
Proof.
  unfold iwant_ids. rewrite elem_of_list_to_set, list_elem_of_filter, Is_true_true, list_elem_of_join. intros [Hw (ids & Hid & Hin)].
  split; [done|]. apply list_elem_of_fmap in Hin as ([t ids'] & -> & Hin). apply list_elem_of_filter in Hin as [Hm Hin]. by exists t, ids'.
Qed.

Lemma handle_ihave_ok `{!RngSpec G} now s0 past s p l :
  orders_ok o → requests_ok s0 past s → requests_ok s0 (past ++ [(p, l)]) (Gossipsub_handle_ihave o now s p l).
Proof.
  intros Ho Hr. assert (requests_ok s0 (past ++ [(p, l)]) s) as Hr'.
  { destruct Hr as [A B C D E F' I]. split; [done..|]. intros q id Hid. destruct (I q id Hid) as (Hdup & ihave & t & ids & Hin & Hrest).
    split; [done|]. exists ihave, t, ids. split; [|done]. apply elem_of_app. by left. }
  clear Hr. unfold Gossipsub_handle_ihave. destruct (Gossipsub_score_below_threshold _ _ _).1; [done|]. cbn zeta.
  set (s1 := set_count_received_ihave _ s). assert (requests_ok s0 (past ++ [(p, l)]) s1) as Hr1.
  { destruct Hr' as [A B C D E F' I]. split; [exact A|exact B|exact C|exact D|exact E|exact F'|exact I]. }
  clearbody s1. clear Hr'. case_decide; [done|].
  destruct (match count_sent_iwant s1 !! p with Some _ => _ | None => false end); [done|]. case_decide; [done|].
  apply ask_for_ok; [done|done|]. intros id (Hw & t & ids & Hin & Hm & Hid)%elem_of_iwant_ids.
  destruct (rq_same _ _ _ Hr1) as (_ & E2 & E3). unfold wanted in Hw. rewrite !andb_true_iff, !negb_true_iff, bool_decide_eq_false in Hw.
  destruct Hw as [[Hdup Hpend] _]. rewrite E2 in Hm. rewrite E3 in Hdup. split_and!; [done|done|]. exists l, t, ids.
  split_and!; [|done|done|done]. apply elem_of_app. right. by left.
Qed.

Lemma handle_ihaves_ok `{!RngSpec G} now s0 past s (l : list (PeerId * list (TopicHash * list MessageId))) :
  orders_ok o → requests_ok s0 past s → requests_ok s0 (past ++ l) (foldl (λ s x, Gossipsub_handle_ihave o now s x.1 x.2) s l).
Proof.
  intros Ho. revert past s. induction l as [|[p ihave] l IH]; intros past s Hr; cbn [foldl fst snd]; [by rewrite app_nil_r|].
  replace (past ++ (p, ihave) :: l) with ((past ++ [(p, ihave)]) ++ l) by by rewrite <-app_assoc. by apply IH, handle_ihave_ok.
Qed.

(** [C33] Between two heartbeats, whatever the peers announce, the behaviour asks each peer
    for at most [max_ihave_length] messages; it asks for no message twice, neither
    from one peer nor from two; and it only asks a peer for messages that this peer has
    announced, for a topic with a mesh, and that were not received yet. *)
Theorem requests_bounded `{!RngSpec G} now s (l : list (PeerId * list (TopicHash * list MessageId))) :
  orders_ok o → (∀ p, asked s p = []) → count_sent_iwant s = ∅ →
  let s' := foldl (λ s x, Gossipsub_handle_ihave o now s x.1 x.2) s l in
  (∀ p, length (asked s' p) ≤ max_ihave_length (config s)) ∧
  (∀ p, NoDup (asked s' p)) ∧ (∀ p q id, id ∈ asked s' p → id ∈ asked s' q → p = q) ∧
  (∀ p id, id ∈ asked s' p → DuplicateCache_contains (duplicate_cache s) id = false ∧
     ∃ ihave t ids, (p, ihave) ∈ l ∧ (t, ids) ∈ ihave ∧ is_Some (mesh s !! t) ∧ id ∈ ids).
Proof.
  intros Ho Hnil Hc s'. assert (requests_ok s [] s) as H0'.
  { split; [done|..].
    - intros p. by rewrite Hnil, Hc.
    - intros p. rewrite Hnil. cbn. lia.
    - intros p id. rewrite Hnil. by intros ?%elem_of_nil.
    - intros p. rewrite Hnil. apply NoDup_nil_2.
    - intros p q id. rewrite Hnil. by intros ?%elem_of_nil.
    - intros p id. rewrite Hnil. by intros ?%elem_of_nil. }
  destruct (handle_ihaves_ok now s [] s l Ho H0') as [_ _ A _ B C D]. done.
Qed.
End requests.

Import instance.

(** A message, seen three times. *)
Definition example_message : RawGossipsubMessage (TopicHash := nat) (PeerId := nat) := mkRaw None [] (Some 5%N) 7 None None true.
Definition example_received : list (RawGossipsubMessage (TopicHash := nat) (PeerId := nat) * nat * N) :=
  [(example_message, 1, (4 * 10 ^ 9)%N); (example_message, 2, (5 * 10 ^ 9)%N); (example_message, 2, (70 * 10 ^ 9)%N)].

Lemma messages_delivered_once_witness :
  match run cfg two_peers with
  | Ret (_, s) =>
      match receive_all to_bytes inbound orders s example_received with
      | Ret (s', log) =>
          log = [(5, (4 * 10 ^ 9)%N); (5, (70 * 10 ^ 9)%N)] ∧ deliveries (events s') = deliveries (events s) ++ [5; 5] ∧
          ∀ i j id t t', i < j → log !! i = Some (id, t) → log !! j = Some (id, t') → (t + tc_ttl (duplicate_cache s) ≤ t')%N
      | Panic => False
      end
  | Panic => False
  end.
Proof.
  assert (match run cfg two_peers with
    | Ret (_, s) => duplicate_cache s = TimeCache_new (60 * 10 ^ 9) ∧
        match receive_all to_bytes inbound orders s example_received with
        | Ret (_, log) => log = [(5, (4 * 10 ^ 9)%N); (5, (70 * 10 ^ 9)%N)]
        | Panic => False
        end
    | Panic => False end) as Hc by (vm_compute; split; reflexivity).
  destruct (run cfg two_peers) as [[open s]|]; [|exact Hc]. destruct Hc as [Hd Hr].
  destruct (receive_all to_bytes inbound orders s example_received) as [[s' log]|] eqn:E; [|exact Hr]. split; [exact Hr|].
  destruct (messages_delivered_once to_bytes inbound orders s example_received s' log 0) as [Hl Hsp];
    [rewrite Hd; apply tc_inv_new|cbn; repeat constructor; vm_compute; discriminate|exact E|].
  split; [rewrite Hl, Hr; reflexivity|exact Hsp].
Defined.

Lemma requests_bounded_witness :
  match run cfg (two_peers ++ replicate 20 (4%N, OpPoll 0 0) ++ [(5%N, OpPoll 0 1)]) with
  | Ret (_, s) =>
      let s' := foldl (λ s x, Gossipsub_handle_ihave orders 0 s x.1 x.2) s [(1, [(7, [3; 4; 3])]); (2, [(7, [4; 5]); (8, [6])])] in
      asked s' 1 = [4; 3] ∧ asked s' 2 = [5] ∧ length (asked s' 1) ≤ 5000 ∧ ∀ p, NoDup (asked s' p)
  | Panic => False
  end.
Proof.
  assert (match run cfg (two_peers ++ replicate 20 (4%N, OpPoll 0 0) ++ [(5%N, OpPoll 0 1)]) with
    | Ret (_, s) => (control_pool s = ∅ ∧ count_sent_iwant s = ∅ ∧ max_ihave_length (config s) = 5000) ∧
        let s' := foldl (λ s x, Gossipsub_handle_ihave orders 0 s x.1 x.2) s [(1, [(7, [3; 4; 3])]); (2, [(7, [4; 5]); (8, [6])])] in
        asked s' 1 = [4; 3] ∧ asked s' 2 = [5]
    | Panic => False end) as Hc by (vm_compute; split_and!; reflexivity).
  destruct (run cfg (two_peers ++ replicate 20 (4%N, OpPoll 0 0) ++ [(5%N, OpPoll 0 1)])) as [[open s]|]; [|exact Hc]. destruct Hc as [(Hp & Hs & Hm) [H1 H2]].
  destruct (requests_bounded orders 0 s [(1, [(7, [3; 4; 3])]); (2, [(7, [4; 5]); (8, [6])])] orders_elements) as (Hle & Hn & _);
    [intros p; unfold asked; by rewrite Hp|exact Hs|].
  split; [exact H1|]. split; [exact H2|]. split; [rewrite <-Hm; apply Hle|exact Hn].
Defined.
