(* ===== verification/GossipExamples.v ===== *)
(** * Runs of the gossipsub behaviour

    Short runs of the model of [protocols/gossipsub/src/behaviour.rs] that show what
    the code does where this differs from what its comments or the specification of
    the protocol say, and what the conditions of the general theorems exclude. *)

From S2P Require Import Prelude Float64 GossipTimeCache GossipBackoff GossipMcache GossipRpc GossipFilter GossipBehaviour GossipHeartbeat GossipMessages GossipMesh.
From stdpp Require Import fin_maps fin_sets strings.

Import instance.

#[local] Abbreviation State := (Gossipsub (PeerId := nat) (TopicHash := nat) (MessageId := nat) (FastMessageId := nat)
  (ConnectionId := nat) (PS := gmap nat f64) (F := AllowAllSubscriptionFilter) (G := unit)).
#[local] Abbreviation Op := (gs_op (PeerId := nat) (TopicHash := nat) (MessageId := nat) (ConnectionId := nat) (IpAddr := unit) (PS := gmap nat f64)).
#[local] Abbreviation Action := (Action (PeerId := nat) (TopicHash := nat) (MessageId := nat) (ConnectionId := nat)).

(** The notifications of handlers that a run has left in the queue. *)
Definition notifications (r : outcome (gmap nat (list nat) * State)) : list (nat * NotifyHandler) :=
  match r with
  | Ret (_, s) => omap (λ a : Action, match a with Notify p h JoinedMesh => Some (p, h) | _ => None end) (events s)
  | Panic => []
  end.

(** The messages to a peer in the queue. *)
Definition sent_to (p : nat) (r : outcome (gmap nat (list nat) * State)) : list (Rpc nat nat) :=
  match r with
  | Ret (_, s) => omap (λ a : Action, match a with Notify q _ (HandlerIn_Message m) => if decide (q = p) then Some m else None | _ => None end) (events s)
  | Panic => []
  end.

Definition connections_after (r : outcome (gmap nat (list nat) * State)) (p : nat) : option (list nat) :=
  match r with Ret (open, _) => open !! p | Panic => None end.

Definition fanout_after (r : outcome (gmap nat (list nat) * State)) (t : nat) : option (gset nat) :=
  match r with Ret (_, s) => fanout s !! t | Panic => None end.

Definition panics {A} (r : outcome A) : bool := match r with Panic => true | Ret _ => false end.

(** ** Connections *)

(** The first connection of a peer is recorded twice, so that it stays the first one
    after it is closed: the handler of a closed connection is told that the peer has
    joined the mesh, and the handler of the open connection is not. *)
Example closed_connection_notified :
  let r := run cfg (connects 1 ++ [(1%N, OpEstablished 1 5 true None); (2%N, OpClosed 1 0 None); subscribes_to 1 7; (3%N, OpSubscribe 7)]) in
  connections_after r 1 = Some [5] ∧ mesh_after r 7 = Some {[1]} ∧ notifications r = [(1, One 0)].
Proof. vm_compute. split_and!; reflexivity. Qed.

(** ** The fanout *)

Definition unsubscribes_from (p t : nat) : N * Op := (4%N, OpMessage p (mkGossipsubRpc [] [mkSubscription Unsubscribe t] []) []).
Definition publishes (t : nat) : N * Op := (3%N, OpPublish t [] 0 9).
Definition heartbeat : N * Op := (5%N, OpPoll 0 1).
(** [poll] returns one event at a time. *)
Definition polls (n : nat) : list (N * Op) := replicate n (4%N, OpPoll 0 0).

(** Without scores, the peers to refill the fanout with are those with a score below
    zero: there are none, and the fanout stays empty while a peer is there. *)
Example fanout_never_refilled :
  let r := run cfg (connects 1 ++ connects 2 ++ [subscribes_to 1 7; publishes 7; (4%N, OpClosed 1 0 None); subscribes_to 2 7] ++
    polls 20 ++ [heartbeat]) in
  fanout_after r 7 = Some ∅.
Proof. vm_compute. reflexivity. Qed.

(** A peer that unsubscribes stays in the fanout.  If it disconnects before the next
    heartbeat, it is still there when the application subscribes, and the
    behaviour panics because the peer is not connected. *)
Example stale_fanout_panics :
  let ops := connects 1 ++ [subscribes_to 1 7; publishes 7; unsubscribes_from 1 7; (4%N, OpClosed 1 0 None)] in
  fanout_after (run cfg ops) 7 = Some {[1]} ∧ panics (run cfg (ops ++ [(4%N, OpSubscribe 7)])) = true.
Proof. vm_compute. split_and!; reflexivity. Qed.

(** ** Values that are not checked *)

(** A PRUNE with a backoff that is not a time makes the receiver panic. *)
Example large_backoff_panics :
  let ops := two_peers in
  panics (run cfg ops) = false ∧
  panics (run cfg (ops ++ [(4%N, OpMessage 1 (mkGossipsubRpc [] [] [Prune 7 [] (Some (2 ^ 63)%N)]) [])])) = true.
Proof. vm_compute. split_and!; reflexivity. Qed.

Definition grafts_to (p t : nat) : N * Op := (4%N, OpMessage p (mkGossipsubRpc [] [] [Graft t]) []).

(** Scores of four peers. *)
Definition scored : Op :=
  OpWithPeerScore (Ok (f64_of_N <$> list_to_map [(1, 1%N); (2, 2%N); (3, 9%N); (4, 10%N)])) (mkThresholds f64_zero f64_zero f64_zero f64_zero (f64_of_N 100)).

(** A PRUNE with a backoff that ends just before the clock does is accepted, but with
    scores the next GRAFT of the peer makes the receiver panic: it adds
    [graft_flood_threshold] to the end of the backoff. *)
Example late_backoff_graft_panics :
  let ops := (1%N, scored) :: two_peers ++ [(4%N, OpMessage 1 (mkGossipsubRpc [] [] [Prune 7 [] (Some (2 ^ 63 - 9)%N)]) [])] in
  panics (run cfg ops) = false ∧ panics (run cfg (ops ++ [grafts_to 1 7])) = true.
Proof. vm_compute. split_and!; reflexivity. Qed.

(** Four peers in the mesh of a topic: outbound peers are accepted above the limit. *)
Definition four_peers : list (N * Op) :=
  connects 1 ++ connects 2 ++ connects 3 ++ connects 4 ++ [(3%N, OpSubscribe 7); grafts_to 1 7; grafts_to 2 7; grafts_to 3 7; grafts_to 4 7] ++ polls 30.

(** With no interval for the explicit peers, or with more scores to retain than there
    are peers, the heartbeat panics. *)
Example unchecked_config_panics :
  panics (run cfg [heartbeat]) = false ∧ panics (run cfg (four_peers ++ [heartbeat])) = false ∧
  match GossipsubConfigBuilder_build (config_with 1 0 60) with Ok c => panics (run c [heartbeat]) | Err _ => false end = true ∧
  match GossipsubConfigBuilder_build (config_with 9 300 60) with
  | Ok c => mesh_after (run c four_peers) 7 = Some {[1; 2; 3; 4]} ∧ panics (run c (four_peers ++ [heartbeat])) = true
  | Err _ => False
  end.
Proof. vm_compute. split_and!; reflexivity. Qed.

(** ** What peers are told *)

(** A peer that a heartbeat grafts to two meshes is told so by GRAFTs, but its handler is
    not: for each of the two topics, the peer is already in the other mesh. *)
Example grafted_twice_not_notified :
  let ops := [(1%N, OpSubscribe 7); (1%N, OpSubscribe 8)] ++ connects 2 ++ [subscribes_to 2 7; subscribes_to 2 8] ++ connects 1 ++
    [subscribes_to 1 7; subscribes_to 1 8; (4%N, OpClosed 2 0 None)] ++ polls 30 in
  let r := run cfg (ops ++ [heartbeat]) in
  mesh_after (run cfg ops) 7 = Some ∅ ∧ mesh_after (run cfg ops) 8 = Some ∅ ∧
  mesh_after r 7 = Some {[1]} ∧ mesh_after r 8 = Some {[1]} ∧
  length (sent_to 1 r) = 1 ∧ notifications r = [].
Proof. vm_compute. split_and!; reflexivity. Qed.

(** A generator that reverses what it is to shuffle. *)
Definition reverse_rng : Rng unit := {| shuffle _ g l := (reverse l, g); partial_shuffle _ g _ l := (reverse l, g) |}.

(** A heartbeat that removes a peer because there are too many may add it again, as its
    backoff is only recorded later, when the messages are made.  The peer then stays in
    the mesh while it gets a GRAFT and a PRUNE for the same topic, and a backoff. *)
Example pruned_and_grafted :
  match run (config_with 1 300 1) ((1%N, scored) :: four_peers) with
  | Ret (open, s) =>
      match Gossipsub_heartbeat (Rng0 := reverse_rng) to_bytes orders (5 * 10 ^ 9) s with
      | Ret s' =>
          mesh s !! 7 = Some {[1; 2; 3; 4]} ∧ mesh s' !! 7 = Some {[1; 3; 4]} ∧
          BackoffStorage_is_backoff_with_slack (backoff_storage s') 7 3 = true ∧
          (λ m, (length (graft m), length (prune m))) <$> omap control (sent_to 3 (Ret (open, s'))) = [(1, 1)]
      | Panic => False
      end
  | Panic => False
  end.
Proof. vm_compute. split_and!; reflexivity. Qed.

(** A published message is also sent to the peers that speak floodsub, or of which it is
    not known yet what they speak, even if they are not subscribed to the topic. *)
Example publish_to_unsubscribed :
  let r := run cfg (connects 1 ++ [(1%N, OpEstablished 2 0 true None); subscribes_to 1 7; publishes 7]) in
  length (sent_to 2 r) = 1.
Proof. vm_compute. reflexivity. Qed.

(** A GRAFT subscribes its sender without asking the filter of subscriptions: a limit of
    one topic does not hold. *)
Example graft_bypasses_filter :
  let limited := mkMaxCount mkAllowAll 1 10 in
  match Gossipsub_new (ConnectionId := nat) (PS := gmap nat f64) Auth_Anonymous cfg limited () with
  | Ret (Ok s) =>
      match Gossipsub_handle_graft to_bytes orders 0 (Gossipsub_inject_connection_established to_bytes orders s 1 0 true None 0) 1 [7; 8; 9] with
      | Ret s => peer_topics s !! 1 = Some {[7; 8; 9]}
      | Panic => False
      end
  | _ => False
  end.
Proof. vm_compute. reflexivity. Qed.
