(* ===== verification/RelayRateLimiter.v ===== *)
(** * The rate limiters of the relay

    [protocols/relay/src/v2/relay/rate_limiter.rs]: a token bucket per id, created
    on first use, refilled lazily through a queue of refill times, and dropped once
    it is full.  Instants and durations are numbers of nanoseconds, and
    [duration_since] is zero for an instant in the future. *)

From S2P Require Import Prelude.
From stdpp Require Import fin_maps.

Definition u32_MAX : N := 4294967295.
Definition as_micros (d : N) : N := (d `div` 1000)%N.

(** [checked_add] and [checked_sub] on [u32]. *)
Definition u32_checked_add (a b : N) : option N := if decide (a + b ≤ u32_MAX)%N then Some (a + b)%N else None.
Definition u32_checked_sub (a b : N) : option N := if decide (b ≤ a)%N then Some (a - b)%N else None.

(** [checked_div] on [u128] and [try_into] for [u32]. *)
Definition checked_div (a b : N) : option N := if decide (b = 0)%N then None else Some (a `div` b)%N.
Definition try_into_u32 (a : N) : option N := if decide (a ≤ u32_MAX)%N then Some a else None.

Section generic.
Context {Id : Type} `{Countable Id}.

Record RateLimiter : Type := mkRateLimiter {
  limit : N;
  interval : N;
  refill_schedule : list (N * Id);
  buckets : gmap Id N;
}.

(** The limit of the configuration is not zero; a zero interval panics. *)
Record RateLimiterConfig : Type := mkRateLimiterConfig {
  config_limit : positive;
  config_interval : N;
}.

Definition RateLimiter_new (config : RateLimiterConfig) : outcome RateLimiter :=
  if decide (config_interval config = 0)%N then Panic
  else Ret (mkRateLimiter (Npos (config_limit config)) (config_interval config) [] ∅).

(** The tokens that a bucket gets for the time since its last refill. *)
Definition new_tokens (duration_since interval : N) : N :=
  default u32_MAX (i ← checked_div (as_micros duration_since) (as_micros interval); try_into_u32 i).

Definition refill_turn (now : N) (l : RateLimiter) : outcome (Turn RateLimiter unit) :=
  match refill_schedule l with
  | (last_refill, id) :: schedule =>
      if decide (interval l ≤ now - last_refill)%N then
        balance ← expect (buckets l !! id);
        let duration_since := (now - last_refill)%N in
        let new_balance := default u32_MAX (u32_checked_add balance (new_tokens duration_since (interval l))) in
        if decide (new_balance < limit l)%N
        then Ret (Continue (mkRateLimiter (limit l) (interval l) (schedule ++ [(now, id)]) (<[id := new_balance]> (buckets l))))
        else Ret (Continue (mkRateLimiter (limit l) (interval l) schedule (delete id (buckets l))))
      else Ret (Return () l)
  | [] => Ret (Return () l)
  end.

(** Every bucket is refilled at most once. *)
Definition RateLimiter_refill (l : RateLimiter) (now : N) : outcome RateLimiter :=
  '(_, l) ← loop (S (length (refill_schedule l))) (refill_turn now) l; Ret l.

Definition RateLimiter_try_next (l : RateLimiter) (id : Id) (now : N) : outcome (bool * RateLimiter) :=
  l ← RateLimiter_refill l now;
  match buckets l !! id with
  | Some balance =>
      match u32_checked_sub balance 1 with
      | Some a => Ret (true, mkRateLimiter (limit l) (interval l) (refill_schedule l) (<[id := a]> (buckets l)))
      | None => Ret (false, l)
      end
  | None =>
      Ret (true, mkRateLimiter (limit l) (interval l) (refill_schedule l ++ [(now, id)]) (<[id := (limit l - 1)%N]> (buckets l)))
  end.

(** Calls of [try_next] one after the other, and their answers. *)
Fixpoint try_all (l : RateLimiter) (tries : list (Id * N)) : outcome (list bool * RateLimiter) :=
  match tries with
  | [] => Ret ([], l)
  | (id, now) :: tries =>
      '(b, l) ← RateLimiter_try_next l id now;
      '(bs, l) ← try_all l tries;
      Ret (b :: bs, l)
  end.

(** ** The invariant *)

(** The queue has every bucket once, ordered by the time of its last refill. *)
Record rl_inv (now : N) (l : RateLimiter) : Prop := {
  rl_interval : (0 < interval l)%N;
  rl_limit : (0 < limit l ≤ u32_MAX)%N;
  rl_nodup : NoDup (refill_schedule l).*2;
  rl_dom id : is_Some (buckets l !! id) ↔ id ∈ (refill_schedule l).*2;
  rl_sorted : StronglySorted (λ a b, a.1 ≤ b.1)%N (refill_schedule l);
  rl_past : Forall (λ a, a.1 ≤ now)%N (refill_schedule l);
  rl_balance id balance : buckets l !! id = Some balance → (balance < limit l)%N;
}.

Definition bucket_at (l : RateLimiter) (id : Id) (balance last : N) : Prop :=
  buckets l !! id = Some balance ∧ (last, id) ∈ refill_schedule l.

(** The balance after a refill. *)
Definition refilled (l : RateLimiter) (balance duration : N) : N :=
  default u32_MAX (u32_checked_add balance (new_tokens duration (interval l))).

Lemma bucket_at_total now l id :
  rl_inv now l → buckets l !! id = None ∨ ∃ balance last, bucket_at l id balance last.
Proof.
  intros Hi. destruct (buckets l !! id) as [balance|] eqn:E; [right|by left].
  assert (id ∈ (refill_schedule l).*2) as Hin by (apply (rl_dom _ _ Hi); eauto).
  apply list_elem_of_fmap in Hin as ([last id'] & -> & Hin). by exists balance, last.
Qed.

(** What refilling at an instant leaves of each bucket. *)
Record refill_post (now : N) (l l' : RateLimiter) : Prop := {
  rp_inv : rl_inv now l';
  rp_limit : limit l' = limit l;
  rp_interval : interval l' = interval l;
  rp_none id : buckets l !! id = None → buckets l' !! id = None;
  rp_recent id balance last : bucket_at l id balance last → (now - last < interval l)%N → bucket_at l' id balance last;
  rp_due id balance last : bucket_at l id balance last → (interval l ≤ now - last)%N →
    if decide (refilled l balance (now - last) < limit l)%N
    then bucket_at l' id (refilled l balance (now - last)) now
    else buckets l' !! id = None;
}.

Lemma refill_turn_spec now l :
  rl_inv now l →
  match refill_schedule l with
  | (last, id) :: schedule =>
      if decide (interval l ≤ now - last)%N then
        ∃ l' balance, refill_turn now l = Ret (Continue l') ∧ rl_inv now l' ∧ limit l' = limit l ∧ interval l' = interval l ∧
          buckets l !! id = Some balance ∧
          (if decide (refilled l balance (now - last) < limit l)%N
           then bucket_at l' id (refilled l balance (now - last)) now ∧ refill_schedule l' = schedule ++ [(now, id)]
           else buckets l' !! id = None ∧ refill_schedule l' = schedule) ∧
          ∀ id', id' ≠ id → buckets l' !! id' = buckets l !! id'
      else refill_turn now l = Ret (Return () l)
  | [] => refill_turn now l = Ret (Return () l)
  end.
Proof.
  intros [Hint Hlim Hnd Hdom Hsort Hpast Hbal]. unfold refill_turn.
  destruct (refill_schedule l) as [|[last id] schedule] eqn:Es; [done|]. case_decide as Hd; [|done].
  destruct (proj2 (Hdom id)) as [balance Hb]; [rewrite fmap_cons; by left|].
  rewrite fmap_cons in Hnd. apply NoDup_cons in Hnd as [Hnin Hnd]. simpl in Hnin.
  apply StronglySorted_inv in Hsort as [Hsort _]. apply Forall_cons in Hpast as [_ Hpast].
  rewrite Hb. cbn [expect mbind outcome_bind]. fold (refilled l balance (now - last)).
  destruct (decide (refilled l balance (now - last) < limit l)%N) as [Hlt|Hge]; eexists _, balance; (split; [reflexivity|]).
  - rewrite decide_True by done. split_and!; [split|done|done|done|split|done|]; cbn [limit interval buckets refill_schedule]; try done.
    + rewrite fmap_app. simpl. apply NoDup_app. split_and!; [done| |apply NoDup_singleton]. set_solver.
    + intros id'. rewrite fmap_app. simpl. specialize (Hdom id'). rewrite fmap_cons in Hdom. simpl in Hdom.
      destruct (decide (id' = id)) as [->|]; [rewrite lookup_insert_eq; set_solver|]. rewrite lookup_insert_ne by done. set_solver.
    + apply StronglySorted_app_2; [|done|by repeat constructor].
      intros x y Hx ->%list_elem_of_singleton. rewrite Forall_forall in Hpast. by apply Hpast.
    + apply Forall_app. split; [done|]. by repeat constructor.
    + intros id' b [[<- <-]|[_ Hb']]%lookup_insert_Some; [done|by eapply Hbal].
    + by rewrite lookup_insert_eq.
    + set_solver.
    + intros id' Hne. by rewrite lookup_insert_ne.
  - rewrite decide_False by done. split_and!; [split|done|done|done| |done|]; cbn [limit interval buckets refill_schedule]; try done.
    + intros id'. specialize (Hdom id'). rewrite fmap_cons in Hdom. simpl in Hdom.
      destruct (decide (id' = id)) as [->|]; [rewrite lookup_delete_eq; split; [by intros []|done]|].
      rewrite lookup_delete_ne by done. set_solver.
    + intros id' b [_ Hb']%lookup_delete_Some. by eapply Hbal.
    + by rewrite lookup_delete_eq.
    + intros id' Hne. by rewrite lookup_delete_ne.
Qed.

Definition due (now interval : N) (a : N * Id) : Prop := (interval ≤ now - a.1)%N.
#[local] Instance due_dec now interval a : Decision (due now interval a).
Proof. unfold due. apply _. Defined.

Lemma bucket_at_unique now l id b1 t1 b2 t2 : rl_inv now l → bucket_at l id b1 t1 → bucket_at l id b2 t2 → b1 = b2 ∧ t1 = t2.
Proof.
  intros Hi [H1 Hin1] [H2 Hin2]. split; [congruence|]. pose proof (rl_nodup _ _ Hi) as Hnd.
  apply list_elem_of_lookup_1 in Hin1 as [i Hi1], Hin2 as [j Hi2].
  assert (i = j) as ->. { eapply (NoDup_lookup _ _ _ id Hnd); rewrite list_lookup_fmap, ?Hi1, ?Hi2; done. }
  congruence.
Qed.

Lemma refill_post_refl now l :
  rl_inv now l → (∀ id b t, bucket_at l id b t → (now - t < interval l)%N) → refill_post now l l.
Proof.
  intros Hi Hr. split; try done. intros id b t Hb Hd. specialize (Hr id b t Hb). lia.
Qed.

Lemma refill_post_step now l l' l'' id balance last schedule :
  rl_inv now l → limit l' = limit l → interval l' = interval l →
  refill_schedule l = (last, id) :: schedule → (interval l ≤ now - last)%N → buckets l !! id = Some balance →
  (if decide (refilled l balance (now - last) < limit l)%N
   then bucket_at l' id (refilled l balance (now - last)) now ∧ refill_schedule l' = schedule ++ [(now, id)]
   else buckets l' !! id = None ∧ refill_schedule l' = schedule) →
  (∀ id', id' ≠ id → buckets l' !! id' = buckets l !! id') →
  refill_post now l' l'' → refill_post now l l''.
Proof.
  intros Hi Hlim Hint Es Hd Hb Hid Hother [Hi'' Hlim'' Hint'' Hnone Hrec Hdue].
  assert (∀ id' b t, id' ≠ id → bucket_at l id' b t → bucket_at l' id' b t) as Hkeep.
  { intros id' b t Hne [Hb' Hin]. split; [by rewrite Hother|]. rewrite Es in Hin.
    apply elem_of_cons in Hin as [[= _ ->]|Hin]; [done|]. case_decide; destruct Hid as [_ ->]; set_solver. }
  assert (∀ b t, bucket_at l id b t → b = balance ∧ t = last) as Huniq.
  { intros b t Hbt. apply (bucket_at_unique now l id); [done|done|]. split; [done|]. rewrite Es. by left. }
  pose proof (rl_interval _ _ Hi) as Hpos. split; [done|congruence|congruence| | |].
  - intros id' Hn. destruct (decide (id' = id)) as [->|]; [congruence|]. apply Hnone. by rewrite Hother.
  - intros id' b t Hbt Hlt. destruct (decide (id' = id)) as [->|].
    + destruct (Huniq b t Hbt) as [-> ->]. lia.
    + apply Hrec; [by apply Hkeep|by rewrite Hint].
  - intros id' b t Hbt Hle. destruct (decide (id' = id)) as [->|].
    + destruct (Huniq b t Hbt) as [-> ->]. case_decide; destruct Hid as [Hid _]; [|by apply Hnone].
      apply Hrec; [done|]. rewrite Hint. lia.
    + specialize (Hdue id' b t (Hkeep _ _ _ ltac:(done) Hbt)). unfold refilled in *. rewrite Hint, Hlim in Hdue. by apply Hdue.
Qed.

Lemma refill_spec now l :
  rl_inv now l → ∃ l', RateLimiter_refill l now = Ret l' ∧ refill_post now l l'.
Proof.
  intros Hinv. unfold RateLimiter_refill.
  edestruct (loop_total (refill_turn now) (rl_inv now) (λ l _ l', refill_post now l l')
    (λ l, length (filter (due now (interval l)) (refill_schedule l)))) as ([] & l' & Hl & Hp); [|exact Hinv| |].
  2:{ apply Nat.lt_succ_r, length_filter. }
  2:{ exists l'. by rewrite Hl. }
  clear l Hinv. intros l Hi. pose proof (refill_turn_spec now l Hi) as Ht.
  destruct (refill_schedule l) as [|[last id] schedule] eqn:Es; [|destruct (decide (interval l ≤ now - last)%N) as [Hd|Hd]].
  - eexists. split; [exact Ht|]. apply refill_post_refl; [done|]. intros id b t [_ Hin]. rewrite Es in Hin. by apply elem_of_nil in Hin.
  - destruct Ht as (l' & balance & Ht & Hi' & Hlim & Hint & Hb & Hid & Hother). eexists. split; [exact Ht|].
    split; [done|]. split.
    + rewrite (filter_cons_True (due now (interval l))) by exact Hd. rewrite Hint.
      destruct (decide (refilled l balance (now - last) < limit l)%N); destruct Hid as [_ ->]; [|simpl; lia].
      rewrite filter_app, (filter_cons_False _ (now, id)) by (unfold due; simpl; pose proof (rl_interval _ _ Hi); lia).
      rewrite length_app. simpl. lia.
    + intros _ l'' Hp. by apply (refill_post_step now l l' l'' id balance last schedule).
  - eexists. split; [exact Ht|]. apply refill_post_refl; [done|]. intros id' b t [_ Hin]. rewrite Es in Hin.
    pose proof (rl_sorted _ _ Hi) as Hs. rewrite Es in Hs. apply StronglySorted_inv in Hs as [_ Hs].
    apply elem_of_cons in Hin as [[= -> ->]|Hin]; [lia|]. rewrite Forall_forall in Hs. specialize (Hs _ Hin). simpl in Hs. lia.
Qed.

(** ** Tokens *)

(** Tokens are counted in whole microseconds: the interval without its last
    nanoseconds. *)
Definition whole_micros (i : N) : N := (1000 * as_micros i)%N.

Lemma whole_micros_mod i : i = (whole_micros i + i mod 1000)%N.
Proof. apply N.div_mod. done. Qed.

Lemma whole_micros_pos i : (1000 ≤ i)%N → (0 < whole_micros i)%N.
Proof. unfold whole_micros, as_micros. intros Hi. pose proof (N.div_le_lower_bound i 1000 1 ltac:(done) ltac:(lia)). lia. Qed.

Lemma new_tokens_le d i : (1000 ≤ i)%N → (new_tokens d i * whole_micros i ≤ d)%N.
Proof.
  intros Hi%whole_micros_pos. unfold new_tokens, checked_div, whole_micros, try_into_u32, as_micros in *.
  set (k := (i `div` 1000)%N) in *. rewrite decide_False by lia. simpl.
  assert ((d `div` 1000) `div` k * (1000 * k) ≤ d)%N as Hq.
  { pose proof (N.Div0.mul_div_le (d `div` 1000) k). pose proof (N.Div0.mul_div_le d 1000). nia. }
  case_decide; simpl; [done|]. etransitivity; [|exact Hq]. apply N.mul_le_mono_r. unfold u32_MAX in *. lia.
Qed.

Lemma new_tokens_pos d i : (0 < i ≤ d)%N → (1 ≤ new_tokens d i)%N.
Proof.
  intros [Hi Hd]. unfold new_tokens, checked_div, as_micros, try_into_u32. case_decide as Hz; [done|]. simpl.
  assert (1 ≤ (d `div` 1000) `div` (i `div` 1000))%N as Hq.
  { apply N.div_le_lower_bound; [done|]. rewrite N.mul_1_r. by apply N.Div0.div_le_mono. }
  by case_decide.
Qed.

Lemma refilled_lt now l balance d :
  rl_inv now l → (refilled l balance d < limit l)%N → refilled l balance d = (balance + new_tokens d (interval l))%N.
Proof.
  intros Hi Hlt. pose proof (rl_limit _ _ Hi). unfold refilled, u32_checked_add in *. case_decide; [done|]. simpl in *. lia.
Qed.

Lemma refilled_ge l balance d : (refilled l balance d ≤ balance + new_tokens d (interval l))%N.
Proof. unfold refilled, u32_checked_add. case_decide; simpl; lia. Qed.

(** The nanoseconds for which the tokens of an id stand, each for an interval in
    whole microseconds. *)
Definition token (l : RateLimiter) : N := whole_micros (interval l).

Definition potential (l : RateLimiter) (id : Id) (now x : N) : Prop :=
  (buckets l !! id = None ∧ x = (limit l * token l)%N) ∨
  (∃ balance last, bucket_at l id balance last ∧ x = (balance * token l + (now - last))%N).

(** The id has a token, or gets one an interval after [t]. *)
Definition credit (l : RateLimiter) (id : Id) (t : N) : Prop :=
  buckets l !! id = None ∨ ∃ balance last, bucket_at l id balance last ∧ (1 ≤ balance ∨ last ≤ t)%N.

Lemma rl_inv_later now now' l : (now ≤ now')%N → rl_inv now l → rl_inv now' l.
Proof. intros Hle [? ? ? ? ? Hp ?]. split; try done. eapply Forall_impl; [exact Hp|]. simpl. lia. Qed.

Lemma potential_later now now' l id x :
  (now ≤ now')%N → potential l id now x → ∃ x', potential l id now' x' ∧ (x' ≤ x + (now' - now))%N.
Proof.
  intros Hle [[Hn ->]|(b & t & Hb & ->)]; [eexists; split; [by left|lia]|].
  eexists. split; [right; by exists b, t|lia].
Qed.

Lemma refill_potential now l l' id x :
  (1000 ≤ interval l)%N → rl_inv now l → refill_post now l l' → potential l id now x →
  ∃ x', potential l' id now x' ∧ (x' ≤ x)%N ∧ (x' ≤ limit l * token l + interval l mod 1000)%N.
Proof.
  intros Hm Hi [Hi' Hlim Hint Hnone Hrec Hdue] Hx. assert (token l' = token l) as Htk by (unfold token; by rewrite Hint).
  destruct Hx as [[Hn ->]|(b & t & Hb & ->)].
  { exists (limit l * token l)%N. split_and!; [|done|apply N.le_add_r]. left. rewrite Hlim, Htk. auto. }
  pose proof (rl_balance _ _ Hi id b (proj1 Hb)) as Hbal. pose proof (rl_limit _ _ Hi) as Hl.
  destruct (decide (interval l ≤ now - t)%N) as [Hd|Hd].
  - specialize (Hdue id b t Hb Hd). pose proof (new_tokens_le (now - t) (interval l) Hm) as Htok. fold (token l) in Htok.
    set (k := new_tokens (now - t) (interval l)) in *. case_decide as Hlt.
    + exists (refilled l b (now - t) * token l)%N. pose proof (refilled_lt now l b _ Hi Hlt) as Er. fold k in Er.
      split_and!; [right; exists (refilled l b (now - t)), now; rewrite Htk; split; [done|lia]|rewrite Er; lia|].
      etransitivity; [apply N.mul_le_mono_r; apply N.lt_le_incl, Hlt|apply N.le_add_r].
    + exists (limit l * token l)%N. split_and!; [left; rewrite Hlim, Htk; auto| |apply N.le_add_r].
      pose proof (refilled_ge l b (now - t)) as Er. fold k in Er.
      assert (limit l * token l ≤ (b + k) * token l)%N by (apply N.mul_le_mono_r; lia). lia.
  - exists (b * token l + (now - t))%N. split_and!; [right; exists b, t; rewrite Htk; split; [apply Hrec; [done|lia]|done]|done|].
    assert ((b + 1) * token l ≤ limit l * token l)%N by (apply N.mul_le_mono_r; lia).
    pose proof (whole_micros_mod (interval l)). unfold token in *. lia.
Qed.

Lemma refill_credit now l l' id t :
  rl_inv now l → refill_post now l l' → credit l id t →
  credit l' id t ∧ ((t + interval l ≤ now)%N → buckets l' !! id ≠ Some 0%N).
Proof.
  intros Hi [Hi' Hlim Hint Hnone Hrec Hdue] [Hn|(b & s & Hb & Hc)].
  { split; [left; auto|]. rewrite (Hnone _ Hn). done. }
  pose proof (rl_interval _ _ Hi) as Hpos.
  destruct (decide (interval l ≤ now - s)%N) as [Hd|Hd].
  - specialize (Hdue id b s Hb Hd). case_decide as Hlt; [|split; [by left|by rewrite Hdue]].
    assert (1 ≤ refilled l b (now - s))%N as Hone.
    { rewrite (refilled_lt now) by done. pose proof (new_tokens_pos (now - s) (interval l)). lia. }
    split; [right; eauto|]. intros _. rewrite (proj1 Hdue). intros [= E]. lia.
  - assert (bucket_at l' id b s) as Hb' by (apply Hrec; [done|lia]).
    split; [right; eauto|]. intros Ht. rewrite (proj1 Hb'). intros [= ->]. lia.
Qed.

(** Changing the bucket of one id does not concern the others. *)
Lemma other_bucket l1 l2 id id' :
  limit l2 = limit l1 → interval l2 = interval l1 → id' ≠ id →
  buckets l2 !! id' = buckets l1 !! id' → (∀ t, (t, id') ∈ refill_schedule l2 ↔ (t, id') ∈ refill_schedule l1) →
  (∀ now x, potential l1 id' now x → potential l2 id' now x) ∧ (∀ t, credit l1 id' t → credit l2 id' t).
Proof.
  intros Hlim Hint Hne Hb Hs. unfold potential, credit, bucket_at, token. rewrite Hlim, Hint, Hb. setoid_rewrite Hs. done.
Qed.

(** What a try does to the tokens of every id. *)
Record try_post (now now' : N) (l l' : RateLimiter) (id : Id) (b : bool) : Prop := {
  tp_inv : rl_inv now' l';
  tp_limit : limit l' = limit l;
  tp_interval : interval l' = interval l;
  tp_potential id' x : (1000 ≤ interval l)%N → potential l id' now x →
    ∃ x', potential l' id' now' x' ∧
      let cost := if decide (id' = id ∧ b = true) then token l else 0%N in
      (cost + x' ≤ x + (now' - now))%N ∧ (cost + x' ≤ limit l * token l + interval l mod 1000)%N;
  tp_credit id' t : id' ≠ id → credit l id' t → credit l' id' t;
  tp_refused : b = false → credit l' id now';
  tp_granted t : credit l id t → (t + interval l ≤ now')%N → b = true;
}.

(** The tokens after a refill, compared to those at an earlier instant. *)
Lemma refilled_tokens now now' l l1 :
  (now ≤ now')%N → rl_inv now l → refill_post now' l l1 →
  (∀ id x, (1000 ≤ interval l)%N → potential l id now x →
    ∃ x', potential l1 id now' x' ∧ (x' ≤ x + (now' - now))%N ∧ (x' ≤ limit l * token l + interval l mod 1000)%N) ∧
  (∀ id t, credit l id t → credit l1 id t ∧ ((t + interval l ≤ now')%N → buckets l1 !! id ≠ Some 0%N)).
Proof.
  intros Hle Hi Hp. apply (rl_inv_later _ now') in Hi; [|done]. split.
  - intros id x Hm Hx. destruct (potential_later now now' l id x Hle Hx) as (x1 & Hx1 & Hle1).
    destruct (refill_potential now' l l1 id x1 Hm Hi Hp Hx1) as (x2 & Hx2 & Hle2 & Hcap). exists x2. split_and!; [done|lia|done].
  - intros id t. by apply refill_credit.
Qed.

(** A try that is granted after the refill, at the cost of one token. *)
Lemma granted_post now now' l l1 l2 id :
  (now ≤ now')%N → rl_inv now l → refill_post now' l l1 → rl_inv now' l2 → limit l2 = limit l1 → interval l2 = interval l1 →
  (∀ id', id' ≠ id → buckets l2 !! id' = buckets l1 !! id' ∧
    ∀ t, (t, id') ∈ refill_schedule l2 ↔ (t, id') ∈ refill_schedule l1) →
  (∀ x, potential l1 id now' x → ∃ x', potential l2 id now' x' ∧ (token l1 + x' ≤ x)%N) →
  try_post now now' l l2 id true.
Proof.
  intros Hle Hi Hp Hi2 Hlim2 Hint2 Hsame Hcost. destruct (refilled_tokens now now' l l1 Hle Hi Hp) as [Hpot Hcr].
  destruct Hp as [Hi1 Hlim Hint _ _ _].
  assert (∀ id', id' ≠ id → (∀ now x, potential l1 id' now x → potential l2 id' now x) ∧ (∀ t, credit l1 id' t → credit l2 id' t)) as Ho.
  { intros id' Hne. destruct (Hsame id' Hne). by apply (other_bucket l1 l2 id id'). }
  split; [done|congruence|congruence| |naive_solver|done|done].
  intros id' x Hm Hx. destruct (Hpot id' x Hm Hx) as (x' & Hx' & Hle' & Hcap). destruct (decide (id' = id)) as [->|Hne].
  - destruct (Hcost x' Hx') as (x'' & Hx'' & Hc). exists x''. split; [done|]. simpl.
    rewrite decide_True by done. unfold token in Hc at 1. rewrite Hint in Hc. fold (token l) in Hc. lia.
  - exists x'. split; [by apply Ho|]. simpl. rewrite decide_False by naive_solver. lia.
Qed.

(** A first try makes a bucket with all tokens but one. *)
Lemma create_bucket now l id :
  rl_inv now l → buckets l !! id = None →
  let l' := mkRateLimiter (limit l) (interval l) (refill_schedule l ++ [(now, id)]) (<[id := (limit l - 1)%N]> (buckets l)) in
  rl_inv now l' ∧ ∀ x, potential l id now x → ∃ x', potential l' id now x' ∧ (token l + x' ≤ x)%N.
Proof.
  intros [Hint Hl Hnd Hdom Hsort Hpast Hbal] E l'.
  assert (id ∉ (refill_schedule l).*2) as Hnin by (rewrite <-Hdom, E; by intros []). split.
  - split; simpl; [done|done| | | | |].
    + rewrite fmap_app. apply NoDup_app. split_and!; [done|set_solver|apply NoDup_singleton].
    + intros id'. rewrite fmap_app, elem_of_app, <-Hdom. simpl. destruct (decide (id' = id)) as [->|].
      * rewrite lookup_insert_eq. split; [|eauto]. right. by left.
      * rewrite lookup_insert_ne by done. set_solver.
    + apply StronglySorted_app_2; [|done|by repeat constructor]. intros x y Hx ->%list_elem_of_singleton.
      rewrite Forall_forall in Hpast. by apply Hpast.
    + apply Forall_app. split; [done|by repeat constructor].
    + intros id' b [[<- <-]|[_ Hb']]%lookup_insert_Some; [lia|by eapply Hbal].
  - intros x [[_ ->]|(b & t & [Hb _] & _)]; [|congruence]. exists ((limit l - 1) * token l)%N. split.
    + right. exists (limit l - 1)%N, now. split; [|by rewrite N.sub_diag, N.add_0_r]. split; simpl; [by rewrite lookup_insert_eq|set_solver].
    + assert (1 * token l ≤ limit l * token l)%N by (apply N.mul_le_mono_r; lia). rewrite N.mul_sub_distr_r. lia.
Qed.

Lemma take_token now l id balance last :
  rl_inv now l → bucket_at l id balance last → (1 ≤ balance)%N →
  let l' := mkRateLimiter (limit l) (interval l) (refill_schedule l) (<[id := (balance - 1)%N]> (buckets l)) in
  rl_inv now l' ∧ ∀ x, potential l id now x → ∃ x', potential l' id now x' ∧ (token l + x' ≤ x)%N.
Proof.
  intros Hi Hb Hone l'. pose proof Hi as [Hint Hl Hnd Hdom Hsort Hpast Hbal]. split.
  - split; simpl; try done.
    + intros id'. destruct (decide (id' = id)) as [->|]; [|by rewrite lookup_insert_ne].
      rewrite lookup_insert_eq, <-Hdom, (proj1 Hb). split; eauto.
    + intros id' b [[<- <-]|[_ Hb']]%lookup_insert_Some; [pose proof (Hbal _ _ (proj1 Hb)); lia|by eapply Hbal].
  - intros x [[Hn _]|(b & t & Hbt & ->)]; [rewrite (proj1 Hb) in Hn; done|].
    destruct (bucket_at_unique now l id b t balance last Hi Hbt Hb) as [-> ->].
    exists ((balance - 1) * token l + (now - last))%N. split.
    + right. exists (balance - 1)%N, last. split; [|done]. split; simpl; [by rewrite lookup_insert_eq|apply Hb].
    + assert (1 * token l ≤ balance * token l)%N by (apply N.mul_le_mono_r; lia). rewrite N.mul_sub_distr_r. lia.
Qed.

Lemma try_next_spec now now' l id :
  (now ≤ now')%N → rl_inv now l →
  ∃ b l', RateLimiter_try_next l id now' = Ret (b, l') ∧ try_post now now' l l' id b.
Proof.
  intros Hle Hi. destruct (refill_spec now' l (rl_inv_later now now' l Hle Hi)) as (l1 & Hr & Hp).
  pose proof (rp_inv _ _ _ Hp) as Hi1. unfold RateLimiter_try_next. rewrite Hr. cbn [mbind outcome_bind].
  destruct (bucket_at_total now' l1 id Hi1) as [E|(balance & last & Hb)].
  - rewrite E. eexists true, _. split; [done|]. destruct (create_bucket now' l1 id Hi1 E) as [Hi2 Hc].
    apply (granted_post now now' l l1); try done. intros id' Hne. simpl. rewrite lookup_insert_ne by done. set_solver.
  - rewrite (proj1 Hb). unfold u32_checked_sub. case_decide as Hz.
    + eexists true, _. split; [done|]. destruct (take_token now' l1 id balance last Hi1 Hb Hz) as [Hi2 Hc].
      apply (granted_post now now' l l1); try done. intros id' Hne. simpl. by rewrite lookup_insert_ne by done.
    + exists false, l1. assert (balance = 0)%N as -> by lia. split; [done|].
      destruct (refilled_tokens now now' l l1 Hle Hi Hp) as [Hpot Hcr]. destruct Hp as [_ Hlim Hint _ _ _].
      split; [done|done|done| | | |].
      * intros id' x Hm Hx. destruct (Hpot id' x Hm Hx) as (x' & Hx' & Hle' & Hcap). exists x'. split; [done|].
        simpl. rewrite decide_False by (by intros []). lia.
      * intros id' t _ Hc. by apply Hcr.
      * intros _. right. exists 0%N, last. split; [done|]. right. pose proof (rl_past _ _ Hi1) as Hpast.
        rewrite Forall_forall in Hpast. by apply (Hpast _ (proj2 Hb)).
      * intros t Hc Ht. exfalso. destruct (Hcr id t Hc) as [_ Hne]. by apply (Hne Ht), Hb.
Qed.

(** ** Sequences of tries *)

Lemma potential_total now l id : rl_inv now l → ∃ x, potential l id now x.
Proof.
  intros Hi. destruct (bucket_at_total now l id Hi) as [Hn|(b & t & Hb)]; eexists; [by left|right; eauto].
Qed.


Lemma try_all_app l tries1 tries2 :
  try_all l (tries1 ++ tries2) =
    ('(bs1, l) ← try_all l tries1; '(bs2, l) ← try_all l tries2; Ret (bs1 ++ bs2, l)).
Proof.
  revert l. induction tries1 as [|[id now] tries1 IH]; intros l; simpl; [by destruct (try_all l tries2) as [[]|]|].
  destruct (RateLimiter_try_next l id now) as [[b l1]|]; [|done]. simpl. rewrite IH.
  destruct (try_all l1 tries1) as [[bs1 l2]|]; [|done]. simpl. by destruct (try_all l2 tries2) as [[]|].
Qed.

Lemma Sorted_le_cons_inv (a b : N) l : Sorted N.le (a :: b :: l) → (a ≤ b)%N ∧ Sorted N.le (b :: l).
Proof. intros [Hs Hh]%Sorted_inv. by apply HdRel_inv in Hh. Qed.

(** The tries of an id that were granted. *)
Definition granted (id : Id) (answers : list (Id * N * bool)) : nat :=
  length (filter (λ a, a.1.1 = id ∧ a.2 = true) answers).

Lemma try_all_spec now now' l tries :
  rl_inv now l → Sorted N.le (now :: tries.*2) → Forall (λ t, t.2 ≤ now')%N tries → (now ≤ now')%N →
  ∃ bs l', try_all l tries = Ret (bs, l') ∧ rl_inv now' l' ∧ limit l' = limit l ∧ interval l' = interval l ∧ length bs = length tries ∧
    (∀ id t, Forall (λ p, p.1 ≠ id) tries → credit l id t → credit l' id t) ∧
    (∀ id x, (1000 ≤ interval l)%N → potential l id now x →
      (N.of_nat (granted id (zip tries bs)) * token l ≤ x + (now' - now))%N).
Proof.
  revert now l. induction tries as [|[id t] tries IH]; intros now l Hi Hs Ht Hle.
  { exists [], l. split_and!; try done; [by eapply rl_inv_later|]. intros id x _ _. unfold granted. simpl. lia. }
  simpl in Hs. apply Sorted_le_cons_inv in Hs as [Hnt Hs]. apply Forall_cons in Ht as [Htn Ht]. simpl in Htn.
  destruct (try_next_spec now t l id Hnt Hi) as (b & l1 & Hb & Hp). destruct Hp as [Hi1 Hlim1 Hint1 Hpot1 Hcr1 _ _].
  destruct (IH t l1 Hi1 Hs Ht Htn) as (bs & l2 & Hr & Hi2 & Hlim2 & Hint2 & Hlen & Hcr2 & Hpot2).
  exists (b :: bs), l2. simpl. rewrite Hb. cbn [mbind outcome_bind]. rewrite Hr. split_and!; [done|done|congruence|congruence| | |].
  - simpl. congruence.
  - intros id' u [Hne Hall]%Forall_cons Hc. apply Hcr2; [done|]. by apply Hcr1.
  - intros id' x Hm Hx. destruct (Hpot1 id' x Hm Hx) as (x' & Hx' & Hc & _).
    unfold token in Hpot2. rewrite Hint1 in Hpot2. fold (token l) in Hpot2. specialize (Hpot2 id' x' Hm Hx').
    unfold granted in *. rewrite filter_cons. simpl. destruct (decide (id = id' ∧ b = true)) as [[-> ->]|Hd].
    + rewrite decide_True in Hc by done. simpl. rewrite Nat2N.inj_succ, N.mul_succ_l. lia.
    + rewrite decide_False in Hc by naive_solver. lia.
Qed.

Lemma rl_inv_new config l :
  RateLimiter_new config = Ret l → (Npos (config_limit config) ≤ u32_MAX)%N →
  rl_inv 0 l ∧ limit l = Npos (config_limit config) ∧ interval l = config_interval config.
Proof.
  unfold RateLimiter_new. case_decide as Hz; [done|]. intros [= <-] Hl. split; [|done].
  split; simpl; [lia|lia|constructor| |constructor|constructor|done].
  intros id. rewrite lookup_empty. split; [by intros []|by intros []%elem_of_nil].
Qed.

Lemma Sorted_zero (l : list N) : Sorted N.le l → Sorted N.le (0%N :: l).
Proof. intros Hs. constructor; [done|]. destruct l; constructor. apply N.le_0_l. Qed.

Lemma Sorted_le_app_inv (l1 l2 : list N) (a b : N) :
  Sorted N.le (a :: l1 ++ b :: l2) → Forall (λ x, x ≤ b)%N (a :: l1) ∧ Sorted N.le (a :: l1) ∧ Sorted N.le (b :: l2).
Proof.
  intros Hs. apply Sorted_StronglySorted in Hs; [|intros x y z; lia]. rewrite app_comm_cons in Hs.
  apply StronglySorted_app in Hs as (Hrel & H1 & H2). split_and!; [|by apply StronglySorted_Sorted..].
  apply Forall_forall. intros x Hx. apply (Hrel x b); [done|by left].
Qed.

(** Splitting a run of a new limiter before one of its tries. *)
Lemma run_before config l before id t rest :
  RateLimiter_new config = Ret l → (Npos (config_limit config) ≤ u32_MAX)%N →
  Sorted N.le (before ++ (id, t) :: rest).*2 →
  ∃ bs b l1 l2, try_all l before = Ret (bs, l1) ∧ length bs = length before ∧ rl_inv t l1 ∧
    RateLimiter_try_next l1 id t = Ret (b, l2) ∧ try_post t t l1 l2 id b ∧ Sorted N.le (t :: rest.*2) ∧
    limit l1 = Npos (config_limit config) ∧ interval l1 = config_interval config.
Proof.
  intros Hnew Hl Hs. destruct (rl_inv_new config l Hnew Hl) as (Hi & Hlim & Hint).
  apply Sorted_zero in Hs. rewrite fmap_app, fmap_cons in Hs. simpl in Hs.
  apply Sorted_le_app_inv in Hs as (Hall & Hs1 & Hs2). apply Forall_cons in Hall as [_ Hall]. rewrite Forall_fmap in Hall.
  destruct (try_all_spec 0 t l before Hi Hs1 Hall ltac:(lia)) as (bs & l1 & Hr & Hi1 & Hlim1 & Hint1 & Hlen & _).
  destruct (try_next_spec t t l1 id ltac:(done) Hi1) as (b & l2 & Hb & Hp).
  exists bs, b, l1, l2. split_and!; try done; congruence.
Qed.

(** [C25] The rate is limited: whatever ids try at non-decreasing instants, no call
    panics, and in any window of the run from [t1] to [t2] an id is granted at most
    [limit + (t2 - t1 + interval mod 1000) / whole_micros interval] tries, for every
    interval of a microsecond or more.  Tokens are counted in whole microseconds; for
    an interval that is a whole number of them the bound is
    [limit + (t2 - t1) / interval]. *)
Theorem RateLimiter_bounds_rate config l before id1 t1 rest t2 id :
  RateLimiter_new config = Ret l → (Npos (config_limit config) ≤ u32_MAX)%N → (1000 ≤ config_interval config)%N →
  Sorted N.le (before ++ (id1, t1) :: rest).*2 → Forall (λ t, t.2 ≤ t2)%N rest → (t1 ≤ t2)%N →
  ∃ bs window l', try_all l (before ++ (id1, t1) :: rest) = Ret (bs ++ window, l') ∧ length bs = length before ∧
    (N.of_nat (granted id (zip ((id1, t1) :: rest) window)) ≤
      Npos (config_limit config) +
        (t2 - t1 + config_interval config mod 1000) `div` whole_micros (config_interval config))%N.
Proof.
  intros Hnew Hl Hm Hs Ht Hle.
  destruct (run_before config l before id1 t1 rest Hnew Hl Hs) as (bs & b & l1 & l2 & Hr & Hlen & Hi1 & Hb & Hp & Hs2 & Hlim & Hint).
  destruct Hp as [Hi2 Hlim2 Hint2 Hpot _ _ _]. unfold token in Hpot. rewrite Hint, Hlim in *.
  destruct (try_all_spec t1 t2 l2 rest Hi2 Hs2 Ht Hle) as (bs2 & l3 & Hr2 & _ & _ & _ & _ & _ & Hb2).
  exists bs, (b :: bs2), l3. rewrite try_all_app, Hr. cbn [mbind outcome_bind]. simpl. rewrite Hb. cbn [mbind outcome_bind].
  rewrite Hr2. cbn [mbind outcome_bind]. split_and!; [done|done|].
  destruct (potential_total t1 l1 id Hi1) as [x Hx]. destruct (Hpot id x Hm Hx) as (x' & Hx' & _ & Hc).
  unfold token in Hb2. rewrite Hint2 in Hb2. specialize (Hb2 id x' Hm Hx').
  pose proof (whole_micros_pos _ Hm) as Hz. rewrite <-N.div_add_l by lia. apply N.div_le_lower_bound; [lia|].
  unfold granted in *. rewrite filter_cons. simpl. destruct (decide (id1 = id ∧ b = true)) as [[-> ->]|Hd].
  - rewrite decide_True in Hc by done. simpl. rewrite Nat2N.inj_succ, N.mul_succ_r. lia.
  - rewrite decide_False in Hc by naive_solver. lia.
Qed.

(** A refused id is granted again after an interval: if the try of an id at [t]
    is refused, and the id does not try again before [t'], an interval later or
    more, then its try at [t'] is granted, whatever other ids tried meanwhile. *)
Theorem RateLimiter_refills config l before id t others t' :
  RateLimiter_new config = Ret l → (Npos (config_limit config) ≤ u32_MAX)%N →
  Sorted N.le (before ++ (id, t) :: others ++ [(id, t')]).*2 →
  Forall (λ p, p.1 ≠ id) others → (t + config_interval config ≤ t')%N →
  ∃ bs l', try_all l (before ++ (id, t) :: others ++ [(id, t')]) = Ret (bs, l') ∧
    (bs !! length before = Some false → last bs = Some true).
Proof.
  intros Hnew Hl Hs Hother Ht.
  destruct (run_before config l before id t _ Hnew Hl Hs) as (bs & b & l1 & l2 & Hr & Hlen & Hi1 & Hb & Hp & Hs2 & Hlim & Hint).
  destruct Hp as [Hi2 Hlim2 Hint2 _ _ Href _]. rewrite fmap_app in Hs2. simpl in Hs2.
  apply Sorted_le_app_inv in Hs2 as (Hall & Hs3 & _). apply Forall_cons in Hall as [Htt Hall]. rewrite Forall_fmap in Hall.
  destruct (try_all_spec t t' l2 others Hi2 Hs3 Hall Htt) as (bs2 & l3 & Hr2 & Hi3 & _ & Hint3 & _ & Hcr & _).
  destruct (try_next_spec t' t' l3 id ltac:(done) Hi3) as (b' & l4 & Hb' & [_ _ _ _ _ _ Hgr]).
  exists (bs ++ b :: bs2 ++ [b']), l4. rewrite try_all_app, Hr. cbn [mbind outcome_bind]. simpl. rewrite Hb. cbn [mbind outcome_bind].
  rewrite try_all_app, Hr2. cbn [mbind outcome_bind]. simpl. rewrite Hb'. cbn [mbind outcome_bind]. split; [done|].
  rewrite <-Hlen, list_lookup_middle by done. intros [= ->]. rewrite app_comm_cons, app_assoc, last_snoc. f_equal.
  apply (Hgr t); [|by rewrite Hint3, Hint2, Hint]. apply Hcr; [done|by apply Href].
Qed.
End generic.

(** ** The limiters of the relay *)

(** Addresses are lists of protocols of another crate, of which some are IP addresses. *)
Section limiters.
Context {PeerId IpAddr Multiaddr Protocol : Type} `{Countable PeerId} `{Countable IpAddr}.
Context (protocols : Multiaddr → list Protocol) (ip_of : Protocol → option IpAddr).

Definition multiaddr_to_ip (addr : Multiaddr) : option IpAddr := head (omap ip_of (protocols addr)).

(** The state of the closures is the generic limiter. *)
Definition new_per_peer (config : RateLimiterConfig) : outcome (RateLimiter (Id := PeerId)) := RateLimiter_new config.
Definition per_peer_try_next (l : RateLimiter (Id := PeerId)) (peer : PeerId) (addr : Multiaddr) (now : N) :
    outcome (bool * RateLimiter (Id := PeerId)) :=
  RateLimiter_try_next l peer now.

Definition new_per_ip (config : RateLimiterConfig) : outcome (RateLimiter (Id := IpAddr)) := RateLimiter_new config.
Definition per_ip_try_next (l : RateLimiter (Id := IpAddr)) (peer : PeerId) (addr : Multiaddr) (now : N) :
    outcome (bool * RateLimiter (Id := IpAddr)) :=
  match multiaddr_to_ip addr with
  | Some a => RateLimiter_try_next l a now
  | None => Ret (true, l)
  end.
End limiters.

(** ** Examples *)

Definition example_config : RateLimiterConfig := mkRateLimiterConfig 2 1000.
Definition example_limiter : RateLimiter (Id := nat) := mkRateLimiter 2 1000 [] ∅.

Lemma RateLimiter_bounds_rate_witness :
  ∃ bs window l', try_all example_limiter ([] ++ (1, 0%N) :: [(1, 0%N); (2, 500%N); (1, 1000%N); (1, 1500%N)]) = Ret (bs ++ window, l') ∧
    length bs = 0 ∧ N.le (N.of_nat (granted 1 (zip ((1, 0%N) :: [(1, 0%N); (2, 500%N); (1, 1000%N); (1, 1500%N)]) window))) 3.
Proof.
  apply (RateLimiter_bounds_rate example_config example_limiter [] 1 0
    [(1, 0%N); (2, 500%N); (1, 1000%N); (1, 1500%N)] 1500 1); try reflexivity; try (vm_compute; discriminate).
  - repeat constructor; vm_compute; discriminate.
  - repeat constructor; vm_compute; discriminate.
Defined.

Lemma RateLimiter_refills_witness :
  ∃ bs l', try_all example_limiter ([(1, 0%N); (1, 0%N)] ++ (1, 10%N) :: [(2, 20%N)] ++ [(1, 1010%N)]) = Ret (bs, l') ∧
    (bs !! 2 = Some false → last bs = Some true).
Proof.
  apply (RateLimiter_refills example_config example_limiter [(1, 0%N); (1, 0%N)] 1 10 [(2, 20%N)] 1010);
    try reflexivity; try (vm_compute; discriminate).
  - repeat constructor; vm_compute; discriminate.
  - repeat constructor. discriminate.
Defined.

(** An interval that is not a whole number of microseconds is rounded down when
    tokens are counted: at one token per 1999 ns, and three tokens at most, six tries
    are granted within 3998 ns, where one token per interval would allow five. *)
Example RateLimiter_exceeds_rate :
  (λ r, r.1) <$> try_all (mkRateLimiter 3 1999 [] ∅)
    [(1, 0%N); (1, 0%N); (1, 0%N); (1, 3998%N); (1, 3998%N); (1, 3998%N)] = Ret [true; true; true; true; true; true].
Proof. vm_compute. reflexivity. Qed.
