(* ===== verification/CoreRecord.v ===== *)
(** * Identities, peer ids, signed envelopes and peer records

    [core/src/identity.rs], [core/src/peer_id.rs], [core/src/signed_envelope.rs] and
    [core/src/peer_record.rs].  The signature schemes, multihashes, multiaddresses and
    the code generated from [keys.proto], [envelope.proto] and [peer_record.proto]
    are parameters with the laws that their documentation states. *)

From stdpp Require Import strings.
From S2P Require Import Prelude AsyncIo.

Abbreviation Bytes := (list byte).

(** ** Code of other crates *)

(** A signature scheme: [ed25519], [rsa], [secp256k1] or [ecdsa]. *)
Class SignatureScheme (Kp Pk : Type) : Type := {
  scheme_sign : Kp → Bytes → Result Bytes unit;
  scheme_public : Kp → Pk;
  scheme_verify : Pk → Bytes → Bytes → bool;
  scheme_encode : Pk → Bytes;
  scheme_decode : Bytes → Result Pk unit;
}.

Class SignatureSchemeSpec (Kp Pk : Type) `{!SignatureScheme Kp Pk} : Prop := {
  scheme_verify_sign k m s : scheme_sign k m = Ok s → scheme_verify (scheme_public k) m s = true;
  scheme_decode_encode (p : Pk) : scheme_decode (scheme_encode p) = Ok p;
}.

(** A message generated from a protobuf definition. *)
Class Proto (M : Type) : Type := {
  proto_encode : M → Bytes;
  proto_decode : Bytes → Result M unit;
}.

Class ProtoSpec (M : Type) `{!Proto M} : Prop :=
  proto_decode_encode (m : M) : proto_decode (proto_encode m) = Ok m.

(** The crate [multihash]: a code that names the hash function, and a digest. *)
Class MultihashOps (Multihash : Type) : Type := {
  mh_code : Multihash → N;
  mh_digest : Multihash → Bytes;
  mh_hash : N → Bytes → Multihash;
  mh_to_bytes : Multihash → Bytes;
  mh_from_bytes : Bytes → Result Multihash unit;
}.

Class MultihashSpec (Multihash : Type) `{!MultihashOps Multihash} : Prop := {
  mh_hash_code c m : mh_code (mh_hash c m) = c;
  mh_hash_identity m : mh_digest (mh_hash 0 m) = m;
  mh_from_to m : mh_from_bytes (mh_to_bytes m) = Ok m;
}.

(** The crate [multiaddr]. *)
Class MultiaddrOps (Multiaddr : Type) : Type := {
  ma_to_vec : Multiaddr → Bytes;
  ma_try_from : Bytes → Result Multiaddr unit;
}.

Class MultiaddrSpec (Multiaddr : Type) `{!MultiaddrOps Multiaddr} : Prop :=
  ma_try_from_to_vec (a : Multiaddr) : ma_try_from (ma_to_vec a) = Ok a.

(** ** Keys *)

(** [enum KeyType] of [keys.proto]. *)
Inductive KeyType : Type := KT_RSA | KT_Ed25519 | KT_Secp256k1 | KT_ECDSA.

Definition KeyType_as_i32 (t : KeyType) : N :=
  match t with KT_RSA => 0 | KT_Ed25519 => 1 | KT_Secp256k1 => 2 | KT_ECDSA => 3 end.

Definition KeyType_from_i32 (n : N) : option KeyType :=
  match n with
  | 0 => Some KT_RSA
  | 1 => Some KT_Ed25519
  | 2 => Some KT_Secp256k1
  | 3 => Some KT_ECDSA
  | _ => None
  end%N.

(** [message PublicKey] of [keys.proto]. *)
Record ProtoPublicKey : Type := mkProtoPublicKey { pk_type : N; pk_data : Bytes }.

(** [message Envelope] of [envelope.proto]. *)
Record ProtoEnvelope : Type := mkProtoEnvelope {
  env_public_key : option ProtoPublicKey;
  env_payload_type : Bytes;
  env_payload : Bytes;
  env_signature : Bytes;
}.

(** [message PeerRecord] of [peer_record.proto]; an address info has one field. *)
Record ProtoPeerRecord : Type := mkProtoPeerRecord {
  pr_peer_id : Bytes;
  pr_seq : N;
  pr_addresses : list Bytes;
}.

Section core.
Context {EdKp EdPk RsaKp RsaPk SecpKp SecpPk EcKp EcPk Multihash Multiaddr : Type}.
Context `{!SignatureScheme EdKp EdPk, !SignatureScheme RsaKp RsaPk, !SignatureScheme SecpKp SecpPk, !SignatureScheme EcKp EcPk}.
Context `{!Proto ProtoPublicKey, !Proto ProtoEnvelope, !Proto ProtoPeerRecord}.
Context `{!MultihashOps Multihash, !EqDecision Multihash, !MultiaddrOps Multiaddr}.
Context `{!Varint (2 ^ 64)}.

Inductive Keypair : Type :=
| Kp_Ed25519 (kp : EdKp)
| Kp_Rsa (kp : RsaKp)
| Kp_Secp256k1 (kp : SecpKp)
| Kp_Ecdsa (kp : EcKp).

Inductive PublicKey : Type :=
| Pk_Ed25519 (pk : EdPk)
| Pk_Rsa (pk : RsaPk)
| Pk_Secp256k1 (pk : SecpPk)
| Pk_Ecdsa (pk : EcPk).

Definition Keypair_sign (self : Keypair) (msg : Bytes) : Result Bytes unit :=
  match self with
  | Kp_Ed25519 kp => scheme_sign kp msg
  | Kp_Rsa kp => scheme_sign kp msg
  | Kp_Secp256k1 kp => scheme_sign kp msg
  | Kp_Ecdsa kp => scheme_sign kp msg
  end.

Definition Keypair_public (self : Keypair) : PublicKey :=
  match self with
  | Kp_Ed25519 kp => Pk_Ed25519 (scheme_public kp)
  | Kp_Rsa kp => Pk_Rsa (scheme_public kp)
  | Kp_Secp256k1 kp => Pk_Secp256k1 (scheme_public kp)
  | Kp_Ecdsa kp => Pk_Ecdsa (scheme_public kp)
  end.

Definition PublicKey_verify (self : PublicKey) (msg sig : Bytes) : bool :=
  match self with
  | Pk_Ed25519 pk => scheme_verify pk msg sig
  | Pk_Rsa pk => scheme_verify pk msg sig
  | Pk_Secp256k1 pk => scheme_verify pk msg sig
  | Pk_Ecdsa pk => scheme_verify pk msg sig
  end.

(** [From<&PublicKey> for keys_proto::PublicKey] *)
Definition ProtoPublicKey_from (key : PublicKey) : ProtoPublicKey :=
  match key with
  | Pk_Ed25519 key => mkProtoPublicKey (KeyType_as_i32 KT_Ed25519) (scheme_encode key)
  | Pk_Rsa key => mkProtoPublicKey (KeyType_as_i32 KT_RSA) (scheme_encode key)
  | Pk_Secp256k1 key => mkProtoPublicKey (KeyType_as_i32 KT_Secp256k1) (scheme_encode key)
  | Pk_Ecdsa key => mkProtoPublicKey (KeyType_as_i32 KT_ECDSA) (scheme_encode key)
  end.

Definition result_map {A B E : Type} (f : A → B) (r : Result A E) : Result B E :=
  match r with Ok a => Ok (f a) | Err e => Err e end.

(** [TryFrom<keys_proto::PublicKey> for PublicKey], with all schemes enabled. *)
Definition PublicKey_try_from (pubkey : ProtoPublicKey) : Result PublicKey unit :=
  key_type ←? ok_or (KeyType_from_i32 (pk_type pubkey)) ();
  match key_type with
  | KT_Ed25519 => result_map Pk_Ed25519 (scheme_decode (pk_data pubkey))
  | KT_RSA => result_map Pk_Rsa (scheme_decode (pk_data pubkey))
  | KT_Secp256k1 => result_map Pk_Secp256k1 (scheme_decode (pk_data pubkey))
  | KT_ECDSA => result_map Pk_Ecdsa (scheme_decode (pk_data pubkey))
  end.

Definition PublicKey_to_protobuf_encoding (self : PublicKey) : Bytes := proto_encode (ProtoPublicKey_from self).

Definition PublicKey_from_protobuf_encoding (bytes : Bytes) : Result PublicKey unit :=
  pubkey ←? proto_decode bytes; PublicKey_try_from pubkey.

(** ** Peer ids *)

Definition MAX_INLINE_KEY_LENGTH : nat := 42.

(** The codes of [multihash::Code] that peer ids use. *)
Definition Code_Identity : N := 0.
Definition Code_Sha2_256 : N := 18.

Record PeerId : Type := mkPeerId { multihash : Multihash }.

#[export] Instance PeerId_eq_dec : EqDecision PeerId.
Proof. solve_decision. Defined.

Definition PeerId_from_public_key (key : PublicKey) : PeerId :=
  let key_enc := PublicKey_to_protobuf_encoding key in
  let hash_algorithm := if decide (length key_enc ≤ MAX_INLINE_KEY_LENGTH) then Code_Identity else Code_Sha2_256 in
  mkPeerId (mh_hash hash_algorithm key_enc).

Definition PeerId_from_multihash (mh : Multihash) : Result PeerId Multihash :=
  if decide (mh_code mh = Code_Sha2_256) then Ok (mkPeerId mh)
  else if decide (mh_code mh = Code_Identity ∧ length (mh_digest mh) ≤ MAX_INLINE_KEY_LENGTH) then Ok (mkPeerId mh)
  else Err mh.

Definition PeerId_from_bytes (data : Bytes) : Result PeerId unit :=
  mh ←? mh_from_bytes data; map_err (λ _, ()) (PeerId_from_multihash mh).

Definition PeerId_to_bytes (self : PeerId) : Bytes := mh_to_bytes (multihash self).

Definition PeerId_is_public_key (self : PeerId) (public_key : PublicKey) : option bool :=
  let enc := PublicKey_to_protobuf_encoding public_key in
  Some (bool_decide (mh_hash (mh_code (multihash self)) enc = multihash self)).

(** ** Signed envelopes *)

Record SignedEnvelope : Type := mkSignedEnvelope {
  se_key : PublicKey;
  se_payload_type : Bytes;
  se_payload : Bytes;
  se_signature : Bytes;
}.

Inductive DecodingError : Type := InvalidEnvelope | InvalidPublicKey | MissingPublicKey.

Inductive ReadPayloadError : Type :=
| InvalidSignature
| UnexpectedPayloadType (expected got : Bytes).

Definition len_prefixed (b : Bytes) : Bytes := uvi_encode (2 ^ 64) (N.of_nat (length b)) ++ b.

Definition signature_payload (domain_separation payload_type payload : Bytes) : Bytes :=
  len_prefixed domain_separation ++ len_prefixed payload_type ++ len_prefixed payload.

Definition SignedEnvelope_new (key : Keypair) (domain_separation payload_type payload : Bytes) : Result SignedEnvelope unit :=
  signature ←? Keypair_sign key (signature_payload domain_separation payload_type payload);
  Ok (mkSignedEnvelope (Keypair_public key) payload_type payload signature).

Definition SignedEnvelope_verify (self : SignedEnvelope) (domain_separation : Bytes) : bool :=
  PublicKey_verify (se_key self) (signature_payload domain_separation (se_payload_type self) (se_payload self)) (se_signature self).

Definition SignedEnvelope_payload_and_signing_key (self : SignedEnvelope) (domain_separation expected_payload_type : Bytes) :
    Result (Bytes * PublicKey) ReadPayloadError :=
  if decide (se_payload_type self ≠ expected_payload_type)
  then Err (UnexpectedPayloadType expected_payload_type (se_payload_type self))
  else if negb (SignedEnvelope_verify self domain_separation) then Err InvalidSignature
  else Ok (se_payload self, se_key self).

Definition SignedEnvelope_into_protobuf_encoding (self : SignedEnvelope) : Bytes :=
  proto_encode (mkProtoEnvelope (Some (ProtoPublicKey_from (se_key self))) (se_payload_type self) (se_payload self) (se_signature self)).

Definition SignedEnvelope_from_protobuf_encoding (bytes : Bytes) : Result SignedEnvelope DecodingError :=
  envelope ←? map_err (λ _, InvalidEnvelope) (proto_decode bytes);
  public_key ←? ok_or (env_public_key envelope) MissingPublicKey;
  key ←? map_err (λ _, InvalidPublicKey) (PublicKey_try_from public_key);
  Ok (mkSignedEnvelope key (env_payload_type envelope) (env_payload envelope) (env_signature envelope)).

(** ** Peer records *)

Record PeerRecord : Type := mkPeerRecord {
  rec_peer_id : PeerId;
  rec_seq : N;
  rec_addresses : list Multiaddr;
  rec_envelope : SignedEnvelope;
}.

Inductive FromEnvelopeError : Type :=
| BadPayload (e : ReadPayloadError)
| InvalidPeerRecord
| InvalidPeerId
| MismatchedSignature
| InvalidMultiaddr.

Definition PAYLOAD_TYPE : Bytes := String.list_byte_of_string "/libp2p/routing-state-record".
Definition DOMAIN_SEP : Bytes := String.list_byte_of_string "libp2p-routing-state".

Definition PeerRecord_from_signed_envelope (envelope : SignedEnvelope) : Result PeerRecord FromEnvelopeError :=
  '(payload, signing_key) ←? map_err BadPayload (SignedEnvelope_payload_and_signing_key envelope DOMAIN_SEP PAYLOAD_TYPE);
  record ←? map_err (λ _, InvalidPeerRecord) (proto_decode payload);
  peer_id ←? map_err (λ _, InvalidPeerId) (PeerId_from_bytes (pr_peer_id record));
  if decide (peer_id ≠ PeerId_from_public_key signing_key) then Err MismatchedSignature
  else
    let seq := pr_seq record in
    addresses ←? map_err (λ _, InvalidMultiaddr) (collect (ma_try_from <$> pr_addresses record));
    Ok (mkPeerRecord peer_id seq addresses envelope).

(** [now] is the number of seconds since the epoch. *)
Definition PeerRecord_new (key : Keypair) (addresses : list Multiaddr) (now : N) : Result PeerRecord unit :=
  let seq := now in
  let peer_id := PeerId_from_public_key (Keypair_public key) in
  let payload := proto_encode (mkProtoPeerRecord (PeerId_to_bytes peer_id) seq (ma_to_vec <$> addresses)) in
  envelope ←? SignedEnvelope_new key DOMAIN_SEP PAYLOAD_TYPE payload;
  Ok (mkPeerRecord peer_id seq addresses envelope).

(** ** Properties *)

Section laws.
Context `{!SignatureSchemeSpec EdKp EdPk, !SignatureSchemeSpec RsaKp RsaPk, !SignatureSchemeSpec SecpKp SecpPk, !SignatureSchemeSpec EcKp EcPk}.
Context `{!ProtoSpec ProtoPublicKey, !ProtoSpec ProtoEnvelope, !ProtoSpec ProtoPeerRecord}.
Context `{!MultihashSpec Multihash, !MultiaddrSpec Multiaddr, !VarintSpec (2 ^ 64)}.

Lemma Keypair_verify_sign k m s : Keypair_sign k m = Ok s → PublicKey_verify (Keypair_public k) m s = true.
Proof. destruct k; apply scheme_verify_sign. Qed.

Lemma PublicKey_try_from_from (key : PublicKey) : PublicKey_try_from (ProtoPublicKey_from key) = Ok key.
Proof. destruct key; unfold PublicKey_try_from; simpl; by rewrite scheme_decode_encode. Qed.

Lemma PeerId_from_to_bytes (key : PublicKey) : PeerId_from_bytes (PeerId_to_bytes (PeerId_from_public_key key)) = Ok (PeerId_from_public_key key).
Proof.
  unfold PeerId_from_bytes, PeerId_to_bytes, PeerId_from_public_key, PeerId_from_multihash. rewrite mh_from_to. simpl.
  rewrite mh_hash_code. destruct (decide (length _ ≤ _)) as [Hle|Hgt]; [|done].
  rewrite decide_False by done. rewrite decide_True; [done|]. split; [done|]. by rewrite mh_hash_identity.
Qed.

Lemma SignedEnvelope_from_into (e : SignedEnvelope) :
  SignedEnvelope_from_protobuf_encoding (SignedEnvelope_into_protobuf_encoding e) = Ok e.
Proof.
  unfold SignedEnvelope_from_protobuf_encoding, SignedEnvelope_into_protobuf_encoding. rewrite proto_decode_encode. simpl.
  rewrite PublicKey_try_from_from. by destruct e.
Qed.

Lemma len_prefixed_inj a b x y :
  (N.of_nat (length a) < 2 ^ 64)%N → (N.of_nat (length b) < 2 ^ 64)%N →
  len_prefixed a ++ x = len_prefixed b ++ y → a = b ∧ x = y.
Proof.
  intros Ha Hb Heq. unfold len_prefixed in Heq. rewrite <-!app_assoc in Heq.
  pose proof (uvi_decode_encode (bound := 2 ^ 64) (N.of_nat (length a)) (a ++ x) Ha) as H1.
  rewrite Heq, (uvi_decode_encode (bound := 2 ^ 64)) in H1 by done. injection H1 as Hlen Happ.
  apply app_inj_1 in Happ; [naive_solver|lia].
Qed.

(** [C26] What is signed determines the domain, the type and the payload: the bytes
    that are signed for two envelopes are equal only if all three are, so that a
    signature made for one purpose is not a signature for another one. *)
Theorem signature_payload_injective d t p d' t' p' :
  Forall (λ b, (N.of_nat (length b) < 2 ^ 64)%N) [d; t; p; d'; t'; p'] →
  signature_payload d t p = signature_payload d' t' p' → d = d' ∧ t = t' ∧ p = p'.
Proof.
  rewrite !Forall_cons. intros (Hd & Ht & Hp & Hd' & Ht' & Hp' & _) Heq. unfold signature_payload in Heq.
  apply len_prefixed_inj in Heq as [-> Heq]; [|done..]. apply len_prefixed_inj in Heq as [-> Heq]; [|done..].
  rewrite <-(app_nil_r (len_prefixed p)), <-(app_nil_r (len_prefixed p')) in Heq.
  by apply len_prefixed_inj in Heq as [-> _].
Qed.

(** An accepted envelope is kept, and its payload was signed by the peer of the record. *)
Lemma from_signed_envelope_authentic e r :
  PeerRecord_from_signed_envelope e = Ok r →
  rec_peer_id r = PeerId_from_public_key (se_key e) ∧ rec_envelope r = e ∧
  PublicKey_verify (se_key e) (signature_payload DOMAIN_SEP PAYLOAD_TYPE (se_payload e)) (se_signature e) = true.
Proof.
  intros He. unfold PeerRecord_from_signed_envelope, SignedEnvelope_payload_and_signing_key in He.
  case_decide as Ht; [done|]. destruct (SignedEnvelope_verify e DOMAIN_SEP) eqn:Ev; simpl in He; [|done].
  destruct (proto_decode (se_payload e)) as [rec|]; simpl in He; [|done].
  destruct (PeerId_from_bytes (pr_peer_id rec)) as [pid|]; simpl in He; [|done].
  case_decide as Hp; [done|]. destruct (collect _) as [addrs|]; simpl in He; [|done].
  injection He as <-. simpl. split_and!; [done|done|]. unfold SignedEnvelope_verify in Ev. by rewrite Ht in Ev.
Qed.

(** A peer record survives its transmission: the record made from a key pair and
    addresses, sent as an encoded envelope, is what the receiver reads; and whatever
    envelope a receiver accepts, the peer id of the record is the one of the key by
    which exactly the payload of the envelope was signed for peer records. *)
Theorem PeerRecord_roundtrip key addresses now r :
  PeerRecord_new key addresses now = Ok r →
  (e ←? map_err (λ _, InvalidPeerRecord) (SignedEnvelope_from_protobuf_encoding (SignedEnvelope_into_protobuf_encoding (rec_envelope r)));
   PeerRecord_from_signed_envelope e) = Ok r ∧
  ∀ e r', PeerRecord_from_signed_envelope e = Ok r' →
    rec_peer_id r' = PeerId_from_public_key (se_key e) ∧ rec_envelope r' = e ∧
    PublicKey_verify (se_key e) (signature_payload DOMAIN_SEP PAYLOAD_TYPE (se_payload e)) (se_signature e) = true.
Proof.
  intros Hnew. split.
  - rewrite SignedEnvelope_from_into. simpl. unfold PeerRecord_new, SignedEnvelope_new in Hnew.
    destruct (Keypair_sign key _) as [s|] eqn:Es; simpl in Hnew; [|done]. injection Hnew as <-.
    unfold PeerRecord_from_signed_envelope, SignedEnvelope_payload_and_signing_key, SignedEnvelope_verify.
    cbn [rec_envelope se_payload_type se_payload se_key se_signature]. rewrite decide_False by tauto. rewrite (Keypair_verify_sign _ _ _ Es). simpl. rewrite proto_decode_encode. simpl.
    rewrite PeerId_from_to_bytes. simpl. rewrite decide_False by tauto.
    rewrite <-list_fmap_compose, (collect_Ok _ id); [simpl; by rewrite list_fmap_id|].
    apply Forall_forall. intros a _. apply ma_try_from_to_vec.
  - apply from_signed_envelope_authentic.
Qed.
End laws.
End core.

(** ** Instances *)

(** A codec for every countable type, by the binary digits of its number. *)
Fixpoint positive_bytes (p : positive) : Bytes :=
  match p with
  | xH => []
  | xO p => Byte.x00 :: positive_bytes p
  | xI p => Byte.x01 :: positive_bytes p
  end.

Fixpoint bytes_positive (l : Bytes) : option positive :=
  match l with
  | [] => Some xH
  | Byte.x00 :: l => xO <$> bytes_positive l
  | Byte.x01 :: l => xI <$> bytes_positive l
  | _ => None
  end.

Lemma bytes_positive_bytes p : bytes_positive (positive_bytes p) = Some p.
Proof. induction p; simpl; [by rewrite IHp|by rewrite IHp|done]. Qed.

#[export] Instance CountableProto (M : Type) `{Countable M} : Proto M := {
  proto_encode m := positive_bytes (encode m);
  proto_decode l := ok_or (p ← bytes_positive l; decode p) ();
}.

#[export] Instance CountableProto_spec (M : Type) `{Countable M} : ProtoSpec M.
Proof. intros m. simpl. rewrite bytes_positive_bytes. simpl. by rewrite decode_encode. Qed.

#[export] Instance ProtoPublicKey_eq_dec : EqDecision ProtoPublicKey.
Proof. solve_decision. Defined.
#[export] Instance ProtoPublicKey_countable : Countable ProtoPublicKey :=
  inj_countable' (λ k, (pk_type k, pk_data k)) (λ '(t, d), mkProtoPublicKey t d) ltac:(by intros []).

#[export] Instance ProtoEnvelope_eq_dec : EqDecision ProtoEnvelope.
Proof. solve_decision. Defined.
#[export] Instance ProtoEnvelope_countable : Countable ProtoEnvelope :=
  inj_countable' (λ e, (env_public_key e, env_payload_type e, env_payload e, env_signature e))
    (λ '(k, t, p, s), mkProtoEnvelope k t p s) ltac:(by intros []).

#[export] Instance ProtoPeerRecord_eq_dec : EqDecision ProtoPeerRecord.
Proof. solve_decision. Defined.
#[export] Instance ProtoPeerRecord_countable : Countable ProtoPeerRecord :=
  inj_countable' (λ r, (pr_peer_id r, pr_seq r, pr_addresses r)) (λ '(i, s, a), mkProtoPeerRecord i s a) ltac:(by intros []).

(** Signatures that name the key and the message. *)
#[export] Instance NamedScheme : SignatureScheme byte byte := {
  scheme_sign k m := Ok (k :: m);
  scheme_public k := k;
  scheme_verify p m s := bool_decide (s = p :: m);
  scheme_encode p := [p];
  scheme_decode l := match l with [p] => Ok p | _ => Err () end;
}.
#[export] Instance NamedScheme_spec : SignatureSchemeSpec byte byte.
Proof. split; [|done]. intros k m s [= <-]. by apply bool_decide_eq_true. Qed.

#[export] Instance PairMultihash : MultihashOps (N * Bytes) := {
  mh_code := fst;
  mh_digest := snd;
  mh_hash c m := (c, m);
  mh_to_bytes := proto_encode;
  mh_from_bytes := proto_decode;
}.
#[export] Instance PairMultihash_spec : MultihashSpec (N * Bytes).
Proof. split; [done|done|]. apply proto_decode_encode. Qed.

#[export] Instance RawMultiaddr : MultiaddrOps Bytes := { ma_to_vec a := a; ma_try_from a := Ok a }.
#[export] Instance RawMultiaddr_spec : MultiaddrSpec Bytes.
Proof. done. Qed.

#[local] Existing Instances Leb128 Leb128_spec.

Lemma signature_payload_injective_witness :
  [Byte.x01] = [Byte.x01] ∧ [Byte.x02] = [Byte.x02] ∧ [Byte.x03] = [Byte.x03].
Proof.
  apply signature_payload_injective; [|vm_compute; reflexivity]. repeat constructor; vm_compute; reflexivity.
Defined.

Abbreviation example_keypair := (Kp_Ed25519 (EdKp := byte) (RsaKp := byte) (SecpKp := byte) (EcKp := byte) Byte.x07).

Lemma PeerRecord_roundtrip_witness :
  match PeerRecord_new (Multiaddr := Bytes) (Multihash := N * Bytes) (EdPk := byte) (RsaPk := byte) (SecpPk := byte) (EcPk := byte)
      example_keypair [[Byte.x01]; [Byte.x02]] 5 with
  | Ok r =>
      (e ←? map_err (λ _, InvalidPeerRecord) (SignedEnvelope_from_protobuf_encoding (SignedEnvelope_into_protobuf_encoding (rec_envelope r)));
       PeerRecord_from_signed_envelope e) = Ok r
  | Err _ => False
  end.
Proof.
  destruct (PeerRecord_new example_keypair [[Byte.x01]; [Byte.x02]] 5) as [r|e] eqn:E.
  - apply (PeerRecord_roundtrip example_keypair [[Byte.x01]; [Byte.x02]] 5 r E).
  - vm_compute in E. discriminate.
Defined.
