(* ===== verification/RendezvousCodec.v ===== *)
(** * The messages of the rendezvous protocol

    [protocols/rendezvous/src/codec.rs] with the messages of [rpc.proto].  Signed peer
    records are used through an interface, which [CoreRecord] implements; the codec
    generated from [rpc.proto] and [UviBytes] of the crate [unsigned_varint] are
    parameters.  Strings are their UTF-8 bytes. *)

From S2P Require Import Prelude AsyncIo CoreRecord.

(** ** Strings *)

Definition byte_in (lo hi : N) (b : byte) : bool := (lo <=? b2N b)%N && (b2N b <=? hi)%N.

(** [String::from_utf8] accepts the well-formed byte sequences of the Unicode standard. *)
Fixpoint from_utf8 (l : Bytes) : bool :=
  match l with
  | [] => true
  | a :: l =>
      if byte_in 0 127 a then from_utf8 l
      else
        match l with
        | b :: l =>
            if byte_in 194 223 a && byte_in 128 191 b then from_utf8 l
            else
              match l with
              | c :: l =>
                  if (byte_in 224 224 a && byte_in 160 191 b && byte_in 128 191 c) ||
                     (byte_in 225 236 a && byte_in 128 191 b && byte_in 128 191 c) ||
                     (byte_in 237 237 a && byte_in 128 159 b && byte_in 128 191 c) ||
                     (byte_in 238 239 a && byte_in 128 191 b && byte_in 128 191 c)
                  then from_utf8 l
                  else
                    match l with
                    | d :: l =>
                        if (byte_in 240 240 a && byte_in 144 191 b && byte_in 128 191 c && byte_in 128 191 d) ||
                           (byte_in 241 243 a && byte_in 128 191 b && byte_in 128 191 c && byte_in 128 191 d) ||
                           (byte_in 244 244 a && byte_in 128 143 b && byte_in 128 191 c && byte_in 128 191 d)
                        then from_utf8 l
                        else false
                    | [] => false
                    end
              | [] => false
              end
        | [] => false
        end
  end.

(** ** Namespaces and cookies *)

Abbreviation Ttl := N (only parsing).

Definition DEFAULT_TTL : Ttl := (60 * 60 * 2)%N.
Definition MIN_TTL : Ttl := (60 * 60 * 2)%N.
Definition MAX_TTL : Ttl := (60 * 60 * 72)%N.

Record Namespace : Type := mkNamespace { ns_bytes : Bytes }.

#[export] Instance Namespace_eq_dec : EqDecision Namespace.
Proof. solve_decision. Defined.
#[export] Instance Namespace_countable : Countable Namespace := inj_countable' ns_bytes mkNamespace ltac:(by intros []).

Definition Namespace_from_static (value : Bytes) : outcome Namespace :=
  if decide (255 < length value) then Panic else Ret (mkNamespace value).

Definition Namespace_new (value : Bytes) : Result Namespace unit :=
  if decide (255 < length value) then Err () else Ok (mkNamespace value).

Record Cookie : Type := mkCookie { cookie_id : N; cookie_ns : option Namespace }.

#[export] Instance Cookie_eq_dec : EqDecision Cookie.
Proof. solve_decision. Defined.
#[export] Instance Cookie_countable : Countable Cookie :=
  inj_countable' (λ c, (cookie_id c, cookie_ns c)) (λ '(i, n), mkCookie i n) ltac:(by intros []).

(** [random] is the number the generator of random numbers returns. *)
Definition Cookie_for_namespace (random : N) (namespace : Namespace) : Cookie := mkCookie random (Some namespace).
Definition Cookie_for_all_namespaces (random : N) : Cookie := mkCookie random None.

Definition Cookie_into_wire_encoding (self : Cookie) : Bytes :=
  let id_bytes := vec_to_list (N_to_be 8 (cookie_id self)) in
  let namespace := default [] (ns_bytes <$> cookie_ns self) in
  id_bytes ++ namespace.

Definition Cookie_from_wire_encoding (bytes : Bytes) : Result Cookie unit :=
  if decide (length bytes < 8) then Err ()
  else
    let namespace := drop 8 bytes in
    let bytes := take 8 bytes in
    namespace ←?
      (if decide (namespace = []) then Ok None
       else if from_utf8 namespace then n ←? Namespace_new namespace; Ok (Some n) else Err ());
    Ok (mkCookie (be_to_N bytes) namespace).

(** ** Errors *)

Inductive ErrorCode : Type :=
| EC_InvalidNamespace
| EC_InvalidSignedPeerRecord
| EC_InvalidTtl
| EC_InvalidCookie
| EC_NotAuthorized
| EC_InternalError
| EC_Unavailable.

(** [enum ResponseStatus] of [rpc.proto]. *)
Inductive ResponseStatus : Type :=
| RS_Ok
| RS_EInvalidNamespace
| RS_EInvalidSignedPeerRecord
| RS_EInvalidTtl
| RS_EInvalidCookie
| RS_ENotAuthorized
| RS_EInternalError
| RS_EUnavailable.

Definition ResponseStatus_as_i32 (s : ResponseStatus) : N :=
  match s with
  | RS_Ok => 0
  | RS_EInvalidNamespace => 100
  | RS_EInvalidSignedPeerRecord => 101
  | RS_EInvalidTtl => 102
  | RS_EInvalidCookie => 103
  | RS_ENotAuthorized => 200
  | RS_EInternalError => 300
  | RS_EUnavailable => 400
  end.

Definition ResponseStatus_from_i32 (n : N) : option ResponseStatus :=
  match n with
  | 0 => Some RS_Ok
  | 100 => Some RS_EInvalidNamespace
  | 101 => Some RS_EInvalidSignedPeerRecord
  | 102 => Some RS_EInvalidTtl
  | 103 => Some RS_EInvalidCookie
  | 200 => Some RS_ENotAuthorized
  | 300 => Some RS_EInternalError
  | 400 => Some RS_EUnavailable
  | _ => None
  end%N.

Definition ResponseStatus_from (error_code : ErrorCode) : ResponseStatus :=
  match error_code with
  | EC_InvalidNamespace => RS_EInvalidNamespace
  | EC_InvalidSignedPeerRecord => RS_EInvalidSignedPeerRecord
  | EC_InvalidTtl => RS_EInvalidTtl
  | EC_InvalidCookie => RS_EInvalidCookie
  | EC_NotAuthorized => RS_ENotAuthorized
  | EC_InternalError => RS_EInternalError
  | EC_Unavailable => RS_EUnavailable
  end.

(** [Ok] cannot be mapped. *)
Definition ErrorCode_try_from (value : ResponseStatus) : Result ErrorCode ResponseStatus :=
  match value with
  | RS_Ok => Err value
  | RS_EInvalidNamespace => Ok EC_InvalidNamespace
  | RS_EInvalidSignedPeerRecord => Ok EC_InvalidSignedPeerRecord
  | RS_EInvalidTtl => Ok EC_InvalidTtl
  | RS_EInvalidCookie => Ok EC_InvalidCookie
  | RS_ENotAuthorized => Ok EC_NotAuthorized
  | RS_EInternalError => Ok EC_InternalError
  | RS_EUnavailable => Ok EC_Unavailable
  end.

Inductive ConversionError : Type :=
| InconsistentWireMessage
| MissingNamespace
| InvalidNamespace
| MissingSignedPeerRecord
| MissingTtl
| BadStatusCode
| BadSignedEnvelope (e : DecodingError)
| BadSignedPeerRecord (e : FromEnvelopeError)
| BadCookie
| PoWDifficultyOutOfRange
| BadPoWHash.

Definition ConversionError_to_error_code (self : ConversionError) : ErrorCode :=
  match self with
  | MissingNamespace => EC_InvalidNamespace
  | MissingSignedPeerRecord => EC_InvalidSignedPeerRecord
  | BadSignedEnvelope _ => EC_InvalidSignedPeerRecord
  | BadSignedPeerRecord _ => EC_InvalidSignedPeerRecord
  | BadCookie => EC_InvalidCookie
  | MissingTtl => EC_InvalidTtl
  | InconsistentWireMessage => EC_InternalError
  | BadStatusCode => EC_InternalError
  | PoWDifficultyOutOfRange => EC_InternalError
  | BadPoWHash => EC_InternalError
  | InvalidNamespace => EC_InvalidNamespace
  end.

(** ** The messages of [rpc.proto] *)

Record WireRegister : Type := mkWireRegister {
  wr_ns : option Bytes;
  wr_signed_peer_record : option Bytes;
  wr_ttl : option N;
}.

Record WireRegisterResponse : Type := mkWireRegisterResponse {
  wrr_status : option N;
  wrr_status_text : option Bytes;
  wrr_ttl : option N;
}.

Record WireUnregister : Type := mkWireUnregister { wu_ns : option Bytes; wu_id : option Bytes }.

Record WireDiscover : Type := mkWireDiscover { wd_ns : option Bytes; wd_limit : option N; wd_cookie : option Bytes }.

Record WireDiscoverResponse : Type := mkWireDiscoverResponse {
  wdr_registrations : list WireRegister;
  wdr_cookie : option Bytes;
  wdr_status : option N;
  wdr_status_text : option Bytes;
}.

Record WireMessage : Type := mkWireMessage {
  w_type : option N;
  w_register : option WireRegister;
  w_register_response : option WireRegisterResponse;
  w_unregister : option WireUnregister;
  w_discover : option WireDiscover;
  w_discover_response : option WireDiscoverResponse;
}.

(** ** Signed peer records, as the protocol uses them *)

Class RecordOps (PeerRecord PeerId Multiaddr : Type) : Type := {
  record_peer_id : PeerRecord → PeerId;
  record_addresses : PeerRecord → list Multiaddr;
  record_to_bytes : PeerRecord → Bytes;
  record_from_bytes : Bytes → Result PeerRecord ConversionError;
  record_valid : PeerRecord → Prop;
}.

Class RecordSpec (PeerRecord PeerId Multiaddr : Type) `{!RecordOps PeerRecord PeerId Multiaddr} : Prop := {
  record_from_to r : record_valid r → record_from_bytes (record_to_bytes r) = Ok r;
  record_from_valid b r : record_from_bytes b = Ok r → record_valid r;
}.

(** [UviBytes]: frames with their length as a prefix, up to a maximal length. *)
Class UviBytes : Type := {
  uvi_bytes_encode : N → Bytes → Bytes → Result Bytes unit;
  uvi_bytes_decode : N → Bytes → Result (option Bytes) unit * Bytes;
}.

Class UviBytesSpec `{!UviBytes} : Prop :=
  uvi_bytes_roundtrip max item dst : (N.of_nat (length item) ≤ max)%N → (max < 2 ^ 64)%N →
    ∃ bytes, uvi_bytes_encode max item dst = Ok (dst ++ bytes) ∧
      ∀ rest, uvi_bytes_decode max (bytes ++ rest) = (Ok (Some item), rest).

Section codec.
Context {PeerRecord PeerId Multiaddr : Type} `{!RecordOps PeerRecord PeerId Multiaddr}.

Record NewRegistration : Type := mkNewRegistration {
  nr_namespace : Namespace;
  nr_record : PeerRecord;
  nr_ttl : option Ttl;
}.

Definition NewRegistration_effective_ttl (self : NewRegistration) : Ttl := default DEFAULT_TTL (nr_ttl self).

Record Registration : Type := mkRegistration {
  reg_namespace : Namespace;
  reg_record : PeerRecord;
  reg_ttl : Ttl;
}.

Inductive Message : Type :=
| M_Register (r : NewRegistration)
| M_RegisterResponse (r : Result Ttl ErrorCode)
| M_Unregister (namespace : Namespace)
| M_Discover (namespace : option Namespace) (cookie : option Cookie) (limit : option N)
| M_DiscoverResponse (r : Result (list Registration * Cookie) ErrorCode).

(** [From<Message> for wire::Message] *)
Definition WireMessage_from (message : Message) : WireMessage :=
  match message with
  | M_Register (mkNewRegistration namespace record ttl) =>
      mkWireMessage (Some 0%N) (Some (mkWireRegister (Some (ns_bytes namespace)) (Some (record_to_bytes record)) ttl)) None None None None
  | M_RegisterResponse (Ok ttl) =>
      mkWireMessage (Some 1%N) None (Some (mkWireRegisterResponse (Some (ResponseStatus_as_i32 RS_Ok)) None (Some ttl))) None None None
  | M_RegisterResponse (Err error) =>
      mkWireMessage (Some 1%N) None
        (Some (mkWireRegisterResponse (Some (ResponseStatus_as_i32 (ResponseStatus_from error))) None None)) None None None
  | M_Unregister namespace =>
      mkWireMessage (Some 2%N) None None (Some (mkWireUnregister (Some (ns_bytes namespace)) None)) None None
  | M_Discover namespace cookie limit =>
      mkWireMessage (Some 3%N) None None None
        (Some (mkWireDiscover (ns_bytes <$> namespace) limit (Cookie_into_wire_encoding <$> cookie))) None
  | M_DiscoverResponse (Ok (registrations, cookie)) =>
      mkWireMessage (Some 4%N) None None None None
        (Some (mkWireDiscoverResponse
          ((λ reggo, mkWireRegister (Some (ns_bytes (reg_namespace reggo))) (Some (record_to_bytes (reg_record reggo))) (Some (reg_ttl reggo))) <$> registrations)
          (Some (Cookie_into_wire_encoding cookie)) (Some (ResponseStatus_as_i32 RS_Ok)) None))
  | M_DiscoverResponse (Err error) =>
      mkWireMessage (Some 4%N) None None None None
        (Some (mkWireDiscoverResponse [] None (Some (ResponseStatus_as_i32 (ResponseStatus_from error))) None))
  end.

Definition wire_namespace (ns : option Bytes) : Result (option Namespace) ConversionError :=
  map_err (λ _, InvalidNamespace) (transpose (Namespace_new <$> ns)).

Definition wire_error (error_code : N) : Result ErrorCode ConversionError :=
  status ←? ok_or (ResponseStatus_from_i32 error_code) BadStatusCode;
  map_err (λ _, InconsistentWireMessage) (ErrorCode_try_from status).

(** The closure applied to the registrations of a response. *)
Definition wire_registration (reggo : WireRegister) : Result Registration ConversionError :=
  ns ←? wire_namespace (wr_ns reggo);
  namespace ←? ok_or ns MissingNamespace;
  bytes ←? ok_or (wr_signed_peer_record reggo) MissingSignedPeerRecord;
  record ←? record_from_bytes bytes;
  ttl ←? ok_or (wr_ttl reggo) MissingTtl;
  Ok (mkRegistration namespace record ttl).

(** [TryFrom<wire::Message> for Message] *)
Definition Message_try_from (message : WireMessage) : Result Message ConversionError :=
  match message with
  | mkWireMessage (Some 0%N) (Some (mkWireRegister ns (Some signed_peer_record) ttl)) _ _ _ _ =>
      ns ←? wire_namespace ns;
      namespace ←? ok_or ns MissingNamespace;
      record ←? record_from_bytes signed_peer_record;
      Ok (M_Register (mkNewRegistration namespace record ttl))
  | mkWireMessage (Some 1%N) _ (Some (mkWireRegisterResponse (Some 0%N) _ ttl)) _ _ _ =>
      ttl ←? ok_or ttl MissingTtl;
      Ok (M_RegisterResponse (Ok ttl))
  | mkWireMessage (Some 3%N) _ _ _ (Some (mkWireDiscover ns limit cookie)) _ =>
      namespace ←? wire_namespace ns;
      cookie ←? map_err (λ _, BadCookie) (transpose (Cookie_from_wire_encoding <$> cookie));
      Ok (M_Discover namespace cookie limit)
  | mkWireMessage (Some 4%N) _ _ _ _ (Some (mkWireDiscoverResponse registrations (Some cookie) (Some 0%N) _)) =>
      registrations ←? collect (wire_registration <$> registrations);
      cookie ←? map_err (λ _, BadCookie) (Cookie_from_wire_encoding cookie);
      Ok (M_DiscoverResponse (Ok (registrations, cookie)))
  | mkWireMessage (Some 1%N) _ (Some (mkWireRegisterResponse (Some error_code) _ _)) _ _ _ =>
      error_code ←? wire_error error_code;
      Ok (M_RegisterResponse (Err error_code))
  | mkWireMessage (Some 2%N) _ _ (Some (mkWireUnregister ns _)) _ _ =>
      ns ←? wire_namespace ns;
      namespace ←? ok_or ns MissingNamespace;
      Ok (M_Unregister namespace)
  | mkWireMessage (Some 4%N) _ _ _ _ (Some (mkWireDiscoverResponse _ _ (Some error_code) _)) =>
      error ←? wire_error error_code;
      Ok (M_DiscoverResponse (Err error))
  | _ => Err InconsistentWireMessage
  end.

(** ** The codec *)

Inductive CodecError : Type :=
| CodecDecode
| CodecIo
| CodecConversion (e : ConversionError).

Definition MAX_MESSAGE_LEN : N := (1024 * 1024)%N.

Context `{!Proto WireMessage, !UviBytes}.

Definition RendezvousCodec_encode (item : Message) (dst : Bytes) : Result Bytes CodecError :=
  map_err (λ _, CodecIo) (uvi_bytes_encode MAX_MESSAGE_LEN (proto_encode (WireMessage_from item)) dst).

(** Returns the message, if there is one, and what is left of the buffer. *)
Definition RendezvousCodec_decode (src : Bytes) : Result (option Message) CodecError * Bytes :=
  let '(frame, src) := uvi_bytes_decode MAX_MESSAGE_LEN src in
  (frame ←? map_err (λ _, CodecIo) frame;
   match frame with
   | None => Ok None
   | Some message =>
       message ←? map_err (λ _, CodecDecode) (proto_decode message);
       message ←? map_err CodecConversion (Message_try_from message);
       Ok (Some message)
   end, src).

(** ** Round trips *)

(** Namespaces are strings of at most 255 bytes and cookie ids are [u64]; a cookie
    for the empty namespace is excluded. *)
Definition namespace_ok (n : Namespace) : Prop := from_utf8 (ns_bytes n) = true ∧ length (ns_bytes n) ≤ 255.

Definition cookie_ok (c : Cookie) : Prop :=
  (cookie_id c < 2 ^ 64)%N ∧ match cookie_ns c with Some n => namespace_ok n ∧ ns_bytes n ≠ [] | None => True end.

Definition registration_ok (r : Registration) : Prop := namespace_ok (reg_namespace r) ∧ record_valid (reg_record r).

Definition message_ok (m : Message) : Prop :=
  match m with
  | M_Register r => namespace_ok (nr_namespace r) ∧ record_valid (nr_record r)
  | M_RegisterResponse _ => True
  | M_Unregister n => namespace_ok n
  | M_Discover n c _ => (∀ n', n = Some n' → namespace_ok n') ∧ (∀ c', c = Some c' → cookie_ok c')
  | M_DiscoverResponse (Ok (rs, c)) => Forall registration_ok rs ∧ cookie_ok c
  | M_DiscoverResponse (Err _) => True
  end.

Lemma Namespace_new_ok n : namespace_ok n → Namespace_new (ns_bytes n) = Ok n.
Proof. intros [_ Hl]. unfold Namespace_new. rewrite decide_False by lia. by destruct n. Qed.

Lemma Cookie_from_into (c : Cookie) : cookie_ok c → Cookie_from_wire_encoding (Cookie_into_wire_encoding c) = Ok c.
Proof.
  intros [Hid Hns]. unfold Cookie_from_wire_encoding, Cookie_into_wire_encoding.
  set (idb := vec_to_list (N_to_be 8 (cookie_id c))). assert (length idb = 8) as Hl by apply length_vec_to_list.
  rewrite decide_False by (rewrite length_app; lia). rewrite drop_app_length', take_app_length' by done.
  assert (be_to_N idb = cookie_id c) as -> by (by apply be_to_N_to_be).
  destruct c as [i [n|]]; simpl in *; [|done]. destruct Hns as [Hok Hne]. rewrite decide_False by done.
  destruct Hok as [Hutf Hlen]. rewrite Hutf. by rewrite Namespace_new_ok by done.
Qed.

Lemma wire_namespace_ok n : namespace_ok n → wire_namespace (Some (ns_bytes n)) = Ok (Some n).
Proof. intros Hn. unfold wire_namespace. simpl. by rewrite Namespace_new_ok. Qed.

Lemma wire_error_from e : wire_error (ResponseStatus_as_i32 (ResponseStatus_from e)) = Ok e.
Proof. by destruct e. Qed.

Context `{!RecordSpec PeerRecord PeerId Multiaddr}.

Lemma wire_registration_from r :
  registration_ok r →
  wire_registration (mkWireRegister (Some (ns_bytes (reg_namespace r))) (Some (record_to_bytes (reg_record r))) (Some (reg_ttl r))) = Ok r.
Proof.
  intros [Hn Hr]. unfold wire_registration. cbn [wr_ns wr_signed_peer_record wr_ttl]. rewrite wire_namespace_ok by done. simpl.
  rewrite record_from_to by done. by destruct r.
Qed.

(** Every message is what the wire message made of it is converted to. *)
Lemma Message_try_from_from m : message_ok m → Message_try_from (WireMessage_from m) = Ok m.
Proof.
  destruct m as [[n r t]|[t|e]|n|n c l|[[rs c]|e]]; simpl.
  - intros [Hn Hr]. rewrite wire_namespace_ok by done. simpl. by rewrite record_from_to.
  - done.
  - intros _. by destruct e.
  - intros Hn. by rewrite wire_namespace_ok.
  - intros [Hn Hc]. assert (wire_namespace (ns_bytes <$> n) = Ok n) as ->.
    { destruct n as [n|]; [|done]. by apply wire_namespace_ok, Hn. }
    simpl. destruct c as [c|]; simpl; [|done]. by rewrite Cookie_from_into by (by apply Hc).
  - intros [Hrs Hc]. rewrite <-list_fmap_compose, (collect_Ok _ id), Cookie_from_into, list_fmap_id; [done|done|].
    eapply Forall_impl; [exact Hrs|]. intros r Hr. by apply wire_registration_from.
  - intros _. by destruct e.
Qed.

Context `{!ProtoSpec WireMessage, !UviBytesSpec}.

(** Messages survive their transmission: the codec decodes exactly the message
    that was encoded, whatever bytes follow it, if its encoding is at most a
    mebibyte long, its namespaces are valid, its records are valid peer records and
    its cookie, if any, is not for the empty namespace. *)
Theorem RendezvousCodec_roundtrip m dst :
  message_ok m → (N.of_nat (length (proto_encode (WireMessage_from m))) ≤ MAX_MESSAGE_LEN)%N →
  ∃ bytes, RendezvousCodec_encode m dst = Ok (dst ++ bytes) ∧
    ∀ rest, RendezvousCodec_decode (bytes ++ rest) = (Ok (Some m), rest).
Proof.
  intros Hm Hlen. unfold RendezvousCodec_encode, RendezvousCodec_decode.
  destruct (uvi_bytes_roundtrip MAX_MESSAGE_LEN _ dst Hlen ltac:(done)) as (bytes & He & Hd).
  exists bytes. split; [by rewrite He|]. intros rest. rewrite Hd. simpl. rewrite proto_decode_encode. simpl.
  by rewrite Message_try_from_from.
Qed.
End codec.

(** The cookie for the empty namespace is read back as a cookie for all namespaces. *)
Example Cookie_empty_namespace (id : N) :
  (id < 2 ^ 64)%N →
  Cookie_from_wire_encoding (Cookie_into_wire_encoding (Cookie_for_namespace id (mkNamespace []))) = Ok (Cookie_for_all_namespaces id).
Proof.
  intros Hid. change (Cookie_into_wire_encoding (Cookie_for_namespace id (mkNamespace []))) with
    (Cookie_into_wire_encoding (Cookie_for_all_namespaces id)). by apply Cookie_from_into.
Qed.

(** ** Instances *)

(** The records of [CoreRecord]. *)
Section record_instance.
Context {EdKp EdPk RsaKp RsaPk SecpKp SecpPk EcKp EcPk Multihash Multiaddr : Type}.
Context `{!SignatureScheme EdKp EdPk, !SignatureScheme RsaKp RsaPk, !SignatureScheme SecpKp SecpPk, !SignatureScheme EcKp EcPk}.
Context `{!Proto ProtoPublicKey, !Proto ProtoEnvelope, !Proto ProtoPeerRecord}.
Context `{!MultihashOps Multihash, !EqDecision Multihash, !MultiaddrOps Multiaddr, !Varint (2 ^ 64)}.

Abbreviation CorePeerRecord :=
  (PeerRecord (EdPk := EdPk) (RsaPk := RsaPk) (SecpPk := SecpPk) (EcPk := EcPk) (Multihash := Multihash) (Multiaddr := Multiaddr)).

Definition core_record_from_bytes (bytes : Bytes) : Result CorePeerRecord ConversionError :=
  envelope ←? map_err BadSignedEnvelope (SignedEnvelope_from_protobuf_encoding bytes);
  map_err BadSignedPeerRecord (PeerRecord_from_signed_envelope envelope).

#[export] Instance CoreRecordOps : RecordOps CorePeerRecord (PeerId (Multihash := Multihash)) Multiaddr := {
  record_peer_id := rec_peer_id;
  record_addresses := rec_addresses;
  record_to_bytes r := SignedEnvelope_into_protobuf_encoding (rec_envelope r);
  record_from_bytes := core_record_from_bytes;
  record_valid r := PeerRecord_from_signed_envelope (rec_envelope r) = Ok r;
}.

Context `{!SignatureSchemeSpec EdKp EdPk, !SignatureSchemeSpec RsaKp RsaPk, !SignatureSchemeSpec SecpKp SecpPk, !SignatureSchemeSpec EcKp EcPk}.
Context `{!ProtoSpec ProtoPublicKey, !ProtoSpec ProtoEnvelope}.

#[export] Instance CoreRecordSpec : RecordSpec CorePeerRecord (PeerId (Multihash := Multihash)) Multiaddr.
Proof.
  split; unfold record_valid, record_from_bytes, record_to_bytes; simpl; unfold core_record_from_bytes.
  - intros r Hr. rewrite SignedEnvelope_from_into. simpl. by rewrite Hr.
  - intros b r. destruct (SignedEnvelope_from_protobuf_encoding b) as [e|]; simpl; [|done].
    destruct (PeerRecord_from_signed_envelope e) as [r'|] eqn:E; simpl; [|done]. intros [= <-].
    destruct (from_signed_envelope_authentic _ _ E) as (_ & -> & _). done.
Qed.
End record_instance.

#[local] Existing Instances Leb128 Leb128_spec.

(** Frames with a LEB128 length prefix. *)
#[export] Instance LebUviBytes : UviBytes := {
  uvi_bytes_encode max item dst :=
    if decide (N.of_nat (length item) ≤ max)%N then Ok (dst ++ uvi_encode (2 ^ 64) (N.of_nat (length item)) ++ item) else Err ();
  uvi_bytes_decode max src :=
    match uvi_decode (2 ^ 64) src with
    | Some (len, rest) =>
        if decide (max < len)%N then (Err (), src)
        else if decide (length rest < N.to_nat len) then (Ok None, src)
        else (Ok (Some (take (N.to_nat len) rest)), drop (N.to_nat len) rest)
    | None => (Ok None, src)
    end;
}.

#[export] Instance LebUviBytes_spec : UviBytesSpec.
Proof.
  intros max item dst Hlen Hmax. eexists. split.
  - unfold uvi_bytes_encode. cbn [LebUviBytes]. by rewrite decide_True.
  - intros rest. unfold uvi_bytes_decode. cbn [LebUviBytes]. rewrite <-app_assoc, uvi_decode_encode by lia.
    rewrite decide_False by lia. rewrite Nat2N.id, decide_False by (rewrite length_app; lia).
    by rewrite take_app_length, drop_app_length.
Qed.

#[export] Instance WireRegister_eq_dec : EqDecision WireRegister.
Proof. solve_decision. Defined.
#[export] Instance WireRegister_countable : Countable WireRegister :=
  inj_countable' (λ r, (wr_ns r, wr_signed_peer_record r, wr_ttl r)) (λ '(a, b, c), mkWireRegister a b c) ltac:(by intros []).
#[export] Instance WireRegisterResponse_eq_dec : EqDecision WireRegisterResponse.
Proof. solve_decision. Defined.
#[export] Instance WireRegisterResponse_countable : Countable WireRegisterResponse :=
  inj_countable' (λ r, (wrr_status r, wrr_status_text r, wrr_ttl r)) (λ '(a, b, c), mkWireRegisterResponse a b c) ltac:(by intros []).
#[export] Instance WireUnregister_eq_dec : EqDecision WireUnregister.
Proof. solve_decision. Defined.
#[export] Instance WireUnregister_countable : Countable WireUnregister :=
  inj_countable' (λ r, (wu_ns r, wu_id r)) (λ '(a, b), mkWireUnregister a b) ltac:(by intros []).
#[export] Instance WireDiscover_eq_dec : EqDecision WireDiscover.
Proof. solve_decision. Defined.
#[export] Instance WireDiscover_countable : Countable WireDiscover :=
  inj_countable' (λ r, (wd_ns r, wd_limit r, wd_cookie r)) (λ '(a, b, c), mkWireDiscover a b c) ltac:(by intros []).
#[export] Instance WireDiscoverResponse_eq_dec : EqDecision WireDiscoverResponse.
Proof. solve_decision. Defined.
#[export] Instance WireDiscoverResponse_countable : Countable WireDiscoverResponse :=
  inj_countable' (λ r, (wdr_registrations r, wdr_cookie r, wdr_status r, wdr_status_text r))
    (λ '(a, b, c, d), mkWireDiscoverResponse a b c d) ltac:(by intros []).
#[export] Instance WireMessage_eq_dec : EqDecision WireMessage.
Proof. solve_decision. Defined.
#[export] Instance WireMessage_countable : Countable WireMessage :=
  inj_countable' (λ m, (w_type m, w_register m, w_register_response m, w_unregister m, w_discover m, w_discover_response m))
    (λ '(a, b, c, d, e, f), mkWireMessage a b c d e f) ltac:(by intros []).

(** Records that are a peer id and addresses, all of them valid. *)
#[export] Instance PairRecordOps : RecordOps (N * list N) N N := {
  record_peer_id := fst;
  record_addresses := snd;
  record_to_bytes := proto_encode;
  record_from_bytes b := map_err (λ _, MissingSignedPeerRecord) (proto_decode b);
  record_valid _ := True;
}.
#[export] Instance PairRecordSpec : RecordSpec (N * list N) N N.
Proof. split; [|done]. intros r _. change (map_err (λ _, MissingSignedPeerRecord) (proto_decode (proto_encode r)) = Ok r). by rewrite proto_decode_encode. Qed.

Lemma RendezvousCodec_roundtrip_witness :
  let ns := mkNamespace [Byte.x61; Byte.xc3; Byte.xa9] in
  let m := M_DiscoverResponse (Ok ([mkRegistration ns (7%N, [1%N]) 7200%N], mkCookie 5 (Some ns))) in
  ∃ bytes, RendezvousCodec_encode m [Byte.x00] = Ok ([Byte.x00] ++ bytes) ∧
    ∀ rest, RendezvousCodec_decode (bytes ++ rest) = (Ok (Some m), rest).
Proof.
  apply RendezvousCodec_roundtrip; [|vm_compute; discriminate].
  assert (namespace_ok (mkNamespace [Byte.x61; Byte.xc3; Byte.xa9])) as Hn.
  { split; [vm_compute; reflexivity|]. simpl. lia. }
  split; [|split; [reflexivity|split; [exact Hn|discriminate]]]. repeat constructor; apply Hn.
Defined.
