(* ===== verification/RendezvousServer.v ===== *)
(** * The rendezvous server

    [protocols/rendezvous/src/server.rs]: the registrations of peers under namespaces,
    which expire, and the paginated discovery of them with cookies.  The bidirectional
    map of the crate [bimap] and the set of timers of the crate [futures] are
    parameters.  The clock, and the random numbers that name registrations and
    cookies, are arguments. *)

From S2P Require Import Prelude AsyncIo CoreRecord RendezvousCodec.
From stdpp Require Import fin_maps fin_sets.

(** ** Code of other crates *)

(** [BiMap]: pairs such that no left and no right value occurs twice, in some order. *)
Class BiMap (L R B : Type) : Type := {
  bimap_empty : B;
  bimap_iter : B → list (L * R);
  bimap_get_by_left : B → L → option R;
  bimap_insert : B → L → R → B;
  bimap_remove_by_left : B → L → option (L * R) * B;
  bimap_remove_by_right : B → R → option (L * R) * B;
}.

Class BiMapSpec (L R B : Type) `{!BiMap L R B} : Prop := {
  bimap_iter_empty : bimap_iter (bimap_empty : B) = [];
  bimap_nodup_left (b : B) : NoDup (bimap_iter b).*1;
  bimap_nodup_right (b : B) : NoDup (bimap_iter b).*2;
  bimap_get_by_left_spec (b : B) l r : bimap_get_by_left b l = Some r ↔ (l, r) ∈ bimap_iter b;
  bimap_insert_spec (b : B) l r l' r' :
    (l', r') ∈ bimap_iter (bimap_insert b l r) ↔ (l' = l ∧ r' = r) ∨ (l' ≠ l ∧ r' ≠ r ∧ (l', r') ∈ bimap_iter b);
  bimap_remove_by_left_result (b : B) l l' r : (bimap_remove_by_left b l).1 = Some (l', r) ↔ l' = l ∧ (l, r) ∈ bimap_iter b;
  bimap_remove_by_left_spec (b : B) l l' r' :
    (l', r') ∈ bimap_iter (bimap_remove_by_left b l).2 ↔ l' ≠ l ∧ (l', r') ∈ bimap_iter b;
  bimap_remove_by_right_spec (b : B) r l' r' :
    (l', r') ∈ bimap_iter (bimap_remove_by_right b r).2 ↔ r' ≠ r ∧ (l', r') ∈ bimap_iter b;
}.

(** [FuturesUnordered] of delays, each with the instant at which it ends and what it
    yields: polling yields one of the delays that have ended, in no particular order. *)
Class Timers (A : Type) : Type := timers_poll : list (N * A) → N → option (A * list (N * A)).

Class TimersSpec (A : Type) `{!Timers A} : Prop := {
  timers_poll_Some l now a rest : timers_poll l now = Some (a, rest) → ∃ t, (t ≤ now)%N ∧ l ≡ₚ (t, a) :: rest;
  timers_poll_None l now : timers_poll l now = None → Forall (λ p, now < p.1)%N l;
}.

(** [Duration::from_secs] in nanoseconds. *)
Definition from_secs (s : N) : N := (s * 1000000000)%N.

Section server.
Context {PeerRecord PeerId Multiaddr B : Type} `{Countable PeerId} `{!RecordOps PeerRecord PeerId Multiaddr}.
Context `{!BiMap (PeerId * Namespace) N B, !Timers N}.

Abbreviation NewReg := (NewRegistration (PeerRecord := PeerRecord)).
Abbreviation Reg := (Registration (PeerRecord := PeerRecord)).

(** ** The registrations *)

Record ServerConfig : Type := mkServerConfig { cfg_min_ttl : Ttl; cfg_max_ttl : Ttl }.

Definition ServerConfig_default : ServerConfig := mkServerConfig MIN_TTL MAX_TTL.
Definition ServerConfig_with_min_ttl (c : ServerConfig) (t : Ttl) : ServerConfig := mkServerConfig t (cfg_max_ttl c).
Definition ServerConfig_with_max_ttl (c : ServerConfig) (t : Ttl) : ServerConfig := mkServerConfig (cfg_min_ttl c) t.

Record Registrations : Type := mkRegistrations {
  registrations_for_peer : B;
  registrations : gmap N Reg;
  cookies : gmap Cookie (gset N);
  min_ttl : Ttl;
  max_ttl : Ttl;
  next_expiry : list (N * N);
}.

Inductive TtlOutOfRange : Type :=
| TooLong (bound requested : Ttl)
| TooShort (bound requested : Ttl).

Definition Registrations_with_config (config : ServerConfig) : Registrations :=
  mkRegistrations bimap_empty ∅ ∅ (cfg_min_ttl config) (cfg_max_ttl config) [].

(** [registration_id] is the random number of the new registration. *)
Definition Registrations_add (self : Registrations) (new_registration : NewReg) (registration_id now : N) :
    Result Reg TtlOutOfRange * Registrations :=
  let ttl := NewRegistration_effective_ttl new_registration in
  if decide (max_ttl self < ttl)%N then (Err (TooLong (max_ttl self) ttl), self)
  else if decide (ttl < min_ttl self)%N then (Err (TooShort (min_ttl self) ttl), self)
  else
    let namespace := nr_namespace new_registration in
    let peer := record_peer_id (nr_record new_registration) in
    let regs :=
      match bimap_get_by_left (registrations_for_peer self) (peer, namespace) with
      | Some old_registration => delete old_registration (registrations self)
      | None => registrations self
      end in
    let for_peer := bimap_insert (registrations_for_peer self) (peer, namespace) registration_id in
    let registration := mkRegistration namespace (nr_record new_registration) ttl in
    (Ok registration,
     mkRegistrations for_peer (<[registration_id := registration]> regs) (cookies self) (min_ttl self) (max_ttl self)
       (next_expiry self ++ [((now + from_secs ttl)%N, registration_id)])).

Definition Registrations_remove (self : Registrations) (namespace : Namespace) (peer_id : PeerId) : Registrations :=
  let '(reggo_to_remove, for_peer) := bimap_remove_by_left (registrations_for_peer self) (peer_id, namespace) in
  let regs :=
    match reggo_to_remove with
    | Some (_, id) => delete id (registrations self)
    | None => registrations self
    end in
  mkRegistrations for_peer regs (cookies self) (min_ttl self) (max_ttl self) (next_expiry self).

(** The closure of [filter_map] in [get]. *)
Definition discoverable (discover_namespace : option Namespace) (seen : gset N) (entry : PeerId * Namespace * N) : option N :=
  let '(_, namespace, registration_id) := entry in
  if decide (registration_id ∈ seen) then None
  else
    match discover_namespace with
    | Some n => if decide (n = namespace) then Some registration_id else None
    | None => Some registration_id
    end.

(** No limit is the largest [u64], which no number of registrations exceeds. *)
Definition take_limit {A : Type} (limit : option N) (l : list A) : list A :=
  match limit with Some n => take (N.to_nat n) l | None => l end.

(** [random] is the random number of the new cookie. *)
Definition Registrations_get (self : Registrations) (discover_namespace : option Namespace) (cookie : option Cookie)
    (limit : option N) (random : N) : outcome (Result (list Reg * Cookie) unit * Registrations) :=
  let cookie_namespace := cookie ≫= cookie_ns in
  let mismatch :=
    match discover_namespace, cookie_namespace with
    | None, Some _ => true
    | Some namespace, Some cookie_namespace => bool_decide (namespace ≠ cookie_namespace)
    | _, _ => false
    end in
  if mismatch : bool then Ret (Err (), self)
  else
    let reggos_of_last_discover := default ∅ (cookie ≫= (cookies self !!.)) in
    let ids :=
      take_limit limit (omap (discoverable discover_namespace reggos_of_last_discover) (bimap_iter (registrations_for_peer self))) in
    let reggos_of_last_discover := reggos_of_last_discover ∪ list_to_set ids in
    let new_cookie :=
      match discover_namespace with
      | Some namespace => Cookie_for_namespace random namespace
      | None => Cookie_for_all_namespaces random
      end in
    let self' :=
      mkRegistrations (registrations_for_peer self) (registrations self)
        (<[new_cookie := reggos_of_last_discover]> (cookies self)) (min_ttl self) (max_ttl self) (next_expiry self) in
    regs ← expect (mapM (registrations self !!.) ids);
    Ret (Ok (regs, new_cookie), self').

(** What [poll] does with a registration whose timer has ended. *)
Definition cleanup_cookie (id : N) (ids : gset N) : option (gset N) :=
  let ids := ids ∖ {[id]} in if decide (ids = ∅) then None else Some ids.

(** One turn of [poll], which calls itself after the timer of a registration that is
    not there any more. *)
Definition expiry_turn (now : N) (self : Registrations) : outcome (Turn Registrations (Poll Reg)) :=
  match timers_poll (next_expiry self) now with
  | None => Ret (Return Pending self)
  | Some (expired_registration, timers) =>
      let cks := omap (cleanup_cookie expired_registration) (cookies self) in
      let for_peer := (bimap_remove_by_right (registrations_for_peer self) expired_registration).2 in
      let self' :=
        mkRegistrations for_peer (delete expired_registration (registrations self)) cks (min_ttl self) (max_ttl self) timers in
      match registrations self !! expired_registration with
      | None => Ret (Continue self')
      | Some registration => Ret (Return (Ready registration) self')
      end
  end.

Definition Registrations_poll (self : Registrations) (now : N) : outcome (Poll Reg * Registrations) :=
  loop (S (length (next_expiry self))) (expiry_turn now) self.

(** ** The behaviour *)

(** Events of the connection handler, and answers to it. *)
Inductive InboundOutEvent : Type :=
| RegistrationRequested (r : NewReg)
| UnregisterRequested (namespace : Namespace)
| DiscoverRequested (namespace : option Namespace) (cookie : option Cookie) (limit : option N).

Inductive InboundInEvent : Type :=
| RegisterResponse (ttl : Ttl)
| DeclineRegisterRequest (e : ErrorCode)
| DiscoverResponse (discovered : list Reg) (cookie : Cookie)
| DeclineDiscoverRequest (e : ErrorCode).

Inductive ServerEvent : Type :=
| DiscoverServed (enquirer : PeerId) (regs : list Reg)
| DiscoverNotServed (enquirer : PeerId) (error : ErrorCode)
| PeerRegistered (peer : PeerId) (registration : Reg)
| PeerNotRegistered (peer : PeerId) (namespace : Namespace) (error : ErrorCode)
| PeerUnregistered (peer : PeerId) (namespace : Namespace)
| RegistrationExpired (r : Reg).

(** Connections and substreams are named by numbers. *)
Inductive ServerAction : Type :=
| NotifyInboundSubstream (peer_id : PeerId) (connection id : N) (message : InboundInEvent)
| GenerateEvent (e : ServerEvent)
| CloseConnection (peer_id : PeerId) (connection : N).

(** [registration_id] and [random] are the random numbers that are drawn if they are
    needed. *)
Definition handle_inbound_event (event : InboundOutEvent) (peer_id : PeerId) (connection id : N) (regs : Registrations)
    (registration_id random now : N) : outcome (list ServerAction * Registrations) :=
  match event with
  | RegistrationRequested registration =>
      if decide (record_peer_id (nr_record registration) ≠ peer_id) then
        let error := EC_NotAuthorized in
        Ret ([NotifyInboundSubstream peer_id connection id (DeclineRegisterRequest error);
              GenerateEvent (PeerNotRegistered peer_id (nr_namespace registration) error)], regs)
      else
        let namespace := nr_namespace registration in
        match Registrations_add regs registration registration_id now with
        | (Ok registration, regs) =>
            Ret ([NotifyInboundSubstream peer_id connection id (RegisterResponse (reg_ttl registration));
                  GenerateEvent (PeerRegistered peer_id registration)], regs)
        | (Err (TooLong _ _), regs) | (Err (TooShort _ _), regs) =>
            let error := EC_InvalidTtl in
            Ret ([NotifyInboundSubstream peer_id connection id (DeclineRegisterRequest error);
                  GenerateEvent (PeerNotRegistered peer_id namespace error)], regs)
        end
  | DiscoverRequested namespace cookie limit =>
      '(res, regs) ← Registrations_get regs namespace cookie limit random;
      match res with
      | Ok (discovered, cookie) =>
          Ret ([NotifyInboundSubstream peer_id connection id (DiscoverResponse discovered cookie);
                GenerateEvent (DiscoverServed peer_id discovered)], regs)
      | Err _ =>
          let error := EC_InvalidCookie in
          Ret ([NotifyInboundSubstream peer_id connection id (DeclineDiscoverRequest error);
                GenerateEvent (DiscoverNotServed peer_id error)], regs)
      end
  | UnregisterRequested namespace =>
      let regs := Registrations_remove regs namespace peer_id in
      Ret ([GenerateEvent (PeerUnregistered peer_id namespace)], regs)
  end.

Record ServerBehaviour : Type := mkServerBehaviour {
  sb_events : list ServerAction;
  sb_registrations : Registrations;
}.

Definition ServerBehaviour_new (config : ServerConfig) : ServerBehaviour :=
  mkServerBehaviour [] (Registrations_with_config config).

(** An event of the handler of a connection: a message, or the failure of a substream. *)
Inductive HandlerEvent : Type :=
| InboundEvent (id : N) (message : InboundOutEvent)
| InboundError (id : N).

Definition ServerBehaviour_inject_event (self : ServerBehaviour) (peer_id : PeerId) (connection : N) (event : HandlerEvent)
    (registration_id random now : N) : outcome ServerBehaviour :=
  match event with
  | InboundEvent id message =>
      '(new_events, regs) ← handle_inbound_event message peer_id connection id (sb_registrations self) registration_id random now;
      Ret (mkServerBehaviour (sb_events self ++ new_events) regs)
  | InboundError _ => Ret (mkServerBehaviour (sb_events self ++ [CloseConnection peer_id connection]) (sb_registrations self))
  end.

Definition ServerBehaviour_poll (self : ServerBehaviour) (now : N) : outcome (Poll ServerAction * ServerBehaviour) :=
  '(p, regs) ← Registrations_poll (sb_registrations self) now;
  match p with
  | Ready registration => Ret (Ready (GenerateEvent (RegistrationExpired registration)), mkServerBehaviour (sb_events self) regs)
  | Pending =>
      match sb_events self with
      | event :: events => Ret (Ready event, mkServerBehaviour events regs)
      | [] => Ret (Pending, mkServerBehaviour [] regs)
      end
  end.

(** ** The invariant *)

Definition reg_key (r : Reg) : PeerId * Namespace := (record_peer_id (reg_record r), reg_namespace r).

(** The ids whose timer is running. *)
Definition timer_ids (self : Registrations) : list N := (next_expiry self).*2.

(** The two maps of registrations agree, every registration has a time to live within
    the limits, and every id that is in use has a timer. *)
Record reg_inv (self : Registrations) : Prop := {
  ri_sound k id : (k, id) ∈ bimap_iter (registrations_for_peer self) → ∃ r, registrations self !! id = Some r ∧ reg_key r = k;
  ri_complete id r : registrations self !! id = Some r → (reg_key r, id) ∈ bimap_iter (registrations_for_peer self);
  ri_ttl id r : registrations self !! id = Some r → (min_ttl self ≤ reg_ttl r ≤ max_ttl self)%N;
  ri_timer id r : registrations self !! id = Some r → id ∈ timer_ids self;
  ri_cookie c ids id : cookies self !! c = Some ids → id ∈ ids → id ∈ timer_ids self;
  ri_nodup : NoDup (timer_ids self);
}.

(** The registration of a peer under a namespace. *)
Definition registered (self : Registrations) (k : PeerId * Namespace) : option Reg :=
  bimap_get_by_left (registrations_for_peer self) k ≫= (registrations self !!.).

Context `{!BiMapSpec (PeerId * Namespace) N B, !TimersSpec N}.

Lemma bimap_left_unique (b : B) k id id' : (k, id) ∈ bimap_iter b → (k, id') ∈ bimap_iter b → id = id'.
Proof. intros H1%bimap_get_by_left_spec H2%bimap_get_by_left_spec. congruence. Qed.

Lemma registered_Some self k r :
  reg_inv self → registered self k = Some r ↔ ∃ id, registrations self !! id = Some r ∧ reg_key r = k.
Proof.
  intros Hi. unfold registered. split.
  - intros Hr. apply bind_Some in Hr as (id & Hid & Hr). apply bimap_get_by_left_spec in Hid.
    exists id. split; [done|]. destruct (ri_sound _ Hi _ _ Hid) as (r' & Hr' & <-). congruence.
  - intros (id & Hr & <-). pose proof (ri_complete _ Hi id r Hr) as Hin.
    apply bimap_get_by_left_spec in Hin. by rewrite Hin.
Qed.

Lemma reg_inv_new config : reg_inv (Registrations_with_config config).
Proof.
  split; simpl.
  - intros k id. rewrite bimap_iter_empty. by intros []%elem_of_nil.
  - intros id r. by rewrite lookup_empty.
  - intros id r. by rewrite lookup_empty.
  - intros id r. by rewrite lookup_empty.
  - intros c ids id. by rewrite lookup_empty.
  - constructor.
Qed.

(** Removing from the bidirectional map what is removed from the registrations. *)
Lemma delete_registration self for_peer id cks timers :
  reg_inv self →
  (∀ k id', (k, id') ∈ bimap_iter for_peer ↔ id' ≠ id ∧ (k, id') ∈ bimap_iter (registrations_for_peer self)) →
  (∀ id', id' ≠ id → id' ∈ timer_ids self → id' ∈ timers.*2) → NoDup timers.*2 →
  (∀ c ids id', cks !! c = Some ids → id' ∈ ids → id' ∈ timers.*2) →
  reg_inv (mkRegistrations for_peer (delete id (registrations self)) cks (min_ttl self) (max_ttl self) timers).
Proof.
  intros [Hs Hc Ht Hti Hck Hn] Hf Htm Hnd Hcks. split; unfold timer_ids in *; simpl; try done.
  - intros k id' [Hne Hin]%Hf. destruct (Hs k id' Hin) as (r & Hr & Hk). exists r. by rewrite lookup_delete_ne.
  - intros id' r [Hne Hr]%lookup_delete_Some. apply Hf. auto.
  - intros id' r [Hne Hr]%lookup_delete_Some. by eapply Ht.
  - intros id' r [Hne Hr]%lookup_delete_Some. apply Htm; [done|]. by eapply Hti.
Qed.

Lemma Registrations_remove_spec self namespace peer :
  reg_inv self →
  let self' := Registrations_remove self namespace peer in
  reg_inv self' ∧ next_expiry self' = next_expiry self ∧ cookies self' = cookies self ∧
  min_ttl self' = min_ttl self ∧ max_ttl self' = max_ttl self ∧
  (∀ id r, registrations self' !! id = Some r ↔ registrations self !! id = Some r ∧ reg_key r ≠ (peer, namespace)).
Proof.
  intros Hi self'. pose proof Hi as [Hs Hc Ht Hti Hck Hn]. unfold self', Registrations_remove.
  pose proof (bimap_remove_by_left_result (registrations_for_peer self) (peer, namespace)) as Hres.
  pose proof (bimap_remove_by_left_spec (registrations_for_peer self) (peer, namespace)) as Hrem.
  destruct (bimap_remove_by_left _ _) as [res b']. simpl in Hres, Hrem.
  destruct res as [[k id]|].
  - destruct (proj1 (Hres k id) eq_refl) as [-> Hin]. destruct (Hs _ _ Hin) as (r0 & Hr0 & Hk0).
    assert (∀ k id', (k, id') ∈ bimap_iter (registrations_for_peer self) → id' ≠ id ↔ k ≠ (peer, namespace)) as Hiff.
    { intros k id' Hk. split.
      - intros Hne ->. apply Hne. by eapply bimap_left_unique.
      - intros Hne ->. destruct (Hs _ _ Hk) as (r & Hr & <-). congruence. }
    split_and!; try done.
    + apply delete_registration; try done. intros k id'. rewrite Hrem. split; intros [? ?]; (split; [|done]); by apply (Hiff k id').
    + intros id' r. simpl. rewrite lookup_delete_Some. split.
      * intros [Hne Hr]. split; [done|]. apply (Hiff (reg_key r) id'); [by apply Hc|done].
      * intros [Hr Hne]. split; [|done]. intros <-. congruence.
  - assert (∀ id r, registrations self !! id = Some r → reg_key r ≠ (peer, namespace)) as Hno.
    { intros id r Hr Hk. pose proof (Hc id r Hr) as Hin. rewrite Hk in Hin.
      assert (None = Some ((peer, namespace), id)) by (apply Hres; done). done. }
    split_and!; try done.
    + split; simpl; try done.
      * intros k id [_ Hin]%Hrem. by apply Hs.
      * intros id r Hr. apply Hrem. split; [by eapply Hno|by apply Hc].
    + intros id r. simpl. naive_solver.
Qed.

Lemma Registrations_add_spec self (nr : NewReg) id now :
  reg_inv self → id ∉ timer_ids self →
  let ttl := NewRegistration_effective_ttl nr in
  let r := mkRegistration (nr_namespace nr) (nr_record nr) ttl in
  if decide (min_ttl self ≤ ttl ≤ max_ttl self)%N then
    ∃ self', Registrations_add self nr id now = (Ok r, self') ∧ reg_inv self' ∧ cookies self' = cookies self ∧
      min_ttl self' = min_ttl self ∧ max_ttl self' = max_ttl self ∧
      next_expiry self' = next_expiry self ++ [((now + from_secs ttl)%N, id)] ∧
      (∀ id' r', registrations self' !! id' = Some r' ↔
        (id' = id ∧ r' = r) ∨ (registrations self !! id' = Some r' ∧ reg_key r' ≠ reg_key r))
  else ∃ e, Registrations_add self nr id now = (Err e, self).
Proof.
  intros Hi Hid ttl r. pose proof Hi as [Hs Hc Ht Hti Hck Hn]. unfold Registrations_add. fold ttl.
  destruct (decide (min_ttl self ≤ ttl ≤ max_ttl self)%N) as [Hr|Hr].
  2:{ destruct (decide (max_ttl self < ttl)%N); [by eexists|]. rewrite decide_True by lia. by eexists. }
  rewrite !decide_False by lia. eexists. split; [done|]. fold r.
  assert (registrations self !! id = None) as Hnone.
  { destruct (registrations self !! id) as [r0|] eqn:E; [|done]. exfalso. by apply Hid, (Hti id r0). }
  set (old := match bimap_get_by_left _ _ with Some _ => _ | None => _ end).
  change (record_peer_id (nr_record nr), nr_namespace nr) with (reg_key r) in *.
  assert (∀ id' r', old !! id' = Some r' ↔ registrations self !! id' = Some r' ∧ reg_key r' ≠ reg_key r) as Hold.
  { intros id' r'. unfold old. destruct (bimap_get_by_left _ _) as [o|] eqn:E.
    - apply bimap_get_by_left_spec in E. destruct (Hs _ _ E) as (r0 & Hr0 & Hk0). rewrite lookup_delete_Some. split.
      + intros [Hne Hr']. split; [done|]. intros Hk. apply Hne. apply (bimap_left_unique (registrations_for_peer self) (reg_key r)); [done|].
        rewrite <-Hk. by apply Hc.
      + intros [Hr' Hk]. split; [|done]. intros ->. congruence.
    - split; [|naive_solver]. intros Hr'. split; [done|]. intros Hk. apply Hc in Hr'. rewrite Hk in Hr'.
      apply bimap_get_by_left_spec in Hr'. congruence. }
  assert (∀ id' r', <[id := r]> old !! id' = Some r' ↔
    (id' = id ∧ r' = r) ∨ (registrations self !! id' = Some r' ∧ reg_key r' ≠ reg_key r)) as Hnew.
  { intros id' r'. rewrite lookup_insert_Some, Hold. split; [naive_solver|]. intros [[-> ->]|[Hr' Hk]]; [by left|].
    right. split; [|done]. intros <-. congruence. }
  split_and!; try done. split; unfold timer_ids; simpl.
  - intros k id' Hin. apply bimap_insert_spec in Hin as [[-> ->]|(Hk & Hne & Hin)].
    + exists r. by rewrite lookup_insert_eq.
    + destruct (Hs _ _ Hin) as (r' & Hr' & <-). exists r'. split; [|done]. apply Hnew. by right.
  - intros id' r' [[-> ->]|[Hr' Hk]]%Hnew; apply bimap_insert_spec; [by left|]. right. split_and!; [done| |by apply Hc].
    intros ->. congruence.
  - intros id' r' [[-> ->]|[Hr' Hk]]%Hnew; [done|]. by eapply Ht.
  - intros id' r' [[-> ->]|[Hr' Hk]]%Hnew; rewrite fmap_app; apply elem_of_app; [right; by left|left; by eapply Hti].
  - intros c ids id' Hcs Hin. rewrite fmap_app. apply elem_of_app. left. by eapply Hck.
  - rewrite fmap_app. apply NoDup_app. split_and!; [done|set_solver|apply NoDup_singleton].
Qed.

(** The ids a discovery may still deliver. *)
Definition matches (namespace : option Namespace) (r : Reg) : Prop :=
  match namespace with Some n => reg_namespace r = n | None => True end.

Lemma omap_discoverable self namespace seen id :
  reg_inv self →
  id ∈ omap (discoverable namespace seen) (bimap_iter (registrations_for_peer self)) ↔
    (id ∉ seen) ∧ ∃ r, registrations self !! id = Some r ∧ matches namespace r.
Proof.
  intros [Hs Hc _ _ _ _]. rewrite list_elem_of_omap. split.
  - intros ([[p n] id'] & Hin & Hd). unfold discoverable in Hd. destruct (Hs _ _ Hin) as (r & Hr & Hk).
    case_decide as Hseen; [done|]. unfold matches. destruct namespace as [n'|].
    + case_decide as Hn; [|done]. injection Hd as <-. split; [done|]. exists r. split; [done|]. injection Hk. congruence.
    + injection Hd as <-. eauto.
  - intros (Hseen & r & Hr & Hm). exists (reg_key r, id). split; [by apply Hc|]. unfold discoverable, reg_key.
    rewrite decide_False by done. unfold matches in Hm. destruct namespace as [n'|]; [|done]. by rewrite decide_True.
Qed.

Lemma NoDup_omap_discoverable self namespace seen :
  NoDup (omap (discoverable namespace seen) (bimap_iter (registrations_for_peer self))).
Proof.
  pose proof (bimap_nodup_right (registrations_for_peer self)) as Hn.
  eapply sublist_NoDup; [exact Hn|]. generalize (bimap_iter (registrations_for_peer self)). clear.
  induction l as [|[[p n] id] l IH]; simpl; [constructor|]. unfold discoverable at 1.
  repeat (case_decide || case_match); simplify_eq/=; by constructor.
Qed.

Lemma take_limit_sublist {A} limit (l : list A) : take_limit limit l `sublist_of` l.
Proof. destruct limit; simpl; [apply sublist_take|done]. Qed.

Lemma take_limit_short {A} limit (l : list A) :
  match limit with Some n => (length (take_limit limit l) < N.to_nat n)%nat | None => True end → take_limit limit l = l.
Proof. destruct limit as [n|]; simpl; [|done]. rewrite length_take. intros ?. apply take_ge. lia. Qed.

(** The cookie a discovery returns. *)
Definition new_cookie (namespace : option Namespace) (random : N) : Cookie :=
  match namespace with Some n => Cookie_for_namespace random n | None => Cookie_for_all_namespaces random end.

(** What is not delivered again with a cookie. *)
Definition seen_with (self : Registrations) (cookie : option Cookie) : gset N := default ∅ (cookie ≫= (cookies self !!.)).

(** A cookie for a namespace can only be used for that namespace. *)
Definition cookie_fits (namespace : option Namespace) (cookie : option Cookie) : Prop :=
  match cookie ≫= cookie_ns with Some n => namespace = Some n | None => True end.

#[local] Instance cookie_fits_dec namespace cookie : Decision (cookie_fits namespace cookie).
Proof. unfold cookie_fits. destruct (cookie ≫= cookie_ns); apply _. Defined.

Lemma Registrations_get_spec self namespace cookie limit random :
  reg_inv self →
  if decide (cookie_fits namespace cookie) then
    ∃ ids regs self', Registrations_get self namespace cookie limit random = Ret (Ok (regs, new_cookie namespace random), self') ∧
      reg_inv self' ∧ registrations self' = registrations self ∧ next_expiry self' = next_expiry self ∧
      registrations_for_peer self' = registrations_for_peer self ∧
      min_ttl self' = min_ttl self ∧ max_ttl self' = max_ttl self ∧
      cookies self' = <[new_cookie namespace random := seen_with self cookie ∪ list_to_set ids]> (cookies self) ∧
      ids = take_limit limit (omap (discoverable namespace (seen_with self cookie)) (bimap_iter (registrations_for_peer self))) ∧
      Forall2 (λ id r, registrations self !! id = Some r) ids regs
  else Registrations_get self namespace cookie limit random = Ret (Err (), self).
Proof.
  intros Hi. unfold Registrations_get. fold (seen_with self cookie).
  set (ids := take_limit limit _).
  assert (∀ id, id ∈ ids → (id ∉ seen_with self cookie) ∧ ∃ r, registrations self !! id = Some r ∧ matches namespace r) as Hids.
  { intros id Hin. apply (omap_discoverable self namespace _ id Hi).
    eapply elem_of_sublist; [exact Hin|]. apply take_limit_sublist. }
  assert (∃ regs, mapM (registrations self !!.) ids = Some regs) as [regs Hregs].
  { apply mapM_is_Some_2. apply Forall_forall. intros id Hin. destruct (Hids id Hin) as (_ & r & Hr & _). by exists r. }
  set (mismatch := match namespace, cookie ≫= cookie_ns with None, Some _ => true | _, _ => _ end).
  assert (mismatch = true ↔ ¬ cookie_fits namespace cookie) as Hmis.
  { unfold mismatch, cookie_fits. destruct (cookie ≫= cookie_ns) as [c|], namespace as [n|]; [|done| |];
      [|by split; [|intros []]..].
    rewrite bool_decide_eq_true. split; [by intros Hne [= ->]|by intros Hne ->; apply Hne]. }
  destruct (decide (cookie_fits namespace cookie)) as [Hf|Hf]; [|by rewrite (proj2 Hmis Hf)].
  destruct mismatch; [by destruct (proj1 Hmis eq_refl)|]. rewrite Hregs. cbn [expect mbind outcome_bind].
  exists ids, regs. eexists. split; [reflexivity|].
  split_and!; try done; [|by apply mapM_Some_1].
  destruct Hi as [Hs Hc Ht Hti Hck Hn]. split; try done. simpl. intros c s id.
  rewrite lookup_insert_Some. intros [[_ <-]|[_ Hcs]] Hin; [|by eapply Hck].
  apply elem_of_union in Hin as [Hin|Hin].
  - unfold seen_with in Hin. destruct cookie as [c0|]; simpl in Hin; [|set_solver].
    destruct (cookies self !! c0) as [s0|] eqn:E; simpl in Hin; [by eapply Hck|set_solver].
  - apply elem_of_list_to_set in Hin. destruct (Hids id Hin) as (_ & r & Hr & _). by eapply Hti.
Qed.

(** What polling at an instant does: it drops registrations, but only those whose
    timer has ended, forgets them in the cookies, and if it answers that nothing has
    expired, no timer that has ended is left. *)
Record poll_post (now : N) (self : Registrations) (p : Poll Reg) (self' : Registrations) : Prop := {
  pp_inv : reg_inv self';
  pp_min : min_ttl self' = min_ttl self;
  pp_max : max_ttl self' = max_ttl self;
  pp_subset id r : registrations self' !! id = Some r → registrations self !! id = Some r;
  pp_kept id r : registrations self !! id = Some r → registrations self' !! id = Some r ∨ id ∉ timer_ids self';
  pp_timers_subset x : x ∈ next_expiry self' → x ∈ next_expiry self;
  pp_timers_kept x : x ∈ next_expiry self → x ∈ next_expiry self' ∨ (x.1 ≤ now)%N;
  pp_cookies c id : id ∈ timer_ids self' → id ∈ default ∅ (cookies self' !! c) ↔ id ∈ default ∅ (cookies self !! c);
  pp_pending : p = Pending → Forall (λ x, now < x.1)%N (next_expiry self');
}.

Lemma cleanup_cookie_spec id id' (o : option (gset N)) :
  id' ≠ id → id' ∈ default ∅ (o ≫= cleanup_cookie id) ↔ id' ∈ default ∅ o.
Proof.
  intros Hne. destruct o as [s|]; simpl; [|done]. unfold cleanup_cookie. case_decide as Hd; simpl; [|set_solver].
  split; [set_solver|]. intros Hin. assert (id' ∈ s ∖ {[id]}) by set_solver. set_solver.
Qed.

Lemma cleanup_cookie_inv id (cks : gmap Cookie (gset N)) c s :
  omap (cleanup_cookie id) cks !! c = Some s → ∃ s0, cks !! c = Some s0 ∧ s = s0 ∖ {[id]}.
Proof.
  rewrite lookup_omap. destruct (cks !! c) as [s0|]; simpl; [|done]. unfold cleanup_cookie. case_decide; [done|].
  intros [= <-]. eauto.
Qed.

(** The state after the timer of an id has ended. *)
Lemma expiry_step now self id timers :
  reg_inv self → timers_poll (next_expiry self) now = Some (id, timers) →
  let self' :=
    mkRegistrations (bimap_remove_by_right (registrations_for_peer self) id).2 (delete id (registrations self))
      (omap (cleanup_cookie id) (cookies self)) (min_ttl self) (max_ttl self) timers in
  (∃ t, (t ≤ now)%N ∧ next_expiry self ≡ₚ (t, id) :: timers) ∧ reg_inv self' ∧ (id ∉ timer_ids self') ∧
  ∀ p self'', poll_post now self' p self'' → poll_post now self p self''.
Proof.
  intros Hi Ht self'. destruct (timers_poll_Some _ _ _ _ Ht) as (t & Hle & Hp).
  assert (timer_ids self ≡ₚ id :: timers.*2) as Hids by (unfold timer_ids; by rewrite Hp).
  pose proof (ri_nodup _ Hi) as Hnd. rewrite Hids in Hnd. apply NoDup_cons in Hnd as [Hnin Hnd].
  assert (reg_inv self') as Hi'.
  { apply delete_registration; [done| | |done|].
    - intros k id'. by rewrite bimap_remove_by_right_spec.
    - intros id' Hne. rewrite Hids. set_solver.
    - intros c s id' (s0 & Hc & ->)%cleanup_cookie_inv [Hin Hne]%elem_of_difference.
      pose proof (ri_cookie _ Hi c s0 id' Hc Hin) as Hin'. rewrite Hids in Hin'. set_solver. }
  split_and!; [by exists t|done|done|].
  intros p self'' [Hinv Hmin Hmax Hsub Hkept Hts Htk Hck Hpe].
  assert (∀ id', id' ∈ timer_ids self'' → id' ≠ id) as Hne.
  { intros id' (x & -> & Hx)%list_elem_of_fmap <-. apply Hnin. apply list_elem_of_fmap. exists x. split; [done|]. by apply Hts. }
  split; try done.
  - intros id' r Hr%Hsub. simpl in Hr. by apply lookup_delete_Some in Hr as [_ Hr].
  - intros id' r Hr. destruct (decide (id' = id)) as [->|Hn]; [right; intros Hin; by apply (Hne id)|].
    apply Hkept. simpl. by rewrite lookup_delete_ne.
  - intros x Hx%Hts. rewrite Hp. by right.
  - intros x. rewrite Hp. intros [->|Hx]%elem_of_cons; [by right|by apply Htk].
  - intros c id' Hin. rewrite Hck by done. simpl. rewrite lookup_omap. apply cleanup_cookie_spec. by apply Hne.
Qed.

Lemma poll_post_pending now self : reg_inv self → timers_poll (next_expiry self) now = None → poll_post now self Pending self.
Proof. intros Hi Ht. split; try done; [by left|by left|]. intros _. by apply timers_poll_None. Qed.

Lemma poll_post_ready now self r : reg_inv self → poll_post now self (Ready r) self.
Proof. intros Hi. split; try done; by left. Qed.

Lemma Registrations_poll_spec self now :
  reg_inv self → ∃ p self', Registrations_poll self now = Ret (p, self') ∧ poll_post now self p self'.
Proof.
  intros Hi. unfold Registrations_poll.
  apply (loop_total (expiry_turn now) reg_inv (poll_post now) (λ s, length (next_expiry s))); [|done|lia].
  clear self Hi. intros self Hi. unfold expiry_turn. destruct (timers_poll (next_expiry self) now) as [[id timers]|] eqn:Et.
  - destruct (expiry_step now self id timers Hi Et) as ((t & _ & Hp) & Hi' & _ & Hpost).
    destruct (registrations self !! id) as [r|]; eexists; (split; [done|]).
    + by apply Hpost, poll_post_ready.
    + split_and!; [done|rewrite Hp; simpl; lia|done].
  - eexists. split; [done|]. by apply poll_post_pending.
Qed.

(** ** Sequences of operations on the registrations *)

Inductive reg_op : Type :=
| RAdd (nr : NewReg) (id now : N)
| RRemove (namespace : Namespace) (peer : PeerId)
| RGet (namespace : option Namespace) (cookie : option Cookie) (limit : option N) (random : N)
| RPoll (now : N).

Inductive reg_res : Type :=
| ResAdd (r : Result Reg TtlOutOfRange)
| ResRemove
| ResGet (r : Result (list Reg * Cookie) unit)
| ResPoll (p : Poll Reg).

Definition reg_apply (op : reg_op) (self : Registrations) : outcome (reg_res * Registrations) :=
  match op with
  | RAdd nr id now => let '(r, self) := Registrations_add self nr id now in Ret (ResAdd r, self)
  | RRemove namespace peer => Ret (ResRemove, Registrations_remove self namespace peer)
  | RGet namespace cookie limit random =>
      '(r, self) ← Registrations_get self namespace cookie limit random; Ret (ResGet r, self)
  | RPoll now => '(p, self) ← Registrations_poll self now; Ret (ResPoll p, self)
  end.

Fixpoint reg_run (ops : list reg_op) (self : Registrations) : outcome (list reg_res * Registrations) :=
  match ops with
  | [] => Ret ([], self)
  | op :: ops =>
      '(r, self) ← reg_apply op self;
      '(rs, self) ← reg_run ops self;
      Ret (r :: rs, self)
  end.

(** The random numbers that an operation draws for registrations and for cookies. *)
Definition op_ids (op : reg_op) : list N := match op with RAdd _ id _ => [id] | _ => [] end.
Definition op_randoms (op : reg_op) : list N := match op with RGet _ _ _ random => [random] | _ => [] end.

(** What one operation does to a registration that it does not replace or remove. *)
Definition touches (op : reg_op) (k : PeerId * Namespace) : Prop :=
  match op with
  | RAdd nr _ _ => (record_peer_id (nr_record nr), nr_namespace nr) = k
  | RRemove namespace peer => (peer, namespace) = k
  | _ => False
  end.

(** The registration that a request asks for. *)
Definition requested (nr : NewReg) : Reg := mkRegistration (nr_namespace nr) (nr_record nr) (NewRegistration_effective_ttl nr).

(** One of the operations added the registration under the id. *)
Definition sourced (ops : list reg_op) (id : N) (r : Reg) : Prop := ∃ nr now, RAdd nr id now ∈ ops ∧ r = requested nr.

Record op_post (op : reg_op) (self : Registrations) (res : reg_res) (self' : Registrations) : Prop := {
  op_inv : reg_inv self';
  op_min : min_ttl self' = min_ttl self;
  op_max : max_ttl self' = max_ttl self;
  op_timer_ids id : id ∈ timer_ids self' → id ∈ timer_ids self ∨ id ∈ op_ids op;
  op_new id r : registrations self' !! id = Some r → registrations self !! id = Some r ∨ sourced [op] id r;
  op_kept id r x : registrations self !! id = Some r → ¬ touches op (reg_key r) → (x, id) ∈ next_expiry self →
    (registrations self' !! id = Some r ∧ (x, id) ∈ next_expiry self') ∨
    (registrations self' !! id = None ∧ ∃ now, op = RPoll now ∧ (x ≤ now)%N);
  op_cookies c id : id ∈ timer_ids self' → Forall (λ random, cookie_id c ≠ random) (op_randoms op) →
    id ∈ default ∅ (cookies self' !! c) ↔ id ∈ default ∅ (cookies self !! c);
  op_pending now : op = RPoll now → res = ResPoll Pending → Forall (λ x, now < x.1)%N (next_expiry self');
}.

Lemma sourced_mono ops ops' id r : (∀ op, op ∈ ops → op ∈ ops') → sourced ops id r → sourced ops' id r.
Proof. intros Hs (nr & now & Hin & ->). exists nr, now. auto. Qed.

Lemma new_cookie_id namespace random : cookie_id (new_cookie namespace random) = random.
Proof. by destruct namespace. Qed.

Lemma timer_unique self x x' id : reg_inv self → (x, id) ∈ next_expiry self → (x', id) ∈ next_expiry self → x = x'.
Proof.
  intros Hi H1 H2. pose proof (ri_nodup _ Hi) as Hnd. unfold timer_ids in Hnd.
  apply list_elem_of_lookup_1 in H1 as [i Hi1], H2 as [j Hj]. assert (i = j) as ->.
  { eapply (NoDup_lookup _ _ _ id Hnd); rewrite list_lookup_fmap, ?Hi1, ?Hj; done. }
  congruence.
Qed.

Lemma elem_of_timer_ids self x id : (x, id) ∈ next_expiry self → id ∈ timer_ids self.
Proof. intros Hin. apply list_elem_of_fmap. by exists (x, id). Qed.

Lemma reg_apply_spec op self :
  reg_inv self → Forall (λ id, id ∉ timer_ids self) (op_ids op) →
  ∃ res self', reg_apply op self = Ret (res, self') ∧ op_post op self res self'.
Proof.
  intros Hi Hfresh. destruct op as [nr id now|namespace peer|namespace cookie limit random|now]; cbn [reg_apply].
  - simpl in Hfresh. apply Forall_cons in Hfresh as [Hid _]. pose proof (Registrations_add_spec self nr id now Hi Hid) as Ha.
    simpl in Ha. case_decide.
    + destruct Ha as (self' & -> & Hi' & Hc & Hmin & Hmax & He & Hr). eexists _, self'. split; [done|].
      split; simpl; try done.
      * unfold timer_ids. rewrite He, fmap_app. set_solver.
      * intros id' r [[-> ->]|[? _]]%Hr; [right|by left]. exists nr, now. split; [by left|done].
      * intros id' r x Hr0 Ht Hx. left. split; [|rewrite He; set_solver]. apply Hr. right. split; [done|].
        intros Hk. apply Ht. done.
      * intros c id' _ _. by rewrite Hc.
    + destruct Ha as [e ->]. eexists _, self. split; [done|]. split; try done; by left.
  - destruct (Registrations_remove_spec self namespace peer Hi) as (Hi' & He & Hc & Hmin & Hmax & Hr).
    eexists _, _. split; [done|]. split; try done.
    + intros id. unfold timer_ids. rewrite He. by left.
    + intros id r [? _]%Hr. by left.
    + intros id r x Hr0 Ht Hx. left. rewrite He. split; [|done]. apply Hr. split; [done|]. intros Hk. by apply Ht.
    + intros c id _ _. by rewrite Hc.
  - pose proof (Registrations_get_spec self namespace cookie limit random Hi) as Hg. case_decide.
    + destruct Hg as (ids & regs & self' & -> & Hi' & Hr & He & _ & Hmin & Hmax & Hc & _). eexists _, self'. split; [done|].
      split; try done; unfold timer_ids; rewrite ?Hr, ?He; try by left.
      * intros c id _ Hf. rewrite Hc. apply Forall_cons in Hf as [Hf _].
        rewrite lookup_insert_ne; [done|]. intros <-. by rewrite new_cookie_id in Hf.
    + rewrite Hg. eexists _, self. split; [done|]. split; try done; by left.
  - destruct (Registrations_poll_spec self now Hi) as (p & self' & -> & Hp). eexists _, self'. split; [done|].
    destruct Hp as [Hi' Hmin Hmax Hsub Hkept Hts Htk Hck Hpe]. split; try done.
    + intros id (x & -> & Hx)%list_elem_of_fmap. left. apply list_elem_of_fmap. exists x. auto.
    + intros id r Hr. left. by apply Hsub.
    + intros id r x Hr Ht Hx. destruct (decide (id ∈ timer_ids self')) as [Hin|Hnin].
      * left. destruct (Hkept id r Hr) as [Hk|Hk]; [|done]. split; [done|].
        apply list_elem_of_fmap in Hin as ([x' id'] & -> & Hx'). by rewrite (timer_unique self x x' id' Hi Hx (Hts _ Hx')).
      * right. split.
        -- destruct (registrations self' !! id) as [r'|] eqn:E; [|done]. exfalso. by apply Hnin, (ri_timer _ Hi' id r').
        -- exists now. split; [done|]. destruct (Htk _ Hx) as [Hin|?]; [|done]. by apply elem_of_timer_ids in Hin.
    + intros c id Hin _. by apply Hck.
    + intros now' [= <-] [= ->]. by apply Hpe.
Qed.

(** The ids of a run are fresh: they are drawn once each and have no timer yet. *)
Definition fresh_ids (self : Registrations) (ops : list reg_op) : Prop :=
  NoDup (ops ≫= op_ids) ∧ ∀ id, id ∈ timer_ids self → id ∉ ops ≫= op_ids.

Lemma reg_step op ops self :
  reg_inv self → fresh_ids self (op :: ops) →
  ∃ res self', reg_apply op self = Ret (res, self') ∧ op_post op self res self' ∧ fresh_ids self' ops.
Proof.
  intros Hi [Hnd Hfr]. simpl in Hnd, Hfr. apply NoDup_app in Hnd as (Hnd1 & Hdis & Hnd2).
  destruct (reg_apply_spec op self Hi) as (res & self' & Ha & Hp).
  { apply Forall_forall. intros id Hin Ht. apply (Hfr id Ht). apply elem_of_app. by left. }
  exists res, self'. split_and!; [done|done|]. split; [done|].
  intros id [Ht|Ht]%(op_timer_ids _ _ _ _ Hp); [|by apply Hdis]. intros Hin. apply (Hfr id Ht). apply elem_of_app. by right.
Qed.

Lemma reg_run_cons op ops self :
  reg_inv self → fresh_ids self (op :: ops) →
  ∃ res self', reg_run (op :: ops) self = ('(rs, s) ← reg_run ops self'; Ret (res :: rs, s)) ∧
    op_post op self res self' ∧ fresh_ids self' ops.
Proof.
  intros Hi Hf. destruct (reg_step op ops self Hi Hf) as (res & self' & Ha & Hp). exists res, self'. simpl. by rewrite Ha.
Qed.

Lemma reg_run_returns ops self :
  reg_inv self → fresh_ids self ops →
  ∃ rs self', reg_run ops self = Ret (rs, self') ∧ reg_inv self' ∧ min_ttl self' = min_ttl self ∧ max_ttl self' = max_ttl self ∧
    ∀ id, id ∈ timer_ids self' → id ∈ timer_ids self ∨ id ∈ ops ≫= op_ids.
Proof.
  revert self. induction ops as [|op ops IH]; intros self Hi Hf; [exists [], self; split_and!; [done..|by left]|].
  destruct (reg_run_cons op ops self Hi Hf) as (res & self1 & -> & Hp & Hf1).
  destruct (IH self1 (op_inv _ _ _ _ Hp) Hf1) as (rs & self2 & -> & Hi2 & Hmin & Hmax & Ht2). simpl. eexists _, self2.
  rewrite Hmin, Hmax, (op_min _ _ _ _ Hp), (op_max _ _ _ _ Hp). split_and!; [done..|].
  intros id [Hin|Hin]%Ht2; [|right; set_solver]. destruct (op_timer_ids _ _ _ _ Hp id Hin); [by left|right; set_solver].
Qed.

(** ** The lifetime of a registration *)

Lemma reg_run_app ops1 ops2 self :
  reg_run (ops1 ++ ops2) self = ('(rs1, s1) ← reg_run ops1 self; '(rs2, s2) ← reg_run ops2 s1; Ret (rs1 ++ rs2, s2)).
Proof.
  revert self. induction ops1 as [|op ops1 IH]; intros self; simpl; [by destruct (reg_run ops2 self) as [[]|]|].
  destruct (reg_apply op self) as [[r s1]|]; [|done]. simpl. rewrite IH. destruct (reg_run ops1 s1) as [[rs1 s2]|]; [|done].
  simpl. by destruct (reg_run ops2 s2) as [[]|].
Qed.

(** The registration is there with its timer, or nothing is registered under its key. *)
Definition tracked (self : Registrations) (id : N) (r : Reg) (deadline : N) : Prop :=
  (registrations self !! id = Some r ∧ (deadline, id) ∈ next_expiry self) ∨ registered self (reg_key r) = None.

Lemma registered_None self k : reg_inv self → registered self k = None ↔ ∀ id r, registrations self !! id = Some r → reg_key r ≠ k.
Proof.
  intros Hi. rewrite eq_None_not_Some. split.
  - intros Hn id r Hr Hk. apply Hn. exists r. apply registered_Some; [done|eauto].
  - intros Hn [r (id & Hr & Hk)%registered_Some]; [|done]. by apply (Hn id r).
Qed.

(** Other operations keep it, unless a poll after its deadline drops it. *)
Lemma tracked_step op self res self' id r deadline :
  reg_inv self → op_post op self res self' → ¬ touches op (reg_key r) → tracked self id r deadline →
  tracked self' id r deadline ∧
  (registered self (reg_key r) = Some r → (∀ now, op = RPoll now → (now < deadline)%N) → registered self' (reg_key r) = Some r).
Proof.
  intros Hi Hp Ht Htr. pose proof (op_inv _ _ _ _ Hp) as Hi'.
  assert (∀ id' r', registrations self' !! id' = Some r' → reg_key r' = reg_key r → registrations self !! id' = Some r') as Hback.
  { intros id' r' Hr' Hk. destruct (op_new _ _ _ _ Hp id' r' Hr') as [?|(nr & now & Hin & ->)]; [done|].
    apply list_elem_of_singleton in Hin as <-. by destruct Ht. }
  destruct Htr as [[Hr Hd]|Hn].
  - destruct (op_kept _ _ _ _ Hp id r deadline Hr Ht Hd) as [[Hr' Hd']|[Hnone (now & -> & Hle)]].
    + split; [by left|]. intros _ _. apply registered_Some; eauto.
    + split; [|intros _ Hlt; specialize (Hlt now eq_refl); lia]. right. apply registered_None; [done|].
      intros id' r' Hr' Hk. specialize (Hback id' r' Hr' Hk). pose proof (ri_complete _ Hi id' r' Hback) as H1.
      pose proof (ri_complete _ Hi id r Hr) as H2. rewrite Hk in H1. rewrite (bimap_left_unique _ _ _ _ H1 H2) in Hr'. congruence.
  - split; [|by rewrite Hn]. right. apply registered_None; [done|]. intros id' r' Hr' Hk.
    rewrite registered_None in Hn by done. by apply (Hn id' r'); [apply Hback|].
Qed.

Lemma tracked_run ops self rs self' id r deadline :
  reg_inv self → fresh_ids self ops → reg_run ops self = Ret (rs, self') → Forall (λ op, ¬ touches op (reg_key r)) ops →
  tracked self id r deadline →
  tracked self' id r deadline ∧
  (registered self (reg_key r) = Some r → Forall (λ op, ∀ now, op = RPoll now → (now < deadline)%N) ops →
   registered self' (reg_key r) = Some r).
Proof.
  revert self rs. induction ops as [|op ops IH]; intros self rs Hi Hf Hr Ht Htr.
  { injection Hr as _ <-. done. }
  destruct (reg_run_cons op ops self Hi Hf) as (res & self1 & Hrun & Hp & Hf1). rewrite Hrun in Hr.
  apply Forall_cons in Ht as [Ht Hts]. destruct (tracked_step op self res self1 id r deadline Hi Hp Ht Htr) as [Htr1 Halive].
  destruct (reg_run ops self1) as [[rs1 self2]|] eqn:E; [|done]. injection Hr as _ <-.
  destruct (IH self1 rs1 (op_inv _ _ _ _ Hp) Hf1 E Hts Htr1) as [Htr2 Halive2]. split; [done|].
  intros Hreg [Hlt Hlts]%Forall_cons. auto.
Qed.

Lemma fresh_ids_new config ops : NoDup (ops ≫= op_ids) → fresh_ids (Registrations_with_config config) ops.
Proof. intros Hn. split; [done|]. by intros id []%elem_of_nil. Qed.

Lemma last_pending ops now self rs self' :
  reg_inv self → fresh_ids self ops → reg_run ops self = Ret (rs, self') →
  last ops = Some (RPoll now) → last rs = Some (ResPoll Pending) → Forall (λ x, now < x.1)%N (next_expiry self').
Proof.
  revert self rs. induction ops as [|op ops IH]; intros self rs Hi Hf Hr Hl Hp; [done|].
  destruct (reg_run_cons op ops self Hi Hf) as (res & self1 & Hrun & Hpost & Hf1). rewrite Hrun in Hr.
  destruct (reg_run ops self1) as [[rs1 self2]|] eqn:E; [|done]. injection Hr as <- <-.
  destruct ops as [|op' ops].
  - injection E as <- <-. injection Hl as ->. injection Hp as ->. by eapply (op_pending _ _ _ _ Hpost).
  - destruct rs1 as [|res' rs1].
    { simpl in E. destruct (reg_apply op' self1) as [[r1 s1]|]; [|done]. simpl in E. by destruct (reg_run ops s1) as [[]|]. }
    by apply (IH self1 (res' :: rs1)); try done; apply (op_inv _ _ _ _ Hpost).
Qed.

(** A registration lives for its time to live: after any operations, a
    registration within the limits is there as long as its peer neither replaces nor
    removes it and no poll comes after its time to live, whatever other operations
    are run, none of which panics; and when a poll after that time answers that
    nothing more has expired, the registration is gone. *)
Theorem Registrations_lifetime config pre nr id t post :
  let ttl := NewRegistration_effective_ttl nr in
  let r := requested nr in
  NoDup ((pre ++ RAdd nr id t :: post) ≫= op_ids) → (cfg_min_ttl config ≤ ttl ≤ cfg_max_ttl config)%N →
  Forall (λ op, ¬ touches op (reg_key r)) post →
  ∃ rs self', reg_run (pre ++ RAdd nr id t :: post) (Registrations_with_config config) = Ret (rs, self') ∧
    (Forall (λ op, ∀ now, op = RPoll now → (now < t + from_secs ttl)%N) post → registered self' (reg_key r) = Some r) ∧
    (∀ now, last post = Some (RPoll now) → last rs = Some (ResPoll Pending) → (t + from_secs ttl ≤ now)%N →
       registered self' (reg_key r) = None).
Proof.
  intros ttl r Hnd Hlim Ht. rewrite bind_app in Hnd. apply NoDup_app in Hnd as (Hnd1 & Hdis & Hnd2).
  destruct (reg_run_returns pre _ (reg_inv_new config) (fresh_ids_new config pre Hnd1)) as (rs1 & s1 & Hr1 & Hi1 & Hmin & Hmax & Hti).
  assert (fresh_ids s1 (RAdd nr id t :: post)) as Hf1.
  { split; [done|]. intros i [[]%elem_of_nil|Hin]%Hti. by apply Hdis. }
  assert (id ∉ timer_ids s1) as Hid.
  { intros Hin. apply (proj2 Hf1 id Hin). by left. }
  pose proof (Registrations_add_spec s1 nr id t Hi1 Hid) as Ha. simpl in Ha.
  rewrite Hmin, Hmax, decide_True in Ha by done. destruct Ha as (s2 & Ha & Hi2 & _ & _ & _ & He & Hregs).
  assert (registrations s2 !! id = Some r) as Hr by (apply Hregs; by left).
  destruct (reg_step (RAdd nr id t) post s1 Hi1 Hf1) as (res & s2' & Hrun & _ & Hf2).
  pose proof Hrun as Heq. simpl in Heq. rewrite Ha in Heq. injection Heq as <- <-.
  destruct (reg_run_returns post s2 Hi2 Hf2) as (rs2 & s3 & Hr2 & Hi3 & _).
  assert (tracked s2 id r (t + from_secs ttl)) as Htr.
  { left. split; [done|]. rewrite He. apply elem_of_app. right. by left. }
  destruct (tracked_run post s2 rs2 s3 id r _ Hi2 Hf2 Hr2 Ht Htr) as [Htr3 Halive].
  eexists _, s3. rewrite reg_run_app, Hr1. cbn [mbind outcome_bind]. cbn [reg_run]. rewrite Hrun. cbn [mbind outcome_bind]. rewrite Hr2.
  split; [reflexivity|]. split; [apply Halive, registered_Some; eauto|]. intros now Hl Hp Hle.
  destruct Htr3 as [[_ Hin]|?]; [|done]. exfalso.
  assert (last rs2 = Some (ResPoll Pending)) as Hl2.
  { rewrite last_app in Hp. rewrite last_cons in Hp. destruct (last rs2); [done|]. discriminate Hp. }
  pose proof (last_pending post now s2 rs2 s3 Hi2 Hf2 Hr2 Hl Hl2) as Hall. rewrite Forall_forall in Hall.
  specialize (Hall _ Hin). simpl in Hall. lia.
Qed.

(** ** Runs of the behaviour *)

Inductive srv_op : Type :=
| SrvInject (peer_id : PeerId) (connection : N) (event : HandlerEvent) (registration_id random now : N)
| SrvPoll (now : N).

Definition srv_apply (op : srv_op) (self : ServerBehaviour) : outcome (list (Poll ServerAction) * ServerBehaviour) :=
  match op with
  | SrvInject peer_id connection event registration_id random now =>
      self ← ServerBehaviour_inject_event self peer_id connection event registration_id random now; Ret ([], self)
  | SrvPoll now => '(p, self) ← ServerBehaviour_poll self now; Ret ([p], self)
  end.

Fixpoint srv_run (ops : list srv_op) (self : ServerBehaviour) : outcome (list (Poll ServerAction) * ServerBehaviour) :=
  match ops with
  | [] => Ret ([], self)
  | op :: ops =>
      '(ps, self) ← srv_apply op self;
      '(ps', self) ← srv_run ops self;
      Ret (ps ++ ps', self)
  end.

(** The operation on the registrations that a step of the behaviour makes: a peer can
    only register its own record and only remove its own registrations. *)
Definition srv_reg_op (op : srv_op) : list reg_op :=
  match op with
  | SrvInject peer_id _ (InboundEvent _ (RegistrationRequested nr)) registration_id _ now =>
      if decide (record_peer_id (nr_record nr) = peer_id) then [RAdd nr registration_id now] else []
  | SrvInject peer_id _ (InboundEvent _ (UnregisterRequested namespace)) _ _ _ => [RRemove namespace peer_id]
  | SrvInject _ _ (InboundEvent _ (DiscoverRequested namespace cookie limit)) _ random _ => [RGet namespace cookie limit random]
  | SrvInject _ _ (InboundError _) _ _ _ => []
  | SrvPoll now => [RPoll now]
  end.

Lemma srv_apply_refines op self rs regs' :
  reg_run (srv_reg_op op) (sb_registrations self) = Ret (rs, regs') →
  ∃ ps self', srv_apply op self = Ret (ps, self') ∧ sb_registrations self' = regs'.
Proof.
  destruct op as [peer conn [id [nr|namespace|namespace cookie limit]|id] rid random now|now]; simpl; intros Hr.
  - case_decide as Hp; simpl in Hr.
    + rewrite decide_False by naive_solver. destruct (Registrations_add _ _ _ _) as [[r|[]] regs]; simpl in Hr; injection Hr as _ <-;
        eexists _, _; split; reflexivity.
    + rewrite decide_True by done. injection Hr as _ <-. eexists _, _; split; reflexivity.
  - injection Hr as _ <-. eexists _, _; split; reflexivity.
  - destruct (Registrations_get _ _ _ _ _) as [[[[]|] regs]|]; simpl in Hr |- *; [..|done]; injection Hr as _ <-;
      eexists _, _; split; reflexivity.
  - injection Hr as _ <-. eexists _, _; split; reflexivity.
  - unfold ServerBehaviour_poll. destruct (Registrations_poll _ _) as [[[r|] regs]|]; simpl in Hr |- *; [| |done]; injection Hr as _ <-.
    + eexists _, _; split; reflexivity.
    + destruct (sb_events self); eexists _, _; split; reflexivity.
Qed.

Lemma srv_run_refines ops self rs regs' :
  reg_run (ops ≫= srv_reg_op) (sb_registrations self) = Ret (rs, regs') →
  ∃ ps self', srv_run ops self = Ret (ps, self') ∧ sb_registrations self' = regs'.
Proof.
  revert self rs. induction ops as [|op ops IH]; intros self rs Hr; [injection Hr as _ <-; by eexists _, _|].
  rewrite bind_cons, reg_run_app in Hr. destruct (reg_run (srv_reg_op op) _) as [[rs1 regs1]|] eqn:E; [|done]. simpl in Hr.
  destruct (reg_run (ops ≫= srv_reg_op) regs1) as [[rs2 regs2]|] eqn:E2; [|done]. injection Hr as _ <-.
  destruct (srv_apply_refines op self _ _ E) as (ps & self1 & Ha & <-). destruct (IH self1 _ E2) as (ps2 & self2 & Hr2 & <-).
  exists (ps ++ ps2), self2. simpl. rewrite Ha. simpl. by rewrite Hr2.
Qed.

Lemma reg_run_sourced ops self rs self' id r :
  reg_inv self → fresh_ids self ops → reg_run ops self = Ret (rs, self') → registrations self' !! id = Some r →
  registrations self !! id = Some r ∨ sourced ops id r.
Proof.
  revert self rs. induction ops as [|op ops IH]; intros self rs Hi Hf Hr Hid; [injection Hr as _ <-; by left|].
  destruct (reg_run_cons op ops self Hi Hf) as (res & self1 & Hrun & Hp & Hf1). rewrite Hrun in Hr.
  destruct (reg_run ops self1) as [[rs1 self2]|] eqn:E; [|done]. injection Hr as _ <-.
  destruct (IH self1 rs1 (op_inv _ _ _ _ Hp) Hf1 E Hid) as [Hid1|Hs].
  - destruct (op_new _ _ _ _ Hp id r Hid1) as [?|Hs]; [by left|right]. eapply sourced_mono; [|done]. set_solver.
  - right. eapply sourced_mono; [|done]. set_solver.
Qed.

(** [C28] Whatever the connections report and whenever the server is polled, it does
    not panic, and everything it has registered under a peer and a namespace was
    requested by that peer over one of its own connections, with a record signed for
    that peer, and has a time to live within the configured limits. *)
Theorem ServerBehaviour_run_safe config ops :
  NoDup ((ops ≫= srv_reg_op) ≫= op_ids) →
  ∃ ps self, srv_run ops (ServerBehaviour_new config) = Ret (ps, self) ∧
    ∀ peer namespace r, registered (sb_registrations self) (peer, namespace) = Some r →
      (cfg_min_ttl config ≤ reg_ttl r ≤ cfg_max_ttl config)%N ∧ reg_key r = (peer, namespace) ∧
      ∃ connection id nr registration_id random now,
        SrvInject peer connection (InboundEvent id (RegistrationRequested nr)) registration_id random now ∈ ops ∧ r = requested nr.
Proof.
  intros Hnd. pose proof (fresh_ids_new config _ Hnd) as Hf. pose proof (reg_inv_new config) as Hi.
  destruct (reg_run_returns _ _ Hi Hf) as (rs & regs & Hr & Hi' & Hmin & Hmax & _).
  destruct (srv_run_refines ops (ServerBehaviour_new config) rs regs Hr) as (ps & self & Hrun & Hregs).
  exists ps, self. split; [done|]. rewrite Hregs. intros peer namespace r Hreg.
  apply registered_Some in Hreg as (id & Hid & Hk); [|done]. pose proof (ri_ttl _ Hi' id r Hid) as Httl.
  rewrite Hmin, Hmax in Httl. split; [exact Httl|]. split; [done|].
  destruct (reg_run_sourced _ _ _ _ id r Hi Hf Hr Hid) as [Hold|(nr & now & Hin & ->)]; [by simpl in Hold; rewrite lookup_empty in Hold|].
  apply list_elem_of_bind in Hin as (op & Hin & Hop).
  destruct op as [peer' conn [sid [nr'|?|???]|?] rid random now'|?]; simpl in Hin; try set_solver.
  case_decide as Hpeer; [|by apply elem_of_nil in Hin]. apply list_elem_of_singleton in Hin as [= -> -> ->].
  injection Hk as Hp _. simpl in Hp. rewrite Hp in Hpeer. subst peer'. eauto 10.
Qed.

(** ** Discovery page by page *)

(** A client asks for page after page of the registrations under a namespace, or of
    all registrations, each time with the cookie of the page before.  Before each
    page there are other operations. *)
Record page : Type := mkPage { pg_before : list reg_op; pg_limit : option N; pg_random : N }.

Fixpoint session (namespace : option Namespace) (pages : list page) (cookie : option Cookie) (self : Registrations) :
    outcome (list (list Reg) * Registrations) :=
  match pages with
  | [] => Ret ([], self)
  | pg :: pages =>
      '(_, self) ← reg_run (pg_before pg) self;
      '(res, self) ← Registrations_get self namespace cookie (pg_limit pg) (pg_random pg);
      match res with
      | Ok (regs, cookie) => '(rest, self) ← session namespace pages (Some cookie) self; Ret (regs :: rest, self)
      | Err _ => Ret ([], self)
      end
  end.

Definition page_randoms (pg : page) : list N := (pg_before pg ≫= op_randoms) ++ [pg_random pg].

(** What the cookie of a session remembers: of the ids that are in use, those that
    have been delivered. *)
Record remembers (self : Registrations) (cookie : option Cookie) (delivered : list N) : Prop := {
  rem_inv : reg_inv self;
  rem_seen id : id ∈ timer_ids self → id ∈ seen_with self cookie ↔ id ∈ delivered;
}.

Lemma seen_with_timer self cookie id : reg_inv self → id ∈ seen_with self cookie → id ∈ timer_ids self.
Proof.
  intros Hi Hin. unfold seen_with in Hin. destruct cookie as [c|]; simpl in Hin; [|set_solver].
  destruct (cookies self !! c) as [ids|] eqn:E; simpl in Hin; [by eapply (ri_cookie _ Hi)|set_solver].
Qed.

Definition avoids (cookie : option Cookie) (randoms : list N) : Prop :=
  match cookie with Some c => cookie_id c ∉ randoms | None => True end.

Lemma remembers_run ops self rs self' cookie delivered :
  fresh_ids self ops → avoids cookie (ops ≫= op_randoms) → (∀ id, id ∈ delivered → id ∉ ops ≫= op_ids) →
  remembers self cookie delivered → reg_run ops self = Ret (rs, self') → remembers self' cookie delivered.
Proof.
  revert self rs. induction ops as [|op ops IH]; intros self rs Hf Ha Hd Hm Hr; [by injection Hr as _ <-|].
  destruct Hm as [Hi Hm]. destruct (reg_run_cons op ops self Hi Hf) as (res & self1 & Hrun & Hp & Hf1). rewrite Hrun in Hr.
  destruct (reg_run ops self1) as [[rs1 self2]|] eqn:E; [|done]. injection Hr as _ <-. rewrite bind_cons in Ha, Hd.
  apply (IH self1 rs1); [done|..|done].
  { unfold avoids in *. destruct cookie; set_solver. }
  { set_solver. }
  split; [apply (op_inv _ _ _ _ Hp)|]. intros id Hid.
  assert (id ∈ seen_with self1 cookie ↔ id ∈ seen_with self cookie) as ->.
  { unfold seen_with. destruct cookie as [c|]; simpl; [|done]. apply (op_cookies _ _ _ _ Hp); [done|].
    apply Forall_forall. intros x Hx <-. simpl in Ha. set_solver. }
  destruct (op_timer_ids _ _ _ _ Hp id Hid) as [Hold|Hnew]; [by apply Hm|].
  split; [|set_solver]. intros Hs%seen_with_timer; [|done]. destruct Hf as [_ Hf]. specialize (Hf id Hs). simpl in Hf. set_solver.
Qed.

(** The page is shorter than its limit. *)
Definition short (pg : page) (regs : list Reg) : Prop :=
  match pg_limit pg with Some n => (length regs < N.to_nat n)%nat | None => True end.

(** The state of a session before its remaining pages, when the given registrations
    have been delivered under the given ids. *)
Record session_inv (all : list reg_op) (namespace : option Namespace) (pages : list page) (cookie : option Cookie)
    (self : Registrations) (delivered : list (N * Reg)) : Prop := {
  si_remembers : remembers self cookie delivered.*1;
  si_fresh : fresh_ids self (pages ≫= pg_before);
  si_delivered id : id ∈ delivered.*1 → id ∉ (pages ≫= pg_before) ≫= op_ids;
  si_fits : cookie_fits namespace cookie;
  si_avoids : avoids cookie (pages ≫= page_randoms);
  si_randoms : NoDup (pages ≫= page_randoms);
  si_sourced id r : registrations self !! id = Some r → sourced all id r;
  si_all op : op ∈ pages ≫= pg_before → op ∈ all;
  si_nodup : NoDup delivered.*1;
  si_legit : Forall (λ p, sourced all p.1 p.2 ∧ matches namespace p.2) delivered;
}.

Lemma cookie_fits_new namespace random : cookie_fits namespace (Some (new_cookie namespace random)).
Proof. by destruct namespace. Qed.

(** A page delivers registrations that have not been delivered, and if it is short
    nothing is left to deliver. *)
Lemma session_page all namespace pg pages cookie self delivered :
  session_inv all namespace (pg :: pages) cookie self delivered →
  ∃ rs self1 new self2,
    reg_run (pg_before pg) self = Ret (rs, self1) ∧
    Registrations_get self1 namespace cookie (pg_limit pg) (pg_random pg) =
      Ret (Ok (new.*2, new_cookie namespace (pg_random pg)), self2) ∧
    session_inv all namespace pages (Some (new_cookie namespace (pg_random pg))) self2 (delivered ++ new) ∧
    (short pg new.*2 → ∀ id r, registrations self2 !! id = Some r → matches namespace r → id ∈ (delivered ++ new).*1).
Proof.
  intros [Hrem Hfr Hdel Hfit Hav Hrn Hsrc Hall Hnd Hleg]. pose proof (rem_inv _ _ _ Hrem) as Hi.
  rewrite bind_cons in Hfr, Hdel, Hall. rewrite bind_cons in Hav, Hrn. unfold fresh_ids in Hfr. rewrite bind_app in Hfr, Hdel.
  destruct Hfr as [Hfr1 Hfr2]. apply NoDup_app in Hfr1 as (Hn1 & Hdis & Hn2). apply NoDup_app in Hrn as (Hr1 & Hrdis & Hr2).
  assert (fresh_ids self (pg_before pg)) as Hf by (split; [done|set_solver]).
  destruct (reg_run_returns _ _ Hi Hf) as (rs & self1 & Hrun & Hi1 & _ & _ & Hti).
  assert (remembers self1 cookie delivered.*1) as Hrem1.
  { eapply remembers_run; [exact Hf| | |done|done]; [|set_solver]. unfold avoids in *. destruct cookie; [|done].
    unfold page_randoms in Hav. set_solver. }
  pose proof (Registrations_get_spec self1 namespace cookie (pg_limit pg) (pg_random pg) Hi1) as Hg.
  rewrite decide_True in Hg by done.
  destruct Hg as (ids & regs & self2 & Hg & Hi2 & Hregs & Hexp & _ & _ & _ & Hck & Hids & Hall2).
  exists rs, self1, (zip ids regs), self2. pose proof (Forall2_length _ _ _ Hall2) as Hlen.
  assert ((zip ids regs).*1 = ids) as Hz1 by (apply fst_zip; lia). assert ((zip ids regs).*2 = regs) as Hz2 by (apply snd_zip; lia).
  assert (∀ id, id ∈ ids → (id ∉ delivered.*1) ∧ id ∈ timer_ids self1 ∧ ∃ r, registrations self1 !! id = Some r ∧ matches namespace r) as Hnew.
  { intros id Hin. rewrite Hids in Hin. eapply elem_of_sublist in Hin; [|apply take_limit_sublist].
    apply omap_discoverable in Hin as (Hs & r & Hr & Hm); [|done]. pose proof (ri_timer _ Hi1 id r Hr) as Ht.
    split_and!; [|done|by exists r]. by rewrite <-(rem_seen _ _ _ Hrem1 id Ht). }
  assert (∀ id r, registrations self1 !! id = Some r → sourced all id r) as Hsrc1.
  { intros id r Hr. destruct (reg_run_sourced _ _ _ _ id r Hi Hf Hrun Hr) as [?|Hso]; [by apply Hsrc|].
    eapply sourced_mono; [|done]. set_solver. }
  rewrite Hz2. split_and!; [done|done| |].
  - split.
    + split; [done|]. intros id. unfold timer_ids, seen_with. rewrite Hexp, Hck. simpl. rewrite lookup_insert_eq. simpl.
      intros Hid. rewrite elem_of_union, elem_of_list_to_set, fmap_app, elem_of_app, Hz1. by rewrite (rem_seen _ _ _ Hrem1 id Hid).
    + split; [done|]. unfold timer_ids. rewrite Hexp. intros id [Hin|Hin]%Hti; [set_solver|by apply Hdis].
    + intros id. rewrite fmap_app, elem_of_app, Hz1. intros [Hin|Hin]; [set_solver|].
      destruct (Hnew id Hin) as (_ & Hin' & _). destruct (Hti id Hin'); [set_solver|by apply Hdis].
    + apply cookie_fits_new.
    + simpl. rewrite new_cookie_id. apply Hrdis. apply elem_of_app. right. by left.
    + done.
    + intros id r. rewrite Hregs. apply Hsrc1.
    + set_solver.
    + rewrite fmap_app, Hz1. apply NoDup_app. split_and!; [done| |].
      * intros id Hin Hin'. by destruct (Hnew id Hin') as [? _].
      * rewrite Hids. eapply sublist_NoDup; [apply NoDup_omap_discoverable|apply take_limit_sublist].
    + apply Forall_app. split; [done|]. apply Forall_forall. intros [id r] Hin. simpl.
      pose proof (elem_of_zip_l _ _ _ _ Hin) as Hl. destruct (Hnew id Hl) as (_ & _ & r' & Hr' & Hm).
      assert (registrations self1 !! id = Some r) as Hr.
      { rewrite elem_of_lookup_zip_with in Hin. destruct Hin as (k & a & b & [= <- <-] & Ha & Hb).
        by destruct (Forall2_lookup_lr _ _ _ _ _ _ Hall2 Ha Hb). }
      split; [by apply Hsrc1|]. congruence.
  - intros Hs id r Hr Hm. rewrite Hregs in Hr. rewrite fmap_app, elem_of_app, Hz1.
    destruct (decide (id ∈ seen_with self1 cookie)) as [Hin|Hin].
    { left. apply (rem_seen _ _ _ Hrem1); [|done]. by eapply (ri_timer _ Hi1). }
    right. rewrite Hids. rewrite (take_limit_short (pg_limit pg)); [apply omap_discoverable; eauto|].
    unfold short in Hs. rewrite <-Hlen, Hids in Hs. done.
Qed.

Lemma session_spec all namespace pages cookie self delivered :
  session_inv all namespace pages cookie self delivered →
  ∃ rest self' new, session namespace pages cookie self = Ret (rest, self') ∧ length rest = length pages ∧
    new.*2 = concat rest ∧ (∃ cookie', session_inv all namespace [] cookie' self' (delivered ++ new)) ∧
    (∀ pg regs, last pages = Some pg → last rest = Some regs → short pg regs →
      ∀ id r, registrations self' !! id = Some r → matches namespace r → id ∈ (delivered ++ new).*1).
Proof.
  revert cookie self delivered. induction pages as [|pg pages IH]; intros cookie self delivered Hsi.
  { exists [], self, []. rewrite app_nil_r. split_and!; [done..|by exists cookie|done]. }
  destruct (session_page _ _ _ _ _ _ _ Hsi) as (rs & self1 & new & self2 & Hrun & Hget & Hsi2 & Hshort).
  destruct (IH _ _ _ Hsi2) as (rest & self3 & new2 & Hses & Hlen & Hnew2 & Hsi3 & Hlast).
  exists (new.*2 :: rest), self3, (new ++ new2). rewrite app_assoc. simpl. rewrite Hrun. simpl. rewrite Hget. simpl. rewrite Hses.
  split_and!; [done|by rewrite Hlen|by rewrite fmap_app, Hnew2|done|].
  intros pg' regs Hp Hr Hs. destruct pages as [|pg2 pages].
  - destruct rest; [|done]. simplify_eq/=. destruct new2; [|done]. rewrite app_nil_r. by apply Hshort.
  - destruct rest as [|r2 rest]; [done|]. by apply (Hlast pg' regs).
Qed.

Lemma sourced_unique ops id r r' : NoDup (ops ≫= op_ids) → sourced ops id r → sourced ops id r' → r = r'.
Proof.
  intros Hnd (nr & now & Hin & ->) (nr' & now' & Hin' & ->).
  induction ops as [|op ops IH]; [by apply elem_of_nil in Hin|].
  rewrite bind_cons in Hnd. apply NoDup_app in Hnd as (_ & Hdis & Hnd).
  assert (∀ nr now, RAdd nr id now ∈ ops → id ∈ ops ≫= op_ids) as Hmem.
  { intros nr0 now0 Hin0. apply list_elem_of_bind. exists (RAdd nr0 id now0). split; [by left|done]. }
  apply elem_of_cons in Hin as [<-|Hin], Hin' as [Heq|Hin'].
  - by injection Heq as -> _.
  - destruct (Hdis id); [by left|by eapply Hmem].
  - subst op. destruct (Hdis id); [by left|by eapply Hmem].
  - by apply IH.
Qed.

(** [C27] Discovery page by page is exact: a client that asks for page after page with
    the cookie of the page before is never refused; whatever registrations, removals,
    expiries and discoveries of others come in between, everything it gets was
    registered under the namespace it asks for, no two results come from the same
    registration, and when a page is shorter than its limit it has got every matching
    registration that the server holds. *)
Theorem discover_session config namespace pages :
  NoDup ((pages ≫= pg_before) ≫= op_ids) → NoDup (pages ≫= page_randoms) →
  ∃ rest self ids, session namespace pages None (Registrations_with_config config) = Ret (rest, self) ∧
    length rest = length pages ∧ NoDup ids ∧
    Forall2 (λ id r, sourced (pages ≫= pg_before) id r ∧ matches namespace r) ids (concat rest) ∧
    ∀ pg regs, last pages = Some pg → last rest = Some regs → short pg regs →
      ∀ k r, registered self k = Some r → matches namespace r → r ∈ concat rest.
Proof.
  intros Hids Hrandoms. set (all := pages ≫= pg_before).
  assert (session_inv all namespace pages None (Registrations_with_config config) []) as Hsi.
  { split; try done; [|by apply fresh_ids_new|by intros id []%elem_of_nil|constructor].
    split; [apply reg_inv_new|]. by intros id []%elem_of_nil. }
  destruct (session_spec _ _ _ _ _ _ Hsi) as (rest & self & new & Hrun & Hlen & Hnew & [ck Hsi'] & Hshort).
  exists rest, self, new.*1. destruct Hsi' as [Hrem _ _ _ _ _ Hsrc _ Hnd Hleg]. split_and!; [done..| |].
  - rewrite <-Hnew. apply Forall2_fmap_2. by apply Forall_Forall2_diag.
  - intros pg regs Hp Hr Hs k r Hreg Hm. apply registered_Some in Hreg as (id & Hid & _); [|apply Hrem].
    pose proof (Hshort pg regs Hp Hr Hs id r Hid Hm) as Hin. apply list_elem_of_fmap in Hin as ([id' r'] & -> & Hin).
    simpl in *. rewrite Forall_forall in Hleg. destruct (Hleg _ Hin) as [Hso _]. simpl in Hso.
    rewrite (sourced_unique all id' r r' Hids (Hsrc _ _ Hid) Hso), <-Hnew. apply list_elem_of_fmap. by exists (id', r').
Qed.
End server.

(** ** Instances *)

Section assoc.
Context {L R : Type} `{EqDecision L, EqDecision R}.

(** An association list is a bidirectional map. *)
Definition AssocBiMap : Type := { l : list (L * R) | NoDup l.*1 ∧ NoDup l.*2 }.

Lemma NoDup_filter_fmap {A B} (f : A → B) (P : A → Prop) `{∀ x, Decision (P x)} (l : list A) :
  NoDup (f <$> l) → NoDup (f <$> filter P l).
Proof.
  induction l as [|x l IH]; [done|]. rewrite filter_cons, fmap_cons. intros [Hx Hn]%NoDup_cons. case_decide; [|auto].
  apply NoDup_cons. split; [|auto]. intros (y & Hy & [_ Hin]%list_elem_of_filter)%list_elem_of_fmap. apply Hx.
  rewrite Hy. by apply list_elem_of_fmap_2.
Qed.

Lemma assoc_nodup_filter (P : L * R → Prop) `{∀ x, Decision (P x)} (l : list (L * R)) :
  NoDup l.*1 ∧ NoDup l.*2 → NoDup (filter P l).*1 ∧ NoDup (filter P l).*2.
Proof. intros [H1 H2]. split; by apply NoDup_filter_fmap. Qed.

Definition assoc_filter (P : L * R → Prop) `{∀ x, Decision (P x)} (b : AssocBiMap) : AssocBiMap :=
  filter P (proj1_sig b) ↾ assoc_nodup_filter P (proj1_sig b) (proj2_sig b).

Lemma assoc_nodup_insert (b : list (L * R)) l r :
  NoDup b.*1 ∧ NoDup b.*2 →
  let b' := (l, r) :: filter (λ p, p.1 ≠ l ∧ p.2 ≠ r) b in NoDup b'.*1 ∧ NoDup b'.*2.
Proof.
  intros Hb. destruct (assoc_nodup_filter (λ p, p.1 ≠ l ∧ p.2 ≠ r) b Hb) as [H1 H2].
  split; apply NoDup_cons; (split; [|done]); intros ([l' r'] & Heq & Hin)%list_elem_of_fmap;
    apply list_elem_of_filter in Hin as [[? ?] _]; by simpl in Heq; subst.
Qed.

Definition assoc_find (P : L * R → Prop) `{∀ x, Decision (P x)} (b : AssocBiMap) : option (L * R) := head (filter P (proj1_sig b)).

#[export] Instance AssocBiMap_ops : BiMap L R AssocBiMap := {
  bimap_empty := [] ↾ conj NoDup_nil_2 NoDup_nil_2;
  bimap_iter := proj1_sig;
  bimap_get_by_left b l := snd <$> assoc_find (λ p, p.1 = l) b;
  bimap_insert b l r := _ ↾ assoc_nodup_insert (proj1_sig b) l r (proj2_sig b);
  bimap_remove_by_left b l := (assoc_find (λ p, p.1 = l) b, assoc_filter (λ p, p.1 ≠ l) b);
  bimap_remove_by_right b r := (assoc_find (λ p, p.2 = r) b, assoc_filter (λ p, p.2 ≠ r) b);
}.

Lemma assoc_find_left (b : AssocBiMap) l p : assoc_find (λ p, p.1 = l) b = Some p ↔ p.1 = l ∧ p ∈ proj1_sig b.
Proof.
  destruct b as [b [Hb Hb']]. unfold assoc_find. simpl. clear Hb'. split.
  - intros Hp%head_Some_elem_of. by apply list_elem_of_filter in Hp.
  - intros [Hl Hin]. revert Hb Hin. induction b as [|q b IH]; intros Hb Hin; [by apply elem_of_nil in Hin|]. apply NoDup_cons in Hb as [Hq Hb].
    rewrite filter_cons. apply elem_of_cons in Hin as [<-|Hin]; [by rewrite decide_True|].
    rewrite decide_False; [by apply IH|]. intros Hql. apply Hq. rewrite Hql, <-Hl. by apply list_elem_of_fmap_2.
Qed.

#[export] Instance AssocBiMap_spec : BiMapSpec L R AssocBiMap.
Proof.
  split; simpl.
  - done.
  - intros [b [? ?]]. done.
  - intros [b [? ?]]. done.
  - intros b l r. rewrite fmap_Some. setoid_rewrite assoc_find_left. split.
    + by intros ([l' r'] & [<- ?] & ->).
    + intros Hin. by exists (l, r).
  - intros [b ?] l r l' r'. simpl. rewrite elem_of_cons, list_elem_of_filter. naive_solver.
  - intros b l l' r. rewrite assoc_find_left. naive_solver.
  - intros [b ?] l l' r'. simpl. by rewrite list_elem_of_filter.
  - intros [b ?] r l' r'. simpl. by rewrite list_elem_of_filter.
Qed.
End assoc.

#[global] Arguments AssocBiMap : clear implicits.

(** The first delay of the list that has ended. *)
Fixpoint first_elapsed {A} (l : list (N * A)) (now : N) : option (A * list (N * A)) :=
  match l with
  | [] => None
  | (t, a) :: l =>
      if decide (t ≤ now)%N then Some (a, l) else '(b, rest) ← first_elapsed l now; Some (b, (t, a) :: rest)
  end.

#[export] Instance FirstElapsed A : Timers A := first_elapsed.

#[export] Instance FirstElapsed_spec A : TimersSpec A.
Proof.
  split; unfold timers_poll, FirstElapsed.
  - induction l as [|[t a] l IH]; intros now b rest; simpl; [done|]. case_decide; [intros [= <- <-]; eauto|].
    destruct (first_elapsed l now) as [[b' rest']|] eqn:E; simpl; [|done]. intros [= <- <-].
    destruct (IH now b' rest' E) as (t' & Ht & Hp). exists t'. split; [done|]. rewrite Hp. apply perm_swap.
  - induction l as [|[t a] l IH]; intros now; simpl; [constructor|]. case_decide; [done|].
    destruct (first_elapsed l now) as [[]|] eqn:E; simpl; [done|]. constructor; [simpl; lia|by apply IH].
Qed.

(** ** Witnesses *)

Definition ns_foo : Namespace := mkNamespace [Byte.x66; Byte.x6f; Byte.x6f].
Definition ns_bar : Namespace := mkNamespace [Byte.x62; Byte.x61; Byte.x72].

(** The request of a peer to register an address under a namespace. *)
Definition sample_request (peer : N) (namespace : Namespace) : NewRegistration (PeerRecord := N * list N) :=
  mkNewRegistration namespace (peer, [1%N]) None.

Abbreviation SampleMap := (AssocBiMap (N * Namespace) N).

(** Peer 1 registers twice; its second registration is kept over a poll just before
    the end of its time to live, while that of peer 2 comes and goes. *)
Lemma Registrations_lifetime_witness :
  let pre := [RAdd (sample_request 1 ns_foo) 10 0] in
  let post := [RAdd (sample_request 2 ns_foo) 12 5; RPoll 7200000000000; RRemove ns_foo 2%N] in
  ∃ rs (self' : Registrations (B := SampleMap)),
    reg_run (pre ++ RAdd (sample_request 1 ns_foo) 11 5 :: post) (Registrations_with_config ServerConfig_default) = Ret (rs, self') ∧
    registered self' (1%N, ns_foo) = Some (requested (sample_request 1 ns_foo)).
Proof.
  intros pre post.
  destruct (Registrations_lifetime (B := SampleMap) ServerConfig_default pre (sample_request 1 ns_foo) 11 5 post)
    as (rs & self' & Hrun & Halive & _).
  - apply (bool_decide_unpack _). vm_compute. exact I.
  - split; vm_compute; discriminate.
  - repeat constructor; vm_compute; by intros ?.
  - exists rs, self'. split; [exact Hrun|]. apply Halive.
    repeat constructor; intros now Heq; try discriminate Heq. injection Heq as <-. reflexivity.
Defined.

(** Peer 1 registers; peer 2 tries to register the record of peer 1. *)
Lemma ServerBehaviour_run_safe_witness :
  let ops := [SrvInject 1%N 0 (InboundEvent 0 (RegistrationRequested (sample_request 1 ns_foo))) 10 0 0;
              SrvInject 2%N 1 (InboundEvent 0 (RegistrationRequested (sample_request 1 ns_bar))) 11 0 0; SrvPoll 1] in
  ∃ ps (self : ServerBehaviour (B := SampleMap)), srv_run ops (ServerBehaviour_new ServerConfig_default) = Ret (ps, self) ∧
    registered (sb_registrations self) (1%N, ns_foo) = Some (requested (sample_request 1 ns_foo)) ∧
    registered (sb_registrations self) (1%N, ns_bar) = None.
Proof.
  intros ops. destruct (ServerBehaviour_run_safe (B := SampleMap) ServerConfig_default ops) as (ps & self & Hrun & Hsafe).
  - apply (bool_decide_unpack _). vm_compute. exact I.
  - exists ps, self. split; [exact Hrun|]. split.
    + assert (match srv_run (B := SampleMap) ops (ServerBehaviour_new ServerConfig_default) with
              | Ret (_, self) => registered (sb_registrations self) (1%N, ns_foo) | Panic => None end =
        Some (requested (sample_request 1 ns_foo))) as Heq by (vm_compute; reflexivity).
      by rewrite Hrun in Heq.
    + destruct (registered (sb_registrations self) (1%N, ns_bar)) as [r|] eqn:E; [|done]. exfalso.
      destruct (Hsafe _ _ _ E) as (_ & Hk & conn & id & nr & rid & random & now & Hin & ->).
      repeat (apply elem_of_cons in Hin as [Hin|Hin]; [by simplify_eq|]). by apply elem_of_nil in Hin.
Defined.

(** Two pages of one registration each, with a registration between them. *)
Lemma discover_session_witness :
  let pages := [mkPage [RAdd (sample_request 1 ns_foo) 10 0; RAdd (sample_request 2 ns_bar) 11 0] (Some 1%N) 20;
                mkPage [RAdd (sample_request 3 ns_foo) 12 0] (Some 2%N) 21] in
  ∃ rest (self : Registrations (B := SampleMap)),
    session (Some ns_foo) pages None (Registrations_with_config ServerConfig_default) = Ret (rest, self) ∧
    ∀ k r, registered self k = Some r → matches (Some ns_foo) r → r ∈ concat rest.
Proof.
  intros pages. destruct (discover_session (B := SampleMap) ServerConfig_default (Some ns_foo) pages)
    as (rest & self & ids & Hrun & _ & _ & _ & Hall).
  - apply (bool_decide_unpack _). vm_compute. exact I.
  - apply (bool_decide_unpack _). vm_compute. exact I.
  - exists rest, self. split; [exact Hrun|].
    assert (rest = [[requested (sample_request 1 ns_foo)]; [requested (sample_request 3 ns_foo)]]) as ->.
    { assert (match session (B := SampleMap) (Some ns_foo) pages None (Registrations_with_config ServerConfig_default) with
              | Ret (rest, _) => rest | Panic => [] end =
        [[requested (sample_request 1 ns_foo)]; [requested (sample_request 3 ns_foo)]]) as Heq by (vm_compute; reflexivity).
      by rewrite Hrun in Heq. }
    eapply Hall; [reflexivity|reflexivity|]. unfold short. simpl. lia.
Defined.
