(* ===== verification/RendezvousHandler.v ===== *)
(** * The connection handlers of the rendezvous protocol

    [protocols/rendezvous/src/substream_handler.rs], [handler.rs], [handler/inbound.rs]
    and [handler/outbound.rs]: a generic connection handler that delegates to
    handlers of single substreams, the handlers of inbound and of outbound
    substreams, and the server with the handlers of all its connections.  The framed
    substream of the crate [asynchronous_codec] is a parameter without laws: it may
    answer anything at any time.  The iteration order of hash maps is an argument.
    An assertion that is only checked in debug builds is a panic. *)

From S2P Require Import Prelude AsyncIo CoreRecord RendezvousCodec RendezvousServer.
From stdpp Require Import fin_maps fin_sets.

(** ** Handlers of substreams *)

Inductive Next (TState TEvent : Type) : Type :=
| EmitEvent (event : TEvent) (next_state : TState)
| NextPending (next_state : TState)
| NextContinue (next_state : TState)
| NextDone.
Arguments EmitEvent {TState TEvent} event next_state.
Arguments NextPending {TState TEvent} next_state.
Arguments NextContinue {TState TEvent} next_state.
Arguments NextDone {TState TEvent}.

(** [Continue] becomes [Pending]. *)
Definition Next_map_state {TState TNextState TEvent : Type} (map : TState → TNextState) (self : Next TState TEvent) :
    Next TNextState TEvent :=
  match self with
  | EmitEvent event next_state => EmitEvent event (map next_state)
  | NextPending next_state => NextPending (map next_state)
  | NextContinue next_state => NextPending (map next_state)
  | NextDone => NextDone
  end.

(** The trait; [sh_turns] bounds how often a handler continues before it does
    something else. *)
Class SubstreamHandler (S Socket InEvent OutEvent Error OpenInfo : Type) : Type := {
  sh_new : Socket → OpenInfo → outcome S;
  sh_inject_event : S → InEvent → outcome S;
  sh_advance : S → Result (Next S OutEvent) Error;
  sh_turns : S → nat;
}.

Class SubstreamHandlerSpec (S Socket InEvent OutEvent Error OpenInfo : Type)
    `{!SubstreamHandler S Socket InEvent OutEvent Error OpenInfo} : Prop :=
  sh_advance_continue s s' : sh_advance s = Ok (NextContinue s') → sh_turns s' < sh_turns s.

(** ** The connection handler *)

Record SubstreamConnectionHandler (TIn TOut TInfo : Type) : Type := mkSubstreamConnectionHandler {
  inbound_substreams : gmap N TIn;
  outbound_substreams : gmap N TOut;
  next_inbound_substream_id : N;
  next_outbound_substream_id : N;
  new_substreams : list TInfo;
  initial_keep_alive_deadline : N;
}.
Arguments mkSubstreamConnectionHandler {TIn TOut TInfo} _ _ _ _ _ _.
Arguments inbound_substreams {TIn TOut TInfo} _.
Arguments outbound_substreams {TIn TOut TInfo} _.
Arguments next_inbound_substream_id {TIn TOut TInfo} _.
Arguments next_outbound_substream_id {TIn TOut TInfo} _.
Arguments new_substreams {TIn TOut TInfo} _.
Arguments initial_keep_alive_deadline {TIn TOut TInfo} _.

(** [new], [new_outbound_only] and [new_inbound_only]. *)
Definition SubstreamConnectionHandler_new {TIn TOut TInfo : Type} (initial_keep_alive now : N) :
    SubstreamConnectionHandler TIn TOut TInfo :=
  mkSubstreamConnectionHandler ∅ ∅ 0 0 [] (now + initial_keep_alive).

(** [InboundSubstreamId] and [OutboundSubstreamId] count in [u64]. *)
Definition fetch_and_increment (id : N) : outcome (N * N) :=
  if decide (id + 1 < 2 ^ 64)%N then Ret (id, (id + 1)%N) else Panic.

Section poll_substreams.
Context {S Socket InEvent OutEvent Error OpenInfo : Type} `{!SubstreamHandler S Socket InEvent OutEvent Error OpenInfo}.

(** One turn of ['loop_handler]. *)
Definition handler_turn (handler : S) : outcome (Turn S (Result (Next S OutEvent) Error)) :=
  match sh_advance handler with
  | Ok (NextContinue next_state) => Ret (Continue next_state)
  | r => Ret (Return r handler)
  end.

(** [substream_ids] are the keys of the map in the order of its iteration. *)
Fixpoint poll_substreams (substream_ids : list N) (substreams : gmap N S) :
    outcome (Poll (Result (N * OutEvent) (N * Error)) * gmap N S) :=
  match substream_ids with
  | [] => Ret (Pending, substreams)
  | id :: substream_ids =>
      handler ← expect (substreams !! id);
      let substreams := delete id substreams in
      '(r, _) ← loop (1 + sh_turns handler) handler_turn handler;
      match r with
      | Ok (EmitEvent event next_state) => Ret (Ready (Ok (id, event)), <[id := next_state]> substreams)
      | Ok (NextPending next_state) => Ret (Pending, <[id := next_state]> substreams)
      | Ok (NextContinue _) => Panic
      | Ok NextDone => poll_substreams substream_ids substreams
      | Err e => Ret (Ready (Err (id, e)), substreams)
      end
  end.
End poll_substreams.

(** Events to and from the connection handler. *)
Inductive HInEvent (I TInboundEvent TOutboundEvent : Type) : Type :=
| NewSubstream (open_info : I)
| NotifyInbound (id : N) (message : TInboundEvent)
| NotifyOutbound (id : N) (message : TOutboundEvent).
Arguments NewSubstream {I TInboundEvent TOutboundEvent} open_info.
Arguments NotifyInbound {I TInboundEvent TOutboundEvent} id message.
Arguments NotifyOutbound {I TInboundEvent TOutboundEvent} id message.

Inductive HOutEvent (TInbound TOutbound TInboundError TOutboundError : Type) : Type :=
| HInboundEvent (id : N) (message : TInbound)
| HOutboundEvent (id : N) (message : TOutbound)
| HInboundError (id : N) (error : TInboundError)
| HOutboundError (id : N) (error : TOutboundError).
Arguments HInboundEvent {TInbound TOutbound TInboundError TOutboundError} id message.
Arguments HOutboundEvent {TInbound TOutbound TInboundError TOutboundError} id message.
Arguments HInboundError {TInbound TOutbound TInboundError TOutboundError} id error.
Arguments HOutboundError {TInbound TOutbound TInboundError TOutboundError} id error.

(** [ConnectionHandlerEvent], as far as this handler produces it. *)
Inductive HandlerPoll (TInfo OutEvent : Type) : Type :=
| OutboundSubstreamRequest (open_info : TInfo)
| Custom (event : OutEvent).
Arguments OutboundSubstreamRequest {TInfo OutEvent} open_info.
Arguments Custom {TInfo OutEvent} event.

Section connection_handler.
Context {TIn TOut Socket InIn InOut InErr OutIn OutOut OutErr TInfo : Type}.
Context `{!SubstreamHandler TIn Socket InIn InOut InErr unit, !SubstreamHandler TOut Socket OutIn OutOut OutErr TInfo}.

Abbreviation Handler := (SubstreamConnectionHandler TIn TOut TInfo).

Definition inject_fully_negotiated_inbound (self : Handler) (protocol : Socket) : outcome Handler :=
  '(id, next) ← fetch_and_increment (next_inbound_substream_id self);
  handler ← sh_new protocol ();
  Ret (mkSubstreamConnectionHandler (<[id := handler]> (inbound_substreams self)) (outbound_substreams self)
         next (next_outbound_substream_id self) (new_substreams self) (initial_keep_alive_deadline self)).

Definition inject_fully_negotiated_outbound (self : Handler) (protocol : Socket) (info : TInfo) : outcome Handler :=
  '(id, next) ← fetch_and_increment (next_outbound_substream_id self);
  handler ← sh_new protocol info;
  Ret (mkSubstreamConnectionHandler (inbound_substreams self) (<[id := handler]> (outbound_substreams self))
         (next_inbound_substream_id self) next (new_substreams self) (initial_keep_alive_deadline self)).

Definition set_inbound (self : Handler) (m : gmap N TIn) : Handler :=
  mkSubstreamConnectionHandler m (outbound_substreams self) (next_inbound_substream_id self)
    (next_outbound_substream_id self) (new_substreams self) (initial_keep_alive_deadline self).

Definition set_outbound (self : Handler) (m : gmap N TOut) : Handler :=
  mkSubstreamConnectionHandler (inbound_substreams self) m (next_inbound_substream_id self)
    (next_outbound_substream_id self) (new_substreams self) (initial_keep_alive_deadline self).

Definition set_new_substreams (self : Handler) (l : list TInfo) : Handler :=
  mkSubstreamConnectionHandler (inbound_substreams self) (outbound_substreams self) (next_inbound_substream_id self)
    (next_outbound_substream_id self) l (initial_keep_alive_deadline self).

Definition Handler_inject_event (self : Handler) (event : HInEvent TInfo InIn OutIn) : outcome Handler :=
  match event with
  | NewSubstream open_info => Ret (set_new_substreams self (new_substreams self ++ [open_info]))
  | NotifyInbound id message =>
      match inbound_substreams self !! id with
      | Some handler =>
          new_handler ← sh_inject_event handler message;
          Ret (set_inbound self (<[id := new_handler]> (inbound_substreams self)))
      | None => Ret self
      end
  | NotifyOutbound id message =>
      match outbound_substreams self !! id with
      | Some handler =>
          new_handler ← sh_inject_event handler message;
          Ret (set_outbound self (<[id := new_handler]> (outbound_substreams self)))
      | None => Ret self
      end
  end.

(** Whether the connection is kept alive. *)
Definition connection_keep_alive (self : Handler) (now : N) : bool :=
  if decide (now < initial_keep_alive_deadline self)%N then true
  else
    negb (bool_decide (inbound_substreams self = ∅ ∧ outbound_substreams self = ∅ ∧ new_substreams self = [])).

(** [in_ids] and [out_ids] are the orders in which the maps are iterated. *)
Definition Handler_poll (self : Handler) (in_ids out_ids : list N) :
    outcome (Poll (HandlerPoll TInfo (HOutEvent InOut OutOut InErr OutErr)) * Handler) :=
  match new_substreams self with
  | open_info :: rest => Ret (Ready (OutboundSubstreamRequest open_info), set_new_substreams self rest)
  | [] =>
      '(p, m) ← poll_substreams in_ids (inbound_substreams self);
      let self := set_inbound self m in
      match p with
      | Ready (Ok (id, message)) => Ret (Ready (Custom (HInboundEvent id message)), self)
      | Ready (Err (id, error)) => Ret (Ready (Custom (HInboundError id error)), self)
      | Pending =>
          '(p, m) ← poll_substreams out_ids (outbound_substreams self);
          let self := set_outbound self m in
          match p with
          | Ready (Ok (id, message)) => Ret (Ready (Custom (HOutboundEvent id message)), self)
          | Ready (Err (id, error)) => Ret (Ready (Custom (HOutboundError id error)), self)
          | Pending => Ret (Pending, self)
          end
      end
  end.
End connection_handler.

(** [SubstreamHandler for Void]: there are no such substreams. *)
#[export] Instance VoidHandler (Socket : Type) : SubstreamHandler Empty_set Socket Empty_set Empty_set Empty_set unit := {
  sh_new _ _ := Panic;
  sh_inject_event s _ := match s with end;
  sh_advance s := match s with end;
  sh_turns s := match s with end;
}.

#[export] Instance VoidHandler_spec (Socket : Type) : SubstreamHandlerSpec Empty_set Socket Empty_set Empty_set Empty_set unit.
Proof. by intros []. Qed.

(** ** Inbound and outbound substreams *)

(** [Framed]: a stream and a sink of messages. *)
Class FramedOps (F Socket Item Error : Type) : Type := {
  framed_new : Socket → F;
  framed_poll_next : F → Poll (option (Result Item Error)) * F;
  framed_poll_ready : F → Poll (Result unit Error) * F;
  framed_start_send : F → Item → Result unit Error * F;
  framed_poll_flush : F → Poll (Result unit Error) * F;
  framed_poll_close : F → Poll (Result unit Error) * F;
}.

Section streams.
Context {PeerRecord F Socket CodecErr : Type}.

Abbreviation Msg := (Message (PeerRecord := PeerRecord)).
Abbreviation NewReg := (NewRegistration (PeerRecord := PeerRecord)).
Abbreviation Reg := (Registration (PeerRecord := PeerRecord)).

Context `{!FramedOps F Socket Msg CodecErr}.

Inductive HandlerError : Type :=
| BadMessage (m : Msg)
| WriteMessage (e : CodecErr)
| ReadMessage (e : CodecErr)
| UnexpectedEndOfStream.

(** [inbound::Stream]. *)
Inductive InboundStream : Type :=
| PendingRead (substream : F)
| PendingBehaviour (substream : F)
| PendingSend (substream : F) (message : Msg)
| PendingClose (substream : F).

Definition InboundStream_inject_event (self : InboundStream) (event : InboundInEvent (PeerRecord := PeerRecord)) : outcome InboundStream :=
  match event, self with
  | RegisterResponse ttl, PendingBehaviour substream => Ret (PendingSend substream (M_RegisterResponse (Ok ttl)))
  | DeclineRegisterRequest error, PendingBehaviour substream => Ret (PendingSend substream (M_RegisterResponse (Err error)))
  | DiscoverResponse discovered cookie, PendingBehaviour substream =>
      Ret (PendingSend substream (M_DiscoverResponse (Ok (discovered, cookie))))
  | DeclineDiscoverRequest error, PendingBehaviour substream => Ret (PendingSend substream (M_DiscoverResponse (Err error)))
  | _, _ => Panic
  end.

Definition InboundStream_advance (self : InboundStream) :
    Result (Next InboundStream (InboundOutEvent (PeerRecord := PeerRecord))) HandlerError :=
  match self with
  | PendingRead substream =>
      match framed_poll_next substream with
      | (Ready (Some (Ok msg)), substream) =>
          event ←? match msg with
                   | M_Register registration => Ok (RegistrationRequested registration)
                   | M_Discover namespace cookie limit => Ok (DiscoverRequested namespace cookie limit)
                   | M_Unregister namespace => Ok (UnregisterRequested namespace)
                   | other => Err (BadMessage other)
                   end;
          Ok (EmitEvent event (PendingBehaviour substream))
      | (Ready (Some (Err e)), _) => Err (ReadMessage e)
      | (Ready None, _) => Err UnexpectedEndOfStream
      | (Pending, substream) => Ok (NextPending (PendingRead substream))
      end
  | PendingBehaviour substream => Ok (NextPending (PendingBehaviour substream))
  | PendingSend substream message =>
      match framed_poll_ready substream with
      | (Ready (Ok _), substream) =>
          let '(r, substream) := framed_start_send substream message in
          _ ←? map_err WriteMessage r;
          Ok (NextContinue (PendingClose substream))
      | (Ready (Err e), _) => Err (WriteMessage e)
      | (Pending, substream) => Ok (NextPending (PendingSend substream message))
      end
  | PendingClose substream =>
      match framed_poll_close substream with
      | (Ready _, _) => Ok NextDone
      | (Pending, substream) => Ok (NextPending (PendingClose substream))
      end
  end.

#[export] Instance InboundHandler :
    SubstreamHandler InboundStream Socket (InboundInEvent (PeerRecord := PeerRecord))
      (InboundOutEvent (PeerRecord := PeerRecord)) HandlerError unit := {
  sh_new substream _ := Ret (PendingRead (framed_new substream));
  sh_inject_event := InboundStream_inject_event;
  sh_advance := InboundStream_advance;
  sh_turns s := match s with PendingSend _ _ => 1 | _ => 0 end;
}.

#[export] Instance InboundHandler_spec :
  SubstreamHandlerSpec InboundStream Socket (InboundInEvent (PeerRecord := PeerRecord))
    (InboundOutEvent (PeerRecord := PeerRecord)) HandlerError unit.
Proof.
  intros s s'. destruct s as [f|f|f m|f]; simpl.
  - destruct (framed_poll_next f) as [[[[[]|]|]|] f']; simpl; done.
  - done.
  - destruct (framed_poll_ready f) as [[[]|] f']; simpl; [|done..]. destruct (framed_start_send f' m) as [[] f'']; simpl; [|done].
    intros [= <-]. simpl. lia.
  - by destruct (framed_poll_close f) as [[] f'].
Qed.

(** [outbound::OpenInfo] and [outbound::OutEvent]. *)
Inductive OpenInfo : Type :=
| RegisterRequest (r : NewReg)
| UnregisterRequest (namespace : Namespace)
| DiscoverRequest (namespace : option Namespace) (cookie : option Cookie) (limit : option N).

Inductive OutboundOutEvent : Type :=
| OE_Registered (namespace : Namespace) (ttl : Ttl)
| OE_RegisterFailed (namespace : Namespace) (error : ErrorCode)
| OE_Discovered (registrations : list Reg) (cookie : Cookie)
| OE_DiscoverFailed (namespace : option Namespace) (error : ErrorCode).

(** The message that is sent on a new outbound substream. *)
Definition sent_message (info : OpenInfo) : Msg :=
  match info with
  | RegisterRequest new_registration => M_Register new_registration
  | UnregisterRequest namespace => M_Unregister namespace
  | DiscoverRequest namespace cookie limit => M_Discover namespace cookie limit
  end.

(** What the answer to it means. *)
Definition outbound_event (sent received : Msg) : Result OutboundOutEvent HandlerError :=
  match sent, received with
  | M_Register registration, M_RegisterResponse (Ok ttl) => Ok (OE_Registered (nr_namespace registration) ttl)
  | M_Register registration, M_RegisterResponse (Err error) => Ok (OE_RegisterFailed (nr_namespace registration) error)
  | M_Discover _ _ _, M_DiscoverResponse (Ok (registrations, cookie)) => Ok (OE_Discovered registrations cookie)
  | M_Discover namespace _ _, M_DiscoverResponse (Err error) => Ok (OE_DiscoverFailed namespace error)
  | _, other => Err (BadMessage other)
  end.

(** The points at which the asynchronous block of [outbound::Stream] waits: until the
    message can be given to the sink, until it is flushed, for the answer, and until
    the substream is closed. *)
Inductive OutboundFuture : Type :=
| OF_Send (sent : Msg) (stream : F)
| OF_Flush (sent : Msg) (stream : F)
| OF_Receive (sent : Msg) (stream : F)
| OF_Close (event : OutboundOutEvent) (stream : F).

Definition OutboundFuture_poll (self : OutboundFuture) : Poll (Result OutboundOutEvent HandlerError) * option OutboundFuture :=
  let poll_close event stream :=
    match framed_poll_close stream with
    | (Ready (Ok _), _) => (Ready (Ok event), None)
    | (Ready (Err e), _) => (Ready (Err (WriteMessage e)), None)
    | (Pending, stream) => (Pending, Some (OF_Close event stream))
    end in
  let poll_receive sent stream :=
    match framed_poll_next stream with
    | (Ready (Some (Ok received)), stream) =>
        match outbound_event sent received with
        | Ok event => poll_close event stream
        | Err e => (Ready (Err e), None)
        end
    | (Ready (Some (Err e)), _) => (Ready (Err (ReadMessage e)), None)
    | (Ready None, _) => (Ready (Err UnexpectedEndOfStream), None)
    | (Pending, stream) => (Pending, Some (OF_Receive sent stream))
    end in
  let poll_flush sent stream :=
    match framed_poll_flush stream with
    | (Ready (Ok _), stream) => poll_receive sent stream
    | (Ready (Err e), _) => (Ready (Err (WriteMessage e)), None)
    | (Pending, stream) => (Pending, Some (OF_Flush sent stream))
    end in
  match self with
  | OF_Send sent stream =>
      match framed_poll_ready stream with
      | (Ready (Ok _), stream) =>
          match framed_start_send stream sent with
          | (Ok _, stream) => poll_flush sent stream
          | (Err e, _) => (Ready (Err (WriteMessage e)), None)
          end
      | (Ready (Err e), _) => (Ready (Err (WriteMessage e)), None)
      | (Pending, stream) => (Pending, Some (OF_Send sent stream))
      end
  | OF_Flush sent stream => poll_flush sent stream
  | OF_Receive sent stream => poll_receive sent stream
  | OF_Close event stream => poll_close event stream
  end.

(** A future that is [None] once it has resolved, as [Fuse] makes it. *)
Definition FutureSubstream : Type := option OutboundFuture.

Definition FutureSubstream_advance (self : FutureSubstream) : Result (Next FutureSubstream OutboundOutEvent) HandlerError :=
  match self with
  | None => Ok NextDone
  | Some future =>
      match OutboundFuture_poll future with
      | (Ready (Ok event), self) => Ok (EmitEvent event self)
      | (Ready (Err error), _) => Err error
      | (Pending, self) => Ok (NextPending self)
      end
  end.

(** [outbound::Stream], which wraps the future. *)
Definition OutboundStream_new (substream : Socket) (info : OpenInfo) : FutureSubstream :=
  Some (OF_Send (sent_message info) (framed_new substream)).

Definition OutboundStream_advance (self : FutureSubstream) : Result (Next FutureSubstream OutboundOutEvent) HandlerError :=
  r ←? FutureSubstream_advance self; Ok (Next_map_state id r).

#[export] Instance OutboundHandler :
    SubstreamHandler FutureSubstream Socket Empty_set OutboundOutEvent HandlerError OpenInfo := {
  sh_new substream info := Ret (OutboundStream_new substream info);
  sh_inject_event _ event := match event with end;
  sh_advance := OutboundStream_advance;
  sh_turns _ := 0;
}.

#[export] Instance OutboundHandler_spec : SubstreamHandlerSpec FutureSubstream Socket Empty_set OutboundOutEvent HandlerError OpenInfo.
Proof.
  intros s s'. simpl. unfold OutboundStream_advance. destruct (FutureSubstream_advance s) as [[]|]; simpl; done.
Qed.
End streams.

(** ** The server with the handlers of its connections *)

Section system.
Context {PeerRecord PeerId Multiaddr B F Socket CodecErr : Type} `{Countable PeerId} `{!RecordOps PeerRecord PeerId Multiaddr}.
Context `{!BiMap (PeerId * Namespace) N B, !Timers N}.
Context `{!FramedOps F Socket (Message (PeerRecord := PeerRecord)) CodecErr}.

Abbreviation Stream := (InboundStream (PeerRecord := PeerRecord) (F := F)).
Abbreviation InHandler := (SubstreamConnectionHandler Stream Empty_set unit).
Abbreviation Event := (HandlerEvent (PeerRecord := PeerRecord)).
Abbreviation Answer := (InboundInEvent (PeerRecord := PeerRecord)).
Abbreviation Behaviour := (ServerBehaviour (PeerRecord := PeerRecord) (PeerId := PeerId) (B := B)).

(** A connection: the peer, its handler, the events on their way from the handler to
    the behaviour and the answers on their way back. *)
Record conn : Type := mkConn { cn_peer : PeerId; cn_handler : InHandler; cn_up : list Event; cn_down : list (N * Answer) }.

Record server_sys : Type := mkServerSys { ss_behaviour : Behaviour; ss_conns : gmap N conn; ss_next : N }.

Definition server_sys_new (config : ServerConfig) : server_sys := mkServerSys (ServerBehaviour_new config) ∅ 0.

(** What can happen, in any order: connections come and go, substreams are opened by
    the remotes, the network changes the state of a substream, handlers and behaviour
    are polled, and what they have to say to each other is delivered. *)
Inductive sys_op : Type :=
| SysConnect (peer : PeerId) (now : N)
| SysDisconnect (c : N)
| SysNegotiated (c : N) (socket : Socket)
| SysNetwork (c id : N) (f : F)
| SysPollHandler (c : N) (ids : list N)
| SysUp (c registration_id random now : N)
| SysPollBehaviour (now : N)
| SysDown (c : N).

Definition set_framed (f : F) (s : Stream) : Stream :=
  match s with
  | PendingRead _ => PendingRead f
  | PendingBehaviour _ => PendingBehaviour f
  | PendingSend _ m => PendingSend f m
  | PendingClose _ => PendingClose f
  end.

Definition with_handler (cn : conn) (h : InHandler) : conn := mkConn (cn_peer cn) h (cn_up cn) (cn_down cn).

Definition put_conn (sys : server_sys) (c : N) (cn : conn) : server_sys :=
  mkServerSys (ss_behaviour sys) (<[c := cn]> (ss_conns sys)) (ss_next sys).

(** The order of an iteration is one of the keys of the map. *)
Definition iterates {A} (ids : list N) (m : gmap N A) : Prop := ids ≡ₚ (map_to_list m).*1.

#[local] Instance iterates_dec {A} (ids : list N) (m : gmap N A) : Decision (iterates ids m).
Proof. unfold iterates. apply _. Defined.

(** An event of a handler on its way up. *)
Definition up_event (e : HOutEvent (InboundOutEvent (PeerRecord := PeerRecord)) Empty_set (HandlerError (PeerRecord := PeerRecord) (CodecErr := CodecErr)) Empty_set) : Event :=
  match e with
  | HInboundEvent id message => InboundEvent id message
  | HInboundError id _ => InboundError id
  | HOutboundEvent _ e => match e with end
  | HOutboundError _ e => match e with end
  end.

(** An operation on a connection that does not exist changes nothing. *)
Definition conn_step (sys : server_sys) (c : N) (f : conn → outcome server_sys) : outcome server_sys :=
  match ss_conns sys !! c with Some cn => f cn | None => Ret sys end.

Definition server_step (op : sys_op) (sys : server_sys) : outcome server_sys :=
  match op with
  | SysConnect peer now =>
      let handler := SubstreamConnectionHandler_new (from_secs 30) now in
      Ret (mkServerSys (ss_behaviour sys) (<[ss_next sys := mkConn peer handler [] []]> (ss_conns sys)) (ss_next sys + 1))
  | SysDisconnect c => Ret (mkServerSys (ss_behaviour sys) (delete c (ss_conns sys)) (ss_next sys))
  | SysNegotiated c socket =>
      conn_step sys c (λ cn,
        h ← inject_fully_negotiated_inbound (cn_handler cn) socket;
        Ret (put_conn sys c (with_handler cn h)))
  | SysNetwork c id f =>
      conn_step sys c (λ cn,
        let h := cn_handler cn in
        Ret (put_conn sys c (with_handler cn (set_inbound h (alter (set_framed f) id (inbound_substreams h))))))
  | SysPollHandler c ids =>
      conn_step sys c (λ cn,
        if decide (iterates ids (inbound_substreams (cn_handler cn))) then
          '(p, h) ← Handler_poll (cn_handler cn) ids [];
          match p with
          | Ready (Custom e) => Ret (put_conn sys c (mkConn (cn_peer cn) h (cn_up cn ++ [up_event e]) (cn_down cn)))
          | _ => Ret (put_conn sys c (with_handler cn h))
          end
        else Ret sys)
  | SysUp c registration_id random now =>
      conn_step sys c (λ cn,
        match cn_up cn with
        | [] => Ret sys
        | event :: rest =>
            b ← ServerBehaviour_inject_event (ss_behaviour sys) (cn_peer cn) c event registration_id random now;
            Ret (mkServerSys b (<[c := mkConn (cn_peer cn) (cn_handler cn) rest (cn_down cn)]> (ss_conns sys)) (ss_next sys))
        end)
  | SysPollBehaviour now =>
      '(p, b) ← ServerBehaviour_poll (ss_behaviour sys) now;
      let sys := mkServerSys b (ss_conns sys) (ss_next sys) in
      match p with
      | Ready (NotifyInboundSubstream _ c id message) =>
          conn_step sys c (λ cn, Ret (put_conn sys c (mkConn (cn_peer cn) (cn_handler cn) (cn_up cn) (cn_down cn ++ [(id, message)]))))
      | _ => Ret sys
      end
  | SysDown c =>
      conn_step sys c (λ cn,
        match cn_down cn with
        | [] => Ret sys
        | (id, message) :: rest =>
            h ← Handler_inject_event (cn_handler cn) (NotifyInbound id message);
            Ret (put_conn sys c (mkConn (cn_peer cn) h (cn_up cn) rest))
        end)
  end.

Fixpoint server_run (ops : list sys_op) (sys : server_sys) : outcome server_sys :=
  match ops with [] => Ret sys | op :: ops => sys ← server_step op sys; server_run ops sys end.

(** ** What polling the inbound substreams of a connection does *)

(** The stream waits for the answer of the behaviour. *)
Definition waits (s : Stream) : Prop := match s with PendingBehaviour _ => True | _ => False end.

#[local] Instance waits_dec s : Decision (waits s).
Proof. destruct s; simpl; apply _. Defined.

Lemma inbound_loop (s : Stream) :
  ∃ r s1, loop (1 + sh_turns s) handler_turn s = Ret (r, s1) ∧
    match r with
    | Ok (EmitEvent _ s') => ¬ waits s ∧ waits s'
    | Ok (NextPending s') => waits s' ↔ waits s
    | Ok (NextContinue _) => False
    | Ok NextDone | Err _ => ¬ waits s
    end.
Proof.
  destruct s as [f|f|f m|f]; simpl; unfold handler_turn; simpl.
  - destruct (framed_poll_next f) as [[[[m|e]|]|] f']; simpl; [|eexists _, _; split; [reflexivity|simpl; tauto]..].
    destruct m; simpl; eexists _, _; (split; [reflexivity|]); simpl; tauto.
  - eexists _, _; split; [reflexivity|]. simpl. tauto.
  - destruct (framed_poll_ready f) as [[[]|] f']; simpl; [|eexists _, _; split; [reflexivity|simpl; tauto]..].
    destruct (framed_start_send f' m) as [[] f'']; simpl; [|eexists _, _; split; [reflexivity|simpl; tauto]].
    destruct (framed_poll_close f'') as [[] f3]; eexists _, _; (split; [reflexivity|]); simpl; tauto.
  - destruct (framed_poll_close f) as [[] f']; simpl; eexists _, _; (split; [reflexivity|]); simpl; tauto.
Qed.

(** The streams that wait stay and go on waiting, and exactly the stream whose request
    is reported begins to wait. *)
Record inbound_post (m : gmap N Stream) (p : Poll (Result (N * InboundOutEvent (PeerRecord := PeerRecord)) (N * HandlerError (PeerRecord := PeerRecord) (CodecErr := CodecErr))))
    (m' : gmap N Stream) : Prop := {
  ip_subset id : is_Some (m' !! id) → is_Some (m !! id);
  ip_waits id s : m !! id = Some s → waits s → ∃ s', m' !! id = Some s' ∧ waits s';
  ip_emits id ev : p = Ready (Ok (id, ev)) → (∃ s, m !! id = Some s ∧ ¬ waits s) ∧ ∃ s', m' !! id = Some s' ∧ waits s';
}.

Lemma inbound_poll ids (m : gmap N Stream) :
  NoDup ids → (∀ id, id ∈ ids → is_Some (m !! id)) →
  ∃ p m', poll_substreams ids m = Ret (p, m') ∧ inbound_post m p m'.
Proof.
  revert m. induction ids as [|id ids IH]; intros m Hnd Hids; [exists Pending, m; split; [done|split; eauto; done]|].
  apply NoDup_cons in Hnd as [Hid Hnd]. destruct (Hids id) as [s Hs]; [by left|]. cbn [poll_substreams]. rewrite Hs. cbn [expect mbind outcome_bind].
  destruct (inbound_loop s) as (r & s1 & -> & Hr). cbn [mbind outcome_bind].
  assert (∀ id' s', m !! id' = Some s' → waits s' → ¬ waits s → delete id m !! id' = Some s') as Hother.
  { intros id' s' Hs' Hw Hn. rewrite lookup_delete_ne; [done|]. intros ->. congruence. }
  destruct r as [[ev s'|s'|s'|]|e]; [| |done| |].
  - destruct Hr as [Hn Hw]. eexists _, _. split; [reflexivity|]. split.
    + intros id'. rewrite lookup_insert_is_Some, lookup_delete_is_Some. intros [->|[_ [_ ?]]]; eauto.
    + intros id' s2 Hs2 Hw2. exists s2. rewrite lookup_insert_ne; [auto|]. intros ->. congruence.
    + intros id' ev' [= <- <-]. split; [eauto|]. exists s'. by rewrite lookup_insert_eq.
  - eexists _, _. split; [reflexivity|]. split; [| |done].
    + intros id'. rewrite lookup_insert_is_Some, lookup_delete_is_Some. intros [->|[_ [_ ?]]]; eauto.
    + intros id' s2 Hs2 Hw2. destruct (decide (id = id')) as [<-|Hne].
      * exists s'. rewrite lookup_insert_eq. split; [done|]. apply Hr. congruence.
      * exists s2. by rewrite lookup_insert_ne, lookup_delete_ne.
  - destruct (IH (delete id m)) as (p & m' & Hp & [H1 H2 H3]); [done| |].
    { intros id' Hin. rewrite lookup_delete_ne; [by apply Hids; right|]. intros ->. done. }
    exists p, m'. split; [done|]. split.
    + intros id' Hid'. apply H1, lookup_delete_is_Some in Hid' as [_ ?]. done.
    + intros id' s2 Hs2 Hw2. eapply H2; [by apply Hother|done].
    + intros id' ev Hp'. destruct (H3 id' ev Hp') as [(s2 & Hs2 & Hn2) ?]. split; [|done]. exists s2. split; [|done].
      by apply lookup_delete_Some in Hs2 as [_ ?].
  - eexists _, _. split; [reflexivity|]. split; [| |done].
    + intros id'. rewrite lookup_delete_is_Some. by intros [_ ?].
    + intros id' s2 Hs2 Hw2. exists s2. auto.
Qed.

(** ** Every answer finds a stream that waits for it *)

Definition up_ids (l : list Event) : list N := omap (λ e, match e with InboundEvent id _ => Some id | InboundError _ => None end) l.

Definition answer_ids (c : N) (l : list (ServerAction (PeerRecord := PeerRecord) (PeerId := PeerId))) : list N :=
  omap (λ a, match a with NotifyInboundSubstream _ c' id _ => if decide (c' = c) then Some id else None | _ => None end) l.

(** The streams of a connection whose request or answer is on its way. *)
Definition owed (b : Behaviour) (c : N) (cn : conn) : list N := up_ids (cn_up cn) ++ answer_ids c (sb_events b) ++ (cn_down cn).*1.

Record conn_ok (k : N) (ids : list N) (h : InHandler) : Prop := {
  co_nodup : NoDup ids;
  co_waits id : id ∈ ids → ∃ s, inbound_substreams h !! id = Some s ∧ waits s;
  co_ids id : is_Some (inbound_substreams h !! id) → (id < next_inbound_substream_id h)%N;
  co_next : (next_inbound_substream_id h ≤ k)%N;
}.

Lemma conn_ok_mono k k' ids ids' h : (k ≤ k')%N → ids' ⊆+ ids → conn_ok k ids h → conn_ok k' ids' h.
Proof.
  intros Hk Hs [H1 H2 H3 H4]. split; [by eapply submseteq_NoDup| |done|lia]. intros id Hin. apply H2. by eapply elem_of_submseteq.
Qed.

(** [k] bounds the number of substreams of a connection, [used] has the ids that have
    been drawn for registrations. *)
Record server_inv (k : N) (used : list N) (sys : server_sys) : Prop := {
  sv_reg : reg_inv (sb_registrations (ss_behaviour sys));
  sv_used id : id ∈ timer_ids (sb_registrations (ss_behaviour sys)) → id ∈ used;
  sv_answers c : (ss_next sys ≤ c)%N → answer_ids c (sb_events (ss_behaviour sys)) = [];
  sv_conns c cn : ss_conns sys !! c = Some cn → (c < ss_next sys)%N ∧ conn_ok k (owed (ss_behaviour sys) c cn) (cn_handler cn);
}.

Context `{!BiMapSpec (PeerId * Namespace) N B, !TimersSpec N}.

Lemma server_inv_new config : server_inv 0 [] (server_sys_new config).
Proof. split; simpl; [apply reg_inv_new|by intros id []%elem_of_nil|done|]. intros c cn. by rewrite lookup_empty. Qed.

(** Every request but that to unregister is answered once. *)
Definition answered (ev : InboundOutEvent (PeerRecord := PeerRecord)) : bool :=
  match ev with UnregisterRequested _ => false | _ => true end.

Lemma handle_inbound_event_spec ev peer c id (regs : Registrations (PeerRecord := PeerRecord) (B := B)) rid random now :
  reg_inv regs → rid ∉ timer_ids regs →
  ∃ acts regs', handle_inbound_event ev peer c id regs rid random now = Ret (acts, regs') ∧ reg_inv regs' ∧
    (∀ i, i ∈ timer_ids regs' → i ∈ timer_ids regs ∨ i = rid) ∧
    (∀ c', answer_ids c' acts = if decide (c = c') then (if answered ev then [id] else []) else []).
Proof.
  intros Hi Hrid. destruct ev as [nr|namespace|namespace cookie limit]; simpl.
  - case_decide as Hp; [eexists _, regs; split_and!; [reflexivity|done|by left|]; intros c'; simpl; by case_decide|].
    destruct (reg_apply_spec (RAdd nr rid now) regs Hi) as (res & regs' & Ha & Hpost).
    { by apply Forall_singleton. }
    simpl in Ha. destruct (Registrations_add regs nr rid now) as [[r|[]] regs1]; injection Ha as _ <-;
      (eexists _, _; split_and!; [reflexivity|apply Hpost| |]; [|intros c'; simpl; by case_decide]);
      intros i Ht; destruct (op_timer_ids _ _ _ _ Hpost i Ht) as [?|?%list_elem_of_singleton]; auto.
  - destruct (Registrations_remove_spec regs namespace peer Hi) as (Hi' & He & _). eexists _, _.
    split_and!; [reflexivity|done| |intros c'; simpl; by case_decide]. unfold timer_ids. rewrite He. by left.
  - destruct (reg_apply_spec (RGet namespace cookie limit random) regs Hi) as (res & regs' & Ha & Hpost); [constructor|].
    simpl in Ha. destruct (Registrations_get regs namespace cookie limit random) as [[[[]|] regs1]|]; [| |done]; injection Ha as _ <-;
      (eexists _, _; split_and!; [reflexivity|apply Hpost| |]; [|intros c'; simpl; by case_decide]);
      intros i Ht; destruct (op_timer_ids _ _ _ _ Hpost i Ht) as [?|[]%elem_of_nil]; auto.
Qed.

Lemma server_inv_mono k k' used used' sys :
  (k ≤ k')%N → (∀ id, id ∈ used → id ∈ used') → server_inv k used sys → server_inv k' used' sys.
Proof.
  intros Hk Hu [H1 H2 H3 H4]. split; auto. intros c cn Hc. destruct (H4 c cn Hc). split; [done|]. by eapply conn_ok_mono.
Qed.

(** One connection changes. *)
Lemma server_inv_put k used sys c cn cn' :
  server_inv k used sys → ss_conns sys !! c = Some cn →
  conn_ok (k + 1) (owed (ss_behaviour sys) c cn') (cn_handler cn') → server_inv (k + 1) used (put_conn sys c cn').
Proof.
  intros [H1 H2 H3 H4] Hc Hok. split; [done..|]. simpl. intros c' cn2 [[<- <-]|[_ Hc2]]%lookup_insert_Some.
  - split; [by eapply H4|done].
  - destruct (H4 c' cn2 Hc2). split; [done|]. eapply conn_ok_mono; [|done|done]. lia.
Qed.

Lemma inbound_post_same (m : gmap N Stream) : inbound_post m Pending m.
Proof. split; eauto. done. Qed.

Lemma iterates_spec {A} ids (m : gmap N A) : iterates ids m → NoDup ids ∧ ∀ id, id ∈ ids → is_Some (m !! id).
Proof.
  intros Hp. split.
  - rewrite Hp. apply NoDup_fst_map_to_list.
  - intros id. rewrite Hp. intros ([id' a] & -> & Hin)%list_elem_of_fmap. apply elem_of_map_to_list in Hin. by exists a.
Qed.

Lemma Handler_poll_spec (h : InHandler) ids :
  iterates ids (inbound_substreams h) →
  ∃ p h' q, Handler_poll h ids [] = Ret (p, h') ∧ next_inbound_substream_id h' = next_inbound_substream_id h ∧
    inbound_post (inbound_substreams h) q (inbound_substreams h') ∧
    match p with
    | Ready (Custom e) => match up_event e with InboundEvent id ev => q = Ready (Ok (id, ev)) | InboundError _ => True end
    | _ => True
    end.
Proof.
  intros [Hnd Hids]%iterates_spec. unfold Handler_poll. destruct (new_substreams h) as [|info rest].
  2:{ eexists _, _, Pending. split_and!; [reflexivity|done|apply inbound_post_same|done]. }
  destruct (inbound_poll ids _ Hnd Hids) as (q & m' & -> & Hpost). cbn [mbind outcome_bind].
  destruct q as [[[id ev]|[id e]]|]; eexists _, _, _; (split_and!; [reflexivity|done|exact Hpost|done]).
Qed.

Lemma conn_ok_poll k ids (h h' : InHandler) q :
  conn_ok k ids h → next_inbound_substream_id h' = next_inbound_substream_id h →
  inbound_post (inbound_substreams h) q (inbound_substreams h') →
  conn_ok k ids h' ∧ ∀ id ev, q = Ready (Ok (id, ev)) → conn_ok k (id :: ids) h'.
Proof.
  intros [H1 H2 H3 H4] Hnext [P1 P2 P3].
  assert (conn_ok k ids h') as Hok.
  { split; [done| | |by rewrite Hnext].
    - intros id (s & Hs & Hw)%H2. by eapply P2.
    - intros id Hid. rewrite Hnext. by apply H3, P1. }
  split; [done|]. intros id ev Hq. destruct (P3 id ev Hq) as [(s & Hs & Hn) Hs']. destruct Hok as [O1 O2 O3 O4]. split; [|set_solver|done..].
  apply NoDup_cons. split; [|done]. intros (s2 & Hs2 & Hw2)%H2. congruence.
Qed.

Lemma server_inv_succ k used used' sys : (∀ id, id ∈ used → id ∈ used') → server_inv k used sys → server_inv (k + 1) used' sys.
Proof. intros Hu. apply server_inv_mono; [lia|done]. Qed.

Lemma conn_step_inv k used used' sys c f :
  server_inv k used sys → (∀ id, id ∈ used → id ∈ used') →
  (∀ cn, ss_conns sys !! c = Some cn → conn_ok k (owed (ss_behaviour sys) c cn) (cn_handler cn) →
    ∃ sys', f cn = Ret sys' ∧ server_inv (k + 1) used' sys') →
  ∃ sys', conn_step sys c f = Ret sys' ∧ server_inv (k + 1) used' sys'.
Proof.
  intros Hinv Hu Hf. unfold conn_step. destruct (ss_conns sys !! c) as [cn|] eqn:Hc.
  - apply Hf; [done|]. by apply (sv_conns _ _ _ Hinv).
  - eexists. split; [done|]. by eapply server_inv_succ.
Qed.

Lemma step_poll_handler k used sys c ids :
  server_inv k used sys → ∃ sys', server_step (SysPollHandler c ids) sys = Ret sys' ∧ server_inv (k + 1) used sys'.
Proof.
  intros Hinv. eapply conn_step_inv; [done|done|]. intros cn Hc Hok.
  case_decide as Hit; [|eexists; split; [done|by eapply server_inv_succ]].
  destruct (Handler_poll_spec (cn_handler cn) ids Hit) as (p & h' & q & -> & Hnext & Hpost & Hq). cbn [mbind outcome_bind].
  destruct (conn_ok_poll _ _ _ _ _ Hok Hnext Hpost) as [Hok' Hemit].
  assert (conn_ok (k + 1) (owed (ss_behaviour sys) c cn) h') as Hok1 by (eapply conn_ok_mono; [|done|done]; lia).
  destruct p as [[info|e]|]; [eexists; split; [reflexivity|by eapply server_inv_put]| |eexists; split; [reflexivity|by eapply server_inv_put]].
  eexists. split; [reflexivity|]. eapply server_inv_put; [done|done|]. unfold owed. simpl. unfold up_ids. rewrite omap_app. simpl.
  destruct (up_event e) as [id ev|id]; simpl; [|by rewrite app_nil_r].
  eapply conn_ok_mono; [| |exact (Hemit id ev Hq)]; [lia|]. rewrite <-app_assoc. simpl. by rewrite <-Permutation_middle.
Qed.

Lemma step_negotiated k used sys c socket :
  (k + 1 < 2 ^ 64)%N → server_inv k used sys →
  ∃ sys', server_step (SysNegotiated c socket) sys = Ret sys' ∧ server_inv (k + 1) used sys'.
Proof.
  intros Hk Hinv. eapply conn_step_inv; [done|done|]. intros cn Hc Hok. destruct Hok as [H1 H2 H3 H4].
  unfold inject_fully_negotiated_inbound, fetch_and_increment. rewrite decide_True by lia. simpl.
  eexists. split; [reflexivity|]. eapply server_inv_put; [done|done|]. simpl. split; simpl; [done| | |lia].
  - intros id (s & Hs & Hw)%H2. exists s. split; [|done]. rewrite lookup_insert_ne; [done|]. intros <-.
    specialize (H3 _ ltac:(by eexists)). lia.
  - intros id [<-|[_ Hid%H3]]%lookup_insert_is_Some; lia.
Qed.

Lemma step_network k used sys c id f :
  server_inv k used sys → ∃ sys', server_step (SysNetwork c id f) sys = Ret sys' ∧ server_inv (k + 1) used sys'.
Proof.
  intros Hinv. eapply conn_step_inv; [done|done|]. intros cn Hc [H1 H2 H3 H4].
  eexists. split; [reflexivity|]. eapply server_inv_put; [done|done|]. simpl. split; simpl; [done| | |lia].
  - intros id' (s & Hs & Hw)%H2. destruct (decide (id = id')) as [<-|Hne].
    + exists (set_framed f s). rewrite lookup_alter_eq, Hs. split; [done|]. by destruct s.
    + exists s. by rewrite lookup_alter_ne.
  - intros id' Hid. apply H3. by rewrite lookup_alter_is_Some in Hid.
Qed.

Lemma step_down k used sys c :
  server_inv k used sys → ∃ sys', server_step (SysDown c) sys = Ret sys' ∧ server_inv (k + 1) used sys'.
Proof.
  intros Hinv. eapply conn_step_inv; [done|done|]. intros cn Hc [H1 H2 H3 H4].
  destruct (cn_down cn) as [|[id message] rest] eqn:Hd; [eexists; split; [done|by eapply server_inv_succ]|].
  set (others := up_ids (cn_up cn) ++ answer_ids c (sb_events (ss_behaviour sys)) ++ rest.*1).
  assert (owed (ss_behaviour sys) c cn ≡ₚ id :: others) as Hperm.
  { unfold owed, others. rewrite Hd. simpl. by rewrite !app_assoc, <-Permutation_middle. }
  rewrite Hperm in H1. apply NoDup_cons in H1 as [Hnin H1].
  destruct (H2 id) as (s & Hs & Hw); [rewrite Hperm; by left|]. simpl. rewrite Hs. simpl. destruct s as [|f| |]; try done.
  assert (∃ s', InboundStream_inject_event (PendingBehaviour f) message = Ret s') as [s' ->] by (destruct message; simpl; eauto).
  eexists. split; [reflexivity|]. eapply server_inv_put; [done|done|]. simpl. fold others. split; simpl; [done| | |lia].
  - intros id' Hin. destruct (H2 id') as (s2 & Hs2 & Hw2); [rewrite Hperm; by right|]. exists s2. split; [|done].
    rewrite lookup_insert_ne; [done|]. by intros <-.
  - intros id' [<-|[_ Hid]]%lookup_insert_is_Some; apply H3; [by eexists|done].
Qed.

Lemma up_ids_cons e l : up_ids (e :: l) = up_ids [e] ++ up_ids l.
Proof. by destruct e. Qed.

Lemma answer_ids_app c l1 l2 : answer_ids c (l1 ++ l2) = answer_ids c l1 ++ answer_ids c l2.
Proof. apply omap_app. Qed.

Lemma step_up k used sys c rid random now :
  server_inv k used sys → rid ∉ used →
  ∃ sys', server_step (SysUp c rid random now) sys = Ret sys' ∧ server_inv (k + 1) (rid :: used) sys'.
Proof.
  intros Hinv Hrid. eapply conn_step_inv; [done|set_solver|]. intros cn Hc Hok.
  destruct (cn_up cn) as [|event rest] eqn:Hup; [eexists; split; [done|]; eapply server_inv_succ; [set_solver|done]|].
  destruct Hinv as [I1 I2 I3 I4]. destruct (I4 c cn Hc) as [Hlt _].
  assert (∃ acts regs' ids, ServerBehaviour_inject_event (ss_behaviour sys) (cn_peer cn) c event rid random now =
      Ret (mkServerBehaviour (sb_events (ss_behaviour sys) ++ acts) regs') ∧ reg_inv regs' ∧
      (∀ i, i ∈ timer_ids regs' → i ∈ rid :: used) ∧ (∀ c', answer_ids c' acts = if decide (c = c') then ids else []) ∧
      ids ⊆+ up_ids [event]) as (acts & regs' & ids & -> & Hr & Ht & Ha & Hsub).
  { destruct event as [id ev|id]; simpl.
    - destruct (handle_inbound_event_spec ev (cn_peer cn) c id _ rid random now I1) as (acts & regs' & -> & Hr & Ht & Ha); [by intros ?%I2|].
      eexists acts, regs', _. split_and!; [reflexivity|done| |exact Ha|destruct (answered ev); [done|apply submseteq_nil_l]].
      intros i [?%I2| ->]%Ht; set_solver.
    - eexists _, _, []. split_and!; [reflexivity|done|set_solver| |apply submseteq_nil_l]. intros c'. simpl. by case_decide. }
  eexists. split; [reflexivity|]. split; simpl; [done|done| |].
  - intros c' Hc'. rewrite answer_ids_app, I3, Ha, decide_False by lia. done.
  - intros c' cn' [[<- <-]|[Hne Hc']]%lookup_insert_Some.
    + split; [done|]. simpl. eapply conn_ok_mono; [| |exact Hok]; [lia|]. unfold owed. simpl. rewrite Hup, answer_ids_app, Ha.
      rewrite decide_True, up_ids_cons by done. rewrite <-!app_assoc.
      etrans; [|apply submseteq_skips_r, Hsub]. solve_submseteq.
    + destruct (I4 c' cn' Hc') as [? Hok']. split; [done|]. eapply conn_ok_mono; [| |exact Hok']; [lia|]. unfold owed. simpl.
      rewrite answer_ids_app, Ha, decide_False, app_nil_r by done. done.
Qed.

Lemma step_poll_behaviour k used sys now :
  server_inv k used sys → ∃ sys', server_step (SysPollBehaviour now) sys = Ret sys' ∧ server_inv (k + 1) used sys'.
Proof.
  intros [I1 I2 I3 I4]. simpl. unfold ServerBehaviour_poll.
  destruct (Registrations_poll_spec _ now I1) as (p & regs & -> & Hp). cbn [mbind outcome_bind].
  assert (∀ id, id ∈ timer_ids regs → id ∈ used) as Ht.
  { intros id (x & -> & Hx)%list_elem_of_fmap. apply I2, list_elem_of_fmap. exists x. split; [done|]. by apply (pp_timers_subset _ _ _ _ Hp). }
  assert (∀ events, events `suffix_of` sb_events (ss_behaviour sys) →
    server_inv (k + 1) used (mkServerSys (mkServerBehaviour events regs) (ss_conns sys) (ss_next sys))) as Hinv.
  { intros events [l Hl]. split; simpl; [apply Hp|done| |].
    - intros c Hc. specialize (I3 c Hc). rewrite Hl, answer_ids_app in I3. by apply app_nil in I3 as [_ ?].
    - intros c cn Hc. destruct (I4 c cn Hc) as [? Hok]. split; [done|]. eapply conn_ok_mono; [| |exact Hok]; [lia|].
      unfold owed. simpl. rewrite Hl, answer_ids_app. solve_submseteq. }
  destruct p as [r|]; [eexists; split; [reflexivity|by apply Hinv]|].
  destruct (sb_events (ss_behaviour sys)) as [|a events] eqn:He; [eexists; split; [reflexivity|by apply Hinv]|].
  assert (events `suffix_of` a :: events) as Hsuf by by exists [a].
  destruct a as [peer c id message|e|peer c]; [|eexists; split; [reflexivity|by apply Hinv]..].
  unfold conn_step. cbn [mbind outcome_bind ss_conns]. destruct (ss_conns sys !! c) as [cn|] eqn:Hc; [|eexists; split; [reflexivity|by apply Hinv]].
  eexists. split; [reflexivity|]. destruct (Hinv events Hsuf) as [J1 J2 J3 J4]. split; [done..|]. simpl.
  intros c' cn' [[<- <-]|[Hne Hc']]%lookup_insert_Some; [|by apply J4].
  destruct (I4 c cn Hc) as [? Hok]. split; [done|]. simpl. eapply conn_ok_mono; [| |exact Hok]; [lia|]. unfold owed. simpl. rewrite He.
  simpl. rewrite decide_True, fmap_app by done. simpl. solve_submseteq.
Qed.

(** The ids that an operation draws for registrations. *)
Definition sys_ids (op : sys_op) : list N := match op with SysUp _ rid _ _ => [rid] | _ => [] end.

Lemma server_step_inv k used op sys :
  (k + 1 < 2 ^ 64)%N → server_inv k used sys → Forall (λ id, id ∉ used) (sys_ids op) →
  ∃ sys', server_step op sys = Ret sys' ∧ server_inv (k + 1) (sys_ids op ++ used) sys'.
Proof.
  intros Hk Hinv Hids. destruct op as [peer now|c|c socket|c id f|c ids|c rid random now|now|c]; simpl sys_ids; simpl app.
  - destruct Hinv as [I1 I2 I3 I4]. eexists. split; [reflexivity|]. split; simpl; [done|done|intros c Hc; apply I3; lia|].
    intros c cn [[<- <-]|[Hne Hc]]%lookup_insert_Some.
    + split; [lia|]. unfold owed. simpl. rewrite I3 by lia. split; simpl; [constructor|by intros id []%elem_of_nil| |lia].
      intros id. rewrite lookup_empty. by intros [].
    + destruct (I4 c cn Hc). split; [lia|]. eapply conn_ok_mono; [|done|done]. lia.
  - destruct Hinv as [I1 I2 I3 I4]. eexists. split; [reflexivity|]. split; simpl; [done..|].
    intros c' cn [_ Hc]%lookup_delete_Some. destruct (I4 c' cn Hc). split; [done|]. eapply conn_ok_mono; [|done|done]. lia.
  - by apply step_negotiated.
  - by apply step_network.
  - by apply step_poll_handler.
  - apply step_up; [done|]. by apply Forall_cons in Hids as [? _].
  - by apply step_poll_behaviour.
  - by apply step_down.
Qed.

Lemma server_run_inv k used ops sys :
  (k + N.of_nat (length ops) < 2 ^ 64)%N → server_inv k used sys → NoDup (ops ≫= sys_ids) →
  (∀ id, id ∈ used → id ∉ ops ≫= sys_ids) →
  ∃ sys' used', server_run ops sys = Ret sys' ∧ server_inv (k + N.of_nat (length ops)) used' sys' ∧
    ∀ id, id ∈ used' → id ∈ used ∨ id ∈ ops ≫= sys_ids.
Proof.
  revert k used sys. induction ops as [|op ops IH]; intros k used sys Hk Hinv Hnd Hu.
  { exists sys, used. split; [done|]. simpl. rewrite N.add_0_r. split; [done|by left]. }
  rewrite bind_cons in Hnd, Hu. apply NoDup_app in Hnd as (_ & Hdis & Hnd). cbn [length] in Hk.
  destruct (server_step_inv k used op sys) as (sys1 & Hs & Hinv1); [lia|done| |].
  { apply Forall_forall. intros id Hin Hus. apply (Hu id Hus), elem_of_app. by left. }
  destruct (IH (k + 1)%N (sys_ids op ++ used) sys1) as (sys' & used' & Hr & Hinv' & Hu'); [lia|done|done| |].
  { intros id [Hin|Hin]%elem_of_app; [by apply Hdis|]. intros Hin'. apply (Hu id Hin), elem_of_app. by right. }
  exists sys', used'. simpl. rewrite Hs. split_and!; [done|eapply server_inv_mono; [|done|done]; lia|].
  intros id [[?|?]%elem_of_app|?]%Hu'; rewrite ?elem_of_app; auto.
Qed.

(** [C29] The server with the handlers of its connections never panics, whatever the
    remotes, the network and the schedule do, and however requests, answers, failures
    and closed connections overtake each other: every answer that reaches a substream
    finds it waiting for exactly that answer, as the handler asserts, and the maps of
    the registrations stay consistent. *)
Theorem server_connections_safe config ops :
  (N.of_nat (length ops) < 2 ^ 64)%N → NoDup (ops ≫= sys_ids) →
  ∃ sys, server_run ops (server_sys_new config) = Ret sys ∧ reg_inv (sb_registrations (ss_behaviour sys)) ∧
    ∀ c cn, ss_conns sys !! c = Some cn →
      NoDup (owed (ss_behaviour sys) c cn) ∧
      ∀ id, id ∈ owed (ss_behaviour sys) c cn → ∃ s, inbound_substreams (cn_handler cn) !! id = Some s ∧ waits s.
Proof.
  intros Hk Hnd. destruct (server_run_inv 0 [] ops (server_sys_new config)) as (sys & used & Hr & [I1 I2 I3 I4] & _);
    [lia|apply server_inv_new|done|by intros id []%elem_of_nil|].
  exists sys. split_and!; [done|done|]. intros c cn Hc. destruct (I4 c cn Hc) as [_ [H1 H2 _ _]]. done.
Qed.

(** ** The substream of a request to unregister *)

(** The stream waits for an answer, but none is on its way. *)
Definition stuck (sys : server_sys) (c id : N) : Prop :=
  ∃ cn s, ss_conns sys !! c = Some cn ∧ inbound_substreams (cn_handler cn) !! id = Some s ∧ waits s ∧
    id ∉ owed (ss_behaviour sys) c cn.

(** A step on a connection keeps a stream stuck if it does so on that connection. *)
Lemma conn_step_stuck sys sys' c c' id f :
  conn_step sys c' f = Ret sys' → stuck sys c id →
  (∀ cn', ss_conns sys !! c' = Some cn' → f cn' = Ret sys' →
    (c' ≠ c → ss_conns sys' !! c = ss_conns sys !! c ∧
      answer_ids c (sb_events (ss_behaviour sys')) = answer_ids c (sb_events (ss_behaviour sys))) ∧
    (c' = c → stuck sys' c id)) →
  stuck sys' c id.
Proof.
  intros Hs Hst Hf. unfold conn_step in Hs. destruct (ss_conns sys !! c') as [cn'|] eqn:Hc'; [|by injection Hs as <-].
  destruct (Hf cn' eq_refl Hs) as [Hne Heq]. destruct (decide (c' = c)) as [->|Hn]; [auto|]. destruct (Hne Hn) as [Hc Ha].
  destruct Hst as (cn & s & Hcn & Hrest). exists cn, s. unfold owed in *. by rewrite Hc, Ha.
Qed.

Lemma put_conn_stuck sys c cn' s' id :
  inbound_substreams (cn_handler cn') !! id = Some s' → waits s' → id ∉ owed (ss_behaviour sys) c cn' → stuck (put_conn sys c cn') c id.
Proof. intros Hs Hw Ho. exists cn', s'. simpl. by rewrite lookup_insert_eq. Qed.

Lemma put_conn_other sys c c' cn' :
  c' ≠ c → ss_conns (put_conn sys c' cn') !! c = ss_conns sys !! c ∧
    answer_ids c (sb_events (ss_behaviour (put_conn sys c' cn'))) = answer_ids c (sb_events (ss_behaviour sys)).
Proof. intros Hne. simpl. by rewrite lookup_insert_ne. Qed.

Lemma stuck_poll_handler k used sys sys' c id c' ids :
  server_inv k used sys → stuck sys c id → server_step (SysPollHandler c' ids) sys = Ret sys' → stuck sys' c id.
Proof.
  intros Hinv Hst Hs. simpl in Hs. eapply (conn_step_stuck _ _ _ _ _ _ Hs Hst). intros cn' Hc' Hf. simpl in Hf.
  case_decide as Hit; [|injection Hf as <-; split; [done|by intros ->]].
  destruct (Handler_poll_spec (cn_handler cn') ids Hit) as (p & h' & q & Hh & _ & Hpost & Hq). rewrite Hh in Hf. cbn [mbind outcome_bind] in Hf.
  assert (∃ up, (match p with Ready (Custom e) => [up_event e] | _ => [] end) = up ∧
    Ret (put_conn sys c' (mkConn (cn_peer cn') h' (cn_up cn' ++ up) (cn_down cn'))) = Ret sys') as (up & Hup & Heq).
  { eexists. split; [reflexivity|]. rewrite <-Hf. destruct p as [[]|]; rewrite ?app_nil_r; [by destruct cn'|done|by destruct cn']. }
  injection Heq as <-. split; [intros Hne; by apply put_conn_other|]. intros ->.
  destruct Hst as (cn & s & Hc & Hin & Hw & Ho). simplify_eq. destruct (ip_waits _ _ _ Hpost id s Hin Hw) as (s' & Hin' & Hw').
  eapply put_conn_stuck; [done|done|]. unfold owed in *. simpl. unfold up_ids in *. rewrite omap_app.
  destruct p as [[info|e]|]; simpl; rewrite ?app_nil_r; try done.
  destruct (up_event e) as [id' ev|id']; simpl; rewrite ?app_nil_r; [|done].
  destruct (ip_emits _ _ _ Hpost id' ev Hq) as [(s2 & Hs2 & Hn2) _]. rewrite <-app_assoc, !elem_of_app, list_elem_of_singleton in *.
  intros [?|[-> |?]]; [tauto|congruence|tauto].
Qed.

Lemma stuck_down k used sys sys' c id c' :
  server_inv k used sys → stuck sys c id → server_step (SysDown c') sys = Ret sys' → stuck sys' c id.
Proof.
  intros Hinv Hst Hs. simpl in Hs. eapply (conn_step_stuck _ _ _ _ _ _ Hs Hst). intros cn' Hc' Hf. simpl in Hf.
  destruct (cn_down cn') as [|[id' message] rest] eqn:Hd; [injection Hf as <-; split; [done|by intros ->]|].
  destruct (match inbound_substreams (cn_handler cn') !! id' with Some _ => _ | None => _ end) as [h|] eqn:Hh; [|done].
  injection Hf as <-. split; [intros Hne; by apply put_conn_other|]. intros ->. destruct Hst as (cn & s & Hc & Hin & Hw & Ho). simplify_eq.
  assert (id' ≠ id) as Hne.
  { intros ->. apply Ho. unfold owed. rewrite Hd. simpl. rewrite !elem_of_app. right. right. by left. }
  eapply (put_conn_stuck _ _ _ s); simpl; [|done|].
  - destruct (inbound_substreams (cn_handler cn) !! id') as [s2|] eqn:Hs2; [|by injection Hh as <-].
    destruct (InboundStream_inject_event s2 message) as [s3|]; [|done]. injection Hh as <-. simpl. by rewrite lookup_insert_ne.
  - unfold owed in *. rewrite Hd in Ho. simpl in *. rewrite !elem_of_app, elem_of_cons in *. tauto.
Qed.

Lemma stuck_up k used sys sys' c id c' rid random now :
  server_inv k used sys → rid ∉ used → stuck sys c id → server_step (SysUp c' rid random now) sys = Ret sys' → stuck sys' c id.
Proof.
  intros Hinv Hrid Hst Hs. simpl in Hs. eapply (conn_step_stuck _ _ _ _ _ _ Hs Hst). intros cn' Hc' Hf. simpl in Hf.
  destruct (cn_up cn') as [|event rest] eqn:Hup; [injection Hf as <-; split; [done|by intros ->]|].
  destruct Hinv as [I1 I2 I3 I4].
  destruct (ServerBehaviour_inject_event _ _ _ _ _ _ _) as [b|] eqn:Hb; [|done]. injection Hf as <-.
  assert (∃ ids, (∀ c2, answer_ids c2 (sb_events b) = answer_ids c2 (sb_events (ss_behaviour sys)) ++ if decide (c' = c2) then ids else []) ∧
    ∀ i, i ∈ ids → i ∈ up_ids [event]) as (ids & Ha & Hids).
  { destruct event as [i ev|i]; simpl in Hb.
    - destruct (handle_inbound_event_spec ev (cn_peer cn') c' i _ rid random now I1) as (acts & regs' & Hh & _ & _ & Ha); [by intros ?%I2|].
      rewrite Hh in Hb. injection Hb as <-. eexists. split; [intros c2; simpl; by rewrite answer_ids_app, Ha|]. intros j. by destruct (answered ev); [|intros []%elem_of_nil].
    - injection Hb as <-. exists []. split; [|by intros j []%elem_of_nil]. intros c2. simpl. rewrite answer_ids_app. by case_decide. }
  split.
  - intros Hne. simpl. rewrite lookup_insert_ne by done. by rewrite Ha, decide_False, app_nil_r.
  - intros ->. destruct Hst as (cn & s & Hc & Hin & Hw & Ho). simplify_eq. eexists _, s. simpl. rewrite lookup_insert_eq. split_and!; [done..|].
    unfold owed in *. rewrite Hup in Ho. cbn [cn_up cn_down] in *. rewrite Ha, decide_True by done.
    rewrite up_ids_cons in Ho. rewrite !elem_of_app in *. specialize (Hids id). tauto.
Qed.

Lemma stuck_poll_behaviour k used sys sys' c id now :
  server_inv k used sys → stuck sys c id → server_step (SysPollBehaviour now) sys = Ret sys' → stuck sys' c id.
Proof.
  intros [I1 I2 I3 I4] (cn & s & Hc & Hin & Hw & Ho) Hs. simpl in Hs. unfold ServerBehaviour_poll in Hs.
  destruct (Registrations_poll_spec _ now I1) as (p & regs & Hp & _). rewrite Hp in Hs. cbn [mbind outcome_bind] in Hs.
  destruct p as [r|]; [injection Hs as <-; by exists cn, s|].
  unfold owed in Ho. destruct (sb_events (ss_behaviour sys)) as [|a events] eqn:He; [injection Hs as <-; exists cn, s; unfold owed; simpl; done|].
  assert (stuck (mkServerSys (mkServerBehaviour events regs) (ss_conns sys) (ss_next sys)) c id) as Hst.
  { exists cn, s. split_and!; [done..|]. unfold owed. simpl. simpl in Ho. rewrite !elem_of_app in *.
    destruct a; simpl in Ho; [case_decide; [rewrite elem_of_cons in Ho|]|..]; tauto. }
  destruct a as [peer c' id' message|e|peer c']; [|by injection Hs as <-..]. cbn [mbind outcome_bind] in Hs.
  eapply (conn_step_stuck _ _ _ _ _ _ Hs Hst). intros cn' Hc' Hf. injection Hf as <-. split; [intros Hne; by apply put_conn_other|]. intros ->.
  simpl in Hc'. simplify_eq. eapply put_conn_stuck; [done|done|]. unfold owed. simpl. simpl in Ho. rewrite decide_True, fmap_app in * by done.
  rewrite !elem_of_app, elem_of_cons in *. simpl. rewrite list_elem_of_singleton. tauto.
Qed.

Lemma stuck_step k used op sys sys' c id :
  server_inv k used sys → Forall (λ i, i ∉ used) (sys_ids op) → op ≠ SysDisconnect c →
  stuck sys c id → server_step op sys = Ret sys' → stuck sys' c id.
Proof.
  intros Hinv Hids Hop Hst Hs. destruct op as [peer now|c'|c' socket|c' id' f|c' ids|c' rid random now|now|c'].
  - injection Hs as <-. destruct Hst as (cn & s & Hc & Hrest). exists cn, s. simpl. split; [|done].
    rewrite lookup_insert_ne; [done|]. destruct (sv_conns _ _ _ Hinv c cn Hc). lia.
  - injection Hs as <-. destruct Hst as (cn & s & Hc & Hrest). exists cn, s. simpl. split; [|done].
    rewrite lookup_delete_ne; [done|]. congruence.
  - simpl in Hs. eapply (conn_step_stuck _ _ _ _ _ _ Hs Hst). intros cn' Hc' Hf.
    unfold inject_fully_negotiated_inbound, fetch_and_increment in Hf. case_decide; [|done]. injection Hf as <-.
    split; [intros Hne; by apply put_conn_other|]. intros ->. destruct Hst as (cn & s & Hc & Hin & Hw & Ho). simplify_eq.
    destruct (sv_conns _ _ _ Hinv c _ Hc) as [_ [_ _ H3 _]]. eapply (put_conn_stuck _ _ _ s); simpl; [|done..].
    rewrite lookup_insert_ne; [done|]. specialize (H3 id ltac:(by eexists)). lia.
  - simpl in Hs. eapply (conn_step_stuck _ _ _ _ _ _ Hs Hst). intros cn' Hc' Hf. injection Hf as <-.
    split; [intros Hne; by apply put_conn_other|]. intros ->. destruct Hst as (cn & s & Hc & Hin & Hw & Ho). simplify_eq.
    destruct (decide (id' = id)) as [->|Hne].
    + eapply (put_conn_stuck _ _ _ (set_framed f s)); simpl; [by rewrite lookup_alter_eq, Hin|by destruct s|done].
    + eapply (put_conn_stuck _ _ _ s); simpl; [by rewrite lookup_alter_ne|done..].
  - by eapply stuck_poll_handler.
  - eapply stuck_up; [done| |done|done]. by apply Forall_cons in Hids as [? _].
  - by eapply stuck_poll_behaviour.
  - by eapply stuck_down.
Qed.

Lemma stuck_run k used ops sys c id :
  (k + N.of_nat (length ops) < 2 ^ 64)%N → server_inv k used sys → NoDup (ops ≫= sys_ids) →
  (∀ id, id ∈ used → id ∉ ops ≫= sys_ids) → SysDisconnect c ∉ ops → stuck sys c id →
  ∃ sys', server_run ops sys = Ret sys' ∧ stuck sys' c id.
Proof.
  revert k used sys. induction ops as [|op ops IH]; intros k used sys Hk Hinv Hnd Hu Hd Hst; [by exists sys|].
  rewrite bind_cons in Hnd, Hu. apply NoDup_app in Hnd as (_ & Hdis & Hnd). cbn [length] in Hk. apply not_elem_of_cons in Hd as [Hd Hds].
  assert (Forall (λ i, i ∉ used) (sys_ids op)) as Hf.
  { apply Forall_forall. intros i Hin Hus. apply (Hu i Hus), elem_of_app. by left. }
  destruct (server_step_inv k used op sys) as (sys1 & Hs & Hinv1); [lia|done|done|].
  destruct (IH (k + 1)%N (sys_ids op ++ used) sys1) as (sys' & Hr & Hst'); [lia|done|done| |done| |].
  { intros i [Hin|Hin]%elem_of_app; [by apply Hdis|]. intros Hin'. apply (Hu i Hin), elem_of_app. by right. }
  { eapply (stuck_step k used op sys); [done|done| |done|done]. by intros ->. }
  exists sys'. simpl. by rewrite Hs.
Qed.

(** The substream of a request to unregister is never finished: once the request
    reaches the behaviour, the substream stays as long as the connection does,
    whatever happens, so that the connection is kept alive for ever; and whenever the
    iteration begins with it, polling the inbound substreams does nothing, so that the
    requests on the other substreams are not read. *)
Theorem unregister_never_finishes config pre sys c cn id namespace rest rid random now post :
  server_run pre (server_sys_new config) = Ret sys → ss_conns sys !! c = Some cn →
  cn_up cn = InboundEvent id (UnregisterRequested namespace) :: rest →
  (N.of_nat (length (pre ++ SysUp c rid random now :: post)) < 2 ^ 64)%N →
  NoDup ((pre ++ SysUp c rid random now :: post) ≫= sys_ids) → SysDisconnect c ∉ post →
  ∃ sys' cn', server_run (SysUp c rid random now :: post) sys = Ret sys' ∧ ss_conns sys' !! c = Some cn' ∧
    (∀ later, connection_keep_alive (cn_handler cn') later = true) ∧
    (∀ ids, poll_substreams (id :: ids) (inbound_substreams (cn_handler cn')) = Ret (Pending, inbound_substreams (cn_handler cn'))).
Proof.
  intros Hpre Hc Hup Hlen Hnd Hdis. rewrite length_app in Hlen. cbn [length] in Hlen.
  rewrite bind_app, bind_cons in Hnd. apply NoDup_app in Hnd as (Hnd1 & Hd1 & Hnd2). cbn [sys_ids app] in Hd1, Hnd2.
  apply NoDup_cons in Hnd2 as [Hrid Hnd2].
  destruct (server_run_inv 0 [] pre (server_sys_new config)) as (sys0 & used & Hr & Hinv & Hu);
    [lia|apply server_inv_new|done|by intros i []%elem_of_nil|]. rewrite Hpre in Hr. injection Hr as <-.
  assert (∀ i, i ∈ used → i ∈ pre ≫= sys_ids) as Hu1 by (by intros i [[]%elem_of_nil|?]%Hu).
  assert (rid ∉ used) as Hfresh by (intros ?%Hu1%Hd1; set_solver).
  destruct (step_up _ used sys c rid random now Hinv Hfresh) as (sys1 & Hs & Hinv1).
  assert (stuck sys1 c id) as Hst.
  { destruct (sv_conns _ _ _ Hinv c cn Hc) as [_ [H1 H2 _ _]]. unfold owed in H1, H2. rewrite Hup, up_ids_cons in H1, H2.
    simpl in Hs. unfold conn_step in Hs. rewrite Hc, Hup in Hs. injection Hs as <-. destruct (H2 id) as (s & Hin & Hw); [by left|].
    eexists _, s. simpl. rewrite lookup_insert_eq. split_and!; [done..|]. apply NoDup_cons in H1 as [Hn _].
    unfold owed. simpl. by rewrite answer_ids_app, app_nil_r. }
  destruct (stuck_run (0 + N.of_nat (length pre) + 1) (rid :: used) post sys1 c id) as (sys' & Hr' & cn' & s & Hc' & Hin & Hw & Ho);
    [lia|done|done| |done|done|].
  { intros i [->|Hin]%elem_of_cons; [done|]. intros Hin'. apply (Hd1 i (Hu1 i Hin)). by right. }
  exists sys', cn'. cbn [server_run]. rewrite Hs. cbn [mbind outcome_bind]. split_and!; [done|done| |].
  - intros later. unfold connection_keep_alive. case_decide; [done|]. rewrite bool_decide_eq_false_2; [done|].
    intros (He & _). by rewrite He, lookup_empty in Hin.
  - intros ids. cbn [poll_substreams]. rewrite Hin. destruct s as [|f| |]; try done. simpl. by rewrite insert_delete_id.
Qed.
End system.

(** ** Instances and witnesses *)

(** A substream whose messages have all arrived and that accepts everything. *)
#[export] Instance QueueFramed (Item : Type) : FramedOps (list Item) (list Item) Item unit := {
  framed_new l := l;
  framed_poll_next l := match l with m :: l => (Ready (Some (Ok m)), l) | [] => (Ready None, []) end;
  framed_poll_ready l := (Ready (Ok ()), l);
  framed_start_send l _ := (Ok (), l);
  framed_poll_flush l := (Ready (Ok ()), l);
  framed_poll_close l := (Ready (Ok ()), l);
}.

Abbreviation SampleMsg := (Message (PeerRecord := N * list N)).
Abbreviation SampleSys :=
  (server_sys (PeerRecord := N * list N) (PeerId := N) (B := SampleMap) (F := list SampleMsg)).

(** Peer 7 registers and is answered. *)
Lemma server_connections_safe_witness :
  let ops := [SysConnect 7%N 0; SysNegotiated 0 [M_Register (sample_request 7 ns_foo)]; SysPollHandler 0 [0%N]; SysUp 0 10 0 0;
              SysPollBehaviour 0; SysDown 0; SysPollHandler 0 [0%N]] in
  ∃ sys : SampleSys, server_run ops (server_sys_new ServerConfig_default) = Ret sys ∧ reg_inv (sb_registrations (ss_behaviour sys)).
Proof.
  intros ops. destruct (server_connections_safe (B := SampleMap) (F := list SampleMsg) ServerConfig_default ops) as (sys & Hr & Hi & _).
  - reflexivity.
  - apply (bool_decide_unpack _). vm_compute. exact I.
  - exists sys. split; [exact Hr|exact Hi].
Defined.

(** After peer 7 has unregistered, its request to register on another substream of the
    same connection is not read. *)
Lemma unregister_never_finishes_witness :
  let pre := [SysConnect 7%N 0; SysNegotiated 0 [M_Unregister ns_foo]; SysPollHandler 0 [0%N]] in
  let post := [SysNegotiated 0 [M_Register (sample_request 7 ns_foo)]; SysPollHandler 0 [0%N; 1%N]] in
  ∃ (sys sys' : SampleSys) cn', server_run pre (server_sys_new ServerConfig_default) = Ret sys ∧
    server_run (SysUp 0 10 0 0 :: post) sys = Ret sys' ∧ ss_conns sys' !! 0%N = Some cn' ∧
    poll_substreams [0%N; 1%N] (inbound_substreams (cn_handler cn')) = Ret (Pending, inbound_substreams (cn_handler cn')).
Proof.
  intros pre post.
  destruct (unregister_never_finishes (B := SampleMap) (F := list SampleMsg) ServerConfig_default pre
              (match server_run pre (server_sys_new ServerConfig_default) with Ret sys => sys | Panic => server_sys_new ServerConfig_default end)
              0 (mkConn 7%N (mkSubstreamConnectionHandler {[0%N := PendingBehaviour []]} ∅ 1 0 [] 30000000000)
                   [InboundEvent 0 (UnregisterRequested ns_foo)] []) 0 ns_foo [] 10 0 0 post) as (sys' & cn' & Hr & Hc & _ & Hp).
  - vm_compute. reflexivity.
  - vm_compute. reflexivity.
  - reflexivity.
  - reflexivity.
  - apply (bool_decide_unpack _). vm_compute. exact I.
  - intros Hin. repeat (apply elem_of_cons in Hin as [Hin|Hin]; [discriminate Hin|]). by apply elem_of_nil in Hin.
  - eexists _, sys', cn'. split; [|split; [exact Hr|split; [exact Hc|apply Hp]]]. vm_compute. reflexivity.
Defined.
