(* ===== verification/RendezvousClient.v ===== *)
(** * The rendezvous client

    [protocols/rendezvous/src/client.rs]: the requests of a client and the addresses
    it has learned, which expire.  The set of timers of the crate [futures] is a
    parameter; a timer of the client starts when it is polled for the first time,
    because it is created inside an asynchronous block.  The clock and the external
    addresses are arguments. *)

From S2P Require Import Prelude AsyncIo CoreRecord RendezvousCodec RendezvousServer RendezvousHandler.
From stdpp Require Import fin_maps fin_sets.

(** ** Code of other crates *)

(** A delay in a [FuturesUnordered] that has no deadline before its first poll. *)
Record LazyDelay (A : Type) : Type := mkLazyDelay { ld_duration : N; ld_deadline : option N; ld_value : A }.
Arguments mkLazyDelay {A} _ _ _.
Arguments ld_duration {A} _.
Arguments ld_deadline {A} _.
Arguments ld_value {A} _.

Class LazyTimers (A : Type) : Type := lazy_poll : list (LazyDelay A) → N → option A * list (LazyDelay A).

(** A poll may start delays. *)
Definition polled {A} (now : N) (d d' : LazyDelay A) : Prop :=
  d' = d ∨ (ld_deadline d = None ∧ d' = mkLazyDelay (ld_duration d) (Some (now + ld_duration d)%N) (ld_value d)).

(** It yields what a delay that has ended yields; if there is none, all are running. *)
Class LazyTimersSpec (A : Type) `{!LazyTimers A} : Prop := {
  lazy_poll_Some l now a rest : lazy_poll l now = (Some a, rest) →
    ∃ d d' t rest0, l ≡ₚ d :: rest0 ∧ Forall2 (polled now) rest0 rest ∧ polled now d d' ∧
      ld_deadline d' = Some t ∧ (t ≤ now)%N ∧ ld_value d' = a;
  lazy_poll_None l now rest : lazy_poll l now = (None, rest) →
    ∃ l0, l ≡ₚ l0 ∧ Forall2 (polled now) l0 rest ∧ Forall (λ d, ∃ t, ld_deadline d = Some t ∧ (now < t)%N) rest;
}.

(** [PeerRecord::new]. *)
Class RecordNew (Keypair PeerRecord Multiaddr SigningError : Type) : Type :=
  record_new : Keypair → list Multiaddr → N → Result PeerRecord SigningError.

Section client.
Context {Keypair PeerRecord PeerId Multiaddr SigningError : Type} `{Countable PeerId} `{!RecordOps PeerRecord PeerId Multiaddr}.
Context `{!LazyTimers (PeerId * Namespace), !RecordNew Keypair PeerRecord Multiaddr SigningError}.

Abbreviation NewReg := (NewRegistration (PeerRecord := PeerRecord)).
Abbreviation Reg := (Registration (PeerRecord := PeerRecord)).
Abbreviation OutEvent := (OutboundOutEvent (PeerRecord := PeerRecord)).
Abbreviation Info := (OpenInfo (PeerRecord := PeerRecord)).

Inductive RegisterError : Type :=
| NoExternalAddresses
| FailedToMakeRecord (e : SigningError)
| RemoteError (rendezvous_node : PeerId) (namespace : Namespace) (error : ErrorCode).

Inductive ClientEvent : Type :=
| Discovered (rendezvous_node : PeerId) (registrations : list Reg) (cookie : Cookie)
| DiscoverFailed (rendezvous_node : PeerId) (namespace : option Namespace) (error : ErrorCode)
| Registered (rendezvous_node : PeerId) (ttl : Ttl) (namespace : Namespace)
| RegisterFailed (e : RegisterError)
| Expired (peer : PeerId).

Inductive ClientAction : Type :=
| NotifyAny (peer_id : PeerId) (event : HInEvent Info Empty_set Empty_set)
| ClientGenerateEvent (e : ClientEvent)
| ClientCloseConnection (peer_id : PeerId) (connection : N).

Record ClientBehaviour : Type := mkClientBehaviour {
  cb_events : list ClientAction;
  cb_keypair : Keypair;
  pending_register_requests : list (Namespace * PeerId * option Ttl);
  discovered_peers : gmap (PeerId * Namespace) (list Multiaddr);
  expiring_registrations : list (LazyDelay (PeerId * Namespace));
}.

Definition ClientBehaviour_new (keypair : Keypair) : ClientBehaviour := mkClientBehaviour [] keypair [] ∅ [].

Definition push_event (self : ClientBehaviour) (events : list ClientAction) : ClientBehaviour :=
  mkClientBehaviour (cb_events self ++ events) (cb_keypair self) (pending_register_requests self) (discovered_peers self)
    (expiring_registrations self).

Definition ClientBehaviour_register (self : ClientBehaviour) (namespace : Namespace) (rendezvous_node : PeerId) (ttl : option Ttl) :
    ClientBehaviour :=
  mkClientBehaviour (cb_events self) (cb_keypair self) (pending_register_requests self ++ [(namespace, rendezvous_node, ttl)])
    (discovered_peers self) (expiring_registrations self).

Definition ClientBehaviour_unregister (self : ClientBehaviour) (namespace : Namespace) (rendezvous_node : PeerId) : ClientBehaviour :=
  push_event self [NotifyAny rendezvous_node (NewSubstream (UnregisterRequest namespace))].

Definition ClientBehaviour_discover (self : ClientBehaviour) (ns : option Namespace) (cookie : option Cookie) (limit : option N)
    (rendezvous_node : PeerId) : ClientBehaviour :=
  push_event self [NotifyAny rendezvous_node (NewSubstream (DiscoverRequest ns cookie limit))].

Definition addresses_of_peer (self : ClientBehaviour) (peer : PeerId) : list Multiaddr :=
  map_to_list (discovered_peers self) ≫= λ '(candidate, _, addresses), if decide (candidate = peer) then addresses else [].

Definition handle_outbound_event (event : OutEvent) (peer_id : PeerId) (discovered : gmap (PeerId * Namespace) (list Multiaddr))
    (expiring : list (LazyDelay (PeerId * Namespace))) :
    list ClientAction * gmap (PeerId * Namespace) (list Multiaddr) * list (LazyDelay (PeerId * Namespace)) :=
  match event with
  | OE_Registered namespace ttl => ([ClientGenerateEvent (Registered peer_id ttl namespace)], discovered, expiring)
  | OE_RegisterFailed namespace error =>
      ([ClientGenerateEvent (RegisterFailed (RemoteError peer_id namespace error))], discovered, expiring)
  | OE_Discovered registrations cookie =>
      let key (r : Reg) := (record_peer_id (reg_record r), reg_namespace r) in
      let discovered := foldl (λ m r, <[key r := record_addresses (reg_record r)]> m) discovered registrations in
      let expiring := expiring ++ ((λ r, mkLazyDelay (from_secs (reg_ttl r)) None (key r)) <$> registrations) in
      ([ClientGenerateEvent (Discovered peer_id registrations cookie)], discovered, expiring)
  | OE_DiscoverFailed namespace error =>
      ([ClientGenerateEvent (DiscoverFailed peer_id namespace error)], discovered, expiring)
  end.

(** An event of the handler of a connection: an answer, or the failure of a substream. *)
Definition ClientBehaviour_inject_event (self : ClientBehaviour) (peer_id : PeerId) (connection_id : N) (event : option OutEvent) :
    ClientBehaviour :=
  match event with
  | Some message =>
      let '(new_events, discovered, expiring) :=
        handle_outbound_event message peer_id (discovered_peers self) (expiring_registrations self) in
      mkClientBehaviour (cb_events self ++ new_events) (cb_keypair self) (pending_register_requests self) discovered expiring
  | None => push_event self [ClientCloseConnection peer_id connection_id]
  end.

(** [Vec::pop]. *)
Definition vec_pop {A} (l : list A) : option (A * list A) :=
  match last l with Some x => Some (x, take (length l - 1) l) | None => None end.

Definition ClientBehaviour_poll (self : ClientBehaviour) (external_addresses : list Multiaddr) (now : N) :
    Poll ClientAction * ClientBehaviour :=
  match cb_events self with
  | event :: events =>
      (Ready event,
       mkClientBehaviour events (cb_keypair self) (pending_register_requests self) (discovered_peers self) (expiring_registrations self))
  | [] =>
      match vec_pop (pending_register_requests self) with
      | Some ((namespace, rendezvous_node, ttl), rest) =>
          let self := mkClientBehaviour [] (cb_keypair self) rest (discovered_peers self) (expiring_registrations self) in
          if decide (external_addresses = []) then (Ready (ClientGenerateEvent (RegisterFailed NoExternalAddresses)), self)
          else
            match record_new (cb_keypair self) external_addresses now with
            | Ok peer_record =>
                (Ready (NotifyAny rendezvous_node (NewSubstream (RegisterRequest (mkNewRegistration namespace peer_record ttl)))), self)
            | Err signing_error => (Ready (ClientGenerateEvent (RegisterFailed (FailedToMakeRecord signing_error))), self)
            end
      | None =>
          match lazy_poll (expiring_registrations self) now with
          | (Some expired_registration, expiring) =>
              (Ready (ClientGenerateEvent (Expired expired_registration.1)),
               mkClientBehaviour [] (cb_keypair self) [] (delete expired_registration (discovered_peers self)) expiring)
          | (None, expiring) => (Pending, mkClientBehaviour [] (cb_keypair self) [] (discovered_peers self) expiring)
          end
      end
  end.

(** ** What a client holds *)

Inductive client_op : Type :=
| CRegister (namespace : Namespace) (node : PeerId) (ttl : option Ttl)
| CUnregister (namespace : Namespace) (node : PeerId)
| CDiscover (ns : option Namespace) (cookie : option Cookie) (limit : option N) (node : PeerId)
| CInject (peer_id : PeerId) (connection_id : N) (event : option OutEvent)
| CPoll (external_addresses : list Multiaddr) (now : N).

(** With the answer of a poll. *)
Definition client_apply (op : client_op) (self : ClientBehaviour) : list (Poll ClientAction) * ClientBehaviour :=
  match op with
  | CRegister namespace node ttl => ([], ClientBehaviour_register self namespace node ttl)
  | CUnregister namespace node => ([], ClientBehaviour_unregister self namespace node)
  | CDiscover ns cookie limit node => ([], ClientBehaviour_discover self ns cookie limit node)
  | CInject peer_id connection_id event => ([], ClientBehaviour_inject_event self peer_id connection_id event)
  | CPoll external_addresses now => let '(p, self) := ClientBehaviour_poll self external_addresses now in ([p], self)
  end.

Definition client_run (ops : list client_op) (self : ClientBehaviour) : list (Poll ClientAction) * ClientBehaviour :=
  foldl (λ '(ps, self) op, let '(ps', self) := client_apply op self in (ps ++ ps', self)) ([], self) ops.

Definition client_key (r : Reg) : PeerId * Namespace := (record_peer_id (reg_record r), reg_namespace r).

(** The registration was discovered. *)
Definition found (ops : list client_op) (r : Reg) : Prop :=
  ∃ peer conn regs cookie, CInject peer conn (Some (OE_Discovered regs cookie)) ∈ ops ∧ r ∈ regs.

(** The delay belongs to a discovered registration and, if it is running, was started
    by a poll. *)
Definition delay_ok (ops : list client_op) (d : LazyDelay (PeerId * Namespace)) : Prop :=
  ∃ r, found ops r ∧ client_key r = ld_value d ∧ ld_duration d = from_secs (reg_ttl r) ∧
    ∀ t, ld_deadline d = Some t → ∃ ext s, CPoll ext s ∈ ops ∧ t = (s + ld_duration d)%N.

Record client_inv (ops : list client_op) (self : ClientBehaviour) : Prop := {
  ci_timer k addrs : discovered_peers self !! k = Some addrs → k ∈ ld_value <$> expiring_registrations self;
  ci_found k addrs : discovered_peers self !! k = Some addrs →
    ∃ r, found ops r ∧ client_key r = k ∧ addrs = record_addresses (reg_record r);
  ci_delays : Forall (delay_ok ops) (expiring_registrations self);
}.

Lemma found_mono ops ops' r : found ops r → found (ops ++ ops') r.
Proof. intros (p & c & regs & ck & Hin & Hr). exists p, c, regs, ck. split; [|done]. apply elem_of_app. by left. Qed.

Lemma delay_ok_mono ops ops' d : delay_ok ops d → delay_ok (ops ++ ops') d.
Proof.
  intros (r & Hf & Hk & Hd & Ht). exists r. split_and!; [by apply found_mono|done|done|]. intros t (ext & s & Hin & ->)%Ht.
  exists ext, s. split; [|done]. apply elem_of_app. by left.
Qed.

Lemma client_inv_mono ops ops' self self' :
  discovered_peers self' = discovered_peers self → expiring_registrations self' = expiring_registrations self →
  client_inv ops self → client_inv (ops ++ ops') self'.
Proof.
  intros Hd He [H1 H2 H3]. split; rewrite ?Hd, ?He.
  - done.
  - intros k addrs (r & Hf & Hr)%H2. exists r. split; [by apply found_mono|done].
  - eapply Forall_impl; [done|]. intros d. apply delay_ok_mono.
Qed.

Context `{!LazyTimersSpec (PeerId * Namespace)}.

Lemma polled_ok ops ext now d d' : polled now d d' → delay_ok ops d → delay_ok (ops ++ [CPoll ext now]) d'.
Proof.
  intros [->|[Hn ->]] Hok; [by apply delay_ok_mono|]. destruct Hok as (r & Hf & Hk & Hd & _). exists r. simpl.
  split_and!; [by apply found_mono|done|done|]. intros t [= <-]. exists ext, now. split; [|done]. apply elem_of_app. right. by left.
Qed.

Lemma polled_values {A} now (l l' : list (LazyDelay A)) : Forall2 (polled now) l l' → ld_value <$> l' = ld_value <$> l.
Proof. induction 1 as [|d d' l l' [->|[_ ->]] _ IH]; rewrite ?fmap_cons, ?IH; done. Qed.

Lemma polled_all_ok ops ext now l l' :
  Forall2 (polled now) l l' → Forall (delay_ok ops) l → Forall (delay_ok (ops ++ [CPoll ext now])) l'.
Proof.
  induction 1 as [|d d' l l' Hp _ IH]; intros Hok; [constructor|]. apply Forall_cons in Hok as [Hd Hl].
  constructor; [by eapply polled_ok|auto].
Qed.

(** What is held after a discovery. *)
Lemma discovered_insert (regs : list Reg) (m : gmap (PeerId * Namespace) (list Multiaddr)) k addrs :
  foldl (λ m r, <[client_key r := record_addresses (reg_record r)]> m) m regs !! k = Some addrs →
  m !! k = Some addrs ∨ ∃ r, r ∈ regs ∧ client_key r = k ∧ addrs = record_addresses (reg_record r).
Proof.
  revert m. induction regs as [|r regs IH]; intros m Hk; [by left|]. simpl in Hk.
  destruct (IH _ Hk) as [Hin|(r' & Hr' & ?)]; [|right; exists r'; split; [by right|done]].
  apply lookup_insert_Some in Hin as [[<- <-]|[_ ?]]; [|by left]. right. exists r. split; [by left|done].
Qed.

Lemma client_inject_inv ops self peer conn event :
  client_inv ops self → client_inv (ops ++ [CInject peer conn event]) (ClientBehaviour_inject_event self peer conn event).
Proof.
  intros Hinv. destruct event as [[| |regs cookie|]|]; simpl; try by apply (client_inv_mono _ _ self).
  destruct Hinv as [H1 H2 H3].
  assert (∀ r, r ∈ regs → found (ops ++ [CInject peer conn (Some (OE_Discovered regs cookie))]) r) as Hf.
  { intros r Hr. exists peer, conn, regs, cookie. split; [|done]. apply elem_of_app. right. by left. }
  split; simpl.
  - intros k addrs Hk. rewrite fmap_app, elem_of_app. apply discovered_insert in Hk as [Hk|(r & Hr & <- & _)]; [left; by eapply H1|right].
    rewrite <-list_fmap_compose. apply list_elem_of_fmap. by exists r.
  - intros k addrs Hk. apply discovered_insert in Hk as [(r & Hr & ?)%H2|(r & Hr & ?)]; exists r; split; auto. by apply found_mono.
  - apply Forall_app. split; [eapply Forall_impl; [done|]; intros d; apply delay_ok_mono|].
    apply Forall_fmap, Forall_forall. intros r Hr. exists r. split_and!; auto. done.
Qed.

Lemma client_poll_inv ops self ext now :
  client_inv ops self → client_inv (ops ++ [CPoll ext now]) (ClientBehaviour_poll self ext now).2.
Proof.
  intros Hinv. unfold ClientBehaviour_poll. destruct (cb_events self) as [|event events]; [|by apply (client_inv_mono _ _ self)].
  destruct (vec_pop _) as [[[[namespace node] ttl] rest]|].
  { case_decide; [by apply (client_inv_mono _ _ self)|]. destruct (record_new _ _ _); by apply (client_inv_mono _ _ self). }
  destruct Hinv as [H1 H2 H3]. destruct (lazy_poll _ now) as [[k|] expiring] eqn:E; simpl.
  - apply lazy_poll_Some in E as (d & d' & t & rest0 & Hperm & Hp & Hd & Ht & Hle & Hv). rewrite Hperm in H3. apply Forall_cons in H3 as [_ H3].
    assert (ld_value d = k) as Hk by (destruct Hd as [->|[_ ->]]; done).
    split; simpl.
    + intros k' addrs [Hne Hk']%lookup_delete_Some. specialize (H1 _ _ Hk'). rewrite Hperm in H1. rewrite (polled_values _ _ _ Hp).
      simpl in H1. apply elem_of_cons in H1 as [?|?]; [congruence|done].
    + intros k' addrs [_ (r & Hf & ?)%H2]%lookup_delete_Some. exists r. split; [by apply found_mono|done].
    + by eapply polled_all_ok.
  - apply lazy_poll_None in E as (l0 & Hperm & Hp & _). rewrite Hperm in H3. split; simpl.
    + intros k addrs Hk. specialize (H1 _ _ Hk). by rewrite (polled_values _ _ _ Hp), <-Hperm.
    + intros k addrs (r & Hf & ?)%H2. exists r. split; [by apply found_mono|done].
    + by eapply polled_all_ok.
Qed.

Lemma client_run_snoc ops op self :
  client_run (ops ++ [op]) self =
    let '(ps, self1) := client_run ops self in let '(ps', self2) := client_apply op self1 in (ps ++ ps', self2).
Proof. unfold client_run. rewrite foldl_app. simpl. by destruct (foldl _ ([], self) ops) as [ps self1]. Qed.

Lemma client_run_inv keypair ops : client_inv ops (client_run ops (ClientBehaviour_new keypair)).2.
Proof.
  induction ops as [|op ops IH] using rev_ind.
  { split; simpl; [intros k a; by rewrite lookup_empty..|constructor]. }
  rewrite client_run_snoc. destruct (client_run ops _) as [ps self]. simpl in IH.
  destruct op as [namespace node ttl|namespace node|ns cookie limit node|peer conn event|ext now]; simpl; try by apply (client_inv_mono _ _ self).
  - by apply client_inject_inv.
  - pose proof (client_poll_inv ops self ext now IH) as Hp. by destruct (ClientBehaviour_poll self ext now).
Qed.

(** When a poll has nothing to report, every timer is running. *)
Lemma client_poll_pending self ext now self' :
  ClientBehaviour_poll self ext now = (Pending, self') →
  Forall (λ d, ∃ t, ld_deadline d = Some t ∧ (now < t)%N) (expiring_registrations self').
Proof.
  unfold ClientBehaviour_poll. destruct (cb_events self); [|done].
  destruct (vec_pop _) as [[[[namespace node] ttl] rest]|]; [case_decide; [done|]; by destruct (record_new _ _ _)|].
  destruct (lazy_poll _ now) as [[k|] expiring] eqn:E; [done|]. intros [= <-]. by apply lazy_poll_None in E as (l0 & _ & _ & ?).
Qed.

(** A client only holds addresses that it has discovered, under the peer whose
    signed record has them, and forgets them: when a poll has nothing to report, every
    address that is still held belongs to a peer and namespace with a discovered
    registration whose time to live, counted from a poll, is not over. *)
Theorem ClientBehaviour_forgets keypair ops ps self :
  client_run ops (ClientBehaviour_new keypair) = (ps, self) →
  (∀ peer a, a ∈ addresses_of_peer self peer →
    ∃ r, found ops r ∧ record_peer_id (reg_record r) = peer ∧ a ∈ record_addresses (reg_record r)) ∧
  (∀ ext now, last ops = Some (CPoll ext now) → last ps = Some Pending →
    ∀ k, is_Some (discovered_peers self !! k) →
      ∃ r ext' s, found ops r ∧ client_key r = k ∧ CPoll ext' s ∈ ops ∧ (now < s + from_secs (reg_ttl r))%N).
Proof.
  intros Hrun. pose proof (client_run_inv keypair ops) as [H1 H2 H3]. rewrite Hrun in H1, H2, H3. simpl in H1, H2, H3. split.
  - intros peer a ([[p n] addrs] & Ha & Hin)%list_elem_of_bind. apply elem_of_map_to_list in Hin. case_decide as Hp; [|by apply elem_of_nil in Ha].
    destruct (H2 _ _ Hin) as (r & Hf & Hk & ->). exists r. split_and!; [done| |done]. injection Hk as ? _. congruence.
  - intros ext now Hl Hp k [addrs Hk]. apply last_Some in Hl as [ops' ->]. rewrite client_run_snoc in Hrun.
    destruct (client_run ops' _) as [ps' self'] eqn:E. simpl in Hrun. destruct (ClientBehaviour_poll self' ext now) as [p self2] eqn:Ep.
    injection Hrun as <- <-. rewrite last_snoc in Hp. injection Hp as ->. apply client_poll_pending in Ep.
    specialize (H1 _ _ Hk). apply list_elem_of_fmap in H1 as (d & -> & Hd). rewrite Forall_forall in H3, Ep.
    destruct (Ep d Hd) as (t & Ht & Hlt). destruct (H3 d Hd) as (r & Hf & Hkey & Hdur & Hs).
    destruct (Hs t Ht) as (ext' & s & Hin & ->). exists r, ext', s. rewrite Hdur in Hlt. done.
Qed.
End client.

(** ** Instances and witnesses *)

(** All delays are started and the first one that has ended is yielded. *)
Definition start {A} (now : N) (d : LazyDelay A) : LazyDelay A :=
  match ld_deadline d with
  | Some _ => d
  | None => mkLazyDelay (ld_duration d) (Some (now + ld_duration d)%N) (ld_value d)
  end.

Fixpoint first_ended {A} (l : list (LazyDelay A)) (now : N) : option A * list (LazyDelay A) :=
  match l with
  | [] => (None, [])
  | d :: l =>
      match ld_deadline (start now d) with
      | Some t =>
          if decide (t ≤ now)%N then (Some (ld_value d), l)
          else let '(r, l) := first_ended l now in (r, start now d :: l)
      | None => (None, d :: l)
      end
  end.

#[export] Instance FirstEnded A : LazyTimers A := first_ended.

Lemma start_polled {A} now (d : LazyDelay A) : polled now d (start now d) ∧ ∃ t, ld_deadline (start now d) = Some t.
Proof. unfold start, polled. destruct d as [du [t|] v]; simpl; eauto. Qed.

Lemma polled_refl {A} now (l : list (LazyDelay A)) : Forall2 (polled now) l l.
Proof. induction l; constructor; [by left|done]. Qed.

#[export] Instance FirstEnded_spec A : LazyTimersSpec A.
Proof.
  split; unfold lazy_poll, FirstEnded.
  - induction l as [|d l IH]; intros now a rest; simpl; [done|]. destruct (start_polled now d) as [Hp [t Ht]]. rewrite Ht. case_decide.
    + intros [= <- <-]. exists d, (start now d), t, l. split_and!; [done|apply polled_refl|done|done|done|].
      unfold start. by destruct (ld_deadline d).
    + destruct (first_ended l now) as [r rest'] eqn:E. intros [= -> <-].
      destruct (IH now a rest' E) as (d1 & d1' & t1 & rest0 & Hperm & Hall & Hr). exists d1, d1', t1, (d :: rest0).
      split; [rewrite Hperm; apply perm_swap|]. split; [by constructor|done].
  - induction l as [|d l IH]; intros now rest; simpl; [intros [= <-]; exists []; by split_and!|].
    destruct (start_polled now d) as [Hp [t Ht]]. rewrite Ht. case_decide; [done|].
    destruct (first_ended l now) as [r rest'] eqn:E. intros [= -> <-]. destruct (IH now rest' E) as (l0 & Hperm & Hall & Hr).
    exists (d :: l0). split_and!; [by rewrite Hperm|by constructor|]. constructor; [|done]. exists t. split; [done|lia].
Qed.

(** The records of [CoreRecord]. *)
Section record_new_instance.
Context {EdKp EdPk RsaKp RsaPk SecpKp SecpPk EcKp EcPk Multihash Multiaddr : Type}.
Context `{!SignatureScheme EdKp EdPk, !SignatureScheme RsaKp RsaPk, !SignatureScheme SecpKp SecpPk, !SignatureScheme EcKp EcPk}.
Context `{!Proto ProtoPublicKey, !Proto ProtoEnvelope, !Proto ProtoPeerRecord}.
Context `{!MultihashOps Multihash, !EqDecision Multihash, !MultiaddrOps Multiaddr, !Varint (2 ^ 64)}.

#[export] Instance CoreRecordNew :
  RecordNew (CoreRecord.Keypair (EdKp := EdKp) (RsaKp := RsaKp) (SecpKp := SecpKp) (EcKp := EcKp))
    (CoreRecord.PeerRecord (EdPk := EdPk) (RsaPk := RsaPk) (SecpPk := SecpPk) (EcPk := EcPk) (Multihash := Multihash) (Multiaddr := Multiaddr))
    Multiaddr unit := PeerRecord_new.
End record_new_instance.

#[export] Instance PairRecordNew : RecordNew N (N * list N) N unit := λ key addrs _, Ok (key, addrs).

(** What an answer with one registration of peer 7 under a namespace reports. *)
Definition sample_discovery (ttl : Ttl) (addrs : list N) : OutboundOutEvent (PeerRecord := N * list N) :=
  OE_Discovered [mkRegistration ns_foo (7%N, addrs) ttl] (mkCookie 1 None).

Abbreviation SampleClient :=
  (ClientBehaviour (Keypair := N) (PeerRecord := N * list N) (PeerId := N) (Multiaddr := N) (SigningError := unit)).

(** The address of peer 7 is held a second before its registration expires. *)
Lemma ClientBehaviour_forgets_witness :
  let ops := [CInject 1%N 0 (Some (sample_discovery 10 [5%N])); CPoll [] 0; CPoll [] 0; CPoll [] (from_secs 9)] in
  ∃ ps (self : SampleClient), client_run ops (ClientBehaviour_new 0%N) = (ps, self) ∧ addresses_of_peer self 7%N = [5%N] ∧
    ∃ r ext s, found ops r ∧ CPoll ext s ∈ ops ∧ (from_secs 9 < s + from_secs (reg_ttl r))%N.
Proof.
  intros ops. set (run := client_run (SigningError := unit) ops (ClientBehaviour_new 0%N)).
  destruct (ClientBehaviour_forgets (SigningError := unit) 0%N ops run.1 run.2 (surjective_pairing run)) as [_ Hf].
  exists run.1, run.2. split; [apply surjective_pairing|]. split; [vm_compute; reflexivity|].
  assert (last run.1 = Some Pending) as Hl by (vm_compute; reflexivity).
  assert (is_Some (discovered_peers run.2 !! (7%N, ns_foo))) as Hk by (exists [5%N]; vm_compute; reflexivity).
  destruct (Hf [] (from_secs 9) eq_refl Hl (7%N, ns_foo) Hk) as (r & ext & s & Hr & _ & Hs & Hlt).
  exists r, ext, s. split; [exact Hr|split; [exact Hs|exact Hlt]].
Defined.

(** A registration that is discovered again before it expires is forgotten when the
    timer of the first discovery ends: discovered for ten seconds at the times 0 and 9,
    it is gone at the time 10 instead of 19. *)
Example refreshed_expires_early :
  let ops := [CInject 1%N 0 (Some (sample_discovery 10 [5%N])); CPoll [] 0; CPoll [] 0;
              CInject 1%N 0 (Some (sample_discovery 10 [6%N])); CPoll [] (from_secs 9); CPoll [] (from_secs 9); CPoll [] (from_secs 10)] in
  let '(ps, self) := client_run ops (ClientBehaviour_new 0%N : SampleClient) in
  last ps = Some (Ready (ClientGenerateEvent (Expired 7%N))) ∧ addresses_of_peer self 7%N = [].
Proof. vm_compute. done. Qed.
