(* ===== verification/SwarmPool.v ===== *)
(** * The connection pool of the swarm

    [swarm/src/connection/pool.rs] with the tasks of [swarm/src/connection/pool/task.rs]
    and the endpoints of [core/src/connection.rs]: pending and established connections,
    their counters and limits.  A connection is driven by a background task that
    reports to the pool through a channel; what happens on the connection itself is
    arbitrary.  The channel that carries commands to a task is a parameter.
    Addresses, muxers, handlers and errors are abstract types. *)

From S2P Require Import Prelude MplexCodec.
From stdpp Require Import fin_maps fin_sets.

(** ** Code of other crates *)

(** The sending half of a channel of the crate [futures]. An error says whether the
    receiver is gone; sending through a clone always has a slot. *)
Class Senders (Tx Cmd : Type) : Type := {
  tx_channel : N → Tx;
  tx_try_send : Tx → Cmd → Result unit bool * Tx;
  tx_clone_try_send : Tx → Cmd → Result unit bool * Tx;
}.

Class SendersSpec (Tx Cmd : Type) `{!Senders Tx Cmd} : Prop :=
  tx_clone_has_slot tx cmd e : (tx_clone_try_send tx cmd).1 = Err e → e = true.

(** ** Endpoints *)

Section endpoints.
Context {Multiaddr : Type}.

Inductive PendingPoint : Type :=
| PendingDialer (role_override : Endpoint)
| PendingListener (local_addr send_back_addr : Multiaddr).

Inductive ConnectedPoint : Type :=
| ConnectedDialer (address : Multiaddr) (role_override : Endpoint)
| ConnectedListener (local_addr send_back_addr : Multiaddr).

Definition get_remote_address (self : ConnectedPoint) : Multiaddr :=
  match self with ConnectedDialer address _ => address | ConnectedListener _ send_back_addr => send_back_addr end.

Definition set_remote_address (self : ConnectedPoint) (new_address : Multiaddr) : ConnectedPoint :=
  match self with
  | ConnectedDialer _ role_override => ConnectedDialer new_address role_override
  | ConnectedListener local_addr _ => ConnectedListener local_addr new_address
  end.
End endpoints.
Arguments PendingPoint : clear implicits.
Arguments ConnectedPoint : clear implicits.

(** ** Counters and limits *)

Record ConnectionLimit : Type := mkConnectionLimit { cl_limit : N; cl_current : N }.

Record ConnectionLimits : Type := mkConnectionLimits {
  max_pending_incoming : option N;
  max_pending_outgoing : option N;
  max_established_incoming : option N;
  max_established_outgoing : option N;
  max_established_per_peer : option N;
  max_established_total : option N;
}.

Record ConnectionCounters : Type := mkConnectionCounters {
  cc_limits : ConnectionLimits;
  pending_incoming : N;
  pending_outgoing : N;
  established_incoming : N;
  established_outgoing : N;
}.

Definition ConnectionCounters_new (limits : ConnectionLimits) : ConnectionCounters := mkConnectionCounters limits 0 0 0 0.

Definition num_established (self : ConnectionCounters) : outcome N := u32_add (established_outgoing self) (established_incoming self).

(** [op] is the addition or the subtraction of one. *)
Definition update_pending {Multiaddr} (op : N → outcome N) (self : ConnectionCounters) (endpoint : PendingPoint Multiaddr) :
    outcome ConnectionCounters :=
  match endpoint with
  | PendingDialer _ =>
      n ← op (pending_outgoing self);
      Ret (mkConnectionCounters (cc_limits self) (pending_incoming self) n (established_incoming self) (established_outgoing self))
  | PendingListener _ _ =>
      n ← op (pending_incoming self);
      Ret (mkConnectionCounters (cc_limits self) n (pending_outgoing self) (established_incoming self) (established_outgoing self))
  end.

Definition inc_pending {Multiaddr} (self : ConnectionCounters) (endpoint : PendingPoint Multiaddr) : outcome ConnectionCounters :=
  update_pending (λ n, u32_add n 1) self endpoint.
Definition dec_pending {Multiaddr} (self : ConnectionCounters) (endpoint : PendingPoint Multiaddr) : outcome ConnectionCounters :=
  update_pending (λ n, u32_sub n 1) self endpoint.

Definition update_established {Multiaddr} (op : N → outcome N) (self : ConnectionCounters) (endpoint : ConnectedPoint Multiaddr) :
    outcome ConnectionCounters :=
  match endpoint with
  | ConnectedDialer _ _ =>
      n ← op (established_outgoing self);
      Ret (mkConnectionCounters (cc_limits self) (pending_incoming self) (pending_outgoing self) (established_incoming self) n)
  | ConnectedListener _ _ =>
      n ← op (established_incoming self);
      Ret (mkConnectionCounters (cc_limits self) (pending_incoming self) (pending_outgoing self) n (established_outgoing self))
  end.

Definition inc_established {Multiaddr} (self : ConnectionCounters) (endpoint : ConnectedPoint Multiaddr) : outcome ConnectionCounters :=
  update_established (λ n, u32_add n 1) self endpoint.
Definition dec_established {Multiaddr} (self : ConnectionCounters) (endpoint : ConnectedPoint Multiaddr) : outcome ConnectionCounters :=
  update_established (λ n, u32_sub n 1) self endpoint.

Definition check (current : N) (limit : option N) : Result unit ConnectionLimit :=
  match limit with
  | Some limit => if decide (limit ≤ current)%N then Err (mkConnectionLimit limit current) else Ok ()
  | None => Ok ()
  end.

Definition check_max_pending_outgoing (self : ConnectionCounters) : Result unit ConnectionLimit :=
  check (pending_outgoing self) (max_pending_outgoing (cc_limits self)).
Definition check_max_pending_incoming (self : ConnectionCounters) : Result unit ConnectionLimit :=
  check (pending_incoming self) (max_pending_incoming (cc_limits self)).
Definition check_max_established_per_peer (self : ConnectionCounters) (current : N) : Result unit ConnectionLimit :=
  check current (max_established_per_peer (cc_limits self)).

Definition check_max_established {Multiaddr} (self : ConnectionCounters) (endpoint : ConnectedPoint Multiaddr) :
    outcome (Result unit ConnectionLimit) :=
  n ← num_established self;
  Ret (_ ←? check n (max_established_total (cc_limits self));
       match endpoint with
       | ConnectedDialer _ _ => check (established_outgoing self) (max_established_outgoing (cc_limits self))
       | ConnectedListener _ _ => check (established_incoming self) (max_established_incoming (cc_limits self))
       end).

(** ** The pool and its events *)

Section pool.
Context {PeerId Multiaddr Muxer THandler Handler InEvent OutEvent TransErr ConnErr Tx : Type} `{Countable PeerId}.

Inductive Command : Type :=
| NotifyHandler (event : InEvent)
| Close.

Context `{!Senders Tx Command}.

Inductive PendingConnectionError (E : Type) : Type :=
| PTransport (e : E)
| PConnectionLimit (l : ConnectionLimit)
| PAborted
| PWrongPeerId (obtained : PeerId) (endpoint : ConnectedPoint Multiaddr)
| PIo.
#[global] Arguments PTransport {E} e.
#[global] Arguments PConnectionLimit {E} l.
#[global] Arguments PAborted {E}.
#[global] Arguments PWrongPeerId {E} obtained endpoint.
#[global] Arguments PIo {E}.

Definition PendingConnectionError_map {E U : Type} (f : E → U) (self : PendingConnectionError E) : PendingConnectionError U :=
  match self with
  | PTransport t => PTransport (f t)
  | PConnectionLimit l => PConnectionLimit l
  | PAborted => PAborted
  | PWrongPeerId obtained endpoint => PWrongPeerId obtained endpoint
  | PIo => PIo
  end.

Abbreviation DialErrors := (list (Multiaddr * TransErr)).
Abbreviation OutboundError := (PendingConnectionError DialErrors).
Abbreviation InboundError := (PendingConnectionError TransErr).

(** What the tasks report. *)
Inductive PendingConnectionEvent : Type :=
| TConnectionEstablished (id : N) (output : PeerId * Muxer) (outgoing : option (Multiaddr * DialErrors))
| TPendingFailed (id : N) (error : OutboundError + InboundError).

Inductive EstablishedConnectionEvent : Type :=
| TAddressChange (id : N) (peer_id : PeerId) (new_address : Multiaddr)
| TNotify (id : N) (peer_id : PeerId) (event : OutEvent)
| TClosed (id : N) (peer_id : PeerId) (error : option ConnErr) (handler : Handler).

Record EstablishedConnectionInfo : Type := mkEstablishedConnectionInfo {
  ei_peer_id : PeerId;
  ei_endpoint : ConnectedPoint Multiaddr;
  ei_sender : Tx;
}.

(** [abort_notifier] is whether the notifier is still there. *)
Record PendingConnectionInfo : Type := mkPendingConnectionInfo {
  pi_peer_id : option PeerId;
  pi_handler : THandler;
  pi_endpoint : PendingPoint Multiaddr;
  pi_abort_notifier : bool;
}.

(** The tasks that are running, in the executor or in [local_spawns]. *)
Inductive PoolTask : Type :=
| OutgoingTask (id : N)
| IncomingTask (id : N)
| EstablishedTask (id : N) (peer_id : PeerId)
| CloseMuxerTask (muxer : Muxer).

(** The two receivers are the events that the tasks have sent. *)
Record Pool : Type := mkPool {
  local_id : PeerId;
  counters : ConnectionCounters;
  established : gmap PeerId (gmap N EstablishedConnectionInfo);
  pending : gmap N PendingConnectionInfo;
  next_connection_id : N;
  task_command_buffer_size : N;
  tasks : list PoolTask;
  pending_connection_events_rx : list PendingConnectionEvent;
  established_connection_events_rx : list EstablishedConnectionEvent;
}.

Definition Pool_new (local_id : PeerId) (buffer_size : N) (limits : ConnectionLimits) : Pool :=
  mkPool local_id (ConnectionCounters_new limits) ∅ ∅ 0 buffer_size [] [] [].

Definition set_counters (self : Pool) (c : ConnectionCounters) : Pool :=
  mkPool (local_id self) c (established self) (pending self) (next_connection_id self) (task_command_buffer_size self)
    (tasks self) (pending_connection_events_rx self) (established_connection_events_rx self).
Definition set_established (self : Pool) (m : gmap PeerId (gmap N EstablishedConnectionInfo)) : Pool :=
  mkPool (local_id self) (counters self) m (pending self) (next_connection_id self) (task_command_buffer_size self)
    (tasks self) (pending_connection_events_rx self) (established_connection_events_rx self).
Definition set_pending (self : Pool) (m : gmap N PendingConnectionInfo) : Pool :=
  mkPool (local_id self) (counters self) (established self) m (next_connection_id self) (task_command_buffer_size self)
    (tasks self) (pending_connection_events_rx self) (established_connection_events_rx self).
Definition set_tasks (self : Pool) (l : list PoolTask) : Pool :=
  mkPool (local_id self) (counters self) (established self) (pending self) (next_connection_id self) (task_command_buffer_size self)
    l (pending_connection_events_rx self) (established_connection_events_rx self).
Definition set_pending_rx (self : Pool) (l : list PendingConnectionEvent) : Pool :=
  mkPool (local_id self) (counters self) (established self) (pending self) (next_connection_id self) (task_command_buffer_size self)
    (tasks self) l (established_connection_events_rx self).
Definition set_established_rx (self : Pool) (l : list EstablishedConnectionEvent) : Pool :=
  mkPool (local_id self) (counters self) (established self) (pending self) (next_connection_id self) (task_command_buffer_size self)
    (tasks self) (pending_connection_events_rx self) l.

Definition spawn (self : Pool) (task : PoolTask) : Pool := set_tasks self (tasks self ++ [task]).

(** A [ConnectionId] counts in [usize], of 64 bits. *)
Definition Pool_next_connection_id (self : Pool) : outcome (N * Pool) :=
  let id := next_connection_id self in
  if decide (id + 1 < 2 ^ 64)%N then
    Ret (id, mkPool (local_id self) (counters self) (established self) (pending self) (id + 1) (task_command_buffer_size self)
               (tasks self) (pending_connection_events_rx self) (established_connection_events_rx self))
  else Panic.

(** [PoolConnection]: a pending connection, or an established one of a peer. *)
Inductive PoolConnection : Type :=
| PCPending (info : PendingConnectionInfo)
| PCEstablished (peer : PeerId) (info : EstablishedConnectionInfo).

Definition Pool_get (self : Pool) (id : N) : option PoolConnection :=
  match pending self !! id with
  | Some info => Some (PCPending info)
  | None => head (omap (λ '(peer, cs), PCEstablished peer <$> (cs : gmap N EstablishedConnectionInfo) !! id) (map_to_list (established self)))
  end.

Definition is_connected (self : Pool) (id : PeerId) : bool := bool_decide (is_Some (established self !! id)).

(** [EstablishedConnectionInfo::start_close]; sending fails only without a receiver. *)
Definition start_close (self : EstablishedConnectionInfo) : outcome EstablishedConnectionInfo :=
  match tx_clone_try_send (ei_sender self) Close with
  | (Ok _, tx) => Ret (mkEstablishedConnectionInfo (ei_peer_id self) (ei_endpoint self) tx)
  | (Err disconnected, tx) => _ ← assert disconnected; Ret (mkEstablishedConnectionInfo (ei_peer_id self) (ei_endpoint self) tx)
  end.

(** [PendingConnection::abort]. *)
Definition PendingConnection_abort (info : PendingConnectionInfo) : PendingConnectionInfo :=
  mkPendingConnectionInfo (pi_peer_id info) (pi_handler info) (pi_endpoint info) false.

(** [start_close] of each connection of a map, in the order of a list of its keys. *)
Fixpoint close_all (ids : list N) (conns : gmap N EstablishedConnectionInfo) : outcome (gmap N EstablishedConnectionInfo) :=
  match ids with
  | [] => Ret conns
  | id :: ids => info ← expect (conns !! id); info ← start_close info; close_all ids (<[id := info]> conns)
  end.

Definition Pool_disconnect (self : Pool) (peer : PeerId) : outcome Pool :=
  self ← match established self !! peer with
         | Some conns =>
             conns ← close_all (map_to_list conns).*1 conns;
             Ret (set_established self (<[peer := conns]> (established self)))
         | None => Ret self
         end;
  Ret (set_pending self ((λ info, if decide (pi_peer_id info = Some peer) then PendingConnection_abort info else info) <$> pending self)).

(** [EstablishedConnection::notify_handler], and [EstablishedConnection::start_close] or
    [PendingConnection::abort], of the connection with the id if there is one. *)
Definition Pool_notify_handler (self : Pool) (id : N) (event : InEvent) : Result unit InEvent * Pool :=
  match Pool_get self id with
  | Some (PCEstablished peer info) =>
      let '(r, tx) := tx_try_send (ei_sender info) (NotifyHandler event) in
      let info := mkEstablishedConnectionInfo (ei_peer_id info) (ei_endpoint info) tx in
      (map_err (λ _, event) r, set_established self (alter (insert id info) peer (established self)))
  | _ => (Err event, self)
  end.

Definition Pool_start_close (self : Pool) (id : N) : outcome Pool :=
  match Pool_get self id with
  | Some (PCEstablished peer info) =>
      info ← start_close info;
      Ret (set_established self (alter (insert id info) peer (established self)))
  | Some (PCPending info) => Ret (set_pending self (<[id := PendingConnection_abort info]> (pending self)))
  | None => Ret self
  end.

Definition add_outgoing (self : Pool) (peer : option PeerId) (handler : THandler) (role_override : Endpoint) :
    outcome (Result N (ConnectionLimit * THandler) * Pool) :=
  match check_max_pending_outgoing (counters self) with
  | Err limit => Ret (Err (limit, handler), self)
  | Ok _ =>
      '(connection_id, self) ← Pool_next_connection_id self;
      let self := spawn self (OutgoingTask connection_id) in
      let endpoint := PendingDialer role_override in
      c ← inc_pending (counters self) endpoint;
      let self := set_counters self c in
      Ret (Ok connection_id, set_pending self (<[connection_id := mkPendingConnectionInfo peer handler endpoint true]> (pending self)))
  end.

Definition add_incoming (self : Pool) (handler : THandler) (local_addr send_back_addr : Multiaddr) :
    outcome (Result N (ConnectionLimit * THandler) * Pool) :=
  let endpoint := PendingListener local_addr send_back_addr in
  match check_max_pending_incoming (counters self) with
  | Err limit => Ret (Err (limit, handler), self)
  | Ok _ =>
      '(connection_id, self) ← Pool_next_connection_id self;
      let self := spawn self (IncomingTask connection_id) in
      c ← inc_pending (counters self) endpoint;
      let self := set_counters self c in
      Ret (Ok connection_id, set_pending self (<[connection_id := mkPendingConnectionInfo None handler endpoint true]> (pending self)))
  end.

(** ** Polling *)

Inductive PoolEvent : Type :=
| PE_ConnectionEstablished (peer : PeerId) (id : N) (other_established_connection_ids : list N) (concurrent_dial_errors : option DialErrors)
| PE_ConnectionClosed (id : N) (endpoint : ConnectedPoint Multiaddr) (peer : PeerId) (error : option ConnErr)
    (remaining_established_connection_ids : list N) (handler : Handler)
| PE_PendingOutboundConnectionError (id : N) (error : OutboundError) (handler : THandler) (peer : option PeerId)
| PE_PendingInboundConnectionError (id : N) (send_back_addr local_addr : Multiaddr) (error : InboundError) (handler : THandler)
| PE_ConnectionEvent (peer : PeerId) (id : N) (event : OutEvent)
| PE_AddressChange (peer : PeerId) (id : N) (new_endpoint old_endpoint : ConnectedPoint Multiaddr).

(** Counts the established connections of a peer. *)
Definition num_peer_established (established : gmap PeerId (gmap N EstablishedConnectionInfo)) (peer : PeerId) : outcome N :=
  match established !! peer with
  | Some conns => if decide (N.of_nat (size conns) < 2 ^ 32)%N then Ret (N.of_nat (size conns)) else Panic
  | None => Ret 0%N
  end.

(** The first part of [poll]: an event of an established connection. *)
Definition poll_established (event : EstablishedConnectionEvent) (self : Pool) : outcome (PoolEvent * Pool) :=
  match event with
  | TNotify id peer_id event =>
      conns ← expect (established self !! peer_id);
      _ ← expect (conns !! id);
      Ret (PE_ConnectionEvent peer_id id event, self)
  | TAddressChange id peer_id new_address =>
      conns ← expect (established self !! peer_id);
      connection ← expect (conns !! id);
      let old_endpoint := ei_endpoint connection in
      let new_endpoint := set_remote_address old_endpoint new_address in
      let connection := mkEstablishedConnectionInfo (ei_peer_id connection) new_endpoint (ei_sender connection) in
      let self := set_established self (<[peer_id := <[id := connection]> conns]> (established self)) in
      match Pool_get self id with
      | Some (PCEstablished peer _) => Ret (PE_AddressChange peer id new_endpoint old_endpoint, self)
      | _ => Panic
      end
  | TClosed id peer_id error handler =>
      conns ← expect (established self !! peer_id);
      info ← expect (conns !! id);
      let conns := delete id conns in
      c ← dec_established (counters self) (ei_endpoint info);
      let self := set_counters self c in
      let remaining := (map_to_list conns).*1 in
      let self :=
        set_established self
          (if decide (remaining = []) then delete peer_id (established self) else <[peer_id := conns]> (established self)) in
      Ret (PE_ConnectionClosed id (ei_endpoint info) peer_id error remaining handler, self)
  end.

(** The checks that a new connection must pass. *)
Definition check_connection (self : Pool) (endpoint : ConnectedPoint Multiaddr) (expected_peer_id : option PeerId)
    (obtained_peer_id : PeerId) : outcome (Result unit InboundError) :=
  r ← check_max_established (counters self) endpoint;
  match r with
  | Err limit => Ret (Err (PConnectionLimit limit))
  | Ok _ =>
      current ← num_peer_established (established self) obtained_peer_id;
      Ret (_ ←? map_err PConnectionLimit (check_max_established_per_peer (counters self) current);
           _ ←? match expected_peer_id with
                | Some peer => if decide (peer ≠ obtained_peer_id) then Err (PWrongPeerId obtained_peer_id endpoint) else Ok ()
                | None => Ok ()
                end;
           if decide (local_id self = obtained_peer_id) then Err (PWrongPeerId obtained_peer_id endpoint) else Ok ())
  end.

(** The second part of [poll]: an event of a pending connection, after which [poll]
    goes on if nothing is returned. *)
Definition poll_pending (event : PendingConnectionEvent) (self : Pool) : outcome (option PoolEvent * Pool) :=
  match event with
  | TConnectionEstablished id (obtained_peer_id, muxer) outgoing =>
      info ← expect (pending self !! id);
      let self := set_pending self (delete id (pending self)) in
      c ← dec_pending (counters self) (pi_endpoint info);
      let self := set_counters self c in
      '(endpoint, concurrent_dial_errors) ←
        match pi_endpoint info, outgoing with
        | PendingDialer role_override, Some (address, errors) => Ret (ConnectedDialer address role_override, Some errors)
        | PendingListener local_addr send_back_addr, None => Ret (ConnectedListener local_addr send_back_addr, None)
        | _, _ => Panic
        end;
      error ← check_connection self endpoint (pi_peer_id info) obtained_peer_id;
      match error with
      | Err error =>
          let self := spawn self (CloseMuxerTask muxer) in
          let event :=
            match endpoint with
            | ConnectedDialer _ _ =>
                PE_PendingOutboundConnectionError id
                  (PendingConnectionError_map (λ t, [(get_remote_address endpoint, t)]) error) (pi_handler info)
                  (match pi_peer_id info with Some peer => Some peer | None => Some obtained_peer_id end)
            | ConnectedListener local_addr send_back_addr =>
                PE_PendingInboundConnectionError id send_back_addr local_addr error (pi_handler info)
            end in
          Ret (Some event, self)
      | Ok _ =>
          let conns := default ∅ (established self !! obtained_peer_id) in
          let other_established_connection_ids := (map_to_list conns).*1 in
          c ← inc_established (counters self) endpoint;
          let self := set_counters self c in
          let conn := mkEstablishedConnectionInfo obtained_peer_id endpoint (tx_channel (task_command_buffer_size self)) in
          let self := set_established self (<[obtained_peer_id := <[id := conn]> conns]> (established self)) in
          let self := spawn self (EstablishedTask id obtained_peer_id) in
          match Pool_get self id with
          | Some (PCEstablished peer _) =>
              Ret (Some (PE_ConnectionEstablished peer id other_established_connection_ids concurrent_dial_errors), self)
          | _ => Panic
          end
      end
  | TPendingFailed id error =>
      match pending self !! id with
      | None => Ret (None, self)
      | Some info =>
          let self := set_pending self (delete id (pending self)) in
          c ← dec_pending (counters self) (pi_endpoint info);
          let self := set_counters self c in
          match pi_endpoint info, error with
          | PendingDialer _, inl error => Ret (Some (PE_PendingOutboundConnectionError id error (pi_handler info) (pi_peer_id info)), self)
          | PendingListener local_addr send_back_addr, inr error =>
              Ret (Some (PE_PendingInboundConnectionError id send_back_addr local_addr error (pi_handler info)), self)
          | _, _ => Panic
          end
      end
  end.

(** The loop over the events of pending connections. *)
Fixpoint poll_pending_loop (events : list PendingConnectionEvent) (self : Pool) : outcome (Poll PoolEvent * Pool) :=
  match events with
  | [] => Ret (Pending, self)
  | event :: events =>
      '(r, self) ← poll_pending event (set_pending_rx self events);
      match r with
      | Some e => Ret (Ready e, self)
      | None => poll_pending_loop events self
      end
  end.

Definition Pool_poll (self : Pool) : outcome (Poll PoolEvent * Pool) :=
  match established_connection_events_rx self with
  | event :: rest => '(e, self) ← poll_established event (set_established_rx self rest); Ret (Ready e, self)
  | [] => poll_pending_loop (pending_connection_events_rx self) self
  end.

(** ** The tasks *)

(** How dialing, or the future of an incoming connection, ends unless it is aborted. *)
Inductive DialEnd : Type :=
| DialOk (address : Multiaddr) (output : PeerId * Muxer) (errors : DialErrors)
| DialErr (errors : DialErrors)
| DialAborted.

Inductive IncomingEnd : Type :=
| IncomingOk (output : PeerId * Muxer)
| IncomingErr (e : TransErr)
| IncomingAborted.

Definition new_for_pending_outgoing_connection (connection_id : N) (e : DialEnd) : PendingConnectionEvent :=
  match e with
  | DialOk address output errors => TConnectionEstablished connection_id output (Some (address, errors))
  | DialErr errors => TPendingFailed connection_id (inl (PTransport errors))
  | DialAborted => TPendingFailed connection_id (inl PAborted)
  end.

Definition new_for_pending_incoming_connection (connection_id : N) (e : IncomingEnd) : PendingConnectionEvent :=
  match e with
  | IncomingOk output => TConnectionEstablished connection_id output None
  | IncomingErr e => TPendingFailed connection_id (inr (PTransport e))
  | IncomingAborted => TPendingFailed connection_id (inr PAborted)
  end.

(** What happens on an established connection. *)
Inductive ConnectionStep : Type :=
| StepHandler (event : OutEvent)
| StepAddressChange (new_address : Multiaddr)
| StepClosed (error : option ConnErr) (handler : Handler).

(** The event, and whether the task goes on. *)
Definition new_for_established_connection (connection_id : N) (peer_id : PeerId) (s : ConnectionStep) : EstablishedConnectionEvent * bool :=
  match s with
  | StepHandler event => (TNotify connection_id peer_id event, true)
  | StepAddressChange new_address => (TAddressChange connection_id peer_id new_address, true)
  | StepClosed error handler => (TClosed connection_id peer_id error handler, false)
  end.

(** ** Runs of the pool with its tasks *)

Inductive TaskAct : Type :=
| ActDial (e : DialEnd)
| ActIncoming (e : IncomingEnd)
| ActConnection (s : ConnectionStep).

(** What can happen, in any order: calls of the swarm, and a task that does something. *)
Inductive pool_op : Type :=
| OpAddOutgoing (peer : option PeerId) (handler : THandler) (role_override : Endpoint)
| OpAddIncoming (handler : THandler) (local_addr send_back_addr : Multiaddr)
| OpDisconnect (peer : PeerId)
| OpNotify (id : N) (event : InEvent)
| OpStartClose (id : N)
| OpTask (i : nat) (act : TaskAct)
| OpPoll.

Definition task_step (self : Pool) (i : nat) (act : TaskAct) : Pool :=
  match tasks self !! i, act with
  | Some (OutgoingTask id), ActDial e =>
      set_tasks (set_pending_rx self (pending_connection_events_rx self ++ [new_for_pending_outgoing_connection id e])) (delete i (tasks self))
  | Some (IncomingTask id), ActIncoming e =>
      set_tasks (set_pending_rx self (pending_connection_events_rx self ++ [new_for_pending_incoming_connection id e])) (delete i (tasks self))
  | Some (EstablishedTask id peer_id), ActConnection s =>
      let '(event, goes_on) := new_for_established_connection id peer_id s in
      set_tasks (set_established_rx self (established_connection_events_rx self ++ [event]))
        (if goes_on : bool then tasks self else delete i (tasks self))
  | Some (CloseMuxerTask _), _ => set_tasks self (delete i (tasks self))
  | _, _ => self
  end.

(** With the events that polling reports. *)
Definition pool_step (op : pool_op) (self : Pool) : outcome (list PoolEvent * Pool) :=
  match op with
  | OpAddOutgoing peer handler role_override => '(_, self) ← add_outgoing self peer handler role_override; Ret ([], self)
  | OpAddIncoming handler local_addr send_back_addr => '(_, self) ← add_incoming self handler local_addr send_back_addr; Ret ([], self)
  | OpDisconnect peer => self ← Pool_disconnect self peer; Ret ([], self)
  | OpNotify id event => Ret ([], (Pool_notify_handler self id event).2)
  | OpStartClose id => self ← Pool_start_close self id; Ret ([], self)
  | OpTask i act => Ret ([], task_step self i act)
  | OpPoll => '(p, self) ← Pool_poll self; Ret (match p with Ready e => [e] | Pending => [] end, self)
  end.

Fixpoint pool_run (ops : list pool_op) (self : Pool) : outcome (list PoolEvent * Pool) :=
  match ops with
  | [] => Ret ([], self)
  | op :: ops => '(es, self) ← pool_step op self; '(es', self) ← pool_run ops self; Ret (es ++ es', self)
  end.

(** ** The invariant *)

Definition outgoing (e : PendingPoint Multiaddr) : bool := match e with PendingDialer _ => true | PendingListener _ _ => false end.
Definition dialed (e : ConnectedPoint Multiaddr) : bool := match e with ConnectedDialer _ _ => true | ConnectedListener _ _ => false end.

(** Every pending connection has one task, or one event that its task has sent. *)
Definition pending_task (t : PoolTask) : option (N * bool) :=
  match t with OutgoingTask id => Some (id, true) | IncomingTask id => Some (id, false) | _ => None end.

Definition pending_rx (e : PendingConnectionEvent) : N * bool :=
  match e with
  | TConnectionEstablished id _ o => (id, bool_decide (is_Some o))
  | TPendingFailed id (inl _) => (id, true)
  | TPendingFailed id (inr _) => (id, false)
  end.

Definition pending_tokens (self : Pool) : list (N * bool) :=
  omap pending_task (tasks self) ++ (pending_rx <$> pending_connection_events_rx self).

(** Every established connection has one task, or the last event of its task. *)
Definition live_task (t : PoolTask) : option (N * PeerId) := match t with EstablishedTask id peer => Some (id, peer) | _ => None end.
Definition closed_rx (e : EstablishedConnectionEvent) : option (N * PeerId) :=
  match e with TClosed id peer _ _ => Some (id, peer) | _ => None end.
Definition about (e : EstablishedConnectionEvent) : N * PeerId :=
  match e with TClosed id peer _ _ | TNotify id peer _ | TAddressChange id peer _ => (id, peer) end.

Definition live_tokens (self : Pool) : list (N * PeerId) :=
  omap live_task (tasks self) ++ omap closed_rx (established_connection_events_rx self).

(** Events of a connection come before it is closed. *)
Fixpoint queue_ok (live : list (N * PeerId)) (q : list EstablishedConnectionEvent) : Prop :=
  match q with [] => True | e :: q => about e ∈ live ++ omap closed_rx (e :: q) ∧ queue_ok live q end.

Definition within (n : N) (limit : option N) : Prop := match limit with Some l => (n ≤ l)%N | None => True end.

(** The number of pending connections that are outgoing, or not, and of established
    connections that were dialed, or not. *)
Definition pending_count (b : bool) (m : gmap N PendingConnectionInfo) : nat := map_count (λ x, outgoing (pi_endpoint x.2) = b) m.
Definition conns_count (b : bool) (m : gmap N EstablishedConnectionInfo) : nat := map_count (λ x, dialed (ei_endpoint x.2) = b) m.
Definition established_count (b : bool) (m : gmap PeerId (gmap N EstablishedConnectionInfo)) : nat :=
  sum_list ((λ x, conns_count b x.2) <$> map_to_list m).

(** The counters are the numbers of connections and within the limits. *)
Record counters_ok (self : Pool) : Prop := {
  co_pending_outgoing : pending_outgoing (counters self) = N.of_nat (pending_count true (pending self));
  co_pending_incoming : pending_incoming (counters self) = N.of_nat (pending_count false (pending self));
  co_established_outgoing : established_outgoing (counters self) = N.of_nat (established_count true (established self));
  co_established_incoming : established_incoming (counters self) = N.of_nat (established_count false (established self));
}.

Record limits_ok (self : Pool) : Prop := {
  li_pending_incoming : within (pending_incoming (counters self)) (max_pending_incoming (cc_limits (counters self)));
  li_pending_outgoing : within (pending_outgoing (counters self)) (max_pending_outgoing (cc_limits (counters self)));
  li_established_incoming : within (established_incoming (counters self)) (max_established_incoming (cc_limits (counters self)));
  li_established_outgoing : within (established_outgoing (counters self)) (max_established_outgoing (cc_limits (counters self)));
  li_total : within (established_outgoing (counters self) + established_incoming (counters self)) (max_established_total (cc_limits (counters self)));
  li_per_peer peer conns : established self !! peer = Some conns →
    within (N.of_nat (size conns)) (max_established_per_peer (cc_limits (counters self)));
}.

Definition has_connection (m : gmap PeerId (gmap N EstablishedConnectionInfo)) (id : N) (peer : PeerId) : Prop :=
  ∃ conns, m !! peer = Some conns ∧ is_Some (conns !! id).

(** [k] bounds the ids. *)
Record pool_inv (k : N) (self : Pool) : Prop := {
  pv_pending_nodup : NoDup (pending_tokens self).*1;
  pv_pending id b : (id, b) ∈ pending_tokens self ↔ ∃ info, pending self !! id = Some info ∧ outgoing (pi_endpoint info) = b;
  pv_live_nodup : NoDup (live_tokens self).*1;
  pv_live id peer : (id, peer) ∈ live_tokens self ↔ has_connection (established self) id peer;
  pv_disjoint id peer : has_connection (established self) id peer → pending self !! id = None;
  pv_queue : queue_ok (omap live_task (tasks self)) (established_connection_events_rx self);
  pv_nonempty peer conns : established self !! peer = Some conns → conns ≠ ∅;
  pv_pending_lt id : is_Some (pending self !! id) → (id < next_connection_id self)%N;
  pv_live_lt id peer : has_connection (established self) id peer → (id < next_connection_id self)%N;
  pv_next : (next_connection_id self ≤ k)%N;
  pv_sum : (pending_outgoing (counters self) + pending_incoming (counters self) + established_outgoing (counters self) +
            established_incoming (counters self) ≤ next_connection_id self)%N;
  pv_counters : counters_ok self;
  pv_limits : limits_ok self;
  pv_local : established self !! local_id self = None;
}.

Lemma pool_inv_new local_id buffer_size limits : pool_inv 0 (Pool_new local_id buffer_size limits).
Proof.
  assert (∀ id peer, ¬ has_connection ∅ id peer) as Hno.
  { intros id peer (conns & Hm & _). by rewrite lookup_empty in Hm. }
  assert (∀ l : option N, within 0 l) as Hw by (intros [l|]; simpl; lia).
  split; simpl.
  - constructor.
  - intros id b. rewrite lookup_empty. split; [by intros []%elem_of_nil|by intros (? & ? & _)].
  - constructor.
  - intros id peer. split; [by intros []%elem_of_nil|by intros ?%Hno].
  - done.
  - done.
  - intros peer conns Hm. by rewrite lookup_empty in Hm.
  - intros id. rewrite lookup_empty. by intros [].
  - by intros id peer ?%Hno.
  - done.
  - done.
  - split; simpl; unfold established_count, pending_count, conns_count; rewrite ?map_count_empty, ?map_to_list_empty; done.
  - split; simpl; auto. intros peer conns Hm. by rewrite lookup_empty in Hm.
  - apply lookup_empty.
Qed.

(** ** Counting *)

Lemma established_count_delete b (m : gmap PeerId (gmap N EstablishedConnectionInfo)) peer conns :
  m !! peer = Some conns → established_count b m = conns_count b conns + established_count b (delete peer m).
Proof.
  intros Hm. unfold established_count. rewrite <-(insert_delete_id m peer conns Hm) at 1.
  rewrite (map_to_list_insert (delete peer m) peer conns) by apply lookup_delete_eq. done.
Qed.

Lemma established_count_insert b (m : gmap PeerId (gmap N EstablishedConnectionInfo)) peer conns :
  established_count b (<[peer := conns]> m) = conns_count b conns + established_count b (delete peer m).
Proof.
  rewrite (established_count_delete b _ peer conns) by apply lookup_insert_eq. by rewrite delete_insert_eq.
Qed.

Lemma established_count_old b (m : gmap PeerId (gmap N EstablishedConnectionInfo)) peer :
  established_count b m = conns_count b (default ∅ (m !! peer)) + established_count b (delete peer m).
Proof.
  destruct (m !! peer) as [conns|] eqn:E; simpl; [by apply established_count_delete|].
  unfold conns_count. rewrite map_count_empty, delete_id by done. done.
Qed.

Lemma size_conns_count (m : gmap N EstablishedConnectionInfo) : size m = conns_count true m + conns_count false m.
Proof.
  induction m as [|id info m Hid IH] using map_ind; [unfold conns_count; by rewrite !map_count_empty, map_size_empty|].
  rewrite map_size_insert_None by done. unfold conns_count in *.
  pose proof (map_count_insert (λ x, dialed (ei_endpoint x.2) = true) m id info) as H1.
  pose proof (map_count_insert (λ x, dialed (ei_endpoint x.2) = false) m id info) as H2.
  rewrite Hid in H1, H2. simpl in H1, H2. destruct (dialed (ei_endpoint info)); simpl in H1, H2; lia.
Qed.

(** ** Steps that keep the connections *)

(** The connections with their directions, on which the invariant depends. *)
Definition pending_shape (m : gmap N PendingConnectionInfo) : gmap N bool := (λ info, outgoing (pi_endpoint info)) <$> m.
Definition conns_shape (m : gmap N EstablishedConnectionInfo) : gmap N bool := (λ info, dialed (ei_endpoint info)) <$> m.
Definition established_shape (m : gmap PeerId (gmap N EstablishedConnectionInfo)) : gmap PeerId (gmap N bool) := conns_shape <$> m.

Lemma pending_count_shape b m : pending_count b m = map_count (λ x, x.2 = b) (pending_shape m).
Proof. unfold pending_count, map_count, pending_shape. by rewrite map_filter_fmap, map_size_fmap. Qed.

Lemma conns_count_shape b m : conns_count b m = map_count (λ x, x.2 = b) (conns_shape m).
Proof. unfold conns_count, map_count, conns_shape. by rewrite map_filter_fmap, map_size_fmap. Qed.

Lemma established_count_shape b m :
  established_count b m = sum_list ((λ x, map_count (λ y, y.2 = b) x.2) <$> map_to_list (established_shape m)).
Proof.
  unfold established_count, established_shape. rewrite map_to_list_fmap, <-list_fmap_compose. f_equal.
  apply list_fmap_ext. intros i [peer conns] _. apply conns_count_shape.
Qed.

Lemma lookup_shape (m m' : gmap PeerId (gmap N EstablishedConnectionInfo)) peer conns' :
  established_shape m' = established_shape m → m' !! peer = Some conns' →
  ∃ conns, m !! peer = Some conns ∧ conns_shape conns' = conns_shape conns.
Proof.
  intros Hs Hp. assert (established_shape m' !! peer = Some (conns_shape conns')) as Hl by (unfold established_shape; by rewrite lookup_fmap, Hp).
  rewrite Hs in Hl. unfold established_shape in Hl. rewrite lookup_fmap in Hl. destruct (m !! peer) as [conns|]; [|done].
  injection Hl as Hl. by exists conns.
Qed.

Lemma shape_is_Some (m m' : gmap N EstablishedConnectionInfo) id : conns_shape m' = conns_shape m → is_Some (m' !! id) ↔ is_Some (m !! id).
Proof. intros Hs. pose proof (f_equal (lookup id) Hs) as Hl. unfold conns_shape in Hl. rewrite !lookup_fmap in Hl. destruct (m !! id), (m' !! id); simplify_eq/=; naive_solver. Qed.

Lemma has_connection_shape m m' id peer :
  established_shape m' = established_shape m → has_connection m' id peer ↔ has_connection m id peer.
Proof.
  intros Hs. split.
  - intros (conns' & Hm & Hid). destruct (lookup_shape m m' peer conns' Hs Hm) as (conns & Hc & Hsh). exists conns. split; [done|].
    by rewrite <-(shape_is_Some conns conns' id Hsh).
  - intros (conns & Hm & Hid). destruct (lookup_shape m' m peer conns (eq_sym Hs) Hm) as (conns' & Hc & Hsh). exists conns'. split; [done|].
    by rewrite <-(shape_is_Some conns' conns id Hsh).
Qed.

Lemma pending_shape_lookup m m' id b :
  pending_shape m' = pending_shape m →
  (∃ info, m' !! id = Some info ∧ outgoing (pi_endpoint info) = b) ↔ (∃ info, m !! id = Some info ∧ outgoing (pi_endpoint info) = b).
Proof.
  intros Hs. pose proof (f_equal (lookup id) Hs) as Hl. unfold pending_shape in Hl. rewrite !lookup_fmap in Hl.
  destruct (m !! id), (m' !! id); simplify_eq/=; naive_solver.
Qed.

Lemma pool_inv_same k k' self self' :
  (k ≤ k')%N → pending_shape (pending self') = pending_shape (pending self) →
  established_shape (established self') = established_shape (established self) →
  counters self' = counters self → next_connection_id self' = next_connection_id self → local_id self' = local_id self →
  pending_tokens self' ≡ₚ pending_tokens self → live_tokens self' ≡ₚ live_tokens self →
  queue_ok (omap live_task (tasks self')) (established_connection_events_rx self') →
  pool_inv k self → pool_inv k' self'.
Proof.
  intros Hk Hp He Hc Hn Hl Hpt Hlt Hq [I1 I2 I3 I4 I5 I6 I7 I8 I9 I10 I11 [C1 C2 C3 C4] [L1 L2 L3 L4 L5 L6] I14].
  assert (∀ id, is_Some (pending self' !! id) ↔ is_Some (pending self !! id)) as Hps.
  { intros id. pose proof (f_equal (lookup id) Hp) as Hlk. unfold pending_shape in Hlk. rewrite !lookup_fmap in Hlk.
    destruct (pending self !! id), (pending self' !! id); simplify_eq/=; naive_solver. }
  assert (∀ id peer, has_connection (established self') id peer ↔ has_connection (established self) id peer) as Hhc.
  { intros id peer. by apply has_connection_shape. }
  split.
  - by rewrite Hpt.
  - intros id b. rewrite Hpt, I2. symmetry. by apply pending_shape_lookup.
  - by rewrite Hlt.
  - intros id peer. by rewrite Hlt, I4, Hhc.
  - intros id peer ?%Hhc%I5. apply eq_None_not_Some. rewrite Hps, <-eq_None_not_Some. done.
  - done.
  - intros peer conns' Hm. destruct (lookup_shape _ _ _ _ He Hm) as (conns & Hm' & Hsh). specialize (I7 _ _ Hm').
    intros ->. apply I7. apply map_empty. intros id. apply eq_None_not_Some. rewrite <-(shape_is_Some conns ∅ id Hsh). by intros [? ?].
  - intros id ?%Hps%I8. by rewrite Hn.
  - intros id peer ?%Hhc%I9. by rewrite Hn.
  - rewrite Hn. lia.
  - by rewrite Hc, Hn.
  - split; rewrite Hc, ?pending_count_shape, ?established_count_shape, ?Hp, ?He, <-?pending_count_shape, <-?established_count_shape; done.
  - split; rewrite Hc; try done. intros peer conns' Hm. destruct (lookup_shape _ _ _ _ He Hm) as (conns & Hm' & Hsh).
    assert (size conns' = size conns) as ->; [|by eapply L6].
    apply (f_equal size) in Hsh. unfold conns_shape in Hsh. by rewrite !map_size_fmap in Hsh.
  - rewrite Hl. apply eq_None_not_Some. intros [conns Hm]. destruct (lookup_shape _ _ _ _ He Hm) as (conns0 & Hm' & _). congruence.
Qed.

Context `{!SendersSpec Tx Command}.

Lemma start_close_spec info : ∃ info', start_close info = Ret info' ∧ ei_endpoint info' = ei_endpoint info.
Proof.
  unfold start_close. destruct (tx_clone_try_send (ei_sender info) Close) as [[u|e] tx] eqn:E; [eexists; by split|].
  pose proof (tx_clone_has_slot (ei_sender info) Close e) as He. rewrite E in He. rewrite (He eq_refl). eexists; by split.
Qed.

(** Replacing the entry of a connection that has the same direction. *)
Lemma conns_shape_insert (conns : gmap N EstablishedConnectionInfo) id info info' :
  conns !! id = Some info → dialed (ei_endpoint info') = dialed (ei_endpoint info) → conns_shape (<[id := info']> conns) = conns_shape conns.
Proof.
  intros Hid Hd. unfold conns_shape. rewrite fmap_insert, Hd. apply insert_id. by rewrite lookup_fmap, Hid.
Qed.

Lemma established_shape_insert m peer conns conns' :
  m !! peer = Some conns → conns_shape conns' = conns_shape conns → established_shape (<[peer := conns']> m) = established_shape m.
Proof.
  intros Hm Hs. unfold established_shape. rewrite fmap_insert, Hs. apply insert_id. by rewrite lookup_fmap, Hm.
Qed.

Lemma close_all_spec ids conns :
  (∀ id, id ∈ ids → is_Some (conns !! id)) → ∃ conns', close_all ids conns = Ret conns' ∧ conns_shape conns' = conns_shape conns.
Proof.
  revert conns. induction ids as [|id ids IH]; intros conns Hids; [by exists conns|].
  destruct (Hids id) as [info Hid]; [by left|]. simpl. rewrite Hid. simpl. destruct (start_close_spec info) as (info' & -> & He). simpl.
  destruct (IH (<[id := info']> conns)) as (conns' & -> & Hs).
  { intros id' Hin. apply lookup_insert_is_Some'. right. apply Hids. by right. }
  exists conns'. split; [done|]. rewrite Hs. by eapply conns_shape_insert; [|rewrite He].
Qed.

Lemma Pool_get_Some self id c :
  Pool_get self id = Some c →
  match c with
  | PCPending info => pending self !! id = Some info
  | PCEstablished peer info => ∃ conns, established self !! peer = Some conns ∧ conns !! id = Some info
  end.
Proof.
  unfold Pool_get. destruct (pending self !! id) as [info|] eqn:E; [by intros [= <-]|].
  intros Hh%head_Some_elem_of. apply list_elem_of_omap in Hh as ([peer conns] & Hin & Hc). apply elem_of_map_to_list in Hin.
  destruct (conns !! id) as [info|] eqn:Hi; [|done]. injection Hc as <-. eauto.
Qed.

(** What is there is found. *)
Lemma Pool_get_has self id peer :
  pending self !! id = None → has_connection (established self) id peer → ∃ peer' info, Pool_get self id = Some (PCEstablished peer' info).
Proof.
  intros Hp (conns & Hm & info & Hid). unfold Pool_get. rewrite Hp.
  set (f := λ '(peer, cs), PCEstablished peer <$> (cs : gmap N EstablishedConnectionInfo) !! id).
  assert (PCEstablished peer info ∈ omap f (map_to_list (established self))) as Hin.
  { apply list_elem_of_omap. exists (peer, conns). split; [by apply elem_of_map_to_list|]. unfold f. by rewrite Hid. }
  destruct (omap f (map_to_list (established self))) as [|c l] eqn:E; [by apply elem_of_nil in Hin|]. simpl.
  assert (c ∈ omap f (map_to_list (established self))) as Hc by (rewrite E; by left).
  apply list_elem_of_omap in Hc as ([peer' conns'] & _ & Hc). unfold f in Hc. destruct (conns' !! id); [|done]. injection Hc as <-. eauto.
Qed.

Lemma alter_shape self id peer info info' :
  Pool_get self id = Some (PCEstablished peer info) → dialed (ei_endpoint info') = dialed (ei_endpoint info) →
  established_shape (alter (insert id info') peer (established self)) = established_shape (established self).
Proof.
  intros (conns & Hm & Hid)%Pool_get_Some Hd.
  assert (alter (insert id info') peer (established self) = <[peer := <[id := info']> conns]> (established self)) as ->.
  { apply map_eq. intros p. destruct (decide (peer = p)) as [->|Hne]; [by rewrite lookup_alter_eq, lookup_insert_eq, Hm|].
    by rewrite lookup_alter_ne, lookup_insert_ne. }
  eapply established_shape_insert; [done|]. by eapply conns_shape_insert.
Qed.

Lemma step_disconnect k self peer : pool_inv k self → ∃ self', Pool_disconnect self peer = Ret self' ∧ pool_inv (k + 1) self' ∧
  established_shape (established self') = established_shape (established self).
Proof.
  intros Hinv. unfold Pool_disconnect.
  assert (∃ m', match established self !! peer with
         | Some conns => conns ← close_all (map_to_list conns).*1 conns; Ret (set_established self (<[peer := conns]> (established self)))
         | None => Ret self end = Ret (set_established self m') ∧ established_shape m' = established_shape (established self)) as (m' & -> & Hs).
  { destruct (established self !! peer) as [conns|] eqn:E; [|exists (established self); by destruct self].
    destruct (close_all_spec (map_to_list conns).*1 conns) as (conns' & -> & Hs).
    { intros id ([id' info] & -> & Hin)%list_elem_of_fmap. apply elem_of_map_to_list in Hin. by exists info. }
    eexists. split; [reflexivity|]. by eapply established_shape_insert. }
  eexists. split; [reflexivity|]. split; [|done]. eapply pool_inv_same; [| | | | | | | | |exact Hinv]; try done; [lia| |apply Hinv].
  simpl. unfold pending_shape. rewrite <-map_fmap_compose. apply map_fmap_ext. intros id info _. simpl. by case_decide.
Qed.

Lemma step_notify k self id event :
  let self' := (Pool_notify_handler self id event).2 in
  pool_inv k self → pool_inv (k + 1) self' ∧ established_shape (established self') = established_shape (established self).
Proof.
  intros self' Hinv. subst self'. unfold Pool_notify_handler.
  destruct (Pool_get self id) as [[info|peer info]|] eqn:Hg; [split; [|done]; eapply (pool_inv_same k _ self); try done; [lia|apply Hinv]| |split; [|done]; eapply (pool_inv_same k _ self); try done; [lia|apply Hinv]].
  destruct (tx_try_send _ _) as [r tx]. simpl.
  split; [eapply (pool_inv_same k _ self); try done; [lia| |apply Hinv]|]; by apply (alter_shape self id peer info).
Qed.

Lemma step_start_close k self id :
  pool_inv k self → ∃ self', Pool_start_close self id = Ret self' ∧ pool_inv (k + 1) self' ∧
    established_shape (established self') = established_shape (established self).
Proof.
  intros Hinv. unfold Pool_start_close. destruct (Pool_get self id) as [[info|peer info]|] eqn:Hg.
  - eexists. split; [reflexivity|]. split; [|done]. eapply (pool_inv_same k _ self); try done; [lia| |apply Hinv]. simpl. unfold pending_shape.
    rewrite fmap_insert. apply insert_id. apply Pool_get_Some in Hg. by rewrite lookup_fmap, Hg.
  - destruct (start_close_spec info) as (info' & -> & He). eexists. split; [reflexivity|].
    split; [eapply (pool_inv_same k _ self); try done; [lia| |apply Hinv]|]; (apply (alter_shape self id peer info); [done|by rewrite He]).
  - eexists. split; [reflexivity|]. split; [|done]. eapply (pool_inv_same k _ self); try done; [lia|apply Hinv].
Qed.

(** ** Steps of the tasks *)

Lemma queue_snoc live live' q e :
  queue_ok live q → (∀ x, x ∈ live → x ∈ live' ∨ x ∈ omap closed_rx [e]) → about e ∈ live' ++ omap closed_rx [e] → queue_ok live' (q ++ [e]).
Proof.
  intros Hq Hl He. induction q as [|e' q IH]; [by split|]. destruct Hq as [He' Hq]. split; [|by apply IH].
  change (e' :: q ++ [e]) with ((e' :: q) ++ [e]). rewrite omap_app, !elem_of_app in *. naive_solver.
Qed.

Lemma queue_mono live live' q : (∀ x, x ∈ live → x ∈ live') → queue_ok live q → queue_ok live' q.
Proof.
  intros Hl. induction q as [|e q IH]; [done|]. intros [He Hq]. split; [|by apply IH]. rewrite elem_of_app in *. naive_solver.
Qed.

Lemma omap_delete {A B} (f : A → option B) (l : list A) i x :
  l !! i = Some x → omap f l ≡ₚ option_list (f x) ++ omap f (delete i l).
Proof.
  intros Hi. rewrite <-(take_drop_middle l i x Hi) at 1. rewrite delete_take_drop, !omap_app. simpl.
  destruct (f x); simpl; [by rewrite <-Permutation_middle|done].
Qed.

Lemma step_task k self i act : pool_inv k self → pool_inv (k + 1) (task_step self i act).
Proof.
  intros Hinv. assert (pool_inv (k + 1) self) as Hsame by (eapply (pool_inv_same k _ self); try done; [lia|apply Hinv]).
  pose proof (pv_queue _ _ Hinv) as Hq. unfold task_step. destruct (tasks self !! i) as [t|] eqn:Hi; [|done].
  assert (∀ x, x ∈ omap live_task (tasks self) → x ∈ option_list (live_task t) ++ omap live_task (delete i (tasks self))) as Hlive.
  { intros x. by rewrite (omap_delete live_task _ _ _ Hi). }
  destruct t as [id|id|id peer|mx], act as [e|e|st]; try done.
  - eapply (pool_inv_same k _ self); try done; [lia| | |by eapply queue_mono].
    + unfold pending_tokens. simpl. rewrite (omap_delete pending_task _ _ _ Hi), fmap_app. simpl. destruct e; simpl; solve_Permutation.
    + unfold live_tokens. simpl. by rewrite (omap_delete live_task _ _ _ Hi).
  - eapply (pool_inv_same k _ self); try done; [lia| | |by eapply queue_mono].
    + unfold pending_tokens. simpl. rewrite (omap_delete pending_task _ _ _ Hi), fmap_app. simpl. destruct e; simpl; solve_Permutation.
    + unfold live_tokens. simpl. by rewrite (omap_delete live_task _ _ _ Hi).
  - assert ((id, peer) ∈ omap live_task (tasks self)) as Hin.
    { apply list_elem_of_omap. exists (EstablishedTask id peer). split; [by eapply list_elem_of_lookup_2|done]. }
    destruct st as [ev|addr|err h]; simpl.
    + eapply (pool_inv_same k _ self); try done; [lia|unfold live_tokens; simpl; by rewrite omap_app, app_nil_r|].
      simpl. eapply queue_snoc; [done|by left|]. apply elem_of_app. by left.
    + eapply (pool_inv_same k _ self); try done; [lia|unfold live_tokens; simpl; by rewrite omap_app, app_nil_r|].
      simpl. eapply queue_snoc; [done|by left|]. apply elem_of_app. by left.
    + eapply (pool_inv_same k _ self); try done; [lia| | |].
      * unfold pending_tokens. simpl. by rewrite (omap_delete pending_task _ _ _ Hi).
      * unfold live_tokens. simpl. rewrite (omap_delete live_task _ _ _ Hi), omap_app. simpl. solve_Permutation.
      * simpl. eapply queue_snoc; [done| |apply elem_of_app; right; by left]. intros x Hx%Hlive. simpl in Hx. set_solver.
  - eapply (pool_inv_same k _ self); try done; [lia|unfold pending_tokens|unfold live_tokens|by eapply queue_mono]; simpl;
      by rewrite (omap_delete _ _ _ _ Hi).
  - eapply (pool_inv_same k _ self); try done; [lia|unfold pending_tokens|unfold live_tokens|by eapply queue_mono]; simpl;
      by rewrite (omap_delete _ _ _ _ Hi).
  - eapply (pool_inv_same k _ self); try done; [lia|unfold pending_tokens|unfold live_tokens|by eapply queue_mono]; simpl;
      by rewrite (omap_delete _ _ _ _ Hi).
Qed.

(** ** New connections *)

(** The sum of the counters is small. *)
Definition small (c : ConnectionCounters) : Prop :=
  (pending_outgoing c + pending_incoming c + established_outgoing c + established_incoming c + 1 < 2 ^ 32)%N.

Lemma pool_inv_small k self : (k + 1 < 2 ^ 32)%N → pool_inv k self → small (counters self).
Proof. intros Hk Hinv. unfold small. pose proof (pv_sum _ _ Hinv). pose proof (pv_next _ _ Hinv). lia. Qed.

Definition set_pending_counter (b : bool) (c : ConnectionCounters) (n : N) : ConnectionCounters :=
  if b then mkConnectionCounters (cc_limits c) (pending_incoming c) n (established_incoming c) (established_outgoing c)
  else mkConnectionCounters (cc_limits c) n (pending_outgoing c) (established_incoming c) (established_outgoing c).
Definition pending_counter (b : bool) (c : ConnectionCounters) : N := if b then pending_outgoing c else pending_incoming c.

Lemma inc_pending_spec c (e : PendingPoint Multiaddr) :
  small c → inc_pending c e = Ret (set_pending_counter (outgoing e) c (pending_counter (outgoing e) c + 1)).
Proof. unfold small. intros Hs. destruct e; unfold inc_pending; simpl; rewrite u32_add_lt by lia; done. Qed.

Lemma dec_pending_spec c (e : PendingPoint Multiaddr) :
  (0 < pending_counter (outgoing e) c)%N → dec_pending c e = Ret (set_pending_counter (outgoing e) c (pending_counter (outgoing e) c - 1)).
Proof. intros Hs. destruct e; unfold dec_pending; simpl in *; rewrite u32_sub_le by lia; done. Qed.

Definition set_established_counter (b : bool) (c : ConnectionCounters) (n : N) : ConnectionCounters :=
  if b then mkConnectionCounters (cc_limits c) (pending_incoming c) (pending_outgoing c) (established_incoming c) n
  else mkConnectionCounters (cc_limits c) (pending_incoming c) (pending_outgoing c) n (established_outgoing c).
Definition established_counter (b : bool) (c : ConnectionCounters) : N := if b then established_outgoing c else established_incoming c.

Lemma cc_limits_set b c n : cc_limits (set_established_counter b c n) = cc_limits c.
Proof. by destruct b. Qed.

Lemma inc_established_spec c (e : ConnectedPoint Multiaddr) :
  small c → inc_established c e = Ret (set_established_counter (dialed e) c (established_counter (dialed e) c + 1)).
Proof. unfold small. intros Hs. destruct e; unfold inc_established; simpl; rewrite u32_add_lt by lia; done. Qed.

Lemma dec_established_spec c (e : ConnectedPoint Multiaddr) :
  (0 < established_counter (dialed e) c)%N →
  dec_established c e = Ret (set_established_counter (dialed e) c (established_counter (dialed e) c - 1)).
Proof. intros Hs. destruct e; unfold dec_established; simpl in *; rewrite u32_sub_le by lia; done. Qed.

Lemma check_Ok n limit : check n limit = Ok () → within (n + 1) limit.
Proof. unfold check, within. destruct limit as [l|]; [|done]. case_decide; [done|]. lia. Qed.

Lemma count1_pending b k info : count1 (λ x : N * PendingConnectionInfo, outgoing (pi_endpoint x.2) = b) k (Some info) = if decide (outgoing (pi_endpoint info) = b) then 1 else 0.
Proof. done. Qed.

Lemma pending_count_fresh b (m : gmap N PendingConnectionInfo) id info :
  m !! id = None → pending_count b (<[id := info]> m) = pending_count b m + if decide (outgoing (pi_endpoint info) = b) then 1 else 0.
Proof.
  intros Hid. unfold pending_count. pose proof (map_count_insert (λ x, outgoing (pi_endpoint x.2) = b) m id info) as Hc.
  rewrite Hid, count1_pending in Hc. simpl in Hc. lia.
Qed.

Lemma pending_count_del b (m : gmap N PendingConnectionInfo) id info :
  m !! id = Some info → pending_count b m = pending_count b (delete id m) + if decide (outgoing (pi_endpoint info) = b) then 1 else 0.
Proof.
  intros Hid. unfold pending_count. pose proof (map_count_delete (λ x, outgoing (pi_endpoint x.2) = b) m id) as Hc.
  rewrite Hid, count1_pending in Hc. lia.
Qed.

Lemma pool_inv_add k self t info :
  pool_inv k self → pending_task t = Some (next_connection_id self, outgoing (pi_endpoint info)) → live_task t = None →
  within (pending_counter (outgoing (pi_endpoint info)) (counters self) + 1)
    (if outgoing (pi_endpoint info) then max_pending_outgoing (cc_limits (counters self)) else max_pending_incoming (cc_limits (counters self))) →
  pool_inv (k + 1)
    (mkPool (local_id self)
       (set_pending_counter (outgoing (pi_endpoint info)) (counters self) (pending_counter (outgoing (pi_endpoint info)) (counters self) + 1))
       (established self) (<[next_connection_id self := info]> (pending self)) (next_connection_id self + 1) (task_command_buffer_size self)
       (tasks self ++ [t]) (pending_connection_events_rx self) (established_connection_events_rx self)).
Proof.
  intros [I1 I2 I3 I4 I5 I6 I7 I8 I9 I10 I11 [C1 C2 C3 C4] [L1 L2 L3 L4 L5 L6] I14] Ht Hlt Hw.
  set (n := next_connection_id self) in *. set (b := outgoing (pi_endpoint info)) in *.
  assert (pending self !! n = None) as Hn.
  { apply eq_None_not_Some. intros ?%I8. unfold n in *. lia. }
  match goal with |- pool_inv _ ?s => set (self' := s) end.
  assert (pending_tokens self' ≡ₚ (n, b) :: pending_tokens self) as Hpt.
  { unfold pending_tokens, self'. simpl. rewrite omap_app. simpl. rewrite Ht. solve_Permutation. }
  assert (live_tokens self' = live_tokens self) as Hl.
  { unfold live_tokens, self'. simpl. rewrite omap_app. simpl. by rewrite Hlt, app_nil_r. }
  split.
  - rewrite Hpt. simpl. apply NoDup_cons. split; [|done]. intros ([id b'] & Heq & Hin)%list_elem_of_fmap. simpl in Heq. subst id.
    apply I2 in Hin as (info' & Hi & _). congruence.
  - intros id b'. rewrite Hpt, elem_of_cons, I2. simpl. split.
    + intros [[= -> ->]|(info' & Hi & Hb)]; [exists info; by rewrite lookup_insert_eq|]. exists info'.
      rewrite lookup_insert_ne; [done|]. intros <-. congruence.
    + intros (info' & [[<- <-]|[Hne Hi]]%lookup_insert_Some & Hb); [left; by rewrite <-Hb|right; eauto].
  - by rewrite Hl.
  - rewrite Hl. apply I4.
  - intros id peer Hh. simpl. rewrite lookup_insert_ne; [by eapply I5|]. intros <-. specialize (I9 _ _ Hh). unfold n in *. lia.
  - simpl. eapply queue_mono; [|exact I6]. intros x Hx. rewrite omap_app. apply elem_of_app. by left.
  - done.
  - intros id. simpl. rewrite lookup_insert_is_Some. intros [<-|[_ ?%I8]]; unfold n in *; lia.
  - intros id peer Hh. specialize (I9 _ _ Hh). simpl. unfold n in *. lia.
  - simpl. unfold n. lia.
  - simpl. unfold self', set_pending_counter, pending_counter. destruct b; simpl; unfold n; lia.
  - split; simpl; rewrite ?pending_count_fresh by done; fold b; unfold set_pending_counter, pending_counter; destruct b; simpl; lia.
  - split; simpl; unfold set_pending_counter, pending_counter in *; destruct b; simpl in *; done.
  - done.
Qed.

Lemma step_add_outgoing k self peer handler role :
  (k + 1 < 2 ^ 32)%N → pool_inv k self → ∃ r self', add_outgoing self peer handler role = Ret (r, self') ∧ pool_inv (k + 1) self' ∧
  established self' = established self.
Proof.
  intros Hk Hinv. unfold add_outgoing. destruct (check_max_pending_outgoing (counters self)) as [[]|l] eqn:Hc.
  2:{ eexists _, _. split; [reflexivity|]. split; [|done]. eapply (pool_inv_same k _ self); try done; [lia|apply Hinv]. }
  unfold Pool_next_connection_id. rewrite decide_True by (pose proof (pv_next _ _ Hinv); lia). cbn [mbind outcome_bind].
  cbn [spawn set_tasks counters]. rewrite inc_pending_spec by by eapply pool_inv_small. eexists _, _. split; [reflexivity|]. split; [|done].
  by apply (pool_inv_add k self (OutgoingTask (next_connection_id self)) (mkPendingConnectionInfo peer handler (PendingDialer role) true)); [..|apply check_Ok].
Qed.

Lemma step_add_incoming k self handler a1 a2 :
  (k + 1 < 2 ^ 32)%N → pool_inv k self → ∃ r self', add_incoming self handler a1 a2 = Ret (r, self') ∧ pool_inv (k + 1) self' ∧
  established self' = established self.
Proof.
  intros Hk Hinv. unfold add_incoming. destruct (check_max_pending_incoming (counters self)) as [[]|l] eqn:Hc.
  2:{ eexists _, _. split; [reflexivity|]. split; [|done]. eapply (pool_inv_same k _ self); try done; [lia|apply Hinv]. }
  unfold Pool_next_connection_id. rewrite decide_True by (pose proof (pv_next _ _ Hinv); lia). cbn [mbind outcome_bind].
  cbn [spawn set_tasks counters]. rewrite inc_pending_spec by by eapply pool_inv_small. eexists _, _. split; [reflexivity|]. split; [|done].
  by apply (pool_inv_add k self (IncomingTask (next_connection_id self)) (mkPendingConnectionInfo None handler (PendingListener a1 a2) true)); [..|apply check_Ok].
Qed.

(** ** Polling established connections *)

(** Setting the connections of a peer, which is removed with its last connection. *)
Definition put_conns (m : gmap PeerId (gmap N EstablishedConnectionInfo)) (peer : PeerId) (conns : gmap N EstablishedConnectionInfo) :=
  if decide ((map_to_list conns).*1 = []) then delete peer m else <[peer := conns]> m.

Lemma keys_nil (conns : gmap N EstablishedConnectionInfo) : (map_to_list conns).*1 = [] ↔ conns = ∅.
Proof. rewrite <-map_to_list_empty_iff. split; [by intros ?%fmap_nil_inv|by intros ->]. Qed.

Lemma put_conns_Some m peer conns p c :
  put_conns m peer conns !! p = Some c ↔ (p = peer ∧ c = conns ∧ conns ≠ ∅) ∨ (p ≠ peer ∧ m !! p = Some c).
Proof.
  unfold put_conns. case_decide as Hk; rewrite keys_nil in Hk.
  - rewrite lookup_delete_Some. naive_solver.
  - rewrite lookup_insert_Some. naive_solver.
Qed.

Lemma put_conns_count b m peer conns : established_count b (put_conns m peer conns) = conns_count b conns + established_count b (delete peer m).
Proof.
  unfold put_conns. case_decide as Hk; [|apply established_count_insert]. apply keys_nil in Hk as ->. unfold conns_count. by rewrite map_count_empty.
Qed.

Lemma put_conns_has m peer conns id p :
  has_connection (put_conns m peer conns) id p ↔ (p = peer ∧ is_Some (conns !! id)) ∨ (p ≠ peer ∧ has_connection m id p).
Proof.
  unfold has_connection. setoid_rewrite put_conns_Some. split; [naive_solver|].
  intros [[-> Hi]|(Hne & c & ? & ?)]; [|naive_solver]. exists conns. split; [left|done]. split_and!; [done..|].
  intros ->. rewrite lookup_empty in Hi. by destruct Hi.
Qed.

Lemma conns_count_del b (m : gmap N EstablishedConnectionInfo) id info :
  m !! id = Some info → conns_count b m = conns_count b (delete id m) + if decide (dialed (ei_endpoint info) = b) then 1 else 0.
Proof.
  intros Hid. unfold conns_count. pose proof (map_count_delete (λ x, dialed (ei_endpoint x.2) = b) m id) as Hc.
  rewrite Hid in Hc. unfold count1 in Hc. simpl in Hc. lia.
Qed.

Lemma conns_count_fresh b (m : gmap N EstablishedConnectionInfo) id info :
  m !! id = None → conns_count b (<[id := info]> m) = conns_count b m + if decide (dialed (ei_endpoint info) = b) then 1 else 0.
Proof.
  intros Hid. unfold conns_count. pose proof (map_count_insert (λ x, dialed (ei_endpoint x.2) = b) m id info) as Hc.
  rewrite Hid in Hc. unfold count1 in Hc. simpl in Hc. lia.
Qed.

Lemma within_le n n' limit : (n' ≤ n)%N → within n limit → within n' limit.
Proof. unfold within. destruct limit; [lia|done]. Qed.

Lemma established_counter_pos k self id peer conns info :
  pool_inv k self → established self !! peer = Some conns → conns !! id = Some info →
  (0 < established_counter (dialed (ei_endpoint info)) (counters self))%N.
Proof.
  intros Hinv Hm Hid. destruct (pv_counters _ _ Hinv) as [_ _ C3 C4].
  pose proof (established_count_delete (dialed (ei_endpoint info)) _ _ _ Hm) as H1.
  pose proof (conns_count_del (dialed (ei_endpoint info)) _ _ _ Hid) as H2. rewrite decide_True in H2 by done.
  unfold established_counter. destruct (dialed (ei_endpoint info)); lia.
Qed.

Lemma pool_inv_close k self self' id peer conns info :
  pool_inv k self → established self !! peer = Some conns → conns !! id = Some info →
  pending_tokens self' = pending_tokens self → live_tokens self ≡ₚ (id, peer) :: live_tokens self' →
  queue_ok (omap live_task (tasks self')) (established_connection_events_rx self') →
  pending self' = pending self → next_connection_id self' = next_connection_id self → local_id self' = local_id self →
  established self' = put_conns (established self) peer (delete id conns) →
  counters self' = set_established_counter (dialed (ei_endpoint info)) (counters self)
    (established_counter (dialed (ei_endpoint info)) (counters self) - 1) →
  pool_inv (k + 1) self'.
Proof.
  intros Hinv Hm Hid Hpt Hlt Hq Hp Hn Hl He Hc. pose proof (established_counter_pos _ _ _ _ _ _ Hinv Hm Hid) as Hpos.
  destruct Hinv as [I1 I2 I3 I4 I5 I6 I7 I8 I9 I10 I11 [C1 C2 C3 C4] [L1 L2 L3 L4 L5 L6] I14].
  assert (has_connection (established self) id peer) as Hhas by (exists conns; by rewrite Hid).
  rewrite Hlt in I3. simpl in I3. apply NoDup_cons in I3 as [Hnin I3].
  assert (∀ id' p, has_connection (established self') id' p ↔ has_connection (established self) id' p ∧ (id', p) ≠ (id, peer)) as Hhc.
  { intros id' p. rewrite He, put_conns_has, lookup_delete_is_Some. split.
    - intros [(-> & Hne & Hi)|(Hne & Hh)]; (split; [|congruence]); [by exists conns|done].
    - intros [Hh Hne]. destruct (decide (p = peer)) as [->|]; [left|by right]. destruct Hh as (c & Hc' & Hi). simplify_eq. naive_solver. }
  assert (∀ id' p, (id', p) ∈ live_tokens self' → id' ≠ id) as Hid'.
  { intros id' p Hin ->. apply Hnin. apply list_elem_of_fmap. by exists (id, p). }
  split.
  - by rewrite Hpt.
  - intros id' b. by rewrite Hpt, Hp, I2.
  - done.
  - intros id' p. rewrite Hhc, <-I4, Hlt, elem_of_cons. split; [|naive_solver]. intros Hin. split; [by right|].
    intros [= -> ->]. by apply (Hid' id peer).
  - intros id' p [Hh _]%Hhc. rewrite Hp. by eapply I5.
  - done.
  - intros p c. rewrite He, put_conns_Some. intros [(_ & -> & ?)|(_ & ?)]; [done|by eapply I7].
  - intros id'. rewrite Hp, Hn. apply I8.
  - intros id' p [Hh _]%Hhc. rewrite Hn. by eapply I9.
  - rewrite Hn. lia.
  - rewrite Hc, Hn. unfold set_established_counter, established_counter in *. destruct (dialed (ei_endpoint info)); simpl; lia.
  - assert (∀ b, established_count b (established self) = established_count b (established self') + if decide (dialed (ei_endpoint info) = b) then 1 else 0) as Hcount.
    { intros b. rewrite He, put_conns_count, (established_count_delete b _ _ _ Hm), (conns_count_del b _ _ _ Hid). lia. }
    pose proof (Hcount true) as Ht. pose proof (Hcount false) as Hf. split; rewrite Hc, ?Hp; unfold set_established_counter, established_counter in *;
      destruct (dialed (ei_endpoint info)); simpl in *; lia.
  - split; rewrite Hc, cc_limits_set; [by destruct (dialed (ei_endpoint info))..| | | |].
    + eapply within_le; [|exact L3]. destruct (dialed (ei_endpoint info)); simpl; lia.
    + eapply within_le; [|exact L4]. destruct (dialed (ei_endpoint info)); simpl; lia.
    + eapply within_le; [|exact L5]. destruct (dialed (ei_endpoint info)); simpl; lia.
    + intros p c. rewrite He, put_conns_Some. intros [(_ & -> & _)|(_ & Hp')]; [|by eapply L6].
      eapply within_le; [|by eapply L6]. rewrite map_size_delete_Some by by eexists. lia.
  - rewrite Hl, He. apply eq_None_not_Some. intros [c Hs]. apply put_conns_Some in Hs as [(<- & _)|(_ & Hs)]; congruence.
Qed.

(** What an event says of the connections before and after it. *)
Definition event_ok (m : gmap PeerId (gmap N EstablishedConnectionInfo)) (e : PoolEvent) (m' : gmap PeerId (gmap N EstablishedConnectionInfo)) : Prop :=
  match e with
  | PE_ConnectionEstablished peer id others _ =>
      (∀ p, ¬ has_connection m id p) ∧ (∀ i, i ∈ others ↔ has_connection m i peer) ∧
      ∀ i p, has_connection m' i p ↔ has_connection m i p ∨ (i, p) = (id, peer)
  | PE_ConnectionClosed id _ peer _ remaining _ =>
      has_connection m id peer ∧ (∀ i, i ∈ remaining ↔ has_connection m' i peer) ∧
      ∀ i p, has_connection m' i p ↔ has_connection m i p ∧ (i, p) ≠ (id, peer)
  | PE_ConnectionEvent peer id _ | PE_AddressChange peer id _ _ =>
      has_connection m id peer ∧ ∀ i p, has_connection m' i p ↔ has_connection m i p
  | PE_PendingOutboundConnectionError id _ _ _ | PE_PendingInboundConnectionError id _ _ _ _ =>
      (∀ p, ¬ has_connection m id p) ∧ ∀ i p, has_connection m' i p ↔ has_connection m i p
  end.

Lemma keys_spec (conns : gmap N EstablishedConnectionInfo) id : id ∈ (map_to_list conns).*1 ↔ is_Some (conns !! id).
Proof.
  rewrite list_elem_of_fmap. split.
  - intros ([id' info] & -> & Hin). apply elem_of_map_to_list in Hin. by exists info.
  - intros [info Hi]. exists (id, info). split; [done|]. by apply elem_of_map_to_list.
Qed.

Lemma Pool_get_unique k self id peer peer' info :
  pool_inv k self → has_connection (established self) id peer → Pool_get self id = Some (PCEstablished peer' info) → peer' = peer.
Proof.
  intros Hinv Hh (conns & Hm & Hi)%Pool_get_Some.
  assert (has_connection (established self) id peer') as Hh' by (exists conns; by rewrite Hi).
  apply (pv_live _ _ Hinv) in Hh, Hh'. pose proof (pv_live_nodup _ _ Hinv) as Hnd.
  apply list_elem_of_lookup_1 in Hh as [i Hi1], Hh' as [j Hj]. assert (i = j) as ->.
  { eapply (NoDup_lookup _ _ _ id Hnd); rewrite list_lookup_fmap, ?Hi1, ?Hj; done. }
  congruence.
Qed.

Lemma step_poll_established k self e rest :
  pool_inv k self → established_connection_events_rx self = e :: rest →
  ∃ ev self', poll_established e (set_established_rx self rest) = Ret (ev, self') ∧ pool_inv (k + 1) self' ∧
    event_ok (established self) ev (established self').
Proof.
  intros Hinv Hrx. pose proof (pv_queue _ _ Hinv) as Hq. rewrite Hrx in Hq. destruct Hq as [Habout Hq].
  assert (has_connection (established self) (about e).1 (about e).2) as Hh.
  { apply (pv_live _ _ Hinv). unfold live_tokens. rewrite Hrx. by destruct (about e). }
  destruct e as [id peer addr|id peer event|id peer err h]; simpl in Hh; pose proof Hh as (conns & Hm & info & Hid); simpl; rewrite Hm; simpl; rewrite Hid; simpl.
  - set (info' := mkEstablishedConnectionInfo _ _ _). set (s1 := set_established _ _).
    assert (pool_inv k s1) as Hinv1.
    { eapply (pool_inv_same k k self); try done; simpl; [|by unfold live_tokens; rewrite Hrx].
      eapply established_shape_insert; [done|]. eapply conns_shape_insert; [done|]. simpl. by destruct (ei_endpoint info). }
    assert (has_connection (established s1) id peer) as Hh1.
    { exists (<[id := info']> conns). simpl. by rewrite !lookup_insert_eq. }
    destruct (Pool_get_has s1 id peer (pv_disjoint _ _ Hinv1 _ _ Hh1) Hh1) as (peer' & i & Hg). rewrite Hg.
    rewrite (Pool_get_unique _ _ _ _ _ _ Hinv1 Hh1 Hg). eexists _, _. split; [reflexivity|]. split.
    + eapply (pool_inv_same k _ s1); try done; lia.
    + split; [done|]. intros i' p. apply has_connection_shape. simpl. eapply established_shape_insert; [done|]. eapply conns_shape_insert; [done|].
      simpl. by destruct (ei_endpoint info).
  - eexists _, _. split; [reflexivity|]. split; [|by split].
    eapply (pool_inv_same k _ self); try done; simpl; [lia|by unfold live_tokens; rewrite Hrx].
  - rewrite dec_established_spec by by eapply established_counter_pos. simpl. eexists _, _. split; [reflexivity|]. split.
    + eapply (pool_inv_close k self _ id peer conns info); try done. unfold live_tokens. rewrite Hrx. simpl. solve_Permutation.
    + simpl. fold (put_conns (established self) peer (delete id conns)). split_and!; [done| |].
      * intros i. rewrite keys_spec, put_conns_has. naive_solver.
      * intros i p. rewrite put_conns_has, lookup_delete_is_Some. split.
        -- intros [(-> & Hne & Hi)|(Hne & Hh')]; (split; [|congruence]); [by exists conns|done].
        -- intros [Hh' Hne]. destruct (decide (p = peer)) as [->|]; [left|by right]. destruct Hh' as (c & Hc' & Hi). simplify_eq. naive_solver.
Qed.

(** ** Polling pending connections *)

(** The pool after a pending connection is taken out with the event that ends it. *)
Definition unpend (self : Pool) (id : N) (info : PendingConnectionInfo) (rest : list PendingConnectionEvent) : Pool :=
  let b := outgoing (pi_endpoint info) in
  set_counters (set_pending (set_pending_rx self rest) (delete id (pending self)))
    (set_pending_counter b (counters self) (pending_counter b (counters self) - 1)).

Lemma pending_counter_pos k self id info :
  pool_inv k self → pending self !! id = Some info → (0 < pending_counter (outgoing (pi_endpoint info)) (counters self))%N.
Proof.
  intros Hinv Hid. destruct (pv_counters _ _ Hinv) as [C1 C2 _ _].
  pose proof (pending_count_del (outgoing (pi_endpoint info)) _ _ _ Hid) as Hc. rewrite decide_True in Hc by done.
  unfold pending_counter. destruct (outgoing (pi_endpoint info)); lia.
Qed.

Definition counters_sum (c : ConnectionCounters) : N :=
  (pending_outgoing c + pending_incoming c + established_outgoing c + established_incoming c)%N.

Lemma pool_inv_unpend k self id info e rest :
  pool_inv k self → pending_connection_events_rx self = e :: rest → pending self !! id = Some info →
  pending_rx e = (id, outgoing (pi_endpoint info)) →
  pool_inv k (unpend self id info rest) ∧ (counters_sum (counters (unpend self id info rest)) + 1 ≤ next_connection_id self)%N.
Proof.
  intros Hinv Hrx Hid He. pose proof (pending_counter_pos _ _ _ _ Hinv Hid) as Hpos.
  destruct Hinv as [I1 I2 I3 I4 I5 I6 I7 I8 I9 I10 I11 [C1 C2 C3 C4] [L1 L2 L3 L4 L5 L6] I14].
  set (b := outgoing (pi_endpoint info)) in *. set (self' := unpend self id info rest).
  assert (pending_tokens self ≡ₚ (id, b) :: pending_tokens self') as Hpt.
  { unfold pending_tokens. rewrite Hrx. simpl. rewrite He. solve_Permutation. }
  rewrite Hpt in I1. simpl in I1. apply NoDup_cons in I1 as [Hnin I1].
  assert (∀ b', (id, b') ∉ pending_tokens self') as Hnot.
  { intros b' Hin. apply Hnin. apply list_elem_of_fmap. by exists (id, b'). }
  split.
  2:{ simpl. unfold counters_sum, set_pending_counter, pending_counter in *. fold b. destruct b; simpl in *; lia. }
  split; try done.
  - intros id' b'. simpl. split.
    + intros Hin. assert ((id', b') ∈ pending_tokens self) as Hin' by (rewrite Hpt; by right). apply I2 in Hin' as (info' & Hi & Hb).
      exists info'. split; [|done]. rewrite lookup_delete_ne; [done|]. intros <-. by apply (Hnot b').
    + intros (info' & [Hne Hi]%lookup_delete_Some & Hb). assert ((id', b') ∈ pending_tokens self) as Hin by (apply I2; eauto).
      rewrite Hpt in Hin. apply elem_of_cons in Hin as [[= -> _]|?]; done.
  - intros id' peer Hh. simpl. rewrite lookup_delete_None. right. by eapply I5.
  - intros id'. simpl. intros [_ ?%I8]%lookup_delete_is_Some. done.
  - simpl. unfold set_pending_counter, pending_counter in *. fold b. destruct b; simpl in *; lia.
  - pose proof (pending_count_del true _ _ _ Hid) as Ht. pose proof (pending_count_del false _ _ _ Hid) as Hf. fold b in Ht, Hf.
    split; simpl; unfold set_pending_counter, pending_counter in *; fold b; destruct b; simpl in *; lia.
  - split; simpl; unfold set_pending_counter, pending_counter in *; fold b; destruct b; simpl in *; try done;
      (eapply within_le; [|by first [exact L1|exact L2]]); lia.
Qed.

Lemma pool_inv_establish k self id peer endpoint tx :
  let conns := default ∅ (established self !! peer) in
  pool_inv k self → pending self !! id = None → (∀ p, ¬ has_connection (established self) id p) → (id < next_connection_id self)%N →
  (counters_sum (counters self) + 1 ≤ next_connection_id self)%N → peer ≠ local_id self →
  within (established_counter (dialed endpoint) (counters self) + 1)
    (if dialed endpoint then max_established_outgoing (cc_limits (counters self)) else max_established_incoming (cc_limits (counters self))) →
  within (established_outgoing (counters self) + established_incoming (counters self) + 1) (max_established_total (cc_limits (counters self))) →
  within (N.of_nat (size conns) + 1) (max_established_per_peer (cc_limits (counters self))) →
  let self' :=
    spawn (set_established (set_counters self (set_established_counter (dialed endpoint) (counters self) (established_counter (dialed endpoint) (counters self) + 1)))
      (<[peer := <[id := mkEstablishedConnectionInfo peer endpoint tx]> conns]> (established self))) (EstablishedTask id peer) in
  pool_inv k self' ∧ ∀ i p, has_connection (established self') i p ↔ has_connection (established self) i p ∨ (i, p) = (id, peer).
Proof.
  intros conns Hinv Hid Hno Hlt Hsum Hloc W1 W2 W3 self'. set (info := mkEstablishedConnectionInfo peer endpoint tx) in self'.
  assert (conns !! id = None) as Hci.
  { apply eq_None_not_Some. intros Hi. unfold conns in Hi. destruct (established self !! peer) as [c|] eqn:E; simpl in Hi.
    - apply (Hno peer). by exists c.
    - rewrite lookup_empty in Hi. by destruct Hi. }
  assert (∀ i, is_Some (conns !! i) ↔ has_connection (established self) i peer) as Hconns.
  { intros i. unfold conns, has_connection. destruct (established self !! peer) as [c|]; simpl; [naive_solver|].
    rewrite lookup_empty. split; [by intros []|naive_solver]. }
  assert (∀ i p, has_connection (established self') i p ↔ has_connection (established self) i p ∨ (i, p) = (id, peer)) as Hhc.
  { intros i p. unfold has_connection at 1, self'. simpl. destruct (decide (peer = p)) as [<-|Hne].
    - rewrite lookup_insert_eq. split.
      + intros (c & [= <-] & Hi). rewrite lookup_insert_is_Some in Hi. destruct Hi as [->|[_ Hi]]; [by right|left; by apply Hconns].
      + intros [Hi|[= ->]]; eexists; (split; [done|]); apply lookup_insert_is_Some'; [right; by apply Hconns|by left].
    - rewrite lookup_insert_ne by done. split; [by left|]. intros [?|[= _ ->]]; [done|by destruct Hne]. }
  split; [|done]. destruct Hinv as [I1 I2 I3 I4 I5 I6 I7 I8 I9 I10 I11 [C1 C2 C3 C4] [L1 L2 L3 L4 L5 L6] I14].
  assert (live_tokens self' ≡ₚ (id, peer) :: live_tokens self) as Hl.
  { unfold live_tokens, self'. simpl. rewrite omap_app. simpl. solve_Permutation. }
  assert (pending_tokens self' = pending_tokens self) as Hp.
  { unfold pending_tokens, self'. simpl. rewrite omap_app. simpl. by rewrite app_nil_r. }
  assert (∀ b, established_count b (established self') = established_count b (established self) + if decide (dialed endpoint = b) then 1 else 0) as Hcount.
  { intros b. unfold self'. simpl. rewrite established_count_insert, (established_count_old b (established self) peer). fold conns.
    rewrite conns_count_fresh by done. simpl. lia. }
  split; rewrite ?Hp; try done.
  - rewrite Hl. simpl. apply NoDup_cons. split; [|done]. intros ([i p] & Heq & Hin)%list_elem_of_fmap. simpl in Heq. subst i.
    apply I4 in Hin. by apply (Hno p).
  - intros i p. rewrite Hl, elem_of_cons, I4, Hhc. tauto.
  - intros i p [Hh|[= -> ->]]%Hhc; [by eapply I5|done].
  - simpl. eapply queue_mono; [|exact I6]. intros x Hx. rewrite omap_app. apply elem_of_app. by left.
  - intros p c. simpl. intros [[<- <-]|[_ ?]]%lookup_insert_Some; [|by eapply I7]. apply insert_non_empty.
  - intros i p [Hh|[= -> ->]]%Hhc; [by eapply I9|done].
  - simpl. unfold counters_sum, set_established_counter, established_counter in *. destruct (dialed endpoint); simpl in *; lia.
  - pose proof (Hcount true) as Ht. pose proof (Hcount false) as Hf. simpl in Ht, Hf.
    split; simpl; unfold set_established_counter, established_counter in *; destruct (dialed endpoint); simpl in *; lia.
  - split; simpl; rewrite ?cc_limits_set; unfold established_counter in *; [by destruct (dialed endpoint)..| | | |].
    + destruct (dialed endpoint); simpl in *; done.
    + destruct (dialed endpoint); simpl in *; done.
    + eapply within_le; [|exact W2]. destruct (dialed endpoint); simpl; lia.
    + intros p c [[<- <-]|[_ ?]]%lookup_insert_Some; [|by eapply L6]. rewrite map_size_insert_None by done. eapply within_le; [|exact W3]. lia.
  - simpl. by rewrite lookup_insert_ne.
Qed.

Lemma check_connection_spec k self endpoint expected obtained :
  (k + 1 < 2 ^ 32)%N → pool_inv k self →
  ∃ r, check_connection self endpoint expected obtained = Ret r ∧
    (r = Ok () →
      obtained ≠ local_id self ∧ (∀ peer, expected = Some peer → peer = obtained) ∧
      within (established_counter (dialed endpoint) (counters self) + 1)
        (if dialed endpoint then max_established_outgoing (cc_limits (counters self)) else max_established_incoming (cc_limits (counters self))) ∧
      within (established_outgoing (counters self) + established_incoming (counters self) + 1) (max_established_total (cc_limits (counters self))) ∧
      within (N.of_nat (size (default ∅ (established self !! obtained))) + 1) (max_established_per_peer (cc_limits (counters self)))).
Proof.
  intros Hk Hinv. pose proof (pool_inv_small _ _ Hk Hinv) as Hs. unfold small in Hs.
  unfold check_connection, check_max_established, num_established. rewrite u32_add_lt by lia. cbn [mbind outcome_bind].
  destruct (check (established_outgoing (counters self) + established_incoming (counters self)) _) as [[]|l] eqn:W2; simpl; [|eexists; by split].
  destruct (match endpoint with ConnectedDialer _ _ => _ | ConnectedListener _ _ => _ end) as [[]|l] eqn:W1; [|eexists; by split].
  assert (num_peer_established (established self) obtained = Ret (N.of_nat (size (default ∅ (established self !! obtained))))) as ->.
  { unfold num_peer_established. destruct (established self !! obtained) as [conns|] eqn:E; simpl; [|by rewrite map_size_empty].
    rewrite decide_True; [done|]. destruct (pv_counters _ _ Hinv) as [_ _ C3 C4].
    pose proof (established_count_delete true _ _ _ E). pose proof (established_count_delete false _ _ _ E).
    pose proof (size_conns_count conns). lia. }
  cbn [mbind outcome_bind]. eexists. split; [reflexivity|]. unfold check_max_established_per_peer.
  destruct (check (N.of_nat _) _) as [[]|l] eqn:W3; simpl; [|done].
  destruct expected as [peer|]; simpl; [case_decide as Hp; simpl; [done|]|]; (case_decide as Hl; simpl; [done|]); intros _.
  - split_and!; [done|intros p [= <-]; by destruct (decide (peer = obtained))| |by apply check_Ok|by apply check_Ok].
    destruct endpoint; simpl; by apply check_Ok.
  - split_and!; [done|done| |by apply check_Ok|by apply check_Ok]. destruct endpoint; simpl; by apply check_Ok.
Qed.

Lemma step_poll_pending k self e rest :
  (k + 1 < 2 ^ 32)%N → pool_inv k self → pending_connection_events_rx self = e :: rest →
  ∃ ev self', poll_pending e (set_pending_rx self rest) = Ret (Some ev, self') ∧ pool_inv (k + 1) self' ∧
    event_ok (established self) ev (established self').
Proof.
  intros Hk Hinv Hrx.
  assert (∃ info, pending self !! (pending_rx e).1 = Some info ∧ outgoing (pi_endpoint info) = (pending_rx e).2) as (info & Hid & Hb).
  { apply (pv_pending _ _ Hinv). unfold pending_tokens. rewrite Hrx. apply elem_of_app. right. destruct (pending_rx e) eqn:E. rewrite fmap_cons, E. by left. }
  set (id := (pending_rx e).1) in *.
  assert (pending_rx e = (id, outgoing (pi_endpoint info))) as He by (rewrite Hb; by destruct (pending_rx e)).
  destruct (pool_inv_unpend k self id info e rest Hinv Hrx Hid He) as [Hinv1 Hsum].
  assert (∀ p, ¬ has_connection (established self) id p) as Hno.
  { intros p Hh. pose proof (pv_disjoint _ _ Hinv _ _ Hh). congruence. }
  assert (∀ n, pool_inv n (unpend self id info rest) → pool_inv (n + 1) (unpend self id info rest)) as Hsucc.
  { intros n Hn. eapply (pool_inv_same n _ (unpend self id info rest)); try done; [lia|apply Hn]. }
  pose proof (pending_counter_pos _ _ _ _ Hinv Hid) as Hpos.
  destruct e as [id' [obtained mx] out|id' err].
  - injection He as Hout. change id' with id. cbn [poll_pending]. cbn [pending set_pending_rx]. rewrite Hid. cbn [expect mbind outcome_bind].
    cbn [counters set_pending set_pending_rx]. rewrite dec_pending_spec by done. cbn [mbind outcome_bind].
    change (set_counters (set_pending (set_pending_rx self rest) (delete id (pending self))) _) with (unpend self id info rest).
    assert (∃ endpoint errs, match pi_endpoint info, out with
        | PendingDialer role_override, Some (address, errors) => Ret (ConnectedDialer address role_override, Some errors)
        | PendingListener local_addr send_back_addr, None => Ret (ConnectedListener local_addr send_back_addr, None)
        | _, _ => Panic end = Ret (endpoint, errs)) as (endpoint & errs & ->).
    { destruct (pi_endpoint info), out as [[]|]; simpl in Hout; try done; eauto. }
    cbn [mbind outcome_bind].
    destruct (check_connection_spec k _ endpoint (pi_peer_id info) obtained Hk Hinv1) as (r & -> & Hr). cbn [mbind outcome_bind].
    destruct r as [[]|err].
    + destruct (Hr eq_refl) as (Hloc & _ & W1 & W2 & W3).
      rewrite inc_established_spec by by eapply pool_inv_small. cbn [mbind outcome_bind].
      destruct (pool_inv_establish k (unpend self id info rest) id obtained endpoint (tx_channel (task_command_buffer_size self))) as [Hinv2 Hhc];
        try done; [simpl; apply lookup_delete_eq|simpl; apply (pv_pending_lt _ _ Hinv); by eexists|].
      match type of Hinv2 with pool_inv _ ?s => set (s2 := s) in * end.
      match goal with |- context [Pool_get ?s id] => change s with s2 end.
      assert (has_connection (established s2) id obtained) as Hh2 by (apply Hhc; by right).
      destruct (Pool_get_has s2 id obtained (pv_disjoint _ _ Hinv2 _ _ Hh2) Hh2) as (peer' & i & Hg). rewrite Hg.
      rewrite (Pool_get_unique _ _ _ _ _ _ Hinv2 Hh2 Hg). eexists _, s2. split; [reflexivity|]. split.
      * eapply (pool_inv_same k _ s2); try done; [lia|apply Hinv2].
      * split_and!; [done| |done]. intros j. rewrite keys_spec. unfold has_connection. simpl.
        destruct (established self !! obtained) as [c|]; simpl; [naive_solver|]. rewrite lookup_empty. split; [by intros []|naive_solver].
    + eexists _, _. split; [reflexivity|]. split; [|by destruct endpoint].
      eapply (pool_inv_same k _ (unpend self id info rest)); try done; [lia|..]; unfold pending_tokens, live_tokens; simpl; rewrite omap_app, app_nil_r; try done.
      apply (pv_queue _ _ Hinv1).
  - cbn [poll_pending]. cbn [pending set_pending_rx].
    assert (pending self !! id' = Some info) as -> by (rewrite <-Hid; unfold id; by destruct err).
    assert (delete id' (pending self) = delete id (pending self)) as -> by (unfold id; by destruct err).
    cbn [counters set_pending set_pending_rx]. rewrite dec_pending_spec by done. cbn [mbind outcome_bind].
    change (set_counters (set_pending (set_pending_rx self rest) (delete id (pending self))) _) with (unpend self id info rest).
    destruct (pi_endpoint info), err; simpl in Hb; try done; eexists _, _; (split; [reflexivity|]); (split; [by apply Hsucc|done]).
Qed.

(** ** Runs *)

Definition step_post (m : gmap PeerId (gmap N EstablishedConnectionInfo)) (es : list PoolEvent) (m' : gmap PeerId (gmap N EstablishedConnectionInfo)) : Prop :=
  match es with
  | [] => ∀ i p, has_connection m' i p ↔ has_connection m i p
  | [e] => event_ok m e m'
  | _ => False
  end.

Lemma pool_step_spec k op self :
  (k + 1 < 2 ^ 32)%N → pool_inv k self →
  ∃ es self', pool_step op self = Ret (es, self') ∧ pool_inv (k + 1) self' ∧ step_post (established self) es (established self').
Proof.
  intros Hk Hinv. destruct op as [peer handler role|handler a1 a2|peer|id event|id|i act|]; simpl.
  - destruct (step_add_outgoing k self peer handler role Hk Hinv) as (r & self' & -> & Hinv' & He). eexists _, _.
    split; [reflexivity|]. split; [done|]. simpl. by rewrite He.
  - destruct (step_add_incoming k self handler a1 a2 Hk Hinv) as (r & self' & -> & Hinv' & He). eexists _, _.
    split; [reflexivity|]. split; [done|]. simpl. by rewrite He.
  - destruct (step_disconnect k self peer Hinv) as (self' & -> & Hinv' & He). eexists _, _. split; [reflexivity|]. split; [done|].
    intros i p. by apply has_connection_shape.
  - destruct (step_notify k self id event Hinv) as [Hinv' He]. eexists _, _. split; [reflexivity|]. split; [done|].
    intros i p. by apply has_connection_shape.
  - destruct (step_start_close k self id Hinv) as (self' & -> & Hinv' & He). eexists _, _. split; [reflexivity|]. split; [done|].
    intros i p. by apply has_connection_shape.
  - eexists _, _. split; [reflexivity|]. split; [by apply step_task|]. simpl. unfold task_step.
    destruct (tasks self !! i) as [[]|]; destruct act; simpl; try done. by destruct s.
  - unfold Pool_poll. destruct (established_connection_events_rx self) as [|e rest] eqn:Hrx.
    + destruct (pending_connection_events_rx self) as [|e rest] eqn:Hprx.
      * eexists _, _. split; [reflexivity|]. split; [|done]. eapply (pool_inv_same k _ self); try done; [lia|apply Hinv].
      * destruct (step_poll_pending k self e rest Hk Hinv Hprx) as (ev & self' & Hp & Hinv' & He).
        cbn [poll_pending_loop]. rewrite Hp. eexists _, _. split; [reflexivity|]. done.
    + destruct (step_poll_established k self e rest Hinv Hrx) as (ev & self' & -> & Hinv' & He). eexists _, _. split; [reflexivity|]. done.
Qed.

(** The connections that are open after some events. *)
Definition replay_event (open : gset (N * PeerId)) (e : PoolEvent) : gset (N * PeerId) :=
  match e with
  | PE_ConnectionEstablished peer id _ _ => {[(id, peer)]} ∪ open
  | PE_ConnectionClosed id _ peer _ _ _ => open ∖ {[(id, peer)]}
  | _ => open
  end.

(** The event fits the connections that are open before it. *)
Definition event_fits (open : gset (N * PeerId)) (e : PoolEvent) : Prop :=
  match e with
  | PE_ConnectionEstablished peer id others _ => (∀ p, (id, p) ∉ open) ∧ ∀ i, i ∈ others ↔ (i, peer) ∈ open
  | PE_ConnectionClosed id _ peer _ remaining _ => (id, peer) ∈ open ∧ ∀ i, i ∈ remaining ↔ (i, peer) ∈ open ∖ {[(id, peer)]}
  | PE_ConnectionEvent peer id _ | PE_AddressChange peer id _ _ => (id, peer) ∈ open
  | PE_PendingOutboundConnectionError id _ _ _ | PE_PendingInboundConnectionError id _ _ _ _ => ∀ p, (id, p) ∉ open
  end.

Fixpoint events_fit (open : gset (N * PeerId)) (es : list PoolEvent) : Prop :=
  match es with [] => True | e :: es => event_fits open e ∧ events_fit (replay_event open e) es end.

Definition open_in (open : gset (N * PeerId)) (m : gmap PeerId (gmap N EstablishedConnectionInfo)) : Prop :=
  ∀ id peer, (id, peer) ∈ open ↔ has_connection m id peer.

Lemma event_ok_fits open m e m' : open_in open m → event_ok m e m' → event_fits open e ∧ open_in (replay_event open e) m'.
Proof.
  intros Ho. unfold open_in in *. destruct e as [peer id others errs|id ep peer err rem h|id err h peer|id a1 a2 err h|peer id ev|peer id n o]; simpl.
  - intros (H1 & H2 & H3). split; [split; [intros p; by rewrite Ho|intros i; by rewrite H2, Ho]|]. intros i p. rewrite H3, <-Ho. set_solver.
  - intros (H1 & H2 & H3). split; [split; [by apply Ho|intros i; rewrite H2, H3, <-Ho; set_solver]|]. intros i p. rewrite H3, <-Ho. set_solver.
  - intros (H1 & H3). split; [intros p; by rewrite Ho|]. intros i p. by rewrite H3.
  - intros (H1 & H3). split; [intros p; by rewrite Ho|]. intros i p. by rewrite H3.
  - intros (H1 & H3). split; [by apply Ho|]. intros i p. by rewrite H3.
  - intros (H1 & H3). split; [by apply Ho|]. intros i p. by rewrite H3.
Qed.

Lemma pool_run_spec k ops self open :
  (k + N.of_nat (length ops) < 2 ^ 32)%N → pool_inv k self → open_in open (established self) →
  ∃ es self', pool_run ops self = Ret (es, self') ∧ pool_inv (k + N.of_nat (length ops)) self' ∧
    events_fit open es ∧ open_in (foldl replay_event open es) (established self').
Proof.
  revert k self open. induction ops as [|op ops IH]; intros k self open Hk Hinv Ho.
  { exists [], self. split; [done|]. simpl. by rewrite N.add_0_r. }
  cbn [length] in Hk. destruct (pool_step_spec k op self) as (es1 & self1 & Hs & Hinv1 & Hp); [lia|done|].
  assert (events_fit open es1 ∧ open_in (foldl replay_event open es1) (established self1)) as [Hf1 Ho1].
  { destruct es1 as [|e [|]]; simpl in Hp |- *; [split; [done|]; intros i p; rewrite (Hp i p); apply Ho| |done].
    destruct (event_ok_fits _ _ _ _ Ho Hp). done. }
  destruct (IH (k + 1)%N self1 (foldl replay_event open es1)) as (es2 & self2 & Hr & Hinv2 & Hf2 & Ho2); [lia|done|done|].
  exists (es1 ++ es2), self2. simpl. rewrite Hs. simpl. rewrite Hr. split; [done|].
  split; [replace (k + N.of_nat (S (length ops)))%N with (k + 1 + N.of_nat (length ops))%N by lia; done|]. rewrite foldl_app. split; [|done].
  clear -Hf1 Hf2 Hp. destruct es1 as [|e [|]]; simpl in *; [done|tauto|done].
Qed.

(** What the pool was made with. *)
Definition pool_config (self : Pool) : PeerId * ConnectionLimits := (local_id self, cc_limits (counters self)).

Lemma update_pending_config op c (e : PendingPoint Multiaddr) c' : update_pending op c e = Ret c' → cc_limits c' = cc_limits c.
Proof. unfold update_pending. destruct e; destruct (op _); simpl; by intros [= <-]. Qed.

Lemma update_established_config op c (e : ConnectedPoint Multiaddr) c' : update_established op c e = Ret c' → cc_limits c' = cc_limits c.
Proof. unfold update_established. destruct e; destruct (op _); simpl; by intros [= <-]. Qed.

Lemma outcome_bind_inv {A B} (m : outcome A) (f : A → outcome B) b : m ≫= f = Ret b → ∃ a, m = Ret a ∧ f a = Ret b.
Proof. destruct m as [a|]; [|done]. intros Hf. by exists a. Qed.

Ltac bind_inv :=
  repeat match goal with
  | H : (_ ≫= _) = Ret _ |- _ => apply outcome_bind_inv in H as (? & ? & H)
  | H : (let '(_, _) := ?x in _) = Ret _ |- _ => destruct x
  | H : Ret _ = Ret _ |- _ => injection H as ?; subst
  end.

Lemma poll_established_config e self ev self' : poll_established e self = Ret (ev, self') → pool_config self' = pool_config self.
Proof.
  unfold poll_established. intros Hs. destruct e; bind_inv; [by case_all|done|].
  unfold pool_config. simpl. f_equal. by eapply update_established_config.
Qed.

(** The counters that an outcome carries keep the limits. *)
Ltac config :=
  repeat match goal with
  | H : inc_established _ _ = Ret _ |- _ => unfold inc_established in H
  | H : inc_pending _ _ = Ret _ |- _ => unfold inc_pending in H
  | H : dec_pending _ _ = Ret _ |- _ => unfold dec_pending in H
  | H : update_pending ?op _ _ = Ret _ |- _ => apply (update_pending_config op) in H
  | H : update_established ?op _ _ = Ret _ |- _ => apply (update_established_config op) in H
  end; unfold pool_config in *; simpl in *; try congruence.

Lemma poll_pending_config e self ev self' : poll_pending e self = Ret (ev, self') → pool_config self' = pool_config self.
Proof.
  unfold poll_pending. intros Hs. destruct e as [id [obtained muxer] o|id error].
  - bind_inv. case_match; bind_inv; config. destruct (Pool_get _ _) as [[]|]; simplify_eq. config.
  - case_match; [|by injection Hs as <- <-]. bind_inv. config.
    destruct (pi_endpoint _); destruct error; simplify_eq/=; by f_equal.
Qed.

Lemma poll_pending_loop_config es self p self' : poll_pending_loop es self = Ret (p, self') → pool_config self' = pool_config self.
Proof.
  revert self. induction es as [|e es IH]; simpl; intros self Hs; [by injection Hs as <- <-|].
  apply outcome_bind_inv in Hs as ([r self1] & Hc%poll_pending_config & Hs).
  destruct r; [injection Hs as <- <-; done|]. by rewrite (IH _ Hs).
Qed.

Lemma pool_step_config op self es self' : pool_step op self = Ret (es, self') → pool_config self' = pool_config self.
Proof.
  intros Hs. destruct op; simpl in Hs.
  - unfold add_outgoing in Hs. destruct (check_max_pending_outgoing _); bind_inv; [|done].
    config. unfold Pool_next_connection_id in *. case_decide; simplify_eq/=. congruence.
  - unfold add_incoming in Hs. destruct (check_max_pending_incoming _); bind_inv; [|done].
    config. unfold Pool_next_connection_id in *. case_decide; simplify_eq/=. congruence.
  - unfold Pool_disconnect in Hs. bind_inv. destruct (established self !! peer); bind_inv; done.
  - injection Hs as <- <-. unfold Pool_notify_handler. repeat case_match; done.
  - unfold Pool_start_close in Hs. bind_inv. repeat case_match; bind_inv; done.
  - injection Hs as <- <-. unfold task_step. repeat case_match; done.
  - unfold Pool_poll in Hs. destruct (established_connection_events_rx self) as [|e rest].
    + apply outcome_bind_inv in Hs as ([p self1] & Hc%poll_pending_loop_config & Hs). by injection Hs as <- <-.
    + bind_inv. by eapply (poll_established_config e (set_established_rx self rest)).
Qed.

Lemma pool_run_config ops self es self' : pool_run ops self = Ret (es, self') → pool_config self' = pool_config self.
Proof.
  revert self es. induction ops as [|op ops IH]; simpl; intros self es Hs; [by injection Hs as <- <-|].
  apply outcome_bind_inv in Hs as ([es1 self1] & Hc%pool_step_config & Hs).
  apply outcome_bind_inv in Hs as ([es2 self2] & Hr & Hs). injection Hs as <- <-. by rewrite (IH _ _ Hr).
Qed.

Lemma pool_run_new peer_id buffer_size limits ops :
  (N.of_nat (length ops) < 2 ^ 32)%N →
  ∃ es self, pool_run ops (Pool_new peer_id buffer_size limits) = Ret (es, self) ∧ pool_inv (N.of_nat (length ops)) self ∧
    events_fit ∅ es ∧ open_in (foldl replay_event ∅ es) (established self).
Proof.
  intros Hk. destruct (pool_run_spec 0 ops (Pool_new peer_id buffer_size limits) ∅) as (es & self & Hr); [lia|apply pool_inv_new| |eauto].
  intros id peer. split; [set_solver|]. intros (conns & Hc & _). simpl in Hc. by rewrite lookup_empty in Hc.
Qed.

(** [C39] The pool never panics, whatever the swarm and the background tasks do, and
    enforces its limits: its counters are exactly the numbers of pending and
    established connections in each direction, none of the limits is exceeded, in
    total, in one direction or for one peer, and there is never a connection to the
    local peer. *)
Theorem Pool_run_safe peer_id buffer_size limits ops :
  (N.of_nat (length ops) < 2 ^ 32)%N →
  ∃ es self, pool_run ops (Pool_new peer_id buffer_size limits) = Ret (es, self) ∧ counters_ok self ∧ limits_ok self ∧
    cc_limits (counters self) = limits ∧ is_connected self peer_id = false.
Proof.
  intros Hk. destruct (pool_run_new peer_id buffer_size limits ops Hk) as (es & self & Hr & Hinv & _).
  exists es, self. split; [done|]. split; [apply Hinv|]. split; [apply Hinv|].
  apply pool_run_config in Hr. injection Hr as Hl Hc. split; [done|].
  apply bool_decide_eq_false. rewrite <-Hl, (pv_local _ _ Hinv). by intros [].
Qed.

(** [C40] The events of the pool are a faithful account of its connections: a
    connection is reported as established only while it is not open, with exactly the
    other connections of its peer that are open; events come only from connections
    that are open, that is, established and not yet closed; an open connection is
    closed once, with exactly those that remain; an attempt is reported as failed only
    if it is not an open connection; and the pool is connected to exactly the peers
    with an open connection.  Asking for a disconnect closes no connection by itself:
    events that were sent before go on to be reported until the connection is closed. *)
Theorem Pool_events_fit peer_id buffer_size limits ops :
  (N.of_nat (length ops) < 2 ^ 32)%N →
  ∃ es self, pool_run ops (Pool_new peer_id buffer_size limits) = Ret (es, self) ∧ events_fit ∅ es ∧
    ∀ peer, is_connected self peer = true ↔ ∃ id, (id, peer) ∈ foldl replay_event ∅ es.
Proof.
  intros Hk. destruct (pool_run_new peer_id buffer_size limits ops Hk) as (es & self & Hr & Hinv & Hf & Ho).
  exists es, self. split; [done|]. split; [done|]. intros peer. unfold is_connected. rewrite bool_decide_eq_true. split.
  - intros [conns Hp]. destruct (map_choose conns (pv_nonempty _ _ Hinv _ _ Hp)) as (id & info & Hi).
    exists id. apply Ho. by exists conns.
  - intros (id & (conns & Hp & _)%Ho). by rewrite Hp.
Qed.
End pool.

(** ** A channel, and a run *)

(** A bounded channel is the list of its commands; a clone adds a slot. *)
#[export] Instance ListSenders {Cmd} : Senders (N * list Cmd) Cmd := {|
  tx_channel n := ((n + 1)%N, []);
  tx_try_send '(n, cs) c := if decide (N.of_nat (length cs) < n)%N then (Ok (), (n, cs ++ [c])) else (Err false, (n, cs));
  tx_clone_try_send '(n, cs) c := (Ok (), (n, cs ++ [c]));
|}.

#[export] Instance ListSendersSpec {Cmd} : SendersSpec (N * list Cmd) Cmd.
Proof. by intros [n cs] c e. Qed.

(** Peer 1 dials peers 2 and 3, and peer 2 dials it; one connection to a peer is
    allowed.  The first connection is closed after an event. *)
Definition sample_limits : ConnectionLimits := mkConnectionLimits (Some 1%N) None None None (Some 1%N) (Some 2%N).

Definition sample_pool_ops : list (pool_op (PeerId := N) (Multiaddr := N) (Muxer := unit) (THandler := unit) (Handler := unit)
    (InEvent := bool) (OutEvent := bool) (TransErr := unit) (ConnErr := unit)) :=
  [OpAddOutgoing (Some 2%N) () Dialer; OpAddOutgoing (Some 3%N) () Dialer; OpAddIncoming () 10%N 20%N; OpAddIncoming () 10%N 30%N;
   OpTask 0 (ActDial (DialOk 20%N (2%N, ()) [])); OpTask 1 (ActIncoming (IncomingOk (2%N, ()))); OpPoll; OpPoll;
   OpTask 0 (ActDial (DialOk 20%N (1%N, ()) [])); OpPoll;
   OpTask 0 (ActConnection (StepHandler true)); OpNotify 0 true; OpDisconnect 2%N;
   OpTask 0 (ActConnection (StepAddressChange 21%N)); OpTask 0 (ActConnection (StepClosed None ())); OpPoll; OpPoll; OpPoll; OpPoll].

(** While the first connection is open, it is the one established connection. *)
Lemma Pool_run_safe_witness :
  ∃ es self, pool_run (Tx := N * list (Command (InEvent := bool))) (take 10 sample_pool_ops) (Pool_new 1%N 8 sample_limits) = Ret (es, self) ∧
    length es = 3 ∧ established_outgoing (counters self) = N.of_nat (established_count true (established self)) ∧
    established_count true (established self) = 1 ∧ is_connected self 1%N = false.
Proof.
  destruct (Pool_run_safe (Tx := N * list (Command (InEvent := bool))) 1%N 8 sample_limits (take 10 sample_pool_ops) ltac:(vm_compute; done))
    as (es & self & Hr & Hc & _ & _ & Hl).
  exists es, self. split; [exact Hr|].
  assert (match pool_run (Tx := N * list (Command (InEvent := bool))) (take 10 sample_pool_ops) (Pool_new 1%N 8 sample_limits) with
          | Ret (es, self) => (length es, established_count true (established self)) | Panic => (0, 0) end = (3, 1)) as Hv by (vm_compute; reflexivity).
  rewrite Hr in Hv. injection Hv as Hes Hn. split; [exact Hes|]. split; [apply Hc|]. split; [exact Hn|exact Hl].
Defined.

(** At the end no connection is open. *)
Lemma Pool_events_fit_witness :
  ∃ es self, pool_run (Tx := N * list (Command (InEvent := bool))) sample_pool_ops (Pool_new 1%N 8 sample_limits) = Ret (es, self) ∧
    length es = 6 ∧ events_fit ∅ es ∧ foldl replay_event ∅ es = ∅ ∧ is_connected self 2%N = false.
Proof.
  destruct (Pool_events_fit (Tx := N * list (Command (InEvent := bool))) 1%N 8 sample_limits sample_pool_ops ltac:(vm_compute; done))
    as (es & self & Hr & Hf & Hc).
  exists es, self. split; [exact Hr|].
  assert (match pool_run (Tx := N * list (Command (InEvent := bool))) sample_pool_ops (Pool_new 1%N 8 sample_limits) with
          | Ret (es, self) => (length es, bool_decide (foldl replay_event ∅ es = ∅)) | Panic => (0, false) end = (6, true)) as Hv
    by (vm_compute; reflexivity).
  rewrite Hr in Hv. injection Hv as Hes He%bool_decide_eq_true. split; [exact Hes|]. split; [exact Hf|]. split; [exact He|].
  apply not_true_iff_false. rewrite Hc, He. intros (id & Hin). exact (not_elem_of_empty _ Hin).
Defined.

(** After [disconnect], the pool still reports an event that the connection sent before. *)
Example Pool_event_after_disconnect :
  match pool_run (Tx := N * list (Command (InEvent := bool))) (take 13 sample_pool_ops) (Pool_new 1%N 8 sample_limits) with
  | Ret (_, self) =>
      match pool_run [OpPoll] self with
      | Ret (es, _) => sample_pool_ops !! 12 = Some (OpDisconnect 2%N) ∧ es = [PE_ConnectionEvent 2%N 0%N true]
      | Panic => False
      end
  | Panic => False
  end.
Proof. vm_compute. by split. Qed.
