(* ===== verification/RequestResponse.v ===== *)
(** * Requests and responses

    [protocols/request-response/src/]: the behaviour of [lib.rs], the connection
    handler of [handler.rs] and the upgrades of [handler/protocol.rs], which run over
    the substreams of a connection.  Codecs, addresses, requests and responses are
    abstract.  The two ends of a one-shot channel share a name, and the contents of
    channels are in a store; the order in which a hash set is iterated is a
    parameter. *)

From S2P Require Import Prelude AsyncIo MsProtocol MsNegotiated SwarmPool.

(** ** Upgrade errors and keep-alive of the swarm *)

Inductive UpgradeError (E : Type) : Type :=
| Select (err : NegotiationError)
| Apply (err : E).
Arguments Select {E} err.
Arguments Apply {E} err.

Inductive ConnectionHandlerUpgrErr (E : Type) : Type :=
| UpgrTimeout
| UpgrTimer
| Upgrade (err : UpgradeError E).
Arguments UpgrTimeout {E}.
Arguments UpgrTimer {E}.
Arguments Upgrade {E} err.

Inductive KeepAlive : Type :=
| KeepAlive_Until (t : N)
| KeepAlive_Yes
| KeepAlive_No.

Definition KeepAlive_is_yes (self : KeepAlive) : bool := match self with KeepAlive_Yes => true | _ => false end.

(** ** Protocols *)

Inductive ProtocolSupport : Type := Support_Inbound | Support_Outbound | Support_Full.

Definition ProtocolSupport_inbound (self : ProtocolSupport) : bool :=
  match self with Support_Inbound | Support_Full => true | Support_Outbound => false end.
Definition ProtocolSupport_outbound (self : ProtocolSupport) : bool :=
  match self with Support_Outbound | Support_Full => true | Support_Inbound => false end.

Section request_response.
Context {PeerId Multiaddr Protocol Codec Request Response : Type} `{Countable PeerId} `{EqDecision Multiaddr}.
(** The order of iteration of a hash set of request ids. *)
Context (hash_order : gset N → list N).

Record RequestProtocol : Type := mkRequestProtocol {
  rp_codec : Codec;
  rp_protocols : list Protocol;
  rp_request_id : N;
  rp_request : Request;
}.

Record ResponseProtocol : Type := mkResponseProtocol {
  sp_codec : Codec;
  sp_protocols : list Protocol;
  sp_request_sender : N;
  sp_response_receiver : N;
  sp_request_id : N;
}.

(** The channel that carries a request to the handler, and the one that carries the
    response to the upgrade. *)
Inductive RequestChannel : Type :=
| RqOpen
| RqSent (request_id : N) (request : Request)
| RqCanceled.

Inductive ResponseChannel : Type :=
| RsOpen
| RsSent (response : Response)
| RsSenderDropped
| RsReceiverDropped.

(** ** The upgrade of an inbound substream *)

(** Where the upgrade waits: for the protocol to be negotiated and the request, for the
    response, or until the response is written, if there is one, and the substream is
    closed. *)
Inductive UpgradeInbound : Type :=
| UpReading
| UpWaiting
| UpClosing (sent : bool).

(** What it is given there; it can time out everywhere. *)
Inductive UpgradeAct : Type :=
| ActSelectError (err : NegotiationError)
| ActRead (request : Request)
| ActResponse
| ActClosed
| ActIoError (err : ErrorKind)
| ActTimeout.

(** [upgrade_inbound], after the negotiation.  It goes on, with the new contents of the
    request channel, or is done.  The receiver of the request is alive as long as the
    handler waits for it; the channel is canceled if the upgrade ends before. *)
Definition upgrade_inbound (self : ResponseProtocol) (receiver_alive : bool) (rs : option ResponseChannel) (rq : gmap N RequestChannel)
    (st : UpgradeInbound) (act : UpgradeAct) :
    outcome (gmap N RequestChannel * (UpgradeInbound + Result bool (ConnectionHandlerUpgrErr ErrorKind))) :=
  match st, act with
  | UpReading, ActRead request =>
      _ ← assert receiver_alive;
      Ret (<[sp_request_sender self := RqSent (sp_request_id self) request]> rq, inl UpWaiting)
  | UpReading, ActSelectError err => Ret (<[sp_request_sender self := RqCanceled]> rq, inr (Err (Upgrade (Select err))))
  | UpReading, ActIoError err => Ret (<[sp_request_sender self := RqCanceled]> rq, inr (Err (Upgrade (Apply err))))
  | UpReading, ActTimeout => Ret (<[sp_request_sender self := RqCanceled]> rq, inr (Err UpgrTimeout))
  | UpWaiting, ActResponse =>
      match rs with
      | Some (RsSent _) => Ret (rq, inl (UpClosing true))
      | Some RsSenderDropped => Ret (rq, inl (UpClosing false))
      | _ => Ret (rq, inl UpWaiting)
      end
  | UpWaiting, ActTimeout => Ret (rq, inr (Err UpgrTimeout))
  | UpClosing sent, ActClosed => Ret (rq, inr (Ok sent))
  | UpClosing _, ActIoError err => Ret (rq, inr (Err (Upgrade (Apply err))))
  | UpClosing _, ActTimeout => Ret (rq, inr (Err UpgrTimeout))
  | _, _ => Ret (rq, inl st)
  end.

(** ** The connection handler *)

Inductive RequestResponseHandlerEvent : Type :=
| HE_Request (request_id : N) (request : Request) (sender : N)
| HE_Response (request_id : N) (response : Response)
| HE_ResponseSent (request_id : N)
| HE_ResponseOmission (request_id : N)
| HE_OutboundTimeout (request_id : N)
| HE_OutboundUnsupportedProtocols (request_id : N)
| HE_InboundTimeout (request_id : N)
| HE_InboundUnsupportedProtocols (request_id : N).

Record RequestResponseHandler : Type := mkHandler {
  rh_inbound_protocols : list Protocol;
  rh_codec : Codec;
  rh_keep_alive_timeout : N;
  rh_substream_timeout : N;
  rh_keep_alive : KeepAlive;
  rh_pending_error : option (ConnectionHandlerUpgrErr ErrorKind);
  rh_pending_events : list RequestResponseHandlerEvent;
  rh_outbound : list RequestProtocol;
  (** The receiver of a request with the sender of its response. *)
  rh_inbound : list (N * N);
}.

Definition RequestResponseHandler_new (inbound_protocols : list Protocol) (codec : Codec) (keep_alive_timeout substream_timeout : N) :
    RequestResponseHandler :=
  mkHandler inbound_protocols codec keep_alive_timeout substream_timeout KeepAlive_Yes None [] [] [].

Definition set_keep_alive (self : RequestResponseHandler) (k : KeepAlive) : RequestResponseHandler :=
  mkHandler (rh_inbound_protocols self) (rh_codec self) (rh_keep_alive_timeout self) (rh_substream_timeout self) k
    (rh_pending_error self) (rh_pending_events self) (rh_outbound self) (rh_inbound self).
Definition set_pending_error (self : RequestResponseHandler) (e : option (ConnectionHandlerUpgrErr ErrorKind)) : RequestResponseHandler :=
  mkHandler (rh_inbound_protocols self) (rh_codec self) (rh_keep_alive_timeout self) (rh_substream_timeout self) (rh_keep_alive self)
    e (rh_pending_events self) (rh_outbound self) (rh_inbound self).
Definition set_pending_events (self : RequestResponseHandler) (l : list RequestResponseHandlerEvent) : RequestResponseHandler :=
  mkHandler (rh_inbound_protocols self) (rh_codec self) (rh_keep_alive_timeout self) (rh_substream_timeout self) (rh_keep_alive self)
    (rh_pending_error self) l (rh_outbound self) (rh_inbound self).
Definition set_outbound (self : RequestResponseHandler) (l : list RequestProtocol) : RequestResponseHandler :=
  mkHandler (rh_inbound_protocols self) (rh_codec self) (rh_keep_alive_timeout self) (rh_substream_timeout self) (rh_keep_alive self)
    (rh_pending_error self) (rh_pending_events self) l (rh_inbound self).
Definition set_inbound (self : RequestResponseHandler) (l : list (N * N)) : RequestResponseHandler :=
  mkHandler (rh_inbound_protocols self) (rh_codec self) (rh_keep_alive_timeout self) (rh_substream_timeout self) (rh_keep_alive self)
    (rh_pending_error self) (rh_pending_events self) (rh_outbound self) l.

Definition push_event (self : RequestResponseHandler) (e : RequestResponseHandlerEvent) : RequestResponseHandler :=
  set_pending_events self (rh_pending_events self ++ [e]).

(** The counter of inbound requests is shared by all handlers; [rq] and [rs] are the
    names of new channels.  The result is the upgrade, its request id and its timeout. *)
Definition listen_protocol (self : RequestResponseHandler) (inbound_request_id rq rs : N) :
    (ResponseProtocol * N * N) * N * RequestResponseHandler :=
  let request_id := inbound_request_id in
  let proto := mkResponseProtocol (rh_codec self) (rh_inbound_protocols self) rq rs request_id in
  ((proto, request_id, rh_substream_timeout self), usize_wrapping_add inbound_request_id 1, set_inbound self (rh_inbound self ++ [(rq, rs)])).

Definition RequestResponseHandler_inject_fully_negotiated_inbound (self : RequestResponseHandler) (sent : bool) (request_id : N) : RequestResponseHandler :=
  if sent then push_event self (HE_ResponseSent request_id) else push_event self (HE_ResponseOmission request_id).

Definition RequestResponseHandler_inject_fully_negotiated_outbound (self : RequestResponseHandler) (response : Response) (request_id : N) : RequestResponseHandler :=
  push_event self (HE_Response request_id response).

Definition RequestResponseHandler_inject_event (self : RequestResponseHandler) (request : RequestProtocol) : RequestResponseHandler :=
  let self := set_keep_alive self KeepAlive_Yes in set_outbound self (rh_outbound self ++ [request]).

Definition inject_dial_upgrade_error (self : RequestResponseHandler) (info : N) (error : ConnectionHandlerUpgrErr ErrorKind) :
    RequestResponseHandler :=
  match error with
  | UpgrTimeout => push_event self (HE_OutboundTimeout info)
  | Upgrade (Select NegotiationFailed) => push_event self (HE_OutboundUnsupportedProtocols info)
  | _ => set_pending_error self (Some error)
  end.

Definition inject_listen_upgrade_error (self : RequestResponseHandler) (info : N) (error : ConnectionHandlerUpgrErr ErrorKind) :
    RequestResponseHandler :=
  match error with
  | UpgrTimeout => push_event self (HE_InboundTimeout info)
  | Upgrade (Select NegotiationFailed) => push_event self (HE_InboundUnsupportedProtocols info)
  | _ => set_pending_error self (Some error)
  end.

Inductive ConnectionHandlerEvent : Type :=
| HandlerClose (err : ConnectionHandlerUpgrErr ErrorKind)
| HandlerCustom (event : RequestResponseHandlerEvent)
| OutboundSubstreamRequest (protocol : RequestProtocol) (info : N) (timeout : N).

(** The loop over the inbound requests that are ready; [kept] are those that are not. *)
Fixpoint poll_inbound (rq : gmap N RequestChannel) (kept inbound : list (N * N)) : option (N * Request * N) * list (N * N) :=
  match inbound with
  | [] => (None, kept)
  | (receiver, sender) :: inbound =>
      match rq !! receiver with
      | Some (RqSent id request) => (Some (id, request, sender), kept ++ inbound)
      | Some RqCanceled => poll_inbound rq kept inbound
      | _ => poll_inbound rq (kept ++ [(receiver, sender)]) inbound
      end
  end.

Definition RequestResponseHandler_poll (rq : gmap N RequestChannel) (now : N) (self : RequestResponseHandler) :
    Poll ConnectionHandlerEvent * RequestResponseHandler :=
  match rh_pending_error self with
  | Some err => (Ready (HandlerClose err), set_pending_error self None)
  | None =>
      match rh_pending_events self with
      | event :: events => (Ready (HandlerCustom event), set_pending_events self events)
      | [] =>
          let '(r, inbound) := poll_inbound rq [] (rh_inbound self) in
          let self := set_inbound self inbound in
          match r with
          | Some (id, request, sender) =>
              (Ready (HandlerCustom (HE_Request id request sender)), set_keep_alive self KeepAlive_Yes)
          | None =>
              match rh_outbound self with
              | request :: requests =>
                  (Ready (OutboundSubstreamRequest request (rp_request_id request) (rh_substream_timeout self)), set_outbound self requests)
              | [] =>
                  if bool_decide (rh_inbound self = []) && KeepAlive_is_yes (rh_keep_alive self) then
                    (Pending, set_keep_alive self (KeepAlive_Until (now + rh_substream_timeout self + rh_keep_alive_timeout self)))
                  else (Pending, self)
              end
          end
      end
  end.

(** ** The behaviour *)

Inductive RequestResponseMessage : Type :=
| Message_Request (request_id : N) (request : Request) (channel : N)
| Message_Response (request_id : N) (response : Response).

Inductive OutboundFailure : Type := OF_DialFailure | OF_Timeout | OF_ConnectionClosed | OF_UnsupportedProtocols.
Inductive InboundFailure : Type := IF_Timeout | IF_ConnectionClosed | IF_UnsupportedProtocols | IF_ResponseOmission.

Inductive RequestResponseEvent : Type :=
| RE_Message (peer : PeerId) (message : RequestResponseMessage)
| RE_OutboundFailure (peer : PeerId) (request_id : N) (error : OutboundFailure)
| RE_InboundFailure (peer : PeerId) (request_id : N) (error : InboundFailure)
| RE_ResponseSent (peer : PeerId) (request_id : N).

Inductive NetworkBehaviourAction : Type :=
| Dial (peer : PeerId) (handler : RequestResponseHandler)
| NotifyHandler (peer : PeerId) (connection : N) (event : RequestProtocol)
| GenerateEvent (event : RequestResponseEvent).

Record Connection : Type := mkConnection {
  rc_id : N;
  rc_address : option Multiaddr;
  pending_outbound_responses : gset N;
  pending_inbound_responses : gset N;
}.

Definition Connection_new (id : N) (address : option Multiaddr) : Connection := mkConnection id address ∅ ∅.

Record RequestResponseConfig : Type := mkRequestResponseConfig { request_timeout : N; connection_keep_alive : N }.

Record RequestResponse : Type := mkRequestResponse {
  rr_inbound_protocols : list Protocol;
  rr_outbound_protocols : list Protocol;
  next_request_id : N;
  next_inbound_id : N;
  rr_config : RequestResponseConfig;
  rr_codec : Codec;
  rr_pending_events : list NetworkBehaviourAction;
  connected : gmap PeerId (list Connection);
  rr_addresses : gmap PeerId (list Multiaddr);
  pending_outbound_requests : gmap PeerId (list RequestProtocol);
}.

Definition RequestResponse_new (codec : Codec) (protocols : list (Protocol * ProtocolSupport)) (cfg : RequestResponseConfig) : RequestResponse :=
  mkRequestResponse (filter (λ x, ProtocolSupport_inbound x.2) protocols).*1 (filter (λ x, ProtocolSupport_outbound x.2) protocols).*1
    1 1 cfg codec [] ∅ ∅ ∅.

Definition set_next_request_id (self : RequestResponse) (n : N) : RequestResponse :=
  mkRequestResponse (rr_inbound_protocols self) (rr_outbound_protocols self) n (next_inbound_id self) (rr_config self) (rr_codec self)
    (rr_pending_events self) (connected self) (rr_addresses self) (pending_outbound_requests self).
Definition set_next_inbound_id (self : RequestResponse) (n : N) : RequestResponse :=
  mkRequestResponse (rr_inbound_protocols self) (rr_outbound_protocols self) (next_request_id self) n (rr_config self) (rr_codec self)
    (rr_pending_events self) (connected self) (rr_addresses self) (pending_outbound_requests self).
Definition set_rr_events (self : RequestResponse) (l : list NetworkBehaviourAction) : RequestResponse :=
  mkRequestResponse (rr_inbound_protocols self) (rr_outbound_protocols self) (next_request_id self) (next_inbound_id self) (rr_config self) (rr_codec self)
    l (connected self) (rr_addresses self) (pending_outbound_requests self).
Definition set_connected (self : RequestResponse) (m : gmap PeerId (list Connection)) : RequestResponse :=
  mkRequestResponse (rr_inbound_protocols self) (rr_outbound_protocols self) (next_request_id self) (next_inbound_id self) (rr_config self) (rr_codec self)
    (rr_pending_events self) m (rr_addresses self) (pending_outbound_requests self).
Definition set_addresses (self : RequestResponse) (m : gmap PeerId (list Multiaddr)) : RequestResponse :=
  mkRequestResponse (rr_inbound_protocols self) (rr_outbound_protocols self) (next_request_id self) (next_inbound_id self) (rr_config self) (rr_codec self)
    (rr_pending_events self) (connected self) m (pending_outbound_requests self).
Definition set_pending_requests (self : RequestResponse) (m : gmap PeerId (list RequestProtocol)) : RequestResponse :=
  mkRequestResponse (rr_inbound_protocols self) (rr_outbound_protocols self) (next_request_id self) (next_inbound_id self) (rr_config self) (rr_codec self)
    (rr_pending_events self) (connected self) (rr_addresses self) m.

Definition push_action (self : RequestResponse) (a : NetworkBehaviourAction) : RequestResponse := set_rr_events self (rr_pending_events self ++ [a]).
Definition generate (self : RequestResponse) (e : RequestResponseEvent) : RequestResponse := push_action self (GenerateEvent e).

Definition RequestResponse_new_handler (self : RequestResponse) : RequestResponseHandler :=
  RequestResponseHandler_new (rr_inbound_protocols self) (rr_codec self) (connection_keep_alive (rr_config self)) (request_timeout (rr_config self)).

(** Request ids are of 64 bits. *)
Definition RequestResponse_next_request_id (self : RequestResponse) : outcome (N * RequestResponse) :=
  let request_id := next_request_id self in
  if decide (request_id + 1 < 2 ^ 64)%N then Ret (request_id, set_next_request_id self (request_id + 1)) else Panic.

(** The request is returned if the peer is not connected. *)
Definition try_send_request (self : RequestResponse) (peer : PeerId) (request : RequestProtocol) :
    outcome (option RequestProtocol * RequestResponse) :=
  match connected self !! peer with
  | Some connections =>
      if decide (connections = []) then Ret (Some request, self)
      else
        let ix := N.to_nat (rp_request_id request mod N.of_nat (length connections)) in
        conn ← vec_index connections ix;
        let conn' := mkConnection (rc_id conn) (rc_address conn) (pending_outbound_responses conn)
                       ({[rp_request_id request]} ∪ pending_inbound_responses conn) in
        let self := set_connected self (<[peer := <[ix := conn']> connections]> (connected self)) in
        Ret (None, push_action self (NotifyHandler peer (rc_id conn) request))
  | None => Ret (Some request, self)
  end.

Definition send_request (self : RequestResponse) (peer : PeerId) (request : Request) : outcome (N * RequestResponse) :=
  '(request_id, self) ← RequestResponse_next_request_id self;
  let request := mkRequestProtocol (rr_codec self) (rr_outbound_protocols self) request_id request in
  '(r, self) ← try_send_request self peer request;
  match r with
  | Some request =>
      let handler := RequestResponse_new_handler self in
      let self := push_action self (Dial peer handler) in
      Ret (request_id,
           set_pending_requests self (<[peer := default [] (pending_outbound_requests self !! peer) ++ [request]]> (pending_outbound_requests self)))
  | None => Ret (request_id, self)
  end.

(** The response is returned if the upgrade does not wait for it any more. *)
Definition send_response (rs : gmap N ResponseChannel) (ch : N) (response : Response) : Result unit Response * gmap N ResponseChannel :=
  match rs !! ch with
  | Some RsOpen => (Ok (), <[ch := RsSent response]> rs)
  | _ => (Err response, rs)
  end.

Definition add_address (self : RequestResponse) (peer : PeerId) (address : Multiaddr) : RequestResponse :=
  set_addresses self (<[peer := default [] (rr_addresses self !! peer) ++ [address]]> (rr_addresses self)).

Definition remove_address (self : RequestResponse) (peer : PeerId) (address : Multiaddr) : RequestResponse :=
  match rr_addresses self !! peer with
  | Some addresses =>
      let addresses := filter (λ a, a ≠ address) addresses in
      if decide (addresses = []) then set_addresses self (delete peer (rr_addresses self))
      else set_addresses self (<[peer := addresses]> (rr_addresses self))
  | None => self
  end.

Definition RequestResponse_is_connected (self : RequestResponse) (peer : PeerId) : bool :=
  match connected self !! peer with Some connections => negb (bool_decide (connections = [])) | None => false end.

Definition is_pending_outbound (self : RequestResponse) (peer : PeerId) (request_id : N) : bool :=
  map_or false (existsb (λ c, bool_decide (request_id ∈ pending_inbound_responses c))) (connected self !! peer)
  || map_or false (existsb (λ rp, bool_decide (rp_request_id rp = request_id))) (pending_outbound_requests self !! peer).

Definition is_pending_inbound (self : RequestResponse) (peer : PeerId) (request_id : N) : bool :=
  map_or false (existsb (λ c, bool_decide (request_id ∈ pending_outbound_responses c))) (connected self !! peer).

Definition RequestResponse_addresses_of_peer (self : RequestResponse) (peer : PeerId) : list Multiaddr :=
  omap rc_address (default [] (connected self !! peer)) ++ default [] (rr_addresses self !! peer).

(** [get_connection_mut]: the connection is changed by [f], which also gives a result. *)
Definition get_connection_mut {A} (self : RequestResponse) (peer : PeerId) (connection : N) (f : Connection → A * Connection) :
    option A * RequestResponse :=
  match connected self !! peer with
  | Some connections =>
      match list_find (λ c, rc_id c = connection) connections with
      | Some (i, c) => let '(a, c) := f c in (Some a, set_connected self (<[peer := <[i := c]> connections]> (connected self)))
      | None => (None, self)
      end
  | None => (None, self)
  end.

Definition remove_pending_outbound_response (self : RequestResponse) (peer : PeerId) (connection request : N) : bool * RequestResponse :=
  let '(r, self) :=
    get_connection_mut self peer connection
      (λ c, (bool_decide (request ∈ pending_outbound_responses c),
             mkConnection (rc_id c) (rc_address c) (pending_outbound_responses c ∖ {[request]}) (pending_inbound_responses c))) in
  (default false r, self).

Definition remove_pending_inbound_response (self : RequestResponse) (peer : PeerId) (connection request : N) : bool * RequestResponse :=
  let '(r, self) :=
    get_connection_mut self peer connection
      (λ c, (bool_decide (request ∈ pending_inbound_responses c),
             mkConnection (rc_id c) (rc_address c) (pending_outbound_responses c) (pending_inbound_responses c ∖ {[request]}))) in
  (default false r, self).

Definition dialed_address (endpoint : ConnectedPoint Multiaddr) : option Multiaddr :=
  match endpoint with ConnectedDialer address _ => Some address | ConnectedListener _ _ => None end.

Definition RequestResponse_inject_address_change (self : RequestResponse) (peer : PeerId) (conn : N) (new : ConnectedPoint Multiaddr) :
    outcome RequestResponse :=
  let '(r, self) :=
    get_connection_mut self peer conn
      (λ c, ((), mkConnection (rc_id c) (dialed_address new) (pending_outbound_responses c) (pending_inbound_responses c))) in
  _ ← expect r; Ret self.

(** Sends the requests that were waiting for a connection. *)
Fixpoint send_pending (self : RequestResponse) (peer : PeerId) (pending : list RequestProtocol) : outcome RequestResponse :=
  match pending with
  | [] => Ret self
  | request :: pending =>
      '(request, self) ← try_send_request self peer request;
      _ ← assert (bool_decide (request = None));
      send_pending self peer pending
  end.

Definition RequestResponse_inject_connection_established (self : RequestResponse) (peer : PeerId) (conn : N)
    (endpoint : ConnectedPoint Multiaddr) (other_established : nat) : outcome RequestResponse :=
  let self := set_connected self
    (<[peer := default [] (connected self !! peer) ++ [Connection_new conn (dialed_address endpoint)]]> (connected self)) in
  if decide (other_established = 0) then
    match pending_outbound_requests self !! peer with
    | Some pending => send_pending (set_pending_requests self (delete peer (pending_outbound_requests self))) peer pending
    | None => Ret self
    end
  else Ret self.

Definition RequestResponse_inject_connection_closed (self : RequestResponse) (peer_id : PeerId) (conn : N) (remaining_established : nat) :
    outcome RequestResponse :=
  connections ← expect (connected self !! peer_id);
  '(p, connection) ← expect (list_find (λ c, rc_id c = conn) connections);
  let connections := delete p connections in
  _ ← assert (eqb (bool_decide (connections = [])) (bool_decide (remaining_established = 0)));
  let self := set_connected self
    (if decide (connections = []) then delete peer_id (connected self) else <[peer_id := connections]> (connected self)) in
  let self := foldl (λ self id, generate self (RE_InboundFailure peer_id id IF_ConnectionClosed)) self
                (hash_order (pending_outbound_responses connection)) in
  Ret (foldl (λ self id, generate self (RE_OutboundFailure peer_id id OF_ConnectionClosed)) self
         (hash_order (pending_inbound_responses connection))).

Definition RequestResponse_inject_dial_failure (self : RequestResponse) (peer : option PeerId) : RequestResponse :=
  match peer with
  | Some peer =>
      match pending_outbound_requests self !! peer with
      | Some pending =>
          foldl (λ self request, generate self (RE_OutboundFailure peer (rp_request_id request) OF_DialFailure))
            (set_pending_requests self (delete peer (pending_outbound_requests self))) pending
      | None => self
      end
  | None => self
  end.

Definition RequestResponse_inject_event (self : RequestResponse) (peer : PeerId) (connection : N) (event : RequestResponseHandlerEvent) :
    outcome RequestResponse :=
  match event with
  | HE_Response request_id response =>
      let '(removed, self) := remove_pending_inbound_response self peer connection request_id in
      _ ← assert removed;
      Ret (generate self (RE_Message peer (Message_Response request_id response)))
  | HE_Request request_id request sender =>
      let self := generate self (RE_Message peer (Message_Request request_id request sender)) in
      let '(r, self) :=
        get_connection_mut self peer connection
          (λ c, (negb (bool_decide (request_id ∈ pending_outbound_responses c)),
                 mkConnection (rc_id c) (rc_address c) ({[request_id]} ∪ pending_outbound_responses c) (pending_inbound_responses c))) in
      match r with
      | Some inserted => _ ← assert inserted; Ret self
      | None => Ret (generate self (RE_InboundFailure peer request_id IF_ConnectionClosed))
      end
  | HE_ResponseSent request_id =>
      let '(removed, self) := remove_pending_outbound_response self peer connection request_id in
      _ ← assert removed;
      Ret (generate self (RE_ResponseSent peer request_id))
  | HE_ResponseOmission request_id =>
      let '(removed, self) := remove_pending_outbound_response self peer connection request_id in
      _ ← assert removed;
      Ret (generate self (RE_InboundFailure peer request_id IF_ResponseOmission))
  | HE_OutboundTimeout request_id =>
      let '(removed, self) := remove_pending_inbound_response self peer connection request_id in
      _ ← assert removed;
      Ret (generate self (RE_OutboundFailure peer request_id OF_Timeout))
  | HE_InboundTimeout request_id =>
      let '(_, self) := remove_pending_outbound_response self peer connection request_id in
      Ret (generate self (RE_InboundFailure peer request_id IF_Timeout))
  | HE_OutboundUnsupportedProtocols request_id =>
      let '(removed, self) := remove_pending_inbound_response self peer connection request_id in
      _ ← assert removed;
      Ret (generate self (RE_OutboundFailure peer request_id OF_UnsupportedProtocols))
  | HE_InboundUnsupportedProtocols request_id =>
      Ret (generate self (RE_InboundFailure peer request_id IF_UnsupportedProtocols))
  end.

Definition RequestResponse_poll (self : RequestResponse) : Poll NetworkBehaviourAction * RequestResponse :=
  match rr_pending_events self with
  | ev :: events => (Ready ev, set_rr_events self events)
  | [] => (Pending, self)
  end.
End request_response.
