(* ===== verification/RequestResponseSystem.v ===== *)
(** * Requests and responses in a system

    The behaviour of [RequestResponse] with the connections of the swarm, their
    handlers and upgrades, under any schedule.  What the remote does on a substream,
    when it times out, when connections are made, fail or close, and what the user of
    the behaviour does is arbitrary.  A command of the behaviour reaches the handler
    of its connection, and an event of a handler the behaviour, in order and some time
    later; a connection is closed after its events. *)

From S2P Require Import Prelude AsyncIo MsProtocol MsNegotiated SwarmPool RequestResponse.

Section system.
Context {PeerId Multiaddr Protocol Codec Request Response : Type} `{Countable PeerId} `{EqDecision Multiaddr}.
Context (hash_order : gset N → list N).

#[local] Abbreviation Behaviour := (@RequestResponse PeerId Multiaddr Protocol Codec Request Response _ _).
#[local] Abbreviation Handler := (@RequestResponseHandler Protocol Codec Request Response).
#[local] Abbreviation HandlerEvent := (@RequestResponseHandlerEvent Request Response).
#[local] Abbreviation OutRequest := (@RequestProtocol Protocol Codec Request).
#[local] Abbreviation InProtocol := (@ResponseProtocol Protocol Codec).
#[local] Abbreviation Event := (@RequestResponseEvent PeerId Request Response).
#[local] Abbreviation Action := (@NetworkBehaviourAction PeerId Protocol Codec Request Response).
#[local] Abbreviation UpgrErr := (ConnectionHandlerUpgrErr ErrorKind).

(** ** The system *)

(** A connection with the commands that its handler has not got yet, the events that
    the behaviour has not got yet, and the substreams that are being upgraded, inbound
    ones by their request id. *)
Record Conn : Type := mkConn {
  cn_peer : PeerId;
  cn_handler : Handler;
  cn_commands : list OutRequest;
  cn_events : list HandlerEvent;
  negotiating_out : list OutRequest;
  negotiating_in : gmap N (InProtocol * UpgradeInbound);
}.

Record System : Type := mkSystem {
  sy_behaviour : Behaviour;
  sy_conns : gmap N Conn;
  sy_next_conn : N;
  sy_rq : gmap N (@RequestChannel Request);
  sy_rs : gmap N (@ResponseChannel Response);
  (** Peers that are being dialed for the behaviour. *)
  sy_dials : list PeerId;
  (** The requests that were sent, and the events that were reported. *)
  sy_sent : list (N * PeerId);
  sy_log : list Event;
}.

Definition System_new (b : Behaviour) : System := mkSystem b ∅ 0 ∅ ∅ [] [] [].

Definition set_behaviour (s : System) (b : Behaviour) : System :=
  mkSystem b (sy_conns s) (sy_next_conn s) (sy_rq s) (sy_rs s) (sy_dials s) (sy_sent s) (sy_log s).
Definition set_conns (s : System) (m : gmap N Conn) : System :=
  mkSystem (sy_behaviour s) m (sy_next_conn s) (sy_rq s) (sy_rs s) (sy_dials s) (sy_sent s) (sy_log s).
Definition set_rq (s : System) (m : gmap N (@RequestChannel Request)) : System :=
  mkSystem (sy_behaviour s) (sy_conns s) (sy_next_conn s) m (sy_rs s) (sy_dials s) (sy_sent s) (sy_log s).
Definition set_rs (s : System) (m : gmap N (@ResponseChannel Response)) : System :=
  mkSystem (sy_behaviour s) (sy_conns s) (sy_next_conn s) (sy_rq s) m (sy_dials s) (sy_sent s) (sy_log s).
Definition set_dials (s : System) (l : list PeerId) : System :=
  mkSystem (sy_behaviour s) (sy_conns s) (sy_next_conn s) (sy_rq s) (sy_rs s) l (sy_sent s) (sy_log s).
Definition set_conn (s : System) (k : N) (cn : Conn) : System := set_conns s (<[k := cn]> (sy_conns s)).

Definition set_handler (cn : Conn) (h : Handler) : Conn :=
  mkConn (cn_peer cn) h (cn_commands cn) (cn_events cn) (negotiating_out cn) (negotiating_in cn).

(** The channels of which the user got the sending end. *)
Definition requested (e : Event) : option N :=
  match e with RE_Message _ (Message_Request _ _ channel) => Some channel | _ => None end.

(** The number of connections to a peer. *)
Definition connections_to (m : gmap N Conn) (peer : PeerId) : nat := map_count (λ x, cn_peer x.2 = peer) m.

(** One of the dials of a peer is answered. *)
Definition answer_dial (peer : PeerId) (l : list PeerId) : list PeerId :=
  match list_find (λ p, p = peer) l with Some (i, _) => delete i l | None => l end.

(** The receivers of the responses to inbound requests are dropped. *)
Definition drop_receiver (id : N) (rs : gmap N (@ResponseChannel Response)) : gmap N (@ResponseChannel Response) :=
  <[id := RsReceiverDropped]> rs.

Inductive rr_op : Type :=
| OpSendRequest (peer : PeerId) (request : Request)
| OpSendResponse (ch : N) (response : Response)
| OpDropChannel (ch : N)
| OpAddAddress (peer : PeerId) (address : Multiaddr)
| OpRemoveAddress (peer : PeerId) (address : Multiaddr)
| OpPoll
| OpEstablished (peer : PeerId) (endpoint : ConnectedPoint Multiaddr) (dialed : bool)
| OpAddressChange (k : N) (endpoint : ConnectedPoint Multiaddr)
| OpClosed (k : N)
| OpDialFailure (peer : option PeerId)
| OpCommand (k : N)
| OpHandlerPoll (k : N) (now : N) (order : list (N * N))
| OpOutbound (k : N) (i : nat) (r : Result Response UpgrErr)
| OpInboundSubstream (k : N)
| OpInbound (k : N) (id : N) (act : @UpgradeAct Request)
| OpEvent (k : N).

(** The behaviour is polled. *)
Definition step_poll (s : System) : System :=
  match RequestResponse_poll (sy_behaviour s) with
  | (Ready (GenerateEvent e), b) =>
      mkSystem b (sy_conns s) (sy_next_conn s) (sy_rq s) (sy_rs s) (sy_dials s) (sy_sent s) (sy_log s ++ [e])
  | (Ready (Dial peer _), b) => set_dials (set_behaviour s b) (sy_dials s ++ [peer])
  | (Ready (NotifyHandler _ k request), b) =>
      let s := set_behaviour s b in
      match sy_conns s !! k with
      | Some cn => set_conn s k (mkConn (cn_peer cn) (cn_handler cn) (cn_commands cn ++ [request]) (cn_events cn) (negotiating_out cn) (negotiating_in cn))
      | None => s
      end
  | (Pending, b) => set_behaviour s b
  end.

Definition step_established (s : System) (peer : PeerId) (endpoint : ConnectedPoint Multiaddr) (dialed : bool) : outcome System :=
  let k := sy_next_conn s in
  b ← RequestResponse_inject_connection_established (sy_behaviour s) peer k endpoint (connections_to (sy_conns s) peer);
  let cn := mkConn peer (RequestResponse_new_handler b) [] [] [] ∅ in
  Ret (mkSystem b (<[k := cn]> (sy_conns s)) (k + 1) (sy_rq s) (sy_rs s) (if dialed then answer_dial peer (sy_dials s) else sy_dials s)
         (sy_sent s) (sy_log s)).

Definition step_closed (s : System) (k : N) (cn : Conn) : outcome System :=
  let conns := delete k (sy_conns s) in
  b ← RequestResponse_inject_connection_closed hash_order (sy_behaviour s) (cn_peer cn) k (connections_to conns (cn_peer cn));
  let rs := foldr drop_receiver (sy_rs s) (sp_response_receiver <$> (map_to_list (negotiating_in cn)).*2.*1) in
  Ret (set_rs (set_conns (set_behaviour s b) conns) rs).

(** The handler is polled; the order of its inbound requests does not matter. *)
Definition step_handler_poll (s : System) (k : N) (cn : Conn) (now : N) (order : list (N * N)) : System :=
  let h := if decide (order ≡ₚ rh_inbound (cn_handler cn)) then set_inbound (cn_handler cn) order else cn_handler cn in
  match RequestResponseHandler_poll (sy_rq s) now h with
  | (Ready (HandlerCustom event), h) =>
      set_conn s k (mkConn (cn_peer cn) h (cn_commands cn) (cn_events cn ++ [event]) (negotiating_out cn) (negotiating_in cn))
  | (Ready (OutboundSubstreamRequest request _ _), h) =>
      set_conn s k (mkConn (cn_peer cn) h (cn_commands cn) (cn_events cn) (negotiating_out cn ++ [request]) (negotiating_in cn))
  | (Ready (HandlerClose _), h) | (Pending, h) => set_conn s k (set_handler cn h)
  end.

Definition step_outbound (s : System) (k : N) (cn : Conn) (i : nat) (r : Result Response UpgrErr) : System :=
  match negotiating_out cn !! i with
  | Some request =>
      let h := match r with
               | Ok response => RequestResponseHandler_inject_fully_negotiated_outbound (cn_handler cn) response (rp_request_id request)
               | Err err => inject_dial_upgrade_error (cn_handler cn) (rp_request_id request) err
               end in
      set_conn s k (mkConn (cn_peer cn) h (cn_commands cn) (cn_events cn) (delete i (negotiating_out cn)) (negotiating_in cn))
  | None => s
  end.

(** A remote opens a substream; the channels are named by the request id. *)
Definition step_inbound_substream (s : System) (k : N) (cn : Conn) : System :=
  let id := next_inbound_id (sy_behaviour s) in
  let '((proto, request_id, _), next, h) := listen_protocol (cn_handler cn) id id id in
  let cn := mkConn (cn_peer cn) h (cn_commands cn) (cn_events cn) (negotiating_out cn) (<[request_id := (proto, UpReading)]> (negotiating_in cn)) in
  mkSystem (set_next_inbound_id (sy_behaviour s) next) (<[k := cn]> (sy_conns s)) (sy_next_conn s)
    (<[id := RqOpen]> (sy_rq s)) (<[id := RsOpen]> (sy_rs s)) (sy_dials s) (sy_sent s) (sy_log s).

Definition step_inbound (s : System) (k : N) (cn : Conn) (id : N) (act : @UpgradeAct Request) : outcome System :=
  match negotiating_in cn !! id with
  | Some (proto, st) =>
      '(rq, r) ← upgrade_inbound proto (bool_decide (sp_request_sender proto ∈ (rh_inbound (cn_handler cn)).*1))
                   (sy_rs s !! sp_response_receiver proto) (sy_rq s) st act;
      let s := set_rq s rq in
      match r with
      | inl st =>
          Ret (set_conn s k (mkConn (cn_peer cn) (cn_handler cn) (cn_commands cn) (cn_events cn) (negotiating_out cn)
                               (<[id := (proto, st)]> (negotiating_in cn))))
      | inr r =>
          let h := match r with
                   | Ok sent => RequestResponseHandler_inject_fully_negotiated_inbound (cn_handler cn) sent id
                   | Err err => inject_listen_upgrade_error (cn_handler cn) id err
                   end in
          let s := set_rs s (drop_receiver (sp_response_receiver proto) (sy_rs s)) in
          Ret (set_conn s k (mkConn (cn_peer cn) h (cn_commands cn) (cn_events cn) (negotiating_out cn) (delete id (negotiating_in cn))))
      end
  | None => Ret s
  end.

Definition step_event (s : System) (k : N) (cn : Conn) : outcome System :=
  match cn_events cn with
  | event :: events =>
      b ← RequestResponse_inject_event (sy_behaviour s) (cn_peer cn) k event;
      Ret (set_conn (set_behaviour s b) k (mkConn (cn_peer cn) (cn_handler cn) (cn_commands cn) events (negotiating_out cn) (negotiating_in cn)))
  | [] => Ret s
  end.

(** A step of a connection that is there. *)
Definition on_conn (s : System) (k : N) (f : Conn → outcome System) : outcome System :=
  match sy_conns s !! k with Some cn => f cn | None => Ret s end.

Definition rr_step (op : rr_op) (s : System) : outcome System :=
  match op with
  | OpSendRequest peer request =>
      '(id, b) ← send_request (sy_behaviour s) peer request;
      Ret (mkSystem b (sy_conns s) (sy_next_conn s) (sy_rq s) (sy_rs s) (sy_dials s) (sy_sent s ++ [(id, peer)]) (sy_log s))
  | OpSendResponse ch response =>
      Ret (if decide (ch ∈ omap requested (sy_log s)) then set_rs s (send_response (sy_rs s) ch response).2 else s)
  | OpDropChannel ch =>
      Ret (if decide (ch ∈ omap requested (sy_log s)) then
             match sy_rs s !! ch with Some RsOpen => set_rs s (<[ch := RsSenderDropped]> (sy_rs s)) | _ => s end
           else s)
  | OpAddAddress peer address => Ret (set_behaviour s (add_address (sy_behaviour s) peer address))
  | OpRemoveAddress peer address => Ret (set_behaviour s (remove_address (sy_behaviour s) peer address))
  | OpPoll => Ret (step_poll s)
  | OpEstablished peer endpoint dialed => step_established s peer endpoint dialed
  | OpAddressChange k endpoint =>
      on_conn s k (λ cn, b ← RequestResponse_inject_address_change (sy_behaviour s) (cn_peer cn) k endpoint; Ret (set_behaviour s b))
  | OpClosed k => on_conn s k (λ cn, if decide (cn_events cn = []) then step_closed s k cn else Ret s)
  | OpDialFailure peer =>
      Ret (set_dials (set_behaviour s (RequestResponse_inject_dial_failure (sy_behaviour s) peer))
             (match peer with Some peer => answer_dial peer (sy_dials s) | None => sy_dials s end))
  | OpCommand k =>
      on_conn s k (λ cn,
        Ret (match cn_commands cn with
             | request :: commands =>
                 set_conn s k (mkConn (cn_peer cn) (RequestResponseHandler_inject_event (cn_handler cn) request) commands (cn_events cn)
                                 (negotiating_out cn) (negotiating_in cn))
             | [] => s
             end))
  | OpHandlerPoll k now order => on_conn s k (λ cn, Ret (step_handler_poll s k cn now order))
  | OpOutbound k i r => on_conn s k (λ cn, Ret (step_outbound s k cn i r))
  | OpInboundSubstream k => on_conn s k (λ cn, Ret (step_inbound_substream s k cn))
  | OpInbound k id act => on_conn s k (λ cn, step_inbound s k cn id act)
  | OpEvent k => on_conn s k (λ cn, step_event s k cn)
  end.

Fixpoint rr_run (ops : list rr_op) (s : System) : outcome System :=
  match ops with
  | [] => Ret s
  | op :: ops => s ← rr_step op s; rr_run ops s
  end.
End system.

(** ** The invariant *)

Section invariant.
Context {PeerId Multiaddr Protocol Codec Request Response : Type} `{Countable PeerId}.

#[local] Abbreviation Behaviour := (@RequestResponse PeerId Multiaddr Protocol Codec Request Response _ _).
#[local] Abbreviation Handler := (@RequestResponseHandler Protocol Codec Request Response).
#[local] Abbreviation HandlerEvent := (@RequestResponseHandlerEvent Request Response).
#[local] Abbreviation Event := (@RequestResponseEvent PeerId Request Response).
#[local] Abbreviation Action := (@NetworkBehaviourAction PeerId Protocol Codec Request Response).
#[local] Abbreviation Conn := (@Conn PeerId Protocol Codec Request Response).
#[local] Abbreviation System := (@System PeerId Multiaddr Protocol Codec Request Response _ _).
Implicit Types (c : @Connection Multiaddr) (s : System) (p : PeerId) (b : Behaviour) (cn : Conn) (h : Handler) (ev : Event).

(** Outbound requests.  What is in flight between the behaviour and the upgrades of a
    connection; a request that is not may have been lost with a failed substream. *)
Definition out_event (e : HandlerEvent) : option N :=
  match e with HE_Response id _ | HE_OutboundTimeout id | HE_OutboundUnsupportedProtocols id => Some id | _ => None end.

Definition notify_to (k : N) (a : Action) : option N :=
  match a with NotifyHandler _ k' r => if decide (k' = k) then Some (rp_request_id r) else None | _ => None end.

Definition cn_queue (cn : Conn) : list HandlerEvent := cn_events cn ++ rh_pending_events (cn_handler cn).

Definition cn_tokens (cn : Conn) : list N :=
  (rp_request_id <$> cn_commands cn) ++ (rp_request_id <$> rh_outbound (cn_handler cn)) ++ (rp_request_id <$> negotiating_out cn)
  ++ omap out_event (cn_queue cn).

(** How an outbound request ends. *)
Definition outcome_of (e : Event) : option (N * PeerId) :=
  match e with
  | RE_Message p (Message_Response id _) | RE_OutboundFailure p id _ => Some (id, p)
  | _ => None
  end.

Definition generated (a : Action) : option Event := match a with GenerateEvent e => Some e | _ => None end.

(** The events that were reported or will be. *)
Definition events (s : System) : list Event := sy_log s ++ omap generated (rr_pending_events (sy_behaviour s)).

(** The ids that belong to a peer. *)
Definition sel (p : PeerId) (l : list (N * PeerId)) : list N := omap (λ x, if decide (x.2 = p) then Some x.1 else None) l.

Definition waiting_ids (b : Behaviour) (p : PeerId) : list N := rp_request_id <$> default [] (pending_outbound_requests b !! p).
Definition conns_ids (cs : list (@Connection Multiaddr)) : list N := cs ≫= λ c, elements (pending_inbound_responses c).
Definition wire_ids (b : Behaviour) (p : PeerId) : list N := conns_ids (default [] (connected b !! p)).

(** Inbound requests: those for which the behaviour waits for a response, after the
    events of a handler. *)
Definition in_event (e : HandlerEvent) : option N :=
  match e with
  | HE_Request id _ _ | HE_ResponseSent id | HE_ResponseOmission id | HE_InboundTimeout id | HE_InboundUnsupportedProtocols id => Some id
  | _ => None
  end.

Definition in_after (open : gset N) (e : HandlerEvent) : gset N :=
  match e with
  | HE_Request id _ _ => {[id]} ∪ open
  | HE_ResponseSent id | HE_ResponseOmission id | HE_InboundTimeout id => open ∖ {[id]}
  | _ => open
  end.

Definition in_ok (open : gset N) (e : HandlerEvent) : Prop :=
  match e with
  | HE_Request id _ sender => sender = id ∧ id ∉ open
  | HE_ResponseSent id | HE_ResponseOmission id => id ∈ open
  | HE_InboundUnsupportedProtocols id => id ∉ open
  | _ => True
  end.

Fixpoint queue_fits (open : gset N) (l : list HandlerEvent) : Prop :=
  match l with [] => True | e :: l => in_ok open e ∧ queue_fits (in_after open e) l end.

Definition inbound_id (c : @Connection Multiaddr) (cn : Conn) (id : N) : Prop :=
  id ∈ pending_outbound_responses c ∨ id ∈ omap in_event (cn_queue cn) ∨ id ∈ (rh_inbound (cn_handler cn)).*1 ∨
  is_Some (negotiating_in cn !! id).

(** The inbound requests that the user has to answer, after some events. *)
Definition replay_in (open : gset (N * PeerId)) (e : Event) : gset (N * PeerId) :=
  match e with
  | RE_Message p (Message_Request id _ _) => {[(id, p)]} ∪ open
  | RE_ResponseSent p id | RE_InboundFailure p id _ => open ∖ {[(id, p)]}
  | _ => open
  end.

Definition fits_in (open : gset (N * PeerId)) (e : Event) : Prop :=
  match e with
  | RE_Message p (Message_Request id _ _) => (id, p) ∉ open
  | RE_ResponseSent p id => (id, p) ∈ open
  | RE_InboundFailure p id (IF_ConnectionClosed | IF_ResponseOmission) => (id, p) ∈ open
  | _ => True
  end.

Fixpoint all_fit_in (open : gset (N * PeerId)) (es : list Event) : Prop :=
  match es with [] => True | e :: es => fits_in open e ∧ all_fit_in (replay_in open e) es end.

(** A connection: what it does for outbound requests, of which [nt] are on their way to
    it, and where inbound requests are. *)
Record conn_ok (nt : list N) (rq : gmap N (@RequestChannel Request)) (rs : gmap N (@ResponseChannel Response))
    (c : @Connection Multiaddr) (cn : Conn) : Prop := {
  ck_nodup : NoDup (nt ++ cn_tokens cn);
  ck_tokens id : id ∈ nt ++ cn_tokens cn → id ∈ pending_inbound_responses c;
  ck_queue : queue_fits (pending_outbound_responses c) (cn_queue cn);
  ck_inbound_nodup : NoDup (rh_inbound (cn_handler cn)).*1;
  ck_inbound q r : (q, r) ∈ rh_inbound (cn_handler cn) →
    r = q ∧ (q ∉ foldl in_after (pending_outbound_responses c) (cn_queue cn)) ∧ (∀ x y, HE_Request q x y ∉ cn_queue cn) ∧
    (∃ ch, rq !! q = Some ch ∧ ∀ i x, ch = RqSent i x → i = q) ∧ (rs !! q = Some RsOpen ∨ rs !! q = Some RsReceiverDropped);
  ck_neg id proto st : negotiating_in cn !! id = Some (proto, st) →
    sp_request_id proto = id ∧ sp_request_sender proto = id ∧ sp_response_receiver proto = id ∧
    match st with
    | UpReading => id ∈ (rh_inbound (cn_handler cn)).*1 ∧ rq !! id = Some RqOpen
    | UpWaiting =>
        (id ∈ (rh_inbound (cn_handler cn)).*1 ∧ ∃ x, rq !! id = Some (RqSent id x)) ∨
        id ∈ foldl in_after (pending_outbound_responses c) (cn_queue cn)
    | UpClosing _ => id ∈ foldl in_after (pending_outbound_responses c) (cn_queue cn)
    end;
}.

(** [c] is the connection [k] to [p] of the behaviour. *)
Definition conn_in (b : Behaviour) (p : PeerId) (k : N) (c : @Connection Multiaddr) : Prop :=
  ∃ cs, connected b !! p = Some cs ∧ c ∈ cs ∧ rc_id c = k.

(** [xo] and [xi] are outbound and inbound requests that an operation has taken out of
    the state and not dealt with yet; [n] bounds the ids. *)
Record rr_inv (n : N) (xo xi : list (N * PeerId)) (s : System) : Prop := {
  iv_shape p cs : connected (sy_behaviour s) !! p = Some cs → cs ≠ [] ∧ NoDup (rc_id <$> cs);
  iv_sync p k : (∃ c, conn_in (sy_behaviour s) p k c) ↔ ∃ cn, sy_conns s !! k = Some cn ∧ cn_peer cn = p;
  iv_conn k cn c : sy_conns s !! k = Some cn → conn_in (sy_behaviour s) (cn_peer cn) k c →
    conn_ok (omap (notify_to k) (rr_pending_events (sy_behaviour s))) (sy_rq s) (sy_rs s) c cn;
  iv_conn_lt k : is_Some (sy_conns s !! k) → (k < sy_next_conn s)%N;
  iv_notify_lt p k r : NotifyHandler p k r ∈ rr_pending_events (sy_behaviour s) → (k < sy_next_conn s)%N;
  iv_waiting p rs : pending_outbound_requests (sy_behaviour s) !! p = Some rs →
    connected (sy_behaviour s) !! p = None ∧ (p ∈ sy_dials s ∨ ∃ h, Dial p h ∈ rr_pending_events (sy_behaviour s));
  iv_out p : waiting_ids (sy_behaviour s) p ++ wire_ids (sy_behaviour s) p ++ sel p (omap outcome_of (events s)) ++ sel p xo ≡ₚ sel p (sy_sent s);
  iv_sent : NoDup (sy_sent s).*1;
  iv_sent_lt id p : (id, p) ∈ sy_sent s → (id < next_request_id (sy_behaviour s))%N;
  iv_next : (next_request_id (sy_behaviour s) ≤ n)%N;
  iv_next_in : (next_inbound_id (sy_behaviour s) ≤ n)%N;
  iv_in_lt k cn c id : sy_conns s !! k = Some cn → conn_in (sy_behaviour s) (cn_peer cn) k c → inbound_id c cn id →
    (id < next_inbound_id (sy_behaviour s))%N;
  iv_in_disjoint k cn c k' cn' c' id :
    sy_conns s !! k = Some cn → conn_in (sy_behaviour s) (cn_peer cn) k c →
    sy_conns s !! k' = Some cn' → conn_in (sy_behaviour s) (cn_peer cn') k' c' →
    inbound_id c cn id → inbound_id c' cn' id → k = k';
  iv_xi id p : (id, p) ∈ xi → (id < next_inbound_id (sy_behaviour s))%N ∧
    ∀ k cn c, sy_conns s !! k = Some cn → conn_in (sy_behaviour s) (cn_peer cn) k c → ¬ inbound_id c cn id;
  iv_xi_nodup : NoDup xi;
  iv_released id : id ∈ omap requested (events s) →
    (id < next_inbound_id (sy_behaviour s))%N ∧ ∀ k cn, sy_conns s !! k = Some cn → id ∉ (rh_inbound (cn_handler cn)).*1;
  iv_fit : all_fit_in ∅ (events s);
  iv_open id p : (id, p) ∈ foldl replay_in ∅ (events s) ↔
    (id, p) ∈ xi ∨ ∃ k c, conn_in (sy_behaviour s) p k c ∧ id ∈ pending_outbound_responses c;
}.

Lemma rr_inv_new codec protocols cfg : rr_inv 1 [] [] (System_new (RequestResponse_new codec protocols cfg)).
Proof.
  assert (∀ p k c, ¬ conn_in (RequestResponse_new codec protocols cfg) p k c) as Hno.
  { intros p k c (cs & Hc & _). simpl in Hc. by rewrite lookup_empty in Hc. }
  split; simpl; try done; [| |set_solver|constructor|set_solver|set_solver|constructor|set_solver|set_solver].
  - intros p k. split; [intros [c Hc]; by apply Hno in Hc|]. intros (cn & Hc & _). by rewrite lookup_empty in Hc.
  - intros k [? Hk]. by rewrite lookup_empty in Hk.
Qed.

(** ** Lists of requests and events *)

Lemma sel_app p l1 l2 : sel p (l1 ++ l2) = sel p l1 ++ sel p l2.
Proof. apply omap_app. Qed.

Lemma elem_of_sel p id l : id ∈ sel p l ↔ (id, p) ∈ l.
Proof.
  unfold sel. rewrite list_elem_of_omap. split.
  - intros ([i q] & Hin & Hs). simpl in Hs. case_decide; by simplify_eq.
  - intros Hin. exists (id, p). split; [done|]. simpl. by rewrite decide_True.
Qed.

Lemma NoDup_sel p l : NoDup l.*1 → NoDup (sel p l).
Proof.
  induction l as [|[i q] l IH]; simpl; [by constructor|]. intros [Hi Hl]%NoDup_cons.
  case_decide; simpl; [|by apply IH]. apply NoDup_cons. split; [|by apply IH].
  rewrite elem_of_sel. intros Hin. apply Hi. apply list_elem_of_fmap. by exists (i, p).
Qed.

Lemma queue_fits_app open l1 l2 : queue_fits open (l1 ++ l2) ↔ queue_fits open l1 ∧ queue_fits (foldl in_after open l1) l2.
Proof. revert open. induction l1 as [|e l1 IH]; intros open; simpl; [tauto|]. rewrite IH. tauto. Qed.

Lemma all_fit_in_app open l1 l2 : all_fit_in open (l1 ++ l2) ↔ all_fit_in open l1 ∧ all_fit_in (foldl replay_in open l1) l2.
Proof. revert open. induction l1 as [|e l1 IH]; intros open; simpl; [tauto|]. rewrite IH. tauto. Qed.

Lemma conns_ids_app l1 l2 : conns_ids (l1 ++ l2) = conns_ids l1 ++ conns_ids l2.
Proof. apply bind_app. Qed.

Lemma conns_ids_cons c l : conns_ids (c :: l) = elements (pending_inbound_responses c) ++ conns_ids l.
Proof. done. Qed.

(** ** Connections *)

Lemma NoDup_ids_unique (cs : list (@Connection Multiaddr)) c c' :
  NoDup (rc_id <$> cs) → c ∈ cs → c' ∈ cs → rc_id c = rc_id c' → c = c'.
Proof.
  induction cs as [|x cs IH]; simpl; [set_solver|]. intros [Hx Hn]%NoDup_cons. rewrite !elem_of_cons.
  intros [->|Hc] [->|Hc'] He; [done|exfalso; apply Hx..|by apply IH].
  - apply list_elem_of_fmap. by exists c'.
  - apply list_elem_of_fmap. by exists c.
Qed.

Lemma conn_in_unique b p k c c' :
  (∀ p cs, connected b !! p = Some cs → cs ≠ [] ∧ NoDup (rc_id <$> cs)) → conn_in b p k c → conn_in b p k c' → c = c'.
Proof.
  intros Hs (cs & Hcs & Hc & <-) (cs' & Hcs' & Hc' & He). simplify_eq. destruct (Hs _ _ Hcs). by eapply NoDup_ids_unique.
Qed.

Lemma conn_in_split b p k c :
  conn_in b p k c → ∃ l1 l2, connected b !! p = Some (l1 ++ c :: l2) ∧ rc_id c = k.
Proof. intros (cs & Hcs & (l1 & l2 & ->)%list_elem_of_split & Hk). by exists l1, l2. Qed.

Lemma conn_in_update b b' p l1 c c' l2 :
  connected b !! p = Some (l1 ++ c :: l2) → NoDup (rc_id <$> l1 ++ c :: l2) → rc_id c' = rc_id c →
  connected b' = <[p := l1 ++ c' :: l2]> (connected b) →
  ∀ q k x, conn_in b' q k x ↔ (q = p ∧ k = rc_id c ∧ x = c') ∨ ((q ≠ p ∨ k ≠ rc_id c) ∧ conn_in b q k x).
Proof.
  intros Hb Hn Hc' Hb' q k x. unfold conn_in. rewrite Hb'.
  rewrite fmap_app, fmap_cons in Hn. apply NoDup_app in Hn as (_ & Hn1 & [Hn2 _]%NoDup_cons).
  assert (∀ y, y ∈ l1 ∨ y ∈ l2 → rc_id y ≠ rc_id c) as Hne.
  { intros y [Hy|Hy] He.
    - apply (Hn1 (rc_id y)); [apply list_elem_of_fmap; by exists y|]. rewrite He. left.
    - apply Hn2. rewrite <-He. apply list_elem_of_fmap. by exists y. }
  destruct (decide (q = p)) as [->|Hq].
  - rewrite lookup_insert_eq, Hb. split.
    + intros (cs & [= <-] & Hx & Hk). apply elem_of_app in Hx as [Hx|[->|Hx]%elem_of_cons].
      * right. split; [right; rewrite <-Hk; by apply Hne; left|]. eexists. split; [done|]. set_solver.
      * left. by rewrite <-Hk.
      * right. split; [right; rewrite <-Hk; by apply Hne; right|]. eexists. split; [done|]. set_solver.
    + intros [(_ & -> & ->)|([?|Hk] & cs & [= <-] & Hx & Hk')]; [eexists; split; [done|]; set_solver|done|].
      eexists. split; [done|]. split; [|done]. apply elem_of_app in Hx as [Hx|[->|Hx]%elem_of_cons]; [set_solver|by subst|set_solver].
  - rewrite lookup_insert_ne by done. naive_solver.
Qed.

(** ** Steps of one connection *)

#[local] Instance inbound_id_dec c cn id : Decision (inbound_id c cn id).
Proof. unfold inbound_id. apply _. Defined.

Lemma conn_ok_channels nt rq rs rq' rs' c cn :
  conn_ok nt rq rs c cn → (∀ id, inbound_id c cn id → rq' !! id = rq !! id ∧ rs' !! id = rs !! id) → conn_ok nt rq' rs' c cn.
Proof.
  intros Hok Hch. split; [apply Hok..| |].
  - intros q r Hin. destruct (Hch q) as [-> ->]; [|by apply Hok].
    right. right. left. apply list_elem_of_fmap. by exists (q, r).
  - intros id proto st Hin. destruct (Hch id) as [-> _]; [|by apply Hok]. right. right. right. by rewrite Hin.
Qed.

Lemma notify_to_generate k l : omap (notify_to k) (GenerateEvent <$> l) = [].
Proof. by induction l. Qed.

Lemma generated_generate l : omap generated (GenerateEvent <$> l : list Action) = l.
Proof. induction l as [|e l IH]; [done|]. simpl. f_equal. apply IH. Qed.

Section local_step.
Context (n n' : N) (xo xi : list (N * PeerId)) (s s' : System) (k : N) (cn cn' : Conn) (c c' : @Connection Multiaddr)
  (l1 l2 : list (@Connection Multiaddr)) (es : list Event).
Hypothesis (Hinv : rr_inv n xo xi s) (Hk : sy_conns s !! k = Some cn)
  (Hb : connected (sy_behaviour s) !! cn_peer cn = Some (l1 ++ c :: l2)) (Hc : rc_id c = k) (Hc' : rc_id c' = k) (Hp : cn_peer cn' = cn_peer cn).
Hypothesis (Hb' : connected (sy_behaviour s') = <[cn_peer cn := l1 ++ c' :: l2]> (connected (sy_behaviour s)))
  (Hq : rr_pending_events (sy_behaviour s') = rr_pending_events (sy_behaviour s) ++ (GenerateEvent <$> es))
  (Hpo : pending_outbound_requests (sy_behaviour s') = pending_outbound_requests (sy_behaviour s))
  (Hnr : next_request_id (sy_behaviour s') = next_request_id (sy_behaviour s)) (Hn : (n ≤ n')%N)
  (Hni : (next_inbound_id (sy_behaviour s) ≤ next_inbound_id (sy_behaviour s') ≤ n')%N)
  (Hconns : sy_conns s' = <[k := cn']> (sy_conns s)) (Hnc : sy_next_conn s' = sy_next_conn s) (Hd : sy_dials s' = sy_dials s)
  (Hse : sy_sent s' = sy_sent s) (Hlog : sy_log s' = sy_log s).
Hypothesis (Hok : conn_ok (omap (notify_to k) (rr_pending_events (sy_behaviour s))) (sy_rq s') (sy_rs s') c' cn')
  (Hch : ∀ id, (id < next_inbound_id (sy_behaviour s))%N → ¬ inbound_id c cn id → sy_rq s' !! id = sy_rq s !! id ∧ sy_rs s' !! id = sy_rs s !! id)
  (Hids : ∀ id, inbound_id c' cn' id → inbound_id c cn id ∨ (next_inbound_id (sy_behaviour s) ≤ id < next_inbound_id (sy_behaviour s'))%N)
  (Hpob : ∀ id, id ∈ pending_outbound_responses c' → inbound_id c cn id)
  (Hout : elements (pending_inbound_responses c') ++ sel (cn_peer cn) (omap outcome_of es) ≡ₚ elements (pending_inbound_responses c))
  (Hes : ∀ id q, (id, q) ∈ omap outcome_of es → q = cn_peer cn)
  (Hreq : ∀ id, id ∈ omap requested es → inbound_id c cn id ∧ id ∉ (rh_inbound (cn_handler cn')).*1)
  (Hinb : ∀ id, id ∈ (rh_inbound (cn_handler cn')).*1 → id ∈ (rh_inbound (cn_handler cn)).*1 ∨ (next_inbound_id (sy_behaviour s) ≤ id)%N)
  (Hrep : ∀ O, (∀ id, inbound_id c cn id → (id, cn_peer cn) ∈ O ↔ id ∈ pending_outbound_responses c) →
    all_fit_in O es ∧ (∀ id, inbound_id c cn id → (id, cn_peer cn) ∈ foldl replay_in O es ↔ id ∈ pending_outbound_responses c') ∧
    ∀ id q, q ≠ cn_peer cn ∨ ¬ inbound_id c cn id → (id, q) ∈ foldl replay_in O es ↔ (id, q) ∈ O).

Lemma local_conn_in q k1 x :
  conn_in (sy_behaviour s') q k1 x ↔ (q = cn_peer cn ∧ k1 = k ∧ x = c') ∨ ((q ≠ cn_peer cn ∨ k1 ≠ k) ∧ conn_in (sy_behaviour s) q k1 x).
Proof.
  rewrite <-Hc. apply conn_in_update with (l1 := l1) (l2 := l2); [done| |congruence|done]. by apply (iv_shape _ _ _ _ Hinv) in Hb as [_ ?].
Qed.

Lemma local_here : conn_in (sy_behaviour s) (cn_peer cn) k c.
Proof. eexists. split; [done|]. split; [set_solver|done]. Qed.

Lemma local_conns k1 cn1 c1 :
  sy_conns s' !! k1 = Some cn1 → conn_in (sy_behaviour s') (cn_peer cn1) k1 c1 →
  (k1 = k ∧ cn1 = cn' ∧ c1 = c') ∨ (k1 ≠ k ∧ sy_conns s !! k1 = Some cn1 ∧ conn_in (sy_behaviour s) (cn_peer cn1) k1 c1).
Proof.
  rewrite Hconns, local_conn_in. destruct (decide (k1 = k)) as [->|Hne].
  - rewrite lookup_insert_eq. intros [= <-]. rewrite Hp. intros [(_ & _ & ->)|([?|?] & _)]; [by left|done..].
  - rewrite lookup_insert_ne by done. intros Hl [(_ & ? & _)|(_ & Hin)]; [done|]. by right.
Qed.

Lemma local_events : events s' = events s ++ es.
Proof. unfold events. by rewrite Hq, Hlog, omap_app, generated_generate, (assoc_L (++)). Qed.

Lemma local_notify k1 : omap (notify_to k1) (rr_pending_events (sy_behaviour s')) = omap (notify_to k1) (rr_pending_events (sy_behaviour s)).
Proof. by rewrite Hq, omap_app, notify_to_generate, app_nil_r. Qed.

Lemma local_in_queue a : (∀ e, a ≠ GenerateEvent e) → a ∈ rr_pending_events (sy_behaviour s') ↔ a ∈ rr_pending_events (sy_behaviour s).
Proof.
  intros Ha. rewrite Hq, elem_of_app, list_elem_of_fmap. split; [|by left]. intros [?|(e & -> & _)]; [done|]. by destruct (Ha e).
Qed.

Lemma local_sync p1 k1 : (∃ c, conn_in (sy_behaviour s') p1 k1 c) ↔ ∃ cn, sy_conns s' !! k1 = Some cn ∧ cn_peer cn = p1.
Proof.
  rewrite Hconns. split.
  - intros [x Hx]. apply local_conn_in in Hx as [(-> & -> & ->)|[Hne Hx]]; [rewrite lookup_insert_eq; by exists cn'|].
    destruct (proj1 (iv_sync _ _ _ _ Hinv p1 k1)) as (cn1 & Hcn & <-); [by exists x|].
    destruct (decide (k1 = k)) as [->|]; [destruct Hne; by simplify_eq|]. rewrite lookup_insert_ne by done. by exists cn1.
  - intros (cn1 & Hcn & <-). destruct (decide (k1 = k)) as [->|Hne].
    + rewrite lookup_insert_eq in Hcn. injection Hcn as <-. exists c'. apply local_conn_in. by left.
    + rewrite lookup_insert_ne in Hcn by done. destruct (proj2 (iv_sync _ _ _ _ Hinv (cn_peer cn1) k1)) as [x Hx]; [by exists cn1|].
      exists x. apply local_conn_in. right. by split; [right|].
Qed.

Lemma local_conn_ok k1 cn1 c1 : sy_conns s' !! k1 = Some cn1 → conn_in (sy_behaviour s') (cn_peer cn1) k1 c1 →
  conn_ok (omap (notify_to k1) (rr_pending_events (sy_behaviour s'))) (sy_rq s') (sy_rs s') c1 cn1.
Proof.
  intros H1 H2. rewrite local_notify. destruct (local_conns _ _ _ H1 H2) as [(-> & -> & ->)|(Hne & H3 & H4)]; [done|].
  eapply conn_ok_channels; [by apply Hinv|]. intros id Hid. apply Hch; [by eapply (iv_in_lt _ _ _ _ Hinv)|].
  intros Hid'. apply Hne. by eapply (iv_in_disjoint _ _ _ _ Hinv k1 cn1 c1 k cn c id); eauto using local_here.
Qed.

Lemma local_out p : waiting_ids (sy_behaviour s') p ++ wire_ids (sy_behaviour s') p ++ sel p (omap outcome_of (events s')) ++ sel p xo ≡ₚ sel p (sy_sent s').
Proof.
  rewrite Hse, local_events, omap_app, sel_app. unfold waiting_ids, wire_ids. rewrite Hpo, Hb'.
  pose proof (iv_out _ _ _ _ Hinv p) as Ho. unfold waiting_ids, wire_ids in Ho. destruct (decide (p = cn_peer cn)) as [->|Hne].
  - rewrite lookup_insert_eq. rewrite Hb in Ho. simpl in *. rewrite conns_ids_app, conns_ids_cons in *.
    rewrite <-Ho, <-Hout. solve_Permutation.
  - rewrite lookup_insert_ne by done. replace (sel p (omap outcome_of es)) with (@nil N); [by rewrite app_nil_r|].
    destruct (sel p (omap outcome_of es)) as [|id l] eqn:Hl; [done|]. destruct Hne. apply (Hes id p). apply elem_of_sel. rewrite Hl. left.
Qed.

Lemma local_disjoint k1 cn1 c1 k2 cn2 c2 id :
  sy_conns s' !! k1 = Some cn1 → conn_in (sy_behaviour s') (cn_peer cn1) k1 c1 →
  sy_conns s' !! k2 = Some cn2 → conn_in (sy_behaviour s') (cn_peer cn2) k2 c2 →
  inbound_id c1 cn1 id → inbound_id c2 cn2 id → k1 = k2.
Proof.
  assert (∀ k1 cn1 c1, sy_conns s !! k1 = Some cn1 → conn_in (sy_behaviour s) (cn_peer cn1) k1 c1 → inbound_id c1 cn1 id → inbound_id c' cn' id → k1 = k) as Ho.
  { intros k3 cn3 c3 H1 H2 H3 [Hi|Hi]%Hids; [by eapply (iv_in_disjoint _ _ _ _ Hinv k3 cn3 c3 k cn c id); eauto using local_here|].
    pose proof (iv_in_lt _ _ _ _ Hinv _ _ _ _ H1 H2 H3). lia. }
  intros H1 H2 H3 H4 Hi1 Hi2.
  destruct (local_conns _ _ _ H1 H2) as [(-> & -> & ->)|(Hne & H1' & H2')], (local_conns _ _ _ H3 H4) as [(-> & -> & ->)|(Hne' & H3' & H4')]; [done| | |].
  - symmetry. by eapply Ho.
  - by eapply Ho.
  - by eapply (iv_in_disjoint _ _ _ _ Hinv k1 cn1 c1 k2 cn2 c2 id).
Qed.

Lemma local_released id : id ∈ omap requested (events s') →
  (id < next_inbound_id (sy_behaviour s'))%N ∧ ∀ k cn, sy_conns s' !! k = Some cn → id ∉ (rh_inbound (cn_handler cn)).*1.
Proof.
  rewrite local_events, omap_app, elem_of_app. intros [Hi|Hi].
  - destruct (iv_released _ _ _ _ Hinv id Hi) as [Hlt Hno]. split; [lia|]. intros k1 cn1. rewrite Hconns.
    destruct (decide (k1 = k)) as [->|Hne]; [rewrite lookup_insert_eq|rewrite lookup_insert_ne by done; by eauto].
    intros [= <-] [Hin|?]%Hinb; [by eapply Hno|lia].
  - destruct (Hreq id Hi) as [Hid Hno]. split; [pose proof (iv_in_lt _ _ _ _ Hinv _ _ _ _ Hk local_here Hid); lia|].
    intros k1 cn1. rewrite Hconns. destruct (decide (k1 = k)) as [->|Hne]; [rewrite lookup_insert_eq; by intros [= <-]|].
    rewrite lookup_insert_ne by done. intros H1 Hin. destruct (proj2 (iv_sync _ _ _ _ Hinv (cn_peer cn1) k1)) as [c1 H2]; [by exists cn1|].
    apply Hne. eapply (iv_in_disjoint _ _ _ _ Hinv k1 cn1 c1 k cn c id); eauto using local_here. right. right. by left.
Qed.

Lemma local_replay :
  all_fit_in ∅ (events s') ∧
  ∀ id p, (id, p) ∈ foldl replay_in ∅ (events s') ↔ (id, p) ∈ xi ∨ ∃ k c, conn_in (sy_behaviour s') p k c ∧ id ∈ pending_outbound_responses c.
Proof.
  rewrite local_events, all_fit_in_app, foldl_app. set (O := foldl replay_in ∅ (events s)).
  assert (∀ id k1 c1, inbound_id c cn id → conn_in (sy_behaviour s) (cn_peer cn) k1 c1 → id ∈ pending_outbound_responses c1 → k1 = k) as Hk1.
  { intros id k1 c1 Hid H1 H2. destruct (proj1 (iv_sync _ _ _ _ Hinv (cn_peer cn) k1)) as (cn1 & Hcn & Hp1); [by exists c1|].
    eapply (iv_in_disjoint _ _ _ _ Hinv k1 cn1 c1 k cn c id); eauto using local_here; [by rewrite Hp1|by left]. }
  assert (∀ id, inbound_id c cn id → (id, cn_peer cn) ∉ xi) as Hxi.
  { intros id Hid Hin. by apply (proj2 (iv_xi _ _ _ _ Hinv _ _ Hin) k cn c Hk local_here). }
  assert (∀ id, inbound_id c cn id → (id, cn_peer cn) ∈ O ↔ id ∈ pending_outbound_responses c) as HO.
  { intros id Hid. unfold O. rewrite (iv_open _ _ _ _ Hinv). split.
    - intros [Hin|(k1 & c1 & H1 & H2)]; [by apply Hxi in Hin|]. assert (k1 = k) as -> by eauto.
      by rewrite (conn_in_unique _ _ _ _ _ (iv_shape _ _ _ _ Hinv) local_here H1).
    - intros Hin. right. exists k, c. split; [apply local_here|done]. }
  destruct (Hrep O HO) as (Hf & H1 & H2). split; [split; [apply Hinv|done]|]. intros id p.
  destruct (decide (p = cn_peer cn ∧ inbound_id c cn id)) as [[-> Hid]|Hno].
  - rewrite H1 by done. split.
    + intros Hin. right. exists k, c'. split; [apply local_conn_in; by left|done].
    + intros [Hin|(k1 & c1 & Hc1 & Hin)]; [by apply Hxi in Hin|]. apply local_conn_in in Hc1 as [(_ & _ & ->)|(Hne & Hc1)]; [done|].
      destruct Hne as [?|[]]; [done|]. by eapply Hk1.
  - rewrite H2 by (destruct (decide (p = cn_peer cn)); tauto). unfold O. rewrite (iv_open _ _ _ _ Hinv).
    split; (intros [?|(k1 & c1 & Hc1 & Hin)]; [by left|right]; exists k1, c1; split; [|done]).
    + apply local_conn_in. right. split; [|done]. destruct (decide (p = cn_peer cn)) as [->|]; [right|by left]. intros ->.
      apply Hno. split; [done|]. left. by rewrite (conn_in_unique _ _ _ _ _ (iv_shape _ _ _ _ Hinv) local_here Hc1).
    + apply local_conn_in in Hc1 as [(-> & -> & ->)|(_ & ?)]; [|done]. destruct Hno. split; [done|by apply Hpob].
Qed.

Lemma rr_inv_local : rr_inv n' xo xi s'.
Proof.
  destruct local_replay as [Hf Ho]. split.
  - intros p cs. rewrite Hb'. destruct (decide (p = cn_peer cn)) as [->|]; [|rewrite lookup_insert_ne by done; apply Hinv].
    rewrite lookup_insert_eq. intros [= <-]. split; [by destruct l1|]. apply (iv_shape _ _ _ _ Hinv) in Hb as [_ Hnd].
    rewrite fmap_app, fmap_cons in *. by rewrite Hc', <-Hc.
  - apply local_sync.
  - apply local_conn_ok.
  - intros k1. rewrite Hconns, Hnc. intros [->|?]%lookup_insert_is_Some'; apply Hinv; [by rewrite Hk|done].
  - intros p1 k1 r Hin. rewrite Hnc. apply (iv_notify_lt _ _ _ _ Hinv p1 k1 r). by apply local_in_queue.
  - intros p rs Hpr. rewrite Hpo in Hpr. rewrite Hb', Hd. destruct (iv_waiting _ _ _ _ Hinv p rs Hpr) as [Hnone Hdial]. split.
    + rewrite lookup_insert_ne; [done|]. intros <-. by rewrite Hb in Hnone.
    + destruct Hdial as [?|[h Hh]]; [by left|]. right. exists h. by apply local_in_queue.
  - apply local_out.
  - rewrite Hse. apply Hinv.
  - rewrite Hse, Hnr. apply Hinv.
  - rewrite Hnr. pose proof (iv_next _ _ _ _ Hinv). lia.
  - lia.
  - intros k1 cn1 c1 id H1 H2 Hid. destruct (local_conns _ _ _ H1 H2) as [(-> & -> & ->)|(_ & H3 & H4)].
    + apply Hids in Hid as [Hid|?]; [|lia]. pose proof (iv_in_lt _ _ _ _ Hinv _ _ _ _ Hk local_here Hid). lia.
    + pose proof (iv_in_lt _ _ _ _ Hinv _ _ _ _ H3 H4 Hid). lia.
  - apply local_disjoint.
  - intros id p Hin. destruct (iv_xi _ _ _ _ Hinv id p Hin) as [Hlt Hno]. split; [lia|].
    intros k1 cn1 c1 H1 H2 Hid. destruct (local_conns _ _ _ H1 H2) as [(-> & -> & ->)|(_ & H3 & H4)]; [|by eapply Hno].
    apply Hids in Hid as [Hid|?]; [|lia]. by apply (Hno k cn c Hk local_here).
  - apply Hinv.
  - apply local_released.
  - done.
  - done.
Qed.
End local_step.

Lemma get_connection_mut_spec {A} b p k c (f : @Connection Multiaddr → A * @Connection Multiaddr) :
  (∀ p cs, connected b !! p = Some cs → cs ≠ [] ∧ NoDup (rc_id <$> cs)) → conn_in b p k c →
  ∃ l1 l2, connected b !! p = Some (l1 ++ c :: l2) ∧
    get_connection_mut b p k f = (Some (f c).1, set_connected b (<[p := l1 ++ (f c).2 :: l2]> (connected b))).
Proof.
  intros Hs (cs & Hcs & Hin & Hk). destruct (Hs _ _ Hcs) as [_ Hn]. unfold get_connection_mut. rewrite Hcs.
  destruct (list_find (λ c, rc_id c = k) cs) as [[i x]|] eqn:Hf.
  - apply list_find_Some in Hf as (Hi & Hx & _).
    assert (x = c) as -> by (eapply NoDup_ids_unique; [done|by eapply list_elem_of_lookup_2|done|by rewrite Hx]).
    exists (take i cs), (drop (S i) cs). rewrite take_drop_middle by done. split; [done|]. destruct (f c) as [a c']. simpl.
    rewrite insert_take_drop; [done|]. by eapply lookup_lt_Some.
  - apply list_find_None in Hf. rewrite Forall_forall in Hf. by apply Hf in Hin.
Qed.

(** A step of the handler, or of an upgrade, that changes nothing of the behaviour. *)
Lemma rr_inv_handler n xo xi s k cn cn' rq' rs' :
  rr_inv n xo xi s → sy_conns s !! k = Some cn → cn_peer cn' = cn_peer cn →
  (∀ nt c, conn_ok nt (sy_rq s) (sy_rs s) c cn → conn_ok nt rq' rs' c cn') →
  (∀ c id, inbound_id c cn' id → inbound_id c cn id) →
  (∀ id, id ∈ (rh_inbound (cn_handler cn')).*1 → id ∈ (rh_inbound (cn_handler cn)).*1) →
  (∀ id, negotiating_in cn !! id = None → rq' !! id = sy_rq s !! id ∧ rs' !! id = sy_rs s !! id) →
  rr_inv n xo xi (mkSystem (sy_behaviour s) (<[k := cn']> (sy_conns s)) (sy_next_conn s) rq' rs' (sy_dials s) (sy_sent s) (sy_log s)).
Proof.
  intros Hinv Hk Hp Hok Hids Hinb Hch. destruct (proj2 (iv_sync _ _ _ _ Hinv (cn_peer cn) k)) as [c Hc]; [by exists cn|].
  pose proof Hc as (l1 & l2 & Hb & Hck)%conn_in_split.
  eapply (rr_inv_local n n xo xi s _ k cn cn' c c l1 l2 []); simpl; try done.
  - by rewrite insert_id.
  - by rewrite app_nil_r.
  - split; [done|]. apply Hinv.
  - apply Hok. by apply Hinv.
  - intros id _ Hno. apply Hch. destruct (negotiating_in cn !! id) eqn:Hl; [|done]. destruct Hno. right. right. right. by rewrite Hl.
  - intros id Hid. left. by eapply Hids.
  - intros id Hid. by left.
  - by rewrite app_nil_r.
  - set_solver.
  - set_solver.
  - intros id Hid. left. by apply Hinb.
Qed.

Lemma foldl_in_after_out open l : omap in_event l = [] → foldl in_after open l = open.
Proof. revert open. induction l as [|e l IH]; intros open Hl; [done|]. simpl in *. by destruct e; simplify_eq/=; apply IH. Qed.

Lemma queue_fits_out open l : omap in_event l = [] → queue_fits open l.
Proof. revert open. induction l as [|e l IH]; intros open Hl; [done|]. simpl in *. by destruct e; simplify_eq/=; (split; [done|apply IH]). Qed.

Lemma no_request_out q x y l : omap in_event l = [] → HE_Request q x y ∉ l.
Proof. induction l as [|e l IH]; intros Hl; [set_solver|]. simpl in *. rewrite elem_of_cons. destruct e; simplify_eq/=; intros [?|?]; by try apply IH. Qed.

(** A step that moves, or loses, outbound requests. *)
Lemma conn_ok_out nt nt' rq rs c cn cn' l :
  conn_ok nt rq rs c cn → nt' ++ cn_tokens cn' ⊆+ nt ++ cn_tokens cn →
  rh_inbound (cn_handler cn') = rh_inbound (cn_handler cn) → negotiating_in cn' = negotiating_in cn →
  cn_queue cn' = cn_queue cn ++ l → omap in_event l = [] → conn_ok nt' rq rs c cn'.
Proof.
  intros Hok Ht Hi Hn Hq Hl.
  assert (foldl in_after (pending_outbound_responses c) (cn_queue cn') = foldl in_after (pending_outbound_responses c) (cn_queue cn)) as Hf.
  { by rewrite Hq, foldl_app, foldl_in_after_out. }
  split.
  - eapply submseteq_NoDup; [done|]. apply Hok.
  - intros id Hid. eapply (ck_tokens _ _ _ _ _ Hok). by eapply elem_of_submseteq.
  - rewrite Hq, queue_fits_app. split; [apply Hok|by apply queue_fits_out].
  - rewrite Hi. apply Hok.
  - intros q r. rewrite Hi, Hf, Hq. intros (? & ? & Hno & ? & ?)%(ck_inbound _ _ _ _ _ Hok). split_and!; try done.
    intros x y. rewrite elem_of_app. intros [?|?]; [by eapply Hno|by eapply no_request_out].
  - intros id proto st. rewrite Hn, Hi, Hf. apply Hok.
Qed.

Lemma inbound_id_out c cn cn' l id :
  rh_inbound (cn_handler cn') = rh_inbound (cn_handler cn) → negotiating_in cn' = negotiating_in cn →
  cn_queue cn' = cn_queue cn ++ l → omap in_event l = [] → inbound_id c cn' id → inbound_id c cn id.
Proof. unfold inbound_id. intros -> -> -> Hl. rewrite omap_app, Hl, app_nil_r. done. Qed.

Lemma rr_inv_out n xo xi s k cn cn' l :
  rr_inv n xo xi s → sy_conns s !! k = Some cn → cn_peer cn' = cn_peer cn → cn_tokens cn' ⊆+ cn_tokens cn →
  rh_inbound (cn_handler cn') = rh_inbound (cn_handler cn) → negotiating_in cn' = negotiating_in cn →
  cn_queue cn' = cn_queue cn ++ l → omap in_event l = [] → rr_inv n xo xi (set_conn s k cn').
Proof.
  intros Hinv Hk Hp Ht Hi Hn Hq Hl. apply (rr_inv_handler n xo xi s k cn cn'); try done.
  - intros nt c Hok. by eapply conn_ok_out; [done|apply submseteq_app|..].
  - intros c id. by apply inbound_id_out with l.
  - by rewrite Hi.
Qed.

Lemma step_command_inv n s k cn request commands :
  rr_inv n [] [] s → sy_conns s !! k = Some cn → cn_commands cn = request :: commands →
  rr_inv n [] [] (set_conn s k (mkConn (cn_peer cn) (RequestResponseHandler_inject_event (cn_handler cn) request) commands (cn_events cn)
                                 (negotiating_out cn) (negotiating_in cn))).
Proof.
  intros Hinv Hk Hc. eapply (rr_inv_out n [] [] s k cn _ []); try done; [|by rewrite app_nil_r].
  unfold cn_tokens, cn_queue. simpl. rewrite Hc, fmap_app. simpl. apply Permutation_submseteq. solve_Permutation.
Qed.

Lemma step_outbound_inv n s k cn i r : rr_inv n [] [] s → sy_conns s !! k = Some cn → rr_inv n [] [] (step_outbound s k cn i r).
Proof.
  intros Hinv Hk. unfold step_outbound. destruct (negotiating_out cn !! i) as [request|] eqn:Hi; [|done].
  set (h := match r with Ok _ => _ | Err _ => _ end).
  assert (∃ l, rh_pending_events h = rh_pending_events (cn_handler cn) ++ l ∧ omap in_event l = [] ∧ omap out_event l ⊆+ [rp_request_id request] ∧
    rh_inbound h = rh_inbound (cn_handler cn) ∧ rh_outbound h = rh_outbound (cn_handler cn)) as (l & Hl & Hin & Hout & Hinb & Hob).
  { unfold h. destruct r as [response|[| |[[]|]]]; simpl; (exists []; by rewrite app_nil_r; repeat (split; [done || apply submseteq_nil_l|])) || (eexists [_]; by split_and!). }
  clearbody h. eapply (rr_inv_out n [] [] s k cn _ l); try done; [|by unfold cn_queue; simpl; rewrite Hl, (assoc_L (++))].
  unfold cn_tokens, cn_queue. simpl. rewrite Hl, Hob, !omap_app.
  replace (rp_request_id <$> negotiating_out cn) with (rp_request_id <$> take i (negotiating_out cn) ++ request :: drop (S i) (negotiating_out cn))
    by by rewrite take_drop_middle.
  rewrite delete_take_drop, !fmap_app, fmap_cons.
  set (R := (rp_request_id <$> cn_commands cn) ++ (rp_request_id <$> rh_outbound (cn_handler cn)) ++ (rp_request_id <$> take i (negotiating_out cn)) ++
    (rp_request_id <$> drop (S i) (negotiating_out cn)) ++ omap out_event (cn_events cn) ++ omap out_event (rh_pending_events (cn_handler cn))).
  transitivity (omap out_event l ++ R); [apply Permutation_submseteq; unfold R; solve_Permutation|].
  transitivity ([rp_request_id request] ++ R); [by apply submseteq_app|]. apply Permutation_submseteq. unfold R. solve_Permutation.
Qed.

Lemma set_conn_twice s k cn cn' : set_conn (set_conn s k cn) k cn' = set_conn s k cn'.
Proof. unfold set_conn, set_conns. simpl. by rewrite insert_insert_eq. Qed.

Lemma poll_inbound_spec rq kept l r l' :
  poll_inbound rq kept l = (r, l') →
  ∃ m, m ⊆+ kept ++ l ∧ (∀ y, y ∈ kept ++ l → y ∈ m ∨ rq !! y.1 = Some RqCanceled) ∧
    match r with
    | Some (id, x, z) => ∃ q, rq !! q = Some (RqSent id (x : Request)) ∧ m = (q, z) :: l'
    | None => m = l'
    end.
Proof.
  revert kept. induction l as [|[q z] l IH]; intros kept; simpl.
  { intros [= <- <-]. exists kept. rewrite app_nil_r. split; [done|]. split; [by left|done]. }
  destruct (rq !! q) as [[|i x|]|] eqn:Hq.
  - intros (m & H1 & H2 & H3)%IH. rewrite <-(assoc_L (++)) in *. by exists m.
  - intros [= <- <-]. exists ((q, z) :: kept ++ l). split; [apply Permutation_submseteq; solve_Permutation|]. split; [set_solver|by exists q].
  - intros (m & H1 & H2 & H3)%IH. exists m. split; [|split; [|done]].
    + etrans; [done|]. apply submseteq_app; [done|by apply submseteq_cons].
    + intros y. rewrite elem_of_app, elem_of_cons. intros [?|[->|?]]; [apply H2; set_solver|by right|apply H2; set_solver].
  - intros (m & H1 & H2 & H3)%IH. rewrite <-(assoc_L (++)) in *. by exists m.
Qed.

(** Inbound requests that were canceled are dropped, and the others reordered. *)
Lemma rr_inv_drop n xo xi s k cn l' :
  rr_inv n xo xi s → sy_conns s !! k = Some cn → l' ⊆+ rh_inbound (cn_handler cn) →
  (∀ y, y ∈ rh_inbound (cn_handler cn) → y ∈ l' ∨ sy_rq s !! y.1 = Some RqCanceled) →
  rr_inv n xo xi (set_conn s k (set_handler cn (set_inbound (cn_handler cn) l'))).
Proof.
  intros Hinv Hk Hsub Hkeep.
  assert (∀ id, id ∈ l'.*1 → id ∈ (rh_inbound (cn_handler cn)).*1) as Hin.
  { intros id Hid. eapply elem_of_submseteq; [done|]. by apply fmap_submseteq. }
  assert (∀ id, id ∈ (rh_inbound (cn_handler cn)).*1 → sy_rq s !! id ≠ Some RqCanceled → id ∈ l'.*1) as Hin'.
  { intros id (y & -> & Hy)%list_elem_of_fmap Hc. apply list_elem_of_fmap. exists y. destruct (Hkeep y Hy); done. }
  apply (rr_inv_handler n xo xi s k cn); try done.
  - intros nt c Hok. split; simpl; [apply Hok..| | |].
    + eapply submseteq_NoDup; [by apply fmap_submseteq|]. apply Hok.
    + intros q r Hqr. apply (ck_inbound _ _ _ _ _ Hok). by eapply elem_of_submseteq.
    + intros id proto st (H1 & H2 & H3 & H4)%(ck_neg _ _ _ _ _ Hok). split_and!; try done.
      destruct st; [split; [apply Hin'; [apply H4|]|apply H4]| |done].
      * by rewrite (proj2 H4).
      * destruct H4 as [[H4 [x Hx]]|H4]; [left|by right]. split; [|by exists x]. apply Hin'; [done|]. by rewrite Hx.
  - intros c id [?|[?|[?|?]]]; [by left|by right; left|right; right; left; by apply Hin|by right; right; right].
Qed.

(** A request reaches the handler, which reports it. *)
Lemma rr_inv_request n xo xi s k cn l' q z id x :
  rr_inv n xo xi s → sy_conns s !! k = Some cn → rh_pending_events (cn_handler cn) = [] → sy_rq s !! q = Some (RqSent id x) →
  (q, z) :: l' ⊆+ rh_inbound (cn_handler cn) →
  (∀ y, y ∈ rh_inbound (cn_handler cn) → y ∈ l' ∨ sy_rq s !! y.1 = Some RqCanceled ∨ y.1 = q) →
  rr_inv n xo xi
    (set_conn s k (mkConn (cn_peer cn) (set_keep_alive (set_inbound (cn_handler cn) l') KeepAlive_Yes) (cn_commands cn)
                     (cn_events cn ++ [HE_Request id x z]) (negotiating_out cn) (negotiating_in cn))).
Proof.
  intros Hinv Hk Hpe Hq Hsub Hkeep.
  assert (∀ y, y ∈ l' → y ∈ rh_inbound (cn_handler cn)) as Hin.
  { intros y Hy. eapply elem_of_submseteq; [|done]. by right. }
  assert ((q, z) ∈ rh_inbound (cn_handler cn)) as Hqz by (eapply elem_of_submseteq; [|done]; by left).
  assert (∀ cn0 : Conn, cn_events cn0 = cn_events cn ++ [HE_Request q x q] → rh_pending_events (cn_handler cn0) = [] →
    cn_queue cn0 = cn_queue cn ++ [HE_Request q x q]) as Hcq by (intros cn0 H1 H2; unfold cn_queue; by rewrite H1, H2, Hpe, !app_nil_r).
  assert (id = q ∧ z = q) as [-> ->].
  { destruct (proj2 (iv_sync _ _ _ _ Hinv (cn_peer cn) k)) as [c Hc]; [by exists cn|].
    destruct (ck_inbound _ _ _ _ _ (iv_conn _ _ _ _ Hinv k cn c Hk Hc) q z Hqz) as (-> & _ & _ & (ch & Hch & Hid) & _).
    split; [|done]. eapply Hid. by rewrite Hq in Hch; simplify_eq. }
  apply (rr_inv_handler n xo xi s k cn); try done.
  - intros nt c Hok. destruct (ck_inbound _ _ _ _ _ Hok q q Hqz) as (_ & Hfin & Hnr & _).
    assert (NoDup (q :: l'.*1)) as [Hql Hnd]%NoDup_cons.
    { eapply (submseteq_NoDup _ (rh_inbound (cn_handler cn)).*1); [|apply Hok]. by apply (fmap_submseteq fst) in Hsub. }
    assert (∀ y, y ∈ (rh_inbound (cn_handler cn)).*1 → sy_rq s !! y ≠ Some RqCanceled → y = q ∨ y ∈ l'.*1) as Hin'.
    { intros y ([y1 y2] & -> & Hy)%list_elem_of_fmap Hc. destruct (Hkeep _ Hy) as [?|[?|?]]; [|done|by left].
      right. apply list_elem_of_fmap. by exists (y1, y2). }
    split; simpl.
    + unfold cn_tokens. rewrite Hcq, omap_app by done. simpl. rewrite app_nil_r. apply Hok.
    + unfold cn_tokens. rewrite Hcq, omap_app by done. simpl. rewrite app_nil_r. apply Hok.
    + rewrite Hcq by done. apply queue_fits_app. split; [apply Hok|done].
    + done.
    + intros y r Hy. rewrite Hcq by done. destruct (ck_inbound _ _ _ _ _ Hok y r (Hin _ Hy)) as (-> & H1 & H2 & H3 & H4).
      assert (y ≠ q) as Hne by (intros ->; apply Hql, list_elem_of_fmap; by exists (q, q)).
      split_and!; [done| |intros; set_solver|done|done]. rewrite foldl_app. simpl. set_solver.
    + intros i proto st Hi. rewrite Hcq, foldl_app by done. simpl.
      destruct (ck_neg _ _ _ _ _ Hok i proto st Hi) as (H1 & H2 & H3 & H4). split_and!; try done. destruct st.
      * split; [|apply H4]. destruct (Hin' i) as [->|?]; [apply H4|by rewrite (proj2 H4)| |done]. destruct H4 as [_ H4]. by rewrite Hq in H4.
      * destruct H4 as [[H4 [w Hw]]|H4]; [|right; set_solver]. destruct (Hin' i) as [->|?]; [done|by rewrite Hw|right; set_solver|left; by eauto].
      * set_solver.
  - intros c i. unfold inbound_id. rewrite Hcq by done. rewrite omap_app. simpl. rewrite elem_of_app, list_elem_of_singleton.
    intros [?|[[?| ->]|[Hi|?]]]; [by left|by right; left| | |by right; right; right].
    + right. right. left. apply list_elem_of_fmap. by exists (q, q).
    + right. right. left. apply list_elem_of_fmap in Hi as (y & -> & Hy). apply list_elem_of_fmap. eauto.
  - simpl. intros i (y & -> & Hy)%list_elem_of_fmap. apply list_elem_of_fmap. eauto.
Qed.

Lemma handler_poll_inv n s k cn now :
  rr_inv n [] [] s → sy_conns s !! k = Some cn → rr_inv n [] [] (step_handler_poll s k cn now (rh_inbound (cn_handler cn))).
Proof.
  intros Hinv Hk. unfold step_handler_poll. rewrite decide_True by done.
  assert (set_inbound (cn_handler cn) (rh_inbound (cn_handler cn)) = cn_handler cn) as -> by by destruct (cn_handler cn).
  unfold RequestResponseHandler_poll. destruct (rh_pending_error (cn_handler cn)) as [err|].
  { apply (rr_inv_out n [] [] s k cn _ []); try done. by rewrite app_nil_r. }
  destruct (rh_pending_events (cn_handler cn)) as [|event es] eqn:Hpe.
  2:{ assert (∀ cn0 : Conn, cn_events cn0 = cn_events cn ++ [event] → rh_pending_events (cn_handler cn0) = es → cn_queue cn0 = cn_queue cn) as Hcq.
      { intros cn0 H1 H2. unfold cn_queue. by rewrite H1, H2, Hpe, <-(assoc_L (++)). }
      apply (rr_inv_out n [] [] s k cn _ []); try done; [|by rewrite app_nil_r, Hcq]. unfold cn_tokens. by rewrite Hcq. }
  destruct (poll_inbound (sy_rq s) [] (rh_inbound (cn_handler cn))) as [r l'] eqn:Hpi.
  destruct (poll_inbound_spec _ _ _ _ _ Hpi) as (m & Hsub & Hkeep & Hreq). simpl in Hsub, Hkeep. destruct r as [[[id x] z]|].
  - destruct Hreq as (q & Hq & ->). apply (rr_inv_request n [] [] s k cn l' q z id x); try done.
    intros y Hy. destruct (Hkeep y Hy) as [[->|?]%elem_of_cons|?]; [by right; right|by left|by right; left].
  - subst m. assert (rr_inv n [] [] (set_conn s k (set_handler cn (set_inbound (cn_handler cn) l')))) as Hinv' by by apply rr_inv_drop.
    set (cn1 := set_handler cn (set_inbound (cn_handler cn) l')) in *.
    assert (sy_conns (set_conn s k cn1) !! k = Some cn1) as Hk1 by apply lookup_insert_eq. simpl.
    destruct (rh_outbound (cn_handler cn)) as [|request requests] eqn:Hob.
    + destruct (bool_decide _ && _).
      * rewrite <-(set_conn_twice s k cn1). apply (rr_inv_out n [] [] _ k cn1 _ []); try done. by rewrite app_nil_r.
      * done.
    + rewrite <-(set_conn_twice s k cn1). apply (rr_inv_out n [] [] _ k cn1 _ []); try done; [|by rewrite app_nil_r].
      unfold cn_tokens, cn_queue. simpl. rewrite Hob, fmap_app. simpl. apply Permutation_submseteq. solve_Permutation.
Qed.

Lemma step_handler_poll_inv n s k cn now order :
  rr_inv n [] [] s → sy_conns s !! k = Some cn → rr_inv n [] [] (step_handler_poll s k cn now order).
Proof.
  intros Hinv Hk. destruct (decide (order ≡ₚ rh_inbound (cn_handler cn))) as [Hperm|Hno].
  - set (cn1 := set_handler cn (set_inbound (cn_handler cn) order)).
    assert (rr_inv n [] [] (set_conn s k cn1)) as Hinv1.
    { apply rr_inv_drop; [done|done|by apply Permutation_submseteq|]. intros y Hy. left. by rewrite Hperm. }
    assert (step_handler_poll s k cn now order = step_handler_poll (set_conn s k cn1) k cn1 now (rh_inbound (cn_handler cn1))) as ->.
    { unfold step_handler_poll. rewrite (decide_True _ _ Hperm), decide_True by done. simpl.
      destruct (RequestResponseHandler_poll _ _ _) as [[[err|event|request info timeout]|] h]; by rewrite set_conn_twice. }
    apply handler_poll_inv; [done|apply lookup_insert_eq].
  - assert (step_handler_poll s k cn now order = step_handler_poll s k cn now (rh_inbound (cn_handler cn))) as ->; [|by apply handler_poll_inv].
    unfold step_handler_poll. rewrite decide_False, decide_True by done. by destruct (cn_handler cn).
Qed.

(** ** Inbound substreams *)

Lemma foldl_in_after_sub open l id : id ∈ foldl in_after open l → id ∈ open ∨ id ∈ omap in_event l.
Proof.
  revert open. induction l as [|e l IH]; intros open; [by left|]. intros [Hin|Hin]%IH.
  - destruct e; set_solver.
  - right. simpl. destruct (in_event e); [by right|done].
Qed.

Lemma request_in_event q x y (l : list HandlerEvent) : HE_Request q x y ∈ l → q ∈ omap in_event l.
Proof. intros Hin. apply list_elem_of_omap. by exists (HE_Request q x y). Qed.

Lemma step_inbound_substream_inv n s k cn :
  (n + 1 < 2 ^ 64)%N → rr_inv n [] [] s → sy_conns s !! k = Some cn → rr_inv (n + 1) [] [] (step_inbound_substream s k cn).
Proof.
  intros Hn Hinv Hk. unfold step_inbound_substream, listen_protocol. set (id := next_inbound_id (sy_behaviour s)).
  pose proof (iv_next_in _ _ _ _ Hinv) as Hle. change (next_inbound_id (sy_behaviour s)) with id in Hle.
  assert (usize_wrapping_add id 1 = (id + 1)%N) as -> by (unfold usize_wrapping_add; rewrite N.mod_small; lia).
  destruct (proj2 (iv_sync _ _ _ _ Hinv (cn_peer cn) k)) as [c Hc]; [by exists cn|].
  pose proof Hc as (l1 & l2 & Hb & Hck)%conn_in_split. pose proof (iv_conn _ _ _ _ Hinv k cn c Hk Hc) as Hok.
  assert (∀ i, inbound_id c cn i → i ≠ id) as Hne.
  { intros i Hi ->. pose proof (iv_in_lt _ _ _ _ Hinv _ _ _ _ Hk Hc Hi). unfold id in *. lia. }
  assert (∀ i, i ∈ (rh_inbound (cn_handler cn)).*1 → i ≠ id) as Hne1 by (intros i Hi; apply Hne; by right; right; left).
  set (cn' := mkConn _ _ _ _ _ _). apply (rr_inv_local n (n + 1) [] [] s _ k cn cn' c c l1 l2 []); simpl; try done.
  - by rewrite insert_id.
  - by rewrite app_nil_r.
  - lia.
  - unfold id in *. lia.
  - split; simpl; [apply Hok..| | |].
    + rewrite fmap_app. apply NoDup_app. split; [apply Hok|]. split; [|apply NoDup_singleton].
      intros i Hi ->%list_elem_of_singleton. by apply (Hne1 _ Hi).
    + intros q r [Hin| [= -> ->]%list_elem_of_singleton]%elem_of_app.
      * assert (q ≠ id) by (apply Hne1, list_elem_of_fmap; by exists (q, r)). rewrite !lookup_insert_ne by done. by apply Hok.
      * rewrite !lookup_insert_eq. split_and!; [done| | |by exists RqOpen|by left].
        -- intros [?|?]%foldl_in_after_sub; eapply (Hne id); [by left|done|by right; left|done].
        -- intros x y Hin. eapply (Hne id); [|done]. right. left. by eapply request_in_event.
    + intros i proto st. destruct (decide (i = id)) as [->|Hi].
      * rewrite lookup_insert_eq. intros [= <- <-]. split_and!; try done; [|by rewrite lookup_insert_eq]. rewrite fmap_app. set_solver.
      * rewrite !lookup_insert_ne by done. intros (H1 & H2 & H3 & H4)%(ck_neg _ _ _ _ _ Hok). split_and!; try done.
        rewrite fmap_app. destruct st; set_solver.
  - intros i Hi _. rewrite !lookup_insert_ne by (unfold id in *; lia). done.
  - intros i. unfold inbound_id. simpl. rewrite fmap_app, elem_of_app, lookup_insert_is_Some'. simpl. rewrite list_elem_of_singleton.
    intros [?|[?|[[?| ->]|[<-|?]]]]; [left; by left|left; by right; left|left; by right; right; left|right; unfold id; lia|right; unfold id; lia|left; by right; right; right].
  - intros i Hi. by left.
  - by rewrite app_nil_r.
  - set_solver.
  - set_solver.
  - intros i. rewrite fmap_app, elem_of_app. intros [?| ->%list_elem_of_singleton]; [by left|by right].
Qed.

Lemma in_after_other open e id i : in_event e = Some id → i ≠ id → i ∈ in_after open e ↔ i ∈ open.
Proof. destruct e; simpl; intros [= ->] Hne; set_solver. Qed.

Lemma in_after_less open e i : (∀ q x y, e ≠ HE_Request q x y) → i ∈ in_after open e → i ∈ open.
Proof. destruct e; simpl; intros Hr; set_solver. Qed.

(** An upgrade ends, with an event of the handler or without. *)
Lemma rr_inv_finish n s k cn h id proto st l rq' :
  rr_inv n [] [] s → sy_conns s !! k = Some cn → negotiating_in cn !! id = Some (proto, st) →
  rh_pending_events h = rh_pending_events (cn_handler cn) ++ l → rh_inbound h = rh_inbound (cn_handler cn) → rh_outbound h = rh_outbound (cn_handler cn) →
  (l = [] ∨ ∃ e, l = [e] ∧ in_event e = Some id ∧ (∀ q x y, e ≠ HE_Request q x y) ∧
    ∀ nt c, conn_ok nt (sy_rq s) (sy_rs s) c cn → in_ok (foldl in_after (pending_outbound_responses c) (cn_queue cn)) e) →
  (rq' !! id = sy_rq s !! id ∨ rq' !! id = Some RqCanceled) → (∀ i, i ≠ id → rq' !! i = sy_rq s !! i) →
  rr_inv n [] [] (mkSystem (sy_behaviour s)
    (<[k := mkConn (cn_peer cn) h (cn_commands cn) (cn_events cn) (negotiating_out cn) (delete id (negotiating_in cn))]> (sy_conns s))
    (sy_next_conn s) rq' (drop_receiver id (sy_rs s)) (sy_dials s) (sy_sent s) (sy_log s)).
Proof.
  intros Hinv Hk Hneg Hpe Hinb Hob Hl Hrq Hrq'. set (cn' := mkConn _ _ _ _ _ _).
  assert (cn_queue cn' = cn_queue cn ++ l) as Hcq by (unfold cn_queue; simpl; by rewrite Hpe, (assoc_L (++))).
  assert (omap out_event l = []) as Hol.
  { destruct Hl as [->|(e & -> & He & _)]; [done|]. by destruct e. }
  assert (cn_tokens cn' = cn_tokens cn) as Hct by (unfold cn_tokens; rewrite Hcq, omap_app, Hol, app_nil_r; simpl; by rewrite Hob).
  assert (∀ open i, i ∈ foldl in_after open l → i ∈ open) as Hless.
  { intros open i. destruct Hl as [->|(e & -> & _ & Hr & _)]; [done|]. by apply in_after_less. }
  assert (∀ open i, i ≠ id → i ∈ open → i ∈ foldl in_after open l) as Hother.
  { intros open i Hi. destruct Hl as [->|(e & -> & He & _)]; [done|]. simpl. by rewrite in_after_other. }
  apply (rr_inv_handler n [] [] s k cn); try done.
  - intros nt c Hok. split; rewrite ?Hct, ?Hcq; [apply Hok..| | | |].
    + apply queue_fits_app. split; [apply Hok|]. destruct Hl as [->|(e & -> & _ & _ & He)]; [done|]. split; [by eapply He|done].
    + simpl. rewrite Hinb. apply Hok.
    + simpl. rewrite Hinb. intros q r (-> & H1 & H2 & H3 & H4)%(ck_inbound _ _ _ _ _ Hok). rewrite foldl_app. split_and!; [done| | | |].
      * by intros ?%Hless.
      * intros x y. rewrite elem_of_app. intros [?|Hin]; [by eapply H2|]. destruct Hl as [->|(e & -> & _ & Hr & _)]; [set_solver|].
        apply list_elem_of_singleton in Hin. by eapply Hr.
      * destruct (decide (q = id)) as [->|Hne]; [|by rewrite Hrq']. destruct Hrq as [->| ->]; [done|]. by exists RqCanceled.
      * unfold drop_receiver. destruct (decide (q = id)) as [->|Hne]; [rewrite lookup_insert_eq; by right|by rewrite lookup_insert_ne].
    + simpl. intros i proto' st'. rewrite lookup_delete_Some. intros [Hne (H1 & H2 & H3 & H4)%(ck_neg _ _ _ _ _ Hok)]. split_and!; try done.
      rewrite foldl_app, Hinb, Hrq' by done. destruct st'; [done|destruct H4; [by left|right; by apply Hother]|by apply Hother].
  - intros c i. unfold inbound_id. rewrite Hcq, omap_app, elem_of_app. simpl. rewrite Hinb.
    intros [?|[[?|Hin]|[?|[? [_ Hi]%lookup_delete_Some]]]]; [by left|by right; left| |by right; right; left|right; right; right; by rewrite Hi].
    destruct Hl as [->|(e & -> & He & _)]; [set_solver|]. simpl in Hin. rewrite He in Hin. apply list_elem_of_singleton in Hin as ->.
    right. right. right. by rewrite Hneg.
  - simpl. by rewrite Hinb.
  - intros i Hi. assert (i ≠ id) as Hne by (intros ->; congruence). unfold drop_receiver. by rewrite Hrq', lookup_insert_ne.
Qed.

(** An upgrade goes on. *)
Lemma rr_inv_upgrade n s k cn id proto st st' rq' :
  rr_inv n [] [] s → sy_conns s !! k = Some cn → negotiating_in cn !! id = Some (proto, st) →
  (∀ i, i ≠ id → rq' !! i = sy_rq s !! i) → (∃ ch, rq' !! id = Some ch ∧ ∀ i x, ch = RqSent i x → i = id) ∨ rq' !! id = sy_rq s !! id →
  (∀ nt c, conn_ok nt (sy_rq s) (sy_rs s) c cn →
    match st' with
    | UpReading => id ∈ (rh_inbound (cn_handler cn)).*1 ∧ rq' !! id = Some RqOpen
    | UpWaiting => (id ∈ (rh_inbound (cn_handler cn)).*1 ∧ ∃ x, rq' !! id = Some (RqSent id x)) ∨
        id ∈ foldl in_after (pending_outbound_responses c) (cn_queue cn)
    | UpClosing _ => id ∈ foldl in_after (pending_outbound_responses c) (cn_queue cn)
    end) →
  rr_inv n [] [] (mkSystem (sy_behaviour s)
    (<[k := mkConn (cn_peer cn) (cn_handler cn) (cn_commands cn) (cn_events cn) (negotiating_out cn) (<[id := (proto, st')]> (negotiating_in cn))]> (sy_conns s))
    (sy_next_conn s) rq' (sy_rs s) (sy_dials s) (sy_sent s) (sy_log s)).
Proof.
  intros Hinv Hk Hneg Hrq' Hrq Hst. apply (rr_inv_handler n [] [] s k cn); try done.
  - intros nt c Hok. split; [apply Hok..| |].
    + intros q r (-> & H1 & H2 & H3 & H4)%(ck_inbound _ _ _ _ _ Hok). split_and!; try done.
      destruct (decide (q = id)) as [->|Hne]; [|by rewrite Hrq']. by destruct Hrq as [?| ->].
    + intros i proto' st1. simpl. destruct (decide (i = id)) as [->|Hne].
      * rewrite lookup_insert_eq. intros [= <- <-]. destruct (ck_neg _ _ _ _ _ Hok id proto st Hneg) as (H1 & H2 & H3 & _). split_and!; try done.
        by apply (Hst nt c).
      * rewrite lookup_insert_ne, Hrq' by done. apply Hok.
  - intros c i. unfold inbound_id. simpl. rewrite lookup_insert_is_Some'.
    intros [?|[?|[?|[<-|?]]]]; [by left|by right; left|by right; right; left|right; right; right; by rewrite Hneg|by right; right; right].
  - intros i Hi. split; [|done]. apply Hrq'. intros ->. congruence.
Qed.

Lemma listen_error_event (h : Handler) id err :
  ∃ l, rh_pending_events (inject_listen_upgrade_error h id err) = rh_pending_events h ++ l ∧
    rh_inbound (inject_listen_upgrade_error h id err) = rh_inbound h ∧ rh_outbound (inject_listen_upgrade_error h id err) = rh_outbound h ∧
    (l = [] ∨ ∃ e, l = [e : HandlerEvent] ∧ in_event e = Some id ∧ (∀ q x y, e ≠ HE_Request q x y) ∧
      ∀ open, id ∉ open ∨ err ≠ Upgrade (Select NegotiationFailed) → in_ok open e).
Proof.
  destruct err as [| |[[]|]]; simpl; (exists []; rewrite app_nil_r; split_and!; by try left) || (eexists [_]; split_and!; [done..|right; eexists; split_and!; [done..|]; simpl; naive_solver]).
Qed.

Lemma step_inbound_inv n s k cn id act :
  rr_inv n [] [] s → sy_conns s !! k = Some cn → ∃ s', step_inbound s k cn id act = Ret s' ∧ rr_inv n [] [] s'.
Proof.
  intros Hinv Hk. unfold step_inbound. destruct (negotiating_in cn !! id) as [[proto st]|] eqn:Hneg; [|by exists s].
  destruct (proj2 (iv_sync _ _ _ _ Hinv (cn_peer cn) k)) as [c Hc]; [by exists cn|]. pose proof (iv_conn _ _ _ _ Hinv k cn c Hk Hc) as Hok.
  destruct (ck_neg _ _ _ _ _ Hok id proto st Hneg) as (H1 & H2 & H3 & H4).
  assert (rr_inv n [] [] (mkSystem (sy_behaviour s)
    (<[k := mkConn (cn_peer cn) (cn_handler cn) (cn_commands cn) (cn_events cn) (negotiating_out cn) (<[id := (proto, st)]> (negotiating_in cn))]> (sy_conns s))
    (sy_next_conn s) (sy_rq s) (sy_rs s) (sy_dials s) (sy_sent s) (sy_log s))) as Hsame.
  { eapply rr_inv_upgrade; try done; [by right|]. intros nt c0 Hok0. by destruct (ck_neg _ _ _ _ _ Hok0 id proto st Hneg) as (_ & _ & _ & ?). }
  assert (∀ rq', (rq' !! id = sy_rq s !! id ∨ rq' !! id = Some RqCanceled) → (∀ i, i ≠ id → rq' !! i = sy_rq s !! i) → ∀ err,
    st = UpReading ∨ err ≠ Upgrade (Select NegotiationFailed) → rr_inv n [] [] (mkSystem (sy_behaviour s)
      (<[k := mkConn (cn_peer cn) (inject_listen_upgrade_error (cn_handler cn) id err) (cn_commands cn) (cn_events cn) (negotiating_out cn)
                (delete id (negotiating_in cn))]> (sy_conns s))
      (sy_next_conn s) rq' (drop_receiver id (sy_rs s)) (sy_dials s) (sy_sent s) (sy_log s))) as Herr.
  { intros rq' Hr1 Hr2 err Hst. destruct (listen_error_event (cn_handler cn) id err) as (l & He & Hi & Ho & Hl).
    eapply rr_inv_finish; try done. destruct Hl as [->|(e & -> & ? & ? & Hine)]; [by left|right; exists e; split_and!; try done].
    intros nt c0 Hok0. apply Hine. destruct Hst as [->|?]; [left|by right].
    destruct (ck_neg _ _ _ _ _ Hok0 id proto _ Hneg) as (_ & _ & _ & ([q r] & -> & Hin)%list_elem_of_fmap & _).
    by destruct (ck_inbound _ _ _ _ _ Hok0 q r Hin) as (_ & ? & _). }
  destruct st as [| |sent], act as [err|request| | |err|]; cbn [upgrade_inbound]; rewrite ?H2, ?H3;
    try (eexists; split; [reflexivity|]; done); try (eexists; split; [reflexivity|]; apply Herr; [by left|done|by right]);
    try (eexists; split; [reflexivity|]; apply (Herr (<[id := RqCanceled]> (sy_rq s))); [right; apply lookup_insert_eq|intros i Hi; by rewrite lookup_insert_ne|by left]).
  - rewrite bool_decide_true by apply H4. eexists. split; [reflexivity|]. rewrite H1.
    apply (rr_inv_upgrade n s k cn id proto UpReading UpWaiting (<[id := RqSent id request]> (sy_rq s))); [done..|intros i Hi; by rewrite lookup_insert_ne| |].
    + left. rewrite lookup_insert_eq. eexists. split; [done|]. by intros i x [= <- _].
    + intros nt c0 _. left. split; [apply H4|]. rewrite lookup_insert_eq. by eexists.
  - assert (∀ sent, sy_rs s !! id ≠ Some RsOpen → sy_rs s !! id ≠ Some RsReceiverDropped → rr_inv n [] [] (mkSystem (sy_behaviour s)
      (<[k := mkConn (cn_peer cn) (cn_handler cn) (cn_commands cn) (cn_events cn) (negotiating_out cn) (<[id := (proto, UpClosing sent)]> (negotiating_in cn))]> (sy_conns s))
      (sy_next_conn s) (sy_rq s) (sy_rs s) (sy_dials s) (sy_sent s) (sy_log s))) as Hclose.
    { intros sent Hr1 Hr2. eapply rr_inv_upgrade; try done; [by right|]. intros nt c0 Hok0.
      destruct (ck_neg _ _ _ _ _ Hok0 id proto UpWaiting Hneg) as (_ & _ & _ & [[Hin _]|?]); [|done].
      apply list_elem_of_fmap in Hin as ([q r] & -> & Hin). by destruct (ck_inbound _ _ _ _ _ Hok0 q r Hin) as (_ & _ & _ & _ & [?|?]). }
    destruct (sy_rs s !! id) as [[|response| |]|] eqn:Hrs; eexists; (split; [reflexivity|]); try done; apply Hclose; congruence.
  - eexists. split; [reflexivity|].
    apply (rr_inv_finish n s k cn (RequestResponseHandler_inject_fully_negotiated_inbound (cn_handler cn) sent id) id proto (UpClosing sent)
             [if sent then HE_ResponseSent id else HE_ResponseOmission id] (sy_rq s)); [done..|by destruct sent|by destruct sent|by destruct sent| |by left|done].
    right. eexists. split; [done|]. split; [by destruct sent|]. split; [by destruct sent|]. intros nt c0 Hok0.
    destruct (ck_neg _ _ _ _ _ Hok0 id proto _ Hneg) as (_ & _ & _ & ?). by destruct sent.
Qed.

(** ** Events of handlers *)

Definition pop_event (cn : Conn) (es : list HandlerEvent) : Conn :=
  mkConn (cn_peer cn) (cn_handler cn) (cn_commands cn) es (negotiating_out cn) (negotiating_in cn).

Lemma out_event_in e id : out_event e = Some id → in_event e = None ∧ ∀ open, in_after open e = open.
Proof. by destruct e. Qed.

Lemma elements_remove (X : gset N) id : id ∈ X → elements (X ∖ {[id]}) ++ [id] ≡ₚ elements X.
Proof.
  intros Hid. replace X with ({[id]} ∪ X ∖ {[id]}) at 2 by (apply set_eq; intros i; destruct (decide (i = id)); set_solver).
  rewrite elements_disj_union by set_solver. rewrite elements_singleton. solve_Permutation.
Qed.

Lemma cn_queue_pop cn event es : cn_events cn = event :: es → cn_queue cn = event :: cn_queue (pop_event cn es).
Proof. intros Hes. unfold cn_queue. by rewrite Hes. Qed.

Lemma cn_tokens_pop cn event es :
  cn_events cn = event :: es → cn_tokens cn ≡ₚ match out_event event with Some id => [id] | None => [] end ++ cn_tokens (pop_event cn es).
Proof.
  intros Hes. unfold cn_tokens. rewrite (cn_queue_pop _ _ _ Hes). simpl. destruct (out_event event); simpl; [|done]. solve_Permutation.
Qed.

Lemma conn_ok_pop nt rq rs c c' cn event es :
  conn_ok nt rq rs c cn → cn_events cn = event :: es → pending_outbound_responses c' = in_after (pending_outbound_responses c) event →
  (∀ id, id ∈ pending_inbound_responses c → out_event event ≠ Some id → id ∈ pending_inbound_responses c') →
  conn_ok nt rq rs c' (pop_event cn es).
Proof.
  intros Hok Hes Hpo Hpi. pose proof (cn_queue_pop _ _ _ Hes) as Hcq. pose proof (cn_tokens_pop _ _ _ Hes) as Hct.
  assert (NoDup (match out_event event with Some id => [id] | None => [] end ++ nt ++ cn_tokens (pop_event cn es))) as Hnd.
  { pose proof (ck_nodup _ _ _ _ _ Hok) as Hnd. rewrite Hct in Hnd. revert Hnd. apply NoDup_Permutation_proper. solve_Permutation. }
  assert (foldl in_after (pending_outbound_responses c') (cn_queue (pop_event cn es)) = foldl in_after (pending_outbound_responses c) (cn_queue cn)) as Hf.
  { by rewrite Hpo, Hcq. }
  split.
  - by apply NoDup_app in Hnd as (_ & _ & ?).
  - intros id Hid. apply Hpi.
    + apply (ck_tokens _ _ _ _ _ Hok). rewrite Hct. set_solver.
    + intros He. rewrite He in Hnd. apply NoDup_cons in Hnd as [? _]. done.
  - pose proof (ck_queue _ _ _ _ _ Hok) as Hq. rewrite Hcq in Hq. rewrite Hpo. apply Hq.
  - apply Hok.
  - intros q r Hin. rewrite Hf. destruct (ck_inbound _ _ _ _ _ Hok q r Hin) as (-> & H1 & H2 & H3 & H4). split_and!; try done.
    intros x y Hxy. eapply H2. rewrite Hcq. by right.
  - intros id proto st Hneg. rewrite Hf. by apply (ck_neg _ _ _ _ _ Hok).
Qed.

Lemma inbound_id_pop c c' cn event es id :
  cn_events cn = event :: es → pending_outbound_responses c' = in_after (pending_outbound_responses c) event →
  inbound_id c' (pop_event cn es) id → inbound_id c cn id.
Proof.
  intros Hes Hpo. unfold inbound_id. rewrite (cn_queue_pop _ _ _ Hes), Hpo. simpl.
  intros [Hin|[Hin|[?|?]]]; [|right; left; destruct (in_event event); [by right|done]|by right; right; left|by right; right; right].
  destruct (decide (in_event event = Some id)) as [->|Hne]; [right; left; by left|]. left.
  destruct event; simpl in *; set_solver.
Qed.

(** The behaviour gets an event that changes [c] to [c'] and reports [ev]. *)
Lemma rr_inv_event n s k cn c c' l1 l2 event es ev :
  rr_inv n [] [] s → sy_conns s !! k = Some cn → cn_events cn = event :: es →
  connected (sy_behaviour s) !! cn_peer cn = Some (l1 ++ c :: l2) → rc_id c = k → rc_id c' = k →
  pending_outbound_responses c' = in_after (pending_outbound_responses c) event →
  (∀ id, id ∈ pending_inbound_responses c → out_event event ≠ Some id → id ∈ pending_inbound_responses c') →
  elements (pending_inbound_responses c') ++ sel (cn_peer cn) (omap outcome_of [ev]) ≡ₚ elements (pending_inbound_responses c) →
  (∀ id q, outcome_of ev = Some (id, q) → q = cn_peer cn) →
  (∀ id, requested ev = Some id → ∃ x, event = HE_Request id x id) →
  (∀ O, (∀ id, inbound_id c cn id → (id, cn_peer cn) ∈ O ↔ id ∈ pending_outbound_responses c) → fits_in O ev ∧
    ∀ id q, (id, q) ∈ replay_in O ev ↔
      if decide (q = cn_peer cn ∧ in_event event = Some id) then id ∈ pending_outbound_responses c' else (id, q) ∈ O) →
  rr_inv n [] [] (set_conn (set_behaviour s
    (generate (set_connected (sy_behaviour s) (<[cn_peer cn := l1 ++ c' :: l2]> (connected (sy_behaviour s)))) ev)) k (pop_event cn es)).
Proof.
  intros Hinv Hk Hes Hb Hck Hck' Hpo Hpi Hout Ho Hr Hrep.
  assert (conn_in (sy_behaviour s) (cn_peer cn) k c) as Hc by (eexists; split; [done|]; set_solver).
  pose proof (iv_conn _ _ _ _ Hinv k cn c Hk Hc) as Hok. pose proof (cn_queue_pop _ _ _ Hes) as Hcq.
  assert (∀ id, in_event event = Some id → inbound_id c cn id) as Hev.
  { intros id He. right. left. rewrite Hcq. simpl. rewrite He. by left. }
  apply (rr_inv_local n n [] [] s _ k cn (pop_event cn es) c c' l1 l2 [ev]); try done.
  - split; [done|]. apply Hinv.
  - by eapply conn_ok_pop.
  - intros id Hid. left. by eapply inbound_id_pop.
  - intros id Hid. eapply (inbound_id_pop c c'); [done|done|]. by left.
  - intros id q Hin. simpl in Hin. destruct (outcome_of ev) as [[]|]; [|set_solver]. apply list_elem_of_singleton in Hin as [= -> ->]. by eapply Ho.
  - intros id Hin. simpl in Hin. destruct (requested ev) as [i|]; [|set_solver]. apply list_elem_of_singleton in Hin as ->.
    destruct (Hr i eq_refl) as [x Hx]. split; [apply Hev; by rewrite Hx|]. intros ([q r] & -> & Hin)%list_elem_of_fmap.
    destruct (ck_inbound _ _ _ _ _ Hok q r Hin) as (_ & _ & Hno & _). eapply Hno. rewrite Hcq, Hx. by left.
  - intros id Hid. by left.
  - intros O HO. destruct (Hrep O HO) as [Hf Hre]. simpl. split; [done|]. split; intros id.
    + intros Hid. rewrite Hre. case_decide as Hd; [done|]. rewrite HO by done. rewrite Hpo.
      destruct (decide (in_event event = Some id)); [tauto|]. destruct event; simpl in *; set_solver.
    + intros q Hno. rewrite Hre, decide_False; [done|]. intros [-> He]. destruct Hno as [?|Hno]; [done|]. by apply Hno, Hev.
Qed.

(** The outcome of an outbound request. *)
Lemma event_out_inv n s k cn event es id ev :
  rr_inv n [] [] s → sy_conns s !! k = Some cn → cn_events cn = event :: es → out_event event = Some id →
  outcome_of ev = Some (id, cn_peer cn) → requested ev = None → (∀ O, fits_in O ev ∧ replay_in O ev = O) →
  ∃ b, remove_pending_inbound_response (sy_behaviour s) (cn_peer cn) k id = (true, b) ∧
    rr_inv n [] [] (set_conn (set_behaviour s (generate b ev)) k (pop_event cn es)).
Proof.
  intros Hinv Hk Hes He Ho Hr Hf. destruct (out_event_in _ _ He) as [Hin Haf].
  destruct (proj2 (iv_sync _ _ _ _ Hinv (cn_peer cn) k)) as [c Hc]; [by exists cn|]. pose proof (iv_conn _ _ _ _ Hinv k cn c Hk Hc) as Hok.
  assert (id ∈ pending_inbound_responses c) as Hid.
  { apply (ck_tokens _ _ _ _ _ Hok). rewrite (cn_tokens_pop _ _ _ Hes), He. set_solver. }
  unfold remove_pending_inbound_response.
  destruct (get_connection_mut_spec _ _ _ _ (λ c, (bool_decide (id ∈ pending_inbound_responses c),
    mkConnection (rc_id c) (rc_address c) (pending_outbound_responses c) (pending_inbound_responses c ∖ {[id]}))) (iv_shape _ _ _ _ Hinv) Hc)
    as (l1 & l2 & Hb & ->). simpl. rewrite bool_decide_true by done. eexists. split; [reflexivity|]. pose proof Hc as (_ & _ & _ & Hck).
  eapply rr_inv_event with (c := c) (event := event); try done; simpl.
  - intros i Hi Hne. rewrite He in Hne. set_solver.
  - rewrite Ho. simpl. rewrite decide_True by done. by apply elements_remove.
  - intros i q. rewrite Ho. by intros [= _ <-].
  - by rewrite Hr.
  - intros O _. destruct (Hf O) as [? ->]. split; [done|]. intros i q. rewrite decide_False; [done|]. rewrite Hin. by intros [_ ?].
Qed.

(** A response is sent, or an inbound request fails. *)
Lemma event_in_inv n s k cn event es id ev :
  rr_inv n [] [] s → sy_conns s !! k = Some cn → cn_events cn = event :: es →
  in_event event = Some id → (∀ open, in_after open event = open ∖ {[id]}) → out_event event = None →
  outcome_of ev = None → requested ev = None → (∀ O, replay_in O ev = O ∖ {[(id, cn_peer cn)]}) →
  (∀ O open, in_ok open event → ((id, cn_peer cn) ∈ O ↔ id ∈ open) → fits_in O ev) →
  ∃ r b, remove_pending_outbound_response (sy_behaviour s) (cn_peer cn) k id = (r, b) ∧
    (r = false → ∃ open, in_ok open event ∧ id ∉ open) ∧
    rr_inv n [] [] (set_conn (set_behaviour s (generate b ev)) k (pop_event cn es)).
Proof.
  intros Hinv Hk Hes He Haf Hoe Ho Hr Hre Hf.
  destruct (proj2 (iv_sync _ _ _ _ Hinv (cn_peer cn) k)) as [c Hc]; [by exists cn|]. pose proof (iv_conn _ _ _ _ Hinv k cn c Hk Hc) as Hok.
  pose proof (cn_queue_pop _ _ _ Hes) as Hcq. pose proof (ck_queue _ _ _ _ _ Hok) as Hq. rewrite Hcq in Hq. destruct Hq as [Hq _].
  assert (inbound_id c cn id) as Hid by (right; left; rewrite Hcq; simpl; rewrite He; by left).
  unfold remove_pending_outbound_response.
  destruct (get_connection_mut_spec _ _ _ _ (λ c, (bool_decide (id ∈ pending_outbound_responses c),
    mkConnection (rc_id c) (rc_address c) (pending_outbound_responses c ∖ {[id]}) (pending_inbound_responses c))) (iv_shape _ _ _ _ Hinv) Hc)
    as (l1 & l2 & Hb & ->). simpl. eexists _, _. split; [reflexivity|]. split.
  { intros Hb'. exists (pending_outbound_responses c). split; [done|]. by apply bool_decide_eq_false in Hb'. }
  pose proof Hc as (_ & _ & _ & Hck). eapply rr_inv_event; try done; simpl.
  - rewrite Ho. simpl. by rewrite app_nil_r.
  - by rewrite Ho.
  - by rewrite Hr.
  - intros O HO. split; [by eapply Hf, HO|]. intros i q. rewrite Hre, He. case_decide as Hd.
    + destruct Hd as [-> [= <-]]. set_solver.
    + set_solver.
Qed.

Lemma set_connected_same (b : Behaviour) p cs : connected b !! p = Some cs → set_connected b (<[p := cs]> (connected b)) = b.
Proof. intros Hb. rewrite insert_id by done. by destruct b. Qed.

Lemma step_event_inv n s k cn : rr_inv n [] [] s → sy_conns s !! k = Some cn → ∃ s', step_event s k cn = Ret s' ∧ rr_inv n [] [] s'.
Proof.
  intros Hinv Hk. unfold step_event. destruct (cn_events cn) as [|event es] eqn:Hes; [by exists s|].
  destruct (proj2 (iv_sync _ _ _ _ Hinv (cn_peer cn) k)) as [c Hc]; [by exists cn|]. pose proof (iv_conn _ _ _ _ Hinv k cn c Hk Hc) as Hok.
  pose proof (cn_queue_pop _ _ _ Hes) as Hcq. pose proof (ck_queue _ _ _ _ _ Hok) as Hq. rewrite Hcq in Hq. destruct Hq as [Hq _].
  destruct event as [id x z|id x|id|id|id|id|id|id]; cbn [RequestResponse_inject_event].
  - destruct Hq as [-> Hq]. pose proof Hc as (_ & _ & _ & Hck).
    destruct (get_connection_mut_spec (generate (sy_behaviour s) (RE_Message (cn_peer cn) (Message_Request id x id))) (cn_peer cn) k c
      (λ c, (negb (bool_decide (id ∈ pending_outbound_responses c)),
             mkConnection (rc_id c) (rc_address c) ({[id]} ∪ pending_outbound_responses c) (pending_inbound_responses c))) (iv_shape _ _ _ _ Hinv) Hc)
      as (l1 & l2 & Hb & ->). simpl. rewrite bool_decide_false by done. simpl. eexists. split; [reflexivity|].
    apply (rr_inv_event n s k cn c (mkConnection (rc_id c) (rc_address c) ({[id]} ∪ pending_outbound_responses c) (pending_inbound_responses c))
      l1 l2 (HE_Request id x id) es (RE_Message (cn_peer cn) (Message_Request id x id))); try done.
    + simpl. by rewrite app_nil_r.
    + intros i [= <-]. by exists x.
    + intros O HO. split; [simpl; rewrite HO; [done|]; right; left; rewrite Hcq; by left|]. intros i q. simpl. case_decide as Hd; [set_solver|].
      assert ((i, q) ≠ (id, cn_peer cn)) by (intros [= -> ->]; tauto). set_solver.
  - destruct (event_out_inv n s k cn (HE_Response id x) es id (RE_Message (cn_peer cn) (Message_Response id x))) as (b & -> & Hb); try done. by eexists.
  - destruct (event_in_inv n s k cn (HE_ResponseSent id) es id (RE_ResponseSent (cn_peer cn) id)) as (r & b & -> & Hr & Hb); try done; [simpl; tauto|].
    destruct r; [by eexists|]. destruct (Hr eq_refl) as (open & H1 & H2). done.
  - destruct (event_in_inv n s k cn (HE_ResponseOmission id) es id (RE_InboundFailure (cn_peer cn) id IF_ResponseOmission)) as (r & b & -> & Hr & Hb);
      try done; [simpl; tauto|]. destruct r; [by eexists|]. destruct (Hr eq_refl) as (open & H1 & H2). done.
  - destruct (event_out_inv n s k cn (HE_OutboundTimeout id) es id (RE_OutboundFailure (cn_peer cn) id OF_Timeout)) as (b & -> & Hb); try done. by eexists.
  - destruct (event_out_inv n s k cn (HE_OutboundUnsupportedProtocols id) es id (RE_OutboundFailure (cn_peer cn) id OF_UnsupportedProtocols))
      as (b & -> & Hb); try done. by eexists.
  - destruct (event_in_inv n s k cn (HE_InboundTimeout id) es id (RE_InboundFailure (cn_peer cn) id IF_Timeout)) as (r & b & -> & _ & Hb); try done. by eexists.
  - pose proof Hc as (l1 & l2 & Hb & Hck)%conn_in_split. eexists. split; [reflexivity|]. rewrite <-(set_connected_same _ _ _ Hb) at 1.
    apply (rr_inv_event n s k cn c c l1 l2 (HE_InboundUnsupportedProtocols id) es (RE_InboundFailure (cn_peer cn) id IF_UnsupportedProtocols)); try done.
    + simpl. by rewrite app_nil_r.
    + intros O HO. split; [done|]. intros i q. simpl. simpl in Hq. case_decide as Hd.
      * destruct Hd as [-> [= ->]]. set_solver.
      * assert ((i, q) ≠ (id, cn_peer cn)) by (intros [= -> ->]; tauto). set_solver.
Qed.

Lemma step_address_change_inv n s k cn endpoint :
  rr_inv n [] [] s → sy_conns s !! k = Some cn →
  ∃ b, RequestResponse_inject_address_change (sy_behaviour s) (cn_peer cn) k endpoint = Ret b ∧ rr_inv n [] [] (set_behaviour s b).
Proof.
  intros Hinv Hk. destruct (proj2 (iv_sync _ _ _ _ Hinv (cn_peer cn) k)) as [c Hc]; [by exists cn|]. pose proof (iv_conn _ _ _ _ Hinv k cn c Hk Hc) as Hok.
  pose proof Hc as (_ & _ & _ & Hck). unfold RequestResponse_inject_address_change.
  set (c' := mkConnection (rc_id c) (dialed_address endpoint) (pending_outbound_responses c) (pending_inbound_responses c)).
  destruct (get_connection_mut_spec (sy_behaviour s) (cn_peer cn) k c
    (λ c, ((), mkConnection (rc_id c) (dialed_address endpoint) (pending_outbound_responses c) (pending_inbound_responses c))) (iv_shape _ _ _ _ Hinv) Hc)
    as (l1 & l2 & Hb & ->). simpl. eexists. split; [reflexivity|].
  apply (rr_inv_local n n [] [] s _ k cn cn c c' l1 l2 []); simpl; try done.
  - by rewrite app_nil_r.
  - split; [done|]. apply Hinv.
  - by rewrite insert_id.
  - split; apply Hok.
  - by left.
  - by left.
  - by rewrite app_nil_r.
  - set_solver.
  - set_solver.
  - by left.
Qed.
End invariant.
