(* ===== verification/RequestResponseRun.v ===== *)
(** * Requests and responses: every request ends once

    The steps of [RequestResponseSystem] that concern the behaviour as a whole keep the
    invariant: requests that are sent, connections that are made, fail and close, and
    what the user does.  Hence whatever happens, nothing panics, every outbound request
    has exactly one outcome, and the user knows which inbound requests are open. *)

From S2P Require Import Prelude AsyncIo MsProtocol MsNegotiated SwarmPool RequestResponse RequestResponseSystem.

Section run.
Context {PeerId Multiaddr Protocol Codec Request Response : Type} `{Countable PeerId} `{EqDecision Multiaddr}.

#[local] Abbreviation Behaviour := (@RequestResponse PeerId Multiaddr Protocol Codec Request Response _ _).
#[local] Abbreviation Handler := (@RequestResponseHandler Protocol Codec Request Response).
#[local] Abbreviation HandlerEvent := (@RequestResponseHandlerEvent Request Response).
#[local] Abbreviation Event := (@RequestResponseEvent PeerId Request Response).
#[local] Abbreviation Conn := (@Conn PeerId Protocol Codec Request Response).
#[local] Abbreviation System := (@System PeerId Multiaddr Protocol Codec Request Response _ _).

Implicit Types (c : @Connection Multiaddr) (s : System) (p : PeerId) (b : Behaviour) (cn : Conn) (h : Handler) (ev : Event).

(** ** The user and the swarm *)

Lemma rr_inv_mono n n' xo xi s : (n ≤ n')%N → rr_inv n xo xi s → rr_inv n' xo xi s.
Proof.
  intros Hn Hinv. split; try apply Hinv.
  - pose proof (iv_next _ _ _ _ Hinv). lia.
  - pose proof (iv_next_in _ _ _ _ Hinv). lia.
Qed.

Lemma rr_inv_addresses n xo xi s m : rr_inv n xo xi s → rr_inv n xo xi (set_behaviour s (set_addresses (sy_behaviour s) m)).
Proof. intros Hinv. split; apply Hinv. Qed.

Lemma rr_inv_channel n xo xi s ch v : rr_inv n xo xi s → ch ∈ omap requested (sy_log s) → rr_inv n xo xi (set_rs s (<[ch := v]> (sy_rs s))).
Proof.
  intros Hinv Hch. assert (∀ k cn, sy_conns s !! k = Some cn → ch ∉ (rh_inbound (cn_handler cn)).*1) as Hno.
  { apply (iv_released _ _ _ _ Hinv ch). unfold events. rewrite omap_app. set_solver. }
  split; try apply Hinv. intros k cn c Hk Hc. pose proof (iv_conn _ _ _ _ Hinv k cn c Hk Hc) as Hok. split; try apply Hok.
  intros q r Hin. simpl. rewrite lookup_insert_ne; [by apply Hok|]. intros ->. apply (Hno k cn Hk). apply list_elem_of_fmap. by exists (q, r).
Qed.

(** The behaviour is polled for an action that concerns no connection. *)
Lemma rr_inv_poll n s a rest dials log :
  rr_inv n [] [] s → rr_pending_events (sy_behaviour s) = a :: rest →
  (∀ k, sy_conns s !! k ≠ None → notify_to k a = None) →
  dials = sy_dials s ++ match a with Dial p _ => [p] | _ => [] end →
  log = sy_log s ++ match generated a with Some e => [e] | None => [] end →
  rr_inv n [] [] (mkSystem (set_rr_events (sy_behaviour s) rest) (sy_conns s) (sy_next_conn s) (sy_rq s) (sy_rs s) dials (sy_sent s) log).
Proof.
  intros Hinv Hq Hn -> ->. set (s' := mkSystem _ _ _ _ _ _ _ _).
  assert (events s' = events s) as He.
  { unfold events. simpl. rewrite Hq. simpl. destruct (generated a); [by rewrite <-(assoc_L (++))|by rewrite app_nil_r]. }
  split; rewrite ?He; try apply Hinv.
  - intros k cn c Hk Hc. pose proof (iv_conn _ _ _ _ Hinv k cn c Hk Hc) as Hok. simpl. rewrite Hq in Hok. simpl in Hok.
    rewrite Hn in Hok; [done|]. simpl in Hk. by rewrite Hk.
  - intros p k r Hin. apply (iv_notify_lt _ _ _ _ Hinv p k r). rewrite Hq. by right.
  - intros p rs Hp. destruct (iv_waiting _ _ _ _ Hinv p rs Hp) as [H1 H2]. split; [done|]. simpl. rewrite elem_of_app.
    destruct H2 as [?|[h Hh]]; [left; by left|]. rewrite Hq in Hh. apply elem_of_cons in Hh as [<-|?]; [left; right; by left|right; by exists h].
Qed.

(** A command is on its way to the handler of its connection. *)
Lemma rr_inv_notify n s p k r rest cn :
  rr_inv n [] [] s → rr_pending_events (sy_behaviour s) = NotifyHandler p k r :: rest → sy_conns s !! k = Some cn →
  rr_inv n [] [] (set_conn (set_behaviour s (set_rr_events (sy_behaviour s) rest)) k
    (mkConn (cn_peer cn) (cn_handler cn) (cn_commands cn ++ [r]) (cn_events cn) (negotiating_out cn) (negotiating_in cn))).
Proof.
  intros Hinv Hq Hk. set (cn' := mkConn _ _ _ _ _ _). set (s' := set_conn _ _ _).
  assert (events s' = events s) as He by (unfold events; simpl; by rewrite Hq).
  assert (∀ k1 cn1, sy_conns s' !! k1 = Some cn1 → ∃ cn0, sy_conns s !! k1 = Some cn0 ∧ cn_peer cn1 = cn_peer cn0 ∧
    cn_handler cn1 = cn_handler cn0 ∧ (∀ c id, inbound_id c cn1 id → inbound_id c cn0 id) ∧
    ∀ c, conn_in (sy_behaviour s) (cn_peer cn0) k1 c → conn_ok (omap (notify_to k1) rest) (sy_rq s) (sy_rs s) c cn1) as Hlook.
  { intros k1 cn1. simpl. destruct (decide (k1 = k)) as [->|Hne].
    - rewrite lookup_insert_eq. intros [= <-]. exists cn. split_and!; try done. intros c Hc.
      pose proof (iv_conn _ _ _ _ Hinv k cn c Hk Hc) as Hok. rewrite Hq in Hok. simpl in Hok. rewrite decide_True in Hok by done.
      eapply (conn_ok_out _ _ _ _ c cn cn' []); try done; [|by rewrite app_nil_r].
      apply Permutation_submseteq. unfold cn_tokens, cn_queue. simpl. rewrite fmap_app. simpl. solve_Permutation.
    - rewrite lookup_insert_ne by done. intros H1. exists cn1. split_and!; try done. intros c Hc.
      pose proof (iv_conn _ _ _ _ Hinv k1 cn1 c H1 Hc) as Hok. rewrite Hq in Hok. simpl in Hok. by rewrite decide_False in Hok. }
  split; rewrite ?He; try apply Hinv.
  - intros p1 k1. etrans; [apply (iv_sync _ _ _ _ Hinv p1 k1)|]. split; intros (cn1 & H1 & H2).
    + simpl. destruct (decide (k1 = k)) as [->|Hne]; [rewrite lookup_insert_eq; exists cn'; by simplify_eq|].
      rewrite lookup_insert_ne by done. by exists cn1.
    + destruct (Hlook _ _ H1) as (cn0 & H3 & H4 & _). exists cn0. by rewrite <-H4.
  - intros k1 cn1 c H1 H2. destruct (Hlook _ _ H1) as (cn0 & H3 & H4 & _ & _ & H5). apply H5. by rewrite <-H4.
  - intros k1 [cn1 H1]. destruct (Hlook _ _ H1) as (cn0 & H3 & _). apply (iv_conn_lt _ _ _ _ Hinv). by exists cn0.
  - intros p1 k1 r1 Hin. apply (iv_notify_lt _ _ _ _ Hinv p1 k1 r1). rewrite Hq. by right.
  - intros p1 rs Hp1. destruct (iv_waiting _ _ _ _ Hinv p1 rs Hp1) as [H1 H2]. split; [done|].
    destruct H2 as [?|[h Hh]]; [by left|]. rewrite Hq in Hh. apply elem_of_cons in Hh as [?|?]; [done|right; by exists h].
  - intros k1 cn1 c id H1 H2 H3. destruct (Hlook _ _ H1) as (cn0 & H4 & H5 & _ & H6 & _). rewrite H5 in H2.
    by eapply (iv_in_lt _ _ _ _ Hinv); eauto.
  - intros k1 cn1 c1 k2 cn2 c2 id H1 H2 H3 H4 H5 H6. destruct (Hlook _ _ H1) as (cn3 & H7 & H8 & _ & H9 & _).
    destruct (Hlook _ _ H3) as (cn4 & H10 & H11 & _ & H12 & _). rewrite H8 in H2. rewrite H11 in H4.
    eapply (iv_in_disjoint _ _ _ _ Hinv k1 cn3 c1 k2 cn4 c2 id); eauto.
  - intros id p1 Hin. set_solver.
  - intros id Hin. destruct (iv_released _ _ _ _ Hinv id Hin) as [H1 H2]. split; [done|]. intros k1 cn1 H3.
    destruct (Hlook _ _ H3) as (cn0 & H4 & _ & -> & _). by eapply H2.
Qed.

Lemma step_poll_inv n s : rr_inv n [] [] s → rr_inv n [] [] (step_poll s).
Proof.
  intros Hinv. unfold step_poll, RequestResponse_poll. destruct (rr_pending_events (sy_behaviour s)) as [|a rest] eqn:Hq.
  { by destruct s. }
  destruct a as [p h|p k r|e].
  - by apply (rr_inv_poll n s (Dial p h) rest); try done; rewrite app_nil_r.
  - simpl. destruct (sy_conns s !! k) as [cn|] eqn:Hk; [by apply (rr_inv_notify n s p k r rest cn)|].
    apply (rr_inv_poll n s (NotifyHandler p k r) rest); rewrite ?app_nil_r; try done.
    intros k' Hk'. simpl. rewrite decide_False; [done|]. by intros ->.
  - apply (rr_inv_poll n s (GenerateEvent e) rest); try done. by rewrite app_nil_r.
Qed.

(** ** Sending requests *)

Lemma sel_cons p x l : sel p (x :: l) = (if decide (x.2 = p) then [x.1] else []) ++ sel p l.
Proof. unfold sel. simpl. by case_decide. Qed.

(** A new request. *)
Lemma rr_inv_fresh n s p :
  rr_inv n [] [] s →
  rr_inv (n + 1) [(next_request_id (sy_behaviour s), p)] []
    (mkSystem (set_next_request_id (sy_behaviour s) (next_request_id (sy_behaviour s) + 1)) (sy_conns s) (sy_next_conn s) (sy_rq s) (sy_rs s)
       (sy_dials s) (sy_sent s ++ [(next_request_id (sy_behaviour s), p)]) (sy_log s)).
Proof.
  intros Hinv. pose proof (iv_next _ _ _ _ Hinv) as Hn. pose proof (iv_next_in _ _ _ _ Hinv) as Hni.
  split; try apply Hinv; simpl.
  - intros q. pose proof (iv_out _ _ _ _ Hinv q) as Ho. simpl in Ho. rewrite app_nil_r in Ho. rewrite sel_app, <-Ho. unfold events. simpl. solve_Permutation.
  - rewrite fmap_app. apply NoDup_app. split; [apply Hinv|]. split; [|apply NoDup_singleton].
    intros id ([i q] & Hi & Hin)%list_elem_of_fmap Heq%list_elem_of_singleton. pose proof (iv_sent_lt _ _ _ _ Hinv _ _ Hin). simpl in *. lia.
  - intros id q [Hin| [= -> ->]%list_elem_of_singleton]%elem_of_app; [|lia]. pose proof (iv_sent_lt _ _ _ _ Hinv _ _ Hin). lia.
  - lia.
  - lia.
Qed.

(** The request waits for a connection. *)
Lemma rr_inv_wait n xo s p h request :
  rr_inv n ((rp_request_id request, p) :: xo) [] s → connected (sy_behaviour s) !! p = None →
  rr_inv n xo [] (set_behaviour s (set_pending_requests (push_action (sy_behaviour s) (Dial p h))
    (<[p := default [] (pending_outbound_requests (sy_behaviour s) !! p) ++ [request]]> (pending_outbound_requests (sy_behaviour s))))).
Proof.
  intros Hinv Hp. set (s' := set_behaviour _ _).
  assert (events s' = events s) as He by (unfold events; simpl; by rewrite omap_app, app_nil_r).
  split; rewrite ?He; try apply Hinv; simpl.
  - intros k cn c Hk Hc. rewrite omap_app. simpl. rewrite app_nil_r. by apply Hinv.
  - intros q k r [Hin|Hin]%elem_of_app; [by eapply (iv_notify_lt _ _ _ _ Hinv)|]. set_solver.
  - intros q rs. destruct (decide (q = p)) as [->|Hne].
    + intros _. split; [done|]. right. exists h. set_solver.
    + rewrite lookup_insert_ne by done. intros Hq. destruct (iv_waiting _ _ _ _ Hinv q rs Hq) as [? [?|[h' Hh]]]; (split; [done|]); [by left|].
      right. exists h'. set_solver.
  - intros q. pose proof (iv_out _ _ _ _ Hinv q) as Ho. rewrite sel_cons in Ho. rewrite <-Ho. unfold waiting_ids, wire_ids. simpl.
    destruct (decide (q = p)) as [->|Hne].
    + rewrite lookup_insert_eq, decide_True by done. simpl. rewrite fmap_app. simpl. solve_Permutation.
    + rewrite lookup_insert_ne, decide_False by done. done.
Qed.

(** The request is sent on a connection. *)
Lemma rr_inv_send n xo s p c l1 l2 request :
  rr_inv n ((rp_request_id request, p) :: xo) [] s → connected (sy_behaviour s) !! p = Some (l1 ++ c :: l2) →
  rr_inv n xo [] (set_behaviour s (push_action (set_connected (sy_behaviour s)
    (<[p := l1 ++ mkConnection (rc_id c) (rc_address c) (pending_outbound_responses c) ({[rp_request_id request]} ∪ pending_inbound_responses c) :: l2]>
       (connected (sy_behaviour s)))) (NotifyHandler p (rc_id c) request))).
Proof.
  intros Hinv Hb. set (id := rp_request_id request) in *. set (c' := mkConnection _ _ _ _). set (s' := set_behaviour _ _).
  assert (events s' = events s) as He by (unfold events; simpl; by rewrite omap_app, app_nil_r).
  assert (conn_in (sy_behaviour s) p (rc_id c) c) as Hc by (eexists; split; [done|]; set_solver).
  assert (id ∉ pending_inbound_responses c) as Hid.
  { pose proof (NoDup_sel p _ (iv_sent _ _ _ _ Hinv)) as Hnd. rewrite <-(iv_out _ _ _ _ Hinv p) in Hnd. unfold wire_ids in Hnd.
    rewrite Hb, sel_cons, decide_True in Hnd by done. simpl in Hnd. rewrite conns_ids_app, conns_ids_cons in Hnd. intros Hin.
    apply NoDup_app in Hnd as (_ & _ & Hnd). apply NoDup_app in Hnd as (_ & Hnd & _). apply (Hnd id); [|set_solver].
    rewrite !elem_of_app, elem_of_elements. tauto. }
  assert (∀ q k x, conn_in (sy_behaviour s') q k x ↔ (q = p ∧ k = rc_id c ∧ x = c') ∨ ((q ≠ p ∨ k ≠ rc_id c) ∧ conn_in (sy_behaviour s) q k x)) as Hci.
  { apply conn_in_update with (l1 := l1) (l2 := l2); try done. by apply (iv_shape _ _ _ _ Hinv) in Hb as [_ ?]. }
  assert (∀ q k x, conn_in (sy_behaviour s') q k x → ∃ y, conn_in (sy_behaviour s) q k y ∧ pending_outbound_responses y = pending_outbound_responses x) as Hold.
  { intros q k x [(-> & -> & ->)|[_ Hx]]%Hci; [by exists c|by exists x]. }
  split; rewrite ?He; try apply Hinv.
  - intros q cs. simpl. destruct (decide (q = p)) as [->|Hne]; [|rewrite lookup_insert_ne by done; apply Hinv].
    rewrite lookup_insert_eq. intros [= <-]. split; [by destruct l1|]. apply (iv_shape _ _ _ _ Hinv) in Hb as [_ Hnd]. by rewrite fmap_app, fmap_cons in *.
  - intros q k. etrans; [|apply (iv_sync _ _ _ _ Hinv q k)]. split.
    + intros [x (y & Hy & _)%Hold]. by exists y.
    + intros [x Hx]. destruct (decide (q = p ∧ k = rc_id c)) as [[-> ->]|Hne]; [exists c'; apply Hci; by left|].
      exists x. apply Hci. right. split; [|done]. destruct (decide (q = p)); [right|by left]. tauto.
  - intros k cn x Hk Hx. simpl. rewrite omap_app. simpl. destruct (decide (rc_id c = k)) as [<-|Hne].
    + destruct (proj1 (iv_sync _ _ _ _ Hinv p (rc_id c))) as (cn0 & Hcn0 & Hp0); [by exists c|]. simpl in Hk.
      assert (cn0 = cn) as -> by congruence. subst p. apply Hci in Hx as [(_ & _ & ->)|[[?|?] _]]; [|done..]. pose proof (iv_conn _ _ _ _ Hinv _ _ _ Hcn0 Hc) as Hok.
      assert (id ∉ omap (notify_to (rc_id c)) (rr_pending_events (sy_behaviour s)) ++ cn_tokens cn) as Hnt by (by intros ?%(ck_tokens _ _ _ _ _ Hok)).
      split; try apply Hok.
      * pose proof (ck_nodup _ _ _ _ _ Hok) as Hnd. rewrite <-(assoc_L (++)). simpl. rewrite <-Permutation_middle. by apply NoDup_cons.
      * intros i. rewrite <-(assoc_L (++)). simpl. rewrite <-Permutation_middle. simpl. rewrite elem_of_cons.
        intros [->|Hi]; [set_solver|]. apply (ck_tokens _ _ _ _ _ Hok) in Hi. set_solver.
    + rewrite app_nil_r. apply Hci in Hx as [(_ & ? & _)|[_ Hx]]; [done|]. by apply Hinv.
  - intros q k r [Hin|Hin]%elem_of_app; [by eapply (iv_notify_lt _ _ _ _ Hinv)|]. apply list_elem_of_singleton in Hin as [= -> -> ->].
    apply (iv_conn_lt _ _ _ _ Hinv). destruct (proj1 (iv_sync _ _ _ _ Hinv p (rc_id c))) as (cn0 & Hcn0 & _); by eauto.
  - intros q rs Hq. destruct (iv_waiting _ _ _ _ Hinv q rs Hq) as [H1 H2]. simpl. split.
    + rewrite lookup_insert_ne; [done|]. intros <-. by rewrite Hb in H1.
    + destruct H2 as [?|[h Hh]]; [by left|]. right. exists h. set_solver.
  - intros q. pose proof (iv_out _ _ _ _ Hinv q) as Ho. rewrite sel_cons in Ho. change (sy_sent s') with (sy_sent s). rewrite <-Ho. unfold waiting_ids, wire_ids. simpl.
    destruct (decide (q = p)) as [->|Hne].
    + rewrite lookup_insert_eq, Hb, decide_True by done. simpl. rewrite !conns_ids_app, !conns_ids_cons. simpl.
      rewrite elements_disj_union by set_solver. rewrite elements_singleton. solve_Permutation.
    + rewrite lookup_insert_ne, decide_False by done. done.
  - intros k cn x i Hk Hx Hi. destruct (Hold _ _ _ Hx) as (y & Hy & Hpo). eapply (iv_in_lt _ _ _ _ Hinv k cn y); try done. unfold inbound_id in *. by rewrite Hpo.
  - intros k1 cn1 x1 k2 cn2 x2 i H1 H2 H3 H4 H5 H6. destruct (Hold _ _ _ H2) as (y1 & Hy1 & Hp1), (Hold _ _ _ H4) as (y2 & Hy2 & Hp2).
    eapply (iv_in_disjoint _ _ _ _ Hinv k1 cn1 y1 k2 cn2 y2 i); try done; unfold inbound_id in *; [by rewrite Hp1|by rewrite Hp2].
  - intros i q Hin. set_solver.
  - intros i q. rewrite (iv_open _ _ _ _ Hinv). split; (intros [?|(k & x & Hx & Hin)]; [by left|right]).
    + destruct (decide (q = p ∧ k = rc_id c)) as [[-> ->]|Hne].
      * exists (rc_id c), c'. split; [apply Hci; by left|]. simpl. by rewrite (conn_in_unique _ _ _ _ _ (iv_shape _ _ _ _ Hinv) Hc Hx).
      * exists k, x. split; [|done]. apply Hci. right. split; [|done]. destruct (decide (q = p)); [right|by left]. tauto.
    + destruct (Hold _ _ _ Hx) as (y & Hy & Hpo). exists k, y. by rewrite Hpo.
Qed.

Lemma try_send_inv n xo s p request :
  rr_inv n ((rp_request_id request, p) :: xo) [] s → is_Some (connected (sy_behaviour s) !! p) →
  ∃ b, try_send_request (sy_behaviour s) p request = Ret (None, b) ∧ rr_inv n xo [] (set_behaviour s b) ∧ is_Some (connected b !! p) ∧
    RequestResponse_new_handler b = RequestResponse_new_handler (sy_behaviour s).
Proof.
  intros Hinv [cs Hcs]. destruct (iv_shape _ _ _ _ Hinv _ _ Hcs) as [Hne _]. unfold try_send_request. rewrite Hcs, decide_False by done.
  set (ix := N.to_nat _).
  assert (ix < length cs) as Hix.
  { pose proof (N.mod_upper_bound (rp_request_id request) (N.of_nat (length cs))) as Hm. destruct cs; [done|]. simpl in *. unfold ix. lia. }
  destruct (lookup_lt_is_Some_2 _ _ Hix) as [c Hc]. unfold vec_index. rewrite Hc. simpl. eexists. split; [reflexivity|].
  rewrite insert_take_drop by done. simpl. rewrite lookup_insert_eq. split; [|done].
  apply rr_inv_send; [done|]. by rewrite take_drop_middle.
Qed.

Definition tagged (p : PeerId) (l : list N) : list (N * PeerId) := (λ id, (id, p)) <$> l.

Lemma send_pending_inv n xo s p pending :
  rr_inv n (tagged p (rp_request_id <$> pending) ++ xo) [] s → is_Some (connected (sy_behaviour s) !! p) →
  ∃ b, send_pending (sy_behaviour s) p pending = Ret b ∧ rr_inv n xo [] (set_behaviour s b) ∧
    RequestResponse_new_handler b = RequestResponse_new_handler (sy_behaviour s).
Proof.
  revert s. induction pending as [|r pending IH]; intros s Hinv Hp.
  { eexists. split; [reflexivity|]. split; [by destruct s|done]. }
  destruct (try_send_inv n _ s p r Hinv Hp) as (b & Hb & Hinv1 & Hp1 & Hh). simpl. rewrite Hb. simpl.
  destruct (IH (set_behaviour s b) Hinv1 Hp1) as (b' & Hb' & Hinv2 & Hh'). simpl in Hb'. rewrite Hb'. eexists. split; [reflexivity|].
  split; [done|]. by rewrite Hh'.
Qed.

Lemma step_send_inv n s peer request :
  (n + 1 < 2 ^ 64)%N → rr_inv n [] [] s →
  ∃ id b, send_request (sy_behaviour s) peer request = Ret (id, b) ∧
    rr_inv (n + 1) [] [] (mkSystem b (sy_conns s) (sy_next_conn s) (sy_rq s) (sy_rs s) (sy_dials s) (sy_sent s ++ [(id, peer)]) (sy_log s)).
Proof.
  intros Hn Hinv. pose proof (iv_next _ _ _ _ Hinv) as Hnr. apply (rr_inv_fresh n s peer) in Hinv as Hf. set (s1 := mkSystem _ _ _ _ _ _ _ _) in Hf.
  unfold send_request, RequestResponse_next_request_id. rewrite decide_True by lia. cbn [mbind outcome_bind].
  set (r := mkRequestProtocol _ _ _ _). destruct (connected (sy_behaviour s) !! peer) as [cs|] eqn:Hc.
  - destruct (try_send_inv (n + 1) [] s1 peer r Hf) as (b & Hb & Hinv1 & _); [simpl; by rewrite Hc|].
    simpl in Hb. rewrite Hb. eexists _, _. split; [reflexivity|]. done.
  - unfold try_send_request. simpl. rewrite Hc. eexists _, _. split; [reflexivity|]. by apply (rr_inv_wait (n + 1) [] s1 peer _ r).
Qed.

(** ** Failures *)

Lemma rr_inv_perm n xo xo' xi xi' s : xo ≡ₚ xo' → xi ≡ₚ xi' → rr_inv n xo xi s → rr_inv n xo' xi' s.
Proof.
  intros Ho Hi Hinv. split; try apply Hinv.
  - intros p. rewrite <-(iv_out _ _ _ _ Hinv p). repeat apply Permutation_app_head. apply omap_Permutation. by symmetry.
  - intros id p. rewrite <-Hi. apply Hinv.
  - rewrite <-Hi. apply Hinv.
  - intros id p. rewrite <-Hi. apply Hinv.
Qed.

(** The behaviour reports that a request has failed. *)
Lemma rr_inv_generate n xo xo' xi xi' s ev :
  rr_inv n xo xi s → requested ev = None → (∀ p, sel p (omap outcome_of [ev]) ++ sel p xo' ≡ₚ sel p xo) → NoDup xi' → (∀ x, x ∈ xi' → x ∈ xi) →
  (∀ O, (∀ x, x ∈ xi → x ∈ O) → fits_in O ev) →
  (∀ O id p, (id, p) ∈ replay_in O ev ↔ (id, p) ∈ O ∧ ((id, p) ∈ xi → (id, p) ∈ xi')) →
  rr_inv n xo' xi' (set_behaviour s (generate (sy_behaviour s) ev)).
Proof.
  intros Hinv Hr Ho Hnd Hsub Hf Hre. set (s' := set_behaviour _ _).
  assert (events s' = events s ++ [ev]) as He by (unfold events; simpl; by rewrite omap_app, (assoc_L (++))).
  split; rewrite ?He; try apply Hinv.
  - intros k cn c Hk Hc. simpl. rewrite omap_app. simpl. rewrite app_nil_r. by apply Hinv.
  - intros q k r [Hin|Hin]%elem_of_app; [by eapply (iv_notify_lt _ _ _ _ Hinv)|]. set_solver.
  - intros q rs Hq. destruct (iv_waiting _ _ _ _ Hinv q rs Hq) as [H1 H2]. split; [done|].
    destruct H2 as [?|[h Hh]]; [by left|]. right. exists h. simpl. set_solver.
  - intros q. rewrite omap_app, sel_app. change (sy_sent s') with (sy_sent s). rewrite <-(iv_out _ _ _ _ Hinv q), <-Ho.
    unfold waiting_ids, wire_ids. simpl. solve_Permutation.
  - intros id p Hin. apply (iv_xi _ _ _ _ Hinv id p). by apply Hsub.
  - done.
  - intros id. rewrite omap_app. simpl. rewrite Hr, app_nil_r. apply Hinv.
  - apply all_fit_in_app. split; [apply Hinv|]. split; [|done]. apply Hf. intros [id p] Hx. apply (iv_open _ _ _ _ Hinv). by left.
  - intros id p. rewrite foldl_app. simpl. rewrite Hre, (iv_open _ _ _ _ Hinv). split.
    + intros [[Hin|?] Himp]; [left; by apply Himp|by right].
    + intros [Hin|(k & c & Hc & Hin)]; [split; [left; by apply Hsub|done]|]. split; [right; by exists k, c|]. intros Hxi.
      destruct (iv_xi _ _ _ _ Hinv id p Hxi) as [_ Hno]. destruct (proj1 (iv_sync _ _ _ _ Hinv p k)) as (cn & Hk & <-); [by exists c|].
      destruct (Hno k cn c Hk Hc). by left.
Qed.

Lemma rr_inv_failures_out n xi p e ids :
  ∀ s, rr_inv n (tagged p ids) xi s → rr_inv n [] xi (set_behaviour s (foldl (λ b id, generate b (RE_OutboundFailure p id e)) (sy_behaviour s) ids)).
Proof.
  induction ids as [|id ids IH]; intros s Hinv; simpl; [by destruct s|].
  apply (IH (set_behaviour s (generate (sy_behaviour s) (RE_OutboundFailure p id e)))). eapply rr_inv_generate; [done|done| |apply Hinv|done|done|].
  - intros q. simpl. by case_decide.
  - intros O i q. simpl. tauto.
Qed.

Lemma rr_inv_failures_in n xo p ids :
  ∀ s, rr_inv n xo (tagged p ids) s →
  rr_inv n xo [] (set_behaviour s (foldl (λ b id, generate b (RE_InboundFailure p id IF_ConnectionClosed)) (sy_behaviour s) ids)).
Proof.
  induction ids as [|id ids IH]; intros s Hinv; simpl; [by destruct s|].
  apply (IH (set_behaviour s (generate (sy_behaviour s) (RE_InboundFailure p id IF_ConnectionClosed)))).
  pose proof (iv_xi_nodup _ _ _ _ Hinv) as Hnd. simpl in Hnd. apply NoDup_cons in Hnd as [Hid Hnd].
  eapply rr_inv_generate; [done|done|done|done| | |].
  - intros x Hx. by right.
  - intros O HO. apply HO. by left.
  - intros O i q. simpl. set_unfold. naive_solver.
Qed.

(** ** Connections that are made, fail and close *)

Lemma answer_dial_other p q l : q ≠ p → q ∈ l → q ∈ answer_dial p l.
Proof.
  intros Hne Hin. unfold answer_dial. destruct (list_find (λ x, x = p) l) as [[i x]|] eqn:Hf; [|done].
  apply list_find_Some in Hf as (Hi & -> & _). rewrite <-(take_drop_middle _ _ _ Hi) in Hin. rewrite delete_take_drop. set_solver.
Qed.

Lemma sel_tagged p q l : sel q (tagged p l) = if decide (q = p) then l else [].
Proof.
  induction l as [|id l IH]; [simpl; by case_decide|]. change (tagged p (id :: l)) with ((id, p) :: tagged p l). rewrite sel_cons, IH.
  simpl. destruct (decide (p = q)) as [->|Hne]; [by rewrite !decide_True|by rewrite !decide_False].
Qed.

(** The requests that wait for a connection to [p] are taken out. *)
Lemma rr_inv_unwait n s p dials :
  rr_inv n [] [] s → (∀ q, q ≠ p → q ∈ sy_dials s → q ∈ dials) →
  rr_inv n (tagged p (waiting_ids (sy_behaviour s) p)) []
    (mkSystem (set_pending_requests (sy_behaviour s) (delete p (pending_outbound_requests (sy_behaviour s)))) (sy_conns s) (sy_next_conn s)
       (sy_rq s) (sy_rs s) dials (sy_sent s) (sy_log s)).
Proof.
  intros Hinv Hd. split; try apply Hinv; simpl.
  - intros q rs. rewrite lookup_delete_Some. intros [Hne Hq]. destruct (iv_waiting _ _ _ _ Hinv q rs Hq) as [H1 [H2|H2]]; (split; [done|]); [|by right].
    left. by apply Hd.
  - intros q. rewrite <-(iv_out _ _ _ _ Hinv q), sel_tagged. unfold waiting_ids, wire_ids, events. simpl. destruct (decide (q = p)) as [->|Hne].
    + rewrite lookup_delete_eq. simpl. solve_Permutation.
    + by rewrite lookup_delete_ne.
Qed.

Lemma connections_to_zero n xo xi s p : rr_inv n xo xi s → connections_to (sy_conns s) p = 0 ↔ connected (sy_behaviour s) !! p = None.
Proof.
  intros Hinv. split.
  - intros Hz. destruct (connected (sy_behaviour s) !! p) as [cs|] eqn:Hc; [|done]. destruct (iv_shape _ _ _ _ Hinv _ _ Hc) as [Hne _].
    destruct cs as [|c cs]; [done|]. destruct (proj1 (iv_sync _ _ _ _ Hinv p (rc_id c))) as (cn & Hk & Hp).
    { exists c. eexists. split; [done|]. set_solver. }
    by eapply (map_count_zero (λ x, cn_peer x.2 = p) _ _ _ Hz) in Hk.
  - intros Hc. destruct (decide (connections_to (sy_conns s) p = 0)) as [|Hne]; [done|]. unfold connections_to, map_count in Hne.
    apply map_size_non_empty_iff in Hne. apply map_choose in Hne as (k & cn & Hk). apply map_lookup_filter_Some in Hk as [Hk Hp]. simpl in Hp.
    destruct (proj2 (iv_sync _ _ _ _ Hinv p k)) as (c & cs & Hcs & _); [by exists cn|]. congruence.
Qed.

(** A connection without anything on it is added. *)
Section new_connection.
Context (n : N) (xo : list (N * PeerId)) (s : System) (p : PeerId) (address : option Multiaddr) (h : Handler).
Hypothesis (Hinv : rr_inv n xo [] s) (Hwait : pending_outbound_requests (sy_behaviour s) !! p = None)
  (Hi : rh_inbound h = []) (Hpe : rh_pending_events h = []) (Hob : rh_outbound h = []).

Let k := sy_next_conn s.
Let c := Connection_new k address.
Let cn := mkConn p h [] [] [] ∅.
Let s' := mkSystem (set_connected (sy_behaviour s) (<[p := default [] (connected (sy_behaviour s) !! p) ++ [c]]> (connected (sy_behaviour s))))
  (<[k := cn]> (sy_conns s)) (k + 1) (sy_rq s) (sy_rs s) (sy_dials s) (sy_sent s) (sy_log s).

Lemma connect_no_conn : sy_conns s !! k = None.
Proof.
  destruct (sy_conns s !! k) eqn:Hk; [|done]. assert (k < sy_next_conn s)%N; [|unfold k in *; lia].
  apply (iv_conn_lt _ _ _ _ Hinv). by rewrite Hk.
Qed.

Lemma connect_fresh q x : ¬ conn_in (sy_behaviour s) q k x.
Proof.
  intros Hx. destruct (proj1 (iv_sync _ _ _ _ Hinv q k)) as (cn1 & Hcn1 & _); [by exists x|]. pose proof connect_no_conn. congruence.
Qed.

Lemma connect_conn_in q k1 x : conn_in (sy_behaviour s') q k1 x ↔ (q = p ∧ k1 = k ∧ x = c) ∨ conn_in (sy_behaviour s) q k1 x.
Proof.
  unfold conn_in. simpl. destruct (decide (q = p)) as [->|Hne].
  - rewrite lookup_insert_eq. split.
    + intros (? & [= <-] & [Hin|Hin]%elem_of_app & Hk1).
      * right. destruct (connected (sy_behaviour s) !! p) as [cs|]; [by exists cs|set_solver].
      * apply list_elem_of_singleton in Hin as ->. left. by rewrite <-Hk1.
    + intros [(_ & -> & ->)|(cs & -> & Hin & Hk1)]; (eexists; split; [done|]); set_solver.
  - rewrite lookup_insert_ne by done. naive_solver.
Qed.

Lemma connect_no_id id : ¬ inbound_id c cn id.
Proof. unfold inbound_id, cn_queue. simpl. rewrite Hi, Hpe, lookup_empty. simpl. intros [?|[?|[?|[? ?]]]]; set_solver. Qed.

Lemma connect_conns k1 cn1 x :
  sy_conns s' !! k1 = Some cn1 → conn_in (sy_behaviour s') (cn_peer cn1) k1 x →
  (k1 = k ∧ cn1 = cn ∧ x = c) ∨ (sy_conns s !! k1 = Some cn1 ∧ conn_in (sy_behaviour s) (cn_peer cn1) k1 x).
Proof.
  rewrite connect_conn_in. simpl. destruct (decide (k1 = k)) as [->|Hne].
  - rewrite lookup_insert_eq. intros [= <-] [(_ & _ & ->)|Hx]; [by left|]. by apply connect_fresh in Hx.
  - rewrite lookup_insert_ne by done. intros H1 [(_ & ? & _)|Hx]; [done|by right].
Qed.

Lemma connect_shape q cs : connected (sy_behaviour s') !! q = Some cs → cs ≠ [] ∧ NoDup (rc_id <$> cs).
Proof.
  simpl. destruct (decide (q = p)) as [->|Hne]; [|rewrite lookup_insert_ne by done; apply Hinv]. rewrite lookup_insert_eq. intros [= <-].
  split; [by destruct (default [] _)|]. rewrite fmap_app. apply NoDup_app. split; [|split; [|apply NoDup_singleton]].
  - destruct (connected (sy_behaviour s) !! p) as [cs|] eqn:Hcs; [|constructor]. by apply (iv_shape _ _ _ _ Hinv) in Hcs as [_ ?].
  - intros i (x & -> & Hx)%list_elem_of_fmap Heq%list_elem_of_singleton. simpl in Heq.
    destruct (connected (sy_behaviour s) !! p) as [cs|] eqn:Hcs; [|set_solver]. apply (connect_fresh p x). by exists cs.
Qed.

Lemma connect_sync q k1 : (∃ x, conn_in (sy_behaviour s') q k1 x) ↔ ∃ cn1, sy_conns s' !! k1 = Some cn1 ∧ cn_peer cn1 = q.
Proof.
  pose proof connect_no_conn as Hk. split.
  - intros [x [(-> & -> & ->)|Hx]%connect_conn_in]; [simpl; rewrite lookup_insert_eq; by exists cn|].
    destruct (proj1 (iv_sync _ _ _ _ Hinv q k1)) as (cn1 & Hcn1 & Hp1); [by exists x|]. exists cn1. simpl. rewrite lookup_insert_ne; [done|congruence].
  - intros (cn1 & Hcn1 & <-). simpl in Hcn1. destruct (decide (k1 = k)) as [->|Hne].
    + rewrite lookup_insert_eq in Hcn1. injection Hcn1 as <-. exists c. apply connect_conn_in. by left.
    + rewrite lookup_insert_ne in Hcn1 by done. destruct (proj2 (iv_sync _ _ _ _ Hinv (cn_peer cn1) k1)) as [x Hx]; [by exists cn1|].
      exists x. apply connect_conn_in. by right.
Qed.

Lemma connect_notify : omap (notify_to k) (rr_pending_events (sy_behaviour s)) = [].
Proof.
  destruct (omap (notify_to k) (rr_pending_events (sy_behaviour s))) as [|i l] eqn:Hl; [done|].
  assert (i ∈ omap (notify_to k) (rr_pending_events (sy_behaviour s))) as Hin by (rewrite Hl; left).
  apply list_elem_of_omap in Hin as ([| |] & Hin & Hn); simplify_eq/=. case_decide; [|done]. subst.
  apply (iv_notify_lt _ _ _ _ Hinv) in Hin. unfold k in *. lia.
Qed.

Lemma connect_ok nt rq rs : nt = [] → conn_ok nt rq rs c cn.
Proof.
  intros ->. assert (cn_tokens cn = []) as Ht by (unfold cn_tokens, cn_queue; simpl; by rewrite Hob, Hpe).
  split; rewrite ?Ht; simpl; rewrite ?Hi; try done; [constructor|set_solver|by unfold cn_queue; simpl; rewrite Hpe|constructor|set_solver].
Qed.

Lemma rr_inv_connect : rr_inv n xo [] s'.
Proof.
  split; try apply Hinv; [apply connect_shape|apply connect_sync| | | | | | | | | |].
  - intros k1 cn1 x H1 H2. destruct (connect_conns _ _ _ H1 H2) as [(-> & -> & ->)|[H3 H4]]; [by apply connect_ok, connect_notify|by apply Hinv].
  - intros k1. simpl. intros [<-|Hk1]%lookup_insert_is_Some'; [unfold k; lia|]. pose proof (iv_conn_lt _ _ _ _ Hinv k1 Hk1). unfold k. lia.
  - intros q k1 r Hin. pose proof (iv_notify_lt _ _ _ _ Hinv q k1 r Hin). simpl. unfold k. lia.
  - intros q rs Hq. destruct (iv_waiting _ _ _ _ Hinv q rs Hq) as [H1 H2]. split; [|done]. simpl. rewrite lookup_insert_ne; [done|]. intros <-. simpl in Hq. congruence.
  - intros q. change (sy_sent s') with (sy_sent s). rewrite <-(iv_out _ _ _ _ Hinv q). unfold waiting_ids, wire_ids, events. simpl. destruct (decide (q = p)) as [->|Hne]; [|by rewrite lookup_insert_ne].
    rewrite lookup_insert_eq. simpl. rewrite conns_ids_app, conns_ids_cons. simpl. rewrite elements_empty. by rewrite !app_nil_r.
  - intros k1 cn1 x id H1 H2 Hid. destruct (connect_conns _ _ _ H1 H2) as [(-> & -> & ->)|[H3 H4]]; [by apply connect_no_id in Hid|by eapply (iv_in_lt _ _ _ _ Hinv)].
  - intros k1 cn1 x1 k2 cn2 x2 id H1 H2 H3 H4 H5 H6.
    destruct (connect_conns _ _ _ H1 H2) as [(-> & -> & ->)|[H7 H8]]; [by apply connect_no_id in H5|].
    destruct (connect_conns _ _ _ H3 H4) as [(-> & -> & ->)|[H9 H10]]; [by apply connect_no_id in H6|]. by eapply (iv_in_disjoint _ _ _ _ Hinv k1 cn1 x1 k2 cn2 x2 id).
  - intros id q Hin. set_solver.
  - intros id Hin. destruct (iv_released _ _ _ _ Hinv id Hin) as [H1 H2]. split; [done|]. intros k1 cn1. simpl.
    destruct (decide (k1 = k)) as [->|Hne]; [rewrite lookup_insert_eq; intros [= <-]; simpl; rewrite Hi; set_solver|]. rewrite lookup_insert_ne by done. apply H2.
  - intros id q. change (events s') with (events s). rewrite (iv_open _ _ _ _ Hinv). split; (intros [?|(k1 & x & Hx & Hin)]; [by left|right]).
    + exists k1, x. split; [|done]. apply connect_conn_in. by right.
    + apply connect_conn_in in Hx as [(_ & _ & ->)|Hx]; [set_solver|by exists k1, x].
Qed.
End new_connection.

Lemma step_established_inv n s p endpoint dialed :
  rr_inv n [] [] s → ∃ s', step_established s p endpoint dialed = Ret s' ∧ rr_inv n [] [] s'.
Proof.
  intros Hinv. unfold step_established, RequestResponse_inject_connection_established. pose proof (connections_to_zero _ _ _ _ p Hinv) as Hz.
  set (dials := if dialed then answer_dial p (sy_dials s) else sy_dials s).
  assert (∀ q, q ≠ p → q ∈ sy_dials s → q ∈ dials) as Hd.
  { intros q Hne Hq. unfold dials. destruct dialed; [by apply answer_dial_other|done]. }
  pose proof (rr_inv_unwait n s p dials Hinv Hd) as Hu.
  eapply rr_inv_connect with (p := p) (address := dialed_address endpoint) (h := RequestResponse_new_handler (sy_behaviour s)) in Hu;
    [|apply lookup_delete_eq|done..].
  destruct (pending_outbound_requests (sy_behaviour s) !! p) as [pending|] eqn:Hp.
  - destruct (iv_waiting _ _ _ _ Hinv p pending Hp) as [Hnone _]. apply Hz in Hnone. rewrite decide_True by done. simpl. rewrite Hp.
    unfold waiting_ids in Hu. rewrite Hp in Hu. simpl in Hu. set (s1 := mkSystem _ _ _ _ _ _ _ _) in Hu.
    destruct (send_pending_inv n [] s1 p pending) as (b & Hb & Hinv' & Hh); [by rewrite app_nil_r|simpl; rewrite lookup_insert_eq; done|].
    match goal with |- context [send_pending ?x p pending] => change x with (sy_behaviour s1) end.
    rewrite Hb. eexists. split; [reflexivity|]. rewrite Hh. done.
  - simpl. rewrite Hp. rewrite (delete_id _ _ Hp) in Hu. unfold waiting_ids in Hu. rewrite Hp in Hu.
    destruct (decide (connections_to (sy_conns s) p = 0)); (eexists; split; [reflexivity|]; apply Hu).
Qed.

Lemma step_dial_failure_inv n s peer :
  rr_inv n [] [] s →
  rr_inv n [] [] (set_dials (set_behaviour s (RequestResponse_inject_dial_failure (sy_behaviour s) peer))
    (match peer with Some peer => answer_dial peer (sy_dials s) | None => sy_dials s end)).
Proof.
  intros Hinv. destruct peer as [p|]; simpl; [|by destruct s].
  pose proof (rr_inv_unwait n s p (answer_dial p (sy_dials s)) Hinv (λ q Hne, answer_dial_other p q _ Hne)) as Hu. unfold waiting_ids in Hu.
  destruct (pending_outbound_requests (sy_behaviour s) !! p) as [pending|] eqn:Hp.
  - apply (rr_inv_failures_out n [] p OF_DialFailure) in Hu. simpl in Hu. by rewrite foldl_fmap in Hu.
  - rewrite (delete_id _ _ Hp) in Hu. clear Hp Hinv. destruct s as [b]. by destruct b.
Qed.

(** The connection [k] is removed from the state, with what was pending on it. *)
Section close_connection.
Context (n : N) (s : System) (k : N) (cn : Conn) (c : @Connection Multiaddr) (l1 l2 : list (@Connection Multiaddr))
  (rs' : gmap N (@ResponseChannel Response)).
Hypothesis (Hinv : rr_inv n [] [] s) (Hk : sy_conns s !! k = Some cn)
  (Hb : connected (sy_behaviour s) !! cn_peer cn = Some (l1 ++ c :: l2)) (Hc : rc_id c = k)
  (Hrs : ∀ id, negotiating_in cn !! id = None → rs' !! id = sy_rs s !! id).

Let p := cn_peer cn.
Let s' := mkSystem (set_connected (sy_behaviour s)
    (if decide (l1 ++ l2 = []) then delete p (connected (sy_behaviour s)) else <[p := l1 ++ l2]> (connected (sy_behaviour s))))
  (delete k (sy_conns s)) (sy_next_conn s) (sy_rq s) rs' (sy_dials s) (sy_sent s) (sy_log s).

Lemma close_here : conn_in (sy_behaviour s) p k c.
Proof. eexists. split; [done|]. split; [set_solver|done]. Qed.

Lemma close_lookup q : default [] (connected (sy_behaviour s') !! q) = if decide (q = p) then l1 ++ l2 else default [] (connected (sy_behaviour s) !! q).
Proof.
  simpl. destruct (decide (q = p)) as [->|Hne]; case_decide as Hl.
  - by rewrite lookup_delete_eq, Hl.
  - by rewrite lookup_insert_eq.
  - by rewrite lookup_delete_ne.
  - by rewrite lookup_insert_ne.
Qed.

Lemma close_shape q cs : connected (sy_behaviour s') !! q = Some cs → cs ≠ [] ∧ NoDup (rc_id <$> cs).
Proof.
  simpl. case_decide as Hl.
  - rewrite lookup_delete_Some. intros [_ Hq]. by apply Hinv in Hq.
  - destruct (decide (q = p)) as [->|Hne]; [|rewrite lookup_insert_ne by done; apply Hinv]. rewrite lookup_insert_eq. intros [= <-]. split; [done|].
    apply (iv_shape _ _ _ _ Hinv) in Hb as [_ Hn]. rewrite fmap_app in *. simpl in Hn. rewrite <-Permutation_middle in Hn. by apply NoDup_cons in Hn as [_ ?].
Qed.

Lemma conn_in_default b q k1 x : conn_in b q k1 x ↔ x ∈ default [] (connected b !! q) ∧ rc_id x = k1.
Proof. unfold conn_in. destruct (connected b !! q) as [cs|]; simpl; [|set_solver]. naive_solver. Qed.

Lemma close_conn_in q k1 x : conn_in (sy_behaviour s') q k1 x ↔ (q ≠ p ∨ k1 ≠ k) ∧ conn_in (sy_behaviour s) q k1 x.
Proof.
  pose proof (iv_shape _ _ _ _ Hinv _ _ Hb) as [_ Hn]. rewrite !conn_in_default, close_lookup.
  destruct (decide (q = p)) as [->|Hne]; [|tauto]. unfold p. rewrite Hb. simpl.
  rewrite fmap_app in Hn. simpl in Hn. rewrite <-Permutation_middle in Hn. apply NoDup_cons in Hn as [Hn _]. rewrite <-fmap_app in Hn.
  split.
  - intros [Hx <-]. split; [|set_solver]. right. intros He. apply Hn. rewrite Hc, <-He. apply list_elem_of_fmap. by exists x.
  - intros [[?|Hne] [Hx <-]]; [done|]. split; [|done]. apply elem_of_app in Hx as [?|[->|?]%elem_of_cons]; set_solver.
Qed.

Lemma close_conns k1 cn1 x :
  sy_conns s' !! k1 = Some cn1 → conn_in (sy_behaviour s') (cn_peer cn1) k1 x →
  k1 ≠ k ∧ sy_conns s !! k1 = Some cn1 ∧ conn_in (sy_behaviour s) (cn_peer cn1) k1 x.
Proof. simpl. rewrite lookup_delete_Some. intros [Hne H1] [_ H2]%close_conn_in. done. Qed.

Lemma close_sync q k1 : (∃ x, conn_in (sy_behaviour s') q k1 x) ↔ ∃ cn1, sy_conns s' !! k1 = Some cn1 ∧ cn_peer cn1 = q.
Proof.
  setoid_rewrite close_conn_in. simpl. setoid_rewrite lookup_delete_Some. split.
  - intros (x & Hne & Hx). destruct (proj1 (iv_sync _ _ _ _ Hinv q k1)) as (cn1 & Hcn1 & Hp1); [by exists x|]. exists cn1. split; [|done]. split; [|done].
    intros <-. unfold p in Hne. destruct Hne; [|done]. congruence.
  - intros (cn1 & [Hne Hcn1] & Hp1). destruct (proj2 (iv_sync _ _ _ _ Hinv q k1)) as [x Hx]; [by exists cn1|]. exists x. split; [by right|done].
Qed.

Lemma close_distinct k1 cn1 x id : sy_conns s !! k1 = Some cn1 → conn_in (sy_behaviour s) (cn_peer cn1) k1 x → k1 ≠ k →
  inbound_id x cn1 id → ¬ inbound_id c cn id.
Proof. intros H1 H2 Hne H3 H4. apply Hne. by eapply (iv_in_disjoint _ _ _ _ Hinv k1 cn1 x k cn c id); eauto using close_here. Qed.

Lemma rr_inv_close :
  rr_inv n (tagged p (elements (pending_inbound_responses c))) (tagged p (elements (pending_outbound_responses c))) s'.
Proof.
  split; try apply Hinv; [apply close_shape|apply close_sync| | | | | | | | | |].
  - intros k1 cn1 x H1 H2. destruct (close_conns _ _ _ H1 H2) as (Hne & H3 & H4). eapply conn_ok_channels; [by apply Hinv|]. intros id Hid. split; [done|].
    simpl. apply Hrs. destruct (negotiating_in cn !! id) eqn:Hn; [|done]. destruct (close_distinct k1 cn1 x id H3 H4 Hne Hid). right. right. right. by rewrite Hn.
  - intros k1 [cn1 H1]. simpl in H1. apply lookup_delete_Some in H1 as [_ H1]. apply (iv_conn_lt _ _ _ _ Hinv). by exists cn1.
  - intros q rs Hq. destruct (iv_waiting _ _ _ _ Hinv q rs Hq) as [H1 H2]. split; [|done]. simpl. assert (q ≠ p) as Hne by (intros ->; unfold p in *; congruence).
    case_decide; [by rewrite lookup_delete_ne|by rewrite lookup_insert_ne].
  - intros q. change (sy_sent s') with (sy_sent s). rewrite <-(iv_out _ _ _ _ Hinv q), sel_tagged. unfold wire_ids. rewrite close_lookup.
    unfold waiting_ids, events. simpl. destruct (decide (q = p)) as [->|Hne]; [|done]. unfold p. rewrite Hb. simpl. rewrite !conns_ids_app, conns_ids_cons. solve_Permutation.
  - intros k1 cn1 x id H1 H2. destruct (close_conns _ _ _ H1 H2) as (Hne & H3 & H4). by apply (iv_in_lt _ _ _ _ Hinv k1 cn1 x id).
  - intros k1 cn1 x1 k2 cn2 x2 id H1 H2 H3 H4. destruct (close_conns _ _ _ H1 H2) as (_ & H5 & H6), (close_conns _ _ _ H3 H4) as (_ & H7 & H8).
    by apply (iv_in_disjoint _ _ _ _ Hinv k1 cn1 x1 k2 cn2 x2 id).
  - intros id q Hin. apply list_elem_of_fmap in Hin as (i & [= -> ->] & Hin%elem_of_elements).
    assert (inbound_id c cn i) as Hid by by left. split; [by apply (iv_in_lt _ _ _ _ Hinv k cn c i Hk close_here)|].
    intros k1 cn1 x H1 H2 Hid'. destruct (close_conns _ _ _ H1 H2) as (Hne & H3 & H4). by eapply close_distinct.
  - apply NoDup_fmap_2; [by intros ? ? [= ->]|apply NoDup_elements].
  - intros id Hin. destruct (iv_released _ _ _ _ Hinv id Hin) as [H1 H2]. split; [done|]. intros k1 cn1. simpl. rewrite lookup_delete_Some. intros [_ ?]. by eapply H2.
  - intros id q. change (events s') with (events s). rewrite (iv_open _ _ _ _ Hinv). split.
    + intros [?|(k1 & x & Hx & Hin)]; [set_solver|]. destruct (decide (q = p ∧ k1 = k)) as [[-> ->]|Hne].
      * left. apply list_elem_of_fmap. exists id. split; [done|]. apply elem_of_elements. by rewrite (conn_in_unique _ _ _ _ _ (iv_shape _ _ _ _ Hinv) close_here Hx).
      * right. exists k1, x. split; [|done]. apply close_conn_in. split; [|done]. destruct (decide (q = p)); [right|by left]. tauto.
    + intros [Hin|(k1 & x & [_ Hx]%close_conn_in & Hin)]; [|right; by exists k1, x].
      apply list_elem_of_fmap in Hin as (i & [= -> ->] & Hin%elem_of_elements). right. exists k, c. split; [apply close_here|done].
Qed.
End close_connection.

Lemma foldr_drop_receiver (l : list N) (rs : gmap N (@ResponseChannel Response)) id : id ∉ l → foldr drop_receiver rs l !! id = rs !! id.
Proof.
  induction l as [|i l IH]; [done|]. rewrite not_elem_of_cons. intros [Hne Hl]. simpl. unfold drop_receiver at 1. rewrite lookup_insert_ne by done. by apply IH.
Qed.

Section steps.
Context (hash_order : gset N → list N) (hash_order_elements : ∀ X, hash_order X ≡ₚ elements X).

Lemma step_closed_inv n s k cn :
  rr_inv n [] [] s → sy_conns s !! k = Some cn → ∃ s', step_closed hash_order s k cn = Ret s' ∧ rr_inv n [] [] s'.
Proof.
  intros Hinv Hk. destruct (proj2 (iv_sync _ _ _ _ Hinv (cn_peer cn) k)) as (c & cs & Hb & Hin & Hc); [by exists cn|].
  pose proof (iv_shape _ _ _ _ Hinv _ _ Hb) as [_ Hn]. unfold step_closed, RequestResponse_inject_connection_closed. rewrite Hb. cbn [mbind outcome_bind expect].
  destruct (list_find (λ c, rc_id c = k) cs) as [[i c0]|] eqn:Hf.
  2:{ apply list_find_None in Hf. rewrite Forall_forall in Hf. by apply Hf in Hin. }
  apply list_find_Some in Hf as (Hi & Hc0 & _). assert (c0 = c) as -> by (eapply NoDup_ids_unique; [done|by eapply list_elem_of_lookup_2|done|by rewrite Hc]).
  cbn [mbind outcome_bind expect]. rewrite delete_take_drop. rewrite <-(take_drop_middle _ _ _ Hi) in Hb. set (l1 := take i cs) in *. set (l2 := drop (S i) cs) in *.
  set (rs' := foldr drop_receiver (sy_rs s) (sp_response_receiver <$> (map_to_list (negotiating_in cn)).*2.*1)).
  assert (∀ id, negotiating_in cn !! id = None → rs' !! id = sy_rs s !! id) as Hrs.
  { intros id Hid. apply foldr_drop_receiver. intros (proto & -> & Hp)%list_elem_of_fmap.
    apply list_elem_of_fmap in Hp as ([proto' st] & -> & Hp). apply list_elem_of_fmap in Hp as ([j v] & Hv & Hj%elem_of_map_to_list). simpl in *. subst v.
    assert (conn_in (sy_behaviour s) (cn_peer cn) k c) as Hci by (eexists; split; [done|]; set_solver).
    destruct (ck_neg _ _ _ _ _ (iv_conn _ _ _ _ Hinv k cn c Hk Hci) j proto' st Hj) as (_ & _ & Hr & _). congruence. }
  pose proof (rr_inv_close n s k cn c l1 l2 rs' Hinv Hk Hb Hc Hrs) as Hcl. pose proof (connections_to_zero _ _ _ _ (cn_peer cn) Hcl) as Hz. simpl in Hz.
  apply (rr_inv_perm _ _ (tagged (cn_peer cn) (hash_order (pending_inbound_responses c))) _ (tagged (cn_peer cn) (hash_order (pending_outbound_responses c)))) in Hcl;
    [|by unfold tagged; rewrite hash_order_elements..].
  apply rr_inv_failures_in, rr_inv_failures_out with (e := OF_ConnectionClosed) in Hcl.
  assert (eqb (bool_decide (l1 ++ l2 = [])) (bool_decide (connections_to (delete k (sy_conns s)) (cn_peer cn) = 0)) = true) as ->.
  { apply eqb_true_iff, bool_decide_ext. rewrite Hz. case_decide as Hl; [by rewrite lookup_delete_eq|]. by rewrite lookup_insert_eq. }
  cbn [mbind outcome_bind assert]. eexists. split; [reflexivity|]. apply Hcl.
Qed.

Lemma on_conn_inv n s k (f : Conn → outcome System) :
  rr_inv n [] [] s → (∀ cn, sy_conns s !! k = Some cn → ∃ s', f cn = Ret s' ∧ rr_inv n [] [] s') →
  ∃ s', on_conn s k f = Ret s' ∧ rr_inv n [] [] s'.
Proof. intros Hinv Hf. unfold on_conn. destruct (sy_conns s !! k) as [cn|]; [by apply Hf|by exists s]. Qed.

Lemma rr_step_inv n op s :
  (n + 1 < 2 ^ 64)%N → rr_inv n [] [] s → ∃ s', rr_step hash_order op s = Ret s' ∧ rr_inv (n + 1) [] [] s'.
Proof.
  intros Hn Hinv. assert (∀ m, (∃ s', m = Ret s' ∧ rr_inv n [] [] s') → ∃ s', m = Ret s' ∧ rr_inv (n + 1) [] [] s') as Hmono.
  { intros m (s' & -> & Hs'). exists s'. split; [done|]. eapply rr_inv_mono; [|done]. lia. }
  destruct op as [peer request|ch response|ch|peer address|peer address| |peer endpoint dialed|k endpoint|k|peer|k|k now order|k i r|k|k id act|k]; cbn [rr_step].
  - destruct (step_send_inv n s peer request Hn Hinv) as (id & b & Hb & Hs). rewrite Hb. by eexists.
  - apply Hmono. eexists. split; [done|]. case_decide; [|done]. unfold send_response. destruct (sy_rs s !! ch) as [[]|]; try (by destruct s). by apply rr_inv_channel.
  - apply Hmono. eexists. split; [done|]. case_decide; [|done]. destruct (sy_rs s !! ch) as [[]|]; try done. by apply rr_inv_channel.
  - apply Hmono. eexists. split; [done|]. by apply rr_inv_addresses.
  - apply Hmono. eexists. split; [done|]. unfold remove_address. destruct (rr_addresses _ !! peer); [|by destruct s]. case_decide; by apply rr_inv_addresses.
  - apply Hmono. eexists. split; [done|]. by apply step_poll_inv.
  - apply Hmono. by apply step_established_inv.
  - apply Hmono, on_conn_inv; [done|]. intros cn Hk. destruct (step_address_change_inv n s k cn endpoint Hinv Hk) as (b & -> & Hs). by eexists.
  - apply Hmono, on_conn_inv; [done|]. intros cn Hk. case_decide; [by apply step_closed_inv|by exists s].
  - apply Hmono. eexists. split; [done|]. by apply step_dial_failure_inv.
  - apply Hmono, on_conn_inv; [done|]. intros cn Hk. eexists. split; [done|]. destruct (cn_commands cn) as [|request commands] eqn:Hc; [done|]. by apply step_command_inv.
  - apply Hmono, on_conn_inv; [done|]. intros cn Hk. eexists. split; [done|]. by apply step_handler_poll_inv.
  - apply Hmono, on_conn_inv; [done|]. intros cn Hk. eexists. split; [done|]. by apply step_outbound_inv.
  - unfold on_conn. destruct (sy_conns s !! k) as [cn|] eqn:Hk; [|apply Hmono; by exists s]. eexists. split; [done|]. by apply step_inbound_substream_inv.
  - apply Hmono, on_conn_inv; [done|]. intros cn Hk. by apply step_inbound_inv.
  - apply Hmono, on_conn_inv; [done|]. intros cn Hk. by apply step_event_inv.
Qed.

Lemma rr_run_inv n ops s :
  (n + N.of_nat (length ops) < 2 ^ 64)%N → rr_inv n [] [] s → ∃ s', rr_run hash_order ops s = Ret s' ∧ rr_inv (n + N.of_nat (length ops)) [] [] s'.
Proof.
  revert n s. induction ops as [|op ops IH]; intros n s Hn Hinv; [exists s; simpl; by rewrite N.add_0_r|].
  cbn [length] in *. destruct (rr_step_inv n op s) as (s1 & Hs1 & Hinv1); [lia|done|].
  destruct (IH (n + 1)%N s1) as (s2 & Hs2 & Hinv2); [lia|done|]. exists s2. simpl. rewrite Hs1. split; [done|].
  by replace (n + N.of_nat (S (length ops)))%N with (n + 1 + N.of_nat (length ops))%N by lia.
Qed.

Lemma rr_run_new codec protocols cfg ops :
  (1 + N.of_nat (length ops) < 2 ^ 64)%N →
  ∃ n s, rr_run hash_order ops (System_new (RequestResponse_new codec protocols cfg)) = Ret s ∧ rr_inv n [] [] s.
Proof. intros Hn. destruct (rr_run_inv 1 ops _ Hn (rr_inv_new codec protocols cfg)) as (s & Hs). by eexists _, s. Qed.

(** ** What the user sees *)

Lemma is_pending_outbound_spec b p id : is_pending_outbound b p id = true ↔ id ∈ waiting_ids b p ++ wire_ids b p.
Proof.
  unfold is_pending_outbound, waiting_ids, wire_ids, conns_ids. rewrite orb_true_iff, elem_of_app, list_elem_of_bind, list_elem_of_fmap.
  assert (∀ (A : Type) (f : A → bool) o, map_or false (existsb f) o = true ↔ ∃ x, x ∈ default [] o ∧ f x = true) as Hex.
  { intros A f [l|]; simpl; [|set_solver]. rewrite existsb_exists. setoid_rewrite list_elem_of_In. done. }
  rewrite !Hex. setoid_rewrite bool_decide_eq_true. setoid_rewrite elem_of_elements. naive_solver.
Qed.

Lemma is_pending_inbound_spec b p id : is_pending_inbound b p id = true ↔ ∃ k c, conn_in b p k c ∧ id ∈ pending_outbound_responses c.
Proof.
  unfold is_pending_inbound, conn_in. destruct (connected b !! p) as [cs|]; simpl; [|naive_solver].
  rewrite existsb_exists. setoid_rewrite bool_decide_eq_true. setoid_rewrite <-list_elem_of_In. naive_solver.
Qed.

Lemma NoDup_of_sel (l : list (N * PeerId)) : (∀ p, NoDup (sel p l)) → NoDup l.
Proof.
  induction l as [|[id p] l IH]; intros Hl; [constructor|]. apply NoDup_cons. split.
  - intros Hin%elem_of_sel. specialize (Hl p). rewrite sel_cons, decide_True in Hl by done. by apply NoDup_cons in Hl as [? _].
  - apply IH. intros q. specialize (Hl q). rewrite sel_cons in Hl. by apply NoDup_app in Hl as (_ & _ & ?).
Qed.

(** [C30] Every outbound request ends exactly once.  Whatever the peers, the network and
    the user do, the behaviour does not panic, a request gets a new id, and it is either
    pending or has one outcome, a response or a failure, which is reported or about to
    be; there is no outcome without a request.  A request is pending only as long as
    there is a connection to its peer, or the peer is being dialed. *)
Theorem outbound_exactly_once codec protocols cfg ops :
  (1 + N.of_nat (length ops) < 2 ^ 64)%N →
  ∃ s, rr_run hash_order ops (System_new (RequestResponse_new codec protocols cfg)) = Ret s ∧
    NoDup (sy_sent s).*1 ∧ NoDup (omap outcome_of (events s)) ∧
    (∀ id p, (id, p) ∈ sy_sent s ↔ is_pending_outbound (sy_behaviour s) p id = true ∨ (id, p) ∈ omap outcome_of (events s)) ∧
    (∀ id p, is_pending_outbound (sy_behaviour s) p id = true → (id, p) ∉ omap outcome_of (events s)) ∧
    (∀ id p, is_pending_outbound (sy_behaviour s) p id = true →
      (∃ k cn, sy_conns s !! k = Some cn ∧ cn_peer cn = p) ∨ p ∈ sy_dials s ∨ ∃ h, Dial p h ∈ rr_pending_events (sy_behaviour s)).
Proof.
  intros Hn. destruct (rr_run_new codec protocols cfg ops Hn) as (n & s & Hs & Hinv). exists s. split; [done|]. split; [apply Hinv|].
  assert (∀ p, NoDup (waiting_ids (sy_behaviour s) p ++ wire_ids (sy_behaviour s) p ++ sel p (omap outcome_of (events s)))) as Hnd.
  { intros p. pose proof (NoDup_sel p _ (iv_sent _ _ _ _ Hinv)) as Hnd. rewrite <-(iv_out _ _ _ _ Hinv p) in Hnd. simpl in Hnd. by rewrite app_nil_r in Hnd. }
  split_and!.
  - apply NoDup_of_sel. intros p. specialize (Hnd p). rewrite (assoc_L (++)) in Hnd. by apply NoDup_app in Hnd as (_ & _ & ?).
  - intros id p. rewrite is_pending_outbound_spec, <-!elem_of_sel, <-(iv_out _ _ _ _ Hinv p). simpl. rewrite app_nil_r, !elem_of_app. tauto.
  - intros id p. rewrite is_pending_outbound_spec, <-elem_of_sel. specialize (Hnd p). rewrite (assoc_L (++)) in Hnd. apply NoDup_app in Hnd as (_ & Hd & _). apply Hd.
  - intros id p. rewrite is_pending_outbound_spec, elem_of_app. unfold waiting_ids, wire_ids. intros [Hw|Hw].
    + destruct (pending_outbound_requests (sy_behaviour s) !! p) as [rs|] eqn:Hp; [|set_solver]. right. by apply (iv_waiting _ _ _ _ Hinv p rs).
    + destruct (connected (sy_behaviour s) !! p) as [[|c cs]|] eqn:Hc; [set_solver| |set_solver]. left.
      destruct (proj1 (iv_sync _ _ _ _ Hinv p (rc_id c))) as (cn & Hk & Hp); [exists c; eexists; split; [done|]; set_solver|]. by exists (rc_id c), cn.
Qed.

(** [C31] The events tell the user which inbound requests are open, that is waiting for a
    response: a request opens it, that its response was sent or omitted, or that its
    connection was closed, is reported only for a request that is open, and closes it;
    and the requests that are open after all events are exactly those that are pending. *)
Theorem inbound_accounted codec protocols cfg ops :
  (1 + N.of_nat (length ops) < 2 ^ 64)%N →
  ∃ s, rr_run hash_order ops (System_new (RequestResponse_new codec protocols cfg)) = Ret s ∧ all_fit_in ∅ (events s) ∧
    ∀ id p, (id, p) ∈ foldl replay_in ∅ (events s) ↔ is_pending_inbound (sy_behaviour s) p id = true.
Proof.
  intros Hn. destruct (rr_run_new codec protocols cfg ops Hn) as (n & s & Hs & Hinv). exists s. split; [done|]. split; [apply Hinv|].
  intros id p. rewrite is_pending_inbound_spec, (iv_open _ _ _ _ Hinv). set_solver.
Qed.
End steps.
End run.

(** ** Runs *)

#[local] Abbreviation sample_op := (@rr_op N N N N).

Definition sample_behaviour : @RequestResponse N N N unit N N _ _ :=
  RequestResponse_new () [(0%N, Support_Full)] (mkRequestResponseConfig 10 10).

Definition sample_system_run (ops : list sample_op) := rr_run elements ops (System_new sample_behaviour).

(** A request to peer 2, which answers it, and one to peer 3, which cannot be dialed. *)
Definition sample_requests : list sample_op :=
  [OpSendRequest 2%N 7%N; OpPoll; OpEstablished 2%N (ConnectedDialer 20%N MplexCodec.Dialer) true; OpPoll; OpCommand 0; OpHandlerPoll 0 0 [];
   OpOutbound 0 0 (Ok 8%N); OpHandlerPoll 0 0 []; OpEvent 0; OpPoll; OpSendRequest 3%N 9%N; OpPoll; OpDialFailure (Some 3%N); OpPoll].

(** Peer 2 sends a request, and gets its response. *)
Definition sample_responses : list sample_op :=
  [OpEstablished 2%N (ConnectedListener 10%N 20%N) false; OpInboundSubstream 0; OpInbound 0 1 (ActRead 5%N); OpHandlerPoll 0 0 []; OpEvent 0; OpPoll;
   OpSendResponse 1 6%N; OpInbound 0 1 ActResponse; OpInbound 0 1 ActClosed; OpHandlerPoll 0 0 []; OpEvent 0; OpPoll].

Lemma outbound_exactly_once_witness :
  ∃ s, rr_run elements sample_requests (System_new sample_behaviour) = Ret s ∧ sy_sent s = [(1, 2); (2, 3)]%N ∧
    omap outcome_of (events s) = [(1, 2); (2, 3)]%N ∧ is_pending_outbound (sy_behaviour s) 2%N 1 = false.
Proof.
  destruct (outbound_exactly_once elements (λ X, reflexivity (elements X)) () [(0%N, Support_Full)] (mkRequestResponseConfig 10 10) sample_requests
    ltac:(vm_compute; done)) as (s & Hs & _ & _ & _ & Hp & _).
  exists s. split; [exact Hs|].
  assert (match rr_run elements sample_requests (System_new sample_behaviour) with
          | Ret s => Some (sy_sent s, omap outcome_of (events s)) | Panic => None end = Some ([(1, 2); (2, 3)], [(1, 2); (2, 3)])%N) as Hv
    by (vm_compute; reflexivity).
  unfold sample_behaviour in Hv. rewrite Hs in Hv. injection Hv as H1 H2. split; [exact H1|]. split; [exact H2|].
  apply not_true_iff_false. intros Ht. apply Hp in Ht. rewrite H2 in Ht. apply Ht. left.
Defined.

Lemma inbound_accounted_witness :
  ∃ s, rr_run elements sample_responses (System_new sample_behaviour) = Ret s ∧ length (events s) = 2 ∧
    all_fit_in ∅ (events s) ∧ is_pending_inbound (sy_behaviour s) 2%N 1 = false.
Proof.
  destruct (inbound_accounted elements (λ X, reflexivity (elements X)) () [(0%N, Support_Full)] (mkRequestResponseConfig 10 10) sample_responses
    ltac:(vm_compute; done)) as (s & Hs & Hf & Hp).
  exists s. split; [exact Hs|].
  assert (match rr_run elements sample_responses (System_new sample_behaviour) with
          | Ret s => Some (length (events s), bool_decide (foldl replay_in ∅ (events s) = ∅)) | Panic => None end = Some (2, true)) as Hv
    by (vm_compute; reflexivity).
  unfold sample_behaviour in Hv. rewrite Hs in Hv. injection Hv as H1 H2%bool_decide_eq_true. split; [exact H1|]. split; [exact Hf|].
  apply not_true_iff_false. intros Ht. apply Hp in Ht. rewrite H2 in Ht. exact (not_elem_of_empty _ Ht).
Defined.

(** While the event of another substream is being delivered, a request that has arrived
    times out.  It is reported after its failure, stays pending although a response is
    refused, and fails again when the connection is closed. *)
Example timeout_before_request :
  match sample_system_run [OpEstablished 2%N (ConnectedListener 10%N 20%N) false; OpInboundSubstream 0; OpInboundSubstream 0;
          OpInbound 0 1 (ActSelectError NegotiationFailed); OpInbound 0 2 (ActRead 5%N); OpHandlerPoll 0 0 []; OpInbound 0 2 ActTimeout;
          OpHandlerPoll 0 0 []; OpHandlerPoll 0 0 []; OpEvent 0; OpEvent 0; OpEvent 0; OpPoll; OpPoll; OpPoll] with
  | Ret s =>
      sy_log s = [RE_InboundFailure 2%N 1 IF_UnsupportedProtocols; RE_InboundFailure 2%N 2 IF_Timeout; RE_Message 2%N (Message_Request 2 5%N 2)] ∧
      is_pending_inbound (sy_behaviour s) 2%N 2 = true ∧ (send_response (sy_rs s) 2 6%N).1 = Err 6%N ∧
      match rr_run elements [OpClosed 0; OpPoll] s with
      | Ret s => last (sy_log s) = Some (RE_InboundFailure 2%N 2 IF_ConnectionClosed)
      | Panic => False
      end
  | Panic => False
  end.
Proof. vm_compute. split_and!; reflexivity. Qed.
